(* ===== verification/_CoqProject ===== *)
-Q . S2P
Prelude.v
PatchParser.v
PatchInvariant.v
PatchGrammar.v
SeekSequence.v
TextFile.v
FileSystem.v
FileUpdate.v
ApplyHunks.v
Invocation.v
TurnDiff.v
ExecPolicy.v
ShellTree.v
CommandSafety.v
StreamText.v
AssistantText.v
Utf8Stream.v
HeadTail.v
ResponseItems.v
Truncate.v
ContextFragments.v
Normalize.v
ContextManager.v
NetAddr.v
NetPolicy.v
NetConfig.v
NetState.v
CredBroker.v
MitmHook.v
NetRuntime.v
NetSafety.v
NetSpec.v
AbsPath.v
FsPolicy.v
FsUpdates.v
FsRoots.v
Profiles.v
Approvals.v
PatchSafety.v
ExecApproval.v
Orchestrator.v
IndexMap.v
NetApproval.v
AgentRegistry.v
TomlMerge.v
ConfigLayers.v
Constrained.v
ConfigEdits.v
ShellEnv.v
RolloutReplay.v
Features.v
ManagedFeatures.v
