(* ===== verification/Prelude.v ===== *)
(** * A verification library for the core of Codex's Rust workspace

    This library models the parts of [codex-rs] that change files and report what was
    changed, decide which commands may run, under which approvals and sandboxes, which files they
    may touch and which hosts they may reach, take the assistant's streamed text apart, keep the
    history of a conversation and the sizes of what goes into it and rebuild it from its records, and
    merge, restrict and write the configuration all of this follows, and proves the theorems that make
    them correct.  Definitions follow the
    source function by function and are executable; effects are explicit state passing, in a
    state and error monad where state and errors run through many calls, or steps of tasks
    over a shared state where the source takes locks.

    ** The program's parts, and where they are modelled

    [apply_patch] edits files from a patch written by a model.  A patch is parsed
    ([PatchParser.v]), possibly while it is still being streamed; each update hunk is
    located in its file ([SeekSequence.v]) and turned into new contents ([TextFile.v],
    [FileUpdate.v]); the hunks are applied to a file system one by one and what was
    committed is recorded in a delta ([ApplyHunks.v]).  Before that, an argument vector
    is recognised as a patch and the changes it would make are computed for approval
    ([Invocation.v]).  The deltas of a turn feed a tracker that shows the turn's net diff
    ([TurnDiff.v]).  Commands, in turn, are checked against a policy of rules
    ([ExecPolicy.v]), or classified as safe or dangerous ([CommandSafety.v]) after a shell
    script has been taken apart ([ShellTree.v]).  The assistant's text arrives in pieces and
    is stripped of citations ([StreamText.v]) and plans ([AssistantText.v]) on the way,
    possibly from bytes ([Utf8Stream.v]).

    The output of a command is collected in a capped buffer ([HeadTail.v]) and truncated
    ([Truncate.v]) before it enters the history ([ContextManager.v]) as an item
    ([ResponseItems.v]); the history is paired and stripped for a prompt ([Normalize.v]), and
    rolled back by turns, which are told from injected context ([ContextFragments.v]).  A thread
    that is resumed takes its history from the records of its turns ([RolloutReplay.v]), and the
    agents of a session share a registry with a limit ([AgentRegistry.v]).

    What a command may read and write is a policy of entries for absolute paths ([AbsPath.v]):
    the most specific entry decides, and workspace metadata is protected ([FsPolicy.v]); policies
    are built for a workspace and changed ([FsUpdates.v]), and a sandbox takes from them the
    roots it makes readable and writable ([FsRoots.v]).  Together with the network they form a
    permission profile, which is narrowed and widened by what is requested and granted
    ([Profiles.v]).

    A tool call needs an approval or not ([Approvals.v]); for a patch that depends on the files it
    writes ([PatchSafety.v]), for a command on rules and heuristics, and rules can be added on the
    way ([ExecApproval.v]).  The orchestrator asks for the approval, runs the tool in a sandbox and
    may run it again without ([Orchestrator.v]).

    A network proxy stands between commands and the network: hosts are classified
    ([NetAddr.v]) and matched with patterns ([NetPolicy.v]) of a configuration
    ([NetConfig.v]) that is checked against managed constraints ([NetState.v]) derived from
    requirements ([NetSpec.v]); requests are decided over a state that is reloaded while they
    run ([NetRuntime.v]), credentials are kept out of the commands and put into the requests
    ([CredBroker.v]), and hooks change or refuse intercepted requests ([MitmHook.v]).
    [NetSafety.v] has the theorems on the whole.  A request that the policy does not settle is put
    to a reviewer, once for all commands that wait for it ([NetApproval.v]).

    The configuration is a stack of layers ([ConfigLayers.v]) that are merged as TOML values
    ([TomlMerge.v]); clients change the user's layer and its file ([ConfigEdits.v]).  Administrators
    restrict settings ([Constrained.v]) and pin features ([ManagedFeatures.v]), which follow from
    the configuration ([Features.v]), as does the environment that commands get ([ShellEnv.v]).

    - [Prelude.v]: Rust's strings as lists of code points with the methods of [str] and
      [char] the source uses; [result] with a constructor for a panic; the monad [M];
      sorting; the hint database [rust] and the tactics of the library.
    - [PatchParser.v] models [apply-patch/src/parser.rs] and [streaming_parser.rs]: the
      record [StreamingPatchParser] is the parser's state, [push_delta], [finish] and
      [process_line] its operations, [parse_patch] the batch entry point.
    - [PatchInvariant.v]: the invariant of the parser over all reachable states, and its
      consequences: well-formed and stable hunks, no panic.
    - [PatchGrammar.v]: patches as sentences of the documented grammar in which an update has a
      change and every block of it a line, their text and their meaning; parsing the text gives the
      meaning, also inside a heredoc, and the parser refuses the updates that are left out.
    - [SeekSequence.v] models [seek_sequence.rs]: soundness, completeness and preference
      of the four matching passes.
    - [TextFile.v] models [text_file.rs]: files as lines with their endings; round trip
      and the meaning of replacements.
    - [FileSystem.v]: the interface [ExecutorFileSystem] of [file-system/src/lib.rs] and
      the methods of [PathUri] as type classes, the laws the application relies on
      ([FileSystemLaws]), and an in-memory instance that satisfies them.
    - [FileUpdate.v] models [file_update.rs]: [compute_replacements], the two rewriting
      routines and [derive_new_contents]; the replacements are ordered and disjoint, the
      two routines agree, and an update replaces the first occurrence of its old lines.
    - [ApplyHunks.v] models [apply-patch/src/lib.rs]: [apply_hunks_to_files] over a state
      of file system and delta.  Its specification [spec_hunks] is a partial function on
      views; success with an exact delta refines it, and an exact delta, on success or
      failure, replays to the new files and reverts to the old ones.
    - [Invocation.v] models [invocation.rs]: what was verified is what is applied, when
      no move ends at its own source or at a path another change names.
    - [TurnDiff.v] models [core/src/turn_diff_tracker.rs] and the update of the tracker in
      [core/src/tools/events.rs]: the tracker mirrors the files, its diff is the net
      change of the turn, its cache is never stale, an inexact delta silences it.
    - [ExecPolicy.v] models [execpolicy/src/policy.rs], [rule.rs], [decision.rs] and
      [executable_name.rs]: matching, the strictest decision, overlays, network domains.
    - [ShellTree.v] models [shell-command/src/bash.rs] and the detection of shells of
      [shell_detect.rs] over the trees a parser returns.
    - [CommandSafety.v] models [command_safety/is_safe_command.rs] and
      [is_dangerous_command.rs] as built for Unix: a safe command is never dangerous,
      wrappers are seen through, safe git commands only read.
    - [StreamText.v] models [utils/stream-parser/src/stream_text.rs],
      [inline_hidden_tag.rs] and [citation.rs]: the trait of stream parsers as a class, its
      contract [StreamTextSpec], and the inline tag parser, which keeps it: however the text
      is cut, it yields what [hide] reads in the whole text.
    - [AssistantText.v] models [tagged_line_parser.rs], [proposed_plan.rs] and
      [assistant_text.rs] of the same crate: the line parser keeps the contract with a
      specification by whole lines, and the two parsers in a row yield what their
      specifications say one after the other.
    - [Utf8Stream.v] models [utf8_stream.rs]: around any parser that keeps the contract,
      bytes cut anywhere give the result of the text they encode, or the right error.
    - [HeadTail.v] models [core/src/unified_exec/head_tail_buffer.rs]: the buffer represents
      the bytes it has seen, by their beginning, their end and the number between.
    - [ResponseItems.v] models the items of [protocol/src/models.rs] and their accessors.
    - [Truncate.v] models [utils/string/src/truncate.rs], [utils/output-truncation] and
      [TruncationPolicy]: a text keeps its longest ends that fit, the text of a tool
      output stays within its budget.
    - [ContextFragments.v] models the fragments injected as context and how they are
      recognised: what is rendered is recognised.
    - [Normalize.v] models [core/src/context_manager/normalize.rs]: the result is paired,
      holds only what the model takes, and is a fixed point.
    - [ContextManager.v] models [core/src/context_manager/history.rs] with the token usage of
      [protocol/src/protocol.rs]: recording, prompts, eviction, rollback and estimates.
    - [AbsPath.v] models [utils/absolute-path]: paths as Unix reads them, and [AbsolutePathBuf],
      whose values are normal forms however they are built, save against a relative base.
    - [FsPolicy.v] models the policies of [protocol/src/permissions.rs] and the access they give:
      which entry decides, when metadata can be written, what disk-wide access means.
    - [FsUpdates.v] models the operations of the same file that build and change policies: denied
      reads survive, materialised roots are not rebound, a workspace's metadata is read-only and
      its other files writable, additional roots change nothing else.
    - [FsRoots.v] models the roots, the matcher of denied reads and the legacy policies of
      [permissions.rs] and [protocol.rs]: writable roots are the policy's, legacy policies
      survive conversion, malformed patterns fail closed.
    - [Profiles.v] models the profiles of [protocol/src/models.rs] and
      [sandboxing/src/policy_transforms.rs]: an intersection gives what both sides give, additional
      permissions decide where they are the more specific and nowhere else, conversions round trip.
    - [Approvals.v] models the approval policies and decisions of the protocol,
      [core/src/tools/sandboxing.rs] and the selection in [sandboxing/src/manager.rs]: approvals for
      a session are remembered, for all keys or none.
    - [PatchSafety.v] models [core/src/safety.rs] and [apply_patch.rs]: a patch that is approved
      without asking changes only paths the policy lets it write, also when it is applied.
    - [ExecApproval.v] models [core/src/exec_policy.rs] and [model_policy.rs]: approval is skipped
      only for commands that rules or heuristics allow, and an accepted amendment settles the
      request it was proposed for.
    - [Orchestrator.v] models [core/src/tools/orchestrator.rs] as a program over the answers it
      gets: no run without its approval, no unsandboxed run where reads are denied.
    - [IndexMap.v]: maps that keep the order of insertion, used by [NetApproval.v] and for tables.
    - [NetApproval.v] models [core/src/tools/network_approval.rs] as tasks over the state of
      [NetworkApprovalService], with the persistence of amendments of [core/src/session/mod.rs]: every
      request is answered, access follows from a review of its host in its environment, the approved
      and denied hosts of a session stay apart, a denied review fails its command.
    - [AgentRegistry.v] models [core/src/agent/registry.rs], with the atomic counter as steps of
      tasks, and [protocol/src/agent_path.rs]: agents stay within their limit, paths resolve.
    - [TomlMerge.v] models [config/src/merge.rs], [key_aliases.rs] and [overrides.rs], and
      [ConfigLayers.v] [state.rs], [config_layer_source.rs], [fingerprint.rs] and the checks of
      [shell_environment_policy.rs]: the highest layer that has a setting decides it and is named as
      its origin, and every stack is ordered.
    - [Constrained.v] models [config/src/constraint.rs]: a value passes every validator that was
      accepted for it.
    - [ConfigEdits.v] models the writes of [app-server/src/config_manager_service.rs] and the edits
      of documents in [core/src/config/edit.rs]: the file says what was checked, refused writes change
      nothing, fields that requirements fix are kept.
    - [Features.v] models [features/src/lib.rs] and [legacy.rs] with the whole registry, and
      [ManagedFeatures.v] [core/src/config/managed_features.rs]: features follow the sources in their
      order, and pinned features hold through every change.
    - [ShellEnv.v] models [protocol/src/shell_environment.rs] and [core/src/exec_env.rs]: an
      environment is what the policy says of each variable, and restricted variables stay out.
    - [RolloutReplay.v] models [core/src/session/rollout_reconstruction.rs] with the legacy
      compactions of [core/src/compact.rs]: scanning back for a checkpoint and replaying from it
      gives what replaying everything gives.
    - [NetAddr.v]: the addresses of [std::net] and the classes of public addresses.
    - [NetPolicy.v] models [network-proxy/src/policy.rs], [NetConfig.v] [config.rs], and
      [NetState.v] [state.rs]: a compiled state is one within its constraints.
    - [CredBroker.v] models [credential_broker.rs] and its providers: masked environments
      restore, no credential is left, and one is put into a request for a host it is bound to in
      place of its own dummy and nowhere else.
    - [MitmHook.v] models [mitm_hook.rs] and the paths of its hooks.
    - [NetRuntime.v] models [runtime.rs], [network_policy.rs] and [connect_policy.rs] as
      tasks over a shared [World] whose steps interleave; invariants hold over all
      reachable systems.
    - [NetSafety.v]: when a host is allowed, what a decider may override, that rebound names
      are refused, that constraints are kept while credentials are registered, and that an operation
      alone ends.
    - [NetSpec.v] models [core/src/config/network_proxy_spec.rs] and the network part of
      [config/src/config_requirements.rs]: what is managed bounds what is reached.

    ** Interfaces and parameters

    What the source takes from other crates is an argument of the definitions, a type
    class: the file system and [PathUri] ([FileSystem.v]), the text of a diff, SHA-1 and
    the order of hash maps ([DiffOps]), tree-sitter ([BashQuery], [BashParser]), the
    platform's paths and quoting ([Host], [Target]), globs and URLs ([GlobSetOps],
    [UrlHostOps], [UrlOps]), socket paths ([SocketPathOps]), header maps, base64 and JSON
    ([HeaderOps], [MarkerOps], [Json]), random numbers and UUIDs ([Rng], [UuidOps]), the XML and
    JSON of marked messages ([FragmentDeps]), JSON sizes and media decoders ([HistoryOps]), the
    process and the disk that paths are resolved against ([PathEnv]), path globs ([GlobMatcherOps]),
    the platform's sandboxes ([TargetOs]), the paths that URIs stand for ([NativePaths]), Unicode's
    lower case ([CaseMapping]), the typed readings of TOML ([FilterDecoding], [Serialization]), the
    disk and the typed configuration behind a write ([ConfigManagerDeps]), patterns of variable names
    ([Patterns]), turn contexts, snapshots of the world and UUIDs of a rollout ([ReplayOps]).
    The laws assumed of them are classes too ([FileSystemLaws], [DiffOpsLaws], [BashGrammar],
    [GlobSetLaws], [PathEnvLaws], [NativePathsLaws], [HostLaws]) and have instances.  Between components of the source, [MitmHookOps] is what
    the configuration asks of hooks, and [MitmHook.v] implements it.

    ** Bounds and fuel

    Machine integers that are indices of something in memory are natural numbers; where they
    are sizes that saturate or counters that wrap they are in [N] or [Z] with the bound
    written out ([usize_add], [sat64], [wrap64]), and the product with a double is computed
    with its rounding ([mul_f64_ceil]).  Where the source would panic on an index, a slice or a subtraction, the model returns
    [Panic], and the theorems say that it does not.  A network request that needs a review takes at
    most the steps of [steps_left]; no fuel is used there, nor in merging, editing or replaying.
    Loops follow the structure of their
    input, except for the traversals of [ShellTree.v], whose fuel is the size of the tree
    (shown to be enough in [collect_loop_spec]), the detection of a shell, whose fuel is
    the length of its path, the search for dangerous commands, which the source itself
    stops at a fixed depth, and two loops of the stream parsers, whose fuel is the number of
    characters or bytes that are left: an iteration consumes at least one, and the theorems
    on the results hold for that fuel.  The search for an unused dummy credential has no bound
    in the source: [fresh_dummy] takes fuel, returns [None] without it, and the theorems say
    what it returns otherwise.  A decimal of 64 bits has at most the twenty digits of
    [decimal].

    ** Not modelled

    Asynchrony, but for the tasks of the network proxy, of network approvals and of the agent
    registry (elsewhere every operation runs to its end before the next), the sandbox context handed to the file system, the Starlark front
    end of policies, the tree-sitter parser and its query engine, the Windows variants,
    sockets, TLS and certificates of the proxy, its registry of execution tokens, the
    serialised forms of the protocol, the world state behind the history's baseline, and the
    rest of the workspace: user interface, servers, model clients, persistence, sandboxes.

    Of the configuration, reading the files, the typed form and its requirements other than those on
    features, networks and exact fields, the edits of a document other than setting and clearing a
    path, and the comments and layout of documents are left out.  The rest of the workspace consists of
    code around a terminal, sockets, processes, databases or remote services, whose behaviour is that of
    libraries and systems outside the repository. *)

From stdpp Require Import base list strings gmap.
From Stdlib Require Import Ascii NArith.

(** ** Rust values *)

(** A Rust [String] or [&str] is a sequence of Unicode scalar values, kept here
    as the list of their code points. *)
Abbreviation str := (list N).

(** ASCII literals of the source. *)
Definition lit (s : string) : str := N_of_ascii <$> String.list_ascii_of_string s.

Definition LF : N := 10.
Definition CR : N := 13.

(** [Result], with one more value for a computation that panics. *)
Inductive result (A E : Type) : Type :=
| Ok (a : A)
| Err (e : E)
| Panic.

Arguments Ok {A E} a.
Arguments Err {A E} e.
Arguments Panic {A E}.

Declare Scope rust_scope.
Delimit Scope rust_scope with rust.
Open Scope rust_scope.

(** The [?] operator. *)
Notation "'let?' p := e 'in' k" :=
  (match e with Ok p => k | Err err => Err err | Panic => Panic end)
  (at level 10, p pattern, e at level 200, k at level 200) : rust_scope.

Definition result_map {A B E} (f : A -> B) (r : result A E) : result B E :=
  match r with Ok a => Ok (f a) | Err e => Err e | Panic => Panic end.

Definition map_err {A E F} (f : E -> F) (r : result A E) : result A F :=
  match r with Ok a => Ok a | Err e => Err (f e) | Panic => Panic end.

(** Methods with [&mut self] that return a [Result]: the state survives an error. *)
Definition M (S E A : Type) : Type := S -> S * result A E.

#[export] Instance M_ret {S E} : MRet (M S E) := fun A a s => (s, Ok a).

#[export] Instance M_bind {S E} : MBind (M S E) := fun A B k m s =>
  match m s with
  | (s', Ok a) => k a s'
  | (s', Err e) => (s', Err e)
  | (s', Panic) => (s', Panic)
  end.

Definition throw {S E A} (e : E) : M S E A := fun s => (s, Err e).
Definition gets {S E A} (f : S -> A) : M S E A := fun s => (s, Ok (f s)).
Definition modify {S E} (f : S -> S) : M S E unit := fun s => (f s, Ok tt).

(** ** [char] and [str] methods *)

Definition char_eqb (a b : N) : bool := N.eqb a b.
Definition str_eqb (a b : str) : bool := bool_decide (a = b).
Definition is_empty {A} (l : list A) : bool := match l with [] => true | _ => false end.
Definition is_some_and {A} (o : option A) (p : A -> bool) : bool :=
  match o with Some a => p a | None => false end.

(** [char::is_whitespace]: the code points with the Unicode property White_Space. *)
Definition is_whitespace (c : N) : bool :=
  ((9 <=? c) && (c <=? 13) || (c =? 32) || (c =? 133) || (c =? 160) || (c =? 5760)
   || (8192 <=? c) && (c <=? 8202) || (c =? 8232) || (c =? 8233) || (c =? 8239)
   || (c =? 8287) || (c =? 12288))%N.

Definition is_ascii_digit (c : N) : bool := ((48 <=? c) && (c <=? 57))%N.

Definition to_ascii_lowercase_char (c : N) : N :=
  if ((65 <=? c) && (c <=? 90))%N then (c + 32)%N else c.
Definition to_ascii_lowercase (s : str) : str := to_ascii_lowercase_char <$> s.

Fixpoint drop_while {A} (p : A -> bool) (l : list A) : list A :=
  match l with
  | [] => []
  | x :: l' => if p x then drop_while p l' else l
  end.

Fixpoint take_while {A} (p : A -> bool) (l : list A) : list A :=
  match l with
  | [] => []
  | x :: l' => if p x then x :: take_while p l' else []
  end.

Definition trim_start (s : str) : str := drop_while is_whitespace s.
Definition trim_end_matches (p : N -> bool) (s : str) : str := rev (drop_while p (rev s)).
Definition trim_end (s : str) : str := trim_end_matches is_whitespace s.
Definition trim (s : str) : str := trim_end (trim_start s).

Fixpoint strip_prefix (p s : str) : option str :=
  match p, s with
  | [], _ => Some s
  | a :: p', b :: s' => if char_eqb a b then strip_prefix p' s' else None
  | _ :: _, [] => None
  end.

Definition starts_with (p s : str) : bool :=
  match strip_prefix p s with Some _ => true | None => false end.

Definition strip_suffix (p s : str) : option str :=
  match strip_prefix (rev p) (rev s) with Some r => Some (rev r) | None => None end.

Definition ends_with (p s : str) : bool :=
  match strip_suffix p s with Some _ => true | None => false end.

(** [str::split] on one character: a non-empty list of pieces. *)
Fixpoint split (sep : N) (s : str) : list str :=
  match s with
  | [] => [[]]
  | c :: s' =>
      if char_eqb c sep then [] :: split sep s'
      else match split sep s' with
           | [] => [[c]]
           | p :: ps => (c :: p) :: ps
           end
  end.

(** [str::split_once] at the first separator. *)
Fixpoint split_once (sep : N) (s : str) : option (str * str) :=
  match s with
  | [] => None
  | c :: s' =>
      if char_eqb c sep then Some ([], s')
      else match split_once sep s' with
           | Some (a, b) => Some (c :: a, b)
           | None => None
           end
  end.

(** [str::split_once] with a string. *)
Fixpoint split_once_str (delimiter s : str) : option (str * str) :=
  match strip_prefix delimiter s with
  | Some rest => Some ([], rest)
  | None =>
      match s with
      | [] => None
      | c :: s' =>
          match split_once_str delimiter s' with
          | Some (a, b) => Some (c :: a, b)
          | None => None
          end
      end
  end.

(** [str::rsplit_once]: at the last separator. *)
Definition rsplit_once (sep : N) (s : str) : option (str * str) :=
  match split_once sep (rev s) with
  | Some (a, b) => Some (rev b, rev a)
  | None => None
  end.

Fixpoint join (sep : str) (l : list str) : str :=
  match l with
  | [] => []
  | [s] => s
  | s :: l' => s ++ sep ++ join sep l'
  end.

(** One optional ['\r'] at the end. *)
Definition strip_cr (s : str) : str :=
  match strip_suffix [CR] s with Some s' => s' | None => s end.

(** [str::lines]: pieces ended by ['\n'] lose it and then an optional ['\r']; a last
    piece with no ['\n'] is kept as it is, and is absent when empty. *)
Fixpoint lines_of_pieces (ps : list str) : list str :=
  match ps with
  | [] => []
  | [last] => if is_empty last then [] else [last]
  | p :: ps' => strip_cr p :: lines_of_pieces ps'
  end.

Definition lines (s : str) : list str := lines_of_pieces (split LF s).

(** An unsigned number of at most 64 bits in decimal: twenty digits are enough. *)
Fixpoint decimal_digits (fuel : nat) (n : N) (acc : str) : str :=
  match fuel with
  | 0 => acc
  | S fuel =>
      let acc := (48 + n mod 10)%N :: acc in
      if (n <? 10)%N then acc else decimal_digits fuel (n / 10) acc
  end.
Definition decimal (n : N) : str := decimal_digits 20 n [].

(** [str::as_bytes]. *)
Definition utf8_encode_char (c : N) : list N :=
  (if c <? 128 then [c]
   else if c <? 2048 then [192 + c / 64; 128 + c mod 64]
   else if c <? 65536 then [224 + c / 4096; 128 + c / 64 mod 64; 128 + c mod 64]
   else [240 + c / 262144; 128 + c / 4096 mod 64; 128 + c / 64 mod 64; 128 + c mod 64])%N.

Definition utf8_encode (s : str) : list N := s ≫= utf8_encode_char.

(** [char::len_utf8], [str::len]: sizes in bytes. *)
Definition len_utf8 (c : N) : N := N.of_nat (length (utf8_encode_char c)).
Definition str_len (s : str) : N := N.of_nat (length (utf8_encode s)).

(** [str::split_at]: a text cut at the byte index [n], where [n] is the index of a character
    or the end ([is_char_boundary]); elsewhere slicing panics. *)
Fixpoint split_at (n : N) (s : str) : str * str :=
  match s with
  | [] => ([], [])
  | c :: s' => if (len_utf8 c <=? n)%N then let '(a, b) := split_at (n - len_utf8 c) s' in (c :: a, b) else ([], s)
  end.
Fixpoint is_char_boundary (n : N) (s : str) : bool :=
  (n =? 0)%N || match s with [] => false | c :: s' => (len_utf8 c <=? n)%N && is_char_boundary (n - len_utf8 c) s' end.

(** [str::get] of [..n] and of [n..]. *)
Definition get_to (n : N) (s : str) : option str := if is_char_boundary n s then Some (fst (split_at n s)) else None.
Definition get_from (n : N) (s : str) : option str := if is_char_boundary n s then Some (snd (split_at n s)) else None.

Definition eq_ignore_ascii_case (a b : str) : bool := str_eqb (to_ascii_lowercase a) (to_ascii_lowercase b).

(** The saturating operations of [usize], which has 64 bits. *)
Definition usize_max : N := 18446744073709551615.
Definition usize_add (a b : N) : N := N.min (a + b) usize_max.
Definition usize_mul (a b : N) : N := N.min (a * b) usize_max.

Definition mem_str (s : str) (l : list str) : bool := existsb (str_eqb s) l.
Definition contains_char (c : N) (s : str) : bool := existsb (char_eqb c) s.

(** ** The development's hint databases and tactics *)

Create HintDb rust.

(** Case analysis on the next [match] or [if] of the goal or of a hypothesis. *)
Ltac break_match :=
  match goal with
  | |- context [match ?x with _ => _ end] => destruct x eqn:?
  end.
Ltac break_match_in H :=
  match type of H with
  | context [match ?x with _ => _ end] => destruct x eqn:?
  end.
Ltac break_all :=
  repeat (first
    [ progress simplify_eq/=
    | match goal with
      | H : context [match ?x with _ => _ end] |- _ => destruct x eqn:?
      | |- context [match ?x with _ => _ end] => destruct x eqn:?
      end ]).

(** Boolean tests of the source as propositions. *)
Ltac to_prop :=
  repeat match goal with
  | H : (_ && _) = true |- _ => apply andb_true_iff in H as [? ?]
  | H : (_ || _) = false |- _ => apply orb_false_iff in H as [? ?]
  | H : negb _ = true |- _ => apply negb_true_iff in H
  | H : negb _ = false |- _ => apply negb_false_iff in H
  | H : str_eqb _ _ = true |- _ => unfold str_eqb in H; apply bool_decide_eq_true in H
  | H : str_eqb _ _ = false |- _ => unfold str_eqb in H; apply bool_decide_eq_false in H
  | H : char_eqb _ _ = true |- _ => unfold char_eqb in H; apply N.eqb_eq in H
  | H : char_eqb _ _ = false |- _ => unfold char_eqb in H; apply N.eqb_neq in H
  end.

(** Closed decidable propositions, by evaluation. *)
Ltac by_decide := apply (bool_decide_unpack _); vm_compute; exact I.

(** ** The state and error monad *)

Section monad.
Context {S E : Type}.

Lemma M_bind_Ok {A B} (m : M S E A) (k : A -> M S E B) s s' a :
  m s = (s', Ok a) -> (m ≫= k) s = k a s'.
Proof. intros H. unfold mbind, M_bind. by rewrite H. Qed.

Lemma M_bind_Err {A B} (m : M S E A) (k : A -> M S E B) s s' e :
  m s = (s', Err e) -> (m ≫= k) s = (s', Err e).
Proof. intros H. unfold mbind, M_bind. by rewrite H. Qed.

Lemma M_bind_inv_Ok {A B} (m : M S E A) (k : A -> M S E B) s s'' b :
  (m ≫= k) s = (s'', Ok b) ->
  exists s' a, m s = (s', Ok a) /\ k a s' = (s'', Ok b).
Proof. unfold mbind, M_bind. destruct (m s) as [s' [a|e|]]; naive_solver. Qed.

Lemma M_bind_assoc {A B C} (m : M S E A) (f : A -> M S E B) (g : B -> M S E C) s :
  ((m ≫= f) ≫= g) s = (m ≫= (fun a => f a ≫= g)) s.
Proof. unfold mbind, M_bind. by destruct (m s) as [s' [a|e|]]. Qed.

Lemma M_bind_ext {A B} (m : M S E A) (f g : A -> M S E B) s :
  (forall a s', f a s' = g a s') -> (m ≫= f) s = (m ≫= g) s.
Proof. intros H. unfold mbind, M_bind. destruct (m s) as [s' [a|e|]]; auto. Qed.

(** A predicate on states kept by every step of a computation, errors included. *)
Definition keeps {A} (P : S -> Prop) (m : M S E A) : Prop :=
  forall s, P s -> P (fst (m s)).

Lemma keeps_bind {A B} (P : S -> Prop) (m : M S E A) (k : A -> M S E B) :
  keeps P m -> (forall a, keeps P (k a)) -> keeps P (m ≫= k).
Proof.
  intros Hm Hk s Hs. unfold mbind, M_bind. specialize (Hm s Hs).
  destruct (m s) as [s' [a|e|]]; simpl in *; auto. by apply Hk.
Qed.

Lemma keeps_ret {A} (P : S -> Prop) (a : A) : keeps P (mret a : M S E A).
Proof. by intros s Hs. Qed.

End monad.

#[export] Hint Resolve keeps_bind keeps_ret : rust.

(** ** Lists *)

Lemma is_empty_true {A} (l : list A) : is_empty l = true <-> l = [].
Proof. destruct l; naive_solver. Qed.
Lemma is_empty_false {A} (l : list A) : is_empty l = false <-> l <> [].
Proof. destruct l; naive_solver. Qed.

Lemma last_Some_removelast {A} (l : list A) x : last l = Some x <-> l = removelast l ++ [x].
Proof.
  split; [|intros ->; apply last_snoc].
  induction l as [|a [|b l] IH]; simpl in *; [done|by intros [= ->]|].
  intros H. f_equal. auto.
Qed.

Lemma last_None_nil {A} (l : list A) : last l = None -> l = [].
Proof. apply last_None. Qed.

Lemma removelast_snoc {A} (l : list A) x : removelast (l ++ [x]) = l.
Proof. rewrite removelast_app by done. simpl. by rewrite app_nil_r. Qed.

Lemma filter_all {A} (P : A -> Prop) `{forall x, Decision (P x)} (l : list A) : Forall P l -> filter P l = l.
Proof. induction 1 as [|x l Hx _ IH]; [done|]. by rewrite filter_cons_True, IH. Qed.

Lemma drop_while_head {A} (p : A -> bool) (l : list A) x :
  head l = Some x -> p x = false -> drop_while p l = l.
Proof. destruct l; simpl; [done|]. intros [= ->] ->. done. Qed.

Lemma drop_while_suffix {A} (p : A -> bool) (l : list A) :
  exists w, l = w ++ drop_while p l /\ Forall (fun x => p x = true) w.
Proof.
  induction l as [|x l [w [Hw HF]]]; simpl; [by exists []|].
  destruct (p x) eqn:E; [|by exists []].
  exists (x :: w). simpl. split; [by f_equal|by constructor].
Qed.

Lemma drop_while_idem {A} (p : A -> bool) (l : list A) :
  drop_while p (drop_while p l) = drop_while p l.
Proof. induction l as [|x l IH]; simpl; [done|]. destruct (p x) eqn:E; [done|]. simpl. by rewrite E. Qed.

Lemma drop_while_app_nonmatch {A} (p : A -> bool) (l k : list A) :
  drop_while p l <> [] -> drop_while p (l ++ k) = drop_while p l ++ k.
Proof. induction l as [|x l IH]; simpl; [done|]. by destruct (p x); auto. Qed.

Lemma drop_while_nil_iff {A} (p : A -> bool) (l : list A) :
  drop_while p l = [] <-> Forall (fun x => p x = true) l.
Proof.
  induction l as [|x l IH]; simpl; [by split|].
  rewrite Forall_cons. destruct (p x) eqn:E; [rewrite IH; tauto|].
  split; [done|]. intros [? _]. congruence.
Qed.

(** ** Prefixes and suffixes *)

Lemma strip_prefix_app p s : strip_prefix p (p ++ s) = Some s.
Proof. induction p as [|a p IH]; simpl; [done|]. unfold char_eqb. by rewrite N.eqb_refl. Qed.

Lemma strip_prefix_Some p s r : strip_prefix p s = Some r <-> s = p ++ r.
Proof.
  split; [|intros ->; apply strip_prefix_app].
  revert s. induction p as [|a p IH]; intros [|b s]; simpl; try (by intros [= <-]).
  destruct (char_eqb a b) eqn:E; [|done]. to_prop. intros H. f_equal; auto.
Qed.

Lemma strip_prefix_head_ne a p b s : a <> b -> strip_prefix (a :: p) (b :: s) = None.
Proof. intros H. simpl. unfold char_eqb. by apply N.eqb_neq in H as ->. Qed.

Lemma strip_suffix_Some p s r : strip_suffix p s = Some r <-> s = r ++ p.
Proof.
  unfold strip_suffix. destruct (strip_prefix (rev p) (rev s)) as [q|] eqn:E.
  - apply strip_prefix_Some in E.
    assert (s = rev q ++ p) as -> by (rewrite <- (rev_involutive s), E, rev_app_distr, rev_involutive; done).
    split; [intros [= <-]; done|]. intros H. by apply app_inv_tail in H as ->.
  - split; [done|]. intros ->. rewrite rev_app_distr, strip_prefix_app in E. done.
Qed.

Lemma strip_suffix_None_last a s : last s <> Some a -> strip_suffix [a] s = None.
Proof.
  intros H. destruct (strip_suffix [a] s) as [r|] eqn:E; [|done].
  apply strip_suffix_Some in E as ->. by rewrite last_snoc in H.
Qed.

Lemma strip_cr_id s : last s <> Some CR -> strip_cr s = s.
Proof. intros H. unfold strip_cr. by rewrite strip_suffix_None_last. Qed.

Lemma starts_with_true p s : starts_with p s = true <-> exists r, s = p ++ r.
Proof.
  unfold starts_with. destruct (strip_prefix p s) as [r|] eqn:E.
  - apply strip_prefix_Some in E. naive_solver.
  - split; [done|]. intros [r ->]. by rewrite strip_prefix_app in E.
Qed.

(** ** Trimming *)

Lemma trim_start_id s c : head s = Some c -> is_whitespace c = false -> trim_start s = s.
Proof. apply drop_while_head. Qed.

Lemma head_rev {A} (l : list A) : head (rev l) = last l.
Proof.
  induction l as [|x l IH] using rev_ind; [done|]. by rewrite rev_app_distr, last_snoc.
Qed.

Lemma trim_end_id s c : last s = Some c -> is_whitespace c = false -> trim_end s = s.
Proof.
  intros Hl Hc. unfold trim_end, trim_end_matches.
  rewrite (drop_while_head _ _ c); [apply rev_involutive| |done]. by rewrite head_rev.
Qed.

Lemma trim_id s a b :
  head s = Some a -> is_whitespace a = false ->
  last s = Some b -> is_whitespace b = false -> trim s = s.
Proof. intros. unfold trim. erewrite trim_start_id by done. by eapply trim_end_id. Qed.

Lemma trim_end_split p s :
  exists w, s = trim_end_matches p s ++ w /\ Forall (fun c => p c = true) w.
Proof.
  unfold trim_end_matches. destruct (drop_while_suffix p (rev s)) as [w [Hw HF]].
  exists (rev w). split; [|by apply Forall_rev].
  by rewrite <- rev_app_distr, <- Hw, rev_involutive.
Qed.

Lemma trim_end_nonempty_head s c :
  head s = Some c -> is_whitespace c = false -> head (trim_end s) = Some c.
Proof.
  intros Hh Hc. destruct (trim_end_split is_whitespace s) as [w [Hs HF]].
  unfold trim_end. destruct (trim_end_matches is_whitespace s) as [|d t] eqn:E.
  - simpl in Hs. subst w. destruct s as [|x s]; [done|]. simpl in Hh. simplify_eq.
    apply Forall_cons in HF as [? _]. congruence.
  - rewrite Hs in Hh. exact Hh.
Qed.

Lemma trim_end_head s c : head (trim_end s) = Some c -> head s = Some c.
Proof.
  intros H. destruct (trim_end_split is_whitespace s) as [w [Hs _]]. unfold trim_end in H.
  rewrite Hs. destruct (trim_end_matches is_whitespace s); [done|]. exact H.
Qed.

(** ** Splitting into lines *)

Lemma split_no_sep sep s : sep ∉ s -> split sep s = [s].
Proof.
  induction s as [|c s IH]; [done|]. rewrite not_elem_of_cons. intros [Hne Hs]. simpl.
  destruct (char_eqb c sep) eqn:E; to_prop; [congruence|]. by rewrite IH.
Qed.

Lemma split_app_sep sep s t : sep ∉ s -> split sep (s ++ sep :: t) = s :: split sep t.
Proof.
  induction s as [|c s IH]; simpl.
  - intros _. unfold char_eqb. by rewrite N.eqb_refl.
  - rewrite not_elem_of_cons. intros [Hne Hs].
    destruct (char_eqb c sep) eqn:E; to_prop; [congruence|]. by rewrite IH.
Qed.

Lemma split_nonempty sep s : split sep s <> [].
Proof. destruct s as [|c s]; simpl; [done|]. by repeat case_match. Qed.

Lemma join_cons sep p ps : ps <> [] -> join sep (p :: ps) = p ++ sep ++ join sep ps.
Proof. by destruct ps. Qed.

Lemma join_cons_char sep c p ps : join sep ((c :: p) :: ps) = c :: join sep (p :: ps).
Proof. by destruct ps. Qed.

Lemma join_split sep s : join [sep] (split sep s) = s.
Proof.
  induction s as [|c s IH]; simpl; [done|]. pose proof (split_nonempty sep s) as Hne.
  destruct (char_eqb c sep) eqn:E.
  - to_prop. subst. rewrite join_cons by done. simpl. by rewrite IH.
  - destruct (split sep s) as [|p ps] eqn:Es; [done|]. by rewrite join_cons_char, IH.
Qed.

Lemma split_once_Some sep s a b : split_once sep s = Some (a, b) -> s = a ++ sep :: b /\ sep ∉ a.
Proof.
  revert a. induction s as [|c s IH]; intros a; simpl; [done|]. destruct (char_eqb c sep) eqn:E.
  - to_prop. intros [= <- <-]. subst. split; [done|apply not_elem_of_nil].
  - destruct (split_once sep s) as [[a' b']|]; [|done]. intros [= <- <-].
    destruct (IH a' eq_refl) as [-> Hn]. split; [done|]. rewrite not_elem_of_cons. split; [|done].
    intros ->. unfold char_eqb in E. by rewrite N.eqb_refl in E.
Qed.

(** A line that [lines] and the patch parser return unchanged. *)
Definition clean_line (s : str) : Prop := (LF ∉ s) /\ last s <> Some CR.

Lemma lines_join ls :
  Forall clean_line ls -> last ls <> Some [] -> lines (join [LF] ls) = ls.
Proof.
  unfold lines. intros HF Hlast. destruct ls as [|l ls]; [done|].
  revert l HF Hlast. induction ls as [|l' ls IH]; intros l HF Hlast.
  - apply Forall_singleton in HF as [Hl _]. simpl. rewrite split_no_sep by done. simpl.
    destruct l; [done|]. done.
  - apply Forall_cons in HF as [[Hl Hcr] HF]. rewrite join_cons by done.
    change ([LF] ++ join [LF] (l' :: ls)) with (LF :: join [LF] (l' :: ls)).
    rewrite split_app_sep by done.
    pose proof (split_nonempty LF (join [LF] (l' :: ls))) as Hne.
    specialize (IH l' HF Hlast).
    destruct (split LF (join [LF] (l' :: ls))) as [|q qs]; [done|].
    change (lines_of_pieces (l :: q :: qs)) with (strip_cr l :: lines_of_pieces (q :: qs)).
    by rewrite IH, strip_cr_id.
Qed.

(** ** Characters that survive *)

Lemma elem_of_drop_while {A} (p : A -> bool) l x : x ∈ drop_while p l -> x ∈ l.
Proof.
  induction l as [|y l IH]; simpl; [done|]. destruct (p y); [|done]. intros Hx. right. by apply IH.
Qed.

Lemma elem_of_trim_end_matches p s (c : N) : c ∈ trim_end_matches p s -> c ∈ s.
Proof.
  unfold trim_end_matches. rewrite !list_elem_of_In, <- in_rev, <- !list_elem_of_In. intros Hc%elem_of_drop_while.
  by rewrite list_elem_of_In, <- in_rev, <- list_elem_of_In in Hc.
Qed.

Lemma elem_of_trim s (c : N) : c ∈ trim s -> c ∈ s.
Proof. unfold trim, trim_end, trim_start. intros Hc%elem_of_trim_end_matches. by eapply elem_of_drop_while. Qed.

Lemma contains_char_spec c s : contains_char c s = true <-> c ∈ s.
Proof.
  unfold contains_char. rewrite existsb_exists, list_elem_of_In. split.
  - intros (x & Hx & Hc). unfold char_eqb in Hc. apply N.eqb_eq in Hc. by subst.
  - intros Hc. exists c. split; [done|]. apply N.eqb_refl.
Qed.

Lemma to_ascii_lowercase_idem s : to_ascii_lowercase (to_ascii_lowercase s) = to_ascii_lowercase s.
Proof.
  unfold to_ascii_lowercase. rewrite <- list_fmap_compose. apply list_fmap_ext. intros _ c _. simpl.
  unfold to_ascii_lowercase_char. destruct ((65 <=? c) && (c <=? 90))%N eqn:E; [|by rewrite E].
  apply andb_true_iff in E as [H1 H2]. apply N.leb_le in H1, H2.
  rewrite (proj2 (N.leb_gt (c + 32) 90)) by lia. by rewrite andb_false_r.
Qed.

(** Lowering case makes no character below [A]. *)
Lemma split_once_str_Some delimiter s a b : split_once_str delimiter s = Some (a, b) -> s = a ++ delimiter ++ b.
Proof.
  revert a. induction s as [|c s IH]; intros a; simpl.
  - destruct (strip_prefix delimiter []) as [r|] eqn:E; [|done]. intros [= <- <-]. by apply strip_prefix_Some in E.
  - destruct (strip_prefix delimiter (c :: s)) as [r|] eqn:E.
    + intros [= <- <-]. by apply strip_prefix_Some in E.
    + destruct (split_once_str delimiter s) as [[a' b']|]; [|done]. intros [= <- <-]. simpl. f_equal. by apply IH.
Qed.

(** *** Sizes in bytes *)

Lemma len_utf8_pos c : (1 <= len_utf8 c <= 4)%N.
Proof. unfold len_utf8, utf8_encode_char. repeat case_match; simpl; lia. Qed.

Lemma str_len_nil : str_len [] = 0%N.
Proof. done. Qed.

Lemma str_len_cons c s : str_len (c :: s) = (len_utf8 c + str_len s)%N.
Proof. unfold str_len, len_utf8, utf8_encode. rewrite bind_cons, length_app. lia. Qed.

Lemma str_len_app s t : str_len (s ++ t) = (str_len s + str_len t)%N.
Proof. unfold str_len, utf8_encode. rewrite bind_app, length_app. lia. Qed.

Lemma length_str_len s : (N.of_nat (length s) <= str_len s)%N.
Proof. induction s as [|c s IH]; [done|]. rewrite str_len_cons. pose proof (len_utf8_pos c). simpl length. lia. Qed.

Lemma str_len_ascii s : Forall (fun c => (c < 128)%N) s -> str_len s = N.of_nat (length s).
Proof.
  induction 1 as [|c s Hc _ IH]; [done|]. rewrite str_len_cons, IH. unfold len_utf8, utf8_encode_char.
  destruct (N.ltb_spec c 128); [|lia]. simpl length. lia.
Qed.

(** A text is cut where its first part ends. *)
Lemma split_at_app a b : split_at (str_len a) (a ++ b) = (a, b).
Proof.
  induction a as [|c a IH]; simpl.
  - rewrite str_len_nil. destruct b as [|c b]; [done|]. simpl. pose proof (len_utf8_pos c).
    destruct (N.leb_spec (len_utf8 c) 0); [lia|done].
  - rewrite str_len_cons. destruct (N.leb_spec (len_utf8 c) (len_utf8 c + str_len a)); [|lia].
    replace (len_utf8 c + str_len a - len_utf8 c)%N with (str_len a) by lia. by rewrite IH.
Qed.

Lemma is_char_boundary_app a b : is_char_boundary (str_len a) (a ++ b) = true.
Proof.
  induction a as [|c a IH]; [by destruct b|]. simpl. rewrite str_len_cons.
  destruct (N.leb_spec (len_utf8 c) (len_utf8 c + str_len a)); [|lia].
  replace (len_utf8 c + str_len a - len_utf8 c)%N with (str_len a) by lia. rewrite IH. apply orb_true_r.
Qed.

(** A decimal has at most twenty digits, and they are ASCII. *)
Lemma decimal_digits_length fuel n acc : length (decimal_digits fuel n acc) <= fuel + length acc.
Proof.
  revert n acc. induction fuel as [|fuel IH]; intros n acc; simpl; [lia|]. case_match; simpl; [lia|].
  etrans; [apply IH|]. simpl. lia.
Qed.

Lemma decimal_digits_ascii fuel n acc :
  Forall (fun c => (c < 128)%N) acc -> Forall (fun c => (c < 128)%N) (decimal_digits fuel n acc).
Proof.
  revert n acc. induction fuel as [|fuel IH]; intros n acc Ha; simpl; [done|].
  assert (Forall (fun c => (c < 128)%N) ((48 + n mod 10)%N :: acc)).
  { constructor; [|done]. pose proof (N.mod_lt n 10). lia. }
  case_match; [done|]. by apply IH.
Qed.

Lemma str_len_decimal n : (str_len (decimal n) <= 20)%N.
Proof.
  unfold decimal. rewrite str_len_ascii by (by apply decimal_digits_ascii). pose proof (decimal_digits_length 20 n []) as Hl.
  change (length (@nil N)) with 0 in Hl. lia.
Qed.

Lemma elem_of_to_ascii_lowercase c s : (c < 65)%N -> c ∈ to_ascii_lowercase s -> c ∈ s.
Proof.
  intros Hc. unfold to_ascii_lowercase. rewrite list_elem_of_fmap. intros (x & Hx & Hin).
  unfold to_ascii_lowercase_char in Hx. destruct (_ && _)%N eqn:E; [|by subst].
  apply andb_true_iff in E as [H1 H2]. apply N.leb_le in H1, H2. lia.
Qed.

(** ** Sorting *)

(** [String]'s order, that of its code points. *)
Fixpoint str_leb (a b : str) : bool :=
  match a, b with
  | [], _ => true
  | _ :: _, [] => false
  | x :: a', y :: b' => if N.ltb x y then true else if N.eqb x y then str_leb a' b' else false
  end.

(** [sort_by_key], a stable sort. *)
Fixpoint insert_by {A} (le : A -> A -> bool) (x : A) (l : list A) : list A :=
  match l with
  | [] => [x]
  | y :: l' => if le x y then x :: l else y :: insert_by le x l'
  end.
Definition sort_by {A} (le : A -> A -> bool) (l : list A) : list A := foldr (insert_by le) [] l.

(** [Vec::dedup]. *)
Fixpoint dedup {A} `{EqDecision A} (l : list A) : list A :=
  match l with
  | x :: (y :: _) as l' => if decide (x = y) then dedup l' else x :: dedup l'
  | _ => l
  end.

Lemma insert_by_perm {A} (le : A -> A -> bool) x l : insert_by le x l ≡ₚ x :: l.
Proof.
  induction l as [|y l IH]; simpl; [done|]. destruct (le x y); [done|]. rewrite IH. apply perm_swap.
Qed.

Lemma sort_by_perm {A} (le : A -> A -> bool) l : sort_by le l ≡ₚ l.
Proof. unfold sort_by. induction l as [|x l IH]; simpl; [done|]. by rewrite insert_by_perm, IH. Qed.

Lemma elem_of_dedup {A} `{EqDecision A} (p : A) l : p ∈ dedup l <-> p ∈ l.
Proof.
  induction l as [|x l IH]; [done|]. destruct l as [|y l]; [done|].
  change (dedup (x :: y :: l)) with (if decide (x = y) then dedup (y :: l) else x :: dedup (y :: l)).
  case_decide; [subst; rewrite IH; set_solver|]. rewrite !elem_of_cons, IH, elem_of_cons. done.
Qed.

(** Literals and the string primitives stay folded under [simpl]. *)
Arguments lit : simpl never.
Arguments strip_prefix : simpl never.
Arguments strip_suffix : simpl never.
Arguments str_eqb : simpl never.
Arguments trim_end : simpl never.
Arguments trim : simpl never.
Arguments split : simpl never.
