(* ===== verification/PatchParser.v ===== *)
(** * The [apply_patch] text format: [apply-patch/src/parser.rs] and
    [apply-patch/src/streaming_parser.rs]

    The data of a parsed patch, the streaming line parser with its mode machine
    and error paths, and the boundary checks of [parse_patch]. *)

From stdpp Require Import base list strings.
From S2P Require Import Prelude.

(** ** Data: [parser.rs] *)

Definition BEGIN_PATCH_MARKER : str := lit "*** Begin Patch".
Definition END_PATCH_MARKER : str := lit "*** End Patch".
Definition ADD_FILE_MARKER : str := lit "*** Add File: ".
Definition DELETE_FILE_MARKER : str := lit "*** Delete File: ".
Definition UPDATE_FILE_MARKER : str := lit "*** Update File: ".
Definition MOVE_TO_MARKER : str := lit "*** Move to: ".
Definition EOF_MARKER : str := lit "*** End of File".
Definition CHANGE_CONTEXT_MARKER : str := lit "@@ ".
Definition EMPTY_CHANGE_CONTEXT_MARKER : str := lit "@@".
Definition ENVIRONMENT_ID_MARKER : str := lit "*** Environment ID:".

Inductive ParseError : Type :=
| InvalidPatchError (message : str)
| InvalidHunkError (message : str) (line_number : nat).

(** A [PathBuf] made from patch text is that text. *)
Record UpdateFileChunk := mkChunk {
  change_context : option str;
  old_lines : list str;
  new_lines : list str;
  context_line_indices : list (nat * nat);
  is_end_of_file : bool
}.

Definition default_chunk : UpdateFileChunk := mkChunk None [] [] [] false.

Inductive Hunk : Type :=
| AddFile (path : str) (contents : str)
| DeleteFile (path : str)
| UpdateFile (path : str) (move_path : option str) (chunks : list UpdateFileChunk).

Definition hunk_path (h : Hunk) : str :=
  match h with
  | AddFile path _ => path
  | DeleteFile path => path
  | UpdateFile _ (Some path) _ => path
  | UpdateFile path None _ => path
  end.

(** The path handed to [PathUri::join] by [Hunk::resolve_path]. *)
Definition hunk_source_path (h : Hunk) : str :=
  match h with
  | UpdateFile path _ _ => path
  | AddFile _ _ | DeleteFile _ => hunk_path h
  end.

Definition push_context_line (line : str) (c : UpdateFileChunk) : UpdateFileChunk :=
  mkChunk (change_context c)
    (old_lines c ++ [line]) (new_lines c ++ [line])
    (context_line_indices c ++ [(length (old_lines c), length (new_lines c))])
    (is_end_of_file c).

Record ApplyPatchArgs := mkArgs {
  args_patch : str;
  args_hunks : list Hunk;
  args_workdir : option str;
  args_environment_id : option str
}.

(** ** The streaming parser: [streaming_parser.rs] *)

Module Mode.
Inductive StreamingParserMode : Type :=
| NotStarted
| StartedPatch
| AddFile
| DeleteFile
| UpdateFile (hunk_line_number : nat)
| EndedPatch.
End Mode.

Record StreamingParserState := mkState {
  mode : Mode.StreamingParserMode;
  hunks : list Hunk;
  environment_id : option str
}.

Record StreamingPatchParser := mkParser {
  line_buffer : str;
  state : StreamingParserState;
  line_number : nat
}.

Definition default_parser : StreamingPatchParser :=
  mkParser [] (mkState Mode.NotStarted [] None) 0.

Definition set_mode (m : Mode.StreamingParserMode) (p : StreamingPatchParser) : StreamingPatchParser :=
  mkParser (line_buffer p) (mkState m (hunks (state p)) (environment_id (state p))) (line_number p).
Definition set_hunks (hs : list Hunk) (p : StreamingPatchParser) : StreamingPatchParser :=
  mkParser (line_buffer p) (mkState (mode (state p)) hs (environment_id (state p))) (line_number p).
Definition set_environment_id (e : option str) (p : StreamingPatchParser) : StreamingPatchParser :=
  mkParser (line_buffer p) (mkState (mode (state p)) (hunks (state p)) e) (line_number p).
Definition set_line_buffer (b : str) (p : StreamingPatchParser) : StreamingPatchParser :=
  mkParser b (state p) (line_number p).
Definition incr_line_number (p : StreamingPatchParser) : StreamingPatchParser :=
  mkParser (line_buffer p) (state p) (Datatypes.S (line_number p)).
Definition push_hunk (h : Hunk) (p : StreamingPatchParser) : StreamingPatchParser :=
  set_hunks (hunks (state p) ++ [h]) p.

(** [*v.last_mut() = x] for a non-empty vector. *)
Definition set_last {A} (x : A) (l : list A) : list A := removelast l ++ [x].

Abbreviation Parser := (M StreamingPatchParser ParseError).

Definition chunk_is_empty (c : UpdateFileChunk) : bool :=
  is_empty (old_lines c) && is_empty (new_lines c).

(** Messages of the error paths. *)
Definition msg_first_line : str := lit "The first line of the patch must be '*** Begin Patch'".
Definition msg_last_line : str := lit "The last line of the patch must be '*** End Patch'".
Definition msg_env_twice : str := lit "apply_patch environment_id cannot be specified more than once".
Definition msg_env_empty : str := lit "apply_patch environment_id cannot be empty".
Definition msg_no_lines : str := lit "Update hunk does not contain any lines".
Definition msg_update_empty (path : str) : str :=
  lit "Update file hunk for path '" ++ path ++ lit "' is empty".
Definition msg_unexpected_line (line : str) : str :=
  lit "Unexpected line found in update hunk: '" ++ line ++
  lit "'. Every line should start with ' ' (context line), '+' (added line), or '-' (removed line)".
Definition msg_expected_marker (line : str) : str :=
  lit "Expected update hunk to start with a @@ context marker, got: '" ++ line ++ lit "'".
Definition msg_bad_header (trimmed : str) : str :=
  lit "'" ++ trimmed ++
  lit "' is not a valid hunk header. Valid hunk headers: '*** Add File: {path}', '*** Delete File: {path}', '*** Update File: {path}'".

Definition ensure_update_hunk_is_not_empty (line : str) : Parser unit := fun p =>
  match last (hunks (state p)) with
  | Some (UpdateFile path _ chunks) =>
      match is_empty chunks, mode (state p) with
      | true, Mode.UpdateFile hunk_line_number =>
          (p, Err (InvalidHunkError (msg_update_empty path) hunk_line_number))
      | _, _ =>
          if is_some_and (last chunks) chunk_is_empty then
            if str_eqb line END_PATCH_MARKER then
              (p, Err (InvalidHunkError msg_no_lines (line_number p)))
            else (p, Err (InvalidHunkError (msg_unexpected_line line) (line_number p)))
          else (p, Ok tt)
      end
  | _ => (p, Ok tt)
  end.

Definition is_started (m : Mode.StreamingParserMode) : bool :=
  match m with Mode.StartedPatch => true | _ => false end.

Definition handle_environment_id (environment_id_text : str) : Parser bool := fun p =>
  match environment_id (state p) with
  | Some _ => (p, Err (InvalidPatchError msg_env_twice))
  | None =>
      let id := trim environment_id_text in
      if is_empty id then (p, Err (InvalidPatchError msg_env_empty))
      else (set_environment_id (Some id) p, Ok true)
  end.

(** The header tests after the environment-id test, in source order. *)
Definition handle_headers (trimmed : str) : Parser bool :=
  if str_eqb trimmed END_PATCH_MARKER then
    ensure_update_hunk_is_not_empty trimmed ;;
    modify (set_mode Mode.EndedPatch) ;;
    mret true
  else
  match strip_prefix ADD_FILE_MARKER trimmed with
  | Some path =>
      ensure_update_hunk_is_not_empty trimmed ;;
      modify (push_hunk (AddFile path [])) ;;
      modify (set_mode Mode.AddFile) ;;
      mret true
  | None =>
  match strip_prefix DELETE_FILE_MARKER trimmed with
  | Some path =>
      ensure_update_hunk_is_not_empty trimmed ;;
      modify (push_hunk (DeleteFile path)) ;;
      modify (set_mode Mode.DeleteFile) ;;
      mret true
  | None =>
  match strip_prefix UPDATE_FILE_MARKER trimmed with
  | Some path =>
      ensure_update_hunk_is_not_empty trimmed ;;
      modify (push_hunk (UpdateFile path None [])) ;;
      modify (fun p => set_mode (Mode.UpdateFile (line_number p)) p) ;;
      mret true
  | None => mret false
  end end end.

Definition handle_hunk_headers_and_end_patch (trimmed : str) : Parser bool := fun p =>
  match is_started (mode (state p)), strip_prefix ENVIRONMENT_ID_MARKER trimmed with
  | true, Some rest => handle_environment_id rest p
  | _, _ => handle_headers trimmed p
  end.

Definition bad_header (trimmed : str) : Parser unit := fun p =>
  (p, Err (InvalidHunkError (msg_bad_header trimmed) (line_number p))).

(** [if self.handle_hunk_headers_and_end_patch(trimmed)? { return Ok(()) }], then [k]. *)
Definition after_headers (trimmed : str) (k : Parser unit) : Parser unit :=
  handled ← handle_hunk_headers_and_end_patch trimmed;
  if (handled : bool) then mret tt else k.

(** Apply a change to the last chunk, creating a default chunk when there is none. *)
Definition with_last_chunk (f : UpdateFileChunk -> UpdateFileChunk) (chunks : list UpdateFileChunk)
  : list UpdateFileChunk :=
  match last chunks with
  | Some c => set_last (f c) chunks
  | None => [f default_chunk]
  end.

Definition push_new_line (l : str) (c : UpdateFileChunk) : UpdateFileChunk :=
  mkChunk (change_context c) (old_lines c) (new_lines c ++ [l]) (context_line_indices c) (is_end_of_file c).
Definition push_old_line (l : str) (c : UpdateFileChunk) : UpdateFileChunk :=
  mkChunk (change_context c) (old_lines c ++ [l]) (new_lines c) (context_line_indices c) (is_end_of_file c).
Definition set_end_of_file (c : UpdateFileChunk) : UpdateFileChunk :=
  mkChunk (change_context c) (old_lines c) (new_lines c) (context_line_indices c) true.

Definition is_context_marker (update_line : str) : bool :=
  str_eqb update_line EMPTY_CHANGE_CONTEXT_MARKER || starts_with CHANGE_CONTEXT_MARKER update_line.

(** The diff lines of an update hunk: from the [line.is_empty()] test to the end of
    the branch. *)
Definition process_diff_line (line : str) (line_number : nat) (move_path : option str)
    (chunks : list UpdateFileChunk) : result (option str * list UpdateFileChunk) ParseError :=
  if is_empty line then Ok (move_path, with_last_chunk (push_context_line []) chunks)
  else
  match strip_prefix (lit " ") line with
  | Some l => Ok (move_path, with_last_chunk (push_context_line l) chunks)
  | None =>
  match strip_prefix (lit "+") line with
  | Some l => Ok (move_path, with_last_chunk (push_new_line l) chunks)
  | None =>
  match strip_prefix (lit "-") line with
  | Some l => Ok (move_path, with_last_chunk (push_old_line l) chunks)
  | None =>
  if is_some_and (last chunks) (fun c => negb (chunk_is_empty c)) then
    Err (InvalidHunkError (msg_expected_marker line) line_number)
  else Err (InvalidHunkError (msg_unexpected_line line) line_number)
  end end end.

(** [chunks.is_empty() && move_path.is_none() && let Some(..) = strip_prefix(MOVE_TO_MARKER)]. *)
Definition move_to_target (update_line : str) (move_path : option str)
    (chunks : list UpdateFileChunk) : option str :=
  match chunks, move_path with
  | [], None => strip_prefix MOVE_TO_MARKER update_line
  | _, _ => None
  end.

(** The body of the [UpdateFile] mode once the line is not a header: what happens to
    the move path and the chunks of the last hunk. *)
Definition process_update_line (line : str) (line_number : nat) (move_path : option str)
    (chunks : list UpdateFileChunk) : result (option str * list UpdateFileChunk) ParseError :=
  let update_line := trim_end line in
  if is_some_and (last chunks) is_end_of_file && is_empty update_line then
    Ok (move_path, chunks)
  else if is_some_and (last chunks) is_end_of_file && negb (is_context_marker update_line) then
    Err (InvalidHunkError (msg_expected_marker line) line_number)
  else
  match move_to_target update_line move_path chunks with
  | Some move_to_path => Ok (Some move_to_path, chunks)
  | None =>
  if is_context_marker update_line && is_some_and (last chunks) chunk_is_empty then
    Err (InvalidHunkError (msg_unexpected_line line) line_number)
  else if str_eqb update_line EMPTY_CHANGE_CONTEXT_MARKER then
    Ok (move_path, chunks ++ [default_chunk])
  else
  match strip_prefix CHANGE_CONTEXT_MARKER update_line with
  | Some ctx => Ok (move_path, chunks ++ [mkChunk (Some ctx) [] [] [] false])
  | None =>
  if str_eqb update_line EOF_MARKER then
    if is_some_and (last chunks) chunk_is_empty then
      Err (InvalidHunkError msg_no_lines line_number)
    else
      Ok (move_path, match last chunks with
                     | Some c => set_last (set_end_of_file c) chunks
                     | None => chunks
                     end)
  else process_diff_line line line_number move_path chunks
  end end.

Definition process_line (line : str) : Parser unit := fun p =>
  let trimmed := trim line in
  match mode (state p) with
  | Mode.NotStarted =>
      if str_eqb trimmed BEGIN_PATCH_MARKER then (set_mode Mode.StartedPatch p, Ok tt)
      else (p, Err (InvalidPatchError msg_first_line))
  | Mode.StartedPatch =>
      after_headers trimmed (bad_header trimmed) p
  | Mode.AddFile =>
      after_headers trimmed (fun p =>
         match strip_prefix (lit "+") line, last (hunks (state p)) with
         | Some line_to_add, Some (AddFile path contents) =>
             (set_hunks (set_last (AddFile path (contents ++ line_to_add ++ [LF])) (hunks (state p))) p,
              Ok tt)
         | _, _ => bad_header trimmed p
         end) p
  | Mode.DeleteFile =>
      after_headers trimmed (bad_header trimmed) p
  | Mode.UpdateFile _ =>
      after_headers (trim_end line) (fun p =>
         match last (hunks (state p)) with
         | Some (UpdateFile path move_path chunks) =>
             match process_update_line line (line_number p) move_path chunks with
             | Ok (move_path', chunks') =>
                 (set_hunks (set_last (UpdateFile path move_path' chunks') (hunks (state p))) p, Ok tt)
             | Err e => (p, Err e)
             | Panic => (p, Panic)
             end
         | _ => (p, Err (InvalidHunkError (msg_unexpected_line line) (line_number p)))
         end) p
  | Mode.EndedPatch =>
      if is_empty trimmed then (p, Ok tt) else (p, Err (InvalidPatchError msg_last_line))
  end.

Definition push_char (ch : N) : Parser unit := fun p =>
  if char_eqb ch LF then
    let line := strip_cr (line_buffer p) in
    process_line line (incr_line_number (set_line_buffer [] p))
  else (set_line_buffer (line_buffer p ++ [ch]) p, Ok tt).

Fixpoint push_chars (delta : str) : Parser unit :=
  match delta with
  | [] => mret tt
  | ch :: delta' => push_char ch ;; push_chars delta'
  end.

Definition push_delta (delta : str) : Parser (list Hunk) :=
  push_chars delta ;; gets (fun p => hunks (state p)).

Definition is_ended (m : Mode.StreamingParserMode) : bool :=
  match m with Mode.EndedPatch => true | _ => false end.

Definition end_patch (trimmed : str) : Parser unit :=
  ensure_update_hunk_is_not_empty trimmed ;; modify (set_mode Mode.EndedPatch).

Definition finish_buffer : Parser unit := fun p =>
  if is_empty (line_buffer p) then (p, Ok tt)
  else
    let line := line_buffer p in
    let p := incr_line_number (set_line_buffer [] p) in
    if str_eqb (trim line) END_PATCH_MARKER then
      end_patch (trim line) p
    else process_line line p.

Definition require_ended : Parser (list Hunk) := fun p =>
  if is_ended (mode (state p)) then (p, Ok (hunks (state p)))
  else (p, Err (InvalidPatchError msg_last_line)).

Definition finish : Parser (list Hunk) := finish_buffer ;; require_ended.

(** ** [parse_patch]: boundary checks and the whole-text entry point *)

Definition check_start_and_end_lines_strict (first_line last_line : option str)
  : result unit ParseError :=
  match trim <$> first_line, trim <$> last_line with
  | Some first, Some last =>
      if str_eqb first BEGIN_PATCH_MARKER && str_eqb last END_PATCH_MARKER then Ok tt
      else if negb (str_eqb first BEGIN_PATCH_MARKER) then Err (InvalidPatchError msg_first_line)
      else Err (InvalidPatchError msg_last_line)
  | Some first, None =>
      if negb (str_eqb first BEGIN_PATCH_MARKER) then Err (InvalidPatchError msg_first_line)
      else Err (InvalidPatchError msg_last_line)
  | None, _ => Err (InvalidPatchError msg_last_line)
  end.

Definition check_patch_boundaries_strict (ls : list str) : result (list str) ParseError :=
  let? _ := check_start_and_end_lines_strict (head ls) (last ls) in
  Ok ls.

Definition is_heredoc_open (first : str) : bool :=
  mem_str first [lit "<<EOF"; lit "<<'EOF'"; lit "<<" ++ [34%N] ++ lit "EOF" ++ [34%N]].

Definition check_patch_boundaries_lenient (original_lines : list str) : result (list str) ParseError :=
  match check_patch_boundaries_strict original_lines with
  | Ok ls => Ok ls
  | Panic => Panic
  | Err original_parse_error =>
      match original_lines, last original_lines with
      | first :: _ :: _, Some last_line =>
          if is_heredoc_open first && ends_with (lit "EOF") last_line
             && (4 <=? length original_lines)
          then check_patch_boundaries_strict (removelast (tail original_lines))
          else Err original_parse_error
      | _, _ => Err original_parse_error
      end
  end.

Inductive ParseMode : Type := Strict | Lenient.

Definition PARSE_IN_STRICT_MODE : bool := false.

(** A fresh parser fed with the whole text. *)
Definition parse_whole (patch : str) : Parser (list Hunk) := push_delta patch ;; finish.

Definition parse_patch_text (patch : str) (m : ParseMode) : result ApplyPatchArgs ParseError :=
  let ls := lines (trim patch) in
  let? patch_lines :=
    match m with
    | Strict => check_patch_boundaries_strict ls
    | Lenient => check_patch_boundaries_lenient ls
    end in
  let patch' := join [LF] patch_lines in
  match parse_whole patch' default_parser with
  | (p, Ok hs) => Ok (mkArgs patch' hs None (environment_id (state p)))
  | (_, Err e) => Err e
  | (_, Panic) => Panic
  end.

Definition parse_patch (patch : str) : result ApplyPatchArgs ParseError :=
  parse_patch_text patch (if PARSE_IN_STRICT_MODE then Strict else Lenient).
