(* ===== verification/PatchInvariant.v ===== *)
(** * Invariant of the streaming patch parser

    What every reachable state of [StreamingPatchParser] satisfies, by rule
    induction over its public operations, and what it gives a caller of
    [parse_patch]: the shape of the hunks that [file_update.rs] relies on. *)

From stdpp Require Import base list strings.
From S2P Require Import Prelude PatchParser.

(** ** Well-formed chunks and hunks *)

(** Recorded context pairs ascend strictly on both sides, from lower bounds. *)
Fixpoint ascending_from (o n : nat) (idx : list (nat * nat)) : Prop :=
  match idx with
  | [] => True
  | (a, b) :: idx' => o <= a /\ n <= b /\ ascending_from (S a) (S b) idx'
  end.

(** Each recorded pair points at one line present on both sides. *)
Definition chunk_context_ok (c : UpdateFileChunk) : Prop :=
  ascending_from 0 0 (context_line_indices c) /\
  Forall (fun ab => exists l, old_lines c !! (ab.1 : nat) = Some l /\ new_lines c !! (ab.2 : nat) = Some l)
    (context_line_indices c).

Definition chunk_nonempty (c : UpdateFileChunk) : Prop := chunk_is_empty c = false.

Definition hunk_context_ok (h : Hunk) : Prop :=
  match h with UpdateFile _ _ chunks => Forall chunk_context_ok chunks | _ => True end.

(** A finished hunk: an update has at least one chunk, and every chunk has a line. *)
Definition hunk_closed (h : Hunk) : Prop :=
  match h with
  | UpdateFile _ _ chunks => chunks <> [] /\ Forall chunk_nonempty chunks
  | _ => True
  end.

(** A hunk that is still being read: only its last chunk may have no line yet. *)
Definition hunk_open (h : Hunk) : Prop :=
  match h with
  | UpdateFile _ _ chunks => Forall chunk_nonempty (removelast chunks)
  | _ => True
  end.

Definition mode_agrees (m : Mode.StreamingParserMode) (h : Hunk) : Prop :=
  match m, h with
  | Mode.AddFile, AddFile _ _ => True
  | Mode.DeleteFile, DeleteFile _ => True
  | Mode.UpdateFile _, UpdateFile _ _ _ => True
  | _, _ => False
  end.

Definition hunks_inv (m : Mode.StreamingParserMode) (hs : list Hunk) : Prop :=
  Forall hunk_context_ok hs /\
  match m with
  | Mode.NotStarted | Mode.StartedPatch => hs = []
  | Mode.EndedPatch => Forall hunk_closed hs
  | _ => exists hs' h, hs = hs' ++ [h] /\ Forall hunk_closed hs' /\ hunk_open h /\ mode_agrees m h
  end.

Definition parser_inv (p : StreamingPatchParser) : Prop :=
  hunks_inv (mode (state p)) (hunks (state p)) /\
  environment_id (state p) <> Some [] /\
  match mode (state p) with Mode.UpdateFile n => n <= line_number p | _ => True end.

(** The states a caller can bring a parser to. *)
Inductive reachable : StreamingPatchParser -> Prop :=
| reachable_default : reachable default_parser
| reachable_push delta p : reachable p -> reachable (fst (push_delta delta p))
| reachable_finish p : reachable p -> reachable (fst (finish p)).

(** ** Chunk lemmas *)

Lemma ascending_from_snoc o n idx x y :
  ascending_from o n idx -> Forall (fun ab => ab.1 < x /\ ab.2 < y) idx -> o <= x -> n <= y ->
  ascending_from o n (idx ++ [(x, y)]).
Proof.
  revert o n. induction idx as [|[a b] idx IH]; simpl; intros o n Hasc HF Ho Hn; [done|].
  destruct Hasc as (? & ? & Hasc). apply Forall_cons in HF as [[? ?] HF]. simpl in *.
  split_and!; auto with lia.
Qed.

Lemma context_pairs_bounded c :
  chunk_context_ok c ->
  Forall (fun ab => ab.1 < length (old_lines c) /\ ab.2 < length (new_lines c)) (context_line_indices c).
Proof.
  intros [_ HF]. eapply Forall_impl; [exact HF|]. intros [a b] (l & Ha & Hb). simpl in *.
  by apply lookup_lt_Some in Ha, Hb.
Qed.

Lemma context_pairs_extend c olds news :
  Forall (fun ab => exists l, old_lines c !! (ab.1 : nat) = Some l /\ new_lines c !! (ab.2 : nat) = Some l)
    (context_line_indices c) ->
  Forall (fun ab => exists l, (old_lines c ++ olds) !! (ab.1 : nat) = Some l /\
                              (new_lines c ++ news) !! (ab.2 : nat) = Some l)
    (context_line_indices c).
Proof.
  intros HF. eapply Forall_impl; [exact HF|]. intros [a b] (l & Ha & Hb). exists l.
  split; by apply lookup_app_l_Some.
Qed.

Lemma default_chunk_ok : chunk_context_ok default_chunk.
Proof. split; [done|constructor]. Qed.

Lemma push_context_line_ok l c : chunk_context_ok c -> chunk_context_ok (push_context_line l c).
Proof.
  intros Hc. pose proof (context_pairs_bounded c Hc) as Hb. destruct Hc as [Hasc HF]. split; simpl.
  - apply ascending_from_snoc; auto with lia.
  - apply Forall_app. split; [by apply context_pairs_extend|].
    rewrite Forall_singleton. exists l. simpl. by rewrite !list_lookup_middle.
Qed.

Lemma push_new_line_ok l c : chunk_context_ok c -> chunk_context_ok (push_new_line l c).
Proof.
  intros [Hasc HF]. split; [done|]. simpl.
  pose proof (context_pairs_extend c [] [l] HF) as H. by rewrite app_nil_r in H.
Qed.

Lemma push_old_line_ok l c : chunk_context_ok c -> chunk_context_ok (push_old_line l c).
Proof.
  intros [Hasc HF]. split; [done|]. simpl.
  pose proof (context_pairs_extend c [l] [] HF) as H. by rewrite app_nil_r in H.
Qed.

Lemma set_end_of_file_ok c : chunk_context_ok c -> chunk_context_ok (set_end_of_file c).
Proof. done. Qed.

#[export] Hint Resolve default_chunk_ok push_context_line_ok push_new_line_ok push_old_line_ok
  set_end_of_file_ok : rust.

(** ** One line of an update hunk *)

Definition chunks_inv (chunks : list UpdateFileChunk) : Prop :=
  Forall chunk_context_ok chunks /\ Forall chunk_nonempty (removelast chunks).

Lemma set_last_inv f c chunks :
  last chunks = Some c -> chunks_inv chunks ->
  (forall d, chunk_context_ok d -> chunk_context_ok (f d)) ->
  chunks_inv (set_last (f c) chunks).
Proof.
  intros Hl [HF Hne] Hf. apply last_Some_removelast in Hl. unfold set_last. split.
  - rewrite Hl in HF. apply Forall_app in HF as [HF1 HF2]. apply Forall_app. split; [done|].
    rewrite Forall_singleton. rewrite Forall_singleton in HF2. auto.
  - by rewrite removelast_snoc.
Qed.

Lemma with_last_chunk_inv f chunks :
  chunks_inv chunks -> (forall d, chunk_context_ok d -> chunk_context_ok (f d)) ->
  chunks_inv (with_last_chunk f chunks).
Proof.
  intros Hinv Hf. unfold with_last_chunk. destruct (last chunks) as [c|] eqn:Hl.
  - by apply set_last_inv.
  - split; [rewrite Forall_singleton; auto with rust|constructor].
Qed.

Lemma push_chunk_inv c chunks :
  chunks_inv chunks -> is_some_and (last chunks) chunk_is_empty = false -> chunk_context_ok c ->
  chunks_inv (chunks ++ [c]).
Proof.
  intros [HF Hne] Hl Hc. split; [apply Forall_app; split; [done|by rewrite Forall_singleton]|].
  rewrite removelast_snoc. destruct (last chunks) as [d|] eqn:E.
  - apply last_Some_removelast in E. rewrite E. apply Forall_app. split; [done|]. by rewrite Forall_singleton.
  - apply last_None_nil in E as ->. constructor.
Qed.

Lemma process_diff_line_inv line n mv chunks mv' chunks' :
  process_diff_line line n mv chunks = Ok (mv', chunks') ->
  chunks_inv chunks -> chunks_inv chunks'.
Proof.
  unfold process_diff_line. intros H Hinv.
  repeat (break_match_in H; simplify_eq); apply with_last_chunk_inv; auto with rust.
Qed.

Lemma process_update_line_inv line n mv chunks mv' chunks' :
  process_update_line line n mv chunks = Ok (mv', chunks') ->
  chunks_inv chunks -> chunks_inv chunks'.
Proof.
  unfold process_update_line. intros H Hinv.
  do 2 (case_match; [by simplify_eq|]).
  case_match; [by simplify_eq|].
  case_match eqn:Hm; [done|].
  assert (is_context_marker (trim_end line) = true ->
          is_some_and (last chunks) chunk_is_empty = false) as Hlast
    by (intros Hc; by rewrite Hc in Hm).
  unfold is_context_marker in Hlast.
  destruct (str_eqb (trim_end line) EMPTY_CHANGE_CONTEXT_MARKER) eqn:He; simplify_eq.
  { apply push_chunk_inv; auto with rust. }
  destruct (strip_prefix CHANGE_CONTEXT_MARKER (trim_end line)) eqn:Hs; simplify_eq.
  { apply push_chunk_inv; [done| |by split; [|constructor]].
    apply Hlast. unfold starts_with. by rewrite Hs. }
  case_match; [|by eapply process_diff_line_inv].
  case_match; [done|]. simplify_eq.
  destruct (last chunks) as [c|] eqn:Hc; [|done]. by apply set_last_inv.
Qed.

(** ** Headers *)

Lemma ensure_state line p : fst (ensure_update_hunk_is_not_empty line p) = p.
Proof. unfold ensure_update_hunk_is_not_empty. by repeat case_match. Qed.

Lemma chunks_closed chunks :
  chunks <> [] -> Forall chunk_nonempty (removelast chunks) ->
  is_some_and (last chunks) chunk_is_empty = false -> Forall chunk_nonempty chunks.
Proof.
  intros Hne HF Hl. destruct (last chunks) as [c|] eqn:E; [|by apply last_None_nil in E].
  apply last_Some_removelast in E. rewrite E. apply Forall_app. split; [done|]. by rewrite Forall_singleton.
Qed.

(** The test made before a hunk is left succeeds only when it is finished. *)
Lemma ensure_closed line p p' :
  parser_inv p -> ensure_update_hunk_is_not_empty line p = (p', Ok tt) ->
  Forall hunk_closed (hunks (state p)).
Proof.
  intros ([_ Hm] & _ & _) H. unfold ensure_update_hunk_is_not_empty in H.
  destruct (mode (state p)); try (rewrite Hm; constructor); try exact Hm;
    destruct Hm as (hs' & h & Hhs & Hcl & Hop & Hag); rewrite Hhs in H |- *; rewrite last_snoc in H;
    apply Forall_app; (split; [done|]); rewrite Forall_singleton; destruct h as [| |path mv chunks];
    try done; simpl in *.
  destruct (is_empty chunks) eqn:He; [done|]. apply is_empty_false in He.
  split; [done|]. apply chunks_closed; [done..|]. by repeat case_match.
Qed.

Lemma push_hunk_inv line p p' h m :
  parser_inv p -> ensure_update_hunk_is_not_empty line p = (p', Ok tt) ->
  hunk_context_ok h -> hunk_open h -> mode_agrees m h ->
  match m with Mode.UpdateFile n => n <= line_number p | _ => True end ->
  parser_inv (set_mode m (push_hunk h p)).
Proof.
  intros Hinv Hens Hc Ho Ha Hn. pose proof (ensure_closed _ _ _ Hinv Hens) as Hcl.
  destruct Hinv as ([HF _] & Henv & _). split_and!; [|done|done]. split; simpl.
  - apply Forall_app. split; [done|]. by rewrite Forall_singleton.
  - destruct m; try (destruct h; done); eauto 10.
Qed.

Lemma end_patch_inv line p p' :
  parser_inv p -> ensure_update_hunk_is_not_empty line p = (p', Ok tt) ->
  parser_inv (set_mode Mode.EndedPatch p).
Proof.
  intros Hinv Hens. pose proof (ensure_closed _ _ _ Hinv Hens) as Hcl.
  destruct Hinv as ([HF _] & Henv & _). by split_and!.
Qed.

(** Run a computation that starts with the test above. *)
Ltac ensure_cases p :=
  match goal with
  | |- context [ensure_update_hunk_is_not_empty ?l] =>
      let E := fresh "Hens" in let S := fresh "Hst" in
      pose proof (ensure_state l p) as S; unfold mbind, M_bind;
      destruct (ensure_update_hunk_is_not_empty l p) as [? [[]|?|]] eqn:E; simpl in S; subst; simpl; auto
  end.

Lemma handle_headers_inv trimmed p : parser_inv p -> parser_inv (fst (handle_headers trimmed p)).
Proof.
  intros Hinv. unfold handle_headers.
  case_match; [ensure_cases p; by eapply end_patch_inv|].
  case_match; [ensure_cases p; by eapply push_hunk_inv|].
  case_match; [ensure_cases p; by eapply push_hunk_inv|].
  case_match; [|done].
  ensure_cases p. eapply push_hunk_inv; try done; constructor.
Qed.

Lemma handle_environment_id_inv id p :
  parser_inv p -> mode (state p) = Mode.StartedPatch -> parser_inv (fst (handle_environment_id id p)).
Proof.
  intros Hinv Hs. unfold handle_environment_id. destruct (environment_id (state p)); [done|].
  destruct (is_empty (trim id)) eqn:Hid; [done|]. apply is_empty_false in Hid.
  destruct Hinv as (Hh & _ & Hn). split; [exact Hh|]. split; [|exact Hn]. simpl. congruence.
Qed.

Lemma handle_inv trimmed p : parser_inv p -> parser_inv (fst (handle_hunk_headers_and_end_patch trimmed p)).
Proof.
  intros Hinv. unfold handle_hunk_headers_and_end_patch.
  destruct (mode (state p)) eqn:Hm; simpl; try by apply handle_headers_inv.
  case_match; [by apply handle_environment_id_inv|by apply handle_headers_inv].
Qed.

Lemma handle_false_state trimmed p p' :
  handle_hunk_headers_and_end_patch trimmed p = (p', Ok false) -> p' = p.
Proof.
  unfold handle_hunk_headers_and_end_patch, handle_environment_id, handle_headers.
  intros H. repeat (break_match_in H; simplify_eq; try done);
    try (apply M_bind_inv_Ok in H as (? & ? & ? & H); apply M_bind_inv_Ok in H as (? & ? & ? & H);
         try (apply M_bind_inv_Ok in H as (? & ? & ? & H)); done).
  all: by unfold mret, M_ret in H; simplify_eq.
Qed.

Lemma after_headers_inv trimmed k p :
  parser_inv p -> parser_inv (fst (k p)) -> parser_inv (fst (after_headers trimmed k p)).
Proof.
  intros Hinv Hk. unfold after_headers, mbind, M_bind. pose proof (handle_inv trimmed p Hinv) as Hh.
  pose proof (handle_false_state trimmed p) as Hs.
  destruct (handle_hunk_headers_and_end_patch trimmed p) as [p' [[]|?|]]; try done.
  by rewrite (Hs p' eq_refl).
Qed.

(** ** Lines, characters and the public operations *)

Lemma set_last_hunk_inv p h h' :
  parser_inv p -> last (hunks (state p)) = Some h -> mode_agrees (mode (state p)) h ->
  mode_agrees (mode (state p)) h' -> hunk_context_ok h' -> hunk_open h' ->
  parser_inv (set_hunks (set_last h' (hunks (state p))) p).
Proof.
  intros ([HF Hm] & He & Hn) Hl Ha Ha' Hc Ho. apply last_Some_removelast in Hl.
  rewrite Hl in HF. apply Forall_app in HF as [HF _]. split_and!; [|done|done].
  split; simpl; unfold set_last.
  - apply Forall_app. split; [done|]. by rewrite Forall_singleton.
  - destruct (mode (state p)); try (destruct h; done); destruct Hm as (hs' & h0 & Hhs & Hcl & _ & _);
      exists (removelast (hunks (state p))), h'; split_and!; try done;
      rewrite Hhs, removelast_snoc; done.
Qed.

Lemma process_line_inv line : keeps parser_inv (process_line line).
Proof.
  intros p Hinv. unfold process_line. destruct (mode (state p)) eqn:Hm.
  - case_match; [|done]. destruct Hinv as ([HF Hh] & He & Hn). rewrite Hm in *. by split_and!.
  - by apply after_headers_inv.
  - apply after_headers_inv; [done|]. destruct (strip_prefix _ line) as [l|]; [|done].
    destruct (last (hunks (state p))) as [[path c| |]|] eqn:Hl; try done. simpl.
    eapply set_last_hunk_inv; rewrite ?Hm; done.
  - by apply after_headers_inv.
  - apply after_headers_inv; [done|]. destruct (last (hunks (state p))) as [[| |path mv chunks]|] eqn:Hl; try done.
    destruct (process_update_line _ _ _ _) as [[mv' chunks']|e|] eqn:Hp; try done. simpl.
    apply process_update_line_inv in Hp as [Hc Ho]; [eapply set_last_hunk_inv; rewrite ?Hm; done|].
    destruct Hinv as ([HF Hh] & _ & _). rewrite Hm in Hh. destruct Hh as (hs' & h & Hhs & _ & Hop & _).
    rewrite Hhs in *. rewrite last_snoc in Hl. simplify_eq. apply Forall_app in HF as [_ HF].
    rewrite Forall_singleton in HF. done.
  - by case_match.
Qed.

Lemma next_line_inv p : parser_inv p -> parser_inv (incr_line_number (set_line_buffer [] p)).
Proof. intros (? & ? & Hn). split_and!; [done..|]. simpl. destruct (mode _); lia || done. Qed.

Lemma push_char_inv ch : keeps parser_inv (push_char ch).
Proof.
  intros p Hinv. unfold push_char. case_match; [|done]. apply process_line_inv. by apply next_line_inv.
Qed.

Lemma push_chars_inv delta : keeps parser_inv (push_chars delta).
Proof. induction delta; simpl; auto using push_char_inv with rust. Qed.

Lemma push_delta_inv delta : keeps parser_inv (push_delta delta).
Proof. apply keeps_bind; [apply push_chars_inv|]. by intros ? p. Qed.

Lemma finish_inv : keeps parser_inv finish.
Proof.
  apply keeps_bind; [|intros _ p Hp; unfold require_ended; by case_match].
  intros p Hinv. unfold finish_buffer. case_match; [done|]. apply next_line_inv in Hinv.
  case_match; [|by apply process_line_inv].
  set (p' := incr_line_number _) in *. unfold end_patch. ensure_cases p'. by eapply end_patch_inv.
Qed.

Lemma reachable_inv p : reachable p -> parser_inv p.
Proof.
  induction 1; [|by apply push_delta_inv|by apply finish_inv]. by split_and!.
Qed.

Lemma finish_Ok_closed p p' hs :
  parser_inv p -> finish p = (p', Ok hs) -> Forall hunk_closed hs /\ Forall hunk_context_ok hs.
Proof.
  intros Hinv H. pose proof (finish_inv p Hinv) as Hinv'. rewrite H in Hinv'. simpl in Hinv'.
  apply M_bind_inv_Ok in H as (q & [] & _ & H). unfold require_ended in H.
  destruct (mode (state q)) eqn:Hm; simplify_eq/=.
  destruct Hinv' as ([HF Hcl] & _). by rewrite Hm in Hcl.
Qed.

(** ** How the hunk list changes *)

(** One line leaves the hunks alone, appends one, or replaces the last one. *)
Definition hunks_step (hs hs' : list Hunk) : Prop :=
  hs' = hs \/ (exists h, hs' = hs ++ [h]) \/ (exists h, hs <> [] /\ hs' = set_last h hs).

Lemma handle_hunks_step trimmed p :
  hunks_step (hunks (state p)) (hunks (state (fst (handle_hunk_headers_and_end_patch trimmed p)))).
Proof.
  unfold handle_hunk_headers_and_end_patch, handle_environment_id, handle_headers, hunks_step.
  repeat case_match; try (ensure_cases p); simpl; eauto.
Qed.

Lemma after_headers_hunks_step trimmed k p :
  hunks_step (hunks (state p)) (hunks (state (fst (k p)))) ->
  hunks_step (hunks (state p)) (hunks (state (fst (after_headers trimmed k p)))).
Proof.
  intros Hk. unfold after_headers, mbind, M_bind. pose proof (handle_hunks_step trimmed p) as Hh.
  pose proof (handle_false_state trimmed p) as Hs.
  destruct (handle_hunk_headers_and_end_patch trimmed p) as [p' [[]|?|]]; try done.
  by rewrite (Hs p' eq_refl).
Qed.

Lemma process_line_hunks_step line p :
  hunks_step (hunks (state p)) (hunks (state (fst (process_line line p)))).
Proof.
  unfold process_line. destruct (mode (state p)); try (by case_match; left);
    apply after_headers_hunks_step; try by left.
  - destruct (strip_prefix _ _); [|by left].
    destruct (last (hunks (state p))) as [[]|] eqn:Hl; try by left.
    right; right. eexists. split; [|done]. by intros Hn; rewrite Hn in Hl.
  - destruct (last (hunks (state p))) as [[| |path mv chunks]|] eqn:Hl; try by left.
    destruct (process_update_line _ _ _ _) as [[]|?|]; try by left.
    right; right. eexists. split; [|done]. by intros Hn; rewrite Hn in Hl.
Qed.

Definition closed_prefix (base : list Hunk) (p : StreamingPatchParser) : Prop :=
  base `prefix_of` removelast (hunks (state p)).

Lemma process_line_closed_prefix base line : keeps (closed_prefix base) (process_line line).
Proof.
  intros p Hp. unfold closed_prefix in *.
  destruct (process_line_hunks_step line p) as [->|[[h ->]|[h [Hne ->]]]]; [done| |].
  - rewrite removelast_snoc. etrans; [exact Hp|].
    destruct (last (hunks (state p))) eqn:E.
    + apply last_Some_removelast in E. rewrite E at 2. by apply prefix_app_r.
    + by apply last_None_nil in E as ->.
  - unfold set_last. by rewrite removelast_snoc.
Qed.

Lemma push_chars_closed_prefix base delta : keeps (closed_prefix base) (push_chars delta).
Proof.
  induction delta as [|ch delta IH]; simpl; [apply keeps_ret|]. apply keeps_bind; [|done].
  intros p Hp. unfold push_char. case_match; [|done]. by apply process_line_closed_prefix.
Qed.

(** ** Pushing text *)

Lemma push_chars_app a b p : push_chars (a ++ b) p = (push_chars a ;; push_chars b) p.
Proof.
  revert p. induction a as [|ch a IH]; intros p; [done|]. simpl.
  rewrite M_bind_assoc. by apply M_bind_ext.
Qed.

Lemma push_delta_then {A} delta (k : Parser A) p : (push_delta delta ;; k) p = (push_chars delta ;; k) p.
Proof. unfold push_delta, mbind, M_bind. by destruct (push_chars delta p) as [? [[]|?|]]. Qed.

(** ** Line numbers *)

Definition count_LF (s : str) : nat := length (filter (fun c => c = LF) s).

Lemma handle_line_number trimmed p :
  line_number (fst (handle_hunk_headers_and_end_patch trimmed p)) = line_number p.
Proof.
  unfold handle_hunk_headers_and_end_patch, handle_environment_id, handle_headers.
  repeat case_match; try (ensure_cases p); done.
Qed.

Lemma process_line_line_number line p : line_number (fst (process_line line p)) = line_number p.
Proof.
  assert (forall t k, (forall q, line_number (fst (k q)) = line_number q) ->
                      line_number (fst (after_headers t k p)) = line_number p) as Haft.
  { intros t k Hk. unfold after_headers, mbind, M_bind. pose proof (handle_line_number t p) as Hh.
    destruct (handle_hunk_headers_and_end_patch t p) as [p' [[]|?|]]; simpl in *; try done.
    by rewrite Hk. }
  unfold process_line. destruct (mode (state p)); try (by case_match); apply Haft; intros q; try done;
    by repeat case_match.
Qed.

Lemma push_chars_line_number delta p :
  line_number (fst (push_chars delta p)) <= line_number p + count_LF delta.
Proof.
  revert p. induction delta as [|ch delta IH]; intros p; simpl; [lia|].
  unfold mbind, M_bind. unfold count_LF in *. rewrite filter_cons.
  assert (line_number (fst (push_char ch p)) = line_number p + (if decide (ch = LF) then 1 else 0)) as Hc.
  { unfold push_char. destruct (char_eqb ch LF) eqn:E; to_prop.
    - rewrite process_line_line_number, decide_True by done. simpl. lia.
    - rewrite decide_False by done. simpl. lia. }
  destruct (push_char ch p) as [q [[]|?|]]; simpl in *;
    [specialize (IH q)|idtac|idtac]; case_decide; simpl; lia.
Qed.

(** ** No panic *)

Definition no_panic {A} (m : Parser A) : Prop := forall p, snd (m p) <> Panic.

Lemma no_panic_bind {A B} (m : Parser A) (k : A -> Parser B) :
  no_panic m -> (forall a, no_panic (k a)) -> no_panic (m ≫= k).
Proof.
  intros Hm Hk p. unfold mbind, M_bind. specialize (Hm p).
  destruct (m p) as [q [a|e|]]; simpl in *; [apply Hk|done|done].
Qed.

Lemma ensure_no_panic line : no_panic (ensure_update_hunk_is_not_empty line).
Proof. intros p. unfold ensure_update_hunk_is_not_empty. by repeat case_match. Qed.

Lemma modify_no_panic f : no_panic (modify f).
Proof. by intros p. Qed.

Lemma ret_no_panic {A} (a : A) : no_panic (mret a).
Proof. by intros p. Qed.

#[export] Hint Resolve no_panic_bind ensure_no_panic modify_no_panic ret_no_panic : rust.

Lemma handle_no_panic trimmed : no_panic (handle_hunk_headers_and_end_patch trimmed).
Proof.
  intros p. unfold handle_hunk_headers_and_end_patch, handle_environment_id.
  assert (no_panic (handle_headers trimmed)) as Hh
    by (unfold handle_headers; repeat case_match; auto 10 with rust).
  repeat case_match; try done; apply Hh.
Qed.

Lemma process_update_line_no_panic line n mv chunks : process_update_line line n mv chunks <> Panic.
Proof. unfold process_update_line, process_diff_line. by repeat case_match. Qed.

Lemma process_line_no_panic line : no_panic (process_line line).
Proof.
  assert (forall t k, no_panic k -> no_panic (after_headers t k)) as Haft.
  { intros t k Hk. apply no_panic_bind; [apply handle_no_panic|]. intros []; auto with rust. }
  intros p. unfold process_line. destruct (mode (state p)); try (by case_match); apply Haft; intros q; try done.
  - by repeat case_match.
  - case_match; [|done]. case_match; try done.
    pose proof (process_update_line_no_panic line (line_number q) move_path chunks).
    by destruct (process_update_line _ _ _ _) as [[]|?|].
Qed.

Lemma parse_whole_no_panic text : no_panic (parse_whole text).
Proof.
  apply no_panic_bind.
  - apply no_panic_bind; [|by intros ? p]. induction text as [|ch text IH]; simpl; auto with rust.
    apply no_panic_bind; [|done]. intros p. unfold push_char. case_match; [|done].
    apply process_line_no_panic.
  - intros _. apply no_panic_bind; [|intros _ p; unfold require_ended; by case_match].
    intros p. unfold finish_buffer. case_match; [done|]. case_match; [|apply process_line_no_panic].
    unfold end_patch. apply no_panic_bind; auto with rust.
Qed.

(** No text makes [parse_patch] panic. *)
Lemma parse_patch_no_panic (text : str) : parse_patch text <> Panic.
Proof.
  unfold parse_patch, parse_patch_text. cbn [PARSE_IN_STRICT_MODE].
  assert (forall ls, check_patch_boundaries_strict ls <> Panic) as Hs.
  { intros ls. unfold check_patch_boundaries_strict, check_start_and_end_lines_strict. by repeat case_match. }
  assert (forall ls, check_patch_boundaries_lenient ls <> Panic) as Hl.
  { intros ls. unfold check_patch_boundaries_lenient. pose proof (Hs ls).
    destruct (check_patch_boundaries_strict ls); try done. repeat case_match; try done; apply Hs. }
  specialize (Hl (lines (trim text))). destruct (check_patch_boundaries_lenient _) as [ls|e|]; try done.
  pose proof (parse_whole_no_panic (join [LF] ls) default_parser).
  by destruct (parse_whole _ _) as [p [hs|e|]].
Qed.

Lemma parse_patch_hunks_ok (text : str) (args : ApplyPatchArgs) :
  parse_patch text = Ok args ->
  Forall hunk_closed (args_hunks args) /\ Forall hunk_context_ok (args_hunks args).
Proof.
  unfold parse_patch, parse_patch_text. intros H. repeat (break_match_in H; simplify_eq; try done).
  simpl. apply M_bind_inv_Ok in Heqp as (p & ? & Hp & Hf). eapply finish_Ok_closed; [|exact Hf].
  assert (p = fst (push_delta (join [LF] a) default_parser)) as -> by (by rewrite Hp).
  apply reachable_inv. repeat constructor.
Qed.

(** ** Properties *)

(** Every state a caller can bring the parser to satisfies its invariant: the mode
    agrees with the hunk being read, all earlier hunks are finished, every chunk's context
    pairs ascend and point at equal lines, the environment id is not empty, and the line
    recorded for an update hunk is one already read. *)
Theorem parser_reachable_inv (p : StreamingPatchParser) : reachable p -> parser_inv p.
Proof. apply reachable_inv. Qed.

Lemma parser_reachable_inv_witness :
  parser_inv (fst (push_delta (lit "*** Begin Patch" ++ [LF] ++ lit "*** Update File: f" ++ [LF] ++ lit "+x" ++ [LF]) default_parser)).
Proof. apply parser_reachable_inv. apply reachable_push. constructor. Defined.

(** What [parse_patch] returns is fit for [compute_replacements]: every update hunk
    has a chunk, every chunk has a line, and its context pairs are well formed. *)
Theorem parse_patch_well_formed (text : str) (args : ApplyPatchArgs) :
  parse_patch text = Ok args ->
  Forall hunk_closed (args_hunks args) /\ Forall hunk_context_ok (args_hunks args).
Proof. apply parse_patch_hunks_ok. Qed.

Definition tiny_patch : str :=
  lit "*** Begin Patch" ++ [LF] ++ lit "*** Update File: f" ++ [LF] ++ lit " a" ++ [LF] ++
  lit "+x" ++ [LF] ++ lit "*** End Patch".

Lemma parse_patch_well_formed_witness :
  exists args, parse_patch tiny_patch = Ok args /\ length (args_hunks args) = 1 /\
    Forall hunk_closed (args_hunks args) /\ Forall hunk_context_ok (args_hunks args).
Proof.
  eexists. split; [vm_compute; reflexivity|]. split; [reflexivity|].
  apply (parse_patch_well_formed tiny_patch). vm_compute. reflexivity.
Defined.

(** Hunks reported while streaming are stable: all but the last hunk of a snapshot
    stay, in place and unchanged, in every later snapshot, errors included. *)
Theorem streamed_hunks_stable (delta : str) (p : StreamingPatchParser) :
  removelast (hunks (state p)) `prefix_of` hunks (state (fst (push_delta delta p))).
Proof.
  assert (closed_prefix (removelast (hunks (state p))) (fst (push_delta delta p))) as H.
  { unfold push_delta, mbind, M_bind.
    pose proof (push_chars_closed_prefix (removelast (hunks (state p))) delta p) as Hp.
    destruct (push_chars delta p) as [q [?|?|]]; apply Hp; unfold closed_prefix; done. }
  unfold closed_prefix in H. etrans; [exact H|]. set (hs := hunks _).
  destruct (last hs) as [h|] eqn:E.
  - apply last_Some_removelast in E. rewrite E at 2. by apply prefix_app_r.
  - by apply last_None_nil in E as ->.
Qed.

(** The line counter never runs ahead of the text: after a push it has grown by at
    most the number of line feeds pushed, so it cannot overflow before the input does. *)
Theorem line_number_bounded (delta : str) (p : StreamingPatchParser) :
  line_number (fst (push_delta delta p)) <= line_number p + count_LF delta.
Proof.
  pose proof (push_chars_line_number delta p) as H. unfold push_delta, mbind, M_bind.
  by destruct (push_chars delta p) as [q [[]|e|]].
Qed.

(** A lone end marker with no begin marker and no line feed is accepted by the
    streaming parser as an empty patch, although the same line with a line feed, and
    [parse_patch] on the same text, are refused for the missing begin marker. *)
Theorem end_marker_alone_accepted :
  snd (parse_whole END_PATCH_MARKER default_parser) = Ok [] /\
  snd (parse_whole (END_PATCH_MARKER ++ [LF]) default_parser) = Err (InvalidPatchError msg_first_line) /\
  parse_patch END_PATCH_MARKER = Err (InvalidPatchError msg_first_line).
Proof. by vm_compute. Qed.
