(* ===== verification/PatchGrammar.v ===== *)
(** * The documented patch grammar and its parser

    [apply-patch/src/parser.rs] opens with a Lark grammar of the format.  Its
    sentences are given here as a syntax tree with its rendering to text and the
    hunks it denotes; parsing the rendered text gives those hunks back.  The grammar
    also derives updates without a change and headers without lines, which the parser
    refuses ([update_without_change_refused], [header_without_lines_refused]). *)

From stdpp Require Import base list strings.
From S2P Require Import Prelude PatchParser PatchInvariant.

(** ** Sentences of the grammar *)

Inductive DiffLine : Type :=
| ContextLine (l : str)
| AddedLine (l : str)
| RemovedLine (l : str).

(** The line that opens a block of changes: none, ["@@"], or ["@@ "] and a text. *)
Inductive BlockHeader : Type :=
| NoHeader
| Header (context : option str).

Record ChangeBlock := mkBlock {
  block_header : BlockHeader;
  block_lines : list DiffLine;
  block_eof : bool
}.

Inductive HunkSentence : Type :=
| AddHunk (path : str) (ls : list str)
| DeleteHunk (path : str)
| UpdateHunk (path : str) (move_to : option str) (blocks : list ChangeBlock).

Record PatchSentence := mkPatch {
  sentence_environment : option str;
  sentence_hunks : list HunkSentence
}.

(** ** Text of a sentence *)

Definition diff_line_text (d : DiffLine) : str :=
  match d with
  | ContextLine l => lit " " ++ l
  | AddedLine l => lit "+" ++ l
  | RemovedLine l => lit "-" ++ l
  end.

Definition header_text (ctx : option str) : str :=
  match ctx with
  | None => EMPTY_CHANGE_CONTEXT_MARKER
  | Some c => CHANGE_CONTEXT_MARKER ++ c
  end.

Definition block_text (b : ChangeBlock) : list str :=
  match block_header b with NoHeader => [] | Header ctx => [header_text ctx] end
  ++ (diff_line_text <$> block_lines b)
  ++ (if block_eof b then [EOF_MARKER] else []).

Definition hunk_text (h : HunkSentence) : list str :=
  match h with
  | AddHunk path ls => (ADD_FILE_MARKER ++ path) :: ((fun l => lit "+" ++ l) <$> ls)
  | DeleteHunk path => [DELETE_FILE_MARKER ++ path]
  | UpdateHunk path mv blocks =>
      (UPDATE_FILE_MARKER ++ path)
      :: (match mv with Some m => [MOVE_TO_MARKER ++ m] | None => [] end)
      ++ concat (block_text <$> blocks)
  end.

Definition environment_text (e : option str) : list str :=
  match e with Some id => [ENVIRONMENT_ID_MARKER ++ lit " " ++ id] | None => [] end.

Definition body_text (s : PatchSentence) : list str :=
  environment_text (sentence_environment s) ++ concat (hunk_text <$> sentence_hunks s).

Definition patch_lines (s : PatchSentence) : list str :=
  (BEGIN_PATCH_MARKER :: body_text s) ++ [END_PATCH_MARKER].

Definition patch_text (s : PatchSentence) : str := join [LF] (patch_lines s).

(** ** Hunks a sentence denotes *)

Definition add_diff_line (c : UpdateFileChunk) (d : DiffLine) : UpdateFileChunk :=
  match d with
  | ContextLine l => push_context_line l c
  | AddedLine l => push_new_line l c
  | RemovedLine l => push_old_line l c
  end.

Definition block_context (b : ChangeBlock) : option str :=
  match block_header b with NoHeader => None | Header ctx => ctx end.

Definition block_chunk (b : ChangeBlock) : UpdateFileChunk :=
  let c := foldl add_diff_line (mkChunk (block_context b) [] [] [] false) (block_lines b) in
  if block_eof b then set_end_of_file c else c.

Definition added_contents (ls : list str) : str := concat ((fun l => l ++ [LF]) <$> ls).

Definition hunk_of (h : HunkSentence) : Hunk :=
  match h with
  | AddHunk path ls => AddFile path (added_contents ls)
  | DeleteHunk path => DeleteFile path
  | UpdateHunk path mv blocks => UpdateFile path mv (block_chunk <$> blocks)
  end.

(** ** Side conditions of the grammar's terminals *)

(** A name at the end of a marker line: not empty, on one line, no blank at its end. *)
Definition name_ok (s : str) : Prop :=
  (LF ∉ s) /\ exists c, last s = Some c /\ is_whitespace c = false.

Definition diff_line_of (d : DiffLine) : str :=
  match d with ContextLine l | AddedLine l | RemovedLine l => l end.

(** A block has lines: the grammar also derives headers without lines, which the parser refuses. *)
Definition block_ok (b : ChangeBlock) : Prop :=
  match block_context b with Some c => name_ok c | None => True end /\
  block_lines b <> [] /\ Forall (fun d => clean_line (diff_line_of d)) (block_lines b).

Definition has_header (b : ChangeBlock) : Prop := block_header b <> NoHeader.

(** Blocks begin at headers, so that only the first can be without; an update has a block,
    where the grammar also derives one without, which the parser refuses. *)
Definition sentence_hunk_ok (h : HunkSentence) : Prop :=
  match h with
  | AddHunk path ls => name_ok path /\ Forall clean_line ls
  | DeleteHunk path => name_ok path
  | UpdateHunk path mv blocks =>
      name_ok path /\ match mv with Some m => name_ok m | None => True end /\
      blocks <> [] /\ Forall block_ok blocks /\ Forall has_header (tail blocks)
  end.

Definition environment_ok (e : option str) : Prop :=
  match e with
  | Some id => name_ok id /\ exists c, head id = Some c /\ is_whitespace c = false
  | None => True
  end.

Definition sentence_ok (s : PatchSentence) : Prop :=
  environment_ok (sentence_environment s) /\ Forall sentence_hunk_ok (sentence_hunks s).

(** ** Feeding complete lines *)

Definition feed_line (l : str) : Parser unit := fun p => process_line l (incr_line_number p).

Fixpoint feed_lines (ls : list str) : Parser unit :=
  match ls with
  | [] => mret tt
  | l :: ls' => feed_line l ;; feed_lines ls'
  end.

Lemma feed_lines_app a b p : feed_lines (a ++ b) p = (feed_lines a ;; feed_lines b) p.
Proof.
  revert p. induction a as [|l a IH]; intros p; [done|]. simpl. rewrite M_bind_assoc. by apply M_bind_ext.
Qed.

Lemma feed_lines_cons_Ok l ls p p' :
  feed_line l p = (p', Ok tt) -> feed_lines (l :: ls) p = feed_lines ls p'.
Proof. intros H. simpl. by erewrite M_bind_Ok. Qed.

Lemma process_line_buffer line p : line_buffer (fst (process_line line p)) = line_buffer p.
Proof.
  assert (forall t, line_buffer (fst (handle_hunk_headers_and_end_patch t p)) = line_buffer p) as Hh.
  { intros t. unfold handle_hunk_headers_and_end_patch, handle_environment_id, handle_headers.
    repeat case_match; try (ensure_cases p); done. }
  assert (forall t k, (forall q, line_buffer (fst (k q)) = line_buffer q) ->
                      line_buffer (fst (after_headers t k p)) = line_buffer p) as Haft.
  { intros t k Hk. unfold after_headers, mbind, M_bind. specialize (Hh t).
    destruct (handle_hunk_headers_and_end_patch t p) as [p' [[]|?|]]; simpl in *; try done.
    by rewrite Hk. }
  unfold process_line. destruct (mode (state p)); try (by case_match); apply Haft; intros q; try done;
    by repeat case_match.
Qed.

Lemma push_chars_buffer l p :
  LF ∉ l -> push_chars l p = (set_line_buffer (line_buffer p ++ l) p, Ok tt).
Proof.
  revert p. induction l as [|c l IH]; intros p Hl.
  - rewrite app_nil_r. by destruct p.
  - apply not_elem_of_cons in Hl as [Hc Hl]. simpl. unfold mbind, M_bind, push_char.
    destruct (char_eqb c LF) eqn:E; to_prop; [congruence|]. rewrite IH by done. simpl.
    by rewrite <- app_assoc.
Qed.

Lemma push_chars_line l rest p :
  clean_line l -> line_buffer p = [] ->
  push_chars (l ++ LF :: rest) p = (feed_line l ;; push_chars rest) p.
Proof.
  intros [Hl Hcr] Hb. rewrite push_chars_app.
  erewrite M_bind_Ok by (by apply push_chars_buffer). rewrite Hb. simpl.
  unfold mbind, M_bind, push_char, feed_line. unfold char_eqb. rewrite N.eqb_refl. simpl.
  rewrite strip_cr_id by done. destruct p as [b st n]. simpl in Hb. by subst.
Qed.

(** Pushing lines joined with line feeds processes all but the last one. *)
Lemma push_chars_join ls last_line p p' :
  Forall clean_line ls -> LF ∉ last_line -> line_buffer p = [] ->
  feed_lines ls p = (p', Ok tt) ->
  push_chars (join [LF] (ls ++ [last_line])) p = (set_line_buffer last_line p', Ok tt).
Proof.
  revert p. induction ls as [|l ls IH]; intros p HF Hlast Hb Hfeed.
  - simpl in *. unfold mret, M_ret in Hfeed. simplify_eq. rewrite push_chars_buffer by done. by rewrite Hb.
  - apply Forall_cons in HF as [Hl HF]. rewrite <- app_comm_cons.
    rewrite join_cons by (by destruct ls). simpl (_ ++ _).
    rewrite push_chars_line by done. simpl in Hfeed.
    apply M_bind_inv_Ok in Hfeed as (q & [] & Hq & Hfeed). erewrite M_bind_Ok by done.
    apply IH; [done..| |done]. pose proof (process_line_buffer l (incr_line_number p)) as Hbuf.
    unfold feed_line in Hq. rewrite Hq in Hbuf. simpl in Hbuf. congruence.
Qed.

(** ** Marker lines *)

Lemma name_ok_last p s : name_ok s -> exists c, last (p ++ s) = Some c /\ is_whitespace c = false.
Proof.
  intros (_ & c & Hc & Hw). exists c. split; [|done].
  apply last_Some_removelast in Hc. by rewrite Hc, app_assoc, last_snoc.
Qed.

Lemma marker_trim_end p s : name_ok s -> trim_end (p ++ s) = p ++ s.
Proof. intros Hs. destruct (name_ok_last p s Hs) as (c & Hc & Hw). by eapply trim_end_id. Qed.

Lemma marker_trim a p s :
  is_whitespace a = false -> name_ok s -> trim ((a :: p) ++ s) = (a :: p) ++ s.
Proof. intros Ha Hs. unfold trim. erewrite trim_start_id by done. by apply marker_trim_end. Qed.

Lemma name_ok_clean p s : LF ∉ p -> name_ok s -> clean_line (p ++ s).
Proof.
  intros Hp Hs. split.
  - rewrite elem_of_app. destruct Hs as [? _]. tauto.
  - destruct (name_ok_last p s Hs) as (c & -> & Hw). intros [= ->]. done.
Qed.

(** A state between two hunks: the next header is accepted. *)
Definition ready (p : StreamingPatchParser) : Prop :=
  line_buffer p = [] /\
  match mode (state p) with
  | Mode.StartedPatch | Mode.AddFile | Mode.DeleteFile | Mode.UpdateFile _ => True
  | _ => False
  end /\
  forall line, ensure_update_hunk_is_not_empty line p = (p, Ok tt).

Lemma ready_incr p : ready p -> ready (incr_line_number p).
Proof.
  intros (Hb & Hm & He). split_and!; [done..|]. intros line. specialize (He line).
  unfold ensure_update_hunk_is_not_empty in *. simpl in *. by repeat case_match; simplify_eq.
Qed.

Lemma handled_line line p p' :
  ready p -> trim line = line -> trim_end line = line ->
  handle_hunk_headers_and_end_patch line p = (p', Ok true) -> process_line line p = (p', Ok tt).
Proof.
  intros (_ & Hm & _) Ht Hte Hh. unfold process_line. rewrite Ht, Hte. unfold after_headers.
  destruct (mode (state p)); try done; by rewrite (M_bind_Ok _ _ _ _ _ Hh).
Qed.

Lemma header_not_environment (m : str) (q : StreamingPatchParser) :
  strip_prefix ENVIRONMENT_ID_MARKER m = None ->
  handle_hunk_headers_and_end_patch m q = handle_headers m q.
Proof.
  intros H. unfold handle_hunk_headers_and_end_patch. rewrite H. by case_match.
Qed.

Definition start_hunk (m : Mode.StreamingParserMode) (h : Hunk) (p : StreamingPatchParser) :=
  set_mode m (push_hunk h p).

Lemma not_end_marker (p s : str) : strip_prefix p END_PATCH_MARKER = None -> str_eqb (p ++ s) END_PATCH_MARKER = false.
Proof.
  intros H. unfold str_eqb. apply bool_decide_eq_false. intros E.
  rewrite <- E, strip_prefix_app in H. done.
Qed.

(** A header line in a ready state: the markers tested before its own are refuted by
    their first letters. *)
Ltac solve_header p :=
  intros Hr Hn; apply ready_incr in Hr; unfold feed_line; set (q := incr_line_number p) in *;
  apply handled_line; [done|by apply marker_trim|by apply marker_trim_end|];
  rewrite header_not_environment by done; unfold handle_headers;
  rewrite not_end_marker by done;
  try change (strip_prefix ADD_FILE_MARKER (DELETE_FILE_MARKER ++ _)) with (@None str);
  try change (strip_prefix ADD_FILE_MARKER (UPDATE_FILE_MARKER ++ _)) with (@None str);
  try change (strip_prefix DELETE_FILE_MARKER (UPDATE_FILE_MARKER ++ _)) with (@None str);
  rewrite strip_prefix_app; destruct Hr as (_ & _ & He);
  by erewrite M_bind_Ok by apply He.

Lemma add_header path p :
  ready p -> name_ok path ->
  feed_line (ADD_FILE_MARKER ++ path) p = (start_hunk Mode.AddFile (AddFile path []) (incr_line_number p), Ok tt).
Proof. solve_header p. Qed.

Lemma delete_header path p :
  ready p -> name_ok path ->
  feed_line (DELETE_FILE_MARKER ++ path) p = (start_hunk Mode.DeleteFile (DeleteFile path) (incr_line_number p), Ok tt).
Proof. solve_header p. Qed.

Lemma update_header path p :
  ready p -> name_ok path ->
  feed_line (UPDATE_FILE_MARKER ++ path) p =
  (start_hunk (Mode.UpdateFile (line_number (incr_line_number p))) (UpdateFile path None []) (incr_line_number p), Ok tt).
Proof. solve_header p. Qed.

(** ** Lines inside a hunk *)

Definition star : N := 42.
Definition at_sign : N := 64.

Lemma strip_prefix_head a m t : head t <> Some a -> strip_prefix (a :: m) t = None.
Proof. destruct t as [|b t]; [done|]. intros H. apply strip_prefix_head_ne. simpl in H. congruence. Qed.

Lemma str_eqb_head a m t : head t <> Some a -> str_eqb t (a :: m) = false.
Proof. intros H. apply bool_decide_eq_false. by intros ->. Qed.

Lemma handle_not_star t p :
  head t <> Some star -> is_started (mode (state p)) = false ->
  handle_hunk_headers_and_end_patch t p = (p, Ok false).
Proof.
  intros Hh Hm. unfold handle_hunk_headers_and_end_patch. rewrite Hm. unfold handle_headers.
  rewrite (str_eqb_head star (lit "** End Patch")) by done.
  rewrite (strip_prefix_head star (lit "** Add File: ")), (strip_prefix_head star (lit "** Delete File: ")),
    (strip_prefix_head star (lit "** Update File: ")) by done. done.
Qed.

Lemma trim_head_ne s c d :
  head s = Some c -> is_whitespace c = false -> c <> d -> head (trim s) <> Some d.
Proof.
  intros Hh Hw Hne. unfold trim. erewrite trim_start_id by done.
  erewrite trim_end_nonempty_head by done. congruence.
Qed.

Lemma added_line l p hs path c :
  mode (state p) = Mode.AddFile -> hunks (state p) = hs ++ [AddFile path c] ->
  feed_line (lit "+" ++ l) p =
  (set_hunks (hs ++ [AddFile path (c ++ l ++ [LF])]) (incr_line_number p), Ok tt).
Proof.
  intros Hm Hh. unfold feed_line, process_line. simpl (mode _). rewrite Hm. unfold after_headers.
  erewrite M_bind_Ok.
  2:{ apply handle_not_star; [by eapply trim_head_ne|]. simpl. by rewrite Hm. }
  cbv beta iota. rewrite strip_prefix_app. simpl (hunks _). rewrite Hh, last_snoc.
  unfold set_last. by rewrite removelast_snoc.
Qed.

Lemma added_lines ls p hs path c :
  mode (state p) = Mode.AddFile -> hunks (state p) = hs ++ [AddFile path c] ->
  exists p', feed_lines ((fun l => lit "+" ++ l) <$> ls) p = (p', Ok tt) /\
    mode (state p') = Mode.AddFile /\ hunks (state p') = hs ++ [AddFile path (c ++ added_contents ls)] /\
    environment_id (state p') = environment_id (state p) /\ line_buffer p' = line_buffer p.
Proof.
  revert p c. induction ls as [|l ls IH]; intros p c Hm Hh.
  - exists p. cbn. by rewrite app_nil_r.
  - rewrite fmap_cons. erewrite feed_lines_cons_Ok by by apply added_line.
    destruct (IH (set_hunks (hs ++ [AddFile path (c ++ l ++ [LF])]) (incr_line_number p)) (c ++ l ++ [LF]))
      as (p' & Hf & Hm' & Hh' & He & Hb); [done..|].
    exists p'. split_and!; try done. rewrite Hh'. unfold added_contents. cbn. by rewrite !app_assoc.
Qed.

(** A state inside an update hunk. *)
Definition in_update (hs : list Hunk) (path : str) (mv : option str) (cs : list UpdateFileChunk)
    (env : option str) (p : StreamingPatchParser) : Prop :=
  line_buffer p = [] /\ (exists n, mode (state p) = Mode.UpdateFile n) /\
  hunks (state p) = hs ++ [UpdateFile path mv cs] /\ environment_id (state p) = env.

Lemma update_line line p hs path mv cs env mv' cs' :
  in_update hs path mv cs env p ->
  handle_hunk_headers_and_end_patch (trim_end line) (incr_line_number p) = (incr_line_number p, Ok false) ->
  process_update_line line (line_number (incr_line_number p)) mv cs = Ok (mv', cs') ->
  exists p', feed_line line p = (p', Ok tt) /\ in_update hs path mv' cs' env p'.
Proof.
  intros (Hb & (n & Hm) & Hh & He) Hhd Hp. exists (set_hunks (hs ++ [UpdateFile path mv' cs']) (incr_line_number p)).
  split.
  - unfold feed_line, process_line. simpl (mode _). rewrite Hm. unfold after_headers.
    rewrite (M_bind_Ok _ _ _ _ _ Hhd). cbv beta iota. simpl (hunks _). rewrite Hh, last_snoc, Hp.
    unfold set_last. by rewrite removelast_snoc.
  - split_and!; eauto.
Qed.

(** Lines that start with neither ['*'] nor ['@'] are diff lines. *)
Lemma plain_update_line line n mv cs :
  head (trim_end line) <> Some star -> head (trim_end line) <> Some at_sign ->
  is_some_and (last cs) is_end_of_file = false ->
  process_update_line line n mv cs = process_diff_line line n mv cs.
Proof.
  intros Hs Ha He. unfold process_update_line, is_context_marker, starts_with. rewrite He. cbn [andb].
  assert (move_to_target (trim_end line) mv cs = None) as ->.
  { destruct cs, mv; try done. simpl. by apply (strip_prefix_head star (lit "** Move to: ")). }
  rewrite (str_eqb_head at_sign (lit "@")), (strip_prefix_head at_sign (lit "@ ")),
    (str_eqb_head star (lit "** End of File")) by done. done.
Qed.

Lemma diff_line_head_ne d x :
  x <> 32%N -> x <> 43%N -> x <> 45%N -> head (trim_end (diff_line_text d)) <> Some x.
Proof. intros ??? H. apply trim_end_head in H. destruct d; cbv in H; congruence. Qed.

Lemma process_diff_line_text d n mv cs :
  process_diff_line (diff_line_text d) n mv cs = Ok (mv, with_last_chunk (fun c => add_diff_line c d) cs).
Proof.
  unfold process_diff_line. destruct d as [l|l|l]; cbn [diff_line_text]; rewrite ?strip_prefix_app; try done.
Qed.

Lemma diff_line_fed d p hs path mv cs env :
  in_update hs path mv cs env p -> is_some_and (last cs) is_end_of_file = false ->
  exists p', feed_line (diff_line_text d) p = (p', Ok tt) /\
    in_update hs path mv (with_last_chunk (fun c => add_diff_line c d) cs) env p'.
Proof.
  intros Hin He. assert (mode (state p) <> Mode.StartedPatch) as Hm by (destruct Hin as (_ & (n & ->) & _); done).
  eapply update_line; [done| |].
  - apply handle_not_star; [by apply diff_line_head_ne|]. by simpl; destruct (mode (state p)).
  - rewrite plain_update_line; [apply process_diff_line_text|by apply diff_line_head_ne..|done].
Qed.

Lemma diff_lines_fed ds p hs path mv cs c env :
  in_update hs path mv (cs ++ [c]) env p -> is_end_of_file c = false ->
  exists p', feed_lines (diff_line_text <$> ds) p = (p', Ok tt) /\
    in_update hs path mv (cs ++ [foldl add_diff_line c ds]) env p' /\
    is_end_of_file (foldl add_diff_line c ds) = false.
Proof.
  revert p c. induction ds as [|d ds IH]; intros p c Hin He; [by exists p|]. rewrite fmap_cons.
  destruct (diff_line_fed d p hs path mv (cs ++ [c]) env) as (p1 & Hf & Hin1); [done|by rewrite last_snoc|].
  unfold with_last_chunk, set_last in Hin1. rewrite last_snoc, removelast_snoc in Hin1.
  destruct (IH p1 (add_diff_line c d)) as (p' & Hf' & Hin' & He'); [done|by destruct d|].
  exists p'. split_and!; try done. by erewrite feed_lines_cons_Ok.
Qed.

(** Lines before any header open a chunk without context. *)
Lemma first_diff_lines_fed ds p hs path mv env :
  in_update hs path mv [] env p -> ds <> [] ->
  exists p', feed_lines (diff_line_text <$> ds) p = (p', Ok tt) /\
    in_update hs path mv [foldl add_diff_line default_chunk ds] env p' /\
    is_end_of_file (foldl add_diff_line default_chunk ds) = false.
Proof.
  intros Hin Hne. destruct ds as [|d ds]; [done|]. rewrite fmap_cons.
  destruct (diff_line_fed d p hs path mv [] env Hin eq_refl) as (p1 & Hf & Hin1).
  rewrite (feed_lines_cons_Ok _ _ _ _ Hf). by apply (diff_lines_fed ds p1 hs path mv []); [|destruct d].
Qed.

(** ** Blocks, hunks and the whole patch *)

Lemma foldl_add_nonempty ds c :
  ds <> [] \/ chunk_nonempty c -> chunk_nonempty (foldl add_diff_line c ds).
Proof.
  revert c. induction ds as [|d ds IH]; intros c H; simpl; [by destruct H|].
  apply IH. right. unfold chunk_nonempty, chunk_is_empty. destruct d; simpl;
    destruct (old_lines c); destruct (new_lines c); done.
Qed.

Lemma block_chunk_nonempty b : block_lines b <> [] -> chunk_nonempty (block_chunk b).
Proof.
  intros H. unfold block_chunk. assert (chunk_nonempty (foldl add_diff_line (mkChunk (block_context b) [] [] [] false) (block_lines b)))
    by (apply foldl_add_nonempty; auto). by destruct (block_eof b).
Qed.

Definition last_closed (cs : list UpdateFileChunk) : Prop :=
  match last cs with Some c => chunk_nonempty c | None => True end.

Lemma context_header_line ctx p hs path mv cs env :
  in_update hs path mv cs env p -> last_closed cs ->
  match ctx with Some c => name_ok c | None => True end ->
  exists p', feed_line (header_text ctx) p = (p', Ok tt) /\
    in_update hs path mv (cs ++ [mkChunk (ctx) [] [] [] false]) env p'.
Proof.
  intros Hin Hcl Hn.
  assert (mode (state p) <> Mode.StartedPatch) as Hm by (destruct Hin as (_ & (n & ->) & _); done).
  assert (trim_end (header_text ctx) = header_text ctx) as Htr.
  { destruct (ctx); [by apply marker_trim_end|done]. }
  eapply update_line; [done| |].
  - rewrite Htr. apply handle_not_star; [by destruct (ctx)|]. by simpl; destruct (mode (state p)).
  - unfold process_update_line. rewrite Htr.
    assert (is_context_marker (header_text ctx) = true) as ->.
    { unfold is_context_marker. destruct (ctx); [|done]. apply orb_true_intro. right.
      apply starts_with_true. eauto. }
    assert (is_empty (header_text ctx) = false) as -> by (by destruct (ctx)).
    rewrite !andb_false_r.
    assert (move_to_target (header_text ctx) mv cs = None) as ->
      by (destruct cs, mv, (ctx); done).
    assert (is_some_and (last cs) chunk_is_empty = false) as ->
      by (unfold last_closed in Hcl; destruct (last cs); done).
    cbn [negb andb]. destruct (ctx) as [c|]; cbn [header_text]; [|done].
    rewrite strip_prefix_app. case_match eqn:Heq; [|done]. to_prop.
    exfalso. destruct Hn as (_ & d & Hd & _). by destruct c.
Qed.

Lemma eof_line p hs path mv cs c env :
  in_update hs path mv (cs ++ [c]) env p -> is_end_of_file c = false -> chunk_nonempty c ->
  exists p', feed_line EOF_MARKER p = (p', Ok tt) /\ in_update hs path mv (cs ++ [set_end_of_file c]) env p'.
Proof.
  intros Hin He Hne.
  assert (is_started (mode (state p)) = false) as Hm by (destruct Hin as (_ & (n & ->) & _); done).
  eapply update_line; [done| |].
  - change (trim_end EOF_MARKER) with EOF_MARKER. unfold handle_hunk_headers_and_end_patch.
    simpl (mode _). by rewrite Hm.
  - unfold process_update_line. change (trim_end EOF_MARKER) with EOF_MARKER. rewrite last_snoc. simpl.
    rewrite He. simpl. assert (move_to_target EOF_MARKER mv (cs ++ [c]) = None) as -> by (by destruct cs).
    change (is_context_marker EOF_MARKER) with false. simpl.
    change (str_eqb EOF_MARKER EMPTY_CHANGE_CONTEXT_MARKER) with false.
    change (strip_prefix CHANGE_CONTEXT_MARKER EOF_MARKER) with (@None str).
    change (str_eqb EOF_MARKER EOF_MARKER) with true. cbv iota. rewrite Hne.
    unfold set_last. by rewrite removelast_snoc.
Qed.

(** The header of a block, or its absence, and its lines. *)
Lemma block_opened b p hs path mv cs env :
  in_update hs path mv cs env p -> last_closed cs -> block_ok b -> cs = [] \/ has_header b ->
  exists p', feed_lines (match block_header b with NoHeader => [] | Header ctx => [header_text ctx] end
                         ++ (diff_line_text <$> block_lines b)) p = (p', Ok tt) /\
    let c := foldl add_diff_line (mkChunk (block_context b) [] [] [] false) (block_lines b) in
    in_update hs path mv (cs ++ [c]) env p' /\ is_end_of_file c = false.
Proof.
  intros Hin Hcl (Hn & Hne & _) Hh. unfold has_header, block_context in *. destruct (block_header b) as [|ctx].
  - destruct Hh as [->|]; [|done]. by apply first_diff_lines_fed.
  - destruct (context_header_line ctx p hs path mv cs env Hin Hcl Hn) as (p1 & Hf1 & Hin1).
    cbn [app]. rewrite (feed_lines_cons_Ok _ _ _ _ Hf1). by apply diff_lines_fed.
Qed.

Lemma block_fed b p hs path mv cs env :
  in_update hs path mv cs env p -> last_closed cs -> block_ok b -> cs = [] \/ has_header b ->
  exists p', feed_lines (block_text b) p = (p', Ok tt) /\ in_update hs path mv (cs ++ [block_chunk b]) env p'.
Proof.
  intros Hin Hcl Hb Hh. unfold block_text. rewrite app_assoc, feed_lines_app.
  destruct (block_opened b p hs path mv cs env Hin Hcl Hb Hh) as (p2 & Hf2 & Hin2 & He2).
  rewrite (M_bind_Ok _ _ _ _ _ Hf2). destruct Hb as (_ & Hne & _). pose proof (block_chunk_nonempty b Hne) as Hbc. unfold block_chunk in *.
  destruct (block_eof b); [|by exists p2].
  edestruct eof_line as (p3 & Hf3 & Hin3); [exact Hin2|done|done|].
  exists p3. split; [|done]. by rewrite (feed_lines_cons_Ok _ _ _ _ Hf3).
Qed.

Lemma blocks_fed bs p hs path mv cs env :
  in_update hs path mv cs env p -> last_closed cs -> Forall block_ok bs ->
  Forall has_header (if decide (cs = []) then tail bs else bs) ->
  exists p', feed_lines (concat (block_text <$> bs)) p = (p', Ok tt) /\
    in_update hs path mv (cs ++ (block_chunk <$> bs)) env p'.
Proof.
  revert p cs. induction bs as [|b bs IH]; intros p cs Hin Hcl HF Hhd.
  - exists p. simpl. by rewrite app_nil_r.
  - apply Forall_cons in HF as [Hb HF]. rewrite fmap_cons, concat_cons, feed_lines_app.
    assert ((cs = [] \/ has_header b) /\ Forall has_header bs) as [Hh Hhs].
    { destruct (decide (cs = [])); [by split; [left|]|]. apply Forall_cons in Hhd as [? ?]. by split; [right|]. }
    destruct (block_fed b p hs path mv cs env Hin Hcl Hb Hh) as (p1 & Hf1 & Hin1).
    rewrite (M_bind_Ok _ _ _ _ _ Hf1).
    destruct (IH p1 (cs ++ [block_chunk b])) as (p2 & Hf2 & Hin2); [done| |done|by rewrite decide_False by (by destruct cs)|].
    { unfold last_closed. rewrite last_snoc. apply block_chunk_nonempty. by destruct Hb as (_ & ? & _). }
    exists p2. split; [done|]. by rewrite fmap_cons, <- app_assoc in *.
Qed.

Lemma move_line m p hs path env :
  in_update hs path None [] env p -> name_ok m ->
  exists p', feed_line (MOVE_TO_MARKER ++ m) p = (p', Ok tt) /\ in_update hs path (Some m) [] env p'.
Proof.
  intros Hin Hm. eapply update_line; [done| |].
  - rewrite marker_trim_end by done. unfold handle_hunk_headers_and_end_patch.
    destruct Hin as (_ & (n & Hmo) & _). simpl (mode _). rewrite Hmo. cbn [is_started].
    unfold handle_headers. rewrite not_end_marker by done. done.
  - unfold process_update_line. rewrite marker_trim_end by done.
    cbn [last is_some_and andb move_to_target]. by rewrite strip_prefix_app.
Qed.

Lemma ready_after_update p hs path mv cs env :
  in_update hs path mv cs env p -> cs <> [] -> last_closed cs -> ready p.
Proof.
  intros (Hb & (n & Hm) & Hh & _) Hne Hcl. split_and!; [done|by rewrite Hm|].
  intros line. unfold ensure_update_hunk_is_not_empty. rewrite Hh, last_snoc.
  destruct cs as [|c cs]; [done|]. unfold last_closed in Hcl. destruct (last (c :: cs)); [|done].
  simpl. by rewrite Hcl.
Qed.

Lemma ready_after_file p hs h :
  line_buffer p = [] -> hunks (state p) = hs ++ [h] ->
  match h, mode (state p) with
  | AddFile _ _, Mode.AddFile | DeleteFile _, Mode.DeleteFile => True
  | _, _ => False
  end -> ready p.
Proof.
  intros Hb Hh Hm. split_and!; [done| |].
  - by destruct h, (mode (state p)).
  - intros line. unfold ensure_update_hunk_is_not_empty. rewrite Hh, last_snoc. by destruct h.
Qed.

Lemma last_closed_blocks bs : bs <> [] -> Forall block_ok bs -> last_closed (block_chunk <$> bs).
Proof.
  intros Hne HF. unfold last_closed. rewrite fmap_last. destruct (last bs) as [b|] eqn:Hl; [|done].
  simpl. apply block_chunk_nonempty. apply last_Some_removelast in Hl. rewrite Hl in HF.
  apply Forall_app in HF as [_ HF]. rewrite Forall_singleton in HF. by destruct HF as (_ & ? & _).
Qed.

(** A hunk sentence fed in a ready state appends the hunk it denotes. *)
Lemma hunk_fed h p :
  ready p -> sentence_hunk_ok h ->
  exists p', feed_lines (hunk_text h) p = (p', Ok tt) /\ ready p' /\
    hunks (state p') = hunks (state p) ++ [hunk_of h] /\
    environment_id (state p') = environment_id (state p).
Proof.
  intros Hr Hok. pose proof Hr as (Hb & _ & _). destruct h as [path ls|path|path mv bs]; simpl in Hok.
  - destruct Hok as [Hn HF]. cbn [hunk_text]. rewrite (feed_lines_cons_Ok _ _ _ _ (add_header path p Hr Hn)).
    destruct (added_lines ls (start_hunk Mode.AddFile (AddFile path []) (incr_line_number p))
                (hunks (state p)) path []) as (p' & Hf & Hm & Hh & He & Hb'); [done..|].
    exists p'. split_and!; try done. eapply ready_after_file; [by rewrite Hb'|done|]. by rewrite Hm.
  - cbn [hunk_text]. rewrite (feed_lines_cons_Ok _ _ _ _ (delete_header path p Hr Hok)).
    eexists. split_and!; [done| |done|done]. by eapply ready_after_file.
  - destruct Hok as (Hn & Hmv & Hne & HF & Hhd). cbn [hunk_text].
    rewrite (feed_lines_cons_Ok _ _ _ _ (update_header path p Hr Hn)), feed_lines_app.
    set (q := start_hunk _ _ _).
    assert (in_update (hunks (state p)) path None [] (environment_id (state p)) q) as Hin by (split_and!; eauto).
    assert (exists q', feed_lines (match mv with Some m => [MOVE_TO_MARKER ++ m] | None => [] end) q = (q', Ok tt) /\
                       in_update (hunks (state p)) path mv [] (environment_id (state p)) q') as (q' & Hq & Hin').
    { destruct mv as [m|]; [|by exists q]. destruct (move_line m _ _ _ _ Hin Hmv) as (q' & Hq & Hin').
      exists q'. split; [|done]. by rewrite (feed_lines_cons_Ok _ _ _ _ Hq). }
    rewrite (M_bind_Ok _ _ _ _ _ Hq). destruct (blocks_fed bs _ _ _ _ _ _ Hin' I HF Hhd) as (p' & Hf & Hin'').
    exists p'. split_and!; [done| |by destruct Hin'' as (_ & _ & ? & _)|by destruct Hin'' as (_ & _ & _ & ?)].
    eapply ready_after_update; [done|by destruct bs|by apply last_closed_blocks].
Qed.

Lemma hunks_fed hs p :
  ready p -> Forall sentence_hunk_ok hs ->
  exists p', feed_lines (concat (hunk_text <$> hs)) p = (p', Ok tt) /\ ready p' /\
    hunks (state p') = hunks (state p) ++ (hunk_of <$> hs) /\
    environment_id (state p') = environment_id (state p).
Proof.
  revert p. induction hs as [|h hs IH]; intros p Hr HF.
  - exists p. split_and!; [done..| |done]. simpl. by rewrite app_nil_r.
  - apply Forall_cons in HF as [Hh HF]. rewrite fmap_cons, concat_cons, feed_lines_app.
    destruct (hunk_fed h p Hr Hh) as (p1 & Hf1 & Hr1 & Hh1 & He1). rewrite (M_bind_Ok _ _ _ _ _ Hf1).
    destruct (IH p1 Hr1 HF) as (p2 & Hf2 & Hr2 & Hh2 & He2).
    exists p2. split_and!; try done; [|congruence]. by rewrite Hh2, Hh1, fmap_cons, <- app_assoc.
Qed.

Lemma environment_fed e p :
  mode (state p) = Mode.StartedPatch -> hunks (state p) = [] -> environment_id (state p) = None ->
  line_buffer p = [] -> environment_ok e ->
  exists p', feed_lines (environment_text e) p = (p', Ok tt) /\ ready p' /\
    hunks (state p') = [] /\ environment_id (state p') = e.
Proof.
  intros Hm Hh He Hb Hok. assert (ready p) as Hr.
  { split_and!; [done|by rewrite Hm|]. intros line. unfold ensure_update_hunk_is_not_empty. by rewrite Hh. }
  destruct e as [id|]; [|by exists p]. destruct Hok as (Hn & a & Ha & Hw).
  exists (set_environment_id (Some id) (incr_line_number p)). split_and!; [| |done|done].
  2:{ split_and!; [done|by simpl; rewrite Hm|]. intros line. unfold ensure_update_hunk_is_not_empty. simpl. by rewrite Hh. }
  cbn [environment_text]. assert (name_ok (lit " " ++ id)) as Hn'.
  { split; [|by apply name_ok_last]. destruct Hn as [? _]. rewrite elem_of_app.
    intros [Hin|Hin]; [|done]. revert Hin. by_decide. }
  erewrite feed_lines_cons_Ok; [done|]. unfold feed_line.
  apply handled_line; [by apply ready_incr|by apply marker_trim|by apply marker_trim_end|].
  unfold handle_hunk_headers_and_end_patch. simpl (mode _). rewrite Hm, strip_prefix_app.
  cbn [is_started]. unfold handle_environment_id. simpl (environment_id _). rewrite He.
  assert (trim (lit " " ++ id) = id) as ->.
  { unfold trim. change (trim_start (lit " " ++ id)) with (trim_start id).
    erewrite trim_start_id by done. destruct Hn as (_ & c & Hc & Hwc). by eapply trim_end_id. }
  by destruct id.
Qed.

(** ** The text of a sentence *)

Lemma block_text_clean b : block_ok b -> Forall clean_line (block_text b).
Proof.
  intros (Hn & _ & HF). unfold block_text, block_context in *. apply Forall_app. split.
  - destruct (block_header b) as [|[c|]]; [done|constructor; [apply name_ok_clean; [by_decide|done]|done]|repeat constructor; by_decide].
  - apply Forall_app. split; [|destruct (block_eof b); repeat constructor; by_decide].
    apply Forall_fmap. eapply Forall_impl; [exact HF|]. intros d [Hd Hcr].
    assert (forall m, LF ∉ m -> m <> [] -> last m <> Some CR -> clean_line (m ++ diff_line_of d)) as Hm.
    { intros m Hm Hne Hl. split; [rewrite elem_of_app; tauto|].
      destruct (last (diff_line_of d)) eqn:E.
      - apply last_Some_removelast in E. rewrite E in *. by rewrite app_assoc, last_snoc in *.
      - apply last_None_nil in E as ->. by rewrite app_nil_r. }
    destruct d; apply Hm; by_decide.
Qed.

Lemma hunk_text_clean h : sentence_hunk_ok h -> Forall clean_line (hunk_text h).
Proof.
  assert (forall m s, LF ∉ m -> name_ok s -> clean_line (m ++ s)) as Hm by (intros; by apply name_ok_clean).
  destruct h as [path ls|path|path mv bs]; cbn [hunk_text sentence_hunk_ok]; intros Hok.
  - destruct Hok as [Hn HF]. constructor; [apply Hm; [by_decide|done]|].
    apply Forall_fmap. eapply Forall_impl; [exact HF|]. intros l [Hl Hcr]. split.
    + rewrite elem_of_app. intros [H|H]; [|done]. revert H. by_decide.
    + rewrite last_app. by destruct (last l).
  - constructor; [apply Hm; [by_decide|done]|constructor].
  - destruct Hok as (Hn & Hmv & _ & HF & _). constructor; [apply Hm; [by_decide|done]|].
    apply Forall_app. split.
    + destruct mv; constructor; [apply Hm; [by_decide|done]|constructor].
    + apply Forall_concat, Forall_fmap. eapply Forall_impl; [exact HF|]. apply block_text_clean.
Qed.

Lemma body_text_clean s : sentence_ok s -> Forall clean_line (body_text s).
Proof.
  intros [He HF]. apply Forall_app. split.
  - destruct (sentence_environment s); constructor; [|constructor].
    rewrite app_assoc. apply name_ok_clean; [by_decide|by destruct He].
  - apply Forall_concat, Forall_fmap. eapply Forall_impl; [exact HF|]. apply hunk_text_clean.
Qed.

Lemma join_snoc sep ls x : exists pre, join sep (ls ++ [x]) = pre ++ x.
Proof.
  induction ls as [|l ls [pre IH]]; [by exists []|]. rewrite <- app_comm_cons, join_cons by (by destruct ls).
  rewrite IH. exists (l ++ sep ++ pre). by rewrite !app_assoc.
Qed.

Lemma patch_lines_clean s : sentence_ok s -> Forall clean_line (patch_lines s).
Proof.
  intros Hok. apply Forall_app. split; [constructor; [split; by_decide|by apply body_text_clean]|].
  repeat constructor; by_decide.
Qed.

Lemma last_app_nonempty {A} (a b : list A) : b <> [] -> last (a ++ b) = last b.
Proof. intros H. rewrite last_app. destruct (last b) eqn:E; [done|by apply last_None_nil in E]. Qed.

(** Text that starts with ['a'] and ends with the letters of [x] is already trimmed. *)
Lemma trim_join a l ls x b :
  is_whitespace a = false -> last x = Some b -> is_whitespace b = false ->
  trim (join [LF] (((a :: l) :: ls) ++ [x])) = join [LF] (((a :: l) :: ls) ++ [x]).
Proof.
  intros Ha Hx Hb. eapply trim_id; [|exact Ha| |exact Hb].
  - rewrite <- app_comm_cons, join_cons by (by destruct ls). done.
  - destruct (join_snoc [LF] ((a :: l) :: ls) x) as [pre ->]. rewrite last_app_nonempty; [done|]. by intros ->.
Qed.

Lemma patch_text_parsed s :
  sentence_ok s ->
  exists p, parse_whole (patch_text s) default_parser = (p, Ok (hunk_of <$> sentence_hunks s)) /\
    environment_id (state p) = sentence_environment s.
Proof.
  intros Hok. pose proof Hok as [He HF].
  set (p0 := mkParser [] (mkState Mode.StartedPatch [] None) 1).
  destruct (environment_fed (sentence_environment s) p0) as (p1 & Hf1 & Hr1 & Hh1 & He1); [done..|].
  destruct (hunks_fed (sentence_hunks s) p1 Hr1 HF) as (p2 & Hf2 & Hr2 & Hh2 & He2).
  assert (feed_lines (BEGIN_PATCH_MARKER :: body_text s) default_parser = (p2, Ok tt)) as Hfeed.
  { erewrite (feed_lines_cons_Ok _ _ _ p0) by done. unfold body_text.
    by rewrite feed_lines_app, (M_bind_Ok _ _ _ _ _ Hf1). }
  set (q := set_mode Mode.EndedPatch (incr_line_number (set_line_buffer [] p2))).
  exists q. split; [|by simpl; rewrite He2]. unfold parse_whole. rewrite push_delta_then.
  erewrite M_bind_Ok.
  2:{ apply (push_chars_join (BEGIN_PATCH_MARKER :: body_text s)); [|by_decide|done|exact Hfeed].
      constructor; [split; by_decide|by apply body_text_clean]. }
  destruct Hr2 as (Hb2 & Hm2 & Hens2). unfold finish. erewrite (M_bind_Ok _ _ _ q).
  - unfold require_ended. simpl. by rewrite Hh2, Hh1.
  - unfold finish_buffer. cbn [line_buffer set_line_buffer is_empty].
    change (trim END_PATCH_MARKER) with END_PATCH_MARKER. unfold end_patch. simpl (str_eqb _ _).
    change (is_empty END_PATCH_MARKER) with false. change (str_eqb END_PATCH_MARKER END_PATCH_MARKER) with true.
    cbv iota. erewrite M_bind_Ok; [done|].
    assert (ready (incr_line_number (set_line_buffer [] p2))) as (_ & _ & Hens); [|apply Hens].
    apply ready_incr. destruct p2 as [b st n]. simpl in Hb2. subst b. by split_and!.
Qed.

Lemma strict_boundaries s : check_patch_boundaries_strict (patch_lines s) = Ok (patch_lines s).
Proof. unfold check_patch_boundaries_strict, patch_lines. by rewrite last_snoc. Qed.

Lemma parse_lines_Ok s (text : str) m :
  sentence_ok s ->
  match m with
  | Strict => check_patch_boundaries_strict (lines (trim text))
  | Lenient => check_patch_boundaries_lenient (lines (trim text))
  end = Ok (patch_lines s) ->
  parse_patch_text text m =
    Ok (mkArgs (patch_text s) (hunk_of <$> sentence_hunks s) None (sentence_environment s)).
Proof.
  intros Hok Hb. unfold parse_patch_text. rewrite Hb. fold (patch_text s).
  destruct (patch_text_parsed s Hok) as (p & -> & ->). done.
Qed.

Lemma patch_text_lines s : sentence_ok s -> lines (trim (patch_text s)) = patch_lines s.
Proof.
  intros Hok. unfold patch_text, patch_lines. erewrite (trim_join star (lit "** Begin Patch")); [|done..].
  apply lines_join; [by apply patch_lines_clean|]. by rewrite last_snoc.
Qed.

Definition heredoc_opens : list str :=
  [lit "<<EOF"; lit "<<'EOF'"; lit "<<" ++ [34%N] ++ lit "EOF" ++ [34%N]].

(** The heredoc wrapping some models put around the argument. *)
Definition heredoc_text (open : str) (s : PatchSentence) : str :=
  join [LF] ((open :: patch_lines s) ++ [lit "EOF"]).

Lemma heredoc_lines open s :
  open ∈ heredoc_opens -> sentence_ok s ->
  lines (trim (heredoc_text open s)) = (open :: patch_lines s) ++ [lit "EOF"].
Proof.
  intros Hopen Hok. unfold heredoc_text.
  assert (exists l, open = 60%N :: l /\ clean_line open) as (l & -> & Hc).
  { repeat (apply elem_of_cons in Hopen as [->|Hopen]; [eexists; split; [done|split; by_decide]|]).
    by apply not_elem_of_nil in Hopen. }
  erewrite trim_join; [|done..]. apply lines_join; [|by rewrite last_snoc].
  apply Forall_app. split; [constructor; [done|by apply patch_lines_clean]|]. repeat constructor; by_decide.
Qed.

Lemma heredoc_boundaries open s :
  open ∈ heredoc_opens ->
  check_patch_boundaries_lenient ((open :: patch_lines s) ++ [lit "EOF"]) = Ok (patch_lines s).
Proof.
  intros Hopen. unfold check_patch_boundaries_lenient.
  assert (check_patch_boundaries_strict ((open :: patch_lines s) ++ [lit "EOF"]) =
          Err (InvalidPatchError msg_first_line)) as ->.
  { unfold check_patch_boundaries_strict. rewrite last_snoc.
    repeat (apply elem_of_cons in Hopen as [->|Hopen]; [done|]). by apply not_elem_of_nil in Hopen. }
  set (rest := (body_text s ++ [END_PATCH_MARKER]) ++ [lit "EOF"]).
  change ((open :: patch_lines s) ++ [lit "EOF"]) with (open :: BEGIN_PATCH_MARKER :: rest). cbv iota.
  assert (last (open :: BEGIN_PATCH_MARKER :: rest) = Some (lit "EOF")) as ->
    by apply (last_snoc (lit "EOF") (open :: patch_lines s)).
  assert (is_heredoc_open open = true) as ->.
  { repeat (apply elem_of_cons in Hopen as [->|Hopen]; [done|]). by apply not_elem_of_nil in Hopen. }
  change (ends_with (lit "EOF") (lit "EOF")) with true.
  assert ((4 <=? length (open :: BEGIN_PATCH_MARKER :: rest)) = true) as ->.
  { apply Nat.leb_le. unfold rest. cbn [length]. rewrite !length_app. cbn [length]. lia. }
  cbn [andb tail]. unfold rest. rewrite app_comm_cons, removelast_snoc. apply strict_boundaries.
Qed.

(** ** Properties *)


Definition sample_sentence : PatchSentence :=
  mkPatch (Some (lit "remote"))
    [AddHunk (lit "src/a.txt") [lit "one"; lit "two"];
     DeleteHunk (lit "gone.txt");
     UpdateHunk (lit "b.py") (Some (lit "c.py"))
       [mkBlock (Header (Some (lit "def f():"))) [ContextLine (lit "  x"); RemovedLine (lit "  y"); AddedLine (lit "  z")] false;
        mkBlock (Header None) [AddedLine []; ContextLine []] true];
     UpdateHunk (lit "d.py") None
       [mkBlock NoHeader [RemovedLine (lit "old"); AddedLine (lit "new")] false]].

Lemma sample_sentence_ok : sentence_ok sample_sentence.
Proof.
  assert (forall s, bool_decide (LF ∉ s) = true ->
            (match last s with Some c => negb (is_whitespace c) | None => false end) = true -> name_ok s) as Hn.
  { intros s H1 H2. split; [by apply bool_decide_eq_true in H1|].
    destruct (last s) as [c|]; [|done]. exists c. split; [done|]. by apply negb_true_iff. }
  assert (forall s, bool_decide (LF ∉ s) = true -> bool_decide (last s <> Some CR) = true -> clean_line s) as Hc.
  { intros s H1 H2. split; [by apply bool_decide_eq_true in H1|by apply bool_decide_eq_true in H2]. }
  split; [split; [by apply Hn|by eexists]|].
  repeat constructor; try (by apply Hn); try (by apply Hc); try done; apply Hn; done.
Qed.


(** Two sentences of the documented grammar that the parser refuses: an update without a
    change, and an ["@@"] line without change lines. *)
Example update_without_change_refused :
  patch_text (mkPatch None [UpdateHunk (lit "a.py") (Some (lit "b.py")) []]) =
    join [LF] [BEGIN_PATCH_MARKER; lit "*** Update File: a.py"; lit "*** Move to: b.py"; END_PATCH_MARKER] /\
  exists e, parse_patch (patch_text (mkPatch None [UpdateHunk (lit "a.py") (Some (lit "b.py")) []])) = Err e.
Proof. split; [reflexivity|]. eexists. vm_compute. reflexivity. Qed.

Example header_without_lines_refused :
  exists e, parse_patch (patch_text (mkPatch None [UpdateHunk (lit "a.py") None
    [mkBlock (Header (Some (lit "class A:"))) [] false; mkBlock (Header (Some (lit "def f():"))) [AddedLine (lit "x")] false]])) = Err e.
Proof. eexists. vm_compute. reflexivity. Qed.

(** Lenient mode: the same sentence wrapped in a heredoc, with any of the three
    spellings of its opening, parses to the same arguments, the heredoc markers dropped
    from the patch text. *)
Theorem parse_patch_heredoc (open : str) (s : PatchSentence) :
  open ∈ heredoc_opens -> sentence_ok s ->
  parse_patch (heredoc_text open s) = parse_patch (patch_text s).
Proof.
  intros Hopen Hok. transitivity (Ok (E := ParseError)
    (mkArgs (patch_text s) (hunk_of <$> sentence_hunks s) None (sentence_environment s))).
  - apply parse_lines_Ok; [done|]. cbn [PARSE_IN_STRICT_MODE]. rewrite heredoc_lines by done.
    by apply heredoc_boundaries.
  - symmetry. apply parse_lines_Ok; [done|]. cbn [PARSE_IN_STRICT_MODE]. rewrite patch_text_lines by done.
    unfold check_patch_boundaries_lenient. by rewrite strict_boundaries.
Qed.

Lemma parse_patch_heredoc_witness :
  parse_patch (heredoc_text (lit "<<'EOF'") sample_sentence) = parse_patch (patch_text sample_sentence).
Proof. apply parse_patch_heredoc; [by_decide|apply sample_sentence_ok]. Defined.
