(* ===== verification/SeekSequence.v ===== *)
(** * Locating the old lines of a chunk: [apply-patch/src/seek_sequence.rs]

    Four passes over the candidate positions, from exact comparison to comparison
    after Unicode punctuation is normalised. *)

From stdpp Require Import base list strings.
From S2P Require Import Prelude.

(** [ApplyPatchFileUpdateMode] of [lib.rs]. *)
Inductive ApplyPatchFileUpdateMode : Type := NormalizeToLf | PreserveLineEndings.

(** ** Comparisons of the four passes *)

Definition normalise_char (c : N) : N :=
  (if ((8208 <=? c) && (c <=? 8213) || (c =? 8722)) then 45
   else if (8216 <=? c) && (c <=? 8219) then 39
   else if (8220 <=? c) && (c <=? 8223) then 34
   else if (c =? 160) || (8194 <=? c) && (c <=? 8202) || (c =? 8239) || (c =? 8287) || (c =? 12288) then 32
   else c)%N.

Definition normalise (s : str) : str := normalise_char <$> trim s.

Definition same_exact (line pat : str) : bool := str_eqb line pat.
Definition same_trim_end (line pat : str) : bool := str_eqb (trim_end line) (trim_end pat).
Definition same_trim (line pat : str) : bool := str_eqb (trim line) (trim pat).
Definition same_normalised (line pat : str) : bool := str_eqb (normalise line) (normalise pat).

(** The inner loop: [pattern] against the lines from [i] on. *)
Fixpoint window_matches (same : str -> str -> bool) (lines : list str) (i : nat) (pattern : list str) : bool :=
  match pattern with
  | [] => true
  | pat :: pattern' =>
      match lines !! i with
      | Some l => same l pat && window_matches same lines (S i) pattern'
      | None => false
      end
  end.

(** [for i in start..start + count], first index that satisfies the test. *)
Fixpoint find_in_range (test : nat -> bool) (start count : nat) : option nat :=
  match count with
  | O => None
  | S count' => if test start then Some start else find_in_range test (S start) count'
  end.

(** One pass: [for i in search_start..=lines.len().saturating_sub(pattern.len())]. *)
Definition seek_pass (same : str -> str -> bool) (lines pattern : list str) (search_start : nat) : option nat :=
  find_in_range (fun i => window_matches same lines i pattern)
    search_start (S (length lines - length pattern) - search_start).

Definition seek_start (lines pattern : list str) (start : nat) (eof : bool)
    (update_file_mode : ApplyPatchFileUpdateMode) : nat :=
  if eof && (length pattern <=? length lines) then
    let eof_start := length lines - length pattern in
    match update_file_mode with
    | NormalizeToLf => eof_start
    | PreserveLineEndings => max eof_start start
    end
  else start.

Definition or_else {A} (a b : option A) : option A :=
  match a with Some _ => a | None => b end.

Definition seek_sequence (lines pattern : list str) (start : nat) (eof : bool)
    (update_file_mode : ApplyPatchFileUpdateMode) : option nat :=
  if is_empty pattern then Some start
  else if length lines <? length pattern then None
  else
    let search_start := seek_start lines pattern start eof update_file_mode in
    or_else (seek_pass same_exact lines pattern search_start)
      (or_else (seek_pass same_trim_end lines pattern search_start)
        (or_else (seek_pass same_trim lines pattern search_start)
          (seek_pass same_normalised lines pattern search_start))).

(** ** The comparisons are ordered by strictness *)

Lemma trim_end_cons c s :
  trim_end (c :: s) = if is_empty (trim_end s) && is_whitespace c then [] else c :: trim_end s.
Proof.
  unfold trim_end, trim_end_matches. simpl. destruct (decide (drop_while is_whitespace (rev s) = [])) as [E|E].
  - rewrite E. simpl. apply drop_while_nil_iff in E.
    assert (drop_while is_whitespace (rev s ++ [c]) = drop_while is_whitespace [c]) as ->.
    { clear -E. induction (rev s) as [|x l IH]; [done|]. apply Forall_cons in E as [Hx E]. simpl. rewrite Hx. auto. }
    simpl. by destruct (is_whitespace c).
  - rewrite drop_while_app_nonmatch, rev_app_distr by done. simpl.
    destruct (rev (drop_while is_whitespace (rev s))) eqn:Er; [|done].
    apply (f_equal (@rev N)) in Er. by rewrite rev_involutive in Er.
Qed.

Lemma trim_end_trim_start_comm s : trim s = trim_start (trim_end s).
Proof.
  induction s as [|c s IH]; [done|]. rewrite trim_end_cons. unfold trim, trim_start in *. simpl.
  destruct (is_whitespace c) eqn:Hc; simpl.
  - rewrite IH. destruct (trim_end s) eqn:E; simpl; [done|]. by rewrite Hc.
  - rewrite andb_false_r. simpl. by rewrite Hc, trim_end_cons, Hc, andb_false_r.
Qed.

Lemma same_exact_trim_end l p : same_exact l p = true -> same_trim_end l p = true.
Proof. unfold same_exact, same_trim_end. intros H. to_prop. subst. by apply bool_decide_eq_true. Qed.

Lemma same_trim_end_trim l p : same_trim_end l p = true -> same_trim l p = true.
Proof.
  unfold same_trim_end, same_trim. intros H. to_prop. apply bool_decide_eq_true.
  by rewrite !trim_end_trim_start_comm, H.
Qed.

Lemma same_trim_normalised l p : same_trim l p = true -> same_normalised l p = true.
Proof.
  unfold same_trim, same_normalised, normalise. intros H. to_prop. apply bool_decide_eq_true. by rewrite H.
Qed.

Lemma window_matches_mono same same' lines i pattern :
  (forall l p, same l p = true -> same' l p = true) ->
  window_matches same lines i pattern = true -> window_matches same' lines i pattern = true.
Proof.
  intros Hmono. revert i. induction pattern as [|p pattern IH]; intros i; simpl; [done|].
  case_match; [|done]. rewrite !andb_true_iff. intros [? ?]. auto.
Qed.

(** ** Ranges and windows *)

Lemma find_in_range_Some test start count i :
  find_in_range test start count = Some i <->
  start <= i < start + count /\ test i = true /\ forall j, start <= j < i -> test j = false.
Proof.
  revert start. induction count as [|count IH]; intros start; simpl; [split; [done|lia]|].
  destruct (test start) eqn:E.
  - split.
    + intros [= <-]. split_and!; [lia..|done|lia].
    + intros (Hr & Ht & Hf). destruct (decide (i = start)) as [->|Hne]; [done|].
      rewrite Hf in E by lia. done.
  - rewrite IH. split; intros (Hr & Ht & Hf).
    + split_and!; [lia..|done|]. intros j Hj. destruct (decide (j = start)) as [->|]; [done|]. apply Hf. lia.
    + split_and!; [|lia|done|intros; apply Hf; lia].
      destruct (decide (i = start)) as [->|]; [congruence|lia].
Qed.

Lemma find_in_range_None test start count :
  find_in_range test start count = None <-> forall j, start <= j < start + count -> test j = false.
Proof.
  split.
  - revert start. induction count as [|count IH]; intros start H j Hj; simpl in *; [lia|].
    destruct (test start) eqn:E; [done|]. destruct (decide (j = start)) as [->|]; [done|].
    apply (IH (S start)); [done|lia].
  - intros H. destruct (find_in_range test start count) as [i|] eqn:E; [|done].
    apply find_in_range_Some in E as (Hr & Ht & _). rewrite H in Ht by lia. done.
Qed.

(** What a matching window means, position by position. *)
Lemma window_matches_spec same lines i pattern :
  window_matches same lines i pattern = true <->
  forall k p, pattern !! k = Some p -> exists l, lines !! (i + k) = Some l /\ same l p = true.
Proof.
  revert i. induction pattern as [|p pattern IH]; intros i; simpl; [by split|].
  destruct (lines !! i) as [l|] eqn:El.
  - rewrite andb_true_iff, IH. split.
    + intros [Hs Hr] [|k] q Hq; simpl in Hq; [simplify_eq; exists l; by rewrite Nat.add_0_r|].
      destruct (Hr k q Hq) as (l' & Hl' & Hs'). exists l'. by rewrite Nat.add_succ_r.
    + intros H. split.
      * destruct (H 0 p eq_refl) as (l' & Hl' & Hs'). rewrite Nat.add_0_r in Hl'. congruence.
      * intros k q Hq. destruct (H (S k) q Hq) as (l' & Hl' & Hs'). exists l'. by rewrite Nat.add_succ_r in Hl'.
  - split; [done|]. intros H. destruct (H 0 p eq_refl) as (l' & Hl' & _). rewrite Nat.add_0_r in Hl'. congruence.
Qed.

Lemma window_matches_length same lines i pattern :
  pattern <> [] -> window_matches same lines i pattern = true -> i + length pattern <= length lines.
Proof.
  intros Hne Hw. rewrite window_matches_spec in Hw.
  destruct (lookup_lt_is_Some_2 pattern (length pattern - 1)) as [p Hp]; [destruct pattern; simpl in *; [done|lia]|].
  destruct (Hw _ _ Hp) as (l & Hl & _). apply lookup_lt_Some in Hl, Hp. lia.
Qed.

Lemma window_exact lines i pattern :
  pattern <> [] ->
  window_matches same_exact lines i pattern = true <-> take (length pattern) (drop i lines) = pattern.
Proof.
  intros Hne. split.
  - intros Hw. pose proof (window_matches_length _ _ _ _ Hne Hw) as Hlen. rewrite window_matches_spec in Hw.
    apply list_eq. intros k. destruct (pattern !! k) as [p|] eqn:Ep.
    + destruct (Hw k p Ep) as (l & Hl & Hs). unfold same_exact in Hs. to_prop. subst.
      apply lookup_lt_Some in Ep. by rewrite lookup_take_lt, lookup_drop by done.
    + apply lookup_ge_None in Ep. by rewrite lookup_take_ge by done.
  - intros Heq. apply window_matches_spec. intros k p Hp. exists p.
    split; [|unfold same_exact; by apply bool_decide_eq_true].
    rewrite <- Heq in Hp. pose proof (lookup_lt_Some _ _ _ Hp) as Hk. rewrite length_take in Hk.
    rewrite lookup_take_lt, lookup_drop in Hp by lia. done.
Qed.

(** ** The passes together *)

Lemma seek_pass_Some same lines pattern start i :
  seek_pass same lines pattern start = Some i <->
  start <= i <= length lines - length pattern /\ window_matches same lines i pattern = true /\
  forall j, start <= j < i -> window_matches same lines j pattern = false.
Proof. unfold seek_pass. rewrite find_in_range_Some. intuition lia. Qed.

Lemma seek_pass_None same lines pattern start :
  seek_pass same lines pattern start = None <->
  forall j, start <= j <= length lines - length pattern -> window_matches same lines j pattern = false.
Proof.
  unfold seek_pass. rewrite find_in_range_None. split; intros H j Hj; apply H; lia.
Qed.

Lemma seek_pass_mono same same' lines pattern start i :
  (forall l p, same l p = true -> same' l p = true) ->
  seek_pass same lines pattern start = Some i ->
  start <= i <= length lines - length pattern /\ window_matches same' lines i pattern = true.
Proof. intros Hm H. apply seek_pass_Some in H as (? & Hw & _). eauto using window_matches_mono. Qed.

Lemma same_exact_normalised l p : same_exact l p = true -> same_normalised l p = true.
Proof. eauto using same_exact_trim_end, same_trim_end_trim, same_trim_normalised. Qed.

Lemma same_trim_end_normalised l p : same_trim_end l p = true -> same_normalised l p = true.
Proof. eauto using same_trim_end_trim, same_trim_normalised. Qed.

(** A position found for a non-empty pattern lies in range, from the search start on,
    and matches at least after normalisation. *)
Lemma seek_Some lines pattern start eof m i :
  pattern <> [] -> seek_sequence lines pattern start eof m = Some i ->
  seek_start lines pattern start eof m <= i /\ i + length pattern <= length lines /\
  window_matches same_normalised lines i pattern = true.
Proof.
  unfold seek_sequence. intros Hne. apply is_empty_false in Hne as ->.
  destruct (length lines <? length pattern) eqn:Hlen; [done|]. apply Nat.ltb_ge in Hlen.
  set (s := seek_start _ _ _ _ _). intros H.
  assert (s <= i <= length lines - length pattern /\ window_matches same_normalised lines i pattern = true); [|intuition lia].
  unfold or_else in H.
  destruct (seek_pass same_exact _ _ _) eqn:E1; [simplify_eq; eapply seek_pass_mono; [|exact E1]; apply same_exact_normalised|].
  destruct (seek_pass same_trim_end _ _ _) eqn:E2; [simplify_eq; eapply seek_pass_mono; [|exact E2]; apply same_trim_end_normalised|].
  destruct (seek_pass same_trim _ _ _) eqn:E3; [simplify_eq; eapply seek_pass_mono; [|exact E3]; apply same_trim_normalised|].
  by eapply seek_pass_mono.
Qed.

Lemma seek_empty lines start eof m : seek_sequence lines [] start eof m = Some start.
Proof. done. Qed.

(** With [PreserveLineEndings] the search never goes back before [start]. *)
Lemma seek_start_preserve lines pattern start eof :
  start <= seek_start lines pattern start eof PreserveLineEndings.
Proof. unfold seek_start. case_match; lia. Qed.

Lemma seek_ge_start lines pattern start eof i :
  seek_sequence lines pattern start eof PreserveLineEndings = Some i -> start <= i.
Proof.
  intros H. destruct (decide (pattern = [])) as [->|Hne]; [rewrite seek_empty in H; by simplify_eq|].
  apply seek_Some in H as (? & _); [|done]. pose proof (seek_start_preserve lines pattern start eof). lia.
Qed.

Lemma seek_ge_start_no_eof lines pattern start m i :
  seek_sequence lines pattern start false m = Some i -> start <= i.
Proof.
  intros H. destruct (decide (pattern = [])) as [->|Hne]; [rewrite seek_empty in H; by simplify_eq|].
  by apply seek_Some in H as (? & _).
Qed.

(** The end of what was found, for every pattern, stays in the file. *)
Lemma seek_end_le lines pattern start eof m i :
  seek_sequence lines pattern start eof m = Some i -> start <= length lines ->
  i + length pattern <= length lines.
Proof.
  intros H Hs. destruct (decide (pattern = [])) as [->|Hne]; [rewrite seek_empty in H; simplify_eq; simpl; lia|].
  by apply seek_Some in H as (_ & ? & _).
Qed.

Lemma seek_exact (lines pattern : list str) (start : nat) (eof : bool)
    (m : ApplyPatchFileUpdateMode) (j : nat) :
  pattern <> [] -> seek_start lines pattern start eof m <= j ->
  take (length pattern) (drop j lines) = pattern ->
  exists i, seek_sequence lines pattern start eof m = Some i /\ i <= j /\
    take (length pattern) (drop i lines) = pattern /\
    forall k, seek_start lines pattern start eof m <= k < i -> take (length pattern) (drop k lines) <> pattern.
Proof.
  intros Hne Hs Hj. pose proof Hj as Hj'. apply window_exact in Hj; [|done].
  pose proof (window_matches_length _ _ _ _ Hne Hj) as Hlen.
  destruct (seek_pass same_exact lines pattern (seek_start lines pattern start eof m)) as [i|] eqn:E.
  - exists i. apply seek_pass_Some in E as Hi. destruct Hi as (Hr & Hw & Hmin). split_and!.
    + unfold seek_sequence. pose proof Hne as Hne'. apply is_empty_false in Hne' as ->.
      assert ((length lines <? length pattern) = false) as -> by (apply Nat.ltb_ge; lia).
      unfold or_else. by rewrite E.
    + destruct (decide (i <= j)); [done|]. rewrite Hmin in Hj by lia. done.
    + by apply window_exact.
    + intros k Hk Heq. apply window_exact in Heq; [|done]. rewrite Hmin in Heq by lia. done.
  - rewrite seek_pass_None in E. rewrite E in Hj by lia. done.
Qed.

(** ** Properties *)

(** A position returned for a non-empty pattern is not before the search start, the
    whole pattern fits in the file from it, and each line there equals the pattern's line
    up to surrounding blanks and the listed Unicode punctuation. *)
Theorem seek_sequence_sound (lines pattern : list str) (start : nat) (eof : bool)
    (m : ApplyPatchFileUpdateMode) (i : nat) :
  pattern <> [] -> seek_sequence lines pattern start eof m = Some i ->
  seek_start lines pattern start eof m <= i /\ i + length pattern <= length lines /\
  forall k pat, pattern !! k = Some pat ->
    exists line, lines !! (i + k) = Some line /\ normalise line = normalise pat.
Proof.
  intros Hne H. apply seek_Some in H as (Hs & He & Hw); [|done]. split_and!; [done..|].
  intros k pat Hp. rewrite window_matches_spec in Hw. destruct (Hw k pat Hp) as (l & Hl & Hn).
  exists l. split; [done|]. unfold same_normalised in Hn. by to_prop.
Qed.

Lemma seek_sequence_sound_witness :
  let ls := [lit "a"; lit "  b "; lit "c"] in
  1 <= 1 /\ 1 + 2 <= length ls /\
  forall k pat, [lit "b"; lit "c"] !! k = Some pat ->
    exists line, ls !! (1 + k) = Some line /\ normalise line = normalise pat.
Proof. by apply (seek_sequence_sound [lit "a"; lit "  b "; lit "c"] [lit "b"; lit "c"] 1 false NormalizeToLf 1). Defined.

(** Exact text wins: when the pattern occurs verbatim at or after the search start,
    the first such occurrence is returned, whatever looser matches come before it. *)
Theorem seek_sequence_prefers_exact (lines pattern : list str) (start : nat) (eof : bool)
    (m : ApplyPatchFileUpdateMode) (j : nat) :
  pattern <> [] -> seek_start lines pattern start eof m <= j ->
  take (length pattern) (drop j lines) = pattern ->
  exists i, seek_sequence lines pattern start eof m = Some i /\ i <= j /\
    take (length pattern) (drop i lines) = pattern /\
    forall k, seek_start lines pattern start eof m <= k < i -> take (length pattern) (drop k lines) <> pattern.
Proof. apply seek_exact. Qed.

Lemma seek_sequence_prefers_exact_witness :
  exists i, seek_sequence [lit " x"; lit "y"; lit "x"] [lit "x"] 0 false NormalizeToLf = Some i /\ i <= 2 /\
    take 1 (drop i [lit " x"; lit "y"; lit "x"]) = [lit "x"] /\
    forall k, 0 <= k < i -> take 1 (drop k [lit " x"; lit "y"; lit "x"]) <> [lit "x"].
Proof. apply (seek_sequence_prefers_exact [lit " x"; lit "y"; lit "x"] [lit "x"] 0 false NormalizeToLf 2); [done|by_decide|done]. Defined.

(** The search gives up exactly when no position in range matches even after
    normalisation: the three stricter passes never hide a match. *)
Theorem seek_sequence_complete (lines pattern : list str) (start : nat) (eof : bool)
    (m : ApplyPatchFileUpdateMode) :
  pattern <> [] ->
  seek_sequence lines pattern start eof m = None <->
  forall j, seek_start lines pattern start eof m <= j -> window_matches same_normalised lines j pattern = false.
Proof.
  intros Hne. split.
  - intros H j Hj. destruct (window_matches same_normalised lines j pattern) eqn:Hw; [|done]. exfalso.
    pose proof (window_matches_length _ _ _ _ Hne Hw) as Hlen.
    unfold seek_sequence, or_else in H. pose proof Hne as Hne'. apply is_empty_false in Hne'. rewrite Hne' in H.
    destruct (length lines <? length pattern) eqn:El; [apply Nat.ltb_lt in El; lia|].
    repeat (break_match_in H; [done|]). rewrite seek_pass_None in H. rewrite H in Hw by lia. done.
  - intros H. destruct (seek_sequence lines pattern start eof m) as [i|] eqn:E; [|done].
    apply seek_Some in E as (Hs & _ & Hw); [|done]. by rewrite H in Hw.
Qed.

Lemma seek_sequence_complete_witness :
  seek_sequence [lit "a"] [lit "b"] 0 false NormalizeToLf = None <->
  forall j, 0 <= j -> window_matches same_normalised [lit "a"] j [lit "b"] = false.
Proof. by apply (seek_sequence_complete [lit "a"] [lit "b"] 0 false NormalizeToLf). Defined.
