(* ===== verification/TextFile.v ===== *)
(** * Source files with their line endings: [apply-patch/src/text_file.rs]

    Splitting a file into lines that remember their terminators, replacing line
    ranges, and writing the file back. *)

From stdpp Require Import base list strings.
From S2P Require Import Prelude.

(** [(start_index, old_len, new_lines)]. *)
Definition Replacement : Type := nat * nat * list str.

Inductive LineEnding : Type := Lf | CrLf | Cr.

Definition ending_str (e : LineEnding) : str :=
  match e with
  | Lf => [LF]
  | CrLf => [CR; LF]
  | Cr => [CR]
  end.

Record SourceLine := mkLine {
  text : str;
  ending : option LineEnding
}.

Record SourceFile := mkFile {
  file_lines : list SourceLine;
  preferred_ending : LineEnding
}.

(** [Option::get_or_insert]. *)
Definition get_or_insert {A} (o : option A) (a : A) : option A :=
  match o with Some _ => o | None => Some a end.

(** The [while cursor < contents.len()] loop of [SourceFile::parse]: [current] is
    [contents[line_start..cursor]] and [contents] what is left from the cursor on. *)
Fixpoint parse_loop (contents current : str) (lines : list SourceLine) (preferred : option LineEnding)
  : str * list SourceLine * option LineEnding :=
  match contents with
  | [] => (current, lines, preferred)
  | c :: rest =>
      if char_eqb c CR then
        match rest with
        | d :: rest' =>
            if char_eqb d LF then
              parse_loop rest' [] (lines ++ [mkLine current (Some CrLf)]) (get_or_insert preferred CrLf)
            else
              parse_loop rest [] (lines ++ [mkLine current (Some Cr)]) (get_or_insert preferred Cr)
        | [] => parse_loop rest [] (lines ++ [mkLine current (Some Cr)]) (get_or_insert preferred Cr)
        end
      else if char_eqb c LF then
        parse_loop rest [] (lines ++ [mkLine current (Some Lf)]) (get_or_insert preferred Lf)
      else parse_loop rest (current ++ [c]) lines preferred
  end.

Definition source_parse (contents : str) : SourceFile :=
  let '(rest, lines, preferred) := parse_loop contents [] [] None in
  mkFile (if is_empty rest then lines else lines ++ [mkLine rest None])
         (default Lf preferred).

Definition line_texts (f : SourceFile) : list str := text <$> file_lines f.

(** The replacement loop of [SourceFile::apply_replacements]; the subtraction
    [*start_idx - source_index] panics when the replacements overlap. *)
Fixpoint replace_loop {E} (preferred : LineEnding) (replacements : list Replacement)
    (source_lines : list SourceLine) (source_index : nat) (new_lines : list SourceLine)
  : result (list SourceLine) E :=
  match replacements with
  | [] => Ok (new_lines ++ source_lines)
  | (start_idx, old_len, new_segment) :: replacements' =>
      if start_idx <? source_index then Panic
      else
        let kept := start_idx - source_index in
        replace_loop preferred replacements'
          (drop old_len (drop kept source_lines))
          (start_idx + old_len)
          (new_lines ++ take kept source_lines
           ++ ((fun t => mkLine t (Some preferred)) <$> new_segment))
  end.

Definition terminate (preferred : LineEnding) (l : SourceLine) : SourceLine :=
  mkLine (text l) (get_or_insert (ending l) preferred).

Definition source_apply_replacements {E} (replacements : list Replacement) (f : SourceFile)
  : result SourceFile E :=
  let? new_lines := replace_loop (preferred_ending f) replacements (file_lines f) 0 [] in
  Ok (mkFile (terminate (preferred_ending f) <$> new_lines) (preferred_ending f)).

Definition line_str (l : SourceLine) : str :=
  text l ++ match ending l with Some e => ending_str e | None => [] end.

Definition into_contents (f : SourceFile) : str := concat (line_str <$> file_lines f).

(** ** Specification: replacing disjoint ranges of a list *)

(** The replacements of a list whose first element has index [pos]. *)
Fixpoint splice {A} (pos : nat) (reps : list (nat * nat * list A)) (src : list A) : list A :=
  match reps with
  | [] => src
  | (start, len, seg) :: reps' =>
      take (start - pos) src ++ seg ++ splice (start + len) reps' (drop (start - pos + len) src)
  end.

(** In order, disjoint, and from [pos] on. *)
Fixpoint disjoint_from (pos : nat) {A} (reps : list (nat * nat * list A)) : Prop :=
  match reps with
  | [] => True
  | (start, len, _) :: reps' => pos <= start /\ disjoint_from (start + len) reps'
  end.

Definition map_segments {A B} (f : A -> B) (reps : list (nat * nat * list A)) : list (nat * nat * list B) :=
  (fun r : nat * nat * list A => (r.1.1, r.1.2, f <$> r.2)) <$> reps.

(** ** Reading and writing back *)

Lemma concat_line_str_app a b : concat (line_str <$> (a ++ b)) = concat (line_str <$> a) ++ concat (line_str <$> b).
Proof. by rewrite fmap_app, concat_app. Qed.

Lemma parse_loop_contents contents current lines preferred current' lines' preferred' :
  parse_loop contents current lines preferred = (current', lines', preferred') ->
  concat (line_str <$> lines') ++ current' = concat (line_str <$> lines) ++ current ++ contents.
Proof.
  remember (length contents) as n eqn:Hn. revert contents Hn current lines preferred.
  induction (lt_wf n) as [n _ IH]; intros contents -> current lines preferred.
  assert (forall rest l p, length rest < length contents ->
            parse_loop rest [] (lines ++ [l]) p = (current', lines', preferred') ->
            concat (line_str <$> lines') ++ current' = concat (line_str <$> lines) ++ line_str l ++ rest) as Hline.
  { intros rest l p Hlen H. rewrite (IH _ Hlen rest eq_refl _ _ _ H), concat_line_str_app. simpl.
    by rewrite app_nil_r, <- !app_assoc. }
  destruct contents as [|c rest]; simpl.
  - intros [= -> -> ->]. by rewrite app_nil_r.
  - destruct (char_eqb c CR) eqn:E1; to_prop; [subst|destruct (char_eqb c LF) eqn:E2; to_prop; [subst|]].
    + destruct rest as [|d rest]; [|destruct (char_eqb d LF) eqn:E3; to_prop; subst]; intros H;
        (apply Hline in H; [rewrite H; unfold line_str; simpl; by rewrite <- app_assoc|simpl; lia]).
    + intros H. apply Hline in H; [rewrite H; unfold line_str; simpl; by rewrite <- app_assoc|simpl; lia].
    + intros H. simpl in IH. rewrite (IH (length rest) ltac:(simpl; lia) rest eq_refl _ _ _ H). by rewrite <- app_assoc.
Qed.

Definition no_breaks (s : str) : Prop := (LF ∉ s) /\ (CR ∉ s).

Lemma no_breaks_snoc s c : no_breaks s -> c <> LF -> c <> CR -> no_breaks (s ++ [c]).
Proof. intros [? ?] ? ?. split; rewrite elem_of_app, list_elem_of_singleton; intuition congruence. Qed.

Lemma parse_loop_lines contents current lines preferred current' lines' preferred' :
  parse_loop contents current lines preferred = (current', lines', preferred') ->
  no_breaks current -> Forall (fun l => no_breaks (text l) /\ is_Some (ending l)) lines ->
  no_breaks current' /\ Forall (fun l => no_breaks (text l) /\ is_Some (ending l)) lines'.
Proof.
  remember (length contents) as n eqn:Hn. revert contents Hn current lines preferred.
  induction (lt_wf n) as [n _ IH]; intros contents -> current lines preferred.
  assert (no_breaks []) as Hnil by (split; apply not_elem_of_nil).
  assert (forall rest e p, length rest < length contents ->
            parse_loop rest [] (lines ++ [mkLine current (Some e)]) p = (current', lines', preferred') ->
            no_breaks current -> Forall (fun l => no_breaks (text l) /\ is_Some (ending l)) lines ->
            no_breaks current' /\ Forall (fun l => no_breaks (text l) /\ is_Some (ending l)) lines') as Hline.
  { intros rest e p Hlen H Hc HF. apply (IH _ Hlen rest eq_refl _ _ _ H); [done|].
    apply Forall_app. split; [done|]. rewrite Forall_singleton. simpl. eauto. }
  destruct contents as [|c rest]; simpl; [by intros [= -> -> ->]|].
  intros H Hc HF. destruct (char_eqb c CR) eqn:E1; to_prop; [subst|destruct (char_eqb c LF) eqn:E2; to_prop; [subst|]].
  - destruct rest as [|d rest]; [|destruct (char_eqb d LF) eqn:E3; to_prop; subst];
      eapply Hline; try exact H; simpl; try done; lia.
  - eapply Hline; try exact H; simpl; try done; lia.
  - apply (IH (length rest) ltac:(simpl; lia) rest eq_refl _ _ _ H); [by apply no_breaks_snoc|done].
Qed.

Lemma parse_contents contents : into_contents (source_parse contents) = contents.
Proof.
  unfold into_contents, source_parse. destruct (parse_loop contents [] [] None) as [[rest lines] preferred] eqn:E.
  apply parse_loop_contents in E. simpl in E. simpl. destruct rest as [|c rest]; simpl.
  - by rewrite app_nil_r in E.
  - rewrite concat_line_str_app. simpl. rewrite <- E. unfold line_str. simpl. by rewrite !app_nil_r.
Qed.

(** ** The replacement loop is [splice] *)

Lemma replace_loop_splice {E} preferred reps source index acc :
  disjoint_from index reps ->
  replace_loop (E := E) preferred reps source index acc =
  Ok (acc ++ splice index (map_segments (fun t => mkLine t (Some preferred)) reps) source).
Proof.
  revert source index acc. induction reps as [|[[s l] seg] reps IH]; intros source index acc Hd; simpl; [done|].
  destruct Hd as [Hle Hd]. assert ((s <? index) = false) as -> by by apply Nat.ltb_ge.
  rewrite IH by done. by rewrite <- !app_assoc, drop_drop.
Qed.

Lemma splice_map {A B} (f : A -> B) pos reps src :
  f <$> splice pos reps src = splice pos (map_segments f reps) (f <$> src).
Proof.
  revert pos src. induction reps as [|[[s l] seg] reps IH]; intros pos src; simpl; [done|].
  by rewrite !fmap_app, fmap_take, IH, fmap_drop.
Qed.

Lemma map_segments_id_text preferred (reps : list Replacement) :
  map_segments text (map_segments (fun t => mkLine t (Some preferred)) reps) = reps.
Proof.
  unfold map_segments. rewrite <- list_fmap_compose. rewrite <- (list_fmap_id reps) at 2.
  apply list_fmap_ext. intros ? [[s l] seg] _. simpl. f_equal.
  rewrite <- list_fmap_compose. by rewrite <- (list_fmap_id seg) at 2.
Qed.

Lemma source_apply_replacements_Ok {E} reps f :
  disjoint_from 0 reps ->
  source_apply_replacements (E := E) reps f =
  Ok (mkFile (terminate (preferred_ending f) <$>
        splice 0 (map_segments (fun t => mkLine t (Some (preferred_ending f))) reps) (file_lines f))
        (preferred_ending f)).
Proof. intros Hd. unfold source_apply_replacements. by rewrite replace_loop_splice. Qed.

Lemma terminate_texts preferred (ls : list SourceLine) : text <$> (terminate preferred <$> ls) = text <$> ls.
Proof. rewrite <- list_fmap_compose. by apply list_fmap_ext. Qed.

Lemma terminate_id preferred (ls : list SourceLine) :
  Forall (fun l => is_Some (ending l)) ls -> terminate preferred <$> ls = ls.
Proof.
  induction 1 as [|[t e] ls [e' He] HF IH]; [done|]. rewrite fmap_cons, IH. simpl in He. by rewrite He.
Qed.

(** ** Properties *)

(** Splitting a file into lines with endings loses nothing: writing the lines back
    gives the same contents, for any mix of LF, CRLF, CR and a missing last terminator. *)
Theorem source_file_roundtrip (contents : str) : into_contents (source_parse contents) = contents.
Proof. apply parse_contents. Qed.

(** The lines exposed to matching are real lines: no text holds a line break, and only
    the last line may lack a terminator. *)
Theorem source_file_lines (contents : str) :
  exists ls tail, file_lines (source_parse contents) = ls ++ tail /\
    Forall (fun l => no_breaks (text l) /\ is_Some (ending l)) ls /\
    (tail = [] \/ exists t, t <> [] /\ no_breaks t /\ tail = [mkLine t None]).
Proof.
  unfold source_parse. destruct (parse_loop contents [] [] None) as [[rest lines] preferred] eqn:E.
  apply parse_loop_lines in E as [Hr HF]; [|split; apply not_elem_of_nil|constructor].
  exists lines. destruct rest as [|c rest]; simpl; [exists []; rewrite app_nil_r; auto|].
  exists [mkLine (c :: rest) None]. split_and!; [done..|]. right. by exists (c :: rest).
Qed.

(** With ordered disjoint replacements the rewrite never panics, replaces exactly the
    given ranges of lines, keeps every other line with its own ending, gives inserted
    lines the file's preferred ending, and leaves no line unterminated. *)
Theorem source_replacements_spec (reps : list Replacement) (f : SourceFile) :
  disjoint_from 0 reps ->
  exists f', source_apply_replacements (E := Empty_set) reps f = Ok f' /\
    line_texts f' = splice 0 reps (line_texts f) /\
    Forall (fun l => is_Some (ending l)) (file_lines f') /\
    (Forall (fun l => is_Some (ending l)) (file_lines f) ->
     file_lines f' = splice 0 (map_segments (fun t => mkLine t (Some (preferred_ending f))) reps) (file_lines f)).
Proof.
  intros Hd. rewrite source_apply_replacements_Ok by done. eexists. split; [done|]. unfold line_texts. simpl. split_and!.
  - by rewrite terminate_texts, splice_map, map_segments_id_text.
  - apply Forall_fmap, Forall_true. intros [t [e|]]; simpl; eauto.
  - intros HF. apply terminate_id. generalize 0 as pos. revert HF. generalize (file_lines f) as src. clear Hd.
    induction reps as [|[[s l] seg] reps IH]; intros src HF pos; simpl; [done|].
    apply Forall_app; split; [by apply Forall_take|]. apply Forall_app; split.
    + apply Forall_fmap, Forall_true. intros t. simpl. eauto.
    + apply IH. by apply Forall_drop.
Qed.

Lemma source_replacements_spec_witness :
  exists f', source_apply_replacements (E := Empty_set) [(1, 1, [lit "B"])] (source_parse (lit "a" ++ [CR; LF] ++ lit "b" ++ [LF])) = Ok f' /\
    line_texts f' = [lit "a"; lit "B"].
Proof.
  destruct (source_replacements_spec [(1, 1, [lit "B"])] (source_parse (lit "a" ++ [CR; LF] ++ lit "b" ++ [LF])))
    as (f' & Hf & Ht & _ & _); [simpl; lia|]. exists f'. split; [exact Hf|exact Ht].
Defined.
