(* ===== verification/FileSystem.v ===== *)
(** * The file-system interface of [apply_patch]: [file-system/src/lib.rs]

    [ExecutorFileSystem] is a trait object and [PathUri] a type of another crate: the
    code that uses them is proved against the classes below.  [FileSystemLaws] says what
    a file system in which no path aliases another does, and an in-memory file system
    with directories shows that the laws can hold. *)

From stdpp Require Import base list strings gmap.
From S2P Require Import Prelude.

(** [std::io::Error]: its kind, and the text it displays. *)
Inductive ErrorKind : Type := NotFound | InvalidInput | InvalidData | OtherKind.

#[export] Instance ErrorKind_eq_dec : EqDecision ErrorKind.
Proof. solve_decision. Defined.

Record IoSource := mkIo { io_kind : ErrorKind; io_text : str }.

Definition is_not_found (e : IoSource) : bool := bool_decide (io_kind e = NotFound).

(** [std::io::Result]. *)
Abbreviation io_result A := (A + IoSource)%type.

(** [FileMetadata], the fields the code reads. *)
Record FileMetadata := mkMetadata {
  is_directory : bool;
  is_file : bool;
  is_symlink : bool
}.

(** A resolved [PathUri], as its text. *)
Abbreviation path_uri := str (only parsing).

Inductive PathConvention : Type := Posix | Windows.

(** The methods of [PathUri] that [apply_patch] calls: [join], whose error is shown by
    its text, [parent], [inferred_native_path_string] and [infer_path_convention]. *)
Class PathOps := {
  path_join : path_uri -> str -> path_uri + str;
  path_parent : path_uri -> option path_uri;
  native_path_string : path_uri -> str;
  infer_path_convention : path_uri -> option PathConvention
}.

(** The operations of [ExecutorFileSystem] that [apply_patch] calls.  Reads leave the
    state alone; a failed mutation may still have changed it.  [write_file] takes the
    text whose UTF-8 encoding is written; [create_directory] is the recursive one,
    [remove] the one that neither recurses nor forces. *)
Class ExecutorFileSystem (FS : Type) := {
  read_file_text : FS -> path_uri -> io_result str;
  get_metadata : FS -> path_uri -> io_result FileMetadata;
  write_file : FS -> path_uri -> str -> FS * io_result unit;
  create_directory : FS -> path_uri -> FS * io_result unit;
  remove : FS -> path_uri -> FS * io_result unit
}.

(** The text a file system shows at a path. *)
Definition view {FS} `{ExecutorFileSystem FS} (fs : FS) (p : path_uri) : option str :=
  match read_file_text fs p with inl c => Some c | inr _ => None end.

(** A path that is a regular file and no link, or at which there is nothing. *)
Definition plain_path {FS} `{ExecutorFileSystem FS} (fs : FS) (p : path_uri) : bool :=
  match get_metadata fs p with
  | inl m => is_file m && negb (is_symlink m)
  | inr e => is_not_found e
  end.

(** ** Views, compared and updated pointwise *)

Definition View : Type := path_uri -> option str.

#[export] Instance View_equiv : Equiv View := fun v w => forall p, v p = w p.

#[export] Instance View_equivalence : Equivalence (≡@{View}).
Proof. split; [intros v p; done|intros v w H p; by rewrite H|intros u v w H1 H2 p; by rewrite H1]. Qed.

Definition set_view (p : path_uri) (o : option str) (v : View) : View :=
  fun q => if decide (q = p) then o else v q.

#[export] Instance set_view_proper p o : Proper ((≡) ==> (≡)) (set_view p o).
Proof. intros v w H q. unfold set_view. case_decide; [done|apply H]. Qed.

Lemma set_view_eq p o v : set_view p o v p = o.
Proof. unfold set_view. by rewrite decide_True. Qed.

Lemma set_view_ne p o v q : q <> p -> set_view p o v q = v q.
Proof. intros Hn. unfold set_view. by rewrite decide_False. Qed.

Lemma set_view_id p o v : v p = o -> set_view p o v ≡ v.
Proof. intros H q. unfold set_view. by case_decide; subst. Qed.

Lemma set_view_twice p o o' v : set_view p o (set_view p o' v) ≡ set_view p o v.
Proof. intros q. unfold set_view. by case_decide. Qed.

Lemma set_view_comm p q o o' v : p <> q -> set_view p o (set_view q o' v) ≡ set_view q o' (set_view p o v).
Proof. intros Hn r. unfold set_view. by repeat case_decide; subst. Qed.

(** ** What the callers of a file system rely on *)

Class FileSystemLaws (FS : Type) `{PathOps} `{ExecutorFileSystem FS} := {
  (** A successful write through a plain path stores the text there and nowhere else,
      and leaves plain paths plain. *)
  write_file_Ok : forall fs p c fs',
    plain_path fs p = true -> write_file fs p c = (fs', inl tt) ->
    view fs' ≡ set_view p (Some c) (view fs) /\
    forall q, plain_path fs q = true -> plain_path fs' q = true;
  (** A write refused because something on the way is missing has written nothing. *)
  write_file_NotFound : forall fs p c fs' e,
    write_file fs p c = (fs', inr e) -> is_not_found e = true ->
    view fs' ≡ view fs /\ forall q, plain_path fs q = true -> plain_path fs' q = true;
  (** Creating directories changes no text; existing files and the paths directly below
      the created directory stay plain. *)
  create_directory_view : forall fs p fs' r,
    create_directory fs p = (fs', r) ->
    view fs' ≡ view fs /\
    forall q, plain_path fs q = true -> is_Some (view fs q) \/ path_parent q = Some p ->
      plain_path fs' q = true;
  (** A successful removal of a plain path removes its text and nothing else. *)
  remove_Ok : forall fs p fs',
    plain_path fs p = true -> remove fs p = (fs', inl tt) -> view fs' ≡ set_view p None (view fs);
  (** A failed removal of a plain path touches no other path, and writes no new text. *)
  remove_Err : forall fs p fs' e,
    plain_path fs p = true -> remove fs p = (fs', inr e) ->
    view fs' ≡ view fs \/ view fs' ≡ set_view p None (view fs)
}.

(** ** An in-memory file system *)

Module Mem.

Record mem_fs := mkMem { files : gmap str str; dirs : gset str }.

Definition slash : N := 47.

Definition parent (p : str) : option str :=
  match rsplit_once slash p with
  | Some (dir, _) => if is_empty dir then None else Some dir
  | None => None
  end.

#[global] Instance mem_paths : PathOps := {
  path_join cwd p := inl (if starts_with [slash] p then p else cwd ++ slash :: p);
  path_parent := parent;
  native_path_string p := p;
  infer_path_convention _ := Some Posix
}.

Definition not_found : IoSource := mkIo NotFound (lit "not found").
Definition wrong_kind : IoSource := mkIo OtherKind (lit "is a directory").

Fixpoint ancestors (fuel : nat) (p : str) : list str :=
  p :: match fuel, parent p with
       | S fuel', Some q => ancestors fuel' q
       | _, _ => []
       end.

Definition has_parent (fs : mem_fs) (p : str) : bool :=
  match parent p with Some d => bool_decide (d ∈ dirs fs) | None => true end.

#[global] Instance mem_file_system : ExecutorFileSystem mem_fs := {
  read_file_text fs p :=
    match files fs !! p with
    | Some c => inl c
    | None => inr (if decide (p ∈ dirs fs) then wrong_kind else not_found)
    end;
  get_metadata fs p :=
    match files fs !! p with
    | Some _ => inl (mkMetadata false true false)
    | None => if decide (p ∈ dirs fs) then inl (mkMetadata true false false) else inr not_found
    end;
  write_file fs p c :=
    if decide (p ∈ dirs fs) then (fs, inr wrong_kind)
    else if has_parent fs p then (mkMem (<[p := c]> (files fs)) (dirs fs), inl tt)
    else (fs, inr not_found);
  create_directory fs p :=
    if forallb (fun d => bool_decide (files fs !! d = None)) (ancestors (length p) p)
    then (mkMem (files fs) (list_to_set (ancestors (length p) p) ∪ dirs fs), inl tt)
    else (fs, inr wrong_kind);
  remove fs p :=
    match files fs !! p with
    | Some _ => (mkMem (delete p (files fs)) (dirs fs), inl tt)
    | None => (fs, inr (if decide (p ∈ dirs fs) then wrong_kind else not_found))
    end
}.

Lemma mem_view fs p : view fs p = files fs !! p.
Proof. unfold view. simpl. by destruct (files fs !! p). Qed.

Lemma mem_plain fs p : plain_path fs p = true <-> is_Some (files fs !! p) \/ p ∉ dirs fs.
Proof.
  unfold plain_path. simpl. destruct (files fs !! p) eqn:E; [naive_solver|].
  case_decide; simpl; [|naive_solver]. split; [done|intros [[? ?]|?]; done].
Qed.

Lemma parent_shorter p q : parent p = Some q -> length q < length p.
Proof.
  unfold parent, rsplit_once. intros H.
  destruct (split_once slash (rev p)) as [[a b]|] eqn:E; simpl in H; [|done].
  destruct (is_empty (rev b)); [done|]. simplify_eq.
  apply split_once_Some in E as [E _]. apply (f_equal length) in E.
  rewrite length_app, length_rev in E. simpl in E. rewrite length_rev. lia.
Qed.

Lemma ancestors_shorter fuel p q : q ∈ ancestors fuel p -> length q <= length p.
Proof.
  revert p. induction fuel as [|fuel IH]; intros p; simpl; rewrite elem_of_cons; [set_solver|].
  destruct (parent p) as [d|] eqn:E; [|set_solver]. intros [->|Hq]; [done|].
  apply parent_shorter in E. apply IH in Hq. lia.
Qed.

#[global] Instance mem_laws : FileSystemLaws mem_fs.
Proof.
  split.
  - intros fs p c fs' _. simpl. case_decide; [done|]. destruct (has_parent fs p); [|done]. intros [= <-]. split.
    + intros q. rewrite mem_view. unfold set_view. simpl. case_decide; subst; simplify_map_eq; [done|].
      by rewrite mem_view.
    + intros q. rewrite !mem_plain. simpl. intros [?|?]; [left|by right].
      destruct (decide (q = p)); simplify_map_eq; eauto.
  - intros fs p c fs' e. simpl. case_decide; [by intros [= <- <-]|]. destruct (has_parent fs p); [done|].
    by intros [= <- <-].
  - intros fs p fs' r. simpl. destruct (forallb _ _) eqn:E; intros [= <- <-]; [|done]. split.
    + intros q. by rewrite !mem_view.
    + intros q. rewrite !mem_plain, mem_view. simpl. intros Hq Hor.
      destruct (files fs !! q) eqn:Ef; [left; eauto|]. right. destruct Hq as [[? ?]|Hq]; [done|].
      destruct Hor as [[? ?]|Hpar]; [done|]. rewrite elem_of_union, elem_of_list_to_set. intros [Ha|Hd]; [|done].
      apply ancestors_shorter in Ha. apply parent_shorter in Hpar. lia.
  - intros fs p fs' _. simpl. destruct (files fs !! p); [|done]. intros [= <-] q.
    rewrite mem_view. unfold set_view. simpl. case_decide; subst; simplify_map_eq; [done|]. by rewrite mem_view.
  - intros fs p fs' e _. simpl. destruct (files fs !! p); [done|]. intros [= <- <-]. by left.
Qed.

End Mem.
