(* ===== verification/FileUpdate.v ===== *)
(** * Turning chunks into new file contents: [apply-patch/src/file_update.rs]

    Locating each chunk, the list of replacements, and the two ways of applying
    it: on LF-joined lines, and on a [SourceFile] that keeps line endings. *)

From stdpp Require Import base list strings sorting.
From S2P Require Import Prelude PatchParser PatchInvariant SeekSequence TextFile FileSystem.

(** [ApplyPatchError] of [lib.rs]. *)
Inductive ApplyPatchError : Type :=
| PatchParseError (e : ParseError)
| IoError (context : str) (source : IoSource)
| ComputeReplacements (message : str)
| PathUriError (message : str)
| ImplicitInvocation.

Definition msg_context_missing (ctx_line path : str) : str :=
  lit "Failed to find context '" ++ ctx_line ++ lit "' in " ++ path.
Definition msg_lines_missing (path : str) (old : list str) : str :=
  lit "Failed to find expected lines in " ++ path ++ lit ":" ++ [LF] ++ join [LF] old.

(** ** [compute_replacements] *)

(** [chunk.change_context]: where the search for the old lines starts. *)
Definition seek_context (original_lines : list str) (path : str) (m : ApplyPatchFileUpdateMode)
    (chunk : UpdateFileChunk) (line_index : nat) : result nat ApplyPatchError :=
  match change_context chunk with
  | Some ctx_line =>
      match seek_sequence original_lines [ctx_line] line_index false m with
      | Some idx => Ok (idx + 1)
      | None => Err (ComputeReplacements (msg_context_missing ctx_line path))
      end
  | None => Ok line_index
  end.

Definition ends_with_empty_line (ls : list str) : bool := is_some_and (last ls) is_empty.

Definition insertion_index (original_lines : list str) (m : ApplyPatchFileUpdateMode) : nat :=
  match m with
  | NormalizeToLf =>
      if ends_with_empty_line original_lines then length original_lines - 1 else length original_lines
  | PreserveLineEndings => length original_lines
  end.

(** The search for the old lines, with its retry without a final empty line: the
    position, the pattern that was found and the new lines that go with it. *)
Definition locate_old_lines (original_lines : list str) (m : ApplyPatchFileUpdateMode)
    (chunk : UpdateFileChunk) (line_index : nat) : option (nat * list str * list str) :=
  let pattern := old_lines chunk in
  let new_slice := new_lines chunk in
  match seek_sequence original_lines pattern line_index (is_end_of_file chunk) m with
  | Some start_idx => Some (start_idx, pattern, new_slice)
  | None =>
      if ends_with_empty_line pattern then
        let pattern := removelast pattern in
        let new_slice := if ends_with_empty_line new_slice then removelast new_slice else new_slice in
        match seek_sequence original_lines pattern line_index (is_end_of_file chunk) m with
        | Some start_idx => Some (start_idx, pattern, new_slice)
        | None => None
        end
      else None
  end.

(** [&s[a..b]], with the panic of an inverted or overlong range. *)
Definition slice {A E} (a b : nat) (s : list A) : result (list A) E :=
  if (a <=? b) && (b <=? length s) then Ok (take (b - a) (drop a s)) else Panic.

(** [a - b] on [usize]. *)
Definition checked_sub {E} (a b : nat) : result nat E := if b <=? a then Ok (a - b) else Panic.

(** The loop over [context_line_indices] of the [PreserveLineEndings] branch. *)
Fixpoint context_loop {E} (start_idx : nat) (pattern new_slice : list str) (indices : list (nat * nat))
    (old_start new_start : nat) (replacements : list Replacement)
  : result (nat * nat * list Replacement) E :=
  match indices with
  | [] => Ok (old_start, new_start, replacements)
  | (old_context, new_context) :: indices' =>
      if (length pattern <=? old_context) || (length new_slice <=? new_context) then
        Ok (old_start, new_start, replacements)
      else if negb (old_start =? old_context) || negb (new_start =? new_context) then
        let? old_len := checked_sub old_context old_start in
        let? seg := slice new_start new_context new_slice in
        context_loop start_idx pattern new_slice indices' (S old_context) (S new_context)
          (replacements ++ [(start_idx + old_start, old_len, seg)])
      else
        context_loop start_idx pattern new_slice indices' (S old_context) (S new_context) replacements
  end.

(** The replacements one located chunk contributes. *)
Definition chunk_replacements {E} (m : ApplyPatchFileUpdateMode) (chunk : UpdateFileChunk)
    (start_idx : nat) (pattern new_slice : list str) : result (list Replacement) E :=
  match m with
  | NormalizeToLf => Ok [(start_idx, length pattern, new_slice)]
  | PreserveLineEndings =>
      let? (old_start, new_start, reps) :=
        context_loop start_idx pattern new_slice (context_line_indices chunk) 0 0 [] in
      if negb (old_start =? length pattern) || negb (new_start =? length new_slice) then
        let? old_len := checked_sub (length pattern) old_start in
        let? seg := slice new_start (length new_slice) new_slice in
        Ok (reps ++ [(start_idx + old_start, old_len, seg)])
      else Ok reps
  end.

Fixpoint compute_loop (original_lines : list str) (path : str) (m : ApplyPatchFileUpdateMode)
    (chunks : list UpdateFileChunk) (line_index : nat) (replacements : list Replacement)
  : result (list Replacement) ApplyPatchError :=
  match chunks with
  | [] => Ok replacements
  | chunk :: chunks' =>
      let? line_index := seek_context original_lines path m chunk line_index in
      if is_empty (old_lines chunk) then
        compute_loop original_lines path m chunks' line_index
          (replacements ++ [(insertion_index original_lines m, 0, new_lines chunk)])
      else
        match locate_old_lines original_lines m chunk line_index with
        | Some (start_idx, pattern, new_slice) =>
            let? reps := chunk_replacements m chunk start_idx pattern new_slice in
            compute_loop original_lines path m chunks' (start_idx + length pattern) (replacements ++ reps)
        | None => Err (ComputeReplacements (msg_lines_missing path (old_lines chunk)))
        end
  end.

(** [sort_by_key(|(index, _, _)| *index)]: a stable sort. *)
Definition rep_start (r : Replacement) : nat := r.1.1.
Definition rep_end (r : Replacement) : nat := r.1.1 + r.1.2.

Fixpoint insert_by_start (r : Replacement) (l : list Replacement) : list Replacement :=
  match l with
  | [] => [r]
  | x :: l' => if rep_start r <=? rep_start x then r :: l else x :: insert_by_start r l'
  end.

Definition sort_by_start (l : list Replacement) : list Replacement := foldr insert_by_start [] l.

Definition compute_replacements (original_lines : list str) (path : str) (chunks : list UpdateFileChunk)
    (m : ApplyPatchFileUpdateMode) : result (list Replacement) ApplyPatchError :=
  let? replacements := compute_loop original_lines path m chunks 0 [] in
  Ok (sort_by_start replacements).

(** ** [apply_replacements] on lines *)

(** [for _ in 0..old_len { if start_idx < lines.len() { lines.remove(start_idx); } }] *)
Fixpoint remove_lines (start_idx old_len : nat) (lines : list str) : list str :=
  match old_len with
  | O => lines
  | S old_len' =>
      remove_lines start_idx old_len'
        (if start_idx <? length lines then take start_idx lines ++ drop (S start_idx) lines else lines)
  end.

(** [for (offset, l) in seg { lines.insert(start_idx + offset, l) }]; [insert] panics
    beyond the end. *)
Fixpoint insert_lines {E} (index : nat) (new_segment lines : list str) : result (list str) E :=
  match new_segment with
  | [] => Ok lines
  | l :: new_segment' =>
      if index <=? length lines
      then insert_lines (S index) new_segment' (take index lines ++ l :: drop index lines)
      else Panic
  end.

Definition replace_one {E} (lines : list str) (r : Replacement) : result (list str) E :=
  let '(start_idx, old_len, new_segment) := r in
  insert_lines start_idx new_segment (remove_lines start_idx old_len lines).

Fixpoint replace_each {E} (lines : list str) (reps : list Replacement) : result (list str) E :=
  match reps with
  | [] => Ok lines
  | r :: reps' => let? lines' := replace_one lines r in replace_each lines' reps'
  end.

Definition apply_replacements {E} (lines : list str) (replacements : list Replacement)
  : result (list str) E :=
  replace_each lines (rev replacements).

(** ** [derive_new_contents_from_chunks], from the contents that were read *)

Definition split_original (original_contents : str) : list str :=
  let original_lines := split LF original_contents in
  if ends_with_empty_line original_lines then removelast original_lines else original_lines.

Definition join_new (new_lines : list str) : str :=
  join [LF] (if ends_with_empty_line new_lines then new_lines else new_lines ++ [[]]).

Definition derive_new_contents (path_text : str) (chunks : list UpdateFileChunk)
    (m : ApplyPatchFileUpdateMode) (original_contents : str) : result str ApplyPatchError :=
  match m with
  | NormalizeToLf =>
      let original_lines := split_original original_contents in
      let? replacements := compute_replacements original_lines path_text chunks m in
      let? new_lines := apply_replacements original_lines replacements in
      Ok (join_new new_lines)
  | PreserveLineEndings =>
      let source_file := source_parse original_contents in
      let? replacements := compute_replacements (line_texts source_file) path_text chunks m in
      let? new_file := source_apply_replacements replacements source_file in
      Ok (into_contents new_file)
  end.

(** ** Sorting *)

Lemma insert_by_start_perm r l : insert_by_start r l ≡ₚ r :: l.
Proof. induction l as [|x l IH]; simpl; [done|]. case_match; [done|]. rewrite IH. apply Permutation_swap. Qed.

Lemma sort_by_start_perm l : sort_by_start l ≡ₚ l.
Proof. induction l as [|x l IH]; simpl; [done|]. by rewrite insert_by_start_perm, IH. Qed.

Lemma insert_by_start_sorted r l :
  StronglySorted (fun a b => rep_start a <= rep_start b) l ->
  StronglySorted (fun a b => rep_start a <= rep_start b) (insert_by_start r l).
Proof.
  induction 1 as [|x l Hs IH HF]; simpl; [repeat constructor|].
  destruct (rep_start r <=? rep_start x) eqn:E.
  - apply Nat.leb_le in E. constructor; [by constructor|]. constructor; [done|].
    eapply Forall_impl; [exact HF|]. simpl. lia.
  - apply Nat.leb_gt in E. constructor; [done|]. rewrite insert_by_start_perm. constructor; [lia|done].
Qed.

Lemma sort_by_start_sorted l : StronglySorted (fun a b => rep_start a <= rep_start b) (sort_by_start l).
Proof. induction l; simpl; [constructor|by apply insert_by_start_sorted]. Qed.

(** [a] was scheduled before [b] and they do not overlap; only an insertion may be
    scheduled before a replacement of earlier lines. *)
Definition compatible (a b : Replacement) : Prop :=
  rep_end a <= rep_start b \/ (rep_end a = rep_start a /\ rep_end b <= rep_start a).

Definition before (a b : Replacement) : Prop := rep_end a <= rep_start b.

Lemma insert_by_start_before r l :
  StronglySorted before l -> Forall (compatible r) l -> StronglySorted before (insert_by_start r l).
Proof.
  induction 1 as [|x l Hs IH HF]; simpl; [repeat constructor|]. rewrite Forall_cons. intros [Hx HC].
  unfold compatible, before, rep_start, rep_end in *.
  destruct (r.1.1 <=? x.1.1) eqn:E.
  - apply Nat.leb_le in E. constructor; [by constructor|]. constructor; [unfold before, rep_start, rep_end; lia|].
    eapply Forall_impl; [exact HF|]. simpl. unfold before, rep_start, rep_end. intros y. lia.
  - apply Nat.leb_gt in E. constructor; [auto|]. rewrite insert_by_start_perm. constructor; [|done].
    unfold before, rep_start, rep_end. lia.
Qed.

Lemma sort_by_start_before l : StronglySorted compatible l -> StronglySorted before (sort_by_start l).
Proof.
  induction 1 as [|x l Hs IH HF]; simpl; [constructor|]. apply insert_by_start_before; [done|].
  by rewrite sort_by_start_perm.
Qed.

Lemma before_disjoint pos l :
  StronglySorted before l -> Forall (fun r => pos <= rep_start r) l -> disjoint_from pos l.
Proof.
  intros Hs. revert pos. induction Hs as [|[[s n] seg] l Hs IH HF]; intros pos HP; simpl; [done|].
  apply Forall_cons in HP as [? _]. split; [done|]. by apply IH.
Qed.

(** ** The replacements of one chunk *)

Lemma StronglySorted_snoc {A} (R : A -> A -> Prop) l x :
  StronglySorted R l -> Forall (fun a => R a x) l -> StronglySorted R (l ++ [x]).
Proof.
  induction 1 as [|a l Hs IH HF]; intros HR; simpl; [repeat constructor|].
  apply Forall_cons in HR as [? ?]. constructor; [auto|]. apply Forall_app. split; [done|]. by constructor.
Qed.

Lemma StronglySorted_app_cross {A} (R : A -> A -> Prop) l k :
  StronglySorted R l -> StronglySorted R k -> Forall (fun a => Forall (R a) k) l -> StronglySorted R (l ++ k).
Proof.
  induction 1 as [|a l Hs IH HF]; intros Hk HR; simpl; [done|].
  apply Forall_cons in HR as [? ?]. constructor; [auto|]. by apply Forall_app.
Qed.

(** Replacements in order inside the lines [lo..hi]. *)
Definition within (lo hi : nat) (reps : list Replacement) : Prop :=
  StronglySorted before reps /\ Forall (fun r => lo <= rep_start r /\ rep_end r <= hi) reps.

Lemma within_snoc lo hi hi' reps r :
  within lo hi reps -> lo <= rep_start r -> hi <= rep_start r -> rep_end r <= hi' -> hi <= hi' -> within lo hi' (reps ++ [r]).
Proof.
  intros [Hs HF] Hlo Hr Hhi Hle. split.
  - apply StronglySorted_snoc; [done|]. eapply Forall_impl; [exact HF|]. unfold before. simpl. lia.
  - apply Forall_app. split; [|by constructor]. eapply Forall_impl; [exact HF|]. simpl. lia.
Qed.

Lemma within_mono lo hi hi' reps : within lo hi reps -> hi <= hi' -> within lo hi' reps.
Proof. intros [Hs HF] Hle. split; [done|]. eapply Forall_impl; [exact HF|]. simpl. lia. Qed.

Lemma context_loop_Ok {E} start pattern new_slice indices os ns reps :
  ascending_from os ns indices -> os <= length pattern -> ns <= length new_slice ->
  within start (start + os) reps ->
  exists os' ns' reps', context_loop (E := E) start pattern new_slice indices os ns reps = Ok (os', ns', reps') /\
    os' <= length pattern /\ ns' <= length new_slice /\ within start (start + os') reps'.
Proof.
  revert os ns reps. induction indices as [|[oc nc] indices IH]; intros os ns reps Hasc Ho Hn Hw; simpl; [eauto 10|].
  destruct Hasc as (Hoc & Hnc & Hasc).
  destruct (_ || _) eqn:Eb; [eauto 10|]. apply orb_false_iff in Eb as [Eb1 Eb2]. apply Nat.leb_gt in Eb1, Eb2.
  destruct (negb (os =? oc) || negb (ns =? nc)).
  - unfold checked_sub, slice. assert ((os <=? oc) = true) as -> by by apply Nat.leb_le.
    assert ((ns <=? nc) = true) as -> by by apply Nat.leb_le.
    assert ((nc <=? length new_slice) = true) as -> by (apply Nat.leb_le; lia). simpl.
    apply IH; [done|lia|lia|]. eapply within_snoc; [exact Hw|..]; unfold rep_start, rep_end; simpl; lia.
  - apply IH; [done|lia|lia|]. eapply within_mono; [exact Hw|lia].
Qed.

Lemma chunk_replacements_within {E} chunk start pattern new_slice :
  chunk_context_ok chunk ->
  exists reps, chunk_replacements (E := E) PreserveLineEndings chunk start pattern new_slice = Ok reps /\
    within start (start + length pattern) reps.
Proof.
  intros [Hasc _]. unfold chunk_replacements.
  destruct (context_loop_Ok (E := E) start pattern new_slice (context_line_indices chunk) 0 0 [])
    as (os & ns & reps & -> & Ho & Hn & Hw); [done|lia|lia|split; constructor|].
  cbv iota beta. destruct (_ || _).
  - unfold checked_sub, slice. assert ((os <=? length pattern) = true) as -> by by apply Nat.leb_le.
    assert ((ns <=? length new_slice) = true) as -> by by apply Nat.leb_le. rewrite Nat.leb_refl. simpl.
    eexists. split; [done|]. eapply within_snoc; [exact Hw|..]; unfold rep_start, rep_end; simpl; lia.
  - eexists. split; [done|]. eapply within_mono; [exact Hw|lia].
Qed.

(** ** The loop over the chunks *)

Lemma seek_context_bounds lines path m chunk i j :
  i <= length lines -> seek_context lines path m chunk i = Ok j -> i <= j <= length lines.
Proof.
  intros Hi. unfold seek_context. destruct (change_context chunk) as [c|]; [|intros [= <-]; lia].
  destruct (seek_sequence lines [c] i false m) as [k|] eqn:E; [|done]. intros [= <-].
  pose proof (seek_ge_start_no_eof _ _ _ _ _ E). pose proof (seek_end_le _ _ _ _ _ _ E Hi). simpl in *. lia.
Qed.

Lemma seek_context_no_panic lines path m chunk i : seek_context lines path m chunk i <> Panic.
Proof. unfold seek_context. by repeat case_match. Qed.

Lemma locate_old_lines_bounds lines m chunk i start pattern new_slice :
  i <= length lines -> locate_old_lines lines m chunk i = Some (start, pattern, new_slice) ->
  start + length pattern <= length lines /\ (m = PreserveLineEndings -> i <= start).
Proof.
  intros Hi. unfold locate_old_lines. intros H. repeat (break_match_in H; simplify_eq; try done).
  all: split; [by eapply seek_end_le|intros ->; by eapply seek_ge_start].
Qed.

(** What is scheduled so far when the next search starts at [line_index]. *)
Definition schedule_inv (n line_index : nat) (reps : list Replacement) : Prop :=
  StronglySorted compatible reps /\
  Forall (fun r => rep_end r <= n /\ (rep_end r <= line_index \/ (rep_start r = n /\ rep_end r = n))) reps.

Lemma schedule_inv_mono n i j reps : schedule_inv n i reps -> i <= j -> schedule_inv n j reps.
Proof. intros [Hs HF] Hle. split; [done|]. eapply Forall_impl; [exact HF|]. simpl. lia. Qed.

Lemma schedule_insertion n i reps seg :
  schedule_inv n i reps -> schedule_inv n i (reps ++ [(n, 0, seg)]).
Proof.
  intros [Hs HF]. split.
  - apply StronglySorted_snoc; [done|]. eapply Forall_impl; [exact HF|].
    unfold compatible, rep_start, rep_end. simpl. intros r. lia.
  - apply Forall_app. split; [done|]. constructor; [|done]. unfold rep_start, rep_end. simpl. lia.
Qed.

Lemma schedule_chunk n i start len reps reps' :
  schedule_inv n i reps -> i <= start -> start + len <= n -> within start (start + len) reps' ->
  schedule_inv n (start + len) (reps ++ reps').
Proof.
  intros [Hs HF] Hi Hn [Hs' HF']. split.
  - apply StronglySorted_app_cross; [done| |].
    + clear -Hs'. induction Hs' as [|x l H IH HF]; constructor; [done|].
      eapply Forall_impl; [exact HF|]. intros y Hy. by left.
    + eapply Forall_impl; [exact HF|]. intros r Hr. eapply Forall_impl; [exact HF'|].
      unfold compatible, rep_start, rep_end in *. simpl in *. intros y. lia.
  - apply Forall_app. split; [|eapply Forall_impl; [exact HF'|]; simpl; lia].
    eapply Forall_impl; [exact HF|]. simpl. lia.
Qed.

Lemma compute_loop_preserve lines path chunks i reps :
  Forall chunk_context_ok chunks -> i <= length lines -> schedule_inv (length lines) i reps ->
  match compute_loop lines path PreserveLineEndings chunks i reps with
  | Ok reps' => exists j, schedule_inv (length lines) j reps'
  | Err _ => True
  | Panic => False
  end.
Proof.
  revert i reps. induction chunks as [|chunk chunks IH]; intros i reps HF Hi Hinv; [by exists i|].
  apply Forall_cons in HF as [Hc HF]. cbn [compute_loop].
  destruct (seek_context lines path PreserveLineEndings chunk i) as [j|e|] eqn:Ej; [|done|by apply seek_context_no_panic in Ej].
  apply seek_context_bounds in Ej as [Hij Hj]; [|done]. apply (schedule_inv_mono _ _ j) in Hinv; [|done].
  destruct (is_empty (old_lines chunk)); [apply IH; [done..|by apply schedule_insertion]|].
  destruct (locate_old_lines lines PreserveLineEndings chunk j) as [[[start pattern] new_slice]|] eqn:El; [|done].
  apply locate_old_lines_bounds in El as [Hend Hst]; [|done]. specialize (Hst eq_refl).
  destruct (chunk_replacements_within (E := ApplyPatchError) chunk start pattern new_slice Hc) as (reps' & -> & Hw).
  apply IH; [done|done|]. by eapply schedule_chunk.
Qed.

Lemma compute_loop_normalize lines path chunks i reps :
  i <= length lines -> Forall (fun r => rep_start r <= length lines) reps ->
  match compute_loop lines path NormalizeToLf chunks i reps with
  | Ok reps' => Forall (fun r => rep_start r <= length lines) reps'
  | Err _ => True
  | Panic => False
  end.
Proof.
  revert i reps. induction chunks as [|chunk chunks IH]; intros i reps Hi HF; [done|]. cbn [compute_loop].
  destruct (seek_context lines path NormalizeToLf chunk i) as [j|e|] eqn:Ej; [|done|by apply seek_context_no_panic in Ej].
  apply seek_context_bounds in Ej as [Hij Hj]; [|done].
  destruct (is_empty (old_lines chunk)).
  - apply IH; [done|]. apply Forall_app. split; [done|]. constructor; [|done].
    unfold rep_start. simpl. case_match; lia.
  - destruct (locate_old_lines lines NormalizeToLf chunk j) as [[[start pattern] new_slice]|] eqn:El; [|done].
    apply locate_old_lines_bounds in El as [Hend _]; [|done]. simpl. apply IH; [lia|].
    apply Forall_app. split; [done|]. constructor; [|done]. unfold rep_start. simpl. lia.
Qed.

Lemma compute_replacements_preserve lines path chunks :
  Forall chunk_context_ok chunks ->
  match compute_replacements lines path chunks PreserveLineEndings with
  | Ok reps => disjoint_from 0 reps /\ Forall (fun r => rep_end r <= length lines) reps
  | Err _ => True
  | Panic => False
  end.
Proof.
  intros HF. unfold compute_replacements.
  pose proof (compute_loop_preserve lines path chunks 0 [] HF ltac:(lia) ltac:(split; constructor)) as H.
  destruct (compute_loop _ _ _ _ _ _) as [reps|e|]; [|done|done]. destruct H as (j & Hs & HFr). split.
  - apply before_disjoint; [by apply sort_by_start_before|]. apply Forall_true. lia.
  - rewrite sort_by_start_perm. eapply Forall_impl; [exact HFr|]. simpl. tauto.
Qed.

(** ** Applying replacements from the last to the first *)

Lemma remove_lines_spec start n lines : remove_lines start n lines = take start lines ++ drop (start + n) lines.
Proof.
  revert lines. induction n as [|n IH]; intros lines; simpl; [by rewrite Nat.add_0_r, take_drop|].
  rewrite IH. destruct (start <? length lines) eqn:E.
  - apply Nat.ltb_lt in E. rewrite take_app_le, take_take, Nat.min_id by (rewrite length_take; lia). f_equal.
    rewrite drop_app_ge by (rewrite length_take; lia). rewrite length_take, drop_drop. f_equal. lia.
  - apply Nat.ltb_ge in E. rewrite !take_ge, !drop_ge by lia. done.
Qed.

Lemma insert_lines_spec {E} start seg lines :
  start <= length lines -> insert_lines (E := E) start seg lines = Ok (take start lines ++ seg ++ drop start lines).
Proof.
  revert start lines. induction seg as [|l seg IH]; intros start lines Hs; simpl; [by rewrite take_drop|].
  assert ((start <=? length lines) = true) as -> by by apply Nat.leb_le.
  rewrite IH by (rewrite length_app, length_take; simpl; rewrite length_drop; lia).
  assert (length (take start lines) = start) as Hl by (rewrite length_take; lia).
  rewrite take_app_ge, drop_app_ge by lia. rewrite Hl. replace (S start - start) with 1 by lia. simpl.
  by rewrite <- app_assoc, drop_0.
Qed.

Lemma replace_one_spec {E} lines s n seg :
  s <= length lines -> replace_one (E := E) lines (s, n, seg) = Ok (take s lines ++ seg ++ drop (s + n) lines).
Proof.
  intros Hs. simpl. rewrite remove_lines_spec, insert_lines_spec by (rewrite length_app, length_take; lia).
  assert (length (take s lines) = s) as Hl by (rewrite length_take; lia).
  rewrite take_app_le, take_take, Nat.min_id by lia. rewrite drop_app_ge by lia. by rewrite Hl, Nat.sub_diag, drop_0.
Qed.

Lemma replace_each_app {E} lines a b :
  replace_each (E := E) lines (a ++ b) = let? lines' := replace_each lines a in replace_each lines' b.
Proof.
  revert lines. induction a as [|r a IH]; intros lines; simpl; [done|]. by destruct (replace_one lines r); simpl.
Qed.

Lemma apply_replacements_cons {E} lines r reps :
  apply_replacements (E := E) lines (r :: reps) =
  let? lines' := apply_replacements lines reps in replace_one lines' r.
Proof.
  unfold apply_replacements. simpl. rewrite replace_each_app. destruct (replace_each lines (rev reps)); simpl; try done.
  by destruct (replace_one a r).
Qed.

(** Applied to ordered disjoint replacements, the reverse loop is [splice]. *)
Lemma apply_replacements_splice_from {E} pos lines reps :
  disjoint_from pos reps -> Forall (fun r => rep_end r <= length lines) reps -> pos <= length lines ->
  apply_replacements (E := E) lines reps = Ok (take pos lines ++ splice pos reps (drop pos lines)).
Proof.
  revert pos. induction reps as [|[[s n] seg] reps IH]; intros pos Hd HF Hpos; simpl.
  - by rewrite take_drop.
  - destruct Hd as [Hps Hd]. apply Forall_cons in HF as [He HF]. unfold rep_end in He. simpl in He.
    rewrite apply_replacements_cons, (IH (s + n)) by done. rewrite replace_one_spec.
    2:{ rewrite length_app, length_take. lia. }
    assert (length (take (s + n) lines) = s + n) as Hl by (rewrite length_take; lia).
    rewrite take_app_le, take_take by lia. rewrite drop_app_ge by lia. rewrite Hl, Nat.sub_diag, drop_0.
    rewrite drop_drop. replace (pos + (s - pos + n)) with (s + n) by lia.
    replace (min s (s + n)) with s by lia. f_equal.
    assert (take s lines = take pos lines ++ take (s - pos) (drop pos lines)) as ->
      by (rewrite take_take_drop; f_equal; lia).
    by rewrite <- app_assoc.
Qed.

Lemma apply_replacements_splice {E} lines reps :
  disjoint_from 0 reps -> Forall (fun r => rep_end r <= length lines) reps ->
  apply_replacements (E := E) lines reps = Ok (splice 0 reps lines).
Proof. intros Hd HF. rewrite (apply_replacements_splice_from 0) by (done || lia). by rewrite drop_0. Qed.

(** Sorted starts inside the file are enough for the loop not to panic, overlaps or not. *)
Lemma apply_replacements_no_panic {E} lines reps :
  StronglySorted (fun a b => rep_start a <= rep_start b) reps ->
  Forall (fun r => rep_start r <= length lines) reps ->
  exists out, apply_replacements (E := E) lines reps = Ok out /\
    match reps with [] => True | r :: _ => rep_start r <= length out end.
Proof.
  induction 1 as [|[[s n] seg] reps Hs IH HF]; intros HL; [by eexists|].
  apply Forall_cons in HL as [Hr HL]. destruct (IH HL) as (out & Hout & Hlen).
  rewrite apply_replacements_cons, Hout.
  assert (s <= length out) as Hso.
  { destruct reps as [|r reps]; [cbv in Hout; by simplify_eq|].
    apply Forall_cons in HF as [? _]. unfold rep_start in *. simpl in *. lia. }
  rewrite replace_one_spec by done. eexists. split; [done|]. unfold rep_start. simpl.
  rewrite !length_app, length_take. lia.
Qed.

Lemma compute_replacements_normalize lines path chunks :
  match compute_replacements lines path chunks NormalizeToLf with
  | Ok reps => StronglySorted (fun a b => rep_start a <= rep_start b) reps /\
               Forall (fun r => rep_start r <= length lines) reps
  | Err _ => True
  | Panic => False
  end.
Proof.
  unfold compute_replacements.
  pose proof (compute_loop_normalize lines path chunks 0 [] ltac:(lia) ltac:(constructor)) as H.
  destruct (compute_loop _ _ _ _ _ _) as [reps|e|]; [|done|done].
  split; [apply sort_by_start_sorted|]. by rewrite sort_by_start_perm.
Qed.

(** ** A chunk that matches exactly once *)

Lemma ends_with_empty_line_snoc ls : ends_with_empty_line (ls ++ [[]]) = true.
Proof. unfold ends_with_empty_line. by rewrite last_snoc. Qed.

Lemma split_join_lines ls :
  Forall (fun l => LF ∉ l) ls -> ls <> [] -> split LF (join [LF] ls) = ls.
Proof.
  intros HF Hne. destruct ls as [|l ls]; [done|]. clear Hne. revert l HF.
  induction ls as [|l' ls IH]; intros l HF; apply Forall_cons in HF as [Hl HF].
  - simpl. by apply split_no_sep.
  - rewrite join_cons by done. change ([LF] ++ join [LF] (l' :: ls)) with (LF :: join [LF] (l' :: ls)).
    rewrite split_app_sep by done. by rewrite IH.
Qed.

(** A text of LF-terminated lines. *)
Definition lf_text (ls : list str) : str := join [LF] (ls ++ [[]]).

Lemma split_original_lf ls :
  Forall (fun l => LF ∉ l) ls -> split_original (lf_text ls) = ls.
Proof.
  intros HF. unfold split_original, lf_text. rewrite split_join_lines.
  - by rewrite ends_with_empty_line_snoc, removelast_snoc.
  - apply Forall_app. split; [done|]. constructor; [apply not_elem_of_nil|done].
  - by destruct ls.
Qed.

Lemma parse_loop_no_break l rest cur acc pref :
  no_breaks l -> parse_loop (l ++ rest) cur acc pref = parse_loop rest (cur ++ l) acc pref.
Proof.
  revert cur. induction l as [|c l IH]; intros cur [H1 H2]; [by rewrite app_nil_r|].
  apply not_elem_of_cons in H1 as [Hc1 H1]. apply not_elem_of_cons in H2 as [Hc2 H2]. simpl.
  destruct (char_eqb c CR) eqn:E1; to_prop; [congruence|]. destruct (char_eqb c LF) eqn:E2; to_prop; [congruence|].
  rewrite IH by done. by rewrite <- app_assoc.
Qed.

Lemma lf_text_cons l ls : lf_text (l :: ls) = l ++ LF :: lf_text ls.
Proof. unfold lf_text. rewrite <- app_comm_cons, join_cons by (by destruct ls). done. Qed.

Lemma parse_loop_lf ls acc pref :
  Forall no_breaks ls ->
  parse_loop (lf_text ls) [] acc pref =
  ([], acc ++ ((fun t => mkLine t (Some Lf)) <$> ls), match ls with [] => pref | _ => get_or_insert pref Lf end).
Proof.
  revert acc pref. induction ls as [|l ls IH]; intros acc pref HF; [simpl; by rewrite app_nil_r|].
  apply Forall_cons in HF as [Hl HF]. rewrite lf_text_cons, parse_loop_no_break by done.
  change (parse_loop (LF :: lf_text ls) ([] ++ l) acc pref)
    with (parse_loop (lf_text ls) [] (acc ++ [mkLine l (Some Lf)]) (get_or_insert pref Lf)).
  rewrite IH by done. rewrite <- app_assoc. simpl. f_equal. by destruct ls, pref.
Qed.

Lemma source_parse_lf ls :
  Forall no_breaks ls -> source_parse (lf_text ls) = mkFile ((fun t => mkLine t (Some Lf)) <$> ls) Lf.
Proof. intros HF. unfold source_parse. rewrite parse_loop_lf by done. simpl. by destruct ls. Qed.

Lemma into_contents_lf (ls : list str) :
  into_contents (mkFile ((fun t => mkLine t (Some Lf)) <$> ls) Lf) = lf_text ls.
Proof.
  unfold into_contents. simpl. induction ls as [|l ls IH]; [done|]. rewrite lf_text_cons, <- IH.
  rewrite !fmap_cons. simpl. unfold line_str. simpl. by rewrite <- app_assoc.
Qed.

(** ** Weaving kept context lines with new ones *)

Lemma splice_skip {A} pos k (tail : list (nat * nat * list A)) src :
  disjoint_from (pos + k) tail -> k <= length src ->
  splice pos tail src = take k src ++ splice (pos + k) tail (drop k src).
Proof.
  destruct tail as [|[[s n] seg] tail]; simpl; intros Hd Hk; [by rewrite take_drop|]. destruct Hd as [Hps _].
  rewrite drop_drop, (app_assoc (take k src)). replace (k + (s - (pos + k) + n)) with (s - pos + n) by lia.
  by rewrite take_take_drop; replace (k + (s - (pos + k))) with (s - pos) by lia.
Qed.

(** [reps] rewrites the first [os] matched lines of [src] into the first [ns] new ones. *)
Definition weaves (start os ns : nat) (new src : list str) (reps : list Replacement) : Prop :=
  forall tail, disjoint_from (start + os) tail ->
    splice 0 (reps ++ tail) src = take start src ++ take ns new ++ splice (start + os) tail (drop (start + os) src).

Lemma weaves_nil start new src : start <= length src -> weaves start 0 0 new src [].
Proof. intros Hs tail Hd. rewrite Nat.add_0_r in *. simpl. by apply (splice_skip 0). Qed.

Lemma weaves_replace start os ns oc nc new src reps :
  weaves start os ns new src reps -> os <= oc -> ns <= nc -> nc <= length new ->
  weaves start oc nc new src (reps ++ [(start + os, oc - os, take (nc - ns) (drop ns new))]).
Proof.
  intros Hw Ho Hn Hl tail Hd. rewrite <- app_assoc. simpl (_ ++ tail). rewrite Hw.
  2:{ simpl. split; [lia|]. by replace (start + os + (oc - os)) with (start + oc) by lia. }
  simpl. rewrite Nat.sub_diag. simpl. rewrite drop_drop.
  replace (start + os + (oc - os)) with (start + oc) by lia.
  rewrite (app_assoc (take ns new)), take_take_drop. by replace (ns + (nc - ns)) with nc by lia.
Qed.

Lemma weaves_keep start os ns new src reps l :
  weaves start os ns new src reps -> src !! (start + os) = Some l -> new !! ns = Some l ->
  weaves start (S os) (S ns) new src reps.
Proof.
  intros Hw Hs Hn tail Hd. rewrite Hw.
  2:{ destruct tail as [|[[s n] seg] tail]; [done|]. simpl in *. split; [lia|tauto]. }
  rewrite (splice_skip _ 1).
  - rewrite (take_S_r _ _ _ Hn), drop_drop, <- !app_assoc. do 2 f_equal.
    rewrite (drop_S _ _ _ Hs). simpl.
    by replace (start + os + 1) with (start + S os) by lia.
  - by replace (start + os + 1) with (start + S os) by lia.
  - rewrite length_drop. apply lookup_lt_Some in Hs. lia.
Qed.

Lemma context_loop_weaves {E} start old new src indices os ns reps os' ns' reps' :
  context_loop (E := E) start old new indices os ns reps = Ok (os', ns', reps') ->
  Forall (fun ab => exists l, old !! (ab.1 : nat) = Some l /\ new !! (ab.2 : nat) = Some l) indices ->
  take (length old) (drop start src) = old ->
  ascending_from os ns indices ->
  weaves start os ns new src reps -> weaves start os' ns' new src reps'.
Proof.
  intros H HF Heq. revert os ns reps H HF.
  induction indices as [|[oc nc] indices IH]; intros os ns reps H HF Hasc Hw; simpl in H; [by simplify_eq|].
  apply Forall_cons in HF as [(l & Hlo & Hln) HF]. destruct Hasc as (Ho & Hn & Hasc). simpl in Hlo, Hln.
  destruct (_ || _) eqn:Eb; [by simplify_eq|].
  assert (src !! (start + oc) = Some l) as Hsrc.
  { rewrite <- Heq in Hlo. pose proof (lookup_lt_Some _ _ _ Hlo) as Hlt. rewrite length_take in Hlt.
    rewrite lookup_take_lt, lookup_drop in Hlo by lia. done. }
  assert (nc < length new) as Hnl by by apply lookup_lt_Some in Hln.
  destruct (negb (os =? oc) || negb (ns =? nc)) eqn:Ed.
  - unfold checked_sub, slice in H. assert ((os <=? oc) = true) as Hb1 by by apply Nat.leb_le. rewrite Hb1 in H.
    assert ((ns <=? nc) = true) as Hb2 by by apply Nat.leb_le. rewrite Hb2 in H.
    assert ((nc <=? length new) = true) as Hb3 by (apply Nat.leb_le; lia). rewrite Hb3 in H. simpl in H.
    eapply IH; [exact H|done|done|]. eapply weaves_keep; [|done|done]. apply weaves_replace; auto with lia.
  - apply orb_false_iff in Ed as [E1 E2]. rewrite negb_false_iff in E1, E2. apply Nat.eqb_eq in E1, E2. subst.
    eapply IH; [exact H|done|done|]. by eapply weaves_keep.
Qed.

(** The replacements of an exactly matching chunk write its new lines. *)
Lemma chunk_replacements_splice {E} m chunk start src reps :
  chunk_context_ok chunk -> start + length (old_lines chunk) <= length src ->
  take (length (old_lines chunk)) (drop start src) = old_lines chunk ->
  chunk_replacements (E := E) m chunk start (old_lines chunk) (new_lines chunk) = Ok reps ->
  splice 0 reps src = take start src ++ new_lines chunk ++ drop (start + length (old_lines chunk)) src.
Proof.
  intros [Hasc HF] Hlen Heq. unfold chunk_replacements. destruct m.
  - intros [= <-]. simpl. by rewrite Nat.sub_0_r.
  - destruct (context_loop _ _ _ _ _ _ _) as [[[os ns] reps0]|e|] eqn:Ec; try done. intros H.
    assert (weaves start os ns (new_lines chunk) src reps0) as Hw.
    { eapply context_loop_weaves; [exact Ec|done..|]. apply weaves_nil. lia. }
    destruct (context_loop_Ok (E := E) start (old_lines chunk) (new_lines chunk) (context_line_indices chunk) 0 0 [])
      as (os1 & ns1 & reps1 & Ec1 & Ho & Hn & _); [done|lia|lia|split; constructor|].
    rewrite Ec in Ec1. simplify_eq. destruct (_ || _) eqn:Ed.
    + unfold checked_sub, slice in H. assert ((os1 <=? length (old_lines chunk)) = true) as Hb1 by by apply Nat.leb_le.
      assert ((ns1 <=? length (new_lines chunk)) = true) as Hb2 by by apply Nat.leb_le.
      rewrite Hb1, Hb2, Nat.leb_refl in H. simpl in H. simplify_eq.
      pose proof (weaves_replace _ _ _ _ _ _ _ _ Hw Ho Hn (le_n _) [] I) as Hs.
      rewrite app_nil_r in Hs. rewrite Hs. simpl. by rewrite (take_ge (new_lines chunk)) by lia.
    + simplify_eq. apply orb_false_iff in Ed as [E1 E2]. rewrite negb_false_iff in E1, E2. apply Nat.eqb_eq in E1, E2. subst.
      specialize (Hw [] I). rewrite app_nil_r in Hw. rewrite Hw. simpl. by rewrite (take_ge (new_lines chunk)) by lia.
Qed.

Lemma locate_exact_first m chunk pre post :
  old_lines chunk <> [] -> is_end_of_file chunk = false ->
  (forall k, k < length pre ->
     take (length (old_lines chunk)) (drop k (pre ++ old_lines chunk ++ post)) <> old_lines chunk) ->
  locate_old_lines (pre ++ old_lines chunk ++ post) m chunk 0 = Some (length pre, old_lines chunk, new_lines chunk).
Proof.
  intros Hne Heof Hfirst. set (src := pre ++ old_lines chunk ++ post) in *.
  assert (take (length (old_lines chunk)) (drop (length pre) src) = old_lines chunk) as Hhere.
  { unfold src. by rewrite drop_app_length, take_app_length. }
  destruct (seek_exact src (old_lines chunk) 0 false m (length pre) Hne ltac:(unfold seek_start; simpl; lia) Hhere)
    as (i & Hi & Hle & Hex & _).
  unfold locate_old_lines. rewrite Heof, Hi. destruct (decide (i = length pre)) as [->|Hni]; [done|].
  exfalso. apply (Hfirst i); [lia|done].
Qed.

Lemma compute_single_chunk m path chunk pre post :
  chunk_context_ok chunk -> change_context chunk = None -> is_end_of_file chunk = false -> old_lines chunk <> [] ->
  (forall k, k < length pre ->
     take (length (old_lines chunk)) (drop k (pre ++ old_lines chunk ++ post)) <> old_lines chunk) ->
  exists reps, compute_replacements (pre ++ old_lines chunk ++ post) path [chunk] m = Ok reps /\
    disjoint_from 0 reps /\ Forall (fun r => rep_end r <= length (pre ++ old_lines chunk ++ post)) reps /\
    splice 0 reps (pre ++ old_lines chunk ++ post) = pre ++ new_lines chunk ++ post.
Proof.
  intros Hc Hctx Heof Hne Hfirst. set (src := pre ++ old_lines chunk ++ post) in *.
  pose proof (locate_exact_first m chunk pre post Hne Heof Hfirst) as Hloc. fold src in Hloc.
  assert (length pre + length (old_lines chunk) <= length src) as Hlen by (unfold src; rewrite !length_app; lia).
  assert (exists reps, chunk_replacements (E := ApplyPatchError) m chunk (length pre) (old_lines chunk) (new_lines chunk) = Ok reps
            /\ within (length pre) (length pre + length (old_lines chunk)) reps) as (reps & Hreps & Hw).
  { destruct m; [|by apply chunk_replacements_within]. eexists. split; [done|]. split; [repeat constructor|].
    constructor; [|done]. unfold rep_start, rep_end. simpl. lia. }
  assert (compute_loop src path m [chunk] 0 [] = Ok reps) as Hloop.
  { cbn [compute_loop]. unfold seek_context. rewrite Hctx. apply is_empty_false in Hne. by rewrite Hne, Hloc, Hreps. }
  destruct Hw as [Hs HF]. assert (sort_by_start reps = reps) as Hsort.
  { clear -Hs. induction Hs as [|x l Hs IH HF]; [done|]. simpl. rewrite IH. destruct l as [|y l]; [done|]. simpl.
    apply Forall_cons in HF as [Hxy _]. unfold before, rep_end, rep_start in *.
    by assert ((x.1.1 <=? y.1.1) = true) as -> by (apply Nat.leb_le; lia). }
  exists reps. unfold compute_replacements. rewrite Hloop, Hsort. split_and!; [done| | |].
  - apply before_disjoint; [done|]. eapply Forall_impl; [exact HF|]. simpl. lia.
  - eapply Forall_impl; [exact HF|]. simpl. lia.
  - rewrite (chunk_replacements_splice (E := ApplyPatchError) m chunk (length pre) src reps); [|done|done| |done].
    + unfold src. by rewrite take_app_length, <- drop_drop, !drop_app_length.
    + unfold src. by rewrite drop_app_length, take_app_length.
Qed.

(** Deriving the new contents of a file never panics, in either mode, whatever the
    file holds: every index, slice and subtraction on the way is in range. *)
Lemma derive_new_contents_total (path : str) (chunks : list UpdateFileChunk)
    (m : ApplyPatchFileUpdateMode) (contents : str) :
  Forall chunk_context_ok chunks -> derive_new_contents path chunks m contents <> Panic.
Proof.
  intros HF. unfold derive_new_contents. destruct m.
  - pose proof (compute_replacements_normalize (split_original contents) path chunks) as H.
    destruct (compute_replacements _ _ _ _) as [reps|e|]; [|done|done]. destruct H as [Hs HL].
    destruct (apply_replacements_no_panic (E := ApplyPatchError) _ _ Hs HL) as (out & -> & _). done.
  - pose proof (compute_replacements_preserve (line_texts (source_parse contents)) path chunks HF) as H.
    destruct (compute_replacements _ _ _ _) as [reps|e|]; [|done|done].
    by rewrite source_apply_replacements_Ok by tauto.
Qed.

(** ** Properties *)

(** For the chunks the parser produces, the replacements computed when line endings
    are preserved are ordered, disjoint and inside the file, and the computation never
    panics: what [SourceFile::apply_replacements] asserts of its argument. *)
Theorem preserved_replacements_disjoint (lines : list str) (path : str) (chunks : list UpdateFileChunk) :
  Forall chunk_context_ok chunks ->
  compute_replacements lines path chunks PreserveLineEndings <> Panic /\
  forall reps, compute_replacements lines path chunks PreserveLineEndings = Ok reps ->
    disjoint_from 0 reps /\ Forall (fun r => rep_end r <= length lines) reps.
Proof.
  intros HF. pose proof (compute_replacements_preserve lines path chunks HF) as H.
  destruct (compute_replacements _ _ _ _) as [reps|e|]; [|done|done].
  split; [done|]. intros reps' [= <-]. done.
Qed.

Definition sample_chunk : UpdateFileChunk :=
  push_new_line (lit "y") (push_old_line (lit "x") (push_context_line (lit "c") default_chunk)).

Lemma preserved_replacements_disjoint_witness :
  compute_replacements [lit "c"; lit "x"] [] [sample_chunk] PreserveLineEndings <> Panic /\
  forall reps, compute_replacements [lit "c"; lit "x"] [] [sample_chunk] PreserveLineEndings = Ok reps ->
    disjoint_from 0 reps /\ Forall (fun r => rep_end r <= 2) reps.
Proof.
  apply (preserved_replacements_disjoint [lit "c"; lit "x"]). constructor; [|constructor].
  unfold sample_chunk. auto with rust.
Defined.

(** The two rewriting routines agree: on ordered disjoint replacements, the reverse
    remove-and-insert loop over lines and the forward pass of [SourceFile] give the same
    line texts. *)
Theorem rewriting_routines_agree (reps : list Replacement) (f : SourceFile) :
  disjoint_from 0 reps -> Forall (fun r => rep_end r <= length (line_texts f)) reps ->
  exists f', source_apply_replacements (E := Empty_set) reps f = Ok f' /\
    apply_replacements (E := Empty_set) (line_texts f) reps = Ok (line_texts f').
Proof.
  intros Hd HF. rewrite source_apply_replacements_Ok, apply_replacements_splice by done.
  eexists. split; [done|]. unfold line_texts. simpl.
  by rewrite terminate_texts, splice_map, map_segments_id_text.
Qed.

Lemma rewriting_routines_agree_witness :
  exists f', source_apply_replacements (E := Empty_set) [(0, 1, [lit "z"]); (1, 0, [lit "w"])] (source_parse (lit "a" ++ [LF] ++ lit "b")) = Ok f' /\
    apply_replacements (E := Empty_set) [lit "a"; lit "b"] [(0, 1, [lit "z"]); (1, 0, [lit "w"])] = Ok (line_texts f').
Proof.
  apply (rewriting_routines_agree [(0, 1, [lit "z"]); (1, 0, [lit "w"])] (source_parse (lit "a" ++ [LF] ++ lit "b")));
    [simpl; lia|by_decide].
Defined.

(** C28: what an update means, for a patch of one chunk without an [@@] context and without an
    end-of-file mark, on a file of lines that each end with a line feed: when the old lines of
    the chunk occur in the file, first at the end of [pre], the file becomes [pre], the new
    lines and [post], in both modes.  With LF normalisation this needs a result that does not
    end with an empty line. *)
Theorem update_replaces_first_occurrence (m : ApplyPatchFileUpdateMode) (path : str)
    (chunk : UpdateFileChunk) (pre post : list str) :
  chunk_context_ok chunk -> change_context chunk = None -> is_end_of_file chunk = false ->
  old_lines chunk <> [] -> Forall no_breaks (pre ++ old_lines chunk ++ post) ->
  (forall k, k < length pre ->
     take (length (old_lines chunk)) (drop k (pre ++ old_lines chunk ++ post)) <> old_lines chunk) ->
  (m = NormalizeToLf -> last (pre ++ new_lines chunk ++ post) <> Some []) ->
  derive_new_contents path [chunk] m (lf_text (pre ++ old_lines chunk ++ post)) =
    Ok (lf_text (pre ++ new_lines chunk ++ post)).
Proof.
  intros Hc Hctx Heof Hne Hnb Hfirst Hlast.
  destruct (compute_single_chunk m path chunk pre post Hc Hctx Heof Hne Hfirst) as (reps & Hr & Hd & HF & Hsp).
  unfold derive_new_contents. destruct m.
  - rewrite split_original_lf by (eapply Forall_impl; [exact Hnb|]; intros l [? _]; done).
    rewrite Hr, apply_replacements_splice, Hsp by done. unfold join_new, ends_with_empty_line.
    specialize (Hlast eq_refl). by destruct (last (pre ++ new_lines chunk ++ post)) as [[]|].
  - rewrite source_parse_lf by done. unfold line_texts. simpl (file_lines _). rewrite <- list_fmap_compose.
    assert ((text ∘ (fun t => mkLine t (Some Lf))) <$> (pre ++ old_lines chunk ++ post) = pre ++ old_lines chunk ++ post) as ->
      by apply list_fmap_id.
    rewrite Hr, source_apply_replacements_Ok by done. cbn [file_lines preferred_ending].
    rewrite <- splice_map, Hsp, terminate_id, into_contents_lf; [done|].
    apply Forall_fmap, Forall_true. intros t. simpl. eauto.
Qed.

Lemma update_replaces_first_occurrence_witness :
  derive_new_contents [] [sample_chunk] NormalizeToLf (lf_text [lit "a"; lit "c"; lit "x"; lit "b"]) =
    Ok (lf_text [lit "a"; lit "c"; lit "y"; lit "b"]).
Proof.
  apply (update_replaces_first_occurrence NormalizeToLf [] sample_chunk [lit "a"] [lit "b"]).
  - unfold sample_chunk. auto with rust.
  - reflexivity.
  - reflexivity.
  - done.
  - repeat constructor; by_decide.
  - intros [|k] Hk; [by vm_compute|simpl in Hk; lia].
  - intros _. by vm_compute.
Defined.

(** With LF normalisation, any update of a file whose last line is blank drops that
    line: the blank line is taken for the final newline when the file is written back.
    The mode that preserves line endings keeps it. *)
Theorem normalize_drops_last_blank_line :
  derive_new_contents [] [sample_chunk] NormalizeToLf (lf_text [lit "c"; lit "x"; []]) =
    Ok (lf_text [lit "c"; lit "y"]) /\
  derive_new_contents [] [sample_chunk] PreserveLineEndings (lf_text [lit "c"; lit "x"; []]) =
    Ok (lf_text [lit "c"; lit "y"; []]).
Proof. by vm_compute. Qed.
