(* ===== verification/ApplyHunks.v ===== *)
(** * Applying a patch to the file system: [apply-patch/src/lib.rs]

    The errors and their texts, the delta of committed changes with its [exact] flag,
    one definition per kind of hunk, [apply_hunks_to_files] and the entry points that
    print, over the interfaces of [FileSystem].  The specification is a partial
    function on views; the theorems relate the file system after an application, the
    specification and the delta that is returned. *)

From stdpp Require Import base list strings gmap pretty.
From S2P Require Import Prelude PatchParser PatchInvariant SeekSequence TextFile FileSystem FileUpdate.

(** ** Errors *)

Definition quote : str := [34%N].

Definition display_parse_error (e : ParseError) : str :=
  match e with
  | InvalidPatchError message => lit "invalid patch: " ++ message
  | InvalidHunkError message line_number =>
      lit "invalid hunk at line " ++ lit (pretty line_number) ++ lit ", " ++ message
  end.

(** The [Display] of [ApplyPatchError]. *)
Definition display_error (e : ApplyPatchError) : str :=
  match e with
  | PatchParseError e => display_parse_error e
  | IoError context source => context ++ lit ": " ++ io_text source
  | ComputeReplacements message => message
  | PathUriError message => message
  | ImplicitInvocation =>
      lit "patch detected without explicit call to apply_patch. Rerun as [" ++ quote ++ lit "apply_patch" ++ quote
        ++ lit ", " ++ quote ++ lit "<patch>" ++ quote ++ lit "]"
  end.

(** [From<std::io::Error> for ApplyPatchError], and the same from a reference. *)
Definition error_from_io (e : IoSource) : ApplyPatchError :=
  IoError (lit "I/O error") (mkIo (io_kind e) (io_text e)).

(** [anyhow::Error]: the text it displays, that of the last context attached, and the
    [std::io::Error] that [downcast_ref] finds in it. *)
Record AnyError := mkAny { any_text : str; any_io : option IoSource }.

Definition any_bail (text : str) : AnyError := mkAny text None.
Definition any_context (context : str) (e : IoSource) : AnyError := mkAny context (Some e).
Definition any_patch (e : ApplyPatchError) : AnyError := mkAny (display_error e) None.

(** ** The delta *)

(** [AppliedPatchFileChange], its variants [Add], [Delete] and [Update]. *)
Inductive AppliedPatchFileChange : Type :=
| AppliedAdd (content : str) (overwritten_content : option str)
| AppliedDelete (content : str)
| AppliedUpdate (move_path : option path_uri) (old_content : str)
    (overwritten_move_content : option str) (new_content : str).

Record AppliedPatchChange := mkChange { change_path : path_uri; change : AppliedPatchFileChange }.

Record AppliedPatchDelta := mkDelta { changes : list AppliedPatchChange; exact : bool }.

Definition empty_delta : AppliedPatchDelta := mkDelta [] true.

Definition append_delta (d other : AppliedPatchDelta) : AppliedPatchDelta :=
  mkDelta (changes d ++ changes other) (exact d && exact other).

Definition set_exact (b : bool) (d : AppliedPatchDelta) : AppliedPatchDelta := mkDelta (changes d) b.
Definition push_change (c : AppliedPatchChange) (d : AppliedPatchDelta) : AppliedPatchDelta :=
  mkDelta (changes d ++ [c]) (exact d).
Definition set_change (i : nat) (c : AppliedPatchChange) (d : AppliedPatchDelta) : AppliedPatchDelta :=
  mkDelta (<[i := c]> (changes d)) (exact d).

Record ApplyPatchFailure := mkFailure { failure_error : ApplyPatchError; failure_delta : AppliedPatchDelta }.

Definition without_delta (e : ApplyPatchError) : ApplyPatchFailure := mkFailure e empty_delta.

Record AffectedPaths := mkAffected { added : list str; modified : list str; deleted : list str }.

Definition push_added (p : str) (a : AffectedPaths) : AffectedPaths :=
  mkAffected (added a ++ [p]) (modified a) (deleted a).
Definition push_modified (p : str) (a : AffectedPaths) : AffectedPaths :=
  mkAffected (added a) (modified a ++ [p]) (deleted a).
Definition push_deleted (p : str) (a : AffectedPaths) : AffectedPaths :=
  mkAffected (added a) (modified a) (deleted a ++ [p]).

(** [std::io::Write], one [writeln!] at a time. *)
Class Write (W : Type) := { write_line : W -> str -> W * io_result unit }.

(** ** The operations *)

Section apply.
Context {FS : Type} `{PathOps} `{ExecutorFileSystem FS}.

Definition delete_context (path : path_uri) : str := lit "Failed to delete file " ++ native_path_string path.
Definition remove_context (path : path_uri) : str := lit "Failed to remove original " ++ native_path_string path.
Definition write_context (path : path_uri) : str := lit "Failed to write file " ++ native_path_string path.
Definition parents_context (path : path_uri) : str :=
  lit "Failed to create parent directories for " ++ native_path_string path.
Definition read_context (path : path_uri) : str := lit "Failed to read file to update " ++ native_path_string path.

Definition derive_new_contents_from_chunks (path : path_uri) (chunks : list UpdateFileChunk)
    (m : ApplyPatchFileUpdateMode) (fs : FS) : result (str * str) ApplyPatchError :=
  match read_file_text fs path with
  | inr e => Err (IoError (read_context path) e)
  | inl original_contents =>
      let? new_contents := derive_new_contents (native_path_string path) chunks m original_contents in
      Ok (original_contents, new_contents)
  end.

Definition resolve_path (cwd : path_uri) (h : Hunk) : path_uri + str := path_join cwd (hunk_source_path h).

Definition ensure_not_directory (path : path_uri) (fs : FS) : io_result unit :=
  match get_metadata fs path with
  | inr e => inr e
  | inl metadata => if is_directory metadata then inr (mkIo InvalidInput (lit "path is a directory")) else inl tt
  end.

Definition remove_failure_was_side_effect_free (path : path_uri) (expected_content : option str) (fs : FS) : bool :=
  match expected_content with
  | Some expected_content =>
      match read_file_text fs path with inl content => str_eqb content expected_content | inr _ => false end
  | None => false
  end.

(** The flag passed as [&mut bool] is returned. *)
Definition note_existing_path_delta_support (path : path_uri) (fs : FS) (exact : bool) : bool :=
  match get_metadata fs path with
  | inl metadata => if is_file metadata && negb (is_symlink metadata) then exact else false
  | inr source => if is_not_found source then exact else false
  end.

Definition read_optional_file_text_for_delta (path : path_uri) (fs : FS) (exact : bool) : option str * bool :=
  let exact := note_existing_path_delta_support path fs exact in
  match read_file_text fs path with
  | inl content => (Some content, exact)
  | inr source => if is_not_found source then (None, exact) else (None, false)
  end.

Definition write_file_with_missing_parent_retry (fs : FS) (path : path_uri) (contents : str)
  : FS * (unit + AnyError) :=
  match write_file fs path contents with
  | (fs, inl tt) => (fs, inl tt)
  | (fs, inr err) =>
      if is_not_found err then
        let '(fs, created) :=
          match path_parent path with
          | Some parent => create_directory fs parent
          | None => (fs, inl tt)
          end in
        match created with
        | inr e => (fs, inr (any_context (parents_context path) e))
        | inl tt =>
            match write_file fs path contents with
            | (fs, inl tt) => (fs, inl tt)
            | (fs, inr e) => (fs, inr (any_context (write_context path) e))
            end
        end
      else (fs, inr (any_context (write_context path) err))
  end.

(** The state the loop over the hunks mutates. *)
Abbreviation Applier := (M (FS * AppliedPatchDelta) AnyError).

(** The branch of [Hunk::AddFile]. *)
Definition apply_add (path : path_uri) (affected_path contents : str) (acc : AffectedPaths)
  : Applier AffectedPaths := fun '(fs, delta) =>
  let '(overwritten_content, ex) := read_optional_file_text_for_delta path fs (exact delta) in
  let delta := set_exact ex delta in
  match write_file_with_missing_parent_retry fs path contents with
  | (fs, inr e) => ((fs, set_exact false delta), Err e)
  | (fs, inl tt) =>
      ((fs, push_change (mkChange path (AppliedAdd contents overwritten_content)) delta),
       Ok (push_added affected_path acc))
  end.

(** The branch of [Hunk::DeleteFile]. *)
Definition apply_delete (path : path_uri) (affected_path : str) (acc : AffectedPaths)
  : Applier AffectedPaths := fun '(fs, delta) =>
  let delta := set_exact (note_existing_path_delta_support path fs (exact delta)) delta in
  let deleted_content := match read_file_text fs path with inl c => Some c | inr _ => None end in
  let delta := match deleted_content with Some _ => delta | None => set_exact false delta end in
  match ensure_not_directory path fs with
  | inr e => ((fs, delta), Err (any_context (delete_context path) e))
  | inl tt =>
      match remove fs path with
      | (fs, inr e) =>
          let free := remove_failure_was_side_effect_free path deleted_content fs in
          ((fs, set_exact (exact delta && free) delta), Err (any_context (delete_context path) e))
      | (fs, inl tt) =>
          let delta := match deleted_content with
                       | Some content => push_change (mkChange path (AppliedDelete content)) delta
                       | None => delta
                       end in
          ((fs, delta), Ok (push_deleted affected_path acc))
      end
  end.

(** The part of the [Hunk::UpdateFile] branch that moves the file. *)
Definition apply_move (path dest : path_uri) (affected_path original_contents new_contents : str)
    (acc : AffectedPaths) : Applier AffectedPaths := fun '(fs, delta) =>
  let '(overwritten_move_content, ex) := read_optional_file_text_for_delta dest fs (exact delta) in
  let delta := set_exact ex delta in
  match write_file_with_missing_parent_retry fs dest new_contents with
  | (fs, inr e) => ((fs, set_exact false delta), Err e)
  | (fs, inl tt) =>
      let dest_write_change_index := length (changes delta) in
      let delta := push_change (mkChange dest (AppliedAdd new_contents overwritten_move_content)) delta in
      match ensure_not_directory path fs with
      | inr e => ((fs, delta), Err (any_context (remove_context path) e))
      | inl tt =>
          match remove fs path with
          | (fs, inr e) =>
              let free := remove_failure_was_side_effect_free path (Some original_contents) fs in
              ((fs, set_exact (exact delta && free) delta), Err (any_context (remove_context path) e))
          | (fs, inl tt) =>
              let c := mkChange path
                (AppliedUpdate (Some dest) original_contents overwritten_move_content new_contents) in
              ((fs, set_change dest_write_change_index c delta), Ok (push_modified affected_path acc))
          end
      end
  end.

(** The part of the [Hunk::UpdateFile] branch that rewrites the file in place. *)
Definition apply_in_place (path : path_uri) (affected_path original_contents new_contents : str)
    (acc : AffectedPaths) : Applier AffectedPaths := fun '(fs, delta) =>
  match write_file fs path new_contents with
  | (fs, inr e) => ((fs, set_exact false delta), Err (any_context (write_context path) e))
  | (fs, inl tt) =>
      ((fs, push_change (mkChange path (AppliedUpdate None original_contents None new_contents)) delta),
       Ok (push_modified affected_path acc))
  end.

(** The branch of [Hunk::UpdateFile]. *)
Definition apply_update (m : ApplyPatchFileUpdateMode) (cwd path : path_uri) (affected_path : str)
    (move_path : option str) (chunks : list UpdateFileChunk) (acc : AffectedPaths)
  : Applier AffectedPaths := fun '(fs, delta) =>
  let delta := set_exact (note_existing_path_delta_support path fs (exact delta)) delta in
  match derive_new_contents_from_chunks path chunks m fs with
  | Err e => ((fs, delta), Err (any_patch e))
  | Panic => ((fs, delta), Panic)
  | Ok (original_contents, new_contents) =>
      match move_path with
      | Some dest =>
          match path_join cwd dest with
          | inr e => ((fs, delta), Err (any_bail e))
          | inl dest_uri => apply_move path dest_uri affected_path original_contents new_contents acc (fs, delta)
          end
      | None => apply_in_place path affected_path original_contents new_contents acc (fs, delta)
      end
  end.

(** The body of the loop. *)
Definition apply_hunk (m : ApplyPatchFileUpdateMode) (cwd : path_uri) (hunk : Hunk) (acc : AffectedPaths)
  : Applier AffectedPaths := fun s =>
  let affected_path := hunk_path hunk in
  match resolve_path cwd hunk with
  | inr e => (s, Err (any_bail e))
  | inl path =>
      match hunk with
      | AddFile _ contents => apply_add path affected_path contents acc s
      | DeleteFile _ => apply_delete path affected_path acc s
      | UpdateFile _ move_path chunks => apply_update m cwd path affected_path move_path chunks acc s
      end
  end.

Fixpoint apply_loop (m : ApplyPatchFileUpdateMode) (cwd : path_uri) (hunks : list Hunk) (acc : AffectedPaths)
  : Applier AffectedPaths :=
  match hunks with
  | [] => mret acc
  | hunk :: hunks' => acc' ← apply_hunk m cwd hunk acc; apply_loop m cwd hunks' acc'
  end.

Definition apply_hunks_to_files (m : ApplyPatchFileUpdateMode) (cwd : path_uri) (hunks : list Hunk)
  : Applier AffectedPaths :=
  if is_empty hunks then throw (any_bail (lit "No files were modified."))
  else apply_loop m cwd hunks (mkAffected [] [] []).

End apply.

(** ** Output *)

Section output.
Context {W : Type} `{Write W}.

Fixpoint write_lines (ls : list str) (out : W) : W * io_result unit :=
  match ls with
  | [] => (out, inl tt)
  | l :: ls' =>
      match write_line out l with
      | (out, inl tt) => write_lines ls' out
      | (out, inr e) => (out, inr e)
      end
  end.

Definition summary_lines (affected : AffectedPaths) : list str :=
  [lit "Success. Updated the following files:"]
  ++ (app (lit "A ") <$> added affected)
  ++ (app (lit "M ") <$> modified affected)
  ++ (app (lit "D ") <$> deleted affected).

Definition print_summary (affected : AffectedPaths) (out : W) : W * io_result unit :=
  write_lines (summary_lines affected) out.

End output.

Section entry_points.
Context {FS W : Type} `{PathOps} `{ExecutorFileSystem FS} `{Write W}.

(** [stdout], [stderr] and the file system. *)
Record World := mkWorld { world_out : W; world_err : W; world_fs : FS }.

Definition apply_hunks_with_mode (hunks : list Hunk) (m : ApplyPatchFileUpdateMode) (cwd : path_uri)
  : M World ApplyPatchFailure AppliedPatchDelta := fun w =>
  match apply_hunks_to_files m cwd hunks (world_fs w, empty_delta) with
  | ((fs, delta), Ok affected_paths) =>
      match print_summary affected_paths (world_out w) with
      | (out', inl tt) => (mkWorld out' (world_err w) fs, Ok delta)
      | (out', inr e) => (mkWorld out' (world_err w) fs, Err (mkFailure (error_from_io e) delta))
      end
  | ((fs, delta), Err error) =>
      let msg := any_text error in
      match write_line (world_err w) msg with
      | (err', inr e) => (mkWorld (world_out w) err' fs, Err (mkFailure (error_from_io e) delta))
      | (err', inl tt) =>
          let error := match any_io error with
                       | Some io => error_from_io io
                       | None => IoError msg (mkIo OtherKind msg)
                       end in
          (mkWorld (world_out w) err' fs, Err (mkFailure error delta))
      end
  | ((fs, _), Panic) => (mkWorld (world_out w) (world_err w) fs, Panic)
  end.

Definition parse_error_line (e : ParseError) : str :=
  match e with
  | InvalidPatchError message => lit "Invalid patch: " ++ message
  | InvalidHunkError message line_number =>
      lit "Invalid patch hunk on line " ++ lit (pretty line_number) ++ lit ": " ++ message
  end.

Definition apply_patch_with_mode (patch : str) (m : ApplyPatchFileUpdateMode) (cwd : path_uri)
  : M World ApplyPatchFailure AppliedPatchDelta := fun w =>
  match parse_patch patch with
  | Ok source => apply_hunks_with_mode (args_hunks source) m cwd w
  | Err e =>
      match write_line (world_err w) (parse_error_line e) with
      | (err', inr io) => (mkWorld (world_out w) err' (world_fs w), Err (without_delta (error_from_io io)))
      | (err', inl tt) => (mkWorld (world_out w) err' (world_fs w), Err (without_delta (PatchParseError e)))
      end
  | Panic => (w, Panic)
  end.

Definition apply_patch (patch : str) (cwd : path_uri) : M World ApplyPatchFailure AppliedPatchDelta :=
  apply_patch_with_mode patch NormalizeToLf cwd.

End entry_points.

Arguments World : clear implicits.

(** ** Replaying and reverting a delta *)

Definition replay_change (c : AppliedPatchChange) (v : View) : View :=
  match change c with
  | AppliedAdd content _ => set_view (change_path c) (Some content) v
  | AppliedDelete _ => set_view (change_path c) None v
  | AppliedUpdate None _ _ new_content => set_view (change_path c) (Some new_content) v
  | AppliedUpdate (Some dest) _ _ new_content =>
      set_view (change_path c) None (set_view dest (Some new_content) v)
  end.

Definition revert_change (c : AppliedPatchChange) (v : View) : View :=
  match change c with
  | AppliedAdd _ overwritten => set_view (change_path c) overwritten v
  | AppliedDelete content => set_view (change_path c) (Some content) v
  | AppliedUpdate None old_content _ _ => set_view (change_path c) (Some old_content) v
  | AppliedUpdate (Some dest) old_content overwritten _ =>
      set_view dest overwritten (set_view (change_path c) (Some old_content) v)
  end.

Definition replay (cs : list AppliedPatchChange) (v : View) : View := foldl (fun v c => replay_change c v) v cs.
Definition revert (cs : list AppliedPatchChange) (v : View) : View := foldr revert_change v cs.

(** The old contents a change records are those of the view it is applied to. *)
Definition change_fits (c : AppliedPatchChange) (v : View) : Prop :=
  match change c with
  | AppliedAdd _ overwritten => v (change_path c) = overwritten
  | AppliedDelete content => v (change_path c) = Some content
  | AppliedUpdate None old_content _ _ => v (change_path c) = Some old_content
  | AppliedUpdate (Some dest) old_content overwritten _ =>
      v (change_path c) = Some old_content /\ v dest = overwritten
  end.

(** Every change of a sequence fits the view the earlier ones lead to. *)
Fixpoint fits_all (cs : list AppliedPatchChange) (v : View) : Prop :=
  match cs with
  | [] => True
  | c :: cs' => change_fits c v /\ fits_all cs' (replay_change c v)
  end.

#[export] Instance change_fits_proper c : Proper ((≡) ==> iff) (change_fits c).
Proof. intros v w Hv. unfold change_fits. destruct (change c) as [|?|[d|]]; by rewrite ?(Hv d), (Hv (change_path c)). Qed.

#[export] Instance replay_change_proper c : Proper ((≡) ==> (≡)) (replay_change c).
Proof. intros v w Hv. unfold replay_change. destruct (change c) as [|?|[?|]]; by rewrite Hv. Qed.

#[export] Instance revert_change_proper c : Proper ((≡) ==> (≡)) (revert_change c).
Proof. intros v w Hv. unfold revert_change. destruct (change c) as [|?|[?|]]; by rewrite Hv. Qed.

#[export] Instance replay_proper cs : Proper ((≡) ==> (≡)) (replay cs).
Proof.
  unfold replay. induction cs as [|c cs IH]; intros v w Hv; simpl; [done|]. apply IH. by rewrite Hv.
Qed.

#[export] Instance revert_proper cs : Proper ((≡) ==> (≡)) (revert cs).
Proof. unfold revert. induction cs as [|c cs IH]; intros v w Hv; simpl; [done|]. by rewrite (IH _ _ Hv). Qed.

Lemma replay_app cs cs' v : replay (cs ++ cs') v = replay cs' (replay cs v).
Proof. apply foldl_app. Qed.

Lemma revert_app cs cs' v : revert (cs ++ cs') v = revert cs (revert cs' v).
Proof. apply foldr_app. Qed.

Lemma revert_replay_change c v : change_fits c v -> revert_change c (replay_change c v) ≡ v.
Proof.
  unfold change_fits, revert_change, replay_change. destruct (change c) as [|?|[dest|]]; intros Hf.
  - by rewrite set_view_twice, set_view_id.
  - by rewrite set_view_twice, set_view_id.
  - destruct Hf as [Hp Hd]. rewrite set_view_twice. destruct (decide (dest = change_path c)) as [->|Hn].
    + by rewrite !set_view_twice, set_view_id.
    + rewrite (set_view_comm (change_path c)), set_view_twice by done.
      by rewrite (set_view_id (change_path c)), set_view_id.
  - by rewrite set_view_twice, set_view_id.
Qed.

#[export] Instance fits_all_proper cs : Proper ((≡) ==> iff) (fits_all cs).
Proof.
  induction cs as [|c cs IH]; intros v w Hv; simpl; [done|].
  assert (replay_change c v ≡ replay_change c w) as Hr by by rewrite Hv. by rewrite (IH _ _ Hr), Hv.
Qed.

Lemma fits_all_app cs cs' v : fits_all (cs ++ cs') v <-> fits_all cs v /\ fits_all cs' (replay cs v).
Proof.
  revert v. induction cs as [|c cs IH]; intros v; simpl; [tauto|]. rewrite IH. unfold replay. simpl. tauto.
Qed.

Lemma revert_replay cs v : fits_all cs v -> revert cs (replay cs v) ≡ v.
Proof.
  revert v. induction cs as [|c cs IH]; intros v; simpl; [done|]. intros [Hf Hfs].
  change (replay (c :: cs) v) with (replay cs (replay_change c v)). change (revert (c :: cs)) with (fun w => revert_change c (revert cs w)).
  simpl. by rewrite (IH _ Hfs), revert_replay_change.
Qed.

(** ** The specification of a patch *)

Section spec.
Context `{PathOps}.

Definition spec_update (m : ApplyPatchFileUpdateMode) (cwd path : path_uri) (move_path : option str)
    (chunks : list UpdateFileChunk) (v : View) : option View :=
  match v path with
  | None => None
  | Some old =>
      match derive_new_contents (native_path_string path) chunks m old with
      | Ok new =>
          match move_path with
          | None => Some (set_view path (Some new) v)
          | Some dest =>
              match path_join cwd dest with
              | inl dest => Some (set_view path None (set_view dest (Some new) v))
              | inr _ => None
              end
          end
      | _ => None
      end
  end.

(** What one hunk makes of a view, when it applies. *)
Definition spec_hunk (m : ApplyPatchFileUpdateMode) (cwd : path_uri) (h : Hunk) (v : View) : option View :=
  match resolve_path cwd h with
  | inr _ => None
  | inl path =>
      match h with
      | AddFile _ contents => Some (set_view path (Some contents) v)
      | DeleteFile _ => match v path with Some _ => Some (set_view path None v) | None => None end
      | UpdateFile _ move_path chunks => spec_update m cwd path move_path chunks v
      end
  end.

Fixpoint spec_hunks (m : ApplyPatchFileUpdateMode) (cwd : path_uri) (hs : list Hunk) (v : View) : option View :=
  match hs with
  | [] => Some v
  | h :: hs' => match spec_hunk m cwd h v with Some v' => spec_hunks m cwd hs' v' | None => None end
  end.

#[export] Instance spec_hunk_proper m cwd h : Proper ((≡) ==> (≡)) (spec_hunk m cwd h).
Proof.
  intros v w Hv. unfold spec_hunk, spec_update. destruct (resolve_path cwd h) as [p|]; [|done].
  destruct h as [? c|?|? mv chunks].
  - constructor. by rewrite Hv.
  - rewrite (Hv p). destruct (w p); constructor. by rewrite Hv.
  - rewrite (Hv p). destruct (w p) as [old|]; [|done].
    destruct (derive_new_contents _ _ _ _); [|done..].
    destruct mv as [d|]; [destruct (path_join cwd d)|]; constructor; by rewrite Hv.
Qed.

#[export] Instance spec_hunks_proper m cwd hs : Proper ((≡) ==> (≡)) (spec_hunks m cwd hs).
Proof.
  induction hs as [|h hs IH]; intros v w Hv; simpl; [by constructor|].
  assert (spec_hunk m cwd h v ≡ spec_hunk m cwd h w) as Hs by by rewrite Hv.
  destruct Hs as [v' w' Hv'|]; [by apply IH|done].
Qed.

(** The paths a successful application reports. *)
Definition note_affected (h : Hunk) (acc : AffectedPaths) : AffectedPaths :=
  match h with
  | AddFile _ _ => push_added (hunk_path h) acc
  | DeleteFile _ => push_deleted (hunk_path h) acc
  | UpdateFile _ _ _ => push_modified (hunk_path h) acc
  end.

End spec.

(** ** What each step commits, and what it records *)

Section proofs.
Context {FS : Type} `{FileSystemLaws FS}.

(** From [s] to [s'], as far as [s'] is exact: the changes appended to the delta fit the
    old view and lead from it to the new one. *)
Definition tracked (s s' : FS * AppliedPatchDelta) : Prop :=
  exact s'.2 = true ->
  exact s.2 = true /\
  exists cs, changes s'.2 = changes s.2 ++ cs /\ fits_all cs (view s.1) /\ view s'.1 ≡ replay cs (view s.1).

#[export] Instance tracked_preorder : PreOrder tracked.
Proof.
  split.
  - intros s Hs. split; [done|]. exists []. by rewrite app_nil_r.
  - intros s1 s2 s3 H12 H23 H3. destruct (H23 H3) as (H2' & cs' & Hc' & Hf' & Hv').
    destruct (H12 H2') as (H1' & cs & Hc & Hf & Hv). split; [done|]. exists (cs ++ cs').
    rewrite Hc', Hc, app_assoc. split; [done|]. rewrite replay_app, fits_all_app. split.
    + split; [done|]. by rewrite <- Hv.
    + by rewrite Hv', Hv.
Qed.

Lemma tracked_same fs fs' d d' :
  changes d' = changes d ->
  (exact d' = true -> exact d = true /\ view fs' ≡ view fs) -> tracked (fs, d) (fs', d').
Proof.
  intros Hc Hi He. destruct (Hi He) as [He' Hv]. split; [done|]. exists []. simpl. by rewrite app_nil_r.
Qed.

Lemma tracked_change fs fs' d d' c :
  changes d' = changes d ++ [c] ->
  (exact d' = true -> exact d = true /\ change_fits c (view fs) /\ view fs' ≡ replay_change c (view fs)) ->
  tracked (fs, d) (fs', d').
Proof.
  intros Hc Hi He. destruct (Hi He) as (He' & Hf & Hv). split; [done|]. exists [c]. by split_and!; [|split|].
Qed.

Lemma note_exact p (fs : FS) b :
  note_existing_path_delta_support p fs b = true -> b = true /\ plain_path fs p = true.
Proof.
  unfold note_existing_path_delta_support, plain_path. destruct (get_metadata fs p) as [md|e].
  - by destruct (_ && _).
  - by destruct (is_not_found e).
Qed.

Lemma read_optional_exact p (fs : FS) b o :
  read_optional_file_text_for_delta p fs b = (o, true) ->
  b = true /\ plain_path fs p = true /\ view fs p = o.
Proof.
  unfold read_optional_file_text_for_delta, view. destruct (read_file_text fs p) as [c|e].
  - intros [= <- Hn]. apply note_exact in Hn as [-> Hp]. done.
  - destruct (is_not_found e); [|done]. intros [= <- Hn]. apply note_exact in Hn as [-> Hp]. done.
Qed.

Lemma write_retry_Ok (fs fs' : FS) p c :
  plain_path fs p = true -> write_file_with_missing_parent_retry fs p c = (fs', inl tt) ->
  view fs' ≡ set_view p (Some c) (view fs) /\
  forall q, plain_path fs q = true -> is_Some (view fs q) -> plain_path fs' q = true.
Proof.
  intros Hp. unfold write_file_with_missing_parent_retry.
  destruct (write_file fs p c) as [fs1 [[]|e1]] eqn:E1.
  - intros [= <-]. destruct (write_file_Ok _ _ _ _ Hp E1) as [Hv Hq]. eauto.
  - destruct (is_not_found e1) eqn:En; [|done]. destruct (write_file_NotFound _ _ _ _ _ E1 En) as [Hv1 Hq1].
    destruct (match path_parent p with Some d => create_directory fs1 d | None => (fs1, inl ()) end)
      as [fs2 r2] eqn:E2.
    assert (view fs2 ≡ view fs1 /\ forall q, plain_path fs1 q = true -> is_Some (view fs1 q) \/ q = p ->
              plain_path fs2 q = true) as [Hv2 Hq2].
    { destruct (path_parent p) as [d|] eqn:Ed; [|by simplify_eq].
      destruct (create_directory_view _ _ _ _ E2) as [Hv2 Hq2]. split; [done|]. intros q Hq [?| ->]; auto. }
    destruct r2 as [[]|e2]; [|done]. destruct (write_file fs2 p c) as [fs3 [[]|e3]] eqn:E3; [|done].
    intros [= <-]. destruct (write_file_Ok _ _ _ _ (Hq2 _ (Hq1 _ Hp) (or_intror eq_refl)) E3) as [Hv3 Hq3]. split.
    + by rewrite Hv3, Hv2, Hv1.
    + intros q Hq Hs. apply Hq3, Hq2; [by apply Hq1|left]. by rewrite (Hv1 q).
Qed.

(** A failed removal whose target still reads as before has changed nothing. *)
Lemma remove_free (fs fs' : FS) p e o :
  plain_path fs p = true -> remove fs p = (fs', inr e) ->
  remove_failure_was_side_effect_free p o fs' = true -> view fs' ≡ view fs.
Proof.
  intros Hp He. unfold remove_failure_was_side_effect_free. destruct o as [o|]; [|done]. intros Hf.
  destruct (remove_Err _ _ _ _ Hp He) as [Hv|Hv]; [done|].
  specialize (Hv p). rewrite set_view_eq in Hv. unfold view in Hv. by destruct (read_file_text fs' p).
Qed.

(** [tracked], and on success the specification. *)
Definition step_ok (spec : View -> option View) (expect : AffectedPaths)
    (s : FS * AppliedPatchDelta) (o : (FS * AppliedPatchDelta) * result AffectedPaths AnyError) : Prop :=
  tracked s o.1 /\
  forall acc, o.2 = Ok acc -> acc = expect /\ (exact o.1.2 = true -> spec (view s.1) ≡ Some (view o.1.1)).

Lemma apply_add_ok path ap contents acc s :
  step_ok (fun v => Some (set_view path (Some contents) v)) (push_added ap acc) s (apply_add path ap contents acc s).
Proof.
  destruct s as [fs d]. unfold apply_add, step_ok.
  destruct (read_optional_file_text_for_delta path fs (exact d)) as [ow ex] eqn:Er.
  destruct (write_file_with_missing_parent_retry fs path contents) as [fs' [[]|e]] eqn:Ew; simpl.
  2:{ split; [by apply tracked_same|done]. }
  assert (ex = true -> exact d = true /\ view fs path = ow /\ view fs' ≡ set_view path (Some contents) (view fs)) as Hi.
  { intros ->. apply read_optional_exact in Er as (? & Hp & ?). split_and!; [done..|]. by apply write_retry_Ok. }
  split.
  - eapply tracked_change; [done|]. naive_solver.
  - intros acc' [= <-]. split; [done|]. intros He. constructor. symmetry. by apply Hi.
Qed.

Lemma apply_delete_ok path ap acc s :
  step_ok (fun v => match v path with Some _ => Some (set_view path None v) | None => None end)
    (push_deleted ap acc) s (apply_delete path ap acc s).
Proof.
  destruct s as [fs d]. unfold apply_delete, step_ok.
  set (b := note_existing_path_delta_support path fs (exact d)).
  assert (b = true -> exact d = true /\ plain_path fs path = true) as Hb by apply note_exact.
  change (match read_file_text fs path with inl c => Some c | inr _ => None end) with (view fs path).
  destruct (ensure_not_directory path fs) as [[]|e]; simpl.
  2:{ split; [|done]. destruct (view fs path) eqn:Ev; apply tracked_same; simpl; naive_solver. }
  destruct (remove fs path) as [fs' [[]|e]] eqn:Er; simpl; destruct (view fs path) as [c|] eqn:Ev; simpl.
  - split.
    + eapply tracked_change; [done|]. simpl. intros Hbt. destruct (Hb Hbt). split_and!; [done|done|]. by apply remove_Ok.
    + intros acc' [= <-]. split; [done|]. intros Hbt. constructor. symmetry. apply remove_Ok; naive_solver.
  - split; [by apply tracked_same|]. by intros acc' [= <-].
  - split; [|done]. apply tracked_same; [done|]. simpl. intros [Hbt Hf]%andb_true_iff. destruct (Hb Hbt) as [? Hp].
    split; [done|]. by apply (remove_free _ _ _ _ (Some c) Hp Er).
  - split; [by apply tracked_same|done].
Qed.

(** The removal of the source after a move has written its destination. *)
Lemma apply_move_ok path dest ap old new acc s :
  (exact s.2 = true -> plain_path s.1 path = true) -> view s.1 path = Some old ->
  step_ok (fun v => Some (set_view path None (set_view dest (Some new) v))) (push_modified ap acc) s
    (apply_move path dest ap old new acc s).
Proof.
  destruct s as [fs d]. simpl. intros Hplain Hold. unfold apply_move, step_ok.
  destruct (read_optional_file_text_for_delta dest fs (exact d)) as [ow ex] eqn:Er.
  destruct (write_file_with_missing_parent_retry fs dest new) as [fs1 [[]|e]] eqn:Ew; simpl.
  2:{ split; [by apply tracked_same|done]. }
  assert (ex = true -> exact d = true /\ view fs dest = ow /\
            view fs1 ≡ set_view dest (Some new) (view fs) /\ plain_path fs1 path = true) as Hi.
  { intros ->. apply read_optional_exact in Er as (He & Hp & ?). destruct (write_retry_Ok _ _ _ _ Hp Ew) as [Hv Hq].
    split_and!; [done..|]. apply Hq; [by apply Hplain|]. by rewrite Hold. }
  destruct (ensure_not_directory path fs1) as [[]|e]; simpl.
  2:{ split; [|done]. eapply tracked_change; [done|]. simpl. naive_solver. }
  destruct (remove fs1 path) as [fs2 [[]|e]] eqn:Em; simpl.
  - assert (ex = true -> view fs2 ≡ set_view path None (set_view dest (Some new) (view fs))) as Hv2.
    { intros Hex. destruct (Hi Hex) as (_ & _ & Hv & Hp). by rewrite (remove_Ok _ _ _ Hp Em), Hv. }
    split.
    + eapply tracked_change; [simpl; by rewrite insert_app_r_alt, Nat.sub_diag|]. intros Hex. destruct (Hi Hex) as (? & ? & _). by split_and!; [..|apply Hv2].
    + intros acc' [= <-]. split; [done|]. intros Hex. constructor. symmetry. by apply Hv2.
  - split; [|done]. eapply tracked_change; [done|]. simpl. intros [Hex Hf]%andb_true_iff.
    destruct (Hi Hex) as (? & ? & Hv & Hp). split_and!; [done..|]. by rewrite (remove_free _ _ _ _ (Some old) Hp Em Hf).
Qed.

Lemma apply_in_place_ok path ap old new acc s :
  (exact s.2 = true -> plain_path s.1 path = true) -> view s.1 path = Some old ->
  step_ok (fun v => Some (set_view path (Some new) v)) (push_modified ap acc) s (apply_in_place path ap old new acc s).
Proof.
  destruct s as [fs d]. simpl. intros Hplain Hold. unfold apply_in_place, step_ok.
  destruct (write_file fs path new) as [fs1 [[]|e]] eqn:Ew; simpl.
  2:{ split; [by apply tracked_same|done]. }
  assert (exact d = true -> view fs1 ≡ set_view path (Some new) (view fs)) as Hv.
  { intros Hex. apply write_file_Ok; auto. }
  split.
  - eapply tracked_change; [done|]. simpl. naive_solver.
  - intros acc' [= <-]. split; [done|]. intros Hex. constructor. symmetry. by apply Hv.
Qed.

Lemma step_ok_tracked spec expect s o : step_ok spec expect s o -> tracked s o.1.
Proof. by intros [? _]. Qed.

(** A step may first give up exactness. *)
Lemma step_ok_weaken spec expect fs d b o :
  (b = true -> exact d = true) -> step_ok spec expect (fs, set_exact b d) o -> step_ok spec expect (fs, d) o.
Proof.
  intros Hb [Ht Hs]. split; [|done]. etransitivity; [|exact Ht]. apply tracked_same; [done|]. simpl. naive_solver.
Qed.

Lemma step_ok_fail spec expect fs d b (r : result AffectedPaths AnyError) :
  (b = true -> exact d = true) -> (forall a, r <> Ok a) -> step_ok spec expect (fs, d) ((fs, set_exact b d), r).
Proof.
  intros Hb Hr. split; [|intros a Ha; by destruct (Hr a)]. apply tracked_same; [done|]. simpl. naive_solver.
Qed.

Lemma apply_update_ok m cwd path ap mv chunks acc s :
  step_ok (spec_update m cwd path mv chunks) (push_modified ap acc) s (apply_update m cwd path ap mv chunks acc s).
Proof.
  destruct s as [fs d]. unfold apply_update.
  set (b := note_existing_path_delta_support path fs (exact d)).
  assert (b = true -> exact d = true /\ plain_path fs path = true) as Hb by apply note_exact.
  assert (b = true -> exact d = true) as Hbd by (intros; by apply Hb).
  unfold derive_new_contents_from_chunks. destruct (read_file_text fs path) as [old|e] eqn:Er; [|by apply step_ok_fail].
  assert (view fs path = Some old) as Hv by (unfold view; by rewrite Er).
  destruct (derive_new_contents (native_path_string path) chunks m old) as [new|e|] eqn:Ed; [|by apply step_ok_fail..].
  assert (forall spec : View -> option View, (forall v, v path = Some old -> spec_update m cwd path mv chunks v = spec v) ->
    forall o, step_ok spec (push_modified ap acc) (fs, set_exact b d) o ->
    step_ok (spec_update m cwd path mv chunks) (push_modified ap acc) (fs, d) o) as Hspec.
  { intros spec Heq o Ho. apply (step_ok_weaken _ _ _ _ b); [done|]. destruct Ho as [Ht Hs]. split; [done|].
    intros a Ha. destruct (Hs a Ha) as [? Hv']. split; [done|]. by rewrite Heq. }
  destruct mv as [dest|]; [destruct (path_join cwd dest) as [dest_uri|e] eqn:Ej; [|by apply step_ok_fail]|].
  - eapply Hspec; [|apply apply_move_ok; [apply Hb|done]]. intros v Hv'. unfold spec_update. by rewrite Hv', Ed, Ej.
  - eapply Hspec; [|apply apply_in_place_ok; [apply Hb|done]]. intros v Hv'. unfold spec_update. by rewrite Hv', Ed.
Qed.

Lemma apply_hunk_ok m cwd h acc s :
  step_ok (spec_hunk m cwd h) (note_affected h acc) s (apply_hunk m cwd h acc s).
Proof.
  unfold apply_hunk, spec_hunk. destruct (resolve_path cwd h) as [path|e]; [|by split].
  destruct h as [p c|p|p mv chunks]; [apply apply_add_ok|apply apply_delete_ok|apply apply_update_ok].
Qed.

Lemma apply_loop_ok m cwd hs acc s :
  step_ok (spec_hunks m cwd hs) (foldl (fun a h => note_affected h a) acc hs) s (apply_loop m cwd hs acc s).
Proof.
  revert acc s. induction hs as [|h hs IH]; intros acc s; simpl.
  - split; [done|]. intros a [= <-]. split; [done|]. by constructor.
  - destruct (apply_hunk_ok m cwd h acc s) as [Ht Hs]. unfold mbind, M_bind.
    destruct (apply_hunk m cwd h acc s) as [s1 [a1|e|]]; simpl in *; [|by split..].
    destruct (Hs a1 eq_refl) as [-> Hspec]. destruct (IH (note_affected h acc) s1) as [Ht' Hs']. split; [by etransitivity|].
    intros a Ha. destruct (Hs' a Ha) as [-> Hspec']. split; [done|]. intros Hex.
    destruct (Ht' Hex) as [Hex1 _]. specialize (Hspec Hex1). specialize (Hspec' Hex).
    inversion Hspec as [v w Hvw Hl Hr|]. rewrite <- Hspec'. by rewrite Hvw.
Qed.

Lemma apply_hunks_to_files_ok m cwd hs s :
  step_ok (spec_hunks m cwd hs) (foldl (fun a h => note_affected h a) (mkAffected [] [] []) hs) s
    (apply_hunks_to_files m cwd hs s).
Proof.
  unfold apply_hunks_to_files. destruct (is_empty hs); [by split|apply apply_loop_ok].
Qed.

End proofs.

(** ** The whole application *)

Section whole.
Context {FS W : Type} `{FileSystemLaws FS} `{Write W}.

(** The delta an application returns, with its result or inside its failure. *)
Definition outcome_delta (r : result AppliedPatchDelta ApplyPatchFailure) : option AppliedPatchDelta :=
  match r with Ok d => Some d | Err f => Some (failure_delta f) | Panic => None end.

Lemma apply_hunks_with_mode_delta hs m cwd (w : World FS W) d :
  outcome_delta (apply_hunks_with_mode hs m cwd w).2 = Some d ->
  tracked (world_fs w, empty_delta) (world_fs (apply_hunks_with_mode hs m cwd w).1, d).
Proof.
  unfold apply_hunks_with_mode. destruct (apply_hunks_to_files_ok m cwd hs (world_fs w, empty_delta)) as [Ht _].
  destruct (apply_hunks_to_files m cwd hs (world_fs w, empty_delta)) as [[fs d'] [a|e|]]; simpl in *; [..|done].
  - destruct (print_summary a (world_out w)) as [o [[]|e]]; simpl; by intros [= <-].
  - destruct (write_line (world_err w) (any_text e)) as [o [[]|e']]; simpl; by intros [= <-].
Qed.

Lemma apply_patch_delta text m cwd (w : World FS W) d :
  outcome_delta (apply_patch_with_mode text m cwd w).2 = Some d ->
  tracked (world_fs w, empty_delta) (world_fs (apply_patch_with_mode text m cwd w).1, d).
Proof.
  unfold apply_patch_with_mode. destruct (parse_patch text) as [args|e|]; [apply apply_hunks_with_mode_delta| |done].
  destruct (write_line (world_err w) (parse_error_line e)) as [o [[]|e']]; simpl; by intros [= <-].
Qed.

Lemma apply_hunk_no_panic m cwd h acc (s : FS * AppliedPatchDelta) :
  hunk_context_ok h -> (apply_hunk m cwd h acc s).2 <> Panic.
Proof.
  destruct s as [fs d]. intros Hh. unfold apply_hunk. destruct (resolve_path cwd h) as [path|]; [|done].
  destruct h as [p c|p|p mv chunks].
  - unfold apply_add. by repeat case_match.
  - unfold apply_delete. by repeat case_match.
  - unfold apply_update, derive_new_contents_from_chunks. destruct (read_file_text fs path) as [old|]; [|done].
    pose proof (derive_new_contents_total (native_path_string path) chunks m old Hh).
    destruct (derive_new_contents _ _ _ _) as [new|e|]; [|done..].
    unfold apply_move, apply_in_place. by repeat case_match.
Qed.

Lemma apply_hunks_no_panic m cwd hs (s : FS * AppliedPatchDelta) :
  Forall hunk_context_ok hs -> (apply_hunks_to_files m cwd hs s).2 <> Panic.
Proof.
  intros HF. unfold apply_hunks_to_files. destruct (is_empty hs); [done|].
  generalize (mkAffected [] [] []) as acc. revert s. induction HF as [|h hs Hh HF IH]; intros s acc; [done|].
  simpl. unfold mbind, M_bind. pose proof (apply_hunk_no_panic m cwd h acc s Hh).
  destruct (apply_hunk m cwd h acc s) as [s' [a|e|]]; [apply IH|done..].
Qed.

Lemma apply_patch_no_panic text m cwd (w : World FS W) : (apply_patch_with_mode text m cwd w).2 <> Panic.
Proof.
  unfold apply_patch_with_mode. pose proof (parse_patch_no_panic text).
  destruct (parse_patch text) as [args|e|] eqn:Ep; [| |done].
  - destruct (parse_patch_hunks_ok _ _ Ep) as [_ HF]. unfold apply_hunks_with_mode.
    pose proof (apply_hunks_no_panic m cwd (args_hunks args) (world_fs w, empty_delta) HF).
    destruct (apply_hunks_to_files _ _ _ _) as [[fs d] [a|e|]]; [| |done].
    + by destruct (print_summary a (world_out w)) as [o [[]|?]].
    + by destruct (write_line (world_err w) (any_text e)) as [o [[]|?]].
  - by destruct (write_line (world_err w) (parse_error_line e)) as [o [[]|?]].
Qed.

End whole.

(** ** Properties *)

(** A writer that keeps its lines. *)
#[export] Instance buffer_write : Write (list str) := { write_line b l := (b ++ [l], inl tt) }.

Lemma write_lines_buffer ls (b : list str) : write_lines ls b = (b ++ ls, inl tt).
Proof.
  revert b. induction ls as [|l ls IH]; intros b; simpl; [by rewrite app_nil_r|]. by rewrite IH, <- app_assoc.
Qed.

(** C1: applying a patch always returns, with a delta, on success and on failure alike.
    When the delta says it is exact, replaying its changes on the files as they were
    gives the files as they are, and reverting them restores the files as they were. *)
Theorem apply_patch_delta_exact {FS W : Type} `{FileSystemLaws FS} `{Write W}
    (text : str) (m : ApplyPatchFileUpdateMode) (cwd : path_uri) (w : World FS W) :
  exists d, outcome_delta (apply_patch_with_mode text m cwd w).2 = Some d /\
    (exact d = true ->
       view (world_fs (apply_patch_with_mode text m cwd w).1) ≡ replay (changes d) (view (world_fs w)) /\
       revert (changes d) (view (world_fs (apply_patch_with_mode text m cwd w).1)) ≡ view (world_fs w)).
Proof.
  pose proof (apply_patch_no_panic text m cwd w) as Hp. pose proof (apply_patch_delta text m cwd w) as Ht.
  destruct (apply_patch_with_mode text m cwd w) as [w' r]. simpl in *.
  destruct (outcome_delta r) as [d|] eqn:Ed; [|by destruct r]. exists d. split; [done|]. intros Hex.
  destruct (Ht d eq_refl Hex) as (_ & cs & Hc & Hf & Hv). simpl in *. subst cs. split; [done|].
  by rewrite Hv, revert_replay.
Qed.

Definition sample_world : World Mem.mem_fs (list str) :=
  mkWorld [] [] (Mem.mkMem (<[lit "/w/f" := lit "a" ++ [LF]]> ∅) {[ lit "/w" ]}).

(** Updates and moves [f], adds a file below a new directory, then fails on a missing one. *)
Definition sample_patch : str :=
  join [LF] [lit "*** Begin Patch"; lit "*** Update File: f"; lit "*** Move to: g"; lit "-a"; lit "+b";
             lit "*** Add File: d/h"; lit "+new"; lit "*** Update File: k"; lit "+x"; lit "*** End Patch"].

Definition sample_run : World Mem.mem_fs (list str) * result AppliedPatchDelta ApplyPatchFailure :=
  apply_patch_with_mode sample_patch NormalizeToLf (lit "/w") sample_world.

Lemma apply_patch_delta_exact_witness :
  exact (default (set_exact false empty_delta) (outcome_delta sample_run.2)) = true /\
  exists d, outcome_delta sample_run.2 = Some d /\
    (exact d = true ->
       view (world_fs sample_run.1) ≡ replay (changes d) (view (world_fs sample_world)) /\
       revert (changes d) (view (world_fs sample_run.1)) ≡ view (world_fs sample_world)).
Proof.
  split; [vm_compute; reflexivity|].
  apply (apply_patch_delta_exact sample_patch NormalizeToLf (lit "/w") sample_world).
Defined.

(** C4: an application of hunks that succeeds, with an exact delta, has done what the
    specification says, hunk after hunk, and reports each hunk's path in order. *)
Theorem apply_hunks_refines_spec {FS : Type} `{FileSystemLaws FS}
    (m : ApplyPatchFileUpdateMode) (cwd : path_uri) (hs : list Hunk) (fs fs' : FS)
    (d : AppliedPatchDelta) (affected : AffectedPaths) :
  apply_hunks_to_files m cwd hs (fs, empty_delta) = ((fs', d), Ok affected) -> exact d = true ->
  spec_hunks m cwd hs (view fs) ≡ Some (view fs') /\
  affected = foldl (fun a h => note_affected h a) (mkAffected [] [] []) hs.
Proof.
  intros Ha Hex. destruct (apply_hunks_to_files_ok m cwd hs (fs, empty_delta)) as [_ Hs].
  rewrite Ha in Hs. destruct (Hs affected eq_refl) as [-> Hv]. by split; [apply Hv|].
Qed.

Definition sample_hunks : list Hunk :=
  [UpdateFile (lit "f") (Some (lit "g")) [push_new_line (lit "b") (push_old_line (lit "a") default_chunk)];
   AddFile (lit "d/h") (lit "new" ++ [LF]); DeleteFile (lit "g")].

Definition sample_outcome : (Mem.mem_fs * AppliedPatchDelta) * result AffectedPaths AnyError :=
  apply_hunks_to_files NormalizeToLf (lit "/w") sample_hunks (world_fs sample_world, empty_delta).

Lemma apply_hunks_refines_spec_witness :
  view sample_outcome.1.1 (lit "/w/d/h") = Some (lit "new" ++ [LF]) /\
  spec_hunks NormalizeToLf (lit "/w") sample_hunks (view (world_fs sample_world)) ≡ Some (view sample_outcome.1.1) /\
  mkAffected [lit "d/h"] [lit "g"] [lit "g"] =
    foldl (fun a h => note_affected h a) (mkAffected [] [] []) sample_hunks.
Proof.
  split; [vm_compute; reflexivity|].
  apply (apply_hunks_refines_spec NormalizeToLf (lit "/w") sample_hunks (world_fs sample_world)
           sample_outcome.1.1 sample_outcome.1.2); vm_compute; reflexivity.
Defined.

(** The output of an application: on success the summary of the affected paths goes
    to standard output and nothing to standard error; on failure one line goes to standard
    error and nothing to standard output. *)
Theorem apply_patch_output {FS : Type} `{PathOps} `{ExecutorFileSystem FS}
    (text : str) (m : ApplyPatchFileUpdateMode) (cwd : path_uri) (w : World FS (list str)) :
  match apply_patch_with_mode text m cwd w with
  | (w', Ok _) => exists args affected,
      parse_patch text = Ok args /\
      (apply_hunks_to_files m cwd (args_hunks args) (world_fs w, empty_delta)).2 = Ok affected /\
      world_out w' = world_out w ++ summary_lines affected /\ world_err w' = world_err w
  | (w', Err _) => exists line, world_err w' = world_err w ++ [line] /\ world_out w' = world_out w
  | (_, Panic) => False
  end.
Proof.
  pose proof (apply_patch_no_panic text m cwd w) as Hp. unfold apply_patch_with_mode in *.
  destruct (parse_patch text) as [args|e|] eqn:Ep; [|simpl; eauto|done].
  unfold apply_hunks_with_mode, print_summary in *.
  destruct (apply_hunks_to_files m cwd (args_hunks args) (world_fs w, empty_delta)) as [[fs d] [a|e|]] eqn:Ea; [| |done].
  - rewrite write_lines_buffer. simpl. exists args, a. by rewrite Ea.
  - simpl. eauto.
Qed.

(** A move whose destination is the file itself loses the file: the new contents are
    written, and then the path is removed as the source of the move. *)
Theorem self_move_deletes_file {FS : Type} `{FileSystemLaws FS}
    (m : ApplyPatchFileUpdateMode) (cwd : path_uri) (path dest : str) (chunks : list UpdateFileChunk)
    (p : path_uri) (fs fs' : FS) (d : AppliedPatchDelta) (affected : AffectedPaths) :
  path_join cwd path = inl p -> path_join cwd dest = inl p ->
  apply_hunks_to_files m cwd [UpdateFile path (Some dest) chunks] (fs, empty_delta) = ((fs', d), Ok affected) ->
  exact d = true ->
  is_Some (view fs p) /\ view fs' p = None.
Proof.
  intros Hp Hd Ha Hex. destruct (apply_hunks_to_files_ok m cwd [UpdateFile path (Some dest) chunks] (fs, empty_delta)) as [_ Hs].
  rewrite Ha in Hs. destruct (Hs affected eq_refl) as [_ Hv]. specialize (Hv Hex). simpl in Hv.
  unfold spec_hunk, resolve_path, spec_update in Hv. simpl in Hv. rewrite Hp, Hd in Hv.
  destruct (view fs p) as [old|]; [|inversion Hv]. split; [by eexists|].
  destruct (derive_new_contents _ _ _ _) as [new|e|]; [|inversion Hv..].
  inversion Hv as [? ? Heq|]. subst. rewrite <- (Heq p). by apply set_view_eq.
Qed.

Definition self_move : Hunk :=
  UpdateFile (lit "f") (Some (lit "f")) [push_new_line (lit "b") (push_old_line (lit "a") default_chunk)].

Definition self_move_outcome : (Mem.mem_fs * AppliedPatchDelta) * result AffectedPaths AnyError :=
  apply_hunks_to_files NormalizeToLf (lit "/w") [self_move] (world_fs sample_world, empty_delta).

Lemma self_move_deletes_file_witness :
  is_Some (view (world_fs sample_world) (lit "/w/f")) /\ view self_move_outcome.1.1 (lit "/w/f") = None.
Proof.
  apply (self_move_deletes_file NormalizeToLf (lit "/w") (lit "f") (lit "f")
           [push_new_line (lit "b") (push_old_line (lit "a") default_chunk)] (lit "/w/f") (world_fs sample_world)
           self_move_outcome.1.1 self_move_outcome.1.2 (mkAffected [] [lit "f"] [])); vm_compute; reflexivity.
Defined.
