(* ===== verification/Invocation.v ===== *)
(** * Recognising and verifying an [apply_patch] invocation: [apply-patch/src/invocation.rs]

    Which argument vectors are patches, and the changes a patch would make, computed
    before it is applied so that they can be shown and approved.  The main theorem says
    when the changes that were verified are the changes that are then made. *)

From stdpp Require Import base list strings gmap.
From S2P Require Import Prelude PatchParser SeekSequence FileSystem FileUpdate ApplyHunks.

(** ** Shells *)

Definition APPLY_PATCH_COMMANDS : list str := [lit "apply_patch"; lit "applypatch"].

Inductive ApplyPatchShell : Type := Unix | PowerShell | Cmd.

(** [path.split(predicate)]. *)
Fixpoint split_where (p : N -> bool) (s : str) : list str :=
  match s with
  | [] => [[]]
  | c :: s' =>
      if p c then [] :: split_where p s'
      else match split_where p s' with
           | [] => [[c]]
           | q :: qs => (c :: q) :: qs
           end
  end.

Definition path_segments (convention : PathConvention) (path : str) : list str :=
  split_where (fun c => match convention with
                        | Posix => char_eqb c 47
                        | Windows => char_eqb c 47 || char_eqb c 92
                        end) path.

Definition eq_ignore_ascii_case (a b : str) : bool := str_eqb (to_ascii_lowercase a) (to_ascii_lowercase b).

Definition classify_shell_name (shell : str) (convention : PathConvention) : option str :=
  match last (path_segments convention shell) with
  | None => None
  | Some basename =>
      let stem := match rsplit_once 46 basename with
                  | Some (stem, _) => if is_empty stem then basename else stem
                  | None => basename
                  end in
      Some (to_ascii_lowercase stem)
  end.

Definition classify_shell (shell flag : str) (convention : PathConvention) : option ApplyPatchShell :=
  match classify_shell_name shell convention with
  | None => None
  | Some name =>
      if mem_str name [lit "bash"; lit "zsh"; lit "sh"] && mem_str flag [lit "-lc"; lit "-c"] then Some Unix
      else if mem_str name [lit "pwsh"; lit "powershell"] && eq_ignore_ascii_case flag (lit "-command")
      then Some PowerShell
      else if str_eqb name (lit "cmd") && eq_ignore_ascii_case flag (lit "/c") then Some Cmd
      else None
  end.

Definition can_skip_flag (shell flag : str) (convention : PathConvention) : bool :=
  is_some_and (classify_shell_name shell convention) (fun name =>
    mem_str name [lit "pwsh"; lit "powershell"] && eq_ignore_ascii_case flag (lit "-noprofile")).

Definition parse_shell_script `{PathOps} (argv : list str) (cwd : path_uri) : option (ApplyPatchShell * str) :=
  match infer_path_convention cwd with
  | None => None
  | Some convention =>
      match argv with
      | [shell; flag; script] =>
          match classify_shell shell flag convention with
          | Some shell_type => Some (shell_type, script)
          | None => None
          end
      | [shell; skip_flag; flag; script] =>
          if negb (can_skip_flag shell skip_flag convention) then None
          else match classify_shell shell flag convention with
               | Some shell_type => Some (shell_type, script)
               | None => None
               end
      | _ => None
      end
  end.

(** ** The heredoc of a shell script *)

Inductive ExtractHeredocError : Type :=
| CommandDidNotStartWithApplyPatch
| FailedToLoadBashGrammar
| HeredocNotUtf8
| FailedToParsePatchIntoAst
| FailedToFindHeredocBody.

(** The captures of the query that the code reads, by name. *)
Inductive CaptureName : Type := heredoc | cd_path | cd_raw_string | other_capture.

(** tree-sitter: for a script, the matches of [APPLY_PATCH_QUERY], each with its captures
    in order; a capture's text is [None] when it is not UTF-8. *)
Class BashQuery := {
  query_matches : str -> result (list (list (CaptureName * option str))) ExtractHeredocError
}.

Definition apostrophe : str := [39%N].

(** The loop over the captures of one match: the heredoc and the directory seen so far. *)
Fixpoint read_captures (captures : list (CaptureName * option str)) (heredoc_text dir : option str)
  : result (option str * option str) ExtractHeredocError :=
  match captures with
  | [] => Ok (heredoc_text, dir)
  | (other_capture, _) :: rest => read_captures rest heredoc_text dir
  | (_, None) :: _ => Err HeredocNotUtf8
  | (heredoc, Some text) :: rest => read_captures rest (Some (trim_end_matches (char_eqb LF) text)) dir
  | (cd_path, Some text) :: rest => read_captures rest heredoc_text (Some text)
  | (cd_raw_string, Some raw) :: rest =>
      let trimmed := match strip_prefix apostrophe raw with
                     | Some s => match strip_suffix apostrophe s with Some s => s | None => raw end
                     | None => raw
                     end in
      read_captures rest heredoc_text (Some trimmed)
  end.

Fixpoint first_heredoc (matches : list (list (CaptureName * option str)))
  : result (str * option str) ExtractHeredocError :=
  match matches with
  | [] => Err CommandDidNotStartWithApplyPatch
  | m :: matches' =>
      let? (heredoc_text, dir) := read_captures m None None in
      match heredoc_text with
      | Some text => Ok (text, dir)
      | None => first_heredoc matches'
      end
  end.

Definition extract_apply_patch_from_bash `{BashQuery} (src : str) : result (str * option str) ExtractHeredocError :=
  let? matches := query_matches src in first_heredoc matches.

Definition extract_apply_patch_from_shell `{BashQuery} (shell : ApplyPatchShell) (script : str)
  : result (str * option str) ExtractHeredocError :=
  match shell with Unix | PowerShell | Cmd => extract_apply_patch_from_bash script end.

Inductive MaybeApplyPatch : Type :=
| Body (args : ApplyPatchArgs)
| ShellParseError (e : ExtractHeredocError)
| MaybePatchParseError (e : ParseError)
| NotApplyPatch.

Definition set_workdir (workdir : option str) (args : ApplyPatchArgs) : ApplyPatchArgs :=
  mkArgs (args_patch args) (args_hunks args) workdir (args_environment_id args).

(** The shell heredoc form. *)
Definition parse_shell_patch `{PathOps} `{BashQuery} (argv : list str) (cwd : path_uri)
  : result MaybeApplyPatch Empty_set :=
  match parse_shell_script argv cwd with
  | Some (shell, script) =>
      match extract_apply_patch_from_shell shell script with
      | Ok (body, workdir) =>
          match parse_patch body with
          | Ok source => Ok (Body (set_workdir workdir source))
          | Err e => Ok (MaybePatchParseError e)
          | Panic => Panic
          end
      | Err CommandDidNotStartWithApplyPatch => Ok NotApplyPatch
      | Err e => Ok (ShellParseError e)
      | Panic => Panic
      end
  | None => Ok NotApplyPatch
  end.

Definition maybe_parse_apply_patch `{PathOps} `{BashQuery} (argv : list str) (cwd : path_uri)
  : result MaybeApplyPatch Empty_set :=
  match argv with
  | [cmd; body] =>
      if mem_str cmd APPLY_PATCH_COMMANDS then
        match parse_patch body with
        | Ok source => Ok (Body source)
        | Err e => Ok (MaybePatchParseError e)
        | Panic => Panic
        end
      else parse_shell_patch argv cwd
  | _ => parse_shell_patch argv cwd
  end.

(** ** Verification *)

(** [ApplyPatchFileChange], its variants [Add], [Delete] and [Update]. *)
Inductive ApplyPatchFileChange : Type :=
| ChangeAdd (content : str)
| ChangeDelete (content : str)
| ChangeUpdate (unified_diff : str) (move_path : option path_uri) (new_content : str).

Record ApplyPatchAction := mkAction {
  action_changes : gmap str ApplyPatchFileChange;
  update_file_mode : ApplyPatchFileUpdateMode;
  action_patch : str;
  action_cwd : path_uri
}.

Inductive MaybeApplyPatchVerified : Type :=
| VerifiedBody (action : ApplyPatchAction)
| VerifiedShellParseError (e : ExtractHeredocError)
| CorrectnessError (e : ApplyPatchError)
| VerifiedNotApplyPatch.

(** The [similar] crate: the unified diff of two texts with a number of context lines. *)
Class TextDiff := { unified_diff_text : str -> str -> nat -> str }.

Section verify.
Context {FS : Type} `{PathOps} `{ExecutorFileSystem FS} `{TextDiff}.

(** The diff, the original contents and the new contents. *)
Definition unified_diff_from_chunks_with_context_and_mode (path : path_uri) (chunks : list UpdateFileChunk)
    (context : nat) (m : ApplyPatchFileUpdateMode) (fs : FS) : result (str * str * str) ApplyPatchError :=
  let? (original_contents, new_contents) := derive_new_contents_from_chunks path chunks m fs in
  Ok (unified_diff_text original_contents new_contents context, original_contents, new_contents).

Definition unified_diff_from_chunks_with_mode (path : path_uri) (chunks : list UpdateFileChunk)
    (m : ApplyPatchFileUpdateMode) (fs : FS) : result (str * str * str) ApplyPatchError :=
  unified_diff_from_chunks_with_context_and_mode path chunks 1 m fs.

Definition join_path (cwd : path_uri) (p : str) : result path_uri ApplyPatchError :=
  match path_join cwd p with inl q => Ok q | inr e => Err (PathUriError e) end.

Definition join_option (cwd : path_uri) (p : option str) : result (option path_uri) ApplyPatchError :=
  match p with
  | Some p => let? q := join_path cwd p in Ok (Some q)
  | None => Ok None
  end.

Definition msg_multiple (path : path_uri) : str := lit "multiple operations target " ++ native_path_string path.

(** The change one hunk contributes. *)
Definition verify_hunk (m : ApplyPatchFileUpdateMode) (cwd : path_uri) (fs : FS) (path : path_uri) (hunk : Hunk)
  : result ApplyPatchFileChange ApplyPatchError :=
  match hunk with
  | AddFile _ contents => Ok (ChangeAdd contents)
  | DeleteFile _ =>
      match read_file_text fs path with
      | inl content => Ok (ChangeDelete content)
      | inr source => Err (IoError (lit "Failed to read " ++ native_path_string path) source)
      end
  | UpdateFile _ move_path chunks =>
      let? (unified_diff, _, contents) := unified_diff_from_chunks_with_mode path chunks m fs in
      let? move_path := join_option cwd move_path in
      Ok (ChangeUpdate unified_diff move_path contents)
  end.

Fixpoint verify_loop (m : ApplyPatchFileUpdateMode) (cwd : path_uri) (fs : FS) (hunks : list Hunk)
    (changes : gmap str ApplyPatchFileChange) : result (gmap str ApplyPatchFileChange) ApplyPatchError :=
  match hunks with
  | [] => Ok changes
  | hunk :: hunks' =>
      let? path := join_path cwd (hunk_source_path hunk) in
      match changes !! path with
      | Some _ => Err (PatchParseError (InvalidPatchError (msg_multiple path)))
      | None =>
          let? c := verify_hunk m cwd fs path hunk in
          verify_loop m cwd fs hunks' (<[path := c]> changes)
      end
  end.

Definition try_verify_apply_patch_args (args : ApplyPatchArgs) (cwd : path_uri) (m : ApplyPatchFileUpdateMode) (fs : FS)
  : result ApplyPatchAction ApplyPatchError :=
  let? workdir := join_option cwd (args_workdir args) in
  let effective_cwd := default cwd workdir in
  let? changes := verify_loop m effective_cwd fs (args_hunks args) ∅ in
  Ok (mkAction changes m (args_patch args) effective_cwd).

Definition verify_apply_patch_args_with_mode (args : ApplyPatchArgs) (cwd : path_uri) (m : ApplyPatchFileUpdateMode)
    (fs : FS) : result MaybeApplyPatchVerified Empty_set :=
  match try_verify_apply_patch_args args cwd m fs with
  | Ok action => Ok (VerifiedBody action)
  | Err e => Ok (CorrectnessError e)
  | Panic => Panic
  end.

Definition is_patch (text : str) : bool := match parse_patch text with Ok _ => true | _ => false end.

(** A raw patch given as the whole command, or as the whole script. *)
Definition implicit_invocation (argv : list str) (cwd : path_uri) : bool :=
  match argv with [body] => is_patch body | _ => false end ||
  match parse_shell_script argv cwd with Some (_, script) => is_patch script | None => false end.

Definition maybe_parse_apply_patch_verified_with_mode `{BashQuery} (argv : list str) (cwd : path_uri)
    (m : ApplyPatchFileUpdateMode) (fs : FS) : result MaybeApplyPatchVerified Empty_set :=
  if implicit_invocation argv cwd then Ok (CorrectnessError ImplicitInvocation)
  else
    let? parsed := maybe_parse_apply_patch argv cwd in
    match parsed with
    | Body args => verify_apply_patch_args_with_mode args cwd m fs
    | ShellParseError e => Ok (VerifiedShellParseError e)
    | MaybePatchParseError e => Ok (CorrectnessError (PatchParseError e))
    | NotApplyPatch => Ok VerifiedNotApplyPatch
    end.

End verify.

(** ** Verified changes and applied changes *)

(** What a verified change promises of the files afterwards. *)
Definition realized (path : path_uri) (c : ApplyPatchFileChange) (v : View) : Prop :=
  match c with
  | ChangeAdd content => v path = Some content
  | ChangeDelete _ => v path = None
  | ChangeUpdate _ None new_content => v path = Some new_content
  | ChangeUpdate _ (Some dest) new_content => v path = None /\ v dest = Some new_content
  end.

Definition moves_to (c : ApplyPatchFileChange) (dest : path_uri) : Prop :=
  match c with ChangeUpdate _ (Some d) _ => d = dest | _ => False end.

(** Every move ends at a path no other change reads or writes. *)
Definition moves_apart (cs : gmap str ApplyPatchFileChange) : Prop :=
  forall p c dest, cs !! p = Some c -> moves_to c dest ->
    cs !! dest = None /\ forall p' c', cs !! p' = Some c' -> moves_to c' dest -> p' = p.

(** A path that no change names. *)
Definition untouched (cs : gmap str ApplyPatchFileChange) (q : path_uri) : Prop :=
  cs !! q = None /\ forall p c, cs !! p = Some c -> ~ moves_to c q.

Definition all_realized (cs : gmap str ApplyPatchFileChange) (v : View) : Prop :=
  forall p c, cs !! p = Some c -> realized p c v.

Section agree.
Context {FS : Type} `{PathOps} `{ExecutorFileSystem FS} `{TextDiff}.

#[export] Instance realized_proper p c : Proper ((≡) ==> iff) (realized p c).
Proof. intros v w Hv. unfold realized. destruct c as [|?|? [d|]]; by rewrite ?(Hv p), ?(Hv d). Qed.

(** What one change does to a view, on both sides. *)
Definition change_view (path : path_uri) (c : ApplyPatchFileChange) (v : View) : View :=
  match c with
  | ChangeAdd content => set_view path (Some content) v
  | ChangeDelete _ => set_view path None v
  | ChangeUpdate _ None new_content => set_view path (Some new_content) v
  | ChangeUpdate _ (Some dest) new_content => set_view path None (set_view dest (Some new_content) v)
  end.

Lemma change_view_spec m cwd (fs : FS) h path c v v' :
  path_join cwd (hunk_source_path h) = inl path -> verify_hunk m cwd fs path h = Ok c -> v path = view fs path ->
  spec_hunk m cwd h v = Some v' -> v' = change_view path c v.
Proof.
  intros Hj Hc Hv. unfold spec_hunk, resolve_path. rewrite Hj. destruct h as [p0 content|p0|p0 mv chunks]; simpl in Hc.
  - simplify_eq. simpl. by intros [= <-].
  - unfold view in Hv. destruct (read_file_text fs path) as [t|]; simplify_eq. rewrite Hv. by intros [= <-].
  - unfold spec_update. unfold unified_diff_from_chunks_with_mode, unified_diff_from_chunks_with_context_and_mode,
      derive_new_contents_from_chunks in Hc.
    unfold view in Hv. rewrite Hv. destruct (read_file_text fs path) as [old|]; simplify_eq.
    destruct (derive_new_contents _ _ _ _) as [new|e|]; simplify_eq/=.
    destruct mv as [d|]; simpl in Hc; [|simplify_eq; by intros [= <-]].
    unfold join_path in Hc. destruct (path_join cwd d); simplify_eq/=. by intros [= <-].
Qed.

Lemma realized_new path c v : ~ moves_to c path -> realized path c (change_view path c v).
Proof.
  destruct c as [|?|? [d|]]; simpl; intros Hn; rewrite ?set_view_eq; try done.
  split; [done|]. by rewrite set_view_ne, set_view_eq.
Qed.

Lemma change_view_other path c v q : q <> path -> ~ moves_to c q -> change_view path c v q = v q.
Proof. destruct c as [|?|? [d|]]; simpl; intros Hp Hd; rewrite !set_view_ne; by auto. Qed.

Lemma realized_kept path c p0 c0 v :
  p0 <> path -> ~ moves_to c p0 -> ~ moves_to c0 path -> (forall d, moves_to c0 d -> ~ moves_to c d) ->
  realized p0 c0 v -> realized p0 c0 (change_view path c v).
Proof.
  intros Hp Hm Hm0 Hd. destruct c0 as [|?|? [d0|]]; simpl in *; rewrite ?(change_view_other path c v p0) by done; try done.
  rewrite (change_view_other path c v d0); [done|by auto|by apply Hd].
Qed.

Lemma moves_apart_sub cs cs' : cs ⊆ cs' -> moves_apart cs' -> moves_apart cs.
Proof.
  intros Hsub Ha p c dest Hp Hm. destruct (Ha p c dest) as [Hd Hu]; [by eapply lookup_weaken|done|]. split.
  - by eapply lookup_weaken_None.
  - intros p' c' Hp'. apply Hu. by eapply lookup_weaken.
Qed.

Lemma verify_loop_sub m cwd (fs : FS) hs cs cs' : verify_loop m cwd fs hs cs = Ok cs' -> cs ⊆ cs'.
Proof.
  revert cs. induction hs as [|h hs IH]; intros cs Hv; simpl in Hv; [by simplify_eq|].
  destruct (join_path _ _) as [path|?|]; simplify_eq/=. destruct (cs !! path) eqn:Ep; simplify_eq.
  destruct (verify_hunk _ _ _ _ _); simplify_eq/=. etrans; [by apply insert_subseteq|by eapply IH].
Qed.

Lemma all_realized_insert path c cs v :
  cs !! path = None -> moves_apart (<[path := c]> cs) -> all_realized cs v ->
  all_realized (<[path := c]> cs) (change_view path c v).
Proof.
  intros Hn Ha Hr p0 c0 [[<- <-]|[Hne Hp0]]%lookup_insert_Some.
  - apply realized_new. intros Hm. destruct (Ha path c path) as [Hd _]; [by rewrite lookup_insert_eq|done|].
    by rewrite lookup_insert_eq in Hd.
  - assert (<[path:=c]> cs !! p0 = Some c0) as Hp0' by by rewrite lookup_insert_ne.
    apply realized_kept; [done| | | |by apply Hr].
    + intros Hm. destruct (Ha path c p0) as [Hd _]; [by rewrite lookup_insert_eq|done|]. by rewrite Hp0' in Hd.
    + intros Hm. destruct (Ha p0 c0 path) as [Hd _]; [done..|]. by rewrite lookup_insert_eq in Hd.
    + intros d Hm Hm'. destruct (Ha p0 c0 d) as [_ Hu]; [done..|].
      by apply Hne, (Hu path c); [rewrite lookup_insert_eq|].
Qed.

Lemma verified_then_applied m cwd (fs : FS) hs cs cs' v v' :
  verify_loop m cwd fs hs cs = Ok cs' -> spec_hunks m cwd hs v = Some v' -> moves_apart cs' ->
  all_realized cs v -> (forall q, untouched cs q -> v q = view fs q) ->
  all_realized cs' v' /\ forall q, untouched cs' q -> v' q = view fs q.
Proof.
  revert cs v. induction hs as [|h hs IH]; intros cs v Hv Hs Ha Hr Hu; simpl in Hv, Hs; [by simplify_eq|].
  unfold join_path in Hv. destruct (path_join cwd (hunk_source_path h)) as [path|] eqn:Ej; simplify_eq/=.
  destruct (cs !! path) eqn:Ep; simplify_eq. destruct (verify_hunk m cwd fs path h) as [c|?|] eqn:Ec; simplify_eq/=.
  destruct (spec_hunk m cwd h v) as [v1|] eqn:Es; [|done].
  pose proof (moves_apart_sub _ _ (verify_loop_sub _ _ _ _ _ _ Hv) Ha) as Ha1.
  assert (forall q, untouched (<[path:=c]> cs) q -> untouched cs q /\ q <> path /\ ~ moves_to c q) as Hun.
  { intros q [Hq Hm]. apply lookup_insert_None in Hq as [Hq Hne]. split_and!; [|done|].
    - split; [done|]. intros p0 c0 Hp0. apply (Hm p0). rewrite lookup_insert_ne; [done|congruence].
    - apply (Hm path). by rewrite lookup_insert_eq. }
  assert (v path = view fs path) as Hvp.
  { apply Hu. split; [done|]. intros p0 c0 Hp0 Hm. destruct (Ha1 p0 c0 path) as [Hd _]; [|done|].
    - rewrite lookup_insert_ne; [done|congruence].
    - by rewrite lookup_insert_eq in Hd. }
  pose proof (change_view_spec _ _ _ _ _ _ _ _ Ej Ec Hvp Es) as ->.
  apply (IH _ _ Hv Hs Ha).
  - by apply all_realized_insert.
  - intros q Hq. destruct (Hun q Hq) as (Hq' & Hne & Hm). rewrite change_view_other by done. by apply Hu.
Qed.

End agree.

(** ** Properties *)

(** C2: what was verified is what happens: when a verified patch is applied to the files it was
    verified against, successfully and with an exact delta, every verified change is realized
    and no other path is touched, provided that no move ends at a path that any change of the
    patch names, the source of the move itself included, or where another move ends.  (A move
    of a file onto itself deletes it: [self_move_deletes_file].) *)
Theorem verified_changes_are_applied {FS : Type} `{FileSystemLaws FS} `{TextDiff}
    (args : ApplyPatchArgs) (cwd : path_uri) (m : ApplyPatchFileUpdateMode) (fs fs' : FS)
    (action : ApplyPatchAction) (d : AppliedPatchDelta) (affected : AffectedPaths) :
  try_verify_apply_patch_args args cwd m fs = Ok action -> moves_apart (action_changes action) ->
  apply_hunks_to_files (update_file_mode action) (action_cwd action) (args_hunks args) (fs, empty_delta)
    = ((fs', d), Ok affected) ->
  exact d = true ->
  all_realized (action_changes action) (view fs') /\
  forall q, untouched (action_changes action) q -> view fs' q = view fs q.
Proof.
  unfold try_verify_apply_patch_args. intros Hv Ha Hr Hex.
  destruct (join_option cwd (args_workdir args)) as [wd|?|]; simplify_eq/=.
  destruct (verify_loop m (default cwd wd) fs (args_hunks args) ∅) as [cs|?|] eqn:Ev; simplify_eq/=.
  destruct (apply_hunks_to_files_ok m (default cwd wd) (args_hunks args) (fs, empty_delta)) as [_ Hs].
  rewrite Hr in Hs. destruct (Hs affected eq_refl) as [_ Hspec]. specialize (Hspec Hex). simpl in Hspec.
  destruct (spec_hunks m (default cwd wd) (args_hunks args) (view fs)) as [v'|] eqn:Es; inversion Hspec as [? ? Heq|]; subst.
  destruct (verified_then_applied _ _ _ _ _ _ _ _ Ev Es Ha) as [Hall Hun]; [by intros ? ? ?|by intros ? [_ _]|].
  split; [intros p c Hp; rewrite <- Heq; by apply Hall|intros q Hq; rewrite <- (Heq q); by apply Hun].
Qed.

#[local] Instance plain_diff : TextDiff := { unified_diff_text old new _ := old ++ new }.

Definition sample_args : ApplyPatchArgs := mkArgs [] (removelast sample_hunks) None None.

Definition sample_action : ApplyPatchAction :=
  match try_verify_apply_patch_args sample_args (lit "/w") NormalizeToLf (world_fs sample_world) with
  | Ok a => a
  | _ => mkAction ∅ NormalizeToLf [] []
  end.

Definition sample_applied : (Mem.mem_fs * AppliedPatchDelta) * result AffectedPaths AnyError :=
  apply_hunks_to_files NormalizeToLf (lit "/w") (args_hunks sample_args) (world_fs sample_world, empty_delta).

Lemma verified_changes_are_applied_witness :
  action_changes sample_action !! lit "/w/f" =
    Some (ChangeUpdate (lit "a" ++ [LF] ++ lit "b" ++ [LF]) (Some (lit "/w/g")) (lit "b" ++ [LF])) /\
  all_realized (action_changes sample_action) (view sample_applied.1.1) /\
  forall q, untouched (action_changes sample_action) q -> view sample_applied.1.1 q = view (world_fs sample_world) q.
Proof.
  split; [vm_compute; reflexivity|].
  apply (verified_changes_are_applied sample_args (lit "/w") NormalizeToLf (world_fs sample_world) sample_applied.1.1
           sample_action sample_applied.1.2 (mkAffected [lit "d/h"] [lit "g"] [])); [vm_compute; reflexivity| |vm_compute; reflexivity..].
  assert (map_Forall (fun p c => match c with
      | ChangeUpdate _ (Some d) _ =>
          str_eqb p (lit "/w/f") && match action_changes sample_action !! d with None => true | Some _ => false end
      | _ => true
      end = true) (action_changes sample_action)) as Hall by by_decide.
  assert (forall p c dest, action_changes sample_action !! p = Some c -> moves_to c dest ->
            p = lit "/w/f" /\ action_changes sample_action !! dest = None) as Hf.
  { intros p c dest Hp Hm. pose proof (Hall p c Hp) as Hc. destruct c as [|?|? [d|]]; simpl in Hm, Hc; try done. subst d.
    apply andb_true_iff in Hc as [Hc Hd]. to_prop. split; [done|]. by destruct (_ !! dest). }
  intros p c dest Hp Hm. split; [by eapply Hf|]. intros p' c' Hp' Hm'.
  destruct (Hf p' c' dest Hp' Hm') as [-> _]. by destruct (Hf p c dest Hp Hm) as [-> _].
Defined.

Definition move_onto_args : ApplyPatchArgs :=
  mkArgs [] [UpdateFile (lit "a") (Some (lit "b")) [push_new_line (lit "z") (push_old_line (lit "x") default_chunk)];
             UpdateFile (lit "b") None [push_new_line (lit "end") default_chunk]] None None.

Definition move_onto_fs : Mem.mem_fs :=
  Mem.mkMem (<[lit "/w/a" := lf_text [lit "x"]]> (<[lit "/w/b" := lf_text [lit "x"; lit "y"]]> ∅)) {[ lit "/w" ]}.

(** Without that proviso the verified contents are not the applied ones: a patch that
    moves one file onto a second and then updates the second passes verification with an
    update computed from the second file as it was, and writes another text. *)
Theorem verified_move_onto_target_differs :
  (exists action diff, try_verify_apply_patch_args move_onto_args (lit "/w") NormalizeToLf move_onto_fs = Ok action /\
     action_changes action !! lit "/w/b" = Some (ChangeUpdate diff None (lf_text [lit "x"; lit "y"; lit "end"]))) /\
  (exists affected d fs',
     apply_hunks_to_files NormalizeToLf (lit "/w") (args_hunks move_onto_args) (move_onto_fs, empty_delta)
       = ((fs', d), Ok affected) /\
     exact d = true /\ view fs' (lit "/w/b") = Some (lf_text [lit "z"; lit "end"])).
Proof.
  split.
  - do 2 eexists. split; [vm_compute; reflexivity|vm_compute; reflexivity].
  - do 3 eexists. split; [vm_compute; reflexivity|]. split; [reflexivity|vm_compute; reflexivity].
Qed.

(** Only explicit invocations are verified: a body comes either from
    [apply_patch <patch>], or from the heredoc of a script handed to a known shell, and a
    vector that is itself a raw patch, alone or as a whole script, is refused. *)
Theorem verified_body_is_explicit {FS : Type} `{PathOps} `{ExecutorFileSystem FS} `{TextDiff} `{BashQuery}
    (argv : list str) (cwd : path_uri) (m : ApplyPatchFileUpdateMode) (fs : FS) (action : ApplyPatchAction) :
  maybe_parse_apply_patch_verified_with_mode argv cwd m fs = Ok (VerifiedBody action) ->
  implicit_invocation argv cwd = false /\
  exists args, try_verify_apply_patch_args args cwd m fs = Ok action /\
    ((exists cmd body, argv = [cmd; body] /\ cmd ∈ APPLY_PATCH_COMMANDS /\ parse_patch body = Ok args) \/
     (exists shell script body workdir source, parse_shell_script argv cwd = Some (shell, script) /\
        extract_apply_patch_from_bash script = Ok (body, workdir) /\
        parse_patch body = Ok source /\ args = set_workdir workdir source)).
Proof.
  unfold maybe_parse_apply_patch_verified_with_mode. destruct (implicit_invocation argv cwd); [done|]. intros Hb.
  split; [done|]. destruct (maybe_parse_apply_patch argv cwd) as [[args|e|e|]|e|] eqn:Em; simplify_eq/=.
  exists args. unfold verify_apply_patch_args_with_mode in Hb. split.
  { by destruct (try_verify_apply_patch_args args cwd m fs); simplify_eq. }
  assert (parse_shell_patch argv cwd = Ok (Body args) \/
          exists cmd body, argv = [cmd; body] /\ cmd ∈ APPLY_PATCH_COMMANDS /\ parse_patch body = Ok args) as [Hs|?]; [| |by left].
  { unfold maybe_parse_apply_patch in Em. destruct argv as [|cmd [|body [|? ?]]]; [by left..| |by left].
    destruct (mem_str cmd APPLY_PATCH_COMMANDS) eqn:Ec; [|by left]. right. exists cmd, body.
    destruct (parse_patch body); simplify_eq. split_and!; [done| |done].
    unfold mem_str in Ec. apply existsb_exists in Ec as (x & Hx & Heq). to_prop. subst.
    by apply list_elem_of_In. }
  right. unfold parse_shell_patch in Hs. destruct (parse_shell_script argv cwd) as [[shell script]|] eqn:Ep; [|done].
  assert (extract_apply_patch_from_shell shell script = extract_apply_patch_from_bash script) as He by by destruct shell.
  rewrite He in Hs. destruct (extract_apply_patch_from_bash script) as [[body wd]|[]|] eqn:Ex; simplify_eq.
  destruct (parse_patch body) as [source|?|] eqn:Eb; simplify_eq. by exists shell, script, body, wd, source.
Qed.

#[local] Instance no_heredoc : BashQuery := { query_matches _ := Ok [] }.

Definition explicit_patch : str :=
  join [LF] [lit "*** Begin Patch"; lit "*** Delete File: f"; lit "*** End Patch"].

Definition explicit_action : ApplyPatchAction :=
  mkAction {[ lit "/w/f" := ChangeDelete (lf_text [lit "a"]) ]} NormalizeToLf explicit_patch (lit "/w").

Lemma verified_body_is_explicit_witness :
  implicit_invocation [lit "apply_patch"; explicit_patch] (lit "/w") = false /\
  exists args, try_verify_apply_patch_args args (lit "/w") NormalizeToLf (world_fs sample_world) = Ok explicit_action /\
    ((exists cmd body, [lit "apply_patch"; explicit_patch] = [cmd; body] /\ cmd ∈ APPLY_PATCH_COMMANDS /\ parse_patch body = Ok args) \/
     (exists shell script body workdir source,
        parse_shell_script [lit "apply_patch"; explicit_patch] (lit "/w") = Some (shell, script) /\
        extract_apply_patch_from_bash script = Ok (body, workdir) /\
        parse_patch body = Ok source /\ args = set_workdir workdir source)).
Proof.
  apply (verified_body_is_explicit [lit "apply_patch"; explicit_patch] (lit "/w") NormalizeToLf (world_fs sample_world) explicit_action).
  vm_compute. reflexivity.
Defined.
