(* ===== verification/TurnDiff.v ===== *)
(** * The net diff of a turn: [core/src/turn_diff_tracker.rs]

    The tracker mirrors the files a turn has changed from the deltas of [apply_patch],
    without reading them again, and keeps a cache of rendered diffs.  Its contents are
    related to the view of the files when the turn started and to the view now. *)

From stdpp Require Import base list strings gmap.
From S2P Require Import Prelude PatchParser SeekSequence FileSystem FileUpdate ApplyHunks.

Definition ZERO_OID : str := repeat 48%N 40.
Definition DEV_NULL : str := lit "/dev/null".
Definition REGULAR_FILE_MODE : str := lit "100644".

Record TrackedContent := mkContent { content : str; revision : nat }.

Record TrackedPath := mkTracked { environment_id : str; tracked_path : path_uri }.

#[export] Instance TrackedPath_eq_dec : EqDecision TrackedPath.
Proof. solve_decision. Defined.

#[export] Instance TrackedPath_countable : Countable TrackedPath.
Proof.
  apply (inj_countable' (fun p => (environment_id p, tracked_path p)) (fun q => mkTracked q.1 q.2)).
  by intros [].
Defined.

Record DiffCacheKey := mkKey {
  left_path : TrackedPath;
  left_revision : option nat;
  right_path : TrackedPath;
  right_revision : option nat
}.

#[export] Instance DiffCacheKey_eq_dec : EqDecision DiffCacheKey.
Proof. solve_decision. Defined.

#[export] Instance DiffCacheKey_countable : Countable DiffCacheKey.
Proof.
  apply (inj_countable' (fun k => (left_path k, left_revision k, right_path k, right_revision k))
           (fun q => mkKey q.1.1.1 q.1.1.2 q.1.2 q.2)).
  by intros [].
Defined.

Record TurnDiffTracker := mkTracker {
  valid : bool;
  display_roots_by_environment : gmap str path_uri;
  baseline_by_path : gmap TrackedPath TrackedContent;
  current_by_path : gmap TrackedPath TrackedContent;
  origin_by_current_path : gmap TrackedPath TrackedPath;
  next_revision : nat;
  rendered_diffs : gmap DiffCacheKey (option str);
  unified_diff : option str
}.

Definition with_environment_display_roots (roots : gmap str path_uri) : TurnDiffTracker :=
  mkTracker true roots ∅ ∅ ∅ 0 ∅ None.

Definition set_baseline (b : gmap TrackedPath TrackedContent) (t : TurnDiffTracker) : TurnDiffTracker :=
  mkTracker (valid t) (display_roots_by_environment t) b (current_by_path t) (origin_by_current_path t)
    (next_revision t) (rendered_diffs t) (unified_diff t).
Definition set_current (c : gmap TrackedPath TrackedContent) (t : TurnDiffTracker) : TurnDiffTracker :=
  mkTracker (valid t) (display_roots_by_environment t) (baseline_by_path t) c (origin_by_current_path t)
    (next_revision t) (rendered_diffs t) (unified_diff t).
Definition set_origin (o : gmap TrackedPath TrackedPath) (t : TurnDiffTracker) : TurnDiffTracker :=
  mkTracker (valid t) (display_roots_by_environment t) (baseline_by_path t) (current_by_path t) o
    (next_revision t) (rendered_diffs t) (unified_diff t).
Definition set_rendered (r : gmap DiffCacheKey (option str)) (u : option str) (t : TurnDiffTracker) : TurnDiffTracker :=
  mkTracker (valid t) (display_roots_by_environment t) (baseline_by_path t) (current_by_path t)
    (origin_by_current_path t) (next_revision t) r u.

(** [tracked_content]: a content under a fresh revision. *)
Definition tracked_content (c : str) (t : TurnDiffTracker) : TrackedContent * TurnDiffTracker :=
  (mkContent c (next_revision t),
   mkTracker (valid t) (display_roots_by_environment t) (baseline_by_path t) (current_by_path t)
     (origin_by_current_path t) (S (next_revision t)) (rendered_diffs t) (unified_diff t)).

Definition contains_key {A} (p : TrackedPath) (m : gmap TrackedPath A) : bool :=
  match m !! p with Some _ => true | None => false end.

(** ** Changes *)

Definition insert_baseline (p : TrackedPath) (c : str) (t : TurnDiffTracker) : TurnDiffTracker :=
  let '(tc, t) := tracked_content c t in set_baseline (<[p := tc]> (baseline_by_path t)) t.
Definition insert_current (p : TrackedPath) (c : str) (t : TurnDiffTracker) : TurnDiffTracker :=
  let '(tc, t) := tracked_content c t in set_current (<[p := tc]> (current_by_path t)) t.
Definition remove_current (p : TrackedPath) (t : TurnDiffTracker) : TurnDiffTracker :=
  set_current (delete p (current_by_path t)) t.
Definition remove_origin (p : TrackedPath) (t : TurnDiffTracker) : TurnDiffTracker :=
  set_origin (delete p (origin_by_current_path t)) t.

(** A path the tracker has not met gets its old contents, if any, as its baseline. *)
Definition note_baseline (p : TrackedPath) (old : option str) (t : TurnDiffTracker) : TurnDiffTracker :=
  if negb (contains_key p (current_by_path t)) && negb (contains_key p (baseline_by_path t)) then
    match old with Some c => insert_baseline p c t | None => t end
  else t.

Definition tracker_add (p : TrackedPath) (c : str) (overwritten_content : option str) (t : TurnDiffTracker)
  : TurnDiffTracker :=
  insert_current p c (note_baseline p overwritten_content (remove_origin p t)).

Definition tracker_delete (p : TrackedPath) (c : str) (t : TurnDiffTracker) : TurnDiffTracker :=
  let removed := contains_key p (current_by_path t) in
  let t := remove_current p t in
  let t := if negb removed && negb (contains_key p (baseline_by_path t)) then insert_baseline p c t else t in
  remove_origin p t.

Definition tracker_update (source_path : TrackedPath) (move_path : option TrackedPath) (old_content : str)
    (overwritten_move_content : option str) (new_content : str) (t : TurnDiffTracker) : TurnDiffTracker :=
  let t := note_baseline source_path (Some old_content) t in
  match move_path with
  | Some dest_path =>
      let t := note_baseline dest_path overwritten_move_content t in
      let origin := default source_path (origin_by_current_path t !! source_path) in
      let t := remove_current source_path (remove_origin source_path t) in
      let t := remove_origin dest_path (insert_current dest_path new_content t) in
      if decide (dest_path = origin) then t
      else set_origin (<[dest_path := origin]> (origin_by_current_path t)) t
  | None => insert_current source_path new_content t
  end.

Definition apply_change (env : str) (c : AppliedPatchChange) (t : TurnDiffTracker) : TurnDiffTracker :=
  let source_path := mkTracked env (change_path c) in
  match change c with
  | AppliedAdd content overwritten_content => tracker_add source_path content overwritten_content t
  | AppliedDelete content => tracker_delete source_path content t
  | AppliedUpdate move_path old_content overwritten_move_content new_content =>
      tracker_update source_path (mkTracked env <$> move_path) old_content overwritten_move_content new_content t
  end.

(** ** Rendering *)

(** What rendering takes from elsewhere: the order in which the hash maps yield their
    entries, [PathUri::relative_path_from], the SHA-1 object id of a text, and the
    [similar] crate's diff of two texts under two headers. *)
Class DiffOps := {
  iterate_keys : gmap TrackedPath TrackedContent -> list TrackedPath;
  iterate_origins : gmap TrackedPath TrackedPath -> list (TrackedPath * TrackedPath);
  relative_path_from : path_uri -> path_uri -> option str;
  git_blob_oid : str -> str;
  diff_lines : str -> str -> str -> str -> str
}.

(** Iteration yields every entry once, in any order. *)
Class DiffOpsLaws `{DiffOps} := {
  iterate_keys_perm : forall m, iterate_keys m ≡ₚ (map_to_list m).*1;
  iterate_origins_perm : forall m, iterate_origins m ≡ₚ map_to_list m
}.

Section render.
Context `{PathOps} `{DiffOps}.

Definition display_path (t : TurnDiffTracker) (p : TrackedPath) : str :=
  let display :=
    match display_roots_by_environment t !! environment_id p with
    | Some root => default (native_path_string (tracked_path p)) (relative_path_from (tracked_path p) root)
    | None => native_path_string (tracked_path p)
    end in
  if (1 <? size (display_roots_by_environment t)) && negb (is_empty (environment_id p))
  then environment_id p ++ lit "/" ++ display
  else display.

Definition rename_pairs (t : TurnDiffTracker) : gmap TrackedPath TrackedPath :=
  foldl (fun (pairs : gmap TrackedPath TrackedPath) '(dest_path, origin_path) =>
    if bool_decide (dest_path = origin_path)
       || contains_key origin_path (current_by_path t)
       || negb (contains_key dest_path (current_by_path t))
       || negb (contains_key origin_path (baseline_by_path t))
       || contains_key dest_path (baseline_by_path t)
    then pairs else <[origin_path := dest_path]> pairs)
  ∅ (iterate_origins (origin_by_current_path t)).

Definition slashes (s : str) : str := (fun c => if char_eqb c 92 then 47%N else c) <$> s.

Definition render_diff (t : TurnDiffTracker) (left_path : TrackedPath) (left_content : option str)
    (right_path : TrackedPath) (right_content : option str) : option str :=
  if decide (left_content = right_content) then None
  else
    let left_display := slashes (display_path t left_path) in
    let right_display := slashes (display_path t right_path) in
    let left_oid := match left_content with None => ZERO_OID | Some c => git_blob_oid c end in
    let right_oid := match right_content with None => ZERO_OID | Some c => git_blob_oid c end in
    let head := lit "diff --git a/" ++ left_display ++ lit " b/" ++ right_display ++ [LF] in
    let mode := match left_content, right_content with
                | None, Some _ => Some (lit "new file mode " ++ REGULAR_FILE_MODE ++ [LF])
                | Some _, None => Some (lit "deleted file mode " ++ REGULAR_FILE_MODE ++ [LF])
                | Some _, Some _ => Some []
                | None, None => None
                end in
    match mode with
    | None => None
    | Some mode =>
        let old_header := match left_content with Some _ => lit "a/" ++ left_display | None => DEV_NULL end in
        let new_header := match right_content with Some _ => lit "b/" ++ right_display | None => DEV_NULL end in
        Some (head ++ mode ++ lit "index " ++ left_oid ++ lit ".." ++ right_oid ++ [LF]
              ++ diff_lines (default [] left_content) (default [] right_content) old_header new_header)
    end.

(** The contents compared for a pair of paths, and their cache key. *)
Definition cache_key (t : TurnDiffTracker) (l r : TrackedPath) : DiffCacheKey :=
  mkKey l (revision <$> baseline_by_path t !! l) r (revision <$> current_by_path t !! r).

Definition render_pair (t : TurnDiffTracker) (l r : TrackedPath) : option str :=
  render_diff t l (content <$> baseline_by_path t !! l) r (content <$> current_by_path t !! r).

Definition aggregate (aggregated : str) (rendered : option str) : str :=
  match rendered with
  | None => aggregated
  | Some diff => let a := aggregated ++ diff in if ends_with [LF] a then a else a ++ [LF]
  end.

(** The loop of [refresh_unified_diff]; [previous] loses the entries that are reused. *)
Fixpoint refresh_loop (t : TurnDiffTracker) (pairs : gmap TrackedPath TrackedPath) (paired : gset TrackedPath)
    (paths : list TrackedPath) (handled : gset TrackedPath) (previous rendered : gmap DiffCacheKey (option str))
    (aggregated : str) : gmap DiffCacheKey (option str) * str :=
  match paths with
  | [] => (rendered, aggregated)
  | path :: paths' =>
      if decide (path ∈ handled) then refresh_loop t pairs paired paths' handled previous rendered aggregated
      else
        let handled := {[ path ]} ∪ handled in
        if decide (path ∈ paired) then refresh_loop t pairs paired paths' handled previous rendered aggregated
        else
          let '(handled, r) := match pairs !! path with
                               | Some dest => ({[ dest ]} ∪ handled, dest)
                               | None => (handled, path)
                               end in
          let key := cache_key t path r in
          let diff := match previous !! key with Some d => d | None => render_pair t path r end in
          refresh_loop t pairs paired paths' handled (delete key previous) (<[key := diff]> rendered)
            (aggregate aggregated diff)
  end.

Definition tracked_paths (t : TurnDiffTracker) : list TrackedPath :=
  dedup (sort_by (fun a b => str_leb (display_path t a) (display_path t b))
           (iterate_keys (baseline_by_path t) ++ iterate_keys (current_by_path t))).

Definition pair_values (pairs : gmap TrackedPath TrackedPath) : gset TrackedPath :=
  list_to_set (map_to_list pairs).*2.

Definition refresh_unified_diff (t : TurnDiffTracker) : TurnDiffTracker :=
  let pairs := rename_pairs t in
  let '(rendered, aggregated) :=
    refresh_loop t pairs (pair_values pairs) (tracked_paths t) ∅ (rendered_diffs t) ∅ [] in
  set_rendered rendered (if is_empty aggregated then None else Some aggregated) t.

Definition invalidate (t : TurnDiffTracker) : TurnDiffTracker :=
  mkTracker false (display_roots_by_environment t) (baseline_by_path t) (current_by_path t)
    (origin_by_current_path t) (next_revision t) ∅ None.

Definition track_delta (env : str) (d : AppliedPatchDelta) (t : TurnDiffTracker) : TurnDiffTracker :=
  if negb (valid t) then t
  else if negb (exact d) then invalidate t
  else refresh_unified_diff (foldl (fun t c => apply_change env c t) t (changes d)).

Definition get_unified_diff (t : TurnDiffTracker) : option str := unified_diff t.

(** [tracker_update_for_known_delta] of [tools/events.rs] and the update it causes: a
    delta that is exact and empty is not tracked. *)
Definition feed_tracker (env : str) (d : AppliedPatchDelta) (t : TurnDiffTracker) : TurnDiffTracker :=
  if exact d && is_empty (changes d) then t else track_delta env d t.

(** Several patches of one turn, each applied and its delta, whatever the outcome, handed
    to the tracker: the world and the tracker at the end, and the deltas. *)
Fixpoint run_turn {FS W} `{ExecutorFileSystem FS} `{Write W} (m : ApplyPatchFileUpdateMode) (cwd : path_uri) (env : str)
    (patches : list str) (w : World FS W) (t : TurnDiffTracker) : World FS W * TurnDiffTracker * list AppliedPatchDelta :=
  match patches with
  | [] => (w, t, [])
  | p :: patches' =>
      let '(w, r) := apply_patch_with_mode p m cwd w in
      let d := default empty_delta (outcome_delta r) in
      let '(w, t, ds) := run_turn m cwd env patches' w (feed_tracker env d t) in
      (w, t, d :: ds)
  end.

End render.

(** ** The tracker mirrors the files *)

(** What is at every tracked path. *)
Definition TView : Type := TrackedPath -> option str.

Definition env_view (env : str) (v : TView) : View := fun p => v (mkTracked env p).

Definition lift_view (env : str) (w : View) (v : TView) : TView := fun q =>
  if decide (environment_id q = env) then w (tracked_path q) else v q.

Definition base (t : TurnDiffTracker) (p : TrackedPath) : option str := content <$> baseline_by_path t !! p.
Definition cur (t : TurnDiffTracker) (p : TrackedPath) : option str := content <$> current_by_path t !! p.

(** The baseline and the current content of a path, when the turn started with [x0] there
    and there is [x] now. *)
Inductive path_mirror : option str -> option str -> option str -> option str -> Prop :=
| mirror_untracked x : path_mirror None None x x
| mirror_created c : path_mirror None (Some c) None (Some c)
| mirror_removed b : path_mirror (Some b) None (Some b) None
| mirror_rewritten b c : path_mirror (Some b) (Some c) (Some b) (Some c).

Definition mirrors (t : TurnDiffTracker) (v0 v : TView) : Prop :=
  forall p, path_mirror (base t p) (cur t p) (v0 p) (v p).

Lemma path_mirror_written x0 c : path_mirror x0 (Some c) x0 (Some c).
Proof. destruct x0; constructor. Qed.

Lemma path_mirror_gone x0 : path_mirror x0 None x0 None.
Proof. destruct x0; constructor. Qed.

Lemma contains_cur p t : contains_key p (current_by_path t) = bool_decide (is_Some (cur t p)).
Proof. unfold contains_key, cur. by destruct (current_by_path t !! p). Qed.

Lemma contains_base p t : contains_key p (baseline_by_path t) = bool_decide (is_Some (base t p)).
Proof. unfold contains_key, base. by destruct (baseline_by_path t !! p). Qed.

Lemma base_insert_baseline p c t q : base (insert_baseline p c t) q = if decide (q = p) then Some c else base t q.
Proof. unfold base. simpl. case_decide; subst; by simplify_map_eq. Qed.

Lemma cur_insert_current p c t q : cur (insert_current p c t) q = if decide (q = p) then Some c else cur t q.
Proof. unfold cur. simpl. case_decide; subst; by simplify_map_eq. Qed.

Lemma cur_remove_current p t q : cur (remove_current p t) q = if decide (q = p) then None else cur t q.
Proof. unfold cur. simpl. case_decide; subst; by simplify_map_eq. Qed.

Lemma cur_note_baseline p old t q : cur (note_baseline p old t) q = cur t q.
Proof. unfold note_baseline. destruct (_ && _); [by destruct old|done]. Qed.

Lemma base_note_baseline_other p old t q : q <> p -> base (note_baseline p old t) q = base t q.
Proof.
  intros Hn. unfold note_baseline. destruct (_ && _); [|done]. destruct old; [|done].
  rewrite base_insert_baseline. by case_decide.
Qed.

(** Once noted, the baseline of a path is what the turn started with there. *)
Lemma base_note_baseline p x0 x t :
  path_mirror (base t p) (cur t p) x0 x -> base (note_baseline p x t) p = x0.
Proof.
  unfold note_baseline. rewrite contains_cur, contains_base. intros Hm.
  inversion Hm as [y Hb Hc|c Hb Hc|b Hb Hc|b c Hb Hc]; subst; simpl; try done.
  destruct x; [|done]. rewrite base_insert_baseline. by rewrite decide_True.
Qed.

Lemma base_insert_current p c t q : base (insert_current p c t) q = base t q.
Proof. done. Qed.

(** A path that ends with content [x] and a noted baseline mirrors; the others are as before. *)
Lemma mirrors_one t t' v0 v p x v' :
  mirrors t v0 v -> base t' p = v0 p -> cur t' p = x -> v' p = x ->
  (forall q, q <> p -> base t' q = base t q /\ cur t' q = cur t q /\ v' q = v q) -> mirrors t' v0 v'.
Proof.
  intros Hm Hb Hc Hv Ho q. destruct (decide (q = p)) as [->|Hn].
  - rewrite Hb, Hc, Hv. destruct x; [apply path_mirror_written|apply path_mirror_gone].
  - destruct (Ho q Hn) as (-> & -> & ->). apply Hm.
Qed.

Lemma tracker_add_mirrors p c t v0 v v' :
  mirrors t v0 v -> v' p = Some c -> (forall q, q <> p -> v' q = v q) -> mirrors (tracker_add p c (v p) t) v0 v'.
Proof.
  intros Hm Hp Ho. eapply (mirrors_one t _ v0 v p (Some c)); [done|..|done|].
  - unfold tracker_add. rewrite base_insert_current. eapply base_note_baseline. apply (Hm p).
  - unfold tracker_add. rewrite cur_insert_current. by rewrite decide_True.
  - intros q Hn. unfold tracker_add. rewrite base_insert_current, base_note_baseline_other by done. split; [done|].
    rewrite cur_insert_current, cur_note_baseline, decide_False by done. split; [done|auto].
Qed.

Lemma base_tracker_delete p c t x0 :
  path_mirror (base t p) (cur t p) x0 (Some c) -> base (tracker_delete p c t) p = x0.
Proof.
  intros Hm. unfold tracker_delete. rewrite contains_cur. change (contains_key p (baseline_by_path (remove_current p t)))
    with (contains_key p (baseline_by_path t)). rewrite contains_base.
  inversion Hm as [y Hb Hc|c' Hb Hc|b Hb Hc|b c' Hb Hc]; subst; simpl; try done.
  change (base (remove_origin p ?t) p) with (base t p). rewrite base_insert_baseline. by rewrite decide_True.
Qed.

Lemma tracker_delete_mirrors p c t v0 v v' :
  mirrors t v0 v -> v p = Some c -> v' p = None -> (forall q, q <> p -> v' q = v q) -> mirrors (tracker_delete p c t) v0 v'.
Proof.
  intros Hm Hc Hp Ho. specialize (Hm p) as Hmp. rewrite Hc in Hmp.
  assert (forall q, cur (tracker_delete p c t) q = if decide (q = p) then None else cur t q) as Hcur.
  { intros q. rewrite <- cur_remove_current. unfold tracker_delete. by destruct (_ && _). }
  eapply (mirrors_one t _ v0 v p None); [done|by apply base_tracker_delete|by rewrite Hcur, decide_True|done|].
  intros q Hn. rewrite Hcur, decide_False by done. split; [|split; [done|auto]].
  unfold tracker_delete. destruct (_ && _); [|done].
  change (base (remove_origin p ?t) q) with (base t q). rewrite base_insert_baseline. by rewrite decide_False.
Qed.

Lemma tracker_update_mirrors p old new t v0 v v' :
  mirrors t v0 v -> v p = Some old -> v' p = Some new -> (forall q, q <> p -> v' q = v q) ->
  mirrors (tracker_update p None old None new t) v0 v'.
Proof.
  intros Hm Hold Hp Ho. change (tracker_update p None old None new t) with (insert_current p new (note_baseline p (Some old) t)).
  rewrite <- Hold. eapply (mirrors_one t _ v0 v p (Some new)); [done|..|done|].
  - rewrite base_insert_current. eapply base_note_baseline. apply (Hm p).
  - rewrite cur_insert_current. by rewrite decide_True.
  - intros q Hn. rewrite base_insert_current, base_note_baseline_other by done. split; [done|].
    rewrite cur_insert_current, cur_note_baseline, decide_False by done. split; [done|auto].
Qed.

Lemma base_move s d old ow new t q :
  base (tracker_update s (Some d) old ow new t) q = base (note_baseline d ow (note_baseline s (Some old) t)) q.
Proof. unfold tracker_update. by case_decide. Qed.

Lemma cur_move s d old ow new t q :
  cur (tracker_update s (Some d) old ow new t) q =
  if decide (q = d) then Some new else if decide (q = s) then None else cur t q.
Proof.
  assert (cur (tracker_update s (Some d) old ow new t) q =
          cur (insert_current d new (remove_current s (note_baseline d ow (note_baseline s (Some old) t)))) q) as ->
    by (unfold tracker_update; by case_decide).
  rewrite cur_insert_current, cur_remove_current, !cur_note_baseline. done.
Qed.

Lemma tracker_move_mirrors s d old new t v0 v v' :
  mirrors t v0 v -> s <> d -> v s = Some old -> v' s = None -> v' d = Some new ->
  (forall q, q <> s -> q <> d -> v' q = v q) -> mirrors (tracker_update s (Some d) old (v d) new t) v0 v'.
Proof.
  intros Hm Hsd Hold Hs Hd Ho q. rewrite base_move, cur_move.
  assert (base (note_baseline s (Some old) t) s = v0 s) as Hbs.
  { eapply base_note_baseline. rewrite <- Hold. apply (Hm s). }
  destruct (decide (q = d)) as [->|Hqd]; [|destruct (decide (q = s)) as [->|Hqs]].
  - rewrite Hd, (base_note_baseline d (v0 d)); [apply path_mirror_written|].
    rewrite base_note_baseline_other, cur_note_baseline by done. apply Hm.
  - rewrite Hs, base_note_baseline_other, Hbs by done. apply path_mirror_gone.
  - rewrite !base_note_baseline_other, Ho by done. apply Hm.
Qed.

(** ** Changes of one environment *)

(** A move whose destination is its source. *)
Definition self_move_change (c : AppliedPatchChange) : bool :=
  match change c with AppliedUpdate (Some dest) _ _ _ => str_eqb dest (change_path c) | _ => false end.

Lemma lift_set_eq env p o w v : lift_view env (set_view p o w) v (mkTracked env p) = o.
Proof. unfold lift_view. simpl. rewrite decide_True by done. apply set_view_eq. Qed.

Lemma lift_set_ne env p o w v q : q <> mkTracked env p -> lift_view env (set_view p o w) v q = lift_view env w v q.
Proof.
  intros Hn. unfold lift_view. destruct (decide (environment_id q = env)) as [He|]; [|done].
  apply set_view_ne. intros Hp. apply Hn. destruct q. simpl in *. by subst.
Qed.

Lemma lift_env_view env v q : lift_view env (env_view env v) v q = v q.
Proof. unfold lift_view, env_view. case_decide; [|done]. subst. by destruct q. Qed.

Lemma apply_change_mirrors env c t v0 v :
  mirrors t v0 v -> change_fits c (env_view env v) -> self_move_change c = false ->
  mirrors (apply_change env c t) v0 (lift_view env (replay_change c (env_view env v)) v).
Proof.
  intros Hm Hf Hn. unfold change_fits, self_move_change, apply_change, replay_change in *. set (p := mkTracked env (change_path c)).
  change (env_view env v (change_path c)) with (v p) in Hf.
  destruct (change c) as [new ow|old|[d|] old ow new].
  - rewrite <- Hf. apply tracker_add_mirrors with (v := v); [done|apply lift_set_eq|].
    intros q Hq. rewrite lift_set_ne by done. apply lift_env_view.
  - apply tracker_delete_mirrors with (v := v); [done|done|apply lift_set_eq|].
    intros q Hq. rewrite lift_set_ne by done. apply lift_env_view.
  - destruct Hf as [Hs Hd]. assert (p <> mkTracked env d) as Hpd.
    { unfold p. intros [= Heq]. rewrite Heq in Hn. unfold str_eqb in Hn. by rewrite bool_decide_eq_true_2 in Hn. }
    rewrite <- Hd. apply tracker_move_mirrors with (v := v); [done|done|done|apply lift_set_eq|..].
    + rewrite lift_set_ne by done. apply lift_set_eq.
    + intros q Hqs Hqd. rewrite !lift_set_ne by done. apply lift_env_view.
  - change (mirrors (tracker_update p None old None new t) v0
              (lift_view env (set_view (change_path c) (Some new) (env_view env v)) v)).
    apply tracker_update_mirrors with (v := v); [done|done|apply lift_set_eq|].
    intros q Hq. rewrite lift_set_ne by done. apply lift_env_view.
Qed.

Lemma mirrors_ext t v0 v v' : (forall q, v' q = v q) -> mirrors t v0 v -> mirrors t v0 v'.
Proof. intros He Hm p. rewrite He. apply Hm. Qed.

Lemma apply_changes_mirrors env cs t v0 v :
  mirrors t v0 v -> fits_all cs (env_view env v) -> Forall (fun c => self_move_change c = false) cs ->
  mirrors (foldl (fun t c => apply_change env c t) t cs) v0 (lift_view env (replay cs (env_view env v)) v).
Proof.
  revert t v. induction cs as [|c cs IH]; intros t v Hm Hf HF; simpl in *.
  - eapply mirrors_ext; [|exact Hm]. intros q. apply lift_env_view.
  - destruct Hf as [Hc Hf]. apply Forall_cons in HF as [Hn HF].
    set (v1 := lift_view env (replay_change c (env_view env v)) v).
    assert (env_view env v1 ≡ replay_change c (env_view env v)) as Hv1.
    { intros p. unfold env_view at 1, v1, lift_view. simpl. by rewrite decide_True. }
    eapply mirrors_ext; [|apply (IH _ v1); [by apply apply_change_mirrors|by rewrite Hv1|done]].
    intros q. unfold lift_view. change (replay (c :: cs) ?w) with (replay cs (replay_change c w)).
    case_decide as He; [|unfold v1, lift_view; by rewrite decide_False].
    symmetry. by apply replay_proper.
Qed.

(** The files evolve by exact deltas that fit them, none of which moves a file onto itself. *)
Inductive evolves : TView -> list (str * AppliedPatchDelta) -> TView -> Prop :=
| evolves_nil v v' : (forall q, v' q = v q) -> evolves v [] v'
| evolves_cons v env d v1 ds v' :
    exact d = true -> fits_all (changes d) (env_view env v) -> Forall (fun c => self_move_change c = false) (changes d) ->
    (forall q, v1 q = lift_view env (replay (changes d) (env_view env v)) v q) ->
    evolves v1 ds v' -> evolves v ((env, d) :: ds) v'.

Section tracking.
Context `{PathOps} `{DiffOps}.

Definition track_all (ds : list (str * AppliedPatchDelta)) (t : TurnDiffTracker) : TurnDiffTracker :=
  foldl (fun t ed => track_delta ed.1 ed.2 t) t ds.

Lemma refresh_fields t :
  valid (refresh_unified_diff t) = valid t /\ baseline_by_path (refresh_unified_diff t) = baseline_by_path t /\
  current_by_path (refresh_unified_diff t) = current_by_path t.
Proof. unfold refresh_unified_diff. by destruct (refresh_loop _ _ _ _ _ _ _ _). Qed.

Lemma mirrors_refresh t v0 v : mirrors t v0 v -> mirrors (refresh_unified_diff t) v0 v.
Proof. intros Hm p. destruct (refresh_fields t) as (_ & Hb & Hc). unfold base, cur. rewrite Hb, Hc. apply Hm. Qed.

Lemma apply_changes_valid env cs t : valid (foldl (fun t c => apply_change env c t) t cs) = valid t.
Proof.
  assert (forall p o t, valid (note_baseline p o t) = valid t) as Hnb.
  { intros p o t'. unfold note_baseline. destruct (_ && _); [|done]. by destruct o. }
  revert t. induction cs as [|c cs IH]; intros t; simpl; [done|]. rewrite IH. unfold apply_change.
  destruct (change c) as [new ow|old|[d|] old ow new]; simpl.
  - by rewrite Hnb.
  - unfold tracker_delete. by destruct (_ && _).
  - unfold tracker_update. case_decide; simpl; by rewrite !Hnb.
  - apply Hnb.
Qed.

Lemma track_all_mirrors ds t v0 v v' :
  evolves v ds v' -> valid t = true -> mirrors t v0 v -> mirrors (track_all ds t) v0 v' /\ valid (track_all ds t) = true.
Proof.
  intros He. revert t. induction He as [v v' Hq|v env d v1 ds v' Hex Hf HF Hq He IH]; intros t Hv Hm; simpl.
  - split; [by eapply mirrors_ext|done].
  - apply IH; unfold track_delta; rewrite Hv, Hex; simpl.
    + destruct (refresh_fields (foldl (λ t c, apply_change env c t) t (changes d))) as [-> _]. by rewrite apply_changes_valid.
    + apply mirrors_refresh. eapply mirrors_ext; [exact Hq|]. by apply apply_changes_mirrors.
Qed.

Lemma mirrors_start roots v0 : mirrors (with_environment_display_roots roots) v0 v0.
Proof. intros p. unfold base, cur. simpl. rewrite !lookup_empty. constructor. Qed.

(** ** The paths a diff is rendered for *)

(** The pairs the loop renders, in order. *)
Fixpoint diff_items (pairs : gmap TrackedPath TrackedPath) (paired : gset TrackedPath) (paths : list TrackedPath)
    (handled : gset TrackedPath) : list (TrackedPath * TrackedPath) :=
  match paths with
  | [] => []
  | path :: paths' =>
      if decide (path ∈ handled) then diff_items pairs paired paths' handled
      else
        let handled := {[ path ]} ∪ handled in
        if decide (path ∈ paired) then diff_items pairs paired paths' handled
        else match pairs !! path with
             | Some dest => (path, dest) :: diff_items pairs paired paths' ({[ dest ]} ∪ handled)
             | None => (path, path) :: diff_items pairs paired paths' handled
             end
  end.

Definition items (t : TurnDiffTracker) : list (TrackedPath * TrackedPath) :=
  diff_items (rename_pairs t) (pair_values (rename_pairs t)) (tracked_paths t) ∅.

Lemma diff_items_pairs pairs paired paths handled l r :
  (l, r) ∈ diff_items pairs paired paths handled -> l ∈ paths /\ (l = r /\ pairs !! l = None \/ pairs !! l = Some r).
Proof.
  revert handled. induction paths as [|p paths IH]; intros handled; simpl; [by intros ?%elem_of_nil|].
  rewrite elem_of_cons. case_decide; [intros Hi; destruct (IH _ Hi); auto|].
  case_decide; [intros Hi; destruct (IH _ Hi); auto|].
  destruct (pairs !! p) eqn:Ep; rewrite elem_of_cons; intros [[= -> ->]|Hi]; auto; destruct (IH _ Hi); auto.
Qed.

Lemma pair_values_spec pairs d : d ∈ pair_values pairs <-> exists o, pairs !! o = Some d.
Proof.
  unfold pair_values. rewrite elem_of_list_to_set, list_elem_of_fmap. split.
  - intros ([o d'] & -> & Hi). apply elem_of_map_to_list in Hi. by exists o.
  - intros [o Ho]. exists (o, d). by rewrite elem_of_map_to_list.
Qed.

Lemma diff_items_complete pairs paths handled p :
  p ∈ paths -> p ∉ handled -> p ∉ pair_values pairs ->
  (p, default p (pairs !! p)) ∈ diff_items pairs (pair_values pairs) paths handled.
Proof.
  revert handled. induction paths as [|q paths IH]; intros handled Hp Hh Hv; [by apply elem_of_nil in Hp|].
  simpl. destruct (decide (q = p)) as [->|Hn].
  - rewrite !decide_False by done. destruct (pairs !! p); by left.
  - apply elem_of_cons in Hp as [->|Hp]; [done|].
    case_decide; [by apply IH|]. case_decide; [apply IH; [done|set_solver|done]|].
    destruct (pairs !! q) as [d|] eqn:Eq; right; apply IH; try done; [|set_solver].
    assert (d ∈ pair_values pairs) by (apply pair_values_spec; eauto). set_solver.
Qed.

(** A rename pair is a removal and a creation. *)
Lemma rename_pairs_spec t o d :
  rename_pairs t !! o = Some d -> is_Some (base t o) /\ cur t o = None /\ base t d = None /\ is_Some (cur t d).
Proof.
  unfold rename_pairs. generalize (iterate_origins (origin_by_current_path t)) as l. intros l.
  assert (forall (m : gmap TrackedPath TrackedPath),
    (forall o d, m !! o = Some d -> is_Some (base t o) /\ cur t o = None /\ base t d = None /\ is_Some (cur t d)) ->
    foldl (fun (pairs : gmap TrackedPath TrackedPath) '(dest_path, origin_path) =>
      if bool_decide (dest_path = origin_path) || contains_key origin_path (current_by_path t)
         || negb (contains_key dest_path (current_by_path t)) || negb (contains_key origin_path (baseline_by_path t))
         || contains_key dest_path (baseline_by_path t)
      then pairs else <[origin_path := dest_path]> pairs) m l !! o = Some d ->
    is_Some (base t o) /\ cur t o = None /\ base t d = None /\ is_Some (cur t d)) as Hgen.
  { induction l as [|[d' o'] l IH]; intros m Hm; simpl; [apply Hm|]. apply IH. destruct (_ || _) eqn:Eb; [done|].
    rewrite !orb_false_iff, !negb_false_iff, !contains_cur, !contains_base, !bool_decide_eq_true, !bool_decide_eq_false in Eb.
    destruct Eb as ((((_ & Hc) & Hd) & Hb) & Hbd). intros o1 d1 [[<- <-]|[_ ?]]%lookup_insert_Some; [|by apply Hm].
    by rewrite !eq_None_not_Some. }
  apply Hgen. intros o1 d1. by rewrite lookup_empty.
Qed.

Lemma tracked_paths_spec `{!DiffOpsLaws} t p : p ∈ tracked_paths t <-> is_Some (base t p) \/ is_Some (cur t p).
Proof.
  unfold tracked_paths, base, cur. rewrite elem_of_dedup, sort_by_perm, elem_of_app, !iterate_keys_perm.
  assert (forall m : gmap TrackedPath TrackedContent, p ∈ (map_to_list m).*1 <-> is_Some (content <$> m !! p)) as Hk.
  { intros m. rewrite list_elem_of_fmap, fmap_is_Some. split.
    - intros ([q c] & -> & Hi). apply elem_of_map_to_list in Hi. simpl. by rewrite Hi.
    - intros [c Hc]. exists (p, c). by rewrite elem_of_map_to_list. }
  by rewrite !Hk.
Qed.

End tracking.

(** ** The cache of rendered diffs *)

Section cache.
Context `{PathOps} `{DiffOps}.

(** [h] remembers the content of every revision handed out: tracked contents agree with
    it, and so does every cached diff. *)
Record cache_inv (h : gmap nat str) (t : TurnDiffTracker) : Prop := mkCacheInv {
  inv_base : forall p c, baseline_by_path t !! p = Some c -> h !! revision c = Some (content c);
  inv_cur : forall p c, current_by_path t !! p = Some c -> h !! revision c = Some (content c);
  inv_fresh : forall r, is_Some (h !! r) -> r < next_revision t;
  inv_cache : forall k d, rendered_diffs t !! k = Some d ->
    (forall r, left_revision k = Some r \/ right_revision k = Some r -> is_Some (h !! r)) /\
    d = render_diff t (left_path k) (left_revision k ≫= fun r => h !! r)
          (right_path k) (right_revision k ≫= fun r => h !! r)
}.

Definition cached (t : TurnDiffTracker) : Prop := exists h, cache_inv h t.

Lemma render_diff_roots t t' l lc r rc :
  display_roots_by_environment t' = display_roots_by_environment t ->
  render_diff t' l lc r rc = render_diff t l lc r rc.
Proof. intros Hr. unfold render_diff, display_path. by rewrite Hr. Qed.

(** A step that hands out at most the next revision, for [c], keeps the invariant. *)
Lemma cached_insert t c f :
  cached t ->
  let tc := mkContent c (next_revision t) in
  (forall p x, baseline_by_path f !! p = Some x -> x = tc \/ baseline_by_path t !! p = Some x) ->
  (forall p x, current_by_path f !! p = Some x -> x = tc \/ current_by_path t !! p = Some x) ->
  next_revision f = S (next_revision t) -> rendered_diffs f = rendered_diffs t ->
  display_roots_by_environment f = display_roots_by_environment t -> cached f.
Proof.
  intros [h [Hb Hc Hf Hk]] tc Hb' Hc' Hn Hr Hd. exists (<[next_revision t := c]> h).
  assert (h !! next_revision t = None) as Hnone.
  { destruct (h !! next_revision t) eqn:E; [|done]. specialize (Hf (next_revision t) (mk_is_Some _ _ E)). lia. }
  assert (forall r x, h !! r = Some x -> <[next_revision t := c]> h !! r = Some x) as Hext.
  { intros r x Hx. rewrite lookup_insert_ne; [done|]. congruence. }
  split.
  - intros p x Hx. destruct (Hb' p x Hx) as [->|Ho]; [by apply lookup_insert_eq|]. by eapply Hext, Hb.
  - intros p x Hx. destruct (Hc' p x Hx) as [->|Ho]; [by apply lookup_insert_eq|]. by eapply Hext, Hc.
  - intros r Hs. rewrite Hn. destruct (decide (r = next_revision t)) as [->|Hne]; [lia|].
    rewrite lookup_insert_ne in Hs by done. specialize (Hf r Hs). lia.
  - intros k d Hkd. rewrite Hr in Hkd. destruct (Hk k d Hkd) as [Hs ->]. split.
    + intros r Hrr. destruct (Hs r Hrr) as [x Hx]. exists x. by apply Hext.
    + rewrite (render_diff_roots t f) by done.
      assert (forall o : option nat, (forall r, o = Some r -> is_Some (h !! r)) ->
        (o ≫= fun r => <[next_revision t := c]> h !! r) = (o ≫= fun r => h !! r)) as Ho.
      { intros [r|] Hsr; [|done]. simpl. destruct (Hsr r eq_refl) as [x Hx]. by rewrite Hx, (Hext _ _ Hx). }
      rewrite !Ho by auto. done.
Qed.

(** A step that only forgets keeps the invariant. *)
Lemma cached_forget t f :
  cached t -> (forall p x, baseline_by_path f !! p = Some x -> baseline_by_path t !! p = Some x) ->
  (forall p x, current_by_path f !! p = Some x -> current_by_path t !! p = Some x) ->
  next_revision f = next_revision t -> rendered_diffs f = rendered_diffs t ->
  display_roots_by_environment f = display_roots_by_environment t -> cached f.
Proof.
  intros [h [Hb Hc Hf Hk]] Hb' Hc' Hn Hr Hd. exists h. split; [eauto|eauto|by rewrite Hn|].
  intros k d Hkd. rewrite Hr in Hkd. destruct (Hk k d Hkd) as [Hs ->]. split; [done|]. by rewrite (render_diff_roots t f).
Qed.

Lemma insert_baseline_cached p c t : cached t -> cached (insert_baseline p c t).
Proof.
  intros Ht. eapply (cached_insert t c); try done; simpl; [|auto].
  intros q x [[_ <-]|[_ ?]]%lookup_insert_Some; auto.
Qed.

Lemma insert_current_cached p c t : cached t -> cached (insert_current p c t).
Proof.
  intros Ht. eapply (cached_insert t c); try done; simpl; [auto|].
  intros q x [[_ <-]|[_ ?]]%lookup_insert_Some; auto.
Qed.

Lemma remove_current_cached p t : cached t -> cached (remove_current p t).
Proof. intros Ht. eapply (cached_forget t); try done. simpl. by intros q x [_ ?]%lookup_delete_Some. Qed.

Lemma set_origin_cached o t : cached t -> cached (set_origin o t).
Proof. intros Ht. by eapply (cached_forget t). Qed.

Lemma note_baseline_cached p o t : cached t -> cached (note_baseline p o t).
Proof.
  intros Ht. unfold note_baseline. destruct (_ && _); [|done]. destruct o; [by apply insert_baseline_cached|done].
Qed.

#[local] Hint Resolve insert_baseline_cached insert_current_cached remove_current_cached set_origin_cached
  note_baseline_cached : rust.

Lemma apply_change_cached env c t : cached t -> cached (apply_change env c t).
Proof.
  intros Ht. unfold apply_change, tracker_add, tracker_delete, tracker_update, remove_origin.
  destruct (change c) as [new ow|old|[d|] old ow new]; simpl; repeat case_match; auto 10 with rust.
Qed.

Lemma apply_changes_cached env cs t : cached t -> cached (foldl (fun t c => apply_change env c t) t cs).
Proof. revert t. induction cs as [|c cs IH]; intros t Ht; simpl; [done|]. by apply IH, apply_change_cached. Qed.

(** What the cache holds for the present contents is what would be rendered. *)
Lemma cache_hit h t l r :
  cache_inv h t ->
  render_diff t l (left_revision (cache_key t l r) ≫= fun n => h !! n) r (right_revision (cache_key t l r) ≫= fun n => h !! n)
    = render_pair t l r.
Proof.
  intros Hi. unfold render_pair, cache_key. simpl.
  assert ((revision <$> baseline_by_path t !! l) ≫= (fun n => h !! n) = content <$> baseline_by_path t !! l) as ->.
  { destruct (baseline_by_path t !! l) as [c|] eqn:E; [|done]. simpl. by eapply inv_base. }
  assert ((revision <$> current_by_path t !! r) ≫= (fun n => h !! n) = content <$> current_by_path t !! r) as ->; [|done].
  destruct (current_by_path t !! r) as [c|] eqn:E; [|done]. simpl. by eapply inv_cur.
Qed.

(** A cache every entry of which is right for [t] and [h]. *)
Definition right_cache (h : gmap nat str) (t : TurnDiffTracker) (m : gmap DiffCacheKey (option str)) : Prop :=
  forall k d, m !! k = Some d ->
    (forall r, left_revision k = Some r \/ right_revision k = Some r -> is_Some (h !! r)) /\
    d = render_diff t (left_path k) (left_revision k ≫= fun r => h !! r)
          (right_path k) (right_revision k ≫= fun r => h !! r).

Lemma cache_key_known h t l r n :
  cache_inv h t -> left_revision (cache_key t l r) = Some n \/ right_revision (cache_key t l r) = Some n -> is_Some (h !! n).
Proof.
  intros Hi. unfold cache_key. simpl. rewrite !fmap_Some.
  intros [(c & Hc & ->)|(c & Hc & ->)]; eexists; [by eapply inv_base|by eapply inv_cur].
Qed.

(** The loop renders its items, cached or not, and leaves a right cache. *)
Lemma refresh_loop_spec h t pairs paired paths handled previous rendered agg rendered' agg' :
  cache_inv h t -> right_cache h t previous -> right_cache h t rendered ->
  refresh_loop t pairs paired paths handled previous rendered agg = (rendered', agg') ->
  right_cache h t rendered' /\
  agg' = foldl (fun a lr => aggregate a (render_pair t lr.1 lr.2)) agg (diff_items pairs paired paths handled).
Proof.
  intros Hi. revert handled previous rendered agg.
  induction paths as [|p paths IH]; intros handled previous rendered agg Hp Hr; simpl; [by intros [= <- <-]|].
  case_decide; [by apply IH|]. case_decide; [by apply IH|].
  assert (forall r, match previous !! cache_key t p r with Some d => d | None => render_pair t p r end = render_pair t p r) as Hhit.
  { intros r. destruct (previous !! cache_key t p r) as [d|] eqn:E; [|done]. destruct (Hp _ _ E) as [_ ->]. by apply cache_hit. }
  assert (forall r, right_cache h t (delete (cache_key t p r) previous)) as Hdel.
  { intros r k d [_ Hk]%lookup_delete_Some. by apply Hp. }
  assert (forall r, right_cache h t (<[cache_key t p r := render_pair t p r]> rendered)) as Hins.
  { intros r k d [[<- <-]|[_ Hk]]%lookup_insert_Some; [|by apply Hr]. split; [intros n; by apply cache_key_known|].
    symmetry. by apply cache_hit. }
  destruct (pairs !! p) as [dest|]; rewrite Hhit; intros Hl; eapply IH in Hl; eauto.
Qed.

Lemma refresh_spec t :
  cached t ->
  cached (refresh_unified_diff t) /\
  unified_diff (refresh_unified_diff t) =
    let a := foldl (fun a lr => aggregate a (render_pair t lr.1 lr.2)) [] (items t) in
    if is_empty a then None else Some a.
Proof.
  intros [h Hi]. unfold refresh_unified_diff, items.
  destruct (refresh_loop t (rename_pairs t) (pair_values (rename_pairs t)) (tracked_paths t) ∅ (rendered_diffs t) ∅ [])
    as [rendered agg] eqn:E.
  apply (refresh_loop_spec h) in E as [Hc ->]; [|done|intros k d Hk; by eapply inv_cache|intros k d; by rewrite lookup_empty].
  split; [|done]. exists h. destruct Hi as [Hb Hc' Hf _]. by split.
Qed.

Lemma track_delta_cached env d t : cached t -> cached (track_delta env d t).
Proof.
  intros Ht. unfold track_delta. destruct (valid t); [|done]. destruct (exact d); simpl.
  - apply refresh_spec. by apply apply_changes_cached.
  - destruct Ht as [h [Hb Hc Hf _]]. exists h. by split.
Qed.

Lemma track_all_cached ds t : cached t -> cached (track_all ds t).
Proof. revert t. induction ds as [|[e d] ds IH]; intros t Ht; simpl; [done|]. by apply IH, track_delta_cached. Qed.

Lemma cached_start roots : cached (with_environment_display_roots roots).
Proof. exists ∅. split; intros *; simpl; by rewrite ?lookup_empty. Qed.

End cache.

(** ** Properties *)

Section reports.
Context `{PathOps} `{DiffOpsLaws}.

(** What a tracked path shows is what the turn started with and what is there now. *)
Lemma tracked_mirror t v0 v p :
  mirrors t v0 v -> p ∈ tracked_paths t -> base t p = v0 p /\ cur t p = v p.
Proof.
  rewrite tracked_paths_spec. intros Hm [[x Hx]|[x Hx]]; specialize (Hm p); rewrite Hx in *; inversion Hm; by subst.
Qed.

Lemma items_sound t v0 v l r :
  mirrors t v0 v -> (l, r) ∈ items t ->
  base t l = v0 l /\ cur t r = v r /\ (l <> r -> v l = None /\ v0 r = None).
Proof.
  intros Hm Hi. apply diff_items_pairs in Hi as [Hl [[<- _]|Hp]].
  - destruct (tracked_mirror _ _ _ _ Hm Hl). done.
  - apply rename_pairs_spec in Hp as (Hb & Hc & Hbr & Hcr).
    destruct (tracked_mirror _ _ _ l Hm) as [Hbl Hcl]; [by apply tracked_paths_spec; left|].
    destruct (tracked_mirror _ _ _ r Hm) as [Hb' Hc']; [by apply tracked_paths_spec; right|].
    split_and!; [done..|]. intros _. by rewrite <- Hcl, <- Hb'.
Qed.

Lemma items_complete t v0 v p :
  mirrors t v0 v -> v0 p <> v p -> exists l r, (l, r) ∈ items t /\ (p = l \/ p = r).
Proof.
  intros Hm Hne. assert (p ∈ tracked_paths t) as Hp.
  { apply tracked_paths_spec. specialize (Hm p). inversion Hm; subst; eauto. congruence. }
  destruct (decide (p ∈ pair_values (rename_pairs t))) as [Hv|Hv].
  - apply pair_values_spec in Hv as [o Ho]. exists o, p. split; [|by right].
    pose proof (rename_pairs_spec _ _ _ Ho) as (Hb & Hc & _ & _).
    assert ((o, default o (rename_pairs t !! o)) ∈ items t) as Hi; [|by rewrite Ho in Hi].
    apply diff_items_complete; [by apply tracked_paths_spec; left|set_solver|].
    intros [o' Ho']%pair_values_spec. apply rename_pairs_spec in Ho' as (_ & _ & Hb' & _).
    rewrite Hb' in Hb. by destruct Hb.
  - exists p, (default p (rename_pairs t !! p)). split; [|by left]. apply diff_items_complete; [done|set_solver|done].
Qed.

Lemma refresh_shape t : exists r u, refresh_unified_diff t = set_rendered r u t.
Proof. unfold refresh_unified_diff. destruct (refresh_loop _ _ _ _ _ _ _ _) as [r a]. by eexists _, _. Qed.

(** After an exact delta that the tracker accepted, the diff is that of its items. *)
Lemma track_all_diff roots ds env d :
  let t := track_all (ds ++ [(env, d)]) (with_environment_display_roots roots) in
  valid t = true ->
  get_unified_diff t =
    let a := foldl (fun a lr => aggregate a (render_pair t lr.1 lr.2)) [] (items t) in
    if is_empty a then None else Some a.
Proof.
  unfold track_all. rewrite foldl_app. simpl. set (t0 := foldl _ _ ds).
  assert (cached t0) as Hc0 by (apply track_all_cached, cached_start). unfold track_delta.
  destruct (valid t0) eqn:Ev; simpl; [|congruence]. destruct (exact d); [|done]. simpl. intros _.
  set (t1 := foldl _ t0 _). assert (cached t1) as Hc1 by by apply apply_changes_cached.
  destruct (refresh_spec t1 Hc1) as [_ Hu]. unfold get_unified_diff. rewrite Hu.
  destruct (refresh_shape t1) as (r & u & ->). done.
Qed.

Lemma foldl_ext_in {A B} (f g : B -> A -> B) (l : list A) b :
  (forall b x, x ∈ l -> f b x = g b x) -> foldl f b l = foldl g b l.
Proof.
  revert b. induction l as [|x l IH]; intros b Hfg; simpl; [done|]. rewrite Hfg by by left.
  apply IH. intros b' y Hy. apply Hfg. by right.
Qed.

End reports.

(** C5: the diff of a turn is the net effect of the turn.  After any exact deltas that fit the files
    and do not move a file onto itself (which misleads the tracker:
    [self_move_misleads_tracker]), the diff shown is the concatenation, freshly rendered, of
    one diff per item; an item compares what the turn started with at its left path with what
    is at its right path now, the two paths differ only when the left one is gone and the right
    one is new, and every path that the turn changed is in some item.  Diffs taken from the
    cache are never stale. *)
Theorem turn_diff_is_net_change `{PathOps} `{DiffOpsLaws}
    (roots : gmap str path_uri) (ds : list (str * AppliedPatchDelta)) (env : str) (d : AppliedPatchDelta) (v0 v : TView) :
  evolves v0 (ds ++ [(env, d)]) v ->
  let t := track_all (ds ++ [(env, d)]) (with_environment_display_roots roots) in
  get_unified_diff t =
    (let a := foldl (fun a lr => aggregate a (render_diff t lr.1 (v0 lr.1) lr.2 (v lr.2))) [] (items t) in
     if is_empty a then None else Some a) /\
  (forall l r, (l, r) ∈ items t -> l <> r -> v l = None /\ v0 r = None) /\
  (forall p, v0 p <> v p -> exists l r, (l, r) ∈ items t /\ (p = l \/ p = r)).
Proof.
  intros He t. destruct (track_all_mirrors _ (with_environment_display_roots roots) v0 v0 v He eq_refl (mirrors_start roots v0)) as [Hm Hv].
  fold t in Hm, Hv. split; [|split].
  - pose proof (track_all_diff roots ds env d Hv) as Hd. cbn zeta in Hd. fold t in Hd. rewrite Hd.
    assert (foldl (fun a lr => aggregate a (render_pair t lr.1 lr.2)) [] (items t) =
            foldl (fun a lr => aggregate a (render_diff t lr.1 (v0 lr.1) lr.2 (v lr.2))) [] (items t)) as ->; [|done].
    apply foldl_ext_in. intros a [l r] Hi. destruct (items_sound _ _ _ _ _ Hm Hi) as (Hb & Hc & _).
    simpl. unfold render_pair. unfold base, cur in Hb, Hc. by rewrite Hb, Hc.
  - intros l r Hi. by apply (items_sound t v0 v l r Hm Hi).
  - intros p. by apply (items_complete t).
Qed.

Lemma track_all_invalid `{PathOps} `{DiffOps} ds t :
  (valid t = false -> unified_diff t = None /\ rendered_diffs t = ∅) ->
  valid (track_all ds t) = false -> unified_diff (track_all ds t) = None /\ rendered_diffs (track_all ds t) = ∅.
Proof.
  revert t. induction ds as [|[e d] ds IH]; intros t Ht; simpl; [done|]. apply IH. unfold track_delta.
  destruct (valid t) eqn:Ev; simpl; [|by auto]. destruct (exact d); simpl; [|done].
  set (t1 := foldl _ t _). destruct (refresh_fields t1) as [-> _]. unfold t1. rewrite apply_changes_valid. congruence.
Qed.

(** An inexact delta, or anything else that invalidates the tracker, takes the diff
    away for the rest of the turn: no diff is shown that might be wrong. *)
Theorem invalid_tracker_shows_nothing `{PathOps} `{DiffOps}
    (before after : list (str * AppliedPatchDelta)) (env : str) (d : AppliedPatchDelta) (roots : gmap str path_uri) :
  exact d = false ->
  let t := track_all (before ++ (env, d) :: after) (with_environment_display_roots roots) in
  valid t = false /\ get_unified_diff t = None /\ rendered_diffs t = ∅.
Proof.
  intros Hd. unfold track_all. rewrite foldl_app. simpl. set (t0 := foldl _ _ before).
  assert (exists t1, track_delta env d t0 = t1 /\ valid t1 = false /\ unified_diff t1 = None /\ rendered_diffs t1 = ∅)
    as (t1 & -> & Hv & Hu & Hr).
  { eexists. split; [done|]. unfold track_delta. destruct (valid t0) eqn:Ev; simpl; [by rewrite Hd|].
    destruct (track_all_invalid before (with_environment_display_roots roots)); by auto. }
  induction after as [|[e d'] after IH]; simpl; [done|].
  assert (track_delta e d' t1 = t1) as ->; [|done]. unfold track_delta. by rewrite Hv.
Qed.

(** The files of one environment. *)
Definition fs_view {FS} `{ExecutorFileSystem FS} (env : str) (fs : FS) : TView := lift_view env (view fs) (fun _ => None).

Lemma env_fs_view {FS} `{ExecutorFileSystem FS} env (fs : FS) : env_view env (fs_view env fs) ≡ view fs.
Proof. intros p. unfold env_view, fs_view, lift_view. simpl. by rewrite decide_True. Qed.

Section turn.
Context {FS W : Type} `{FileSystemLaws FS} `{DiffOps} `{Write W}.

Lemma feed_valid env d t : valid (feed_tracker env d t) = true -> valid t = true /\ exact d = true.
Proof.
  unfold feed_tracker, track_delta. destruct (exact d) eqn:Ed; simpl.
  - destruct (is_empty (changes d)); [done|]. destruct (valid t) eqn:Ev; simpl; [done|congruence].
  - destruct (valid t) eqn:Ev; simpl; [done|congruence].
Qed.

Lemma feed_mirrors env d t v0 (fs fs' : FS) :
  valid t = true -> tracked (fs, empty_delta) (fs', d) -> exact d = true ->
  Forall (fun c => self_move_change c = false) (changes d) ->
  mirrors t v0 (fs_view env fs) -> mirrors (feed_tracker env d t) v0 (fs_view env fs').
Proof.
  intros Hv Ht Hex HF Hm. destruct (Ht Hex) as (_ & cs & Hc & Hfit & Hview). simpl in Hc, Hfit, Hview. subst cs.
  assert (mirrors (foldl (fun t c => apply_change env c t) t (changes d)) v0 (fs_view env fs')) as Hall.
  { eapply mirrors_ext; [|apply (apply_changes_mirrors env (changes d) t v0 (fs_view env fs)); [done|by rewrite env_fs_view|done]].
    intros q. unfold fs_view at 1, lift_view at 1 2. case_decide; [|unfold fs_view, lift_view; by rewrite decide_False].
    rewrite (Hview (tracked_path q)). symmetry. by apply replay_proper, env_fs_view. }
  unfold feed_tracker. rewrite Hex. simpl. destruct (changes d) as [|c cs] eqn:Ec; simpl; [done|].
  unfold track_delta. rewrite Hv, Hex. simpl. apply mirrors_refresh. by rewrite Ec.
Qed.

Lemma run_turn_valid m cwd env patches (w : World FS W) t w' t' ds :
  run_turn m cwd env patches w t = (w', t', ds) -> valid t' = true -> valid t = true.
Proof.
  revert w t ds. induction patches as [|p patches IH]; intros w t ds; simpl; [by intros [= <- <- <-]|].
  destruct (apply_patch_with_mode p m cwd w) as [w1 r].
  destruct (run_turn m cwd env patches w1 (feed_tracker env (default empty_delta (outcome_delta r)) t)) as [[w2 t2] ds2] eqn:Er.
  intros [= -> -> <-] Hv. eapply feed_valid. by eapply IH.
Qed.

Lemma run_turn_mirrors m cwd env patches (w : World FS W) t v0 w' t' ds :
  run_turn m cwd env patches w t = (w', t', ds) -> valid t' = true ->
  Forall (fun d => Forall (fun c => self_move_change c = false) (changes d)) ds ->
  mirrors t v0 (fs_view env (world_fs w)) -> mirrors t' v0 (fs_view env (world_fs w')).
Proof.
  revert w t ds. induction patches as [|p patches IH]; intros w t ds; simpl; [by intros [= <- <- <-]|].
  pose proof (apply_patch_no_panic p m cwd w) as Hp. pose proof (apply_patch_delta p m cwd w) as Ht.
  destruct (apply_patch_with_mode p m cwd w) as [w1 r]. simpl in *.
  destruct (run_turn m cwd env patches w1 (feed_tracker env (default empty_delta (outcome_delta r)) t)) as [[w2 t2] ds2] eqn:Er.
  intros [= -> -> <-] Hv [Hd HF]%Forall_cons Hm.
  assert (outcome_delta r = Some (default empty_delta (outcome_delta r))) as Hr by by destruct r.
  destruct (feed_valid _ _ _ (run_turn_valid _ _ _ _ _ _ _ _ _ Er Hv)) as [Hvt Hex].
  eapply IH; [exact Er|done|done|]. by eapply feed_mirrors; [|apply Ht| | |].
Qed.

End turn.

(** Patches and tracker together: when a turn applies any patches, successfully or
    not, and the tracker is still valid at the end, what the tracker holds mirrors the
    files: a path it does not know is as it was at the start, and a path it knows has the
    baseline it had at the start and the current content it has now.  Moves of a file
    onto itself are excluded. *)
Theorem turn_tracker_mirrors_files {FS W : Type} `{FileSystemLaws FS} `{DiffOps} `{Write W}
    (m : ApplyPatchFileUpdateMode) (cwd : path_uri) (env : str) (roots : gmap str path_uri) (patches : list str)
    (w w' : World FS W) (t' : TurnDiffTracker) (ds : list AppliedPatchDelta) :
  run_turn m cwd env patches w (with_environment_display_roots roots) = (w', t', ds) -> valid t' = true ->
  Forall (fun d => Forall (fun c => self_move_change c = false) (changes d)) ds ->
  forall p, path_mirror (base t' p) (cur t' p) (fs_view env (world_fs w) p) (fs_view env (world_fs w') p).
Proof.
  intros Hr Hv HF. eapply run_turn_mirrors; [exact Hr|done|done|]. apply mirrors_start.
Qed.

#[local] Instance plain_ops : DiffOps := {
  iterate_keys m := (map_to_list m).*1;
  iterate_origins m := map_to_list m;
  relative_path_from p root := strip_prefix (root ++ lit "/") p;
  git_blob_oid _ := ZERO_OID;
  diff_lines old new old_header new_header := lit "--- " ++ old_header ++ [LF] ++ lit "+++ " ++ new_header ++ [LF] ++ old ++ new
}.

#[local] Instance plain_ops_laws : DiffOpsLaws.
Proof. by split. Qed.

Definition sample_roots : gmap str path_uri := {[ lit "e" := lit "/w" ]}.

Definition sample_delta : AppliedPatchDelta := sample_outcome.1.2.
Definition start_view : TView := fs_view (lit "e") (world_fs sample_world).

Lemma turn_diff_is_net_change_witness :
  let v := lift_view (lit "e") (replay (changes sample_delta) (env_view (lit "e") start_view)) start_view in
  let t := track_all ([] ++ [(lit "e", sample_delta)]) (with_environment_display_roots sample_roots) in
  get_unified_diff t =
    (let a := foldl (fun a lr => aggregate a (render_diff t lr.1 (start_view lr.1) lr.2 (v lr.2))) [] (items t) in
     if is_empty a then None else Some a) /\
  (forall l r, (l, r) ∈ items t -> l <> r -> v l = None /\ start_view r = None) /\
  (forall p, start_view p <> v p -> exists l r, (l, r) ∈ items t /\ (p = l \/ p = r)).
Proof.
  intros v. apply (turn_diff_is_net_change sample_roots [] (lit "e") sample_delta start_view v).
  apply (evolves_cons _ _ _ v); [vm_compute; reflexivity| | |done|by apply evolves_nil].
  - vm_compute. repeat split.
  - by_decide.
Defined.

Lemma invalid_tracker_shows_nothing_witness :
  let t := track_all ([(lit "e", sample_delta)] ++ (lit "e", set_exact false empty_delta) :: [(lit "e", sample_delta)])
             (with_environment_display_roots sample_roots) in
  valid t = false /\ get_unified_diff t = None /\ rendered_diffs t = ∅.
Proof. apply invalid_tracker_shows_nothing. reflexivity. Defined.

Definition sample_turn : World Mem.mem_fs (list str) * TurnDiffTracker * list AppliedPatchDelta :=
  run_turn NormalizeToLf (lit "/w") (lit "e") [sample_patch; sample_patch] sample_world
    (with_environment_display_roots sample_roots).

Lemma turn_tracker_mirrors_files_witness :
  cur sample_turn.1.2 (mkTracked (lit "e") (lit "/w/g")) = Some (lf_text [lit "b"]) /\
  path_mirror (base sample_turn.1.2 (mkTracked (lit "e") (lit "/w/g"))) (cur sample_turn.1.2 (mkTracked (lit "e") (lit "/w/g")))
    (fs_view (lit "e") (world_fs sample_world) (mkTracked (lit "e") (lit "/w/g")))
    (fs_view (lit "e") (world_fs sample_turn.1.1) (mkTracked (lit "e") (lit "/w/g"))).
Proof.
  split; [vm_compute; reflexivity|].
  apply (turn_tracker_mirrors_files NormalizeToLf (lit "/w") (lit "e") sample_roots [sample_patch; sample_patch]
           sample_world sample_turn.1.1 sample_turn.1.2 sample_turn.2); [vm_compute; reflexivity|vm_compute; reflexivity|by_decide].
Defined.

(** With a move of a file onto itself the tracker and the files part: the tracker
    stays valid and shows the file with its new contents, and the file is gone. *)
Theorem self_move_misleads_tracker :
  let d := self_move_outcome.1.2 in
  let t := track_delta (lit "e") d (with_environment_display_roots sample_roots) in
  exact d = true /\ valid t = true /\
  cur t (mkTracked (lit "e") (lit "/w/f")) = Some (lf_text [lit "b"]) /\
  view self_move_outcome.1.1 (lit "/w/f") = None.
Proof. by vm_compute. Qed.
