(* ===== verification/ExecPolicy.v ===== *)
(** * The exec policy: [execpolicy/src/policy.rs], [rule.rs], [decision.rs], [executable_name.rs]

    Prefix rules keyed by program, network rules and host executables; which rules match
    a command, the decision they give, and how a policy is overlaid by another.  The
    Starlark front end that reads policies is third-party and not modelled. *)

From stdpp Require Import base list strings gmap.
From S2P Require Import Prelude.

(** ** Decisions and errors *)

Inductive Decision : Type := Allow | Prompt | Forbidden.

#[export] Instance Decision_eq_dec : EqDecision Decision.
Proof. solve_decision. Defined.

(** The derived order, that of the variants. *)
Definition severity (d : Decision) : nat := match d with Allow => 0 | Prompt => 1 | Forbidden => 2 end.
Definition decision_max (a b : Decision) : Decision := if severity a <=? severity b then b else a.

(** [Error] without its source locations and its Starlark variant. *)
Inductive PolicyError : Type :=
| InvalidDecision (raw : str)
| InvalidPattern (message : str)
| InvalidRule (message : str)
| ExampleDidNotMatch (rules examples : list str)
| ExampleDidMatch (rule example : str).

Definition decision_parse (raw : str) : result Decision PolicyError :=
  if str_eqb raw (lit "allow") then Ok Allow
  else if str_eqb raw (lit "prompt") then Ok Prompt
  else if str_eqb raw (lit "forbidden") then Ok Forbidden
  else Err (InvalidDecision raw).

(** ** Rules *)

Inductive PatternToken : Type :=
| Single (expected : str)
| Alts (alternatives : list str).

Definition token_matches (t : PatternToken) (token : str) : bool :=
  match t with
  | Single expected => str_eqb expected token
  | Alts alternatives => existsb (fun alt => str_eqb alt token) alternatives
  end.

Definition alternatives (t : PatternToken) : list str :=
  match t with Single expected => [expected] | Alts alternatives => alternatives end.

Record PrefixPattern := mkPattern { pattern_first : str; pattern_rest : list PatternToken }.

(** The indexing [cmd[0]] is guarded by the length test before it. *)
Definition matches_prefix (p : PrefixPattern) (cmd : list str) : option (list str) :=
  let pattern_length := length (pattern_rest p) + 1 in
  if (length cmd <? pattern_length) || negb (str_eqb (default [] (head cmd)) (pattern_first p)) then None
  else if forallb (fun '(pattern_token, cmd_token) => token_matches pattern_token cmd_token)
            (zip (pattern_rest p) (take (pattern_length - 1) (drop 1 cmd)))
  then Some (take pattern_length cmd)
  else None.

(** An [AbsolutePathBuf], as its text. *)
Abbreviation abs_path := str (only parsing).

Inductive RuleMatch : Type :=
| PrefixRuleMatch (matched_prefix : list str) (decision : Decision) (resolved_program : option abs_path)
    (justification : option str)
| HeuristicsRuleMatch (command : list str) (decision : Decision).

Definition match_decision (m : RuleMatch) : Decision :=
  match m with PrefixRuleMatch _ d _ _ => d | HeuristicsRuleMatch _ d => d end.

Definition with_resolved_program (m : RuleMatch) (resolved_program : abs_path) : RuleMatch :=
  match m with
  | PrefixRuleMatch matched_prefix decision _ justification =>
      PrefixRuleMatch matched_prefix decision (Some resolved_program) justification
  | other => other
  end.

(** The only implementation of the trait [Rule]. *)
Record PrefixRule := mkRule {
  rule_pattern : PrefixPattern;
  rule_decision : Decision;
  rule_justification : option str
}.

Definition rule_matches (r : PrefixRule) (cmd : list str) : option RuleMatch :=
  match matches_prefix (rule_pattern r) cmd with
  | Some matched_prefix => Some (PrefixRuleMatch matched_prefix (rule_decision r) None (rule_justification r))
  | None => None
  end.

Inductive NetworkRuleProtocol : Type := Http | Https | Socks5Tcp | Socks5Udp.

Definition protocol_parse (raw : str) : result NetworkRuleProtocol PolicyError :=
  if str_eqb raw (lit "http") then Ok Http
  else if mem_str raw [lit "https"; lit "https_connect"; lit "http-connect"] then Ok Https
  else if str_eqb raw (lit "socks5_tcp") then Ok Socks5Tcp
  else if str_eqb raw (lit "socks5_udp") then Ok Socks5Udp
  else Err (InvalidRule (lit "network_rule protocol must be one of http, https, socks5_tcp, socks5_udp (got " ++ raw ++ lit ")")).

Definition as_policy_string (p : NetworkRuleProtocol) : str :=
  match p with
  | Http => lit "http" | Https => lit "https" | Socks5Tcp => lit "socks5_tcp" | Socks5Udp => lit "socks5_udp"
  end.

Record NetworkRule := mkNetworkRule {
  network_host : str;
  network_protocol : NetworkRuleProtocol;
  network_decision : Decision;
  network_justification : option str
}.

(** ** Hosts of network rules *)

Definition colon : N := 58.
Definition dot : N := 46.
Definition slash_char : N := 47.

Definition all_digits (s : str) : bool := negb (is_empty s) && forallb is_ascii_digit s.

(** [host.matches(':').count()]. *)
Definition count_char (c : N) (s : str) : nat := length (List.filter (char_eqb c) s).

(** A host must have no scheme, path, query or fragment: any scheme separator has a slash. *)
Definition has_url_part (host : str) : bool :=
  contains_char slash_char host || contains_char 63 host || contains_char 35 host.

(** The host without brackets or port. *)
Definition strip_port (raw host : str) : result str PolicyError :=
  match strip_prefix [91%N] host with
  | Some stripped =>
      match split_once 93 stripped with
      | None => Err (InvalidRule (lit "network_rule host has an invalid bracketed IPv6 literal"))
      | Some (inside, rest) =>
          let port_ok := is_some_and (strip_prefix [colon] rest) all_digits in
          if negb (is_empty rest) && negb port_ok
          then Err (InvalidRule (lit "network_rule host contains an unsupported suffix: " ++ raw))
          else Ok inside
      end
  | None =>
      if count_char colon host =? 1 then
        match rsplit_once colon host with
        | Some (candidate, port) => if negb (is_empty candidate) && all_digits port then Ok candidate else Ok host
        | None => Ok host
        end
      else Ok host
  end.

Definition msg_host_empty : str := lit "network_rule host cannot be empty".

Definition normalize_network_rule_host (raw : str) : result str PolicyError :=
  let host := trim raw in
  if is_empty host then Err (InvalidRule msg_host_empty)
  else if has_url_part host
  then Err (InvalidRule (lit "network_rule host must be a hostname or IP literal (without scheme or path)"))
  else
    let? host := strip_port raw host in
    let normalized := to_ascii_lowercase (trim (trim_end_matches (char_eqb dot) host)) in
    if is_empty normalized then Err (InvalidRule msg_host_empty)
    else if contains_char 42 normalized
    then Err (InvalidRule (lit "network_rule host must be a specific host; wildcards are not allowed"))
    else if existsb is_whitespace normalized
    then Err (InvalidRule (lit "network_rule host cannot contain whitespace"))
    else Ok normalized.

(** ** Policies *)

Record MatchOptions := mkOptions { resolve_host_executables : bool }.
Definition default_options : MatchOptions := mkOptions false.

(** [MultiMap] keeps the rules of a program in the order they were inserted. *)
Record Policy := mkPolicy {
  rules_by_program : gmap str (list PrefixRule);
  network_rules : list NetworkRule;
  host_executables_by_name : gmap str (list abs_path)
}.

Definition policy_empty : Policy := mkPolicy ∅ [] ∅.

Definition multimap_insert (program : str) (rule : PrefixRule) (m : gmap str (list PrefixRule)) : gmap str (list PrefixRule) :=
  <[program := default [] (m !! program) ++ [rule]]> m.

Definition add_prefix_rule (prefix : list str) (decision : Decision) (p : Policy) : result Policy PolicyError :=
  match prefix with
  | [] => Err (InvalidPattern (lit "prefix cannot be empty"))
  | first_token :: rest =>
      let rule := mkRule (mkPattern first_token (Single <$> rest)) decision None in
      Ok (mkPolicy (multimap_insert first_token rule (rules_by_program p)) (network_rules p) (host_executables_by_name p))
  end.

Definition add_network_rule (host : str) (protocol : NetworkRuleProtocol) (decision : Decision)
    (justification : option str) (p : Policy) : result Policy PolicyError :=
  let? host := normalize_network_rule_host host in
  if is_some_and justification (fun raw => is_empty (trim raw))
  then Err (InvalidRule (lit "justification cannot be empty"))
  else Ok (mkPolicy (rules_by_program p) (network_rules p ++ [mkNetworkRule host protocol decision justification])
             (host_executables_by_name p)).

Definition set_host_executable_paths (name : str) (paths : list abs_path) (p : Policy) : Policy :=
  mkPolicy (rules_by_program p) (network_rules p) (<[name := paths]> (host_executables_by_name p)).

(** The loop over the overlay's rules: each program's rules, in order, are inserted. *)
Definition merge_rules (base overlay : gmap str (list PrefixRule)) : gmap str (list PrefixRule) :=
  foldl (fun combined '(program, rules) => foldl (fun c rule => multimap_insert program rule c) combined rules)
    base (map_to_list overlay).

Definition merge_overlay (self overlay : Policy) : Policy :=
  mkPolicy (merge_rules (rules_by_program self) (rules_by_program overlay))
    (network_rules self ++ network_rules overlay)
    (host_executables_by_name overlay ∪ host_executables_by_name self).

Definition retain_other (host : str) (entries : list str) : list str :=
  List.filter (fun entry => negb (str_eqb entry host)) entries.

Definition upsert_domain (entries : list str) (host : str) : list str := retain_other host entries ++ [host].

Definition compile_network_rule (acc : list str * list str) (rule : NetworkRule) : list str * list str :=
  let '(allowed, denied) := acc in
  match network_decision rule with
  | Allow => (upsert_domain allowed (network_host rule), retain_other (network_host rule) denied)
  | Forbidden => (retain_other (network_host rule) allowed, upsert_domain denied (network_host rule))
  | Prompt => (allowed, denied)
  end.

Definition compiled_network_domains (p : Policy) : list str * list str :=
  foldl compile_network_rule ([], []) (network_rules p).

(** ** Matching *)

(** What the code takes from its platform: [cfg(windows)], [AbsolutePathBuf::try_from],
    [Path::file_name], [shlex::try_join] and the [Debug] text of a rule and of a match. *)
Class Host := {
  cfg_windows : bool;
  absolute_path_try_from : str -> option abs_path;
  path_file_name : abs_path -> option str;
  try_join : list str -> option str;
  debug_rule : PrefixRule -> str;
  debug_match : RuleMatch -> str
}.

Definition WINDOWS_EXECUTABLE_SUFFIXES : list str := [lit ".exe"; lit ".cmd"; lit ".bat"; lit ".com"].

Fixpoint strip_first_suffix (suffixes : list str) (raw : str) : str :=
  match suffixes with
  | [] => raw
  | suffix :: suffixes' => match strip_suffix suffix raw with Some s => s | None => strip_first_suffix suffixes' raw end
  end.

Section matching.
Context `{Host}.

Definition executable_lookup_key (raw : str) : str :=
  if cfg_windows then strip_first_suffix WINDOWS_EXECUTABLE_SUFFIXES (to_ascii_lowercase raw) else raw.

Definition executable_path_lookup_key (path : abs_path) : option str := executable_lookup_key <$> path_file_name path.

Definition match_exact_rules (p : Policy) (cmd : list str) : option (list RuleMatch) :=
  match cmd with
  | [] => None
  | first :: _ => Some (omap (fun rule => rule_matches rule cmd) (default [] (rules_by_program p !! first)))
  end.

Definition match_host_executable_rules (p : Policy) (cmd : list str) : list RuleMatch :=
  match cmd with
  | [] => []
  | first :: args =>
      match absolute_path_try_from first with
      | None => []
      | Some program =>
          match executable_path_lookup_key program with
          | None => []
          | Some basename =>
              match rules_by_program p !! basename with
              | None => []
              | Some rules =>
                  let refused := match host_executables_by_name p !! basename with
                                 | Some paths => negb (existsb (fun path => str_eqb path program) paths)
                                 | None => false
                                 end in
                  if refused then []
                  else (fun m => with_resolved_program m program) <$>
                         omap (fun rule => rule_matches rule (basename :: args)) rules
              end
          end
      end
  end.

(** The first non-empty of the exact and, when asked for, the host-executable matches. *)
Definition policy_matches (p : Policy) (cmd : list str) (options : MatchOptions) : list RuleMatch :=
  match match_exact_rules p cmd with
  | Some ((_ :: _) as matched) => matched
  | _ => if resolve_host_executables options then match_host_executable_rules p cmd else []
  end.

Definition matches_for_command_with_options (p : Policy) (cmd : list str)
    (heuristics_fallback : option (list str -> Decision)) (options : MatchOptions) : list RuleMatch :=
  let matched_rules := policy_matches p cmd options in
  match heuristics_fallback with
  | Some heuristics_fallback =>
      if is_empty matched_rules then [HeuristicsRuleMatch cmd (heuristics_fallback cmd)] else matched_rules
  | None => matched_rules
  end.

Record Evaluation := mkEvaluation { decision : Decision; matched_rules : list RuleMatch }.

Definition is_match (e : Evaluation) : bool :=
  existsb (fun m => match m with HeuristicsRuleMatch _ _ => false | _ => true end) (matched_rules e).

(** [Iterator::max], and the [expect] that panics on an empty sequence. *)
Definition from_matches (matched : list RuleMatch) : result Evaluation PolicyError :=
  match match_decision <$> matched with
  | [] => Panic
  | d :: ds => Ok (mkEvaluation (foldl decision_max d ds) matched)
  end.

Definition check_with_options (p : Policy) (cmd : list str) (heuristics_fallback : list str -> Decision)
    (options : MatchOptions) : result Evaluation PolicyError :=
  from_matches (matches_for_command_with_options p cmd (Some heuristics_fallback) options).

Definition check (p : Policy) (cmd : list str) (heuristics_fallback : list str -> Decision) : result Evaluation PolicyError :=
  check_with_options p cmd heuristics_fallback default_options.

Definition check_multiple_with_options (p : Policy) (commands : list (list str)) (heuristics_fallback : list str -> Decision)
    (options : MatchOptions) : result Evaluation PolicyError :=
  from_matches (mjoin ((fun cmd => matches_for_command_with_options p cmd (Some heuristics_fallback) options) <$> commands)).

Definition render_example (example : list str) : str := default (lit "unable to render example") (try_join example).

Definition validate_match_examples (p : Policy) (rules : list PrefixRule) (examples : list (list str))
  : result unit PolicyError :=
  let unmatched := List.filter (fun e => is_empty (matches_for_command_with_options p e None (mkOptions true))) examples in
  if is_empty unmatched then Ok tt
  else Err (ExampleDidNotMatch (debug_rule <$> rules) (render_example <$> unmatched)).

Fixpoint validate_not_match_examples (p : Policy) (not_matches : list (list str)) : result unit PolicyError :=
  match not_matches with
  | [] => Ok tt
  | example :: not_matches' =>
      match matches_for_command_with_options p example None (mkOptions true) with
      | rule :: _ => Err (ExampleDidMatch (debug_match rule) (render_example example))
      | [] => validate_not_match_examples p not_matches'
      end
  end.

End matching.

(** ** Listing what is allowed *)

Definition render_pattern_token (t : PatternToken) : str :=
  match t with
  | Single value => value
  | Alts alternatives => lit "[" ++ join (lit "|") alternatives ++ lit "]"
  end.

Definition allowed_prefix (r : PrefixRule) : option (list str) :=
  match rule_decision r with
  | Allow => Some (pattern_first (rule_pattern r) :: (render_pattern_token <$> pattern_rest (rule_pattern r)))
  | _ => None
  end.

(** The derived order of [Vec<String>]. *)
Fixpoint prefix_leb (a b : list str) : bool :=
  match a, b with
  | [], _ => true
  | _ :: _, [] => false
  | x :: a', y :: b' => if str_eqb x y then prefix_leb a' b' else str_leb x y
  end.

(** The order in which the map yields its programs is lost in the sort. *)
Definition get_allowed_prefixes (p : Policy) : list (list str) :=
  dedup (sort_by prefix_leb (omap allowed_prefix (mjoin (map_to_list (rules_by_program p)).*2))).

(** ** Matching, as a relation *)

Lemma token_matches_spec t token : token_matches t token = true <-> token ∈ alternatives t.
Proof.
  destruct t as [e|alts]; simpl.
  - rewrite list_elem_of_singleton. unfold str_eqb. rewrite bool_decide_eq_true. naive_solver.
  - rewrite existsb_exists, list_elem_of_In. unfold str_eqb. split.
    + intros (x & Hx & ->%bool_decide_eq_true). done.
    + intros Hx. exists token. by rewrite bool_decide_eq_true.
Qed.

Lemma forallb_zip_Forall2 {A B} (f : A -> B -> bool) l k :
  length l = length k -> forallb (fun '(a, b) => f a b) (zip l k) = true <-> Forall2 (fun a b => f a b = true) l k.
Proof.
  revert k. induction l as [|a l IH]; intros [|b k] Hl; simplify_eq/=; [split; [constructor|done]|].
  rewrite andb_true_iff, Forall2_cons, IH by done. done.
Qed.

Lemma matches_prefix_Some p cmd pre :
  matches_prefix p cmd = Some pre <->
  exists toks args, cmd = pattern_first p :: toks ++ args /\ pre = pattern_first p :: toks /\
    Forall2 (fun t tok => tok ∈ alternatives t) (pattern_rest p) toks.
Proof.
  assert (forall toks, Forall2 (fun t tok => tok ∈ alternatives t) (pattern_rest p) toks <->
            Forall2 (fun t tok => token_matches t tok = true) (pattern_rest p) toks) as HF.
  { intros toks. split; intros HF; eapply Forall2_impl; try exact HF; intros ? ?; apply token_matches_spec. }
  unfold matches_prefix. rewrite !Nat.add_1_r. simpl (S _ - 1). rewrite Nat.sub_0_r. split.
  - destruct (_ || _) eqn:Eo; [done|]. apply orb_false_iff in Eo as [Hlen Hfirst]. apply Nat.ltb_ge in Hlen.
    destruct cmd as [|first args]; simpl in Hlen; [lia|]. apply negb_false_iff in Hfirst. simpl in *. to_prop. subst.
    rewrite drop_0. destruct (forallb _ _) eqn:Ef; [|done]. intros [= <-].
    exists (take (length (pattern_rest p)) args), (drop (length (pattern_rest p)) args).
    rewrite take_drop. split_and!; [done..|]. apply HF.
    apply forallb_zip_Forall2 in Ef; [done|]. rewrite length_take. lia.
  - intros (toks & args & -> & -> & HF2). apply HF in HF2. pose proof (Forall2_length _ _ _ HF2) as Hl.
    rewrite length_cons, length_app, Hl. rewrite (proj2 (Nat.ltb_ge _ _)) by lia. simpl.
    unfold str_eqb at 1. rewrite bool_decide_eq_true_2 by done. simpl.
    rewrite drop_0, take_app_length. apply forallb_zip_Forall2 in HF2; [|done]. by rewrite HF2.
Qed.

(** ** The strictest decision *)

Lemma decision_max_severity a b : severity (decision_max a b) = Nat.max (severity a) (severity b).
Proof. by destruct a, b. Qed.

Lemma foldl_max_bound ds d :
  (forall x, x ∈ d :: ds -> severity x <= severity (foldl decision_max d ds)) /\ foldl decision_max d ds ∈ d :: ds.
Proof.
  revert d. induction ds as [|y ds IH]; intros d; simpl.
  - split; [intros x ->%list_elem_of_singleton; done|by left].
  - destruct (IH (decision_max d y)) as [Hb Hi]. split.
    + assert (severity (decision_max d y) <= severity (foldl decision_max (decision_max d y) ds)) as Hm by (apply Hb; by left).
      rewrite decision_max_severity in Hm. intros x. rewrite !elem_of_cons. intros [->|[->|Hx]]; [lia..|].
      apply Hb. by right.
    + apply elem_of_cons in Hi as [Hi|Hi]; [|by do 2 right]. rewrite Hi. unfold decision_max. case_match; [right; by left|by left].
Qed.

(** The evaluation of non-empty matches: the strictest of their decisions. *)
Definition strictest (matched : list RuleMatch) (d : Decision) : Prop :=
  (exists m, m ∈ matched /\ match_decision m = d) /\ forall m, m ∈ matched -> severity (match_decision m) <= severity d.

Lemma from_matches_Ok matched e :
  from_matches matched = Ok e <-> matched <> [] /\ matched_rules e = matched /\ strictest matched (decision e).
Proof.
  unfold from_matches, strictest. split.
  - destruct matched as [|m ms]; [done|]. simpl. intros [= <-]. simpl. split_and!; [done|done|..].
    + destruct (foldl_max_bound (match_decision <$> ms) (match_decision m)) as [_ Hi].
      change (match_decision m :: (match_decision <$> ms)) with (match_decision <$> (m :: ms)) in Hi.
      apply list_elem_of_fmap in Hi as (x & Hx & Hin). eauto.
    + intros x Hx. apply foldl_max_bound. by apply (list_elem_of_fmap_2 match_decision (m :: ms)).
  - intros (Hne & Hm & (x & Hx & Hd) & Hb). destruct matched as [|m ms]; [done|]. simpl. f_equal.
    destruct (foldl_max_bound (match_decision <$> ms) (match_decision m)) as [Hb' Hi].
    change (match_decision m :: (match_decision <$> ms)) with (match_decision <$> (m :: ms)) in Hi, Hb'.
    apply list_elem_of_fmap in Hi as (y & Hy & Hin). destruct e as [de me]. simpl in *. subst me. f_equal.
    assert (severity (foldl decision_max (match_decision m) (match_decision <$> ms)) = severity de) as Hs.
    { apply Nat.le_antisymm; [rewrite Hy; by apply Hb|]. rewrite <- Hd. apply Hb'. by apply (list_elem_of_fmap_2 match_decision (m :: ms)). }
    clear -Hs. by destruct (foldl _ _ _), de.
Qed.

Lemma from_matches_total matched : matched <> [] -> exists e, from_matches matched = Ok e.
Proof. destruct matched as [|m ms]; [done|]. intros _. simpl. eauto. Qed.

(** ** Merging *)

Lemma multimap_insert_lookup program rule m k :
  default [] (multimap_insert program rule m !! k) =
  default [] (m !! k) ++ (if decide (k = program) then [rule] else []).
Proof.
  unfold multimap_insert. destruct (decide (k = program)) as [->|Hn].
  - by rewrite lookup_insert_eq.
  - by rewrite lookup_insert_ne, app_nil_r.
Qed.

Lemma multimap_insert_all program rules m k :
  default [] (foldl (fun c rule => multimap_insert program rule c) m rules !! k) =
  default [] (m !! k) ++ (if decide (k = program) then rules else []).
Proof.
  revert m. induction rules as [|r rules IH]; intros m; simpl; [case_decide; by rewrite app_nil_r|].
  rewrite IH, multimap_insert_lookup, <- app_assoc. by case_decide.
Qed.

Lemma merge_list (l : list (str * list PrefixRule)) (m : gmap str (list PrefixRule)) k :
  NoDup l.*1 ->
  default [] (foldl (fun combined '(program, rules) => foldl (fun c rule => multimap_insert program rule c) combined rules) m l !! k)
    = default [] (m !! k) ++ default [] ((list_to_map l : gmap str (list PrefixRule)) !! k).
Proof.
  revert m. induction l as [|[program rules] l IH]; intros m Hnd; simpl; [by rewrite lookup_empty, app_nil_r|].
  apply NoDup_cons in Hnd as [Hni Hnd]. rewrite IH, multimap_insert_all, <- app_assoc by done. f_equal.
  destruct (decide (k = program)) as [->|Hn].
  - rewrite lookup_insert_eq. assert (list_to_map l !! program = None (A := list PrefixRule)) as ->; [|by rewrite app_nil_r].
    by apply not_elem_of_list_to_map.
  - by rewrite lookup_insert_ne.
Qed.

Lemma merge_rules_lookup base overlay k :
  default [] (merge_rules base overlay !! k) = default [] (base !! k) ++ default [] (overlay !! k).
Proof. unfold merge_rules. rewrite merge_list by apply NoDup_fst_map_to_list. by rewrite list_to_map_to_list. Qed.

Lemma merged_exact_matches p o cmd :
  match_exact_rules (merge_overlay p o) cmd =
  match match_exact_rules p cmd, match_exact_rules o cmd with
  | Some a, Some b => Some (a ++ b)
  | _, _ => None
  end.
Proof.
  destruct cmd as [|first args]; simpl; [done|]. rewrite merge_rules_lookup. by rewrite omap_app.
Qed.

Lemma strictest_mono a b da dab : strictest a da -> strictest (a ++ b) dab -> severity da <= severity dab.
Proof. intros [(m & Hm & <-) _] [_ Hb]. apply Hb, elem_of_app. by left. Qed.

(** ** Network domains *)

Lemma elem_of_retain_other h x l : x ∈ retain_other h l <-> x ∈ l /\ x <> h.
Proof.
  unfold retain_other. rewrite !list_elem_of_In, filter_In, negb_true_iff. unfold str_eqb. by rewrite bool_decide_eq_false.
Qed.

Lemma elem_of_upsert h x l : x ∈ upsert_domain l h <-> x = h \/ x ∈ l.
Proof.
  unfold upsert_domain. rewrite elem_of_app, elem_of_retain_other, list_elem_of_singleton.
  destruct (decide (x = h)); naive_solver.
Qed.

Lemma NoDup_retain_other h l : NoDup l -> NoDup (retain_other h l).
Proof. rewrite !NoDup_ListNoDup. apply List.NoDup_filter. Qed.

Lemma NoDup_upsert h l : NoDup l -> NoDup (upsert_domain l h).
Proof.
  intros Hl. unfold upsert_domain. apply NoDup_app. split_and!; [by apply NoDup_retain_other| |apply NoDup_singleton].
  intros x [_ Hn]%elem_of_retain_other. by rewrite list_elem_of_singleton.
Qed.

(** The last rule for a host that allows or forbids. *)
Definition last_decision (rules : list NetworkRule) (host : str) : option Decision :=
  foldl (fun acc r => if str_eqb (network_host r) host then
                        match network_decision r with Prompt => acc | d => Some d end
                      else acc) None rules.

(** What a pair of lists has compiled so far. *)
Definition compiled (acc : list str * list str) (decide : str -> option Decision) : Prop :=
  NoDup acc.1 /\ NoDup acc.2 /\ forall h, (h ∈ acc.1 <-> decide h = Some Allow) /\ (h ∈ acc.2 <-> decide h = Some Forbidden).

Lemma compile_network_rule_ok acc f r :
  compiled acc f ->
  compiled (compile_network_rule acc r)
    (fun h => if str_eqb (network_host r) h then match network_decision r with Prompt => f h | d => Some d end else f h).
Proof.
  destruct acc as [allowed denied]. intros (Ha & Hd & Hf). simpl in *. unfold compiled.
  destruct (network_decision r); simpl.
  - split_and!; [by apply NoDup_upsert|by apply NoDup_retain_other|]. intros h. destruct (Hf h) as [Hf1 Hf2].
    rewrite elem_of_upsert, elem_of_retain_other, Hf1, Hf2. unfold str_eqb. case_bool_decide; subst; naive_solver.
  - split_and!; [done..|]. intros h. destruct (Hf h) as [Hf1 Hf2]. by case_match.
  - split_and!; [by apply NoDup_retain_other|by apply NoDup_upsert|]. intros h. destruct (Hf h) as [Hf1 Hf2].
    rewrite elem_of_upsert, elem_of_retain_other, Hf1, Hf2. unfold str_eqb. case_bool_decide; subst; naive_solver.
Qed.

Lemma compile_all_ok rules acc f :
  compiled acc f ->
  compiled (foldl compile_network_rule acc rules)
    (fun h => foldl (fun a r => if str_eqb (network_host r) h then
                                  match network_decision r with Prompt => a | d => Some d end else a) (f h) rules).
Proof.
  revert acc f. induction rules as [|r rules IH]; intros acc f Hc; simpl; [done|].
  apply (IH _ _ (compile_network_rule_ok acc f r Hc)).
Qed.

(** ** Hosts *)

Lemma strip_port_sub raw host h c : strip_port raw host = Ok h -> c ∈ h -> c ∈ host.
Proof.
  unfold strip_port. destruct (strip_prefix [91%N] host) as [stripped|] eqn:Es.
  - apply strip_prefix_Some in Es as ->. destruct (split_once 93 stripped) as [[inside rest]|] eqn:Eo; [|done].
    apply split_once_Some in Eo as [-> _]. destruct (_ && _); [done|]. intros [= <-] Hc.
    rewrite !elem_of_app. auto.
  - destruct (count_char colon host =? 1); [|by intros [= <-]].
    destruct (rsplit_once colon host) as [[candidate port]|] eqn:Er; [|by intros [= <-]].
    destruct (_ && _); [|by intros [= <-]]. intros [= <-] Hc. unfold rsplit_once in Er.
    destruct (split_once colon (rev host)) as [[a b]|] eqn:Eo; simplify_eq. apply split_once_Some in Eo as [Eo _].
    rewrite <- (rev_involutive host), Eo, list_elem_of_In, <- in_rev. apply list_elem_of_In. rewrite elem_of_app, elem_of_cons.
    right. right. by rewrite list_elem_of_In, <- in_rev, <- list_elem_of_In in Hc.
Qed.

(** ** Properties *)

(** Which commands a prefix rule matches: those that start with the rule's first
    token followed by one of the alternatives of each further token; the match reports
    exactly that prefix. *)
Theorem prefix_rule_matches_exactly (r : PrefixRule) (cmd : list str) (m : RuleMatch) :
  rule_matches r cmd = Some m <->
  exists toks args, cmd = pattern_first (rule_pattern r) :: toks ++ args /\
    Forall2 (fun t tok => tok ∈ alternatives t) (pattern_rest (rule_pattern r)) toks /\
    m = PrefixRuleMatch (pattern_first (rule_pattern r) :: toks) (rule_decision r) None (rule_justification r).
Proof.
  unfold rule_matches. split.
  - destruct (matches_prefix (rule_pattern r) cmd) as [pre|] eqn:E; [|done]. intros [= <-].
    apply matches_prefix_Some in E as (toks & args & -> & -> & HF). eauto.
  - intros (toks & args & -> & HF & ->).
    assert (matches_prefix (rule_pattern r) (pattern_first (rule_pattern r) :: toks ++ args) =
            Some (pattern_first (rule_pattern r) :: toks)) as ->; [|done].
    apply matches_prefix_Some. eauto.
Qed.

(** The decision on several commands is the strictest: evaluation panics only when
    there is no command; otherwise it is the decision of one of the rules or heuristics
    that matched one of the commands, no match of any command is stricter, and every
    command has a match. *)
Theorem check_multiple_strictest `{Host} (p : Policy) (commands : list (list str)) (f : list str -> Decision) (o : MatchOptions) :
  match check_multiple_with_options p commands f o with
  | Ok e => commands <> [] /\
      matched_rules e = mjoin ((fun cmd => matches_for_command_with_options p cmd (Some f) o) <$> commands) /\
      strictest (matched_rules e) (decision e) /\
      forall cmd, cmd ∈ commands -> exists e', check_with_options p cmd f o = Ok e' /\ severity (decision e') <= severity (decision e)
  | Err _ => False
  | Panic => commands = []
  end.
Proof.
  assert (forall cmd, matches_for_command_with_options p cmd (Some f) o <> []) as Hne.
  { intros cmd. unfold matches_for_command_with_options. by destruct (policy_matches p cmd o). }
  destruct (check_multiple_with_options p commands f o) as [e|?|] eqn:Ec; unfold check_multiple_with_options in Ec.
  - apply from_matches_Ok in Ec as (Hm & Hr & Hs). rewrite Hr. split_and!; [by intros ->|done|done|].
    intros cmd Hcmd. unfold check_with_options. specialize (Hne cmd).
    destruct (from_matches_total _ Hne) as [e' Ee].
    exists e'. split; [done|]. apply from_matches_Ok in Ee as (_ & _ & (m & Hm' & <-) & _). apply Hs.
    apply list_elem_of_join. eexists. split; [exact Hm'|]. by apply (list_elem_of_fmap_2 (fun cmd => matches_for_command_with_options p cmd (Some f) o)).
  - unfold from_matches in Ec. by case_match.
  - destruct commands as [|cmd commands]; [done|]. destruct (from_matches_total
      (mjoin ((fun cmd => matches_for_command_with_options p cmd (Some f) o) <$> cmd :: commands))) as [e Ee]; [|congruence].
    simpl. intros [Hnil _]%app_eq_nil. by apply (Hne cmd).
Qed.

(** An overlay never relaxes a rule: when a rule of the policy itself matches a
    command, overlaying the policy with another gives a decision at least as strict. *)
Theorem overlay_never_relaxes `{Host} (p o : Policy) (cmd : list str) (f : list str -> Decision) (e : Evaluation) :
  check p cmd f = Ok e -> is_match e = true ->
  exists e', check (merge_overlay p o) cmd f = Ok e' /\ severity (decision e) <= severity (decision e').
Proof.
  unfold check, check_with_options, matches_for_command_with_options, policy_matches. simpl.
  rewrite merged_exact_matches. intros Hc Hm. destruct (match_exact_rules p cmd) as [[|m ms]|] eqn:Ee.
  - simpl in Hc. injection Hc as <-. by unfold is_match in Hm.
  - simpl is_empty in Hc. cbn match in Hc. destruct (match_exact_rules o cmd) as [ms'|] eqn:Eo; [|by destruct cmd].
    destruct (from_matches_total (m :: ms ++ ms')) as [e' He']; [done|]. exists e'. split; [exact He'|].
    apply from_matches_Ok in Hc as (_ & _ & Hs). apply from_matches_Ok in He' as (_ & _ & Hs').
    by apply (strictest_mono (m :: ms) ms').
  - simpl in Hc. injection Hc as <-. by unfold is_match in Hm.
Qed.

(** Compiled network domains: no host is listed twice or on both sides, and a host is
    allowed or denied by the last of its rules that is not a prompt. *)
Theorem compiled_domains_last_rule_wins (p : Policy) :
  NoDup (compiled_network_domains p).1 /\ NoDup (compiled_network_domains p).2 /\
  forall h, (h ∈ (compiled_network_domains p).1 <-> last_decision (network_rules p) h = Some Allow) /\
            (h ∈ (compiled_network_domains p).2 <-> last_decision (network_rules p) h = Some Forbidden).
Proof.
  apply (compile_all_ok (network_rules p) ([], []) (fun _ => None)). split_and!; [constructor..|].
  intros h. simpl. rewrite !elem_of_nil. done.
Qed.

(** A rule that is added takes effect: any command that starts with its prefix is
    matched by a rule, and the decision is at least as strict as the one asked for. *)
Theorem added_rule_takes_effect `{Host} (prefix args : list str) (d : Decision) (p p' : Policy) (f : list str -> Decision) :
  add_prefix_rule prefix d p = Ok p' ->
  exists e, check p' (prefix ++ args) f = Ok e /\ is_match e = true /\ severity d <= severity (decision e).
Proof.
  destruct prefix as [|first rest]; simpl; [done|]. intros [= <-].
  set (rule := mkRule (mkPattern first (Single <$> rest)) d None). set (m := PrefixRuleMatch (first :: rest) d None None).
  assert (rule_matches rule (first :: rest ++ args) = Some m) as Hm.
  { unfold rule_matches. assert (matches_prefix (rule_pattern rule) (first :: rest ++ args) = Some (first :: rest)) as ->; [|done].
    apply matches_prefix_Some. exists rest, args. split_and!; [done..|]. simpl. apply Forall2_fmap_l, Forall_Forall2_diag, Forall_true.
    intros x. simpl. apply list_elem_of_singleton. done. }
  unfold check, check_with_options, matches_for_command_with_options, policy_matches. simpl.
  rewrite multimap_insert_lookup, decide_True by done.
  rewrite omap_app. simpl. rewrite Hm. set (old := omap _ _).
  destruct (from_matches_total (old ++ [m])) as [e He]; [by destruct old|].
  exists e. pose proof He as Hs. apply from_matches_Ok in Hs as (_ & Hr & _ & Hb). split_and!.
  - by destruct old.
  - unfold is_match. rewrite Hr. apply existsb_exists. exists m. split; [|done]. apply in_or_app. right. by left.
  - apply (Hb m). apply elem_of_app. right. by left.
Qed.

#[local] Instance plain_host : Host := {
  cfg_windows := false;
  absolute_path_try_from s := if starts_with [slash_char] s then Some s else None;
  path_file_name s := snd <$> rsplit_once slash_char s;
  try_join c := Some (join (lit " ") c);
  debug_rule _ := [];
  debug_match _ := []
}.

Definition git_policy : Policy := mkPolicy {[ lit "git" := [mkRule (mkPattern (lit "git") [Alts [lit "push"; lit "fetch"]]) Prompt None] ]} [] ∅.

Lemma overlay_never_relaxes_witness :
  exists e', check (merge_overlay git_policy (mkPolicy {[ lit "git" := [mkRule (mkPattern (lit "git") []) Allow None] ]} [] ∅))
               [lit "git"; lit "push"] (fun _ => Allow) = Ok e' /\ severity Prompt <= severity (decision e').
Proof.
  apply (overlay_never_relaxes git_policy _ [lit "git"; lit "push"] (fun _ => Allow)
           (mkEvaluation Prompt [PrefixRuleMatch [lit "git"; lit "push"] Prompt None None])); vm_compute; reflexivity.
Defined.

Lemma added_rule_takes_effect_witness :
  exists e, check (mkPolicy {[ lit "rm" := [mkRule (mkPattern (lit "rm") [Single (lit "-rf")]) Forbidden None] ]} [] ∅)
              ([lit "rm"; lit "-rf"] ++ [lit "/"]) (fun _ => Allow) = Ok e /\ is_match e = true /\ severity Forbidden <= severity (decision e).
Proof.
  apply (added_rule_takes_effect [lit "rm"; lit "-rf"] [lit "/"] Forbidden policy_empty). vm_compute. reflexivity.
Defined.

(** The host of a network rule is a plain lower-case name: never empty, and without
    white space, wildcard, slash, question mark or hash. *)
Theorem normalized_host_is_plain (raw h : str) :
  normalize_network_rule_host raw = Ok h ->
  h <> [] /\ to_ascii_lowercase h = h /\
  (forall c, c ∈ h -> is_whitespace c = false) /\ (forall c, c ∈ [42%N; 47%N; 63%N; 35%N] -> c ∉ h).
Proof.
  unfold normalize_network_rule_host. destruct (is_empty (trim raw)); [done|].
  destruct (has_url_part (trim raw)) eqn:Eu; [done|]. destruct (strip_port raw (trim raw)) as [host|?|] eqn:Es; [|done..].
  simpl. set (n := to_ascii_lowercase _). destruct (is_empty n) eqn:Ee; [done|].
  destruct (contains_char 42 n) eqn:E42; [done|]. destruct (existsb is_whitespace n) eqn:Ew; [done|]. intros [= <-].
  assert (forall c, contains_char c (trim raw) = false -> (c < 65)%N -> c ∉ n) as Hsub.
  { intros c Hc Hlt Hin. apply elem_of_to_ascii_lowercase, elem_of_trim, elem_of_trim_end_matches in Hin; [|done].
    eapply strip_port_sub, contains_char_spec in Hin; [|done]. congruence. }
  unfold has_url_part in Eu. rewrite !orb_false_iff in Eu. destruct Eu as [[H47 H63] H35]. split_and!.
  - by destruct n.
  - apply to_ascii_lowercase_idem.
  - intros c Hc. destruct (is_whitespace c) eqn:Ec; [|done]. assert (existsb is_whitespace n = true); [|congruence].
    apply existsb_exists. exists c. by rewrite <- list_elem_of_In.
  - intros c. rewrite !elem_of_cons, elem_of_nil. intros [->|[->|[->|[->|[]]]]]; [|by apply Hsub..].
    intros Hin. apply contains_char_spec in Hin. congruence.
Qed.

Lemma normalized_host_is_plain_witness :
  lit "example.com" <> [] /\ to_ascii_lowercase (lit "example.com") = lit "example.com" /\
  (forall c, c ∈ lit "example.com" -> is_whitespace c = false) /\ (forall c, c ∈ [42%N; 47%N; 63%N; 35%N] -> c ∉ lit "example.com").
Proof. apply (normalized_host_is_plain (lit " Example.COM.:443 ")). vm_compute. reflexivity. Defined.
