(* ===== verification/ShellTree.v ===== *)
(** * Shell scripts as syntax trees: [shell-command/src/bash.rs], [shell_detect.rs]

    Unix paths as [std::path] sees them, the kind of a shell from its path, and the
    extraction of command words from the tree that tree-sitter builds for a script.  The
    parser is a parameter; the traversals over the tree it returns are modelled with
    their explicit stack. *)

From stdpp Require Import base list strings gmap sorting.
From S2P Require Import Prelude.

(** ** [std::path::Path] on Unix *)

Inductive Component : Type := RootDir | CurDir | ParentDir | Normal (s : str).

#[export] Instance Component_eq_dec : EqDecision Component.
Proof. solve_decision. Defined.

Definition path_sep : N := 47.
Definition period : str := lit ".".

Definition component (part : str) : option Component :=
  if is_empty part || str_eqb part period then None
  else if str_eqb part (lit "..") then Some ParentDir
  else Some (Normal part).

(** [Path::components]: empty parts and inner [.] parts are skipped. *)
Definition components (p : str) : list Component :=
  let parts := split path_sep p in
  (if starts_with [path_sep] p then [RootDir]
   else if str_eqb (default [] (head parts)) period then [CurDir] else [])
  ++ omap component parts.

Definition file_name (p : str) : option str :=
  match last (components p) with Some (Normal s) => Some s | _ => None end.

Definition file_stem (p : str) : option str :=
  match file_name p with
  | None => None
  | Some name =>
      match rsplit_once 46 name with
      | Some (before, _) => Some (if is_empty before then name else before)
      | None => Some name
      end
  end.

Definition path_eqb (p q : str) : bool := bool_decide (components p = components q).

(** ** [shell_detect.rs] *)

Inductive ShellType : Type := Zsh | Bash | PowerShellType | Sh | CmdType.

Definition shell_by_name (s : str) : option ShellType :=
  if str_eqb s (lit "zsh") then Some Zsh
  else if str_eqb s (lit "sh") then Some Sh
  else if str_eqb s (lit "cmd") then Some CmdType
  else if str_eqb s (lit "bash") then Some Bash
  else if mem_str s [lit "pwsh"; lit "powershell"] then Some PowerShellType
  else None.

(** The recursion goes from a path to its file stem, which is shorter. *)
Fixpoint detect_loop (fuel : nat) (shell_path : str) : option ShellType :=
  match shell_by_name shell_path with
  | Some t => Some t
  | None =>
      match fuel, file_stem shell_path with
      | S fuel', Some shell_name => if path_eqb shell_name shell_path then None else detect_loop fuel' shell_name
      | _, _ => None
      end
  end.

Definition detect_shell_type (shell_path : str) : option ShellType := detect_loop (S (length shell_path)) shell_path.

(** ** Trees *)

(** A tree-sitter node: its kind, whether it is named, where it starts, its text when it
    is UTF-8, and its children. *)
#[warnings="-register-all"]
Inductive Node : Type :=
  mkNode (kind : str) (named : bool) (start : nat) (text : option str) (kids : list Node).

Definition node_kind (n : Node) : str := let 'mkNode k _ _ _ _ := n in k.
Definition is_named (n : Node) : bool := let 'mkNode _ b _ _ _ := n in b.
Definition start_byte (n : Node) : nat := let 'mkNode _ _ s _ _ := n in s.
Definition utf8_text (n : Node) : option str := let 'mkNode _ _ _ t _ := n in t.
Definition children (n : Node) : list Node := let 'mkNode _ _ _ _ c := n in c.
Definition named_children (n : Node) : list Node := List.filter is_named (children n).

Fixpoint node_size (n : Node) : nat := let 'mkNode _ _ _ _ c := n in S (sum_list_with node_size c).

(** The bash parser: the root of the tree, and whether it has an error. *)
Class BashParser := { try_parse_shell : str -> option (Node * bool) }.

Definition kind_is (k : string) (n : Node) : bool := str_eqb (node_kind n) (lit k).

Definition dquote : str := [34%N].
Definition squote : str := [39%N].

Definition ALLOWED_KINDS : list str :=
  [lit "program"; lit "list"; lit "pipeline"; lit "command"; lit "command_name"; lit "word"; lit "string";
   lit "string_content"; lit "raw_string"; lit "number"; lit "concatenation"].
Definition ALLOWED_PUNCT_TOKENS : list str := [lit "&&"; lit "||"; lit ";"; lit "|"; dquote; squote].

(** The checks of the traversal on one node. *)
Definition node_allowed (n : Node) : bool :=
  let kind := node_kind n in
  if is_named n then mem_str kind ALLOWED_KINDS
  else if existsb (fun c => contains_char c (lit "&;|")) kind && negb (mem_str kind ALLOWED_PUNCT_TOKENS) then false
  else mem_str kind ALLOWED_PUNCT_TOKENS || is_empty (trim kind).

(** [while let Some(node) = stack.pop()]: the last element is popped, the children of a
    node are pushed in order. *)
Fixpoint collect_loop (fuel : nat) (stack : list Node) (command_nodes : list Node) : option (list Node) :=
  match fuel, stack with
  | _, [] => Some command_nodes
  | 0, _ :: _ => None
  | S fuel', node :: rest =>
      if node_allowed node then
        collect_loop fuel' (rev (children node) ++ rest)
          (if is_named node && kind_is "command" node then command_nodes ++ [node] else command_nodes)
      else None
  end.

(** ** Words *)

Definition parse_double_quoted_string (n : Node) : option str :=
  if negb (kind_is "string" n) then None
  else if negb (forallb (kind_is "string_content") (named_children n)) then None
  else raw ← utf8_text n; text ← strip_prefix dquote raw; strip_suffix dquote text.

Definition parse_raw_string (n : Node) : option str :=
  if negb (kind_is "raw_string" n) then None
  else raw ← utf8_text n; text ← strip_prefix squote raw; strip_suffix squote text.

(** One part of a concatenation, in a plain command. *)
Definition plain_part (part : Node) : option str :=
  if kind_is "word" part || kind_is "number" part then utf8_text part
  else if kind_is "string" part then parse_double_quoted_string part
  else if kind_is "raw_string" part then parse_raw_string part
  else None.

Fixpoint concat_parts (f : Node -> option str) (parts : list Node) : option str :=
  match parts with
  | [] => Some []
  | p :: parts' => a ← f p; b ← concat_parts f parts'; Some (a ++ b)
  end.

Definition plain_child (child : Node) : option str :=
  if kind_is "command_name" child then
    word_node ← head (named_children child);
    if kind_is "word" word_node then utf8_text word_node else None
  else if kind_is "word" child || kind_is "number" child then utf8_text child
  else if kind_is "string" child then parse_double_quoted_string child
  else if kind_is "raw_string" child then parse_raw_string child
  else if kind_is "concatenation" child then
    concatenated ← concat_parts plain_part (named_children child);
    if is_empty concatenated then None else Some concatenated
  else None.

Definition parse_plain_command_from_node (cmd : Node) : option (list str) :=
  if kind_is "command" cmd then mapM plain_child (named_children cmd) else None.

Definition is_literal_word_or_number (n : Node) : bool :=
  (kind_is "word" n || kind_is "number" n) && is_empty (named_children n).

(** The recursion follows the tree; [fuel] is its size. *)
Fixpoint literal_word_loop (fuel : nat) (n : Node) : option str :=
  match fuel with
  | 0 => None
  | S fuel' =>
      if (kind_is "word" n || kind_is "number" n) && is_literal_word_or_number n then utf8_text n
      else if kind_is "string" n then parse_double_quoted_string n
      else if kind_is "raw_string" n then parse_raw_string n
      else if kind_is "concatenation" n then
        concatenated ← concat_parts (literal_word_loop fuel') (named_children n);
        if is_empty concatenated then None else Some concatenated
      else None
  end.

Definition parse_literal_shell_word (n : Node) : option str := literal_word_loop (node_size n) n.

(** The loop over the children of a command; words before the name are not taken. *)
Fixpoint literal_children (kids : list Node) (words : list str) (found_command_name : bool)
  : option (list str * bool) :=
  match kids with
  | [] => Some (words, found_command_name)
  | child :: kids' =>
      if kind_is "command_name" child then
        name_node ← head (named_children child);
        command_name ← parse_literal_shell_word name_node;
        literal_children kids' (words ++ [command_name]) true
      else if found_command_name then
        match parse_literal_shell_word child with
        | Some word => literal_children kids' (words ++ [word]) true
        | None => literal_children kids' words true
        end
      else literal_children kids' words found_command_name
  end.

Definition parse_literal_command_from_node (cmd : Node) : option (list str) :=
  if kind_is "command" cmd then
    r ← literal_children (named_children cmd) [] false;
    if r.2 : bool then Some r.1 else None
  else None.

Definition is_allowed_heredoc_attachment_kind (kind : str) : bool :=
  mem_str kind [lit "heredoc_body"; lit "simple_heredoc_body"; lit "heredoc_redirect"; lit "herestring_redirect";
                lit "redirected_statement"].

Fixpoint heredoc_words (kids : list Node) (words : list str) : option (list str) :=
  match kids with
  | [] => Some words
  | child :: kids' =>
      if kind_is "command_name" child then
        word_node ← head (named_children child);
        if is_literal_word_or_number word_node
        then text ← utf8_text word_node; heredoc_words kids' (words ++ [text])
        else None
      else if kind_is "word" child || kind_is "number" child then
        if is_literal_word_or_number child
        then text ← utf8_text child; heredoc_words kids' (words ++ [text])
        else None
      else if kind_is "comment" child || is_allowed_heredoc_attachment_kind (node_kind child)
      then heredoc_words kids' words
      else None
  end.

Definition parse_heredoc_command_words (cmd : Node) : option (list str) :=
  if kind_is "command" cmd then
    words ← heredoc_words (named_children cmd) [];
    if is_empty words then None else Some words
  else None.

(** ** Traversals of named nodes *)

(** The nodes popped by a stack traversal of the named children, in order. *)
Fixpoint named_walk (fuel : nat) (stack : list Node) : list Node :=
  match fuel, stack with
  | S fuel', node :: rest => node :: named_walk fuel' (rev (named_children node) ++ rest)
  | _, _ => []
  end.

Definition named_nodes (root : Node) : list Node := named_walk (node_size root) [root].

Definition find_single_command_node (root : Node) : option Node :=
  match List.filter (kind_is "command") (named_nodes root) with [n] => Some n | _ => None end.

Definition has_named_descendant_kind (n : Node) (kind : string) : bool := existsb (kind_is kind) (named_nodes n).

(** ** Entry points *)

Fixpoint insert_by_start_byte (n : Node) (l : list Node) : list Node :=
  match l with
  | [] => [n]
  | m :: l' => if start_byte n <=? start_byte m then n :: l else m :: insert_by_start_byte n l'
  end.

(** [sort_by_key(Node::start_byte)], stable. *)
Definition sort_by_start_byte (l : list Node) : list Node := foldr insert_by_start_byte [] l.

Definition try_parse_word_only_commands_sequence (tree : Node * bool) : option (list (list str)) :=
  let '(root, has_error) := tree in
  if has_error then None
  else
    command_nodes ← collect_loop (node_size root) [root] [];
    mapM parse_plain_command_from_node (sort_by_start_byte command_nodes).

Section parser.
Context `{BashParser}.

Definition parse_shell_script_into_commands (script : str) : option (list (list str)) :=
  tree ← try_parse_shell script; try_parse_word_only_commands_sequence tree.

Definition extract_bash_command (command : list str) : option (str * str) :=
  match command with
  | [shell; flag; script] =>
      if mem_str flag [lit "-lc"; lit "-c"] then
        match detect_shell_type shell with
        | Some Zsh | Some Bash | Some Sh => Some (shell, script)
        | _ => None
        end
      else None
  | _ => None
  end.

Definition parse_shell_lc_plain_commands (command : list str) : option (list (list str)) :=
  '(_, script) ← extract_bash_command command; parse_shell_script_into_commands script.

Definition parse_shell_lc_literal_commands (command : list str) : option (list (list str)) :=
  '(_, script) ← extract_bash_command command;
  '(root, has_error) ← try_parse_shell script;
  if has_error : bool then None else Some (omap parse_literal_command_from_node (named_nodes root)).

Definition parse_shell_lc_single_command_prefix (command : list str) : option (list str) :=
  '(_, script) ← extract_bash_command command;
  '(root, has_error) ← try_parse_shell script;
  if (has_error : bool) || negb (has_named_descendant_kind root "heredoc_redirect") || has_named_descendant_kind root "file_redirect"
  then None
  else command_node ← find_single_command_node root; parse_heredoc_command_words command_node.

End parser.

(** ** Every node of a tree *)

Fixpoint all_nodes (n : Node) : list Node := let 'mkNode _ _ _ _ c := n in n :: flat_map all_nodes c.

Lemma all_nodes_unfold n : all_nodes n = n :: flat_map all_nodes (children n).
Proof. by destruct n. Qed.

Lemma node_size_unfold n : node_size n = S (sum_list_with node_size (children n)).
Proof. by destruct n. Qed.

Lemma flat_map_rev_perm {A B} (f : A -> list B) l : flat_map f (rev l) ≡ₚ flat_map f l.
Proof.
  induction l as [|x l IH]; simpl; [done|]. rewrite flat_map_app. simpl. rewrite app_nil_r, IH. apply Permutation_app_comm.
Qed.

Lemma sum_size_rev l : sum_list_with node_size (rev l) = sum_list_with node_size l.
Proof. induction l as [|x l IH]; simpl; [done|]. rewrite sum_list_with_app, IH. simpl. lia. Qed.

Lemma filter_perm {A} (f : A -> bool) (l l' : list A) : l ≡ₚ l' -> List.filter f l ≡ₚ List.filter f l'.
Proof.
  induction 1 as [|x l l' Hp IH|x y l|l1 l2 l3 H12 IH12 H23 IH23]; simpl; [done|by destruct (f x); rewrite ?IH|..].
  - destruct (f x), (f y); try done. apply perm_swap.
  - by rewrite IH12.
Qed.

Definition is_command (n : Node) : bool := is_named n && kind_is "command" n.

(** The stack traversal, run to its end: it rejects a node, or it has seen them all. *)
Lemma collect_loop_spec fuel stack acc :
  sum_list_with node_size stack <= fuel ->
  match collect_loop fuel stack acc with
  | Some cmds => (forall n, n ∈ flat_map all_nodes stack -> node_allowed n = true) /\
                 cmds ≡ₚ acc ++ List.filter is_command (flat_map all_nodes stack)
  | None => exists n, n ∈ flat_map all_nodes stack /\ node_allowed n = false
  end.
Proof.
  revert stack acc. induction fuel as [|fuel IH]; intros [|node rest] acc Hf.
  - simpl. split; [intros n Hn; by apply elem_of_nil in Hn|by rewrite app_nil_r].
  - simpl in Hf. rewrite node_size_unfold in Hf. lia.
  - simpl. split; [intros n Hn; by apply elem_of_nil in Hn|by rewrite app_nil_r].
  - simpl in Hf. rewrite node_size_unfold in Hf.
    assert (flat_map all_nodes (node :: rest) ≡ₚ node :: flat_map all_nodes (rev (children node) ++ rest)) as Hperm.
    { simpl. rewrite all_nodes_unfold, flat_map_app, flat_map_rev_perm. done. }
    simpl collect_loop. destruct (node_allowed node) eqn:Ea; [|exists node; split; [rewrite Hperm; by left|done]].
    set (acc' := if is_named node && kind_is "command" node then acc ++ [node] else acc).
    specialize (IH (rev (children node) ++ rest) acc'). rewrite sum_list_with_app, sum_size_rev in IH.
    specialize (IH ltac:(lia)). destruct (collect_loop fuel _ acc') as [cmds|].
    + destruct IH as [Hall Hc]. split.
      * intros n. rewrite Hperm, elem_of_cons. intros [->|Hn]; [done|by apply Hall].
      * rewrite Hc, (filter_perm _ _ _ Hperm). simpl. unfold acc', is_command at 2.
        destruct (is_named node && kind_is "command" node); [by rewrite <- app_assoc|done].
    + destruct IH as (n & Hn & Hna). exists n. split; [|done]. rewrite Hperm. by right.
Qed.

Lemma insert_by_start_byte_perm n l : insert_by_start_byte n l ≡ₚ n :: l.
Proof. induction l as [|m l IH]; simpl; [done|]. destruct (_ <=? _); [done|]. rewrite IH. apply perm_swap. Qed.

Lemma sort_by_start_byte_perm l : sort_by_start_byte l ≡ₚ l.
Proof. induction l as [|n l IH]; simpl; [done|]. by rewrite insert_by_start_byte_perm, IH. Qed.

Definition starts_before (a b : Node) : Prop := start_byte a <= start_byte b.

Lemma sort_by_start_byte_sorted l : StronglySorted starts_before (sort_by_start_byte l).
Proof.
  induction l as [|n l IH]; simpl; [constructor|]. induction IH as [|m k Hs IH HF]; simpl; [repeat constructor|].
  destruct (start_byte n <=? start_byte m) eqn:E.
  - apply Nat.leb_le in E. constructor; [by constructor|]. constructor; [done|]. eapply Forall_impl; [exact HF|].
    unfold starts_before. intros x. lia.
  - apply Nat.leb_gt in E. constructor; [done|]. rewrite insert_by_start_byte_perm. constructor; [|done].
    unfold starts_before. lia.
Qed.

Lemma named_walk_sub fuel stack n : n ∈ named_walk fuel stack -> n ∈ flat_map all_nodes stack.
Proof.
  revert stack. induction fuel as [|fuel IH]; intros [|node rest]; simpl; try by intros ?%elem_of_nil.
  rewrite all_nodes_unfold, elem_of_app, !elem_of_cons. intros [->|Hn]; [by left; left|].
  apply IH in Hn. rewrite flat_map_app, elem_of_app, flat_map_rev_perm in Hn.
  destruct Hn as [Hn|Hn]; [|by right]. left. right.
  apply list_elem_of_In, in_flat_map in Hn as (x & Hx & Hn). apply list_elem_of_In, in_flat_map. exists x. split; [|done].
  by apply filter_In in Hx as [? _].
Qed.

Lemma named_nodes_sub root n : n ∈ named_nodes root -> n ∈ all_nodes root.
Proof. intros Hn%named_walk_sub. simpl in Hn. by rewrite app_nil_r in Hn. Qed.

(** ** Properties *)

(** Which scripts are sequences of plain commands.  The traversal of the tree runs to
    its end, so nothing in the tree escapes the checks: the commands are returned exactly
    when every node is allowed and every command node is plain, and they are then the
    words of all the command nodes, in the order in which they start. *)
Theorem word_only_sequence_covers_tree (root : Node) :
  match try_parse_word_only_commands_sequence (root, false) with
  | Some commands =>
      (forall n, n ∈ all_nodes root -> node_allowed n = true) /\
      exists nodes, nodes ≡ₚ List.filter is_command (all_nodes root) /\ StronglySorted starts_before nodes /\
        Forall2 (fun n words => parse_plain_command_from_node n = Some words) nodes commands
  | None => exists n, n ∈ all_nodes root /\
      (node_allowed n = false \/ is_command n = true /\ parse_plain_command_from_node n = None)
  end.
Proof.
  unfold try_parse_word_only_commands_sequence.
  pose proof (collect_loop_spec (node_size root) [root] []) as Hc. simpl in Hc. rewrite app_nil_r in Hc.
  specialize (Hc ltac:(lia)). destruct (collect_loop (node_size root) [root] []) as [cmds|]; simpl.
  2:{ destruct Hc as (n & Hn & Ha). exists n. auto. }
  destruct Hc as [Hall Hperm].
  destruct (mapM parse_plain_command_from_node (sort_by_start_byte cmds)) as [commands|] eqn:Em.
  - split; [done|]. exists (sort_by_start_byte cmds). split; [by rewrite sort_by_start_byte_perm|].
    split; [apply sort_by_start_byte_sorted|]. by apply mapM_Some.
  - apply mapM_None, Exists_exists in Em as (n & Hn & Hp). rewrite sort_by_start_byte_perm, Hperm in Hn.
    apply list_elem_of_In, filter_In in Hn as [Hn Hk]. exists n. rewrite list_elem_of_In. auto.
Qed.
