(* ===== verification/CommandSafety.v ===== *)
(** * Safe and dangerous commands: [shell-command/src/command_safety/is_safe_command.rs],
    [is_dangerous_command.rs], as built for Unix

    Which commands run without approval, and which are reported as dangerous, directly,
    below wrappers, or inside a shell script. *)

From stdpp Require Import base list strings gmap sorting.
From S2P Require Import Prelude ShellTree.

#[local] Arguments mem_str : simpl never.

(** ** Git *)

Definition is_git_global_option_with_value (arg : str) : bool :=
  mem_str arg [lit "-C"; lit "-c"; lit "--config-env"; lit "--exec-path"; lit "--git-dir"; lit "--namespace";
               lit "--super-prefix"; lit "--work-tree"].

Definition is_git_global_option_with_inline_value (arg : str) : bool :=
  existsb (fun p => starts_with p arg)
    [lit "--config-env="; lit "--exec-path="; lit "--git-dir="; lit "--namespace="; lit "--super-prefix="; lit "--work-tree="]
  || ((starts_with (lit "-C") arg || starts_with (lit "-c") arg) && (2 <? length arg)).

Definition executable_name_lookup_key (raw : str) : option str := file_name raw.

(** The loop over the arguments after the first, from index [idx]. *)
Fixpoint git_subcommand_loop (idx : nat) (args : list str) (skip_next : bool) (subcommands : list str) : option (nat * str) :=
  match args with
  | [] => None
  | arg :: args' =>
      if skip_next then git_subcommand_loop (S idx) args' false subcommands
      else if is_git_global_option_with_inline_value arg then git_subcommand_loop (S idx) args' false subcommands
      else if is_git_global_option_with_value arg then git_subcommand_loop (S idx) args' true subcommands
      else if str_eqb arg (lit "--") || starts_with (lit "-") arg then git_subcommand_loop (S idx) args' false subcommands
      else if mem_str arg subcommands then Some (idx, arg)
      else None
  end.

Definition find_git_subcommand (command subcommands : list str) : option (nat * str) :=
  match command with
  | [] => None
  | cmd0 :: args =>
      if bool_decide (executable_name_lookup_key cmd0 = Some (lit "git"))
      then git_subcommand_loop 1 args false subcommands else None
  end.

Inductive GitOptionPattern : Type := Exact (option : str) | ShortWithInlineValue (option : str) | Prefix (prefix : str).

Definition UNSAFE_GIT_GLOBAL_OPTIONS : list GitOptionPattern :=
  [Exact (lit "-C"); ShortWithInlineValue (lit "-C"); Exact (lit "-c"); ShortWithInlineValue (lit "-c"); Exact (lit "-p");
   Exact (lit "--config-env"); Prefix (lit "--config-env="); Exact (lit "--exec-path"); Prefix (lit "--exec-path=");
   Exact (lit "--git-dir"); Prefix (lit "--git-dir="); Exact (lit "--namespace"); Prefix (lit "--namespace=");
   Exact (lit "--paginate"); Exact (lit "--super-prefix"); Prefix (lit "--super-prefix="); Exact (lit "--work-tree");
   Prefix (lit "--work-tree=")].

Definition UNSAFE_GIT_SUBCOMMAND_OPTIONS : list GitOptionPattern :=
  [Exact (lit "--output"); Prefix (lit "--output="); Exact (lit "--ext-diff"); Exact (lit "--textconv"); Exact (lit "--exec");
   Prefix (lit "--exec=")].

(** [len] counts bytes; an option's value is not empty in bytes iff it is not in characters. *)
Definition option_matches (p : GitOptionPattern) (arg : str) : bool :=
  match p with
  | Exact option => str_eqb arg option
  | ShortWithInlineValue option => starts_with option arg && (length option <? length arg)
  | Prefix prefix => starts_with prefix arg
  end.

Definition git_matches_option_pattern (arg : str) (patterns : list GitOptionPattern) : bool :=
  existsb (fun pattern => option_matches pattern arg) patterns.

Definition git_has_unsafe_global_option (global_args : list str) : bool :=
  existsb (fun arg => git_matches_option_pattern arg UNSAFE_GIT_GLOBAL_OPTIONS) global_args.

Definition git_subcommand_args_are_read_only (args : list str) : bool :=
  negb (existsb (fun arg => git_matches_option_pattern arg UNSAFE_GIT_SUBCOMMAND_OPTIONS) args).

Definition READ_ONLY_BRANCH_FLAGS : list str :=
  [lit "--list"; lit "-l"; lit "--show-current"; lit "-a"; lit "--all"; lit "-r"; lit "--remotes"; lit "-v"; lit "-vv";
   lit "--verbose"].

Definition git_branch_is_read_only (branch_args : list str) : bool :=
  forallb (fun arg => mem_str arg READ_ONLY_BRANCH_FLAGS || starts_with (lit "--format=") arg) branch_args.

(** The slices are in range: the subcommand's index is one of the command. *)
Definition is_safe_git_command (command : list str) : bool :=
  match find_git_subcommand command [lit "status"; lit "log"; lit "diff"; lit "show"; lit "branch"] with
  | None => false
  | Some (subcommand_idx, subcommand) =>
      if git_has_unsafe_global_option (take (subcommand_idx - 1) (drop 1 command)) then false
      else
        let subcommand_args := drop (subcommand_idx + 1) command in
        if mem_str subcommand [lit "status"; lit "log"; lit "diff"; lit "show"]
        then git_subcommand_args_are_read_only subcommand_args
        else if str_eqb subcommand (lit "branch")
        then git_subcommand_args_are_read_only subcommand_args && git_branch_is_read_only subcommand_args
        else false
  end.

(** ** Commands that are safe *)

(** [^(\d+,)?\d+p$]. *)
Definition numeric (s : str) : bool := negb (is_empty s) && forallb is_ascii_digit s.

Definition is_valid_sed_n_arg (arg : option str) : bool :=
  match arg with
  | None => false
  | Some s =>
      match strip_suffix (lit "p") s with
      | None => false
      | Some core =>
          match split 44 core with
          | [num] => numeric num
          | [a; b] => numeric a && numeric b
          | _ => false
          end
      end
  end.

Definition PLAIN_SAFE : list str :=
  [lit "cat"; lit "cd"; lit "cut"; lit "echo"; lit "expr"; lit "false"; lit "grep"; lit "head"; lit "id"; lit "ls"; lit "nl";
   lit "paste"; lit "pwd"; lit "rev"; lit "seq"; lit "stat"; lit "tail"; lit "tr"; lit "true"; lit "uname"; lit "uniq"; lit "wc";
   lit "which"; lit "whoami"].

Definition UNSAFE_FIND_OPTIONS : list str :=
  [lit "-exec"; lit "-execdir"; lit "-ok"; lit "-okdir"; lit "-delete"; lit "-fls"; lit "-fprint"; lit "-fprint0"; lit "-fprintf"].

Definition base64_arg_unsafe (arg : str) : bool :=
  mem_str arg [lit "-o"; lit "--output"] || starts_with (lit "--output=") arg
  || (starts_with (lit "-o") arg && negb (str_eqb arg (lit "-o"))).

Definition ripgrep_arg_unsafe (arg : str) : bool :=
  mem_str arg [lit "--search-zip"; lit "-z"]
  || existsb (fun opt => str_eqb arg opt || starts_with (opt ++ lit "=") arg) [lit "--pre"; lit "--hostname-bin"].

(** The build target: [cfg!(target_os = "linux")]. *)
Class Target := { target_linux : bool }.

Section safety.
Context `{Target} `{BashParser}.

(** The match on the name of the executable, guards included. *)
Definition is_safe_to_call_with_exec (command : list str) : bool :=
  match command with
  | [] => false
  | cmd0 :: args =>
      match executable_name_lookup_key cmd0 with
      | None => false
      | Some cmd =>
          if target_linux && mem_str cmd [lit "numfmt"; lit "tac"] then true
          else if mem_str cmd PLAIN_SAFE then true
          else if str_eqb cmd (lit "base64") then negb (existsb base64_arg_unsafe args)
          else if str_eqb cmd (lit "find") then negb (existsb (fun arg => mem_str arg UNSAFE_FIND_OPTIONS) command)
          else if str_eqb cmd (lit "rg") then negb (existsb ripgrep_arg_unsafe command)
          else if str_eqb cmd (lit "git") then is_safe_git_command command
          else str_eqb cmd (lit "sed")
               && ((length command <=? 4) && bool_decide (command !! 1 = Some (lit "-n")) && is_valid_sed_n_arg (command !! 2))
      end
  end.

Definition zsh_as_bash (s : str) : str := if str_eqb s (lit "zsh") then lit "bash" else s.

Definition is_known_safe_command (command : list str) : bool :=
  let command := zsh_as_bash <$> command in
  if is_safe_to_call_with_exec command then true
  else match parse_shell_lc_plain_commands command with
       | Some all_commands => negb (is_empty all_commands) && forallb is_safe_to_call_with_exec all_commands
       | None => false
       end.

(** ** Commands that are dangerous *)

Inductive DangerousCommandMatch : Type := ForcedRm | OtherDanger.

Definition MAX_DANGEROUS_COMMAND_WRAPPER_DEPTH : nat := 8.

Definition rm_args_include_force_option (args : list str) : bool :=
  existsb (fun arg => str_eqb arg (lit "--force") ||
             is_some_and (strip_prefix (lit "-") arg) (fun flags => negb (starts_with (lit "-") flags) && contains_char 102 flags))
    (take_while (fun arg => negb (str_eqb arg (lit "--"))) args).

Definition is_assignment (argument : str) : bool :=
  is_some_and (split_once 61 argument) (fun '(name, _) => negb (is_empty name) && negb (starts_with (lit "-") name)).

(** The command that [env] runs: what is left after its options and assignments. *)
Fixpoint env_command (args : list str) : list str :=
  match args with
  | [] => []
  | argument :: args' =>
      if str_eqb argument (lit "--") then args'
      else if mem_str argument [lit "-i"; lit "--ignore-environment"] || is_assignment argument then env_command args'
      else args
  end.

(** The shell command that the action of [trap] stands for. *)
Definition trap_command (args : list str) : option (list str) :=
  let args := match args with a :: args' => if str_eqb a (lit "--") then args' else args | [] => [] end in
  match args with
  | action :: _ => if starts_with (lit "-") action then None else Some [lit "sh"; lit "-c"; action]
  | [] => None
  end.

Fixpoint find_map {A B} (f : A -> option B) (l : list A) : option B :=
  match l with
  | [] => None
  | x :: l' => match f x with Some b => Some b | None => find_map f l' end
  end.

(** [dangerous_command_match_with_depth] and the functions it calls; [remaining] is how
    many more levels may be entered, so that the depth is
    [MAX_DANGEROUS_COMMAND_WRAPPER_DEPTH + 1 - remaining]. *)
Fixpoint dangerous_with (remaining : nat) (command : list str) : option DangerousCommandMatch :=
  match remaining with
  | 0 => None
  | S remaining' =>
      let for_exec :=
        match command with
        | [] => None
        | cmd0 :: args =>
            match executable_name_lookup_key cmd0 with
            | None => None
            | Some cmd =>
                if str_eqb cmd (lit "rm") && rm_args_include_force_option args then Some ForcedRm
                else if str_eqb cmd (lit "sudo") then dangerous_with remaining' args
                else if str_eqb cmd (lit "env") then dangerous_with remaining' (env_command args)
                else if str_eqb cmd (lit "trap") then
                  match trap_command args with Some c => dangerous_with remaining' c | None => None end
                else None
            end
        end in
      match for_exec with
      | Some m => Some m
      | None =>
          match parse_shell_lc_literal_commands command with
          | Some commands => find_map (dangerous_with remaining') commands
          | None => None
          end
      end
  end.

Definition dangerous_command_match (command : list str) : option DangerousCommandMatch :=
  dangerous_with (S MAX_DANGEROUS_COMMAND_WRAPPER_DEPTH) command.

End safety.

(** ** Names that are no shells *)

Definition SAFE_NAMES : list str :=
  PLAIN_SAFE ++ [lit "numfmt"; lit "tac"; lit "base64"; lit "find"; lit "rg"; lit "git"; lit "sed"].
Definition WRAPPER_NAMES : list str := [lit "rm"; lit "sudo"; lit "env"; lit "trap"].

(** None of these names is that of a shell, and each is its own stem. *)
Lemma plain_names name :
  name ∈ SAFE_NAMES ++ WRAPPER_NAMES ->
  shell_by_name name = None /\ file_name name = Some name /\ file_stem name = Some name /\ rsplit_once 46 name = None.
Proof.
  assert (forallb (fun name => match shell_by_name name with None => true | _ => false end
            && bool_decide (file_name name = Some name) && bool_decide (file_stem name = Some name)
            && match rsplit_once 46 name with None => true | _ => false end) (SAFE_NAMES ++ WRAPPER_NAMES) = true) as Hall
    by (vm_compute; reflexivity).
  intros Hin. rewrite forallb_forall in Hall. specialize (Hall name). rewrite <- list_elem_of_In in Hall. specialize (Hall Hin).
  rewrite !andb_true_iff, !bool_decide_eq_true in Hall. destruct Hall as [[[H1 H2] H3] H4].
  split_and!; [by destruct (shell_by_name name)|done|done|by destruct (rsplit_once 46 name)].
Qed.

Lemma shell_by_name_file_name s t :
  shell_by_name s = Some t -> exists name, file_name s = Some name /\ shell_by_name name = Some t.
Proof.
  unfold shell_by_name at 1. intros Hs.
  repeat match goal with H : context [if ?b then _ else _] |- _ => destruct b eqn:?E end; simplify_eq.
  all: try (to_prop; subst; eexists; split; [vm_compute; reflexivity|vm_compute; reflexivity]).
  unfold mem_str in E3. simpl in E3. rewrite orb_false_r, orb_true_iff in E3.
  destruct E3; to_prop; subst; eexists; split; vm_compute; reflexivity.
Qed.

Lemma detect_plain_name s name :
  file_name s = Some name -> name ∈ SAFE_NAMES ++ WRAPPER_NAMES -> detect_shell_type s = None.
Proof.
  intros Hf Hin. destruct (plain_names name Hin) as (Hn & Hfn & Hst & Hr).
  assert (forall s, file_name s = Some name -> shell_by_name s = None) as Hnone.
  { intros s' Hs'. destruct (shell_by_name s') eqn:E; [|done].
    apply shell_by_name_file_name in E as (n & Hn' & Hs). congruence. }
  assert (forall fuel, detect_loop fuel name = None) as Hname.
  { intros [|fuel]; simpl; rewrite Hn; [done|]. rewrite Hst. unfold path_eqb. by rewrite bool_decide_eq_true_2. }
  unfold detect_shell_type. simpl. rewrite (Hnone s Hf). unfold file_stem. rewrite Hf, Hr.
  destruct (path_eqb name s); [done|apply Hname].
Qed.

(** ** A safe head is never dangerous *)

Section safe_not_dangerous.
Context `{Target} `{BashParser}.

Lemma safe_head command :
  is_safe_to_call_with_exec command = true ->
  exists cmd0 args name, command = cmd0 :: args /\ file_name cmd0 = Some name /\ name ∈ SAFE_NAMES.
Proof.
  unfold is_safe_to_call_with_exec, executable_name_lookup_key. destruct command as [|cmd0 args]; [done|].
  destruct (file_name cmd0) as [name|] eqn:Ef; [|done]. intros Hs. exists cmd0, args, name. split_and!; [done..|].
  assert (forall l, mem_str name l = true -> name ∈ l) as Hmem.
  { intros l Hl. unfold mem_str in Hl. apply existsb_exists in Hl as (x & Hx & Heq). to_prop. subst. by apply list_elem_of_In. }
  unfold SAFE_NAMES. rewrite elem_of_app.
  destruct (target_linux && mem_str name [lit "numfmt"; lit "tac"]) eqn:E1.
  { apply andb_true_iff in E1 as [_ E1]. apply Hmem in E1. right. set_solver. }
  destruct (mem_str name PLAIN_SAFE) eqn:E2; [left; by apply Hmem|]. right.
  repeat match goal with H : context [if str_eqb name ?l then _ else _] |- _ => destruct (str_eqb name l) eqn:?E end;
    try (apply andb_true_iff in Hs as [Hs _]); to_prop; subst; set_solver.
Qed.

Lemma safe_head_not_dangerous k cmd0 args name :
  file_name cmd0 = Some name -> name ∈ SAFE_NAMES -> dangerous_with k (cmd0 :: args) = None.
Proof.
  intros Hf Hin. destruct k as [|k]; [done|]. cbn [dangerous_with]. unfold executable_name_lookup_key. rewrite Hf.
  assert (forallb (fun w => forallb (fun n => negb (str_eqb n w)) SAFE_NAMES) WRAPPER_NAMES = true) as Hne by (vm_compute; reflexivity).
  assert (forall w, w ∈ WRAPPER_NAMES -> str_eqb name w = false) as Hw.
  { intros w Hw. rewrite forallb_forall in Hne. specialize (Hne w). rewrite <- list_elem_of_In in Hne. specialize (Hne Hw).
    rewrite forallb_forall in Hne. specialize (Hne name). rewrite <- list_elem_of_In in Hne. by apply negb_true_iff, Hne. }
  rewrite !Hw by by_decide. simpl.
  assert (parse_shell_lc_literal_commands (cmd0 :: args) = None) as ->; [|done].
  unfold parse_shell_lc_literal_commands, extract_bash_command. destruct args as [|flag [|script [|? ?]]]; try done.
  destruct (mem_str flag _); [|done]. rewrite (detect_plain_name cmd0 name); [done|done|]. rewrite elem_of_app. by left.
Qed.

(** What the bash grammar says of a command: it has one name, and what comes before the
    name is no word. *)
Definition word_kinds : list str :=
  [lit "command_name"; lit "word"; lit "number"; lit "string"; lit "raw_string"; lit "concatenation"].

Definition command_shape (n : Node) : Prop :=
  exists pre name post, named_children n = pre ++ name :: post /\ node_kind name = lit "command_name" /\
    Forall (fun c => node_kind c ∉ word_kinds) pre /\ Forall (fun c => node_kind c <> lit "command_name") post.

Lemma kind_is_spec k n : kind_is k n = true <-> node_kind n = lit k.
Proof. unfold kind_is, str_eqb. by rewrite bool_decide_eq_true. Qed.

Lemma kind_is_false k n : node_kind n <> lit k -> kind_is k n = false.
Proof. intros Hn. destruct (kind_is k n) eqn:E; [|done]. by apply kind_is_spec in E. Qed.

Lemma plain_child_kind c s : plain_child c = Some s -> node_kind c ∈ word_kinds.
Proof.
  unfold plain_child, word_kinds. intros Hp. destruct (decide (node_kind c ∈ word_kinds)) as [|Hn]; [done|]. exfalso.
  unfold word_kinds in Hn. rewrite !not_elem_of_cons in Hn. destruct Hn as (H1 & H2 & H3 & H4 & H5 & H6 & _).
  by rewrite !kind_is_false in Hp by done.
Qed.

(** The first word of a plain command is its literal name. *)
Lemma plain_literal_head n words literal :
  command_shape n -> parse_plain_command_from_node n = Some words -> parse_literal_command_from_node n = Some literal ->
  exists w ws ls, words = w :: ws /\ literal = w :: ls.
Proof.
  intros (pre & name & post & Hk & Hn & Hpre & Hpost). unfold parse_plain_command_from_node, parse_literal_command_from_node.
  destruct (kind_is "command" n); [|done]. rewrite Hk. intros Hp%mapM_Some. 
  assert (pre = []) as ->.
  { destruct pre as [|c pre]; [done|]. apply Forall2_cons_inv_l in Hp as (s & ss & Hs & _). apply Forall_cons in Hpre as [Hc _].
    by apply plain_child_kind in Hs. }
  apply Forall2_cons_inv_l in Hp as (w & ws & Hw & _ & ->). simpl. apply kind_is_spec in Hn. rewrite Hn.
  unfold plain_child in Hw. rewrite Hn in Hw. destruct (head (named_children name)) as [wn|]; [|done]. simpl in *.
  destruct (kind_is "word" wn) eqn:Ew; [|done].
  unfold parse_literal_shell_word. rewrite node_size_unfold. cbn [literal_word_loop].
  assert (forall k, lit "word" <> lit k -> kind_is k wn = false) as Hother.
  { intros k Hne. apply kind_is_false. apply kind_is_spec in Ew. congruence. }
  rewrite (Hother "string") by done. rewrite (Hother "raw_string") by done. rewrite (Hother "concatenation") by done.
  rewrite Ew. simpl. destruct (is_literal_word_or_number wn); [|done]. rewrite Hw. simpl.
  intros Hl. destruct (literal_children post [w] true) as [[l b]|] eqn:El; [|done]. simpl in Hl. destruct b; simplify_eq.
  assert (forall acc l b, literal_children post acc true = Some (l, b) -> exists ls, l = acc ++ ls) as Hgen.
  { clear -Hpost. induction Hpost as [|c post Hc HF IH]; intros acc l b; simpl; [intros [= <- <-]; exists []; by rewrite app_nil_r|].
    rewrite kind_is_false by done. destruct (parse_literal_shell_word c) as [word|]; [|apply IH].
    intros (ls & ->)%IH. exists (word :: ls). by rewrite <- app_assoc. }
  destruct (Hgen _ _ _ El) as [ls ->]. by exists w, ws, ls.
Qed.

End safe_not_dangerous.

(** The bash grammar: in a tree without errors every command has its shape. *)
Class BashGrammar `{BashParser} := {
  commands_shaped : forall script root, try_parse_shell script = Some (root, false) ->
    forall n, n ∈ all_nodes root -> node_kind n = lit "command" -> command_shape n
}.

Section script.
Context `{Target} `{BashGrammar}.

Lemma extract_zsh shell flag script :
  flag <> lit "zsh" -> script <> lit "zsh" ->
  extract_bash_command (zsh_as_bash <$> [shell; flag; script]) =
  match extract_bash_command [shell; flag; script] with Some _ => Some (zsh_as_bash shell, script) | None => None end.
Proof.
  intros Hf Hs. assert (forall s, s <> lit "zsh" -> zsh_as_bash s = s) as Hz.
  { intros s Hn. unfold zsh_as_bash, str_eqb. by rewrite bool_decide_eq_false_2. }
  change (zsh_as_bash <$> [shell; flag; script]) with [zsh_as_bash shell; zsh_as_bash flag; zsh_as_bash script].
  unfold extract_bash_command. rewrite (Hz flag), (Hz script) by done. destruct (mem_str flag [lit "-lc"; lit "-c"]); [|done].
  unfold zsh_as_bash. destruct (str_eqb shell (lit "zsh")) eqn:E; [|by destruct (detect_shell_type shell) as [[]|]].
  to_prop. subst. done.
Qed.

(** A shell is no wrapper. *)
Lemma shell_not_wrapper shell flag script r name :
  extract_bash_command [shell; flag; script] = Some r -> file_name shell = Some name -> name ∉ WRAPPER_NAMES.
Proof.
  unfold extract_bash_command. destruct (mem_str flag [lit "-lc"; lit "-c"]); [|done]. intros Hd Hf Hin.
  rewrite (detect_plain_name shell name Hf) in Hd by (rewrite elem_of_app; by right). done.
Qed.

Lemma find_map_None {A B} (f : A -> option B) l : (forall x, x ∈ l -> f x = None) -> find_map f l = None.
Proof.
  induction l as [|x l IH]; simpl; [done|]. intros Hf. rewrite Hf by by left. apply IH. intros y Hy. apply Hf. by right.
Qed.

(** The literal commands of a script of safe plain commands are not dangerous. *)
Lemma safe_script_not_dangerous k script root all literals :
  try_parse_shell script = Some (root, false) ->
  try_parse_word_only_commands_sequence (root, false) = Some all -> forallb is_safe_to_call_with_exec all = true ->
  literals = omap parse_literal_command_from_node (named_nodes root) ->
  find_map (dangerous_with k) literals = None.
Proof.
  intros Ht Hp Hs ->. apply find_map_None. intros literal Hl. apply list_elem_of_omap in Hl as (n & Hn%named_nodes_sub & Hl).
  assert (node_kind n = lit "command") as Hk.
  { unfold parse_literal_command_from_node in Hl. destruct (kind_is "command" n) eqn:E; [|done]. by apply kind_is_spec. }
  unfold try_parse_word_only_commands_sequence in Hp.
  pose proof (collect_loop_spec (node_size root) [root] []) as Hc. simpl in Hc. rewrite app_nil_r in Hc. specialize (Hc ltac:(lia)).
  destruct (collect_loop (node_size root) [root] []) as [cmds|]; [|done]. destruct Hc as [Hall Hperm]. simpl in Hp.
  apply mapM_Some in Hp. assert (n ∈ sort_by_start_byte cmds) as Hin.
  { rewrite sort_by_start_byte_perm, Hperm, list_elem_of_In, filter_In, <- list_elem_of_In. split; [done|].
    specialize (Hall n Hn). unfold node_allowed in Hall. unfold is_command. rewrite (proj2 (kind_is_spec "command" n) Hk), andb_true_r.
    destruct (is_named n); [done|]. by rewrite Hk in Hall. }
  apply list_elem_of_lookup in Hin as [i Hi]. destruct (Forall2_lookup_l _ _ _ _ _ Hp Hi) as (words & Hwords & Hplain).
  destruct (plain_literal_head n words literal) as (w & ws & ls & -> & ->); [by eapply commands_shaped|done|done|].
  assert (is_safe_to_call_with_exec (w :: ws) = true) as Hsafe.
  { rewrite forallb_forall in Hs. apply Hs, list_elem_of_In. by eapply list_elem_of_lookup_2. }
  destruct (safe_head _ Hsafe) as (cmd0 & args & name & [= <- <-] & Hf & Hname). by eapply safe_head_not_dangerous.
Qed.

End script.

(** ** Wrappers *)

(** [wrapped k cmd c]: [cmd] runs [c] below [k] layers of [sudo] and [env]. *)
Inductive wrapped : nat -> list str -> list str -> Prop :=
| wrapped_none c : wrapped 0 c c
| wrapped_sudo k s cmd c : file_name s = Some (lit "sudo") -> wrapped k cmd c -> wrapped (S k) (s :: cmd) c
| wrapped_env k s assigns cmd c :
    file_name s = Some (lit "env") ->
    Forall (fun a => a <> lit "--" /\ (a ∈ [lit "-i"; lit "--ignore-environment"] \/ is_assignment a = true)) assigns ->
    env_command cmd = cmd -> wrapped k cmd c -> wrapped (S k) (s :: assigns ++ cmd) c.

Lemma mem_str_spec s l : mem_str s l = true <-> s ∈ l.
Proof.
  unfold mem_str. rewrite existsb_exists, list_elem_of_In. split.
  - intros (x & Hx & He). to_prop. by subst.
  - intros Hs. exists s. split; [done|]. unfold str_eqb. by apply bool_decide_eq_true.
Qed.

Lemma env_command_assigns assigns cmd :
  Forall (fun a => a <> lit "--" /\ (a ∈ [lit "-i"; lit "--ignore-environment"] \/ is_assignment a = true)) assigns ->
  env_command (assigns ++ cmd) = env_command cmd.
Proof.
  induction 1 as [|a assigns [Hn Ha] HF IH]; simpl; [done|].
  unfold str_eqb at 1. rewrite bool_decide_eq_false_2 by done.
  assert (mem_str a [lit "-i"; lit "--ignore-environment"] || is_assignment a = true) as ->; [|done].
  rewrite orb_true_iff, mem_str_spec. tauto.
Qed.

Lemma wrapped_dangerous `{BashParser} k n cmd c m :
  wrapped k cmd c -> dangerous_with n c = Some m -> dangerous_with (k + n) cmd = Some m.
Proof.
  intros Hw Hd. induction Hw as [c|k s cmd c Hs Hw IH|k s assigns cmd c Hs HF He Hw IH]; [done|..];
    simpl; unfold executable_name_lookup_key; rewrite Hs; simpl.
  - by rewrite (IH Hd).
  - by rewrite env_command_assigns, He, (IH Hd).
Qed.

(** ** Properties *)

(** C6: a command that runs without approval is never one reported as dangerous: neither
    itself, nor any literal command of the script it hands to a shell, whatever the depth.
    Only the shell may be spelt [zsh]. *)
Theorem safe_command_not_dangerous `{Target} `{BashGrammar} (command : list str) :
  is_known_safe_command command = true -> lit "zsh" ∉ tail command -> dangerous_command_match command = None.
Proof.
  unfold is_known_safe_command. destruct (is_safe_to_call_with_exec (zsh_as_bash <$> command)) eqn:Es.
  - intros _ Hz. apply safe_head in Es as (cmd0 & args & name & Hc & Hf & Hn). destruct command as [|c0 args0]; [done|].
    injection Hc as Hc0 _. assert (c0 = cmd0) as ->.
    { unfold zsh_as_bash in Hc0. destruct (str_eqb c0 (lit "zsh")) eqn:E; [|done]. subst cmd0. exfalso.
      vm_compute in Hf. injection Hf as <-. revert Hn. rewrite <- mem_str_spec. by vm_compute. }
    by eapply safe_head_not_dangerous.
  - unfold parse_shell_lc_plain_commands. destruct command as [|shell [|flag [|script [|? ?]]]]; try done.
    intros Hs Hz. simpl tail in Hz. rewrite !not_elem_of_cons in Hz. destruct Hz as (Hzf & Hzs & _).
    rewrite extract_zsh in Hs by done. destruct (extract_bash_command [shell; flag; script]) as [r|] eqn:Ee; [|done].
    assert (r = (shell, script)) as -> by (simpl in Ee; by repeat case_match; simplify_eq).
    simpl in Hs. unfold parse_shell_script_into_commands in Hs. destruct (try_parse_shell script) as [[root he]|] eqn:Et; [|done].
    simpl in Hs. destruct he; [done|].
    destruct (try_parse_word_only_commands_sequence (root, false)) as [all|] eqn:Ep;
      [|unfold try_parse_word_only_commands_sequence in Ep; by rewrite Ep in Hs].
    unfold try_parse_word_only_commands_sequence in Ep. rewrite Ep in Hs. apply andb_true_iff in Hs as [_ Hs].
    unfold dangerous_command_match. cbn [dangerous_with]. unfold executable_name_lookup_key.
    assert (forall w, w ∈ WRAPPER_NAMES -> forall name, file_name shell = Some name -> str_eqb name w = false) as Hw.
    { intros w Hw name Hf. unfold str_eqb. apply bool_decide_eq_false. intros ->. by eapply shell_not_wrapper. }
    assert (parse_shell_lc_literal_commands [shell; flag; script] =
            Some (omap parse_literal_command_from_node (named_nodes root))) as ->.
    { unfold parse_shell_lc_literal_commands. rewrite Ee. simpl. by rewrite Et. }
    assert (find_map (dangerous_with MAX_DANGEROUS_COMMAND_WRAPPER_DEPTH)
              (omap parse_literal_command_from_node (named_nodes root)) = None) as Hnone
      by by eapply safe_script_not_dangerous.
    destruct (file_name shell) as [name|] eqn:Ef; [|exact Hnone].
    assert (forall w, w ∈ WRAPPER_NAMES -> str_eqb name w = false) as Hn by (intros w Hin; by apply Hw).
    rewrite !Hn by by_decide. exact Hnone.
Qed.

(** A parser that reads a whole script as one word. *)
#[local] Instance one_word : BashParser := {
  try_parse_shell s := Some (mkNode (lit "program") true 0 (Some s)
    [mkNode (lit "command") true 0 (Some s)
       [mkNode (lit "command_name") true 0 (Some s) [mkNode (lit "word") true 0 (Some s) []]]], false)
}.

#[local] Instance one_word_grammar : BashGrammar.
Proof.
  split. intros script root [= <-] n Hn Hk. simpl in Hn. rewrite !elem_of_cons, elem_of_nil in Hn.
  destruct Hn as [->|[->|[->|[->|[]]]]]; try done. by eexists [], _, [].
Qed.

#[local] Instance linux : Target := { target_linux := true }.

Lemma safe_command_not_dangerous_witness :
  is_known_safe_command [lit "zsh"; lit "-lc"; lit "ls"] = true /\
  dangerous_command_match [lit "zsh"; lit "-lc"; lit "ls"] = None.
Proof.
  split; [vm_compute; reflexivity|]. apply safe_command_not_dangerous; [vm_compute; reflexivity|by_decide].
Defined.

(** A forced [rm] is found below any mix of up to eight layers of [sudo] and of [env]
    with options and assignments. *)
Theorem forced_rm_seen_through_wrappers `{BashParser} (k : nat) (command : list str) (rm : str) (args : list str) :
  wrapped k command (rm :: args) -> k <= MAX_DANGEROUS_COMMAND_WRAPPER_DEPTH ->
  file_name rm = Some (lit "rm") -> rm_args_include_force_option args = true ->
  dangerous_command_match command = Some ForcedRm.
Proof.
  intros Hw Hk Hf Hr. unfold dangerous_command_match.
  replace (S MAX_DANGEROUS_COMMAND_WRAPPER_DEPTH) with (k + S (MAX_DANGEROUS_COMMAND_WRAPPER_DEPTH - k)) by lia.
  eapply wrapped_dangerous; [exact Hw|]. simpl. unfold executable_name_lookup_key. by rewrite Hf, Hr.
Qed.

Definition wrapped_rm : list str :=
  [lit "/usr/bin/sudo"; lit "env"; lit "-i"; lit "A=1"; lit "sudo"; lit "/bin/rm"; lit "-rf"; lit "x"].

Lemma forced_rm_seen_through_wrappers_witness : dangerous_command_match wrapped_rm = Some ForcedRm.
Proof.
  apply (forced_rm_seen_through_wrappers 3 wrapped_rm (lit "/bin/rm") [lit "-rf"; lit "x"]);
    [|unfold MAX_DANGEROUS_COMMAND_WRAPPER_DEPTH; lia|vm_compute; reflexivity|vm_compute; reflexivity].
  apply wrapped_sudo; [vm_compute; reflexivity|].
  apply (wrapped_env 1 (lit "env") [lit "-i"; lit "A=1"] [lit "sudo"; lit "/bin/rm"; lit "-rf"; lit "x"]);
    [vm_compute; reflexivity| |vm_compute; reflexivity|].
  - constructor; [split; [done|left; by_decide]|]. constructor; [split; [done|right; vm_compute; reflexivity]|constructor].
  - apply wrapped_sudo; [vm_compute; reflexivity|]. apply wrapped_none.
Defined.

Lemma existsb_false {A} (f : A -> bool) l x : existsb f l = false -> x ∈ l -> f x = false.
Proof.
  intros He Hx. destruct (f x) eqn:E; [|done]. assert (existsb f l = true); [|congruence].
  apply existsb_exists. exists x. by rewrite <- list_elem_of_In.
Qed.

Lemma inline_value_unsafe arg :
  is_git_global_option_with_inline_value arg = true -> git_matches_option_pattern arg UNSAFE_GIT_GLOBAL_OPTIONS = true.
Proof.
  unfold is_git_global_option_with_inline_value, git_matches_option_pattern. cbn [existsb UNSAFE_GIT_GLOBAL_OPTIONS option_matches].
  change (length (lit "-C")) with 2. change (length (lit "-c")) with 2. rewrite !orb_true_iff, !andb_true_iff, !orb_true_iff. tauto.
Qed.

Lemma with_value_unsafe arg :
  is_git_global_option_with_value arg = true -> git_matches_option_pattern arg UNSAFE_GIT_GLOBAL_OPTIONS = true.
Proof.
  unfold is_git_global_option_with_value, git_matches_option_pattern, mem_str.
  cbn [existsb UNSAFE_GIT_GLOBAL_OPTIONS option_matches]. rewrite !orb_true_iff, !andb_true_iff. tauto.
Qed.

(** What precedes the subcommand: options that take no value, if none is unsafe. *)
Lemma git_subcommand_loop_Some idx args skip subcommands i sub :
  git_subcommand_loop idx args skip subcommands = Some (i, sub) ->
  exists globals rest, args = globals ++ sub :: rest /\ i = idx + length globals /\ sub ∈ subcommands /\
    (skip = false -> git_has_unsafe_global_option globals = false -> Forall (fun a => starts_with (lit "-") a = true) globals).
Proof.
  revert idx skip. induction args as [|arg args IH]; intros idx skip; [done|]. cbn [git_subcommand_loop].
  assert (forall skip', git_subcommand_loop (S idx) args skip' subcommands = Some (i, sub) ->
    (skip = false -> git_matches_option_pattern arg UNSAFE_GIT_GLOBAL_OPTIONS = false ->
       skip' = false /\ starts_with (lit "-") arg = true) ->
    exists globals rest, arg :: args = globals ++ sub :: rest /\ i = idx + length globals /\ sub ∈ subcommands /\
      (skip = false -> git_has_unsafe_global_option globals = false -> Forall (fun a => starts_with (lit "-") a = true) globals)) as Hstep.
  { intros skip' Hl Hs. destruct (IH _ _ Hl) as (globals & rest & -> & -> & Hsub & Hg). exists (arg :: globals), rest.
    split_and!; [done|simpl; lia|done|]. intros Hskip Hu. unfold git_has_unsafe_global_option in *. simpl in Hu.
    apply orb_false_iff in Hu as [Hu1 Hu2]. destruct (Hs Hskip Hu1). constructor; [done|by apply Hg]. }
  destruct skip; [intros Hl; by eapply Hstep|].
  destruct (is_git_global_option_with_inline_value arg) eqn:Ei.
  { intros Hl. eapply Hstep; [exact Hl|]. intros _ Hu. by rewrite inline_value_unsafe in Hu. }
  destruct (is_git_global_option_with_value arg) eqn:Ev.
  { intros Hl. eapply Hstep; [exact Hl|]. intros _ Hu. by rewrite with_value_unsafe in Hu. }
  destruct (str_eqb arg (lit "--") || starts_with (lit "-") arg) eqn:Ed.
  { intros Hl. eapply Hstep; [exact Hl|]. intros _ _. split; [done|]. apply orb_true_iff in Ed as [Ed|Ed]; [|done]. to_prop. by subst. }
  destruct (mem_str arg subcommands) eqn:Em; [|done]. intros [= <- <-]. exists [], args. simpl.
  split_and!; [done|lia|by apply mem_str_spec|done].
Qed.

(** The git commands that run without approval only read: the executable is git, the
    options before the subcommand are flags without values, none of which changes
    directories or configuration, the subcommand is one of five, no argument writes output
    or runs a program, and for [branch] every argument only lists. *)
Theorem safe_git_only_reads (command : list str) :
  is_safe_git_command command = true ->
  exists git globals sub args, command = git :: globals ++ sub :: args /\ file_name git = Some (lit "git") /\
    Forall (fun a => starts_with (lit "-") a = true /\ git_matches_option_pattern a UNSAFE_GIT_GLOBAL_OPTIONS = false) globals /\
    sub ∈ [lit "status"; lit "log"; lit "diff"; lit "show"; lit "branch"] /\
    Forall (fun a => git_matches_option_pattern a UNSAFE_GIT_SUBCOMMAND_OPTIONS = false) args /\
    (sub = lit "branch" -> Forall (fun a => a ∈ READ_ONLY_BRANCH_FLAGS \/ starts_with (lit "--format=") a = true) args).
Proof.
  unfold is_safe_git_command, find_git_subcommand. destruct command as [|git rest]; [done|].
  unfold executable_name_lookup_key. case_bool_decide as Hgit; [|done].
  destruct (git_subcommand_loop 1 rest false _) as [[i sub]|] eqn:El; [|done].
  apply git_subcommand_loop_Some in El as (globals & args & -> & -> & Hsub & Hg).
  replace (take (1 + length globals - 1) (drop 1 (git :: globals ++ sub :: args))) with globals
    by (simpl; rewrite Nat.sub_0_r, drop_0; by rewrite take_app_length).
  replace (drop (1 + length globals + 1) (git :: globals ++ sub :: args)) with args
    by (rewrite Nat.add_comm; simpl; rewrite drop_app_ge by lia; by replace (S (length globals) - length globals) with 1 by lia).
  destruct (git_has_unsafe_global_option globals) eqn:Eu; [done|]. intros Hs. exists git, globals, sub, args.
  assert (git_subcommand_args_are_read_only args = true /\ (sub = lit "branch" -> git_branch_is_read_only args = true)) as [Hro Hbr].
  { destruct (mem_str sub [lit "status"; lit "log"; lit "diff"; lit "show"]) eqn:Em.
    - split; [done|]. intros ->. by vm_compute in Em.
    - destruct (str_eqb sub (lit "branch")); [|done]. apply andb_true_iff in Hs as [? ?]. done. }
  split_and!; [done|done| |done| |].
  - specialize (Hg eq_refl eq_refl). rewrite Forall_forall in *. intros a Ha. split; [by apply Hg|].
    by apply (existsb_false (fun arg => git_matches_option_pattern arg UNSAFE_GIT_GLOBAL_OPTIONS) globals).
  - unfold git_subcommand_args_are_read_only in Hro. apply negb_true_iff in Hro. apply Forall_forall. intros a Ha.
    by apply (existsb_false (fun arg => git_matches_option_pattern arg UNSAFE_GIT_SUBCOMMAND_OPTIONS) args).
  - intros Hb. specialize (Hbr Hb). unfold git_branch_is_read_only in Hbr. rewrite forallb_forall in Hbr.
    apply Forall_forall. intros a Ha. specialize (Hbr a). rewrite <- list_elem_of_In, orb_true_iff, mem_str_spec in Hbr. by apply Hbr.
Qed.

Lemma safe_git_only_reads_witness :
  exists git globals sub args, [lit "git"; lit "--no-pager"; lit "branch"; lit "-a"] = git :: globals ++ sub :: args /\
    file_name git = Some (lit "git") /\
    Forall (fun a => starts_with (lit "-") a = true /\ git_matches_option_pattern a UNSAFE_GIT_GLOBAL_OPTIONS = false) globals /\
    sub ∈ [lit "status"; lit "log"; lit "diff"; lit "show"; lit "branch"] /\
    Forall (fun a => git_matches_option_pattern a UNSAFE_GIT_SUBCOMMAND_OPTIONS = false) args /\
    (sub = lit "branch" -> Forall (fun a => a ∈ READ_ONLY_BRANCH_FLAGS \/ starts_with (lit "--format=") a = true) args).
Proof. apply safe_git_only_reads. vm_compute. reflexivity. Defined.

(** Clustered short options are not recognised: [rg -nz] searches archives too. *)
Example ripgrep_clustered_option_is_safe :
  is_known_safe_command [lit "rg"; lit "-nz"; lit "x"] = true /\ is_known_safe_command [lit "rg"; lit "-z"; lit "x"] = false.
Proof. by vm_compute. Qed.
