(* ===== verification/StreamText.v ===== *)
(** * Stream parsers of [utils/stream-parser]: the interface and inline hidden tags

    [stream_text.rs] declares the trait of a parser that is fed text in pieces and gives
    back visible text and extracted payloads; here it is the class [StreamTextParser].
    [StreamTextSpec] is its contract: from every good state the parser yields, whatever
    the pieces, what one function of the remaining text says ([stream_result]).  Clients
    are proved against the contract.

    [inline_hidden_tag.rs] is [InlineHiddenTagParser] with its loop; its contract is
    [hide], which reads a text from left to right in one go.  [citation.rs] is the
    instance for citation tags.  Positions count characters where the source counts
    bytes: they are used to cut and, at one position of the text, to compare tags one of
    which is a prefix of the other. *)

From stdpp Require Import base list relations strings.
From S2P Require Import Prelude.

(** ** [stream_text.rs] *)

Record StreamTextChunk (T : Type) := mkStreamTextChunk {
  visible_text : str;
  extracted : list T;
}.
Arguments mkStreamTextChunk {T} visible_text extracted.
Arguments visible_text {T} s.
Arguments extracted {T} s.

Definition chunk_default {T} : StreamTextChunk T := mkStreamTextChunk [] [].

Definition stream_chunk_is_empty {T} (c : StreamTextChunk T) : bool :=
  is_empty (visible_text c) && is_empty (extracted c).

(** [push_str] on the visible text and [append] on the extracted payloads. *)
Definition chunk_append {T} (a b : StreamTextChunk T) : StreamTextChunk T :=
  mkStreamTextChunk (visible_text a ++ visible_text b) (extracted a ++ extracted b).

Class StreamTextParser (P T : Type) := {
  push_str : P -> str -> P * StreamTextChunk T;
  stream_finish : P -> P * StreamTextChunk T;
}.

(** Chunks with the same visible text and payloads that mean the same. *)
Definition chunk_equiv {T} (R : relation (list T)) (a b : StreamTextChunk T) : Prop :=
  visible_text a = visible_text b /\ R (extracted a) (extracted b).

(** What a parser promises: [stream_result p r] is all it yields from the state [p] when
    the text still to come is [r]. *)
Class StreamTextSpec (P T : Type) `{StreamTextParser P T} := {
  parser_ok : P -> Prop;
  same_extracted : relation (list T);
  #[global] same_extracted_equiv :: Equivalence same_extracted;
  #[global] same_extracted_app :: Proper (same_extracted ==> same_extracted ==> same_extracted) (++);
  stream_result : P -> str -> StreamTextChunk T;
  push_str_ok p c : parser_ok p -> parser_ok (fst (push_str p c));
  push_str_result p c r : parser_ok p ->
    chunk_equiv same_extracted (stream_result p (c ++ r))
      (chunk_append (snd (push_str p c)) (stream_result (fst (push_str p c)) r));
  stream_finish_result p : parser_ok p ->
    chunk_equiv same_extracted (snd (stream_finish p)) (stream_result p []);
}.

(** A caller that pushes the pieces in order and then finishes. *)
Fixpoint collect_chunks {P T} `{StreamTextParser P T} (p : P) (chunks : list str)
  : P * StreamTextChunk T :=
  match chunks with
  | [] => stream_finish p
  | c :: cs =>
      let '(p, out) := push_str p c in
      let '(p, rest) := collect_chunks p cs in (p, chunk_append out rest)
  end.

(** ** [inline_hidden_tag.rs] *)

Record ExtractedInlineTag (T : Type) := mkExtractedInlineTag { extracted_tag : T; extracted_content : str }.
Arguments mkExtractedInlineTag {T} extracted_tag extracted_content.
Arguments extracted_tag {T} e.
Arguments extracted_content {T} e.

Record InlineTagSpec (T : Type) := mkInlineTagSpec { spec_tag : T; spec_open : str; spec_close : str }.
Arguments mkInlineTagSpec {T} spec_tag spec_open spec_close.
Arguments spec_tag {T} i.
Arguments spec_open {T} i.
Arguments spec_close {T} i.

Record ActiveTag (T : Type) := mkActiveTag { active_tag : T; active_close : str; active_content : str }.
Arguments mkActiveTag {T} active_tag active_close active_content.
Arguments active_tag {T} a.
Arguments active_close {T} a.
Arguments active_content {T} a.

Record InlineHiddenTagParser (T : Type) := mkInlineHiddenTagParser {
  inline_specs : list (InlineTagSpec T);
  inline_pending : str;
  inline_active : option (ActiveTag T);
}.
Arguments mkInlineHiddenTagParser {T} inline_specs inline_pending inline_active.
Arguments inline_specs {T} i.
Arguments inline_pending {T} i.
Arguments inline_active {T} i.

(** [str::find]. *)
Fixpoint find (needle s : str) : option nat :=
  if starts_with needle s then Some 0
  else match s with [] => None | _ :: s' => S <$> find needle s' end.

Fixpoint suffix_prefix_loop (s needle : str) (k : nat) : nat :=
  match k with
  | 0 => 0
  | S k' => if ends_with (take k needle) s then k else suffix_prefix_loop s needle k'
  end.

Definition longest_suffix_prefix_len (s needle : str) : nat :=
  suffix_prefix_loop s needle (length s `min` (length needle - 1)).

(** [Iterator::min_by]: the first of the least elements. *)
Definition min_by {A} (cmp : A -> A -> comparison) (l : list A) : option A :=
  match l with
  | [] => None
  | x :: l' => Some (foldl (fun m y => match cmp m y with Gt => y | _ => m end) x l')
  end.

(** [Ordering::then_with]. *)
Definition then_with (a b : comparison) : comparison := match a with Eq => b | _ => a end.

Section inline.
Context {T : Type}.
Implicit Types p : InlineHiddenTagParser T.
Implicit Types out : StreamTextChunk (ExtractedInlineTag T).

Definition inline_new (specs : list (InlineTagSpec T)) : result (InlineHiddenTagParser T) unit :=
  if is_empty specs then Panic
  else if existsb (fun spec => is_empty (spec_open spec) || is_empty (spec_close spec)) specs then Panic
  else Ok (mkInlineHiddenTagParser specs [] None).

Definition compare_open (a b : nat * nat * nat) : comparison :=
  let '(pos_a, len_a, idx_a) := a in
  let '(pos_b, len_b, idx_b) := b in
  then_with (Nat.compare pos_a pos_b) (then_with (Nat.compare len_b len_a) (Nat.compare idx_a idx_b)).

Definition open_candidates (specs : list (InlineTagSpec T)) (pending : str) : list (nat * nat * nat) :=
  omap (fun '(idx, spec) => (fun pos => (pos, length (spec_open spec), idx)) <$> find (spec_open spec) pending)
    (zip (seq 0 (length specs)) specs).

Definition find_next_open p : option (nat * nat) :=
  (fun '(pos, _, idx) => (pos, idx)) <$>
    min_by compare_open (open_candidates (inline_specs p) (inline_pending p)).

Definition max_open_prefix_suffix_len p : nat :=
  foldr Nat.max 0
    ((fun spec => longest_suffix_prefix_len (inline_pending p) (spec_open spec)) <$> inline_specs p).

Definition push_visible_prefix out (pending : str) : StreamTextChunk (ExtractedInlineTag T) :=
  if is_empty pending then out else mkStreamTextChunk (visible_text out ++ pending) (extracted out).

Definition drain_visible_to_suffix_match p out (keep_suffix_len : nat) :
    InlineHiddenTagParser T * StreamTextChunk (ExtractedInlineTag T) :=
  let n := length (inline_pending p) - keep_suffix_len in
  if Nat.eqb n 0 then (p, out)
  else (mkInlineHiddenTagParser (inline_specs p) (drop n (inline_pending p)) (inline_active p),
        push_visible_prefix out (take n (inline_pending p))).

(** The loop of [push_str]; every iteration that continues consumes a delimiter, so that
    as many iterations as there are pending characters, and a last one, are enough. *)
Fixpoint inline_loop (fuel : nat) p out : InlineHiddenTagParser T * StreamTextChunk (ExtractedInlineTag T) :=
  match fuel with
  | 0 => (p, out)
  | S fuel =>
      let pending := inline_pending p in
      match inline_active p with
      | Some active =>
          let close := active_close active in
          match find close pending with
          | Some close_idx =>
              inline_loop fuel
                (mkInlineHiddenTagParser (inline_specs p) (drop (close_idx + length close) pending) None)
                (mkStreamTextChunk (visible_text out)
                   (extracted out ++
                    [mkExtractedInlineTag (active_tag active) (active_content active ++ take close_idx pending)]))
          | None =>
              let keep := longest_suffix_prefix_len pending close in
              let n := length pending - keep in
              (if Nat.ltb 0 n
               then mkInlineHiddenTagParser (inline_specs p) (drop n pending)
                      (Some (mkActiveTag (active_tag active) close (active_content active ++ take n pending)))
               else p, out)
          end
      | None =>
          match find_next_open p with
          | Some (open_idx, spec_idx) =>
              let out := push_visible_prefix out (take open_idx pending) in
              match inline_specs p !! spec_idx with
              | Some spec =>
                  inline_loop fuel
                    (mkInlineHiddenTagParser (inline_specs p) (drop (open_idx + length (spec_open spec)) pending)
                       (Some (mkActiveTag (spec_tag spec) (spec_close spec) [])))
                    out
              | None => (p, out)
              end
          | None => drain_visible_to_suffix_match p out (max_open_prefix_suffix_len p)
          end
      end
  end.

Definition inline_push_str p (chunk : str) : InlineHiddenTagParser T * StreamTextChunk (ExtractedInlineTag T) :=
  let pending := inline_pending p ++ chunk in
  inline_loop (S (length pending)) (mkInlineHiddenTagParser (inline_specs p) pending (inline_active p)) chunk_default.

Definition inline_finish p : InlineHiddenTagParser T * StreamTextChunk (ExtractedInlineTag T) :=
  match inline_active p with
  | Some active =>
      (mkInlineHiddenTagParser (inline_specs p) [] None,
       mkStreamTextChunk []
         [mkExtractedInlineTag (active_tag active) (active_content active ++ inline_pending p)])
  | None => (mkInlineHiddenTagParser (inline_specs p) [] None, mkStreamTextChunk (inline_pending p) [])
  end.

#[export] Instance InlineHiddenTagParser_StreamTextParser :
  StreamTextParser (InlineHiddenTagParser T) (ExtractedInlineTag T) :=
  { push_str := inline_push_str; stream_finish := inline_finish }.

End inline.

(** ** [citation.rs] *)

Inductive CitationTag := Citation.

Definition CITATION_OPEN : str := lit "<oai-mem-citation>".
Definition CITATION_CLOSE : str := lit "</oai-mem-citation>".

Definition CITATION_SPECS : list (InlineTagSpec CitationTag) :=
  [mkInlineTagSpec Citation CITATION_OPEN CITATION_CLOSE].

Record CitationStreamParser := mkCitationStreamParser { citation_inner : InlineHiddenTagParser CitationTag }.

Definition citation_new : result CitationStreamParser unit :=
  let? inner := inline_new CITATION_SPECS in Ok (mkCitationStreamParser inner).

Definition citation_chunk (inner : StreamTextChunk (ExtractedInlineTag CitationTag)) : StreamTextChunk str :=
  mkStreamTextChunk (visible_text inner) (extracted_content <$> extracted inner).

Definition citation_push_str (p : CitationStreamParser) (chunk : str) : CitationStreamParser * StreamTextChunk str :=
  let '(inner, out) := inline_push_str (citation_inner p) chunk in
  (mkCitationStreamParser inner, citation_chunk out).

Definition citation_finish (p : CitationStreamParser) : CitationStreamParser * StreamTextChunk str :=
  let '(inner, out) := inline_finish (citation_inner p) in
  (mkCitationStreamParser inner, citation_chunk out).

#[export] Instance CitationStreamParser_StreamTextParser : StreamTextParser CitationStreamParser str :=
  { push_str := citation_push_str; stream_finish := citation_finish }.

Definition strip_citations (text : str) : result (str * list str) unit :=
  let? parser := citation_new in
  let '(parser, out) := citation_push_str parser text in
  let '(_, tail) := citation_finish parser in
  let out := chunk_append out tail in
  Ok (visible_text out, extracted out).

(** ** Any parser that keeps the contract *)

Section contract.
Context {P T : Type} `{StreamTextSpec P T}.

Lemma chunk_equiv_app (a a' b b' : StreamTextChunk T) :
  chunk_equiv same_extracted a a' -> chunk_equiv same_extracted b b' ->
  chunk_equiv same_extracted (chunk_append a b) (chunk_append a' b').
Proof. intros [E1 R1] [E2 R2]. split; simpl; [by rewrite E1, E2|by rewrite R1, R2]. Qed.

#[export] Instance chunk_equiv_equivalence : Equivalence (chunk_equiv (T := T) same_extracted).
Proof.
  split.
  - intros a. by split.
  - intros a b [? ?]. by split.
  - intros a b c [? ?] [? ?]. split; [congruence|by etransitivity].
Qed.

(** Fed in any pieces and finished, a parser yields the result of the whole text. *)
Lemma collect_chunks_result (p : P) chunks :
  parser_ok p -> chunk_equiv same_extracted (snd (collect_chunks p chunks)) (stream_result p (concat chunks)).
Proof.
  revert p. induction chunks as [|c cs IH]; intros p Hp; simpl; [by apply stream_finish_result|].
  pose proof (push_str_ok p c Hp) as Hok. pose proof (push_str_result p c (concat cs) Hp) as Hr.
  destruct (push_str p c) as [p' out]. specialize (IH p' Hok).
  destruct (collect_chunks p' cs) as [p'' rest]. simpl in *.
  etransitivity; [|symmetry; exact Hr]. by apply chunk_equiv_app.
Qed.

Lemma chunk_equiv_eq (a b : StreamTextChunk T) : chunk_equiv eq a b -> a = b.
Proof. destruct a, b. by intros [? ?]; simpl in *; subst. Qed.

(** Where payloads mean the same only when equal, the results are equal. *)
Lemma collect_chunks_eq (p : P) chunks :
  same_extracted = eq -> parser_ok p -> snd (collect_chunks p chunks) = stream_result p (concat chunks).
Proof. intros He Hp. apply chunk_equiv_eq. rewrite <- He. by apply collect_chunks_result. Qed.

End contract.

(** ** Finding a delimiter *)

Lemma starts_with_app_l n q r : starts_with n q = true -> starts_with n (q ++ r) = true.
Proof. rewrite !starts_with_true. intros [t ->]. exists (t ++ r). by rewrite <- app_assoc. Qed.

(** A delimiter at the start of [q ++ r] is inside [q] or [q] is a proper prefix of it. *)
Lemma starts_with_boundary n q r :
  starts_with n (q ++ r) = true -> starts_with n q = true \/ (q = take (length q) n /\ length q < length n).
Proof.
  rewrite !starts_with_true. intros [t Ht]. destruct (decide (length n <= length q)) as [Hle|Hgt].
  - left. exists (drop (length n) q). rewrite <- (take_drop (length n) q) at 1. f_equal.
    apply (f_equal (take (length n))) in Ht. by rewrite take_app_le, take_app_length in Ht.
  - right. split; [|lia]. apply (f_equal (take (length q))) in Ht.
    by rewrite take_app_length, take_app_le in Ht by lia.
Qed.

Lemma starts_with_length n q : starts_with n q = true -> length n <= length q.
Proof. rewrite starts_with_true. intros [t ->]. rewrite length_app. lia. Qed.

Lemma find_Some n s i :
  find n s = Some i ->
  starts_with n (drop i s) = true /\ (forall j, j < i -> starts_with n (drop j s) = false) /\ i + length n <= length s.
Proof.
  revert i. induction s as [|c s IH]; intros i Hf; simpl in Hf; case_match eqn:E; simplify_eq.
  - split_and!; [done|lia|by apply starts_with_length in E].
  - split_and!; [done|lia|by apply starts_with_length in E].
  - destruct (find n s) as [k|] eqn:Ef; [|done]. simpl in Hf. simplify_eq.
    destruct (IH k eq_refl) as (H1 & H2 & H3). split_and!; [done| |simpl; lia].
    intros [|j] Hj; [done|]. simpl. apply H2. lia.
Qed.

Lemma find_None n s j : find n s = None -> starts_with n (drop j s) = false.
Proof.
  revert j. induction s as [|c s IH]; intros j Hf; simpl in Hf; case_match eqn:E; simplify_eq.
  - by destruct j.
  - destruct (find n s) eqn:Ef; [done|]. destruct j as [|j]; [done|]. simpl. by apply IH.
Qed.

Lemma find_le n s i : starts_with n (drop i s) = true -> exists k, find n s = Some k /\ k <= i.
Proof.
  intros Hs. destruct (find n s) as [k|] eqn:E; [|by rewrite (find_None _ _ i E) in Hs].
  exists k. split; [done|]. destruct (decide (k <= i)) as [|Hlt]; [done|].
  destruct (find_Some _ _ _ E) as (_ & Hn & _). rewrite Hn in Hs by lia. done.
Qed.

Lemma find_drop_None n q k : find n q = None -> find n (drop k q) = None.
Proof.
  intros Hf. destruct (find n (drop k q)) as [i|] eqn:E; [|done]. exfalso.
  apply find_Some in E as (Hs & _). rewrite drop_drop, (find_None _ _ _ Hf) in Hs. done.
Qed.

Lemma ends_with_true p s : ends_with p s = true <-> exists r, s = r ++ p.
Proof.
  unfold ends_with. destruct (strip_suffix p s) as [r|] eqn:E.
  - apply strip_suffix_Some in E. naive_solver.
  - split; [done|]. intros [r Hr%strip_suffix_Some]. congruence.
Qed.

Lemma suffix_prefix_loop_bound s n k : suffix_prefix_loop s n k <= k.
Proof. induction k as [|k IH]; simpl; [done|]. case_match; lia. Qed.

Lemma longest_suffix_prefix_bound s n : longest_suffix_prefix_len s n <= length s.
Proof. unfold longest_suffix_prefix_len. pose proof (suffix_prefix_loop_bound s n (length s `min` (length n - 1))). lia. Qed.

Lemma suffix_prefix_loop_max s n k m :
  m <= k -> ends_with (take m n) s = true -> m <= suffix_prefix_loop s n k.
Proof.
  induction k as [|k IH]; [simpl; lia|]. intros Hm He. simpl.
  destruct (ends_with (take (S k) n) s) eqn:E; [done|].
  destruct (decide (m = S k)) as [->|]; [congruence|]. apply IH; [lia|done].
Qed.

(** Text before the kept suffix starts no delimiter, whatever follows. *)
Lemma no_delimiter_before_suffix n q r j :
  find n q = None -> j < length q - longest_suffix_prefix_len q n -> starts_with n (drop j (q ++ r)) = false.
Proof.
  intros Hf Hj. rewrite drop_app_le by lia.
  destruct (starts_with n (drop j q ++ r)) eqn:E; [|done]. exfalso.
  destruct (starts_with_boundary _ _ _ E) as [E'|[Hq Hl]]; [by rewrite (find_None _ _ j Hf) in E'|].
  assert (length q - j <= longest_suffix_prefix_len q n); [|lia].
  rewrite length_drop in Hq, Hl. apply suffix_prefix_loop_max; [lia|].
  apply ends_with_true. exists (take j q). by rewrite <- Hq, take_drop.
Qed.

(** Text with room for a delimiter is decided by itself. *)
Lemma no_delimiter_inside n q r j :
  starts_with n (drop j q) = false -> j + length n <= length q -> starts_with n (drop j (q ++ r)) = false.
Proof.
  intros Hs Hl. rewrite drop_app_le by lia.
  destruct (starts_with n (drop j q ++ r)) eqn:E; [|done].
  destruct (starts_with_boundary _ _ _ E) as [E'|[_ Hl']]; [congruence|]. rewrite length_drop in Hl'. lia.
Qed.

(** ** The specification of inline tags *)

Section hide.
Context {T : Type}.
Implicit Types specs : list (InlineTagSpec T).

(** The tag that opens at the start of a text: the longest, the first of equals. *)
Fixpoint open_at specs (s : str) : option (InlineTagSpec T) :=
  match specs with
  | [] => None
  | spec :: specs' =>
      if starts_with (spec_open spec) s then
        match open_at specs' s with
        | Some o => if Nat.ltb (length (spec_open spec)) (length (spec_open o)) then Some o else Some spec
        | None => Some spec
        end
      else open_at specs' s
  end.

Definition add_visible (v : str) (c : StreamTextChunk (ExtractedInlineTag T)) :=
  mkStreamTextChunk (v ++ visible_text c) (extracted c).
Definition add_extracted (e : ExtractedInlineTag T) (c : StreamTextChunk (ExtractedInlineTag T)) :=
  mkStreamTextChunk (visible_text c) (e :: extracted c).
Definition add_content (a : ActiveTag T) (s : str) : ActiveTag T :=
  mkActiveTag (active_tag a) (active_close a) (active_content a ++ s).
Definition close_tag (a : ActiveTag T) : ExtractedInlineTag T :=
  mkExtractedInlineTag (active_tag a) (active_content a).

(** A text read character by character: [skip] characters of a delimiter are passed
    over; inside a tag everything up to the first closing delimiter is content; outside,
    everything that does not start a tag is visible. *)
Fixpoint hide specs (active : option (ActiveTag T)) (skip : nat) (s : str) : StreamTextChunk (ExtractedInlineTag T) :=
  match s with
  | [] => match active with Some a => mkStreamTextChunk [] [close_tag a] | None => chunk_default end
  | c :: s' =>
      match skip, active with
      | S k, _ => hide specs active k s'
      | 0, Some a =>
          if starts_with (active_close a) s
          then add_extracted (close_tag a) (hide specs None (length (active_close a) - 1) s')
          else hide specs (Some (add_content a [c])) 0 s'
      | 0, None =>
          match open_at specs s with
          | Some spec =>
              hide specs (Some (mkActiveTag (spec_tag spec) (spec_close spec) [])) (length (spec_open spec) - 1) s'
          | None => add_visible [c] (hide specs None 0 s')
          end
      end
  end.

(** Delimiters are not empty, and no opening delimiter lies inside a different one. *)
Definition specs_ok specs : bool :=
  forallb (fun a =>
    negb (is_empty (spec_open a)) && negb (is_empty (spec_close a)) &&
    forallb (fun b => match find (spec_open a) (spec_open b) with
                      | Some _ => str_eqb (spec_open a) (spec_open b)
                      | None => true
                      end) specs) specs.

Definition inline_ok (p : InlineHiddenTagParser T) : Prop :=
  specs_ok (inline_specs p) = true /\ (forall a, inline_active p = Some a -> active_close a <> []).

Lemma hide_skip specs act k s : k <= length s -> hide specs act k s = hide specs act 0 (drop k s).
Proof.
  revert k. induction s as [|c s IH]; intros [|k] Hk; simpl in *; try (done || lia). apply IH. lia.
Qed.

Lemma add_content_app a s t : add_content (add_content a s) t = add_content a (s ++ t).
Proof. unfold add_content. simpl. by rewrite app_assoc. Qed.

Lemma add_content_nil a : add_content a [] = a.
Proof. destruct a. unfold add_content. simpl. by rewrite app_nil_r. Qed.

Lemma hide_content specs a n s :
  n <= length s -> (forall j, j < n -> starts_with (active_close a) (drop j s) = false) ->
  hide specs (Some a) 0 s = hide specs (Some (add_content a (take n s))) 0 (drop n s).
Proof.
  revert a s. induction n as [|n IH]; intros a s Hn Hs; [by rewrite add_content_nil|].
  destruct s as [|c s]; simpl in Hn; [lia|].
  cbn [hide]. assert (starts_with (active_close a) (c :: s) = false) as -> by (apply (Hs 0); lia).
  rewrite IH; [|lia|intros j Hj; apply (Hs (S j)); lia].
  by rewrite add_content_app.
Qed.

Lemma hide_visible specs n s :
  n <= length s -> (forall j, j < n -> open_at specs (drop j s) = None) ->
  hide specs None 0 s = add_visible (take n s) (hide specs None 0 (drop n s)).
Proof.
  revert s. induction n as [|n IH]; intros s Hn Hs; [rewrite take_0, drop_0; by destruct (hide specs None 0 s)|].
  destruct s as [|c s]; simpl in Hn; [lia|].
  cbn [hide]. assert (open_at specs (c :: s) = None) as -> by (apply (Hs 0); lia).
  rewrite IH; [done|lia|]. intros j Hj. apply (Hs (S j)). lia.
Qed.

Lemma hide_close specs a s :
  active_close a <> [] -> starts_with (active_close a) s = true ->
  hide specs (Some a) 0 s = add_extracted (close_tag a) (hide specs None 0 (drop (length (active_close a)) s)).
Proof.
  intros Hne Hs. pose proof (starts_with_length _ _ Hs) as Hl.
  assert (0 < length (active_close a)) by (destruct (active_close a); simpl; [done|lia]).
  destruct s as [|c s]; [simpl in Hl; lia|]. cbn [hide]. rewrite Hs. simpl in Hl. rewrite hide_skip by lia.
  by replace (length (active_close a)) with (S (length (active_close a) - 1)) at 2 by lia.
Qed.

Lemma hide_open specs spec s :
  spec_open spec <> [] -> starts_with (spec_open spec) s = true -> open_at specs s = Some spec ->
  hide specs None 0 s =
  hide specs (Some (mkActiveTag (spec_tag spec) (spec_close spec) [])) 0 (drop (length (spec_open spec)) s).
Proof.
  intros Hne Hs Ho. pose proof (starts_with_length _ _ Hs) as Hl.
  assert (0 < length (spec_open spec)) by (destruct (spec_open spec); simpl; [done|lia]).
  destruct s as [|c s]; [simpl in Hl; lia|]. cbn [hide]. rewrite Ho. simpl in Hl. rewrite hide_skip by lia.
  by replace (length (spec_open spec)) with (S (length (spec_open spec) - 1)) at 2 by lia.
Qed.

Lemma open_at_None specs s :
  (forall spec, spec ∈ specs -> starts_with (spec_open spec) s = false) -> open_at specs s = None.
Proof.
  induction specs as [|a specs IH]; intros Hs; simpl; [done|].
  rewrite Hs by left. apply IH. intros b Hb. apply Hs. by right.
Qed.

Lemma open_at_In specs s o : open_at specs s = Some o -> o ∈ specs /\ starts_with (spec_open o) s = true.
Proof.
  induction specs as [|a specs IH]; simpl; [done|].
  destruct (starts_with (spec_open a) s) eqn:E; [destruct (open_at specs s) as [b|] eqn:Eb; [case_match|]|];
    intros Ho; simplify_eq; try (split; [by left|done]);
    destruct (IH ltac:(done)) as [Hin Hs]; (split; [by right|done]).
Qed.

(** When all tags that open here have the same delimiter, the first of them opens. *)
Lemma open_at_first specs idx spec s :
  specs !! idx = Some spec -> starts_with (spec_open spec) s = true ->
  (forall i o, specs !! i = Some o -> starts_with (spec_open o) s = true ->
     spec_open o = spec_open spec /\ idx <= i) ->
  open_at specs s = Some spec.
Proof.
  revert idx. induction specs as [|a specs IH]; intros idx Hi Hs Hall; [done|].
  destruct idx as [|idx]; simpl in *.
  - simplify_eq. rewrite Hs. destruct (open_at specs s) as [b|] eqn:Eb; [|done].
    destruct (open_at_In _ _ _ Eb) as [[i Hb]%list_elem_of_lookup Hsb].
    destruct (Hall (S i) b Hb Hsb) as [-> _]. by rewrite Nat.ltb_irrefl.
  - destruct (starts_with (spec_open a) s) eqn:Ea; [destruct (Hall 0 a eq_refl Ea); lia|].
    apply (IH idx); [done|done|]. intros i o Ho Hso. destruct (Hall (S i) o Ho Hso). split; [done|lia].
Qed.

End hide.

(** ** The loop meets the specification *)

(** The order [min_by] uses: leftmost, then longest, then first. *)
Definition open_le (a b : nat * nat * nat) : Prop :=
  let '(pos_a, len_a, idx_a) := a in
  let '(pos_b, len_b, idx_b) := b in
  pos_a < pos_b \/ (pos_a = pos_b /\ (len_b < len_a \/ (len_a = len_b /\ idx_a <= idx_b))).

Lemma compare_open_le a b : compare_open a b <> Gt <-> open_le a b.
Proof.
  destruct a as [[pa la] ia], b as [[pb lb] ib]. unfold compare_open, open_le, then_with.
  destruct (Nat.compare_spec pa pb), (Nat.compare_spec lb la), (Nat.compare_spec ia ib);
    (split; [intros ?|intros ? ?]); try done; lia.
Qed.

Lemma open_le_trans a b c : open_le a b -> open_le b c -> open_le a c.
Proof. destruct a as [[??]?], b as [[??]?], c as [[??]?]. unfold open_le. lia. Qed.

Lemma open_le_total a b : open_le a b \/ open_le b a.
Proof. destruct a as [[??]?], b as [[??]?]. unfold open_le. lia. Qed.

Lemma min_by_open l m : min_by compare_open l = Some m -> m ∈ l /\ forall y, y ∈ l -> open_le m y.
Proof.
  destruct l as [|x l]; simpl; [done|]. intros [= <-].
  assert (forall x, let m := foldl (fun m y => match compare_open m y with Gt => y | _ => m end) x l in
    (m = x \/ m ∈ l) /\ open_le m x /\ forall y, y ∈ l -> open_le m y) as Hf.
  { clear x. induction l as [|z l IH]; intros x; simpl.
    - split_and!; [by left|destruct (open_le_total x x); done|]. intros y Hy. by apply not_elem_of_nil in Hy.
    - assert (exists w, (w = x \/ w = z) /\ open_le w x /\ open_le w z /\
        match compare_open x z with Gt => z | _ => x end = w) as (w & Hw & Hx & Hz & ->).
      { pose proof (compare_open_le x z) as Hc. pose proof (open_le_total x z). pose proof (open_le_total x x).
        destruct (compare_open x z); [exists x|exists x|exists z; pose proof (open_le_total z z)]; intuition congruence. }
      destruct (IH w) as (H1 & H2 & H3). split_and!.
      + destruct Hw as [-> | ->]; rewrite !elem_of_cons; tauto.
      + by eapply open_le_trans.
      + intros y [->|Hy]%elem_of_cons; [by eapply open_le_trans|by apply H3]. }
  destruct (Hf x) as (H1 & H2 & H3). split; [rewrite elem_of_cons; tauto|].
  intros y [->|Hy]%elem_of_cons; auto.
Qed.

Section loop.
Context {T : Type}.
Implicit Types p : InlineHiddenTagParser T.
Implicit Types specs : list (InlineTagSpec T).

Lemma elem_of_open_candidates specs q pos len idx :
  (pos, len, idx) ∈ open_candidates specs q <->
  exists spec, specs !! idx = Some spec /\ find (spec_open spec) q = Some pos /\ len = length (spec_open spec).
Proof.
  unfold open_candidates. rewrite list_elem_of_omap. split.
  - intros ([i spec] & [k Hk]%list_elem_of_lookup & He). apply lookup_zip_with_Some in Hk as (i' & s' & [= -> ->] & Hi & Hs).
    apply lookup_seq in Hi as [-> _]. apply fmap_Some in He as (x & Hx & [= -> -> ->]). by exists s'.
  - intros (spec & Hs & Hf & ->). exists (idx, spec). rewrite Hf. split; [|done].
    apply list_elem_of_lookup. exists idx. apply lookup_zip_with_Some. exists idx, spec. split_and!; [done| |done].
    apply lookup_seq. split; [done|]. by apply lookup_lt_Some in Hs.
Qed.

Lemma specs_ok_nonempty specs spec :
  specs_ok specs = true -> spec ∈ specs -> spec_open spec <> [] /\ spec_close spec <> [].
Proof.
  unfold specs_ok. rewrite forallb_forall. intros Hall Hin%list_elem_of_In. specialize (Hall _ Hin). to_prop.
  by rewrite !is_empty_false in *.
Qed.

Lemma specs_ok_apart specs a b i :
  specs_ok specs = true -> a ∈ specs -> b ∈ specs -> starts_with (spec_open a) (drop i (spec_open b)) = true ->
  spec_open a = spec_open b.
Proof.
  unfold specs_ok. rewrite forallb_forall. intros Hall Ha%list_elem_of_In Hb%list_elem_of_In Hs.
  specialize (Hall _ Ha). to_prop. rewrite forallb_forall in *.
  destruct (find_le _ _ _ Hs) as (k & Hk & _).
  match goal with H : forall _, _ |- _ => specialize (H b Hb); simpl in H; rewrite Hk in H end. by to_prop.
Qed.

(** An opening delimiter found in [q] is not overtaken by one that the text after [q]
    completes. *)
Lemma found_open_first specs q r pos spec o j :
  specs_ok specs = true -> spec ∈ specs -> o ∈ specs ->
  starts_with (spec_open spec) (drop pos q) = true -> pos <= length q -> j <= pos ->
  starts_with (spec_open o) (drop j (q ++ r)) = true ->
  starts_with (spec_open o) (drop j q) = true.
Proof.
  intros Hok Hspec Ho Hs Hpos Hj Hst. rewrite drop_app_le in Hst by lia.
  destruct (starts_with_boundary _ _ _ Hst) as [|[Hq Hl]]; [done|]. exfalso.
  assert (spec_open spec = spec_open o) as He.
  { apply (specs_ok_apart specs _ _ (pos - j)); [done..|].
    rewrite <- (take_drop (length (drop j q)) (spec_open o)), <- Hq.
    rewrite drop_app_le by (rewrite length_drop; lia). rewrite drop_drop.
    replace (j + (pos - j)) with pos by lia. by apply starts_with_app_l. }
  apply starts_with_length in Hs. rewrite He in Hs. rewrite length_drop in *. lia.
Qed.

Lemma find_next_open_Some p pos idx r :
  specs_ok (inline_specs p) = true -> find_next_open p = Some (pos, idx) ->
  exists spec, inline_specs p !! idx = Some spec /\
    starts_with (spec_open spec) (drop pos (inline_pending p)) = true /\
    pos + length (spec_open spec) <= length (inline_pending p) /\
    (forall j, j < pos -> open_at (inline_specs p) (drop j (inline_pending p ++ r)) = None) /\
    open_at (inline_specs p) (drop pos (inline_pending p ++ r)) = Some spec.
Proof.
  unfold find_next_open. intros Hok Hm. apply fmap_Some in Hm as ([[ps len] ix] & Hm & [= <- <-]).
  apply min_by_open in Hm as [(spec & Hspec & Hf & ->)%elem_of_open_candidates Hmin].
  destruct (find_Some _ _ _ Hf) as (Hs & _ & Hl). exists spec.
  assert (spec ∈ inline_specs p) as Hin by (apply list_elem_of_lookup; eauto).
  assert (forall i o j, inline_specs p !! i = Some o -> j <= pos ->
    starts_with (spec_open o) (drop j (inline_pending p ++ r)) = true ->
    exists k, find (spec_open o) (inline_pending p) = Some k /\ k <= j /\
      open_le (pos, length (spec_open spec), idx) (k, length (spec_open o), i)) as Hcand.
  { intros i o j Ho Hj Hst. assert (o ∈ inline_specs p) by (apply list_elem_of_lookup; eauto).
    eapply found_open_first in Hst; [|done|exact Hin|done|done|lia|done].
    destruct (find_le _ _ _ Hst) as (k & Hk & Hkj). exists k. split_and!; [done|done|].
    apply Hmin, elem_of_open_candidates. eauto. }
  split_and!; [done|done|done| |].
  - intros j Hj. apply open_at_None. intros o [i Ho]%list_elem_of_lookup.
    apply not_true_is_false. intros E. destruct (Hcand i o j Ho ltac:(lia) E) as (k & _ & ? & Hle).
    unfold open_le in Hle. lia.
  - apply (open_at_first _ idx); [done| |].
    + rewrite drop_app_le by lia. by apply starts_with_app_l.
    + intros i o Ho E. destruct (Hcand i o pos Ho ltac:(lia) E) as (k & Hk & ? & Hle). unfold open_le in Hle.
      assert (k = pos) as -> by lia. destruct (find_Some _ _ _ Hk) as (Hso & _ & _).
      assert (spec_open o = spec_open spec) as He; [|rewrite He in Hle; split; [done|lia]].
      apply starts_with_true in Hs as [t1 H1], Hso as [t2 H2]. rewrite H1 in H2.
      apply (specs_ok_apart (inline_specs p) _ _ 0); [done|by eapply list_elem_of_lookup_2|done|].
      rewrite drop_0. apply (f_equal (take (length (spec_open o)))) in H2.
      rewrite take_app_length, take_app_le in H2 by lia. apply starts_with_true.
      exists (drop (length (spec_open o)) (spec_open spec)). rewrite <- H2 at 1. by rewrite take_drop.
Qed.

Lemma min_by_None {A} (cmp : A -> A -> comparison) l : min_by cmp l = None -> l = [].
Proof. by destruct l. Qed.

Lemma max_open_ge p spec :
  spec ∈ inline_specs p ->
  longest_suffix_prefix_len (inline_pending p) (spec_open spec) <= max_open_prefix_suffix_len p.
Proof.
  unfold max_open_prefix_suffix_len. induction (inline_specs p) as [|a l IH]; [by intros ?%not_elem_of_nil|].
  rewrite fmap_cons. cbn [foldr]. intros [->|Hin]%elem_of_cons; [apply Nat.le_max_l|].
  etransitivity; [by apply IH|apply Nat.le_max_r].
Qed.

Lemma find_next_open_None_find p spec :
  find_next_open p = None -> spec ∈ inline_specs p -> find (spec_open spec) (inline_pending p) = None.
Proof.
  unfold find_next_open. intros Hn%fmap_None%min_by_None [i Hi]%list_elem_of_lookup.
  destruct (find _ _) as [k|] eqn:E; [|done].
  assert ((k, length (spec_open spec), i) ∈ open_candidates (inline_specs p) (inline_pending p)) as Hc
    by (apply elem_of_open_candidates; eauto).
  rewrite Hn in Hc. by apply not_elem_of_nil in Hc.
Qed.

Lemma find_next_open_None p r j :
  find_next_open p = None -> j < length (inline_pending p) - max_open_prefix_suffix_len p ->
  open_at (inline_specs p) (drop j (inline_pending p ++ r)) = None.
Proof.
  intros Hn Hj. apply open_at_None. intros spec Hin. pose proof (max_open_ge p spec Hin).
  apply no_delimiter_before_suffix; [by apply find_next_open_None_find|lia].
Qed.

(** What a state still yields when [r] is to come. *)
Definition inline_result p (r : str) : StreamTextChunk (ExtractedInlineTag T) :=
  hide (inline_specs p) (inline_active p) 0 (inline_pending p ++ r).

(** No delimiter that could be acted on is left in the pending text. *)
Definition inline_settled p : Prop :=
  match inline_active p with
  | Some a => find (active_close a) (inline_pending p) = None
  | None => forall spec, spec ∈ inline_specs p -> find (spec_open spec) (inline_pending p) = None
  end.

Lemma inline_close_found specs q a i r :
  active_close a <> [] -> find (active_close a) q = Some i ->
  hide specs (Some a) 0 (q ++ r) =
  add_extracted (close_tag (add_content a (take i q))) (hide specs None 0 (drop (i + length (active_close a)) q ++ r)).
Proof.
  intros Hne (Hs & Hb & Hl)%find_Some. rewrite (hide_content _ _ i); [|rewrite length_app; lia|].
  - rewrite take_app_le, drop_app_le by lia. rewrite hide_close; [|done|by apply starts_with_app_l].
    rewrite drop_app_le by (simpl; rewrite length_drop; lia). by rewrite drop_drop.
  - intros j Hj. apply no_delimiter_inside; [by apply Hb|lia].
Qed.

Lemma inline_close_pending specs q a r (n := length q - longest_suffix_prefix_len q (active_close a)) :
  find (active_close a) q = None ->
  hide specs (Some a) 0 (q ++ r) = hide specs (Some (add_content a (take n q))) 0 (drop n q ++ r).
Proof.
  intros Hf. rewrite (hide_content _ _ n); [|rewrite length_app; lia|].
  - by rewrite take_app_le, drop_app_le by lia.
  - intros j Hj. by apply no_delimiter_before_suffix.
Qed.

Lemma push_visible_prefix_eq (out : StreamTextChunk (ExtractedInlineTag T)) v :
  push_visible_prefix out v = mkStreamTextChunk (visible_text out ++ v) (extracted out).
Proof. unfold push_visible_prefix. destruct v, out; simpl; [by rewrite app_nil_r|done]. Qed.

Lemma chunk_append_visible (out c : StreamTextChunk (ExtractedInlineTag T)) v :
  chunk_append out (add_visible v c) = chunk_append (mkStreamTextChunk (visible_text out ++ v) (extracted out)) c.
Proof. unfold chunk_append, add_visible. simpl. by rewrite <- app_assoc. Qed.

Lemma chunk_append_extracted (out c : StreamTextChunk (ExtractedInlineTag T)) e :
  chunk_append out (add_extracted e c) = chunk_append (mkStreamTextChunk (visible_text out) (extracted out ++ [e])) c.
Proof. unfold chunk_append, add_extracted. simpl. by rewrite <- app_assoc. Qed.

(** The last iteration, inside a tag and outside. *)
Lemma inline_keep_close p a r (n := length (inline_pending p) - longest_suffix_prefix_len (inline_pending p) (active_close a))
    (p' := if Nat.ltb 0 n then mkInlineHiddenTagParser (inline_specs p) (drop n (inline_pending p))
                  (Some (mkActiveTag (active_tag a) (active_close a) (active_content a ++ take n (inline_pending p))))
           else p) :
  inline_ok p -> inline_active p = Some a -> find (active_close a) (inline_pending p) = None ->
  inline_ok p' /\ inline_settled p' /\ inline_result p r = inline_result p' r.
Proof.
  intros [Hspecs Hact] Ea Ef. specialize (Hact a Ea). unfold p', inline_settled. case_match.
  - split_and!; [split; [done|]; by intros ? [= <-]|by apply find_drop_None|].
    unfold inline_result. rewrite Ea. by apply inline_close_pending.
  - rewrite Ea. split_and!; [split; [done|]|done..]. intros b. rewrite Ea. by intros [= <-].
Qed.

Lemma inline_drain p out r :
  inline_ok p -> inline_active p = None -> find_next_open p = None ->
  let '(p', out') := drain_visible_to_suffix_match p out (max_open_prefix_suffix_len p) in
  inline_ok p' /\ inline_settled p' /\ chunk_append out (inline_result p r) = chunk_append out' (inline_result p' r).
Proof.
  intros [Hspecs Hact] Ea Ef. unfold drain_visible_to_suffix_match.
  assert (inline_settled p) as Hset by (unfold inline_settled; rewrite Ea; intros; by apply find_next_open_None_find).
  destruct (Nat.eqb _ 0); [done|]. split_and!; [by split| |].
  { unfold inline_settled in *. simpl. rewrite Ea in *. intros spec Hin. by apply find_drop_None, Hset. }
  unfold inline_result. simpl. rewrite Ea, push_visible_prefix_eq, <- chunk_append_visible. f_equal.
  rewrite (hide_visible _ (length (inline_pending p) - max_open_prefix_suffix_len p));
    [|rewrite length_app; lia|intros j Hj; by apply find_next_open_None].
  by rewrite take_app_le, drop_app_le by lia.
Qed.

(** An opening tag found. *)
Lemma inline_open_found p pos idx r :
  inline_ok p -> inline_active p = None -> find_next_open p = Some (pos, idx) ->
  exists spec, inline_specs p !! idx = Some spec /\ spec_close spec <> [] /\
    length (drop (pos + length (spec_open spec)) (inline_pending p)) < length (inline_pending p) /\
    inline_result p r = add_visible (take pos (inline_pending p))
      (hide (inline_specs p) (Some (mkActiveTag (spec_tag spec) (spec_close spec) [])) 0
         (drop (pos + length (spec_open spec)) (inline_pending p) ++ r)).
Proof.
  intros [Hspecs _] Ea Ef.
  destruct (find_next_open_Some p pos idx r Hspecs Ef) as (spec & Hi & Hs & Hl & Hb & Ho). exists spec.
  destruct (specs_ok_nonempty _ spec Hspecs) as [Hn1 Hn2]; [apply list_elem_of_lookup; eauto|].
  assert (0 < length (spec_open spec)) by (destruct (spec_open spec); simpl; [done|lia]).
  split_and!; [done|done|rewrite length_drop; lia|]. unfold inline_result. rewrite Ea.
  rewrite (hide_visible _ pos); [|rewrite length_app; lia|done].
  rewrite (hide_open _ spec); [|done|rewrite drop_app_le by lia; by apply starts_with_app_l|done].
  by rewrite drop_drop, take_app_le, drop_app_le by lia.
Qed.

Lemma inline_loop_result fuel p out r :
  inline_ok p -> length (inline_pending p) < fuel ->
  let '(p', out') := inline_loop fuel p out in
  inline_ok p' /\ inline_settled p' /\ chunk_append out (inline_result p r) = chunk_append out' (inline_result p' r).
Proof.
  revert p out. induction fuel as [|fuel IH]; intros p out Hok Hfuel; [lia|]. cbn [inline_loop].
  destruct (inline_active p) as [a|] eqn:Ea.
  - destruct (find (active_close a) (inline_pending p)) as [i|] eqn:Ef.
    + destruct Hok as [Hspecs Hact]. specialize (Hact a Ea). pose proof (find_Some _ _ _ Ef) as (_ & _ & Hl).
      assert (0 < length (active_close a)) by (destruct (active_close a); simpl; [done|lia]).
      match goal with |- context [inline_loop fuel ?p' ?o'] => specialize (IH p' o') end.
      destruct (inline_loop fuel _ _) as [p' out']. destruct IH as (IH1 & IHs & IH2);
        [by split|simpl; rewrite length_drop; lia|]. split_and!; [done|done|]. rewrite <- IH2.
      unfold inline_result at 1. rewrite Ea, (inline_close_found _ _ _ _ _ Hact Ef). apply chunk_append_extracted.
    + destruct (inline_keep_close p a r Hok Ea Ef) as (H1 & Hs & ->). done.
  - destruct (find_next_open p) as [[pos idx]|] eqn:Ef; [|by apply inline_drain].
    destruct (inline_open_found p pos idx r Hok Ea Ef) as (spec & Hi & Hc & Hl & ->). rewrite Hi.
    match goal with |- context [inline_loop fuel ?p' ?o'] => specialize (IH p' o') end.
    destruct (inline_loop fuel _ _) as [p' out']. destruct IH as (IH1 & IHs & IH2);
      [split; [apply Hok|by intros ? [= <-]]|simpl in *; lia|].
    split_and!; [done|done|]. rewrite <- IH2, push_visible_prefix_eq. apply chunk_append_visible.
Qed.

Lemma inline_push_str_result p c r :
  inline_ok p ->
  inline_ok (fst (inline_push_str p c)) /\ inline_settled (fst (inline_push_str p c)) /\
  inline_result p (c ++ r) = chunk_append (snd (inline_push_str p c)) (inline_result (fst (inline_push_str p c)) r).
Proof.
  intros Hok. unfold inline_push_str.
  match goal with |- context [inline_loop ?f ?q ?o] => pose proof (inline_loop_result f q o r) as HL end.
  destruct (inline_loop _ _ _) as [p' out']. destruct HL as (H1 & Hs & H2); [by destruct Hok|simpl; lia|].
  split_and!; [done|done|]. simpl. rewrite <- H2. unfold inline_result, chunk_append. simpl. rewrite <- app_assoc.
  by destruct (hide _ _ _ _).
Qed.

End loop.

(** ** The contract of inline tags *)

Section inline_contract.
Context {T : Type}.
Implicit Types p : InlineHiddenTagParser T.

Lemma inline_finish_result p : inline_ok p -> inline_settled p -> snd (inline_finish p) = inline_result p [].
Proof.
  intros _ Hset. unfold inline_finish, inline_result, inline_settled in *. rewrite app_nil_r.
  destruct (inline_active p) as [a|] eqn:Ea; simpl.
  - rewrite (hide_content _ _ (length (inline_pending p))); [|done|intros j _; by apply find_None].
    by rewrite drop_all, firstn_all.
  - rewrite (hide_visible _ (length (inline_pending p))); [|done|].
    + rewrite drop_all, firstn_all. unfold add_visible. simpl. by rewrite app_nil_r.
    + intros j _. apply open_at_None. intros spec Hin. by apply find_None, Hset.
Qed.

#[export] Instance InlineHiddenTagParser_StreamTextSpec :
  StreamTextSpec (InlineHiddenTagParser T) (ExtractedInlineTag T).
Proof.
  refine {| parser_ok := fun p => inline_ok p /\ inline_settled p; same_extracted := eq; stream_result := inline_result |}.
  - intros p c [Hok _]. by destruct (inline_push_str_result p c [] Hok) as (? & ? & _).
  - intros p c r [Hok _]. destruct (inline_push_str_result p c r Hok) as (_ & _ & E). by rewrite E.
  - intros p [Hok Hs]. simpl. by rewrite inline_finish_result.
Defined.

Lemma inline_new_ok (specs : list (InlineTagSpec T)) p :
  specs_ok specs = true -> inline_new specs = Ok p ->
  p = mkInlineHiddenTagParser specs [] None /\ inline_ok p /\ inline_settled p.
Proof.
  unfold inline_new. intros Hok Hn. case_match; [done|]. case_match; [done|]. simplify_eq.
  split_and!; [done|by split|]. intros spec Hin. destruct (specs_ok_nonempty _ _ Hok Hin) as [Ho _].
  simpl. by destruct (spec_open spec).
Qed.

End inline_contract.

#[export] Instance CitationStreamParser_StreamTextSpec : StreamTextSpec CitationStreamParser str.
Proof.
  refine {| parser_ok := fun p => inline_ok (citation_inner p) /\ inline_settled (citation_inner p);
            same_extracted := eq; stream_result p r := citation_chunk (inline_result (citation_inner p) r) |}.
  - intros p c [Hok _]. destruct (inline_push_str_result _ c [] Hok) as (H1 & H2 & _).
    simpl. unfold citation_push_str. by destruct (inline_push_str _ c).
  - intros p c r [Hok _]. destruct (inline_push_str_result _ c r Hok) as (_ & _ & E). rewrite E.
    simpl. unfold citation_push_str. destruct (inline_push_str _ c) as [p' out]. split; [done|]. simpl. by rewrite fmap_app.
  - intros p [Hok Hs]. simpl. unfold citation_finish. rewrite <- inline_finish_result by done.
    by destruct (inline_finish _) as [p' out].
Defined.

(** What is in a text besides tags: the part shown, and the citations. *)
Definition citation_result (text : str) : StreamTextChunk str := citation_chunk (hide CITATION_SPECS None 0 text).

Lemma citation_new_eq : citation_new = Ok (mkCitationStreamParser (mkInlineHiddenTagParser CITATION_SPECS [] None)).
Proof. reflexivity. Qed.

Lemma citation_new_ok p : citation_new = Ok p -> parser_ok p /\ forall r, stream_result p r = citation_result r.
Proof.
  rewrite citation_new_eq. intros [= <-].
  destruct (inline_new_ok CITATION_SPECS (mkInlineHiddenTagParser CITATION_SPECS [] None)) as (_ & H1 & H2); done.
Qed.

(** ** Citations in a text *)

Inductive cited_piece := Plain (s : str) | Cite (s : str).

Definition cited_text (x : cited_piece) : str :=
  match x with Plain s => s | Cite s => CITATION_OPEN ++ s ++ CITATION_CLOSE end.
Definition cited_visible (x : cited_piece) : str := match x with Plain s => s | Cite _ => [] end.
Definition cited_bodies (x : cited_piece) : list str := match x with Plain _ => [] | Cite s => [s] end.
Definition cited_body (x : cited_piece) : str := match x with Plain s | Cite s => s end.

Definition less_than : N := 60.

Lemma starts_with_head_ne a n s : head s <> Some a -> starts_with (a :: n) s = false.
Proof.
  intros Hh. apply not_true_is_false. intros [r ->]%starts_with_true. by apply Hh.
Qed.

Lemma head_drop_ne s t j : less_than ∉ s -> j < length s -> head (drop j (s ++ t)) <> Some less_than.
Proof.
  intros Hs Hj. rewrite drop_app_le by lia. destruct (drop j s) as [|c u] eqn:E.
  - apply (f_equal length) in E. rewrite length_drop in E. simpl in E. lia.
  - intros [= ->]. apply Hs. rewrite <- (take_drop j s), E. set_solver.
Qed.

Lemma starts_with_self n r : starts_with n (n ++ r) = true.
Proof. apply starts_with_true. by exists r. Qed.

Lemma citation_opens r :
  open_at CITATION_SPECS (CITATION_OPEN ++ r) = Some (mkInlineTagSpec Citation CITATION_OPEN CITATION_CLOSE).
Proof.
  apply (open_at_first _ 0); [done|apply starts_with_self|].
  intros [|i] o; [intros [= <-] _; by split|done].
Qed.

Lemma citation_chunk_visible v c :
  citation_chunk (add_visible v c) = chunk_append (mkStreamTextChunk v []) (citation_chunk c).
Proof. done. Qed.

Lemma citation_chunk_extracted e c :
  citation_chunk (add_extracted e c) = chunk_append (mkStreamTextChunk [] [extracted_content e]) (citation_chunk c).
Proof. done. Qed.

Lemma hide_cited pieces :
  Forall (fun x => less_than ∉ cited_body x) pieces ->
  citation_result (concat (cited_text <$> pieces)) =
  mkStreamTextChunk (concat (cited_visible <$> pieces)) (concat (cited_bodies <$> pieces)).
Proof.
  unfold citation_result. induction 1 as [|x pieces Hx _ IH]; [done|].
  rewrite !fmap_cons. cbn [concat]. destruct x as [s|s]; cbn [cited_text cited_visible cited_bodies cited_body] in *.
  - rewrite (hide_visible _ (length s)); [|rewrite length_app; lia|].
    + by rewrite take_app_length, drop_app_length, citation_chunk_visible, IH.
    + intros j Hj. apply open_at_None. intros spec [->|[]%not_elem_of_nil]%elem_of_cons.
      by apply starts_with_head_ne, head_drop_ne.
  - rewrite <- !app_assoc, (hide_open _ (mkInlineTagSpec Citation CITATION_OPEN CITATION_CLOSE));
      [|done|apply starts_with_self|apply citation_opens].
    cbn [spec_open spec_close spec_tag]. rewrite drop_app_length.
    rewrite (hide_content _ _ (length s)); [|rewrite length_app; lia|].
    + rewrite take_app_length, drop_app_length. rewrite hide_close; [|done|apply starts_with_self].
      cbn [add_content active_close]. by rewrite drop_app_length, citation_chunk_extracted, IH.
    + intros j Hj. by apply starts_with_head_ne, head_drop_ne.
Qed.

(** Whatever the pieces a text arrives in, a parser for tags whose opening delimiters
    do not lie inside one another shows the text outside tags and extracts the tags with
    their contents, exactly as reading the whole text from left to right does; a tag left
    open at the end is closed there. *)
Theorem inline_tags_any_pieces {T} (specs : list (InlineTagSpec T)) p chunks :
  specs_ok specs = true -> inline_new specs = Ok p ->
  snd (collect_chunks p chunks) = hide specs None 0 (concat chunks).
Proof.
  intros Hok Hn. destruct (inline_new_ok specs p Hok Hn) as (-> & H1 & H2).
  exact (collect_chunks_eq (mkInlineHiddenTagParser specs [] None) chunks eq_refl (conj H1 H2)).
Qed.

Lemma inline_tags_any_pieces_witness :
  snd (collect_chunks
         (mkInlineHiddenTagParser [mkInlineTagSpec 1 (lit "<a>") (lit "</a>"); mkInlineTagSpec 2 (lit "<ab>") (lit "</ab>")] [] None)
         [lit "1<"; lit "ab>x</"; lit "a"; lit "b>2<a>y"]) =
  mkStreamTextChunk (lit "12") [mkExtractedInlineTag 2 (lit "x"); mkExtractedInlineTag 1 (lit "y")].
Proof.
  rewrite (inline_tags_any_pieces
    [mkInlineTagSpec 1 (lit "<a>") (lit "</a>"); mkInlineTagSpec 2 (lit "<ab>") (lit "</ab>")]); reflexivity.
Defined.

(** A text of plain parts and citations, none of which contains a less-than sign, is
    taken apart into them, in whatever pieces it is pushed and by [strip_citations]: the
    visible text is the plain parts and the extracted payloads are the citations. *)
Theorem citations_roundtrip parts p chunks :
  Forall (fun x => less_than ∉ cited_body x) parts ->
  citation_new = Ok p -> concat chunks = concat (cited_text <$> parts) ->
  snd (collect_chunks p chunks) =
    mkStreamTextChunk (concat (cited_visible <$> parts)) (concat (cited_bodies <$> parts)) /\
  strip_citations (concat chunks) =
    Ok (concat (cited_visible <$> parts), concat (cited_bodies <$> parts)).
Proof.
  intros HF Hn Hc. destruct (citation_new_ok p Hn) as [Hok Hr].
  assert (forall cs, concat cs = concat chunks -> snd (collect_chunks p cs) =
    mkStreamTextChunk (concat (cited_visible <$> parts)) (concat (cited_bodies <$> parts))) as Hall.
  { intros cs Hcs. rewrite <- hide_cited, <- Hc, <- Hcs, <- Hr by done. by apply collect_chunks_eq. }
  split; [by apply Hall|]. specialize (Hall [concat chunks]). unfold strip_citations. rewrite Hn. simpl in Hall.
  destruct (citation_push_str p _) as [p' out]. destruct (citation_finish p') as [p'' tail].
  simpl in Hall. by rewrite Hall by apply app_nil_r.
Qed.

Lemma citations_roundtrip_witness :
  snd (collect_chunks (mkCitationStreamParser (mkInlineHiddenTagParser CITATION_SPECS [] None))
         [lit "see <oai-mem"; lit "-citation>doc"; lit "1</oai-mem-citation>."]) =
    mkStreamTextChunk (lit "see .") [lit "doc1"] /\
  strip_citations (lit "see <oai-mem-citation>doc1</oai-mem-citation>.") = Ok (lit "see .", [lit "doc1"]).
Proof.
  apply (citations_roundtrip [Plain (lit "see "); Cite (lit "doc1"); Plain (lit ".")]
    _ [lit "see <oai-mem"; lit "-citation>doc"; lit "1</oai-mem-citation>."]);
    [by_decide|reflexivity|reflexivity].
Defined.
