(* ===== verification/AssistantText.v ===== *)
(** * Assistant text: tag blocks on lines of their own, plans and citations

    Models [tagged_line_parser.rs], [proposed_plan.rs] and [assistant_text.rs] of
    [utils/stream-parser].  The line parser holds a line back until the line can no longer
    be a tag; its specification looks at whole lines.  Segments that differ only in where
    their text was cut mean the same: [atoms] is their common reading, and the contract of
    [StreamText.v] is kept up to it.  [AssistantTextStreamParser] runs the two parsers one
    after the other. *)

From stdpp Require Import base list relations strings.
From S2P Require Import Prelude StreamText.

(** ** [tagged_line_parser.rs] *)

Record TagSpec (T : Type) := mkTagSpec { line_open : str; line_close : str; line_tag : T }.
Arguments mkTagSpec {T} line_open line_close line_tag.
Arguments line_open {T} t.
Arguments line_close {T} t.
Arguments line_tag {T} t.

Inductive TaggedLineSegment (T : Type) :=
| Normal (s : str)
| TagStart (t : T)
| TagDelta (t : T) (s : str)
| TagEnd (t : T).
Arguments Normal {T} s.
Arguments TagStart {T} t.
Arguments TagDelta {T} t s.
Arguments TagEnd {T} t.

Record TaggedLineParser (T : Type) := mkTaggedLineParser {
  tag_specs : list (TagSpec T);
  tag_active : option T;
  detect_tag : bool;
  tag_line_buffer : str;
}.
Arguments mkTaggedLineParser {T} tag_specs tag_active detect_tag tag_line_buffer.
Arguments tag_specs {T} t.
Arguments tag_active {T} t.
Arguments detect_tag {T} t.
Arguments tag_line_buffer {T} t.

Section tagged.
Context {T : Type} `{EqDecision T}.
Implicit Types p : TaggedLineParser T.
Implicit Types segments : list (TaggedLineSegment T).

Definition tagged_new (specs : list (TagSpec T)) : TaggedLineParser T := mkTaggedLineParser specs None true [].

Definition push_segment segments (segment : TaggedLineSegment T) : list (TaggedLineSegment T) :=
  match segment with
  | Normal delta =>
      if is_empty delta then segments
      else match last segments with
           | Some (Normal existing) => removelast segments ++ [Normal (existing ++ delta)]
           | _ => segments ++ [Normal delta]
           end
  | TagDelta tag delta =>
      if is_empty delta then segments
      else match last segments with
           | Some (TagDelta existing_tag existing) =>
               if decide (existing_tag = tag)
               then removelast segments ++ [TagDelta existing_tag (existing ++ delta)]
               else segments ++ [TagDelta tag delta]
           | _ => segments ++ [TagDelta tag delta]
           end
  | TagStart tag => segments ++ [TagStart tag]
  | TagEnd tag => segments ++ [TagEnd tag]
  end.

Definition push_text (active : option T) (text : str) segments : list (TaggedLineSegment T) :=
  match active with
  | Some tag => push_segment segments (TagDelta tag text)
  | None => push_segment segments (Normal text)
  end.

Definition is_tag_prefix (specs : list (TagSpec T)) (slug : str) : bool :=
  let slug := trim_end slug in
  existsb (fun spec => starts_with slug (line_open spec) || starts_with slug (line_close spec)) specs.

Definition match_open (specs : list (TagSpec T)) (slug : str) : option T :=
  line_tag <$> List.find (fun spec => str_eqb (line_open spec) slug) specs.

Definition match_close (specs : list (TagSpec T)) (slug : str) : option T :=
  line_tag <$> List.find (fun spec => str_eqb (line_close spec) slug) specs.

(** [strip_suffix('\n').unwrap_or(&line)], then [trim_start().trim_end()]. *)
Definition line_slug (line : str) : str :=
  let without_newline := match strip_suffix [LF] line with Some l => l | None => line end in
  trim_end (trim_start without_newline).

(** The tag a finished line opens or closes, in the state the parser is in. *)
Inductive line_kind := LineOpens (t : T) | LineCloses (t : T) | LineText.

Definition classify_line (specs : list (TagSpec T)) (active : option T) (line : str) : line_kind :=
  let slug := line_slug line in
  match match_open specs slug, active with
  | Some tag, None => LineOpens tag
  | _, _ =>
      match match_close specs slug with
      | Some tag => if decide (active = Some tag) then LineCloses tag else LineText
      | None => LineText
      end
  end.

Definition finish_line p segments : TaggedLineParser T * list (TaggedLineSegment T) :=
  let line := tag_line_buffer p in
  match classify_line (tag_specs p) (tag_active p) line with
  | LineOpens tag =>
      (mkTaggedLineParser (tag_specs p) (Some tag) true [], push_segment segments (TagStart tag))
  | LineCloses tag =>
      (mkTaggedLineParser (tag_specs p) None true [], push_segment segments (TagEnd tag))
  | LineText =>
      (mkTaggedLineParser (tag_specs p) (tag_active p) true [], push_text (tag_active p) line segments)
  end.

(** The loop of [parse] over the characters, with the run of text not yet pushed. *)
Fixpoint tagged_loop p (run : str) segments (delta : str) : TaggedLineParser T * list (TaggedLineSegment T) :=
  match delta with
  | [] => (p, if is_empty run then segments else push_text (tag_active p) run segments)
  | ch :: rest =>
      if detect_tag p then
        let segments := if is_empty run then segments else push_text (tag_active p) run segments in
        let buffer := tag_line_buffer p ++ [ch] in
        let p := mkTaggedLineParser (tag_specs p) (tag_active p) true buffer in
        if char_eqb ch LF then
          let '(p, segments) := finish_line p segments in tagged_loop p [] segments rest
        else
          let slug := trim_start buffer in
          if is_empty slug || is_tag_prefix (tag_specs p) slug then tagged_loop p [] segments rest
          else
            tagged_loop (mkTaggedLineParser (tag_specs p) (tag_active p) false []) []
              (push_text (tag_active p) buffer segments) rest
      else
        let run := run ++ [ch] in
        if char_eqb ch LF then
          tagged_loop (mkTaggedLineParser (tag_specs p) (tag_active p) true (tag_line_buffer p)) []
            (push_text (tag_active p) run segments) rest
        else tagged_loop p run segments rest
  end.

Definition tagged_parse p (delta : str) : TaggedLineParser T * list (TaggedLineSegment T) :=
  tagged_loop p [] [] delta.

Definition tagged_finish p : TaggedLineParser T * list (TaggedLineSegment T) :=
  let '(active, segments) :=
    if is_empty (tag_line_buffer p) then (tag_active p, [])
    else
      let buffered := tag_line_buffer p in
      match classify_line (tag_specs p) (tag_active p) buffered with
      | LineOpens tag => (Some tag, push_segment [] (TagStart tag))
      | LineCloses tag => (None, push_segment [] (TagEnd tag))
      | LineText => (tag_active p, push_text (tag_active p) buffered [])
      end in
  let segments := match active with Some tag => push_segment segments (TagEnd tag) | None => segments end in
  (mkTaggedLineParser (tag_specs p) None true [], segments).

End tagged.

(** ** [proposed_plan.rs] *)

Definition OPEN_TAG : str := lit "<proposed_plan>".
Definition CLOSE_TAG : str := lit "</proposed_plan>".

Inductive PlanTag := ProposedPlan.
#[export] Instance PlanTag_eq_dec : EqDecision PlanTag.
Proof. solve_decision. Defined.

Inductive ProposedPlanSegment :=
| PlanNormal (s : str)
| ProposedPlanStart
| ProposedPlanDelta (s : str)
| ProposedPlanEnd.

Definition PLAN_SPECS : list (TagSpec PlanTag) := [mkTagSpec OPEN_TAG CLOSE_TAG ProposedPlan].

Record ProposedPlanParser := mkProposedPlanParser { plan_parser : TaggedLineParser PlanTag }.

Definition plan_new : ProposedPlanParser := mkProposedPlanParser (tagged_new PLAN_SPECS).

Definition map_segment (segment : TaggedLineSegment PlanTag) : ProposedPlanSegment :=
  match segment with
  | Normal text => PlanNormal text
  | TagStart ProposedPlan => ProposedPlanStart
  | TagDelta ProposedPlan text => ProposedPlanDelta text
  | TagEnd ProposedPlan => ProposedPlanEnd
  end.

Definition map_segments (segments : list (TaggedLineSegment PlanTag)) : StreamTextChunk ProposedPlanSegment :=
  foldl (fun out segment =>
    let mapped := map_segment segment in
    mkStreamTextChunk
      (match mapped with PlanNormal text => visible_text out ++ text | _ => visible_text out end)
      (extracted out ++ [mapped])) chunk_default segments.

Definition plan_push_str (p : ProposedPlanParser) (chunk : str) : ProposedPlanParser * StreamTextChunk ProposedPlanSegment :=
  let '(parser, segments) := tagged_parse (plan_parser p) chunk in (mkProposedPlanParser parser, map_segments segments).

Definition plan_finish (p : ProposedPlanParser) : ProposedPlanParser * StreamTextChunk ProposedPlanSegment :=
  let '(parser, segments) := tagged_finish (plan_parser p) in (mkProposedPlanParser parser, map_segments segments).

#[export] Instance ProposedPlanParser_StreamTextParser : StreamTextParser ProposedPlanParser ProposedPlanSegment :=
  { push_str := plan_push_str; stream_finish := plan_finish }.

Definition strip_proposed_plan_blocks (text : str) : str :=
  let '(parser, out) := plan_push_str plan_new text in
  let '(_, tail) := plan_finish parser in
  visible_text out ++ visible_text tail.

(** The loop of [extract_proposed_plan_text] over the segments. *)
Definition plan_text_step (acc : str * bool) (segment : ProposedPlanSegment) : str * bool :=
  let '(plan_text, saw_plan_block) := acc in
  match segment with
  | ProposedPlanStart => ([], true)
  | ProposedPlanDelta delta => (plan_text ++ delta, saw_plan_block)
  | ProposedPlanEnd | PlanNormal _ => acc
  end.

Definition extract_proposed_plan_text (text : str) : option str :=
  let '(parser, out) := plan_push_str plan_new text in
  let '(_, tail) := plan_finish parser in
  let '(plan_text, saw_plan_block) := foldl plan_text_step ([], false) (extracted out ++ extracted tail) in
  if saw_plan_block then Some plan_text else None.

(** ** [assistant_text.rs] *)

Record AssistantTextChunk := mkAssistantTextChunk {
  assistant_visible_text : str;
  citations : list str;
  plan_segments : list ProposedPlanSegment;
}.

Definition assistant_chunk_is_empty (c : AssistantTextChunk) : bool :=
  is_empty (assistant_visible_text c) && is_empty (citations c) && is_empty (plan_segments c).

Record AssistantTextStreamParser := mkAssistantTextStreamParser {
  plan_mode : bool;
  assistant_citations : CitationStreamParser;
  assistant_plan : ProposedPlanParser;
}.

Definition assistant_new (mode : bool) : result AssistantTextStreamParser unit :=
  let? c := citation_new in Ok (mkAssistantTextStreamParser mode c plan_new).

Definition parse_visible_text (p : AssistantTextStreamParser) (text : str) : AssistantTextStreamParser * AssistantTextChunk :=
  if negb (plan_mode p) then (p, mkAssistantTextChunk text [] [])
  else
    let '(plan, plan_chunk) := plan_push_str (assistant_plan p) text in
    (mkAssistantTextStreamParser (plan_mode p) (assistant_citations p) plan,
     mkAssistantTextChunk (visible_text plan_chunk) [] (extracted plan_chunk)).

Definition assistant_push_str (p : AssistantTextStreamParser) (chunk : str) : AssistantTextStreamParser * AssistantTextChunk :=
  let '(c, citation_chunk) := citation_push_str (assistant_citations p) chunk in
  let p := mkAssistantTextStreamParser (plan_mode p) c (assistant_plan p) in
  let '(p, out) := parse_visible_text p (visible_text citation_chunk) in
  (p, mkAssistantTextChunk (assistant_visible_text out) (extracted citation_chunk) (plan_segments out)).

Definition assistant_finish (p : AssistantTextStreamParser) : AssistantTextStreamParser * AssistantTextChunk :=
  let '(c, citation_chunk) := citation_finish (assistant_citations p) in
  let p := mkAssistantTextStreamParser (plan_mode p) c (assistant_plan p) in
  let '(p, out) := parse_visible_text p (visible_text citation_chunk) in
  let '(p, out) :=
    if plan_mode p then
      let '(plan, tail) := plan_finish (assistant_plan p) in
      (mkAssistantTextStreamParser (plan_mode p) (assistant_citations p) plan,
       if stream_chunk_is_empty tail then out
       else mkAssistantTextChunk (assistant_visible_text out ++ visible_text tail) (citations out)
              (plan_segments out ++ extracted tail))
    else (p, out) in
  (p, mkAssistantTextChunk (assistant_visible_text out) (extracted citation_chunk) (plan_segments out)).

(** A caller that pushes the pieces in order and then finishes. *)
Definition assistant_append (a b : AssistantTextChunk) : AssistantTextChunk :=
  mkAssistantTextChunk (assistant_visible_text a ++ assistant_visible_text b) (citations a ++ citations b)
    (plan_segments a ++ plan_segments b).

Fixpoint assistant_collect (p : AssistantTextStreamParser) (chunks : list str) : AssistantTextStreamParser * AssistantTextChunk :=
  match chunks with
  | [] => assistant_finish p
  | c :: cs =>
      let '(p, out) := assistant_push_str p c in
      let '(p, rest) := assistant_collect p cs in (p, assistant_append out rest)
  end.

(** ** What segments mean *)

(** [str::split_inclusive('\n')]. *)
Fixpoint split_inclusive (s : str) : list str :=
  match s with
  | [] => []
  | c :: s' =>
      if char_eqb c LF then [c] :: split_inclusive s'
      else match split_inclusive s' with
           | [] => [[c]]
           | l :: ls => (c :: l) :: ls
           end
  end.

Lemma split_inclusive_line l s : LF ∉ l -> split_inclusive (l ++ LF :: s) = (l ++ [LF]) :: split_inclusive s.
Proof.
  induction l as [|c l IH]; simpl; [done|]. rewrite not_elem_of_cons. intros [Hc Hl].
  destruct (char_eqb c LF) eqn:E; to_prop; [congruence|]. by rewrite IH.
Qed.

Lemma split_inclusive_last l : LF ∉ l -> l <> [] -> split_inclusive l = [l].
Proof.
  induction l as [|c l IH]; simpl; [done|]. rewrite not_elem_of_cons. intros [Hc Hl] _.
  destruct (char_eqb c LF) eqn:E; to_prop; [congruence|]. destruct l; [done|]. by rewrite IH.
Qed.

(** A text is one line without its feed, or a line and the rest. *)
Lemma first_line s : (LF ∉ s) \/ exists l r, s = l ++ LF :: r /\ LF ∉ l.
Proof.
  induction s as [|c s IH]; [left; apply not_elem_of_nil|]. destruct (decide (c = LF)) as [->|Hc].
  - right. exists [], s. split; [done|apply not_elem_of_nil].
  - destruct IH as [IH|(l & r & -> & Hl)]; [left; rewrite not_elem_of_cons; by split|].
    right. exists (c :: l), r. split; [done|]. rewrite not_elem_of_cons. by split.
Qed.

Section meaning.
Context {T : Type} `{EqDecision T}.
Implicit Types p : TaggedLineParser T.
Implicit Types segments : list (TaggedLineSegment T).

(** One character shown or inside a block, or the start or end of a block. *)
Inductive atom := Shown (c : N) | Opened (t : T) | Inside (t : T) (c : N) | Closed (t : T).

Definition segment_atoms (s : TaggedLineSegment T) : list atom :=
  match s with
  | Normal text => Shown <$> text
  | TagStart t => [Opened t]
  | TagDelta t text => Inside t <$> text
  | TagEnd t => [Closed t]
  end.
Definition atoms segments : list atom := segments ≫= segment_atoms.

Definition text_atoms (active : option T) (text : str) : list atom :=
  match active with Some t => Inside t <$> text | None => Shown <$> text end.

(** The specification: line by line, with the block that is open closed at the end. *)
Definition close_atoms (active : option T) : list atom := match active with Some t => [Closed t] | None => [] end.

Fixpoint line_atoms (specs : list (TagSpec T)) (active : option T) (lines : list str) : list atom :=
  match lines with
  | [] => close_atoms active
  | line :: lines' =>
      match classify_line specs active line with
      | LineOpens t => Opened t :: line_atoms specs (Some t) lines'
      | LineCloses t => Closed t :: line_atoms specs None lines'
      | LineText => text_atoms active line ++ line_atoms specs active lines'
      end
  end.

Lemma atoms_app a b : atoms (a ++ b) = atoms a ++ atoms b.
Proof. apply bind_app. Qed.

Lemma text_atoms_app active a b : text_atoms active (a ++ b) = text_atoms active a ++ text_atoms active b.
Proof. unfold text_atoms. destruct active; apply fmap_app. Qed.

Lemma atoms_push_segment segments s : atoms (push_segment segments s) = atoms segments ++ segment_atoms s.
Proof.
  assert (forall x, atoms (segments ++ [x]) = atoms segments ++ segment_atoms x) as Hsnoc
    by (intros x; rewrite atoms_app; unfold atoms; simpl; by rewrite app_nil_r).
  assert (forall x y, last segments = Some x -> segment_atoms y = segment_atoms x ++ segment_atoms s ->
    atoms (removelast segments ++ [y]) = atoms segments ++ segment_atoms s) as Hmerge.
  { intros x y Hl%last_Some_removelast Hy. rewrite Hl at 2. rewrite !atoms_app. unfold atoms. simpl.
    by rewrite !app_nil_r, Hy, app_assoc. }
  destruct s as [d|t|t d|t]; simpl; try apply Hsnoc; destruct d as [|c d]; simpl; try (by rewrite app_nil_r);
    destruct (last segments) as [[e|e|e f|e]|] eqn:El; try apply Hsnoc.
  - apply (Hmerge _ _ eq_refl). simpl. by rewrite fmap_app.
  - case_decide; [|apply Hsnoc]. subst. apply (Hmerge _ _ eq_refl). simpl. by rewrite fmap_app.
Qed.

Lemma atoms_push_text active text segments :
  atoms (push_text active text segments) = atoms segments ++ text_atoms active text.
Proof. unfold push_text. by destruct active; rewrite atoms_push_segment. Qed.

Lemma atoms_push_run active run segments :
  atoms (if is_empty run then segments else push_text active run segments) = atoms segments ++ text_atoms active run.
Proof. destruct run; [|apply atoms_push_text]. destruct active; simpl; by rewrite app_nil_r. Qed.

(** ** A line held back as long as it may be a tag *)

Lemma trim_end_app x y : exists z, trim_end (x ++ y) = trim_end x ++ z.
Proof.
  unfold trim_end, trim_end_matches. rewrite rev_app_distr.
  destruct (decide (drop_while is_whitespace (rev y) = [])) as [E|E].
  - exists []. rewrite app_nil_r. f_equal. apply drop_while_nil_iff in E.
    induction E as [|c l Hc _ IH]; simpl; [done|]. by rewrite Hc.
  - rewrite (drop_while_app_nonmatch _ _ _ E), rev_app_distr, rev_involutive.
    destruct (trim_end_split is_whitespace x) as (w & Hx & _). unfold trim_end_matches in Hx.
    exists (w ++ rev (drop_while is_whitespace (rev y))). rewrite app_assoc. by f_equal.
Qed.

Lemma line_slug_prefix l a :
  LF ∉ l -> trim_start l <> [] -> exists z, line_slug (l ++ a) = trim_end (trim_start l) ++ z.
Proof.
  intros Hl Hne. unfold line_slug.
  assert (exists a', match strip_suffix [LF] (l ++ a) with Some l' => l' | None => l ++ a end = l ++ a') as [a' ->].
  { destruct (strip_suffix [LF] (l ++ a)) as [l'|] eqn:E; [|by exists a].
    apply strip_suffix_Some in E. destruct a as [|c a _] using rev_ind.
    - rewrite app_nil_r in E. subst. exfalso. apply Hl. set_solver.
    - exists a. rewrite app_assoc in E. by apply app_inj_tail in E as [-> _]. }
  unfold trim_start in *. rewrite drop_while_app_nonmatch by done. apply trim_end_app.
Qed.

Lemma List_find_None {A} (f : A -> bool) l : (forall x, x ∈ l -> f x = false) -> List.find f l = None.
Proof. induction l as [|x l IH]; intros Hf; simpl; [done|]. rewrite Hf by left. apply IH. set_solver. Qed.

(** A line whose beginning is no beginning of a tag is text. *)
Lemma classify_not_prefix (specs : list (TagSpec T)) active l a :
  LF ∉ l -> trim_start l <> [] -> is_tag_prefix specs (trim_start l) = false ->
  classify_line specs active (l ++ a) = LineText.
Proof.
  intros Hl Hne Hp. destruct (line_slug_prefix l a Hl Hne) as [z Hz].
  assert (forall spec, spec ∈ specs ->
    str_eqb (line_open spec) (line_slug (l ++ a)) = false /\ str_eqb (line_close spec) (line_slug (l ++ a)) = false) as Hs.
  { intros spec Hin%list_elem_of_In. unfold is_tag_prefix in Hp.
    destruct (starts_with (trim_end (trim_start l)) (line_open spec) || starts_with (trim_end (trim_start l)) (line_close spec)) eqn:E.
    - rewrite (proj2 (existsb_exists _ specs)) in Hp by eauto. done.
    - rewrite Hz. unfold str_eqb. split; apply bool_decide_eq_false; intros Heq; rewrite Heq, !starts_with_self in E;
        [done|by rewrite orb_true_r in E]. }
  unfold classify_line, match_open, match_close. rewrite !List_find_None; [done|..]; intros spec Hin; by apply Hs.
Qed.

(** What a state still means when [r] is to come: a line known to be text is text up to
    its feed. *)
Fixpoint rest_of_line (s : str) : str * str :=
  match s with
  | [] => ([], [])
  | c :: s' => if char_eqb c LF then ([c], s') else let '(a, b) := rest_of_line s' in (c :: a, b)
  end.

Definition tagged_atoms p (r : str) : list atom :=
  if detect_tag p then line_atoms (tag_specs p) (tag_active p) (split_inclusive (tag_line_buffer p ++ r))
  else let '(a, b) := rest_of_line r in
       text_atoms (tag_active p) a ++ line_atoms (tag_specs p) (tag_active p) (split_inclusive b).

Definition tagged_ok p : Prop := if detect_tag p then LF ∉ tag_line_buffer p else tag_line_buffer p = [].

Lemma split_inclusive_rest l r :
  LF ∉ l -> l <> [] ->
  split_inclusive (l ++ r) = (l ++ fst (rest_of_line r)) :: split_inclusive (snd (rest_of_line r)).
Proof.
  intros Hl Hne. assert (forall c, split_inclusive (c :: r) = if char_eqb c LF then [c] :: split_inclusive r
    else (c :: fst (rest_of_line r)) :: split_inclusive (snd (rest_of_line r))) as Hc.
  { clear. induction r as [|d r IH]; intros c.
    - simpl. done.
    - change (split_inclusive (c :: d :: r)) with
        (if char_eqb c LF then [c] :: split_inclusive (d :: r) else
           match split_inclusive (d :: r) with [] => [[c]] | l :: ls => (c :: l) :: ls end).
      destruct (char_eqb c LF); [done|]. rewrite (IH d). simpl. destruct (char_eqb d LF); [done|].
      by destruct (rest_of_line r). }
  induction l as [|c l IH]; [done|]. apply not_elem_of_cons in Hl as [Hcl Hl]. destruct l as [|d l].
  - simpl app. rewrite Hc. destruct (char_eqb c LF) eqn:E; to_prop; [congruence|done].
  - assert (char_eqb c LF = false) as E by (unfold char_eqb; apply N.eqb_neq; congruence).
    change ((c :: d :: l) ++ r) with (c :: ((d :: l) ++ r)).
    change (split_inclusive (c :: ?x)) with
      (if char_eqb c LF then [c] :: split_inclusive x else match split_inclusive x with [] => [[c]] | l :: ls => (c :: l) :: ls end).
    rewrite E, IH by done. done.
Qed.

Lemma finish_line_atoms p segments line r :
  tag_line_buffer p = line ++ [LF] -> LF ∉ line -> detect_tag p = true ->
  let '(p', segments') := finish_line p segments in
  tagged_ok p' /\ tag_specs p' = tag_specs p /\
  atoms segments ++ line_atoms (tag_specs p) (tag_active p) ((line ++ [LF]) :: split_inclusive r) =
  atoms segments' ++ tagged_atoms p' r.
Proof.
  intros Hb Hl Hd. unfold finish_line. rewrite Hb. cbn [line_atoms].
  destruct (classify_line _ _ _) as [t|t|]; (split; [apply not_elem_of_nil|split; [done|]]).
  - by rewrite atoms_push_segment, <- app_assoc.
  - by rewrite atoms_push_segment, <- app_assoc.
  - by rewrite atoms_push_text, <- app_assoc.
Qed.

Lemma text_atoms_nil active : text_atoms active [] = [].
Proof. by destruct active. Qed.

(** One character, in each branch of the loop. *)
Lemma tagged_atoms_held p c s :
  detect_tag p = true ->
  tagged_atoms p (c :: s) =
  tagged_atoms (mkTaggedLineParser (tag_specs p) (tag_active p) true (tag_line_buffer p ++ [c])) s.
Proof. intros Ed. unfold tagged_atoms. rewrite Ed. simpl. by rewrite <- app_assoc. Qed.

Lemma tagged_atoms_line p s :
  detect_tag p = true -> tagged_ok p ->
  tagged_atoms p (LF :: s) =
  line_atoms (tag_specs p) (tag_active p) ((tag_line_buffer p ++ [LF]) :: split_inclusive s).
Proof. unfold tagged_atoms, tagged_ok. intros -> Hok. by rewrite split_inclusive_line. Qed.

Lemma tagged_atoms_refuted p buffer s :
  detect_tag p = true -> tag_line_buffer p = buffer -> LF ∉ buffer ->
  trim_start buffer <> [] -> is_tag_prefix (tag_specs p) (trim_start buffer) = false ->
  tagged_atoms p s =
  text_atoms (tag_active p) buffer ++ tagged_atoms (mkTaggedLineParser (tag_specs p) (tag_active p) false []) s.
Proof.
  intros Ed Hb Hl Hne Hp. unfold tagged_atoms. rewrite Ed, Hb. cbn [tag_active tag_specs detect_tag].
  rewrite split_inclusive_rest by (done || by destruct buffer). cbn [line_atoms].
  rewrite classify_not_prefix by done. destruct (rest_of_line s) as [a b]. simpl.
  by rewrite text_atoms_app, <- app_assoc.
Qed.

Lemma tagged_atoms_text p c s :
  detect_tag p = false -> tagged_ok p ->
  tagged_atoms p (c :: s) = text_atoms (tag_active p) [c] ++
    tagged_atoms (if char_eqb c LF then mkTaggedLineParser (tag_specs p) (tag_active p) true (tag_line_buffer p) else p) s.
Proof.
  intros Ed Hok. unfold tagged_ok in Hok. rewrite Ed in Hok. unfold tagged_atoms at 1. rewrite Ed. cbn [rest_of_line].
  destruct (char_eqb c LF) eqn:Ec.
  - unfold tagged_atoms. simpl. by rewrite Hok.
  - unfold tagged_atoms. rewrite Ed. destruct (rest_of_line s) as [a b].
    by rewrite (text_atoms_app _ [c] a : text_atoms _ (c :: a) = _), <- app_assoc.
Qed.

Lemma tagged_loop_atoms delta p run segments r :
  tagged_ok p -> (detect_tag p = true -> run = []) ->
  let '(p', segments') := tagged_loop p run segments delta in
  tagged_ok p' /\
  atoms segments ++ text_atoms (tag_active p) run ++ tagged_atoms p (delta ++ r) = atoms segments' ++ tagged_atoms p' r.
Proof.
  revert p run segments. induction delta as [|ch delta IH]; intros p run segments Hok Hrun; cbn [tagged_loop].
  { split; [done|]. by rewrite atoms_push_run, <- app_assoc. }
  simpl app. destruct (detect_tag p) eqn:Ed.
  - rewrite Hrun, text_atoms_nil by done. cbn [is_empty app]. destruct (char_eqb ch LF) eqn:Ec.
    + to_prop. subst ch. rewrite tagged_atoms_line by done. unfold tagged_ok in Hok. rewrite Ed in Hok.
      match goal with |- context [finish_line ?q segments] =>
        pose proof (finish_line_atoms q segments (tag_line_buffer p) (delta ++ r) eq_refl Hok eq_refl) as HL end.
      destruct (finish_line _ segments) as [p' segs']. destruct HL as (H1 & _ & H2). cbn [tag_specs tag_active] in H2.
      rewrite H2. specialize (IH p' [] segs' H1 (fun _ => eq_refl)). by rewrite text_atoms_nil in IH.
    + rewrite tagged_atoms_held by done. assert (LF ∉ tag_line_buffer p ++ [ch]) as Hbuf.
      { unfold char_eqb in Ec. apply N.eqb_neq in Ec. unfold tagged_ok in Hok. rewrite Ed in Hok.
        rewrite not_elem_of_app, list_elem_of_singleton. by split. }
      cbn [tag_specs tag_active]. destruct (is_empty _ || is_tag_prefix _ _) eqn:Ep.
      * match goal with |- context [tagged_loop ?q [] segments delta] => specialize (IH q [] segments Hbuf (fun _ => eq_refl)) end.
        by rewrite text_atoms_nil in IH.
      * apply orb_false_iff in Ep as [Ep1%is_empty_false Ep2]. erewrite tagged_atoms_refuted by done.
        match goal with |- context [tagged_loop ?q [] ?sg delta] => specialize (IH q [] sg eq_refl (fun _ => eq_refl)) end.
        by rewrite text_atoms_nil, atoms_push_text, <- app_assoc in IH.
  - rewrite tagged_atoms_text by done. destruct (char_eqb ch LF) eqn:Ec.
    + match goal with |- context [tagged_loop ?q [] ?sg delta] => specialize (IH q [] sg) end.
      rewrite text_atoms_nil, atoms_push_text, text_atoms_app, <- !app_assoc in IH. apply IH; [|done].
      unfold tagged_ok in *. rewrite Ed in Hok. simpl. rewrite Hok. apply not_elem_of_nil.
    + specialize (IH p (run ++ [ch]) segments). rewrite text_atoms_app, <- !app_assoc in IH. apply IH; [done|].
      by rewrite Ed.
Qed.

Lemma tagged_finish_atoms p : tagged_ok p -> atoms (snd (tagged_finish p)) = tagged_atoms p [].
Proof.
  unfold tagged_ok, tagged_atoms, tagged_finish. rewrite app_nil_r.
  assert (forall active segs, atoms (match active with Some tag => push_segment segs (TagEnd tag) | None => segs end) =
    atoms segs ++ close_atoms active) as Hclose.
  { intros [t|] segs; [apply atoms_push_segment|by rewrite app_nil_r]. }
  destruct (detect_tag p).
  - intros Hl. destruct (is_empty (tag_line_buffer p)) eqn:E; cbn [snd].
    + apply is_empty_true in E. rewrite E. apply Hclose.
    + apply is_empty_false in E. rewrite split_inclusive_last by done. cbn [line_atoms].
      destruct (classify_line _ _ _) as [t|t|]; cbn [snd]; by rewrite ?Hclose, ?atoms_push_text, ?atoms_push_segment.
  - intros ->. cbn [is_empty snd rest_of_line]. rewrite text_atoms_nil. apply Hclose.
Qed.

End meaning.

Arguments atom T : clear implicits.

(** ** Plans *)

Definition plan_segment_atoms (s : ProposedPlanSegment) : list (atom PlanTag) :=
  match s with
  | PlanNormal text => Shown <$> text
  | ProposedPlanStart => [Opened ProposedPlan]
  | ProposedPlanDelta text => Inside ProposedPlan <$> text
  | ProposedPlanEnd => [Closed ProposedPlan]
  end.
Definition plan_atoms (l : list ProposedPlanSegment) : list (atom PlanTag) := l ≫= plan_segment_atoms.

Definition atom_segment (a : atom PlanTag) : ProposedPlanSegment :=
  match a with
  | Shown c => PlanNormal [c]
  | Opened ProposedPlan => ProposedPlanStart
  | Inside ProposedPlan c => ProposedPlanDelta [c]
  | Closed ProposedPlan => ProposedPlanEnd
  end.

(** The characters outside plans. *)
Definition shown (l : list (atom PlanTag)) : str := omap (fun a => match a with Shown c => Some c | _ => None end) l.

(** Segments that differ only in how their text is cut. *)
Definition same_plan (a b : list ProposedPlanSegment) : Prop := plan_atoms a = plan_atoms b.

#[export] Instance same_plan_equiv : Equivalence same_plan.
Proof. unfold same_plan. split; [done|by intros a b|intros a b c Ha Hb; congruence]. Qed.

Lemma plan_atoms_app a b : plan_atoms (a ++ b) = plan_atoms a ++ plan_atoms b.
Proof. apply bind_app. Qed.

#[export] Instance same_plan_app : Proper (same_plan ==> same_plan ==> same_plan) (++).
Proof. intros a a' Ha b b' Hb. unfold same_plan in *. by rewrite !plan_atoms_app, Ha, Hb. Qed.

Lemma shown_app a b : shown (a ++ b) = shown a ++ shown b.
Proof. apply omap_app. Qed.

Lemma shown_Shown s : shown (Shown <$> s) = s.
Proof. induction s as [|c s IH]; [done|]. change (shown (Shown <$> c :: s)) with (c :: shown (Shown <$> s)). by rewrite IH. Qed.
Lemma shown_Inside t s : shown (Inside t <$> s) = [].
Proof. induction s as [|c s IH]; [done|exact IH]. Qed.

Lemma plan_atoms_atom_segment l : plan_atoms (atom_segment <$> l) = l.
Proof.
  induction l as [|a l IH]; [done|]. change (plan_atoms ([atom_segment a] ++ (atom_segment <$> l)) = a :: l).
  rewrite plan_atoms_app, IH.
  by destruct a as [c|[]|[] c|[]].
Qed.

Definition plan_chunk (l : list (atom PlanTag)) : StreamTextChunk ProposedPlanSegment :=
  mkStreamTextChunk (shown l) (atom_segment <$> l).

Lemma map_segments_snoc l s :
  map_segments (l ++ [s]) = mkStreamTextChunk (visible_text (map_segments l) ++ shown (segment_atoms s))
    (extracted (map_segments l) ++ [map_segment s]).
Proof.
  unfold map_segments. rewrite foldl_app. simpl. f_equal.
  destruct s as [d|[]|[] d|[]]; simpl; rewrite ?shown_Shown, ?shown_Inside, ?app_nil_r; done.
Qed.

Lemma plan_atoms_map_segment s : plan_atoms [map_segment s] = segment_atoms s.
Proof. unfold plan_atoms. simpl. rewrite app_nil_r. by destruct s as [d|[]|[] d|[]]. Qed.

Lemma map_segments_chunk l : chunk_equiv same_plan (map_segments l) (plan_chunk (atoms l)).
Proof.
  unfold chunk_equiv, same_plan. induction l as [|s l [IH1 IH2]] using rev_ind; [done|].
  rewrite map_segments_snoc, atoms_app. unfold plan_chunk in *. cbn [visible_text extracted] in *.
  rewrite plan_atoms_atom_segment in *. rewrite plan_atoms_app, shown_app, IH1, IH2, plan_atoms_map_segment.
  assert (atoms [s] = segment_atoms s) as -> by (unfold atoms; simpl; by rewrite app_nil_r). done.
Qed.

Lemma plan_chunk_app a b : plan_chunk (a ++ b) = chunk_append (plan_chunk a) (plan_chunk b).
Proof. unfold plan_chunk, chunk_append. by rewrite shown_app, fmap_app. Qed.

Lemma plan_push_str_atoms p c r :
  tagged_ok (plan_parser p) ->
  tagged_ok (plan_parser (fst (plan_push_str p c))) /\
  chunk_equiv same_plan (plan_chunk (tagged_atoms (plan_parser p) (c ++ r)))
    (chunk_append (snd (plan_push_str p c)) (plan_chunk (tagged_atoms (plan_parser (fst (plan_push_str p c))) r))).
Proof.
  intros Hok. unfold plan_push_str, tagged_parse.
  pose proof (tagged_loop_atoms c (plan_parser p) [] [] r Hok (fun _ => eq_refl)) as HL.
  destruct (tagged_loop _ _ _ _) as [p' segs]. destruct HL as [H1 H2]. split; [done|].
  rewrite text_atoms_nil in H2. simpl in H2. simpl. rewrite H2, plan_chunk_app.
  destruct (map_segments_chunk segs) as [E1 E2]. split; simpl; [by rewrite E1|by rewrite E2].
Qed.

#[export] Instance ProposedPlanParser_StreamTextSpec : StreamTextSpec ProposedPlanParser ProposedPlanSegment.
Proof.
  refine {| parser_ok := fun p => tagged_ok (plan_parser p); same_extracted := same_plan;
            stream_result p r := plan_chunk (tagged_atoms (plan_parser p) r) |}.
  - intros p c Hok. by apply (plan_push_str_atoms p c []).
  - intros p c r Hok. by apply (plan_push_str_atoms p c r).
  - intros p Hok. simpl. unfold plan_finish. rewrite <- tagged_finish_atoms by done.
    destruct (tagged_finish _) as [p' segs]. apply map_segments_chunk.
Defined.

(** The plan lines of a whole text. *)
Definition plan_lines (text : str) : list (atom PlanTag) := line_atoms PLAN_SPECS None (split_inclusive text).

Lemma plan_new_result r : stream_result plan_new r = plan_chunk (plan_lines r).
Proof. done. Qed.
Lemma plan_new_ok : parser_ok plan_new.
Proof. apply not_elem_of_nil. Qed.

(** ** Assistant text *)

Definition assistant_ok (p : AssistantTextStreamParser) : Prop :=
  parser_ok (assistant_citations p) /\ parser_ok (assistant_plan p).

(** What the two parsers yield together from a text. *)
Definition assistant_means (p : AssistantTextStreamParser) (r : str) (out : AssistantTextChunk) : Prop :=
  let c := stream_result (assistant_citations p) r in
  citations out = extracted c /\
  (if plan_mode p
   then chunk_equiv same_extracted (mkStreamTextChunk (assistant_visible_text out) (plan_segments out))
          (stream_result (assistant_plan p) (visible_text c))
   else assistant_visible_text out = visible_text c /\ plan_segments out = []).

Lemma citation_push_str_eq c chunk r :
  parser_ok c ->
  let '(c', out) := citation_push_str c chunk in
  parser_ok c' /\ stream_result c (chunk ++ r) = chunk_append out (stream_result c' r).
Proof.
  intros Hok. pose proof (push_str_ok c chunk Hok) as H1.
  pose proof (chunk_equiv_eq _ _ (push_str_result c chunk r Hok)) as H2.
  cbn [push_str CitationStreamParser_StreamTextParser] in *. by destruct (citation_push_str c chunk).
Qed.

Lemma plan_push_str_eq p chunk r :
  parser_ok p ->
  let '(p', out) := plan_push_str p chunk in
  parser_ok p' /\
  chunk_equiv same_extracted (stream_result p (chunk ++ r)) (chunk_append out (stream_result p' r)).
Proof.
  intros Hok. pose proof (push_str_ok p chunk Hok) as H1. pose proof (push_str_result p chunk r Hok) as H2.
  cbn [push_str ProposedPlanParser_StreamTextParser] in *. by destruct (plan_push_str p chunk).
Qed.

Lemma assistant_push_str_means p chunk r out' :
  assistant_ok p ->
  let '(p', out) := assistant_push_str p chunk in
  assistant_ok p' /\ (assistant_means p' r out' -> assistant_means p (chunk ++ r) (assistant_append out out')).
Proof.
  intros [Hc Hp]. unfold assistant_push_str. pose proof (citation_push_str_eq _ chunk r Hc) as HC.
  destruct (citation_push_str _ _) as [c' oc]. destruct HC as [Hc' HC]. unfold parse_visible_text. cbn [plan_mode assistant_plan].
  unfold assistant_means. rewrite HC. destruct (plan_mode p) eqn:Em; cbn [negb].
  - pose proof (plan_push_str_eq _ (visible_text oc) (visible_text (stream_result c' r)) Hp) as HP.
    destruct (plan_push_str _ _) as [p' op]. destruct HP as [Hp' HP]. split; [by split|].
    cbn [assistant_citations assistant_plan plan_mode]. rewrite ?Em. intros [H1 H2]. split; [simpl; by rewrite H1|].
    etransitivity; [|symmetry; exact HP]. by apply (chunk_equiv_app op op (mkStreamTextChunk (assistant_visible_text out') (plan_segments out'))).
  - split; [by split|]. cbn [assistant_citations assistant_plan plan_mode]. rewrite ?Em.
    intros (H1 & H2 & H3). simpl. by rewrite H1, H2, H3.
Qed.

Lemma assistant_finish_means p : assistant_ok p -> assistant_means p [] (snd (assistant_finish p)).
Proof.
  intros [Hc Hp]. unfold assistant_finish, assistant_means.
  pose proof (chunk_equiv_eq _ _ (stream_finish_result _ Hc)) as HC. rewrite <- HC.
  cbn [stream_finish CitationStreamParser_StreamTextParser].
  destruct (citation_finish _) as [c' oc]. unfold parse_visible_text. cbn [plan_mode assistant_plan].
  destruct (plan_mode p) eqn:Em; cbn [negb]; [|by rewrite ?Em].
  pose proof (plan_push_str_eq _ (visible_text oc) [] Hp) as HP. destruct (plan_push_str _ _) as [p' op].
  destruct HP as [Hp' HP]. cbn [plan_mode assistant_plan]. rewrite ?Em. pose proof (stream_finish_result _ Hp') as HF.
  cbn [stream_finish ProposedPlanParser_StreamTextParser] in HF.
  destruct (plan_finish p') as [p'' tail]. cbn [snd] in *. split; [done|]. rewrite app_nil_r in HP.
  etransitivity; [|symmetry; exact HP]. etransitivity; [|apply (chunk_equiv_app op op tail); [done|exact HF]].
  destruct (stream_chunk_is_empty tail) eqn:Et; [|done]. unfold stream_chunk_is_empty in Et. to_prop.
  rewrite !is_empty_true in *. destruct tail as [v e]. simpl in *. subst.
  split; simpl; by rewrite app_nil_r.
Qed.

Lemma assistant_collect_means p chunks :
  assistant_ok p -> assistant_means p (concat chunks) (snd (assistant_collect p chunks)).
Proof.
  revert p. induction chunks as [|c cs IH]; intros p Hok; cbn [assistant_collect concat]; [by apply assistant_finish_means|].
  pose proof (fun out => assistant_push_str_means p c (concat cs) out Hok) as Hm.
  destruct (assistant_push_str p c) as [p' out]. specialize (IH p').
  destruct (assistant_collect p' cs) as [p'' rest]. destruct (Hm rest) as [Hok' H]. by apply H, IH.
Qed.

(** In whatever pieces the assistant's text arrives, what is shown, the citations and
    the plan are those of the whole text: citations are taken out of the text first; in
    plan mode the lines that remain are split into plan blocks and shown lines, up to how
    the text of a segment is cut, and otherwise all of them are shown. *)
Theorem assistant_text_any_pieces mode p chunks :
  assistant_new mode = Ok p ->
  let out := snd (assistant_collect p chunks) in
  let c := citation_result (concat chunks) in
  citations out = extracted c /\
  (if mode then
     assistant_visible_text out = shown (plan_lines (visible_text c)) /\
     plan_atoms (plan_segments out) = plan_lines (visible_text c)
   else assistant_visible_text out = visible_text c /\ plan_segments out = []).
Proof.
  unfold assistant_new. destruct citation_new as [cit|?|] eqn:En; [|done..]. intros [= <-].
  destruct (citation_new_ok cit En) as [Hok Hr].
  destruct (assistant_collect_means (mkAssistantTextStreamParser mode cit plan_new) chunks) as [H1 H2];
    [split; [done|apply plan_new_ok]|].
  cbn [assistant_citations assistant_plan plan_mode] in *. rewrite Hr in *. split; [done|].
  destruct mode; [|done]. rewrite plan_new_result in H2. destruct H2 as [H2 H3]. split; [done|].
  cbn [extracted] in H3. simpl in H3. unfold same_plan in H3. by rewrite plan_atoms_atom_segment in H3.
Qed.

Lemma assistant_text_any_pieces_witness :
  let p := mkAssistantTextStreamParser true (mkCitationStreamParser (mkInlineHiddenTagParser CITATION_SPECS [] None)) plan_new in
  let out := snd (assistant_collect p
    [lit "Intro" ++ [LF] ++ lit "<proposed"; lit "_plan>" ++ [LF] ++ lit "step<oai-mem-citation>doc"; lit "</oai-mem-citation>" ++ [LF];
     lit "</proposed_plan>" ++ [LF] ++ lit "Outro"]) in
  citations out = [lit "doc"] /\
  assistant_visible_text out = lit "Intro" ++ [LF] ++ lit "Outro" /\
  plan_atoms (plan_segments out) =
    (Shown <$> lit "Intro" ++ [LF]) ++ [Opened ProposedPlan] ++ (Inside ProposedPlan <$> lit "step" ++ [LF]) ++
    [Closed ProposedPlan] ++ (Shown <$> lit "Outro").
Proof.
  cbv zeta. edestruct (assistant_text_any_pieces true) as [H1 [H2 H3]]; [reflexivity|].
  rewrite H1, H2, H3. vm_compute. auto.
Defined.

(** ** A text with one plan *)

Lemma concat_split_inclusive s : concat (split_inclusive s) = s.
Proof.
  induction s as [|c s IH]; simpl; [done|]. destruct (char_eqb c LF); simpl; [by rewrite IH|].
  destruct (split_inclusive s); simpl in *; by rewrite <- IH.
Qed.

Lemma split_inclusive_app a b :
  a = [] \/ last a = Some LF -> split_inclusive (a ++ b) = split_inclusive a ++ split_inclusive b.
Proof.
  induction a as [|c a IH]; [done|]. intros [|Hl]; [done|].
  destruct (decide (a = [])) as [->|Hne]; [simpl in Hl; by simplify_eq|].
  assert (last a = Some LF) as Hl' by (by destruct a). simpl. rewrite IH by auto.
  destruct (char_eqb c LF); [done|]. destruct (split_inclusive a) as [|l ls] eqn:E; [|done].
  exfalso. apply Hne. by rewrite <- (concat_split_inclusive a), E.
Qed.

(** Whole lines none of which opens or closes a block. *)
Definition text_lines {T} `{EqDecision T} (specs : list (TagSpec T)) (active : option T) (s : str) : bool :=
  forallb (fun line => match classify_line specs active line with LineText => true | _ => false end) (split_inclusive s).

Definition ends_line (s : str) : Prop := s = [] \/ last s = Some LF.
#[export] Instance ends_line_dec s : Decision (ends_line s).
Proof. unfold ends_line. apply _. Defined.

Lemma line_atoms_text {T} `{EqDecision T} (specs : list (TagSpec T)) active s ls :
  text_lines specs active s = true ->
  line_atoms specs active (split_inclusive s ++ ls) = text_atoms active s ++ line_atoms specs active ls.
Proof.
  unfold text_lines. rewrite <- (concat_split_inclusive s) at 3. induction (split_inclusive s) as [|l l' IH]; simpl.
  - by rewrite text_atoms_nil.
  - destruct (classify_line specs active l); [done..|]. simpl. intros Ht. rewrite IH, text_atoms_app by done.
    by rewrite <- app_assoc.
Qed.

(** The plan text, atom by atom. *)
Definition atom_step (acc : str * bool) (a : atom PlanTag) : str * bool :=
  match a with
  | Opened _ => ([], true)
  | Inside _ c => (fst acc ++ [c], snd acc)
  | Shown _ | Closed _ => acc
  end.

Lemma foldl_inside acc t d : foldl atom_step acc (Inside t <$> d) = (fst acc ++ d, snd acc).
Proof.
  revert acc. induction d as [|c d IH]; intros acc; simpl; [by destruct acc; rewrite app_nil_r|].
  rewrite IH. simpl. by rewrite <- app_assoc.
Qed.

Lemma foldl_shown acc d : foldl atom_step acc (Shown <$> d) = acc.
Proof. induction d as [|c d IH]; [done|exact IH]. Qed.

Lemma foldl_plan_text acc l : foldl plan_text_step acc l = foldl atom_step acc (plan_atoms l).
Proof.
  revert acc. induction l as [|s l IH]; intros [txt saw]; [done|].
  change (plan_atoms (s :: l)) with (plan_segment_atoms s ++ plan_atoms l). rewrite foldl_app. simpl foldl at 1. rewrite IH.
  f_equal. destruct s; simpl; rewrite ?foldl_shown, ?foldl_inside; done.
Qed.

(** Both batch functions read the lines of the text. *)
Lemma plan_batch text :
  strip_proposed_plan_blocks text = shown (plan_lines text) /\
  extract_proposed_plan_text text =
    (let '(plan_text, saw) := foldl atom_step ([], false) (plan_lines text) in if saw then Some plan_text else None).
Proof.
  pose proof (collect_chunks_result plan_new [text] plan_new_ok) as [H1 H2].
  rewrite plan_new_result in H1, H2. simpl in H1, H2. rewrite app_nil_r in H1, H2.
  unfold strip_proposed_plan_blocks, extract_proposed_plan_text.
  destruct (plan_push_str plan_new text) as [p out]. destruct (plan_finish p) as [p' tail]. simpl in *.
  split; [done|]. unfold same_plan in H2. by rewrite foldl_plan_text, H2, plan_atoms_atom_segment.
Qed.

(** A plan between a line that is the opening tag and a line that is the closing tag,
    white space around the tags apart, is extracted with exactly the lines in between, and
    removed with its tags from the text shown. *)
Theorem proposed_plan_roundtrip pre o body c post :
  ends_line pre -> text_lines PLAN_SPECS None pre = true ->
  LF ∉ o -> line_slug (o ++ [LF]) = OPEN_TAG ->
  ends_line body -> text_lines PLAN_SPECS (Some ProposedPlan) body = true ->
  LF ∉ c -> line_slug (c ++ [LF]) = CLOSE_TAG ->
  text_lines PLAN_SPECS None post = true ->
  let text := pre ++ o ++ LF :: body ++ c ++ LF :: post in
  extract_proposed_plan_text text = Some body /\ strip_proposed_plan_blocks text = pre ++ post.
Proof.
  intros Hpre Tpre Ho So Hbody Tbody Hc Sc Tpost text.
  assert (plan_lines text = (Shown <$> pre) ++ Opened ProposedPlan :: (Inside ProposedPlan <$> body) ++
    Closed ProposedPlan :: (Shown <$> post)) as E.
  { unfold plan_lines, text.
    rewrite split_inclusive_app, line_atoms_text, split_inclusive_line by done. cbn [line_atoms].
    assert (classify_line PLAN_SPECS None (o ++ [LF]) = LineOpens ProposedPlan) as ->
      by (unfold classify_line; rewrite So; reflexivity).
    rewrite split_inclusive_app, line_atoms_text, split_inclusive_line by done. cbn [line_atoms].
    assert (classify_line PLAN_SPECS (Some ProposedPlan) (c ++ [LF]) = LineCloses ProposedPlan) as ->
      by (unfold classify_line; rewrite Sc; reflexivity).
    rewrite <- (app_nil_r (split_inclusive post)), line_atoms_text by done. simpl. by rewrite app_nil_r. }
  destruct (plan_batch text) as [-> ->]. rewrite E. split.
  - rewrite foldl_app, foldl_shown. simpl. rewrite foldl_app, foldl_inside. simpl. by rewrite foldl_shown.
  - rewrite shown_app, shown_Shown.
    change (pre ++ shown ((Inside ProposedPlan <$> body) ++ Closed ProposedPlan :: (Shown <$> post)) = pre ++ post).
    rewrite shown_app, shown_Inside. change (pre ++ shown (Shown <$> post) = pre ++ post). by rewrite shown_Shown.
Qed.

Lemma proposed_plan_roundtrip_witness :
  let text := (lit "Intro" ++ [LF]) ++ lit " <proposed_plan>" ++ LF :: (lit "- <proposed_plan>" ++ [LF]) ++
    lit "</proposed_plan> " ++ LF :: lit "Outro" in
  extract_proposed_plan_text text = Some (lit "- <proposed_plan>" ++ [LF]) /\
  strip_proposed_plan_blocks text = (lit "Intro" ++ [LF]) ++ lit "Outro".
Proof.
  apply (proposed_plan_roundtrip (lit "Intro" ++ [LF]) (lit " <proposed_plan>") (lit "- <proposed_plan>" ++ [LF])
    (lit "</proposed_plan> ") (lit "Outro")); first [reflexivity|by_decide].
Defined.
