(* ===== verification/Utf8Stream.v ===== *)
(** * Bytes into a stream parser

    Models [utf8_stream.rs] of [utils/stream-parser]: [Utf8StreamParser] wraps any
    [StreamTextParser] and keeps the bytes of a code point that is not complete yet.
    [std::str::from_utf8] is written out as the Standard Library documents it, with the
    position and the length of an error; it reads back what [utf8_encode] writes
    ([from_utf8_encode]).  The wrapper is proved against the contract of [StreamText.v]. *)

From stdpp Require Import base list relations strings.
From S2P Require Import Prelude StreamText.

(** ** [std::str::from_utf8] *)

(** The first code point of some bytes: decoded, with the bytes after it; cut short; or
    wrong, with the length of the bad sequence. *)
Inductive decoded :=
| Decoded (c : N) (rest : list N)
| Truncated
| Malformed (error_len : nat).

Definition in_range (lo hi b : N) : bool := ((lo <=? b) && (b <=? hi))%N.
Definition is_continuation (b : N) : bool := in_range 128 191 b.

Definition decode_char (bytes : list N) : decoded :=
  match bytes with
  | [] => Truncated
  | b0 :: t0 =>
      if (b0 <? 128)%N then Decoded b0 t0
      else if in_range 194 223 b0 then
        match t0 with
        | [] => Truncated
        | b1 :: t1 =>
            if negb (is_continuation b1) then Malformed 1
            else Decoded ((b0 - 192) * 64 + (b1 - 128)) t1
        end
      else if in_range 224 239 b0 then
        match t0 with
        | [] => Truncated
        | b1 :: t1 =>
            if negb ((b0 =? 224)%N && in_range 160 191 b1 || in_range 225 236 b0 && in_range 128 191 b1
                     || (b0 =? 237)%N && in_range 128 159 b1 || in_range 238 239 b0 && in_range 128 191 b1)
            then Malformed 1
            else match t1 with
                 | [] => Truncated
                 | b2 :: t2 =>
                     if negb (is_continuation b2) then Malformed 2
                     else Decoded ((b0 - 224) * 4096 + (b1 - 128) * 64 + (b2 - 128)) t2
                 end
        end
      else if in_range 240 244 b0 then
        match t0 with
        | [] => Truncated
        | b1 :: t1 =>
            if negb ((b0 =? 240)%N && in_range 144 191 b1 || in_range 241 243 b0 && in_range 128 191 b1
                     || (b0 =? 244)%N && in_range 128 143 b1)
            then Malformed 1
            else match t1 with
                 | [] => Truncated
                 | b2 :: t2 =>
                     if negb (is_continuation b2) then Malformed 2
                     else match t2 with
                          | [] => Truncated
                          | b3 :: t3 =>
                              if negb (is_continuation b3) then Malformed 3
                              else Decoded ((b0 - 240) * 262144 + (b1 - 128) * 4096 + (b2 - 128) * 64 + (b3 - 128)) t3
                          end
                 end
        end
      else Malformed 1
  end%N.

(** Decoding as far as it goes: the text, the bytes left, and the [error_len] of an error.
    Every code point takes a byte, so that the number of bytes is enough fuel. *)
Fixpoint scan (fuel : nat) (bytes : list N) : str * list N * option (option nat) :=
  match bytes, fuel with
  | [], _ | _, 0 => ([], bytes, None)
  | _, S fuel =>
      match decode_char bytes with
      | Decoded c rest => let '(s, remaining, e) := scan fuel rest in (c :: s, remaining, e)
      | Truncated => ([], bytes, Some None)
      | Malformed n => ([], bytes, Some (Some n))
      end
  end.

Record Utf8Error := mkUtf8Error { valid_up_to : nat; error_len : option nat }.

Definition from_utf8 (bytes : list N) : str + Utf8Error :=
  let '(s, remaining, e) := scan (length bytes) bytes in
  match e with
  | None => inl s
  | Some len => inr (mkUtf8Error (length bytes - length remaining) len)
  end.

(** ** [utf8_stream.rs] *)

Inductive Utf8StreamParserError :=
| InvalidUtf8 (valid_up_to error_len : nat)
| IncompleteUtf8AtEof.

Record Utf8StreamParser (P : Type) := mkUtf8StreamParser { utf8_inner : P; pending_utf8 : list N }.
Arguments mkUtf8StreamParser {P} utf8_inner pending_utf8.
Arguments utf8_inner {P} u.
Arguments pending_utf8 {P} u.

Section utf8.
Context {P T : Type} `{StreamTextParser P T}.
Implicit Types u : Utf8StreamParser P.

Definition utf8_new (inner : P) : Utf8StreamParser P := mkUtf8StreamParser inner [].

Definition unwrap_or_0 (o : option nat) : nat := match o with Some n => n | None => 0 end.

Definition push_bytes u (chunk : list N)
  : Utf8StreamParser P * result (StreamTextChunk T) Utf8StreamParserError :=
  let old_len := length (pending_utf8 u) in
  let pending := pending_utf8 u ++ chunk in
  match from_utf8 pending with
  | inl text =>
      let '(inner, out) := push_str (utf8_inner u) text in (mkUtf8StreamParser inner [], Ok out)
  | inr err =>
      match error_len err with
      | Some len =>
          (mkUtf8StreamParser (utf8_inner u) (take old_len pending), Err (InvalidUtf8 (valid_up_to err) len))
      | None =>
          if Nat.eqb (valid_up_to err) 0 then (mkUtf8StreamParser (utf8_inner u) pending, Ok chunk_default)
          else match from_utf8 (take (valid_up_to err) pending) with
               | inl text =>
                   let '(inner, out) := push_str (utf8_inner u) text in
                   (mkUtf8StreamParser inner (drop (valid_up_to err) pending), Ok out)
               | inr prefix_err =>
                   (mkUtf8StreamParser (utf8_inner u) (take old_len pending),
                    Err (InvalidUtf8 (valid_up_to prefix_err) (unwrap_or_0 (error_len prefix_err))))
               end
      end
  end.

(** The error [finish] and [into_inner] report for the bytes that are left. *)
Definition left_over_error (err : Utf8Error) : Utf8StreamParserError :=
  match error_len err with
  | Some len => InvalidUtf8 (valid_up_to err) len
  | None => IncompleteUtf8AtEof
  end.

(** [finish]; the bytes are validated and then decoded by the same call, once here. *)
Definition utf8_finish u : Utf8StreamParser P * result (StreamTextChunk T) Utf8StreamParserError :=
  let flush u out :=
    let '(inner, tail) := stream_finish (utf8_inner u) in
    (mkUtf8StreamParser inner (pending_utf8 u), Ok (chunk_append out tail)) in
  if is_empty (pending_utf8 u) then flush u chunk_default
  else match from_utf8 (pending_utf8 u) with
       | inr err => (u, Err (left_over_error err))
       | inl text =>
           let '(inner, out) := push_str (utf8_inner u) text in flush (mkUtf8StreamParser inner []) out
       end.

Definition into_inner u : result P Utf8StreamParserError :=
  if is_empty (pending_utf8 u) then Ok (utf8_inner u)
  else match from_utf8 (pending_utf8 u) with
       | inl _ => Ok (utf8_inner u)
       | inr err => Err (left_over_error err)
       end.

Definition into_inner_lossy u : P := utf8_inner u.

(** A caller that pushes pieces until one is refused, and then finishes. *)
Fixpoint collect_bytes u (chunks : list (list N)) : result (StreamTextChunk T) Utf8StreamParserError :=
  match chunks with
  | [] => snd (utf8_finish u)
  | c :: cs =>
      match push_bytes u c with
      | (u, Ok out) => result_map (chunk_append out) (collect_bytes u cs)
      | (_, Err e) => Err e
      | (_, Panic) => Panic
      end
  end.

End utf8.

(** ** Decoding bytes that arrive later *)

Lemma decode_char_app a b :
  match decode_char a with
  | Decoded c rest => decode_char (a ++ b) = Decoded c (rest ++ b)
  | Malformed n => decode_char (a ++ b) = Malformed n
  | Truncated => True
  end.
Proof.
  destruct a as [|b0 a]; [done|]. unfold decode_char. cbn [app].
  destruct (b0 <? 128)%N; [done|].
  destruct (in_range 194 223 b0); [destruct a as [|b1 a]; [done|]; cbn [app]; by destruct (is_continuation b1)|].
  destruct (in_range 224 239 b0).
  { destruct a as [|b1 a]; [done|]. cbn [app]. destruct (negb (_ || _)); [done|].
    destruct a as [|b2 a]; [done|]. cbn [app]. by destruct (is_continuation b2). }
  destruct (in_range 240 244 b0); [|done].
  destruct a as [|b1 a]; [done|]. cbn [app]. destruct (negb (_ || _)); [done|].
  destruct a as [|b2 a]; [done|]. cbn [app]. destruct (negb (is_continuation b2)); [done|].
  destruct a as [|b3 a]; [done|]. cbn [app]. by destruct (is_continuation b3).
Qed.

Ltac consumed_here :=
  split_and!; [reflexivity|done|]; unfold decode_char;
  repeat match goal with H : ?x = _ |- context [?x] => rewrite H end; reflexivity.

(** A decoded character takes at least a byte and depends on no other. *)
Lemma decode_char_consumed a c rest :
  decode_char a = Decoded c rest -> exists used, a = used ++ rest /\ used <> [] /\ decode_char used = Decoded c [].
Proof.
  destruct a as [|b0 a]; [done|]. intros Hd. unfold decode_char in Hd. break_all;
    first [ eexists [_]; solve [consumed_here] | eexists [_; _]; solve [consumed_here]
          | eexists [_; _; _]; solve [consumed_here] | eexists [_; _; _; _]; solve [consumed_here] ].
Qed.

Lemma scan_fuel n m bytes : length bytes <= n -> length bytes <= m -> scan n bytes = scan m bytes.
Proof.
  revert m bytes. induction n as [|n IH]; intros m [|b bytes] Hn Hm; simpl in Hn; try (by destruct m); [lia|].
  destruct m as [|m]; simpl in Hm; [lia|]. cbn [scan]. destruct (decode_char (b :: bytes)) as [c rest| |] eqn:E; [|done..].
  destruct (decode_char_consumed _ _ _ E) as (used & Hu & Hne & _).
  apply (f_equal length) in Hu. rewrite length_app in Hu. simpl in Hu. destruct used; [done|]. simpl in Hu.
  by rewrite (IH m rest) by lia.
Qed.

(** [scan] with fuel that is always enough, and its equation. *)
Definition scan_all (bytes : list N) : str * list N * option (option nat) := scan (length bytes) bytes.

Lemma scan_all_unfold bytes :
  scan_all bytes =
  match bytes with
  | [] => ([], [], None)
  | _ => match decode_char bytes with
         | Decoded c rest => let '(s, remaining, e) := scan_all rest in (c :: s, remaining, e)
         | Truncated => ([], bytes, Some None)
         | Malformed n => ([], bytes, Some (Some n))
         end
  end.
Proof.
  unfold scan_all. destruct bytes as [|b bytes]; [done|]. cbn [length scan].
  destruct (decode_char (b :: bytes)) as [c rest| |] eqn:E; [|done..].
  destruct (decode_char_consumed _ _ _ E) as (used & Hu & Hne & _).
  apply (f_equal length) in Hu. rewrite length_app in Hu. simpl in Hu. destruct used; [done|]. simpl in Hu.
  by rewrite (scan_fuel (length bytes) (length rest)) by lia.
Qed.

Lemma bytes_ind (Q : list N -> Prop) :
  Q [] -> (forall bytes, bytes <> [] -> (forall c rest, decode_char bytes = Decoded c rest -> Q rest) -> Q bytes) ->
  forall bytes, Q bytes.
Proof.
  intros Hnil Hstep bytes. remember (length bytes) as n eqn:Hn. revert bytes Hn.
  induction n as [n IH] using lt_wf_ind. intros bytes ->. destruct bytes as [|b bytes]; [done|].
  apply Hstep; [done|]. intros c rest E. destruct (decode_char_consumed _ _ _ E) as (used & Hu & Hne & _).
  eapply IH; [|done]. rewrite Hu, length_app. destruct used; [done|]. simpl. lia.
Qed.

(** What is decoded is a prefix of the bytes that decodes by itself; the rest is empty
    when there is no error. *)
Lemma scan_all_prefix bytes s remaining e :
  scan_all bytes = (s, remaining, e) ->
  exists used, bytes = used ++ remaining /\ scan_all used = (s, [], None) /\ (e = None -> remaining = []).
Proof.
  revert s remaining e. induction bytes as [|bytes Hne IH] using bytes_ind; intros s remaining e.
  - intros [= <- <- <-]. by exists [].
  - rewrite scan_all_unfold. destruct bytes as [|b bytes]; [done|].
    destruct (decode_char (b :: bytes)) as [c rest| |n] eqn:E; [|intros [= <- <- <-]; by exists []..].
    destruct (scan_all rest) as [[s' r'] e'] eqn:Es. intros [= <- <- <-].
    destruct (IH c rest eq_refl _ _ _ Es) as (used & -> & Hs & He).
    destruct (decode_char_consumed _ _ _ E) as (u & Hu & Hune & Hud).
    exists (u ++ used). split_and!; [by rewrite Hu, app_assoc| |done].
    rewrite scan_all_unfold. pose proof (decode_char_app u used) as Ha. rewrite Hud in Ha. simpl in Ha. rewrite Ha, Hs.
    by destruct u.
Qed.

Lemma scan_all_app a b s remaining e :
  scan_all a = (s, remaining, e) ->
  scan_all (a ++ b) =
  match e with
  | Some (Some n) => (s, remaining ++ b, e)
  | _ => let '(s', remaining', e') := scan_all (remaining ++ b) in (s ++ s', remaining', e')
  end.
Proof.
  revert s remaining e. induction a as [|a Hne IH] using bytes_ind; intros s remaining e.
  - intros [= <- <- <-]. simpl. by destruct (scan_all b) as [[? ?] ?].
  - rewrite scan_all_unfold. destruct a as [|b0 a]; [done|]. pose proof (decode_char_app (b0 :: a) b) as Ha.
    destruct (decode_char (b0 :: a)) as [c rest| |n] eqn:E.
    + destruct (scan_all rest) as [[s' r'] e'] eqn:Es. intros [= <- <- <-].
      rewrite scan_all_unfold, Ha, (IH c rest eq_refl _ _ _ Es). simpl.
      destruct e' as [[n|]|]; [done|by destruct (scan_all (r' ++ b)) as [[? ?] ?]..].
    + intros [= <- <- <-]. by destruct (scan_all _) as [[? ?] ?].
    + intros [= <- <- <-]. by rewrite scan_all_unfold, Ha.
Qed.

(** [from_utf8] in these terms. *)
Lemma from_utf8_scan bytes :
  from_utf8 bytes =
  let '(s, remaining, e) := scan_all bytes in
  match e with None => inl s | Some len => inr (mkUtf8Error (length bytes - length remaining) len) end.
Proof. done. Qed.

(** ** The wrapper *)

Section wrapper.
Context {P T : Type} `{StreamTextSpec P T}.
Implicit Types u : Utf8StreamParser P.

(** Only the beginning of a code point is kept. *)
Definition utf8_ok u : Prop :=
  parser_ok (utf8_inner u) /\ (pending_utf8 u = [] \/ decode_char (pending_utf8 u) = Truncated).

(** A piece that is refused changes nothing. *)
Lemma push_bytes_rollback u chunk u' e : push_bytes u chunk = (u', Err e) -> u' = u.
Proof.
  unfold push_bytes. rewrite take_app_length. destruct u as [inner pending]. simpl. intros Hp.
  break_all; done.
Qed.

Lemma push_bytes_invalid u chunk s remaining n :
  scan_all (pending_utf8 u ++ chunk) = (s, remaining, Some (Some n)) ->
  exists u' v, push_bytes u chunk = (u', Err (InvalidUtf8 v n)).
Proof. intros Hs. unfold push_bytes. rewrite from_utf8_scan, Hs. simpl. eauto. Qed.

(** An accepted piece hands the decoded text to the inner parser and keeps the rest. *)
Lemma push_bytes_accepted u chunk s remaining e r :
  utf8_ok u -> scan_all (pending_utf8 u ++ chunk) = (s, remaining, e) -> (forall n, e <> Some (Some n)) ->
  exists inner out,
    push_bytes u chunk = (mkUtf8StreamParser inner remaining, Ok out) /\
    utf8_ok (mkUtf8StreamParser inner remaining) /\
    chunk_equiv same_extracted (stream_result (utf8_inner u) (s ++ r)) (chunk_append out (stream_result inner r)).
Proof.
  intros [Hin Hpend] Hs He. destruct (scan_all_prefix _ _ _ _ Hs) as (used & Hu & Hused & Hnone).
  assert (remaining = [] \/ decode_char remaining = Truncated) as Hrem.
  { pose proof (scan_all_app used remaining _ _ _ Hused) as Happ. simpl in Happ.
    rewrite <- Hu, Hs in Happ. destruct e as [[n|]|]; [by destruct (He n)| |left; by apply Hnone].
    destruct (scan_all remaining) as [[s' r'] e'] eqn:Er. injection Happ as E1 E2 <-.
    assert (s' = []) as -> by (apply (app_inv_head s); by rewrite <- E1, app_nil_r). subst r'.
    right. rewrite scan_all_unfold in Er. destruct remaining as [|b rem]; [done|].
    destruct (decode_char (b :: rem)) as [c rest| |n]; [revert Er|done..]. by destruct (scan_all rest) as [[? ?] ?]. }
  pose proof (push_str_ok (utf8_inner u) s Hin) as Hok. pose proof (push_str_result (utf8_inner u) s r Hin) as Hr.
  assert (length (pending_utf8 u ++ chunk) - length remaining = length used) as Hlen by (rewrite Hu, length_app; lia).
  unfold push_bytes. rewrite (from_utf8_scan (_ ++ _)), Hs. destruct e as [[n|]|]; [by destruct (He n)| |].
  - cbn [error_len valid_up_to]. rewrite Hlen. destruct (Nat.eqb_spec (length used) 0) as [E0|E0].
    + apply nil_length_inv in E0. subst used. simpl in Hused. injection Hused as <-. simpl in Hu. rewrite Hu.
      exists (utf8_inner u), chunk_default. split_and!; [done|by split|]. simpl.
      by destruct (stream_result (utf8_inner u) r).
    + rewrite Hu, take_app_length, drop_app_length, (from_utf8_scan used), Hused.
      destruct (push_str (utf8_inner u) s) as [inner out]. exists inner, out. split_and!; [done|by split|done].
  - rewrite (Hnone eq_refl). destruct (push_str (utf8_inner u) s) as [inner out]. exists inner, out.
    split_and!; [done|split; [done|by left]|done].
Qed.

Lemma collect_bytes_spec u chunks :
  utf8_ok u ->
  match scan_all (pending_utf8 u ++ concat chunks) with
  | (s, _, None) =>
      exists out, collect_bytes u chunks = Ok out /\ chunk_equiv same_extracted out (stream_result (utf8_inner u) s)
  | (_, _, Some None) => collect_bytes u chunks = Err IncompleteUtf8AtEof
  | (_, _, Some (Some n)) => exists v, collect_bytes u chunks = Err (InvalidUtf8 v n)
  end.
Proof.
  revert u. induction chunks as [|c cs IH]; intros u Hu; cbn [collect_bytes concat].
  - destruct Hu as [Hin Hpend]. rewrite app_nil_r. unfold utf8_finish. destruct (pending_utf8 u) as [|b l] eqn:Ep.
    + simpl. pose proof (stream_finish_result _ Hin) as HF. destruct (stream_finish _) as [inner tail].
      exists tail. split; [by destruct tail|done].
    + destruct Hpend as [|Ht]; [done|]. rewrite from_utf8_scan.
      assert (scan_all (b :: l) = ([], b :: l, Some None)) as -> by (by rewrite scan_all_unfold, Ht). done.
  - destruct (scan_all (pending_utf8 u ++ c)) as [[s remaining] e] eqn:Es.
    pose proof (scan_all_app _ (concat cs) _ _ _ Es) as Happ. rewrite <- app_assoc in Happ. rewrite Happ.
    assert ((exists n, e = Some (Some n)) \/ forall n, e <> Some (Some n)) as [[n ->]|He]
      by (destruct e as [[n|]|]; eauto; right; congruence).
    { destruct (push_bytes_invalid _ _ _ _ _ Es) as (u' & v & ->). eauto. }
    assert (scan_all (pending_utf8 u ++ c ++ concat cs) =
      let '(s', remaining', e') := scan_all (remaining ++ concat cs) in (s ++ s', remaining', e')) as E
      by (rewrite Happ; destruct e as [[n|]|]; [by destruct (He n)|done..]).
    rewrite <- Happ, E. destruct (scan_all (remaining ++ concat cs)) as [[s' r'] e'] eqn:Er.
    destruct (push_bytes_accepted u c s remaining e s' Hu Es He) as (inner & out & -> & Hok & Hr).
    specialize (IH _ Hok). cbn [pending_utf8 utf8_inner] in IH. rewrite Er in IH.
    destruct e' as [[n|]|].
    + destruct IH as [v ->]. eauto.
    + by rewrite IH.
    + destruct IH as (rest & -> & Heq). exists (chunk_append out rest). split; [done|].
      etransitivity; [|symmetry; exact Hr]. by apply chunk_equiv_app.
Qed.

End wrapper.

(** Around any parser that keeps its contract, bytes cut anywhere, also inside a code
    point, give what the parser gives for the text they encode; when they encode none, the
    first malformed sequence is reported with its length, or else, at the end, that the
    last code point is incomplete. *)
Theorem utf8_stream_any_pieces {P T} `{StreamTextSpec P T} (inner : P) chunks :
  parser_ok inner ->
  match from_utf8 (concat chunks) with
  | inl s =>
      exists out, collect_bytes (utf8_new inner) chunks = Ok out /\
        chunk_equiv same_extracted out (stream_result inner s)
  | inr (mkUtf8Error _ None) => collect_bytes (utf8_new inner) chunks = Err IncompleteUtf8AtEof
  | inr (mkUtf8Error _ (Some len)) => exists at_, collect_bytes (utf8_new inner) chunks = Err (InvalidUtf8 at_ len)
  end.
Proof.
  intros Hin. pose proof (collect_bytes_spec (utf8_new inner) chunks (conj Hin (or_introl eq_refl))) as HC.
  rewrite from_utf8_scan. simpl in HC. destruct (scan_all (concat chunks)) as [[s remaining] [[n|]|]]; exact HC.
Qed.

Lemma utf8_stream_any_pieces_witness :
  exists out,
    collect_bytes (utf8_new (mkCitationStreamParser (mkInlineHiddenTagParser CITATION_SPECS [] None)))
      [[65; 195]; [169] ++ CITATION_OPEN ++ [228]; [184; 173] ++ CITATION_CLOSE ++ [90]]%N = Ok out /\
    chunk_equiv eq out (mkStreamTextChunk [65; 233; 90] [[20013]])%N.
Proof.
  pose proof (utf8_stream_any_pieces (mkCitationStreamParser (mkInlineHiddenTagParser CITATION_SPECS [] None))
    [[65; 195]; [169] ++ CITATION_OPEN ++ [228]; [184; 173] ++ CITATION_CLOSE ++ [90]]%N
    (proj1 (citation_new_ok _ eq_refl))) as HW.
  replace (from_utf8 _) with (inl ([65; 233] ++ CITATION_OPEN ++ [20013] ++ CITATION_CLOSE ++ [90])%N : str + Utf8Error)
    in HW by reflexivity.
  destruct HW as (out & Hc & Hv & He). exists out. split; [exact Hc|]. split; [exact Hv|exact He].
Defined.

(** ** The decoder reads back what the encoding writes *)

(** The Unicode scalar values, which are the values of a [char]. *)
Definition is_scalar (c : N) : Prop := (c < 55296 \/ 57344 <= c < 1114112)%N.

Ltac Zify.zify_post_hook ::= Z.to_euclidean_division_equations.

(** A range test with the answer arithmetic gives. *)
Ltac byte_test :=
  unfold is_continuation, in_range;
  rewrite ?negb_true_iff, ?negb_false_iff, ?orb_true_iff, ?andb_true_iff, ?andb_false_iff, ?N.eqb_eq, ?N.leb_le,
    ?N.leb_gt, ?N.ltb_lt, ?N.ltb_ge; lia.

Ltac test_is b :=
  match goal with
  | |- context [if ?t then _ else _] => replace t with b by (symmetry; byte_test); cbv iota
  end.

Lemma decode_encode_char c rest : is_scalar c -> decode_char (utf8_encode_char c ++ rest) = Decoded c rest.
Proof.
  intros Hc. unfold is_scalar in Hc. unfold utf8_encode_char.
  destruct (N.ltb_spec c 128) as [H1|H1]; [|destruct (N.ltb_spec c 2048) as [H2|H2]; [|destruct (N.ltb_spec c 65536) as [H3|H3]]];
    cbn [app]; unfold decode_char.
  - by test_is true.
  - test_is false. test_is true. test_is false. f_equal. lia.
  - test_is false. test_is false. test_is true. test_is false. test_is false. f_equal. lia.
  - test_is false. test_is false. test_is false. test_is true. do 3 test_is false. f_equal. lia.
Qed.

(** Every text is read back from its encoding. *)
Lemma from_utf8_encode s : Forall is_scalar s -> from_utf8 (utf8_encode s) = inl s.
Proof.
  intros HF. rewrite from_utf8_scan. assert (scan_all (utf8_encode s) = (s, [], None)) as ->; [|done].
  induction HF as [|c s Hc _ IH]; [done|]. change (utf8_encode (c :: s)) with (utf8_encode_char c ++ utf8_encode s).
  rewrite scan_all_unfold, decode_encode_char, IH by done.
  unfold utf8_encode_char. by repeat case_match.
Qed.
