(* ===== verification/HeadTail.v ===== *)
(** * The capped buffer of command output

    Models [core/src/unified_exec/head_tail_buffer.rs]: a buffer that keeps the beginning and
    the end of what is pushed into it.  Whatever the pieces, it represents the bytes that
    were pushed ([represents]): the head is their beginning, the tail their end, and the
    counter says how many are missing in between. *)

From stdpp Require Import base list strings.
From Stdlib Require Import NArith.
From S2P Require Import Prelude.

(** [usize::saturating_add] of a length. *)
Definition add_len (a : N) (len : nat) : N := usize_add a (N.of_nat len).

Record HeadTailBuffer := mkHeadTailBuffer {
  max_bytes : nat; head_budget : nat; tail_budget : nat;
  head_bytes : list N; tail_bytes : list N; omitted_bytes : N }.

Definition buffer_new (max_bytes : nat) : HeadTailBuffer :=
  let head_budget := max_bytes / 2 in
  mkHeadTailBuffer max_bytes head_budget (max_bytes - head_budget) [] [] 0.

Definition set_contents (b : HeadTailBuffer) (head tail : list N) (omitted : N) : HeadTailBuffer :=
  mkHeadTailBuffer (max_bytes b) (head_budget b) (tail_budget b) head tail omitted.

Definition retained_bytes (b : HeadTailBuffer) : N := add_len (N.of_nat (length (head_bytes b))) (length (tail_bytes b)).
Definition total_bytes (b : HeadTailBuffer) : N := usize_add (retained_bytes b) (omitted_bytes b).

Definition trim_tail_to_budget (b : HeadTailBuffer) : HeadTailBuffer :=
  let excess := length (tail_bytes b) - tail_budget b in
  if Nat.ltb 0 excess then set_contents b (head_bytes b) (drop excess (tail_bytes b)) (add_len (omitted_bytes b) excess) else b.

Definition push_to_tail (chunk : list N) (b : HeadTailBuffer) : HeadTailBuffer :=
  if is_empty chunk then b
  else if Nat.eqb (tail_budget b) 0 then set_contents b (head_bytes b) (tail_bytes b) (add_len (omitted_bytes b) (length chunk))
  else if Nat.leb (tail_budget b) (length chunk) then
    let start := length chunk - tail_budget b in
    let kept := drop start chunk in
    let dropped := length chunk - length kept in
    set_contents b (head_bytes b) kept (add_len (add_len (omitted_bytes b) (length (tail_bytes b))) dropped)
  else trim_tail_to_budget (set_contents b (head_bytes b) (tail_bytes b ++ chunk) (omitted_bytes b)).

Definition push_chunk (chunk : list N) (b : HeadTailBuffer) : HeadTailBuffer :=
  if is_empty chunk then b
  else if Nat.eqb (max_bytes b) 0 then set_contents b (head_bytes b) (tail_bytes b) (add_len (omitted_bytes b) (length chunk))
  else
    let remaining_head := head_budget b - length (head_bytes b) in
    let head_len := remaining_head `min` length chunk in
    let b := if Nat.ltb 0 head_len then set_contents b (head_bytes b ++ take head_len chunk) (tail_bytes b) (omitted_bytes b) else b in
    push_to_tail (drop head_len chunk) b.

Definition snapshot_chunks (b : HeadTailBuffer) : list (list N) :=
  (if is_empty (head_bytes b) then [] else [head_bytes b]) ++ (if is_empty (tail_bytes b) then [] else [tail_bytes b]).

Definition to_bytes (b : HeadTailBuffer) : list N := head_bytes b ++ tail_bytes b.

Definition format_output_omission_marker (omitted : N) : str := lit "... " ++ decimal omitted ++ lit " bytes omitted ...".

Definition to_bytes_with_omission_marker (b : HeadTailBuffer) : list N :=
  if (omitted_bytes b =? 0)%N then to_bytes b
  else head_bytes b ++ [LF] ++ format_output_omission_marker (omitted_bytes b) ++ [LF] ++ tail_bytes b.

(** [drain]: what was there, and the emptied buffer. *)
Definition buffer_drain (b : HeadTailBuffer) : HeadTailBuffer * HeadTailBuffer := (b, set_contents b [] [] 0).

Definition push_buffer (other : HeadTailBuffer) (b : HeadTailBuffer) : HeadTailBuffer :=
  let b := push_chunk (head_bytes other) b in
  let b := push_chunk (tail_bytes other) b in
  set_contents b (head_bytes b) (tail_bytes b) (usize_add (omitted_bytes b) (omitted_bytes other)).

(** ** What a buffer represents *)

Definition last_n {A} (n : nat) (l : list A) : list A := drop (length l - n) l.

(** The buffer [b] has seen the bytes [data]. *)
Record represents (b : HeadTailBuffer) (data : list N) : Prop := {
  rep_budgets : head_budget b = max_bytes b / 2 /\ tail_budget b = max_bytes b - max_bytes b / 2;
  rep_head : head_bytes b = take (head_budget b) data;
  rep_tail : tail_bytes b = last_n (tail_budget b) (drop (head_budget b) data);
  rep_omitted : omitted_bytes b = N.min (N.of_nat (length data - max_bytes b)) usize_max;
}.

Lemma length_last_n {A} n (l : list A) : length (last_n n l) = n `min` length l.
Proof. unfold last_n. rewrite length_drop. lia. Qed.

Lemma last_n_all {A} n (l : list A) : length l <= n -> last_n n l = l.
Proof. intros Hl. unfold last_n. replace (length l - n) with 0 by lia. apply drop_0. Qed.

Lemma last_n_app_long {A} n (l k : list A) : n <= length k -> last_n n (l ++ k) = last_n n k.
Proof.
  intros Hk. unfold last_n. rewrite length_app. replace (length l + length k - n) with (length l + (length k - n)) by lia.
  apply drop_app_add.
Qed.

Lemma last_n_app {A} n (l k : list A) : last_n n (last_n n l ++ k) = last_n n (l ++ k).
Proof.
  unfold last_n at 1 3. rewrite !length_app, length_last_n. unfold last_n.
  rewrite <- drop_app_le by lia. rewrite drop_drop. f_equal. lia.
Qed.

Lemma represents_new m : represents (buffer_new m) [].
Proof. constructor; simpl; [done|by rewrite take_nil|by rewrite drop_nil|done]. Qed.

Lemma half_le m : m / 2 <= m.
Proof. apply Nat.Div0.div_le_upper_bound. lia. Qed.

Lemma half_lt m : m <> 0 -> m / 2 < m.
Proof. intros. apply Nat.div_lt; lia. Qed.

Lemma push_to_tail_spec chunk b seen :
  tail_budget b <> 0 -> tail_bytes b = last_n (tail_budget b) seen ->
  omitted_bytes b = N.min (N.of_nat (length seen - tail_budget b)) usize_max ->
  push_to_tail chunk b =
  set_contents b (head_bytes b) (last_n (tail_budget b) (seen ++ chunk))
    (N.min (N.of_nat (length (seen ++ chunk) - tail_budget b)) usize_max).
Proof.
  intros Hb Ht Ho. unfold push_to_tail. rewrite length_app. destruct (is_empty chunk) eqn:Ec.
  { apply is_empty_true in Ec as ->. simpl. rewrite app_nil_r, Nat.add_0_r, <- Ht, <- Ho. by destruct b. }
  apply Nat.eqb_neq in Hb as Hb'. rewrite Hb'. destruct (Nat.leb (tail_budget b) (length chunk)) eqn:El.
  - apply Nat.leb_le in El. f_equal.
    + by rewrite last_n_app_long.
    + rewrite Ho, Ht, length_drop, length_last_n. unfold add_len, usize_add. lia.
  - apply Nat.leb_gt in El. unfold trim_tail_to_budget. cbn [tail_bytes tail_budget omitted_bytes set_contents head_bytes].
    assert (length (tail_bytes b ++ chunk) = (tail_budget b `min` length seen) + length chunk) as Hl
      by (rewrite length_app, Ht, length_last_n; done).
    assert (last_n (tail_budget b) (tail_bytes b ++ chunk) = last_n (tail_budget b) (seen ++ chunk)) as Hlast
      by (by rewrite Ht, last_n_app).
    destruct (Nat.ltb 0 _) eqn:Ex.
    + unfold set_contents. cbn. f_equal; [exact Hlast|]. rewrite Ho, Hl. unfold add_len, usize_add. lia.
    + apply Nat.ltb_ge in Ex. f_equal; [rewrite <- Hlast; symmetry; apply last_n_all; lia|]. rewrite Ho. lia.
Qed.

Lemma represents_push chunk b data : represents b data -> represents (push_chunk chunk b) (data ++ chunk).
Proof.
  intros [[Hhb Htb] Hh Ht Ho]. unfold push_chunk. destruct (is_empty chunk) eqn:Ec.
  { apply is_empty_true in Ec as ->. rewrite app_nil_r. by constructor. }
  destruct (Nat.eqb (max_bytes b) 0) eqn:Em.
  { apply Nat.eqb_eq in Em. assert (head_budget b = 0 /\ tail_budget b = 0) as [H1 H2].
    { rewrite Hhb, Htb, Em. done. }
    constructor; cbn; rewrite ?H1, ?H2 in *; [done|by rewrite Hh, !take_0| |].
    - rewrite Ht, !drop_0. unfold last_n. by rewrite !Nat.sub_0_r, !drop_all.
    - rewrite Ho, Em, length_app. unfold add_len, usize_add. lia. }
  apply Nat.eqb_neq in Em. pose proof (half_lt _ Em). set (hb := head_budget b) in *. set (tb := tail_budget b) in *.
  rewrite Hh, length_take. set (n := (hb - hb `min` length data) `min` length chunk).
  assert (take n chunk = take (hb - length data) chunk /\ drop n chunk = drop (hb - length data) chunk) as [Htk Hdr].
  { unfold n. destruct (decide (hb - length data <= length chunk)).
    - by replace ((hb - hb `min` length data) `min` length chunk) with (hb - length data) by lia.
    - replace ((hb - hb `min` length data) `min` length chunk) with (length chunk) by lia.
      rewrite !take_ge, !drop_ge by lia. done. }
  set (b1 := if Nat.ltb 0 n then _ else b).
  assert (b1 = set_contents b (take hb (data ++ chunk)) (tail_bytes b) (omitted_bytes b)) as Hb1.
  { rewrite take_app, <- Htk. unfold b1. destruct (Nat.ltb 0 n) eqn:En; [by rewrite <- Hh|].
    apply Nat.ltb_ge in En. replace n with 0 by lia. rewrite take_0, app_nil_r, <- Hh. by destruct b. }
  rewrite Hdr, Hb1. rewrite (push_to_tail_spec _ _ (drop hb data)).
  - assert (drop hb data ++ drop (hb - length data) chunk = drop hb (data ++ chunk)) as Hseen by (by rewrite drop_app).
    constructor; cbn; [done|done|by rewrite Hseen|]. rewrite Hseen, length_drop, !length_app.
    replace (tail_budget b) with tb by done. lia.
  - cbn. replace (tail_budget b) with tb by done. lia.
  - done.
  - cbn. rewrite Ho, length_drop. replace (tail_budget b) with tb by done. lia.
Qed.

(** All the chunks of a run. *)
Definition push_chunks (chunks : list (list N)) (b : HeadTailBuffer) : HeadTailBuffer :=
  foldl (fun b chunk => push_chunk chunk b) b chunks.

Lemma represents_push_all chunks b data : represents b data -> represents (push_chunks chunks b) (data ++ concat chunks).
Proof.
  revert b data. induction chunks as [|c chunks IH]; intros b data Hr; simpl; [by rewrite app_nil_r|].
  rewrite app_assoc. by apply IH, represents_push.
Qed.

Lemma push_chunk_budgets chunk b : max_bytes (push_chunk chunk b) = max_bytes b.
Proof.
  unfold push_chunk, push_to_tail, trim_tail_to_budget. repeat (case_match; simpl; try done).
Qed.

Lemma max_push_chunks chunks b : max_bytes (push_chunks chunks b) = max_bytes b.
Proof. revert b. induction chunks as [|c chunks IH]; intros b; simpl; [done|]. by rewrite IH, push_chunk_budgets. Qed.

Lemma represents_short b data :
  represents b data -> length data <= max_bytes b -> to_bytes b = data /\ omitted_bytes b = 0%N.
Proof.
  intros [[Hhb Htb] Hh Ht Ho] Hl. pose proof (half_le (max_bytes b)). split.
  - unfold to_bytes. rewrite Hh, Ht, last_n_all by (rewrite length_drop; lia). apply take_drop.
  - rewrite Ho. lia.
Qed.

Lemma represents_retained b data : represents b data -> length (to_bytes b) = length data `min` max_bytes b.
Proof.
  intros [[Hhb Htb] Hh Ht _]. pose proof (half_le (max_bytes b)). unfold to_bytes.
  rewrite length_app, Hh, Ht, length_take, length_last_n, length_drop. lia.
Qed.

(** Appending a buffer of the same capacity is appending all it has seen. *)
Lemma represents_push_buffer other b d1 d2 :
  represents b d1 -> represents other d2 -> max_bytes other = max_bytes b -> represents (push_buffer other b) (d1 ++ d2).
Proof.
  intros H1 H2 Hmax. unfold push_buffer.
  pose proof (represents_push (tail_bytes other) _ _ (represents_push (head_bytes other) _ _ H1)) as Hr.
  set (b' := push_chunk (tail_bytes other) _) in *.
  assert (max_bytes b' = max_bytes b) as Hmb by (unfold b'; by rewrite !push_chunk_budgets).
  destruct (decide (length d2 <= max_bytes b)) as [Hs|Hs].
  - destruct (represents_short _ _ H2) as [Hd Ho]; [lia|]. unfold to_bytes in Hd. rewrite <- app_assoc, Hd in Hr.
    destruct Hr as [Hb Hh Ht Ho']. constructor; cbn; try done. unfold usize_add. rewrite Ho, Ho'. lia.
  - destruct H2 as [[Hhb2 Htb2] Hh2 Ht2 Ho2], Hr as [[Hhb Htb] Hh Ht Ho]. rewrite Hmb, Hmax in *.
    rewrite <- app_assoc in *. pose proof (half_le (max_bytes b)).
    set (T := tail_bytes other) in *. set (hb := max_bytes b / 2) in *. set (tb := max_bytes b - hb) in *.
    assert (length T = tb) as HlT by (rewrite Ht2, length_last_n, length_drop, Hhb2, Htb2; lia).
    assert (length (head_bytes other) = hb) as Hlh by (rewrite Hh2, length_take, Hhb2; lia).
    constructor; cbn; rewrite ?Hmb; [done| | |].
    + rewrite Hh, Hhb, Hh2, Hhb2. rewrite !take_app. rewrite !take_take. f_equal.
      replace ((hb - length d1) `min` hb) with (hb - length d1) by lia. rewrite length_take.
      replace (hb - length d1 - hb `min` length d2) with 0 by lia. by rewrite take_0, app_nil_r.
    + fold (last_n (tail_budget b') (drop (head_budget b') (d1 ++ d2))). rewrite Ht, Hhb, Htb. rewrite (app_assoc d1), (drop_app_le (d1 ++ head_bytes other)) by (rewrite length_app; lia).
      rewrite last_n_app_long, last_n_all by lia. rewrite Ht2, Hhb2, Htb2.
      assert (drop hb (d1 ++ d2) = drop hb (d1 ++ take hb d2) ++ drop hb d2) as ->.
      { rewrite <- drop_app_le by (rewrite length_app, length_take; lia). by rewrite <- app_assoc, take_drop. }
      rewrite last_n_app_long by (rewrite length_drop; lia). done.
    + unfold usize_add. rewrite Ho, Ho2, !length_app, HlT, Hlh. lia.
Qed.

(** The buffer keeps both ends of what it has seen.  Whatever pieces the output came in,
    and whether some of it was collected in another buffer of the same capacity first, the head
    is the beginning of the whole output and the tail its end, together never more than the
    capacity; output within the capacity is kept as it is, and otherwise the marker tells how
    many bytes are missing. *)
Theorem output_buffer_keeps_ends m pieces1 pieces2 :
  let b := push_buffer (push_chunks pieces2 (buffer_new m)) (push_chunks pieces1 (buffer_new m)) in
  let data := concat pieces1 ++ concat pieces2 in
  head_bytes b = take (m / 2) data /\ tail_bytes b = last_n (m - m / 2) (drop (m / 2) data) /\
  length (to_bytes b) = length data `min` m /\
  (length data <= m -> to_bytes_with_omission_marker b = data) /\
  omitted_bytes b = N.min (N.of_nat (length data - m)) usize_max.
Proof.
  intros b data.
  assert (represents b data) as Hr.
  { apply represents_push_buffer; [apply (represents_push_all _ _ []), represents_new..|]. by rewrite !max_push_chunks. }
  assert (max_bytes b = m) as Hm by (unfold b, push_buffer; cbn; by rewrite !push_chunk_budgets, max_push_chunks).
  pose proof (represents_retained _ _ Hr) as Hlen. pose proof (represents_short _ _ Hr) as Hshort.
  destruct Hr as [[Hhb Htb] Hh Ht Ho]. rewrite Hm in *. split_and!.
  - by rewrite Hh, Hhb.
  - by rewrite Ht, Hhb, Htb.
  - done.
  - intros Hl. destruct (Hshort Hl) as [Hd Ho'].
    unfold to_bytes_with_omission_marker. by rewrite Ho', Hd.
  - done.
Qed.
