(* ===== verification/ResponseItems.v ===== *)
(** * The items of a conversation

    Models the data of [protocol/src/models.rs] that the history of a conversation is made
    of: [ResponseItem] with its content and payload types, and its accessors.
    [serde_json::Value] is a type of the interface [Json]. *)

From stdpp Require Import base list strings gmap.
From Stdlib Require Import NArith.
From S2P Require Import Prelude.

(** [serde_json]. *)
Class Json := { Value : Type; Number : Type }.

Section items.
Context {json : Json}.

Inductive ImageDetail := DetailAuto | DetailLow | DetailHigh | DetailOriginal.

Inductive ContentItem :=
| InputText (text : str)
| InputImage (image_url : str) (detail : option ImageDetail)
| InputAudio (audio_url : str)
| OutputText (text : str).

Inductive AgentMessageInputContent :=
| AgentInputText (text : str)
| AgentEncryptedContent (encrypted_content : str).

Inductive MessagePhase := Commentary | FinalAnswer.

Record ExecutedToolCallTruncation := mkExecutedToolCallTruncation {
  original_bytes : N; truncation_max_bytes : N; omitted_calls : option N; original_name_bytes : option N }.
Inductive ExecutedToolCallArguments := RawArguments (v : Value) | TruncatedArguments (truncation : ExecutedToolCallTruncation).
Record ExecutedToolCall := mkExecutedToolCall { call_name : str; call_arguments : ExecutedToolCallArguments }.

Record InternalChatMessageMetadataPassthrough := mkMetadata {
  metadata_turn_id : option str; executed_tool_calls : option (list ExecutedToolCall) }.
Definition metadata_default : InternalChatMessageMetadataPassthrough := mkMetadata None None.

Inductive ReasoningItemReasoningSummary := SummaryText (text : str).
Inductive ReasoningItemContent := ReasoningText (text : str) | PlainReasoningText (text : str).

Inductive LocalShellStatus := ShellCompleted | ShellInProgress | ShellIncomplete.
Record LocalShellExecAction := mkLocalShellExecAction {
  shell_command : list str; shell_timeout_ms : option N; shell_working_directory : option str;
  shell_env : option (gmap str str); shell_user : option str }.
Inductive LocalShellAction := ShellExec (exec : LocalShellExecAction).

Inductive WebSearchAction :=
| WebSearch (query : option str) (queries : option (list str))
| WebOpenPage (url : option str)
| WebFindInPage (url pattern : option str)
| WebOther.

Inductive FunctionCallOutputContentItem :=
| OutInputText (text : str)
| OutInputImage (image_url : str) (detail : option ImageDetail)
| OutInputAudio (audio_url : str)
| OutEncryptedContent (encrypted_content : str).

Inductive FunctionCallOutputBody :=
| BodyText (content : str)
| BodyContentItems (items : list FunctionCallOutputContentItem).

Record FunctionCallOutputPayload := mkPayload { payload_body : FunctionCallOutputBody; payload_success : option bool }.

Definition payload_from_text (content : str) : FunctionCallOutputPayload := mkPayload (BodyText content) None.

Definition function_call_output_content_items_to_text (items : list FunctionCallOutputContentItem) : option str :=
  let text_segments :=
    omap (fun item => match item with OutInputText text => if is_empty (trim text) then None else Some text | _ => None end) items in
  if is_empty text_segments then None else Some (join [LF] text_segments).

Definition body_to_text (b : FunctionCallOutputBody) : option str :=
  match b with BodyText content => Some content | BodyContentItems items => function_call_output_content_items_to_text items end.

Abbreviation item_id := (option str).
Abbreviation item_metadata := (option InternalChatMessageMetadataPassthrough).

Inductive ResponseItem :=
| AdditionalTools (id : item_id) (role : str) (tools : list Value)
| Message (id : item_id) (role : str) (content : list ContentItem) (phase : option MessagePhase) (metadata : item_metadata)
| AgentMessage (id : item_id) (author recipient : str) (content : list AgentMessageInputContent) (metadata : item_metadata)
| Reasoning (id : item_id) (summary : list ReasoningItemReasoningSummary) (content : option (list ReasoningItemContent))
    (encrypted_content : option str) (metadata : item_metadata)
| LocalShellCall (id : item_id) (call_id : option str) (status : LocalShellStatus) (action : LocalShellAction)
    (metadata : item_metadata)
| FunctionCall (id : item_id) (name : str) (namespace : option str) (arguments : str)
    (encrypted_function_args : option (list str)) (call_id : str) (metadata : item_metadata)
| ToolSearchCall (id : item_id) (call_id status : option str) (execution : str) (arguments : Value) (metadata : item_metadata)
| FunctionCallOutput (id : item_id) (call_id : str) (output : FunctionCallOutputPayload) (metadata : item_metadata)
| CustomToolCall (id : item_id) (status : option str) (call_id name : str) (namespace : option str) (input : str)
    (metadata : item_metadata)
| CustomToolCallOutput (id : item_id) (call_id : str) (name : option str) (output : FunctionCallOutputPayload)
    (metadata : item_metadata)
| ToolSearchOutput (id : item_id) (call_id : option str) (status execution : str) (tools : list Value) (metadata : item_metadata)
| WebSearchCall (id : item_id) (status : option str) (action : option WebSearchAction) (metadata : item_metadata)
| ImageGenerationCall (id : item_id) (status : str) (revised_prompt : option str) (result : str) (metadata : item_metadata)
| Compaction (id : item_id) (encrypted_content : str) (metadata : item_metadata)
| CompactionTrigger
| ContextCompaction (id : item_id) (encrypted_content : option str) (metadata : item_metadata)
| OtherItem.

Definition is_user_message (item : ResponseItem) : bool :=
  match item with Message _ role _ _ _ => str_eqb role (lit "user") | _ => false end.

Definition response_item_id (item : ResponseItem) : item_id :=
  match item with
  | AdditionalTools id _ _ | Message id _ _ _ _ | AgentMessage id _ _ _ _ | LocalShellCall id _ _ _ _
  | FunctionCall id _ _ _ _ _ _ | ToolSearchCall id _ _ _ _ _ | FunctionCallOutput id _ _ _
  | CustomToolCall id _ _ _ _ _ _ | CustomToolCallOutput id _ _ _ _ | ToolSearchOutput id _ _ _ _ _
  | WebSearchCall id _ _ _ | Reasoning id _ _ _ _ | ImageGenerationCall id _ _ _ _ | Compaction id _ _
  | ContextCompaction id _ _ => id
  | CompactionTrigger | OtherItem => None
  end.

Definition set_id (new_id : item_id) (item : ResponseItem) : ResponseItem :=
  match item with
  | AdditionalTools _ role tools => AdditionalTools new_id role tools
  | Message _ role content phase m => Message new_id role content phase m
  | AgentMessage _ author recipient content m => AgentMessage new_id author recipient content m
  | Reasoning _ summary content enc m => Reasoning new_id summary content enc m
  | LocalShellCall _ call_id status action m => LocalShellCall new_id call_id status action m
  | FunctionCall _ name ns args enc call_id m => FunctionCall new_id name ns args enc call_id m
  | ToolSearchCall _ call_id status ex args m => ToolSearchCall new_id call_id status ex args m
  | FunctionCallOutput _ call_id output m => FunctionCallOutput new_id call_id output m
  | CustomToolCall _ status call_id name ns input m => CustomToolCall new_id status call_id name ns input m
  | CustomToolCallOutput _ call_id name output m => CustomToolCallOutput new_id call_id name output m
  | ToolSearchOutput _ call_id status ex tools m => ToolSearchOutput new_id call_id status ex tools m
  | WebSearchCall _ status action m => WebSearchCall new_id status action m
  | ImageGenerationCall _ status prompt result m => ImageGenerationCall new_id status prompt result m
  | Compaction _ enc m => Compaction new_id enc m
  | CompactionTrigger => CompactionTrigger
  | ContextCompaction _ enc m => ContextCompaction new_id enc m
  | OtherItem => OtherItem
  end.

Definition id_prefix (item : ResponseItem) : option str :=
  match item with
  | AdditionalTools _ _ _ => Some (lit "at")
  | Message _ _ _ _ _ => Some (lit "msg")
  | AgentMessage _ _ _ _ _ => Some (lit "amsg")
  | Reasoning _ _ _ _ _ => Some (lit "rs")
  | LocalShellCall _ _ _ _ _ => Some (lit "lsh")
  | FunctionCall _ _ _ _ _ _ _ => Some (lit "fc")
  | ToolSearchCall _ _ _ _ _ _ => Some (lit "tsc")
  | FunctionCallOutput _ _ _ _ => Some (lit "fco")
  | CustomToolCall _ _ _ _ _ _ _ => Some (lit "ctc")
  | CustomToolCallOutput _ _ _ _ _ => Some (lit "ctco")
  | ToolSearchOutput _ _ _ _ _ _ => Some (lit "tso")
  | WebSearchCall _ _ _ _ => Some (lit "ws")
  | ImageGenerationCall _ _ _ _ _ => Some (lit "ig")
  | Compaction _ _ _ | ContextCompaction _ _ _ => Some (lit "cmp")
  | CompactionTrigger | OtherItem => None
  end.

(** [internal_chat_message_metadata_passthrough_mut]: [None] for the variants without such a
    field, and otherwise what it holds with the item that has another value there. *)
Definition metadata_mut (item : ResponseItem) : option (item_metadata * (item_metadata -> ResponseItem)) :=
  match item with
  | Message id role content phase m => Some (m, Message id role content phase)
  | AgentMessage id author recipient content m => Some (m, AgentMessage id author recipient content)
  | Reasoning id summary content enc m => Some (m, Reasoning id summary content enc)
  | LocalShellCall id call_id status action m => Some (m, LocalShellCall id call_id status action)
  | FunctionCall id name ns args enc call_id m => Some (m, FunctionCall id name ns args enc call_id)
  | ToolSearchCall id call_id status ex args m => Some (m, ToolSearchCall id call_id status ex args)
  | FunctionCallOutput id call_id output m => Some (m, FunctionCallOutput id call_id output)
  | CustomToolCall id status call_id name ns input m => Some (m, CustomToolCall id status call_id name ns input)
  | CustomToolCallOutput id call_id name output m => Some (m, CustomToolCallOutput id call_id name output)
  | ToolSearchOutput id call_id status ex tools m => Some (m, ToolSearchOutput id call_id status ex tools)
  | WebSearchCall id status action m => Some (m, WebSearchCall id status action)
  | ImageGenerationCall id status prompt result m => Some (m, ImageGenerationCall id status prompt result)
  | Compaction id enc m => Some (m, Compaction id enc)
  | ContextCompaction id enc m => Some (m, ContextCompaction id enc)
  | CompactionTrigger | AdditionalTools _ _ _ | OtherItem => None
  end.

Definition metadata_of (item : ResponseItem) : item_metadata := '(m, _) ← metadata_mut item; m.

Definition non_empty (s : str) : option str := if is_empty s then None else Some s.

Definition turn_id (item : ResponseItem) : option str := m ← metadata_of item; t ← metadata_turn_id m; non_empty t.

Definition metadata_set_turn_id_if_missing (m : item_metadata) (turn_id : str) : item_metadata :=
  if is_empty turn_id || is_some_and (m ≫= metadata_turn_id) (fun t => negb (is_empty t)) then m
  else Some (mkMetadata (Some turn_id) (executed_tool_calls (default metadata_default m))).

Definition set_turn_id_if_missing (turn_id : str) (item : ResponseItem) : ResponseItem :=
  match metadata_mut item with
  | Some (m, set) => set (metadata_set_turn_id_if_missing m turn_id)
  | None => item
  end.

Definition clear_metadata (item : ResponseItem) : ResponseItem :=
  match metadata_mut item with Some (_, set) => set None | None => item end.

(** ** The turn an item belongs to *)

Lemma metadata_mut_set item m set m' : metadata_mut item = Some (m, set) -> metadata_mut (set m') = Some (m', set).
Proof. destruct item; simpl; intros; simplify_eq; done. Qed.

(** Stamping keeps a turn id that is there, and otherwise installs the new one on every item
    that can carry one. *)
Lemma set_turn_id_if_missing_spec t item :
  t <> [] -> is_Some (metadata_mut item) ->
  turn_id (set_turn_id_if_missing t item) = Some (default t (turn_id item)).
Proof.
  intros Ht [[m set] Hm]. unfold turn_id, metadata_of, set_turn_id_if_missing. rewrite Hm. simpl.
  rewrite (metadata_mut_set _ _ _ _ Hm). simpl. unfold metadata_set_turn_id_if_missing.
  apply is_empty_false in Ht as Ht'. rewrite Ht'. simpl.
  destruct m as [[[[|c t0]|] calls]|]; simpl; unfold non_empty; rewrite ?Ht'; done.
Qed.

End items.
