(* ===== verification/Truncate.v ===== *)
(** * Truncation of outputs

    Models [utils/string/src/truncate.rs], [utils/output-truncation/src/lib.rs] and
    [TruncationPolicy] of [protocol/src/protocol.rs].  Sizes are in bytes of UTF-8; the
    estimate of the tokens of an audio input, which decodes the audio, is a parameter.

    What is kept of a text that is too long is characterised by [longest_prefix] and
    [longest_suffix] ([split_string_spec]); the total of what a tool output keeps is bounded
    in [truncated_items_text_len]. *)

From stdpp Require Import base list strings.
From Stdlib Require Import NArith ZArith.
From S2P Require Import Prelude ResponseItems.

(** ** [truncate.rs] *)

Definition APPROX_BYTES_PER_TOKEN : N := 4.

Definition approx_token_count (text : str) : N := (usize_add (str_len text) (APPROX_BYTES_PER_TOKEN - 1) / APPROX_BYTES_PER_TOKEN)%N.
Definition approx_bytes_for_tokens (tokens : N) : N := usize_mul tokens APPROX_BYTES_PER_TOKEN.
Definition approx_tokens_from_byte_count (bytes : N) : N := (usize_add bytes (APPROX_BYTES_PER_TOKEN - 1) / APPROX_BYTES_PER_TOKEN)%N.

Record SplitState := mkSplitState { prefix_end : N; suffix_start : N; removed_chars : N; suffix_started : bool }.

(** The body of the loop over [char_indices]. *)
Definition split_step (beginning_bytes tail_start_target idx ch : N) (st : SplitState) : SplitState :=
  let char_end := (idx + len_utf8 ch)%N in
  if (char_end <=? beginning_bytes)%N then mkSplitState char_end (suffix_start st) (removed_chars st) (suffix_started st)
  else if (tail_start_target <=? idx)%N then
    if suffix_started st then st else mkSplitState (prefix_end st) idx (removed_chars st) true
  else mkSplitState (prefix_end st) (suffix_start st) (usize_add (removed_chars st) 1) (suffix_started st).

Fixpoint split_loop (beginning_bytes tail_start_target idx : N) (s : str) (st : SplitState) : SplitState :=
  match s with
  | [] => st
  | ch :: s' =>
      split_loop beginning_bytes tail_start_target (idx + len_utf8 ch) s'
        (split_step beginning_bytes tail_start_target idx ch st)
  end.

(** The number of removed characters, and the indices where the text is cut. *)
Definition split_points (s : str) (beginning_bytes end_bytes : N) : N * N * N :=
  let len := str_len s in
  let tail_start_target := (len - end_bytes)%N in
  let st := split_loop beginning_bytes tail_start_target 0 s (mkSplitState 0 len 0 false) in
  (removed_chars st, prefix_end st, if (suffix_start st <? prefix_end st)%N then prefix_end st else suffix_start st).

Definition split_string (s : str) (beginning_bytes end_bytes : N) : N * str * str :=
  if is_empty s then (0%N, [], [])
  else
    let '(removed, prefix_end, suffix_start) := split_points s beginning_bytes end_bytes in
    (removed, fst (split_at prefix_end s), snd (split_at suffix_start s)).

Definition split_budget (budget : N) : N * N := let left := (budget / 2)%N in (left, (budget - left)%N).

Definition ELLIPSIS : N := 8230.

Definition format_truncation_marker (use_tokens : bool) (removed_count : N) : str :=
  [ELLIPSIS] ++ decimal removed_count ++ lit (if use_tokens then " tokens truncated" else " chars truncated") ++ [ELLIPSIS].

Definition removed_units (use_tokens : bool) (removed_bytes removed_chars : N) : N :=
  if use_tokens then approx_tokens_from_byte_count removed_bytes else removed_chars.

Definition assemble_truncated_output (prefix suffix marker : str) : str := prefix ++ marker ++ suffix.

Definition truncate_with_byte_estimate (s : str) (max_bytes : N) (use_tokens : bool) : str :=
  if is_empty s then []
  else
    let total_chars := N.of_nat (length s) in
    if (max_bytes =? 0)%N then format_truncation_marker use_tokens (removed_units use_tokens (str_len s) total_chars)
    else if (str_len s <=? max_bytes)%N then s
    else
      let total_bytes := str_len s in
      let '(left_budget, right_budget) := split_budget max_bytes in
      let '(removed_chars, before, after) := split_string s left_budget right_budget in
      let marker := format_truncation_marker use_tokens (removed_units use_tokens (total_bytes - max_bytes) removed_chars) in
      assemble_truncated_output before after marker.

Definition truncate_middle_chars (s : str) (max_bytes : N) : str := truncate_with_byte_estimate s max_bytes false.

Definition truncate_middle_with_token_budget (s : str) (max_tokens : N) : str * option N :=
  if is_empty s then ([], None)
  else if (0 <? max_tokens)%N && (str_len s <=? approx_bytes_for_tokens max_tokens)%N then (s, None)
  else
    let truncated := truncate_with_byte_estimate s (approx_bytes_for_tokens max_tokens) true in
    let total_tokens := approx_token_count s in
    if str_eqb truncated s then (truncated, None) else (truncated, Some total_tokens).

(** ** [TruncationPolicy] *)

Inductive TruncationPolicy := PolicyBytes (bytes : N) | PolicyTokens (tokens : N).

Definition token_budget (p : TruncationPolicy) : N :=
  match p with PolicyBytes bytes => approx_tokens_from_byte_count bytes | PolicyTokens tokens => tokens end.
Definition byte_budget (p : TruncationPolicy) : N :=
  match p with PolicyBytes bytes => bytes | PolicyTokens tokens => approx_bytes_for_tokens tokens end.

(** *** [Mul<f64>]

    A finite [f64] that is not negative, as [significand * 2^-52]: the products and
    conversions here stay in that range.  [round53] rounds an integer to 53 significant bits,
    to nearest with ties to even. *)
Definition round53 (n : N) : N :=
  let e := (N.size n - 53)%N in
  let unit := N.shiftl 1 e in
  let q := (n / unit)%N in
  let r := (n mod unit)%N in
  let up := if (2 * r =? unit)%N then N.odd q else (unit <? 2 * r)%N in
  N.shiftl (if up then q + 1 else q)%N e.

(** [x as f64 * multiplier], [ceil], [as usize], of a multiplier [m / 2^52]. *)
Definition mul_f64_ceil (x m : N) : N :=
  let product := round53 (round53 x * m) in
  N.min ((product + (N.shiftl 1 52 - 1)) / N.shiftl 1 52)%N usize_max.

(** The double [1.2]. *)
Definition ONE_POINT_TWO : N := 5404319552844595.

Definition policy_mul (p : TruncationPolicy) (m : N) : TruncationPolicy :=
  match p with
  | PolicyBytes bytes => PolicyBytes (mul_f64_ceil bytes m)
  | PolicyTokens tokens => PolicyTokens (mul_f64_ceil tokens m)
  end.

(** ** [output-truncation] *)

Definition truncate_text (content : str) (policy : TruncationPolicy) : str :=
  match policy with
  | PolicyBytes bytes => truncate_middle_chars content bytes
  | PolicyTokens tokens => fst (truncate_middle_with_token_budget content tokens)
  end.

Definition formatted_truncate_text (content : str) (policy : TruncationPolicy) : str :=
  if (str_len content <=? byte_budget policy)%N then content
  else
    lit "Warning: truncated output (original token count: " ++ decimal (approx_token_count content) ++ lit ")" ++ [LF] ++
    lit "Total output lines: " ++ decimal (N.of_nat (length (lines content))) ++ [LF; LF] ++ truncate_text content policy.

(** Texts with a newline between them, but none before the first that is not empty. *)
Definition combine_texts (texts : list str) : str :=
  foldl (fun combined text => (if is_empty combined then combined else combined ++ [LF]) ++ text) [] texts.

Definition text_of_item (item : FunctionCallOutputContentItem) : option str :=
  match item with OutInputText text => Some text | _ => None end.

Definition formatted_truncate_text_content_items_with_policy (items : list FunctionCallOutputContentItem) (policy : TruncationPolicy)
  : list FunctionCallOutputContentItem * option N :=
  let text_segments := omap text_of_item items in
  if is_empty text_segments then (items, None)
  else
    let combined := combine_texts text_segments in
    if (str_len combined <=? byte_budget policy)%N then (items, None)
    else
      (OutInputText (formatted_truncate_text combined policy) ::
         omap (fun item => match item with OutInputText _ => None | _ => Some item end) items,
       Some (approx_token_count combined)).

(** The state of the loop of [truncate_function_output_items_with_policy]. *)
Record ItemsState := mkItemsState {
  out_items : list FunctionCallOutputContentItem; remaining_budget : N; omitted_text_items : N; omitted_audio_items : N }.

Definition text_cost (policy : TruncationPolicy) (text : str) : N :=
  match policy with PolicyBytes _ => str_len text | PolicyTokens _ => approx_token_count text end.
Definition with_limit (policy : TruncationPolicy) (limit : N) : TruncationPolicy :=
  match policy with PolicyBytes _ => PolicyBytes limit | PolicyTokens _ => PolicyTokens limit end.
Definition policy_limit (policy : TruncationPolicy) : N :=
  match policy with PolicyBytes _ => byte_budget policy | PolicyTokens _ => token_budget policy end.

Section items.
Variable estimate_audio_token_count : str -> N.

Definition truncate_item (policy : TruncationPolicy) (st : ItemsState) (item : FunctionCallOutputContentItem) : ItemsState :=
  let '(mkItemsState out remaining texts audios) := st in
  match item with
  | OutInputText text =>
      if (remaining =? 0)%N then mkItemsState out remaining (texts + 1) audios
      else
        let cost := text_cost policy text in
        if (cost <=? remaining)%N then mkItemsState (out ++ [OutInputText text]) (remaining - cost) texts audios
        else
          let snippet := truncate_text text (with_limit policy remaining) in
          if is_empty snippet then mkItemsState out 0 (texts + 1) audios
          else mkItemsState (out ++ [OutInputText snippet]) 0 texts audios
  | OutInputImage _ _ | OutEncryptedContent _ => mkItemsState (out ++ [item]) remaining texts audios
  | OutInputAudio audio_url =>
      let token_cost := estimate_audio_token_count audio_url in
      let cost := match policy with PolicyBytes _ => approx_bytes_for_tokens token_cost | PolicyTokens _ => token_cost end in
      if (cost <=? remaining)%N then mkItemsState (out ++ [item]) (remaining - cost) texts audios
      else mkItemsState out remaining texts (audios + 1)
  end.

Definition omitted_marker (count : N) (what : string) : str := lit "[omitted " ++ decimal count ++ lit what ++ lit " items ...]".

Definition truncate_function_output_items_with_policy (items : list FunctionCallOutputContentItem) (policy : TruncationPolicy)
  : list FunctionCallOutputContentItem :=
  let st := foldl (truncate_item policy) (mkItemsState [] (policy_limit policy) 0 0) items in
  out_items st ++
  (if (0 <? omitted_text_items st)%N then [OutInputText (omitted_marker (omitted_text_items st) " text")] else []) ++
  (if (0 <? omitted_audio_items st)%N then [OutInputText (omitted_marker (omitted_audio_items st) " audio")] else []).

Definition truncate_function_output_payload (output : FunctionCallOutputPayload) (policy : TruncationPolicy) : FunctionCallOutputPayload :=
  mkPayload
    (match payload_body output with
     | BodyText content => BodyText (truncate_text content policy)
     | BodyContentItems items => BodyContentItems (truncate_function_output_items_with_policy items policy)
     end)
    (payload_success output).
End items.

Definition i64_max : Z := 9223372036854775807.

Definition approx_tokens_from_byte_count_i64 (bytes : Z) : Z :=
  if (bytes <=? 0)%Z then 0%Z
  else Z.min (Z.of_N (approx_tokens_from_byte_count (N.min (Z.to_N bytes) usize_max))) i64_max.

(** ** What is kept of a text *)

(** The longest ends of a text that take at most [n] bytes. *)
Definition longest_prefix (n : N) (s : str) : str := fst (split_at n s).
Fixpoint longest_suffix (n : N) (s : str) : str :=
  match s with
  | [] => []
  | _ :: s' => if (str_len s <=? n)%N then s else longest_suffix n s'
  end.

Lemma split_at_spec n s :
  let '(p, r) := split_at n s in
  s = p ++ r /\ (str_len p <= n)%N /\ match r with [] => True | c :: _ => (n < str_len p + len_utf8 c)%N end.
Proof.
  revert n. induction s as [|c s IH]; intros n; simpl; [by split_and!; [|apply N.le_0_l|]|].
  destruct (N.leb_spec (len_utf8 c) n) as [Hc|Hc].
  - specialize (IH (n - len_utf8 c)%N). destruct (split_at _ s) as [p r]. destruct IH as (-> & Hp & Hr).
    split_and!; [done|rewrite str_len_cons; lia|]. destruct r; [done|]. rewrite str_len_cons. lia.
  - split_and!; [done|rewrite ?str_len_nil; lia|rewrite ?str_len_nil; lia].
Qed.

Lemma longest_suffix_spec n s :
  exists mid, s = mid ++ longest_suffix n s /\ (str_len (longest_suffix n s) <= n)%N /\
  match last mid with None => True | Some c => (n < len_utf8 c + str_len (longest_suffix n s))%N end.
Proof.
  induction s as [|c s IH]; [exists []; split_and!; [done|cbn [longest_suffix]; rewrite str_len_nil; lia|done]|].
  simpl longest_suffix. destruct (N.leb_spec (str_len (c :: s)) n) as [Hs|Hs]; [by exists []|].
  destruct IH as (mid & Hmid & Hl & Hm). exists (c :: mid). split_and!; [by rewrite Hmid at 1|done|].
  destruct mid as [|d mid]; simpl in *; [|done]. rewrite str_len_cons in Hs. rewrite <- Hmid. lia.
Qed.

Lemma longest_suffix_length n s : length (longest_suffix n s) <= length s.
Proof.
  destruct (longest_suffix_spec n s) as (mid & Hmid & _). apply (f_equal length) in Hmid. rewrite length_app in Hmid. lia.
Qed.

(** No character of [s], read from the index [idx], ends within the first [b] bytes. *)
Definition past (b idx : N) (s : str) : Prop := match s with [] => True | c :: _ => (b < idx + len_utf8 c)%N end.

Lemma past_next b idx c s : past b idx (c :: s) -> past b (idx + len_utf8 c) s.
Proof. destruct s as [|d s]; simpl; [done|]. pose proof (len_utf8_pos d). lia. Qed.

Lemma split_loop_started b t idx s st :
  past b idx s -> (t <= idx)%N -> suffix_started st = true -> split_loop b t idx s st = st.
Proof.
  revert idx. induction s as [|c s IH]; intros idx Hp Ht Hst; [done|]. simpl. unfold split_step. rewrite Hst.
  simpl in Hp. destruct (N.leb_spec (idx + len_utf8 c) b); [lia|]. destruct (N.leb_spec t idx); [|lia].
  apply IH; [by apply past_next|lia|done].
Qed.

Lemma split_loop_past b e idx s st total :
  past b idx s -> total = (idx + str_len s)%N -> suffix_started st = false -> suffix_start st = total ->
  (removed_chars st <= usize_max)%N ->
  let after := longest_suffix e s in
  split_loop b (total - e) idx s st =
  mkSplitState (prefix_end st) (total - str_len after)
    (N.min (removed_chars st + N.of_nat (length s - length after)) usize_max) (negb (is_empty after)).
Proof.
  revert idx st. induction s as [|c s IH]; intros idx st Hp Htot Hst Hss Hrem.
  { destruct st. simpl in *. subst. f_equal; rewrite ?str_len_nil; lia. }
  cbv zeta. simpl longest_suffix. simpl split_loop. unfold split_step. rewrite Hst. pose proof Hp as Hp'. simpl in Hp'.
  destruct (N.leb_spec (idx + len_utf8 c) b); [lia|].
  destruct (N.leb_spec (total - e) idx) as [Ht|Ht], (N.leb_spec (str_len (c :: s)) e) as [He|He]; try lia.
  - rewrite split_loop_started; [|by apply past_next|lia|done]. rewrite Nat.sub_diag.
    simpl is_empty. simpl negb. f_equal; lia.
  - rewrite str_len_cons in Htot. rewrite IH; [|by apply past_next|lia|done|done|simpl; unfold usize_add; lia]. simpl.
    pose proof (longest_suffix_length e s). f_equal. unfold usize_add. lia.
Qed.

Lemma split_loop_prefix b t idx s st :
  prefix_end st = idx -> (idx <= b)%N ->
  let '(p, r) := split_at (b - idx) s in
  split_loop b t idx s st =
  split_loop b t (idx + str_len p) r (mkSplitState (idx + str_len p) (suffix_start st) (removed_chars st) (suffix_started st)).
Proof.
  revert idx st. induction s as [|c s IH]; intros idx st Hst Hb; simpl.
  { rewrite ?str_len_nil, ?N.add_0_r. destruct st. simpl in *. by subst. }
  destruct (N.leb_spec (len_utf8 c) (b - idx)) as [Hc|Hc].
  - unfold split_step at 1. destruct (N.leb_spec (idx + len_utf8 c) b); [|lia].
    specialize (IH (idx + len_utf8 c)%N (mkSplitState (idx + len_utf8 c) (suffix_start st) (removed_chars st) (suffix_started st))).
    replace (b - (idx + len_utf8 c))%N with (b - idx - len_utf8 c)%N in IH by lia.
    destruct (split_at _ s) as [p r]. rewrite IH by (simpl; lia). by rewrite str_len_cons, N.add_assoc.
  - rewrite ?str_len_nil, ?N.add_0_r. destruct st. simpl in *. by subst.
Qed.

(** The loop finds the longest ends of the text that fit the budgets (the end, of what the
    beginning leaves), and counts the characters between them. *)
Lemma split_points_spec s b e :
  exists mid, let before := longest_prefix b s in let after := longest_suffix e (snd (split_at b s)) in
  s = before ++ mid ++ after /\
  split_points s b e = (N.min (N.of_nat (length mid)) usize_max, str_len before, str_len (before ++ mid)).
Proof.
  unfold split_points, longest_prefix. pose proof (split_at_spec b s) as Hsp.
  pose proof (split_loop_prefix b (str_len s - e) 0 s (mkSplitState 0 (str_len s) 0 false) eq_refl (N.le_0_l _)) as Hl.
  rewrite N.sub_0_r in Hl. destruct (split_at b s) as [p r]. destruct Hsp as (-> & Hp & Hr).
  assert (past b (0 + str_len p) r) as Hpast by (unfold past; destruct r; [done|lia]).
  rewrite (split_loop_past b e (0 + str_len p) r _ (str_len (p ++ r)) Hpast) in Hl
    by (simpl; rewrite ?str_len_app; first [lia | done]).
  cbv zeta in Hl. cbn [suffix_start removed_chars prefix_end] in Hl. rewrite Hl. clear Hl.
  cbn [fst snd prefix_end suffix_start removed_chars].
  destruct (longest_suffix_spec e r) as (mid & Hmid & _). exists mid.
  set (after := longest_suffix e r) in *. rewrite !N.add_0_l. clearbody after. subst r. rewrite !str_len_app, !length_app.
  split; [done|].
  destruct (N.ltb_spec (str_len p + (str_len mid + str_len after) - str_len after) (str_len p)); [lia|].
  f_equal; [f_equal; f_equal; lia|lia].
Qed.

Lemma split_string_spec s b e :
  exists mid, let before := longest_prefix b s in let after := longest_suffix e (snd (split_at b s)) in
  s = before ++ mid ++ after /\
  split_string s b e = (N.min (N.of_nat (length mid)) usize_max, before, after).
Proof.
  destruct (split_points_spec s b e) as (mid & Hs & Hp). exists mid. split; [exact Hs|].
  unfold split_string. destruct (is_empty s) eqn:Es.
  { apply is_empty_true in Es. subst s. simpl in *. by destruct mid. }
  rewrite Hp. clear Hp Es. revert Hs. generalize (longest_prefix b s) (longest_suffix e (snd (split_at b s))).
  intros before after ->. rewrite split_at_app, (app_assoc before), split_at_app. done.
Qed.

(** ** Sizes of what is produced *)

#[local] Arguments N.mul : simpl never.
#[local] Arguments N.add : simpl never.
#[local] Arguments N.sub : simpl never.
#[local] Arguments N.div : simpl never.

Lemma str_len_marker use_tokens n : (str_len (format_truncation_marker use_tokens n) <= 43)%N.
Proof.
  unfold format_truncation_marker. rewrite !str_len_app. pose proof (str_len_decimal n).
  change (str_len [ELLIPSIS]) with 3%N.
  destruct use_tokens; [change (str_len (lit _)) with 17%N|change (str_len (lit _)) with 16%N]; lia.
Qed.

Lemma truncate_with_byte_estimate_bound s max_bytes use_tokens :
  (str_len (truncate_with_byte_estimate s max_bytes use_tokens) <= max_bytes + 43)%N.
Proof.
  unfold truncate_with_byte_estimate. destruct (is_empty s); [rewrite str_len_nil; lia|].
  pose proof (str_len_marker use_tokens) as Hm.
  destruct (max_bytes =? 0)%N; [etrans; [apply Hm|lia]|]. destruct (N.leb_spec (str_len s) max_bytes); [lia|].
  unfold split_budget. destruct (split_string_spec s (max_bytes / 2) (max_bytes - max_bytes / 2)) as (mid & _ & ->).
  unfold assemble_truncated_output. rewrite !str_len_app. unfold longest_prefix.
  pose proof (split_at_spec (max_bytes / 2) s) as Hp. destruct (split_at _ s) as [p r]. destruct Hp as (_ & Hp & _).
  destruct (longest_suffix_spec (max_bytes - max_bytes / 2) r) as (_ & _ & Hs & _). simpl fst. simpl snd.
  pose proof (N.Div0.div_le_upper_bound max_bytes 2 max_bytes ltac:(lia)). etrans; [apply N.add_le_mono, N.add_le_mono; [exact Hp|apply Hm|exact Hs]|]. lia.
Qed.

(** The bytes that a limit of a policy stands for. *)
Definition limit_bytes (policy : TruncationPolicy) (limit : N) : N :=
  match policy with PolicyBytes _ => limit | PolicyTokens _ => (4 * limit)%N end.

Lemma truncate_text_bound text policy limit :
  (str_len (truncate_text text (with_limit policy limit)) <= limit_bytes policy limit + 43)%N.
Proof.
  destruct policy as [b|t]; simpl; [apply truncate_with_byte_estimate_bound|].
  unfold truncate_middle_with_token_budget. destruct (is_empty text); [cbn [fst]; rewrite str_len_nil; lia|].
  assert (approx_bytes_for_tokens limit <= 4 * limit)%N as Hl by (unfold approx_bytes_for_tokens, usize_mul, APPROX_BYTES_PER_TOKEN; lia).
  destruct (_ && _) eqn:E; simpl.
  - apply andb_true_iff in E as [_ E]. apply N.leb_le in E. lia.
  - pose proof (truncate_with_byte_estimate_bound text (approx_bytes_for_tokens limit) true).
    destruct (str_eqb _ _); simpl; lia.
Qed.

(** Sizes of strings are at most [isize::MAX]; what the token estimate needs is less. *)
Definition text_fits (item : FunctionCallOutputContentItem) : Prop :=
  match item with OutInputText text => (str_len text + 3 <= usize_max)%N | _ => True end.

Lemma str_len_cost policy text : text_fits (OutInputText text) -> (str_len text <= limit_bytes policy (text_cost policy text))%N.
Proof.
  simpl. intros Hf. destruct policy as [b|t]; simpl; [lia|]. unfold approx_token_count, usize_add, APPROX_BYTES_PER_TOKEN.
  replace (N.min _ _) with (str_len text + 3)%N by lia. pose proof (N.div_mod (str_len text + 3) 4 ltac:(done)).
  pose proof (N.mod_lt (str_len text + 3) 4 ltac:(done)). lia.
Qed.

Lemma limit_bytes_add policy a b : limit_bytes policy (a + b) = (limit_bytes policy a + limit_bytes policy b)%N.
Proof. destruct policy; simpl; lia. Qed.

Definition item_text_len (item : FunctionCallOutputContentItem) : N :=
  match item with OutInputText text => str_len text | _ => 0%N end.
Definition items_text_len (items : list FunctionCallOutputContentItem) : N := foldr (fun item n => item_text_len item + n)%N 0%N items.

Lemma items_text_len_app a b : items_text_len (a ++ b) = (items_text_len a + items_text_len b)%N.
Proof. unfold items_text_len. induction a as [|x a IH]; simpl; [done|]. rewrite IH. lia. Qed.

(** Images and encrypted content cost nothing. *)
Definition free_item (item : FunctionCallOutputContentItem) : bool :=
  match item with OutInputImage _ _ | OutEncryptedContent _ => true | _ => false end.
Definition free_items (items : list FunctionCallOutputContentItem) : list FunctionCallOutputContentItem :=
  filter (fun item => free_item item = true) items.

Section bounds.
Variable estimate : str -> N.

Definition item_cost (policy : TruncationPolicy) (item : FunctionCallOutputContentItem) : N :=
  match item with
  | OutInputText text => text_cost policy text
  | OutInputAudio url =>
      match policy with PolicyBytes _ => approx_bytes_for_tokens (estimate url) | PolicyTokens _ => estimate url end
  | _ => 0%N
  end.

(** What the loop keeps, with what it may still spend, is within the limit; only the text
    that is cut may exceed it, by the size of a marker. *)
Definition within_limit (policy : TruncationPolicy) (limit : N) (st : ItemsState) : Prop :=
  (items_text_len (out_items st) + limit_bytes policy (remaining_budget st) <=
   limit_bytes policy limit + if (remaining_budget st =? 0)%N then 43 else 0)%N.

Lemma truncate_item_within policy limit st item :
  text_fits item -> within_limit policy limit st -> within_limit policy limit (truncate_item estimate policy st item).
Proof.
  intros Hf. unfold within_limit. destruct st as [out rem texts audios]. simpl. intros Hst.
  assert (forall c, (c <= rem)%N -> limit_bytes policy rem = (limit_bytes policy (rem - c) + limit_bytes policy c)%N) as Hsub.
  { intros c Hc. rewrite <- limit_bytes_add. f_equal. lia. }
  destruct item as [text|url detail|url|enc]; simpl.
  - destruct (N.eqb_spec rem 0) as [->|Hr]; [done|]. destruct (N.leb_spec (text_cost policy text) rem) as [Hc|Hc].
    + simpl. rewrite items_text_len_app. simpl. pose proof (str_len_cost policy text Hf). specialize (Hsub _ Hc). lia.
    + destruct (is_empty _); simpl.
      * replace (limit_bytes policy 0) with 0%N by (by destruct policy). lia.
      * rewrite items_text_len_app. simpl. pose proof (truncate_text_bound text policy rem).
        replace (limit_bytes policy 0) with 0%N by (by destruct policy). lia.
  - rewrite items_text_len_app. simpl. lia.
  - set (cost := match policy with PolicyBytes _ => _ | PolicyTokens _ => _ end).
    destruct (N.leb_spec cost rem) as [Hc|Hc]; simpl; [|done]. rewrite items_text_len_app. simpl. specialize (Hsub _ Hc).
    destruct (N.eqb_spec (rem - cost) 0), (N.eqb_spec rem 0); lia.
  - rewrite items_text_len_app. simpl. lia.
Qed.

Lemma truncate_item_free policy st item :
  free_items (out_items (truncate_item estimate policy st item)) = free_items (out_items st) ++ free_items [item].
Proof.
  unfold free_items. destruct st as [out rem texts audios], item; simpl; repeat case_match; simpl;
    rewrite ?filter_app; simpl; rewrite ?app_nil_r; done.
Qed.

Lemma truncate_items_within policy limit items st :
  Forall text_fits items -> within_limit policy limit st ->
  within_limit policy limit (foldl (truncate_item estimate policy) st items).
Proof.
  intros Hf. revert st. induction Hf as [|item items Hi _ IH]; intros st Hst; simpl; [done|].
  by apply IH, truncate_item_within.
Qed.

Lemma truncate_items_free policy items st :
  free_items (out_items (foldl (truncate_item estimate policy) st items)) = free_items (out_items st) ++ free_items items.
Proof.
  revert st. induction items as [|item items IH]; intros st; simpl; [by rewrite app_nil_r|].
  rewrite IH, truncate_item_free, <- app_assoc. f_equal. unfold free_items. by rewrite <- filter_app.
Qed.

(** Within the budget nothing changes. *)
Lemma truncate_items_all policy items out rem texts audios :
  (foldr (fun item n => item_cost policy item + n) 0 items < rem)%N ->
  foldl (truncate_item estimate policy) (mkItemsState out rem texts audios) items =
  mkItemsState (out ++ items) (rem - foldr (fun item n => item_cost policy item + n) 0 items)%N texts audios.
Proof.
  revert out rem. induction items as [|item items IH]; intros out rem; cbn [foldr foldl]; intros Hc.
  { rewrite app_nil_r. f_equal. lia. }
  set (total := foldr _ _ items) in *.
  assert (truncate_item estimate policy (mkItemsState out rem texts audios) item =
          mkItemsState (out ++ [item]) (rem - item_cost policy item) texts audios) as ->.
  { destruct item as [text|url detail|url|enc]; simpl in *.
    - destruct (N.eqb_spec rem 0); [lia|]. destruct (N.leb_spec (text_cost policy text) rem); [done|lia].
    - by rewrite N.sub_0_r.
    - set (cost := match policy with PolicyBytes _ => _ | PolicyTokens _ => _ end) in *. destruct (N.leb_spec cost rem); [done|lia].
    - by rewrite N.sub_0_r. }
  rewrite IH by lia. rewrite <- app_assoc. f_equal. fold total. lia.
Qed.
End bounds.

Lemma str_len_omitted_marker count what : (str_len (omitted_marker count what) <= 40 + str_len (lit what))%N.
Proof.
  unfold omitted_marker. rewrite !str_len_app. pose proof (str_len_decimal count).
  change (str_len (lit "[omitted ")) with 9%N. change (str_len (lit " items ...]")) with 11%N. lia.
Qed.

(** What is left of a long text.  When a text takes more bytes than the budget, the result
    is its longest beginning that fits in half of the budget, the marker, and its longest end
    that fits in the other half: the next character on either side would not fit.  The marker
    tells the characters that are missing, or the tokens estimated from the missing bytes.
    Both cuts are between characters, so slicing the text there does not panic. *)
Theorem truncated_text_keeps_ends s max_bytes use_tokens (Hmax : (0 < max_bytes < str_len s)%N) :
  exists before mid after,
    s = before ++ mid ++ after /\
    snd (fst (split_points s (max_bytes / 2) (max_bytes - max_bytes / 2))) = str_len before /\
    snd (split_points s (max_bytes / 2) (max_bytes - max_bytes / 2)) = str_len (before ++ mid) /\
    truncate_with_byte_estimate s max_bytes use_tokens =
      before ++
      format_truncation_marker use_tokens
        (if use_tokens then approx_tokens_from_byte_count (str_len s - max_bytes) else N.min (N.of_nat (length mid)) usize_max) ++
      after /\
    (str_len before <= max_bytes / 2)%N /\ (str_len after <= max_bytes - max_bytes / 2)%N /\
    (exists c, head mid = Some c /\ max_bytes / 2 < str_len before + len_utf8 c)%N /\
    (exists c, last mid = Some c /\ max_bytes - max_bytes / 2 < len_utf8 c + str_len after)%N.
Proof.
  set (l := (max_bytes / 2)%N). set (r := (max_bytes - l)%N). assert (l <= max_bytes)%N as Hl by (apply N.Div0.div_le_upper_bound; lia).
  destruct (split_points_spec s l r) as (mid & Hs & Hp). destruct (split_string_spec s l r) as (mid' & Hs' & Hss).
  set (before := longest_prefix l s) in *. set (after := longest_suffix r _) in *.
  assert (mid' = mid) as -> by (rewrite Hs in Hs' at 1; by apply app_inv_head, app_inv_tail in Hs').
  exists before, mid, after. pose proof (split_at_spec l s) as Hpre. unfold before, longest_prefix in *. unfold after in *.
  destruct (split_at l s) as [p rest]. cbn [fst snd] in *. destruct Hpre as (Hrest & Hpl & Hnext).
  destruct (longest_suffix_spec r rest) as (mid2 & Hrest2 & Hal & Hlast).
  assert (mid2 = mid) as ->.
  { rewrite Hs in Hrest at 1. apply app_inv_head in Hrest. pose proof (eq_trans Hrest Hrest2) as Hmm. by apply app_inv_tail in Hmm. }
  assert (mid <> []) as Hmid.
  { intros ->. rewrite Hs, !str_len_app, str_len_nil in Hmax. lia. }
  split_and!; [exact Hs|by rewrite Hp|by rewrite Hp| |done|done| |].
  - unfold truncate_with_byte_estimate, split_budget. fold l r. rewrite Hss.
    destruct s; [by destruct Hmax as [_ Hm%N.nlt_0_r]|]. cbn [is_empty].
    destruct (N.eqb_spec max_bytes 0); [lia|]. destruct (N.leb_spec (str_len (n :: s)) max_bytes); [lia|].
    unfold assemble_truncated_output, removed_units. done.
  - destruct mid as [|c mid]; [done|]. exists c. split; [done|]. rewrite Hrest2 in Hnext. exact Hnext.
  - destruct (last mid) as [c|] eqn:E; [by exists c|]. by apply last_None in E.
Qed.

Lemma truncated_text_keeps_ends_witness :
  exists before mid after, lit "abc" ++ [233; 233; 20013]%N = before ++ mid ++ after /\
    truncate_middle_chars (lit "abc" ++ [233; 233; 20013]%N) 9 =
      before ++ format_truncation_marker false (N.min (N.of_nat (length mid)) usize_max) ++ after /\ str_len before = 3%N.
Proof.
  destruct (truncated_text_keeps_ends (lit "abc" ++ [233; 233; 20013]%N) 9 false) as (before & mid & after & Hs & Hb & _ & Ht & _);
    [vm_compute; done|].
  exists before, mid, after. split; [exact Hs|]. split; [exact Ht|]. rewrite <- Hb. vm_compute. reflexivity.
Defined.

Lemma truncated_items_text_len estimate items policy :
  Forall text_fits items ->
  (items_text_len (truncate_function_output_items_with_policy estimate items policy) <=
   limit_bytes policy (policy_limit policy) + 134)%N.
Proof.
  intros Hf. unfold truncate_function_output_items_with_policy. set (st0 := mkItemsState [] (policy_limit policy) 0 0).
  set (st := foldl _ st0 items). assert (within_limit policy (policy_limit policy) st) as Hw.
  { apply truncate_items_within; [done|]. unfold within_limit, st0. simpl. lia. }
  unfold within_limit in Hw. rewrite !items_text_len_app.
  pose proof (str_len_omitted_marker (omitted_text_items st) " text") as H1.
  pose proof (str_len_omitted_marker (omitted_audio_items st) " audio") as H2.
  change (str_len (lit " text")) with 5%N in H1. change (str_len (lit " audio")) with 6%N in H2.
  destruct (0 <? omitted_text_items st)%N, (0 <? omitted_audio_items st)%N; simpl; destruct (remaining_budget st =? 0)%N; lia.
Qed.

Lemma truncated_items_free estimate items policy :
  free_items (truncate_function_output_items_with_policy estimate items policy) = free_items items.
Proof.
  unfold truncate_function_output_items_with_policy, free_items. set (st := foldl _ _ items).
  rewrite !filter_app. fold (free_items (out_items st)). unfold st. rewrite truncate_items_free.
  destruct (0 <? _)%N, (0 <? _)%N; simpl; by rewrite !app_nil_r.
Qed.

(** The output of a tool stays within its budget.  Whatever texts, images, audio and
    encrypted parts a tool returned, the texts that remain take at most the bytes of the
    budget and those of three markers; no image and no encrypted part is lost or reordered,
    and an output that costs less than the budget is left as it is. *)
Theorem truncated_output_within_budget estimate items policy (Hf : Forall text_fits items) :
  let out := truncate_function_output_items_with_policy estimate items policy in
  (items_text_len out <= limit_bytes policy (policy_limit policy) + 134)%N /\
  free_items out = free_items items /\
  ((foldr (fun item n => item_cost estimate policy item + n) 0 items < policy_limit policy)%N -> out = items).
Proof.
  split; [by apply truncated_items_text_len|]. split; [apply truncated_items_free|].
  intros Hc. unfold truncate_function_output_items_with_policy. rewrite truncate_items_all by done. simpl. by rewrite app_nil_r.
Qed.

Lemma truncated_output_within_budget_witness :
  let items := [OutInputText (lit "some output of a tool"); OutInputImage (lit "data:") None; OutInputText (lit "more")] in
  free_items (truncate_function_output_items_with_policy (fun _ => 0%N) items (PolicyBytes 8)) = [OutInputImage (lit "data:") None] /\
  (items_text_len (truncate_function_output_items_with_policy (fun _ => 0%N) items (PolicyBytes 8)) <= 142)%N.
Proof.
  intros items. destruct (truncated_output_within_budget (fun _ => 0%N) items (PolicyBytes 8)) as (Hb & Hfree & _).
  { repeat constructor; vm_compute; done. }
  split; [exact Hfree|exact Hb].
Defined.
