(* ===== verification/ContextFragments.v ===== *)
(** * Context fragments

    The messages of a conversation that the program itself injects as context, and how they
    are recognised later: [context-fragments/src/fragment.rs] and [additional_context.rs],
    the fragments of [core/src/context], and the predicates on message contents of
    [core/src/event_mapping.rs].

    Parsing the XML of a hook prompt and the JSON of an inter-agent message is the interface
    [FragmentDeps]. *)

From stdpp Require Import base list strings sets.
From Stdlib Require Import NArith.
From S2P Require Import Prelude ResponseItems Truncate.

Class FragmentDeps := {
  (** [from_xml_str::<HookPromptXml>]: the text and the run id. *)
  from_xml_str : str -> option (str * str);
  (** [serde_json::from_str::<InterAgentCommunication>] succeeds. *)
  is_inter_agent_json : str -> bool;
}.

(** ** [fragment.rs] *)

Definition matches_marked_text (start_marker end_marker text : str) : bool :=
  if is_empty start_marker || is_empty end_marker then false
  else
    let trimmed := trim_start text in
    let starts_with_marker := is_some_and (get_to (str_len start_marker) trimmed) (fun c => eq_ignore_ascii_case c start_marker) in
    let trimmed := trim_end trimmed in
    let ends_with_marker :=
      is_some_and (get_from (str_len trimmed - str_len end_marker) trimmed) (fun c => eq_ignore_ascii_case c end_marker) in
    starts_with_marker && ends_with_marker.

Definition render_fragment (start_marker body end_marker : str) : str :=
  if is_empty start_marker && is_empty end_marker then body else start_marker ++ body ++ end_marker.

(** ** The fragments with the role of the user

    With the data their bodies are made of; where that is rendered from other structures
    (the environments, JSON, lists of plugins) the rendered text. *)

Inductive UserFragment :=
| UserInstructions (directory : option str) (text : str)
| EnvironmentsFragment (rendered : str)
| AdditionalContextUserFragment (key value : str)
| SkillInstructions (name path : str) (resource_access : option str) (contents : str)
| UserShellCommand (command exit_code duration output : str)
| TurnAborted (guidance : str)
| SubagentNotification (notification : str)
| InternalModelContextFragment (source body : str)
| RecommendedPluginsInstructions (plugins : list (str * str)).

Definition CONTEXT_START_MARKER : str := lit "<codex_internal_context".
Definition CONTEXT_END_MARKER : str := lit "</codex_internal_context>".
Definition QUOTE : N := 34.
Definition SOURCE_ATTR_START : str := lit " source=" ++ [QUOTE].
Definition SOURCE_ATTR_END : str := QUOTE :: lit ">".
Definition ADDITIONAL_CONTEXT_START_MARKER_PREFIX : str := lit "<external_".
Definition ADDITIONAL_CONTEXT_END_MARKER_SUFFIX : str := lit ">".

Definition user_instructions_markers : str * str := (lit "# AGENTS.md instructions", lit "</INSTRUCTIONS>").
Definition environment_context_markers : str * str := (lit "<environment_context>", lit "</environment_context>").
Definition skill_markers : str * str := (lit "<skill>", lit "</skill>").
Definition user_shell_command_markers : str * str := (lit "<user_shell_command>", lit "</user_shell_command>").
Definition turn_aborted_markers : str * str := (lit "<turn_aborted>", lit "</turn_aborted>").
Definition subagent_notification_markers : str * str := (lit "<subagent_notification>", lit "</subagent_notification>").
Definition recommended_plugins_markers : str * str := (lit "<recommended_plugins>", lit "</recommended_plugins>").

Definition markers (f : UserFragment) : str * str :=
  match f with
  | UserInstructions _ _ => user_instructions_markers
  | EnvironmentsFragment _ => environment_context_markers
  | AdditionalContextUserFragment _ _ => (ADDITIONAL_CONTEXT_START_MARKER_PREFIX, ADDITIONAL_CONTEXT_END_MARKER_SUFFIX)
  | SkillInstructions _ _ _ _ => skill_markers
  | UserShellCommand _ _ _ _ => user_shell_command_markers
  | TurnAborted _ => turn_aborted_markers
  | SubagentNotification _ => subagent_notification_markers
  | InternalModelContextFragment _ _ => (CONTEXT_START_MARKER, CONTEXT_END_MARKER)
  | RecommendedPluginsInstructions _ => recommended_plugins_markers
  end.

Definition MAX_ADDITIONAL_CONTEXT_VALUE_TOKENS : N := 1000.
Definition additional_context_body (key value : str) : str :=
  let value := fst (truncate_middle_with_token_budget value MAX_ADDITIONAL_CONTEXT_VALUE_TOKENS) in
  key ++ lit ">" ++ value ++ lit "</external_" ++ key.

Definition RECOMMENDED_PLUGINS_INTRO : str := lit "Here is a list of plugins that are available but not installed.".

Definition user_instructions_body (directory : option str) (text : str) : str :=
  let directory := match directory with Some d => lit " for " ++ d | None => [] end in
  directory ++ [LF; LF] ++ lit "<INSTRUCTIONS>" ++ [LF] ++ text ++ [LF].

Definition skill_body (name path : str) (resource_access : option str) (contents : str) : str :=
  let resource_access :=
    match resource_access with
    | Some metadata => [LF] ++ lit "<resource_access>" ++ metadata ++ lit "</resource_access>"
    | None => []
    end in
  [LF] ++ lit "<name>" ++ name ++ lit "</name>" ++ [LF] ++ lit "<path>" ++ path ++ lit "</path>" ++ resource_access ++ [LF] ++
  contents ++ [LF].

Definition user_shell_command_body (command exit_code duration output : str) : str :=
  [LF] ++ lit "<command>" ++ [LF] ++ command ++ [LF] ++ lit "</command>" ++ [LF] ++ lit "<result>" ++ [LF] ++
  lit "Exit code: " ++ exit_code ++ [LF] ++ lit "Duration: " ++ duration ++ lit " seconds" ++ [LF] ++ lit "Output:" ++ [LF] ++
  output ++ [LF] ++ lit "</result>" ++ [LF].

Definition turn_aborted_body (guidance : str) : str := [LF] ++ guidance ++ [LF].
Definition subagent_notification_body (notification : str) : str := [LF] ++ notification ++ [LF].
Definition internal_context_body (source body : str) : str :=
  lit " source=" ++ [QUOTE] ++ source ++ QUOTE :: lit ">" ++ [LF] ++ body ++ [LF].

Definition recommended_plugins_body (plugins : list (str * str)) : str :=
  let plugins := join [LF] ((fun '(name, id) => lit "- " ++ name ++ lit " (" ++ id ++ lit ")") <$> plugins) in
  [LF] ++ RECOMMENDED_PLUGINS_INTRO ++ [LF; LF] ++ plugins ++ [LF].

Definition fragment_body (f : UserFragment) : str :=
  match f with
  | UserInstructions directory text => user_instructions_body directory text
  | EnvironmentsFragment rendered => rendered
  | AdditionalContextUserFragment key value => additional_context_body key value
  | SkillInstructions name path resource_access contents => skill_body name path resource_access contents
  | UserShellCommand command exit_code duration output => user_shell_command_body command exit_code duration output
  | TurnAborted guidance => turn_aborted_body guidance
  | SubagentNotification notification => subagent_notification_body notification
  | InternalModelContextFragment source body => internal_context_body source body
  | RecommendedPluginsInstructions plugins => recommended_plugins_body plugins
  end.

Definition render (f : UserFragment) : str := let '(s, e) := markers f in render_fragment s (fragment_body f) e.

(** ** How they are recognised *)

Definition matches_markers (m : str * str) (text : str) : bool := matches_marked_text (fst m) (snd m) text.

Definition additional_context_matches_text (text : str) : bool :=
  match strip_prefix ADDITIONAL_CONTEXT_START_MARKER_PREFIX (trim text) with
  | None => false
  | Some rest =>
      match split_once_str ADDITIONAL_CONTEXT_END_MARKER_SUFFIX rest with
      | None => false
      | Some (key, value_and_close) => ends_with (lit "</external_" ++ key ++ lit ">") value_and_close
      end
  end.

Definition is_ascii_lowercase (c : N) : bool := ((97 <=? c) && (c <=? 122))%N.

Definition is_valid_source (source : str) : bool :=
  match source with
  | [] => false
  | first :: chars =>
      is_ascii_lowercase first && forallb (fun ch => is_ascii_lowercase ch || is_ascii_digit ch || char_eqb ch 95) chars
  end.

Definition matches_legacy_goal_context (text : str) : bool :=
  starts_with (lit "<goal_context>") text && ends_with (lit "</goal_context>") text.

Definition internal_context_matches_text (text : str) : bool :=
  let trimmed := trim text in
  if matches_legacy_goal_context trimmed then true
  else
    match strip_prefix CONTEXT_START_MARKER trimmed with
    | None => false
    | Some rest =>
        match strip_prefix SOURCE_ATTR_START rest with
        | None => false
        | Some rest =>
            match split_once_str SOURCE_ATTR_END rest with
            | None => false
            | Some (source, body_and_close) => is_valid_source source && ends_with CONTEXT_END_MARKER body_and_close
            end
        end
    end.

Definition legacy_process_limit_matches_text (text : str) : bool :=
  starts_with (lit "Warning: The maximum number of unified exec processes you can keep open is") (trim text).
Definition legacy_apply_patch_matches_text (text : str) : bool :=
  starts_with (lit "Warning: apply_patch was requested via ") (trim text) &&
  ends_with (lit "Use the apply_patch tool instead of exec_command.") (trim text).
Definition legacy_model_mismatch_matches_text (text : str) : bool :=
  starts_with (lit "Warning: Your account was flagged for potentially high-risk cyber activity") (trim text).

Definition CONTEXTUAL_USER_FRAGMENT_MATCHERS : list (str -> bool) :=
  [ matches_markers user_instructions_markers; matches_markers environment_context_markers; additional_context_matches_text;
    matches_markers skill_markers; matches_markers user_shell_command_markers; matches_markers turn_aborted_markers;
    matches_markers subagent_notification_markers; internal_context_matches_text; matches_markers recommended_plugins_markers;
    legacy_process_limit_matches_text; legacy_apply_patch_matches_text; legacy_model_mismatch_matches_text ].

Definition is_standard_contextual_user_text (text : str) : bool :=
  existsb (fun matches_text => matches_text text) CONTEXTUAL_USER_FRAGMENT_MATCHERS.

Section deps.
Context {deps : FragmentDeps}.

Definition parse_hook_prompt_fragment (text : str) : option (str * str) :=
  '(text, hook_run_id) ← from_xml_str (trim text);
  if is_empty (trim hook_run_id) then None else Some (text, hook_run_id).

Definition is_contextual_user_fragment (content_item : ContentItem) : bool :=
  match content_item with
  | InputText text =>
      match parse_hook_prompt_fragment text with Some _ => true | None => is_standard_contextual_user_text text end
  | _ => false
  end.

Definition is_contextual_user_message_content (message : list ContentItem) : bool := existsb is_contextual_user_fragment message.

Definition is_message_content (content : list ContentItem) : bool :=
  match content with
  | [InputText text] | [OutputText text] => is_inter_agent_json text
  | _ => false
  end.
End deps.

(** ** Developer messages *)

Definition CONTEXTUAL_DEVELOPER_PREFIXES : list str :=
  [ lit "<permissions instructions>"; lit "Approved command prefix saved:"; lit "<model_switch>"; lit "<apps_instructions>";
    lit "<collaboration_mode>"; lit "<multi_agent_mode>"; lit "<environments_instructions>"; lit "<git_attribution>";
    lit "<plugins_instructions>"; lit "<realtime_conversation>"; lit "<skills_instructions>"; lit "<tools>";
    lit "<personality_spec>"; lit "<token_budget>"; lit "<context_window>"; lit "<context_window_guidance>"; lit "<rollout_budget>" ].

Definition is_contextual_dev_fragment (content_item : ContentItem) : bool :=
  match content_item with
  | InputText text =>
      let trimmed := trim_start text in
      existsb (fun prefix => is_some_and (get_to (str_len prefix) trimmed) (fun candidate => eq_ignore_ascii_case candidate prefix))
        CONTEXTUAL_DEVELOPER_PREFIXES
  | _ => false
  end.

Definition is_contextual_dev_message_content (message : list ContentItem) : bool := existsb is_contextual_dev_fragment message.
Definition has_non_contextual_dev_message_content (message : list ContentItem) : bool :=
  existsb (fun content_item => negb (is_contextual_dev_fragment content_item)) message.

Definition model_switch_matches_text (text : str) : bool := matches_marked_text (lit "<model_switch>") (lit "</model_switch>") text.

(** ** Recognition of what was rendered *)

Lemma eq_ignore_ascii_case_refl s : eq_ignore_ascii_case s s = true.
Proof. unfold eq_ignore_ascii_case, str_eqb. by rewrite bool_decide_eq_true. Qed.

Lemma get_to_app a b : get_to (str_len a) (a ++ b) = Some a.
Proof. unfold get_to. by rewrite is_char_boundary_app, split_at_app. Qed.

Lemma get_from_app a b : get_from (str_len a) (a ++ b) = Some b.
Proof. unfold get_from. by rewrite is_char_boundary_app, split_at_app. Qed.

(** A marker that white space does not begin or end. *)
Definition solid (s : str) : bool :=
  is_some_and (head s) (fun c => negb (is_whitespace c)) && is_some_and (last s) (fun c => negb (is_whitespace c)).

Lemma solid_spec s : solid s = true -> exists a b, head s = Some a /\ last s = Some b /\ is_whitespace a = false /\ is_whitespace b = false.
Proof.
  unfold solid, is_some_and. destruct (head s) as [a|], (last s) as [b|]; simpl; rewrite ?andb_false_r; try done.
  intros [Ha Hb]%andb_true_iff. apply negb_true_iff in Ha, Hb. by exists a, b.
Qed.

Lemma trim_marked s body e : solid s = true -> solid e = true -> trim_start (s ++ body ++ e) = s ++ body ++ e /\
  trim_end (s ++ body ++ e) = s ++ body ++ e.
Proof.
  intros (a & _ & Ha & _ & Hwa & _)%solid_spec (_ & b & _ & Hb & _ & Hwb)%solid_spec. split.
  - apply (trim_start_id _ a); [|done]. destruct s; [done|]. done.
  - apply (trim_end_id _ b); [|done]. rewrite app_assoc, last_app, Hb. done.
Qed.

Lemma matches_marked_render s body e : solid s = true -> solid e = true -> matches_marked_text s e (s ++ body ++ e) = true.
Proof.
  intros Hs He. unfold matches_marked_text. destruct (trim_marked s body e Hs He) as [-> ->].
  assert (is_empty s = false) as -> by (by destruct s). assert (is_empty e = false) as -> by (by destruct e). simpl.
  rewrite get_to_app. simpl. rewrite eq_ignore_ascii_case_refl. rewrite app_assoc.
  replace (str_len ((s ++ body) ++ e) - str_len e)%N with (str_len (s ++ body)) by (rewrite (str_len_app (s ++ body)); lia).
  rewrite get_from_app. simpl. by rewrite eq_ignore_ascii_case_refl.
Qed.

Lemma trim_rendered s body e : solid s = true -> solid e = true -> trim (s ++ body ++ e) = s ++ body ++ e.
Proof. intros Hs He. unfold trim. by destruct (trim_marked s body e Hs He) as [-> ->]. Qed.

Lemma ends_with_app p s : ends_with p (s ++ p) = true.
Proof. unfold ends_with. destruct (strip_suffix p (s ++ p)) eqn:E; [done|]. by rewrite (proj2 (strip_suffix_Some p (s ++ p) s) eq_refl) in E. Qed.

Lemma split_once_str_here p s r : strip_prefix p s = Some r -> split_once_str p s = Some ([], r).
Proof. intros Hp. destruct s; cbn [split_once_str]; by rewrite Hp. Qed.

Lemma split_once_str_first c rest s t : c ∉ s -> split_once_str (c :: rest) (s ++ (c :: rest) ++ t) = Some (s, t).
Proof.
  induction s as [|d s IH]; intros Hc.
  - apply split_once_str_here. exact (strip_prefix_app (c :: rest) t).
  - apply not_elem_of_cons in Hc as [Hd Hs]. change ((d :: s) ++ (c :: rest) ++ t) with (d :: (s ++ (c :: rest) ++ t)). cbn [split_once_str].
    rewrite strip_prefix_head_ne by done. by rewrite IH.
Qed.

(** The keys and sources the fragments are built with. *)
Definition fragment_ok (f : UserFragment) : bool :=
  match f with
  | AdditionalContextUserFragment key _ => negb (contains_char 62 key)
  | InternalModelContextFragment source _ => is_valid_source source
  | _ => true
  end.

Lemma render_eq f : render f = fst (markers f) ++ fragment_body f ++ snd (markers f).
Proof. destruct f; reflexivity. Qed.

Lemma additional_context_recognised key value :
  62%N ∉ key -> additional_context_matches_text (render (AdditionalContextUserFragment key value)) = true.
Proof.
  intros Hk. rewrite render_eq. cbn [markers fst snd].
  unfold additional_context_matches_text. rewrite trim_rendered by done. rewrite strip_prefix_app.
  unfold fragment_body, additional_context_body. set (v := fst _). rewrite <- !app_assoc.
  unfold ADDITIONAL_CONTEXT_END_MARKER_SUFFIX. change (lit ">") with [62%N].
  rewrite (split_once_str_first 62 [] key) by done. rewrite (app_assoc (lit "</external_")), app_assoc. 
  rewrite <- (app_assoc _ key). rewrite <- app_assoc. rewrite <- (app_assoc (lit "</external_")). apply ends_with_app.
Qed.

Lemma valid_source_no_quote source : is_valid_source source = true -> QUOTE ∉ source.
Proof.
  destruct source as [|c s]; [done|]. simpl. intros [Hc Hs]%andb_true_iff [<-|Hq]%elem_of_cons; [done|].
  rewrite forallb_forall in Hs. apply list_elem_of_In, Hs in Hq. done.
Qed.

Lemma internal_context_recognised source body :
  is_valid_source source = true -> internal_context_matches_text (render (InternalModelContextFragment source body)) = true.
Proof.
  intros Hs. rewrite render_eq. cbn [markers fst snd]. unfold internal_context_matches_text.
  rewrite trim_rendered by done. destruct (matches_legacy_goal_context _); [done|].
  rewrite strip_prefix_app.
  assert (fragment_body (InternalModelContextFragment source body) ++ CONTEXT_END_MARKER =
          SOURCE_ATTR_START ++ source ++ (QUOTE :: lit ">") ++ ([LF] ++ body ++ [LF]) ++ CONTEXT_END_MARKER) as ->.
  { unfold fragment_body, internal_context_body, SOURCE_ATTR_START. rewrite <- !app_assoc. do 3 f_equal.
    change (QUOTE :: lit ">" ++ [LF] ++ body ++ [LF]) with ((QUOTE :: lit ">") ++ [LF] ++ body ++ [LF]). by rewrite <- !app_assoc. }
  rewrite strip_prefix_app. unfold SOURCE_ATTR_END.
  rewrite (split_once_str_first QUOTE (lit ">") source) by (by apply valid_source_no_quote).
  rewrite Hs. simpl. apply (ends_with_app CONTEXT_END_MARKER ([LF] ++ body ++ [LF])).
Qed.

Section recognition.
Context {deps : FragmentDeps}.

(** What the program injects as context it recognises as context.  Every fragment, however
    its parts read, is found again in the history by its markers, so that no injected message
    counts as an instruction of the user. *)
Theorem rendered_fragments_are_contextual f rest (Hok : fragment_ok f = true) :
  is_contextual_user_message_content (InputText (render f) :: rest) = true.
Proof.
  unfold is_contextual_user_message_content. cbn [existsb is_contextual_user_fragment].
  apply orb_true_iff. left. destruct (parse_hook_prompt_fragment (render f)); [done|].
  assert (exists m, m ∈ CONTEXTUAL_USER_FRAGMENT_MATCHERS /\ m (render f) = true) as (m & Hm & Hr).
  { destruct f; simpl in Hok;
      try (eexists; split; [|rewrite render_eq; by apply (matches_marked_render _ _ _)]; unfold CONTEXTUAL_USER_FRAGMENT_MATCHERS; set_solver).
    - exists additional_context_matches_text. split; [unfold CONTEXTUAL_USER_FRAGMENT_MATCHERS; set_solver|]. apply additional_context_recognised.
      intros Hk%contains_char_spec. by rewrite Hk in Hok.
    - exists internal_context_matches_text. split; [unfold CONTEXTUAL_USER_FRAGMENT_MATCHERS; set_solver|]. by apply internal_context_recognised. }
  apply existsb_exists. exists m. split; [by apply list_elem_of_In|done].
Qed.
End recognition.

(** A history without hook prompts and inter-agent messages. *)
Definition plain_fragments : FragmentDeps := {| from_xml_str := fun _ => None; is_inter_agent_json := fun _ => false |}.

Lemma rendered_fragments_are_contextual_witness :
  fragment_ok (InternalModelContextFragment (lit "goal") (lit "the text")) = true /\
  @is_contextual_user_message_content plain_fragments
    [InputText (render (InternalModelContextFragment (lit "goal") (lit "the text")))] = true.
Proof.
  split; [reflexivity|].
  apply (@rendered_fragments_are_contextual plain_fragments (InternalModelContextFragment (lit "goal") (lit "the text")) []).
  reflexivity.
Defined.
