(* ===== verification/Normalize.v ===== *)
(** * Normalisation of a history

    Models [core/src/context_manager/normalize.rs] over the envelopes of [history/src/lib.rs]:
    calls without output get one, outputs without call are dropped, and the content a model
    does not take is replaced.

    [error_or_panic] logs, and panics in a build with debug assertions: the operations return
    [None] for a panic and have the build as a parameter.  The UUIDs of synthetic outputs come
    from the interface [UuidOps].  Sets of call ids are [gset]s.

    Calls and outputs are related through keys ([call_key], [output_key]): a kind of call and
    a call id. *)

From stdpp Require Import base list strings gmap.
From Stdlib Require Import NArith.
From S2P Require Import Prelude ResponseItems.

(** [Uuid::new_v5] with the namespace of synthetic outputs, as text. *)
Class UuidOps := { new_v5 : str -> str }.

Section normalize.
Context {json : Json} {uuid : UuidOps}.

(** [CodexHarnessMetadata] has no fields. *)
Record ResponseItemEnvelope := mkEnvelope { env_item : ResponseItem; env_metadata : option unit }.
Definition envelope_new (item : ResponseItem) : ResponseItemEnvelope := mkEnvelope item None.

Definition with_suffix (prefix suffix : str) : str := prefix ++ lit "_" ++ suffix.

Definition synthetic_output_id (prefix : str) (item_id : option str) : option str :=
  source_id ← item_id;
  if is_empty source_id then None else Some (with_suffix prefix (new_v5 (prefix ++ lit ":" ++ source_id))).

(** ** Missing outputs *)

Definition function_output_id (item : ResponseItem) : option str :=
  match item with FunctionCallOutput _ call_id _ _ => Some call_id | _ => None end.
Definition tool_search_output_id (item : ResponseItem) : option str :=
  match item with ToolSearchOutput _ (Some call_id) _ _ _ _ => Some call_id | _ => None end.
Definition custom_tool_output_id (item : ResponseItem) : option str :=
  match item with CustomToolCallOutput _ call_id _ _ _ => Some call_id | _ => None end.

Definition collect_ids (f : ResponseItem -> option str) (items : list ResponseItemEnvelope) : gset str :=
  list_to_set (omap (fun envelope => f (env_item envelope)) items).

(** What is missing for a call, and whether that is an error. *)
Definition missing_output (function_output_ids tool_search_output_ids custom_tool_output_ids : gset str) (item : ResponseItem)
  : option (bool * ResponseItem) :=
  match item with
  | FunctionCall id _ _ _ _ call_id _ =>
      if decide (call_id ∈ function_output_ids) then None
      else Some (false, FunctionCallOutput (synthetic_output_id (lit "fco") id) call_id (payload_from_text (lit "aborted")) None)
  | ToolSearchCall id (Some call_id) _ _ _ _ =>
      if decide (call_id ∈ tool_search_output_ids) then None
      else
        Some (false, ToolSearchOutput (synthetic_output_id (lit "tso") id) (Some call_id) (lit "completed") (lit "client") [] None)
  | CustomToolCall id _ call_id _ _ _ _ =>
      if decide (call_id ∈ custom_tool_output_ids) then None
      else
        Some (true, CustomToolCallOutput (synthetic_output_id (lit "ctco") id) call_id None (payload_from_text (lit "aborted")) None)
  | LocalShellCall id (Some call_id) _ _ _ =>
      if decide (call_id ∈ function_output_ids) then None
      else Some (true, FunctionCallOutput (synthetic_output_id (lit "fco") id) call_id (payload_from_text (lit "aborted")) None)
  | _ => None
  end.

(** [error_or_panic]. *)
Definition error_or_panic (debug_assertions : bool) : option unit := if debug_assertions then None else Some ().

(** [Vec::insert], of an index within the vector. *)
Definition vec_insert {A} (idx : nat) (x : A) (v : list A) : list A := take idx v ++ x :: drop idx v.

(** The loop that collects the outputs to insert, with the indices of their calls. *)
Fixpoint collect_missing (debug : bool) (missing : ResponseItem -> option (bool * ResponseItem)) (idx : nat)
    (items : list ResponseItemEnvelope) : option (list (nat * ResponseItemEnvelope)) :=
  match items with
  | [] => Some []
  | envelope :: items =>
      match missing (env_item envelope) with
      | Some (is_error, output) =>
          _ ← (if is_error then error_or_panic debug else Some ());
          rest ← collect_missing debug missing (S idx) items;
          Some ((idx, envelope_new output) :: rest)
      | None => collect_missing debug missing (S idx) items
      end
  end.

Definition ensure_call_outputs_present (debug : bool) (items : list ResponseItemEnvelope) : option (list ResponseItemEnvelope) :=
  let missing :=
    missing_output (collect_ids function_output_id items) (collect_ids tool_search_output_id items)
      (collect_ids custom_tool_output_id items) in
  missing_outputs_to_insert ← collect_missing debug missing 0 items;
  Some (foldl (fun items '(idx, output_item) => vec_insert (idx + 1) output_item items) items (rev missing_outputs_to_insert)).

(** ** Orphan outputs *)

Definition function_call_id (item : ResponseItem) : option str :=
  match item with FunctionCall _ _ _ _ _ call_id _ => Some call_id | _ => None end.
Definition tool_search_call_id (item : ResponseItem) : option str :=
  match item with ToolSearchCall _ (Some call_id) _ _ _ _ => Some call_id | _ => None end.
Definition local_shell_call_id (item : ResponseItem) : option str :=
  match item with LocalShellCall _ (Some call_id) _ _ _ => Some call_id | _ => None end.
Definition custom_tool_call_id (item : ResponseItem) : option str :=
  match item with CustomToolCall _ _ call_id _ _ _ _ => Some call_id | _ => None end.

Definition has_match (function_call_ids tool_search_call_ids local_shell_call_ids custom_tool_call_ids : gset str)
    (item : ResponseItem) : bool :=
  match item with
  | FunctionCallOutput _ call_id _ _ => bool_decide (call_id ∈ function_call_ids) || bool_decide (call_id ∈ local_shell_call_ids)
  | CustomToolCallOutput _ call_id _ _ _ => bool_decide (call_id ∈ custom_tool_call_ids)
  | ToolSearchOutput _ call_id _ execution _ _ =>
      if str_eqb execution (lit "server") then true
      else match call_id with Some call_id => bool_decide (call_id ∈ tool_search_call_ids) | None => true end
  | _ => true
  end.

(** [retain] with a predicate that may panic. *)
Fixpoint retain_or_panic (debug : bool) (keep : ResponseItem -> bool) (items : list ResponseItemEnvelope)
  : option (list ResponseItemEnvelope) :=
  match items with
  | [] => Some []
  | envelope :: items =>
      if keep (env_item envelope) then rest ← retain_or_panic debug keep items; Some (envelope :: rest)
      else _ ← error_or_panic debug; retain_or_panic debug keep items
  end.

Definition remove_orphan_outputs (debug : bool) (items : list ResponseItemEnvelope) : option (list ResponseItemEnvelope) :=
  retain_or_panic debug
    (has_match (collect_ids function_call_id items) (collect_ids tool_search_call_id items) (collect_ids local_shell_call_id items)
       (collect_ids custom_tool_call_id items))
    items.

(** ** Counterparts *)

Fixpoint remove_first_matching (predicate : ResponseItem -> bool) (items : list ResponseItemEnvelope) : list ResponseItemEnvelope :=
  match items with
  | [] => []
  | envelope :: items => if predicate (env_item envelope) then items else envelope :: remove_first_matching predicate items
  end.

Definition id_is (f : ResponseItem -> option str) (call_id : str) (item : ResponseItem) : bool := bool_decide (f item = Some call_id).

Definition remove_corresponding_for (item : ResponseItem) (items : list ResponseItemEnvelope) : list ResponseItemEnvelope :=
  match item with
  | FunctionCall _ _ _ _ _ call_id _ => remove_first_matching (id_is function_output_id call_id) items
  | FunctionCallOutput _ call_id _ _ =>
      if existsb (fun envelope => id_is function_call_id call_id (env_item envelope)) items
      then remove_first_matching (id_is function_call_id call_id) items
      else remove_first_matching (id_is local_shell_call_id call_id) items
  | ToolSearchCall _ (Some call_id) _ _ _ _ => remove_first_matching (id_is tool_search_output_id call_id) items
  | ToolSearchOutput _ (Some call_id) _ _ _ _ => remove_first_matching (id_is tool_search_call_id call_id) items
  | CustomToolCall _ _ call_id _ _ _ _ => remove_first_matching (id_is custom_tool_output_id call_id) items
  | CustomToolCallOutput _ call_id _ _ _ => remove_first_matching (id_is custom_tool_call_id call_id) items
  | LocalShellCall _ (Some call_id) _ _ _ => remove_first_matching (id_is function_output_id call_id) items
  | _ => items
  end.

(** ** Content the model does not take *)

Inductive InputModality := ModalityText | ModalityImage | ModalityAudio.
#[export] Instance InputModality_eq_dec : EqDecision InputModality.
Proof. solve_decision. Defined.

Definition IMAGE_CONTENT_OMITTED_PLACEHOLDER : str := lit "image content omitted because you do not support image input".
Definition AUDIO_CONTENT_OMITTED_PLACEHOLDER : str := lit "audio content omitted because you do not support audio input".

Definition map_content_items (f : FunctionCallOutputContentItem -> FunctionCallOutputContentItem) (output : FunctionCallOutputPayload)
  : FunctionCallOutputPayload :=
  match payload_body output with
  | BodyText _ => output
  | BodyContentItems items => mkPayload (BodyContentItems (f <$> items)) (payload_success output)
  end.

Definition strip_image_content (c : ContentItem) : ContentItem :=
  match c with InputImage _ _ => InputText IMAGE_CONTENT_OMITTED_PLACEHOLDER | _ => c end.
Definition strip_image_output (c : FunctionCallOutputContentItem) : FunctionCallOutputContentItem :=
  match c with OutInputImage _ _ => OutInputText IMAGE_CONTENT_OMITTED_PLACEHOLDER | _ => c end.

Definition strip_images_item (item : ResponseItem) : ResponseItem :=
  match item with
  | Message id role content phase m => Message id role (strip_image_content <$> content) phase m
  | FunctionCallOutput id call_id output m => FunctionCallOutput id call_id (map_content_items strip_image_output output) m
  | CustomToolCallOutput id call_id name output m =>
      CustomToolCallOutput id call_id name (map_content_items strip_image_output output) m
  | ImageGenerationCall id status prompt _ m => ImageGenerationCall id status prompt [] m
  | _ => item
  end.

Definition strip_audio_content (c : ContentItem) : ContentItem :=
  match c with InputAudio _ => InputText AUDIO_CONTENT_OMITTED_PLACEHOLDER | _ => c end.
Definition strip_audio_output (c : FunctionCallOutputContentItem) : FunctionCallOutputContentItem :=
  match c with OutInputAudio _ => OutInputText AUDIO_CONTENT_OMITTED_PLACEHOLDER | _ => c end.

Definition strip_audio_item (item : ResponseItem) : ResponseItem :=
  match item with
  | Message id role content phase m => Message id role (strip_audio_content <$> content) phase m
  | FunctionCallOutput id call_id output m => FunctionCallOutput id call_id (map_content_items strip_audio_output output) m
  | CustomToolCallOutput id call_id name output m =>
      CustomToolCallOutput id call_id name (map_content_items strip_audio_output output) m
  | _ => item
  end.

Definition map_item (f : ResponseItem -> ResponseItem) (e : ResponseItemEnvelope) : ResponseItemEnvelope :=
  mkEnvelope (f (env_item e)) (env_metadata e).

Definition strip_images_when_unsupported (input_modalities : list InputModality) (items : list ResponseItemEnvelope)
  : list ResponseItemEnvelope :=
  if bool_decide (ModalityImage ∈ input_modalities) then items else map_item strip_images_item <$> items.

Definition strip_audio_when_unsupported (input_modalities : list InputModality) (items : list ResponseItemEnvelope)
  : list ResponseItemEnvelope :=
  if bool_decide (ModalityAudio ∈ input_modalities) then items else map_item strip_audio_item <$> items.

(** [normalize_history] of [history.rs]. *)
Definition normalize_items (debug : bool) (input_modalities : list InputModality) (items : list ResponseItemEnvelope)
  : option (list ResponseItemEnvelope) :=
  items ← ensure_call_outputs_present debug items;
  items ← remove_orphan_outputs debug items;
  Some (strip_audio_when_unsupported input_modalities (strip_images_when_unsupported input_modalities items)).

(** ** Calls and outputs by key *)

Inductive CallKind := FunctionKind | SearchKind | CustomKind.
#[export] Instance CallKind_eq_dec : EqDecision CallKind.
Proof. solve_decision. Defined.

Definition call_key (item : ResponseItem) : option (CallKind * str) :=
  match item with
  | FunctionCall _ _ _ _ _ call_id _ | LocalShellCall _ (Some call_id) _ _ _ => Some (FunctionKind, call_id)
  | ToolSearchCall _ (Some call_id) _ _ _ _ => Some (SearchKind, call_id)
  | CustomToolCall _ _ call_id _ _ _ _ => Some (CustomKind, call_id)
  | _ => None
  end.

Definition output_key (item : ResponseItem) : option (CallKind * str) :=
  match item with
  | FunctionCallOutput _ call_id _ _ => Some (FunctionKind, call_id)
  | ToolSearchOutput _ (Some call_id) _ _ _ _ => Some (SearchKind, call_id)
  | CustomToolCallOutput _ call_id _ _ _ => Some (CustomKind, call_id)
  | _ => None
  end.

(** The outputs of searches that the server ran need no call. *)
Definition server_output (item : ResponseItem) : bool :=
  match item with ToolSearchOutput _ _ _ execution _ _ => str_eqb execution (lit "server") | _ => false end.

Definition has_call (k : CallKind * str) (items : list ResponseItemEnvelope) : Prop :=
  exists e, e ∈ items /\ call_key (env_item e) = Some k.
Definition has_output (k : CallKind * str) (items : list ResponseItemEnvelope) : Prop :=
  exists e, e ∈ items /\ output_key (env_item e) = Some k.

(** Every call has an output, and every output its call. *)
Definition paired (items : list ResponseItemEnvelope) : Prop :=
  (forall k, has_call k items -> has_output k items) /\
  (forall e k, e ∈ items -> output_key (env_item e) = Some k -> server_output (env_item e) = false -> has_call k items).

Lemma elem_of_collect_ids f items c : c ∈ collect_ids f items <-> exists e, e ∈ items /\ f (env_item e) = Some c.
Proof. unfold collect_ids. rewrite elem_of_list_to_set, list_elem_of_omap. done. Qed.

Lemma has_output_iff k items :
  has_output k items <->
  k.2 ∈ collect_ids (match k.1 with FunctionKind => function_output_id | SearchKind => tool_search_output_id
                     | CustomKind => custom_tool_output_id end) items.
Proof.
  destruct k as [kind c]. rewrite elem_of_collect_ids. unfold has_output.
  split; intros (e & He & Hk); exists e; (split; [done|]); destruct kind, (env_item e); simpl in *; repeat case_match; by simplify_eq.
Qed.

Lemma has_call_iff k items :
  has_call k items <->
  match k.1 with
  | FunctionKind => k.2 ∈ collect_ids function_call_id items \/ k.2 ∈ collect_ids local_shell_call_id items
  | SearchKind => k.2 ∈ collect_ids tool_search_call_id items
  | CustomKind => k.2 ∈ collect_ids custom_tool_call_id items
  end.
Proof.
  destruct k as [kind c]. simpl. unfold has_call. split.
  - intros (e & He & Hk). destruct kind; rewrite ?elem_of_collect_ids; destruct (env_item e) eqn:E; simpl in *; repeat case_match;
      simplify_eq; [right|left|..]; try (exists e; split; [done|by rewrite E]).
  - destruct kind; rewrite ?elem_of_collect_ids; [intros [(e & He & Hk)|(e & He & Hk)]|intros (e & He & Hk)..]; exists e;
      (split; [done|]); destruct (env_item e); simpl in *; repeat case_match; by simplify_eq.
Qed.

(** ** Missing outputs *)

Definition missing_in (items : list ResponseItemEnvelope) : ResponseItem -> option (bool * ResponseItem) :=
  missing_output (collect_ids function_output_id items) (collect_ids tool_search_output_id items)
    (collect_ids custom_tool_output_id items).

Lemma missing_in_spec items item :
  match missing_in items item with
  | Some (_, output) =>
      exists k, call_key item = Some k /\ ~ has_output k items /\ output_key output = Some k /\ call_key output = None /\
      server_output output = false
  | None => forall k, call_key item = Some k -> has_output k items
  end.
Proof.
  unfold missing_in. destruct item; simpl; try (intros; done); repeat case_match; simplify_eq;
    try (eexists; split_and!; [reflexivity|rewrite has_output_iff; done|done..]);
    try (intros k [= <-]; by apply has_output_iff); done.
Qed.

(** The insertions from the end put every output behind its call. *)
Definition with_missing (missing : ResponseItem -> option (bool * ResponseItem)) (items : list ResponseItemEnvelope)
  : list ResponseItemEnvelope :=
  items ≫= fun e => e :: match missing (env_item e) with Some (_, output) => [envelope_new output] | None => [] end.

Lemma vec_insert_app {A} (x : A) (l k : list A) : vec_insert (length l) x (l ++ k) = l ++ x :: k.
Proof. unfold vec_insert. by rewrite take_app_length, drop_app_length. Qed.

Lemma insert_missing missing pre items :
  exists ins, collect_missing false missing (length pre) items = Some ins /\
  foldl (fun items '(idx, output_item) => vec_insert (idx + 1) output_item items) (pre ++ items) (rev ins) =
  pre ++ with_missing missing items.
Proof.
  revert pre. induction items as [|e items IH]; intros pre; [by exists []|].
  destruct (IH (pre ++ [e])) as (ins & Hc & Hf). rewrite <- app_assoc in Hf. rewrite length_app, Nat.add_1_r in Hc. simpl.
  destruct (missing (env_item e)) as [[err output]|] eqn:Em; rewrite Hc.
  - exists ((length pre, envelope_new output) :: ins). split; [by destruct err|].
    simpl. rewrite foldl_app. simpl in *. rewrite Hf. simpl. rewrite <- app_assoc.
    replace (length pre + 1) with (length (pre ++ [e])) by (rewrite length_app; done).
    rewrite (app_assoc pre [e]), vec_insert_app, <- app_assoc. simpl. unfold with_missing. simpl. by rewrite ?Em.
  - exists ins. split; [done|]. simpl in *. rewrite Hf, <- app_assoc. unfold with_missing. simpl. by rewrite ?Em.
Qed.

Lemma ensure_call_outputs_present_eq items : ensure_call_outputs_present false items = Some (with_missing (missing_in items) items).
Proof.
  unfold ensure_call_outputs_present. destruct (insert_missing (missing_in items) [] items) as (ins & Hc & Hf). fold (missing_in items).
  change (length []) with 0 in Hc. rewrite Hc. simpl in *. by rewrite Hf.
Qed.

Lemma elem_of_with_missing missing items e :
  e ∈ with_missing missing items <->
  e ∈ items \/ exists e' err output, e' ∈ items /\ missing (env_item e') = Some (err, output) /\ e = envelope_new output.
Proof.
  unfold with_missing. rewrite list_elem_of_bind. split.
  - intros (x & He & Hx). apply elem_of_cons in He as [->|He]; [by left|]. right.
    destruct (missing (env_item x)) as [[err output]|] eqn:E; [|by apply not_elem_of_nil in He].
    apply list_elem_of_singleton in He as ->. by exists x, err, output.
  - intros [He|(e' & err & output & He' & Hm & ->)]; [exists e; split; [apply elem_of_cons; by left|done]|].
    exists e'. split; [|done]. rewrite Hm. right. by apply list_elem_of_singleton.
Qed.

Lemma has_call_with_missing k items : has_call k (with_missing (missing_in items) items) <-> has_call k items.
Proof.
  unfold has_call. setoid_rewrite elem_of_with_missing. split.
  - intros (e & [He|(e' & err & output & _ & Hm & ->)] & Hk); [by exists e|].
    pose proof (missing_in_spec items (env_item e')) as Hs. rewrite Hm in Hs. destruct Hs as (? & _ & _ & _ & Hc & _). by simpl in *; rewrite Hc in Hk.
  - intros (e & He & Hk). exists e. split; [by left|done].
Qed.

Lemma has_output_with_missing k items : has_call k items -> has_output k (with_missing (missing_in items) items).
Proof.
  intros (e & He & Hk). pose proof (missing_in_spec items (env_item e)) as Hs.
  destruct (missing_in items (env_item e)) as [[err output]|] eqn:Em.
  - destruct Hs as (k' & Hk' & _ & Ho & _). simplify_eq. exists (envelope_new output). split; [|done].
    apply elem_of_with_missing. right. by exists e, err, output.
  - destruct (Hs _ Hk) as (e' & He' & Ho). exists e'. split; [|done]. apply elem_of_with_missing. by left.
Qed.

(** ** Orphans *)

Definition matched_in (items : list ResponseItemEnvelope) : ResponseItem -> bool :=
  has_match (collect_ids function_call_id items) (collect_ids tool_search_call_id items) (collect_ids local_shell_call_id items)
    (collect_ids custom_tool_call_id items).

Lemma matched_in_spec items item :
  matched_in items item = true <-> forall k, output_key item = Some k -> server_output item = false -> has_call k items.
Proof.
  unfold matched_in. destruct item; simpl; try (split; [by intros|done]).
  - rewrite orb_true_iff, !bool_decide_eq_true. split.
    + intros Hc k [= <-] _. by apply has_call_iff.
    + intros Hk. by apply (has_call_iff (FunctionKind, call_id)), Hk.
  - rewrite bool_decide_eq_true. split; [intros Hc k [= <-] _; by apply has_call_iff|].
    intros Hk. by apply (has_call_iff (CustomKind, call_id)), Hk.
  - destruct (str_eqb execution _); [split; [by intros|done]|]. destruct call_id as [call_id|]; [|split; [by intros|done]].
    rewrite bool_decide_eq_true. split; [intros Hc k [= <-] _; by apply has_call_iff|].
    intros Hk. by apply (has_call_iff (SearchKind, call_id)), Hk.
Qed.

Lemma retain_release keep items : retain_or_panic false keep items = Some (filter (fun e => keep (env_item e) = true) items).
Proof.
  induction items as [|e items IH]; [done|]. simpl. rewrite filter_cons, IH.
  by destruct (keep (env_item e)).
Qed.

Lemma retain_all debug keep items : Forall (fun e => keep (env_item e) = true) items -> retain_or_panic debug keep items = Some items.
Proof. induction 1 as [|e items He _ IH]; [done|]. simpl. by rewrite He, IH. Qed.

Definition without_orphans (items : list ResponseItemEnvelope) : list ResponseItemEnvelope :=
  filter (fun e => matched_in items (env_item e) = true) items.

Lemma remove_orphan_outputs_eq items : remove_orphan_outputs false items = Some (without_orphans items).
Proof. apply retain_release. Qed.

Lemma call_is_no_output item k : call_key item = Some k -> output_key item = None.
Proof. destruct item; simpl; repeat case_match; try done. Qed.

Lemma has_call_without_orphans k items : has_call k (without_orphans items) <-> has_call k items.
Proof.
  unfold has_call, without_orphans. setoid_rewrite list_elem_of_filter. split; [intros (e & [_ He] & Hk); by exists e|].
  intros (e & He & Hk). exists e. split_and!; [|done|done]. apply matched_in_spec. intros k'. by rewrite (call_is_no_output _ _ Hk).
Qed.

(** ** Pairing *)

Definition with_pairs (items : list ResponseItemEnvelope) : list ResponseItemEnvelope :=
  without_orphans (with_missing (missing_in items) items).

Lemma paired_with_pairs items : paired (with_pairs items).
Proof.
  unfold with_pairs. set (items1 := with_missing _ items). split.
  - intros k Hk. rewrite has_call_without_orphans in Hk. pose proof Hk as Hk1.
    unfold items1 in Hk. rewrite has_call_with_missing in Hk. destruct (has_output_with_missing _ _ Hk) as (e & He & Ho).
    exists e. split; [|done]. apply list_elem_of_filter. split; [|done]. apply matched_in_spec. intros k' Ho'. by simplify_eq.
  - intros e k He Ho Hs. apply list_elem_of_filter in He as [Hm _]. rewrite has_call_without_orphans.
    by apply (proj1 (matched_in_spec _ _) Hm).
Qed.

Lemma missing_none debug missing idx items :
  Forall (fun e => missing (env_item e) = None) items -> collect_missing debug missing idx items = Some [].
Proof. intros HF. revert idx. induction HF as [|e items He _ IH]; intros idx; simpl; [done|]. by rewrite He. Qed.

Lemma paired_no_missing items : paired items -> Forall (fun e => missing_in items (env_item e) = None) items.
Proof.
  intros [Hc _]. apply Forall_forall. intros e He. pose proof (missing_in_spec items (env_item e)) as Hs.
  destruct (missing_in items (env_item e)) as [[err output]|]; [|done]. destruct Hs as (k & Hk & Hn & _). destruct Hn. apply Hc.
  by exists e.
Qed.

(** A paired history is left alone, also in a build that panics. *)
Lemma paired_ensure debug items : paired items -> ensure_call_outputs_present debug items = Some items.
Proof.
  intros Hp. unfold ensure_call_outputs_present. fold (missing_in items).
  by rewrite missing_none by (by apply paired_no_missing).
Qed.

Lemma paired_remove debug items : paired items -> remove_orphan_outputs debug items = Some items.
Proof.
  intros [_ Hp]. apply retain_all, Forall_forall. intros e He. apply matched_in_spec. intros k Ho Hs. by apply (Hp e).
Qed.

(** Nothing but outputs is added or dropped. *)
Definition is_output (item : ResponseItem) : bool :=
  match item with FunctionCallOutput _ _ _ _ | CustomToolCallOutput _ _ _ _ _ | ToolSearchOutput _ _ _ _ _ _ => true | _ => false end.
Definition non_outputs (items : list ResponseItemEnvelope) : list ResponseItemEnvelope :=
  filter (fun e => is_output (env_item e) = false) items.

Lemma output_key_is_output item k : output_key item = Some k -> is_output item = true.
Proof. by destruct item. Qed.

Lemma non_outputs_with_missing missing items :
  (forall item err output, missing item = Some (err, output) -> is_output output = true) ->
  non_outputs (with_missing missing items) = non_outputs items.
Proof.
  intros Hm. unfold non_outputs. induction items as [|e items IH]; [done|].
  change (with_missing missing (e :: items)) with
    ((e :: match missing (env_item e) with Some (_, output) => [envelope_new output] | None => [] end) ++ with_missing missing items).
  rewrite filter_app, IH. destruct (missing (env_item e)) as [[err output]|] eqn:E; rewrite !filter_cons, !filter_nil.
  - simpl. rewrite (Hm _ _ _ E). by case_decide.
  - by case_decide.
Qed.

Lemma non_outputs_with_pairs items : non_outputs (with_pairs items) = non_outputs items.
Proof.
  unfold with_pairs, without_orphans. rewrite <- (non_outputs_with_missing (missing_in items) items).
  - unfold non_outputs. apply list_filter_filter_l. intros e He. apply matched_in_spec. intros k Ho.
    apply output_key_is_output in Ho. by rewrite He in Ho.
  - intros item err output Hm. pose proof (missing_in_spec items item) as Hs. rewrite Hm in Hs.
    destruct Hs as (k & _ & _ & Ho & _). by eapply output_key_is_output.
Qed.

(** ** Stripped content *)

Definition strip_item (mods : list InputModality) (item : ResponseItem) : ResponseItem :=
  let item := if bool_decide (ModalityImage ∈ mods) then item else strip_images_item item in
  if bool_decide (ModalityAudio ∈ mods) then item else strip_audio_item item.

Definition is_image (c : ContentItem) : bool := match c with InputImage _ _ => true | _ => false end.
Definition is_audio (c : ContentItem) : bool := match c with InputAudio _ => true | _ => false end.
Definition is_image_output (c : FunctionCallOutputContentItem) : bool := match c with OutInputImage _ _ => true | _ => false end.
Definition is_audio_output (c : FunctionCallOutputContentItem) : bool := match c with OutInputAudio _ => true | _ => false end.

Definition body_has (p : FunctionCallOutputContentItem -> bool) (output : FunctionCallOutputPayload) : bool :=
  match payload_body output with BodyText _ => false | BodyContentItems items => existsb p items end.

Definition has_image (item : ResponseItem) : bool :=
  match item with
  | Message _ _ content _ _ => existsb is_image content
  | FunctionCallOutput _ _ output _ | CustomToolCallOutput _ _ _ output _ => body_has is_image_output output
  | ImageGenerationCall _ _ _ result _ => negb (is_empty result)
  | _ => false
  end.

Definition has_audio (item : ResponseItem) : bool :=
  match item with
  | Message _ _ content _ _ => existsb is_audio content
  | FunctionCallOutput _ _ output _ | CustomToolCallOutput _ _ _ output _ => body_has is_audio_output output
  | _ => false
  end.

(** The model takes every part of the item. *)
Definition takes (mods : list InputModality) (item : ResponseItem) : Prop :=
  (ModalityImage ∈ mods \/ has_image item = false) /\ (ModalityAudio ∈ mods \/ has_audio item = false).

Lemma existsb_map_none {A} (p : A -> bool) (f : A -> A) l : (forall x, p (f x) = false) -> existsb p (f <$> l) = false.
Proof. intros Hf. induction l as [|x l IH]; [done|]. rewrite fmap_cons. cbn [existsb]. by rewrite Hf, IH. Qed.

Lemma existsb_map_same {A} (p : A -> bool) (f : A -> A) l : (forall x, p (f x) = p x) -> existsb p (f <$> l) = existsb p l.
Proof. intros Hf. induction l as [|x l IH]; [done|]. rewrite fmap_cons. cbn [existsb]. by rewrite Hf, IH. Qed.

Lemma map_none_id {A} (p : A -> bool) (f : A -> A) l : (forall x, p x = false -> f x = x) -> existsb p l = false -> f <$> l = l.
Proof.
  intros Hf. induction l as [|x l IH]; [done|]. rewrite fmap_cons. cbn [existsb]. intros [Hx Hl]%orb_false_iff. by rewrite Hf, IH.
Qed.

Lemma body_has_none p f output : (forall x, p (f x) = false) -> body_has p (map_content_items f output) = false.
Proof. intros Hf. destruct output as [[c|items] s]; [done|]. by apply existsb_map_none. Qed.

Lemma body_has_same p f output : (forall x, p (f x) = p x) -> body_has p (map_content_items f output) = body_has p output.
Proof. intros Hf. destruct output as [[c|items] s]; [done|]. by apply existsb_map_same. Qed.

Lemma body_map_id p f output :
  (forall x, p x = false -> f x = x) -> body_has p output = false -> map_content_items f output = output.
Proof.
  intros Hf. destruct output as [[c|items] s]; [done|]. unfold body_has, map_content_items. simpl. intros Hp.
  by rewrite (map_none_id p).
Qed.

Lemma strip_images_none item : has_image (strip_images_item item) = false.
Proof. destruct item; simpl; try done; [apply existsb_map_none|apply body_has_none..]; by intros []. Qed.

Lemma strip_audio_none item : has_audio (strip_audio_item item) = false.
Proof. destruct item; simpl; try done; [apply existsb_map_none|apply body_has_none..]; by intros []. Qed.

Lemma strip_audio_has_image item : has_image (strip_audio_item item) = has_image item.
Proof. destruct item; simpl; try done; [apply existsb_map_same|apply body_has_same..]; by intros []. Qed.

Lemma strip_images_id item : has_image item = false -> strip_images_item item = item.
Proof.
  destruct item; simpl; try done; intros Hi.
  - by rewrite (map_none_id is_image) by (done || by intros []).
  - by rewrite (body_map_id is_image_output) by (done || by intros []).
  - by rewrite (body_map_id is_image_output) by (done || by intros []).
  - apply negb_false_iff, is_empty_true in Hi. by subst.
Qed.

Lemma strip_audio_id item : has_audio item = false -> strip_audio_item item = item.
Proof.
  destruct item; simpl; try done; intros Hi.
  - by rewrite (map_none_id is_audio) by (done || by intros []).
  - by rewrite (body_map_id is_audio_output) by (done || by intros []).
  - by rewrite (body_map_id is_audio_output) by (done || by intros []).
Qed.

Lemma takes_strip_item mods item : takes mods (strip_item mods item).
Proof.
  unfold takes, strip_item. split.
  - destruct (decide (ModalityImage ∈ mods)) as [Hi|Hi]; [by left|right]. rewrite (bool_decide_eq_false_2 _ Hi).
    destruct (bool_decide _); rewrite ?strip_audio_has_image; apply strip_images_none.
  - destruct (decide (ModalityAudio ∈ mods)) as [Ha|Ha]; [by left|right]. rewrite (bool_decide_eq_false_2 _ Ha).
    apply strip_audio_none.
Qed.

Lemma strip_item_id mods item : takes mods item -> strip_item mods item = item.
Proof.
  intros [Hi Ha]. unfold strip_item.
  assert ((if bool_decide (ModalityImage ∈ mods) then item else strip_images_item item) = item) as ->.
  { case_bool_decide; [done|]. apply strip_images_id. by destruct Hi. }
  case_bool_decide; [done|]. apply strip_audio_id. by destruct Ha.
Qed.

Lemma strip_item_keys mods item :
  call_key (strip_item mods item) = call_key item /\ output_key (strip_item mods item) = output_key item /\
  server_output (strip_item mods item) = server_output item /\ is_output (strip_item mods item) = is_output item.
Proof. unfold strip_item. destruct (bool_decide (ModalityImage ∈ mods)), (bool_decide (ModalityAudio ∈ mods)), item; done. Qed.

Lemma paired_strip mods items : paired items -> paired (map_item (strip_item mods) <$> items).
Proof.
  intros [Hc Ho]. split.
  - intros k (e & He & Hk). apply list_elem_of_fmap in He as (e0 & -> & He). simpl in Hk.
    destruct (strip_item_keys mods (env_item e0)) as (Hck & _). rewrite Hck in Hk.
    destruct (Hc k) as (e1 & He1 & Hk1); [by exists e0|]. exists (map_item (strip_item mods) e1).
    split; [by apply list_elem_of_fmap_2|]. simpl. destruct (strip_item_keys mods (env_item e1)) as (_ & -> & _). done.
  - intros e k He Hk Hs. apply list_elem_of_fmap in He as (e0 & -> & He). simpl in *.
    destruct (strip_item_keys mods (env_item e0)) as (_ & Hok & Hso & _). rewrite Hok in Hk. rewrite Hso in Hs.
    destruct (Ho e0 k He Hk Hs) as (e1 & He1 & Hk1). exists (map_item (strip_item mods) e1).
    split; [by apply list_elem_of_fmap_2|]. simpl. destruct (strip_item_keys mods (env_item e1)) as (-> & _). done.
Qed.

Lemma non_outputs_strip mods items :
  non_outputs (map_item (strip_item mods) <$> items) = map_item (strip_item mods) <$> non_outputs items.
Proof.
  unfold non_outputs. induction items as [|e items IH]; [done|]. rewrite fmap_cons, !filter_cons, IH. simpl.
  destruct (strip_item_keys mods (env_item e)) as (_ & _ & _ & ->). by case_decide.
Qed.

Lemma strip_all_eq mods items :
  strip_audio_when_unsupported mods (strip_images_when_unsupported mods items) = map_item (strip_item mods) <$> items.
Proof.
  unfold strip_audio_when_unsupported, strip_images_when_unsupported, strip_item.
  destruct (bool_decide (ModalityImage ∈ mods)), (bool_decide (ModalityAudio ∈ mods)); rewrite <- ?list_fmap_compose; try done.
  symmetry. rewrite <- (list_fmap_id items) at 2. apply list_fmap_ext. by intros ? [].
Qed.

Lemma normalize_items_eq mods items : normalize_items false mods items = Some (map_item (strip_item mods) <$> with_pairs items).
Proof.
  unfold normalize_items. rewrite ensure_call_outputs_present_eq. simpl. rewrite remove_orphan_outputs_eq. simpl.
  by rewrite strip_all_eq.
Qed.

(** C25: the prompt is well formed.  In a release build the normalised history exists; each call
    with a call id in it has an output and each output its call (but for searches the server
    ran, and items without a call id), the model
    takes every part of it, and all that is no output is there in order, with at most the
    parts the model does not take replaced.  To normalise it again, in any build, changes
    nothing. *)
Theorem normalized_history_is_paired mods items :
  exists out, normalize_items false mods items = Some out /\ paired out /\ Forall (fun e => takes mods (env_item e)) out /\
  non_outputs out = map_item (strip_item mods) <$> non_outputs items /\
  forall debug, normalize_items debug mods out = Some out.
Proof.
  exists (map_item (strip_item mods) <$> with_pairs items).
  assert (paired (map_item (strip_item mods) <$> with_pairs items)) as Hp by apply paired_strip, paired_with_pairs.
  assert (Forall (fun e => takes mods (env_item e)) (map_item (strip_item mods) <$> with_pairs items)) as Ht.
  { apply Forall_fmap, Forall_true. intros e. apply takes_strip_item. }
  split_and!; [apply normalize_items_eq|done|done|by rewrite non_outputs_strip, non_outputs_with_pairs|].
  intros debug. set (out := _ <$> _) in *. clearbody out. unfold normalize_items. rewrite paired_ensure by done. simpl.
  rewrite paired_remove by done. simpl. f_equal. rewrite strip_all_eq. rewrite <- (list_fmap_id out) at 2.
  apply list_fmap_ext. intros i e Hi. destruct e as [item md]. unfold map_item. simpl. f_equal. apply strip_item_id.
  by apply (Forall_lookup_1 _ _ _ _ Ht Hi).
Qed.

(** ** Eviction of an item with its counterpart *)

(** Every key belongs to one call and to one output. *)
Definition unique_keys (items : list ResponseItemEnvelope) : Prop :=
  NoDup (omap (fun e => call_key (env_item e)) items) /\ NoDup (omap (fun e => output_key (env_item e)) items).

Section key.
Variable key : ResponseItem -> option (CallKind * str).

Definition key_is (k : CallKind * str) (item : ResponseItem) : bool := bool_decide (key item = Some k).

Definition without_key (k : CallKind * str) (items : list ResponseItemEnvelope) : list ResponseItemEnvelope :=
  filter (fun e => key_is k (env_item e) = false) items.

Lemma without_key_absent k items : (k ∉ omap (fun e => key (env_item e)) items) -> without_key k items = items.
Proof.
  intros Hn. unfold without_key. apply filter_all, Forall_forall. intros e He. apply bool_decide_eq_false. intros Hk.
  apply Hn, list_elem_of_omap. by exists e.
Qed.

(** When a key occurs once, removing its first occurrence removes it. *)
Lemma remove_first_without_key k items :
  NoDup (omap (fun e => key (env_item e)) items) -> remove_first_matching (key_is k) items = without_key k items.
Proof.
  induction items as [|e items IH]; [done|]. intros Hn. cbn [remove_first_matching]. unfold without_key in *. rewrite filter_cons.
  simpl in Hn. destruct (key_is k (env_item e)) eqn:E; simpl.
  - apply bool_decide_eq_true in E. rewrite E in Hn. apply NoDup_cons in Hn as [Hn _]. symmetry. by apply without_key_absent.
  - rewrite IH; [done|]. destruct (key (env_item e)); [by apply NoDup_cons in Hn as [_ Hn]|done].
Qed.

Lemma elem_of_without_key k items e : e ∈ without_key k items <-> key (env_item e) <> Some k /\ e ∈ items.
Proof. unfold without_key. rewrite list_elem_of_filter. unfold key_is. by rewrite bool_decide_eq_false. Qed.
End key.

Lemma remove_first_matching_ext p q items : (forall item, p item = q item) -> remove_first_matching p items = remove_first_matching q items.
Proof. intros Hpq. induction items as [|e items IH]; simpl; [done|]. by rewrite Hpq, IH. Qed.

Lemma remove_first_matching_none p items : existsb (fun e => p (env_item e)) items = false -> remove_first_matching p items = items.
Proof. induction items as [|e items IH]; simpl; [done|]. intros [-> Hi]%orb_false_iff. by rewrite IH. Qed.

Lemma remove_first_matching_sublist p items : remove_first_matching p items `sublist_of` items.
Proof. induction items as [|e items IH]; simpl; [done|]. case_match; [by constructor|by constructor]. Qed.

(** The counterpart of a call is its output. *)
Lemma remove_corresponding_call item k items :
  call_key item = Some k -> remove_corresponding_for item items = remove_first_matching (key_is output_key k) items.
Proof.
  intros Hk. destruct item; simpl in *; repeat case_match; simplify_eq; apply remove_first_matching_ext; intros i; unfold id_is, key_is;
    apply bool_decide_ext; destruct i; simpl; repeat case_match; naive_solver.
Qed.

(** A function call, or else a shell call, with the id of an output: there is only one. *)
Lemma remove_function_or_shell c items :
  NoDup (omap (fun e => call_key (env_item e)) items) ->
  (if existsb (fun e => id_is function_call_id c (env_item e)) items
   then remove_first_matching (id_is function_call_id c) items
   else remove_first_matching (id_is local_shell_call_id c) items) = without_key call_key (FunctionKind, c) items.
Proof.
  assert (forall i, key_is call_key (FunctionKind, c) i = id_is function_call_id c i || id_is local_shell_call_id c i) as Hor.
  { intros i. unfold key_is, id_is. destruct i; simpl; repeat case_match; rewrite ?orb_false_r; try done; apply bool_decide_ext; naive_solver. }
  intros Hn. induction items as [|e items IH]; [done|]. cbn [existsb remove_first_matching]. unfold without_key in *. rewrite filter_cons.
  simpl in Hn. pose proof (Hor (env_item e)) as Hc. destruct (key_is call_key (FunctionKind, c) (env_item e)) eqn:Ek; simpl.
  - apply bool_decide_eq_true in Ek. rewrite Ek in Hn. apply NoDup_cons in Hn as [Hn _]. pose proof (without_key_absent _ _ _ Hn) as Hw.
    unfold without_key in Hw. rewrite Hw. destruct (id_is function_call_id c (env_item e)) eqn:Ef; simpl; [done|].
    simpl in Hc. rewrite <- Hc. destruct (existsb _ items) eqn:Ex; [|done]. destruct Hn.
    apply existsb_exists in Ex as (e' & He' & Hid). apply list_elem_of_omap. exists e'. split; [by apply list_elem_of_In|].
    pose proof (Hor (env_item e')) as Hc'. rewrite Hid in Hc'. by apply bool_decide_eq_true in Hc'.
  - symmetry in Hc. apply orb_false_iff in Hc as [-> ->]. simpl. rewrite <- IH; [by case_match|].
    destruct (call_key (env_item e)); [by apply NoDup_cons in Hn as [_ Hn]|done].
Qed.

(** The counterpart of an output is its call. *)
Lemma remove_corresponding_output item k items :
  NoDup (omap (fun e => call_key (env_item e)) items) -> output_key item = Some k ->
  remove_corresponding_for item items = without_key call_key k items.
Proof.
  intros Hn Hk. destruct item; simpl in *; try done; [simplify_eq; by apply remove_function_or_shell|..]; repeat case_match; simplify_eq;
    rewrite <- remove_first_without_key by done; apply remove_first_matching_ext; intros i; unfold id_is, key_is;
    apply bool_decide_ext; destruct i; simpl; repeat case_match; naive_solver.
Qed.

Lemma remove_corresponding_other item items :
  call_key item = None -> output_key item = None -> remove_corresponding_for item items = items.
Proof. destruct item; simpl; repeat case_match; done. Qed.

Lemma sublist_omap {A B} (f : A -> option B) l k : l `sublist_of` k -> omap f l `sublist_of` omap f k.
Proof. induction 1 as [|x l k _ IH|x l k _ IH]; simpl; [done|..]; destruct (f x); by try constructor. Qed.

Lemma unique_keys_sublist l k : l `sublist_of` k -> unique_keys k -> unique_keys l.
Proof. intros Hl [Hc Ho]. split; (eapply sublist_NoDup; [|by apply sublist_omap]); done. Qed.

Lemma remove_corresponding_sublist item items : remove_corresponding_for item items `sublist_of` items.
Proof. destruct item; simpl; repeat case_match; try done; apply remove_first_matching_sublist. Qed.

Lemma not_call_again e rest k e' :
  unique_keys (e :: rest) -> call_key (env_item e) = Some k -> e' ∈ rest -> call_key (env_item e') <> Some k.
Proof.
  intros [Hn _] Hk He' Hk'. simpl in Hn. rewrite Hk in Hn. apply NoDup_cons in Hn as [[] _]. apply list_elem_of_omap. by exists e'.
Qed.

Lemma not_output_again e rest k e' :
  unique_keys (e :: rest) -> output_key (env_item e) = Some k -> e' ∈ rest -> output_key (env_item e') <> Some k.
Proof.
  intros [_ Hn] Hk He' Hk'. simpl in Hn. rewrite Hk in Hn. apply NoDup_cons in Hn as [[] _]. apply list_elem_of_omap. by exists e'.
Qed.

Lemma output_is_no_call item k : output_key item = Some k -> call_key item = None.
Proof. destruct item; simpl; repeat case_match; done. Qed.

Lemma evict_call e rest k :
  paired (e :: rest) -> unique_keys (e :: rest) -> call_key (env_item e) = Some k -> paired (without_key output_key k rest).
Proof.
  intros [Hc Ho] Hu Hk. pose proof (call_is_no_output _ _ Hk) as Hno. split.
  - intros k' (x & Hx & Hkx). apply elem_of_without_key in Hx as [_ Hx]. pose proof (not_call_again _ _ _ _ Hu Hk Hx) as Hne.
    destruct (Hc k') as (y & Hy & Hky); [exists x; split; [by right|done]|]. apply elem_of_cons in Hy as [->|Hy]; [congruence|].
    exists y. split; [|done]. apply elem_of_without_key. split; [congruence|done].
  - intros x k' Hx Hkx Hs. apply elem_of_without_key in Hx as [Hne Hx].
    destruct (Ho x k') as (y & Hy & Hky); [by right|done|done|]. apply elem_of_cons in Hy as [->|Hy]; [congruence|].
    exists y. split; [|done]. apply elem_of_without_key. split; [|done]. by rewrite (call_is_no_output _ _ Hky).
Qed.

Lemma evict_output e rest k :
  paired (e :: rest) -> unique_keys (e :: rest) -> output_key (env_item e) = Some k -> paired (without_key call_key k rest).
Proof.
  intros [Hc Ho] Hu Hk. pose proof (output_is_no_call _ _ Hk) as Hno. split.
  - intros k' (x & Hx & Hkx). apply elem_of_without_key in Hx as [Hne Hx].
    destruct (Hc k') as (y & Hy & Hky); [exists x; split; [by right|done]|]. apply elem_of_cons in Hy as [->|Hy]; [congruence|].
    exists y. split; [|done]. apply elem_of_without_key. split; [|done]. by rewrite (output_is_no_call _ _ Hky).
  - intros x k' Hx Hkx Hs. apply elem_of_without_key in Hx as [_ Hx]. pose proof (not_output_again _ _ _ _ Hu Hk Hx) as Hne.
    destruct (Ho x k') as (y & Hy & Hky); [by right|done|done|]. apply elem_of_cons in Hy as [->|Hy]; [congruence|].
    exists y. split; [|done]. apply elem_of_without_key. split; [congruence|done].
Qed.

Lemma evict_other e rest :
  paired (e :: rest) -> call_key (env_item e) = None -> output_key (env_item e) = None -> paired rest.
Proof.
  intros [Hc Ho] Hk Hk'. split.
  - intros k (x & Hx & Hkx). destruct (Hc k) as (y & Hy & Hky); [exists x; split; [by right|done]|].
    apply elem_of_cons in Hy as [->|Hy]; [congruence|]. by exists y.
  - intros x k Hx Hkx Hs. destruct (Ho x k) as (y & Hy & Hky); [by right|done|done|].
    apply elem_of_cons in Hy as [->|Hy]; [congruence|]. by exists y.
Qed.

Lemma paired_evict e rest :
  paired (e :: rest) -> unique_keys (e :: rest) -> paired (remove_corresponding_for (env_item e) rest).
Proof.
  intros Hp Hu. assert (unique_keys rest) as [Hnc Hno] by (eapply unique_keys_sublist; [|exact Hu]; by constructor).
  destruct (call_key (env_item e)) as [k|] eqn:Hk.
  - rewrite (remove_corresponding_call _ k), remove_first_without_key by done. by eapply evict_call.
  - destruct (output_key (env_item e)) as [k|] eqn:Hk'.
    + rewrite (remove_corresponding_output _ k) by done. by eapply evict_output.
    + rewrite remove_corresponding_other by done. by eapply evict_other.
Qed.

End normalize.
