(* ===== verification/ContextManager.v ===== *)
(** * The history of a conversation

    Models [ContextManager] of [core/src/context_manager/history.rs] with the token usage of
    [protocol/src/protocol.rs]: items are recorded with their tool outputs truncated, the
    history is normalised for a prompt, the oldest item is evicted with its counterpart, and
    the last turns are rolled back.

    Outside the model, and fields of [HistoryOps]: the world state and the turn context, the
    size of an item as JSON, and what the decoders of images and audio return.  The cache of
    image estimates only saves work and is left out.  [i64] operations that the source leaves
    unchecked wrap around, as in a release build. *)

From stdpp Require Import base list strings gmap.
From Stdlib Require Import NArith ZArith.
From S2P Require Import Prelude ResponseItems Truncate ContextFragments Normalize.

(** ** Token usage *)

Definition i64_min : Z := -9223372036854775808.
Definition sat64 (z : Z) : Z := Z.max i64_min (Z.min z i64_max).
Definition wrap64 (z : Z) : Z := ((z - i64_min) mod 18446744073709551616 + i64_min)%Z.
Definition i64_of (n : N) : Z := Z.min (Z.of_N n) i64_max.

Section usage.
Context {json : Json}.

Record TokenUsage := mkTokenUsage {
  input_tokens : Z; cached_input_tokens : Z; cache_write_input_tokens : Z; output_tokens : Z; reasoning_output_tokens : Z;
  total_tokens : Z; codex_rollout_budget_units : option Number }.
Definition token_usage_default : TokenUsage := mkTokenUsage 0 0 0 0 0 0 None.

Definition is_zero (u : TokenUsage) : bool := (total_tokens u =? 0)%Z.
Definition cached_input (u : TokenUsage) : Z := Z.max (cached_input_tokens u) 0.
Definition non_cached_input (u : TokenUsage) : Z := Z.max (wrap64 (input_tokens u - cached_input u)) 0.
Definition blended_total (u : TokenUsage) : Z := Z.max (wrap64 (non_cached_input u + Z.max (output_tokens u) 0)) 0.

Definition usage_add_assign (u other : TokenUsage) : TokenUsage :=
  mkTokenUsage (wrap64 (input_tokens u + input_tokens other)) (wrap64 (cached_input_tokens u + cached_input_tokens other))
    (wrap64 (cache_write_input_tokens u + cache_write_input_tokens other)) (wrap64 (output_tokens u + output_tokens other))
    (wrap64 (reasoning_output_tokens u + reasoning_output_tokens other)) (wrap64 (total_tokens u + total_tokens other))
    (codex_rollout_budget_units u).

Record TokenUsageInfo := mkTokenUsageInfo {
  total_token_usage : TokenUsage; last_token_usage : TokenUsage; model_context_window : option Z }.

Definition append_last_usage (info : TokenUsageInfo) (last : TokenUsage) : TokenUsageInfo :=
  mkTokenUsageInfo (usage_add_assign (total_token_usage info) last) last (model_context_window info).

Definition new_or_append (info : option TokenUsageInfo) (last : option TokenUsage) (window : option Z) : option TokenUsageInfo :=
  match info, last with
  | None, None => None
  | _, _ =>
      let info := default (mkTokenUsageInfo token_usage_default token_usage_default window) info in
      let info := match last with Some last => append_last_usage info last | None => info end in
      Some (match window with
            | Some w => mkTokenUsageInfo (total_token_usage info) (last_token_usage info) (Some w)
            | None => info
            end)
  end.

Definition only_total (n : Z) : TokenUsage := mkTokenUsage 0 0 0 0 0 n None.

Definition fill_to_context_window (info : TokenUsageInfo) (context_window : Z) : TokenUsageInfo :=
  let previous_total := total_tokens (total_token_usage info) in
  let delta := Z.max (wrap64 (context_window - previous_total)) 0 in
  mkTokenUsageInfo (only_total context_window) (only_total delta) (Some context_window).

Definition full_context_window (context_window : Z) : TokenUsageInfo :=
  fill_to_context_window (mkTokenUsageInfo token_usage_default token_usage_default (Some context_window)) context_window.

End usage.

(** ** The manager *)

Class HistoryOps {json : Json} := {
  TurnContextItem : Type;
  WorldState : Type;
  WorldStateSnapshot : Type;
  WorldStateItem : Type;
  Fragment : Type;
  world_snapshot : WorldState -> WorldStateSnapshot;
  render_history_diff : WorldState -> option WorldStateSnapshot -> list ResponseItem -> list Fragment;
  world_state_full : WorldStateSnapshot -> WorldStateItem;
  (** [merge_patch_from], as a patch item. *)
  world_state_patch : WorldStateSnapshot -> WorldStateSnapshot -> option WorldStateItem;
  (** The length of [serde_json::to_string]. *)
  serialized_len : ResponseItem -> option N;
  (** [codex_utils_audio], which decodes the audio. *)
  estimate_audio_token_count : str -> N;
  (** The width and the height of an image in base64. *)
  image_dimensions : str -> option (N * N);
}.

Section history.
Context {json : Json} {uuid : UuidOps} {deps : FragmentDeps} {hist : HistoryOps}.

Record ContextManager := mkContextManager {
  items : list ResponseItemEnvelope; history_version : N; token_info : option TokenUsageInfo;
  reference_context_item : option TurnContextItem; world_state_baseline : option WorldStateSnapshot }.

Definition context_manager_new : ContextManager := mkContextManager [] 0 (new_or_append None None None) None None.

Definition with_items (its : list ResponseItemEnvelope) (c : ContextManager) : ContextManager :=
  mkContextManager its (history_version c) (token_info c) (reference_context_item c) (world_state_baseline c).
Definition set_token_info (info : option TokenUsageInfo) (c : ContextManager) : ContextManager :=
  mkContextManager (items c) (history_version c) info (reference_context_item c) (world_state_baseline c).
Definition set_reference_context_item (item : option TurnContextItem) (c : ContextManager) : ContextManager :=
  mkContextManager (items c) (history_version c) (token_info c) item (world_state_baseline c).
Definition with_baseline (b : option WorldStateSnapshot) (c : ContextManager) : ContextManager :=
  mkContextManager (items c) (history_version c) (token_info c) (reference_context_item c) b.
Definition set_world_state_baseline (snapshot : WorldStateSnapshot) (c : ContextManager) : ContextManager :=
  with_baseline (Some snapshot) c.

Definition raw_items (c : ContextManager) : list ResponseItem := env_item <$> items c.

Definition update_world_state (w : WorldState) (c : ContextManager) : list Fragment * option WorldStateItem * ContextManager :=
  let snapshot := world_snapshot w in
  let fragments := render_history_diff w (world_state_baseline c) (raw_items c) in
  let rollout_item :=
    match world_state_baseline c with
    | None => Some (world_state_full snapshot)
    | Some previous => world_state_patch snapshot previous
    end in
  (fragments, rollout_item, with_baseline (Some snapshot) c).

Definition set_token_usage_full (context_window : Z) (c : ContextManager) : ContextManager :=
  set_token_info
    (Some (match token_info c with
           | Some info => fill_to_context_window info context_window
           | None => full_context_window context_window
           end)) c.

Definition update_token_info (usage : TokenUsage) (window : option Z) (c : ContextManager) : ContextManager :=
  set_token_info (new_or_append (token_info c) (Some usage) window) c.

(** *** Recording *)

Definition is_api_message (message : ResponseItem) : bool :=
  match message with
  | Message _ role _ _ _ => negb (str_eqb role (lit "system"))
  | CompactionTrigger | OtherItem => false
  | _ => true
  end.

Definition process_item (item : ResponseItem) (policy : TruncationPolicy) : ResponseItem :=
  let policy_with_serialization_budget := policy_mul policy ONE_POINT_TWO in
  match item with
  | FunctionCallOutput id call_id output m =>
      FunctionCallOutput id call_id
        (truncate_function_output_payload estimate_audio_token_count output policy_with_serialization_budget) m
  | CustomToolCallOutput id call_id name output m =>
      CustomToolCallOutput id call_id name
        (truncate_function_output_payload estimate_audio_token_count output policy_with_serialization_budget) m
  | _ => item
  end.

Definition record_items_with_metadata (its : list (ResponseItem * option unit)) (policy : TruncationPolicy) (c : ContextManager)
  : ContextManager :=
  foldl
    (fun c '(item, metadata) =>
       if is_api_message item then with_items (items c ++ [mkEnvelope (process_item item policy) metadata]) c else c)
    c its.

Definition record_items (its : list ResponseItem) (policy : TruncationPolicy) (c : ContextManager) : ContextManager :=
  record_items_with_metadata ((fun item => (item, None)) <$> its) policy c.
Definition record_annotated_items (its : list ResponseItemEnvelope) (policy : TruncationPolicy) (c : ContextManager) : ContextManager :=
  record_items_with_metadata ((fun e => (env_item e, env_metadata e)) <$> its) policy c.

(** *** Prompts *)

Definition normalize_history (debug : bool) (input_modalities : list InputModality) (c : ContextManager) : option ContextManager :=
  its ← normalize_items debug input_modalities (items c); Some (with_items its c).

Definition for_prompt_annotated (debug : bool) (input_modalities : list InputModality) (c : ContextManager)
  : option (list ResponseItemEnvelope) := items <$> normalize_history debug input_modalities c.

Definition for_prompt (debug : bool) (input_modalities : list InputModality) (c : ContextManager) : option (list ResponseItem) :=
  match for_prompt_annotated debug input_modalities c with Some its => Some (env_item <$> its) | None => None end.

(** *** Eviction and replacement *)

Definition remove_first_item (c : ContextManager) : ContextManager :=
  match items c with
  | [] => c
  | removed :: rest => with_baseline None (with_items (remove_corresponding_for (env_item removed) rest) c)
  end.

Definition u64_max : N := usize_max.

Definition replace_annotated (its : list ResponseItemEnvelope) (c : ContextManager) : ContextManager :=
  mkContextManager its (N.min (history_version c + 1) u64_max) (token_info c) (reference_context_item c) None.

(** *** Rollback *)

Definition is_user_turn_boundary (item : ResponseItem) : bool :=
  match item with
  | AgentMessage _ _ _ _ _ => true
  | Message _ role content _ _ =>
      (str_eqb role (lit "user") && negb (is_contextual_user_message_content content)) ||
      (str_eqb role (lit "assistant") && is_message_content content)
  | _ => false
  end.

Fixpoint positions_from (idx : nat) (its : list ResponseItemEnvelope) : list nat :=
  match its with
  | [] => []
  | e :: its => if is_user_turn_boundary (env_item e) then idx :: positions_from (S idx) its else positions_from (S idx) its
  end.
Definition user_message_positions (its : list ResponseItemEnvelope) : list nat := positions_from 0 its.

(** What the walk back from a cut does with the item above it: stop, or step over it, and
    whether it was a mixed bundle. *)
Definition trimmable (item : ResponseItem) : option bool :=
  match item with
  | Message _ role content _ _ =>
      if str_eqb role (lit "developer") && is_contextual_dev_message_content content
      then Some (has_non_contextual_dev_message_content content)
      else if str_eqb role (lit "user") && is_contextual_user_message_content content then Some false
      else None
  | _ => None
  end.

(** The loop, by recursion on the cut index: [clear] tells whether the reference context is
    to be cleared. *)
Fixpoint trim_loop (snapshot : list ResponseItemEnvelope) (first_instruction_turn_idx cut_idx : nat) (clear : bool) : nat * bool :=
  match cut_idx with
  | 0 => (0, clear)
  | S above =>
      if Nat.ltb first_instruction_turn_idx cut_idx then
        match snapshot !! above ≫= fun e => trimmable (env_item e) with
        | Some mixed => trim_loop snapshot first_instruction_turn_idx above (clear || mixed)
        | None => (cut_idx, clear)
        end
      else (cut_idx, clear)
  end.

Definition trim_pre_turn_context_updates (snapshot : list ResponseItemEnvelope) (first_instruction_turn_idx cut_idx : nat)
    (c : ContextManager) : nat * ContextManager :=
  let '(cut_idx, clear) := trim_loop snapshot first_instruction_turn_idx cut_idx false in
  (cut_idx, if clear then set_reference_context_item None c else c).

(** [retain_mut] of the developer messages of the first turn. *)
Definition without_model_switch (first_turn_id : str) (e : ResponseItemEnvelope) : option ResponseItemEnvelope :=
  match env_item e with
  | Message id role content phase m =>
      if bool_decide (turn_id (env_item e) = Some first_turn_id) && str_eqb role (lit "developer") then
        let content :=
          filter (fun ci => match ci with InputText text => model_switch_matches_text text | _ => false end = false) content in
        if is_empty content then None else Some (mkEnvelope (Message id role content phase m) (env_metadata e))
      else Some e
  | _ => Some e
  end.

Definition drop_last_n_user_turns (num_turns : nat) (c : ContextManager) : ContextManager :=
  if Nat.eqb num_turns 0 then c
  else
    let snapshot := items c in
    let user_positions := user_message_positions snapshot in
    match user_positions with
    | [] => replace_annotated snapshot c
    | first_instruction_turn_idx :: _ =>
        let cut_idx :=
          if Nat.leb (length user_positions) num_turns then first_instruction_turn_idx
          else nth (length user_positions - num_turns) user_positions 0 in
        let '(cut_idx, c) := trim_pre_turn_context_updates snapshot first_instruction_turn_idx cut_idx c in
        let retained_items := take cut_idx snapshot in
        let retained_items :=
          if Nat.eqb cut_idx first_instruction_turn_idx then
            match snapshot !! first_instruction_turn_idx ≫= fun e => turn_id (env_item e) with
            | Some first_turn_id => omap (without_model_switch first_turn_id) retained_items
            | None => retained_items
            end
          else retained_items in
        replace_annotated retained_items c
    end.

(** *** Estimates of tokens *)

Definition estimate_reasoning_length (encoded_len : N) : N := (usize_mul encoded_len 3 / 4 - 650)%N.
Definition estimate_encrypted_function_output_length (encoded_len : N) : N := ((usize_mul encoded_len 9 + 15) / 16)%N.

Definition RESIZED_IMAGE_BYTES_ESTIMATE : Z := 7373.
Definition ORIGINAL_IMAGE_PATCH_SIZE : Z := 32.
Definition ORIGINAL_IMAGE_MAX_PATCHES : N := 10000.

(** The payload of a [data:] URL of the media type, in base64. *)
Definition parse_base64_data_url (url media_type_prefix : str) : option str :=
  if negb (is_some_and (get_to 5 url) (fun prefix => eq_ignore_ascii_case prefix (lit "data:"))) then None
  else
    '(metadata, payload) ← split_once 44 url;
    let metadata_without_scheme := drop 5 metadata in
    match split 59 metadata_without_scheme with
    | [] => None
    | mime_type :: metadata_parts =>
        let has_base64_marker := existsb (fun part => eq_ignore_ascii_case part (lit "base64")) metadata_parts in
        if negb (is_some_and (get_to (str_len media_type_prefix) mime_type)
                   (fun prefix => eq_ignore_ascii_case prefix media_type_prefix))
        then None
        else if negb has_base64_marker then None
        else Some payload
    end.

Definition parse_base64_image_data_url (url : str) : option str := parse_base64_data_url url (lit "image/").
Definition parse_base64_audio_data_url (url : str) : option str := parse_base64_data_url url (lit "audio/").

Definition estimate_original_image_bytes (image_url : str) : option Z :=
  payload ← parse_base64_image_data_url image_url;
  '(width, height) ← image_dimensions payload;
  let patches n := (sat64 (Z.of_N n + (ORIGINAL_IMAGE_PATCH_SIZE - 1)) / ORIGINAL_IMAGE_PATCH_SIZE)%Z in
  let patch_count := Z.to_N (sat64 (patches width * patches height)) in
  Some (i64_of (approx_bytes_for_tokens (N.min patch_count ORIGINAL_IMAGE_MAX_PATCHES))).

(** Payload bytes to take off, and the bytes to put in their place. *)
Definition add_adjustment (a b : Z * Z) : Z * Z := (sat64 (a.1 + b.1), sat64 (a.2 + b.2)).

Definition image_adjustment (image_url : str) (detail : option ImageDetail) : option (Z * Z) :=
  payload ← parse_base64_image_data_url image_url;
  Some (i64_of (str_len payload),
        match detail with
        | Some DetailOriginal => default RESIZED_IMAGE_BYTES_ESTIMATE (estimate_original_image_bytes image_url)
        | _ => RESIZED_IMAGE_BYTES_ESTIMATE
        end).

Definition audio_adjustment (audio_url : str) : option (Z * Z) :=
  payload ← parse_base64_audio_data_url audio_url;
  Some (i64_of (str_len payload), i64_of (approx_bytes_for_tokens (estimate_audio_token_count audio_url))).

Definition encrypted_adjustment (encrypted_content : str) : option (Z * Z) :=
  Some (i64_of (str_len encrypted_content), i64_of (estimate_encrypted_function_output_length (str_len encrypted_content))).

Definition accumulate (l : list (Z * Z)) : Z * Z := foldl add_adjustment (0%Z, 0%Z) l.

Definition body_items (output : FunctionCallOutputPayload) : list FunctionCallOutputContentItem :=
  match payload_body output with BodyContentItems its => its | BodyText _ => [] end.

Definition image_data_url_estimate_adjustment (item : ResponseItem) : Z * Z :=
  accumulate
    (match item with
     | Message _ _ content _ _ => omap (fun c => match c with InputImage url detail => image_adjustment url detail | _ => None end) content
     | FunctionCallOutput _ _ output _ | CustomToolCallOutput _ _ _ output _ =>
         omap (fun c => match c with OutInputImage url detail => image_adjustment url detail | _ => None end) (body_items output)
     | _ => []
     end).

Definition audio_data_url_estimate_adjustment (item : ResponseItem) : Z * Z :=
  accumulate
    (match item with
     | Message _ _ content _ _ => omap (fun c => match c with InputAudio url => audio_adjustment url | _ => None end) content
     | FunctionCallOutput _ _ output _ | CustomToolCallOutput _ _ _ output _ =>
         omap (fun c => match c with OutInputAudio url => audio_adjustment url | _ => None end) (body_items output)
     | _ => []
     end).

Definition encrypted_function_output_estimate_adjustment (item : ResponseItem) : Z * Z :=
  accumulate
    (match item with
     | FunctionCallOutput _ _ output _ =>
         omap (fun c => match c with OutEncryptedContent enc => encrypted_adjustment enc | _ => None end) (body_items output)
     | AgentMessage _ _ _ content _ =>
         omap (fun c => match c with AgentEncryptedContent enc => encrypted_adjustment enc | _ => None end) content
     | _ => []
     end).

Definition estimate_response_item_model_visible_bytes (item : ResponseItem) : Z :=
  match item with
  | Reasoning _ _ _ (Some content) _ | Compaction _ content _ | ContextCompaction _ (Some content) _ =>
      i64_of (estimate_reasoning_length (str_len content))
  | _ =>
      let raw := match serialized_len item with Some n => i64_of n | None => 0%Z end in
      let '(image_payload_bytes, image_replacement_bytes) := image_data_url_estimate_adjustment item in
      let '(audio_payload_bytes, audio_replacement_bytes) := audio_data_url_estimate_adjustment item in
      let '(encrypted_payload_bytes, encrypted_replacement_bytes) := encrypted_function_output_estimate_adjustment item in
      let raw := sat64 (sat64 (sat64 (sat64 (raw - image_payload_bytes) + image_replacement_bytes) - audio_payload_bytes) +
                        audio_replacement_bytes) in
      sat64 (sat64 (raw - encrypted_payload_bytes) + encrypted_replacement_bytes)
  end.

Definition estimate_item_token_count (item : ResponseItem) : Z :=
  approx_tokens_from_byte_count_i64 (estimate_response_item_model_visible_bytes item).

Definition sum_tokens (its : list ResponseItem) : Z := foldl (fun acc item => sat64 (acc + estimate_item_token_count item)) 0%Z its.

Definition estimate_token_count_with_base_instructions (base_instructions : str) (c : ContextManager) : option Z :=
  Some (sat64 (i64_of (approx_token_count base_instructions) + sum_tokens (raw_items c))).

Definition is_model_generated_item (item : ResponseItem) : bool :=
  match item with
  | Message _ role _ _ _ => str_eqb role (lit "assistant")
  | Reasoning _ _ _ _ _ | FunctionCall _ _ _ _ _ _ _ | ToolSearchCall _ _ _ _ _ _ | WebSearchCall _ _ _ _
  | ImageGenerationCall _ _ _ _ _ | CustomToolCall _ _ _ _ _ _ _ | LocalShellCall _ _ _ _ _ | Compaction _ _ _
  | ContextCompaction _ _ _ => true
  | CompactionTrigger | AdditionalTools _ _ _ | FunctionCallOutput _ _ _ _ | ToolSearchOutput _ _ _ _ _ _
  | CustomToolCallOutput _ _ _ _ _ | AgentMessage _ _ _ _ _ | OtherItem => false
  end.

(** [rposition]. *)
Fixpoint rposition (p : ResponseItem -> bool) (its : list ResponseItem) : option nat :=
  match its with
  | [] => None
  | item :: its =>
      match rposition p its with
      | Some i => Some (S i)
      | None => if p item then Some 0 else None
      end
  end.

Definition is_encrypted_reasoning (item : ResponseItem) : bool :=
  match item with Reasoning _ _ _ (Some _) _ => true | _ => false end.

Definition get_non_last_reasoning_items_tokens (c : ContextManager) : Z :=
  match rposition is_user_turn_boundary (raw_items c) with
  | None => 0%Z
  | Some last_user_index => sum_tokens (filter (fun item => is_encrypted_reasoning item = true) (take last_user_index (raw_items c)))
  end.

Definition items_after_last_model_generated_item (c : ContextManager) : list ResponseItem :=
  let start := match rposition is_model_generated_item (raw_items c) with Some index => index + 1 | None => length (raw_items c) end in
  drop start (raw_items c).

Definition estimated_tokens_after_last_model_generated_item (c : ContextManager) : Z :=
  sum_tokens (items_after_last_model_generated_item c).

Definition get_total_token_usage (server_reasoning_included : bool) (c : ContextManager) : Z :=
  let last_tokens := match token_info c with Some info => total_tokens (last_token_usage info) | None => 0%Z end in
  let after := estimated_tokens_after_last_model_generated_item c in
  if server_reasoning_included then sat64 (last_tokens + after)
  else sat64 (sat64 (last_tokens + get_non_last_reasoning_items_tokens c) + after).

(** ** Eviction *)

(** Evicting the oldest item keeps calls and outputs paired.  In a paired history where no
    call id is used twice, the oldest item goes together with its counterpart, whichever of
    the two is older; the rest stays in order, is paired again, and is shorter, so evicting
    until the history fits comes to an end. *)
Theorem eviction_keeps_pairs c (Hp : paired (items c)) (Hu : unique_keys (items c)) :
  let c' := remove_first_item c in
  paired (items c') /\ unique_keys (items c') /\ items c' `sublist_of` tail (items c) /\
  (items c = [] \/ length (items c') < length (items c)).
Proof.
  unfold remove_first_item. destruct (items c) as [|e rest] eqn:E; simpl; [rewrite E; by split_and!; [|..|left]|].
  pose proof (remove_corresponding_sublist (env_item e) rest) as Hs. split_and!; [by apply paired_evict| |done|].
  - eapply unique_keys_sublist; [|exact Hu]. by constructor.
  - right. apply sublist_length in Hs. lia.
Qed.

(** ** Rollback *)

(** The messages that begin a turn. *)
Definition turns (its : list ResponseItemEnvelope) : list ResponseItemEnvelope :=
  filter (fun e => is_user_turn_boundary (env_item e) = true) its.

Lemma elem_of_turns e its : e ∈ turns its -> turns [e] = [e].
Proof. unfold turns. intros [Hb _]%list_elem_of_filter. by rewrite filter_cons_True. Qed.

Lemma positions_from_length idx its : length (positions_from idx its) = length (turns its).
Proof.
  revert idx. induction its as [|e its IH]; intros idx; simpl; [done|]. unfold turns in *. rewrite filter_cons.
  destruct (is_user_turn_boundary (env_item e)); simpl; by rewrite IH.
Qed.

(** Before the position of a turn are the turns before it. *)
Lemma positions_from_lookup idx its i p :
  positions_from idx its !! i = Some p ->
  idx <= p /\ turns (take (p - idx) its) = take i (turns its) /\
  exists e, its !! (p - idx) = Some e /\ is_user_turn_boundary (env_item e) = true.
Proof.
  revert idx i. induction its as [|e its IH]; intros idx i; [done|]. simpl. unfold turns in *. rewrite filter_cons.
  destruct (is_user_turn_boundary (env_item e)) eqn:E; simpl.
  - destruct i as [|i]; simpl.
    + intros [= ->]. rewrite Nat.sub_diag. split_and!; [done|done|by exists e].
    + intros (Hle & Ht & He)%IH. replace (p - idx) with (S (p - S idx)) by lia. cbn [take]. rewrite filter_cons, E. simpl.
      split_and!; [lia|by rewrite Ht|done].
  - intros (Hle & Ht & He)%IH. replace (p - idx) with (S (p - S idx)) by lia. cbn [take]. rewrite filter_cons, E. simpl.
    split_and!; [lia|done|done].
Qed.

Lemma trimmable_not_turn item b : trimmable item = Some b -> is_user_turn_boundary item = false.
Proof.
  destruct item; simpl; try done. destruct (str_eqb role (lit "developer")) eqn:Ed.
  - assert (role = lit "developer") as -> by (by apply bool_decide_eq_true in Ed). done.
  - destruct (str_eqb role (lit "user")) eqn:Eu; [|done]. assert (role = lit "user") as -> by (by apply bool_decide_eq_true in Eu).
    simpl. destruct (is_contextual_user_message_content content); [done|done].
Qed.

(** A message that only updates the context of the turn after it: a developer message or a
    user message with a fragment that the program wrote. *)
Definition context_update (e : ResponseItemEnvelope) : Prop :=
  match env_item e with
  | Message _ role content _ _ =>
      role = lit "developer" /\ Exists (fun ci => is_contextual_dev_fragment ci = true) content \/
      role = lit "user" /\ Exists (fun ci => is_contextual_user_fragment ci = true) content
  | _ => False
  end.

(** A developer message that also carries text of another kind. *)
Definition mixed_bundle (e : ResponseItemEnvelope) : bool :=
  match env_item e with
  | Message _ role content _ _ => str_eqb role (lit "developer") && existsb (fun ci => negb (is_contextual_dev_fragment ci)) content
  | _ => false
  end.

Lemma existsb_Exists_true {A} (f : A -> bool) l : existsb f l = true <-> Exists (fun x => f x = true) l.
Proof. rewrite existsb_exists, Exists_exists. by setoid_rewrite list_elem_of_In. Qed.

Lemma str_eqb_reflect (a b : str) : reflect (a = b) (str_eqb a b).
Proof. apply bool_decide_reflect. Qed.

Lemma trimmable_spec e :
  match trimmable (env_item e) with Some mixed => context_update e /\ mixed = mixed_bundle e | None => ~ context_update e end.
Proof.
  unfold trimmable, context_update, mixed_bundle, is_contextual_dev_message_content, is_contextual_user_message_content.
  destruct (env_item e) as [|id role content phase m| | | | | | | | | | | | | | |]; try (by intros []).
  pose proof (existsb_Exists_true is_contextual_dev_fragment content) as HD. pose proof (existsb_Exists_true is_contextual_user_fragment content) as HU.
  destruct (str_eqb_reflect role (lit "developer")) as [->|Hd], (existsb is_contextual_dev_fragment content); simpl.
  1, 2: naive_solver.
  all: destruct (str_eqb_reflect role (lit "user")) as [->|Hu], (existsb is_contextual_user_fragment content); simpl; naive_solver.
Qed.

(** The walk back steps over updates of the context, passes no turn, and stops at an item of
    another kind or at the first turn. *)
Lemma trim_loop_spec snapshot first cut clear cut' clear' :
  first <= cut -> cut <= length snapshot -> trim_loop snapshot first cut clear = (cut', clear') ->
  first <= cut' /\ exists ctx, take cut snapshot = take cut' snapshot ++ ctx /\ Forall context_update ctx /\
    clear' = clear || existsb mixed_bundle ctx /\
    (cut' = first \/ forall e, last (take cut' snapshot) = Some e -> ~ context_update e).
Proof.
  revert clear. induction cut as [|above IH]; intros clear Hle Hlen; cbn [trim_loop].
  { intros [= <- <-]. split; [done|]. exists []. split_and!; [done|done|by destruct clear|left; lia]. }
  destruct (Nat.ltb_spec first (S above)) as [Hlt|Hge]; [|].
  2: { intros [= <- <-]. split; [done|]. exists []. split_and!; [by rewrite app_nil_r|done|by destruct clear|left; lia]. }
  destruct (lookup_lt_is_Some_2 snapshot above Hlen) as [e Ee]. rewrite Ee. cbn [mbind option_bind].
  pose proof (trimmable_spec e) as Hs. destruct (trimmable (env_item e)) as [mixed|].
  - destruct Hs as [Hc ->]. intros (Hf & ctx & Htk & Hall & -> & Hstop)%IH; [|lia..]. split; [done|]. exists (ctx ++ [e]).
    rewrite (take_S_r _ _ _ Ee), Htk, app_assoc, existsb_app. split_and!; [done|by apply Forall_app; split; [|constructor]|simpl|done].
    rewrite orb_false_r. by destruct clear, (mixed_bundle e), (existsb mixed_bundle ctx).
  - intros [= <- <-]. split; [done|]. exists []. split_and!; [by rewrite app_nil_r|done|by destruct clear|right]. intros e'.
    rewrite (take_S_r _ _ _ Ee), last_snoc. by intros [= <-].
Qed.

Definition switches_model (ci : ContentItem) : bool :=
  match ci with InputText text => model_switch_matches_text text | _ => false end.

(** What is left of the items before the first turn when that turn, [tid], is dropped: texts
    that switch the model leave the developer messages of the turn, and such a message that
    has no other content goes. *)
Inductive without_switches (tid : str) : list ResponseItemEnvelope -> list ResponseItemEnvelope -> Prop :=
| switches_nil : without_switches tid [] []
| switches_other e its its' :
    (forall id content phase m, env_item e = Message id (lit "developer") content phase m -> turn_id (env_item e) <> Some tid) ->
    without_switches tid its its' -> without_switches tid (e :: its) (e :: its')
| switches_developer e id content phase m kept its its' :
    env_item e = Message id (lit "developer") content phase m -> turn_id (env_item e) = Some tid ->
    kept = filter (fun ci => switches_model ci = false) content ->
    without_switches tid its its' ->
    without_switches tid (e :: its)
      (if decide (kept = []) then its' else mkEnvelope (Message id (lit "developer") kept phase m) (env_metadata e) :: its').

Lemma without_model_switch_spec tid its : without_switches tid its (omap (without_model_switch tid) its).
Proof.
  induction its as [|e its IH]; [constructor|]. csimpl. unfold without_model_switch at 1.
  destruct (env_item e) as [|id role content phase m| | | | | | | | | | | | | | |] eqn:Ei; try (constructor; [by intros; congruence|done]).
  destruct (bool_decide (turn_id _ = Some tid) && str_eqb role (lit "developer")) eqn:Eb.
  - apply andb_true_iff in Eb as [Et%bool_decide_eq_true Er]. destruct (str_eqb_reflect role (lit "developer")) as [->|]; [|done]. clear Er.
    rewrite <- Ei in Et. fold switches_model. set (kept := filter _ content).
    pose proof (switches_developer tid e id content phase m kept its _ Ei Et eq_refl IH) as Hd.
    destruct kept; simpl; [done|]. exact Hd.
  - constructor; [|done]. intros id' content' phase' m' Hm Ht. rewrite Hm in Ei. simplify_eq. rewrite Hm in Ht. by rewrite bool_decide_true in Eb.
Qed.

Lemma turns_nil its : user_message_positions its = [] -> turns its = [].
Proof. intros Hp. apply nil_length_inv. rewrite <- (positions_from_length 0 its). fold (user_message_positions its). by rewrite Hp. Qed.

Lemma positions_after_first idx its first rest p : positions_from idx its = first :: rest -> p ∈ rest -> first < p.
Proof.
  revert idx. induction its as [|e its IH]; intros idx; simpl; [done|]. destruct (is_user_turn_boundary (env_item e)); [|by apply IH].
  intros [= <- <-] [i Hi]%list_elem_of_lookup. apply positions_from_lookup in Hi as [Hi _]. lia.
Qed.

(** The cut, before the walk back. *)
Definition cut_index (positions : list nat) (first num_turns : nat) : nat :=
  if Nat.leb (length positions) num_turns then first else nth (length positions - num_turns) positions 0.

Lemma turns_at its i p e :
  its !! p = Some e -> is_user_turn_boundary (env_item e) = true -> turns (take p its) = take i (turns its) -> i < length (turns its) ->
  turns its !! i = Some e.
Proof.
  intros He Hb Ht Hi. rewrite <- (take_drop_middle its p e He). unfold turns in *. rewrite filter_app, filter_cons_True by done.
  rewrite Ht, lookup_app_r by (rewrite length_take; lia). rewrite length_take, Nat.min_l by lia. by rewrite Nat.sub_diag.
Qed.

Lemma turns_cut its first rest num_turns :
  user_message_positions its = first :: rest -> num_turns <> 0 ->
  let cut := cut_index (first :: rest) first num_turns in
  let kept := length (turns its) - num_turns in
  exists e, its !! cut = Some e /\ turns its !! kept = Some e /\ turns (take cut its) = take kept (turns its) /\
    first <= cut /\ (kept <> 0 -> first < cut) /\ (kept = 0 -> cut = first).
Proof.
  intros Hp Hn cut kept. unfold cut, cut_index. pose proof (positions_from_length 0 its) as Hl. fold (user_message_positions its) in Hl.
  pose proof (positions_from_lookup 0 its kept) as Hf. fold (user_message_positions its) in Hf. rewrite Hp in Hl, Hf. rewrite Hl.
  destruct (lookup_lt_is_Some_2 (first :: rest) kept) as [p Hi]; [rewrite Hl; unfold kept; simpl in Hl; lia|].
  destruct (Hf p Hi) as (_ & Ht & e & He & Hb). rewrite Nat.sub_0_r in Ht, He.
  assert (turns its !! kept = Some e) as Hk by (apply (turns_at its kept p e); [done..|simpl in Hl; unfold kept; lia]).
  destruct (Nat.leb_spec (length (turns its)) num_turns) as [Hle|Hlt].
  - replace kept with 0 in * by (unfold kept; lia). simplify_eq/=. exists e. split_and!; try done; lia.
  - fold kept. rewrite (nth_lookup_Some _ _ _ _ Hi). assert (first < p) as Hfp.
    { apply (positions_after_first 0 its first rest); [done|]. replace kept with (S (kept - 1)) in Hi by (unfold kept; lia).
      simpl in Hi. by eapply list_elem_of_lookup_2. }
    exists e. split_and!; try done; unfold kept; lia.
Qed.

Lemma context_updates_no_turns ctx : Forall context_update ctx -> turns ctx = [].
Proof.
  induction 1 as [|e ctx Hc _ IH]; [done|]. unfold turns in *. rewrite filter_cons_False; [done|].
  pose proof (trimmable_spec e) as Hs. destruct (trimmable (env_item e)) eqn:Et; [|done]. by rewrite (trimmable_not_turn _ _ Et).
Qed.

(** What a rollback does where there are turns: the parts of the history before and after the cut. *)
Lemma rollback_cut num_turns c first rest :
  num_turns <> 0 -> user_message_positions (items c) = first :: rest ->
  let c' := drop_last_n_user_turns num_turns c in
  exists cut cut' ctx, first <= cut' /\ cut < length (items c) /\ first <= cut /\
    cut = cut_index (first :: rest) first num_turns /\
    take cut (items c) = take cut' (items c) ++ ctx /\ Forall context_update ctx /\
    reference_context_item c' = (if existsb mixed_bundle ctx then None else reference_context_item c) /\
    (cut' = first \/ forall e, last (take cut' (items c)) = Some e -> ~ context_update e) /\
    items c' = (if Nat.eqb cut' first then
                  match items c !! first ≫= fun e => turn_id (env_item e) with
                  | Some tid => omap (without_model_switch tid) (take cut' (items c)) | None => take cut' (items c) end
                else take cut' (items c)).
Proof.
  intros Hn Hp c'. destruct (turns_cut _ _ _ num_turns Hp Hn) as (e & He & _ & _ & Hle & _). pose proof (lookup_lt_Some _ _ _ He) as Hlen. unfold c', drop_last_n_user_turns.
  rewrite (proj2 (Nat.eqb_neq _ _) Hn), Hp. fold (cut_index (first :: rest) first num_turns). set (cut := cut_index _ _ _) in *.
  unfold trim_pre_turn_context_updates. destruct (trim_loop (items c) first cut false) as [cut' clear] eqn:El.
  apply trim_loop_spec in El as (Hf & ctx & Htk & Hall & -> & Hstop); [|lia..]. exists cut, cut', ctx. cbn [orb].
  split_and!; try done; destruct (existsb mixed_bundle ctx); done.
Qed.

Lemma rollback_version num_turns c :
  num_turns <> 0 -> let c' := drop_last_n_user_turns num_turns c in
  history_version c' = N.min (history_version c + 1) u64_max /\ world_state_baseline c' = None.
Proof.
  intros Hn. unfold drop_last_n_user_turns. rewrite (proj2 (Nat.eqb_neq _ _) Hn). destruct (user_message_positions _); [done|].
  unfold trim_pre_turn_context_updates. by destruct (trim_loop _ _ _ _) as [? []].
Qed.

Lemma rollback_without_turns num_turns c :
  turns (items c) = [] -> let c' := drop_last_n_user_turns num_turns c in
  items c' = items c /\ reference_context_item c' = reference_context_item c.
Proof.
  intros Ht. unfold drop_last_n_user_turns. destruct (Nat.eqb num_turns 0); [done|].
  pose proof (positions_from_length 0 (items c)) as Hl. fold (user_message_positions (items c)) in Hl. rewrite Ht in Hl.
  by apply nil_length_inv in Hl as ->.
Qed.

Lemma rollback_some num_turns c first rest :
  let c' := drop_last_n_user_turns num_turns c in
  let kept := length (turns (items c)) - num_turns in
  user_message_positions (items c) = first :: rest -> num_turns <> 0 -> kept <> 0 ->
  exists ctx dropped, items c = items c' ++ ctx ++ dropped /\
     turns (items c') = take kept (turns (items c)) /\ head dropped = turns (items c) !! kept /\
     Forall context_update ctx /\ (forall e, last (items c') = Some e -> ~ context_update e) /\
     reference_context_item c' = if existsb mixed_bundle ctx then None else reference_context_item c.
Proof.
  intros c' kept Hp Hn Hk. destruct (rollback_cut num_turns c first rest Hn Hp) as (cut & cut' & ctx & Hf & Hlen & Hle & -> & Htk & Hall & Href & Hstop & Hits).
  fold c' in Href, Hits. destruct (turns_cut _ _ _ num_turns Hp Hn) as (e & He & Hek & Ht & _ & Hlt & _). specialize (Hlt Hk).
  set (cut := cut_index _ _ _) in *.
  assert (turns (take cut' (items c)) = take kept (turns (items c))) as Ht'.
  { unfold kept. rewrite <- Ht, Htk. unfold turns at 2. rewrite filter_app. fold (turns ctx). by rewrite (context_updates_no_turns ctx), app_nil_r. }
  assert (cut' <> first) as Hne.
  { intros ->. pose proof (positions_from_lookup 0 (items c) 0 first) as Hf0. fold (user_message_positions (items c)) in Hf0. rewrite Hp in Hf0.
    destruct (Hf0 eq_refl) as (_ & Hf0' & _). rewrite Nat.sub_0_r, Ht' in Hf0'. apply (f_equal length) in Hf0'.
    rewrite !length_take in Hf0'. unfold kept in *. lia. }
  rewrite (proj2 (Nat.eqb_neq _ _) Hne) in Hits. rewrite Hits. exists ctx, (drop cut (items c)). split_and!; try done.
  - by rewrite app_assoc, <- Htk, take_drop.
  - by rewrite head_lookup, lookup_drop, Nat.add_0_r, He.
  - by destruct Hstop.
Qed.

Lemma rollback_all num_turns c first rest :
  let c' := drop_last_n_user_turns num_turns c in
  user_message_positions (items c) = first :: rest -> num_turns <> 0 -> length (turns (items c)) - num_turns = 0 ->
  exists before turn after, items c = before ++ turn :: after /\ turns before = [] /\ turns [turn] = [turn] /\
     match turn_id (env_item turn) with Some tid => without_switches tid before (items c') | None => items c' = before end /\
     reference_context_item c' = reference_context_item c.
Proof.
  intros c' Hp Hn Hk. destruct (rollback_cut num_turns c first rest Hn Hp) as (cut & cut' & ctx & Hf & Hlen & Hle & -> & Htk & Hall & Href & Hstop & Hits).
  fold c' in Href, Hits. destruct (turns_cut _ _ _ num_turns Hp Hn) as (e & He & Hek & Ht & _ & _ & Heq). rewrite (Heq Hk) in *. rewrite Hk in Ht, Hek.
  assert (ctx = [] /\ cut' = first) as [-> ->].
  { apply (f_equal length) in Htk. rewrite length_app, !length_take in Htk. pose proof (lookup_lt_Some _ _ _ He).
    split; [apply nil_length_inv|]; lia. }
  rewrite Nat.eqb_refl, He in Hits. cbn [mbind option_bind] in Hits.
  exists (take first (items c)), e, (drop (S first) (items c)). split_and!; try done.
  - by rewrite take_drop_middle.
  - apply (elem_of_turns e (items c)). by eapply list_elem_of_lookup_2.
  - rewrite Hits. destruct (turn_id (env_item e)); [apply without_model_switch_spec|done].
Qed.

(** C26: rolling back drops the last turns and leaves the others as they are.  While a turn is
    left, the history is what it was, but for an end that begins with the message of the first
    dropped turn and for the messages directly before it that only update the context of that
    turn: every reply and tool item of the turns that stay is kept; of those messages none is
    left at the end, and the reference context is forgotten when one of them carries other
    text too, else kept.  When all turns go, what came before the first turn is left, without
    the texts of that turn that switch the model.  Without a turn the items stay.  No rollback
    of zero turns does anything; every other one changes the version (also where there is no
    turn to drop, which the comment on the function calls a no-op) and forgets the baseline of
    the world state, so that the next turn is rendered in full. *)
Theorem rollback_drops_turns num_turns c :
  let c' := drop_last_n_user_turns num_turns c in
  let kept := length (turns (items c)) - num_turns in
  (num_turns = 0 -> c' = c) /\
  (num_turns <> 0 -> history_version c' = N.min (history_version c + 1) u64_max /\ world_state_baseline c' = None) /\
  (turns (items c) = [] -> items c' = items c /\ reference_context_item c' = reference_context_item c) /\
  (num_turns <> 0 -> kept <> 0 ->
   exists ctx dropped, items c = items c' ++ ctx ++ dropped /\
     turns (items c') = take kept (turns (items c)) /\ head dropped = turns (items c) !! kept /\
     Forall context_update ctx /\ (forall e, last (items c') = Some e -> ~ context_update e) /\
     reference_context_item c' = if existsb mixed_bundle ctx then None else reference_context_item c) /\
  (turns (items c) <> [] -> kept = 0 ->
   exists before first after, items c = before ++ first :: after /\ turns before = [] /\ turns [first] = [first] /\
     match turn_id (env_item first) with Some tid => without_switches tid before (items c') | None => items c' = before end /\
     reference_context_item c' = reference_context_item c).
Proof.
  intros c' kept. split; [by intros ->|]. split; [apply rollback_version|]. split; [intros Ht; by apply rollback_without_turns|].
  destruct (user_message_positions (items c)) as [|first rest] eqn:Hp.
  { unfold kept. rewrite (turns_nil _ Hp). by split. }
  split.
  - intros Hn Hk. by apply (rollback_some num_turns c first rest).
  - intros Ht Hk. apply (rollback_all num_turns c first rest); [done| |done]. intros ->. apply Ht, nil_length_inv.
    unfold kept in Hk. lia.
Qed.

(** ** Recording *)

Definition payload_text_len (output : FunctionCallOutputPayload) : N :=
  match payload_body output with BodyText content => str_len content | BodyContentItems its => items_text_len its end.

Definition payload_fits (output : FunctionCallOutputPayload) : Prop :=
  match payload_body output with BodyText _ => True | BodyContentItems its => Forall text_fits its end.

Definition item_fits (item : ResponseItem) : Prop :=
  match item with FunctionCallOutput _ _ output _ | CustomToolCallOutput _ _ _ output _ => payload_fits output | _ => True end.

(** The texts of an output of a function or custom tool take at most the bytes of the budget
    and of three markers; the images, the audio and the encrypted parts of it are not
    counted, and other items are not bounded. *)
Definition output_within (policy : TruncationPolicy) (item : ResponseItem) : Prop :=
  let policy := policy_mul policy ONE_POINT_TWO in
  match item with
  | FunctionCallOutput _ _ output _ | CustomToolCallOutput _ _ _ output _ =>
      (payload_text_len output <= limit_bytes policy (policy_limit policy) + 134)%N
  | _ => True
  end.

Lemma truncated_payload_within output policy :
  payload_fits output ->
  (payload_text_len (truncate_function_output_payload estimate_audio_token_count output policy) <=
   limit_bytes policy (policy_limit policy) + 134)%N.
Proof.
  destruct output as [[content|its] success]; unfold payload_fits, payload_text_len; simpl; intros Hf.
  - pose proof (truncate_text_bound content policy (policy_limit policy)) as Hb.
    replace (with_limit policy (policy_limit policy)) with policy in Hb by (by destruct policy). lia.
  - by apply truncated_items_text_len.
Qed.

Lemma process_item_within item policy : item_fits item -> output_within policy (process_item item policy).
Proof. destruct item; simpl; try done; apply truncated_payload_within. Qed.

Lemma record_items_with_metadata_eq its policy c :
  items (record_items_with_metadata its policy c) =
  items c ++ omap (fun '(item, m) => if is_api_message item then Some (mkEnvelope (process_item item policy) m) else None) its.
Proof.
  revert c. induction its as [|[item m] its IH]; intros c; simpl; [by rewrite app_nil_r|]. unfold record_items_with_metadata in *. simpl.
  rewrite IH. destruct (is_api_message item); simpl; [by rewrite <- app_assoc|done].
Qed.

(** What the recorded form of an output has in common with the output. *)
Definition payload_kept (output output' : FunctionCallOutputPayload) : Prop :=
  payload_success output' = payload_success output /\
  match payload_body output, payload_body output' with
  | BodyText _, BodyText _ => True
  | BodyContentItems its, BodyContentItems its' => free_items its' = free_items its
  | _, _ => False
  end.

(** An item and its recorded form: they differ in the texts and the audio of tool outputs only. *)
Definition recorded_as (item item' : ResponseItem) : Prop :=
  match item with
  | FunctionCallOutput id call_id output m =>
      exists output', item' = FunctionCallOutput id call_id output' m /\ payload_kept output output'
  | CustomToolCallOutput id call_id name output m =>
      exists output', item' = CustomToolCallOutput id call_id name output' m /\ payload_kept output output'
  | _ => item' = item
  end.

Lemma truncated_payload_kept output policy : payload_kept output (truncate_function_output_payload estimate_audio_token_count output policy).
Proof. destruct output as [[content|its] success]; split; simpl; try done. apply truncated_items_free. Qed.

Lemma process_item_recorded item policy : recorded_as item (process_item item policy).
Proof. destruct item; simpl; try done; eexists; (split; [done|apply truncated_payload_kept]). Qed.


End history.

(** ** A concrete history *)

Definition plain_json : Json := {| Value := unit; Number := unit |}.
Definition plain_uuid : UuidOps := {| new_v5 := fun name => name |}.
Definition plain_history : @HistoryOps plain_json := {|
  TurnContextItem := unit; WorldState := unit; WorldStateSnapshot := unit; WorldStateItem := unit; Fragment := unit;
  world_snapshot := fun w => w; render_history_diff := fun _ _ _ => []; world_state_full := fun _ => tt; world_state_patch := fun _ _ => None;
  serialized_len := fun _ => None; estimate_audio_token_count := fun _ => 0%N; image_dimensions := fun _ => None |}.

Section example.
#[local] Existing Instances plain_json plain_uuid plain_history plain_fragments.

Definition example_items : list ResponseItem :=
  [ Message None (lit "user") [InputText (lit "list the files")] None None;
    FunctionCall None (lit "shell") None (lit "{}") None (lit "c1") None;
    FunctionCallOutput None (lit "c1") (payload_from_text (lit "a.txt b.txt c.txt d.txt")) None;
    FunctionCall None (lit "shell") None (lit "{}") None (lit "c2") None ].

Definition example_history : ContextManager :=
  mkContextManager (envelope_new <$> take 3 (drop 1 example_items) ++ [FunctionCallOutput None (lit "c2") (payload_from_text []) None])
    0 None None None.
End example.

Lemma eviction_keeps_pairs_witness :
  paired (items example_history) /\ paired (items (@remove_first_item plain_json plain_history example_history)).
Proof.
  assert (paired (items example_history)) as Hp.
  { replace (items example_history) with (@with_pairs plain_json plain_uuid (items example_history)) by (vm_compute; reflexivity).
    apply paired_with_pairs. }
  split; [exact Hp|]. apply (@eviction_keeps_pairs plain_json plain_history example_history Hp).
  split; apply (bool_decide_unpack _); vm_compute; exact I.
Defined.

