(* ===== verification/NetAddr.v ===== *)
(** * Internet addresses

    [std::net::IpAddr] as [network-proxy] uses it: the parser of [FromStr], the
    classification helpers of the Standard Library, and the classification of
    [network-proxy/src/policy.rs] ([is_non_public_ip]) that keeps requests away from local
    and private networks.  Octets and segments are numbers below 2^8 and 2^16; masks are
    computed at 32 bits. *)

From stdpp Require Import base list strings.
From Stdlib Require Import NArith.
From S2P Require Import Prelude.
Local Open Scope N_scope.

(** ** [std::net] *)

Record Ipv4Addr := mkIpv4 { oct_a : N; oct_b : N; oct_c : N; oct_d : N }.

(** The eight 16-bit segments. *)
Record Ipv6Addr := mkIpv6 {
  seg0 : N; seg1 : N; seg2 : N; seg3 : N; seg4 : N; seg5 : N; seg6 : N; seg7 : N }.

Inductive IpAddr := V4 (a : Ipv4Addr) | V6 (a : Ipv6Addr).

#[export] Instance Ipv4Addr_eq_dec : EqDecision Ipv4Addr.
Proof. solve_decision. Defined.
#[export] Instance Ipv6Addr_eq_dec : EqDecision Ipv6Addr.
Proof. solve_decision. Defined.
#[export] Instance IpAddr_eq_dec : EqDecision IpAddr.
Proof. solve_decision. Defined.

(** [Parser]: a reader consumes a prefix or leaves its input alone. *)
Definition reader (A : Type) : Type := str -> option (A * str).

Definition read_given_char (c : N) : reader unit := fun s =>
  match s with x :: s' => if char_eqb x c then Some (tt, s') else None | [] => None end.

Definition read_separator {A} (sep : N) (index : nat) (inner : reader A) : reader A := fun s =>
  match index with
  | O => inner s
  | S _ => match read_given_char sep s with Some (_, s') => inner s' | None => None end
  end.

(** [char::to_digit]. *)
Definition to_digit (radix c : N) : option N :=
  let d := if (48 <=? c) && (c <=? 57) then Some (c - 48)
           else if (97 <=? c) && (c <=? 122) then Some (c - 87)
           else if (65 <=? c) && (c <=? 90) then Some (c - 55)
           else None in
  match d with Some d => if d <? radix then Some d else None | None => None end.

(** The digits of a number, as long as they last; more than [max_digits], or a value above
    [max], is a failure. *)
Fixpoint read_digits (radix max : N) (digits : nat) (acc : N) (count : nat) (s : str) : option (N * nat * str) :=
  match s with
  | c :: s' =>
      match to_digit radix c with
      | Some d =>
          let acc := acc * radix + d in
          if max <? acc then None
          else match digits with
               | O => None
               | S digits => read_digits radix max digits acc (S count) s'
               end
      | None => Some (acc, count, s)
      end
  | [] => Some (acc, count, s)
  end.

Definition read_number (radix max : N) (max_digits : nat) (allow_zero_prefix : bool) : reader N := fun s =>
  let has_leading_zero := match s with c :: _ => char_eqb c 48 | [] => false end in
  match read_digits radix max max_digits 0 O s with
  | Some (n, count, s') =>
      if Nat.eqb count 0 then None
      else if negb allow_zero_prefix && has_leading_zero && Nat.ltb 1 count then None
      else Some (n, s')
  | None => None
  end.

Definition dot_char : N := 46.
Definition colon_char : N := 58.

Definition read_octet (index : nat) : reader N := read_separator dot_char index (read_number 10 255 3 false).

Definition read_ipv4_addr : reader Ipv4Addr := fun s =>
  match read_octet 0 s with None => None | Some (a, s) =>
  match read_octet 1 s with None => None | Some (b, s) =>
  match read_octet 2 s with None => None | Some (c, s) =>
  match read_octet 3 s with None => None | Some (d, s) => Some (mkIpv4 a b c d, s) end end end end.

(** [read_groups] into an array of [limit] groups from position [i] on, with whether the
    last two came from an IPv4 address. *)
Fixpoint read_groups (room : nat) (i : nat) (s : str) : list N * bool * str :=
  match room with
  | O => ([], false, s)
  | S room' =>
      let v4 := match room' with
                | O => None
                | S _ => read_separator colon_char i read_ipv4_addr s
                end in
      match v4 with
      | Some (a, s') => ([oct_a a * 256 + oct_b a; oct_c a * 256 + oct_d a], true, s')
      | None =>
          match read_separator colon_char i (read_number 16 65535 4 true) s with
          | Some (g, s') => let '(gs, b, s'') := read_groups room' (S i) s' in (g :: gs, b, s'')
          | None => ([], false, s)
          end
      end
  end.

Definition ipv6_of_groups (gs : list N) : option Ipv6Addr :=
  match gs with
  | [a; b; c; d; e; f; g; h] => Some (mkIpv6 a b c d e f g h)
  | _ => None
  end.

Definition read_ipv6_addr : reader Ipv6Addr := fun s =>
  let '(head, head_ipv4, s) := read_groups 8 0 s in
  if Nat.eqb (length head) 8 then
    match ipv6_of_groups head with Some a => Some (a, s) | None => None end
  else if head_ipv4 then None
  else
    match read_given_char colon_char s with None => None | Some (_, s) =>
    match read_given_char colon_char s with None => None | Some (_, s) =>
      let '(tail, _, s) := read_groups (8 - (length head + 1)) 0 s in
      match ipv6_of_groups (head ++ replicate (8 - length head - length tail) 0 ++ tail) with
      | Some a => Some (a, s)
      | None => None
      end
    end end.

(** [host.parse::<IpAddr>()]: an address and nothing after it. *)
Definition parse_ip (s : str) : option IpAddr :=
  match read_ipv4_addr s with
  | Some (a, rest) => if is_empty rest then Some (V4 a) else None
  | None =>
      match read_ipv6_addr s with
      | Some (a, rest) => if is_empty rest then Some (V6 a) else None
      | None => None
      end
  end.

(** ** Classification *)

Definition v4_is_loopback (ip : Ipv4Addr) : bool := oct_a ip =? 127.
Definition v4_is_private (ip : Ipv4Addr) : bool :=
  (oct_a ip =? 10) || ((oct_a ip =? 172) && (16 <=? oct_b ip) && (oct_b ip <=? 31))
  || ((oct_a ip =? 192) && (oct_b ip =? 168)).
Definition v4_is_link_local (ip : Ipv4Addr) : bool := (oct_a ip =? 169) && (oct_b ip =? 254).
Definition v4_is_unspecified (ip : Ipv4Addr) : bool :=
  (oct_a ip =? 0) && (oct_b ip =? 0) && (oct_c ip =? 0) && (oct_d ip =? 0).
Definition v4_is_multicast (ip : Ipv4Addr) : bool := (224 <=? oct_a ip) && (oct_a ip <=? 239).
Definition v4_is_broadcast (ip : Ipv4Addr) : bool :=
  (oct_a ip =? 255) && (oct_b ip =? 255) && (oct_c ip =? 255) && (oct_d ip =? 255).

(** [u32::from]. *)
Definition v4_to_u32 (ip : Ipv4Addr) : N := ((oct_a ip * 256 + oct_b ip) * 256 + oct_c ip) * 256 + oct_d ip.

Definition u32_max : N := 4294967295.

Definition ipv4_in_cidr (ip base : Ipv4Addr) (prefix : N) : bool :=
  let mask := if prefix =? 0 then 0 else N.land (N.shiftl u32_max (32 - prefix)) u32_max in
  N.land (v4_to_u32 ip) mask =? N.land (v4_to_u32 base) mask.

Definition is_non_public_ipv4 (ip : Ipv4Addr) : bool :=
  v4_is_loopback ip || v4_is_private ip || v4_is_link_local ip || v4_is_unspecified ip
  || v4_is_multicast ip || v4_is_broadcast ip
  || ipv4_in_cidr ip (mkIpv4 0 0 0 0) 8
  || ipv4_in_cidr ip (mkIpv4 100 64 0 0) 10
  || ipv4_in_cidr ip (mkIpv4 192 0 0 0) 24
  || ipv4_in_cidr ip (mkIpv4 192 0 2 0) 24
  || ipv4_in_cidr ip (mkIpv4 198 18 0 0) 15
  || ipv4_in_cidr ip (mkIpv4 198 51 100 0) 24
  || ipv4_in_cidr ip (mkIpv4 203 0 113 0) 24
  || ipv4_in_cidr ip (mkIpv4 240 0 0 0) 4.

(** [to_ipv4]: of a compatible or a mapped address. *)
Definition v6_to_ipv4 (ip : Ipv6Addr) : option Ipv4Addr :=
  if (seg0 ip =? 0) && (seg1 ip =? 0) && (seg2 ip =? 0) && (seg3 ip =? 0) && (seg4 ip =? 0)
     && ((seg5 ip =? 0) || (seg5 ip =? 65535))
  then Some (mkIpv4 (seg6 ip / 256) (seg6 ip mod 256) (seg7 ip / 256) (seg7 ip mod 256))
  else None.

Definition v6_is_loopback (ip : Ipv6Addr) : bool := bool_decide (ip = mkIpv6 0 0 0 0 0 0 0 1).
Definition v6_is_unspecified (ip : Ipv6Addr) : bool := bool_decide (ip = mkIpv6 0 0 0 0 0 0 0 0).
Definition v6_is_multicast (ip : Ipv6Addr) : bool := N.land (seg0 ip) 65280 =? 65280.
Definition v6_is_unique_local (ip : Ipv6Addr) : bool := N.land (seg0 ip) 65024 =? 64512.
Definition v6_is_unicast_link_local (ip : Ipv6Addr) : bool := N.land (seg0 ip) 65472 =? 65152.

Definition is_non_public_ipv6 (ip : Ipv6Addr) : bool :=
  match v6_to_ipv4 ip with
  | Some v4 => is_non_public_ipv4 v4 || v6_is_loopback ip
  | None =>
      v6_is_loopback ip || v6_is_unspecified ip || v6_is_multicast ip || v6_is_unique_local ip
      || v6_is_unicast_link_local ip
  end.

Definition is_non_public_ip (ip : IpAddr) : bool :=
  match ip with V4 ip => is_non_public_ipv4 ip | V6 ip => is_non_public_ipv6 ip end.

Definition ip_is_loopback (ip : IpAddr) : bool :=
  match ip with V4 ip => v4_is_loopback ip | V6 ip => v6_is_loopback ip end.

(** ** Ranges *)

(** A value of the type: every octet or segment fits its width. *)
Definition v4_ok (ip : Ipv4Addr) : Prop := oct_a ip < 256 /\ oct_b ip < 256 /\ oct_c ip < 256 /\ oct_d ip < 256.

Lemma v4_to_u32_bound ip : v4_ok ip -> v4_to_u32 ip < 4294967296.
Proof. unfold v4_ok, v4_to_u32. lia. Qed.

(** Masking off the low [k] bits of a 32-bit number. *)
Lemma land_high_mask x k :
  x < 4294967296 -> k <= 32 ->
  N.land x (N.land (N.shiftl u32_max k) u32_max) = x / 2 ^ k * 2 ^ k.
Proof.
  intros Hx Hk. rewrite <- N.shiftr_div_pow2, <- N.shiftl_mul_pow2.
  apply N.bits_inj. intros n. rewrite !N.land_spec.
  assert (forall m, N.testbit u32_max m = (m <? 32)) as Hmax.
  { intros m. change u32_max with (N.ones 32). destruct (N.ltb_spec m 32) as [Hm|Hm];
      [by apply N.ones_spec_low|by apply N.ones_spec_high]. }
  assert (32 <= n -> N.testbit x n = false) as Hhigh.
  { intros Hn. destruct (N.eq_dec x 0) as [->|Hne]; [apply N.bits_0|].
    apply N.bits_above_log2. apply N.log2_lt_pow2; [lia|].
    apply N.lt_le_trans with (2 ^ 32); [done|]. apply N.pow_le_mono_r; lia. }
  destruct (N.lt_ge_cases n k) as [Hn|Hn].
  - rewrite (N.shiftl_spec_low _ _ _ Hn), (N.shiftl_spec_low _ _ _ Hn). by rewrite andb_false_r.
  - rewrite !N.shiftl_spec_high' by done. rewrite !Hmax, N.shiftr_spec', N.sub_add by done.
    destruct (N.ltb_spec n 32) as [Hn32|Hn32]; [|rewrite Hhigh by done; done].
    rewrite (proj2 (N.ltb_lt (n - k) 32)) by lia. by rewrite !andb_true_r.
Qed.

(** A block of addresses is an interval of numbers. *)
Lemma ipv4_in_cidr_range ip base prefix :
  v4_ok ip -> v4_ok base -> 0 < prefix <= 32 -> v4_to_u32 base mod 2 ^ (32 - prefix) = 0 ->
  ipv4_in_cidr ip base prefix = true <->
  v4_to_u32 base <= v4_to_u32 ip < v4_to_u32 base + 2 ^ (32 - prefix).
Proof.
  intros Hip Hbase [Hp Hp'] Hal. unfold ipv4_in_cidr.
  rewrite (proj2 (N.eqb_neq prefix 0)) by lia. rewrite N.eqb_eq.
  apply v4_to_u32_bound in Hip, Hbase. rewrite !land_high_mask by (done || lia).
  set (k := 2 ^ (32 - prefix)) in *. assert (0 < k) by (apply N.neq_0_lt_0, N.pow_nonzero; done).
  pose proof (N.div_mod (v4_to_u32 base) k ltac:(lia)) as Hb.
  pose proof (N.div_mod (v4_to_u32 ip) k ltac:(lia)) as Hi.
  pose proof (N.mod_lt (v4_to_u32 ip) k ltac:(lia)) as Hr. rewrite Hal in Hb.
  generalize dependent (v4_to_u32 ip mod k). intros r Hi Hr.
  generalize dependent (v4_to_u32 ip). generalize dependent (v4_to_u32 base). intros b Hbb Hal Hb i Hib.
  set (qb := b / k) in *. set (qi := i / k). intros Hi. split.
  - intros E. lia.
  - intros [H1 H2]. assert (qi = qb) as ->; [|done]. clearbody qi qb. clear -H H1 H2 Hi Hb Hr. nia.
Qed.

(** The blocks of IPv4 addresses that are not public, in order: first and last address. *)
Definition NON_PUBLIC_IPV4 : list (Ipv4Addr * Ipv4Addr) :=
  [ (mkIpv4 0 0 0 0, mkIpv4 0 255 255 255);
    (mkIpv4 10 0 0 0, mkIpv4 10 255 255 255);
    (mkIpv4 100 64 0 0, mkIpv4 100 127 255 255);
    (mkIpv4 127 0 0 0, mkIpv4 127 255 255 255);
    (mkIpv4 169 254 0 0, mkIpv4 169 254 255 255);
    (mkIpv4 172 16 0 0, mkIpv4 172 31 255 255);
    (mkIpv4 192 0 0 0, mkIpv4 192 0 0 255);
    (mkIpv4 192 0 2 0, mkIpv4 192 0 2 255);
    (mkIpv4 192 168 0 0, mkIpv4 192 168 255 255);
    (mkIpv4 198 18 0 0, mkIpv4 198 19 255 255);
    (mkIpv4 198 51 100 0, mkIpv4 198 51 100 255);
    (mkIpv4 203 0 113 0, mkIpv4 203 0 113 255);
    (mkIpv4 224 0 0 0, mkIpv4 255 255 255 255) ].

Definition v4_between (ip : Ipv4Addr) (block : Ipv4Addr * Ipv4Addr) : bool :=
  (v4_to_u32 (fst block) <=? v4_to_u32 ip) && (v4_to_u32 ip <=? v4_to_u32 (snd block)).

(** A mask test as a comparison, for one of the blocks of the source. *)
Lemma ipv4_in_cidr_between ip base last prefix :
  v4_ok ip -> v4_ok base -> 0 < prefix <= 32 -> v4_to_u32 base mod 2 ^ (32 - prefix) = 0 ->
  v4_to_u32 base + 2 ^ (32 - prefix) = v4_to_u32 last + 1 ->
  ipv4_in_cidr ip base prefix = v4_between ip (base, last).
Proof.
  intros Hip Hb Hp Hal Hlast. apply eq_true_iff_eq. rewrite ipv4_in_cidr_range by done.
  unfold v4_between. rewrite andb_true_iff, !N.leb_le. simpl. lia.
Qed.

(** Octet tests as comparisons. *)
Ltac octets :=
  intros; apply eq_true_iff_eq; unfold v4_between, v4_is_loopback, v4_is_private, v4_is_link_local, v4_is_multicast,
    v4_ok, v4_to_u32 in *; simpl in *;
  rewrite ?orb_true_iff, ?andb_true_iff, ?N.eqb_eq, ?N.leb_le; lia.

Lemma v4_loopback_between ip : v4_ok ip -> v4_is_loopback ip = v4_between ip (mkIpv4 127 0 0 0, mkIpv4 127 255 255 255).
Proof. octets. Qed.
Lemma v4_private_between ip :
  v4_ok ip ->
  v4_is_private ip = v4_between ip (mkIpv4 10 0 0 0, mkIpv4 10 255 255 255)
    || v4_between ip (mkIpv4 172 16 0 0, mkIpv4 172 31 255 255)
    || v4_between ip (mkIpv4 192 168 0 0, mkIpv4 192 168 255 255).
Proof. octets. Qed.
Lemma v4_link_local_between ip :
  v4_ok ip -> v4_is_link_local ip = v4_between ip (mkIpv4 169 254 0 0, mkIpv4 169 254 255 255).
Proof. octets. Qed.
Lemma v4_upper_between ip :
  v4_ok ip ->
  v4_is_multicast ip || v4_between ip (mkIpv4 240 0 0 0, mkIpv4 255 255 255 255) =
  v4_between ip (mkIpv4 224 0 0 0, mkIpv4 255 255 255 255).
Proof. octets. Qed.

(** Two of the Standard Library's tests are covered by the blocks. *)
Lemma v4_unspecified_between ip :
  v4_is_unspecified ip = true -> v4_between ip (mkIpv4 0 0 0 0, mkIpv4 0 255 255 255) = true.
Proof.
  unfold v4_is_unspecified, v4_between, v4_to_u32. simpl. rewrite !andb_true_iff, !N.eqb_eq, !N.leb_le. lia.
Qed.
Lemma v4_broadcast_between ip :
  v4_is_broadcast ip = true -> v4_between ip (mkIpv4 240 0 0 0, mkIpv4 255 255 255 255) = true.
Proof.
  unfold v4_is_broadcast, v4_between, v4_to_u32. simpl. rewrite !andb_true_iff, !N.eqb_eq, !N.leb_le. lia.
Qed.

(** An IPv4 address counts as not public exactly when it lies in one of the thirteen
    blocks reserved for local, private, shared, test, multicast and future use: the mask
    tests at 32 bits and the octet tests of the Standard Library together are these
    intervals and nothing else. *)
Theorem non_public_ipv4_table ip : v4_ok ip -> is_non_public_ipv4 ip = existsb (v4_between ip) NON_PUBLIC_IPV4.
Proof.
  intros Hip. unfold is_non_public_ipv4.
  rewrite (ipv4_in_cidr_between ip _ (mkIpv4 0 255 255 255) 8), (ipv4_in_cidr_between ip _ (mkIpv4 100 127 255 255) 10),
    (ipv4_in_cidr_between ip _ (mkIpv4 192 0 0 255) 24), (ipv4_in_cidr_between ip _ (mkIpv4 192 0 2 255) 24),
    (ipv4_in_cidr_between ip _ (mkIpv4 198 19 255 255) 15), (ipv4_in_cidr_between ip _ (mkIpv4 198 51 100 255) 24),
    (ipv4_in_cidr_between ip _ (mkIpv4 203 0 113 255) 24), (ipv4_in_cidr_between ip _ (mkIpv4 255 255 255 255) 4)
    by (done || (split; done)).
  rewrite v4_loopback_between, v4_private_between, v4_link_local_between by done. cbn [existsb NON_PUBLIC_IPV4].
  rewrite <- (v4_upper_between ip Hip).
  pose proof (v4_unspecified_between ip) as H0. pose proof (v4_broadcast_between ip) as H1.
  destruct (v4_is_unspecified ip); [rewrite H0 by done|clear H0]; (destruct (v4_is_broadcast ip); [rewrite H1 by done|clear H1]);
    repeat match goal with |- context [v4_between ip ?b] => destruct (v4_between ip b) end;
    by destruct (v4_is_multicast ip).
Qed.

Lemma non_public_ipv4_table_witness :
  is_non_public_ipv4 (mkIpv4 172 31 255 255) = true /\ is_non_public_ipv4 (mkIpv4 172 32 0 0) = false.
Proof. rewrite !non_public_ipv4_table by (repeat split). by split. Defined.

(** An IPv4 address does not become public by being written as an IPv6 address. *)
Lemma mapped_address_is_public ip :
  v4_ok ip ->
  is_non_public_ipv6 (mkIpv6 0 0 0 0 0 65535 (oct_a ip * 256 + oct_b ip) (oct_c ip * 256 + oct_d ip)) = is_non_public_ipv4 ip.
Proof.
  intros (Ha & Hb & Hc & Hd). unfold is_non_public_ipv6, v6_to_ipv4. simpl.
  assert (forall x y, y < 256 -> (x * 256 + y) / 256 = x /\ (x * 256 + y) mod 256 = y) as Hdm.
  { intros x y Hy. rewrite N.add_comm, N.div_add, N.Div0.mod_add, N.div_small, N.mod_small by done. done. }
  destruct (Hdm (oct_a ip) (oct_b ip) Hb) as [-> ->], (Hdm (oct_c ip) (oct_d ip) Hd) as [-> ->].
  unfold v6_is_loopback. rewrite bool_decide_eq_false_2 by done. rewrite orb_false_r. by destruct ip.
Qed.
