(* ===== verification/NetPolicy.v ===== *)
(** * Host names and domain patterns of the network proxy

    Models [network-proxy/src/policy.rs]: how a host is brought into normal form, how a
    domain pattern is read, expanded into globs and compiled, and when a pattern of the
    managed configuration allows one of the user's.  The crates [globset] and [url] are
    interfaces ([GlobSetOps], [UrlHostOps]); [GlobSetLaws] states what is used of globs on
    patterns that hold no other metacharacters, and [Glob] is an instance. *)

From stdpp Require Import base list strings gmap.
From Stdlib Require Import NArith.
From S2P Require Import Prelude NetAddr.

(** ** Normal forms *)

Definition is_some {A} (o : option A) : bool := match o with Some _ => true | None => false end.

Definition unscoped_ip_literal (host : str) : option str :=
  match split_once_str (lit "%") host with
  | Some (ip, _) => if is_some (parse_ip ip) then Some ip else None
  | None => None
  end.

(** The loop over ["%25"] and ["%"]. *)
Fixpoint scoped_ip_literal (delimiters : list str) (host : str) : option str :=
  match delimiters with
  | [] => None
  | delimiter :: rest =>
      match split_once_str delimiter host with
      | Some (ip, scope) =>
          if is_some (parse_ip ip) then Some (ip ++ lit "%" ++ scope) else scoped_ip_literal rest host
      | None => scoped_ip_literal rest host
      end
  end.

Definition normalize_ip_literal (host : str) : option str :=
  if is_some (parse_ip host) then Some host else scoped_ip_literal [lit "%25"; lit "%"] host.

Definition normalize_dns_host_or_ip_literal (host : str) : str :=
  let host := trim_end_matches (char_eqb dot_char) (to_ascii_lowercase host) in
  match normalize_ip_literal host with Some ip => ip | None => host end.

Definition count_char (c : N) (s : str) : nat := length (filter (fun x => x = c) s).

Definition open_bracket : N := 91.
Definition close_bracket : N := 93.

Definition normalize_host (host : str) : str :=
  let host := trim host in
  let bracketed :=
    match host with
    | c :: rest =>
        if char_eqb c open_bracket then
          match split_once close_bracket rest with Some (inner, _) => Some inner | None => None end
        else None
    | [] => None
    end in
  match bracketed with
  | Some inner => normalize_dns_host_or_ip_literal inner
  | None =>
      if Nat.eqb (count_char colon_char host) 1 then
        normalize_dns_host_or_ip_literal
          (match split_once colon_char host with Some (h, _) => h | None => host end)
      else normalize_dns_host_or_ip_literal host
  end.

(** [Host::parse]: a host that is not empty. *)
Definition Host_parse (input : str) : option str :=
  let normalized := normalize_host input in
  if is_empty normalized then None else Some normalized.

Definition is_loopback_host (host : str) : bool :=
  let host := match unscoped_ip_literal host with Some ip => ip | None => host end in
  if str_eqb host (lit "localhost") then true
  else match parse_ip host with Some ip => ip_is_loopback ip | None => false end.

Definition normalize_pattern (pattern : str) : str :=
  let pattern := trim pattern in
  if str_eqb pattern (lit "*") then lit "*"
  else
    let '(prefix, remainder) :=
      match strip_prefix (lit "**.") pattern with
      | Some domain => (lit "**.", domain)
      | None =>
          match strip_prefix (lit "*.") pattern with
          | Some domain => (lit "*.", domain)
          | None => ([], pattern)
          end
      end in
    let remainder := normalize_host remainder in
    if is_empty prefix then remainder else prefix ++ remainder.

(** ** Domain patterns *)

Inductive DomainPattern :=
| ApexAndSubdomains (domain : str)
| SubdomainsOnly (domain : str)
| Exact (domain : str).

Definition parse_domain (domain : str) (build : str -> DomainPattern) : DomainPattern :=
  let domain := trim domain in
  if is_empty domain then Exact [] else build domain.

Definition DomainPattern_parse (input : str) : DomainPattern :=
  let input := trim input in
  if is_empty input then Exact []
  else match strip_prefix (lit "**.") input with
       | Some domain => parse_domain domain ApexAndSubdomains
       | None =>
           match strip_prefix (lit "*.") input with
           | Some domain => parse_domain domain SubdomainsOnly
           | None => Exact input
           end
       end.

Definition expand_domain_pattern (pattern : str) : list str :=
  match DomainPattern_parse pattern with
  | Exact domain => [domain]
  | SubdomainsOnly domain => [lit "?*." ++ domain]
  | ApexAndSubdomains domain => [domain; lit "?*." ++ domain]
  end.

Definition is_global_wildcard_domain_pattern (pattern : str) : bool :=
  existsb (fun candidate => str_eqb candidate (lit "*")) (expand_domain_pattern (normalize_pattern pattern)).

(** [url::Host::parse], as the text of the host it returns. *)
Class UrlHostOps := { url_host_parse : str -> option str }.

Definition parse_domain_for_constraints `{UrlHostOps} (domain : str) : str :=
  let domain := trim_end_matches (char_eqb dot_char) (trim domain) in
  if is_empty domain then []
  else
    let host := if starts_with (lit "[") domain && ends_with (lit "]") domain
                then drop 1 (take (length domain - 1) domain) else domain in
    if contains_char 42 host || contains_char 63 host || contains_char 37 host then domain
    else match url_host_parse host with Some h => h | None => [] end.

Definition parse_for_constraints `{UrlHostOps} (input : str) : DomainPattern :=
  let input := trim input in
  if is_empty input then Exact []
  else match strip_prefix (lit "**.") input with
       | Some domain => ApexAndSubdomains (parse_domain_for_constraints domain)
       | None =>
           match strip_prefix (lit "*.") input with
           | Some domain => SubdomainsOnly (parse_domain_for_constraints domain)
           | None => Exact (parse_domain_for_constraints input)
           end
       end.

Definition normalize_domain (domain : str) : str := to_ascii_lowercase (trim_end_matches (char_eqb dot_char) domain).

Definition domain_eq (left_ right_ : str) : bool := str_eqb (normalize_domain left_) (normalize_domain right_).

Definition is_subdomain_or_equal (child parent : str) : bool :=
  let child := normalize_domain child in
  let parent := normalize_domain parent in
  if str_eqb child parent then true else ends_with (lit "." ++ parent) child.

Definition is_strict_subdomain (child parent : str) : bool :=
  let child := normalize_domain child in
  let parent := normalize_domain parent in
  negb (str_eqb child parent) && ends_with (lit "." ++ parent) child.

Definition allows (self candidate : DomainPattern) : bool :=
  match self, candidate with
  | Exact domain, Exact candidate => domain_eq candidate domain
  | Exact _, _ => false
  | SubdomainsOnly domain, Exact candidate => is_strict_subdomain candidate domain
  | SubdomainsOnly domain, SubdomainsOnly candidate => is_subdomain_or_equal candidate domain
  | SubdomainsOnly domain, ApexAndSubdomains candidate => is_strict_subdomain candidate domain
  | ApexAndSubdomains domain, Exact candidate
  | ApexAndSubdomains domain, SubdomainsOnly candidate
  | ApexAndSubdomains domain, ApexAndSubdomains candidate => is_subdomain_or_equal candidate domain
  end.

(** ** Compiled sets *)

(** [globset], with [case_insensitive(true)] on every glob. *)
Class GlobSetOps := {
  Glob : Type;
  GlobSet : Type;
  glob_build : str -> option Glob;
  globset_build : list Glob -> option GlobSet;
  globset_is_match : GlobSet -> str -> bool;
}.

Inductive GlobalWildcard := WildcardAllow | WildcardReject.

(** Why a list of patterns does not compile. *)
Inductive GlobSetError := GlobalWildcardPattern | InvalidGlobPattern (candidate : str) | GlobSetBuildError.

Section compile.
Context `{GlobSetOps}.

(** The loop over the candidates of a pattern, with those seen so far. *)
Fixpoint add_candidates (candidates : list str) (seen : gset str) (globs : list Glob)
  : result (gset str * list Glob) GlobSetError :=
  match candidates with
  | [] => Ok (seen, globs)
  | candidate :: rest =>
      if decide (candidate ∈ seen) then add_candidates rest seen globs
      else match glob_build candidate with
           | Some glob => add_candidates rest ({[candidate]} ∪ seen) (globs ++ [glob])
           | None => Err (InvalidGlobPattern candidate)
           end
  end.

Fixpoint add_patterns (global_wildcard : GlobalWildcard) (patterns : list str) (seen : gset str) (globs : list Glob)
  : result (list Glob) GlobSetError :=
  match patterns with
  | [] => Ok globs
  | pattern :: rest =>
      if match global_wildcard with WildcardReject => is_global_wildcard_domain_pattern pattern | WildcardAllow => false end
      then Err GlobalWildcardPattern
      else
        let? (seen, globs) := add_candidates (expand_domain_pattern (normalize_pattern pattern)) seen globs in
        add_patterns global_wildcard rest seen globs
  end.

Definition compile_globset_with_policy (patterns : list str) (global_wildcard : GlobalWildcard)
  : result GlobSet GlobSetError :=
  let? globs := add_patterns global_wildcard patterns ∅ [] in
  match globset_build globs with Some set => Ok set | None => Err GlobSetBuildError end.

Definition compile_allowlist_globset (patterns : list str) := compile_globset_with_policy patterns WildcardAllow.
Definition compile_denylist_globset (patterns : list str) := compile_globset_with_policy patterns WildcardReject.

End compile.

(** ** What the patterns mean *)

(** Characters of host names that mean themselves in a glob and have no other case. *)
Definition is_plain_char (c : N) : bool :=
  ((97 <=? c) && (c <=? 122) || (48 <=? c) && (c <=? 57)
   || (c =? 45) || (c =? 46) || (c =? 95) || (c =? 58) || (c =? 37))%N.
Definition is_plain (s : str) : bool := forallb is_plain_char s.

(** [h] is a name below [d]: something, a dot, and [d]. *)
Definition below (d h : str) : bool := ends_with (lit "." ++ d) h && Nat.ltb (1 + length d) (length h).

(** What is relied on of [globset]: a set matches when one of its globs does; a glob of
    plain characters matches itself; ["?*."] matches at least one character and a dot; a
    star matches everything. *)
Class GlobSetLaws `{GlobSetOps} := {
  glob_is_match : Glob -> str -> bool;
  globset_is_match_any gs s h :
    globset_build gs = Some s -> globset_is_match s h = existsb (fun g => glob_is_match g h) gs;
  glob_exact d g h :
    is_plain d = true -> glob_build d = Some g -> is_plain h = true -> glob_is_match g h = str_eqb d h;
  glob_subdomain d g h :
    is_plain d = true -> glob_build (lit "?*." ++ d) = Some g -> is_plain h = true -> glob_is_match g h = below d h;
  glob_star g h : glob_build (lit "*") = Some g -> glob_is_match g h = true;
}.

(** The hosts a configured pattern stands for. *)
Definition pattern_covers (pattern h : str) : bool :=
  match DomainPattern_parse (normalize_pattern pattern) with
  | Exact d => str_eqb d (lit "*") || str_eqb d h
  | SubdomainsOnly d => below d h
  | ApexAndSubdomains d => str_eqb d h || below d h
  end.

(** Patterns within the documented language: a plain name, with or without a prefix, or a
    star alone. *)
Definition plain_pattern (pattern : str) : bool :=
  match DomainPattern_parse (normalize_pattern pattern) with
  | Exact d => str_eqb d (lit "*") || is_plain d
  | SubdomainsOnly d | ApexAndSubdomains d => is_plain d
  end.

Section compiled.
Context `{GlobSetLaws}.

(** The globs in a set are those of a list of candidates, which are those seen. *)
Definition built_from (candidates : list str) (seen : gset str) (globs : list Glob) : Prop :=
  Forall2 (fun c g => glob_build c = Some g) candidates globs /\ seen = list_to_set candidates.

Lemma add_candidates_built cs all seen globs seen' globs' :
  built_from all seen globs -> add_candidates cs seen globs = Ok (seen', globs') ->
  exists all', built_from all' seen' globs' /\ (forall c, c ∈ all' <-> c ∈ all \/ c ∈ cs).
Proof.
  revert all seen globs. induction cs as [|c cs IH]; intros all seen globs Hb Hadd; simpl in Hadd.
  - simplify_eq. exists all. split; [done|]. set_solver.
  - destruct Hb as [Hf Hs]. case_decide as Hin.
    + destruct (IH all seen globs (conj Hf Hs) Hadd) as (all' & Hb' & Hall). exists all'. split; [done|].
      intros x. rewrite Hall, elem_of_cons. subst seen. apply elem_of_list_to_set in Hin. naive_solver.
    + destruct (glob_build c) as [g|] eqn:Eg; [|done].
      destruct (IH (all ++ [c]) ({[c]} ∪ seen) (globs ++ [g])) as (all' & Hb' & Hall); [|done|].
      { split; [apply Forall2_app; [done|by constructor]|]. subst seen. rewrite list_to_set_app_L. set_solver. }
      exists all'. split; [done|]. intros x. rewrite Hall, elem_of_app, list_elem_of_singleton, elem_of_cons. tauto.
Qed.

Lemma add_patterns_built gw ps all seen globs globs' :
  built_from all seen globs -> add_patterns gw ps seen globs = Ok globs' ->
  exists all', Forall2 (fun c g => glob_build c = Some g) all' globs' /\
    (forall c, c ∈ all' <-> c ∈ all \/ exists p, p ∈ ps /\ c ∈ expand_domain_pattern (normalize_pattern p)).
Proof.
  revert all seen globs. induction ps as [|p ps IH]; intros all seen globs Hb Hadd; simpl in Hadd.
  - simplify_eq. exists all. split; [apply Hb|]. set_solver.
  - destruct (match gw with WildcardReject => _ | WildcardAllow => _ end); [done|].
    destruct (add_candidates _ seen globs) as [[seen1 globs1]|?|] eqn:Ec; [|done..].
    destruct (add_candidates_built _ all _ _ _ _ Hb Ec) as (all1 & Hb1 & Hall1).
    destruct (IH all1 seen1 globs1 Hb1 Hadd) as (all2 & Hf2 & Hall2). exists all2. split; [done|].
    intros c. rewrite Hall2, Hall1. set_solver.
Qed.

Definition candidate_matches (c h : str) : bool :=
  match strip_prefix (lit "?*.") c with
  | Some d => below d h
  | None => str_eqb c (lit "*") || str_eqb c h
  end.

Definition plain_candidate (c : str) : bool :=
  match strip_prefix (lit "?*.") c with Some d => is_plain d | None => str_eqb c (lit "*") || is_plain c end.

Lemma candidate_glob c g h :
  plain_candidate c = true -> is_plain h = true -> glob_build c = Some g -> glob_is_match g h = candidate_matches c h.
Proof.
  unfold plain_candidate, candidate_matches. intros Hc Hh Hg. destruct (strip_prefix (lit "?*.") c) as [d|] eqn:Ed.
  - apply strip_prefix_Some in Ed as ->. by apply glob_subdomain.
  - destruct (str_eqb c (lit "*")) eqn:Es; to_prop; [subst; by apply glob_star|]. by apply glob_exact.
Qed.

Lemma plain_no_question d : is_plain d = true -> strip_prefix (lit "?*.") d = None.
Proof.
  intros Hp. destruct (strip_prefix _ d) as [r|] eqn:E; [|done]. apply strip_prefix_Some in E as ->. done.
Qed.

Lemma plain_not_star d : is_plain d = true -> str_eqb d (lit "*") = false.
Proof. intros Hp. unfold str_eqb. apply bool_decide_eq_false. by intros ->. Qed.

Lemma expand_pattern_spec p h :
  plain_pattern p = true ->
  Forall (fun c => plain_candidate c = true) (expand_domain_pattern (normalize_pattern p)) /\
  existsb (fun c => candidate_matches c h) (expand_domain_pattern (normalize_pattern p)) = pattern_covers p h.
Proof.
  unfold plain_pattern, expand_domain_pattern, pattern_covers.
  destruct (DomainPattern_parse _) as [d|d|d]; intros Hp.
  - pose proof (plain_no_question d Hp) as Hq. unfold plain_candidate, candidate_matches. cbn [existsb].
    rewrite strip_prefix_app, Hq, plain_not_star by done. split; [|by rewrite orb_false_r].
    repeat constructor; [|by rewrite strip_prefix_app]. by rewrite Hq, Hp, orb_true_r.
  - unfold plain_candidate, candidate_matches. cbn [existsb]. rewrite strip_prefix_app, orb_false_r.
    split; [|done]. repeat constructor. by rewrite strip_prefix_app.
  - unfold plain_candidate, candidate_matches. cbn [existsb].
    assert (strip_prefix (lit "?*.") d = None) as Hq.
    { destruct (str_eqb d (lit "*")) eqn:E; to_prop; [by subst|by apply plain_no_question]. }
    rewrite Hq, orb_false_r. split; [|done]. repeat constructor. by rewrite Hq.
Qed.

Lemma existsb_same {A} (f : A -> bool) l k : (forall x, x ∈ l <-> x ∈ k) -> existsb f l = existsb f k.
Proof.
  intros Hlk. apply eq_true_iff_eq. rewrite !existsb_exists.
  split; intros (x & Hx & Hf); exists x; (split; [|done]); apply list_elem_of_In, Hlk, list_elem_of_In; done.
Qed.

Lemma existsb_Forall2 {A B} (R : A -> B -> Prop) (f : A -> bool) (g : B -> bool) l k :
  Forall2 R l k -> (forall x y, x ∈ l -> R x y -> g y = f x) -> existsb g k = existsb f l.
Proof.
  induction 1 as [|x y l k Hxy _ IH]; intros Hfg; simpl; [done|].
  rewrite (Hfg x y) by (done || by left). f_equal. apply IH. intros x' y' Hx'. apply Hfg. by right.
Qed.

(** A compiled list matches the hosts its patterns stand for. *)
Lemma compile_globset_match gw ps set h :
  compile_globset_with_policy ps gw = Ok set -> Forall (fun p => plain_pattern p = true) ps -> is_plain h = true ->
  globset_is_match set h = existsb (fun p => pattern_covers p h) ps.
Proof.
  unfold compile_globset_with_policy. destruct (add_patterns gw ps ∅ []) as [globs|?|] eqn:Ea; [|done..].
  destruct (globset_build globs) as [s|] eqn:Eb; [|done]. intros [= <-] Hps Hh.
  destruct (add_patterns_built gw ps [] ∅ [] globs) as (all & Hf & Hall); [by split|done|].
  rewrite (globset_is_match_any _ _ _ Eb).
  rewrite (existsb_Forall2 _ (fun c => candidate_matches c h) _ _ _ Hf).
  - rewrite (existsb_same _ all (ps ≫= fun p => expand_domain_pattern (normalize_pattern p))).
    + clear -Hps. induction Hps as [|p ps Hp _ IH]; [done|]. rewrite bind_cons, existsb_app, IH.
      by rewrite (proj2 (expand_pattern_spec p h Hp)).
    + intros c. rewrite Hall, list_elem_of_bind. split; [intros [Hc|(p & ? & ?)]|]; [by apply not_elem_of_nil in Hc|eauto|].
      intros (p & ? & ?). eauto.
  - intros c g Hc Hg. apply candidate_glob; [|done|done].
    apply Hall in Hc as [Hc|(p & Hp & Hc)]; [by apply not_elem_of_nil in Hc|].
    rewrite Forall_forall in Hps. destruct (expand_pattern_spec p h (Hps p Hp)) as [HF _].
    rewrite Forall_forall in HF. by apply HF.
Qed.

End compiled.

(** ** Managed patterns *)

(** The hosts a pattern of the configuration's constraints stands for. *)
Definition covers (pattern : DomainPattern) (h : str) : bool :=
  match pattern with
  | Exact d => domain_eq h d
  | SubdomainsOnly d => is_strict_subdomain h d
  | ApexAndSubdomains d => is_subdomain_or_equal h d
  end.

Definition sub_or_equal (child parent : str) : Prop := child = parent \/ exists x, child = x ++ lit "." ++ parent.

Lemma is_subdomain_or_equal_spec child parent :
  is_subdomain_or_equal child parent = true <-> sub_or_equal (normalize_domain child) (normalize_domain parent).
Proof.
  unfold is_subdomain_or_equal, sub_or_equal. destruct (str_eqb _ _) eqn:E; to_prop; [tauto|].
  unfold ends_with. destruct (strip_suffix _ _) as [r|] eqn:Es.
  - apply strip_suffix_Some in Es. naive_solver.
  - split; [done|]. intros [?|[x Hx%strip_suffix_Some]]; [done|]. congruence.
Qed.

Lemma is_strict_subdomain_spec child parent :
  is_strict_subdomain child parent = true <->
  exists x, normalize_domain child = x ++ lit "." ++ normalize_domain parent.
Proof.
  unfold is_strict_subdomain, ends_with. rewrite andb_true_iff, negb_true_iff. split.
  - intros [_ He]. destruct (strip_suffix _ _) as [r|] eqn:Es; [|done]. apply strip_suffix_Some in Es. eauto.
  - intros [x Hx]. split.
    + unfold str_eqb. apply bool_decide_eq_false. intros Heq. rewrite Heq in Hx. apply (f_equal length) in Hx.
      rewrite !length_app in Hx. simpl in Hx. lia.
    + destruct (strip_suffix _ _) as [r|] eqn:Es; [done|]. apply strip_suffix_Some in Hx. congruence.
Qed.

Lemma sub_or_equal_trans a b c : sub_or_equal a b -> sub_or_equal b c -> sub_or_equal a c.
Proof.
  intros [->|[x ->]] [->|[y ->]]; [by left|right; by exists y|right; by exists x|].
  right. exists (x ++ lit "." ++ y). by rewrite !app_assoc.
Qed.

Lemma strict_trans a b c :
  (exists x, a = x ++ lit "." ++ b) -> sub_or_equal b c -> exists x, a = x ++ lit "." ++ c.
Proof. intros [x ->] [->|[y ->]]; [by exists x|]. exists (x ++ lit "." ++ y). by rewrite !app_assoc. Qed.

Lemma strict_trans_r a b c :
  sub_or_equal a b -> (exists x, b = x ++ lit "." ++ c) -> exists x, a = x ++ lit "." ++ c.
Proof. intros [->|[y ->]] [x ->]; [by exists x|]. exists (y ++ lit "." ++ x). by rewrite !app_assoc. Qed.

(** Whatever a candidate pattern stands for, a pattern that allows it stands for too. *)
Lemma allows_sound managed candidate h :
  allows managed candidate = true -> covers candidate h = true -> covers managed h = true.
Proof.
  destruct managed as [m|m|m], candidate as [c|c|c]; simpl; try done; unfold domain_eq;
    rewrite ?is_subdomain_or_equal_spec, ?is_strict_subdomain_spec; intros Ha Hc; to_prop.
  - by eapply sub_or_equal_trans.
  - eapply sub_or_equal_trans; [right; exact Hc|done].
  - by rewrite Hc.
  - by eapply strict_trans_r.
  - by eapply strict_trans.
  - by rewrite Hc.
  - unfold str_eqb. apply bool_decide_eq_true. congruence.
Qed.

(** ** A matcher for globs of stars and question marks *)

Module WildGlob.

Definition star_char : N := 42.
Definition question_char : N := 63.

Fixpoint wild (p : str) : str -> bool :=
  match p with
  | [] => is_empty
  | c :: p' =>
      if char_eqb c star_char then
        fix star (h : str) : bool := wild p' h || match h with [] => false | _ :: h' => star h' end
      else fun h =>
        match h with
        | [] => false
        | x :: h' => (char_eqb c question_char || char_eqb (to_ascii_lowercase_char c) (to_ascii_lowercase_char x)) && wild p' h'
        end
  end.

(** Classes, alternatives and escapes are not supported. *)
Definition supported (p : str) : bool :=
  negb (existsb (fun c => mem_str [c] [lit "["; lit "]"; lit "{"; lit "}"; lit "\"]) p).

#[export] Instance ops : GlobSetOps := {
  Glob := str;
  GlobSet := list str;
  glob_build p := if supported p then Some p else None;
  globset_build gs := Some gs;
  globset_is_match s h := existsb (fun g => wild g h) s;
}.

Lemma plain_char c :
  is_plain_char c = true ->
  char_eqb c star_char = false /\ char_eqb c question_char = false /\ to_ascii_lowercase_char c = c.
Proof.
  unfold is_plain_char, char_eqb, star_char, question_char, to_ascii_lowercase_char.
  rewrite !orb_true_iff, !andb_true_iff, !N.leb_le, !N.eqb_eq, !N.eqb_neq. intros Hc.
  destruct (_ && _)%N eqn:E; [apply andb_true_iff in E as [E1%N.leb_le E2%N.leb_le]|]; (split; [|split]); lia.
Qed.

Lemma wild_plain d h : is_plain d = true -> is_plain h = true -> wild d h = str_eqb d h.
Proof.
  unfold is_plain. revert h. induction d as [|c d IH]; intros h Hd Hh.
  - by destruct h.
  - cbn [wild forallb] in *. apply andb_true_iff in Hd as [Hc Hd]. destruct (plain_char c Hc) as (-> & -> & Hlow).
    destruct h as [|x h]; [done|]. cbn [forallb] in Hh. apply andb_true_iff in Hh as [Hx Hh].
    destruct (plain_char x Hx) as (_ & _ & Hlow'). rewrite Hlow, Hlow', IH by done. unfold char_eqb, str_eqb. simpl.
    apply eq_true_iff_eq. rewrite andb_true_iff, N.eqb_eq, !bool_decide_eq_true. naive_solver.
Qed.

Lemma wild_star p h : wild (star_char :: p) h = true <-> exists i, wild p (drop i h) = true.
Proof.
  induction h as [|x h IH].
  - cbn. rewrite orb_false_r. split; [intros; by exists 0|]. intros [[|i] Hi]; exact Hi.
  - change (wild (star_char :: p) (x :: h)) with (wild p (x :: h) || wild (star_char :: p) h).
    rewrite orb_true_iff, IH. split.
    + intros [Hw|[i Hi]]; [by exists 0|by exists (S i)].
    + intros [[|i] Hi]; [by left|]. right. by exists i.
Qed.

Lemma is_plain_drop i h : is_plain h = true -> is_plain (drop i h) = true.
Proof.
  unfold is_plain. rewrite !forallb_forall. intros Hh x Hx. apply Hh. rewrite <- (take_drop i h). apply in_app_iff. by right.
Qed.

Lemma wild_subdomain d h : is_plain d = true -> is_plain h = true -> wild (lit "?*." ++ d) h = below d h.
Proof.
  intros Hd Hh. apply eq_true_iff_eq. unfold below. rewrite andb_true_iff, Nat.ltb_lt.
  assert (is_plain (lit "." ++ d) = true) as Hdd by (unfold is_plain in *; by rewrite forallb_app, Hd).
  destruct h as [|x h].
  { split; [done|]. intros [_ Hl]. simpl in Hl. lia. }
  change (wild (lit "?*." ++ d) (x :: h)) with (wild (star_char :: (lit "." ++ d)) h).
  assert (is_plain h = true) as Hh' by (by apply (is_plain_drop 1 (x :: h))).
  rewrite wild_star. split.
  - intros [i Hi]. rewrite wild_plain in Hi by (done || by apply is_plain_drop). to_prop. split.
    + unfold ends_with. destruct (strip_suffix _ _) eqn:E; [done|].
      assert (x :: h = (x :: take i h) ++ (lit "." ++ d)) as Hx by (rewrite Hi; simpl; by rewrite take_drop).
      apply strip_suffix_Some in Hx. congruence.
    + apply (f_equal length) in Hi. rewrite length_app, length_drop in Hi. simpl in *. lia.
  - unfold ends_with. intros [He Hl]. destruct (strip_suffix _ _) as [r|] eqn:E; [|done].
    apply strip_suffix_Some in E. destruct r as [|y r].
    + apply (f_equal length) in E. rewrite length_app in E. simpl in *. lia.
    + simpl in E. injection E as -> ->. exists (length r). rewrite drop_app_length.
      rewrite wild_plain by done. unfold str_eqb. by apply bool_decide_eq_true.
Qed.

#[export] Instance laws : GlobSetLaws.
Proof.
  refine {| glob_is_match := wild |}.
  - by intros gs s h [= <-].
  - intros d g h Hd Hg Hh. simpl in Hg. case_match; simplify_eq. by apply wild_plain.
  - intros d g h Hd Hg Hh. cbn [glob_build ops] in Hg. destruct (supported _); simplify_eq. by apply wild_subdomain.
  - intros g h [= <-]. apply (wild_star [] h). exists (length h). by rewrite drop_all.
Defined.

End WildGlob.
