(* ===== verification/NetConfig.v ===== *)
(** * Configuration of the network proxy

    Models [network-proxy/src/config.rs]: domain permissions with their precedence, the
    configuration record and its setters, bind addresses and how they are clamped to the
    loopback interface.  [url::Url] and the file system's paths are interfaces
    ([UrlOps], [SocketPathOps]); so are the interception hooks
    ([MitmHookOps]), which [MitmHook.v] implements. *)

From stdpp Require Import base list strings gmap.
From Stdlib Require Import NArith.
From S2P Require Import Prelude NetAddr NetPolicy.

(** ** Interfaces *)

Record ParsedUrl := mkParsedUrl {
  url_scheme : str; url_username : str; url_password : option str;
  url_host_str : option str; url_port : option N }.
Class UrlOps := { url_parse : str -> option ParsedUrl }.

(** [Path::is_absolute], [AbsolutePathBuf::from_absolute_path] and [fs::canonicalize]. *)
Class SocketPathOps := {
  path_is_absolute : str -> bool;
  from_absolute_path : str -> option str;
  canonicalize : str -> option str;
}.

(** [MitmHookConfig], [validate_mitm_hook_config] (whose input is the list of hooks and
    whether interception is on), [compile_mitm_hooks], [MitmState::new], and whether a host
    has hooks. *)
Class MitmHookOps := {
  MitmHookConfig : Type;
  #[global] MitmHookConfig_eq_dec :: EqDecision MitmHookConfig;
  MitmHooksByHost : Type;
  MitmState : Type;
  validate_mitm_hooks : bool -> list MitmHookConfig -> bool;
  compile_mitm_hooks : bool -> list MitmHookConfig -> option MitmHooksByHost;
  mitm_state_new : bool -> option MitmState;
  hooks_contain_key : MitmHooksByHost -> str -> bool;
}.

(** ** Domain permissions *)

Inductive NetworkDomainPermission := PermNone | PermAllow | PermDeny.
#[export] Instance NetworkDomainPermission_eq_dec : EqDecision NetworkDomainPermission.
Proof. solve_decision. Defined.

(** The derived order: [None < Allow < Deny]. *)
Definition permission_rank (p : NetworkDomainPermission) : nat :=
  match p with PermNone => 0 | PermAllow => 1 | PermDeny => 2 end.
Definition permission_gtb (a b : NetworkDomainPermission) : bool := Nat.ltb (permission_rank b) (permission_rank a).

Record NetworkDomainPermissionEntry := mkDomainEntry { pattern : str; permission : NetworkDomainPermission }.
#[export] Instance NetworkDomainPermissionEntry_eq_dec : EqDecision NetworkDomainPermissionEntry.
Proof. solve_decision. Defined.

(** [NetworkDomainPermissions], a list of entries. *)
Abbreviation NetworkDomainPermissions := (list NetworkDomainPermissionEntry).

(** The first loop of [effective_entries]: patterns in order of appearance, and the
    greatest permission of each. *)
Definition effective_step (acc : list str * gmap str NetworkDomainPermission) (entry : NetworkDomainPermissionEntry) :
    list str * gmap str NetworkDomainPermission :=
  let '(order, perms) := acc in
  let order := match perms !! pattern entry with None => order ++ [pattern entry] | Some _ => order end in
  let current := match perms !! pattern entry with None => permission entry | Some p => p end in
  let current := if permission_gtb (permission entry) current then permission entry else current in
  (order, <[pattern entry := current]> perms).

(** The second: each pattern with its permission, taken out of the map. *)
Fixpoint take_entries (order : list str) (perms : gmap str NetworkDomainPermission) : NetworkDomainPermissions :=
  match order with
  | [] => []
  | p :: rest =>
      match perms !! p with
      | Some perm => mkDomainEntry p perm :: take_entries rest (delete p perms)
      | None => take_entries rest perms
      end
  end.

Definition effective_entries (entries : NetworkDomainPermissions) : NetworkDomainPermissions :=
  let '(order, perms) := foldl effective_step ([], ∅) entries in take_entries order perms.

Inductive NetworkUnixSocketPermission := SocketAllow | SocketDeny.
#[export] Instance NetworkUnixSocketPermission_eq_dec : EqDecision NetworkUnixSocketPermission.
Proof. solve_decision. Defined.

Inductive NetworkMode := Limited | Full.
#[export] Instance NetworkMode_eq_dec : EqDecision NetworkMode.
Proof. solve_decision. Defined.

Definition allows_method (mode : NetworkMode) (method : str) : bool :=
  match mode with
  | Full => true
  | Limited => mem_str method [lit "GET"; lit "HEAD"; lit "OPTIONS"]
  end.

(** ** The configuration *)

Section config.
Context `{MitmHookOps}.

Record NetworkProxyConfig := mkNetworkProxyConfig {
  enabled : bool;
  proxy_url : str;
  enable_socks5 : bool;
  socks_url : str;
  enable_socks5_udp : bool;
  allow_upstream_proxy : bool;
  dangerously_allow_non_loopback_proxy : bool;
  dangerously_allow_all_unix_sockets : bool;
  mode : NetworkMode;
  domains : option NetworkDomainPermissions;
  unix_sockets : option (gmap str NetworkUnixSocketPermission);
  allow_local_binding : bool;
  mitm : bool;
  credential_broker : bool;
  credential_broker_openai_host : option str;
  dangerously_allow_plaintext_credential_injection : bool;
  mitm_hooks : list MitmHookConfig;
}.

#[export] Instance NetworkProxyConfig_eq_dec : EqDecision NetworkProxyConfig.
Proof. solve_decision. Defined.

Definition default_proxy_url : str := lit "http://127.0.0.1:3128".
Definition default_socks_url : str := lit "http://127.0.0.1:8081".

Definition config_default : NetworkProxyConfig :=
  mkNetworkProxyConfig false default_proxy_url true default_socks_url true true false false Full None None
    false false false None false [].

(** Assignments to one field. *)
Definition set_enabled (b : bool) (c : NetworkProxyConfig) : NetworkProxyConfig :=
  mkNetworkProxyConfig b (proxy_url c) (enable_socks5 c) (socks_url c) (enable_socks5_udp c) (allow_upstream_proxy c)
    (dangerously_allow_non_loopback_proxy c) (dangerously_allow_all_unix_sockets c) (mode c) (domains c) (unix_sockets c)
    (allow_local_binding c) (mitm c) (credential_broker c) (credential_broker_openai_host c)
    (dangerously_allow_plaintext_credential_injection c) (mitm_hooks c).
Definition set_mode (m : NetworkMode) (c : NetworkProxyConfig) : NetworkProxyConfig :=
  mkNetworkProxyConfig (enabled c) (proxy_url c) (enable_socks5 c) (socks_url c) (enable_socks5_udp c) (allow_upstream_proxy c)
    (dangerously_allow_non_loopback_proxy c) (dangerously_allow_all_unix_sockets c) m (domains c) (unix_sockets c)
    (allow_local_binding c) (mitm c) (credential_broker c) (credential_broker_openai_host c)
    (dangerously_allow_plaintext_credential_injection c) (mitm_hooks c).
Definition set_domains (d : option NetworkDomainPermissions) (c : NetworkProxyConfig) : NetworkProxyConfig :=
  mkNetworkProxyConfig (enabled c) (proxy_url c) (enable_socks5 c) (socks_url c) (enable_socks5_udp c) (allow_upstream_proxy c)
    (dangerously_allow_non_loopback_proxy c) (dangerously_allow_all_unix_sockets c) (mode c) d (unix_sockets c)
    (allow_local_binding c) (mitm c) (credential_broker c) (credential_broker_openai_host c)
    (dangerously_allow_plaintext_credential_injection c) (mitm_hooks c).
Definition set_unix_sockets (u : option (gmap str NetworkUnixSocketPermission)) (c : NetworkProxyConfig) : NetworkProxyConfig :=
  mkNetworkProxyConfig (enabled c) (proxy_url c) (enable_socks5 c) (socks_url c) (enable_socks5_udp c) (allow_upstream_proxy c)
    (dangerously_allow_non_loopback_proxy c) (dangerously_allow_all_unix_sockets c) (mode c) (domains c) u
    (allow_local_binding c) (mitm c) (credential_broker c) (credential_broker_openai_host c)
    (dangerously_allow_plaintext_credential_injection c) (mitm_hooks c).
Definition set_credential_broker (b m : bool) (c : NetworkProxyConfig) : NetworkProxyConfig :=
  mkNetworkProxyConfig (enabled c) (proxy_url c) (enable_socks5 c) (socks_url c) (enable_socks5_udp c) (allow_upstream_proxy c)
    (dangerously_allow_non_loopback_proxy c) (dangerously_allow_all_unix_sockets c) (mode c) (domains c) (unix_sockets c)
    (allow_local_binding c) m b (credential_broker_openai_host c)
    (dangerously_allow_plaintext_credential_injection c) (mitm_hooks c).
Definition set_openai_host (h : option str) (c : NetworkProxyConfig) : NetworkProxyConfig :=
  mkNetworkProxyConfig (enabled c) (proxy_url c) (enable_socks5 c) (socks_url c) (enable_socks5_udp c) (allow_upstream_proxy c)
    (dangerously_allow_non_loopback_proxy c) (dangerously_allow_all_unix_sockets c) (mode c) (domains c) (unix_sockets c)
    (allow_local_binding c) (mitm c) (credential_broker c) h
    (dangerously_allow_plaintext_credential_injection c) (mitm_hooks c).

Definition set_proxy_url (u : str) (c : NetworkProxyConfig) : NetworkProxyConfig :=
  mkNetworkProxyConfig (enabled c) u (enable_socks5 c) (socks_url c) (enable_socks5_udp c) (allow_upstream_proxy c)
    (dangerously_allow_non_loopback_proxy c) (dangerously_allow_all_unix_sockets c) (mode c) (domains c)
    (unix_sockets c) (allow_local_binding c) (mitm c) (credential_broker c) (credential_broker_openai_host c)
    (dangerously_allow_plaintext_credential_injection c) (mitm_hooks c).
Definition set_socks_url (u : str) (c : NetworkProxyConfig) : NetworkProxyConfig :=
  mkNetworkProxyConfig (enabled c) (proxy_url c) (enable_socks5 c) u (enable_socks5_udp c) (allow_upstream_proxy c)
    (dangerously_allow_non_loopback_proxy c) (dangerously_allow_all_unix_sockets c) (mode c) (domains c)
    (unix_sockets c) (allow_local_binding c) (mitm c) (credential_broker c) (credential_broker_openai_host c)
    (dangerously_allow_plaintext_credential_injection c) (mitm_hooks c).
Definition set_allow_upstream_proxy (b : bool) (c : NetworkProxyConfig) : NetworkProxyConfig :=
  mkNetworkProxyConfig (enabled c) (proxy_url c) (enable_socks5 c) (socks_url c) (enable_socks5_udp c) b
    (dangerously_allow_non_loopback_proxy c) (dangerously_allow_all_unix_sockets c) (mode c) (domains c)
    (unix_sockets c) (allow_local_binding c) (mitm c) (credential_broker c) (credential_broker_openai_host c)
    (dangerously_allow_plaintext_credential_injection c) (mitm_hooks c).
Definition set_non_loopback_proxy (b : bool) (c : NetworkProxyConfig) : NetworkProxyConfig :=
  mkNetworkProxyConfig (enabled c) (proxy_url c) (enable_socks5 c) (socks_url c) (enable_socks5_udp c)
    (allow_upstream_proxy c) b (dangerously_allow_all_unix_sockets c) (mode c) (domains c) (unix_sockets c)
    (allow_local_binding c) (mitm c) (credential_broker c) (credential_broker_openai_host c)
    (dangerously_allow_plaintext_credential_injection c) (mitm_hooks c).
Definition set_all_unix_sockets (b : bool) (c : NetworkProxyConfig) : NetworkProxyConfig :=
  mkNetworkProxyConfig (enabled c) (proxy_url c) (enable_socks5 c) (socks_url c) (enable_socks5_udp c)
    (allow_upstream_proxy c) (dangerously_allow_non_loopback_proxy c) b (mode c) (domains c) (unix_sockets c)
    (allow_local_binding c) (mitm c) (credential_broker c) (credential_broker_openai_host c)
    (dangerously_allow_plaintext_credential_injection c) (mitm_hooks c).
Definition set_allow_local_binding (b : bool) (c : NetworkProxyConfig) : NetworkProxyConfig :=
  mkNetworkProxyConfig (enabled c) (proxy_url c) (enable_socks5 c) (socks_url c) (enable_socks5_udp c)
    (allow_upstream_proxy c) (dangerously_allow_non_loopback_proxy c) (dangerously_allow_all_unix_sockets c) (mode c)
    (domains c) (unix_sockets c) b (mitm c) (credential_broker c) (credential_broker_openai_host c)
    (dangerously_allow_plaintext_credential_injection c) (mitm_hooks c).

Definition set_credential_broker_enabled (b : bool) (c : NetworkProxyConfig) : NetworkProxyConfig :=
  set_credential_broker b (mitm c || b) c.

Definition domain_entries (c : NetworkProxyConfig) (perm : NetworkDomainPermission) : option (list str) :=
  match domains c with
  | None => None
  | Some entries =>
      let l := pattern <$> filter (fun e => permission e = perm) (effective_entries entries) in
      if is_empty l then None else Some l
  end.

Definition allowed_domains (c : NetworkProxyConfig) : option (list str) := domain_entries c PermAllow.
Definition denied_domains (c : NetworkProxyConfig) : option (list str) := domain_entries c PermDeny.

(** In the order of the keys. *)
Definition allow_unix_sockets (c : NetworkProxyConfig) : list str :=
  match unix_sockets c with
  | None => []
  | Some entries => sort_by str_leb (fst <$> filter (fun e => snd e = SocketAllow) (map_to_list entries))
  end.

Definition then_some {A} (l : list A) : option (list A) := if is_empty l then None else Some l.

(** The loop of [set_domain_entries]. *)
Fixpoint push_domain_entries (entries : list str) (perm : NetworkDomainPermission) (ds : NetworkDomainPermissions) :
    NetworkDomainPermissions :=
  match entries with
  | [] => ds
  | entry :: rest =>
      push_domain_entries rest perm
        (if existsb (fun e => bool_decide (e = mkDomainEntry entry perm)) ds then ds
         else ds ++ [mkDomainEntry entry perm])
  end.

Definition set_domain_entries (entries : list str) (perm : NetworkDomainPermission) (c : NetworkProxyConfig) : NetworkProxyConfig :=
  let ds := default [] (domains c) in
  let ds := filter (fun e => permission e <> perm) ds in
  set_domains (then_some (push_domain_entries entries perm ds)) c.

Definition set_allowed_domains (l : list str) := set_domain_entries l PermAllow.
Definition set_denied_domains (l : list str) := set_domain_entries l PermDeny.

Definition upsert_domain_permission (host : str) (perm : NetworkDomainPermission) (normalize : str -> str)
    (c : NetworkProxyConfig) : NetworkProxyConfig :=
  let ds := default [] (domains c) in
  let normalized_host := normalize host in
  let ds := filter (fun e => normalize (pattern e) <> normalized_host) ds ++ [mkDomainEntry host perm] in
  set_domains (then_some ds) c.

Definition set_unix_socket_entries (entries : list str) (perm : NetworkUnixSocketPermission) (c : NetworkProxyConfig) : NetworkProxyConfig :=
  let sockets := default ∅ (unix_sockets c) in
  let sockets := filter (fun e => snd e <> perm) sockets in
  let sockets := foldl (fun m e => <[e := perm]> m) sockets entries in
  set_unix_sockets (if decide (sockets = ∅) then None else Some sockets) c.

Definition set_allow_unix_sockets (l : list str) := set_unix_socket_entries l SocketAllow.

Definition trusted_credential_broker_host `{UrlOps} (base_url : str) : option str :=
  match url_parse base_url with
  | Some url =>
      if str_eqb (url_scheme url) (lit "https") && is_empty (url_username url) && negb (is_some (url_password url))
      then normalize_host <$> url_host_str url
      else None
  | None => None
  end.

Definition set_credential_broker_openai_base_url `{UrlOps} (base_url : option str) (c : NetworkProxyConfig) : NetworkProxyConfig :=
  set_openai_host (base_url ≫= trusted_credential_broker_host) c.

End config.

Arguments NetworkProxyConfig {_}.

(** ** Addresses to listen on *)

Record SocketAddr := mkSocketAddr { addr_ip : IpAddr; addr_port : N }.

Definition loopback_v4 : IpAddr := V4 (mkIpv4 127 0 0 1).

Definition clamp_non_loopback (addr : SocketAddr) (allow_non_loopback : bool) : SocketAddr :=
  if ip_is_loopback (addr_ip addr) then addr
  else if allow_non_loopback then addr
  else mkSocketAddr loopback_v4 (addr_port addr).

(** [str::parse::<u16>]: an optional plus sign and decimal digits that fit. *)
Definition parse_u16 (s : str) : option N :=
  let digits := match strip_prefix (lit "+") s with Some rest => rest | None => s end in
  if is_empty digits then None
  else match read_digits 10 65535 (length digits) 0 0 digits with
       | Some (n, _, rest) => if is_empty rest then Some n else None
       | None => None
       end.

Record SocketAddressParts := mkSocketAddressParts { part_host : str; part_port : N }.

Definition slash_char : N := 47.
Definition at_char : N := 64.

Definition parse_host_port_fallback (input : str) (default_port : N) : option SocketAddressParts :=
  let without_scheme := match split_once_str (lit "://") input with Some (_, rest) => rest | None => input end in
  let host_port := match split_once slash_char without_scheme with Some (a, _) => a | None => without_scheme end in
  let host_port := match rsplit_once at_char host_port with Some (_, rest) => rest | None => host_port end in
  let bracketed :=
    match host_port with
    | c :: rest => if char_eqb c open_bracket then split_once close_bracket rest else None
    | [] => None
    end in
  match bracketed with
  | Some (host, after) =>
      let port := match strip_prefix (lit ":") after ≫= parse_u16 with Some p => p | None => default_port end in
      if is_empty host then None else Some (mkSocketAddressParts host port)
  | None =>
      match (if Nat.eqb (count_char colon_char host_port) 1 then rsplit_once colon_char host_port else None) with
      | Some (host, port) =>
          if is_empty host then None
          else Some (mkSocketAddressParts host (match parse_u16 port with Some p => p | None => default_port end))
      | None => if is_empty host_port then None else Some (mkSocketAddressParts host_port default_port)
      end
  end.

(** [str::trim_matches]. *)
Definition trim_matches (p : N -> bool) (s : str) : str := trim_end_matches p (drop_while p s).

Definition parse_host_port `{UrlOps} (url : str) (default_port : N) : option SocketAddressParts :=
  let trimmed := trim url in
  if is_empty trimmed then None
  else if match parse_ip trimmed with Some (V6 _) => true | _ => false end && negb (starts_with (lit "[") trimmed)
  then Some (mkSocketAddressParts trimmed default_port)
  else
    let candidate := if is_some (split_once_str (lit "://") trimmed) then trimmed else lit "http://" ++ trimmed in
    match url_parse candidate with
    | Some parsed =>
        match url_host_str parsed with
        | Some host =>
            let host := trim_matches (fun c => char_eqb c open_bracket || char_eqb c close_bracket) host in
            if is_empty host then None
            else Some (mkSocketAddressParts host (match url_port parsed with Some p => p | None => default_port end))
        | None => parse_host_port_fallback trimmed default_port
        end
    | None => parse_host_port_fallback trimmed default_port
    end.

Definition resolve_addr `{UrlOps} (url : str) (default_port : N) : option SocketAddr :=
  match parse_host_port url default_port with
  | None => None
  | Some parts =>
      let host := if str_eqb (to_ascii_lowercase (part_host parts)) (lit "localhost") then lit "127.0.0.1" else part_host parts in
      match parse_ip host with
      | Some ip => Some (mkSocketAddr ip (part_port parts))
      | None => Some (mkSocketAddr loopback_v4 (part_port parts))
      end
  end.

Definition format_host_and_port (host : str) (port : N) : str :=
  if contains_char colon_char host then lit "[" ++ host ++ lit "]:" ++ decimal port
  else host ++ lit ":" ++ decimal port.

Definition host_and_port_from_network_addr `{UrlOps} (value : str) (default_port : N) : str :=
  let trimmed := trim value in
  if is_empty trimmed then lit "<missing>"
  else match parse_host_port trimmed default_port with
       | Some parts => format_host_and_port (part_host parts) (part_port parts)
       | None => format_host_and_port trimmed default_port
       end.

(** [ValidatedUnixSocketPath]. *)
Inductive ValidatedUnixSocketPath := Native (path : str) | UnixStyleAbsolute (path : str).

Definition parse_socket_path `{SocketPathOps} (socket_path : str) : option ValidatedUnixSocketPath :=
  if path_is_absolute socket_path then Native <$> from_absolute_path socket_path
  else if starts_with (lit "/") socket_path then Some (UnixStyleAbsolute socket_path)
  else None.

Inductive ConfigError :=
| InvalidSocketPath (index : nat)
| InvalidProxyUrl
| InvalidSocksUrl
| ProxyPortZero
| SocksPortZero.

Section runtime_config.
Context `{MitmHookOps} `{UrlOps} `{SocketPathOps}.

Definition clamp_bind_addrs (http_addr socks_addr : SocketAddr) (cfg : NetworkProxyConfig) : SocketAddr * SocketAddr :=
  let http_addr := clamp_non_loopback http_addr (dangerously_allow_non_loopback_proxy cfg) in
  let socks_addr := clamp_non_loopback socks_addr (dangerously_allow_non_loopback_proxy cfg) in
  if is_empty (allow_unix_sockets cfg) && negb (dangerously_allow_all_unix_sockets cfg) then (http_addr, socks_addr)
  else (mkSocketAddr loopback_v4 (addr_port http_addr), mkSocketAddr loopback_v4 (addr_port socks_addr)).

Fixpoint validate_socket_paths (index : nat) (paths : list str) : result unit ConfigError :=
  match paths with
  | [] => Ok tt
  | path :: rest =>
      match parse_socket_path path with
      | Some _ => validate_socket_paths (S index) rest
      | None => Err (InvalidSocketPath index)
      end
  end.

Definition validate_unix_socket_allowlist_paths (cfg : NetworkProxyConfig) : result unit ConfigError :=
  validate_socket_paths 0 (allow_unix_sockets cfg).

(** [RuntimeConfig]: the addresses of the two listeners. *)
Definition resolve_runtime (cfg : NetworkProxyConfig) : result (SocketAddr * SocketAddr) ConfigError :=
  let? _ := validate_unix_socket_allowlist_paths cfg in
  match resolve_addr (proxy_url cfg) 3128 with
  | None => Err InvalidProxyUrl
  | Some http_addr =>
      match resolve_addr (socks_url cfg) 8081 with
      | None => Err InvalidSocksUrl
      | Some socks_addr => Ok (clamp_bind_addrs http_addr socks_addr cfg)
      end
  end.

Definition managed_proxy_ports (cfg : NetworkProxyConfig) : result (list N) ConfigError :=
  let? (http_addr, socks_addr) := resolve_runtime cfg in
  if (addr_port http_addr =? 0)%N then Err ProxyPortZero
  else if enable_socks5 cfg then
    if (addr_port socks_addr =? 0)%N then Err SocksPortZero
    else Ok (dedup (sort_by N.leb [addr_port http_addr; addr_port socks_addr]))
  else Ok [addr_port http_addr].

(** Without the override, or with unix sockets to hand out, the proxy listens on the
    loopback interface only. *)
Lemma clamped_to_loopback http_addr socks_addr cfg :
  dangerously_allow_non_loopback_proxy cfg = false \/ allow_unix_sockets cfg <> [] \/
    dangerously_allow_all_unix_sockets cfg = true ->
  ip_is_loopback (addr_ip (fst (clamp_bind_addrs http_addr socks_addr cfg))) = true /\
  ip_is_loopback (addr_ip (snd (clamp_bind_addrs http_addr socks_addr cfg))) = true.
Proof.
  unfold clamp_bind_addrs. intros Hcase. destruct (is_empty _ && _) eqn:E; [|done].
  to_prop. rewrite is_empty_true in *. destruct Hcase as [Hno|[?|?]]; [|congruence..].
  unfold clamp_non_loopback. rewrite Hno. simpl.
  split; by case_match.
Qed.

End runtime_config.

(** ** Precedence of domain permissions *)

Lemma permission_gtb_ge a b : permission_gtb a b = false <-> permission_rank a <= permission_rank b.
Proof. unfold permission_gtb. apply Nat.ltb_ge. Qed.

Definition entry_max (entries : NetworkDomainPermissions) (p : str) (perm : NetworkDomainPermission) : Prop :=
  mkDomainEntry p perm ∈ entries /\ forall perm', mkDomainEntry p perm' ∈ entries -> permission_rank perm' <= permission_rank perm.

Lemma permission_rank_inj a b : permission_rank a = permission_rank b -> a = b.
Proof. by destruct a, b. Qed.

Lemma entry_max_unique entries p a b : entry_max entries p a -> entry_max entries p b -> a = b.
Proof.
  intros [Ha Hla] [Hb Hlb]. apply permission_rank_inj. apply Hlb in Ha. apply Hla in Hb. lia.
Qed.

(** What the first loop has found of a pattern. *)
Definition best_is (entries : NetworkDomainPermissions) (p : str) (best : option NetworkDomainPermission) : Prop :=
  match best with
  | Some perm => entry_max entries p perm
  | None => forall perm, mkDomainEntry p perm ∉ entries
  end.

Lemma best_snoc_same entries q pq best :
  best_is entries q best ->
  entry_max (entries ++ [mkDomainEntry q pq]) q
    (let current := match best with None => pq | Some p => p end in if permission_gtb pq current then pq else current).
Proof.
  intros Hb. unfold entry_max. setoid_rewrite elem_of_app. setoid_rewrite list_elem_of_singleton.
  destruct best as [old|]; simpl in Hb |- *.
  - destruct Hb as [Hin Hle]. destruct (permission_gtb pq old) eqn:Eg.
    + unfold permission_gtb in Eg. apply Nat.ltb_lt in Eg. split; [by right|].
      intros perm' [Hp|[= ->]]; [apply Hle in Hp; lia|done].
    + apply permission_gtb_ge in Eg. split; [by left|]. intros perm' [Hp|[= ->]]; [by apply Hle|done].
  - assert ((if permission_gtb pq pq then pq else pq) = pq) as -> by (by case_match). split; [by right|].
    intros perm' [Hp|[= ->]]; [by apply Hb in Hp|done].
Qed.

Lemma best_snoc_other entries q pq p best :
  p <> q -> best_is entries p best -> best_is (entries ++ [mkDomainEntry q pq]) p best.
Proof. destruct best as [perm|]; unfold best_is, entry_max; set_solver. Qed.

(** The map of the first loop holds the greatest permission of every pattern seen. *)
Lemma effective_fold_spec entries order perms :
  foldl effective_step ([], ∅) entries = (order, perms) ->
  NoDup order /\ (forall p, p ∈ order <-> is_Some (perms !! p)) /\ (forall p, best_is entries p (perms !! p)).
Proof.
  revert order perms. induction entries as [|[q pq] entries IH] using rev_ind; intros order perms Hf.
  { simpl in Hf. simplify_eq. split_and!; [constructor| |]; intros p; rewrite lookup_empty.
    - split; [by intros ?%not_elem_of_nil|by intros [? ?]].
    - intros perm. apply not_elem_of_nil. }
  rewrite foldl_app in Hf. simpl in Hf. destruct (foldl effective_step _ entries) as [order0 perms0].
  destruct (IH _ _ eq_refl) as (Hnd & Hord & Hbest). unfold effective_step in Hf. cbn [pattern permission] in Hf.
  simplify_eq. split_and!.
  - destruct (perms0 !! q) eqn:E; [done|]. apply NoDup_app. split_and!; [done| |apply NoDup_singleton].
    intros x Hx ->%list_elem_of_singleton. apply Hord in Hx as [? ?]. congruence.
  - intros p. destruct (decide (p = q)) as [->|Hpq].
    + rewrite lookup_insert_eq. split; [by eauto|]. intros _.
      destruct (perms0 !! q) eqn:E; [apply Hord; by eauto|]. rewrite elem_of_app, list_elem_of_singleton. by right.
    + rewrite lookup_insert_ne by done. rewrite <- Hord. destruct (perms0 !! q); [done|].
      rewrite elem_of_app, list_elem_of_singleton. tauto.
  - intros p. destruct (decide (p = q)) as [->|Hpq].
    + rewrite lookup_insert_eq. apply (best_snoc_same _ _ _ (perms0 !! q)), Hbest.
    + rewrite lookup_insert_ne by done. by apply best_snoc_other.
Qed.

Lemma take_entries_spec order perms p perm :
  NoDup order -> (forall q, q ∈ order -> is_Some (perms !! q)) ->
  mkDomainEntry p perm ∈ take_entries order perms <-> p ∈ order /\ perms !! p = Some perm.
Proof.
  revert perms. induction order as [|q order IH]; intros perms Hnd Hsome; simpl.
  - split; [by intros ?%not_elem_of_nil|]. intros [?%not_elem_of_nil _]. done.
  - apply NoDup_cons in Hnd as [Hq Hnd]. destruct (Hsome q) as [pq Hpq]; [by left|]. rewrite Hpq, elem_of_cons, IH; [|done|].
    + rewrite elem_of_cons. destruct (decide (p = q)) as [->|Hne].
      * rewrite lookup_delete_eq, Hpq. naive_solver.
      * rewrite lookup_delete_ne by done. naive_solver.
    + intros x Hx. rewrite lookup_delete_ne by (intros ->; done). apply Hsome. by right.
Qed.

Lemma take_entries_NoDup order perms :
  NoDup order -> (forall q, q ∈ order -> is_Some (perms !! q)) -> pattern <$> take_entries order perms = order.
Proof.
  revert perms. induction order as [|q order IH]; intros perms Hnd Hsome; simpl; [done|].
  apply NoDup_cons in Hnd as [Hq Hnd]. destruct (Hsome q) as [pq Hpq]; [by left|]. rewrite Hpq. simpl. f_equal.
  apply IH; [done|]. intros x Hx. rewrite lookup_delete_ne by (intros ->; done). apply Hsome. by right.
Qed.

(** An effective entry is a pattern with the greatest of its permissions. *)
Lemma elem_of_effective_entries entries p perm :
  mkDomainEntry p perm ∈ effective_entries entries <-> entry_max entries p perm.
Proof.
  unfold effective_entries. destruct (foldl effective_step _ entries) as [order perms] eqn:Ef.
  destruct (effective_fold_spec _ _ _ Ef) as (Hnd & Hord & Hbest).
  rewrite take_entries_spec by (done || by intros; apply Hord). specialize (Hbest p). rewrite Hord. split.
  - intros [_ Hp]. by rewrite Hp in Hbest.
  - intros Hm. destruct (perms !! p) as [perm'|] eqn:E; simpl in Hbest.
    + by rewrite (entry_max_unique _ _ _ _ Hm Hbest).
    + destruct Hm as [Hin _]. by apply Hbest in Hin.
Qed.

Section domain_lists.
Context `{MitmHookOps}.

Definition entries_of (c : NetworkProxyConfig) : NetworkDomainPermissions := default [] (domains c).

Lemma elem_of_domain_entries c perm p :
  p ∈ default [] (domain_entries c perm) <-> entry_max (entries_of c) p perm.
Proof.
  unfold domain_entries, entries_of. destruct (domains c) as [entries|]; simpl.
  - rewrite <- elem_of_effective_entries. set (l := pattern <$> _).
    assert (default [] (if is_empty l then None else Some l) = l) as -> by (by destruct l).
    unfold l. rewrite list_elem_of_fmap. split.
    + intros ([q pq] & -> & Hin). apply list_elem_of_filter in Hin as [<- Hin]. done.
    + intros Hin. exists (mkDomainEntry p perm). split; [done|]. by apply list_elem_of_filter.
  - split; [by intros ?%not_elem_of_nil|]. intros [?%not_elem_of_nil _]. done.
Qed.

Lemma domain_entries_None c perm : domain_entries c perm = None <-> default [] (domain_entries c perm) = [].
Proof.
  unfold domain_entries. destruct (domains c); [|done]. destruct (is_empty _) eqn:E; [done|]. simpl.
  rewrite is_empty_false in E. split; [done|]. intros. by destruct E.
Qed.

Lemma elem_of_denied c p : p ∈ default [] (denied_domains c) <-> mkDomainEntry p PermDeny ∈ entries_of c.
Proof.
  unfold denied_domains. rewrite elem_of_domain_entries. split; [by intros []|]. intros Hin.
  split; [done|]. intros []; simpl; lia.
Qed.

Lemma elem_of_allowed c p :
  p ∈ default [] (allowed_domains c) <->
  mkDomainEntry p PermAllow ∈ entries_of c /\ mkDomainEntry p PermDeny ∉ entries_of c.
Proof.
  unfold allowed_domains. rewrite elem_of_domain_entries. split.
  - intros [Hin Hle]. split; [done|]. intros Hd%Hle. simpl in Hd. lia.
  - intros [Hin Hd]. split; [done|]. intros []; simpl; [lia..|done].
Qed.

Lemma elem_of_push_domain_entries l perm ds e :
  e ∈ push_domain_entries l perm ds <-> e ∈ ds \/ (pattern e ∈ l /\ permission e = perm).
Proof.
  revert ds. induction l as [|x l IH]; intros ds; simpl.
  - split; [by left|]. intros [?|[?%not_elem_of_nil _]]; done.
  - rewrite IH, elem_of_cons. destruct e as [q pq]. simpl. destruct (existsb _ ds) eqn:E.
    + apply existsb_exists in E as (y & Hy%list_elem_of_In & ->%bool_decide_eq_true). naive_solver.
    + rewrite elem_of_app, list_elem_of_singleton. naive_solver.
Qed.

Lemma default_then_some {A} (l : list A) : default [] (then_some l) = l.
Proof. by destruct l. Qed.

Lemma entries_of_set_domains l perm c e :
  e ∈ entries_of (set_domain_entries l perm c) <->
  (e ∈ entries_of c /\ permission e <> perm) \/ (pattern e ∈ l /\ permission e = perm).
Proof.
  unfold set_domain_entries, entries_of. simpl.
  rewrite default_then_some, elem_of_push_domain_entries, list_elem_of_filter. tauto.
Qed.

(** Setting one list replaces it, up to what the other list decides, and leaves the other. *)
Lemma set_allowed_domains_allowed l c p :
  p ∈ default [] (allowed_domains (set_allowed_domains l c)) <-> p ∈ l /\ p ∉ default [] (denied_domains c).
Proof. unfold set_allowed_domains. rewrite elem_of_allowed, elem_of_denied, !entries_of_set_domains. simpl. naive_solver. Qed.

Lemma set_allowed_domains_denied l c p :
  p ∈ default [] (denied_domains (set_allowed_domains l c)) <-> p ∈ default [] (denied_domains c).
Proof. unfold set_allowed_domains. rewrite !elem_of_denied, !entries_of_set_domains. simpl. naive_solver. Qed.

Lemma set_denied_domains_denied l c p :
  p ∈ default [] (denied_domains (set_denied_domains l c)) <-> p ∈ l.
Proof. unfold set_denied_domains. rewrite !elem_of_denied, !entries_of_set_domains. simpl. naive_solver. Qed.

Lemma set_denied_domains_allowed l c p :
  p ∈ default [] (allowed_domains (set_denied_domains l c)) <->
  mkDomainEntry p PermAllow ∈ entries_of c /\ p ∉ l.
Proof. unfold set_denied_domains. rewrite elem_of_allowed, !entries_of_set_domains. simpl. naive_solver. Qed.

(** A pattern that is denied anywhere is denied, and not allowed. *)
Lemma deny_wins c p :
  mkDomainEntry p PermDeny ∈ entries_of c ->
  p ∈ default [] (denied_domains c) /\ p ∉ default [] (allowed_domains c).
Proof.
  rewrite elem_of_denied, elem_of_allowed. naive_solver.
Qed.

(** After an upsert the host has exactly the new permission, under its own spelling, and no
    pattern with another normal form has changed. *)
Lemma upsert_domain_permission_spec host perm normalize c p perm' :
  entry_max (entries_of (upsert_domain_permission host perm normalize c)) p perm' <->
  (p = host /\ perm' = perm) \/ (normalize p <> normalize host /\ entry_max (entries_of c) p perm').
Proof.
  unfold upsert_domain_permission, entries_of. simpl.
  assert (forall l : NetworkDomainPermissions, default [] (then_some l) = l) as Hthen by (by intros []).
  rewrite Hthen. set (ds := default [] (domains c)). unfold entry_max.
  assert (forall q x, mkDomainEntry q x ∈ filter (fun e => normalize (pattern e) <> normalize host) ds ++ [mkDomainEntry host perm]
    <-> (normalize q <> normalize host /\ mkDomainEntry q x ∈ ds) \/ (q = host /\ x = perm)) as Hel.
  { intros q x. rewrite elem_of_app, list_elem_of_filter, list_elem_of_singleton. simpl. naive_solver. }
  setoid_rewrite Hel. split.
  - intros [[[Hn Hin]|[-> ->]] Hle]; [right|by left]. split_and!; [done|done|]. intros x Hx. apply Hle. by left.
  - intros [[-> ->]|(Hn & Hin & Hle)].
    + split; [by right|]. intros x [[Hn _]|[_ ->]]; done.
    + split; [by left|]. intros x [[_ Hx]|[-> ->]]; [by apply Hle|done].
Qed.

End domain_lists.
