(* ===== verification/NetState.v ===== *)
(** * Compiled configuration of the network proxy, and managed constraints

    Models [network-proxy/src/state.rs] and [ConfigState] of [runtime.rs]: what an
    administrator may fix of the proxy's configuration, the check of a configuration
    against it, and the compilation of a configuration to the state the proxy works with.
    The check accepts a configuration exactly when it satisfies [within_constraints]; what
    [build_config_state] does to the configuration (credential brokerage switches the
    proxy on) does not take it out of the constraints; the compiled lists are the lists of
    the configuration. *)

From stdpp Require Import base list strings gmap.
From Stdlib Require Import NArith.
From S2P Require Import Prelude NetAddr NetPolicy NetConfig.

Record NetworkProxyConstraints := mkConstraints {
  c_enabled : option bool;
  c_mode : option NetworkMode;
  c_allow_upstream_proxy : option bool;
  c_dangerously_allow_non_loopback_proxy : option bool;
  c_dangerously_allow_all_unix_sockets : option bool;
  c_allowed_domains : option (list str);
  c_allowlist_expansion_enabled : option bool;
  c_denied_domains : option (list str);
  c_denylist_expansion_enabled : option bool;
  c_allow_unix_sockets : option (list str);
  c_allow_local_binding : option bool;
}.
#[export] Instance NetworkProxyConstraints_eq_dec : EqDecision NetworkProxyConstraints.
Proof. solve_decision. Defined.

Definition constraints_default : NetworkProxyConstraints :=
  mkConstraints None None None None None None None None None None None.

(** [NetworkProxyConstraintError]: the name of the field, without the texts of the message. *)
Inductive NetworkProxyConstraintError := InvalidValue (field_name : str).

Definition network_mode_rank (m : NetworkMode) : nat := match m with Limited => 0 | Full => 1 end.

Definition validate_non_global_wildcard_domain_patterns (field_name : str) (patterns : list str) :
    result unit NetworkProxyConstraintError :=
  if existsb is_global_wildcard_domain_pattern patterns then Err (InvalidValue field_name) else Ok tt.

(** A [HashSet] of the entries in lower case. *)
Definition lowercase_set (l : list str) : gset str := list_to_set (to_ascii_lowercase <$> l).

(** One [validate] call. *)
Definition ensure (b : bool) (field_name : str) : result unit NetworkProxyConstraintError :=
  if b then Ok tt else Err (InvalidValue field_name).

Section constraints.
Context `{MitmHookOps} `{UrlHostOps}.

(** The match on [allowlist_expansion_enabled]. *)
Definition validate_allowed_domains (managed candidate denied : list str) (expansion : option bool) :
    result unit NetworkProxyConstraintError :=
  let denied_domain_overrides := lowercase_set denied in
  let required_set := lowercase_set managed in
  let candidate_set := lowercase_set candidate in
  ensure
    match expansion with
    | Some true => bool_decide ((required_set ∖ candidate_set) ∖ denied_domain_overrides = ∅)
    | Some false => bool_decide (candidate_set = required_set ∖ denied_domain_overrides)
    | None =>
        let managed_patterns := parse_for_constraints <$> managed in
        forallb (fun entry => existsb (fun m => allows m (parse_for_constraints entry)) managed_patterns) candidate
    end (lit "network.allowed_domains").

Definition validate_denied_domains (managed candidate : list str) (expansion : option bool) :
    result unit NetworkProxyConstraintError :=
  let required_set := lowercase_set managed in
  let candidate_set := lowercase_set candidate in
  ensure
    match expansion with
    | Some false => bool_decide (candidate_set = required_set)
    | Some true | None => bool_decide (required_set ∖ candidate_set = ∅)
    end (lit "network.denied_domains").

Definition validate_policy_against_constraints (config : NetworkProxyConfig) (constraints : NetworkProxyConstraints) :
    result unit NetworkProxyConstraintError :=
  let config_allowed_domains := default [] (allowed_domains config) in
  let config_denied_domains := default [] (denied_domains config) in
  let config_allow_unix_sockets := allow_unix_sockets config in
  let? _ := ensure (validate_mitm_hooks (mitm config) (mitm_hooks config)) (lit "network.mitm_hooks") in
  let? _ := validate_non_global_wildcard_domain_patterns (lit "network.denied_domains") config_denied_domains in
  let? _ := match c_enabled constraints with
            | Some max_enabled => ensure (negb (enabled config && negb max_enabled)) (lit "network.enabled")
            | None => Ok tt
            end in
  let? _ := match c_mode constraints with
            | Some max_mode =>
                ensure (Nat.leb (network_mode_rank (mode config)) (network_mode_rank max_mode)) (lit "network.mode")
            | None => Ok tt
            end in
  let? _ := match c_allow_upstream_proxy constraints with
            | Some true | None => Ok tt
            | Some false => ensure (negb (allow_upstream_proxy config)) (lit "network.allow_upstream_proxy")
            end in
  let? _ := match c_dangerously_allow_non_loopback_proxy constraints with
            | Some true | None => Ok tt
            | Some false =>
                ensure (negb (dangerously_allow_non_loopback_proxy config))
                  (lit "network.dangerously_allow_non_loopback_proxy")
            end in
  let allow_all_unix_sockets :=
    default (negb (is_some (c_allow_unix_sockets constraints))) (c_dangerously_allow_all_unix_sockets constraints) in
  let? _ := ensure (negb (dangerously_allow_all_unix_sockets config && negb allow_all_unix_sockets))
              (lit "network.dangerously_allow_all_unix_sockets") in
  let? _ := match c_allow_local_binding constraints with
            | Some b => ensure (negb (allow_local_binding config && negb b)) (lit "network.allow_local_binding")
            | None => Ok tt
            end in
  let? _ := match c_allowed_domains constraints with
            | Some managed =>
                let? _ := validate_non_global_wildcard_domain_patterns (lit "network.allowed_domains") managed in
                validate_allowed_domains managed config_allowed_domains config_denied_domains
                  (c_allowlist_expansion_enabled constraints)
            | None => Ok tt
            end in
  let? _ := match c_denied_domains constraints with
            | Some managed =>
                let? _ := validate_non_global_wildcard_domain_patterns (lit "network.denied_domains") managed in
                validate_denied_domains managed config_denied_domains (c_denylist_expansion_enabled constraints)
            | None => Ok tt
            end in
  match c_allow_unix_sockets constraints with
  | Some managed =>
      ensure (forallb (fun entry => bool_decide (to_ascii_lowercase entry ∈ lowercase_set managed)) config_allow_unix_sockets)
        (lit "network.allow_unix_sockets")
  | None => Ok tt
  end.

End constraints.

(** ** The compiled state *)

Record BlockedRequest := mkBlockedRequest {
  br_host : str; br_reason : str; br_client : option str; br_method : option str; br_mode : option NetworkMode;
  br_protocol : str; br_execution_id : option str; br_decision : option str; br_source : option str;
  br_port : option N; br_timestamp : Z }.

Inductive BuildError :=
| BuildConfig (e : ConfigError)
| BrokerRequiresMitm
| BuildConstraint (e : NetworkProxyConstraintError)
| BuildDenylist (e : GlobSetError)
| BuildAllowlist (e : GlobSetError)
| BuildMitmHooks
| BuildMitmState.

Section state.
Context `{MitmHookOps} `{GlobSetOps} `{SocketPathOps}.

Record ConfigState := mkConfigState {
  config : NetworkProxyConfig;
  brokerage_created_default_allowlist : bool;
  allow_set : GlobSet;
  deny_set : GlobSet;
  state_mitm : option MitmState;
  state_mitm_hooks : MitmHooksByHost;
  constraints : NetworkProxyConstraints;
  blocked : list BlockedRequest;
  blocked_total : N;
}.

(** What brokerage makes of the configuration, and whether it created the allowlist. *)
Definition brokered_config (config : NetworkProxyConfig) (constraints : NetworkProxyConstraints) : NetworkProxyConfig * bool :=
  let config :=
    if bool_decide (c_enabled constraints = Some false) then set_credential_broker false (mitm config) config else config in
  let brokerage_created_proxy := credential_broker config && negb (enabled config) in
  let brokerage_created_default_allowlist :=
    brokerage_created_proxy && negb (is_some (allowed_domains config)) && negb (is_some (c_allowed_domains constraints)) in
  let config := if brokerage_created_proxy then set_enabled true config else config in
  let config := if brokerage_created_default_allowlist then set_allowed_domains [lit "*"] config else config in
  (config, brokerage_created_default_allowlist).

Definition build_config_state (config0 : NetworkProxyConfig) (constraints : NetworkProxyConstraints) :
    result ConfigState BuildError :=
  let '(config, brokerage_created_default_allowlist) := brokered_config config0 constraints in
  let? _ := map_err BuildConfig (validate_unix_socket_allowlist_paths config) in
  if credential_broker config && negb (mitm config) then Err BrokerRequiresMitm
  else
    let allowed_domains := default [] (allowed_domains config) in
    let denied_domains := default [] (denied_domains config) in
    let? _ := map_err BuildConstraint
                (validate_non_global_wildcard_domain_patterns (lit "network.denied_domains") denied_domains) in
    let? deny_set := map_err BuildDenylist (compile_denylist_globset denied_domains) in
    let? allow_set := map_err BuildAllowlist (compile_allowlist_globset allowed_domains) in
    match compile_mitm_hooks (mitm config) (mitm_hooks config) with
    | None => Err BuildMitmHooks
    | Some hooks =>
        let? mitm_state :=
          (if mitm config then
             match mitm_state_new (allow_upstream_proxy config) with
             | Some m => Ok (Some m)
             | None => Err BuildMitmState
             end
           else Ok None) in
        Ok (mkConfigState config brokerage_created_default_allowlist allow_set deny_set mitm_state hooks constraints [] 0)
    end.

End state.

(** ** What the check accepts *)

Section within.
Context `{MitmHookOps} `{UrlHostOps}.

Definition no_global_wildcard (l : list str) : Prop := forall p, p ∈ l -> is_global_wildcard_domain_pattern p = false.

(** Equality of names regardless of case. *)
Definition names (l : list str) (p : str) : Prop := exists q, q ∈ l /\ to_ascii_lowercase q = to_ascii_lowercase p.

Definition allowed_within (managed candidate denied : list str) (expansion : option bool) : Prop :=
  match expansion with
  | Some true => forall p, p ∈ managed -> names candidate p \/ names denied p
  | Some false => forall p, names candidate p <-> names managed p /\ ~ names denied p
  | None => forall p, p ∈ candidate -> exists m, m ∈ managed /\ allows (parse_for_constraints m) (parse_for_constraints p) = true
  end.

Definition denied_within (managed candidate : list str) (expansion : option bool) : Prop :=
  match expansion with
  | Some false => forall p, names candidate p <-> names managed p
  | _ => forall p, p ∈ managed -> names candidate p
  end.

(** A flag that may be on only where the constraint does not say otherwise. *)
Definition flag_within (constraint : option bool) (flag : bool) : Prop := constraint = Some false -> flag = false.

Record within_constraints (cfg : NetworkProxyConfig) (cs : NetworkProxyConstraints) : Prop := {
  wc_hooks : validate_mitm_hooks (mitm cfg) (mitm_hooks cfg) = true;
  wc_denied_exact : no_global_wildcard (default [] (denied_domains cfg));
  wc_enabled : flag_within (c_enabled cs) (enabled cfg);
  wc_mode : c_mode cs = Some Limited -> mode cfg = Limited;
  wc_upstream : flag_within (c_allow_upstream_proxy cs) (allow_upstream_proxy cfg);
  wc_non_loopback : flag_within (c_dangerously_allow_non_loopback_proxy cs) (dangerously_allow_non_loopback_proxy cfg);
  wc_all_sockets :
    flag_within (match c_dangerously_allow_all_unix_sockets cs with
                 | Some b => Some b
                 | None => match c_allow_unix_sockets cs with Some _ => Some false | None => None end
                 end) (dangerously_allow_all_unix_sockets cfg);
  wc_local : flag_within (c_allow_local_binding cs) (allow_local_binding cfg);
  wc_allowed : forall managed, c_allowed_domains cs = Some managed ->
    no_global_wildcard managed /\
    allowed_within managed (default [] (allowed_domains cfg)) (default [] (denied_domains cfg)) (c_allowlist_expansion_enabled cs);
  wc_denied : forall managed, c_denied_domains cs = Some managed ->
    no_global_wildcard managed /\
    denied_within managed (default [] (denied_domains cfg)) (c_denylist_expansion_enabled cs);
  wc_sockets : forall managed, c_allow_unix_sockets cs = Some managed ->
    forall p, p ∈ allow_unix_sockets cfg -> names managed p;
}.

Lemma ensure_ok b f : ensure b f = Ok tt <-> b = true.
Proof. unfold ensure. by destruct b. Qed.

Lemma wildcard_ok f l : validate_non_global_wildcard_domain_patterns f l = Ok tt <-> no_global_wildcard l.
Proof.
  unfold validate_non_global_wildcard_domain_patterns, no_global_wildcard.
  destruct (existsb _ l) eqn:E.
  - split; [done|]. intros Hn. apply existsb_exists in E as (p & Hp%list_elem_of_In & Hw). apply Hn in Hp. congruence.
  - split; [|done]. intros _ p Hp. destruct (is_global_wildcard_domain_pattern p) eqn:Ew; [|done].
    assert (existsb is_global_wildcard_domain_pattern l = true) as Ht; [|congruence].
    apply existsb_exists. exists p. split; [by apply list_elem_of_In|done].
Qed.

Lemma result_seq {A B E} (e : result A E) (k : result B E) (b : B) :
  (let? _ := e in k) = Ok b <-> (exists a, e = Ok a) /\ k = Ok b.
Proof. destruct e as [a|e|]; [|split; [done|by intros [[? ?] _]]..]. split; [eauto|by intros [_ ?]]. Qed.

Lemma result_unit_ok {E} (e : result unit E) : (exists a, e = Ok a) <-> e = Ok tt.
Proof. split; [by intros [[] ?]|eauto]. Qed.

Lemma elem_of_lowercase_set l x : x ∈ lowercase_set l <-> exists q, q ∈ l /\ to_ascii_lowercase q = x.
Proof. unfold lowercase_set. rewrite elem_of_list_to_set, list_elem_of_fmap. naive_solver. Qed.

Lemma allowed_within_ok managed candidate denied expansion :
  validate_allowed_domains managed candidate denied expansion = Ok tt <-> allowed_within managed candidate denied expansion.
Proof.
  unfold validate_allowed_domains, allowed_within, names. rewrite ensure_ok. destruct expansion as [[]|].
  - rewrite bool_decide_eq_true. split.
    + intros He p Hp. assert (to_ascii_lowercase p ∉ lowercase_set managed ∖ lowercase_set candidate ∖ lowercase_set denied) as Hn
        by (rewrite He; apply not_elem_of_empty).
      rewrite !elem_of_difference, !elem_of_lowercase_set in Hn.
      destruct (decide (to_ascii_lowercase p ∈ lowercase_set candidate)) as [Hc%elem_of_lowercase_set|Hc]; [by left|].
      destruct (decide (to_ascii_lowercase p ∈ lowercase_set denied)) as [Hd%elem_of_lowercase_set|Hd]; [by right|].
      rewrite elem_of_lowercase_set in Hc, Hd. destruct Hn. eauto.
    + intros Hw. apply elem_of_equiv_empty_L. intros x. rewrite !elem_of_difference, !elem_of_lowercase_set.
      intros [[(p & Hp & <-) Hc] Hd]. destruct (Hw p Hp); eauto.
  - rewrite bool_decide_eq_true. split.
    + intros He p. rewrite <- !elem_of_lowercase_set, He, elem_of_difference. done.
    + intros Hw. apply set_eq. intros x. rewrite elem_of_difference. split.
      * intros (q & Hq & <-)%elem_of_lowercase_set. rewrite !elem_of_lowercase_set. apply Hw. eauto.
      * rewrite !elem_of_lowercase_set. intros [(q & Hq & <-) Hd]. apply Hw. eauto.
  - rewrite forallb_forall. setoid_rewrite <- list_elem_of_In. apply forall_proper. intros p.
    apply Morphisms_Prop.iff_iff_iff_impl_morphism; [done|]. rewrite existsb_exists. setoid_rewrite <- list_elem_of_In.
    setoid_rewrite list_elem_of_fmap. naive_solver.
Qed.

Lemma denied_within_ok managed candidate expansion :
  validate_denied_domains managed candidate expansion = Ok tt <-> denied_within managed candidate expansion.
Proof.
  assert (lowercase_set managed ∖ lowercase_set candidate = ∅ <-> forall p, p ∈ managed -> names candidate p) as Hsub.
  { unfold names. rewrite elem_of_equiv_empty_L. setoid_rewrite elem_of_difference.
    setoid_rewrite elem_of_lowercase_set. split; [|naive_solver].
    intros Hw p Hp. destruct (decide (to_ascii_lowercase p ∈ lowercase_set candidate)) as [Hc|Hc].
    - by apply elem_of_lowercase_set in Hc.
    - rewrite elem_of_lowercase_set in Hc. destruct (Hw (to_ascii_lowercase p)). naive_solver. }
  unfold validate_denied_domains, denied_within. rewrite ensure_ok. destruct expansion as [[]|]; rewrite bool_decide_eq_true; try done.
  unfold names. split.
  - intros He p. by rewrite <- !elem_of_lowercase_set, He.
  - intros Hw. apply set_eq. intros x. split; intros (q & Hq & <-)%elem_of_lowercase_set; apply elem_of_lowercase_set, Hw; eauto.
Qed.

Lemma flag_within_ok co flag f :
  match co with Some b => ensure (negb (flag && negb b)) f | None => Ok tt end = Ok tt <-> flag_within co flag.
Proof. unfold flag_within. destruct co as [[]|], flag; simpl; naive_solver. Qed.

Lemma flag_within_ok' co flag f :
  match co with Some true | None => Ok tt | Some false => ensure (negb flag) f end = Ok tt <-> flag_within co flag.
Proof. unfold flag_within. destruct co as [[]|], flag; simpl; naive_solver. Qed.

Lemma managed_list_ok co f (v : list str -> result unit NetworkProxyConstraintError) (P : list str -> Prop) :
  (forall managed, v managed = Ok tt <-> P managed) ->
  match co with
  | Some managed => let? _ := validate_non_global_wildcard_domain_patterns f managed in v managed
  | None => Ok tt
  end = Ok tt <-> forall managed, co = Some managed -> no_global_wildcard managed /\ P managed.
Proof.
  intros Hv. destruct co as [managed|]; [|naive_solver]. rewrite result_seq, result_unit_ok, wildcard_ok, Hv. naive_solver.
Qed.

(** The check accepts a configuration exactly when it is within the constraints. *)
Lemma validate_within cfg cs :
  validate_policy_against_constraints cfg cs = Ok tt <-> within_constraints cfg cs.
Proof.
  unfold validate_policy_against_constraints. rewrite !result_seq, !result_unit_ok, ensure_ok, wildcard_ok, flag_within_ok.
  rewrite !flag_within_ok', ensure_ok, flag_within_ok.
  rewrite (managed_list_ok _ _ _ (fun managed => allowed_within managed _ _ _)) by (intros; apply allowed_within_ok).
  rewrite (managed_list_ok _ _ _ (fun managed => denied_within managed _ _)) by (intros; apply denied_within_ok).
  assert (match c_mode cs with
          | Some max_mode => ensure (Nat.leb (network_mode_rank (mode cfg)) (network_mode_rank max_mode)) (lit "network.mode")
          | None => Ok tt end = Ok tt <-> (c_mode cs = Some Limited -> mode cfg = Limited)) as ->.
  { destruct (c_mode cs) as [[]|], (mode cfg); simpl; naive_solver. }
  assert (negb (dangerously_allow_all_unix_sockets cfg &&
      negb (default (negb (is_some (c_allow_unix_sockets cs))) (c_dangerously_allow_all_unix_sockets cs))) = true <->
    flag_within (match c_dangerously_allow_all_unix_sockets cs with
                 | Some b => Some b
                 | None => match c_allow_unix_sockets cs with Some _ => Some false | None => None end
                 end) (dangerously_allow_all_unix_sockets cfg)) as ->.
  { unfold flag_within. destruct (c_dangerously_allow_all_unix_sockets cs) as [[]|], (c_allow_unix_sockets cs),
      (dangerously_allow_all_unix_sockets cfg); simpl; naive_solver. }
  assert (match c_allow_unix_sockets cs with
          | Some managed => ensure (forallb (fun entry => bool_decide (to_ascii_lowercase entry ∈ lowercase_set managed))
                (allow_unix_sockets cfg)) (lit "network.allow_unix_sockets")
          | None => Ok tt end = Ok tt <->
          forall managed, c_allow_unix_sockets cs = Some managed -> forall p, p ∈ allow_unix_sockets cfg -> names managed p) as ->.
  { destruct (c_allow_unix_sockets cs) as [managed|]; [|naive_solver]. rewrite ensure_ok, forallb_forall.
    setoid_rewrite bool_decide_eq_true. setoid_rewrite <- list_elem_of_In. setoid_rewrite elem_of_lowercase_set.
    unfold names. naive_solver. }
  split; [intros (?&?&?&?&?&?&?&?&?&?&?); by constructor|intros []; tauto].
Qed.

End within.

(** ** What compilation gives *)

Section built.
Context `{MitmHookOps} `{UrlHostOps} `{GlobSetOps} `{SocketPathOps}.

Lemma set_credential_broker_within b m cfg cs :
  within_constraints cfg cs -> m = mitm cfg -> within_constraints (set_credential_broker b m cfg) cs.
Proof. intros [] ->. constructor; assumption. Qed.

Lemma set_enabled_within cfg cs :
  within_constraints cfg cs -> c_enabled cs <> Some false -> within_constraints (set_enabled true cfg) cs.
Proof. intros [] He. constructor; try assumption. intros Hf. by destruct He. Qed.

Lemma set_allowed_within l cfg cs :
  within_constraints cfg cs -> c_allowed_domains cs = None -> within_constraints (set_allowed_domains l cfg) cs.
Proof.
  intros [] Hnone. constructor; try assumption.
  - intros p. rewrite set_allowed_domains_denied. auto.
  - intros managed. by rewrite Hnone.
  - intros managed Hm. destruct (wc_denied0 managed Hm) as [Hw Hd]. split; [done|]. clear -Hd.
    unfold denied_within, names in *. destruct (c_denylist_expansion_enabled cs) as [[]|];
      setoid_rewrite set_allowed_domains_denied; done.
Qed.

Lemma set_mode_within cfg cfg' cs m :
  within_constraints cfg cs -> within_constraints (set_mode m cfg') cs -> within_constraints (set_mode m cfg) cs.
Proof. intros [] []. constructor; assumption. Qed.

(** Brokerage does not take a configuration out of its constraints. *)
Lemma brokered_within cfg cs : within_constraints cfg cs -> within_constraints (fst (brokered_config cfg cs)) cs.
Proof.
  intros Hw. unfold brokered_config.
  set (cfg1 := if bool_decide (c_enabled cs = Some false) then _ else cfg).
  assert (within_constraints cfg1 cs) as Hw1 by (unfold cfg1; case_match; [by apply set_credential_broker_within|done]).
  assert (c_enabled cs = Some false -> credential_broker cfg1 = false) as Hoff.
  { intros He. unfold cfg1. by rewrite bool_decide_true. }
  destruct (credential_broker cfg1 && negb (enabled cfg1)) eqn:Eb; [|done]. simpl.
  apply andb_true_iff in Eb as [Ecb _].
  assert (within_constraints (set_enabled true cfg1) cs) as Hw2.
  { apply set_enabled_within; [done|]. intros He%Hoff. congruence. }
  destruct (negb _ && negb _) eqn:Ea; [|done]. apply andb_true_iff in Ea as [_ Ea].
  apply set_allowed_within; [done|]. by destruct (c_allowed_domains cs).
Qed.

(** Brokerage runs only in a proxy that is on, *)
Lemma brokered_enabled cfg cs :
  credential_broker (fst (brokered_config cfg cs)) = true -> enabled (fst (brokered_config cfg cs)) = true.
Proof.
  unfold brokered_config. set (cfg1 := if bool_decide _ then _ else cfg).
  destruct (credential_broker cfg1) eqn:Eb; simpl.
  - destruct (enabled cfg1) eqn:Ee; simpl; [by rewrite Ee|]. by destruct (_ && _).
  - by rewrite Eb.
Qed.

(** and what it has done once it does not do again. *)
Lemma brokered_again cfg cs :
  within_constraints cfg cs -> (credential_broker cfg = true -> enabled cfg = true) -> brokered_config cfg cs = (cfg, false).
Proof.
  intros Hw He. unfold brokered_config.
  assert ((if bool_decide (c_enabled cs = Some false) then set_credential_broker false (mitm cfg) cfg else cfg) = cfg) as ->.
  { case_bool_decide as Hc; [|done]. apply (wc_enabled _ _ Hw) in Hc. destruct (credential_broker cfg) eqn:Eb.
    - rewrite He in Hc by done. done.
    - unfold set_credential_broker. rewrite <- Eb. by destruct cfg. }
  destruct (credential_broker cfg) eqn:Eb; [rewrite He by done|]; done.
Qed.

(** The state that compilation gives: its parts belong to its configuration. *)
Record compiled (s : ConfigState) : Prop := {
  cs_deny : compile_denylist_globset (default [] (denied_domains (config s))) = Ok (deny_set s);
  cs_allow : compile_allowlist_globset (default [] (allowed_domains (config s))) = Ok (allow_set s);
  cs_hooks : compile_mitm_hooks (mitm (config s)) (mitm_hooks (config s)) = Some (state_mitm_hooks s);
  cs_mitm : is_some (state_mitm s) = mitm (config s);
  cs_broker : credential_broker (config s) = true -> mitm (config s) = true;
  cs_enabled : credential_broker (config s) = true -> enabled (config s) = true;
  cs_denied_exact : no_global_wildcard (default [] (denied_domains (config s)));
}.

Lemma build_config_state_spec cfg cs s :
  build_config_state cfg cs = Ok s ->
  config s = fst (brokered_config cfg cs) /\ constraints s = cs /\ compiled s /\ blocked s = [] /\ blocked_total s = 0%N.
Proof.
  unfold build_config_state. pose proof (brokered_enabled cfg cs) as Hen. destruct (brokered_config cfg cs) as [c made].
  simpl in Hen.
  destruct (validate_unix_socket_allowlist_paths c) as [[]|?|]; simpl; [|done..].
  destruct (credential_broker c && negb (mitm c)) eqn:Eb; [done|].
  destruct (validate_non_global_wildcard_domain_patterns _ _) as [[]|?|] eqn:Ew; simpl; [|done..].
  apply wildcard_ok in Ew.
  destruct (compile_denylist_globset _) as [dset|?|] eqn:Ed; simpl; [|done..].
  destruct (compile_allowlist_globset _) as [aset|?|] eqn:Ea; simpl; [|done..].
  destruct (compile_mitm_hooks _ _) as [hooks|] eqn:Eh; [|done].
  assert (credential_broker c = true -> mitm c = true) as Hbm.
  { intros Hc. rewrite Hc in Eb. by destruct (mitm c). }
  destruct (mitm c) eqn:Em.
  - destruct (mitm_state_new _) as [m|] eqn:En; [|done]. intros [= <-]. simpl.
    split_and!; try done. constructor; simpl; rewrite ?Em; done.
  - intros [= <-]. simpl. split_and!; try done. constructor; simpl; rewrite ?Em; done.
Qed.

(** With a managed list and no word on expansion, every host a configured pattern stands
    for is one that a managed pattern stands for. *)
Lemma managed_allowlist_covers cfg cs managed p h :
  within_constraints cfg cs -> c_allowed_domains cs = Some managed -> c_allowlist_expansion_enabled cs = None ->
  p ∈ default [] (allowed_domains cfg) -> covers (parse_for_constraints p) h = true ->
  exists m, m ∈ managed /\ covers (parse_for_constraints m) h = true.
Proof.
  intros Hw Hm He Hp Hc. destruct (wc_allowed _ _ Hw _ Hm) as [_ Ha]. unfold allowed_within in Ha. rewrite He in Ha.
  destruct (Ha p Hp) as (m & Hin & Hal). exists m. split; [done|]. by eapply allows_sound.
Qed.

End built.
