(* ===== verification/CredBroker.v ===== *)
(** * The credential broker of the network proxy

    Models [network-proxy/src/credential_broker.rs] and its providers
    ([credential_broker/providers.rs], [providers/github.rs], [providers/openai.rs]): real
    credentials of a child's environment are replaced by dummies, restored for commands that
    run outside the proxy, and put into the requests for the hosts they are bound to.

    Header maps, base64, JSON and the random generator are interfaces ([HeaderOps],
    [MarkerOps], [Rng]).  The loop that draws dummies until one is fresh has no bound in the
    source: it takes fuel here, and returns [None] when the fuel is used up.  The platform is
    not Windows, so the names of variables are compared as they are. *)

From stdpp Require Import base list strings gmap.
From Stdlib Require Import NArith.
From S2P Require Import Prelude NetAddr NetPolicy NetConfig StreamText Utf8Stream.

(** [HeaderValue::from_str], [HeaderValue::to_str], and of [HeaderMap] what concerns the
    [Authorization] header. *)
Class HeaderOps := {
  HeaderValue : Type;
  header_from_str : str -> option HeaderValue;
  header_to_str : HeaderValue -> option str;
  HeaderMap : Type;
  get_authorization : HeaderMap -> option HeaderValue;
  insert_authorization : HeaderMap -> HeaderValue -> HeaderMap;
  base64_decode : str -> option (list N);
  base64_encode : list N -> str;
}.

(** [serde_json] on a list of pairs of strings. *)
Class MarkerOps := {
  marker_to_string : list (str * str) -> option str;
  marker_from_str : str -> option (list (str * str));
}.

(** The numbers the generator gives, reduced to the range that is asked for. *)
Class Rng := { draw : nat -> nat }.

(** ** Environments *)

Abbreviation env_map := (gmap str str).

Definition CREDENTIAL_BROKER_ACTIVE_ENV_KEY : str := lit "CODEX_NETWORK_PROXY_CREDENTIAL_BROKER_ACTIVE".
Definition BROKERED_CREDENTIALS_ENV_KEY : str := lit "CODEX_NETWORK_PROXY_BROKERED_CREDENTIALS".

Definition env_key_matches (candidate expected : str) : bool := str_eqb candidate expected.
Definition env_entry (env : env_map) (key : str) : option (str * str) := (fun v => (key, v)) <$> env !! key.
Definition env_value (env : env_map) (key : str) : option str := snd <$> env_entry env key.
Definition set_env_value (env : env_map) (key value : str) : env_map := <[key := value]> env.
Definition remove_env_value (env : env_map) (key : str) : env_map := delete key env.

(** ** Providers *)

Inductive CredentialHostBinding :=
| ExactHost (host : str)
| ExactHosts (hosts : list str)
| HostPattern (exact_hosts suffixes : list str).
#[export] Instance CredentialHostBinding_eq_dec : EqDecision CredentialHostBinding.
Proof. solve_decision. Defined.

Definition binding_matches_host (b : CredentialHostBinding) (host : str) : bool :=
  match b with
  | ExactHost expected_host => str_eqb host expected_host
  | ExactHosts expected_hosts => existsb (fun expected => str_eqb host expected) expected_hosts
  | HostPattern exact_hosts suffixes => mem_str host exact_hosts || existsb (fun suffix => ends_with suffix host) suffixes
  end.

(** The two [static] providers; their addresses are their identities. *)
Inductive CredentialProvider := GitHub | OpenAI.
#[export] Instance CredentialProvider_eq_dec : EqDecision CredentialProvider.
Proof. solve_decision. Defined.

Definition credential_providers : list CredentialProvider := [GitHub; OpenAI].

Definition reset_on_configuration_change (p : CredentialProvider) : bool :=
  match p with GitHub => false | OpenAI => true end.

Definition GH_HOST_ENV_VAR : str := lit "GH_HOST".
Definition OPENAI_BASE_URL_ENV_VAR : str := lit "OPENAI_BASE_URL".

Definition context_env_vars (p : CredentialProvider) : list str :=
  match p with GitHub => [GH_HOST_ENV_VAR] | OpenAI => [OPENAI_BASE_URL_ENV_VAR] end.

Definition GITHUB_CLOUD_HOSTS : list str := [lit "api.github.com"; lit "github.com"; lit "uploads.github.com"].
Definition GITHUB_CLOUD_HOST_SUFFIXES : list str := [lit ".ghe.com"].
Definition GITHUB_TOKEN_PREFIXES : list str :=
  [lit "github_pat_"; lit "ghp_"; lit "gho_"; lit "ghu_"; lit "ghs_"; lit "ghr_"].

Definition github_cloud_binding : option CredentialHostBinding :=
  Some (HostPattern GITHUB_CLOUD_HOSTS GITHUB_CLOUD_HOST_SUFFIXES).

Definition github_cloud_host (host : str) : bool :=
  mem_str host GITHUB_CLOUD_HOSTS || existsb (fun suffix => ends_with suffix host) GITHUB_CLOUD_HOST_SUFFIXES.

Definition github_host_hint (env : env_map) : option str :=
  match normalize_host <$> env_value env GH_HOST_ENV_VAR with
  | Some host => if is_empty host then None else Some host
  | None => None
  end.

Definition github_enterprise_binding (env : env_map) : option CredentialHostBinding :=
  match github_host_hint env with
  | Some host => if github_cloud_host host then None else Some (ExactHost host)
  | None => None
  end.

Definition OPENAI_API_HOST : str := lit "api.openai.com".

Definition openai_host_binding `{UrlOps} (env : env_map) (configured_host : option str) : option CredentialHostBinding :=
  let extra := option_list configured_host ++ option_list (env_value env OPENAI_BASE_URL_ENV_VAR ≫= trusted_credential_broker_host) in
  let hosts := foldl (fun hosts host => if mem_str host hosts then hosts else hosts ++ [host]) [OPENAI_API_HOST] extra in
  Some match hosts with [host] => ExactHost host | _ => ExactHosts hosts end.

(** [CredentialSource]: the variables, and the binding of what they hold. *)
Record CredentialSource := mkCredentialSource {
  env_vars : list str;
  host_binding : env_map -> option str -> option CredentialHostBinding }.

Definition sources `{UrlOps} (p : CredentialProvider) : list CredentialSource :=
  match p with
  | GitHub =>
      [mkCredentialSource [lit "GH_TOKEN"; lit "GITHUB_TOKEN"] (fun _ _ => github_cloud_binding);
       mkCredentialSource [lit "GH_ENTERPRISE_TOKEN"; lit "GITHUB_ENTERPRISE_TOKEN"] (fun env _ => github_enterprise_binding env)]
  | OpenAI => [mkCredentialSource [lit "OPENAI_API_KEY"] openai_host_binding]
  end.

Definition credential_env_keys `{UrlOps} : list str :=
  credential_providers ≫= fun p => sources p ≫= env_vars.

Definition credential_context_env_keys `{UrlOps} (brokered_keys : list str) : list str :=
  filter (fun p => existsb (fun source => existsb (fun key => existsb (fun brokered => env_key_matches brokered key) brokered_keys)
                     (env_vars source)) (sources p) = true) credential_providers ≫= context_env_vars.

(** ** Dummies *)

Definition DUMMY_ALPHANUMERIC : str := lit "ABCDEFGHIJKLMNOPQRSTUVWXYZabcdefghijklmnopqrstuvwxyz0123456789".

Definition is_ascii_alphanumeric (c : N) : bool :=
  ((48 <=? c) && (c <=? 57) || (65 <=? c) && (c <=? 90) || (97 <=? c) && (c <=? 122))%N.

Definition dash_char : N := 45.
Definition space_char : N := 32.

(** The loop of [shaped_dummy_value]: the characters at [index], [index + 1], ... *)
Fixpoint shape_characters `{Rng} (template : list N) (index count : nat) (pos : nat) : str * nat :=
  match count with
  | 0 => ([], pos)
  | S count =>
      match template !! index with
      | Some t =>
          if is_ascii_alphanumeric t then
            let '(rest, pos') := shape_characters template (S index) count (S pos) in
            (nth (draw pos mod length DUMMY_ALPHANUMERIC) DUMMY_ALPHANUMERIC 0%N :: rest, pos')
          else
            let '(rest, pos') := shape_characters template (S index) count pos in (t :: rest, pos')
      | None =>
          let '(rest, pos') := shape_characters template (S index) count (S pos) in
          (nth (draw pos mod length DUMMY_ALPHANUMERIC) DUMMY_ALPHANUMERIC 0%N :: rest, pos')
      end
  end.

Definition shaped_dummy_value `{Rng} (real_value prefix : str) (minimum_len : nat) (pos : nat) : str * nat :=
  let prefix_len := length (utf8_encode prefix) in
  let target_len := (length (utf8_encode real_value) `max` minimum_len) `max` (prefix_len + 16) in
  let '(rest, pos') := shape_characters (utf8_encode real_value) prefix_len (target_len - prefix_len) pos in
  (prefix ++ rest, pos').

Definition github_token_prefix (value : str) : str :=
  default (lit "ghp_") (List.find (fun prefix => starts_with prefix value) GITHUB_TOKEN_PREFIXES).

(** The part of the key up to the dash after ["sk-"]. *)
Definition openai_api_key_prefix (value : str) : str :=
  match strip_prefix (lit "sk-") value with
  | None => lit "sk-"
  | Some suffix =>
      match split_once dash_char suffix with
      | Some (name, _) => lit "sk-" ++ name ++ [dash_char]
      | None => lit "sk-"
      end
  end.

Definition dummy_value `{Rng} (p : CredentialProvider) (real_value : str) (pos : nat) : str * nat :=
  match p with
  | GitHub => shaped_dummy_value real_value (github_token_prefix real_value) 40 pos
  | OpenAI => shaped_dummy_value real_value (openai_api_key_prefix real_value) 51 pos
  end.

(** ** Headers *)

Section headers.
Context `{HeaderOps}.

Definition request_header_value (p : CredentialProvider) (value : str) : option HeaderValue :=
  match p with GitHub | OpenAI => header_from_str (lit "Bearer " ++ value) end.

Definition insert_request_header (p : CredentialProvider) (headers : HeaderMap) (value : HeaderValue) : HeaderMap :=
  match p with GitHub | OpenAI => insert_authorization headers value end.

Definition eq_ignore_ascii_case (a b : str) : bool := str_eqb (to_ascii_lowercase a) (to_ascii_lowercase b).

Definition colon_byte : N := 58.

Definition github_translate_request_header (headers : HeaderMap) (expected_value replacement_value : str) : option HeaderValue :=
  header ← get_authorization headers ≫= header_to_str;
  '(scheme, value) ← split_once space_char header;
  let value := trim value in
  if eq_ignore_ascii_case scheme (lit "basic") then
    decoded ← base64_decode value;
    '(user, password) ← split_once colon_byte decoded;
    translated ←
      (if bool_decide (user = utf8_encode expected_value) then
         Some (utf8_encode replacement_value ++ colon_byte :: password)
       else if bool_decide (password = utf8_encode expected_value) then
         Some (user ++ colon_byte :: utf8_encode replacement_value)
       else None);
    header_from_str (scheme ++ lit " " ++ base64_encode translated)
  else if (eq_ignore_ascii_case scheme (lit "bearer") || eq_ignore_ascii_case scheme (lit "token"))
          && str_eqb value expected_value then
    header_from_str (scheme ++ lit " " ++ replacement_value)
  else None.

(** [str::contains] of a string. *)
Definition contains_str (needle s : str) : bool := is_some (split_once_str needle s).

Definition openai_translate_request_header (headers : HeaderMap) (expected_value replacement_value : str) : option HeaderValue :=
  header ← get_authorization headers ≫= header_to_str;
  if contains_str expected_value header then request_header_value OpenAI replacement_value else None.

Definition translate_request_header (p : CredentialProvider) :=
  match p with GitHub => github_translate_request_header | OpenAI => openai_translate_request_header end.

End headers.

(** ** The broker *)

Record CredentialRecord := mkCredentialRecord {
  env_var : str; provider : CredentialProvider; binding : CredentialHostBinding; real_value : str; dummy : str }.

Record CredentialBrokerState := mkBrokerState {
  broker_enabled : bool; openai_api_host : option str; credentials : list CredentialRecord }.

(** [CredentialBroker::new]. *)
Definition broker_new (enabled : bool) : CredentialBrokerState := mkBrokerState enabled None [].

Definition configure `{MitmHookOps} (config : NetworkProxyConfig) (state : CredentialBrokerState) : CredentialBrokerState :=
  let state :=
    if Bool.eqb (broker_enabled state) (credential_broker config) then state
    else mkBrokerState (credential_broker config) (openai_api_host state) [] in
  if bool_decide (openai_api_host state = credential_broker_openai_host config) then state
  else mkBrokerState (broker_enabled state) (credential_broker_openai_host config)
         (filter (fun c => reset_on_configuration_change (provider c) = false) (credentials state)).

Definition is_dummy_value (state : CredentialBrokerState) (value : str) : bool :=
  existsb (fun c => str_eqb (dummy c) value) (credentials state).

Definition matches_host (c : CredentialRecord) (host : str) : bool := binding_matches_host (binding c) host.

Definition host_requires_mitm (state : CredentialBrokerState) (host : str) : bool :=
  let normalized_host := normalize_host host in
  broker_enabled state && existsb (fun c => matches_host c normalized_host) (credentials state).

Definition push_credential (c : CredentialRecord) (state : CredentialBrokerState) : CredentialBrokerState :=
  mkBrokerState (broker_enabled state) (openai_api_host state) (credentials state ++ [c]).

Section broker.
Context `{UrlOps} `{HeaderOps} `{MarkerOps} `{Rng}.

(** The loop of [register]: draws until a candidate is neither the real value nor taken. *)
Fixpoint fresh_dummy (fuel : nat) (p : CredentialProvider) (real : str) (state : CredentialBrokerState) (pos : nat) :
    option (str * nat) :=
  match fuel with
  | 0 => None
  | S fuel =>
      let '(candidate, pos) := dummy_value p real pos in
      if negb (str_eqb candidate real) && negb (is_dummy_value state candidate) then Some (candidate, pos)
      else fresh_dummy fuel p real state pos
  end.

(** The broker, and how much of the generator has been used. *)
Abbreviation broker := (CredentialBrokerState * nat)%type.

Definition register (fuel : nat) (var : str) (p : CredentialProvider) (b : CredentialHostBinding) (real : str) (st : broker) :
    option (str * broker) :=
  let '(state, pos) := st in
  match List.find (fun c => str_eqb (env_var c) var && bool_decide (provider c = p) && bool_decide (binding c = b)
                      && str_eqb (real_value c) real) (credentials state) with
  | Some existing => Some (dummy existing, st)
  | None =>
      '(d, pos) ← fresh_dummy fuel p real state pos;
      Some (d, (push_credential (mkCredentialRecord var p b real d) state, pos))
  end.

Definition brokerable_credential_value (env : env_map) (state : CredentialBrokerState) (var : str) (p : CredentialProvider) : option str :=
  real ← trim <$> env_value env var;
  if negb (is_empty real) && negb (is_dummy_value state real) && is_some (request_header_value p real) then Some real else None.

Definition virtualize_env_var (fuel : nat) (var : str) (p : CredentialProvider) (b : CredentialHostBinding) (env : env_map) (st : broker) :
    option (env_map * broker) :=
  match brokerable_credential_value env (fst st) var p with
  | None => Some (env, st)
  | Some real =>
      '(d, st) ← register fuel var p b real st;
      Some (set_env_value env var d, st)
  end.

(** The loops over the variables of a source, the sources and the providers. *)
Fixpoint virtualize_vars (fuel : nat) (vars : list str) (p : CredentialProvider) (b : CredentialHostBinding) (env : env_map) (st : broker) :
    option (env_map * broker) :=
  match vars with
  | [] => Some (env, st)
  | var :: rest =>
      '(env, st) ← virtualize_env_var fuel var p b env st;
      virtualize_vars fuel rest p b env st
  end.

Fixpoint virtualize_sources (fuel : nat) (srcs : list (CredentialProvider * CredentialSource)) (env : env_map) (st : broker) :
    option (env_map * broker) :=
  match srcs with
  | [] => Some (env, st)
  | (p, source) :: rest =>
      '(env, st) ←
        match host_binding source env (openai_api_host (fst st)) with
        | Some b => virtualize_vars fuel (env_vars source) p b env st
        | None => Some (env, st)
        end;
      virtualize_sources fuel rest env st
  end.

Definition all_sources : list (CredentialProvider * CredentialSource) :=
  credential_providers ≫= fun p => pair p <$> sources p.

Definition update_brokered_credentials_marker (state : CredentialBrokerState) (env : env_map) : env_map :=
  let brokered :=
    credential_env_keys ≫= fun key =>
      match env_entry env key with
      | Some (actual_key, value) => if is_dummy_value state value then [(actual_key, value)] else []
      | None => []
      end in
  match marker_to_string brokered with
  | Some marker => set_env_value env BROKERED_CREDENTIALS_ENV_KEY marker
  | None => remove_env_value env BROKERED_CREDENTIALS_ENV_KEY
  end.

Definition virtualize_child_env (fuel : nat) (env : env_map) (st : broker) : option (env_map * broker) :=
  if negb (broker_enabled (fst st)) then
    Some (remove_env_value (remove_env_value env CREDENTIAL_BROKER_ACTIVE_ENV_KEY) BROKERED_CREDENTIALS_ENV_KEY, st)
  else
    let env := set_env_value env CREDENTIAL_BROKER_ACTIVE_ENV_KEY (lit "1") in
    '(env, st) ← virtualize_sources fuel all_sources env st;
    Some (update_brokered_credentials_marker (fst st) env, st).

(** [str::replace]. *)
Fixpoint replace_str (fuel : nat) (from to s : str) : str :=
  match fuel with
  | 0 => s
  | S fuel =>
      match split_once_str from s with
      | Some (before, after) => before ++ to ++ replace_str fuel from to after
      | None => s
      end
  end.

Definition credential_for (state : CredentialBrokerState) (key value : str) : option CredentialRecord :=
  List.find (fun c => env_key_matches key (env_var c) && str_eqb value (dummy c)) (credentials state).

Definition replace_argument (c : CredentialRecord) (argument : str) : str :=
  if contains_str (dummy c) argument then replace_str (length argument) (dummy c) (real_value c) argument else argument.

(** One turn of the loop over the environment. *)
Definition restore_entry (state : CredentialBrokerState) (acc : env_map * list str) (entry : str * str) : env_map * list str :=
  let '(env, command) := acc in
  match credential_for state (fst entry) (snd entry) with
  | Some c => (<[fst entry := real_value c]> env, replace_argument c <$> command)
  | None => (env, command)
  end.

Definition restore_child_env (state : CredentialBrokerState) (env : env_map) (command : list str) : env_map * list str :=
  if negb (broker_enabled state) || negb (bool_decide (env_value env CREDENTIAL_BROKER_ACTIVE_ENV_KEY = Some (lit "1")))
  then (env, command)
  else foldl (restore_entry state) (env, command) (map_to_list env).

Definition select_credential (headers : HeaderMap) (matching : list CredentialRecord) : option (CredentialRecord * HeaderValue) :=
  let translated_matches := omap (fun c => pair c <$> translate_request_header (provider c) headers (dummy c) (real_value c)) matching in
  match translated_matches with
  | [matched] => Some matched
  | _ => None
  end.

Definition inject_request_headers (state : CredentialBrokerState) (host : str) (headers : HeaderMap) : HeaderMap :=
  let normalized_host := normalize_host host in
  if negb (broker_enabled state) then headers
  else
    let matching_credentials := filter (fun c => matches_host c normalized_host = true) (credentials state) in
    match select_credential headers matching_credentials with
    | Some (c, header_value) => insert_request_header (provider c) headers header_value
    | None => headers
    end.

Definition brokered_credential_dummy_env_keys (env : env_map) : list str :=
  let marker := default [] (env_value env BROKERED_CREDENTIALS_ENV_KEY ≫= marker_from_str) in
  sort_by str_leb (omap (fun '(key, dummy_value) =>
    if existsb (fun candidate => env_key_matches key candidate) credential_env_keys then
      '(actual_key, actual_value) ← env_entry env key;
      if str_eqb actual_value dummy_value then Some actual_key else None
    else None) marker).

Definition brokered_credential_env_keys (env : env_map) : list str :=
  if bool_decide (env_value env CREDENTIAL_BROKER_ACTIVE_ENV_KEY = Some (lit "1")) then
    let brokered_keys := brokered_credential_dummy_env_keys env in
    filter (fun key => existsb (fun brokered => env_key_matches brokered key) brokered_keys = true) credential_env_keys ++
    filter (fun key => is_some (env_value env key) = true) (credential_context_env_keys brokered_keys)
  else [].

End broker.

(** ** Dummies that are never fresh *)

Section dummies.
Context `{Rng}.

(** Where every byte of the template is kept, nothing is drawn. *)
Lemma shape_verbatim template index count pos :
  index + count <= length template -> Forall (fun t => is_ascii_alphanumeric t = false) (drop index template) ->
  shape_characters template index count pos = (take count (drop index template), pos).
Proof.
  revert index. induction count as [|count IH]; intros index Hlen Hmask; simpl; [by rewrite take_0|].
  destruct (lookup_lt_is_Some_2 template index) as [t Ht]; [lia|].
  rewrite (drop_S _ _ _ Ht) in Hmask |- *. apply Forall_cons in Hmask as [Hkeep Hmask].
  rewrite Ht, Hkeep, IH by (done || lia). done.
Qed.

Definition minimum_len (p : CredentialProvider) : nat := match p with GitHub => 40 | OpenAI => 51 end.
Definition dummy_prefix (p : CredentialProvider) (real : str) : str :=
  match p with GitHub => github_token_prefix real | OpenAI => openai_api_key_prefix real end.

Lemma dummy_value_unfold p real pos : dummy_value p real pos = shaped_dummy_value real (dummy_prefix p real) (minimum_len p) pos.
Proof. by destruct p. Qed.

Lemma utf8_encode_ascii s : Forall (fun c => (c < 128)%N) s -> utf8_encode s = s.
Proof.
  induction 1 as [|c s Hc _ IH]; [done|]. unfold utf8_encode in *. rewrite bind_cons, IH. unfold utf8_encode_char.
  apply N.ltb_lt in Hc. by rewrite Hc.
Qed.

(** A prefix, and then no letter or digit: the dummy is the value itself. *)
Lemma masked_dummy p real mask pos :
  real = dummy_prefix p real ++ mask -> Forall (fun c => (c < 128)%N) real ->
  Forall (fun c => is_ascii_alphanumeric c = false) mask -> 16 <= length mask -> minimum_len p <= length real ->
  dummy_value p real pos = (real, pos).
Proof.
  intros Hreal Hascii Hmask H16 Hmin. rewrite dummy_value_unfold. unfold shaped_dummy_value.
  set (prefix := dummy_prefix p real) in *.
  assert (Forall (fun c => (c < 128)%N) prefix) as Hp by (rewrite Hreal in Hascii; by apply Forall_app in Hascii as [? _]).
  rewrite !utf8_encode_ascii by done.
  assert (length real = length prefix + length mask) as Hl by (by rewrite Hreal at 1; rewrite length_app).
  assert (drop (length prefix) real = mask) as Hdrop by (rewrite Hreal at 1; by rewrite drop_app_length).
  rewrite shape_verbatim by (rewrite ?Hdrop; done || lia).
  rewrite Hdrop, take_ge by lia. by rewrite <- Hreal.
Qed.

Lemma fresh_dummy_mono n m p real state pos r :
  n <= m -> fresh_dummy n p real state pos = Some r -> fresh_dummy m p real state pos = Some r.
Proof.
  revert m pos. induction n as [|n IH]; intros m pos Hle; [done|]. destruct m as [|m]; [lia|]. simpl.
  destruct (dummy_value p real pos) as [c pos']. case_match; [done|]. apply IH. lia.
Qed.

Lemma fresh_dummy_fresh n p real state pos d pos' :
  fresh_dummy n p real state pos = Some (d, pos') -> d <> real /\ is_dummy_value state d = false.
Proof.
  revert pos. induction n as [|n IH]; intros pos; simpl; [done|].
  destruct (dummy_value p real pos) as [c pos1]. destruct (negb _ && negb _) eqn:E; [|apply IH].
  intros [= -> ->]. by to_prop.
Qed.

End dummies.

(** ** The broker's invariant *)

Section broker_invariant.
Context `{UrlOps} `{HeaderOps} `{MarkerOps} `{Rng}.

(** No two credentials share a dummy, no dummy is the value it stands for, and only the
    variables of the providers are brokered. *)
Record broker_ok (state : CredentialBrokerState) : Prop := {
  bo_dummies : NoDup (dummy <$> credentials state);
  bo_fresh : forall c, c ∈ credentials state -> dummy c <> real_value c;
  bo_vars : forall c, c ∈ credentials state -> env_var c ∈ credential_env_keys;
}.

Lemma broker_new_ok b : broker_ok (broker_new b).
Proof. constructor; simpl; [constructor|by intros ? ?%not_elem_of_nil..]. Qed.

Lemma broker_ok_sublist state state' :
  broker_ok state -> sublist (credentials state') (credentials state) -> broker_ok state'.
Proof.
  intros [Hd Hf Hv] Hs. assert (forall c, c ∈ credentials state' -> c ∈ credentials state) as Hin.
  { intros c. by apply sublist_subseteq. }
  constructor; [|by eauto..]. eapply sublist_NoDup; [exact Hd|]. by apply fmap_sublist.
Qed.

Lemma configure_ok `{MitmHookOps} config state : broker_ok state -> broker_ok (configure config state).
Proof.
  intros Hok. apply (broker_ok_sublist state); [done|]. unfold configure.
  destruct (Bool.eqb _ _), (bool_decide _); simpl; auto using sublist_filter, sublist_nil_l.
Qed.

Lemma is_dummy_value_false state d : is_dummy_value state d = false <-> d ∉ dummy <$> credentials state.
Proof.
  unfold is_dummy_value. rewrite <- not_true_iff_false, existsb_exists, list_elem_of_fmap. apply not_iff_compat.
  split.
  - intros (c & Hc%list_elem_of_In & Hd). exists c. by to_prop.
  - intros (c & -> & Hc). exists c. split; [by apply list_elem_of_In|]. by apply bool_decide_eq_true.
Qed.

Lemma push_credential_ok c state :
  broker_ok state -> dummy c <> real_value c -> is_dummy_value state (dummy c) = false -> env_var c ∈ credential_env_keys ->
  broker_ok (push_credential c state).
Proof.
  intros [Hd Hf Hv] Hne Hfresh%is_dummy_value_false Hvar. constructor; simpl.
  - rewrite fmap_app. apply NoDup_app. split_and!; [done| |apply NoDup_singleton].
    intros x Hx Heq%list_elem_of_singleton. by subst x.
  - intros c'. rewrite elem_of_app, list_elem_of_singleton. intros [?| ->]; auto.
  - intros c'. rewrite elem_of_app, list_elem_of_singleton. intros [?| ->]; auto.
Qed.

(** What a run over the variables [V] does: it adds credentials, each for a variable that
    now holds its dummy, and every variable is as it was or holds the dummy of the
    credential it held. *)
Definition virtualized (V : list str) (env : env_map) (state : CredentialBrokerState) (env' : env_map) (state' : CredentialBrokerState) : Prop :=
  (broker_enabled state' = broker_enabled state /\ openai_api_host state' = openai_api_host state) /\
  (exists new, credentials state' = credentials state ++ new /\
     forall c, c ∈ new -> env_var c ∈ V /\ env' !! env_var c = Some (dummy c) /\
       trim <$> env !! env_var c = Some (real_value c)) /\
  (forall key, env' !! key = env !! key \/
     (key ∈ V /\ exists c, c ∈ credentials state' /\ env_var c = key /\ env' !! key = Some (dummy c) /\
        trim <$> env !! key = Some (real_value c))) /\
  (forall key, key ∉ V -> env' !! key = env !! key) /\
  (broker_ok state -> V ⊆ credential_env_keys -> broker_ok state').

Lemma virtualized_same V env state : virtualized V env state env state.
Proof.
  split_and!; try done; [|by left]. exists []. rewrite app_nil_r. split; [done|]. by intros ? ?%not_elem_of_nil.
Qed.

Lemma virtualized_trans V1 V2 env state env1 state1 env2 state2 :
  (forall v, v ∈ V1 -> v ∉ V2) ->
  virtualized V1 env state env1 state1 -> virtualized V2 env1 state1 env2 state2 -> virtualized (V1 ++ V2) env state env2 state2.
Proof.
  intros Hdisj ([He1 Ho1] & (n1 & Hc1 & Hn1) & Hk1 & Hu1 & Hok1) ([He2 Ho2] & (n2 & Hc2 & Hn2) & Hk2 & Hu2 & Hok2). split_and!; [congruence..| | | |].
  - exists (n1 ++ n2). rewrite Hc2, Hc1, app_assoc. split; [done|]. intros c. rewrite !elem_of_app. intros [Hc|Hc].
    + destruct (Hn1 c Hc) as [Hv Hl]. split; [by left|]. rewrite Hu2; auto.
    + destruct (Hn2 c Hc) as (Hv & Hl & Ht). rewrite <- Hu1; [by auto|]. intros Hv1. by apply (Hdisj (env_var c)).
  - intros key. setoid_rewrite elem_of_app. destruct (Hk2 key) as [E2|(Hv2 & c & Hc & Hvar & Hl & Ht)].
    + destruct (Hk1 key) as [E1|(Hv1 & c & Hc & Hvar & Hl & Ht)]; [left; congruence|].
      right. split; [by left|]. exists c. rewrite Hc2, elem_of_app, E2. by auto.
    + right. split; [by right|]. exists c. rewrite <- (Hu1 key); [by auto|]. intros Hv1. by apply (Hdisj key).
  - intros key. rewrite not_elem_of_app. intros [Hv1 Hv2]. rewrite Hu2, Hu1; done.
  - intros Hok Hsub. apply Hok2; [apply Hok1; [done|]|]; set_solver.
Qed.

Lemma virtualize_env_var_spec fuel var p b env state pos env' state' pos' :
  virtualize_env_var fuel var p b env (state, pos) = Some (env', (state', pos')) -> virtualized [var] env state env' state'.
Proof.
  unfold virtualize_env_var, brokerable_credential_value, env_value, env_entry, set_env_value. simpl.
  rewrite <- option_fmap_compose. destruct (env !! var) as [v|] eqn:Ev; simpl.
  2: { intros [= <- <- <-]. apply virtualized_same. }
  destruct (negb (is_empty _) && _ && _) eqn:Eb.
  2: { intros [= <- <- <-]. apply virtualized_same. }
  unfold register. destruct (List.find _ _) as [c|] eqn:Ef; simpl.
  - intros [= <- <- <-]. apply find_some in Ef as [Hin%list_elem_of_In Hc]. to_prop. split_and!; try done.
    + exists []. rewrite app_nil_r. split; [done|]. by intros ? ?%not_elem_of_nil.
    + intros key. destruct (decide (key = var)) as [->|Hne]; [|left; by rewrite lookup_insert_ne]. right.
      split; [by left|]. exists c. rewrite lookup_insert_eq, Ev. simpl. split_and!; [done|done|done|congruence].
    + intros key Hk. rewrite lookup_insert_ne; [done|]. set_solver.
  - destruct (fresh_dummy fuel p (trim v) state pos) as [[d pos1]|] eqn:Ed; [|done]. intros [= <- <- <-].
    apply fresh_dummy_fresh in Ed as [Hne Hfresh]. split_and!; try done.
    + eexists. split; [done|]. intros c ->%list_elem_of_singleton. simpl. rewrite lookup_insert_eq, Ev. split; [by left|done].
    + intros key. destruct (decide (key = var)) as [->|Hkey]; [|left; by rewrite lookup_insert_ne]. right. split; [by left|].
      eexists. rewrite lookup_insert_eq, Ev. simpl. split; [apply elem_of_app; right; by apply list_elem_of_singleton|done].
    + intros key Hk. rewrite lookup_insert_ne; [done|]. set_solver.
    + intros Hok Hv. apply push_credential_ok; [done..|]. apply Hv. by left.
Qed.

Lemma virtualize_vars_spec fuel vars p b env state pos env' state' pos' :
  NoDup vars -> virtualize_vars fuel vars p b env (state, pos) = Some (env', (state', pos')) -> virtualized vars env state env' state'.
Proof.
  revert env state pos. induction vars as [|var vars IH]; intros env state pos Hnd Hv; simpl in Hv.
  { simplify_eq. apply virtualized_same. }
  apply NoDup_cons in Hnd as [Hvar Hnd].
  destruct (virtualize_env_var fuel var p b env (state, pos)) as [[env1 [state1 pos1]]|] eqn:E1; [|done].
  apply virtualize_env_var_spec in E1. eapply (virtualized_trans [var] vars); [|exact E1|by eapply IH].
  by intros v ->%list_elem_of_singleton.
Qed.

Lemma virtualize_sources_spec fuel srcs env state pos env' state' pos' :
  NoDup (srcs ≫= fun s => env_vars (snd s)) -> virtualize_sources fuel srcs env (state, pos) = Some (env', (state', pos')) ->
  virtualized (srcs ≫= fun s => env_vars (snd s)) env state env' state'.
Proof.
  revert env state pos. induction srcs as [|[p source] srcs IH]; intros env state pos Hnd Hv; simpl in Hv.
  { simplify_eq. apply virtualized_same. }
  rewrite bind_cons in Hnd |- *. simpl in Hnd |- *. apply NoDup_app in Hnd as (Hnd1 & Hdisj & Hnd2).
  destruct (host_binding source env (openai_api_host state)) as [b|].
  - destruct (virtualize_vars fuel (env_vars source) p b env (state, pos)) as [[env1 [state1 pos1]]|] eqn:E1; [|done].
    eapply virtualized_trans; [done|by eapply virtualize_vars_spec|by eapply IH].
  - eapply virtualized_trans; [done|apply virtualized_same|by eapply IH].
Qed.

Lemma all_sources_vars : all_sources ≫= (fun s => env_vars (snd s)) = credential_env_keys.
Proof. done. Qed.

Lemma credential_env_keys_NoDup : NoDup credential_env_keys.
Proof. apply (bool_decide_unpack _). vm_compute. exact I. Qed.

Lemma virtualize_child_env_ok fuel env state pos env' state' pos' :
  broker_ok state -> virtualize_child_env fuel env (state, pos) = Some (env', (state', pos')) -> broker_ok state'.
Proof.
  intros Hok. unfold virtualize_child_env. cbn [fst]. destruct (broker_enabled state); cbn [negb]; [|by intros [= <- <- <-]].
  set (env0 := set_env_value env _ _). destruct (virtualize_sources fuel all_sources env0 (state, pos)) as [[env1 [state1 pos1]]|] eqn:Es; [cbn|done].
  intros [= <- <- <-]. apply virtualize_sources_spec in Es; [|rewrite all_sources_vars; apply credential_env_keys_NoDup].
  rewrite all_sources_vars in Es. destruct Es as (_ & _ & _ & _ & Hok1). by apply Hok1.
Qed.

(** The keys the broker keeps for itself are not credentials. *)
Definition is_marker (key : str) : Prop := key = CREDENTIAL_BROKER_ACTIVE_ENV_KEY \/ key = BROKERED_CREDENTIALS_ENV_KEY.

Lemma update_marker_lookup state env key :
  key <> BROKERED_CREDENTIALS_ENV_KEY -> update_brokered_credentials_marker state env !! key = env !! key.
Proof.
  intros Hk. unfold update_brokered_credentials_marker, set_env_value, remove_env_value.
  case_match; by rewrite ?lookup_insert_ne, ?lookup_delete_ne.
Qed.

Lemma marker_not_credential key : is_marker key -> key ∉ credential_env_keys.
Proof. intros [-> | ->]; apply (bool_decide_unpack _); vm_compute; exact I. Qed.

(** *** Restoring *)

Lemma restore_fold_lookup state l env command key :
  NoDup l.*1 ->
  (foldl (restore_entry state) (env, command) l).1 !! key =
  match (list_to_map l : env_map) !! key ≫= credential_for state key with
  | Some c => Some (real_value c)
  | None => env !! key
  end.
Proof.
  revert env command key. induction l as [|[k v] l IH]; intros env command key Hnd; simpl; [done|].
  apply NoDup_cons in Hnd as [Hk Hnd].
  assert (forall e cmd, (foldl (restore_entry state) (e, cmd) l).1 !! k = e !! k) as Hskip.
  { intros e cmd. rewrite IH by done. by rewrite not_elem_of_list_to_map_1. }
  destruct (credential_for state k v) as [c|] eqn:Ec; destruct (decide (key = k)) as [->|Hne].
  - rewrite Hskip, !lookup_insert_eq. simpl. by rewrite Ec.
  - rewrite IH, !lookup_insert_ne by done. done.
  - rewrite Hskip, lookup_insert_eq. simpl. by rewrite Ec.
  - rewrite IH, lookup_insert_ne by done. done.
Qed.

Lemma restore_child_env_lookup state env command key :
  broker_enabled state = true -> env !! CREDENTIAL_BROKER_ACTIVE_ENV_KEY = Some (lit "1") ->
  (restore_child_env state env command).1 !! key =
  match env !! key ≫= credential_for state key with Some c => Some (real_value c) | None => env !! key end.
Proof.
  intros Hen Hact. unfold restore_child_env, env_value, env_entry. rewrite Hen, Hact, bool_decide_true by done. simpl.
  rewrite restore_fold_lookup, list_to_map_to_list by apply NoDup_fst_map_to_list. done.
Qed.

Lemma credential_for_dummy state c :
  broker_ok state -> c ∈ credentials state -> credential_for state (env_var c) (dummy c) = Some c.
Proof.
  intros Hok Hc. unfold credential_for, env_key_matches. destruct (List.find _ _) as [c'|] eqn:Ef.
  - apply find_some in Ef as [Hin%list_elem_of_In Heq]. to_prop. f_equal.
    apply list_elem_of_lookup in Hin as [i Hi], Hc as [j Hj].
    assert (i = j) as ->; [|congruence]. apply (NoDup_lookup (dummy <$> credentials state) i j (dummy c)); [apply Hok| |];
      rewrite list_lookup_fmap, ?Hi, ?Hj; simpl; congruence.
  - apply list_elem_of_In in Hc. eapply find_none in Ef; [|exact Hc]. simpl in Ef. unfold str_eqb in Ef.
    by rewrite !bool_decide_true in Ef.
Qed.

Lemma credential_for_None state key v :
  (forall c, c ∈ credentials state -> env_var c = key -> dummy c <> v) -> credential_for state key v = None.
Proof.
  intros Hn. unfold credential_for, env_key_matches. destruct (List.find _ _) as [c|] eqn:Ef; [|done].
  apply find_some in Ef as [Hin%list_elem_of_In Heq]. to_prop. by destruct (Hn c).
Qed.

(** *** Nothing that can be brokered is left *)

Definition protected (p : CredentialProvider) (state : CredentialBrokerState) (o : option str) : Prop :=
  match o with
  | None => True
  | Some v => is_dummy_value state v = true \/ is_dummy_value state (trim v) = true \/
              trim v = [] \/ request_header_value p (trim v) = None
  end.

Lemma is_dummy_value_app state state' new v :
  credentials state' = credentials state ++ new -> is_dummy_value state v = true -> is_dummy_value state' v = true.
Proof. unfold is_dummy_value. intros ->. rewrite existsb_app. by intros ->. Qed.

Lemma protected_later V env state env' state' p var :
  virtualized V env state env' state' -> var ∉ V -> protected p state (env !! var) -> protected p state' (env' !! var).
Proof.
  intros (_ & (new & Hc & _) & _ & Hu & _) Hv. rewrite Hu by done. unfold protected. destruct (env !! var); [|done].
  intros [?|[?|?]]; [left|right; left|by right; right]; by eapply is_dummy_value_app.
Qed.

Lemma elem_of_is_dummy_value state c : c ∈ credentials state -> is_dummy_value state (dummy c) = true.
Proof.
  intros Hc. destruct (is_dummy_value state (dummy c)) eqn:E; [done|]. apply is_dummy_value_false in E. destruct E.
  apply list_elem_of_fmap. eauto.
Qed.

Lemma virtualize_env_var_protected fuel var p b env state pos env' state' pos' :
  virtualize_env_var fuel var p b env (state, pos) = Some (env', (state', pos')) -> protected p state' (env' !! var).
Proof.
  unfold virtualize_env_var, brokerable_credential_value, env_value, env_entry, set_env_value. simpl.
  rewrite <- option_fmap_compose. destruct (env !! var) as [v|] eqn:Ev; simpl.
  2: { intros [= <- <- <-]. by rewrite Ev. }
  destruct (negb (is_empty _) && _ && _) eqn:Eb.
  - intros Hr. assert (exists c, c ∈ credentials state' /\ env' !! var = Some (dummy c)) as (c & Hc & ->).
    { unfold register in Hr. destruct (List.find _ _) as [c|] eqn:Ef; simpl in Hr.
      - injection Hr as <- <- <-. apply find_some in Ef as [Hin%list_elem_of_In _]. exists c. by rewrite lookup_insert_eq.
      - destruct (fresh_dummy fuel p (trim v) state pos) as [[d pos1]|]; [|done]. injection Hr as <- <- <-.
        eexists. rewrite lookup_insert_eq. split; [apply elem_of_app; right; by apply list_elem_of_singleton|done]. }
    left. by apply elem_of_is_dummy_value.
  - intros [= <- <- <-]. rewrite Ev. simpl. rewrite !andb_false_iff, !negb_false_iff, is_empty_true in Eb.
    destruct Eb as [[?|?]|Hh]; [auto..|]. right; right; right. by destruct (request_header_value p (trim v)).
Qed.

Lemma virtualize_vars_protected fuel vars p b env state pos env' state' pos' var :
  NoDup vars -> virtualize_vars fuel vars p b env (state, pos) = Some (env', (state', pos')) -> var ∈ vars ->
  protected p state' (env' !! var).
Proof.
  revert env state pos. induction vars as [|x vars IH]; intros env state pos Hnd Hv Hin; [by apply not_elem_of_nil in Hin|].
  apply NoDup_cons in Hnd as [Hx Hnd]. simpl in Hv.
  destruct (virtualize_env_var fuel x p b env (state, pos)) as [[env1 [state1 pos1]]|] eqn:E1; [|done].
  apply elem_of_cons in Hin as [->|Hin]; [|by eapply IH].
  eapply protected_later; [by eapply virtualize_vars_spec|done|by eapply virtualize_env_var_protected].
Qed.

(** The bindings depend on variables that are not credentials. *)
Lemma context_not_credential p key : key ∈ context_env_vars p -> key ∉ credential_env_keys.
Proof. destruct p; intros ->%list_elem_of_singleton; apply (bool_decide_unpack _); vm_compute; exact I. Qed.

Lemma host_binding_stable p source env env' h :
  (p, source) ∈ all_sources -> env' !! GH_HOST_ENV_VAR = env !! GH_HOST_ENV_VAR ->
  env' !! OPENAI_BASE_URL_ENV_VAR = env !! OPENAI_BASE_URL_ENV_VAR ->
  host_binding source env' h = host_binding source env h.
Proof.
  intros Hs Hgh Hop.
  unfold all_sources, credential_providers in Hs. cbn in Hs.
  repeat (apply elem_of_cons in Hs as [[= -> ->]|Hs]); [| | |by apply not_elem_of_nil in Hs]; cbn [host_binding]; [done| |].
  - unfold github_enterprise_binding, github_host_hint, env_value, env_entry. by rewrite Hgh.
  - unfold openai_host_binding, env_value, env_entry. by rewrite Hop.
Qed.

Lemma virtualize_sources_protected fuel srcs env state pos env' state' pos' p source b var :
  srcs ⊆ all_sources -> NoDup (srcs ≫= fun s => env_vars (snd s)) ->
  virtualize_sources fuel srcs env (state, pos) = Some (env', (state', pos')) ->
  (p, source) ∈ srcs -> host_binding source env (openai_api_host state) = Some b -> var ∈ env_vars source ->
  protected p state' (env' !! var).
Proof.
  revert env state pos. induction srcs as [|[q src] srcs IH]; intros env state pos Hsub Hnd Hv Hin Hb Hvar;
    [by apply not_elem_of_nil in Hin|].
  rewrite bind_cons in Hnd. simpl in Hnd, Hv. apply NoDup_app in Hnd as (Hnd1 & Hdisj & Hnd2).
  assert (srcs ⊆ all_sources) as Hsub' by set_solver.
  assert (exists env1 state1 pos1, virtualized (env_vars src) env state env1 state1 /\
    virtualize_sources fuel srcs env1 (state1, pos1) = Some (env', (state', pos')) /\
    ((p, source) = (q, src) -> protected p state1 (env1 !! var))) as (env1 & state1 & pos1 & Hvirt & Hrest & Hhead).
  { destruct (host_binding src env (openai_api_host state)) as [b'|] eqn:Eb.
    - destruct (virtualize_vars fuel (env_vars src) q b' env (state, pos)) as [[env1 [state1 pos1]]|] eqn:E1; [|done].
      exists env1, state1, pos1. split_and!; [eapply virtualize_vars_spec; [exact Hnd1|exact E1]|done|].
      intros [= -> ->]. eapply virtualize_vars_protected; [exact Hnd1|exact E1|exact Hvar].
    - exists env, state, pos. split_and!; [apply virtualized_same|done|]. intros [= -> ->]. congruence. }
  apply elem_of_cons in Hin as [Heq|Hin].
  - eapply protected_later; [by eapply virtualize_sources_spec| |by apply Hhead].
    injection Heq as -> ->. by apply Hdisj.
  - eapply IH; [done|done|exact Hrest|exact Hin| |done]. destruct Hvirt as ([_ Ho] & _ & _ & Hu & _). rewrite Ho, <- Hb.
    assert (env_vars src ⊆ credential_env_keys) as Hvars.
    { intros key Hk. rewrite <- all_sources_vars. apply list_elem_of_bind. exists (q, src). split; [done|]. apply Hsub. by left. }
    eapply host_binding_stable; [by apply Hsub, list_elem_of_further|..]; apply Hu; intros Hk%Hvars; revert Hk.
    + apply (context_not_credential GitHub). by left.
    + apply (context_not_credential OpenAI). by left.
Qed.

End broker_invariant.

(** ** Properties *)

(** A concrete choice of the interfaces: headers of visible ASCII, a coding that changes
    nothing, no URL that parses, a generator that counts. *)
Module PlainDeps.

#[export] Instance urls : UrlOps := {| url_parse _ := None |}.

#[export] Instance headers : HeaderOps := {|
  HeaderValue := str;
  header_from_str s := if forallb (fun c => (32 <=? c) && (c <? 127))%N s then Some s else None;
  header_to_str := Some;
  HeaderMap := option str;
  get_authorization h := h;
  insert_authorization _ v := Some v;
  base64_decode := Some;
  base64_encode l := l;
|}.

#[export] Instance markers : MarkerOps := {|
  marker_to_string l := Some (l ≫= fun kv => fst kv ++ lit "=" ++ snd kv ++ lit ";");
  marker_from_str _ := None;
|}.

#[export] Instance rng : Rng := {| draw n := 7 * n |}.

End PlainDeps.
Import PlainDeps.

(** Brokering and restoring an environment.  Every variable of the child's environment
    is either left alone, and then restoring leaves it alone too, or it held a credential:
    then it holds a dummy that is not the credential, and restoring gives the credential
    back, less white space around it. *)
Theorem brokered_env_restores `{UrlOps} `{HeaderOps} `{MarkerOps} `{Rng} fuel env state pos env' state' pos' command key :
  broker_ok state -> broker_enabled state = true ->
  (forall c, c ∈ credentials state -> env !! env_var c <> Some (dummy c)) ->
  virtualize_child_env fuel env (state, pos) = Some (env', (state', pos')) ->
  ~ is_marker key ->
  broker_ok state' /\
  ((env' !! key = env !! key /\ (restore_child_env state' env' command).1 !! key = env !! key) \/
   (exists c, c ∈ credentials state' /\ env_var c = key /\ trim <$> env !! key = Some (real_value c) /\
      env' !! key = Some (dummy c) /\ dummy c <> real_value c /\
      (restore_child_env state' env' command).1 !! key = Some (real_value c))).
Proof.
  intros Hok Hen Hclean Hv Hkey. unfold virtualize_child_env in Hv. cbn [fst] in Hv. rewrite Hen in Hv. cbn [negb] in Hv.
  set (env0 := set_env_value env _ _) in Hv.
  destruct (virtualize_sources fuel all_sources env0 (state, pos)) as [[env1 [state1 pos1]]|] eqn:Es; [cbn in Hv|done].
  injection Hv as <- <- <-. apply virtualize_sources_spec in Es; [|rewrite all_sources_vars; apply credential_env_keys_NoDup].
  rewrite all_sources_vars in Es. destruct Es as ([Hen1 _] & (new & Hnew & Hnewenv) & Hk & Hu & Hok1).
  specialize (Hok1 Hok (reflexivity _)). split; [done|].
  assert (key <> BROKERED_CREDENTIALS_ENV_KEY /\ key <> CREDENTIAL_BROKER_ACTIVE_ENV_KEY) as [Hk1 Hk2]
    by (unfold is_marker in Hkey; tauto).
  rewrite restore_child_env_lookup; [|congruence|].
  2: { rewrite update_marker_lookup, Hu by (done || (apply marker_not_credential; by left)). apply lookup_insert_eq. }
  rewrite update_marker_lookup by done.
  assert (env0 !! key = env !! key) as Hkey0 by (by apply lookup_insert_ne).
  assert (forall c, c ∈ credentials state1 -> env_var c = key -> env1 !! key = Some (dummy c) ->
    trim <$> env !! key = Some (real_value c) ->
    exists c, c ∈ credentials state1 /\ env_var c = key /\ trim <$> env !! key = Some (real_value c) /\
      env1 !! key = Some (dummy c) /\ dummy c <> real_value c /\
      match env1 !! key ≫= credential_for state1 key with Some c => Some (real_value c) | None => env1 !! key end =
        Some (real_value c)) as Hbrokered.
  { intros c Hc <- Hd Ht. exists c. rewrite Hd. simpl. rewrite credential_for_dummy by done. split_and!; try done. by apply Hok1. }
  destruct (Hk key) as [Heq|(_ & c & Hc & Hvar & Hd & Ht)]; [|right; rewrite Hkey0 in Ht; by eauto].
  destruct (env1 !! key ≫= credential_for state1 key) as [c|] eqn:Ec; [|left; by rewrite Heq, Hkey0].
  apply bind_Some in Ec as (v & Ev & Ec). unfold credential_for, env_key_matches in Ec.
  apply find_some in Ec as [Hin%list_elem_of_In Hm]. to_prop. subst key v.
  assert (c ∈ new) as Hc.
  { rewrite Hnew in Hin. apply elem_of_app in Hin as [Hold|Hin]; [|done]. destruct (Hclean c Hold). congruence. }
  destruct (Hnewenv c Hc) as (_ & Hd & Ht). rewrite Hkey0 in Ht. right. apply (Hbrokered c); done.
Qed.

Example brokered_env_restores_sample :
  match virtualize_child_env 1 {[lit "GH_TOKEN" := lit " ghp_0123456789 "]} (broker_new true, 0) with
  | Some (env', (state', _)) => (restore_child_env state' env' []).1 !! lit "GH_TOKEN"
  | None => None
  end = Some (lit "ghp_0123456789").
Proof. vm_compute. reflexivity. Qed.

(** After brokering, no variable of a provider whose credentials are bound to a host
    holds a credential: what it holds is a dummy, or blank, or no value for a header. *)
Theorem no_credential_left `{UrlOps} `{HeaderOps} `{MarkerOps} `{Rng} fuel env state pos env' state' pos' p source b var :
  broker_enabled state = true ->
  virtualize_child_env fuel env (state, pos) = Some (env', (state', pos')) ->
  (p, source) ∈ all_sources -> host_binding source env (openai_api_host state) = Some b -> var ∈ env_vars source ->
  protected p state' (env' !! var).
Proof.
  intros Hen Hv Hs Hb Hvar. unfold virtualize_child_env in Hv. cbn [fst] in Hv. rewrite Hen in Hv. cbn [negb] in Hv.
  set (env0 := set_env_value env _ _) in Hv.
  destruct (virtualize_sources fuel all_sources env0 (state, pos)) as [[env1 [state1 pos1]]|] eqn:Es; [cbn in Hv|done].
  injection Hv as <- <- <-.
  assert (var ∈ credential_env_keys) as Hkey by (rewrite <- all_sources_vars; apply list_elem_of_bind; by exists (p, source)).
  rewrite update_marker_lookup.
  2: { intros ->. by apply (marker_not_credential BROKERED_CREDENTIALS_ENV_KEY); [right|]. }
  eapply (virtualize_sources_protected fuel all_sources); [done| |exact Es|exact Hs| |exact Hvar].
  - rewrite all_sources_vars. apply credential_env_keys_NoDup.
  - rewrite <- Hb. eapply host_binding_stable; [exact Hs|by apply lookup_insert_ne..].
Qed.

Example no_credential_left_sample :
  match virtualize_child_env 1 {[lit "GH_TOKEN" := lit "ghp_0123456789"; lit "OPENAI_API_KEY" := lit "sk-0123456789"]} (broker_new true, 0) with
  | Some (env', (state', _)) =>
      existsb (fun c => str_eqb (env_var c) (lit "OPENAI_API_KEY") && bool_decide (env' !! lit "OPENAI_API_KEY" = Some (dummy c))) (credentials state')
  | None => false
  end = true.
Proof. vm_compute. reflexivity. Qed.

(** *** Requests that carry a dummy *)

(** The hosts that a credential is bound to. *)
Definition bound_to (b : CredentialHostBinding) (host : str) : Prop :=
  match b with
  | ExactHost expected => host = expected
  | ExactHosts expected => host ∈ expected
  | HostPattern exact suffixes => host ∈ exact \/ exists name suffix, suffix ∈ suffixes /\ host = name ++ suffix
  end.

Lemma binding_matches_iff b host : binding_matches_host b host = true <-> bound_to b host.
Proof.
  assert (forall hs, existsb (fun expected => str_eqb host expected) hs = true <-> host ∈ hs) as Hmem.
  { intros hs. rewrite existsb_exists. split.
    - intros (h & Hin%list_elem_of_In & Heq%bool_decide_eq_true). by subst.
    - intros Hin%list_elem_of_In. exists host. split; [done|]. by apply bool_decide_eq_true. }
  destruct b as [h|hs|exact suffixes]; simpl; [apply bool_decide_eq_true|apply Hmem|].
  assert (existsb (fun suffix => ends_with suffix host) suffixes = true <-> exists name suffix, suffix ∈ suffixes /\ host = name ++ suffix) as Hs.
  { rewrite existsb_exists. split.
    - intros (x & Hin%list_elem_of_In & [pre ->]%ends_with_true). eauto.
    - intros (name & x & Hin%list_elem_of_In & ->). exists x. split; [done|]. apply ends_with_true. eauto. }
  rewrite orb_true_iff, Hs. unfold mem_str. by rewrite Hmem.
Qed.

Section requests.
Context `{HeaderOps}.

(** The text [text] of an [Authorization] header carries the dummy [d], and [out] is what it
    becomes with the real value: for OpenAI the dummy is anywhere in the text and the header is
    made anew; for GitHub it is the token after the scheme, or the user, or else the password
    of basic authentication, and nothing else changes. *)
Inductive carries (d real : str) : CredentialProvider -> str -> str -> Prop :=
| carries_openai before after : carries d real OpenAI (before ++ d ++ after) (lit "Bearer " ++ real)
| carries_token scheme value :
    space_char ∉ scheme -> to_ascii_lowercase scheme = lit "bearer" \/ to_ascii_lowercase scheme = lit "token" -> trim value = d ->
    carries d real GitHub (scheme ++ space_char :: value) (scheme ++ lit " " ++ real)
| carries_user scheme value password :
    space_char ∉ scheme -> to_ascii_lowercase scheme = lit "basic" -> colon_byte ∉ utf8_encode d ->
    base64_decode (trim value) = Some (utf8_encode d ++ colon_byte :: password) ->
    carries d real GitHub (scheme ++ space_char :: value) (scheme ++ lit " " ++ base64_encode (utf8_encode real ++ colon_byte :: password))
| carries_password scheme value user :
    space_char ∉ scheme -> to_ascii_lowercase scheme = lit "basic" -> colon_byte ∉ user -> user <> utf8_encode d ->
    base64_decode (trim value) = Some (user ++ colon_byte :: utf8_encode d) ->
    carries d real GitHub (scheme ++ space_char :: value) (scheme ++ lit " " ++ base64_encode (user ++ colon_byte :: utf8_encode real)).

Lemma split_once_app sep a b : sep ∉ a -> split_once sep (a ++ sep :: b) = Some (a, b).
Proof.
  induction a as [|c a IH]; intros Ha; simpl; [unfold char_eqb; by rewrite N.eqb_refl|]. apply not_elem_of_cons in Ha as [Hc Ha].
  destruct (char_eqb c sep) eqn:E; to_prop; [congruence|]. by rewrite IH.
Qed.

Lemma contains_str_iff d s : contains_str d s = true <-> exists a b, s = a ++ d ++ b.
Proof.
  unfold contains_str. split.
  - destruct (split_once_str d s) as [[a b]|] eqn:E; [|done]. intros _. apply split_once_str_Some in E. eauto.
  - intros (a & b & ->). induction a as [|c a IH]; simpl.
    + destruct (d ++ b) eqn:E; simpl; rewrite <- E, strip_prefix_app; done.
    + destruct (strip_prefix _ _); [done|]. by destruct (split_once_str d (a ++ d ++ b)) as [[]|].
Qed.

Lemma github_header_iff headers d real value :
  github_translate_request_header headers d real = Some value <->
  exists header text out, get_authorization headers = Some header /\ header_to_str header = Some text /\
    carries d real GitHub text out /\ header_from_str out = Some value.
Proof.
  unfold github_translate_request_header, eq_ignore_ascii_case. split.
  - intros (text & (header & Hg & Ht)%bind_Some & Hrest)%bind_Some. apply bind_Some in Hrest as ([scheme v] & Hs & Hrest).
    apply split_once_Some in Hs as [-> Hsp]. exists header, (scheme ++ space_char :: v). unfold str_eqb in Hrest. case_bool_decide as Eb.
    + apply bind_Some in Hrest as (decoded & Hd & Hrest). apply bind_Some in Hrest as ([user password] & Hc & Hrest).
      apply split_once_Some in Hc as [-> Hcol]. apply bind_Some in Hrest as (translated & Htr & Hout). repeat case_bool_decide; simplify_eq.
      * eexists. split_and!; [done..| |done]. by econstructor.
      * eexists. split_and!; [done..| |done]. by econstructor.
    + destruct ((_ || _) && _) eqn:Et; [|done]. apply andb_true_iff in Et as [Esch Ev]. apply bool_decide_eq_true in Ev.
      rewrite orb_true_iff, !bool_decide_eq_true in Esch. eexists. split_and!; [done..| |exact Hrest]. by constructor.
  - intros (header & text & out & Hg & Ht & Hc & Hout). rewrite Hg. simpl. rewrite Ht. simpl. unfold str_eqb.
    inversion Hc as [|scheme v Hsp Hsch Hv|scheme v password Hsp Hsch Hcol Hd|scheme v user Hsp Hsch Hcol Hne Hd]; subst.
    + rewrite split_once_app by done. simpl. destruct Hsch as [-> | ->]; simpl; by rewrite bool_decide_true.
    + rewrite split_once_app by done. simpl. rewrite Hsch. simpl. rewrite Hd. simpl. rewrite split_once_app by done. simpl. by rewrite bool_decide_true.
    + rewrite split_once_app by done. simpl. rewrite Hsch. simpl. rewrite Hd. simpl. rewrite split_once_app by done. simpl.
      by rewrite bool_decide_false, bool_decide_true.
Qed.

Lemma translate_iff p headers d real value :
  translate_request_header p headers d real = Some value <->
  exists header text out, get_authorization headers = Some header /\ header_to_str header = Some text /\
    carries d real p text out /\ header_from_str out = Some value.
Proof.
  destruct p; [apply github_header_iff|]. simpl. unfold openai_translate_request_header, request_header_value. split.
  - intros (text & (header & Hg & Ht)%bind_Some & Hrest)%bind_Some. destruct (contains_str d text) eqn:Ec; [|done].
    apply contains_str_iff in Ec as (a & b & ->). exists header, (a ++ d ++ b), (lit "Bearer " ++ real). split_and!; [done..| |done]. constructor.
  - intros (header & text & out & Hg & Ht & Hc & Hout). rewrite Hg. simpl. rewrite Ht. simpl. inversion Hc; subst.
    by rewrite (proj2 (contains_str_iff d _)) by eauto.
Qed.

(** A credential answers to a request: the request is for a host it is bound to and carries its
    dummy, and [value] is the header with the real value in its place. *)
Definition answers_to (state : CredentialBrokerState) (host : str) (headers : HeaderMap) (c : CredentialRecord) (value : HeaderValue) : Prop :=
  broker_enabled state = true /\ c ∈ credentials state /\ bound_to (binding c) (normalize_host host) /\
  exists header text out, get_authorization headers = Some header /\ header_to_str header = Some text /\
    carries (dummy c) (real_value c) (provider c) text out /\ header_from_str out = Some value.

Lemma answers_iff state host headers c value :
  broker_enabled state = true ->
  (c, value) ∈ omap (fun c => pair c <$> translate_request_header (provider c) headers (dummy c) (real_value c))
                 (filter (fun c => matches_host c (normalize_host host) = true) (credentials state)) <->
  answers_to state host headers c value.
Proof.
  intros Hen. rewrite list_elem_of_omap. unfold answers_to, matches_host. split.
  - intros (c0 & [Hm%binding_matches_iff Hin]%list_elem_of_filter & (v & Ht%translate_iff & [= <- <-])%fmap_Some). by split_and!.
  - intros (_ & Hin & Hb%binding_matches_iff & Ht%translate_iff). exists c. rewrite list_elem_of_filter, Ht. by split.
Qed.

Lemma omap_pair_NoDup {A B} (f : A -> option B) l : NoDup l -> NoDup (omap (fun x => pair x <$> f x) l).*1.
Proof.
  induction 1 as [|x l Hx _ IH]; [constructor|]. csimpl. destruct (f x); csimpl; [|done]. constructor; [|done].
  intros ([y v] & -> & Hy)%list_elem_of_fmap. apply list_elem_of_omap in Hy as (z & Hz & (v' & _ & Heq)%fmap_Some). by simplify_eq/=.
Qed.

(** C39: a credential leaves the proxy only in a request for a host that it is bound to (the
    normalised host is one of those of the binding, or ends with one of its suffixes), and only
    in the place of its own dummy: where a request is changed, its [Authorization] header
    carries the dummy of a credential of the enabled broker, which goes out with the real value
    instead, and no other credential of that host answers to the header.  Otherwise the headers
    go out as they came; and when exactly one of the credentials answers, it is put in. *)
Theorem credentials_reach_bound_hosts_only state host headers :
  let out := inject_request_headers state host headers in
  (out = headers \/
   exists c value, answers_to state host headers c value /\ out = insert_authorization headers value /\
     forall c' value', answers_to state host headers c' value' -> c' = c) /\
  (NoDup (credentials state) -> forall c value,
     answers_to state host headers c value -> (forall c' value', answers_to state host headers c' value' -> c' = c) ->
     out = insert_authorization headers value).
Proof.
  intros out. unfold out, inject_request_headers, select_credential. destruct (broker_enabled state) eqn:Een.
  2: { simpl. split; [by left|]. intros _ c value [Hen _]. congruence. }
  simpl. pose proof (fun c value => answers_iff state host headers c value Een) as Hans. set (l := omap _ _) in *. split.
  - destruct l as [|[c value] [|]] eqn:El; [by left| |by left]. right. exists c, value. split_and!.
    + apply Hans. by left.
    + unfold insert_request_header. by destruct (provider c).
    + intros c' value' [= -> ->]%Hans%list_elem_of_singleton. done.
  - intros Hnd c value Hc Huniq. assert (l = [(c, value)]) as ->; [|unfold insert_request_header; by destruct (provider c)].
    assert (NoDup l.*1) as Hndl by (apply omap_pair_NoDup, NoDup_filter, Hnd).
    destruct l as [|[c0 v0] l'] eqn:El; [by apply Hans, not_elem_of_nil in Hc|].
    assert (l' = []) as ->.
    { destruct l' as [|[c1 v1] l']; [done|]. apply NoDup_cons in Hndl as [Hn _]. destruct Hn. simpl.
      assert (c0 = c /\ c1 = c) as [-> ->]; [|by left]. split; eapply Huniq; apply Hans; [by left|by right; left]. }
    apply Hans, list_elem_of_singleton in Hc. by rewrite Hc.
Qed.

End requests.

(** The same request for a host that the token is bound to, and for another one. *)
Example token_injected_for_bound_host :
  let state := mkBrokerState true None
    [mkCredentialRecord (lit "GH_TOKEN") GitHub (HostPattern GITHUB_CLOUD_HOSTS GITHUB_CLOUD_HOST_SUFFIXES) (lit "ghp_real") (lit "ghp_dummy")] in
  inject_request_headers state (lit "API.github.com.") (Some (lit "token ghp_dummy")) = Some (lit "token ghp_real") /\
  inject_request_headers state (lit "example.com") (Some (lit "token ghp_dummy")) = Some (lit "token ghp_dummy").
Proof. split; vm_compute; reflexivity. Qed.

(** C40: an ASCII value that is a prefix of its provider and then sixteen or more characters
    that are neither letters nor digits, at least as long as the provider's dummies, has no
    dummy: the loop that draws one never ends, whatever the generator gives.  Values with other
    characters, of which the dummy keeps the bytes and not the characters, are not meant. *)
Theorem masked_credential_has_no_dummy `{Rng} p real mask state pos :
  real = dummy_prefix p real ++ mask -> Forall (fun c => (c < 128)%N) real ->
  Forall (fun c => is_ascii_alphanumeric c = false) mask -> 16 <= length mask -> minimum_len p <= length real ->
  forall fuel, fresh_dummy fuel p real state pos = None.
Proof.
  intros Hreal Hascii Hmask H16 Hmin fuel. induction fuel as [|fuel IH]; simpl; [done|].
  rewrite (masked_dummy p real mask pos) by done. unfold str_eqb. by rewrite bool_decide_true.
Qed.

Lemma masked_credential_has_no_dummy_witness :
  fresh_dummy 1000 GitHub (lit "ghp_" ++ replicate 36 42%N) (broker_new true) 0 = None.
Proof.
  apply (masked_credential_has_no_dummy GitHub (lit "ghp_" ++ replicate 36 42%N) (replicate 36 42%N)).
  - vm_compute. reflexivity.
  - apply (bool_decide_unpack _). vm_compute. exact I.
  - apply (bool_decide_unpack _). vm_compute. exact I.
  - vm_compute. lia.
  - vm_compute. lia.
Defined.
