(* ===== verification/MitmHook.v ===== *)
(** * Hooks on intercepted requests

    Models [network-proxy/src/mitm_hook.rs] and [authorization_path.rs]: the hooks of a
    configuration, their validation and compilation, the evaluation of a request against
    them, and the test that a path means one thing to everyone who reads it.  Globs, header
    names, form decoding, the environment and the file system are interfaces ([HookDeps]).
    The component implements the interface [MitmHookOps] that the configuration and the
    state of the proxy are written against. *)

From stdpp Require Import base list strings gmap.
From Stdlib Require Import NArith.
From S2P Require Import Prelude NetAddr NetPolicy NetConfig CredBroker StreamText Utf8Stream.

(** ** Paths *)

Definition backslash_byte : N := 92.
Definition percent_byte : N := 37.
Definition slash_byte : N := 47.
Definition dot_byte : N := 46.

Definition decode_hex_digit (b : N) : option N :=
  if ((48 <=? b) && (b <=? 57))%N then Some (b - 48)%N
  else if ((97 <=? b) && (b <=? 102))%N then Some (b - 97 + 10)%N
  else if ((65 <=? b) && (b <=? 70))%N then Some (b - 65 + 10)%N
  else None.

(** The loop over the bytes of a segment: the dots it decodes to, and whether there is
    anything else. *)
Fixpoint scan_segment (bytes : list N) (decoded_dots : nat) (has_non_dot : bool) : option (nat * bool) :=
  match bytes with
  | [] => Some (decoded_dots, has_non_dot)
  | b :: rest =>
      if char_eqb b dot_byte then scan_segment rest (S decoded_dots) has_non_dot
      else if char_eqb b backslash_byte then None
      else if char_eqb b percent_byte then
        match rest with
        | h :: l :: rest' =>
            match decode_hex_digit h, decode_hex_digit l with
            | Some high, Some low =>
                let decoded := N.lor (N.shiftl high 4) low in
                if char_eqb decoded percent_byte || char_eqb decoded slash_byte || char_eqb decoded backslash_byte then None
                else if char_eqb decoded dot_byte then scan_segment rest' (S decoded_dots) has_non_dot
                else scan_segment rest' decoded_dots true
            | _, _ => None
            end
        | _ => None
        end
      else scan_segment rest decoded_dots true
  end.

Definition is_safe_segment_for_authorization (segment : str) : bool :=
  match scan_segment (utf8_encode segment) 0 false with
  | Some (decoded_dots, has_non_dot) => has_non_dot || negb (Nat.eqb decoded_dots 1 || Nat.eqb decoded_dots 2)
  | None => false
  end.

Definition is_safe_for_authorization (path : str) : bool :=
  forallb is_safe_segment_for_authorization (split slash_char path).

(** ** Configuration *)

Class HookDeps := {
  JsonValue : Type;
  #[global] JsonValue_eq_dec :: EqDecision JsonValue;
  GlobMatcher : Type;
  (** [GlobBuilder], with or without [literal_separator]. *)
  glob_compile : bool -> str -> option GlobMatcher;
  glob_matches : GlobMatcher -> str -> bool;
  HeaderName : Type;
  header_name_from_bytes : str -> option HeaderName;
  form_urlencoded_parse : str -> list (str * str);
  lookup_env_var : str -> option str;
  read_file_to_string : str -> option str;
}.

Record InjectedHeaderConfig := mkInjectedHeaderConfig {
  ih_name : str; secret_env_var : option str; secret_file : option str; ih_prefix : option str }.
#[export] Instance InjectedHeaderConfig_eq_dec : EqDecision InjectedHeaderConfig.
Proof. solve_decision. Defined.

Section hooks.
Context `{HookDeps} `{HeaderOps} `{SocketPathOps}.

(** [MitmHookConfig] with its matcher and its actions; the maps are [BTreeMap]s, in the
    order of their keys. *)
Record HookConfig := mkHookConfig {
  hook_host : str;
  methods : list str;
  path_prefixes : list str;
  query : list (str * list str);
  hook_headers : list (str * list str);
  body : option JsonValue;
  strip_request_headers : list str;
  inject_request_headers : list InjectedHeaderConfig;
}.
#[export] Instance HookConfig_eq_dec : EqDecision HookConfig.
Proof. solve_decision. Defined.

Inductive PathMatcher := PathPrefix (prefix : str) | PathGlob (pattern : str) (glob : GlobMatcher).
Inductive ValueMatcher := ValueExact (value : str) | ValueGlob (pattern : str) (glob : GlobMatcher).
Inductive SecretSource := EnvVar (name : str) | SecretFile (path : str).
Record ResolvedInjectedHeader := mkResolvedInjectedHeader { rh_name : HeaderName; rh_value : HeaderValue; rh_source : SecretSource }.
Record MitmHookActions := mkMitmHookActions {
  act_strip : list HeaderName; act_inject : list ResolvedInjectedHeader }.
Record MitmHookMatcher := mkMitmHookMatcher {
  m_methods : list str; m_path_prefixes : list PathMatcher; m_query : list (str * list ValueMatcher);
  m_headers : list (HeaderName * list ValueMatcher) }.
Record MitmHook := mkMitmHook { mh_host : str; matcher : MitmHookMatcher; actions : MitmHookActions }.

Inductive MatcherPattern := PatternLiteral (s : str) | PatternGlob (s : str).

Definition PATTERN_PREFIX : str := lit "pattern:".
Definition LITERAL_PREFIX : str := lit "literal:".

Definition parse_matcher_pattern (pattern : str) : option MatcherPattern :=
  match strip_prefix LITERAL_PREFIX pattern with
  | Some literal => Some (PatternLiteral literal)
  | None =>
      match strip_prefix PATTERN_PREFIX pattern with
      | None => Some (PatternLiteral pattern)
      | Some glob_pattern => if is_empty glob_pattern then None else Some (PatternGlob glob_pattern)
      end
  end.

Definition compile_path_matcher (prefix : str) : option PathMatcher :=
  parse_matcher_pattern prefix ≫= fun p =>
    match p with
    | PatternLiteral prefix => if is_empty prefix then None else Some (PathPrefix prefix)
    | PatternGlob glob => PathGlob glob <$> glob_compile true glob
    end.
Definition compile_path_matchers (path_prefixes : list str) : option (list PathMatcher) := mapM compile_path_matcher path_prefixes.

Definition compile_value_matcher (value : str) : option ValueMatcher :=
  parse_matcher_pattern value ≫= fun p =>
    match p with
    | PatternLiteral value => Some (ValueExact value)
    | PatternGlob glob => ValueGlob glob <$> glob_compile false glob
    end.
Definition compile_value_matchers (values : list str) : option (list ValueMatcher) := mapM compile_value_matcher values.

Definition normalize_hook_host (host : str) : option str :=
  let normalized := normalize_host host in
  if is_empty normalized then None else if contains_char 42 normalized then None else Some normalized.

Definition to_ascii_uppercase (s : str) : str :=
  (fun c => if ((97 <=? c) && (c <=? 122))%N then (c - 32)%N else c) <$> s.

Definition normalize_method (method : str) : option str :=
  let normalized := to_ascii_uppercase (trim method) in
  if is_empty normalized then None else Some normalized.
Definition normalize_methods (methods : list str) : option (list str) := mapM normalize_method methods.

Definition normalize_query_name (name : str) : option str := if is_empty name then None else Some name.

Definition validate_query_constraints (query : list (str * list str)) : bool :=
  forallb (fun '(name, values) =>
    match normalize_query_name name with
    | Some normalized => negb (is_empty normalized) && negb (is_empty values) && is_some (compile_value_matchers values)
    | None => false
    end) query.

Definition validate_header_constraints (headers : list (str * list str)) : bool :=
  forallb (fun '(name, values) => is_some (header_name_from_bytes name) && is_some (compile_value_matchers values)) headers.

Definition validate_strip_request_headers (names : list str) : bool := forallb (fun n => is_some (header_name_from_bytes n)) names.

Definition parse_secret_file (path : str) : option str :=
  if is_empty (trim path) then None else if negb (path_is_absolute path) then None else from_absolute_path path.

Definition validate_injected_header (h : InjectedHeaderConfig) : bool :=
  is_some (header_name_from_bytes (ih_name h)) &&
  match secret_env_var h, secret_file h with
  | Some env_var, None => negb (is_empty (trim env_var))
  | None, Some file => is_some (parse_secret_file file)
  | _, _ => false
  end.
Definition validate_injected_headers (headers : list InjectedHeaderConfig) : bool := forallb validate_injected_header headers.

(** ** Validation *)

Inductive HookField := FHost | FMethods | FNoMethods | FPaths | FNoPaths | FBody | FQuery | FHeaders | FStrip | FInject.
Inductive HookError := RequiresMitm | InvalidHook (index : nat) (field : HookField) | SecretError.

(** The body of the loop, for one hook. *)
Definition validate_hook (hook : HookConfig) : option HookField :=
  match normalize_hook_host (hook_host hook) with
  | None => Some FHost
  | Some host =>
      match normalize_methods (methods hook) with
      | None => Some FMethods
      | Some [] => Some FNoMethods
      | Some _ =>
          match compile_path_matchers (path_prefixes hook) with
          | None => Some FPaths
          | Some [] => Some FNoPaths
          | Some _ =>
              if is_some (body hook) then Some FBody
              else if negb (validate_query_constraints (query hook)) then Some FQuery
              else if negb (validate_header_constraints (hook_headers hook)) then Some FHeaders
              else if negb (validate_strip_request_headers (strip_request_headers hook)) then Some FStrip
              else if negb (validate_injected_headers (inject_request_headers hook)) then Some FInject
              else if is_empty host then Some FHost
              else None
          end
      end
  end.

Fixpoint validate_hooks_from (index : nat) (hooks : list HookConfig) : result unit HookError :=
  match hooks with
  | [] => Ok tt
  | hook :: rest =>
      match validate_hook hook with
      | Some field => Err (InvalidHook index field)
      | None => validate_hooks_from (S index) rest
      end
  end.

Definition validate_mitm_hook_config (mitm : bool) (hooks : list HookConfig) : result unit HookError :=
  if is_empty hooks then Ok tt
  else if negb mitm then Err RequiresMitm
  else validate_hooks_from 0 hooks.

(** ** Compilation *)

Definition compile_injected_header (h : InjectedHeaderConfig) : option ResolvedInjectedHeader :=
  name ← header_name_from_bytes (ih_name h);
  '(secret, source) ←
    match secret_env_var h, secret_file h with
    | Some env_var, None => (fun v => (v, EnvVar env_var)) <$> lookup_env_var env_var
    | None, Some file => path ← parse_secret_file file; (fun v => (trim v, SecretFile path)) <$> read_file_to_string path
    | _, _ => None
    end;
  value ← header_from_str (default [] (ih_prefix h) ++ secret);
  Some (mkResolvedInjectedHeader name value source).

Definition compile_hook (hook : HookConfig) : option MitmHook :=
  host ← normalize_hook_host (hook_host hook);
  ms ← normalize_methods (methods hook);
  paths ← compile_path_matchers (path_prefixes hook);
  q ← mapM (fun '(name, values) => n ← normalize_query_name name; vs ← compile_value_matchers values; Some (n, vs)) (query hook);
  hs ← mapM (fun '(name, values) => n ← header_name_from_bytes name; vs ← compile_value_matchers values; Some (n, vs)) (hook_headers hook);
  strip ← mapM header_name_from_bytes (strip_request_headers hook);
  inject ← mapM compile_injected_header (inject_request_headers hook);
  Some (mkMitmHook host (mkMitmHookMatcher ms paths q hs) (mkMitmHookActions strip inject)).

Fixpoint compile_hooks_into (acc : gmap str (list MitmHook)) (hooks : list HookConfig) : option (gmap str (list MitmHook)) :=
  match hooks with
  | [] => Some acc
  | hook :: rest =>
      h ← compile_hook hook;
      compile_hooks_into (<[mh_host h := default [] (acc !! mh_host h) ++ [h]]> acc) rest
  end.

Definition compile_hooks (mitm : bool) (hooks : list HookConfig) : option (gmap str (list MitmHook)) :=
  match validate_mitm_hook_config mitm hooks with
  | Ok _ => compile_hooks_into ∅ hooks
  | _ => None
  end.

(** ** Evaluation *)

(** A request, with the values of each header. *)
Record Request := mkRequest {
  hr_method : str; hr_path : str; hr_query : option str; hr_headers : HeaderName -> list HeaderValue }.

Inductive HookEvaluation := NoHooksForHost | Matched (a : MitmHookActions) | HookedHostNoMatch.

Definition path_matcher_matches (m : PathMatcher) (candidate : str) : bool :=
  match m with PathPrefix prefix => starts_with prefix candidate | PathGlob _ glob => glob_matches glob candidate end.
Definition path_matches (ms : list PathMatcher) (path : str) : bool := existsb (fun m => path_matcher_matches m path) ms.

Definition value_matcher_matches (m : ValueMatcher) (candidate : str) : bool :=
  match m with ValueExact value => str_eqb value candidate | ValueGlob _ glob => glob_matches glob candidate end.

Definition query_matches (constraints : list (str * list ValueMatcher)) (req : Request) : bool :=
  if is_empty constraints then true
  else
    let actual := form_urlencoded_parse (default [] (hr_query req)) in
    forallb (fun '(name, allowed) =>
      existsb (fun '(n, candidate) => str_eqb n name && existsb (fun m => value_matcher_matches m candidate) allowed) actual) constraints.

Definition headers_match (constraints : list (HeaderName * list ValueMatcher)) (req : Request) : bool :=
  forallb (fun '(name, allowed) =>
    let actual := hr_headers req name in
    if is_empty actual then false
    else if is_empty allowed then true
    else existsb (fun value =>
           match header_to_str value with
           | Some candidate => existsb (fun m => value_matcher_matches m candidate) allowed
           | None => false
           end) actual) constraints.

Definition hook_matches (hook : MitmHook) (req : Request) : bool :=
  let method := to_ascii_uppercase (hr_method req) in
  if negb (existsb (fun allowed => str_eqb allowed method) (m_methods (matcher hook))) then false
  else
    let path := hr_path req in
    if negb (is_safe_for_authorization path) || negb (path_matches (m_path_prefixes (matcher hook)) path) then false
    else if negb (query_matches (m_query (matcher hook)) req) then false
    else headers_match (m_headers (matcher hook)) req.

Fixpoint first_match (hooks : list MitmHook) (req : Request) : HookEvaluation :=
  match hooks with
  | [] => HookedHostNoMatch
  | hook :: rest => if hook_matches hook req then Matched (actions hook) else first_match rest req
  end.

Definition evaluate_mitm_hooks (hooks_by_host : gmap str (list MitmHook)) (host : str) (req : Request) : HookEvaluation :=
  match hooks_by_host !! normalize_host host with
  | None => NoHooksForHost
  | Some hooks => first_match hooks req
  end.

(** The component as the implementation of what the configuration relies on. *)
Definition mitm_hook_ops (upstream_ok : bool -> option unit) : MitmHookOps := {|
  MitmHookConfig := HookConfig;
  MitmHooksByHost := gmap str (list MitmHook);
  MitmState := unit;
  validate_mitm_hooks mitm hooks := match validate_mitm_hook_config mitm hooks with Ok _ => true | _ => false end;
  NetConfig.compile_mitm_hooks mitm hooks := compile_hooks mitm hooks;
  mitm_state_new := upstream_ok;
  hooks_contain_key hooks host := is_some (hooks !! host);
|}.

End hooks.

(** ** What a safe path is *)

(** The bytes a segment stands for, each with whether it was written as an escape. *)
Fixpoint decode_tokens (bytes : list N) : option (list (bool * N)) :=
  match bytes with
  | [] => Some []
  | b :: rest =>
      if char_eqb b percent_byte then
        match rest with
        | h :: l :: rest' =>
            match decode_hex_digit h, decode_hex_digit l with
            | Some high, Some low => cons (true, 16 * high + low)%N <$> decode_tokens rest'
            | _, _ => None
            end
        | _ => None
        end
      else cons (false, b) <$> decode_tokens rest
  end.

(** Nobody decodes the byte again, takes it for a separator, or takes a backslash for one. *)
Definition token_ok (t : bool * N) : bool :=
  negb (char_eqb (snd t) backslash_byte) &&
  negb (fst t && (char_eqb (snd t) percent_byte || char_eqb (snd t) slash_byte)).

Definition is_dot_token (t : bool * N) : bool := char_eqb (snd t) dot_byte.

Lemma hex_digit_bound b n : decode_hex_digit b = Some n -> (n < 16)%N.
Proof. unfold decode_hex_digit. repeat case_match; intros [= <-]; to_prop; repeat rewrite N.leb_le in *; lia. Qed.

Lemma hex_pair high low : (high < 16)%N -> (low < 16)%N -> N.lor (N.shiftl high 4) low = (16 * high + low)%N.
Proof.
  intros Hh Hl. set (digits := N.of_nat <$> seq 0 16).
  assert (Forall (fun h => Forall (fun l => N.lor (N.shiftl h 4) l = (16 * h + l)%N) digits) digits) as Hall
    by (apply (bool_decide_unpack _); vm_compute; exact I).
  assert (forall n, (n < 16)%N -> n ∈ digits) as Hin.
  { intros n Hn. apply list_elem_of_fmap. exists (N.to_nat n). split; [lia|]. apply elem_of_seq. lia. }
  rewrite Forall_forall in Hall. specialize (Hall high (Hin high Hh)). rewrite Forall_forall in Hall. by apply Hall, Hin.
Qed.

(** Two bytes at a time after a percent sign. *)
Lemma bytes_ind2 (P : list N -> Prop) :
  P [] -> (forall b rest, P rest -> (forall h l rest', rest = h :: l :: rest' -> P rest') -> P (b :: rest)) -> forall bytes, P bytes.
Proof.
  intros Hnil Hcons bytes. remember (length bytes) as n eqn:Hn. revert bytes Hn.
  induction n as [n IH] using lt_wf_ind. intros [|b rest] Hn; [done|]. apply Hcons.
  - eapply IH; [|done]. rewrite Hn. simpl. lia.
  - intros h l rest' ->. eapply IH; [|done]. rewrite Hn. simpl. lia.
Qed.

(** One more token, and what is found of the rest. *)
Lemma dots_step dots other t toks :
  (if token_ok t then
     if forallb token_ok toks then
       if is_dot_token t
       then Some (S dots + length (filter (fun t => is_dot_token t = true) toks), other || existsb (fun t => negb (is_dot_token t)) toks)
       else Some (dots + length (filter (fun t => is_dot_token t = true) toks), true || existsb (fun t => negb (is_dot_token t)) toks)
     else None
   else None) =
  (if token_ok t && forallb token_ok toks
   then Some (dots + length (filter (fun t => is_dot_token t = true) (t :: toks)),
          other || (negb (is_dot_token t) || existsb (fun t => negb (is_dot_token t)) toks))
   else None).
Proof.
  destruct (token_ok t); simpl; [|done]. destruct (forallb token_ok toks); [|done]. destruct (is_dot_token t) eqn:E.
  - rewrite filter_cons_True by done. simpl. by rewrite Nat.add_succ_r.
  - rewrite filter_cons_False by congruence. simpl. by rewrite orb_true_r.
Qed.

Lemma scan_segment_spec bytes dots other :
  scan_segment bytes dots other =
  match decode_tokens bytes with
  | Some toks =>
      if forallb token_ok toks
      then Some (dots + length (filter (fun t => is_dot_token t = true) toks), other || existsb (fun t => negb (is_dot_token t)) toks)
      else None
  | None => None
  end.
Proof.
  revert dots other. induction bytes as [|b rest IH IH2] using bytes_ind2; intros dots other; simpl.
  { by rewrite Nat.add_0_r, orb_false_r. }
  destruct (char_eqb b percent_byte) eqn:Ep.
  - to_prop. subst b. simpl. destruct rest as [|h [|l rest']]; [done..|].
    destruct (decode_hex_digit h) as [high|] eqn:Eh, (decode_hex_digit l) as [low|] eqn:El; try done.
    rewrite hex_pair by eauto using hex_digit_bound. set (d := (16 * high + low)%N). rewrite !(IH2 h l rest') by done.
    destruct (decode_tokens rest') as [toks|]; simpl; [|by repeat case_match].
    rewrite <- (dots_step dots other (true, d) toks). unfold token_ok, is_dot_token. cbn [fst snd andb].
    destruct (char_eqb d percent_byte), (char_eqb d slash_byte), (char_eqb d backslash_byte), (char_eqb d dot_byte); done.
  - rewrite !IH. destruct (decode_tokens rest) as [toks|]; simpl; [|by repeat case_match].
    rewrite <- (dots_step dots other (false, b) toks). unfold token_ok, is_dot_token. cbn [fst snd andb negb].
    rewrite andb_true_r. destruct (char_eqb b dot_byte) eqn:E4, (char_eqb b backslash_byte) eqn:E3; try done. to_prop. by subst b.
Qed.

(** A segment that everyone reads alike, and that is not a step to here or up. *)
Definition segment_meaning_ok (segment : str) : Prop :=
  exists toks, decode_tokens (utf8_encode segment) = Some toks /\ Forall (fun t => token_ok t = true) toks /\
    toks.*2 <> [dot_byte] /\ toks.*2 <> [dot_byte; dot_byte].

Lemma all_dots (toks : list (bool * N)) :
  existsb (fun t => negb (is_dot_token t)) toks = false ->
  toks.*2 = replicate (length toks) dot_byte /\ length (filter (fun t => is_dot_token t = true) toks) = length toks.
Proof.
  induction toks as [|t toks IH]; [done|]. cbn [existsb]. intros [Ht Hr]%orb_false_iff. apply negb_false_iff in Ht.
  destruct (IH Hr) as [IH1 IH2]. rewrite filter_cons_True by done. rewrite fmap_cons, IH1. cbn [length replicate]. rewrite IH2.
  unfold is_dot_token in Ht. to_prop. by rewrite Ht.
Qed.

Lemma safe_segment_iff segment : is_safe_segment_for_authorization segment = true <-> segment_meaning_ok segment.
Proof.
  unfold is_safe_segment_for_authorization, segment_meaning_ok. rewrite scan_segment_spec.
  destruct (decode_tokens (utf8_encode segment)) as [toks|]; [|split; [done|by intros (? & ? & _)]].
  transitivity (Forall (fun t => token_ok t = true) toks /\ toks.*2 <> [dot_byte] /\ toks.*2 <> [dot_byte; dot_byte]).
  2: { split; [by exists toks|]. intros (? & [= <-] & ?). done. }
  assert (forallb token_ok toks = true <-> Forall (fun t => token_ok t = true) toks) as Hf
    by (rewrite forallb_forall, Forall_forall; by setoid_rewrite list_elem_of_In).
  destruct (forallb token_ok toks); [|split; [done|]; intros [Ht _]; by apply Hf in Ht].
  cbn [orb Nat.add]. destruct (existsb _ toks) eqn:Ex.
  - split; [|done]. intros _. split; [by apply Hf|]. apply existsb_exists in Ex as (t & Ht%list_elem_of_In & Hnd).
    apply negb_true_iff in Hnd. unfold is_dot_token in Hnd. to_prop.
    assert (snd t ∈ toks.*2) as Hin by (apply list_elem_of_fmap; eauto).
    split; intros Heq; rewrite Heq in Hin; set_solver.
  - destruct (all_dots toks Ex) as [Hd ->]. rewrite Hd. simpl. destruct toks as [|? [|? [|? ?]]]; simpl; naive_solver.
Qed.

(** ** What compilation keeps *)

Section compiled_hooks.
Context `{HookDeps} `{HeaderOps} `{SocketPathOps}.

Definition secrets_available (hook : HookConfig) : Prop :=
  forall h, h ∈ inject_request_headers hook -> is_Some (compile_injected_header h).

Lemma mapM_is_Some {A B} (f : A -> option B) l : (forall x, x ∈ l -> is_Some (f x)) -> is_Some (mapM f l).
Proof. intros Hf. apply mapM_is_Some_2, Forall_forall. exact Hf. Qed.

Lemma is_some_true {A} (o : option A) : is_some o = true <-> is_Some o.
Proof. destruct o; simpl; split; [eauto|done|done|by intros [? ?]]. Qed.

(** A hook that has been validated compiles, once its secrets are there. *)
Lemma validated_hook_compiles hook :
  validate_hook hook = None -> secrets_available hook ->
  exists h, compile_hook hook = Some h /\ normalize_hook_host (hook_host hook) = Some (mh_host h).
Proof.
  unfold validate_hook, compile_hook. intros Hv Hs.
  destruct (normalize_hook_host (hook_host hook)) as [host|]; [|done]. simpl.
  destruct (normalize_methods (methods hook)) as [[|m ms]|]; [done| |done]. simpl.
  destruct (compile_path_matchers (path_prefixes hook)) as [[|p ps]|]; [done| |done]. simpl.
  destruct (is_some (body hook)); [done|].
  destruct (validate_query_constraints (query hook)) eqn:Eq; [|done].
  destruct (validate_header_constraints (hook_headers hook)) eqn:Eh; [|done].
  destruct (validate_strip_request_headers (strip_request_headers hook)) eqn:Est; [|done]. clear Hv.
  unfold validate_query_constraints, validate_header_constraints, validate_strip_request_headers in *.
  rewrite forallb_forall in Eq, Eh, Est.
  edestruct (mapM_is_Some (fun '(name, values) => n ← normalize_query_name name; vs ← compile_value_matchers values; Some (n, vs))
    (query hook)) as [q ->].
  { intros [name values] Hin%list_elem_of_In. apply Eq in Hin. simpl in Hin. destruct (normalize_query_name name); [|done].
    apply andb_true_iff in Hin as [_ [vs ->]%is_some_true]. simpl. eauto. }
  edestruct (mapM_is_Some (fun '(name, values) => n ← header_name_from_bytes name; vs ← compile_value_matchers values; Some (n, vs))
    (hook_headers hook)) as [hs ->].
  { intros [name values] Hin%list_elem_of_In. apply Eh in Hin. simpl in Hin.
    apply andb_true_iff in Hin as [[n ->]%is_some_true [vs ->]%is_some_true]. simpl. eauto. }
  destruct (mapM_is_Some header_name_from_bytes (strip_request_headers hook)) as [strip ->].
  { intros name Hin%list_elem_of_In. by apply is_some_true, Est. }
  destruct (mapM_is_Some compile_injected_header (inject_request_headers hook)) as [inject ->]; [done|].
  simpl. eauto.
Qed.

(** The hooks of a host, in the order of the configuration. *)
Definition hooks_for (hooks : list HookConfig) (host : str) : list MitmHook :=
  filter (fun h => mh_host h = host) (omap compile_hook hooks).

Lemma compile_hooks_into_spec hooks acc :
  (forall hook, hook ∈ hooks -> is_Some (compile_hook hook)) ->
  exists m, compile_hooks_into acc hooks = Some m /\
    forall host, default [] (m !! host) = default [] (acc !! host) ++ hooks_for hooks host /\
      (m !! host = None <-> acc !! host = None /\ hooks_for hooks host = []).
Proof.
  revert acc. induction hooks as [|hook hooks IH]; intros acc Hall; simpl.
  { exists acc. split; [done|]. intros host. unfold hooks_for. simpl. rewrite app_nil_r. naive_solver. }
  destruct (Hall hook) as [h Hh]; [by left|]. rewrite Hh. simpl.
  destruct (IH (<[mh_host h := default [] (acc !! mh_host h) ++ [h]]> acc)) as (m & Hm & Hspec).
  { intros hook' Hin. apply Hall. by right. }
  exists m. split; [done|]. intros host. destruct (Hspec host) as [Hd Hn]. unfold hooks_for in *. simpl. rewrite Hh. simpl.
  destruct (decide (mh_host h = host)) as [<-|Hne].
  - rewrite lookup_insert_eq in Hd, Hn. rewrite filter_cons_True by done. simpl in Hd. rewrite <- app_assoc in Hd.
    split; [done|]. naive_solver.
  - rewrite lookup_insert_ne in Hd, Hn by done. rewrite filter_cons_False by done. done.
Qed.

Lemma validate_hooks_from_ok hooks index :
  validate_hooks_from index hooks = Ok tt -> forall hook, hook ∈ hooks -> validate_hook hook = None.
Proof.
  revert index. induction hooks as [|hook hooks IH]; intros index Hv hook' Hin; [by apply not_elem_of_nil in Hin|].
  simpl in Hv. destruct (validate_hook hook) eqn:E; [done|]. apply elem_of_cons in Hin as [->|Hin]; [done|by eapply IH].
Qed.

Lemma first_match_spec hooks req a :
  first_match hooks req = Matched a ->
  exists before hook after, hooks = before ++ hook :: after /\ actions hook = a /\ hook_matches hook req = true /\
    forall h, h ∈ before -> hook_matches h req = false.
Proof.
  induction hooks as [|hook hooks IH]; simpl; [done|]. destruct (hook_matches hook req) eqn:E.
  - intros [= <-]. exists [], hook, hooks. split_and!; try done. by intros h ?%not_elem_of_nil.
  - intros (before & h & after & -> & Ha & Hm & Hb)%IH. exists (hook :: before), h, after. split_and!; try done.
    intros x [->|Hx]%elem_of_cons; [done|by apply Hb].
Qed.

End compiled_hooks.

(** ** Properties *)

(** A concrete choice of the interfaces: globs that match themselves, any header name that is
    not empty, no form data, one variable with a secret, no files. *)
Module PlainHooks.

#[export] Instance deps : HookDeps := {|
  JsonValue := unit;
  GlobMatcher := str;
  glob_compile _ pattern := Some pattern;
  glob_matches glob candidate := str_eqb glob candidate;
  HeaderName := str;
  header_name_from_bytes name := if is_empty name then None else Some name;
  form_urlencoded_parse _ := [];
  lookup_env_var name := if str_eqb name (lit "TOKEN") then Some (lit "secret") else None;
  read_file_to_string _ := None;
|}.

#[export] Instance paths : SocketPathOps := {|
  path_is_absolute p := starts_with (lit "/") p;
  from_absolute_path p := Some p;
  canonicalize p := Some p;
|}.

Definition sample_hook : HookConfig :=
  mkHookConfig (lit "API.example.com") [lit "post"] [lit "/v1/"] [] [] None [lit "cookie"]
    [mkInjectedHeaderConfig (lit "authorization") (Some (lit "TOKEN")) None (Some (lit "Bearer "))].

End PlainHooks.
Import CredBroker.PlainDeps PlainHooks.

(** The test on paths is exact: a path is safe when each of its segments decodes, holds no
    backslash, written or escaped, and no escaped slash or percent sign, and does not decode to
    one dot or two. *)
Theorem safe_paths_are_unambiguous path :
  is_safe_for_authorization path = true <-> Forall segment_meaning_ok (split slash_char path).
Proof.
  unfold is_safe_for_authorization. rewrite forallb_forall, Forall_forall.
  setoid_rewrite <- safe_segment_iff. by setoid_rewrite list_elem_of_In.
Qed.

(** Hooks that have been validated compile as soon as their secrets can be read.  A request
    is then given the actions of the first hook, in the order of the configuration, that is
    for its host and matches it; that hook names the request's method, and the path means the
    same to the hook and to the server. *)
Theorem hooks_apply_in_order `{HookDeps} `{HeaderOps} `{SocketPathOps} mitm hooks :
  validate_mitm_hook_config mitm hooks = Ok tt -> (forall hook, hook ∈ hooks -> secrets_available hook) ->
  exists compiled, compile_hooks mitm hooks = Some compiled /\
    forall host req,
      (evaluate_mitm_hooks compiled host req = NoHooksForHost <-> hooks_for hooks (normalize_host host) = []) /\
      (forall a, evaluate_mitm_hooks compiled host req = Matched a ->
         exists before hook after, hooks_for hooks (normalize_host host) = before ++ hook :: after /\
           actions hook = a /\ hook_matches hook req = true /\ (forall h, h ∈ before -> hook_matches h req = false) /\
           to_ascii_uppercase (hr_method req) ∈ m_methods (matcher hook) /\
           Forall segment_meaning_ok (split slash_char (hr_path req))).
Proof.
  intros Hv Hs. assert (forall hook, hook ∈ hooks -> validate_hook hook = None) as Hok.
  { unfold validate_mitm_hook_config in Hv. destruct hooks as [|hook0 hooks]; [by intros ? ?%not_elem_of_nil|]. simpl in Hv.
    destruct mitm; [|done]. by apply (validate_hooks_from_ok (hook0 :: hooks) 0). }
  unfold compile_hooks. rewrite Hv. destruct (compile_hooks_into_spec hooks ∅) as (m & Hm & Hspec).
  { intros hook Hin. destruct (validated_hook_compiles hook) as (h & Hh & _); [by apply Hok|by apply Hs|]. eauto. }
  exists m. split; [done|]. intros host req. unfold evaluate_mitm_hooks. destruct (Hspec (normalize_host host)) as [Hd Hn].
  rewrite lookup_empty in Hd, Hn. simpl in Hd. destruct (m !! normalize_host host) as [l|] eqn:El; simpl in Hd.
  - subst l. split.
    + split; [|intros Hnil; discriminate (proj2 Hn (conj eq_refl Hnil))]. intros He. exfalso. clear -He. by induction (hooks_for _ _); simpl in He; [|case_match].
    + intros a Ha. apply first_match_spec in Ha as (before & hook & after & Hl & Hact & Hmatch & Hbefore).
      exists before, hook, after. split_and!; [done..| |]; unfold hook_matches in Hmatch;
        destruct (negb (existsb _ _)) eqn:Em; try done; destruct (negb _ || negb _) eqn:Ep; try done.
      * apply negb_false_iff, existsb_exists in Em as (x & Hx%list_elem_of_In & Heq). to_prop. by subst x.
      * apply orb_false_iff in Ep as [Ep _]. apply negb_false_iff in Ep. unfold is_safe_for_authorization in Ep.
        rewrite forallb_forall in Ep. apply Forall_forall. intros x Hx%list_elem_of_In. by apply safe_segment_iff, Ep.
  - split; [|done]. split; [|done]. intros _. by apply Hn.
Qed.

Lemma hooks_apply_in_order_witness :
  exists compiled, compile_hooks true [sample_hook] = Some compiled /\
    exists a, evaluate_mitm_hooks compiled (lit "api.example.com:443") (mkRequest (lit "POST") (lit "/v1/items") None (fun _ => [])) = Matched a /\
      act_strip a = [lit "cookie"].
Proof.
  destruct (hooks_apply_in_order true [sample_hook]) as (compiled & Hc & _).
  - vm_compute. reflexivity.
  - intros hook ->%list_elem_of_singleton h Hh. apply list_elem_of_singleton in Hh as ->. eexists. vm_compute. reflexivity.
  - exists compiled. split; [exact Hc|]. vm_compute in Hc. injection Hc as <-. eexists. split; [vm_compute; reflexivity|reflexivity].
Defined.
