(* ===== verification/NetRuntime.v ===== *)
(** * The network proxy at run time

    Models [network-proxy/src/runtime.rs] (the shared state, the decision on a host, the
    buffer of blocked requests, reloads and updates), [network_policy.rs] (the decision with
    a decider) and [connect_policy.rs] (the check of the address that is dialled).

    Tasks share the state behind a lock that they take several times in one operation.  An
    operation is a [Task] that goes from one hold of a lock to the next ([task_step]); a
    system is a list of tasks over one [World], stepped in any order ([sys_step]).  What the
    reloader, the clock and the resolver answer are inputs of a step. *)

From stdpp Require Import base list strings gmap relations.
From Stdlib Require Import NArith.
From S2P Require Import Prelude NetAddr NetPolicy NetConfig NetState CredBroker.

Definition MAX_BLOCKED_EVENTS : nat := 200.
Definition u64_max : N := 18446744073709551615.

Definition REASON_DENIED : str := lit "denied".
Definition REASON_NOT_ALLOWED : str := lit "not_allowed".
Definition REASON_NOT_ALLOWED_LOCAL : str := lit "not_allowed_local".
Definition REASON_POLICY_DENIED : str := lit "policy_denied".

Inductive HostBlockReason := Denied | NotAllowed | NotAllowedLocal.
#[export] Instance HostBlockReason_eq_dec : EqDecision HostBlockReason.
Proof. solve_decision. Defined.

Definition HostBlockReason_as_str (r : HostBlockReason) : str :=
  match r with Denied => REASON_DENIED | NotAllowed => REASON_NOT_ALLOWED | NotAllowedLocal => REASON_NOT_ALLOWED_LOCAL end.

Inductive HostBlockDecision := Allowed | Blocked (reason : HostBlockReason).
#[export] Instance HostBlockDecision_eq_dec : EqDecision HostBlockDecision.
Proof. solve_decision. Defined.

(** What a lookup gives: the addresses, or nothing when it fails or takes too long. *)
Abbreviation resolver := (str -> N -> option (list IpAddr)).

Definition host_resolves_to_non_public_ip (host : str) (port : N) (lookup : resolver) : bool :=
  match parse_ip host with
  | Some ip => is_non_public_ip ip
  | None =>
      match lookup host port with
      | Some addrs => existsb is_non_public_ip addrs
      | None => true
      end
  end.

(** The test on one pattern of [is_explicit_local_allowlisted]. *)
Definition pattern_is_literal_for (host pattern : str) : bool :=
  let pattern := trim pattern in
  if str_eqb pattern (lit "*") || starts_with (lit "*.") pattern || starts_with (lit "**.") pattern then false
  else if contains_char 42 pattern || contains_char 63 pattern then false
  else
    let normalized_pattern := normalize_host pattern in
    str_eqb normalized_pattern host
    || match unscoped_ip_literal host with Some ip => str_eqb normalized_pattern ip | None => false end.

Definition is_explicit_local_allowlisted (allowed_domains : list str) (host : str) : bool :=
  existsb (pattern_is_literal_for host) allowed_domains.

(** The [local_literal] block of [host_blocked]. *)
Definition is_local_literal (host : str) : bool :=
  let host_no_scope := default host (unscoped_ip_literal host) in
  if is_loopback_host host then true
  else match parse_ip host_no_scope with Some ip => is_non_public_ip ip | None => false end.

Section runtime.
Context `{MitmHookOps} `{GlobSetOps} `{SocketPathOps} `{UrlHostOps} `{UrlOps} `{HeaderOps} `{MarkerOps}.

Definition globset_matches_host_or_unscoped (set : GlobSet) (host : str) : bool :=
  globset_is_match set host ||
  match unscoped_ip_literal host with Some ip => globset_is_match set ip | None => false end.

(** [host_blocked] after the reload, on the state that was read. *)
Definition host_blocked (s : ConfigState) (lookup : resolver) (host : str) (port : N) : HostBlockDecision :=
  match Host_parse host with
  | None => Blocked NotAllowed
  | Some host =>
      let allowed_domains_empty := negb (is_some (allowed_domains (config s))) in
      let allowed := default [] (allowed_domains (config s)) in
      if globset_matches_host_or_unscoped (deny_set s) host then Blocked Denied
      else
        let is_allowlisted := globset_matches_host_or_unscoped (allow_set s) host in
        let local_block :=
          if allow_local_binding (config s) then false
          else if is_local_literal host then negb (is_explicit_local_allowlisted allowed host)
          else host_resolves_to_non_public_ip host port lookup in
        if local_block then Blocked NotAllowedLocal
        else if allowed_domains_empty || negb is_allowlisted then Blocked NotAllowed
        else Allowed
  end.

Definition set_execution_id (id : option str) (e : BlockedRequest) : BlockedRequest :=
  mkBlockedRequest (br_host e) (br_reason e) (br_client e) (br_method e) (br_mode e) (br_protocol e) id
    (br_decision e) (br_source e) (br_port e) (br_timestamp e).

Definition set_blocked (b : list BlockedRequest) (total : N) (s : ConfigState) : ConfigState :=
  mkConfigState (config s) (brokerage_created_default_allowlist s) (allow_set s) (deny_set s) (state_mitm s)
    (state_mitm_hooks s) (constraints s) b total.

Definition set_state_config (c : NetworkProxyConfig) (s : ConfigState) : ConfigState :=
  mkConfigState c (brokerage_created_default_allowlist s) (allow_set s) (deny_set s) (state_mitm s)
    (state_mitm_hooks s) (constraints s) (blocked s) (blocked_total s).

Definition saturating_add (a b : N) : N := N.min (a + b) u64_max.

(** What [record_blocked] does while it holds the lock: the loop drops from the front until
    the buffer fits. *)
Definition push_blocked (entry : BlockedRequest) (s : ConfigState) : ConfigState :=
  let b := blocked s ++ [entry] in
  set_blocked (drop (length b - MAX_BLOCKED_EVENTS) b) (saturating_add (blocked_total s) 1) s.

(** [is_unix_socket_allowed] after the reload; permissions for sockets are supported on one
    platform. *)
Definition is_unix_socket_allowed (supported : bool) (s : ConfigState) (path : str) : bool :=
  if negb supported then false
  else if negb (path_is_absolute path) then false
  else if dangerously_allow_all_unix_sockets (config s) then true
  else
    match from_absolute_path path with
    | None => false
    | Some requested_abs =>
        let requested_canonical := canonicalize requested_abs in
        existsb (fun allowed =>
          match parse_socket_path allowed with
          | Some (Native allowed_path) =>
              str_eqb allowed_path requested_abs ||
              match requested_canonical, canonicalize allowed_path with
              | Some r, Some a => str_eqb a r
              | _, _ => false
              end
          | Some (UnixStyleAbsolute _) | None => false
          end) (allow_unix_sockets (config s))
    end.

Definition method_allowed (s : ConfigState) (method : str) : bool := allows_method (mode (config s)) method.

Inductive HostMitmRequirement := MitmNone | MitmTls | MitmAlways.

Definition host_mitm_requirement (s : ConfigState) (broker : CredentialBrokerState) (host : str) : HostMitmRequirement :=
  let normalized_host := normalize_host host in
  if hooks_contain_key (state_mitm_hooks s) normalized_host then MitmAlways
  else if host_requires_mitm broker normalized_host then MitmTls
  else MitmNone.

Inductive DomainListKind := ListAllow | ListDeny.

Definition list_permission (k : DomainListKind) : NetworkDomainPermission :=
  match k with ListAllow => PermAllow | ListDeny => PermDeny end.
Definition list_entries (k : DomainListKind) (c : NetworkProxyConfig) : list str :=
  match k with ListAllow => default [] (allowed_domains c) | ListDeny => default [] (denied_domains c) end.
Definition list_opposite_entries (k : DomainListKind) (c : NetworkProxyConfig) : list str :=
  match k with ListAllow => default [] (denied_domains c) | ListDeny => default [] (allowed_domains c) end.

Inductive RuntimeError :=
| ReloadFailed
| InvalidNetworkHost
| Constrained (e : NetworkProxyConstraintError)
| CompileFailed (e : BuildError).

(** What an update makes of the state it read: nothing to do, an error, or a new state to
    install. *)
Definition prepare_update (normalized_host : str) (target : DomainListKind) (s : ConfigState) :
    result (option ConfigState) RuntimeError :=
  let previous_cfg := config s in
  let contains l := existsb (fun entry => str_eqb (normalize_host entry) normalized_host) l in
  if contains (list_entries target previous_cfg) && negb (contains (list_opposite_entries target previous_cfg)) then Ok None
  else
    let candidate := upsert_domain_permission normalized_host (list_permission target) normalize_host previous_cfg in
    let? _ := map_err Constrained (validate_policy_against_constraints candidate (constraints s)) in
    let? new_state := map_err CompileFailed (build_config_state candidate (constraints s)) in
    Ok (Some (set_blocked (blocked s) (blocked_total s) new_state)).

(** ** Tasks *)

Record World := mkWorld {
  shared : ConfigState;
  world_broker : CredentialBrokerState;
  observer : bool;                         (* an observer of blocked requests is set *)
  notified : list BlockedRequest;          (* what it has been told, oldest first *)
}.

Definition set_shared (s : ConfigState) (w : World) : World := mkWorld s (world_broker w) (observer w) (notified w).
Definition configure_broker (c : NetworkProxyConfig) (w : World) : World :=
  mkWorld (shared w) (configure c (world_broker w)) (observer w) (notified w).
Definition notify (e : BlockedRequest) (w : World) : World :=
  mkWorld (shared w) (world_broker w) (observer w) (notified w ++ [e]).

(** What the environment answers during a step.  The broker draws dummies until they are fresh:
    the last two are how many it draws for a credential in this step, and the numbers it gets. *)
Record Inputs := mkInputs {
  maybe_reload : result (option ConfigState) unit;
  reload_now : result ConfigState unit;
  resolve : resolver;
  draws : nat;
  random : nat -> nat;
}.

Inductive Op :=
| OpHostBlocked (host : str) (port : N)
| OpRecordBlocked (execution_id : option str) (entry : BlockedRequest)
| OpBlockedSnapshot
| OpDrainBlocked
| OpSetObserver (set : bool)
| OpSetNetworkMode (m : NetworkMode)
| OpUpdateDomainList (host : str) (target : DomainListKind)
| OpReplaceConfigState (new_state : ConfigState)
| OpForceReload
| OpVirtualizeChildCredentials (env : env_map).

Inductive Outcome :=
| Done
| Environment (env : env_map)
| Decided (d : HostBlockDecision)
| Requests (l : list BlockedRequest)
| Failed (e : RuntimeError).

(** Between two holds of a lock. *)
Inductive Task :=
| Start (op : Op)
| ReloadRead (op : Op) (new_state : ConfigState)
| ReloadWrite (op : Op) (new_state : ConfigState)
| Reloaded (op : Op)
| RecordWrite (entry : BlockedRequest) (observed : bool)
| RecordNotify (entry : BlockedRequest)
| HostDecide (s : ConfigState) (host : str) (port : N)
| ModeWrite (m : NetworkMode) (read_constraints : NetworkProxyConstraints)
| UpdateWrite (host : str) (target : DomainListKind) (previous_cfg : NetworkProxyConfig)
    (read_constraints : NetworkProxyConstraints) (new_state : ConfigState)
| ReplaceWrite (new_state : ConfigState)
| ForceWrite (new_state : ConfigState)
| Finished (o : Outcome).

(** *** [reload_if_needed]: the reloader is asked, the state is read, the state is replaced *)

Definition reload_if_needed_call (inp : Inputs) (op : Op) (w : World) : Task * World :=
  match maybe_reload inp with
  | Ok None => (Reloaded op, w)
  | Ok (Some new_state) => (ReloadRead op new_state, configure_broker (config new_state) w)
  | _ => (Finished (Failed ReloadFailed), w)
  end.
Definition reload_if_needed_read (op : Op) (new_state : ConfigState) (w : World) : Task * World :=
  (ReloadWrite op (set_blocked (blocked (shared w)) (blocked_total (shared w)) new_state), w).
Definition reload_if_needed_write (op : Op) (new_state : ConfigState) (w : World) : Task * World :=
  (Reloaded op, set_shared new_state w).

(** *** The operations after the reload *)

Definition record_blocked_read (execution_id : option str) (entry : BlockedRequest) (w : World) : Task * World :=
  (RecordWrite (set_execution_id execution_id entry) (observer w), w).
Definition record_blocked_write (entry : BlockedRequest) (observed : bool) (w : World) : Task * World :=
  (if observed then RecordNotify entry else Finished Done, set_shared (push_blocked entry (shared w)) w).

Definition blocked_snapshot (w : World) : Task * World := (Finished (Requests (blocked (shared w))), w).
Definition drain_blocked (w : World) : Task * World :=
  (Finished (Requests (blocked (shared w))), set_shared (set_blocked [] (blocked_total (shared w)) (shared w)) w).

Definition set_blocked_request_observer (b : bool) (w : World) : Task * World :=
  (Finished Done, mkWorld (shared w) (world_broker w) b (notified w)).

Definition set_network_mode_read (m : NetworkMode) (w : World) : Task * World :=
  let candidate := set_mode m (config (shared w)) in
  match validate_policy_against_constraints candidate (constraints (shared w)) with
  | Ok _ => (ModeWrite m (constraints (shared w)), w)
  | Err e => (Finished (Failed (Constrained e)), w)
  | Panic => (Finished (Failed ReloadFailed), w)
  end.
Definition set_network_mode_write (m : NetworkMode) (read_constraints : NetworkProxyConstraints) (w : World) : Task * World :=
  if bool_decide (constraints (shared w) = read_constraints)
  then (Finished Done, set_shared (set_state_config (set_mode m (config (shared w))) (shared w)) w)
  else (Start (OpSetNetworkMode m), w).

Definition update_domain_list_read (host : str) (target : DomainListKind) (w : World) : Task * World :=
  match Host_parse host with
  | None => (Finished (Failed InvalidNetworkHost), w)
  | Some normalized_host =>
      match prepare_update normalized_host target (shared w) with
      | Ok None => (Finished Done, w)
      | Ok (Some new_state) => (UpdateWrite host target (config (shared w)) (constraints (shared w)) new_state, w)
      | Err e => (Finished (Failed e), w)
      | Panic => (Finished (Failed ReloadFailed), w)
      end
  end.
Definition update_domain_list_write (host : str) (target : DomainListKind) (previous_cfg : NetworkProxyConfig)
    (read_constraints : NetworkProxyConstraints) (new_state : ConfigState) (w : World) : Task * World :=
  if bool_decide (constraints (shared w) = read_constraints) && bool_decide (config (shared w) = previous_cfg)
  then (Finished Done, set_shared new_state w)
  else (Start (OpUpdateDomainList host target), w).

Definition replace_config_state_configure (new_state : ConfigState) (w : World) : Task * World :=
  (ReplaceWrite new_state, configure_broker (config new_state) w).
Definition replace_config_state_write (new_state : ConfigState) (w : World) : Task * World :=
  (Finished Done, set_shared (set_blocked (blocked (shared w)) (blocked_total (shared w)) new_state) w).

Definition force_reload_call (inp : Inputs) (w : World) : Task * World :=
  match reload_now inp with
  | Ok new_state => (ForceWrite new_state, configure_broker (config new_state) w)
  | _ => (Finished (Failed ReloadFailed), w)
  end.
Definition force_reload_write (new_state : ConfigState) (w : World) : Task * World :=
  (Finished Done, set_shared (set_blocked (blocked (shared w)) (blocked_total new_state) new_state) w).

(** The broker's lock is held throughout: while the draws do not suffice nothing has changed for
    the other tasks, and the task goes on. *)
Definition virtualize_child_credentials (inp : Inputs) (env : env_map) (w : World) : Task * World :=
  match @virtualize_child_env _ _ _ {| draw := random inp |} (draws inp) env (world_broker w, 0) with
  | Some (env, (broker, _)) => (Finished (Environment env), mkWorld (shared w) broker (observer w) (notified w))
  | None => (Reloaded (OpVirtualizeChildCredentials env), w)
  end.

Definition body_step (inp : Inputs) (op : Op) (w : World) : Task * World :=
  match op with
  | OpHostBlocked host port => (HostDecide (shared w) host port, w)
  | OpRecordBlocked execution_id entry => record_blocked_read execution_id entry w
  | OpBlockedSnapshot => blocked_snapshot w
  | OpDrainBlocked => drain_blocked w
  | OpSetObserver b => set_blocked_request_observer b w
  | OpSetNetworkMode m => set_network_mode_read m w
  | OpUpdateDomainList host target => update_domain_list_read host target w
  | OpReplaceConfigState new_state => replace_config_state_configure new_state w
  | OpForceReload => force_reload_call inp w
  | OpVirtualizeChildCredentials env => virtualize_child_credentials inp env w
  end.

(** Every operation but a forced reload, the change of the observer and the work of the broker
    reloads first; an update parses its host before that. *)
Definition reloads_first (op : Op) : bool :=
  match op with OpForceReload | OpSetObserver _ | OpVirtualizeChildCredentials _ => false | _ => true end.

Definition bad_host (op : Op) : bool :=
  match op with OpUpdateDomainList host _ => negb (is_some (Host_parse host)) | _ => false end.

Definition task_step (inp : Inputs) (t : Task) (w : World) : Task * World :=
  match t with
  | Start op =>
      if bad_host op then (Finished (Failed InvalidNetworkHost), w)
      else if reloads_first op then reload_if_needed_call inp op w
      else (Reloaded op, w)
  | ReloadRead op new_state => reload_if_needed_read op new_state w
  | ReloadWrite op new_state => reload_if_needed_write op new_state w
  | Reloaded op => body_step inp op w
  | RecordWrite entry observed => record_blocked_write entry observed w
  | RecordNotify entry => (Finished Done, notify entry w)
  | HostDecide s host port => (Finished (Decided (host_blocked s (resolve inp) host port)), w)
  | ModeWrite m read_constraints => set_network_mode_write m read_constraints w
  | UpdateWrite host target previous_cfg read_constraints new_state =>
      update_domain_list_write host target previous_cfg read_constraints new_state w
  | ReplaceWrite new_state => replace_config_state_write new_state w
  | ForceWrite new_state => force_reload_write new_state w
  | Finished o => (Finished o, w)
  end.

(** ** Systems *)

Definition system : Type := list Task * World.

(** What the environment and the clients may hand in: the reloaded states, and the states
    to be installed, satisfy [P]. *)
Definition inputs_ok (P : ConfigState -> Prop) (inp : Inputs) : Prop :=
  (forall s, maybe_reload inp = Ok (Some s) -> P s) /\ (forall s, reload_now inp = Ok s -> P s).

Inductive sys_step (P : ConfigState -> Prop) : system -> system -> Prop :=
| sys_step_task i inp ts w t t' w' :
    inputs_ok P inp -> ts !! i = Some t -> task_step inp t w = (t', w') ->
    sys_step P (ts, w) (<[i := t']> ts, w').

End runtime.

(** [simpl] goes through the parts of a step. *)
#[global] Arguments reload_if_needed_call {_ _} _ _ _ /.
#[global] Arguments reload_if_needed_read {_ _} _ _ _ /.
#[global] Arguments reload_if_needed_write {_ _} _ _ _ /.
#[global] Arguments record_blocked_read {_ _} _ _ _ /.
#[global] Arguments record_blocked_write {_ _} _ _ _ /.
#[global] Arguments blocked_snapshot {_ _} _ /.
#[global] Arguments drain_blocked {_ _} _ /.
#[global] Arguments set_blocked_request_observer {_ _} _ _ /.
#[global] Arguments set_network_mode_read {_ _ _} _ _ /.
#[global] Arguments set_network_mode_write {_ _} _ _ _ /.
#[global] Arguments update_domain_list_read {_ _ _ _} _ _ _ /.
#[global] Arguments update_domain_list_write {_ _} _ _ _ _ _ _ /.
#[global] Arguments replace_config_state_configure {_ _} _ _ /.
#[global] Arguments replace_config_state_write {_ _} _ _ /.
#[global] Arguments force_reload_call {_ _} _ _ /.
#[global] Arguments force_reload_write {_ _} _ _ /.

Arguments World {_ _}.
Arguments Op {_ _}.
Arguments Task {_ _}.

(** ** The invariant of a running proxy *)

Section invariant.
Context `{MitmHookOps} `{GlobSetOps} `{SocketPathOps} `{UrlHostOps} `{UrlOps} `{HeaderOps} `{MarkerOps}.

(** The compiled parts belong to the configuration, which is within its constraints, and
    the buffer and its counter are within their bounds. *)
Record state_ok (s : ConfigState) : Prop := {
  so_compiled : compiled s;
  so_within : within_constraints (config s) (constraints s);
  so_blocked : length (blocked s) <= MAX_BLOCKED_EVENTS;
  so_total : (blocked_total s <= u64_max)%N;
}.

Lemma set_blocked_ok s b total :
  state_ok s -> length b <= MAX_BLOCKED_EVENTS -> (total <= u64_max)%N -> state_ok (set_blocked b total s).
Proof. intros [[] Hw _ _] Hb Ht. constructor; [constructor|..]; done. Qed.

Lemma push_blocked_ok entry s : state_ok s -> state_ok (push_blocked entry s).
Proof.
  intros Hs. apply set_blocked_ok; [done| |].
  - rewrite length_drop. lia.
  - unfold saturating_add. lia.
Qed.

Lemma set_mode_ok s m cfg :
  state_ok s -> within_constraints (set_mode m cfg) (constraints s) ->
  state_ok (set_state_config (set_mode m (config s)) s).
Proof.
  intros [[] Hw Hb Ht] Hm. constructor; [constructor; assumption| |done|done]. by apply (set_mode_within _ cfg).
Qed.

Lemma build_ok cfg cs s :
  validate_policy_against_constraints cfg cs = Ok tt -> build_config_state cfg cs = Ok s -> state_ok s.
Proof.
  intros Hv%validate_within Hb. apply build_config_state_spec in Hb as (Hc & Hcs & Hcomp & Hbl & Ht).
  constructor; [done| |rewrite Hbl; simpl; lia|rewrite Ht; done].
  rewrite Hc, Hcs. by apply brokered_within.
Qed.

Lemma prepare_update_ok host target s new_state :
  state_ok s -> prepare_update host target s = Ok (Some new_state) ->
  state_ok new_state /\ constraints new_state = constraints s.
Proof.
  intros Hs Hp. unfold prepare_update in Hp. case_match; [done|].
  destruct (validate_policy_against_constraints _ _) as [[]|?|] eqn:Ev; simpl in Hp; [|done..].
  destruct (build_config_state _ _) as [s'|?|] eqn:Eb; simpl in Hp; [|done..]. injection Hp as <-.
  split; [apply set_blocked_ok; [by eapply build_ok|apply Hs..]|]. by apply build_config_state_spec in Eb as (_ & ? & _).
Qed.

(** States as above, whose constraints satisfy [Q]. *)
Context (Q : NetworkProxyConstraints -> Prop).

Definition good (s : ConfigState) : Prop := state_ok s /\ Q (constraints s).

Definition op_ok (op : Op) : Prop := match op with OpReplaceConfigState s => good s | _ => True end.

Definition task_ok (t : Task) : Prop :=
  match t with
  | Start op | Reloaded op => op_ok op
  | ReloadRead op s | ReloadWrite op s => op_ok op /\ good s
  | HostDecide s _ _ => good s
  | ModeWrite m cs => exists cfg, within_constraints (set_mode m cfg) cs
  | UpdateWrite _ _ _ _ s | ReplaceWrite s | ForceWrite s => good s
  | RecordWrite _ _ | RecordNotify _ | Finished _ => True
  end.

Definition world_ok (w : World) : Prop := good (shared w) /\ broker_ok (world_broker w).

Lemma configure_broker_ok cfg w : world_ok w -> world_ok (configure_broker cfg w).
Proof. intros [Hs Hb]. split; [done|]. by apply configure_ok. Qed.

Lemma set_shared_ok s w : world_ok w -> good s -> world_ok (set_shared s w).
Proof. intros [_ Hb] Hs. by split. Qed.

Lemma good_set_blocked s b total :
  good s -> length b <= MAX_BLOCKED_EVENTS -> (total <= u64_max)%N -> good (set_blocked b total s).
Proof. intros [Hs Hq] Hb Ht. split; [by apply set_blocked_ok|done]. Qed.

Lemma body_step_ok inp op w t w' :
  inputs_ok good inp -> op_ok op -> world_ok w -> body_step inp op w = (t, w') -> task_ok t /\ world_ok w'.
Proof.
  intros [_ Hnow] Hop Hw Hstep. pose proof (proj1 Hw) as Hs. pose proof (proj1 Hs) as Hok. destruct op; simpl in Hstep.
  - simplify_eq. by split.
  - simplify_eq. by split.
  - simplify_eq. by split.
  - simplify_eq. split; [done|]. apply set_shared_ok; [done|]. apply good_set_blocked; [done|simpl; lia|apply Hok].
  - simplify_eq. by destruct Hw.
  - destruct (validate_policy_against_constraints _ _) as [[]|?|] eqn:Ev; simplify_eq; (split; [|done]); try done.
    simpl. exists (config (shared w')). by apply validate_within.
  - destruct (Host_parse host); [|by simplify_eq].
    destruct (prepare_update _ _ _) as [[new|]|?|] eqn:Ep; simplify_eq; (split; [|done]); try done.
    apply prepare_update_ok in Ep as [Hnew Hcs]; [|done]. split; [done|]. rewrite Hcs. apply Hs.
  - simplify_eq. split; [done|]. by apply configure_broker_ok.
  - destruct (reload_now inp) as [new|?|] eqn:En; simplify_eq; [|done..]. split; [by apply Hnow|]. by apply configure_broker_ok.
  - unfold virtualize_child_credentials in Hstep. destruct (virtualize_child_env _ _ _) as [[env' [broker pos]]|] eqn:Ev; simplify_eq; [|done].
    split; [done|]. destruct Hw as [_ Hb]. split; [done|]. by eapply virtualize_child_env_ok.
Qed.

Lemma task_step_ok inp t w t' w' :
  inputs_ok good inp -> task_ok t -> world_ok w -> task_step inp t w = (t', w') -> task_ok t' /\ world_ok w'.
Proof.
  intros Hin Ht Hw Hstep. pose proof (proj1 Hw) as Hs. pose proof (proj1 Hs) as Hok. destruct t; simpl in Hstep, Ht.
  - destruct (bad_host op); [by simplify_eq|]. destruct (reloads_first op); [|by simplify_eq].
    destruct (maybe_reload inp) as [[new|]|?|] eqn:Em; simplify_eq; [|done..].
    split; [|by apply configure_broker_ok]. split; [done|]. by apply (proj1 Hin).
  - simplify_eq. destruct Ht. split; [|done]. split; [done|]. apply good_set_blocked; [done|apply Hok..].
  - simplify_eq. destruct Ht. split; [done|]. by apply set_shared_ok.
  - by eapply body_step_ok.
  - simplify_eq. split; [by destruct observed|]. apply set_shared_ok; [done|]. split; [by apply push_blocked_ok|apply Hs].
  - simplify_eq. by destruct Hw.
  - by simplify_eq.
  - case_bool_decide; simplify_eq; [|done]. destruct Ht as [cfg Hcfg]. split; [done|].
    apply set_shared_ok; [done|]. split; [by eapply set_mode_ok|apply Hs].
  - destruct (bool_decide _ && bool_decide _); simplify_eq; [|done]. split; [done|]. by apply set_shared_ok.
  - simplify_eq. split; [done|]. apply set_shared_ok; [done|]. apply good_set_blocked; [done|apply Hok..].
  - simplify_eq. split; [done|]. apply set_shared_ok; [done|]. apply good_set_blocked; [done|apply Hok|apply Ht].
  - by simplify_eq.
Qed.

Definition system_ok (sys : system) : Prop := Forall task_ok (fst sys) /\ world_ok (snd sys).

Lemma sys_step_ok sys sys' : system_ok sys -> sys_step good sys sys' -> system_ok sys'.
Proof.
  intros [Hts Hw] Hstep. destruct Hstep as [i inp ts w t t' w' Hin Hi Hstep]. simpl in *.
  destruct (task_step_ok inp t w t' w') as [Ht' Hw']; [done| |done|done|].
  - by eapply Forall_lookup in Hi.
  - split; [|done]. by apply Forall_insert.
Qed.

Lemma reachable_ok sys sys' : rtc (sys_step good) sys sys' -> system_ok sys -> system_ok sys'.
Proof. induction 1; eauto using sys_step_ok. Qed.

End invariant.

(** ** Which hosts are let through *)

Section decisions.
Context `{MitmHookOps} `{GlobSetLaws} `{SocketPathOps} `{UrlHostOps}.

(** One of the patterns stands for the host, or for the address without its zone. *)
Definition hits (patterns : list str) (h : str) : bool :=
  existsb (fun p => pattern_covers p h) patterns ||
  match unscoped_ip_literal h with Some ip => existsb (fun p => pattern_covers p ip) patterns | None => false end.

Lemma hits_exists patterns h : hits patterns h = true -> exists p, p ∈ patterns /\ hits [p] h = true.
Proof.
  unfold hits. rewrite orb_true_iff, existsb_exists. intros [(p & Hp%list_elem_of_In & Hc)|Hu].
  - exists p. simpl. by rewrite Hc.
  - destruct (unscoped_ip_literal h) as [ip|]; [|done]. apply existsb_exists in Hu as (p & Hp%list_elem_of_In & Hc).
    exists p. simpl. by rewrite Hc, !orb_true_r.
Qed.

(** An address is public; a name has an answer in which every address is public. *)
Definition reaches_public (lookup : resolver) (h : str) (port : N) : Prop :=
  match parse_ip h with
  | Some ip => is_non_public_ip ip = false
  | None => exists addrs, lookup h port = Some addrs /\ Forall (fun ip => is_non_public_ip ip = false) addrs
  end.

(** The part of the policy about local networks. *)
Definition local_allowed (s : ConfigState) (lookup : resolver) (h : str) (port : N) : Prop :=
  allow_local_binding (config s) = true \/
  (is_local_literal h = true /\ exists p, p ∈ default [] (allowed_domains (config s)) /\ pattern_is_literal_for h p = true) \/
  (is_local_literal h = false /\ reaches_public lookup h port).

Definition plain_config (c : NetworkProxyConfig) : Prop :=
  Forall (fun p => plain_pattern p = true) (default [] (allowed_domains c)) /\
  Forall (fun p => plain_pattern p = true) (default [] (denied_domains c)).

Lemma unscoped_plain h ip : is_plain h = true -> unscoped_ip_literal h = Some ip -> is_plain ip = true.
Proof.
  unfold unscoped_ip_literal. intros Hh Hu. destruct (split_once_str _ h) as [[a b]|] eqn:E; [|done].
  apply split_once_str_Some in E as ->. case_match; simplify_eq. unfold is_plain in *. rewrite forallb_app in Hh. by to_prop.
Qed.

Lemma globset_hits gw ps set h :
  compile_globset_with_policy ps gw = Ok set -> Forall (fun p => plain_pattern p = true) ps -> is_plain h = true ->
  globset_matches_host_or_unscoped set h = hits ps h.
Proof.
  intros Hc Hps Hh. unfold globset_matches_host_or_unscoped, hits.
  rewrite (compile_globset_match gw ps set h) by done. destruct (unscoped_ip_literal h) as [ip|] eqn:Eu; [|done].
  by rewrite (compile_globset_match gw ps set ip) by eauto using unscoped_plain.
Qed.

Lemma resolves_public lookup h port :
  host_resolves_to_non_public_ip h port lookup = false <-> reaches_public lookup h port.
Proof.
  unfold host_resolves_to_non_public_ip, reaches_public. destruct (parse_ip h) as [ip|]; [done|].
  destruct (lookup h port) as [addrs|]; [|split; [done|by intros (? & ? & _)]].
  rewrite <- not_true_iff_false, existsb_exists. setoid_rewrite <- list_elem_of_In. split.
  - intros Hn. exists addrs. split; [done|]. apply Forall_forall. intros ip Hip.
    destruct (is_non_public_ip ip) eqn:E; [|done]. destruct Hn. eauto.
  - intros (addrs' & [= <-] & Hall) (ip & Hip & Hnp). rewrite Forall_forall in Hall. apply Hall in Hip. congruence.
Qed.

Lemma local_block_spec s lookup h port :
  (if allow_local_binding (config s) then false
   else if is_local_literal h then negb (is_explicit_local_allowlisted (default [] (allowed_domains (config s))) h)
   else host_resolves_to_non_public_ip h port lookup) = false <-> local_allowed s lookup h port.
Proof.
  unfold local_allowed. rewrite <- resolves_public. destruct (allow_local_binding (config s)); [naive_solver|].
  unfold is_explicit_local_allowlisted. destruct (is_local_literal h).
  - rewrite negb_false_iff, existsb_exists. setoid_rewrite <- list_elem_of_In. naive_solver.
  - naive_solver.
Qed.

(** The decision, with what the configuration says in place of the compiled sets. *)
Lemma host_blocked_unfold s lookup host port h :
  compiled s -> plain_config (config s) -> Host_parse host = Some h -> is_plain h = true ->
  host_blocked s lookup host port =
  if hits (default [] (denied_domains (config s))) h then Blocked Denied
  else if (if allow_local_binding (config s) then false
           else if is_local_literal h then negb (is_explicit_local_allowlisted (default [] (allowed_domains (config s))) h)
           else host_resolves_to_non_public_ip h port lookup) then Blocked NotAllowedLocal
  else if hits (default [] (allowed_domains (config s))) h then Allowed else Blocked NotAllowed.
Proof.
  intros [Hd Ha _ _ _ _ _] [Hpa Hpd] Hparse Hh. unfold host_blocked. rewrite Hparse.
  rewrite (globset_hits _ _ _ h Hd), (globset_hits _ _ _ h Ha) by done.
  case_match; [done|]. case_match; [done|].
  destruct (allowed_domains (config s)) as [l|]; simpl; [by destruct (hits l h)|].
  unfold hits. simpl. by destruct (unscoped_ip_literal h).
Qed.

End decisions.

(** ** Deciders *)

Inductive NetworkProtocol := Http | HttpsConnect | Socks5Tcp | Socks5Udp.
Inductive NetworkPolicyDecision := PolicyDeny | PolicyAsk.
Inductive NetworkDecisionSource := BaselinePolicy | ModeGuard | ProxyStateSource | Decider.

Record NetworkPolicyRequest := mkNetworkPolicyRequest {
  req_protocol : NetworkProtocol; req_host : str; req_port : N; req_environment_id : option str;
  req_client_addr : option str; req_method : option str; req_command : option str;
  req_exec_policy_hint : option str; req_execution_id : option str }.

Inductive NetworkDecision :=
| NetAllow
| NetDeny (reason : str) (source : NetworkDecisionSource) (decision : NetworkPolicyDecision).

Definition or_policy_denied (reason : str) : str := if is_empty reason then REASON_POLICY_DENIED else reason.

Definition deny_with_source (reason : str) (source : NetworkDecisionSource) : NetworkDecision :=
  NetDeny (or_policy_denied reason) source PolicyDeny.
Definition ask_with_source (reason : str) (source : NetworkDecisionSource) : NetworkDecision :=
  NetDeny (or_policy_denied reason) source PolicyAsk.

Definition map_decider_decision (d : NetworkDecision) : NetworkDecision :=
  match d with
  | NetAllow => NetAllow
  | NetDeny reason _ decision => NetDeny reason Decider decision
  end.

(** [PolicyAuditEventArgs], as far as the decision fills it in. *)
Record AuditEvent := mkAuditEvent {
  audit_decision : str; audit_source : NetworkDecisionSource; audit_reason : str; audit_override : bool }.

Definition policy_decision_as_str (d : NetworkPolicyDecision) : str :=
  match d with PolicyDeny => lit "deny" | PolicyAsk => lit "ask" end.

(** [evaluate_host_policy] from the decision on the host: the answer and the audit event.
    The handle the request came through has an environment and an execution of its own. *)
Definition evaluate_host_policy (host_decision : HostBlockDecision) (decider : option (NetworkPolicyRequest -> NetworkDecision))
    (environment_id execution_id : option str) (request : NetworkPolicyRequest) : NetworkDecision * AuditEvent :=
  let '(decision, policy_override) :=
    match host_decision with
    | Allowed => (NetAllow, false)
    | Blocked NotAllowed =>
        match decider with
        | Some decide =>
            let environment := match req_environment_id request with None => environment_id | Some e => Some e end in
            let request :=
              mkNetworkPolicyRequest (req_protocol request) (req_host request) (req_port request) environment
                (req_client_addr request) (req_method request) (req_command request) (req_exec_policy_hint request)
                execution_id in
            let d := map_decider_decision (decide request) in
            (d, match d with NetAllow => true | _ => false end)
        | None => (deny_with_source (HostBlockReason_as_str NotAllowed) BaselinePolicy, false)
        end
    | Blocked reason => (deny_with_source (HostBlockReason_as_str reason) BaselinePolicy, false)
    end in
  let event :=
    match decision with
    | NetAllow =>
        mkAuditEvent (lit "allow") (if policy_override then Decider else BaselinePolicy)
          (if policy_override then HostBlockReason_as_str NotAllowed else lit "allow") policy_override
    | NetDeny reason source d => mkAuditEvent (policy_decision_as_str d) source reason policy_override
    end in
  (decision, event).

(** ** Dialling *)

(** [rama_net::address::Host]. *)
Inductive TargetHost := HostAddress (ip : IpAddr) | HostName (name : str).

Definition is_localhost_name (name : str) : bool :=
  eq_ignore_ascii_case (trim_end_matches (char_eqb dot_char) name) (lit "localhost").

Definition is_non_public_target (host : TargetHost) : bool :=
  match host with
  | HostAddress ip => is_non_public_ip ip
  | HostName name => is_localhost_name name
  end.

Definition target_matches_non_public_addr (host : TargetHost) (addr : IpAddr) : bool :=
  match host with
  | HostAddress ip => bool_decide (ip = addr)
  | HostName name => is_localhost_name name && ip_is_loopback addr
  end.

Section dial.
Context `{MitmHookOps} `{GlobSetOps} `{SocketPathOps} `{UrlHostOps}.

(** [allows_non_public_target]: the state is read for the flag, and again for the decision. *)
Definition allows_non_public_target (s1 s2 : ConfigState) (lookup : resolver) (to_string : TargetHost -> str)
    (host : TargetHost) (port : N) (addr : IpAddr) : bool :=
  if allow_local_binding (config s1) then true
  else if negb (target_matches_non_public_addr host addr) then false
  else bool_decide (host_blocked s2 lookup (to_string host) port = Allowed).

(** [connect], up to the connection itself. *)
Definition may_dial (s1 s2 : ConfigState) (lookup : resolver) (to_string : TargetHost -> str)
    (host : TargetHost) (port : N) (addr : IpAddr) : bool :=
  negb (is_non_public_ip addr && negb (allows_non_public_target s1 s2 lookup to_string host port addr)).

End dial.
