(* ===== verification/NetSafety.v ===== *)
(** * Properties of the network proxy

    The theorems about the components of the network proxy together: which hosts are let
    through, what a decider and a change of address can do, what holds of every state of a
    proxy that many tasks use at once, that every operation ends when it is left alone, and
    what interleavings lose. *)

From stdpp Require Import base list strings gmap relations.
From Stdlib Require Import NArith.
From S2P Require Import Prelude NetAddr NetPolicy NetConfig NetState CredBroker NetRuntime.

(** ** A concrete environment *)

Module PlainProxy.

#[export] Instance hooks : MitmHookOps := {|
  MitmHookConfig := unit;
  MitmHooksByHost := unit;
  MitmState := unit;
  validate_mitm_hooks on hooks := is_empty hooks || on;
  compile_mitm_hooks on hooks := if is_empty hooks || on then Some tt else None;
  mitm_state_new _ := Some tt;
  hooks_contain_key _ _ := false;
|}.

#[export] Instance paths : SocketPathOps := {|
  path_is_absolute p := starts_with (lit "/") p;
  from_absolute_path p := Some p;
  canonicalize p := Some p;
|}.

#[export] Instance url_hosts : UrlHostOps := {| url_host_parse s := Some s |}.
#[export] Instance urls : UrlOps := {| url_parse _ := None |}.
#[export] Existing Instances WildGlob.ops WildGlob.laws PlainDeps.headers PlainDeps.markers.

(** A configuration with an allowlist and a denylist. *)
Definition sample_config (allowed denied : list str) : NetworkProxyConfig :=
  set_denied_domains denied (set_allowed_domains allowed (set_enabled true config_default)).

Definition idle_inputs : Inputs := mkInputs (Ok None) (Err tt) (fun _ _ => None) 1 (fun n => 7 * n).

End PlainProxy.
Import PlainProxy.

(** C24: a host is let through exactly when no denied pattern stands for it, an allowed one
    does, and local networks are no obstacle: they are allowed altogether, or the host is
    written as a local address or a name of the loopback and is itself an entry of the
    allowlist, or it is not written so and is a public address, or a name whose lookup
    succeeds with public addresses only (for such a name an entry of its own is no exception).
    The host has only lower-case letters, digits and [-._:%], and so have the patterns once
    they are normalised, after a leading wildcard, but for the single star. *)
Theorem host_allowed_iff `{MitmHookOps} `{GlobSetLaws} `{SocketPathOps} `{UrlHostOps} s lookup host port h :
  compiled s -> plain_config (config s) -> Host_parse host = Some h -> is_plain h = true ->
  host_blocked s lookup host port = Allowed <->
  hits (default [] (denied_domains (config s))) h = false /\
  hits (default [] (allowed_domains (config s))) h = true /\
  local_allowed s lookup h port.
Proof.
  intros Hc Hp Hparse Hh. rewrite (host_blocked_unfold s lookup host port h) by done.
  rewrite <- local_block_spec. destruct (hits _ h); [naive_solver|].
  destruct (if allow_local_binding (config s) then _ else _); [naive_solver|].
  destruct (hits _ h); naive_solver.
Qed.

Lemma host_allowed_iff_witness :
  exists s, build_config_state (sample_config [lit "**.example.com"] [lit "bad.example.com"]) constraints_default = Ok s /\
    host_blocked s (fun _ _ => Some [V4 (mkIpv4 93 184 216 34)]) (lit "API.Example.com:443") 443 = Allowed.
Proof.
  destruct (build_config_state (sample_config [lit "**.example.com"] [lit "bad.example.com"]) constraints_default)
    as [s|?|] eqn:E; [|vm_compute in E; discriminate..].
  exists s. split; [done|]. pose proof (build_config_state_spec _ _ _ E) as (Hc & _ & Hcomp & _).
  assert (forall lookup, hits (default [] (denied_domains (config s))) (lit "api.example.com") = false /\
    hits (default [] (allowed_domains (config s))) (lit "api.example.com") = true /\
    (reaches_public lookup (lit "api.example.com") 443 -> local_allowed s lookup (lit "api.example.com") 443)) as Hall.
  { intros lookup. rewrite Hc. split_and!; [vm_compute; reflexivity..|]. intros Hp. right. right.
    split; [vm_compute; reflexivity|exact Hp]. }
  apply (host_allowed_iff s _ _ _ (lit "api.example.com")).
  - exact Hcomp.
  - rewrite Hc. split; apply (bool_decide_unpack _); vm_compute; exact I.
  - vm_compute. reflexivity.
  - vm_compute. reflexivity.
  - destruct (Hall (fun _ _ => Some [V4 (mkIpv4 93 184 216 34)])) as (Hd & Ha & Hl). split_and!; [exact Hd|exact Ha|].
    apply Hl. unfold reaches_public. exists [V4 (mkIpv4 93 184 216 34)].
    split; [reflexivity|]. apply (bool_decide_unpack _). vm_compute. exact I.
Defined.

(** A decider can let a request through only when the host is missing from the
    allowlist; a denied host and a local one stay blocked, with the reason of the policy as
    the source, whatever the decider says.  An override is always visible in the audit
    event. *)
Theorem decider_overrides_misses_only host_decision decider environment_id execution_id request :
  let '(decision, event) := evaluate_host_policy host_decision decider environment_id execution_id request in
  (decision = NetAllow <->
     host_decision = Allowed \/
     (host_decision = Blocked NotAllowed /\ exists decide, decider = Some decide /\
        decide (mkNetworkPolicyRequest (req_protocol request) (req_host request) (req_port request)
                  (match req_environment_id request with None => environment_id | Some e => Some e end)
                  (req_client_addr request) (req_method request) (req_command request)
                  (req_exec_policy_hint request) execution_id) = NetAllow)) /\
  (forall reason, host_decision = Blocked reason -> reason <> NotAllowed ->
     decision = NetDeny (HostBlockReason_as_str reason) BaselinePolicy PolicyDeny) /\
  (audit_override event = true <-> decision = NetAllow /\ host_decision <> Allowed).
Proof.
  unfold evaluate_host_policy. destruct host_decision as [|[]]; simpl.
  - split_and!; naive_solver.
  - split_and!; [|intros reason [= <-] _; done|]; naive_solver.
  - destruct decider as [decide|]; simpl.
    + destruct (decide _) as [|reason source d] eqn:Ed; simpl; (split_and!; [|naive_solver|naive_solver]).
      * split; [|done]. intros _. right. split; [done|]. by exists decide.
      * split; [done|]. intros [?|(_ & decide' & [= <-] & Hd)]; [done|]. congruence.
    + split_and!; naive_solver.
  - split_and!; [|intros reason [= <-] _; done|]; naive_solver.
Qed.

(** An address that is not public is dialled only if local networks are allowed, or if
    the target was written as that very address, or as [localhost] for a loopback address,
    and the policy lets it through: a name that resolves to a private address when the
    connection is made is refused, whatever it resolved to when it was checked. *)
Theorem rebound_names_are_refused `{MitmHookOps} `{GlobSetOps} `{SocketPathOps} `{UrlHostOps}
    s1 s2 lookup to_string host port addr :
  is_non_public_ip addr = true ->
  may_dial s1 s2 lookup to_string host port addr = true <->
  allow_local_binding (config s1) = true \/
  (host_blocked s2 lookup (to_string host) port = Allowed /\
   match host with
   | HostAddress ip => ip = addr
   | HostName name => is_localhost_name name = true /\ ip_is_loopback addr = true
   end).
Proof.
  intros Hn. unfold may_dial, allows_non_public_target, target_matches_non_public_addr. rewrite Hn. simpl.
  rewrite negb_involutive. destruct (allow_local_binding (config s1)); [naive_solver|].
  destruct host as [ip|name]; simpl.
  - destruct (decide (ip = addr)) as [->|Hne]; [rewrite bool_decide_true by done|rewrite bool_decide_false by done]; simpl;
      rewrite ?bool_decide_eq_true; naive_solver.
  - rewrite <- andb_true_iff. destruct (is_localhost_name name && ip_is_loopback addr); simpl; rewrite ?bool_decide_eq_true; naive_solver.
Qed.

Lemma rebound_names_are_refused_witness :
  exists s, build_config_state (sample_config [lit "example.com"] []) constraints_default = Ok s /\
    may_dial s s (fun _ _ => Some []) (fun _ => lit "example.com") (HostName (lit "example.com")) 443 (V4 (mkIpv4 10 0 0 1)) <> true.
Proof.
  destruct (build_config_state (sample_config [lit "example.com"] []) constraints_default) as [s|?|] eqn:E;
    [|vm_compute in E; discriminate..].
  exists s. split; [done|].
  rewrite (rebound_names_are_refused s s (fun _ _ => Some []) (fun _ => lit "example.com")
             (HostName (lit "example.com")) 443 (V4 (mkIpv4 10 0 0 1))).
  - vm_compute in E. injection E as <-. intros [?|(_ & ? & _)]; discriminate.
  - vm_compute. reflexivity.
Defined.

(** ** Many tasks *)

(** [CredentialBroker::new] and [configure], as when a proxy state is made. *)
Definition new_world `{MitmHookOps} `{GlobSetOps} (s : ConfigState) (observed : bool) : World :=
  mkWorld s (configure (config s) (broker_new (credential_broker (config s)))) observed [].

(** C23: whatever operations tasks run on a proxy (decisions on hosts, blocked requests, changes of
    lists, mode, state and observer, reloads, and the replacement of the credentials of a child)
    and in whatever order their steps come, at every moment the lists the proxy decides with are
    those compiled from its configuration, the configuration is within the constraints of the
    administrator, the buffer of blocked requests holds at most two hundred and its counter fits
    its width, and the dummies of the broker are pairwise distinct and none is the value it
    stands for; given only that the states handed in from outside are so.  [Q] is anything that
    is known of their constraints, and stays true. *)
Theorem running_proxy_invariant `{MitmHookOps} `{GlobSetOps} `{SocketPathOps} `{UrlHostOps} `{UrlOps} `{HeaderOps} `{MarkerOps}
    Q s observed ops ts w :
  good Q s -> Forall (op_ok Q) ops ->
  rtc (sys_step (good Q)) (Start <$> ops, new_world s observed) (ts, w) ->
  compiled (shared w) /\ Q (constraints (shared w)) /\
  validate_policy_against_constraints (config (shared w)) (constraints (shared w)) = Ok tt /\
  length (blocked (shared w)) <= MAX_BLOCKED_EVENTS /\ (blocked_total (shared w) <= u64_max)%N /\
  broker_ok (world_broker w).
Proof.
  intros Hs Hops Hr. destruct (reachable_ok Q _ _ Hr) as [_ [[[] Hq] Hb]].
  - split; [|split]; simpl.
    + by apply Forall_fmap.
    + done.
    + apply configure_ok, broker_new_ok.
  - rewrite validate_within. done.
Qed.

(** The tasks of a system, taken one step each in the order of a schedule. *)
Fixpoint run_schedule `{MitmHookOps} `{GlobSetOps} `{SocketPathOps} `{UrlHostOps} `{UrlOps} `{HeaderOps} `{MarkerOps} (inp : Inputs) (schedule : list nat) (sys : system) : system :=
  match schedule with
  | [] => sys
  | i :: rest =>
      run_schedule inp rest
        (match fst sys !! i with
         | Some t => let '(t', w') := task_step inp t (snd sys) in (<[i := t']> (fst sys), w')
         | None => sys
         end)
  end.

Lemma run_schedule_reachable `{MitmHookOps} `{GlobSetOps} `{SocketPathOps} `{UrlHostOps} `{UrlOps} `{HeaderOps} `{MarkerOps} P inp schedule sys :
  inputs_ok P inp -> rtc (sys_step P) sys (run_schedule inp schedule sys).
Proof.
  intros Hin. revert sys. induction schedule as [|i rest IH]; intros [ts w]; simpl; [done|].
  destruct (ts !! i) as [t|] eqn:Ei; [|apply IH]. destruct (task_step inp t w) as [t' w'] eqn:Et.
  eapply rtc_l; [by eapply sys_step_task|apply IH].
Qed.

Definition sample_entry (host : str) : BlockedRequest :=
  mkBlockedRequest host REASON_NOT_ALLOWED None None None (lit "http") None None None None 0.

Lemma idle_inputs_ok (P : ConfigState -> Prop) : inputs_ok P idle_inputs.
Proof. split; intros s Hs; discriminate. Qed.

Lemma sample_state_ok allowed denied s :
  validate_policy_against_constraints (sample_config allowed denied) constraints_default = Ok tt ->
  build_config_state (sample_config allowed denied) constraints_default = Ok s -> state_ok s.
Proof. apply build_ok. Qed.

(** A child whose environment has a token and a key, next to an update and a recording. *)
Definition sample_ops : list Op :=
  [OpUpdateDomainList (lit "b.com") ListAllow; OpRecordBlocked None (sample_entry (lit "c.com"));
   OpVirtualizeChildCredentials {[lit "GH_TOKEN" := lit "ghp_0123456789"; lit "OPENAI_API_KEY" := lit "sk-0123456789"]}].

Lemma running_proxy_invariant_witness :
  exists s ts w, state_ok s /\
    rtc (sys_step (good (fun _ => True))) (Start <$> sample_ops, new_world s true) (ts, w) /\
    length (credentials (world_broker w)) = 2 /\ compiled (shared w) /\ NoDup (dummy <$> credentials (world_broker w)).
Proof.
  set (cfg := set_credential_broker_enabled true (sample_config [lit "a.com"] [])).
  destruct (build_config_state cfg constraints_default) as [s|?|] eqn:E; [|vm_compute in E; discriminate..].
  assert (state_ok s) as Hs by (eapply build_ok; [|exact E]; vm_compute; reflexivity).
  destruct (run_schedule idle_inputs [0; 1; 2; 0; 1; 2; 1; 0] (Start <$> sample_ops, new_world s true)) as [ts w] eqn:Er.
  assert (rtc (sys_step (good (fun _ => True))) (Start <$> sample_ops, new_world s true) (ts, w)) as Hr
    by (rewrite <- Er; apply run_schedule_reachable, idle_inputs_ok).
  exists s, ts, w. split; [exact Hs|]. split; [exact Hr|]. split.
  - clear Hs Hr. vm_compute in E. injection E as <-. vm_compute in Er. injection Er as _ <-. reflexivity.
  - destruct (running_proxy_invariant (fun _ => True) s true sample_ops ts w) as (Hc & _ & _ & _ & _ & Hb).
    + split; [exact Hs|exact I].
    + repeat constructor.
    + exact Hr.
    + split; [exact Hc|exact (bo_dummies _ Hb)].
Defined.

(** *** Recording blocked requests *)

Fixpoint record_all `{MitmHookOps} `{GlobSetOps} (entries : list BlockedRequest) (s : ConfigState) : ConfigState :=
  match entries with
  | [] => s
  | e :: rest => record_all rest (push_blocked e s)
  end.

(** Recording requests one after the other leaves the last two hundred of them in the
    buffer, oldest first, and counts all of them up to the greatest value of the counter. *)
Theorem buffer_keeps_latest `{MitmHookOps} `{GlobSetOps} entries s :
  length (blocked s) <= MAX_BLOCKED_EVENTS ->
  let all := blocked s ++ entries in
  blocked (record_all entries s) = drop (length all - MAX_BLOCKED_EVENTS) all /\
  ((blocked_total s <= u64_max)%N ->
   blocked_total (record_all entries s) = N.min (blocked_total s + N.of_nat (length entries)) u64_max) /\
  config (record_all entries s) = config s.
Proof.
  revert s. induction entries as [|e entries IH]; intros s Hlen; simpl.
  - rewrite app_nil_r. replace (length (blocked s) - MAX_BLOCKED_EVENTS) with 0 by lia. rewrite drop_0.
    split_and!; [done| |done]. intros Ht. lia.
  - destruct (IH (push_blocked e s)) as (Hb & Ht & Hc).
    { simpl. rewrite length_drop. lia. }
    split_and!.
    + rewrite Hb. simpl. set (k := length (blocked s ++ [e]) - MAX_BLOCKED_EVENTS).
      assert (k <= length (blocked s ++ [e])) as Hk by (unfold k; lia).
      rewrite <- drop_app_le, drop_drop by done. rewrite length_drop, <- app_assoc. simpl. f_equal.
      unfold k. rewrite !length_app in *. simpl. lia.
    + intros Hle. rewrite Ht by (simpl; unfold saturating_add; lia). simpl. unfold saturating_add. lia.
    + by rewrite Hc.
Qed.

Lemma buffer_keeps_latest_witness :
  exists s, build_config_state (sample_config [] []) constraints_default = Ok s /\
    blocked (record_all (sample_entry <$> [lit "a"; lit "b"]) s) = sample_entry <$> [lit "a"; lit "b"].
Proof.
  destruct (build_config_state (sample_config [] []) constraints_default) as [s|?|] eqn:E; [|vm_compute in E; discriminate..].
  exists s. split; [done|]. pose proof (build_config_state_spec _ _ _ E) as (_ & _ & _ & Hb & _).
  destruct (buffer_keeps_latest (sample_entry <$> [lit "a"; lit "b"]) s) as [Hbuf _].
  - rewrite Hb. vm_compute. lia.
  - rewrite Hbuf, Hb. vm_compute. reflexivity.
Defined.

(** *** Operations end *)

Section solo.
Context `{MitmHookOps} `{GlobSetOps} `{SocketPathOps} `{UrlHostOps} `{UrlOps} `{HeaderOps} `{MarkerOps}.

(** A task that runs alone for [n] steps. *)
Fixpoint solo (n : nat) (inp : Inputs) (tw : Task * World) : Task * World :=
  match n with 0 => tw | S n => solo n inp (task_step inp (fst tw) (snd tw)) end.

Definition ends_within (n : nat) (inp : Inputs) (tw : Task * World) : Prop := exists o w, solo n inp tw = (Finished o, w).

Lemma solo_finished n inp o w : solo n inp (Finished o, w) = (Finished o, w).
Proof. by induction n. Qed.

Lemma ends_now n inp o w : ends_within n inp (Finished o, w).
Proof. exists o, w. apply solo_finished. Qed.

Lemma ends_step n inp t w : ends_within n inp (task_step inp t w) -> ends_within (S n) inp (t, w).
Proof. done. Qed.

Lemma ends_mono n m inp tw : n <= m -> ends_within n inp tw -> ends_within m inp tw.
Proof.
  revert m tw. induction n as [|n IH]; intros m tw Hle; simpl.
  - intros (o & w & Hs). simpl in Hs. subst tw. apply ends_now.
  - destruct m as [|m]; [lia|]. apply (IH m). lia.
Qed.

Ltac by_ends := repeat first [apply ends_now | apply ends_step; simpl].

(** The broker draws until a dummy is fresh, for which there is no bound. *)
Definition op_brokers (op : Op) : bool := match op with OpVirtualizeChildCredentials _ => true | _ => false end.
Definition task_brokers (t : Task) : bool :=
  match t with Start op | ReloadRead op _ | ReloadWrite op _ | Reloaded op => op_brokers op | _ => false end.

Lemma body_ends inp op w : op_brokers op = false -> ends_within 3 inp (Reloaded op, w).
Proof.
  intros Hop. apply ends_step. destruct op; simpl; try done; try by by_ends.
  - apply ends_step. simpl. destruct (observer w); by by_ends.
  - destruct (validate_policy_against_constraints _ _) as [[]|?|]; [|apply ends_now..].
    apply ends_step. simpl. rewrite bool_decide_true by done. apply ends_now.
  - destruct (Host_parse host); [|apply ends_now].
    destruct (prepare_update _ _ _) as [[new|]|?|]; [|apply ends_now..].
    apply ends_step. simpl. rewrite !bool_decide_true by done. apply ends_now.
  - destruct (reload_now inp); by by_ends.
Qed.

Lemma start_ends inp op w : op_brokers op = false -> ends_within 6 inp (Start op, w).
Proof.
  intros Hop. apply ends_step. simpl. destruct (bad_host op); [apply ends_now|].
  destruct (reloads_first op); [|by apply (ends_mono 3), body_ends; [lia|]].
  destruct (maybe_reload inp) as [[new|]|?|]; [|by apply (ends_mono 3), body_ends; [lia|]|apply ends_now..].
  by apply ends_step, ends_step, body_ends.
Qed.

Lemma task_ends inp t w : task_brokers t = false -> ends_within 7 inp (t, w).
Proof.
  intros Ht. destruct t; simpl in Ht.
  - apply (ends_mono 6); [lia|]. by apply start_ends.
  - apply (ends_mono 5); [lia|]. by apply ends_step, ends_step, body_ends.
  - apply (ends_mono 4); [lia|]. by apply ends_step, body_ends.
  - apply (ends_mono 3); [lia|]. by apply body_ends.
  - apply ends_step. simpl. destruct observed; by by_ends.
  - by by_ends.
  - by by_ends.
  - apply ends_step. simpl. case_bool_decide; [apply ends_now|by apply start_ends].
  - apply ends_step. simpl. destruct (bool_decide _ && bool_decide _); [apply ends_now|by apply start_ends].
  - by by_ends.
  - by by_ends.
  - by by_ends.
Qed.

End solo.

(** An operation that has the proxy to itself for seven steps ends, wherever in it the
    task stands and however stale what it has read, unless it draws dummies: the retries of an update and of a
    change of mode happen only because another task has been at work in between. *)
Theorem operations_end_alone `{MitmHookOps} `{GlobSetOps} `{SocketPathOps} `{UrlHostOps} `{UrlOps} `{HeaderOps} `{MarkerOps} inp t w :
  task_brokers t = false -> exists o w', solo 7 inp (t, w) = (Finished o, w').
Proof. apply task_ends. Qed.

(** *** Updates *)

Section updates.
Context `{MitmHookOps} `{GlobSetOps} `{SocketPathOps} `{UrlHostOps}.

Lemma list_entries_spec k c p : p ∈ list_entries k c <-> entry_max (entries_of c) p (list_permission k).
Proof. destruct k; apply elem_of_domain_entries. Qed.

Definition opposite_permission (k : DomainListKind) : NetworkDomainPermission :=
  match k with ListAllow => PermDeny | ListDeny => PermAllow end.

Lemma list_opposite_entries_spec k c p : p ∈ list_opposite_entries k c <-> entry_max (entries_of c) p (opposite_permission k).
Proof. destruct k; apply elem_of_domain_entries. Qed.

(** What an update installs is the configuration with the host upserted. *)
Lemma prepare_update_config h target s new_state :
  state_ok s -> prepare_update h target s = Ok (Some new_state) ->
  config new_state = upsert_domain_permission h (list_permission target) normalize_host (config s) /\
  constraints new_state = constraints s /\ blocked new_state = blocked s /\ blocked_total new_state = blocked_total s.
Proof.
  intros Hs Hp. unfold prepare_update in Hp. case_match; [done|].
  destruct (validate_policy_against_constraints _ _) as [[]|?|] eqn:Ev; simpl in Hp; [|done..].
  destruct (build_config_state _ _) as [s'|?|] eqn:Eb; simpl in Hp; [|done..]. injection Hp as <-.
  apply build_config_state_spec in Eb as (Hc & Hcs & _). simpl. split_and!; [|done..].
  rewrite Hc, brokered_again; [done|by apply validate_within|]. apply (cs_enabled _ (so_compiled _ Hs)).
Qed.

Lemma prepare_update_none h target s :
  prepare_update h target s = Ok None ->
  (exists p, p ∈ list_entries target (config s) /\ normalize_host p = h) /\
  (forall p, p ∈ list_opposite_entries target (config s) -> normalize_host p <> h).
Proof.
  unfold prepare_update. destruct (existsb _ _ && negb _) eqn:Ec.
  - intros _. apply andb_true_iff in Ec as [Ht Ho]. apply existsb_exists in Ht as (p & Hp%list_elem_of_In & Hn). to_prop.
    split; [by exists p|]. intros q Hq Hn'. assert (existsb (fun entry => str_eqb (normalize_host entry) h)
      (list_opposite_entries target (config s)) = true) as Hx; [|congruence].
    apply existsb_exists. exists q. split; [by apply list_elem_of_In|]. by apply bool_decide_eq_true.
  - destruct (validate_policy_against_constraints _ _) as [[]|?|]; [|done..]. by destruct (build_config_state _ _).
Qed.

End updates.

(** An update of a list that has the proxy to itself and ends well leaves the host on the
    list it was meant for and off the other one; hosts with another normal form are where
    they were, and so are the blocked requests. *)
Theorem update_takes_effect `{MitmHookOps} `{GlobSetOps} `{SocketPathOps} `{UrlHostOps} `{UrlOps} `{HeaderOps} `{MarkerOps} inp host target h w w' :
  maybe_reload inp = Ok None -> Host_parse host = Some h -> normalize_host h = h -> state_ok (shared w) ->
  solo 3 inp (Start (OpUpdateDomainList host target), w) = (Finished Done, w') ->
  let c := config (shared w) in
  let c' := config (shared w') in
  (exists p, p ∈ list_entries target c' /\ normalize_host p = h) /\
  (forall p, p ∈ list_opposite_entries target c' -> normalize_host p <> h) /\
  (forall p k, normalize_host p <> h -> p ∈ list_entries k c' <-> p ∈ list_entries k c) /\
  blocked (shared w') = blocked (shared w).
Proof.
  intros Hin Hparse Hnorm Hs Hsolo. cbn [solo task_step fst snd] in Hsolo. unfold bad_host in Hsolo. rewrite Hparse in Hsolo.
  cbn [is_some negb reloads_first reload_if_needed_call] in Hsolo. rewrite Hin in Hsolo.
  cbn [task_step body_step fst snd update_domain_list_read] in Hsolo. rewrite Hparse in Hsolo.
  destruct (prepare_update h target (shared w)) as [[new|]|?|] eqn:Ep; cbn in Hsolo; [| |by simplify_eq..].
  - unfold update_domain_list_write in Hsolo. rewrite !bool_decide_true in Hsolo by done. cbn in Hsolo. injection Hsolo as <-.
    apply prepare_update_config in Ep as (Hc & _ & Hb & _); [|done]. simpl. rewrite Hc, Hb.
    setoid_rewrite list_opposite_entries_spec. setoid_rewrite list_entries_spec.
    setoid_rewrite upsert_domain_permission_spec. rewrite Hnorm. split_and!.
    + exists h. split; [by left|done].
    + intros p [[_ Hx]|[Hn _]]; [by destruct target|done].
    + intros p k Hn. split; [|by right]. intros [[-> _]|[_ ?]]; done.
    + done.
  - injection Hsolo as <-. apply prepare_update_none in Ep as [Ht Ho]. by split_and!.
Qed.

Lemma update_takes_effect_witness :
  exists s w', state_ok s /\
    solo 3 idle_inputs (Start (OpUpdateDomainList (lit "B.com.") ListDeny), new_world s false) = (Finished Done, w') /\
    (forall p, p ∈ default [] (allowed_domains (config (shared w'))) -> normalize_host p <> lit "b.com").
Proof.
  destruct (build_config_state (sample_config [lit "b.com"] []) constraints_default) as [s|?|] eqn:E;
    [|vm_compute in E; discriminate..].
  assert (state_ok s) as Hs by (eapply sample_state_ok; [|exact E]; vm_compute; reflexivity).
  destruct (solo 3 idle_inputs (Start (OpUpdateDomainList (lit "B.com.") ListDeny), new_world s false)) as [t w'] eqn:Er.
  assert (t = Finished Done) as -> by (clear Hs; vm_compute in E; injection E as <-; vm_compute in Er; injection Er as <- _; reflexivity).
  exists s, w'. split_and!; [exact Hs|exact Er|].
  apply (update_takes_effect idle_inputs (lit "B.com.") ListDeny (lit "b.com") (new_world s false) w').
  - reflexivity.
  - vm_compute. reflexivity.
  - vm_compute. reflexivity.
  - exact Hs.
  - exact Er.
Defined.

(** The check of a configuration against the constraints of an administrator accepts
    exactly the configurations within them. *)
Theorem constraints_check_exact `{MitmHookOps} `{UrlHostOps} cfg cs :
  validate_policy_against_constraints cfg cs = Ok tt <-> within_constraints cfg cs.
Proof. apply validate_within. Qed.

(** *** A request that is recorded and forgotten *)

(** An update that has read the state puts back the buffer it read.  There is a run of an
    update and a recording, with nothing reloaded and nothing drained, in which both end well,
    the observer has been told of the request, and neither the buffer nor the counter of the
    proxy knows of it. *)
Theorem update_loses_blocked_request :
  exists s ts w, state_ok s /\
    rtc (sys_step state_ok)
      ([Start (OpUpdateDomainList (lit "b.com") ListAllow); Start (OpRecordBlocked None (sample_entry (lit "c.com")))], new_world s true)
      (ts, w) /\
    ts = [Finished Done; Finished Done] /\
    notified w = [sample_entry (lit "c.com")] /\ blocked (shared w) = [] /\ blocked_total (shared w) = 0%N.
Proof.
  destruct (build_config_state (sample_config [lit "a.com"] []) constraints_default) as [s|?|] eqn:E;
    [|vm_compute in E; discriminate..].
  assert (state_ok s) as Hs by (eapply sample_state_ok; [|exact E]; vm_compute; reflexivity).
  pose proof (run_schedule_reachable state_ok idle_inputs [0; 0; 1; 1; 1; 1; 0]
    ([Start (OpUpdateDomainList (lit "b.com") ListAllow); Start (OpRecordBlocked None (sample_entry (lit "c.com")))], new_world s true)
    (idle_inputs_ok _)) as Hr.
  exists s. eexists _, _. split; [exact Hs|]. split.
  - rewrite (surjective_pairing (run_schedule _ _ _)) in Hr. exact Hr.
  - clear Hr Hs. vm_compute in E. injection E as <-. vm_compute. done.
Qed.

(** A forced reload keeps the buffer of blocked requests and forgets how many there
    were: after it the counter may be smaller than the buffer. *)
Theorem forced_reload_resets_counter :
  exists s new w, state_ok s /\ state_ok new /\
    solo 3 (mkInputs (Ok None) (Ok new) (fun _ _ => None) 0 (fun _ => 0)) (Start OpForceReload, mkWorld s (broker_new false) false []) =
      (Finished Done, w) /\
    blocked (shared w) = blocked s /\ (blocked_total (shared w) < N.of_nat (length (blocked (shared w))))%N.
Proof.
  destruct (build_config_state (sample_config [lit "a.com"] []) constraints_default) as [s|?|] eqn:E;
    [|vm_compute in E; discriminate..].
  assert (state_ok s) as Hs by (eapply sample_state_ok; [|exact E]; vm_compute; reflexivity).
  exists (push_blocked (sample_entry (lit "c.com")) s), s. eexists. split; [by apply push_blocked_ok|]. split; [exact Hs|].
  clear Hs. vm_compute in E. injection E as <-. split; [vm_compute; reflexivity|]. split; vm_compute; reflexivity.
Qed.
