(* ===== verification/NetSpec.v ===== *)
(** * Managed requirements on the network proxy

    Models [core/src/config/network_proxy_spec.rs] with the requirement types it reads from
    [config/src/config_requirements.rs], and [network-proxy/src/remote_config.rs]: how the
    requirements of an administrator are applied to a user's configuration, how rules of the
    exec policy are added, which states the proxy is started and reloaded with, and what is
    sent to a remote executor. *)

From stdpp Require Import base list strings gmap relations.
From Stdlib Require Import NArith.
From S2P Require Import Prelude ExecPolicy NetAddr NetPolicy NetConfig NetState CredBroker NetRuntime NetSafety.

(** ** Requirements *)

Inductive NetworkDomainPermissionToml := TomlAllow | TomlDeny.
#[export] Instance NetworkDomainPermissionToml_eq_dec : EqDecision NetworkDomainPermissionToml.
Proof. solve_decision. Defined.

Abbreviation NetworkDomainPermissionsToml := (gmap str NetworkDomainPermissionToml).
Abbreviation NetworkUnixSocketPermissionsToml := (gmap str NetworkDomainPermissionToml).

(** The keys with a permission, in the order of a [BTreeMap]. *)
Definition keys_with (perm : NetworkDomainPermissionToml) (m : gmap str NetworkDomainPermissionToml) : list str :=
  sort_by str_leb (fst <$> filter (fun e => snd e = perm) (map_to_list m)).

Definition toml_allowed_domains (m : NetworkDomainPermissionsToml) : option (list str) := then_some (keys_with TomlAllow m).
Definition toml_denied_domains (m : NetworkDomainPermissionsToml) : option (list str) := then_some (keys_with TomlDeny m).
Definition toml_allow_unix_sockets (m : NetworkUnixSocketPermissionsToml) : list str := keys_with TomlAllow m.

(** The two legacy lists: a pattern on both is denied. *)
Definition legacy_domain_permissions_from_lists (allowed denied : option (list str)) : option NetworkDomainPermissionsToml :=
  let entries := foldl (fun m p => <[p := TomlAllow]> m) (∅ : gmap str NetworkDomainPermissionToml) (default [] allowed) in
  let entries := foldl (fun m p => <[p := TomlDeny]> m) entries (default [] denied) in
  if decide (entries = ∅) then None else Some entries.

Definition legacy_unix_socket_permissions_from_list (sockets : option (list str)) : option NetworkUnixSocketPermissionsToml :=
  let entries := foldl (fun m p => <[p := TomlAllow]> m) (∅ : gmap str NetworkDomainPermissionToml) (default [] sockets) in
  if decide (entries = ∅) then None else Some entries.

(** [NetworkConstraints], the fields of [NetworkRequirementsToml]. *)
Record NetworkConstraints := mkNetworkConstraints {
  nc_enabled : option bool;
  nc_http_port : option N;
  nc_socks_port : option N;
  nc_allow_upstream_proxy : option bool;
  nc_dangerously_allow_non_loopback_proxy : option bool;
  nc_dangerously_allow_all_unix_sockets : option bool;
  nc_domains : option NetworkDomainPermissionsToml;
  nc_managed_allowed_domains_only : option bool;
  nc_unix_sockets : option NetworkUnixSocketPermissionsToml;
  nc_allow_local_binding : option bool;
}.

Inductive RequirementsError := DomainsWithLegacyLists | SocketsWithLegacyList.

(** [Deserialize for NetworkRequirementsToml], on the raw fields. *)
Definition requirements_of_raw (base : NetworkConstraints) (allowed_domains denied_domains allow_unix_sockets : option (list str)) :
    result NetworkConstraints RequirementsError :=
  if is_some (nc_domains base) && (is_some allowed_domains || is_some denied_domains) then Err DomainsWithLegacyLists
  else if is_some (nc_unix_sockets base) && is_some allow_unix_sockets then Err SocketsWithLegacyList
  else Ok (mkNetworkConstraints (nc_enabled base) (nc_http_port base) (nc_socks_port base) (nc_allow_upstream_proxy base)
             (nc_dangerously_allow_non_loopback_proxy base) (nc_dangerously_allow_all_unix_sockets base)
             (match nc_domains base with
              | Some d => Some d
              | None => legacy_domain_permissions_from_lists allowed_domains denied_domains
              end)
             (nc_managed_allowed_domains_only base)
             (match nc_unix_sockets base with
              | Some u => Some u
              | None => legacy_unix_socket_permissions_from_list allow_unix_sockets
              end)
             (nc_allow_local_binding base)).

(** [PermissionProfile], of which only the variant counts here. *)
Inductive PermissionProfile := ProfileManaged | ProfileDisabled | ProfileExternal.

Definition managed_sandbox_active (p : PermissionProfile) : bool :=
  match p with ProfileManaged => true | _ => false end.
Definition allowlist_expansion_enabled (p : PermissionProfile) (hard_deny_allowlist_misses : bool) : bool :=
  managed_sandbox_active p && negb hard_deny_allowlist_misses.
Definition denylist_expansion_enabled (p : PermissionProfile) : bool := managed_sandbox_active p.
Definition managed_allowed_domains_only (r : NetworkConstraints) : bool := default false (nc_managed_allowed_domains_only r).

Fixpoint merge_domain_lists (managed user_entries : list str) : list str :=
  match user_entries with
  | [] => managed
  | entry :: rest =>
      merge_domain_lists (if existsb (fun m => eq_ignore_ascii_case m entry) managed then managed else managed ++ [entry]) rest
  end.

(** Assign when a requirement is given. *)
Definition apply_if {A C} (o : option A) (set : A -> C -> C) (c : C) : C :=
  match o with Some a => set a c | None => c end.

Section spec.
Context `{MitmHookOps} `{UrlHostOps}.

Definition managed_allowed (r : NetworkConstraints) (hard_deny : bool) : option (list str) :=
  let listed := nc_domains r ≫= toml_allowed_domains in
  if hard_deny then Some (default [] listed) else listed.

Definition apply_requirements (config : NetworkProxyConfig) (r : NetworkConstraints) (profile : PermissionProfile)
    (hard_deny_allowlist_misses : bool) : NetworkProxyConfig * NetworkProxyConstraints :=
  let allowlist_expansion := allowlist_expansion_enabled profile hard_deny_allowlist_misses in
  let denylist_expansion := denylist_expansion_enabled profile in
  let config := apply_if (nc_enabled r) set_enabled config in
  let config := apply_if (nc_http_port r) (fun port => set_proxy_url (lit "http://127.0.0.1:" ++ decimal port)) config in
  let config := apply_if (nc_socks_port r) (fun port => set_socks_url (lit "http://127.0.0.1:" ++ decimal port)) config in
  let config := apply_if (nc_allow_upstream_proxy r) set_allow_upstream_proxy config in
  let config := apply_if (nc_dangerously_allow_non_loopback_proxy r) set_non_loopback_proxy config in
  let config := apply_if (nc_dangerously_allow_all_unix_sockets r) set_all_unix_sockets config in
  let managed_allowed_domains := managed_allowed r hard_deny_allowlist_misses in
  let config := apply_if managed_allowed_domains (fun managed config =>
    set_allowed_domains
      (if allowlist_expansion then merge_domain_lists managed (default [] (allowed_domains config)) else managed) config) config in
  let managed_denied_domains := nc_domains r ≫= toml_denied_domains in
  let config := apply_if managed_denied_domains (fun managed config =>
    set_denied_domains
      (if denylist_expansion then merge_domain_lists managed (default [] (denied_domains config)) else managed) config) config in
  let allow_unix_sockets := toml_allow_unix_sockets <$> nc_unix_sockets r in
  let config := apply_if allow_unix_sockets set_allow_unix_sockets config in
  let config := apply_if (nc_allow_local_binding r) set_allow_local_binding config in
  (config,
   mkConstraints (nc_enabled r) None (nc_allow_upstream_proxy r) (nc_dangerously_allow_non_loopback_proxy r)
     (nc_dangerously_allow_all_unix_sockets r) managed_allowed_domains
     ((fun _ => allowlist_expansion) <$> managed_allowed_domains) managed_denied_domains
     ((fun _ => denylist_expansion) <$> managed_denied_domains) allow_unix_sockets (nc_allow_local_binding r)).

Record NetworkProxySpec := mkSpec {
  base_config : NetworkProxyConfig;
  requirements : option NetworkConstraints;
  spec_config : NetworkProxyConfig;
  spec_constraints : NetworkProxyConstraints;
  hard_deny_allowlist_misses : bool;
}.

Definition from_config_and_constraints (config : NetworkProxyConfig) (reqs : option NetworkConstraints) (profile : PermissionProfile) :
    result NetworkProxySpec NetworkProxyConstraintError :=
  let hard_deny := is_some_and reqs managed_allowed_domains_only in
  let '(cfg, cs) :=
    match reqs with
    | Some r => apply_requirements config r profile hard_deny
    | None => (config, constraints_default)
    end in
  let? _ := validate_policy_against_constraints cfg cs in
  Ok (mkSpec config reqs cfg cs hard_deny).

Definition recompute_for_permission_profile (spec : NetworkProxySpec) (profile : PermissionProfile) :
    result NetworkProxySpec NetworkProxyConstraintError :=
  from_config_and_constraints (base_config spec) (requirements spec) profile.

Fixpoint upsert_hosts (incoming : gset str) (hosts : list str) (allow : bool) (config : NetworkProxyConfig) : NetworkProxyConfig :=
  match hosts with
  | [] => config
  | host :: rest =>
      if decide (host ∈ incoming) then upsert_hosts incoming rest allow config
      else upsert_hosts ({[host]} ∪ incoming) rest allow
             (upsert_domain_permission host (if allow then PermAllow else PermDeny) normalize_host config)
  end.

Definition upsert_network_domains (config : NetworkProxyConfig) (hosts : list str) (allow : bool) : NetworkProxyConfig :=
  upsert_hosts ∅ hosts allow config.

Definition apply_exec_policy_network_rules (config : NetworkProxyConfig) (exec_policy : Policy) : NetworkProxyConfig :=
  let '(allowed, denied) := compiled_network_domains exec_policy in
  upsert_network_domains (upsert_network_domains config allowed true) denied false.

Definition with_exec_policy_network_rules (spec : NetworkProxySpec) (exec_policy : Policy) :
    result NetworkProxySpec NetworkProxyConstraintError :=
  let cfg := apply_exec_policy_network_rules (spec_config spec) exec_policy in
  let? _ := validate_policy_against_constraints cfg (spec_constraints spec) in
  Ok (mkSpec (base_config spec) (requirements spec) cfg (spec_constraints spec) (hard_deny_allowlist_misses spec)).

(** The decider [start_proxy] installs. *)
Definition choose_decider (spec : NetworkProxySpec) (profile : PermissionProfile)
    (policy_decider : option (NetworkPolicyRequest -> NetworkDecision)) (enable_network_approval_flow : bool) :
    option (NetworkPolicyRequest -> NetworkDecision) :=
  if enable_network_approval_flow && negb (hard_deny_allowlist_misses spec) then
    match policy_decider with
    | Some d => Some d
    | None => if managed_sandbox_active profile then Some (fun _ => ask_with_source (lit "not_allowed") Decider) else None
    end
  else None.

Definition build_config_state_for_spec `{GlobSetOps} `{SocketPathOps} (spec : NetworkProxySpec) : result ConfigState BuildError :=
  build_config_state (spec_config spec) (spec_constraints spec).

(** [StaticNetworkProxyReloader]: nothing to reload, and its own state when forced. *)
Definition static_reloader `{GlobSetOps} (state : ConfigState) (lookup : resolver) (draws : nat) (random : nat -> nat) : Inputs :=
  mkInputs (Ok None) (Ok state) lookup draws random.

(** ** Remote executors *)

Record RemoteNetworkProxyConfig := mkRemote {
  remote_enabled : bool; remote_enable_socks5 : bool; remote_enable_socks5_udp : bool; remote_allow_upstream_proxy : bool;
  remote_dangerously_allow_all_unix_sockets : bool; remote_mode : NetworkMode; remote_domains : option NetworkDomainPermissions;
  remote_unix_sockets : option (gmap str NetworkUnixSocketPermission); remote_allow_local_binding : bool }.

Definition from_effective_config (config : NetworkProxyConfig) : option RemoteNetworkProxyConfig :=
  if negb (enabled config) ||
     (negb (mitm config) && negb (credential_broker config) &&
      negb (dangerously_allow_plaintext_credential_injection config) && is_empty (mitm_hooks config))
  then Some (mkRemote (enabled config) (enable_socks5 config) (enable_socks5_udp config) (allow_upstream_proxy config)
               (dangerously_allow_all_unix_sockets config) (mode config) (domains config) (unix_sockets config)
               (allow_local_binding config))
  else None.

Definition into_network_proxy_config (r : RemoteNetworkProxyConfig) : NetworkProxyConfig :=
  mkNetworkProxyConfig (remote_enabled r) default_proxy_url (remote_enable_socks5 r) default_socks_url
    (remote_enable_socks5_udp r) (remote_allow_upstream_proxy r) false (remote_dangerously_allow_all_unix_sockets r)
    (remote_mode r) (remote_domains r) (remote_unix_sockets r) (remote_allow_local_binding r) false false None false [].

(** [from_remote_launch_config], up to the labels of the handle. *)
Definition from_remote_launch_config `{GlobSetOps} `{SocketPathOps} (proxy : RemoteNetworkProxyConfig) :
    option (result ConfigState BuildError) :=
  if remote_enabled proxy then Some (build_config_state (into_network_proxy_config proxy) constraints_default) else None.

End spec.

(** ** What the requirements come to *)

Lemma apply_if_same {A C B} (f : C -> B) (o : option A) (set : A -> C -> C) c :
  (forall a c, f (set a c) = f c) -> f (apply_if o set c) = f c.
Proof. intros Hs. destruct o; simpl; [apply Hs|done]. Qed.

Lemma apply_if_field {A C} (f : C -> A) (o : option A) (set : A -> C -> C) c a :
  (forall a c, f (set a c) = a) -> o = Some a -> f (apply_if o set c) = a.
Proof. intros Hs ->. apply Hs. Qed.

Section requirements.
Context `{MitmHookOps} `{UrlHostOps}.

Lemma entries_of_domains c c' : domains c = domains c' -> entries_of c = entries_of c'.
Proof. unfold entries_of. by intros ->. Qed.

Lemma domain_entries_same c c' perm : domains c = domains c' -> domain_entries c perm = domain_entries c' perm.
Proof. unfold domain_entries. by intros ->. Qed.

Lemma merge_domain_lists_managed managed user p : p ∈ managed -> p ∈ merge_domain_lists managed user.
Proof.
  revert managed. induction user as [|e user IH]; intros managed Hp; simpl; [done|]. apply IH.
  case_match; [done|]. apply elem_of_app. by left.
Qed.

Lemma merge_domain_lists_user managed user p :
  p ∈ user -> exists q, q ∈ merge_domain_lists managed user /\ to_ascii_lowercase q = to_ascii_lowercase p.
Proof.
  revert managed. induction user as [|e user IH]; intros managed Hp; simpl; [by apply not_elem_of_nil in Hp|].
  apply elem_of_cons in Hp as [->|Hp]; [|by apply IH]. destruct (existsb _ managed) eqn:E.
  - apply existsb_exists in E as (q & Hq%list_elem_of_In & Heq). exists q. split; [by apply merge_domain_lists_managed|].
    unfold eq_ignore_ascii_case in Heq. by to_prop.
  - exists e. split; [|done]. apply merge_domain_lists_managed, elem_of_app. right. by apply list_elem_of_singleton.
Qed.

Lemma merge_domain_lists_only managed user p : p ∈ merge_domain_lists managed user -> p ∈ managed \/ p ∈ user.
Proof.
  revert managed. induction user as [|e user IH]; intros managed; simpl; [by left|]. intros [Hp|Hp]%IH.
  - case_match; [by left|]. apply elem_of_app in Hp as [?| ->%list_elem_of_singleton]; [by left|right; by left].
  - right. by right.
Qed.

(** The domain lists of the configuration the requirements give. *)
Lemma apply_requirements_domains config r profile hard_deny :
  let cfg := fst (apply_requirements config r profile hard_deny) in
  let after_allowed :=
    apply_if (managed_allowed r hard_deny) (fun managed config =>
      set_allowed_domains
        (if allowlist_expansion_enabled profile hard_deny then merge_domain_lists managed (default [] (allowed_domains config)) else managed)
        config) config in
  exists c, domains c = domains after_allowed /\
    domains cfg =
    domains (apply_if (nc_domains r ≫= toml_denied_domains) (fun managed config =>
      set_denied_domains
        (if denylist_expansion_enabled profile then merge_domain_lists managed (default [] (denied_domains config)) else managed) config) c).
Proof.
  intros cfg after_allowed. unfold cfg, apply_requirements. cbn [fst].
  match goal with |- context [apply_if (_ ≫= toml_denied_domains) ?set ?c] => exists c end. split.
  - unfold after_allowed. set (c1 := apply_if (nc_dangerously_allow_all_unix_sockets r) _ _).
    assert (domains c1 = domains config) as Hc1 by (unfold c1; by rewrite !(apply_if_same domains)).
    destruct (managed_allowed r hard_deny) as [managed|]; simpl; [|done].
    unfold set_allowed_domains, set_domain_entries, allowed_domains, domain_entries. simpl. by rewrite Hc1.
  - by rewrite !(apply_if_same domains _ set_allow_local_binding), (apply_if_same domains _ set_allow_unix_sockets).
Qed.

Lemma denied_after_requirements config r profile hard_deny managed p :
  nc_domains r ≫= toml_denied_domains = Some managed -> p ∈ managed ->
  p ∈ default [] (denied_domains (fst (apply_requirements config r profile hard_deny))).
Proof.
  intros Hm Hp. destruct (apply_requirements_domains config r profile hard_deny) as (c & _ & Hd). cbn zeta in Hd.
  rewrite Hm in Hd. cbn [apply_if] in Hd. unfold denied_domains. rewrite (domain_entries_same _ _ _ Hd).
  apply set_denied_domains_denied. destruct (denylist_expansion_enabled profile); [by apply merge_domain_lists_managed|done].
Qed.

(** Everything that the administrator lists as allowed is in the allowed list, or denied. *)
Lemma allowed_after_requirements config r profile hard_deny managed p :
  managed_allowed r hard_deny = Some managed -> p ∈ managed ->
  p ∈ default [] (allowed_domains (fst (apply_requirements config r profile hard_deny))) \/
  p ∈ default [] (denied_domains (fst (apply_requirements config r profile hard_deny))).
Proof.
  intros Hm Hp. destruct (apply_requirements_domains config r profile hard_deny) as (c & Hc & Hd). cbn zeta in Hc, Hd.
  rewrite Hm in Hc. cbn [apply_if] in Hc. set (cfg := fst (apply_requirements _ _ _ _)) in *.
  assert (mkDomainEntry p PermAllow ∈ entries_of c) as Hin.
  { rewrite (entries_of_domains _ _ Hc). unfold set_allowed_domains. rewrite entries_of_set_domains. right. split; [|done]. simpl.
    destruct (allowlist_expansion_enabled profile hard_deny); [by apply merge_domain_lists_managed|done]. }
  assert (mkDomainEntry p PermAllow ∈ entries_of cfg) as Hin'.
  { rewrite (entries_of_domains _ _ Hd). destruct (nc_domains r ≫= toml_denied_domains); simpl; [|done].
    unfold set_denied_domains. rewrite entries_of_set_domains. by left. }
  rewrite elem_of_allowed, elem_of_denied. destruct (decide (mkDomainEntry p PermDeny ∈ entries_of cfg)); tauto.
Qed.

(** A specification is within its constraints, and so is every state that is built for it. *)
Lemma from_config_within config reqs profile spec :
  from_config_and_constraints config reqs profile = Ok spec ->
  validate_policy_against_constraints (spec_config spec) (spec_constraints spec) = Ok tt.
Proof.
  unfold from_config_and_constraints. destruct (match reqs with Some r => _ | None => _ end) as [cfg cs].
  destruct (validate_policy_against_constraints cfg cs) as [[]|?|] eqn:Ev; [|done..]. by intros [= <-].
Qed.

Lemma with_rules_within spec policy spec' :
  with_exec_policy_network_rules spec policy = Ok spec' ->
  validate_policy_against_constraints (spec_config spec') (spec_constraints spec') = Ok tt /\
  spec_constraints spec' = spec_constraints spec.
Proof.
  unfold with_exec_policy_network_rules.
  destruct (validate_policy_against_constraints _ _) as [[]|?|] eqn:Ev; [|done..]. by intros [= <-].
Qed.

Lemma spec_state_good `{GlobSetOps} `{SocketPathOps} spec s :
  validate_policy_against_constraints (spec_config spec) (spec_constraints spec) = Ok tt ->
  build_config_state_for_spec spec = Ok s -> good (fun cs => cs = spec_constraints spec) s.
Proof.
  intros Hv Hb. split; [by eapply build_ok|]. by apply build_config_state_spec in Hb as (_ & ? & _).
Qed.

End requirements.

(** ** Properties *)

(** A field that a requirement sets, and nothing after it touches. *)
Ltac required_field f b :=
  unfold apply_requirements; cbn [fst];
  repeat (rewrite (apply_if_same f) by done); apply (apply_if_field f _ _ _ b).

(** The requirements of an administrator prevail.  In the configuration that comes out of
    them, the switches are as required, every domain listed as denied is denied, every domain
    listed as allowed is allowed unless it is denied, and when only the managed domains count,
    or the sandbox is not managed, nothing but those is allowed, up to case. *)
Theorem requirements_prevail `{MitmHookOps} `{UrlHostOps} config r profile spec :
  from_config_and_constraints config (Some r) profile = Ok spec ->
  (forall b, nc_enabled r = Some b -> enabled (spec_config spec) = b) /\
  (forall b, nc_allow_upstream_proxy r = Some b -> allow_upstream_proxy (spec_config spec) = b) /\
  (forall b, nc_allow_local_binding r = Some b -> allow_local_binding (spec_config spec) = b) /\
  (forall b, nc_dangerously_allow_all_unix_sockets r = Some b -> dangerously_allow_all_unix_sockets (spec_config spec) = b) /\
  (forall managed p, nc_domains r ≫= toml_denied_domains = Some managed -> p ∈ managed ->
     p ∈ default [] (denied_domains (spec_config spec))) /\
  (forall managed, managed_allowed r (managed_allowed_domains_only r) = Some managed ->
     (forall p, p ∈ managed ->
        p ∈ default [] (allowed_domains (spec_config spec)) \/ p ∈ default [] (denied_domains (spec_config spec))) /\
     (allowlist_expansion_enabled profile (managed_allowed_domains_only r) = false ->
      forall p, p ∈ default [] (allowed_domains (spec_config spec)) -> names managed p)).
Proof.
  intros Hf. pose proof (from_config_within _ _ _ _ Hf) as Hw%validate_within.
  unfold from_config_and_constraints in Hf. cbn [is_some_and] in Hf.
  destruct (apply_requirements config r profile (managed_allowed_domains_only r)) as [cfg cs] eqn:Ea.
  destruct (validate_policy_against_constraints cfg cs) as [[]|?|]; [|done..]. injection Hf as <-. simpl in Hw |- *.
  assert (cfg = fst (apply_requirements config r profile (managed_allowed_domains_only r))) as -> by (by rewrite Ea).
  assert (cs = snd (apply_requirements config r profile (managed_allowed_domains_only r))) as -> by (by rewrite Ea).
  clear Ea. split_and!.
  - intros b Hb. by required_field (@enabled _) b.
  - intros b Hb. by required_field (@allow_upstream_proxy _) b.
  - intros b Hb. by required_field (@allow_local_binding _) b.
  - intros b Hb. by required_field (@dangerously_allow_all_unix_sockets _) b.
  - intros managed p Hm Hp. by eapply denied_after_requirements.
  - intros managed Hm. split; [intros p Hp; by eapply allowed_after_requirements|].
    intros Hexp p Hp. destruct (wc_allowed _ _ Hw managed) as [_ Hal]; [done|].
    assert (c_allowlist_expansion_enabled (snd (apply_requirements config r profile (managed_allowed_domains_only r))) = Some false)
      as He by (unfold apply_requirements; cbn; by rewrite Hm, Hexp).
    rewrite He in Hal. apply (proj1 (Hal p)). by exists p.
Qed.

Import PlainProxy.

(** An administrator who allows and denies domains, and lets only the managed ones count. *)
Definition sample_requirements (allowed denied : list str) (only : bool) : NetworkConstraints :=
  mkNetworkConstraints (Some true) None None None None None
    (legacy_domain_permissions_from_lists (Some allowed) (Some denied)) (Some only) None (Some false).

Lemma requirements_prevail_witness :
  exists spec,
    from_config_and_constraints (sample_config [lit "user.com"] []) (Some (sample_requirements [lit "a.com"] [lit "bad.com"] false))
      ProfileManaged = Ok spec /\
    lit "bad.com" ∈ default [] (denied_domains (spec_config spec)).
Proof.
  destruct (from_config_and_constraints (sample_config [lit "user.com"] [])
    (Some (sample_requirements [lit "a.com"] [lit "bad.com"] false)) ProfileManaged) as [spec|?|] eqn:E;
    [|vm_compute in E; discriminate..].
  exists spec. split; [done|].
  destruct (requirements_prevail _ _ _ _ E) as (_ & _ & _ & _ & Hd & _).
  apply (Hd [lit "bad.com"]); [vm_compute; reflexivity|left].
Defined.

(** C22: an administrator who lets only managed domains count bounds what a running proxy lets
    through, whatever tasks have changed and reloaded in the meantime within the same
    constraints: a host that is let through is one that a managed entry stands for, up to the
    case of that entry, and no decider is installed that could allow another.  The
    host has only lower-case letters, digits and [-._:%], and so have the patterns of the
    running configuration once they are normalised, after a leading wildcard, but for the
    single star. *)
Theorem managed_domains_bound_access `{MitmHookOps} `{GlobSetLaws} `{SocketPathOps} `{UrlHostOps} `{UrlOps} `{HeaderOps} `{MarkerOps}
    cfg r profile spec s observed ops ts w lookup host port h :
  from_config_and_constraints cfg (Some r) profile = Ok spec -> managed_allowed_domains_only r = true ->
  build_config_state_for_spec spec = Ok s ->
  Forall (op_ok (fun cs => cs = spec_constraints spec)) ops ->
  rtc (sys_step (good (fun cs => cs = spec_constraints spec))) (Start <$> ops, new_world s observed) (ts, w) ->
  plain_config (config (shared w)) -> Host_parse host = Some h -> is_plain h = true ->
  (host_blocked (shared w) lookup host port = Allowed ->
   exists p m, hits [p] h = true /\ m ∈ default [] (nc_domains r ≫= toml_allowed_domains) /\
     to_ascii_lowercase m = to_ascii_lowercase p) /\
  (forall decider flow, choose_decider spec profile decider flow = None).
Proof.
  intros Hf Honly Hb Hops Hr Hplain Hparse Hh.
  pose proof (spec_state_good _ _ (from_config_within _ _ _ _ Hf) Hb) as Hgood.
  assert (hard_deny_allowlist_misses spec = true /\ c_allowed_domains (spec_constraints spec) =
    Some (default [] (nc_domains r ≫= toml_allowed_domains)) /\
    c_allowlist_expansion_enabled (spec_constraints spec) = Some false) as (Hhard & Hmanaged & Hexp).
  { unfold from_config_and_constraints in Hf. cbn [is_some_and] in Hf. rewrite Honly in Hf.
    destruct (apply_requirements cfg r profile true) as [c cs] eqn:Ea.
    destruct (validate_policy_against_constraints c cs) as [[]|?|]; [|done..]. injection Hf as <-. simpl.
    unfold apply_requirements in Ea. injection Ea as _ <-. simpl. unfold allowlist_expansion_enabled. by rewrite andb_false_r. }
  split.
  - destruct (reachable_ok _ _ _ Hr) as [_ [[[Hcomp Hw _ _] Hcs] _]].
    { split; [by apply Forall_fmap|]. split; [done|]. apply configure_ok, broker_new_ok. }
    rewrite (host_blocked_unfold (shared w) lookup host port h) by done. cbn [snd] in Hw, Hcs. cbn beta in Hcs.
    destruct (hits (default [] (denied_domains _)) h); [done|].
    destruct (if allow_local_binding _ then _ else _); [done|].
    destruct (hits (default [] (allowed_domains _)) h) eqn:Ehit; [|done]. intros _.
    apply hits_exists in Ehit as (p & Hp & Hhit). rewrite Hcs in Hw.
    destruct (wc_allowed _ _ Hw _ Hmanaged) as [_ Hal]. rewrite Hexp in Hal. destruct (proj1 (Hal p)) as [(m & Hm & Heq) _]; [by exists p|].
    exists p, m. done.
  - intros decider flow. unfold choose_decider. by rewrite Hhard, andb_false_r.
Qed.

Lemma managed_domains_bound_access_witness :
  exists spec s,
    from_config_and_constraints (sample_config [lit "user.com"] []) (Some (sample_requirements [lit "A.com"] [] true))
      ProfileManaged = Ok spec /\
    build_config_state_for_spec spec = Ok s /\
    host_blocked s (fun _ _ => Some []) (lit "a.com") 443 = Allowed /\
    (exists p m, hits [p] (lit "a.com") = true /\ m ∈ [lit "A.com"] /\ to_ascii_lowercase m = to_ascii_lowercase p).
Proof.
  destruct (from_config_and_constraints (sample_config [lit "user.com"] [])
    (Some (sample_requirements [lit "A.com"] [] true)) ProfileManaged) as [spec|?|] eqn:E; [|vm_compute in E; discriminate..].
  destruct (build_config_state_for_spec spec) as [s|?|] eqn:Eb;
    [|exfalso; vm_compute in E; injection E as <-; vm_compute in Eb; discriminate..].
  assert (host_blocked s (fun _ _ => Some []) (lit "a.com") 443 = Allowed /\ plain_config (config s)) as [Ha Hp].
  { vm_compute in E. injection E as <-. vm_compute in Eb. injection Eb as <-.
    split; [vm_compute; reflexivity|]. split; apply (bool_decide_unpack _); vm_compute; exact I. }
  exists spec, s. split_and!; [reflexivity|exact Eb|exact Ha|].
  destruct (managed_domains_bound_access (sample_config [lit "user.com"] []) (sample_requirements [lit "A.com"] [] true)
    ProfileManaged spec s false [] [] (new_world s false) (fun _ _ => Some []) (lit "a.com") 443 (lit "a.com")) as [Hall _].
  - exact E.
  - reflexivity.
  - exact Eb.
  - constructor.
  - apply rtc_refl.
  - exact Hp.
  - vm_compute. reflexivity.
  - vm_compute. reflexivity.
  - apply Hall. exact Ha.
Defined.

(** What a remote executor makes of the settings it is sent decides hosts, methods and
    sockets as the settings did, carries no interception and no credential, and is sent on
    unchanged. *)
Theorem remote_config_roundtrip `{MitmHookOps} c r :
  from_effective_config c = Some r ->
  let c' := into_network_proxy_config r in
  from_effective_config c' = Some r /\
  allowed_domains c' = allowed_domains c /\ denied_domains c' = denied_domains c /\
  allow_unix_sockets c' = allow_unix_sockets c /\ mode c' = mode c /\ enabled c' = enabled c /\
  allow_local_binding c' = allow_local_binding c /\ allow_upstream_proxy c' = allow_upstream_proxy c /\
  mitm c' = false /\ mitm_hooks c' = [] /\ credential_broker c' = false /\
  dangerously_allow_non_loopback_proxy c' = false.
Proof.
  unfold from_effective_config. case_match; [|done]. intros [= <-]. simpl. rewrite orb_true_r. by split_and!.
Qed.

Lemma remote_config_roundtrip_witness :
  exists r, from_effective_config (sample_config [lit "a.com"] []) = Some r /\
    allowed_domains (into_network_proxy_config r) = Some [lit "a.com"].
Proof.
  eexists. split; [reflexivity|].
  refine (eq_trans (proj1 (proj2 (remote_config_roundtrip (sample_config [lit "a.com"] []) _ eq_refl))) _).
  vm_compute. reflexivity.
Defined.

(** A denied entry of the user that differs in case from a managed entry, under a profile that
    does not allow additions: the requirements cannot be applied.  The allowed list keeps the
    managed entry, since its pattern is not the denied one, and the check, which compares in
    lower case, expects it to be gone. *)
Example differently_cased_denial_refused :
  from_config_and_constraints (sample_config [] [lit "x.com"]) (Some (sample_requirements [lit "X.com"] [] false)) ProfileDisabled =
  Err (InvalidValue (lit "network.allowed_domains")).
Proof. vm_compute. reflexivity. Qed.
