(* ===== verification/AbsPath.v ===== *)
(** * Absolute paths: [utils/absolute-path/src/lib.rs] and [absolutize.rs]

    [AbsolutePathBuf] is "guaranteed to be absolute and normalized".  The first module has what
    the source takes from [std::path] as built for Unix: a path is a text, read as a sequence
    of components, and two paths are equal when their components are.  What the source asks of
    the process and of the disk is the class [PathEnv], what it may rely on [PathEnvLaws].  The
    last part shows that every way to build an absolute path keeps the guarantee, and what
    normalisation computes. *)

From stdpp Require Import base list strings sets.
From S2P Require Import Prelude FileSystem.

(** ** [std::path] on Unix *)

Module Path.

Inductive Component : Type := RootDir | CurDir | ParentDir | Normal (name : str).

#[export] Instance Component_eq_dec : EqDecision Component.
Proof. solve_decision. Defined.

Definition SLASH : N := 47.
Definition dot : str := [46%N].
Definition dotdot : str := [46%N; 46%N].

Definition is_absolute (p : str) : bool := Prelude.starts_with [SLASH] p.

(** A piece between separators: empty pieces and [.] are skipped. *)
Definition piece_component (piece : str) : option Component :=
  if is_empty piece then None
  else if str_eqb piece dot then None
  else if str_eqb piece dotdot then Some ParentDir
  else Some (Normal piece).

(** [Path::components]: a [.] shows only at the start of a relative path. *)
Definition components (p : str) : list Component :=
  let pieces := split SLASH p in
  let body := omap piece_component pieces in
  if is_absolute p then RootDir :: body
  else match pieces with
       | first :: _ => if str_eqb first dot then CurDir :: body else body
       | [] => body
       end.

Definition as_os_str (c : Component) : str :=
  match c with RootDir => [SLASH] | CurDir => dot | ParentDir => dotdot | Normal name => name end.

(** [PathBuf::push], which is [Path::join] on a copy. *)
Definition push (buf p : str) : str :=
  if is_absolute p then p
  else match last buf with
       | Some c => if char_eqb c SLASH then buf ++ p else buf ++ SLASH :: p
       | None => p
       end.

(** A path with the given components, as [PathBuf] collects them. *)
Definition path_of (cs : list Component) : str := foldl (fun buf c => push buf (as_os_str c)) [] cs.

(** The components of the parents, nearest first, from the components in reverse order. *)
Fixpoint parents (rcs : list Component) : list (list Component) :=
  match rcs with
  | [] | RootDir :: _ => []
  | _ :: rcs' => rev rcs' :: parents rcs'
  end.

(** [Path::parent] and [Path::ancestors], whose texts have single separators. *)
Definition parent (p : str) : option str := path_of <$> head (parents (rev (components p))).
Definition ancestors (p : str) : list str := p :: (path_of <$> parents (rev (components p))).

(** [PathBuf::pop]. *)
Definition pop (buf : str) : str := from_option id buf (parent buf).

(** [Path::eq], [Path::starts_with], [Path::strip_prefix]: by components. *)
Definition eqb (p q : str) : bool := bool_decide (components p = components q).
Definition starts_with (p base : str) : bool := bool_decide (components base `prefix_of` components p).
Definition strip_prefix (p base : str) : option str :=
  if starts_with p base then Some (path_of (drop (length (components base)) (components p))) else None.

Definition file_name (p : str) : option str :=
  match last (components p) with Some (Normal name) => Some name | _ => None end.

(** [Path::cmp]: the order of the components, names by their code points, as UTF-8 orders them. *)
Definition component_rank (c : Component) : nat :=
  match c with RootDir => 0 | CurDir => 1 | ParentDir => 2 | Normal _ => 3 end.
Definition component_leb (a b : Component) : bool :=
  match a, b with
  | Normal x, Normal y => str_leb x y
  | _, _ => component_rank a <=? component_rank b
  end.
Fixpoint components_leb (a b : list Component) : bool :=
  match a, b with
  | [], _ => true
  | _ :: _, [] => false
  | x :: a', y :: b' => if decide (x = y) then components_leb a' b' else component_leb x y
  end.
Definition leb (p q : str) : bool := components_leb (components p) (components q).

End Path.

Import Path (SLASH, Component, RootDir, CurDir, ParentDir, Normal).

(** ** The process and the disk *)

(** What the source asks of its surroundings: the home directory, which is the one set for the
    thread or else that of the user; the working directory; [TMPDIR]; and, of the disk, whether
    a path is a directory, is a file, exists, is a link ([symlink_metadata], [None] for an
    error), what a file holds, and where a path leads ([canonicalize]). *)
Class PathEnv := {
  home : option str;
  current_dir : io_result str;
  tmpdir : option str;
  path_is_dir : str -> bool;
  path_is_file : str -> bool;
  path_exists : str -> bool;
  path_is_symlink : str -> option bool;
  read_to_string : str -> option str;
  fs_canonicalize : str -> option str
}.

(** [Result::ok]. *)
Definition ok {A} (r : io_result A) : option A := match r with inl a => Some a | inr _ => None end.

(** ** [absolutize.rs] *)

Definition normalize_component (normalized : str) (component : Component) : str :=
  match component with
  | CurDir => normalized
  | ParentDir => Path.pop normalized
  | RootDir | Normal _ => Path.push normalized (Path.as_os_str component)
  end.

Definition normalize_path (path : str) : str :=
  let normalized := foldl normalize_component [] (Path.components path) in
  if is_empty normalized then Path.dot else normalized.

Definition path_with_base (path base_path : str) : str :=
  if Path.is_absolute path then path else Path.push base_path path.

Definition absolutize_from (path base_path : str) : str := normalize_path (path_with_base path base_path).

(** ** [lib.rs] *)

Definition not_absolute (path : str) : IoSource := mkIo InvalidInput (lit "path is not absolute: " ++ path).
Definition without_base : IoSource := mkIo OtherKind (lit "AbsolutePathBuf deserialized without a base path").

Section lib.
Context `{PathEnv}.

Definition absolutize (path : str) : io_result str :=
  if Path.is_absolute path then inl (normalize_path path)
  else match current_dir with
       | inl dir => inl (absolutize_from path dir)
       | inr e => inr e
       end.

Definition maybe_expand_home_directory (path : str) : str :=
  match strip_prefix (lit "~") path, home with
  | Some rest, Some home =>
      if is_empty rest then home
      else match strip_prefix [SLASH] rest with
           | Some rest => Path.push home (drop_while (char_eqb SLASH) rest)
           | None => path
           end
  | _, _ => path
  end.

Definition resolve_path_against_base (path base_path : str) : str :=
  absolutize_from (maybe_expand_home_directory path) base_path.

Definition from_absolute_path (path : str) : io_result str := absolutize (maybe_expand_home_directory path).

Definition from_absolute_path_checked (path : str) : io_result str :=
  let expanded := maybe_expand_home_directory path in
  if Path.is_absolute expanded then inl (absolutize_from expanded [SLASH]) else inr (not_absolute path).

Definition relative_to_current_dir (path : str) : io_result str :=
  match current_dir with
  | inl dir => inl (resolve_path_against_base path dir)
  | inr e => inr e
  end.

Definition current_dir_path : io_result str :=
  match current_dir with
  | inl dir => from_absolute_path dir
  | inr e => inr e
  end.

(** [AbsolutePathBuf::join]. *)
Definition abs_join (self path : str) : str := resolve_path_against_base path self.

(** [Deserialize], with the base that a guard has set for the thread. *)
Definition deserialize (base : option str) (path : str) : io_result str :=
  match base with
  | Some base => inl (resolve_path_against_base path base)
  | None => if Path.is_absolute path then from_absolute_path path else inr without_base
  end.

Definition should_preserve_logical_path (logical : str) : bool :=
  existsb (fun ancestor =>
      match path_is_symlink ancestor with
      | Some is_symlink =>
          is_symlink && match Path.parent ancestor with
                        | Some p => is_some_and (Path.parent p) (fun _ => true)
                        | None => false
                        end
      | None => false
      end)
    (Path.ancestors logical).

Definition canonicalize_preserving_symlinks (path : str) : io_result str :=
  match from_absolute_path path with
  | inl logical =>
      let preserve_logical_path := should_preserve_logical_path logical in
      match fs_canonicalize path with
      | Some canonical =>
          if preserve_logical_path && negb (Path.eqb canonical logical) then inl logical else inl canonical
      | None => inl logical
      end
  | inr e => inr e
  end.

(** The error of [canonicalize] is its argument here: that of the disk. *)
Definition canonicalize_existing_preserving_symlinks (err : IoSource) (path : str) : io_result str :=
  match from_absolute_path path with
  | inl logical =>
      match fs_canonicalize path with
      | Some canonical =>
          if should_preserve_logical_path logical && negb (Path.eqb canonical logical) then inl logical
          else inl canonical
      | None => inr err
      end
  | inr e => inr e
  end.

End lib.

(** Windows device paths, which are recognised on every host. *)
Definition is_ascii_alphabetic (c : N) : bool := ((65 <=? c) && (c <=? 90) || (97 <=? c) && (c <=? 122))%N.

Definition is_windows_drive_absolute_path (path : str) : bool :=
  match path with
  | a :: b :: c :: _ =>
      is_ascii_alphabetic a && char_eqb b 58 && (char_eqb c 92 || char_eqb c SLASH)
  | _ => false
  end.

Definition drive_path_after (prefix path : str) : option str :=
  match strip_prefix prefix path with
  | Some path => if is_windows_drive_absolute_path path then Some path else None
  | None => None
  end.

Definition normalize_windows_device_path (path : str) : option str :=
  match strip_prefix (lit "\\?\UNC\") path with
  | Some unc => Some (lit "\\" ++ unc)
  | None =>
      match strip_prefix (lit "\\.\UNC\") path with
      | Some unc => Some (lit "\\" ++ unc)
      | None =>
          match drive_path_after (lit "\\?\") path with
          | Some path => Some path
          | None => drive_path_after (lit "\\.\") path
          end
      end
  end.

(** ** Normal forms *)

(** A name that can stand between separators. *)
Definition is_name (n : str) : bool :=
  negb (is_empty n) && negb (str_eqb n Path.dot) && negb (str_eqb n Path.dotdot) && negb (contains_char SLASH n).

(** The text of an absolute path with the given names. *)
Definition abs_path (names : list str) : str := SLASH :: join [SLASH] names.

(** What [AbsolutePathBuf] guarantees. *)
Definition normalized (p : str) : Prop := exists names, forallb is_name names = true /\ p = abs_path names.

(** What normalisation computes: the names left when each [..] takes the name before it. *)
Definition lexical_step (names : list str) (c : Component) : list str :=
  match c with
  | RootDir => []
  | CurDir => names
  | ParentDir => removelast names
  | Normal name => names ++ [name]
  end.
Definition lexical (cs : list Component) : list str := foldl lexical_step [] cs.

Example components_ex : Path.components (lit "./a//b/./../c/") = [CurDir; Normal (lit "a"); Normal (lit "b"); ParentDir; Normal (lit "c")].
Proof. vm_compute. done. Qed.
Example ancestors_ex : Path.ancestors (lit "/a/b") = [lit "/a/b"; lit "/a"; lit "/"].
Proof. vm_compute. done. Qed.
Example normalize_ex : normalize_path (lit "/path/to/./123/../456") = lit "/path/to/456".
Proof. vm_compute. done. Qed.
Example normalize_above_root : normalize_path (lit "/../../a/") = lit "/a".
Proof. vm_compute. done. Qed.
Example normalize_relative : normalize_path (lit "../a/..") = lit ".".
Proof. vm_compute. done. Qed.
Example windows_ex : normalize_windows_device_path (lit "\\.\C:\x") = Some (lit "C:\x").
Proof. vm_compute. done. Qed.

(** ** Lemmas on texts and components *)

Lemma split_cons sep c s :
  split sep (c :: s) =
  if char_eqb c sep then [] :: split sep s
  else match split sep s with [] => [[c]] | p :: ps => (c :: p) :: ps end.
Proof. done. Qed.

Lemma split_app sep s t : split sep (s ++ sep :: t) = split sep s ++ split sep t.
Proof.
  induction s as [|c s IH].
  - simpl ([] ++ _). rewrite split_cons. unfold char_eqb. by rewrite N.eqb_refl.
  - simpl ((c :: s) ++ _). rewrite !split_cons, IH. destruct (char_eqb c sep); [done|].
    pose proof (split_nonempty sep s) as Hne. by destruct (split sep s).
Qed.

Lemma split_pieces sep s piece : piece ∈ split sep s -> sep ∉ piece.
Proof.
  revert piece. induction s as [|c s IH]; intros piece.
  - intros ->%list_elem_of_singleton. set_solver.
  - rewrite split_cons. unfold char_eqb. destruct (N.eqb_spec c sep) as [->|Hne].
    { intros [->|Hin]%elem_of_cons; [apply not_elem_of_nil|by apply IH]. }
    destruct (split sep s) as [|q qs] eqn:E; [by apply split_nonempty in E|].
    intros [->|Hin]%elem_of_cons; [|apply IH; by right].
    intros [->|Hin]%elem_of_cons; [done|]. eapply IH, Hin. by left.
Qed.

Lemma is_name_spec n : is_name n = true <-> n <> [] /\ n <> Path.dot /\ n <> Path.dotdot /\ SLASH ∉ n.
Proof.
  unfold is_name, str_eqb. rewrite !andb_true_iff, !negb_true_iff, is_empty_false, !bool_decide_eq_false.
  rewrite <- contains_char_spec, not_true_iff_false. tauto.
Qed.

Lemma piece_name n : is_name n = true -> Path.piece_component n = Some (Normal n).
Proof.
  intros (H1 & H2 & H3 & _)%is_name_spec. unfold Path.piece_component.
  apply is_empty_false in H1 as ->. unfold str_eqb. by rewrite !bool_decide_eq_false_2.
Qed.

Lemma omap_pieces names : forallb is_name names = true -> omap Path.piece_component names = Normal <$> names.
Proof.
  induction names as [|n names IH]; [done|]. intros [Hn Hns]%andb_true_iff. csimpl.
  by rewrite (piece_name _ Hn), (IH Hns).
Qed.

Lemma names_no_slash names n : forallb is_name names = true -> n ∈ names -> SLASH ∉ n.
Proof. rewrite forallb_forall. intros Hn Hin%list_elem_of_In. by apply Hn, is_name_spec in Hin as (_ & _ & _ & ?). Qed.

Lemma split_join names : names <> [] -> forallb is_name names = true -> split SLASH (join [SLASH] names) = names.
Proof.
  induction names as [|n names IH]; [done|]. intros _ Hn. destruct names as [|m names].
  - simpl. apply split_no_sep. eapply names_no_slash; [done|set_solver].
  - rewrite join_cons by done. simpl ([SLASH] ++ _). rewrite split_app_sep.
    + f_equal. apply IH; [done|]. simpl in Hn. by apply andb_true_iff in Hn as [_ ?].
    + eapply names_no_slash; [done|set_solver].
Qed.

Lemma omap_split_join names :
  forallb is_name names = true -> omap Path.piece_component (split SLASH (join [SLASH] names)) = Normal <$> names.
Proof.
  intros Hn. destruct names as [|n names]; [done|]. rewrite split_join by done. by apply omap_pieces.
Qed.

Lemma is_absolute_cons c p : Path.is_absolute (c :: p) = char_eqb SLASH c.
Proof. unfold Path.is_absolute, starts_with, strip_prefix. by destruct (char_eqb SLASH c). Qed.

Lemma is_absolute_slash p : Path.is_absolute (SLASH :: p) = true.
Proof. by rewrite is_absolute_cons. Qed.

Lemma is_absolute_inv p : Path.is_absolute p = true -> exists q, p = SLASH :: q.
Proof. unfold Path.is_absolute. intros [r ->]%starts_with_true. by exists r. Qed.

Lemma is_absolute_name n : SLASH ∉ n -> Path.is_absolute n = false.
Proof.
  intros Hn. destruct (Path.is_absolute n) eqn:E; [|done]. apply is_absolute_inv in E as [q ->]. set_solver.
Qed.

Lemma abs_path_absolute names : Path.is_absolute (abs_path names) = true.
Proof. apply is_absolute_slash. Qed.

Lemma components_absolute q : Path.components (SLASH :: q) = RootDir :: omap Path.piece_component (split SLASH q).
Proof. unfold Path.components. rewrite is_absolute_slash. change (SLASH :: q) with ([] ++ SLASH :: q). by rewrite split_app. Qed.

Lemma components_abs_path names :
  forallb is_name names = true -> Path.components (abs_path names) = RootDir :: (Normal <$> names).
Proof. intros Hn. unfold abs_path. rewrite components_absolute. f_equal. by apply omap_split_join. Qed.

(** The components after the first: parents and names. *)
Definition is_body (c : Component) : Prop :=
  match c with ParentDir => True | Normal n => is_name n = true | _ => False end.

Lemma piece_is_body piece c : SLASH ∉ piece -> Path.piece_component piece = Some c -> is_body c.
Proof.
  unfold Path.piece_component, str_eqb. intros Hs.
  destruct (is_empty piece) eqn:E1; [done|]. case_bool_decide; [done|]. case_bool_decide; intros [= <-]; [done|].
  apply is_name_spec. apply is_empty_false in E1. done.
Qed.

Lemma body_pieces q : Forall is_body (omap Path.piece_component (split SLASH q)).
Proof.
  apply Forall_forall. intros c. rewrite list_elem_of_omap. intros (piece & Hp & Hc).
  eapply piece_is_body, Hc. by eapply split_pieces.
Qed.

(** ** Pushing and popping *)

Lemma last_join_name names n :
  forallb is_name (names ++ [n]) = true -> exists c, last (join [SLASH] (names ++ [n])) = Some c /\ c <> SLASH.
Proof.
  intros Hn. assert (Hl : is_name n = true).
  { rewrite forallb_app, andb_true_iff in Hn. simpl in Hn. by destruct Hn as [_ [? _]%andb_true_iff]. }
  apply is_name_spec in Hl as (Hne & _ & _ & Hs). apply last_is_Some in Hne as [c Hc]. exists c. split.
  - clear Hn. induction names as [|m names IH]; [done|]. simpl ((m :: names) ++ [n]).
    rewrite join_cons by (by destruct names). rewrite !last_app, IH. done.
  - intros ->. apply last_Some_elem_of in Hc. done.
Qed.

Lemma join_path_snoc names n : names <> [] -> join [SLASH] (names ++ [n]) = join [SLASH] names ++ SLASH :: n.
Proof.
  induction names as [|m names IH]; [done|]. intros _. destruct names as [|k names]; [done|].
  simpl ((m :: k :: names) ++ [n]). rewrite join_cons by done. simpl in IH |- *.
  rewrite IH by done. by rewrite <- (assoc (++)).
Qed.

Lemma push_name buf names n :
  names <> [] -> forallb is_name names = true -> is_name n = true ->
  Path.push (buf ++ join [SLASH] names) n = buf ++ join [SLASH] (names ++ [n]).
Proof.
  intros Hne Hns Hn. apply is_name_spec in Hn as (_ & _ & _ & Hs). unfold Path.push.
  rewrite is_absolute_name by done. destruct (exists_last Hne) as (names' & m & ->).
  destruct (last_join_name _ _ Hns) as (c & Hc & Hcs). rewrite last_app, Hc. unfold char_eqb.
  destruct (N.eqb_spec c SLASH); [done|]. rewrite (join_path_snoc (names' ++ [m])) by done. by rewrite <- (assoc (++)).
Qed.

Lemma push_abs names n :
  forallb is_name names = true -> is_name n = true -> Path.push (abs_path names) n = abs_path (names ++ [n]).
Proof.
  intros Hns Hn. destruct (decide (names = [])) as [->|Hne].
  - apply is_name_spec in Hn as (_ & _ & _ & Hs). unfold Path.push. by rewrite is_absolute_name.
  - apply (push_name [SLASH]); done.
Qed.

Lemma forallb_snoc {A} (f : A -> bool) l x : forallb f (l ++ [x]) = true <-> forallb f l = true /\ f x = true.
Proof. rewrite forallb_app, andb_true_iff. simpl. by rewrite andb_true_r. Qed.

Lemma path_of_abs names : forallb is_name names = true -> Path.path_of (RootDir :: (Normal <$> names)) = abs_path names.
Proof.
  induction names as [|n names IH] using rev_ind; [done|]. intros [Hns Hn]%forallb_snoc.
  rewrite fmap_app, app_comm_cons. unfold Path.path_of in *. rewrite foldl_app, (IH Hns). by apply push_abs.
Qed.

Lemma path_of_names names : forallb is_name names = true -> Path.path_of (Normal <$> names) = join [SLASH] names.
Proof.
  induction names as [|n names IH] using rev_ind; [done|]. intros [Hns Hn]%forallb_snoc.
  rewrite fmap_app. unfold Path.path_of in *. rewrite foldl_app, (IH Hns). simpl.
  destruct (decide (names = [])) as [->|Hne]; [|by apply (push_name [])].
  apply is_name_spec in Hn as (_ & _ & _ & Hs). unfold Path.push. by rewrite is_absolute_name.
Qed.

Lemma parent_abs names :
  forallb is_name names = true ->
  Path.parent (abs_path names) = if is_empty names then None else Some (abs_path (removelast names)).
Proof.
  intros Hns. unfold Path.parent. rewrite components_abs_path by done.
  destruct (decide (names = [])) as [->|Hne]; [done|]. destruct (exists_last Hne) as (names' & n & ->).
  apply forallb_snoc in Hns as [Hns Hn]. rewrite fmap_app, app_comm_cons, rev_app_distr. simpl (rev [_] ++ _).
  rewrite removelast_snoc. simpl. rewrite rev_app_distr, rev_involutive. simpl. rewrite path_of_abs by done.
  by destruct names'.
Qed.

Lemma forallb_removelast {A} (f : A -> bool) l : forallb f l = true -> forallb f (removelast l) = true.
Proof.
  destruct (decide (l = [])) as [->|Hne]; [done|]. destruct (exists_last Hne) as (l' & x & ->).
  rewrite removelast_snoc. by intros [? _]%forallb_snoc.
Qed.

Lemma pop_abs names : forallb is_name names = true -> Path.pop (abs_path names) = abs_path (removelast names).
Proof. intros Hns. unfold Path.pop. rewrite parent_abs by done. by destruct names. Qed.

Lemma ancestors_abs names q :
  forallb is_name names = true ->
  q ∈ Path.ancestors (abs_path names) <-> exists k, k <= length names /\ q = abs_path (take k names).
Proof.
  intros Hns. unfold Path.ancestors. rewrite elem_of_cons, components_abs_path by done.
  induction names as [|n names IH] using rev_ind.
  - simpl. rewrite elem_of_nil. split; [|by intros (k & _ & ->); left; destruct k].
    intros [->|[]]. by exists 0.
  - apply forallb_snoc in Hns as [Hns Hn]. specialize (IH Hns). rewrite fmap_app, app_comm_cons, rev_app_distr.
    simpl (rev [_] ++ _). simpl (Path.parents _). rewrite fmap_cons, elem_of_cons, rev_app_distr, rev_involutive.
    change (Path.path_of (rev [RootDir] ++ (Normal <$> names))) with (Path.path_of (RootDir :: (Normal <$> names))).
    rewrite path_of_abs by done. change (rev (Normal <$> names) ++ [RootDir]) with (rev (RootDir :: (Normal <$> names))).
    rewrite IH, length_app. simpl. split.
    + intros [->|(k & Hk & ->)]; [exists (length names + 1)|exists k].
      * split; [done|]. rewrite take_ge; [done|]. rewrite length_app. simpl. lia.
      * split; [lia|]. by rewrite take_app_le.
    + intros (k & Hk & ->). destruct (decide (k <= length names)) as [Hle|Hgt]; [right|left].
      * exists k. by rewrite take_app_le.
      * rewrite take_ge; [done|]. rewrite length_app. simpl. lia.
Qed.

(** ** Normalisation *)

Lemma lexical_step_names names c :
  is_body c -> forallb is_name names = true -> forallb is_name (lexical_step names c) = true.
Proof.
  destruct c; simpl; try done; intros Hc Hns; [by apply forallb_removelast|by apply forallb_snoc].
Qed.

Lemma normalize_body cs names :
  Forall is_body cs -> forallb is_name names = true ->
  forallb is_name (foldl lexical_step names cs) = true /\
  foldl normalize_component (abs_path names) cs = abs_path (foldl lexical_step names cs).
Proof.
  intros Hcs. revert names. induction Hcs as [|c cs Hc Hcs IH]; intros names Hns; [done|]. simpl.
  replace (normalize_component (abs_path names) c) with (abs_path (lexical_step names c)).
  { apply IH. by apply lexical_step_names. }
  destruct c; simpl; try done; [by rewrite pop_abs|by rewrite push_abs].
Qed.

Lemma normalize_absolute p :
  Path.is_absolute p = true ->
  forallb is_name (lexical (Path.components p)) = true /\ normalize_path p = abs_path (lexical (Path.components p)).
Proof.
  intros [q ->]%is_absolute_inv. unfold normalize_path, lexical. rewrite components_absolute.
  destruct (normalize_body _ [] (body_pieces q) eq_refl) as [Hns Heq]. split; [done|].
  simpl (foldl normalize_component _ _). change (Path.push [] [SLASH]) with (abs_path []). by rewrite Heq.
Qed.

Lemma normalize_normalized p : Path.is_absolute p = true -> normalized (normalize_path p).
Proof. intros [Hn ->]%normalize_absolute. by eexists. Qed.

Lemma lexical_names names : lexical (RootDir :: (Normal <$> names)) = names.
Proof.
  unfold lexical. simpl. induction names as [|n names IH] using rev_ind; [done|].
  by rewrite fmap_app, foldl_app, IH.
Qed.

Lemma normalize_abs_path names : forallb is_name names = true -> normalize_path (abs_path names) = abs_path names.
Proof.
  intros Hns. destruct (normalize_absolute (abs_path names)) as [_ ->]; [apply abs_path_absolute|].
  by rewrite components_abs_path, lexical_names.
Qed.

Lemma normalized_absolute p : normalized p -> Path.is_absolute p = true.
Proof. intros (names & _ & ->). apply abs_path_absolute. Qed.

#[export] Instance Normal_inj : Inj (=) (=) Normal.
Proof. by intros a b [= ->]. Qed.

(** Normalised paths are equal as paths when they are equal as texts. *)
Lemma abs_path_inj names names' :
  forallb is_name names = true -> forallb is_name names' = true ->
  Path.components (abs_path names) = Path.components (abs_path names') -> names = names'.
Proof. intros H1 H2. rewrite !components_abs_path by done. intros [= Heq]. by apply (inj (fmap Normal)) in Heq. Qed.

Lemma eqb_abs names names' :
  forallb is_name names = true -> forallb is_name names' = true ->
  Path.eqb (abs_path names) (abs_path names') = bool_decide (names = names').
Proof.
  intros H1 H2. unfold Path.eqb. apply bool_decide_ext. split; [by apply abs_path_inj|by intros ->].
Qed.

Lemma eqb_normalized p q : normalized p -> normalized q -> Path.eqb p q = true <-> p = q.
Proof.
  intros (ns & Hns & ->) (ms & Hms & ->). rewrite eqb_abs, bool_decide_eq_true by done.
  split; [by intros ->|]. intros Heq. apply abs_path_inj; [done..|by rewrite Heq].
Qed.

Lemma starts_with_abs names names' :
  forallb is_name names = true -> forallb is_name names' = true ->
  Path.starts_with (abs_path names) (abs_path names') = bool_decide (names' `prefix_of` names).
Proof.
  intros H1 H2. unfold Path.starts_with. rewrite !components_abs_path by done. apply bool_decide_ext. split.
  - intros [k Hk]. simpl in Hk. injection Hk as Hk. apply fmap_app_inv in Hk as (l1 & l2 & Hl1 & _ & ->).
    apply (inj (fmap Normal)) in Hl1 as ->. by apply prefix_app_r.
  - intros [k ->]. rewrite fmap_app. exists (Normal <$> k). done.
Qed.

(** A test for normal forms. *)
Definition is_normalized (p : str) : bool :=
  let names := lexical (Path.components p) in forallb is_name names && str_eqb p (abs_path names).

Lemma is_normalized_sound p : is_normalized p = true -> normalized p.
Proof. unfold is_normalized. intros [Hn Heq%bool_decide_eq_true]%andb_true_iff. by eexists. Qed.

(** The laws of [current_dir] and [canonicalize]: both give absolute paths, the latter with all
    components normalised. *)
Class PathEnvLaws `{PathEnv} := {
  current_dir_absolute dir : current_dir = inl dir -> Path.is_absolute dir = true;
  canonicalize_normalized p q : fs_canonicalize p = Some q -> normalized q
}.

Section guarantee.
Context `{PathEnvLaws}.

Lemma path_with_base_absolute path base :
  Path.is_absolute base = true -> Path.is_absolute (path_with_base path base) = true.
Proof.
  intros Hb. unfold path_with_base. destruct (Path.is_absolute path) eqn:E; [done|]. unfold Path.push. rewrite E.
  apply is_absolute_inv in Hb as [b ->]. destruct (last (SLASH :: b)) as [c|] eqn:El; [|by apply last_None in El].
  destruct (char_eqb c SLASH); apply is_absolute_slash.
Qed.

Lemma resolve_normalized path base : Path.is_absolute base = true -> normalized (resolve_path_against_base path base).
Proof. intros Hb. by apply normalize_normalized, path_with_base_absolute. Qed.

Lemma from_absolute_path_normalized path q : from_absolute_path path = inl q -> normalized q.
Proof.
  unfold from_absolute_path, absolutize. destruct (Path.is_absolute _) eqn:E.
  - intros [= <-]. by apply normalize_normalized.
  - destruct current_dir as [dir|] eqn:Ed; [|done]. intros [= <-].
    by apply normalize_normalized, path_with_base_absolute, (current_dir_absolute dir).
Qed.

Lemma from_absolute_path_checked_normalized path q : from_absolute_path_checked path = inl q -> normalized q.
Proof.
  unfold from_absolute_path_checked. destruct (Path.is_absolute _) eqn:E; [|done]. intros [= <-].
  apply normalize_normalized. by apply path_with_base_absolute.
Qed.

Lemma join_normalized self path : normalized self -> normalized (abs_join self path).
Proof. intros Hs. by apply resolve_normalized, normalized_absolute. Qed.

Lemma ancestor_normalized p q : normalized p -> q ∈ Path.ancestors p -> normalized q.
Proof.
  intros (ns & Hns & ->) Hq. apply ancestors_abs in Hq as (k & _ & ->); [|done]. exists (take k ns). split; [|done].
  rewrite forallb_forall in *. intros x Hx. apply Hns. apply list_elem_of_In in Hx. apply list_elem_of_In.
  by eapply elem_of_take in Hx as (i & Hi%list_elem_of_lookup_2 & _).
Qed.

Lemma parent_normalized p q : normalized p -> Path.parent p = Some q -> normalized q.
Proof.
  intros (ns & Hns & ->). rewrite parent_abs by done. destruct (is_empty ns); [done|]. intros [= <-].
  exists (removelast ns). split; [by apply forallb_removelast|done].
Qed.

End guarantee.

(** One of a path, with the home directory in the place of a tilde, and the base it is resolved
    against is absolute. *)
Definition anchored `{PathEnv} (path base_path : str) : bool :=
  Path.is_absolute (maybe_expand_home_directory path) || Path.is_absolute base_path.

Lemma resolve_anchored `{PathEnvLaws} path base : anchored path base = true -> normalized (resolve_path_against_base path base).
Proof.
  unfold anchored. intros [Hp|Hb]%orb_true_iff; [|by apply resolve_normalized].
  apply normalize_normalized. unfold path_with_base. by rewrite Hp.
Qed.

(** The ways to make an [AbsolutePathBuf]: the constructors and methods of the type and the two
    canonicalisations, without the resolution of a relative path against a relative base
    ([relative_base_breaks_guarantee]). *)
Inductive Built `{PathEnv} : str -> Prop :=
| built_from p q : from_absolute_path p = inl q -> Built q
| built_checked p q : from_absolute_path_checked p = inl q -> Built q
| built_resolve p base : anchored p base = true -> Built (resolve_path_against_base p base)
| built_current q : current_dir_path = inl q -> Built q
| built_relative p q : relative_to_current_dir p = inl q -> Built q
| built_join b p : Built b -> Built (abs_join b p)
| built_canonicalize b q : Built b -> fs_canonicalize b = Some q -> Built q
| built_parent b q : Built b -> Path.parent b = Some q -> Built q
| built_ancestor b q : Built b -> q ∈ Path.ancestors b -> Built q
| built_deserialize base p q :
    (forall b, base = Some b -> anchored p b = true) -> deserialize base p = inl q -> Built q
| built_preserving p q : canonicalize_preserving_symlinks p = inl q -> Built q
| built_existing err p q : canonicalize_existing_preserving_symlinks err p = inl q -> Built q.

(** C38: the guarantee of [AbsolutePathBuf].  A value of the type that is built from a text, from
    another value, by deserialisation or through the disk is the text of an absolute path in
    normal form: a slash and names between single slashes, none of them empty, [.] or [..]; it
    is its own normalisation, and it is equal to another such value as a path exactly when the
    texts are equal.  One case is excepted, in which the type gives no guarantee: a relative
    path that is resolved against, or deserialised with, a base that is relative too. *)
Theorem absolute_paths_are_normalized `{PathEnvLaws} p :
  Built p ->
  normalized p /\ Path.is_absolute p = true /\ normalize_path p = p /\ from_absolute_path p = inl p /\
  forall q, Built q -> Path.eqb p q = true <-> p = q.
Proof.
  assert (Hall : forall p, Built p -> normalized p).
  { clear p. intros r. induction 1 as [p q Hq|p q Hq|p b Hb|q Hq|p q Hq|b p _ IH|b q _ IH Hq|b q _ IH Hq|b q _ IH Hq|base p q Hb Hq|p q Hq|err p q Hq].
    - by eapply from_absolute_path_normalized.
    - by eapply from_absolute_path_checked_normalized.
    - by apply resolve_anchored.
    - unfold current_dir_path in Hq. destruct current_dir; [|done]. by eapply from_absolute_path_normalized.
    - unfold relative_to_current_dir in Hq. destruct current_dir as [dir|] eqn:E; [|done]. injection Hq as <-.
      by apply resolve_normalized, (current_dir_absolute dir).
    - by apply join_normalized.
    - by eapply canonicalize_normalized.
    - by eapply parent_normalized.
    - by eapply ancestor_normalized.
    - unfold deserialize in Hq. destruct base as [b|]; [injection Hq as <-; by apply resolve_anchored, Hb|].
      destruct (Path.is_absolute p); [|done]. by eapply from_absolute_path_normalized.
    - unfold canonicalize_preserving_symlinks in Hq. break_all;
        by eauto using from_absolute_path_normalized, canonicalize_normalized.
    - unfold canonicalize_existing_preserving_symlinks in Hq. break_all;
        by eauto using from_absolute_path_normalized, canonicalize_normalized. }
  intros Hp%Hall. pose proof Hp as (names & Hns & ->).
  pose proof (normalize_abs_path names Hns) as Hnorm.
  split_and!; [done|apply abs_path_absolute|done| |by intros q Hq%Hall; apply eqb_normalized].
  unfold from_absolute_path, absolutize, maybe_expand_home_directory.
  replace (strip_prefix (lit "~") (abs_path names)) with (@None str) by done.
  by rewrite abs_path_absolute, Hnorm.
Qed.

(** ** A disk without links *)

(** The environment of a process on a disk that holds the given directories and files. *)
Definition plain_env (home_dir dir : str) (tmp : option str) (dirs : list str) (files : list (str * str)) : PathEnv := {|
  home := Some home_dir;
  current_dir := inl (SLASH :: dir);
  tmpdir := tmp;
  path_is_dir p := existsb (Path.eqb p) dirs;
  path_is_file p := existsb (fun f => Path.eqb p (fst f)) files;
  path_exists p := existsb (Path.eqb p) (dirs ++ files.*1);
  path_is_symlink p := if existsb (Path.eqb p) (dirs ++ files.*1) then Some false else None;
  read_to_string p := snd <$> List.find (fun f => Path.eqb p (fst f)) files;
  fs_canonicalize p :=
    if Path.is_absolute p && existsb (Path.eqb p) (dirs ++ files.*1) then Some (normalize_path p) else None
|}.

#[export] Instance plain_env_laws home_dir dir tmp dirs files : @PathEnvLaws (plain_env home_dir dir tmp dirs files).
Proof.
  split; simpl.
  - intros d [= <-]. apply is_absolute_slash.
  - intros p q. destruct (Path.is_absolute p) eqn:E; simpl; [|done]. destruct (existsb _ _); [|done].
    intros [= <-]. by apply normalize_normalized.
Qed.

Definition example_env : PathEnv :=
  plain_env (lit "/home/u") (lit "ws") None (lit <$> ["/"; "/tmp"; "/ws"; "/ws/.git"]%string) [].

Lemma absolute_paths_are_normalized_witness :
  let env := example_env in
  normalized (abs_join (lit "/ws") (lit "a/../../b")) /\
  from_absolute_path (abs_join (lit "/ws") (lit "a/../../b")) = inl (lit "/b").
Proof.
  intros env.
  destruct (absolute_paths_are_normalized (abs_join (lit "/ws") (lit "a/../../b"))) as (Hn & _ & _ & Hf & _).
  { apply built_join. apply (built_from (lit "x//../.")). vm_compute. done. }
  split; [exact Hn|]. rewrite Hf. vm_compute. done.
Defined.

(** With a base that is not absolute itself, the guarantee of the type does not hold: the result
    is a relative path. *)
Lemma relative_base_breaks_guarantee :
  let env := example_env in
  resolve_path_against_base (lit "x") (lit "base") = lit "base/x" /\ ~ normalized (resolve_path_against_base (lit "x") (lit "base")).
Proof. intros env. split; [by vm_compute|]. intros Hn%normalized_absolute. by vm_compute in Hn. Qed.

(** Joining a name that starts with [~/] leaves the base: the path is the user's home. *)
Lemma join_tilde_leaves_base :
  let env := example_env in abs_join (lit "/ws") (lit "~/x") = lit "/home/u/x".
Proof. by vm_compute. Qed.
