(* ===== verification/FsPolicy.v ===== *)
(** * The file-system sandbox policy: [protocol/src/permissions.rs]

    A policy is a list of entries, each giving an access mode to a path, a special path or a
    glob.  This file models the data, the resolution of entries against a working directory,
    the access a policy gives a path and the protection of workspace metadata; [FsUpdates.v] has
    the operations that build and change policies, [FsRoots.v] what is derived from a policy for a
    sandbox.  The model is that of a build for Unix: [cfg!(unix)] holds. *)

From stdpp Require Import base list strings sets.
From S2P Require Import Prelude FileSystem AbsPath.

Import Path (SLASH, Component, RootDir, CurDir, ParentDir, Normal).

(** ** Data *)

Inductive FileSystemAccessMode : Type := Read | Write | Deny.

Inductive FileSystemSpecialPath : Type :=
| Root
| Minimal
| ProjectRoots (subpath : option str)
| Tmpdir
| SlashTmp
| Unknown (path : str) (subpath : option str).

Inductive FileSystemPath : Type :=
| AtPath (path : str)
| GlobPattern (pattern : str)
| Special (value : FileSystemSpecialPath).

Inductive FileSystemSandboxEntryMissingPathBehavior : Type := Skip.

Record FileSystemSandboxEntry := mkEntry {
  entry_path : FileSystemPath;
  access : FileSystemAccessMode;
  missing_path_behavior : option FileSystemSandboxEntryMissingPathBehavior
}.

Inductive FileSystemSandboxKind : Type := Restricted | Unrestricted | ExternalSandboxKind.

Record FileSystemSandboxPolicy := mkPolicy {
  kind : FileSystemSandboxKind;
  glob_scan_max_depth : option N;
  entries : list FileSystemSandboxEntry
}.

Record ResolvedFileSystemEntry := mkResolved { resolved_path : str; resolved_access : FileSystemAccessMode }.

#[export] Instance FileSystemAccessMode_eq_dec : EqDecision FileSystemAccessMode.
Proof. solve_decision. Defined.
#[export] Instance FileSystemSpecialPath_eq_dec : EqDecision FileSystemSpecialPath.
Proof. solve_decision. Defined.
#[export] Instance MissingPathBehavior_eq_dec : EqDecision FileSystemSandboxEntryMissingPathBehavior.
Proof. solve_decision. Defined.
#[export] Instance FileSystemSandboxKind_eq_dec : EqDecision FileSystemSandboxKind.
Proof. solve_decision. Defined.

(** [can_read], [can_write] and the order of the modes: [deny] beats [write] beats [read]. *)
Definition can_read (a : FileSystemAccessMode) : bool := match a with Deny => false | _ => true end.
Definition can_write (a : FileSystemAccessMode) : bool := match a with Write => true | _ => false end.
Definition access_rank (a : FileSystemAccessMode) : nat := match a with Read => 0 | Write => 1 | Deny => 2 end.
Definition is_deny (e : FileSystemSandboxEntry) : bool := bool_decide (access e = Deny).
Definition is_restricted (k : FileSystemSandboxKind) : bool := bool_decide (k = Restricted).

(** [FileSystemPath::eq] and [FileSystemSandboxEntry::eq]: paths are compared as paths. *)
Definition file_system_path_eqb (a b : FileSystemPath) : bool :=
  match a, b with
  | AtPath p, AtPath q => Path.eqb p q
  | GlobPattern p, GlobPattern q => str_eqb p q
  | Special v, Special w => bool_decide (v = w)
  | _, _ => false
  end.
Definition entry_eqb (a b : FileSystemSandboxEntry) : bool :=
  file_system_path_eqb (entry_path a) (entry_path b) && bool_decide (access a = access b)
  && bool_decide (missing_path_behavior a = missing_path_behavior b).

Definition new_entry (path : FileSystemPath) (a : FileSystemAccessMode) : FileSystemSandboxEntry := mkEntry path a None.
Definition skip_missing_path (path : FileSystemPath) (a : FileSystemAccessMode) : FileSystemSandboxEntry :=
  mkEntry path a (Some Skip).
Definition skips_missing_path (e : FileSystemSandboxEntry) : bool := bool_decide (missing_path_behavior e = Some Skip).

Definition set_entries (p : FileSystemSandboxPolicy) (es : list FileSystemSandboxEntry) : FileSystemSandboxPolicy :=
  mkPolicy (kind p) (glob_scan_max_depth p) es.
Definition push_entry (p : FileSystemSandboxPolicy) (e : FileSystemSandboxEntry) : FileSystemSandboxPolicy :=
  set_entries p (entries p ++ [e]).

(** ** Constructors of policies *)

Definition restricted (es : list FileSystemSandboxEntry) : FileSystemSandboxPolicy := mkPolicy Restricted None es.
Definition unrestricted : FileSystemSandboxPolicy := mkPolicy Unrestricted None [].
Definition external_sandbox : FileSystemSandboxPolicy := mkPolicy ExternalSandboxKind None [].

Definition read_only_file_system_entries : list FileSystemSandboxEntry := [new_entry (Special Root) Read].
Definition read_only : FileSystemSandboxPolicy := restricted read_only_file_system_entries.

Definition remove_skip_missing_path_entries (p : FileSystemSandboxPolicy) : FileSystemSandboxPolicy :=
  set_entries p (List.filter (fun e => negb (skips_missing_path e)) (entries p)).

(** ** Protected metadata names *)

Definition PROTECTED_METADATA_GIT_PATH_NAME : str := lit ".git".
Definition PROTECTED_METADATA_AGENTS_PATH_NAME : str := lit ".agents".
Definition PROTECTED_METADATA_CODEX_PATH_NAME : str := lit ".codex".
Definition PROTECTED_METADATA_PATH_NAMES : list str :=
  [PROTECTED_METADATA_GIT_PATH_NAME; PROTECTED_METADATA_AGENTS_PATH_NAME; PROTECTED_METADATA_CODEX_PATH_NAME].

Definition is_protected_metadata_name (name : str) : bool := existsb (str_eqb name) PROTECTED_METADATA_PATH_NAMES.
Definition metadata_path_name (name : str) : option str := List.find (str_eqb name) PROTECTED_METADATA_PATH_NAMES.

(** ** Which entries name the same place *)

Definition special_paths_share_target (left right : FileSystemSpecialPath) : bool :=
  match left, right with
  | Root, Root | Minimal, Minimal | Tmpdir, Tmpdir | SlashTmp, SlashTmp => true
  | ProjectRoots l, ProjectRoots r => bool_decide (l = r)
  | Unknown l ls, Unknown r rs => str_eqb l r && bool_decide (ls = rs)
  | _, _ => false
  end.

Definition special_path_matches_absolute_path (value : FileSystemSpecialPath) (path : str) : bool :=
  match value with
  | Root => bool_decide (Path.parent path = None)
  | SlashTmp => Path.eqb path (lit "/tmp")
  | _ => false
  end.

Definition file_system_paths_share_target (left right : FileSystemPath) : bool :=
  match left, right with
  | AtPath l, AtPath r => Path.eqb l r
  | Special l, Special r => special_paths_share_target l r
  | AtPath path, Special value | Special value, AtPath path => special_path_matches_absolute_path value path
  | GlobPattern l, GlobPattern r => str_eqb l r
  | GlobPattern _, _ | _, GlobPattern _ => false
  end.

(** ** Disk-wide access *)

Definition has_root_access (p : FileSystemSandboxPolicy) (predicate : FileSystemAccessMode -> bool) : bool :=
  is_restricted (kind p)
  && existsb (fun e => match entry_path e with Special Root => predicate (access e) | _ => false end) (entries p).

Definition has_denied_read_restrictions (p : FileSystemSandboxPolicy) : bool :=
  is_restricted (kind p) && existsb is_deny (entries p).

Definition has_same_target_write_override (p : FileSystemSandboxPolicy) (e : FileSystemSandboxEntry) : bool :=
  existsb (fun candidate =>
      can_write (access candidate) && (access_rank (access e) <? access_rank (access candidate))
      && file_system_paths_share_target (entry_path candidate) (entry_path e))
    (entries p).

Definition narrows_write (p : FileSystemSandboxPolicy) (e : FileSystemSandboxEntry) : bool :=
  if can_write (access e) then false
  else match entry_path e with
       | AtPath _ => negb (has_same_target_write_override p e)
       | GlobPattern _ => true
       | Special Root => is_deny e
       | Special Minimal | Special (Unknown _ _) => false
       | Special _ => negb (has_same_target_write_override p e)
       end.

Definition has_write_narrowing_entries (p : FileSystemSandboxPolicy) : bool :=
  is_restricted (kind p) && existsb (narrows_write p) (entries p).

Definition has_full_disk_read_access (p : FileSystemSandboxPolicy) : bool :=
  match kind p with
  | Unrestricted | ExternalSandboxKind => true
  | Restricted => has_root_access p can_read && negb (has_denied_read_restrictions p)
  end.

Definition has_full_disk_write_access (p : FileSystemSandboxPolicy) : bool :=
  match kind p with
  | Unrestricted | ExternalSandboxKind => true
  | Restricted => has_root_access p can_write && negb (has_write_narrowing_entries p)
  end.

Definition include_platform_defaults (p : FileSystemSandboxPolicy) : bool :=
  negb (has_full_disk_read_access p) && is_restricted (kind p)
  && existsb (fun e => match entry_path e with Special Minimal => can_read (access e) | _ => false end) (entries p).

(** ** Resolution *)

(** [Iterator::max_by_key]: of several greatest elements, the last. *)
Definition max_by {A} (le : A -> A -> bool) (l : list A) : option A :=
  foldl (fun best x => match best with Some y => if le y x then Some x else best | None => Some x end) None l.

(** [resolved_entry_precedence], compared as pairs are. *)
Definition resolved_entry_precedence (e : ResolvedFileSystemEntry) : nat * nat :=
  (length (Path.components (resolved_path e)), access_rank (resolved_access e)).
Definition precedence_leb (a b : ResolvedFileSystemEntry) : bool :=
  let '(n, x) := resolved_entry_precedence a in
  let '(m, y) := resolved_entry_precedence b in
  (n <? m) || (n =? m) && (x <=? y).

Section resolution.
Context `{PathEnv}.

(** The last ancestor of an absolute path is the root, so that the source's two panics are not
    reached ([absolute_root] below); this is the branch that returns the ancestor itself. *)
Definition absolute_root_path_for_cwd (cwd : str) : str :=
  let root := default cwd (last (Path.ancestors cwd)) in
  match from_absolute_path root with inl root => root | inr _ => root end.

Definition resolve_file_system_special_path (value : FileSystemSpecialPath) (cwd : option str) : option str :=
  match value with
  | Root | Minimal | Unknown _ _ => None
  | ProjectRoots subpath =>
      cwd ← cwd;
      match subpath with
      | Some subpath => Some (resolve_path_against_base subpath cwd)
      | None => Some cwd
      end
  | Tmpdir =>
      tmp ← tmpdir;
      if is_empty tmp then None else ok (from_absolute_path tmp)
  | SlashTmp =>
      slash_tmp ← ok (from_absolute_path (lit "/tmp"));
      if path_is_dir slash_tmp then Some slash_tmp else None
  end.

Definition resolve_file_system_path (path : FileSystemPath) (cwd : option str) : option str :=
  match path with
  | AtPath path => Some path
  | GlobPattern _ => None
  | Special value => resolve_file_system_special_path value cwd
  end.

Definition resolve_entry_path (path : FileSystemPath) (cwd : option str) : option str :=
  match path with
  | Special Root => absolute_root_path_for_cwd <$> cwd
  | _ => resolve_file_system_path path cwd
  end.

Definition resolve_candidate_path (path cwd : str) : option str :=
  if Path.is_absolute path then ok (from_absolute_path path)
  else cwd ← ok (from_absolute_path cwd); Some (abs_join cwd path).

Definition resolve_entry (cwd_absolute : option str) (e : FileSystemSandboxEntry) : option ResolvedFileSystemEntry :=
  (fun path => mkResolved path (access e)) <$> resolve_entry_path (entry_path e) cwd_absolute.

Definition resolved_entries_with_cwd (p : FileSystemSandboxPolicy) (cwd : str) : list ResolvedFileSystemEntry :=
  omap (resolve_entry (ok (from_absolute_path cwd))) (entries p).

(** ** Access *)

Definition resolve_access_with_cwd (p : FileSystemSandboxPolicy) (path cwd : str) : FileSystemAccessMode :=
  match kind p with
  | Unrestricted | ExternalSandboxKind => Write
  | Restricted =>
      match resolve_candidate_path path cwd with
      | None => Deny
      | Some path =>
          from_option resolved_access Deny
            (max_by precedence_leb
              (List.filter (fun e => Path.starts_with path (resolved_path e)) (resolved_entries_with_cwd p cwd)))
      end
  end.

Definition can_read_path_with_cwd (p : FileSystemSandboxPolicy) (path cwd : str) : bool :=
  can_read (resolve_access_with_cwd p path cwd).

(** The first writable entry of which [target] is in a metadata directory, with that directory. *)
Definition metadata_child (target : str) (e : ResolvedFileSystemEntry) : option (str * str) :=
  if can_write (resolved_access e) then
    relative_path ← Path.strip_prefix target (resolved_path e);
    first_component ← head (Path.components relative_path);
    metadata_name ← metadata_path_name (Path.as_os_str first_component);
    Some (abs_join (resolved_path e) metadata_name, metadata_name)
  else None.

Definition metadata_child_of_writable_root (p : FileSystemSandboxPolicy) (target cwd : str) : option (str * str) :=
  head (omap (metadata_child target) (resolved_entries_with_cwd p cwd)).

Definition has_explicit_write_entry_for_metadata_path
    (p : FileSystemSandboxPolicy) (protected_metadata_path target cwd : str) : bool :=
  existsb (fun e =>
      can_write (resolved_access e) && Path.starts_with target (resolved_path e)
      && Path.starts_with (resolved_path e) protected_metadata_path)
    (resolved_entries_with_cwd p cwd).

Definition is_metadata_write_denied (p : FileSystemSandboxPolicy) (path cwd : str) : bool :=
  if is_restricted (kind p) then
    match resolve_candidate_path path cwd with
    | None => true
    | Some target =>
        match metadata_child_of_writable_root p target cwd with
        | None => false
        | Some (protected_metadata_path, _) =>
            negb (has_explicit_write_entry_for_metadata_path p protected_metadata_path target cwd)
        end
    end
  else false.

Definition can_write_path_with_cwd (p : FileSystemSandboxPolicy) (path cwd : str) : bool :=
  if can_write (resolve_access_with_cwd p path cwd) then
    if has_full_disk_write_access p then true else negb (is_metadata_write_denied p path cwd)
  else false.

Definition forbidden_agent_metadata_write (path cwd : str) (p : FileSystemSandboxPolicy) : option str :=
  if is_restricted (kind p) then
    target ← resolve_candidate_path path cwd;
    '(protected_metadata_path, metadata_name) ← metadata_child_of_writable_root p target cwd;
    if has_explicit_write_entry_for_metadata_path p protected_metadata_path target cwd then None
    else if can_write_path_with_cwd p target cwd then None else Some metadata_name
  else None.

Definition has_explicit_non_write_entry_for_path_with_cwd (p : FileSystemSandboxPolicy) (path cwd : str) : bool :=
  match resolve_candidate_path path cwd with
  | None => false
  | Some path =>
      let cwd := ok (from_absolute_path cwd) in
      existsb (fun e =>
          negb (skips_missing_path e) && negb (can_write (access e))
          && is_some_and (resolve_entry_path (entry_path e) cwd) (Path.eqb path))
        (entries p)
  end.

End resolution.

(** ** Resolved entries and the entry that governs a path *)

(** The paths of a policy are values of [AbsolutePathBuf]. *)
Definition wf_entry (e : FileSystemSandboxEntry) : Prop :=
  match entry_path e with AtPath path => normalized path | _ => True end.
Definition wf_policy (p : FileSystemSandboxPolicy) : Prop := Forall wf_entry (entries p).

Definition is_wf_entry (e : FileSystemSandboxEntry) : bool :=
  match entry_path e with AtPath path => is_normalized path | _ => true end.

Lemma is_wf_sound p : forallb is_wf_entry (entries p) = true -> wf_policy p.
Proof.
  rewrite forallb_forall. intros Hall. apply Forall_forall. intros e He%list_elem_of_In%Hall.
  unfold wf_entry. unfold is_wf_entry in He. destruct (entry_path e); try done. by apply is_normalized_sound.
Qed.

(** The entry that decides the access to [target]: it is at or above [target], no such entry is
    more specific, and of those at the same path none has a stronger mode. *)
Definition Governs (target : str) (es : list ResolvedFileSystemEntry) (e : ResolvedFileSystemEntry) : Prop :=
  e ∈ es /\ Path.starts_with target (resolved_path e) = true /\
  forall e', e' ∈ es -> Path.starts_with target (resolved_path e') = true ->
    Path.starts_with (resolved_path e) (resolved_path e') = true /\
    (resolved_path e' = resolved_path e -> access_rank (resolved_access e') <= access_rank (resolved_access e)).

Lemma starts_with_refl p : Path.starts_with p p = true.
Proof. unfold Path.starts_with. by apply bool_decide_eq_true. Qed.

Lemma starts_with_trans p q r : Path.starts_with p q = true -> Path.starts_with q r = true -> Path.starts_with p r = true.
Proof. unfold Path.starts_with. rewrite !bool_decide_eq_true. intros H1 H2. by etrans. Qed.

Lemma starts_with_antisymm p q :
  normalized p -> normalized q -> Path.starts_with p q = true -> Path.starts_with q p = true -> p = q.
Proof.
  intros (ns & Hns & ->) (ms & Hms & ->). rewrite !starts_with_abs, !bool_decide_eq_true by done.
  intros H1 H2. f_equal. by apply (anti_symm prefix).
Qed.

(** Two paths at or above the same one: the longer is below the shorter. *)
Lemma starts_with_linear p q r :
  Path.starts_with p q = true -> Path.starts_with p r = true ->
  length (Path.components r) <= length (Path.components q) -> Path.starts_with q r = true.
Proof.
  unfold Path.starts_with. rewrite !bool_decide_eq_true. intros H1 H2 Hle.
  destruct (prefix_weak_total _ _ _ H1 H2) as [Hqr|]; [|done].
  by rewrite (prefix_length_eq _ _ Hqr Hle).
Qed.

Lemma access_rank_inj a b : access_rank a = access_rank b -> a = b.
Proof. by destruct a, b. Qed.

Section max_by.
Context {A : Type} (le : A -> A -> bool).
Hypothesis le_refl : forall x, le x x = true.
Hypothesis le_trans : forall x y z, le x y = true -> le y z = true -> le x z = true.
Hypothesis le_total : forall x y, le x y = true \/ le y x = true.

Lemma max_by_acc l best :
  match foldl (fun best x => match best with Some y => if le y x then Some x else best | None => Some x end) best l with
  | Some m => (m ∈ l \/ best = Some m) /\ (forall x, x ∈ l -> le x m = true) /\ (forall y, best = Some y -> le y m = true)
  | None => l = [] /\ best = None
  end.
Proof.
  revert best. induction l as [|x l IH]; intros best; simpl.
  - destruct best as [y|]; [|done]. split_and!; [by right|by intros ? ?%elem_of_nil|by intros ? [= <-]].
  - set (best' := match best with Some y => if le y x then Some x else best | None => Some x end).
    specialize (IH best'). assert (Hx : exists z, best' = Some z /\ le x z = true /\ (forall y, best = Some y -> le y z = true) /\ (z = x \/ best = Some z)).
    { subst best'. destruct best as [y|]; [|exists x; split_and!; [done..|by left]]. destruct (le y x) eqn:E.
      - exists x. split_and!; [done..|by intros ? [= <-]|by left].
      - exists y. split_and!; [done| |by intros ? [= <-]|by right]. by destruct (le_total y x) as [?|?]; [congruence|]. }
    destruct Hx as (z & Hz & Hxz & Hyz & Hin). destruct (foldl _ best' l) as [m|]; [|by destruct IH as [_ ?]; congruence].
    destruct IH as (Hm & Hl & Hb). specialize (Hb _ Hz). split_and!.
    + destruct Hm as [Hm|Hm]; [left; by right|]. rewrite Hz in Hm. injection Hm as <-.
      destruct Hin as [->|Hin]; [left; by left|by right].
    + intros w [->|Hw]%elem_of_cons; [by eapply le_trans|by apply Hl].
    + intros y Hy. eapply le_trans; [by apply Hyz|done].
Qed.

Lemma max_by_spec l :
  match max_by le l with
  | Some m => m ∈ l /\ forall x, x ∈ l -> le x m = true
  | None => l = []
  end.
Proof.
  pose proof (max_by_acc l None) as Hm. unfold max_by. destruct (foldl _ None l); [|by destruct Hm].
  destruct Hm as ([?|?] & Hx & _); done.
Qed.

End max_by.

Lemma precedence_leb_spec a b :
  precedence_leb a b = true <->
  length (Path.components (resolved_path a)) < length (Path.components (resolved_path b)) \/
  length (Path.components (resolved_path a)) = length (Path.components (resolved_path b)) /\
  access_rank (resolved_access a) <= access_rank (resolved_access b).
Proof.
  unfold precedence_leb, resolved_entry_precedence.
  by rewrite orb_true_iff, andb_true_iff, Nat.ltb_lt, Nat.eqb_eq, Nat.leb_le.
Qed.

Lemma max_by_precedence l :
  match max_by precedence_leb l with
  | Some m => m ∈ l /\ forall x, x ∈ l -> precedence_leb x m = true
  | None => l = []
  end.
Proof.
  apply max_by_spec; [intros x|intros x y z|intros x y]; rewrite !precedence_leb_spec; lia.
Qed.

Section access.
Context `{PathEnvLaws}.

Lemma resolve_candidate_normalized path cwd target : resolve_candidate_path path cwd = Some target -> normalized target.
Proof.
  unfold resolve_candidate_path. destruct (Path.is_absolute path).
  - destruct (from_absolute_path path) eqn:E; simpl; [|done]. intros [= <-]. by eapply from_absolute_path_normalized.
  - destruct (from_absolute_path cwd) eqn:E; simpl; [|done]. intros [= <-].
    by eapply join_normalized, from_absolute_path_normalized.
Qed.

Lemma from_normalized p : normalized p -> from_absolute_path p = inl p.
Proof.
  intros (names & Hns & ->). unfold from_absolute_path, absolutize, maybe_expand_home_directory.
  replace (strip_prefix (lit "~") (abs_path names)) with (@None str) by done.
  by rewrite abs_path_absolute, normalize_abs_path.
Qed.

(** A candidate that is in normal form already stands for itself. *)
Lemma resolve_candidate_id target cwd : normalized target -> resolve_candidate_path target cwd = Some target.
Proof. intros Hn. unfold resolve_candidate_path. by rewrite normalized_absolute, from_normalized. Qed.

Lemma normalized_root : normalized [SLASH].
Proof. by exists []. Qed.

(** The root of every absolute path is the root directory: no panic is reached. *)
Lemma absolute_root cwd : normalized cwd -> absolute_root_path_for_cwd cwd = [SLASH].
Proof.
  intros (names & Hns & ->). unfold absolute_root_path_for_cwd.
  assert (Hl : last (Path.ancestors (abs_path names)) = Some [SLASH]).
  { unfold Path.ancestors. rewrite components_abs_path by done. induction names as [|n names IH] using rev_ind; [done|].
    apply forallb_snoc in Hns as [Hns Hn]. rewrite fmap_app, app_comm_cons, rev_app_distr. simpl (rev [_] ++ _).
    simpl (Path.parents _). rewrite fmap_cons, last_cons_cons, rev_app_distr, rev_involutive.
    change (rev [RootDir] ++ (Normal <$> names)) with (RootDir :: (Normal <$> names)).
    rewrite path_of_abs by done. by apply IH. }
  by rewrite Hl.
Qed.

Lemma resolve_slash_tmp cwd :
  resolve_file_system_special_path SlashTmp cwd = if path_is_dir (lit "/tmp") then Some (lit "/tmp") else None.
Proof. done. Qed.

Lemma normalized_slash_tmp : normalized (lit "/tmp").
Proof. by exists [lit "tmp"]. Qed.

Lemma resolve_special_normalized value cwd q :
  (forall c, cwd = Some c -> normalized c) -> resolve_file_system_special_path value cwd = Some q -> normalized q.
Proof.
  intros Hc. destruct value as [| |subpath| | |]; [done..| | | |done].
  - simpl. destruct cwd as [c|]; simpl; [|done]. destruct subpath; intros [= <-]; [|by apply Hc].
    by apply resolve_normalized, normalized_absolute, Hc.
  - simpl. destruct tmpdir as [t|]; simpl; [|done]. destruct (is_empty t); [done|].
    destruct (from_absolute_path t) eqn:E; simpl; [|done]. intros [= <-]. by eapply from_absolute_path_normalized.
  - rewrite resolve_slash_tmp. destruct (path_is_dir _); [|done]. intros [= <-]. apply normalized_slash_tmp.
Qed.

Lemma ok_from_normalized path c : ok (from_absolute_path path) = Some c -> normalized c.
Proof. destruct (from_absolute_path path) eqn:E; simpl; [|done]. intros [= <-]. by eapply from_absolute_path_normalized. Qed.

Lemma resolved_normalized p cwd e : wf_policy p -> e ∈ resolved_entries_with_cwd p cwd -> normalized (resolved_path e).
Proof.
  intros Hp. unfold resolved_entries_with_cwd. rewrite list_elem_of_omap. intros (x & Hx & He).
  unfold resolve_entry in He. destruct (resolve_entry_path _ _) as [q|] eqn:Eq; simpl in He; [|done]. injection He as <-.
  simpl. assert (Hspecial : forall v, resolve_file_system_special_path v (ok (from_absolute_path cwd)) = Some q -> normalized q).
  { intros v. apply resolve_special_normalized. by intros c Hc%ok_from_normalized. }
  unfold wf_policy in Hp. rewrite Forall_forall in Hp. specialize (Hp _ Hx). unfold wf_entry in Hp.
  destruct (entry_path x) as [path|pat|v]; simpl in Eq.
  - by injection Eq as <-.
  - done.
  - destruct v; try (by eapply Hspecial). destruct (from_absolute_path cwd) eqn:E; simpl in Eq; [|done].
    injection Eq as <-. rewrite absolute_root by (by eapply from_absolute_path_normalized). apply normalized_root.
Qed.

Lemma elem_of_matching target es e :
  e ∈ List.filter (fun e => Path.starts_with target (resolved_path e)) es <->
  e ∈ es /\ Path.starts_with target (resolved_path e) = true.
Proof. by rewrite !list_elem_of_In, filter_In. Qed.

(** The greatest matching entry is the one that governs. *)
Lemma max_by_governs target es :
  Forall (fun e => normalized (resolved_path e)) es ->
  match max_by precedence_leb (List.filter (fun e => Path.starts_with target (resolved_path e)) es) with
  | Some m => Governs target es m
  | None => forall e, e ∈ es -> Path.starts_with target (resolved_path e) = false
  end.
Proof.
  intros Hn. rewrite Forall_forall in Hn.
  pose proof (max_by_precedence (List.filter (fun e => Path.starts_with target (resolved_path e)) es)) as Hm.
  destruct (max_by _ _) as [m|].
  - destruct Hm as [[Hin Hst]%elem_of_matching Hmax]. split_and!; [done..|]. intros e' He' Hst'.
    pose proof (Hmax e' (proj2 (elem_of_matching _ _ _) (conj He' Hst'))) as Hle. apply precedence_leb_spec in Hle.
    split; [apply (starts_with_linear target); [done..|lia]|]. intros Heq. rewrite Heq in Hle. lia.
  - intros e He. destruct (Path.starts_with target _) eqn:E; [|done]. exfalso. eapply (not_elem_of_nil e). rewrite <- Hm.
    by apply elem_of_matching.
Qed.

Lemma governs_unique target es e e' :
  Forall (fun e => normalized (resolved_path e)) es -> Governs target es e -> Governs target es e' ->
  resolved_path e = resolved_path e' /\ resolved_access e = resolved_access e'.
Proof.
  intros Hn (Hin & Hst & Hmax) (Hin' & Hst' & Hmax'). rewrite Forall_forall in Hn.
  destruct (Hmax _ Hin' Hst') as [Hb Hr], (Hmax' _ Hin Hst) as [Hb' Hr'].
  assert (Heq : resolved_path e = resolved_path e') by (apply starts_with_antisymm; auto). split; [done|].
  apply access_rank_inj. specialize (Hr (eq_sym Heq)). specialize (Hr' Heq). lia.
Qed.

Lemma resolved_all_normalized p cwd : wf_policy p -> Forall (fun e => normalized (resolved_path e)) (resolved_entries_with_cwd p cwd).
Proof. intros Hp. apply Forall_forall. intros e. by apply resolved_normalized. Qed.

(** The access of a restricted policy: that of the governing entry, or none. *)
Lemma resolve_access_cases p path cwd target :
  wf_policy p -> kind p = Restricted -> resolve_candidate_path path cwd = Some target ->
  (exists e, Governs target (resolved_entries_with_cwd p cwd) e /\ resolve_access_with_cwd p path cwd = resolved_access e) \/
  (forall e, e ∈ resolved_entries_with_cwd p cwd -> Path.starts_with target (resolved_path e) = false) /\
  resolve_access_with_cwd p path cwd = Deny.
Proof.
  intros Hp Hk Ht. unfold resolve_access_with_cwd. rewrite Hk, Ht.
  pose proof (max_by_governs target _ (resolved_all_normalized p cwd Hp)) as Hm.
  destruct (max_by _ _) as [m|]; [left; by exists m|by right].
Qed.

Lemma governs_access p path cwd target e :
  wf_policy p -> kind p = Restricted -> resolve_candidate_path path cwd = Some target ->
  Governs target (resolved_entries_with_cwd p cwd) e -> resolve_access_with_cwd p path cwd = resolved_access e.
Proof.
  intros Hp Hk Ht Hg. destruct (resolve_access_cases p path cwd target Hp Hk Ht) as [(e' & Hg' & ->)|[Hnone _]].
  - eapply governs_unique; [by apply resolved_all_normalized|done..].
  - destruct Hg as (Hin & Hst & _). by rewrite Hnone in Hst.
Qed.

End access.

(** ** The access of a path *)

Section access_theorems.
Context `{PathEnvLaws}.

Lemma governs_perm target es es' e : es ≡ₚ es' -> Governs target es e -> Governs target es' e.
Proof.
  intros Hp (Hin & Hst & Hmax). split_and!; [by rewrite <- Hp|done|]. intros e' He'. apply Hmax. by rewrite Hp.
Qed.

Lemma resolved_perm p es cwd :
  es ≡ₚ entries p -> resolved_entries_with_cwd (set_entries p es) cwd ≡ₚ resolved_entries_with_cwd p cwd.
Proof. intros Hp. unfold resolved_entries_with_cwd. simpl. by rewrite Hp. Qed.

(** C12: how a policy decides.  The access of a restricted policy to a path is that of the entry
    that governs it, the most specific of those at or above the path, and among entries for the
    same path the one with the strongest mode, [deny] before [write] before [read]; with no
    entry at or above the path it is [deny].  The order in which a policy lists its entries
    makes no difference. *)
Theorem most_specific_entry_decides p path cwd target :
  wf_policy p -> kind p = Restricted -> resolve_candidate_path path cwd = Some target ->
  (forall a, resolve_access_with_cwd p path cwd = a <->
     (exists e, Governs target (resolved_entries_with_cwd p cwd) e /\ resolved_access e = a) \/
     a = Deny /\ forall e, e ∈ resolved_entries_with_cwd p cwd -> Path.starts_with target (resolved_path e) = false) /\
  forall es, es ≡ₚ entries p -> resolve_access_with_cwd (set_entries p es) path cwd = resolve_access_with_cwd p path cwd.
Proof.
  intros Hp Hk Ht. split.
  - intros a. split.
    + intros <-. destruct (resolve_access_cases p path cwd target Hp Hk Ht) as [(e & Hg & ->)|[Hnone ->]];
        [left; by exists e|by right].
    + intros [(e & Hg & <-)|[-> Hnone]]; [by eapply governs_access|].
      destruct (resolve_access_cases p path cwd target Hp Hk Ht) as [(e & (Hin & Hst & _) & _)|[_ ->]]; [|done].
      by rewrite Hnone in Hst.
  - intros es Hes. assert (Hp' : wf_policy (set_entries p es)) by (unfold wf_policy; simpl; by rewrite Hes).
    pose proof (resolved_perm p es cwd Hes) as Hperm.
    destruct (resolve_access_cases p path cwd target Hp Hk Ht) as [(e & Hg & ->)|[Hnone ->]].
    + eapply governs_access; [done..|]. eapply governs_perm; [symmetry; exact Hperm|done].
    + destruct (resolve_access_cases (set_entries p es) path cwd target Hp' Hk Ht) as [(e & (Hin & Hst & _) & _)|[_ ->]];
        [|done]. rewrite Hperm in Hin. by rewrite Hnone in Hst.
Qed.

(** Entries of a policy, and what they resolve to. *)
Lemma elem_of_resolved p cwd r :
  r ∈ resolved_entries_with_cwd p cwd <->
  exists e, e ∈ entries p /\ resolve_entry_path (entry_path e) (ok (from_absolute_path cwd)) = Some (resolved_path r) /\
    access e = resolved_access r.
Proof.
  unfold resolved_entries_with_cwd. rewrite list_elem_of_omap. unfold resolve_entry. split.
  - intros (e & Hin & He). exists e. destruct (resolve_entry_path _ _); simpl in He; [|done]. by injection He as <-.
  - intros (e & Hin & He & Ha). exists e. split; [done|]. rewrite He. simpl. rewrite Ha. by destruct r.
Qed.

Lemma existsb_elem {A} (f : A -> bool) l : existsb f l = true <-> exists x, x ∈ l /\ f x = true.
Proof. rewrite existsb_exists. by setoid_rewrite list_elem_of_In. Qed.

Lemma existsb_elem_false {A} (f : A -> bool) l : existsb f l = false <-> forall x, x ∈ l -> f x = false.
Proof.
  rewrite <- not_true_iff_false, existsb_elem. split.
  - intros Hn x Hx. destruct (f x) eqn:E; [|done]. destruct Hn. by exists x.
  - intros Hf (x & Hx & Ht). by rewrite Hf in Ht.
Qed.

Lemma starts_with_root target : normalized target -> Path.starts_with target [SLASH] = true.
Proof.
  intros (ns & Hns & ->). change [SLASH] with (abs_path []). rewrite starts_with_abs by done.
  apply bool_decide_eq_true. by apply prefix_nil.
Qed.

Lemma parent_none q : normalized q -> Path.parent q = None -> q = [SLASH].
Proof. intros (ns & Hns & ->). rewrite parent_abs by done. by destruct ns. Qed.

(** An entry overridden at its own target: both entries resolve to the same path. *)
Lemma share_target_resolves cwd c e q :
  (forall v, cwd = Some v -> normalized v) -> wf_entry c -> wf_entry e -> path_is_dir (lit "/tmp") = true -> is_Some cwd ->
  file_system_paths_share_target (entry_path c) (entry_path e) = true ->
  resolve_entry_path (entry_path e) cwd = Some q -> resolve_entry_path (entry_path c) cwd = Some q.
Proof.
  intros Hcwd Hc He Htmp [w ->]. unfold wf_entry in Hc, He.
  assert (Hw : normalized w) by by apply Hcwd.
  assert (Hmatch : forall v x q, normalized x -> special_path_matches_absolute_path v x = true ->
    resolve_entry_path (Special v) (Some w) = Some q <-> x = q).
  { intros v x q' Hx. destruct v; try done; cbn [special_path_matches_absolute_path resolve_entry_path].
    - rewrite bool_decide_eq_true. intros ->%parent_none; [|done]. simpl. rewrite absolute_root by done. naive_solver.
    - intros ->%eqb_normalized; [|done|apply normalized_slash_tmp]. unfold resolve_file_system_path.
      rewrite resolve_slash_tmp, Htmp. naive_solver. }
  destruct (entry_path c) as [x|x|v] eqn:Ec, (entry_path e) as [y|y|u] eqn:Ee; cbn [file_system_paths_share_target]; try done.
  - intros ->%eqb_normalized; [|done..]. done.
  - intros Hm Hr. apply (Hmatch u x q) in Hr; [|done..]. by subst.
  - intros Hm [= <-]. by apply (Hmatch v y y).
  - intros Hs. replace u with v; [done|]. destruct v, u; simpl in Hs; try done.
    + by apply bool_decide_eq_true in Hs as ->.
    + apply andb_true_iff in Hs as [H1%bool_decide_eq_true H2%bool_decide_eq_true]. by subst.
Qed.

Lemma governs_strongest target es g a :
  Governs target es g -> mkResolved (resolved_path g) a ∈ es -> access_rank a <= access_rank (resolved_access g).
Proof. intros (_ & Hst & Hmax) Hin. by apply (Hmax _ Hin Hst). Qed.

(** An entry that a write entry for the same target overrides governs nothing. *)
Lemma overridden_does_not_govern p cwd c target g x :
  wf_policy p -> from_absolute_path cwd = inl c -> path_is_dir (lit "/tmp") = true ->
  Governs target (resolved_entries_with_cwd p cwd) g ->
  x ∈ entries p -> resolve_entry_path (entry_path x) (Some c) = Some (resolved_path g) -> access x = resolved_access g ->
  has_same_target_write_override p x = false.
Proof.
  intros Hp Hc Htmp Hg Hx Hres Ha. apply not_true_iff_false.
  intros (cand & Hcand & [[Hcw Hlt%Nat.ltb_lt]%andb_true_iff Hsh]%andb_true_iff)%existsb_elem.
  unfold wf_policy in Hp. rewrite Forall_forall in Hp.
  assert (Hin : mkResolved (resolved_path g) (access cand) ∈ resolved_entries_with_cwd p cwd).
  { apply elem_of_resolved. exists cand. split; [done|]. rewrite Hc. simpl. split; [|done].
    eapply share_target_resolves; [|by apply Hp|by apply (Hp x)|done|by eexists|done..].
    intros ? [= <-]. by eapply from_absolute_path_normalized. }
  pose proof (governs_strongest _ _ _ _ Hg Hin) as Hle. rewrite Ha in Hlt. lia.
Qed.

(** With a root entry, every path is governed. *)
Lemma root_access_governs p path cwd target c pred :
  wf_policy p -> resolve_candidate_path path cwd = Some target -> from_absolute_path cwd = inl c ->
  has_root_access p pred = true ->
  exists e0 g, mkResolved [SLASH] (access e0) ∈ resolved_entries_with_cwd p cwd /\ pred (access e0) = true /\
    Governs target (resolved_entries_with_cwd p cwd) g /\ resolve_access_with_cwd p path cwd = resolved_access g.
Proof.
  intros Hp Ht Hc. unfold has_root_access. intros [Hk%bool_decide_eq_true (e0 & He0 & Hw)%existsb_elem]%andb_true_iff.
  destruct (entry_path e0) as [| |[]] eqn:E0; try done.
  assert (Hroot : mkResolved [SLASH] (access e0) ∈ resolved_entries_with_cwd p cwd).
  { apply elem_of_resolved. exists e0. rewrite E0, Hc. simpl.
    rewrite absolute_root by (by eapply from_absolute_path_normalized). done. }
  destruct (resolve_access_cases p path cwd target Hp Hk Ht) as [(g & Hg & Ha)|[Hnone _]]; [by exists e0, g|].
  specialize (Hnone _ Hroot). simpl in Hnone. rewrite starts_with_root in Hnone; [done|].
  by eapply resolve_candidate_normalized.
Qed.

Lemma unnarrowed_is_writable p path cwd target c :
  wf_policy p -> kind p = Restricted -> resolve_candidate_path path cwd = Some target -> from_absolute_path cwd = inl c ->
  path_is_dir (lit "/tmp") = true -> has_root_access p can_write = true -> has_write_narrowing_entries p = false ->
  resolve_access_with_cwd p path cwd = Write.
Proof.
  intros Hp Hk Ht Hc Htmp Hr Hnn. destruct (root_access_governs p path cwd target c _ Hp Ht Hc Hr) as (e0 & g & He0 & Hw0 & Hg & ->).
  unfold has_write_narrowing_entries, is_restricted in Hnn. rewrite bool_decide_eq_true_2 in Hnn by done.
  simpl in Hnn. rewrite existsb_elem_false in Hnn.
  pose proof Hg as (Hin & _ & _). apply elem_of_resolved in Hin as (x & Hx & Hres & Ha). rewrite Hc in Hres. simpl in Hres.
  specialize (Hnn _ Hx). unfold narrows_write in Hnn. rewrite Ha in Hnn.
  destruct (can_write (resolved_access g)) eqn:Eg; [by destruct (resolved_access g)|].
  rewrite (overridden_does_not_govern p cwd c target g x) in Hnn by done.
  destruct (entry_path x) as [q|q|[]] eqn:Ex; try done. unfold is_deny in Hnn.
  rewrite bool_decide_eq_false, Ha in Hnn. simpl in Hres. rewrite absolute_root in Hres by (by eapply from_absolute_path_normalized).
  injection Hres as Hres. rewrite Hres in He0. pose proof (governs_strongest _ _ _ _ Hg He0) as Hle.
  destruct (resolved_access g), (access e0); simpl in *; try done; lia.
Qed.

(** Disk-wide access is what it says.  Where a policy has full write access, every path that
    resolves can be written; where it has full read access, every path that resolves can be
    read.  The working directory must resolve, and [/tmp] must be a directory, as it is on the
    systems the policy is for. *)
Theorem full_disk_access_is_full p path cwd target c :
  wf_policy p -> resolve_candidate_path path cwd = Some target -> from_absolute_path cwd = inl c ->
  path_is_dir (lit "/tmp") = true ->
  (has_full_disk_write_access p = true -> can_write_path_with_cwd p path cwd = true) /\
  (has_full_disk_read_access p = true -> can_read_path_with_cwd p path cwd = true).
Proof.
  intros Hp Ht Hc Htmp. destruct (decide (kind p = Restricted)) as [Hk|Hk].
  2: { unfold can_write_path_with_cwd, can_read_path_with_cwd, resolve_access_with_cwd, has_full_disk_write_access.
       by destruct (kind p). }
  split.
  - unfold can_write_path_with_cwd. intros Hf. rewrite Hf. unfold has_full_disk_write_access in Hf. rewrite Hk in Hf.
    apply andb_true_iff in Hf as [Hr Hnn%negb_true_iff]. by rewrite (unnarrowed_is_writable p path cwd target c).
  - unfold can_read_path_with_cwd, has_full_disk_read_access. rewrite Hk. intros [Hr Hnn%negb_true_iff]%andb_true_iff.
    destruct (root_access_governs p path cwd target c _ Hp Ht Hc Hr) as (e0 & g & _ & _ & (Hin & _ & _) & ->).
    apply elem_of_resolved in Hin as (x & Hx & _ & Ha). unfold has_denied_read_restrictions, is_restricted in Hnn.
    rewrite bool_decide_eq_true_2 in Hnn by done. simpl in Hnn. rewrite existsb_elem_false in Hnn. specialize (Hnn _ Hx).
    unfold is_deny in Hnn. rewrite bool_decide_eq_false, Ha in Hnn. by destruct (resolved_access g).
Qed.

End access_theorems.

(** ** Protected metadata *)

Lemma components_rel names : forallb is_name names = true -> Path.components (join [SLASH] names) = Normal <$> names.
Proof.
  intros Hns. destruct names as [|n names]; [done|]. unfold Path.components. rewrite split_join by done.
  assert (Hn : is_name n = true) by (simpl in Hns; by apply andb_true_iff in Hns as [? _]).
  apply is_name_spec in Hn as (Hne & Hd & _ & Hs). replace (Path.is_absolute (join [SLASH] (n :: names))) with false.
  - unfold str_eqb. rewrite bool_decide_eq_false_2 by done. by apply omap_pieces.
  - symmetry. destruct n as [|c n]; [done|]. rewrite join_cons_char, is_absolute_cons. unfold char_eqb.
    apply N.eqb_neq. set_solver.
Qed.

Lemma forallb_prefix {A} (f : A -> bool) l k : forallb f (l ++ k) = true -> forallb f l = true /\ forallb f k = true.
Proof. rewrite forallb_app. apply andb_true_iff. Qed.

(** Relative to one of its ancestors, a path is the names below it. *)
Lemma strip_prefix_abs ts rs :
  forallb is_name ts = true -> forallb is_name rs = true ->
  forall q, Path.strip_prefix (abs_path ts) (abs_path rs) = Some q <->
  exists k, ts = rs ++ k /\ q = join [SLASH] k.
Proof.
  intros Ht Hr q. unfold Path.strip_prefix. rewrite starts_with_abs by done. case_bool_decide as Hp.
  - destruct Hp as [k ->]. pose proof (forallb_prefix _ _ _ Ht) as [_ Hk].
    rewrite !components_abs_path, fmap_app by done. rewrite length_cons, app_comm_cons.
    rewrite drop_app_length' by by rewrite length_cons. rewrite path_of_names by done. split.
    + intros [= <-]. by exists k.
    + by intros (k' & ->%app_inv_head & ->).
  - split; [done|]. intros (k & -> & _). destruct Hp. by apply prefix_app_r.
Qed.

Section metadata.
Context `{PathEnvLaws}.

Lemma expand_plain path : strip_prefix (lit "~") path = None -> maybe_expand_home_directory path = path.
Proof. intros Hs. unfold maybe_expand_home_directory. by rewrite Hs. Qed.

(** Joining a name to an absolute path. *)
Lemma join_name ns n :
  forallb is_name ns = true -> is_name n = true -> strip_prefix (lit "~") n = None ->
  abs_join (abs_path ns) n = abs_path (ns ++ [n]).
Proof.
  intros Hns Hn Hs. unfold abs_join, resolve_path_against_base, absolutize_from, path_with_base. rewrite expand_plain by done.
  pose proof Hn as (_ & _ & _ & Hsl)%is_name_spec. rewrite is_absolute_name, push_abs by done.
  apply normalize_abs_path. by apply forallb_snoc.
Qed.

Lemma metadata_name_ok m : m ∈ PROTECTED_METADATA_PATH_NAMES -> is_name m = true /\ strip_prefix (lit "~") m = None.
Proof.
  intros Hm. unfold PROTECTED_METADATA_PATH_NAMES in Hm. rewrite !elem_of_cons, elem_of_nil in Hm.
  by destruct Hm as [->|[->|[->|[]]]].
Qed.

Lemma metadata_path_name_spec n m : metadata_path_name n = Some m <-> n = m /\ m ∈ PROTECTED_METADATA_PATH_NAMES.
Proof.
  unfold metadata_path_name. split.
  - intros [Hin Heq%bool_decide_eq_true]%find_some. split; [done|]. by apply list_elem_of_In.
  - intros [-> Hm]. unfold PROTECTED_METADATA_PATH_NAMES in Hm. rewrite !elem_of_cons, elem_of_nil in Hm.
    by destruct Hm as [->|[->|[->|[]]]].
Qed.

(** The metadata directory of a writable entry in which a path is. *)
Lemma metadata_child_spec ts rs a mp m :
  forallb is_name ts = true -> forallb is_name rs = true ->
  metadata_child (abs_path ts) (mkResolved (abs_path rs) a) = Some (mp, m) <->
  a = Write /\ m ∈ PROTECTED_METADATA_PATH_NAMES /\ mp = abs_path (rs ++ [m]) /\ rs ++ [m] `prefix_of` ts.
Proof.
  intros Ht Hr. unfold metadata_child. simpl. destruct (can_write a) eqn:Ea.
  2: { split; [done|]. by intros [-> _]. }
  destruct a; [done| |done]. clear Ea.
  destruct (Path.strip_prefix (abs_path ts) (abs_path rs)) as [q|] eqn:Es; simpl.
  - apply strip_prefix_abs in Es as (k & -> & ->); [|done..]. pose proof (forallb_prefix _ _ _ Ht) as [_ Hk].
    rewrite components_rel by done. destruct k as [|n k]; simpl.
    + split; [done|]. intros (_ & _ & _ & Hp). apply prefix_length in Hp. rewrite !length_app in Hp. simpl in Hp. lia.
    + destruct (metadata_path_name n) as [m'|] eqn:Em; simpl.
      * apply metadata_path_name_spec in Em as [-> Hm']. destruct (metadata_name_ok m' Hm') as [Hn Hs].
        rewrite join_name by done. split.
        -- intros [= <- <-]. split_and!; [done..|]. apply prefix_app, prefix_cons, prefix_nil.
        -- intros (_ & _ & -> & Hp). apply prefix_app_inv in Hp. apply prefix_cons_inv_1 in Hp. by subst.
      * split; [done|]. intros (_ & Hm & _ & Hp). apply prefix_app_inv, prefix_cons_inv_1 in Hp. subst n.
        assert (metadata_path_name m = Some m) by by apply metadata_path_name_spec. congruence.
  - split; [done|]. intros (_ & _ & _ & [k ->]). rewrite <- (assoc (++)) in Es.
    assert (Path.strip_prefix (abs_path (rs ++ [m] ++ k)) (abs_path rs) = Some (join [SLASH] ([m] ++ k))) as Hx.
    { apply strip_prefix_abs; [by rewrite <- (assoc (++)) in Ht|done|]. by exists ([m] ++ k). }
    congruence.
Qed.

Lemma head_omap_None {A B} (f : A -> option B) l x : head (omap f l) = None -> x ∈ l -> f x = None.
Proof.
  induction l as [|y l IH]; [by intros _ ?%elem_of_nil|]. csimpl. destruct (f y) eqn:E; [done|].
  intros Hh [->|Hx]%elem_of_cons; [done|by apply IH].
Qed.

Lemma head_omap_Some {A B} (f : A -> option B) l b : head (omap f l) = Some b -> exists x, x ∈ l /\ f x = Some b.
Proof. intros Hh. apply head_Some_elem_of in Hh. by apply list_elem_of_omap in Hh. Qed.

Lemma explicit_write_spec p mp target cwd :
  has_explicit_write_entry_for_metadata_path p mp target cwd = true <->
  exists w, w ∈ resolved_entries_with_cwd p cwd /\ resolved_access w = Write /\
    Path.starts_with target (resolved_path w) = true /\ Path.starts_with (resolved_path w) mp = true.
Proof.
  unfold has_explicit_write_entry_for_metadata_path. rewrite existsb_elem.
  split; intros (w & Hw & Hrest); exists w; (split; [done|]); rewrite ?andb_true_iff in *; destruct (resolved_access w); naive_solver.
Qed.

(** No name of the path is that of a metadata directory. *)
Definition outside_metadata (path : str) : Prop :=
  forall n, Normal n ∈ Path.components path -> is_protected_metadata_name n = false.

Lemma protected_name_spec m : is_protected_metadata_name m = true <-> m ∈ PROTECTED_METADATA_PATH_NAMES.
Proof.
  unfold is_protected_metadata_name. rewrite existsb_elem. unfold str_eqb. setoid_rewrite bool_decide_eq_true. naive_solver.
Qed.

(** The metadata of a workspace is protected.  Let a policy be restricted and without full
    write access, [e] an entry that makes a directory writable, and [target] in one of the
    directories [.git], [.agents], [.codex] of it, or such a directory itself.  Then [target] can
    be written only if the policy has a write entry for that metadata directory or for a path in
    it at or above [target].  The directory of [e] must not itself be in a metadata directory. *)
Theorem metadata_needs_explicit_entry p path cwd target e m :
  wf_policy p -> kind p = Restricted -> has_full_disk_write_access p = false ->
  resolve_candidate_path path cwd = Some target ->
  e ∈ resolved_entries_with_cwd p cwd -> resolved_access e = Write -> outside_metadata (resolved_path e) ->
  m ∈ PROTECTED_METADATA_PATH_NAMES -> Path.starts_with target (abs_join (resolved_path e) m) = true ->
  can_write_path_with_cwd p path cwd = true ->
  exists w, w ∈ resolved_entries_with_cwd p cwd /\ resolved_access w = Write /\
    Path.starts_with target (resolved_path w) = true /\
    Path.starts_with (resolved_path w) (abs_join (resolved_path e) m) = true.
Proof.
  intros Hp Hk Hfull Ht He Ha Hout Hm Htm Hw.
  destruct (resolve_candidate_normalized _ _ _ Ht) as (ts & Hts & ->).
  destruct (resolved_normalized _ _ _ Hp He) as (rs & Hrs & Her).
  destruct (metadata_name_ok m Hm) as [Hnm Hsm]. rewrite Her in *. rewrite join_name in * by done.
  assert (Hrm : forallb is_name (rs ++ [m]) = true) by by apply forallb_snoc.
  rewrite starts_with_abs, bool_decide_eq_true in Htm by done.
  unfold can_write_path_with_cwd in Hw. destruct (can_write _); [|done]. rewrite Hfull in Hw.
  apply negb_true_iff in Hw. unfold is_metadata_write_denied, is_restricted in Hw. rewrite Hk, Ht in Hw. simpl in Hw.
  destruct (metadata_child_of_writable_root p (abs_path ts) cwd) as [[mp m1]|] eqn:Ec.
  2: { pose proof (head_omap_None _ _ e Ec He) as Hn. destruct e as [re ae]. simpl in Her, Ha. subst re ae.
       assert (metadata_child (abs_path ts) (mkResolved (abs_path rs) Write) = Some (abs_path (rs ++ [m]), m)) as Hx.
       { by apply metadata_child_spec. }
       congruence. }
  apply negb_false_iff, explicit_write_spec in Hw as (w & Hw & Haw & Htw & Hwm).
  apply head_omap_Some in Ec as ([re1 a1] & He1 & Hc1). destruct (resolved_normalized _ _ _ Hp He1) as (rs1 & Hrs1 & Hre1).
  simpl in Hre1. subst re1. apply metadata_child_spec in Hc1 as (_ & Hm1 & -> & Hpre1); [|done..].
  exists w. split_and!; [done..|]. destruct (resolved_normalized _ _ _ Hp Hw) as (ws & Hws & Hwp). rewrite Hwp in *.
  assert (Hrm1 : forallb is_name (rs1 ++ [m1]) = true) by by apply forallb_snoc; split; [|apply metadata_name_ok].
  rewrite starts_with_abs, bool_decide_eq_true in * by done.
  destruct (prefix_weak_total _ _ _ Htw Htm) as [[k Hwk]|Hrw]; [|done].
  destruct (decide (k = [])) as [->|Hne]; [rewrite app_nil_r in Hwk; by rewrite Hwk|]. exfalso.
  destruct (exists_last Hne) as (k' & x & ->). rewrite (assoc (++)) in Hwk. apply app_inj_tail in Hwk as [-> _].
  assert (Hin : m1 ∈ ws) by (destruct Hwm as [l ->]; set_solver).
  enough (is_protected_metadata_name m1 = false) as Hf by (apply protected_name_spec in Hm1; congruence).
  apply Hout. rewrite components_abs_path by done. set_solver.
Qed.

End metadata.

(** The protection depends on the order of the entries where one writable directory is in the
    metadata directory of another: [.git/.codex] can be written under one order and not under
    the other. *)
Definition nested_metadata_entries : list FileSystemSandboxEntry :=
  [new_entry (AtPath (lit "/ws")) Write; new_entry (AtPath (lit "/ws/.git")) Write].

Lemma metadata_protection_depends_on_order :
  let env := example_env in
  can_write_path_with_cwd (restricted nested_metadata_entries) (lit "/ws/.git/.codex/x") (lit "/ws") = true /\
  can_write_path_with_cwd (restricted (rev nested_metadata_entries)) (lit "/ws/.git/.codex/x") (lit "/ws") = false.
Proof. split; by vm_compute. Qed.

(** Without a directory [/tmp], a write entry for it hides a read entry for its path from the
    computation of full access, although it resolves to nothing. *)
Lemma full_access_without_tmp :
  let env := plain_env (lit "/home/u") (lit "ws") None [] [] in
  let p := restricted [new_entry (Special Root) Write; new_entry (Special SlashTmp) Write; new_entry (AtPath (lit "/tmp")) Read] in
  has_full_disk_write_access p = true /\ can_write_path_with_cwd p (lit "/tmp/x") (lit "/ws") = false.
Proof. split; by vm_compute. Qed.

(** ** Examples *)

(** A workspace with a nested directory that is read-only, and denied by a second entry. *)
Definition example_policy : FileSystemSandboxPolicy :=
  restricted [new_entry (AtPath (lit "/ws")) Write; new_entry (AtPath (lit "/ws/a")) Deny; new_entry (AtPath (lit "/ws/a")) Read;
              new_entry (AtPath (lit "/ws/.git/hooks")) Write].

Lemma most_specific_entry_decides_witness :
  let env := example_env in
  resolve_access_with_cwd example_policy (lit "a/../a/b") (lit "/ws") = Deny /\
  resolve_access_with_cwd (set_entries example_policy (rev (entries example_policy))) (lit "a/../a/b") (lit "/ws") = Deny.
Proof.
  intros env. destruct (most_specific_entry_decides example_policy (lit "a/../a/b") (lit "/ws") (lit "/ws/a/b")) as [Ha Hp].
  - apply is_wf_sound. by vm_compute.
  - done.
  - by vm_compute.
  - assert (Hd : resolve_access_with_cwd example_policy (lit "a/../a/b") (lit "/ws") = Deny) by by vm_compute.
    split; [done|]. rewrite Hp; [done|]. apply Permutation_sym, Permutation_rev.
Defined.

Lemma full_disk_access_is_full_witness :
  let env := example_env in
  can_write_path_with_cwd (restricted [new_entry (AtPath (lit "/tmp")) Read; new_entry (Special SlashTmp) Write; new_entry (Special Root) Write])
    (lit "/tmp/x") (lit "/ws") = true.
Proof.
  intros env. eapply full_disk_access_is_full.
  - apply is_wf_sound. by vm_compute.
  - vm_compute. reflexivity.
  - vm_compute. reflexivity.
  - by vm_compute.
  - by vm_compute.
Defined.

Lemma metadata_needs_explicit_entry_witness :
  let env := example_env in
  exists w, w ∈ resolved_entries_with_cwd example_policy (lit "/ws") /\ resolved_access w = Write /\
    Path.starts_with (lit "/ws/.git/hooks/x") (resolved_path w) = true /\
    Path.starts_with (resolved_path w) (abs_join (lit "/ws") (lit ".git")) = true.
Proof.
  intros env.
  apply (metadata_needs_explicit_entry example_policy (lit "/ws/.git/hooks/x") (lit "/ws") _ (mkResolved (lit "/ws") Write) (lit ".git")).
  - apply is_wf_sound. by vm_compute.
  - done.
  - by vm_compute.
  - by vm_compute.
  - left.
  - done.
  - intros n Hn. change (Normal n ∈ [RootDir; Normal (lit "ws")]) in Hn. rewrite !elem_of_cons, elem_of_nil in Hn.
    destruct Hn as [?|[Hn|[]]]; [done|]. injection Hn as ->. by vm_compute.
  - left.
  - by vm_compute.
  - by vm_compute.
Defined.
