(* ===== verification/FsUpdates.v ===== *)
(** * Building and changing sandbox policies: [protocol/src/permissions.rs]

    The operations that make a policy for a workspace, protect metadata in it, resolve its
    project roots, add roots to it, or carry denied reads over from another policy, over the
    data of [FsPolicy.v], and what they do to the access of paths. *)

From stdpp Require Import base list strings sets.
From S2P Require Import Prelude FileSystem AbsPath FsPolicy.

Import Path (SLASH, Component, RootDir, CurDir, ParentDir, Normal).

(** ** Operations *)

Definition push_missing_entry (p : FileSystemSandboxPolicy) (e : FileSystemSandboxEntry) : FileSystemSandboxPolicy :=
  if existsb (fun existing => entry_eqb existing e) (entries p) then p else push_entry p e.

(** [preserve_deny_read_restrictions_from]. *)
Definition preserve_deny_read_restrictions_from (p existing : FileSystemSandboxPolicy) : FileSystemSandboxPolicy :=
  let has_deny_read_entries := existsb is_deny (entries existing) in
  let p := if bool_decide (kind p = Unrestricted) && has_deny_read_entries
           then restricted [new_entry (Special Root) Write] else p in
  if is_restricted (kind p) then
    let p := match glob_scan_max_depth p with
             | None => mkPolicy (kind p) (glob_scan_max_depth existing) (entries p)
             | Some _ => p
             end in
    foldl push_missing_entry p (List.filter is_deny (entries existing))
  else p.

Definition append_default_read_only_entry_if_no_explicit_rule
    (es : list FileSystemSandboxEntry) (path : FileSystemPath) : list FileSystemSandboxEntry :=
  if existsb (fun e => file_system_paths_share_target (entry_path e) path) es then es
  else es ++ [skip_missing_path path Read].

Definition append_default_read_only_path_if_no_explicit_rule
    (es : list FileSystemSandboxEntry) (path : str) : list FileSystemSandboxEntry :=
  append_default_read_only_entry_if_no_explicit_rule es (AtPath path).

Definition append_default_read_only_project_root_subpath_if_no_explicit_rule
    (es : list FileSystemSandboxEntry) (subpath : str) : list FileSystemSandboxEntry :=
  append_default_read_only_entry_if_no_explicit_rule es (Special (ProjectRoots (Some subpath))).

(** [push_unique], and [dedup_absolute_paths] without the normalisation it may start with: the
    set [seen] is what is in [deduped]. *)
Definition push_unique (candidates : list str) (candidate : str) : list str :=
  if existsb (fun existing => Path.eqb existing candidate) candidates then candidates else candidates ++ [candidate].
Definition dedup_paths (paths : list str) : list str := foldl push_unique [] paths.

Section changes.
Context `{PathEnv}.

Definition normalize_effective_absolute_path (path : str) : str :=
  let fix go (ancestors : list str) : str :=
    match ancestors with
    | [] => path
    | ancestor :: rest =>
        match path_is_symlink ancestor with
        | None => go rest
        | Some _ =>
            match canonicalize_preserving_symlinks ancestor with
            | inr _ => go rest
            | inl normalized_ancestor =>
                match Path.strip_prefix path ancestor with
                | None => go rest
                | Some suffix =>
                    match from_absolute_path (Path.push normalized_ancestor suffix) with
                    | inl normalized_path => normalized_path
                    | inr _ => go rest
                    end
                end
            end
        end
    end
  in go (Path.ancestors path).

Definition dedup_absolute_paths (paths : list str) (normalize_effective_paths : bool) : list str :=
  dedup_paths (if normalize_effective_paths then normalize_effective_absolute_path <$> paths else paths).

Definition is_git_pointer_file (path : str) : bool :=
  path_is_file path && bool_decide (Path.file_name path = Some PROTECTED_METADATA_GIT_PATH_NAME).

Definition resolve_gitdir_from_file (dot_git : str) : option str :=
  contents ← read_to_string dot_git;
  let trimmed := trim contents in
  '(prefix, gitdir_raw) ← split_once 58 trimmed;
  if str_eqb (trim prefix) (lit "gitdir") then
    let gitdir_raw := trim gitdir_raw in
    if is_empty gitdir_raw then None
    else
      base ← Path.parent dot_git;
      let gitdir_path := resolve_path_against_base gitdir_raw base in
      if path_exists gitdir_path then Some gitdir_path else None
  else None.

Definition default_read_only_subpaths_for_writable_root (writable_root : str) (protect_missing_dot_codex : bool) : list str :=
  let top_level_git := abs_join writable_root PROTECTED_METADATA_GIT_PATH_NAME in
  let top_level_git_is_file := path_is_file top_level_git in
  let top_level_git_is_dir := path_is_dir top_level_git in
  let git :=
    if top_level_git_is_dir || top_level_git_is_file then
      (if top_level_git_is_file && is_git_pointer_file top_level_git
       then option_list (resolve_gitdir_from_file top_level_git) else [])
      ++ [top_level_git]
    else [] in
  let top_level_agents := abs_join writable_root PROTECTED_METADATA_AGENTS_PATH_NAME in
  let agents := if path_is_dir top_level_agents then [top_level_agents] else [] in
  let top_level_codex := abs_join writable_root PROTECTED_METADATA_CODEX_PATH_NAME in
  let codex := if protect_missing_dot_codex || path_is_dir top_level_codex then [top_level_codex] else [] in
  dedup_absolute_paths (git ++ agents ++ codex) false.

Definition protect_writable_roots (es : list FileSystemSandboxEntry) (roots : list str) (protect_missing_dot_codex : bool) :
    list FileSystemSandboxEntry :=
  foldl (fun es root =>
      foldl append_default_read_only_path_if_no_explicit_rule es
        (default_read_only_subpaths_for_writable_root root protect_missing_dot_codex))
    es roots.

(** The entries with which [workspace_write] and the legacy runtime policy start. *)
Definition workspace_entries (writable_roots : list str) (exclude_tmpdir_env_var exclude_slash_tmp : bool) :
    list FileSystemSandboxEntry :=
  [new_entry (Special Root) Read; new_entry (Special (ProjectRoots None)) Write]
  ++ (if exclude_slash_tmp then [] else [new_entry (Special SlashTmp) Write])
  ++ (if exclude_tmpdir_env_var then [] else [new_entry (Special Tmpdir) Write])
  ++ ((fun path => new_entry (AtPath path) Write) <$> writable_roots).

Definition workspace_write (writable_roots : list str) (exclude_tmpdir_env_var exclude_slash_tmp : bool) : FileSystemSandboxPolicy :=
  let es := workspace_entries writable_roots exclude_tmpdir_env_var exclude_slash_tmp in
  let es := append_default_read_only_project_root_subpath_if_no_explicit_rule es (lit ".git") in
  let es := append_default_read_only_project_root_subpath_if_no_explicit_rule es (lit ".agents") in
  let es := append_default_read_only_project_root_subpath_if_no_explicit_rule es (lit ".codex") in
  restricted (protect_writable_roots es writable_roots false).

(** *** Materialised project roots *)

Definition PROJECT_ROOTS_GLOB_PATTERN_PREFIX : str := lit "codex-project-roots://".
Definition project_roots_glob_pattern (subpath : str) : str := PROJECT_ROOTS_GLOB_PATTERN_PREFIX ++ subpath.
Definition parse_project_roots_glob_pattern (pattern : str) : option str :=
  strip_prefix PROJECT_ROOTS_GLOB_PATTERN_PREFIX pattern.
Definition resolve_project_roots_glob_pattern (subpath root : str) : str := resolve_path_against_base subpath root.

Definition set_path (e : FileSystemSandboxEntry) (path : FileSystemPath) : FileSystemSandboxEntry :=
  mkEntry path (access e) (missing_path_behavior e).

Definition materialize_entry_with_cwd (cwd : option str) (e : FileSystemSandboxEntry) : FileSystemSandboxEntry :=
  match entry_path e with
  | Special (ProjectRoots _) =>
      match resolve_file_system_path (entry_path e) cwd with
      | Some path => set_path e (AtPath path)
      | None => e
      end
  | GlobPattern pattern =>
      match cwd, parse_project_roots_glob_pattern pattern with
      | Some cwd, Some subpath => set_path e (GlobPattern (resolve_project_roots_glob_pattern subpath cwd))
      | _, _ => e
      end
  | Special _ | AtPath _ => e
  end.

Definition materialize_project_roots_with_cwd (p : FileSystemSandboxPolicy) (cwd : str) : FileSystemSandboxPolicy :=
  set_entries p (materialize_entry_with_cwd (ok (from_absolute_path cwd)) <$> entries p).

Definition materialize_entry_with_workspace_roots (workspace_roots : list str) (e : FileSystemSandboxEntry) :
    list FileSystemSandboxEntry :=
  match entry_path e with
  | Special (ProjectRoots subpath) =>
      (fun root =>
         set_path e (AtPath (match subpath with
                             | Some subpath => resolve_path_against_base subpath root
                             | None => root
                             end))) <$> workspace_roots
  | GlobPattern pattern =>
      match parse_project_roots_glob_pattern pattern with
      | Some subpath =>
          (fun root => set_path e (GlobPattern (resolve_project_roots_glob_pattern subpath root))) <$> workspace_roots
      | None => [e]
      end
  | AtPath _ | Special _ => [e]
  end.

Definition materialize_project_roots_with_workspace_roots (p : FileSystemSandboxPolicy) (workspace_roots : list str) :
    FileSystemSandboxPolicy :=
  set_entries p (entries p ≫= materialize_entry_with_workspace_roots workspace_roots).

Definition with_materialized_project_roots_for_workspace_roots (p : FileSystemSandboxPolicy) (workspace_roots : list str) :
    FileSystemSandboxPolicy :=
  foldl push_missing_entry p (entries (materialize_project_roots_with_workspace_roots p workspace_roots)).

(** *** Additional roots *)

Definition add_readable_root (cwd : str) (p : FileSystemSandboxPolicy) (path : str) : FileSystemSandboxPolicy :=
  if can_read_path_with_cwd p path cwd then p else push_entry p (new_entry (AtPath path) Read).

Definition with_additional_readable_roots (p : FileSystemSandboxPolicy) (cwd : str) (additional_readable_roots : list str) :
    FileSystemSandboxPolicy :=
  if has_full_disk_read_access p then p else foldl (add_readable_root cwd) p additional_readable_roots.

Definition add_writable_root (cwd : str) (p : FileSystemSandboxPolicy) (path : str) : FileSystemSandboxPolicy :=
  if can_write_path_with_cwd p path cwd then p else push_entry p (new_entry (AtPath path) Write).

Definition with_additional_writable_roots (p : FileSystemSandboxPolicy) (cwd : str) (additional_writable_roots : list str) :
    FileSystemSandboxPolicy :=
  foldl (add_writable_root cwd) p additional_writable_roots.

Definition add_legacy_writable_root (es : list FileSystemSandboxEntry) (path : str) : list FileSystemSandboxEntry :=
  let es :=
    if existsb (fun e => can_write (access e) && match entry_path e with AtPath existing => Path.eqb existing path | _ => false end) es
    then es else es ++ [new_entry (AtPath path) Write] in
  foldl append_default_read_only_path_if_no_explicit_rule es (default_read_only_subpaths_for_writable_root path false).

Definition with_additional_legacy_workspace_writable_roots (p : FileSystemSandboxPolicy) (additional_writable_roots : list str) :
    FileSystemSandboxPolicy :=
  if is_restricted (kind p) then set_entries p (foldl add_legacy_writable_root (entries p) additional_writable_roots) else p.

End changes.


(** ** Deduplicated paths *)

Lemma push_unique_elem l x q : q ∈ push_unique l x -> q ∈ l \/ q = x.
Proof. unfold push_unique. destruct (existsb _ _); [by left|]. rewrite elem_of_app, list_elem_of_singleton. done. Qed.

Lemma push_unique_keeps l x q : q ∈ l -> q ∈ push_unique l x.
Proof. unfold push_unique. destruct (existsb _ _); set_solver. Qed.

(** Every path is there once, under some text. *)
Lemma push_unique_covers l x : exists q, q ∈ push_unique l x /\ Path.eqb q x = true.
Proof.
  unfold push_unique. destruct (existsb _ _) eqn:E.
  - apply existsb_elem in E as (q & Hq & He). by exists q.
  - exists x. split; [set_solver|]. by apply bool_decide_eq_true.
Qed.

Lemma dedup_acc l acc q :
  q ∈ foldl push_unique acc l -> q ∈ acc \/ q ∈ l.
Proof.
  revert acc. induction l as [|x l IH]; intros acc; simpl; [by left|].
  intros [[Hq| ->]%push_unique_elem|Hq]%IH; [by left|right; by left|right; by right].
Qed.

Lemma dedup_paths_elem l q : q ∈ dedup_paths l -> q ∈ l.
Proof. intros [Hq|Hq]%dedup_acc; [by apply elem_of_nil in Hq|done]. Qed.

Lemma foldl_push_keeps l acc q : q ∈ acc -> q ∈ foldl push_unique acc l.
Proof. revert acc. induction l as [|x l IH]; intros acc Hq; simpl; [done|]. by apply IH, push_unique_keeps. Qed.

Lemma dedup_paths_normalized l q : Forall normalized l -> q ∈ dedup_paths l <-> q ∈ l.
Proof.
  intros Hl. split; [apply dedup_paths_elem|]. unfold dedup_paths.
  assert (Hacc : Forall normalized (@nil str)) by done. revert Hacc. generalize (@nil str).
  induction Hl as [|x l Hx Hl IH]; intros acc Hacc; [by intros ?%elem_of_nil|]. simpl.
  assert (Hacc' : Forall normalized (push_unique acc x)).
  { apply Forall_forall. rewrite Forall_forall in Hacc. intros y [Hy| ->]%push_unique_elem; [by apply Hacc|done]. }
  intros [->|Hq]%elem_of_cons; [|by apply IH].
  destruct (push_unique_covers acc x) as (y & Hy & He). rewrite Forall_forall in Hacc'.
  apply eqb_normalized in He as ->; [|by apply Hacc'|done]. by apply foldl_push_keeps.
Qed.

Lemma default_subpaths_normalized `{PathEnvLaws} r flag q :
  normalized r -> q ∈ default_read_only_subpaths_for_writable_root r flag -> normalized q.
Proof.
  intros Hr. unfold default_read_only_subpaths_for_writable_root, dedup_absolute_paths. intros Hq%dedup_paths_elem. revert Hq.
  set (git := abs_join r PROTECTED_METADATA_GIT_PATH_NAME). assert (Hgit : normalized git) by by apply join_normalized.
  rewrite !elem_of_app. intros [Hq|[Hq|Hq]].
  - destruct (_ || _); [|by apply elem_of_nil in Hq]. apply elem_of_app in Hq as [Hq| ->%list_elem_of_singleton]; [|done].
    destruct (_ && _); [|by apply elem_of_nil in Hq].
    unfold resolve_gitdir_from_file in Hq. destruct (read_to_string git); simpl in Hq; [|by apply elem_of_nil in Hq].
    destruct (split_once _ _) as [[a b]|]; simpl in Hq; [|by apply elem_of_nil in Hq].
    destruct (str_eqb _ _); [|by apply elem_of_nil in Hq]. destruct (is_empty _); [by apply elem_of_nil in Hq|].
    destruct (Path.parent git) as [base|] eqn:Eb; simpl in Hq; [|by apply elem_of_nil in Hq].
    destruct (path_exists _); simpl in Hq; [|by apply elem_of_nil in Hq]. apply list_elem_of_singleton in Hq as ->.
    by eapply resolve_normalized, normalized_absolute, parent_normalized.
  - destruct (path_is_dir _); [|by apply elem_of_nil in Hq]. apply list_elem_of_singleton in Hq as ->. by apply join_normalized.
  - destruct (_ || _); [|by apply elem_of_nil in Hq]. apply list_elem_of_singleton in Hq as ->. by apply join_normalized.
Qed.

(** ** Entries are kept, and denied reads survive *)

Lemma entry_eqb_eq a b : wf_entry a -> wf_entry b -> entry_eqb a b = true <-> a = b.
Proof.
  destruct a as [pa aa ma], b as [pb ab mb]. unfold entry_eqb, wf_entry. simpl. intros Ha Hb.
  rewrite !andb_true_iff, !bool_decide_eq_true. split.
  - intros [[Hp ->] ->]. f_equal. destruct pa, pb; simpl in Hp; try done; f_equal.
    + by apply eqb_normalized.
    + by apply bool_decide_eq_true in Hp.
    + by apply bool_decide_eq_true in Hp.
  - intros [= -> -> ->]. split_and!; [|done..]. destruct pb; simpl.
    + by apply eqb_normalized.
    + by apply bool_decide_eq_true.
    + by apply bool_decide_eq_true.
Qed.

Lemma push_missing_all p l :
  wf_policy p -> Forall wf_entry l ->
  let q := foldl push_missing_entry p l in
  kind q = kind p /\ glob_scan_max_depth q = glob_scan_max_depth p /\ wf_policy q /\
  forall e, e ∈ entries q <-> e ∈ entries p \/ e ∈ l.
Proof.
  intros Hp Hl. revert p Hp. induction Hl as [|x l Hx Hl IH]; intros p Hp; simpl.
  { split_and!; [done..|]. intros e. rewrite elem_of_nil. tauto. }
  assert (Hstep : kind (push_missing_entry p x) = kind p /\
    glob_scan_max_depth (push_missing_entry p x) = glob_scan_max_depth p /\ wf_policy (push_missing_entry p x) /\
    forall e, e ∈ entries (push_missing_entry p x) <-> e ∈ entries p \/ e = x).
  { unfold push_missing_entry. destruct (existsb _ _) eqn:E.
    - split_and!; [done..|]. apply existsb_elem in E as (y & Hy & Heq).
      unfold wf_policy in Hp. rewrite Forall_forall in Hp. apply entry_eqb_eq in Heq as ->; [|by apply Hp|done]. naive_solver.
    - split_and!; [done..| |].
      + unfold wf_policy. simpl. apply Forall_app. by split; [|apply Forall_singleton].
      + intros e. simpl. rewrite elem_of_app, list_elem_of_singleton. done. }
  destruct Hstep as (Hk & Hg & Hw & He). destruct (IH _ Hw) as (Hk' & Hg' & Hw' & He'). split_and!; [congruence..|done|].
  intros e. rewrite He', He, elem_of_cons. tauto.
Qed.

Lemma wf_filter (f : FileSystemSandboxEntry -> bool) l : Forall wf_entry l -> Forall wf_entry (List.filter f l).
Proof. rewrite !Forall_forall. intros Hl x. rewrite list_elem_of_In, filter_In, <- list_elem_of_In. intros [Hx _]. by apply Hl. Qed.

Lemma elem_of_denies l e : e ∈ List.filter is_deny l <-> e ∈ l /\ access e = Deny.
Proof. rewrite !list_elem_of_In, filter_In. unfold is_deny. by rewrite bool_decide_eq_true. Qed.

Section survival.
Context `{PathEnvLaws}.

(** What the allow side of the merged policy is. *)
Definition allow_side (p existing : FileSystemSandboxPolicy) : list FileSystemSandboxEntry :=
  match kind p with
  | Unrestricted => if existsb is_deny (entries existing) then [new_entry (Special Root) Write] else entries p
  | _ => entries p
  end.

Lemma preserve_deny_spec p existing :
  wf_policy p -> wf_policy existing ->
  let merged := preserve_deny_read_restrictions_from p existing in
  (kind merged <> Restricted -> merged = p) /\
  (kind p <> ExternalSandboxKind -> existsb is_deny (entries existing) = true -> kind merged = Restricted) /\
  (kind merged = Restricted -> wf_policy merged /\
     forall e, e ∈ entries merged <-> e ∈ allow_side p existing \/ e ∈ entries existing /\ access e = Deny).
Proof.
  intros Hp Hex merged. subst merged. unfold preserve_deny_read_restrictions_from, allow_side.
  assert (Hgo : forall q g, wf_policy q ->
    let m := foldl push_missing_entry (mkPolicy (kind q) g (entries q)) (List.filter is_deny (entries existing)) in
    kind m = kind q /\ wf_policy m /\ forall e, e ∈ entries m <-> e ∈ entries q \/ e ∈ entries existing /\ access e = Deny).
  { intros q g Hq. destruct (push_missing_all (mkPolicy (kind q) g (entries q)) (List.filter is_deny (entries existing)))
      as (Hk & _ & Hw & He); [done|by apply wf_filter|]. split_and!; [done..|].
    intros e. rewrite He, elem_of_denies. done. }
  assert (Hroot : wf_policy (restricted [new_entry (Special Root) Write])) by by apply Forall_singleton.
  destruct (kind p) eqn:Ek; simpl.
  - unfold is_restricted. rewrite Ek. simpl.
    replace (match glob_scan_max_depth p with None => mkPolicy Restricted (glob_scan_max_depth existing) (entries p) | Some _ => p end)
      with (mkPolicy (kind p) (match glob_scan_max_depth p with None => glob_scan_max_depth existing | g => g end) (entries p))
      by (destruct p as [k [g|] es]; simpl in *; by subst).
    destruct (Hgo p (match glob_scan_max_depth p with None => glob_scan_max_depth existing | g => g end) Hp) as (Hk & Hw & He).
    rewrite Ek in *. rewrite Hk. split_and!; [done..|]. intros _. by split.
  - destruct (existsb is_deny (entries existing)) eqn:Ed; simpl.
    + destruct (Hgo _ (glob_scan_max_depth existing) Hroot) as (Hk & Hw & He). split_and!; [done..|]. intros _. by split.
    + unfold is_restricted. rewrite Ek. simpl. rewrite Ek. split_and!; done.
  - unfold is_restricted. rewrite Ek. simpl. rewrite Ek. split_and!; done.
Qed.

Lemma preserve_depth p existing :
  wf_policy p -> wf_policy existing ->
  let merged := preserve_deny_read_restrictions_from p existing in
  kind merged = Restricted ->
  glob_scan_max_depth merged =
    match kind p, glob_scan_max_depth p with Restricted, Some depth => Some depth | _, _ => glob_scan_max_depth existing end.
Proof.
  intros Hp Hex merged. subst merged. unfold preserve_deny_read_restrictions_from.
  assert (Hgo : forall q, wf_policy q ->
    glob_scan_max_depth (foldl push_missing_entry q (List.filter is_deny (entries existing))) = glob_scan_max_depth q)
    by (intros q Hq; by apply push_missing_all; [|apply wf_filter]).
  destruct (kind p) eqn:Ek; simpl; [|destruct (existsb _ _)|]; unfold is_restricted; rewrite ?Ek; simpl; rewrite ?Ek; try done; intros _.
  - rewrite Hgo; destruct (glob_scan_max_depth p) eqn:E; by rewrite ?E.
  - rewrite Hgo; [done|]. by apply Forall_singleton.
Qed.

Lemma preserve_restricted p existing :
  wf_policy p -> wf_policy existing -> kind p = Restricted -> kind (preserve_deny_read_restrictions_from p existing) = Restricted.
Proof.
  intros Hp Hex Hr. unfold preserve_deny_read_restrictions_from. rewrite Hr. simpl. unfold is_restricted. rewrite Hr. simpl.
  assert (Hgo : forall q, wf_policy q -> kind (foldl push_missing_entry q (List.filter is_deny (entries existing))) = kind q)
    by (intros q Hq; by apply push_missing_all; [|apply wf_filter]).
  destruct (glob_scan_max_depth p); by rewrite Hgo.
Qed.

(** A path that a preserved denial covers. *)
Lemma preserved_denial_decides p existing path cwd target d :
  wf_policy p -> wf_policy existing -> kind p <> ExternalSandboxKind ->
  resolve_candidate_path path cwd = Some target ->
  d ∈ resolved_entries_with_cwd existing cwd -> resolved_access d = Deny ->
  Path.starts_with target (resolved_path d) = true ->
  can_read_path_with_cwd (preserve_deny_read_restrictions_from p existing) path cwd = true ->
  exists x, x ∈ resolved_entries_with_cwd p cwd /\ can_read (resolved_access x) = true /\
    Path.starts_with target (resolved_path x) = true /\ Path.starts_with (resolved_path x) (resolved_path d) = true /\
    resolved_path x <> resolved_path d.
Proof.
  intros Hp Hex Hnk Ht Hd Had Htd. set (merged := preserve_deny_read_restrictions_from p existing). destruct (preserve_deny_spec p existing Hp Hex) as (_ & Hk & He).
  pose proof Hd as (de & Hde & Hdr & Hda)%elem_of_resolved.
  assert (Hkm : kind merged = Restricted).
  { apply Hk; [done|]. apply existsb_elem. exists de. split; [done|]. apply bool_decide_eq_true. congruence. }
  destruct (He Hkm) as [Hwm Hem]. intros Hr.
  destruct (resolve_access_cases merged path cwd target Hwm Hkm Ht) as [(g & Hg & Ha)|[_ Ha]];
    unfold can_read_path_with_cwd in Hr; rewrite Ha in Hr; [|done].
  assert (Hdm : d ∈ resolved_entries_with_cwd merged cwd).
  { apply elem_of_resolved. exists de. split_and!; [|done..]. apply Hem. right. split; [done|congruence]. }
  pose proof Hg as (Hin & Hst & Hmax). destruct (Hmax _ Hdm Htd) as [Hgd Hrank].
  assert (Hne : resolved_path g <> resolved_path d).
  { intros Heq. specialize (Hrank (eq_sym Heq)). rewrite Had in Hrank. simpl in Hrank.
    destruct (resolved_access g); simpl in *; try done; lia. }
  pose proof Hin as (x & Hx & Hxr & Hxa)%elem_of_resolved.
  exists g. split_and!; [|done..]. apply Hem in Hx as [Hx|[_ Hx]]; [|rewrite <- Hxa, Hx in Hr; done].
  unfold allow_side in Hx. destruct (kind p) eqn:Ek; [| |done].
  - apply elem_of_resolved. by exists x.
  - destruct (existsb is_deny (entries existing)); [|apply elem_of_resolved; by exists x].
    apply list_elem_of_singleton in Hx as ->. simpl in Hxr. destruct (from_absolute_path cwd) as [c|] eqn:Ec; [|done].
    simpl in Hxr. rewrite absolute_root in Hxr by (by eapply from_absolute_path_normalized). injection Hxr as Hxr.
    destruct Hne. apply starts_with_antisymm; [by eapply resolved_normalized|by eapply (resolved_normalized existing)|done|].
    rewrite <- Hxr. apply starts_with_root. by eapply (resolved_normalized existing).
Qed.

(** C21: denied reads survive when the allow side of a policy is replaced.  For every policy that
    does not leave enforcement to an external sandbox (those the operation does not touch), a
    deny entry of the old policy, a path, a place or a glob, is in the result, which is then
    restricted: an unrestricted policy becomes one with write access to the root, and globs are
    scanned to the depth that a restricted new policy asks for, else to that of the old one.  A
    restricted policy gets the old denials and no other entry, and an unrestricted one stays
    as it is without them.  A path
    that a deny entry of the old policy for a path or place covers can be read under the result
    only through an entry of the new policy at a strictly more specific path. *)
Theorem denied_reads_survive p existing :
  wf_policy p -> wf_policy existing -> kind p <> ExternalSandboxKind ->
  let merged := preserve_deny_read_restrictions_from p existing in
  (forall e, e ∈ entries existing -> access e = Deny ->
     kind merged = Restricted /\ e ∈ entries merged /\
     (kind p = Unrestricted -> new_entry (Special Root) Write ∈ entries merged) /\
     glob_scan_max_depth merged =
       match kind p, glob_scan_max_depth p with Restricted, Some depth => Some depth | _, _ => glob_scan_max_depth existing end) /\
  (kind p = Restricted -> forall e, e ∈ entries merged <-> e ∈ entries p \/ e ∈ entries existing /\ access e = Deny) /\
  (kind p = Unrestricted -> (forall e, e ∈ entries existing -> access e <> Deny) -> merged = p) /\
  (forall path cwd target d,
     resolve_candidate_path path cwd = Some target ->
     d ∈ resolved_entries_with_cwd existing cwd -> resolved_access d = Deny -> Path.starts_with target (resolved_path d) = true ->
     can_read_path_with_cwd merged path cwd = true ->
     exists x, x ∈ resolved_entries_with_cwd p cwd /\ can_read (resolved_access x) = true /\
       Path.starts_with target (resolved_path x) = true /\ Path.starts_with (resolved_path x) (resolved_path d) = true /\
       resolved_path x <> resolved_path d).
Proof.
  intros Hp Hex Hnk merged. destruct (preserve_deny_spec p existing Hp Hex) as (_ & Hk & He). fold merged in Hk, He.
  assert (Hdeny : forall e, e ∈ entries existing -> access e = Deny -> existsb is_deny (entries existing) = true).
  { intros e Hin Ha. apply existsb_elem. exists e. split; [done|]. by apply bool_decide_eq_true. }
  split_and!.
  - intros e Hin Ha. specialize (Hdeny e Hin Ha). specialize (Hk Hnk Hdeny). destruct (He Hk) as [_ Hem]. split_and!; [done| | |].
    + apply Hem. by right.
    + intros Hu. apply Hem. left. unfold allow_side. rewrite Hu, Hdeny. by left.
    + by apply preserve_depth.
  - intros Hr. assert (kind merged = Restricted) as Hkm by by apply preserve_restricted. destruct (He Hkm) as [_ Hem].
    unfold allow_side in Hem. by rewrite Hr in Hem.
  - intros Hu Hno. unfold merged, preserve_deny_read_restrictions_from.
    destruct (existsb is_deny (entries existing)) eqn:E.
    { apply existsb_elem in E as (e & Hin & Ha%bool_decide_eq_true). by destruct (Hno e Hin). }
    rewrite andb_false_r. unfold is_restricted. by rewrite Hu.
  - intros path cwd target d. by apply preserved_denial_decides.
Qed.

End survival.

(** ** Materialised project roots *)

Section materialised.
Context `{PathEnvLaws}.

Lemma materialized_entry_resolves c c' e :
  normalized c -> normalized c' ->
  resolve_entry (Some c') (materialize_entry_with_cwd (Some c) e) = resolve_entry (Some c) e.
Proof.
  intros Hc Hc'. destruct e as [path a mb]. unfold resolve_entry, materialize_entry_with_cwd. simpl.
  destruct path as [q|pat|v]; simpl; [done| |].
  - by destruct (parse_project_roots_glob_pattern pat).
  - destruct v as [| |[sub|]| | |]; simpl; try done. by rewrite !absolute_root.
Qed.

Lemma resolved_materialized p cwd cwd' c c' :
  from_absolute_path cwd = inl c -> from_absolute_path cwd' = inl c' ->
  resolved_entries_with_cwd (materialize_project_roots_with_cwd p cwd) cwd' = resolved_entries_with_cwd p cwd.
Proof.
  intros Hc Hc'. unfold resolved_entries_with_cwd, materialize_project_roots_with_cwd. simpl. rewrite Hc, Hc'. simpl.
  apply from_absolute_path_normalized in Hc, Hc'.
  induction (entries p) as [|e es IH]; [done|]. csimpl. by rewrite materialized_entry_resolves, IH.
Qed.

(** Materialised project roots are not rebound.  A policy whose project roots were
    materialised for one working directory gives every absolute path, under any other working
    directory, the access the policy gave it under the first. *)
Theorem materialized_roots_do_not_rebind p path cwd cwd' c c' :
  from_absolute_path cwd = inl c -> from_absolute_path cwd' = inl c' -> Path.is_absolute path = true ->
  resolve_access_with_cwd (materialize_project_roots_with_cwd p cwd) path cwd' = resolve_access_with_cwd p path cwd.
Proof.
  intros Hc Hc' Hp. unfold resolve_access_with_cwd, resolve_candidate_path. rewrite Hp, (resolved_materialized p cwd cwd' c c' Hc Hc').
  by change (kind (materialize_project_roots_with_cwd p cwd)) with (kind p).
Qed.

(** For one workspace root, materialising for it and for the working directory resolve alike. *)
Lemma workspace_root_materializes p c :
  normalized c ->
  entries (materialize_project_roots_with_workspace_roots p [c]) = entries (materialize_project_roots_with_cwd p c).
Proof.
  intros Hc. unfold materialize_project_roots_with_workspace_roots, materialize_project_roots_with_cwd. simpl.
  rewrite from_normalized by done. simpl. induction (entries p) as [|e es IH]; [done|]. csimpl. rewrite IH.
  change (?a :: ?l) with ([a] ++ l). f_equal. unfold materialize_entry_with_workspace_roots, materialize_entry_with_cwd.
  destruct (entry_path e) as [q|pat|[| |[sub|]| | |]]; simpl; try done. by destruct (parse_project_roots_glob_pattern pat).
Qed.

End materialised.

(** ** The policy of a workspace *)

Section workspace.
Context `{PathEnvLaws}.

Lemma append_default_elem es path e :
  e ∈ append_default_read_only_entry_if_no_explicit_rule es path -> e ∈ es \/ e = skip_missing_path path Read.
Proof.
  unfold append_default_read_only_entry_if_no_explicit_rule. destruct (existsb _ _); [by left|].
  rewrite elem_of_app, list_elem_of_singleton. done.
Qed.

Lemma append_default_keeps es path e : e ∈ es -> e ∈ append_default_read_only_entry_if_no_explicit_rule es path.
Proof. unfold append_default_read_only_entry_if_no_explicit_rule. destruct (existsb _ _); set_solver. Qed.

(** Protecting the roots adds read entries for their default read-only paths. *)
Lemma protect_roots_elem es roots flag e :
  e ∈ protect_writable_roots es roots flag ->
  e ∈ es \/ exists r q, r ∈ roots /\ q ∈ default_read_only_subpaths_for_writable_root r flag /\ e = skip_missing_path (AtPath q) Read.
Proof.
  unfold protect_writable_roots. revert es. induction roots as [|r roots IH]; intros es; simpl; [by left|].
  intros [Hin|(r' & q & Hr & Hq & ->)]%IH; [|right; exists r', q; split_and!; [by right|done..]].
  assert (Hgo : forall qs, e ∈ foldl append_default_read_only_path_if_no_explicit_rule es qs ->
    e ∈ es \/ exists q, q ∈ qs /\ e = skip_missing_path (AtPath q) Read).
  { clear IH Hin. intros qs. revert es. induction qs as [|q qs IHq]; intros es; simpl; [by left|].
    intros [[Hin| ->]%append_default_elem|(q' & Hq' & ->)]%IHq; [by left|right; exists q; split; [by left|done]|].
    right. exists q'. split; [by right|done]. }
  apply Hgo in Hin as [Hin|(q & Hq & ->)]; [by left|]. right. exists r, q. split_and!; [by left|done..].
Qed.

Lemma protect_roots_keeps es roots flag e : e ∈ es -> e ∈ protect_writable_roots es roots flag.
Proof.
  unfold protect_writable_roots. revert es. induction roots as [|r roots IH]; intros es Hin; simpl; [done|]. apply IH.
  revert es Hin. induction (default_read_only_subpaths_for_writable_root r flag) as [|q qs IHq]; intros es Hin; simpl; [done|].
  by apply IHq, append_default_keeps.
Qed.

Lemma workspace_entries_elem roots xt xs e :
  e ∈ workspace_entries roots xt xs ->
  e = new_entry (Special Root) Read \/
  access e = Write /\ (entry_path e = Special (ProjectRoots None) \/ entry_path e = Special SlashTmp \/
    entry_path e = Special Tmpdir \/ exists r, r ∈ roots /\ entry_path e = AtPath r).
Proof.
  unfold workspace_entries. rewrite !elem_of_app, list_elem_of_fmap, !elem_of_cons, elem_of_nil.
  intros [[->|[->|[]]]|[Hx|[Hx|(r & -> & Hr)]]].
  - by left.
  - right. split; [done|]. by left.
  - right. destruct xs; [by apply elem_of_nil in Hx|]. apply list_elem_of_singleton in Hx as ->. naive_solver.
  - right. destruct xt; [by apply elem_of_nil in Hx|]. apply list_elem_of_singleton in Hx as ->. naive_solver.
  - right. split; [done|]. right; right; right. by exists r.
Qed.

(** All entries of the policy: the root, what is writable, and read-only metadata. *)
Lemma workspace_write_elem roots xt xs e :
  e ∈ entries (workspace_write roots xt xs) ->
  e ∈ workspace_entries roots xt xs \/
  (exists m, m ∈ PROTECTED_METADATA_PATH_NAMES /\ e = skip_missing_path (Special (ProjectRoots (Some m))) Read) \/
  (exists r q, r ∈ roots /\ q ∈ default_read_only_subpaths_for_writable_root r false /\ e = skip_missing_path (AtPath q) Read).
Proof.
  unfold workspace_write. simpl. intros [Hin|Hin]%protect_roots_elem; [|by right; right].
  assert (Hm : forall m, m ∈ PROTECTED_METADATA_PATH_NAMES ->
    e = skip_missing_path (Special (ProjectRoots (Some m))) Read ->
    exists m, m ∈ PROTECTED_METADATA_PATH_NAMES /\ e = skip_missing_path (Special (ProjectRoots (Some m))) Read) by eauto.
  apply append_default_elem in Hin as [Hin|He]; [|right; left; eapply Hm, He; by right; right; left].
  apply append_default_elem in Hin as [Hin|He]; [|right; left; eapply Hm, He; by right; left].
  apply append_default_elem in Hin as [Hin|He]; [by left|right; left; eapply Hm, He; by left].
Qed.

(** The policy has an entry for each metadata directory of the project root. *)
Lemma append_subpath_covers es m :
  exists e, e ∈ append_default_read_only_project_root_subpath_if_no_explicit_rule es m /\
    entry_path e = Special (ProjectRoots (Some m)).
Proof.
  unfold append_default_read_only_project_root_subpath_if_no_explicit_rule, append_default_read_only_entry_if_no_explicit_rule.
  destruct (existsb _ _) eqn:E; [|exists (skip_missing_path (Special (ProjectRoots (Some m))) Read); set_solver].
  apply existsb_elem in E as (e & He & Hs). exists e. split; [done|].
  destruct (entry_path e) as [| |[]]; simpl in Hs; try done. by apply bool_decide_eq_true in Hs as ->.
Qed.

Lemma workspace_metadata_entry roots xt xs m :
  m ∈ PROTECTED_METADATA_PATH_NAMES ->
  exists e, e ∈ entries (workspace_write roots xt xs) /\ entry_path e = Special (ProjectRoots (Some m)) /\ access e = Read.
Proof.
  intros Hm. assert (Hex : exists e, e ∈ entries (workspace_write roots xt xs) /\ entry_path e = Special (ProjectRoots (Some m))).
  { unfold workspace_write. simpl. unfold PROTECTED_METADATA_PATH_NAMES in Hm. rewrite !elem_of_cons, elem_of_nil in Hm.
    destruct Hm as [->|[->|[->|[]]]].
    - destruct (append_subpath_covers (workspace_entries roots xt xs) (lit ".git")) as (e & He & Hp). exists e. split; [|done].
      by apply protect_roots_keeps, append_default_keeps, append_default_keeps.
    - match goal with |- context [append_default_read_only_project_root_subpath_if_no_explicit_rule ?es (lit ".agents")] =>
        destruct (append_subpath_covers es (lit ".agents")) as (e & He & Hp) end. exists e. split; [|done].
      by apply protect_roots_keeps, append_default_keeps.
    - match goal with |- context [append_default_read_only_project_root_subpath_if_no_explicit_rule ?es (lit ".codex")] =>
        destruct (append_subpath_covers es (lit ".codex")) as (e & He & Hp) end. exists e. split; [|done].
      by apply protect_roots_keeps. }
  destruct Hex as (e & He & Hpath). exists e. split_and!; [done..|].
  apply workspace_write_elem in He as [[->|(_ & Hw)]%workspace_entries_elem|[(m' & _ & ->)|(r & q & _ & _ & ->)]]; try done.
  rewrite Hpath in Hw. naive_solver.
Qed.

Lemma workspace_wf roots xt xs : Forall normalized roots -> wf_policy (workspace_write roots xt xs).
Proof.
  intros Hr. apply Forall_forall. intros e He. rewrite Forall_forall in Hr. unfold wf_entry.
  apply workspace_write_elem in He as [[->|(_ & Hw)]%workspace_entries_elem|[(m' & _ & ->)|(r & q & Hin & Hd & ->)]]; try done.
  - destruct Hw as [->|[->|[->|(r & Hin & ->)]]]; try done. by apply Hr.
  - simpl. by eapply default_subpaths_normalized, Hd; apply Hr.
Qed.

(** The directories a workspace policy makes writable besides the working directory. *)
Definition extra_root (roots : list str) (r : str) : Prop :=
  r ∈ roots \/ resolve_file_system_special_path SlashTmp None = Some r \/ resolve_file_system_special_path Tmpdir None = Some r.

(** What the entries of a workspace policy resolve to. *)
Lemma workspace_resolved roots xt xs cwd c g :
  from_absolute_path cwd = inl c -> g ∈ resolved_entries_with_cwd (workspace_write roots xt xs) cwd ->
  resolved_access g = Read /\
    (resolved_path g = [SLASH] \/ (exists m, m ∈ PROTECTED_METADATA_PATH_NAMES /\ resolved_path g = abs_join c m) \/
     exists r, r ∈ roots /\ resolved_path g ∈ default_read_only_subpaths_for_writable_root r false) \/
  resolved_access g = Write /\ (resolved_path g = c \/ extra_root roots (resolved_path g)).
Proof.
  intros Hc (e & He & Hr & Ha)%elem_of_resolved. rewrite Hc in Hr. pose proof (from_absolute_path_normalized _ _ Hc) as Hn.
  rewrite <- Ha. apply workspace_write_elem in He as [[->|(Hw & Hp)]%workspace_entries_elem|[(m & Hm & ->)|(r & q & Hin & Hd & ->)]].
  - left. split; [done|]. left. simpl in Hr. rewrite absolute_root in Hr by done. by injection Hr as <-.
  - right. split; [done|]. unfold extra_root. destruct Hp as [Hp|[Hp|[Hp|(r & Hin & Hp)]]]; rewrite Hp in Hr.
    + left. by injection Hr as <-.
    + right. right. by left.
    + right. right. by right.
    + right. left. by injection Hr as <-.
  - left. split; [done|]. right. left. exists m. split; [done|]. by injection Hr as <-.
  - left. split; [done|]. right. right. exists r. split; [done|]. by injection Hr as <-.
Qed.

Lemma metadata_not_above c m : normalized c -> m ∈ PROTECTED_METADATA_PATH_NAMES -> Path.starts_with c (abs_join c m) = false.
Proof.
  intros (ns & Hns & ->) Hm. destruct (metadata_name_ok m Hm) as [Hn Hs]. rewrite join_name by done.
  rewrite starts_with_abs by (done || by apply forallb_snoc). apply bool_decide_eq_false. intros Hp%prefix_length.
  rewrite length_app in Hp. simpl in Hp. lia.
Qed.

(** A workspace policy keeps the metadata of the workspace read-only.  Under the policy made
    for a workspace, a path in [.git], [.agents] or [.codex] of the working directory, whether it
    exists or not, can be read and not written, as long as no writable root, [/tmp] or [TMPDIR]
    is itself in that directory. *)
Theorem workspace_metadata_is_read_only roots xt xs path cwd c target m :
  Forall normalized roots -> from_absolute_path cwd = inl c -> resolve_candidate_path path cwd = Some target ->
  m ∈ PROTECTED_METADATA_PATH_NAMES -> Path.starts_with target (abs_join c m) = true ->
  (forall r, extra_root roots r -> Path.starts_with r (abs_join c m) = false) ->
  resolve_access_with_cwd (workspace_write roots xt xs) path cwd = Read /\
  can_write_path_with_cwd (workspace_write roots xt xs) path cwd = false.
Proof.
  intros Hroots Hc Ht Hm Htm Hextra. pose proof (from_absolute_path_normalized _ _ Hc) as Hn.
  enough (Hr : resolve_access_with_cwd (workspace_write roots xt xs) path cwd = Read).
  { split; [done|]. unfold can_write_path_with_cwd. by rewrite Hr. }
  destruct (workspace_metadata_entry roots xt xs m Hm) as (e & He & Hp & Ha).
  assert (Hin : mkResolved (abs_join c m) Read ∈ resolved_entries_with_cwd (workspace_write roots xt xs) cwd).
  { apply elem_of_resolved. exists e. rewrite Hp, Hc. done. }
  destruct (resolve_access_cases (workspace_write roots xt xs) path cwd target) as [(g & (Hg & Hst & Hmax) & ->)|[Hnone _]];
    [by apply workspace_wf|done..| |by specialize (Hnone _ Hin); simpl in Hnone; congruence].
  destruct (Hmax _ Hin Htm) as [Hgm _]. simpl in Hgm.
  destruct (workspace_resolved _ _ _ _ _ _ Hc Hg) as [[-> _]|[_ [Heq|Hex]]]; [done| |].
  - rewrite Heq, metadata_not_above in Hgm; done.
  - by rewrite Hextra in Hgm.
Qed.

Lemma no_metadata_child p target cwd :
  wf_policy p -> normalized target -> outside_metadata target -> metadata_child_of_writable_root p target cwd = None.
Proof.
  intros Hp (ts & Hts & ->) Hout. destruct (metadata_child_of_writable_root _ _ _) as [[mp m]|] eqn:E; [|done].
  apply head_omap_Some in E as ([re a] & He & Hc). destruct (resolved_normalized _ _ _ Hp He) as (rs & Hrs & Hre).
  simpl in Hre. subst re. apply metadata_child_spec in Hc as (_ & Hm & _ & [k ->]); [|done..].
  enough (is_protected_metadata_name m = false) as Hf by (apply protected_name_spec in Hm; congruence).
  apply Hout. rewrite components_abs_path by done. set_solver.
Qed.

(** A workspace policy lets the agent work.  Every path in the working directory, or in a
    writable root, that has no metadata directory on it and is in none of the git directories
    the roots point to, can be written. *)
Theorem workspace_files_are_writable roots xt xs path cwd c target r :
  Forall normalized roots -> from_absolute_path cwd = inl c -> resolve_candidate_path path cwd = Some target ->
  (r = c \/ r ∈ roots) -> Path.starts_with target r = true -> outside_metadata target ->
  (forall root q, root ∈ roots -> q ∈ default_read_only_subpaths_for_writable_root root false -> Path.starts_with target q = false) ->
  can_write_path_with_cwd (workspace_write roots xt xs) path cwd = true.
Proof.
  intros Hroots Hc Ht Hr Htr Hout Hdef. pose proof (from_absolute_path_normalized _ _ Hc) as Hn.
  pose proof (workspace_wf roots xt xs Hroots) as Hwf. pose proof (resolve_candidate_normalized _ _ _ Ht) as Hnt.
  assert (Hin : mkResolved r Write ∈ resolved_entries_with_cwd (workspace_write roots xt xs) cwd).
  { apply elem_of_resolved. unfold workspace_write. simpl. destruct Hr as [->|Hr].
    - exists (new_entry (Special (ProjectRoots None)) Write). rewrite Hc. split_and!; [|done..].
      apply protect_roots_keeps. do 3 apply append_default_keeps. unfold workspace_entries. set_solver.
    - exists (new_entry (AtPath r) Write). split_and!; [|done..]. apply protect_roots_keeps. do 3 apply append_default_keeps.
      unfold workspace_entries. rewrite !elem_of_app, list_elem_of_fmap. right; right; right. by exists r. }
  enough (Ha : resolve_access_with_cwd (workspace_write roots xt xs) path cwd = Write).
  { unfold can_write_path_with_cwd. rewrite Ha. simpl. destruct (has_full_disk_write_access _); [done|].
    unfold is_metadata_write_denied. simpl. rewrite Ht. by rewrite no_metadata_child. }
  destruct (resolve_access_cases (workspace_write roots xt xs) path cwd target) as [(g & Hg & ->)|[Hnone _]];
    [done..| |by specialize (Hnone _ Hin); simpl in Hnone; congruence].
  pose proof Hg as (Hgin & Hst & Hmax). destruct (Hmax _ Hin Htr) as [Hgr Hrank]. simpl in Hgr, Hrank.
  destruct (workspace_resolved _ _ _ _ _ _ Hc Hgin) as [[Hga [Hp|[(m & Hm & Hp)|(root & Hroot & Hp)]]]|[-> _]]; [..|done]; exfalso.
  - assert (r = resolved_path g) as Heq.
    { apply starts_with_antisymm; [by apply (resolved_normalized _ _ _ Hwf Hin)|by apply (resolved_normalized _ _ _ Hwf Hgin)| |done].
      rewrite Hp. apply starts_with_root. by apply (resolved_normalized _ _ _ Hwf Hin). }
    specialize (Hrank Heq). rewrite Hga in Hrank. simpl in Hrank. lia.
  - rewrite Hp in Hst. destruct Hn as (ns & Hns & ->), Hnt as (ts & Hts & ->). destruct (metadata_name_ok m Hm) as [Hnm Hs].
    rewrite join_name, starts_with_abs, bool_decide_eq_true in Hst by (done || by apply forallb_snoc).
    destruct Hst as [k ->].
    enough (is_protected_metadata_name m = false) as Hf by (apply protected_name_spec in Hm; congruence).
    apply Hout. rewrite components_abs_path by done. set_solver.
  - by rewrite (Hdef _ _ Hroot Hp) in Hst.
Qed.

End workspace.

(** ** Additional roots *)

Section additional.
Context `{PathEnvLaws}.

Lemma resolved_push p e cwd :
  resolved_entries_with_cwd (push_entry p e) cwd =
  resolved_entries_with_cwd p cwd ++ option_list (resolve_entry (ok (from_absolute_path cwd)) e).
Proof.
  unfold resolved_entries_with_cwd. simpl. rewrite omap_app. f_equal.
Qed.

(** How the access of a path changes when an entry is added. *)
Lemma push_entry_access p r a path cwd target :
  wf_policy p -> kind p = Restricted -> normalized r -> resolve_candidate_path path cwd = Some target ->
  resolve_access_with_cwd (push_entry p (new_entry (AtPath r) a)) path cwd = resolve_access_with_cwd p path cwd \/
  Path.starts_with target r = true /\ resolve_access_with_cwd (push_entry p (new_entry (AtPath r) a)) path cwd = a.
Proof.
  intros Hp Hk Hr Ht. set (p' := push_entry p (new_entry (AtPath r) a)).
  assert (Hp' : wf_policy p') by (apply Forall_app; split; [done|by apply Forall_singleton]).
  assert (Hes : resolved_entries_with_cwd p' cwd = resolved_entries_with_cwd p cwd ++ [mkResolved r a]) by apply resolved_push.
  destruct (resolve_access_cases p' path cwd target Hp' Hk Ht) as [(g & Hg & ->)|[Hnone ->]].
  - destruct Hg as (Hin & Hst & Hmax). rewrite Hes in Hin, Hmax. apply elem_of_app in Hin as [Hin| ->%list_elem_of_singleton];
      [|right; by split]. left. symmetry. eapply governs_access; [done..|]. split_and!; [done..|].
    intros e' He'. apply Hmax. apply elem_of_app. by left.
  - left. destruct (resolve_access_cases p path cwd target Hp Hk Ht) as [(g & (Hin & Hst & _) & _)|[_ ->]]; [|done].
    assert (Hin' : g ∈ resolved_entries_with_cwd p' cwd) by (rewrite Hes; apply elem_of_app; by left).
    by rewrite (Hnone _ Hin') in Hst.
Qed.

(** Roots are added one by one with mode [a], except those that already have [sufficient]
    access. *)
Section adding.
Context (a : FileSystemAccessMode) (sufficient : FileSystemAccessMode -> bool) (cwd : str).
Context (test : FileSystemSandboxPolicy -> str -> bool).
Hypothesis a_sufficient : forall b, access_rank a <= access_rank b -> b <> Deny -> sufficient b = true.
Hypothesis test_sufficient : forall p r, test p r = true -> sufficient (resolve_access_with_cwd p r cwd) = true.
Hypothesis a_not_deny : a <> Deny.

Definition add_root (p : FileSystemSandboxPolicy) (r : str) : FileSystemSandboxPolicy :=
  if test p r then p else push_entry p (new_entry (AtPath r) a).

Lemma add_root_step p r :
  wf_policy p -> kind p = Restricted -> normalized r ->
  wf_policy (add_root p r) /\ kind (add_root p r) = Restricted /\
  (forall e, e ∈ entries (add_root p r) -> e ∈ entries p \/ e = new_entry (AtPath r) a) /\
  entries p `prefix_of` entries (add_root p r).
Proof.
  intros Hp Hk Hr. unfold add_root. destruct (test p r); [by split_and!; [..|left|]|]. split_and!.
  - apply Forall_app. split; [done|by apply Forall_singleton].
  - done.
  - intros e. simpl. by rewrite elem_of_app, list_elem_of_singleton.
  - simpl. by apply prefix_app_r.
Qed.

Lemma add_roots_prefix p roots :
  wf_policy p -> kind p = Restricted -> Forall normalized roots ->
  wf_policy (foldl add_root p roots) /\ kind (foldl add_root p roots) = Restricted /\
  entries p `prefix_of` entries (foldl add_root p roots).
Proof.
  intros Hp Hk Hrs. revert p Hp Hk. induction Hrs as [|r roots Hr Hrs IH]; intros p Hp Hk; simpl; [done|].
  destruct (add_root_step p r Hp Hk Hr) as (Hp' & Hk' & _ & Hpre). destruct (IH _ Hp' Hk') as (? & ? & ?).
  split_and!; [done..|by etrans].
Qed.

Lemma add_roots_access p roots path target :
  wf_policy p -> kind p = Restricted -> Forall normalized roots -> resolve_candidate_path path cwd = Some target ->
  resolve_access_with_cwd (foldl add_root p roots) path cwd = resolve_access_with_cwd p path cwd \/
  (exists r, r ∈ roots /\ Path.starts_with target r = true) /\ resolve_access_with_cwd (foldl add_root p roots) path cwd = a.
Proof.
  intros Hp Hk Hrs Ht. revert p Hp Hk. induction Hrs as [|r roots Hr Hrs IH]; intros p Hp Hk; simpl; [by left|].
  destruct (add_root_step p r Hp Hk Hr) as (Hp' & Hk' & _ & _).
  destruct (IH _ Hp' Hk') as [->|[(r' & Hr' & Hst) ->]]; [|right; split; [|done]; exists r'; split; [by right|done]].
  unfold add_root. destruct (test p r); [by left|].
  destruct (push_entry_access p r a path cwd target Hp Hk Hr Ht) as [->|[Hst ->]]; [by left|].
  right. split; [|done]. exists r. split; [by left|done].
Qed.

(** An added root has its access, unless an entry denies that very path. *)
Lemma add_root_sufficient p r :
  wf_policy p -> kind p = Restricted -> normalized r ->
  sufficient (resolve_access_with_cwd (add_root p r) r cwd) = true \/ mkResolved r Deny ∈ resolved_entries_with_cwd p cwd.
Proof.
  intros Hp Hk Hr. unfold add_root. destruct (test p r) eqn:Et; [left; by apply test_sufficient|].
  set (p' := push_entry p (new_entry (AtPath r) a)).
  assert (Hp' : wf_policy p') by (apply Forall_app; split; [done|by apply Forall_singleton]).
  assert (Hes : resolved_entries_with_cwd p' cwd = resolved_entries_with_cwd p cwd ++ [mkResolved r a]) by apply resolved_push.
  pose proof (resolve_candidate_id r cwd Hr) as Ht.
  assert (Hin : mkResolved r a ∈ resolved_entries_with_cwd p' cwd) by (rewrite Hes; set_solver).
  destruct (resolve_access_cases p' r cwd r Hp' Hk Ht) as [(g & Hg & ->)|[Hnone _]].
  2: { specialize (Hnone _ Hin). simpl in Hnone. by rewrite starts_with_refl in Hnone. }
  pose proof Hg as (Hgin & Hst & Hmax). destruct (Hmax _ Hin (starts_with_refl r)) as [Hgr _]. simpl in Hgr.
  assert (Heq : resolved_path g = r) by (apply starts_with_antisymm; [by eapply (resolved_normalized p')|done..]).
  rewrite <- Heq in Hin. pose proof (governs_strongest _ _ _ _ Hg Hin) as Hrank.
  destruct (decide (resolved_access g = Deny)) as [Hd|Hd]; [right|left; by apply a_sufficient].
  rewrite Hes in Hgin. apply elem_of_app in Hgin as [Hgin| ->%list_elem_of_singleton]; [|done].
  destruct g as [pg ag]. simpl in *. by subst.
Qed.

Lemma add_roots_sufficient p roots r :
  wf_policy p -> kind p = Restricted -> Forall normalized roots -> r ∈ roots ->
  sufficient (resolve_access_with_cwd (foldl add_root p roots) r cwd) = true \/ mkResolved r Deny ∈ resolved_entries_with_cwd p cwd.
Proof.
  intros Hp Hk Hrs Hin. revert p Hp Hk. induction Hrs as [|x roots Hx Hrs IH]; [by apply elem_of_nil in Hin|].
  intros p Hp Hk. simpl. destruct (add_root_step p x Hp Hk Hx) as (Hp' & Hk' & He & _).
  apply elem_of_cons in Hin as [->|Hin].
  - destruct (add_root_sufficient p x Hp Hk Hx) as [Hs|Hd]; [left|by right].
    destruct (add_roots_access (add_root p x) roots x x Hp' Hk' Hrs (resolve_candidate_id x cwd Hx)) as [->|[_ ->]]; [done|].
    by apply a_sufficient.
  - destruct (IH Hin _ Hp' Hk') as [Hs|(e & Hin' & Hres & Ha)%elem_of_resolved]; [by left|right].
    apply elem_of_resolved. exists e. destruct (He _ Hin') as [?| ->]; [done|]. simpl in Ha. done.
Qed.

End adding.

(** Additional roots are granted, and nothing else.  Adding readable or writable roots keeps
    all entries of a restricted policy, changes the access only of paths in the added roots,
    and there only to the mode that is added; afterwards each root has that access, unless an
    entry denies that very root. *)
Theorem additional_roots_widen p cwd roots path target :
  wf_policy p -> kind p = Restricted -> Forall normalized roots -> resolve_candidate_path path cwd = Some target ->
  let w := with_additional_writable_roots p cwd roots in
  let r := with_additional_readable_roots p cwd roots in
  (entries p `prefix_of` entries w /\ entries p `prefix_of` entries r) /\
  (resolve_access_with_cwd w path cwd = resolve_access_with_cwd p path cwd \/
   (exists x, x ∈ roots /\ Path.starts_with target x = true) /\ resolve_access_with_cwd w path cwd = Write) /\
  (resolve_access_with_cwd r path cwd = resolve_access_with_cwd p path cwd \/
   (exists x, x ∈ roots /\ Path.starts_with target x = true) /\ resolve_access_with_cwd r path cwd = Read) /\
  (forall x, x ∈ roots ->
   can_write (resolve_access_with_cwd w x cwd) = true \/ mkResolved x Deny ∈ resolved_entries_with_cwd p cwd) /\
  (has_full_disk_read_access p = false -> forall x, x ∈ roots ->
   can_read_path_with_cwd r x cwd = true \/ mkResolved x Deny ∈ resolved_entries_with_cwd p cwd).
Proof.
  intros Hp Hk Hrs Ht w r.
  assert (Hw : w = foldl (add_root Write (fun p r => can_write_path_with_cwd p r cwd)) p roots) by done.
  assert (Hr : r = p \/ r = foldl (add_root Read (fun p r => can_read_path_with_cwd p r cwd)) p roots).
  { subst r. unfold with_additional_readable_roots. destruct (has_full_disk_read_access p); [by left|by right]. }
  assert (Hsw : forall b, access_rank Write <= access_rank b -> b <> Deny -> can_write b = true) by (intros []; simpl; lia || done).
  assert (Hsr : forall b, access_rank Read <= access_rank b -> b <> Deny -> can_read b = true) by (by intros []).
  split_and!.
  - rewrite Hw. by apply add_roots_prefix.
  - destruct Hr as [-> | ->]; [done|]. by apply add_roots_prefix.
  - rewrite Hw. by apply add_roots_access.
  - destruct Hr as [-> | ->]; [by left|]. by apply add_roots_access.
  - intros x Hx. rewrite Hw. apply add_roots_sufficient; try done.
    intros q y. unfold can_write_path_with_cwd. by destruct (can_write _).
  - intros Hfull x Hx. subst r. unfold with_additional_readable_roots. rewrite Hfull.
    apply (add_roots_sufficient Read can_read cwd (fun p r => can_read_path_with_cwd p r cwd)); try done.
Qed.

End additional.

(** ** Examples *)

(** The old policy denies [/ws/secret]; the new one is unrestricted. *)
Lemma denied_reads_survive_witness :
  let env := example_env in
  let existing := restricted [new_entry (AtPath (lit "/ws/secret")) Deny; new_entry (GlobPattern (lit "/ws/*.key")) Deny] in
  let merged := preserve_deny_read_restrictions_from unrestricted existing in
  kind merged = Restricted /\ new_entry (GlobPattern (lit "/ws/*.key")) Deny ∈ entries merged /\
  can_read_path_with_cwd merged (lit "secret/key") (lit "/ws") = false.
Proof.
  intros env existing merged. destruct (denied_reads_survive unrestricted existing) as (He & _ & _ & Hr).
  - apply is_wf_sound. by vm_compute.
  - apply is_wf_sound. by vm_compute.
  - done.
  - destruct (He (new_entry (GlobPattern (lit "/ws/*.key")) Deny)) as (Hk & Hin & _); [by vm_compute; right; left|done|].
    split_and!; [done..|]. destruct (can_read_path_with_cwd merged _ _) eqn:E; [|done].
    destruct (Hr (lit "secret/key") (lit "/ws") (lit "/ws/secret/key") (mkResolved (lit "/ws/secret") Deny)) as (x & Hx & _);
      [by vm_compute|by left|done|by vm_compute|done|]. by apply elem_of_nil in Hx.
Defined.

Lemma workspace_metadata_is_read_only_witness :
  let env := example_env in
  can_write_path_with_cwd (workspace_write [lit "/data"] false false) (lit ".codex/config.toml") (lit "/ws") = false.
Proof.
  intros env.
  apply (workspace_metadata_is_read_only [lit "/data"] false false (lit ".codex/config.toml") (lit "/ws") (lit "/ws")
    (lit "/ws/.codex/config.toml") (lit ".codex")).
  - apply Forall_singleton, is_normalized_sound. by vm_compute.
  - by vm_compute.
  - by vm_compute.
  - right. right. left.
  - by vm_compute.
  - intros r [->%list_elem_of_singleton|[Hr|Hr]]; [by vm_compute| |done]. rewrite resolve_slash_tmp in Hr.
    replace (path_is_dir (lit "/tmp")) with true in Hr by by vm_compute. injection Hr as <-. by vm_compute.
Defined.
