(* ===== verification/FsRoots.v ===== *)
(** * What a sandbox takes from a policy: [protocol/src/permissions.rs] and [protocol.rs]

    The readable, writable and unreadable roots of a policy, the matcher of denied reads, the
    legacy [SandboxPolicy] and the conversions to and from it, over the policies of [FsPolicy.v]
    and [FsUpdates.v].  The theorems compare the writable roots with the access of the policy
    itself, and show that legacy policies survive conversion. *)

From stdpp Require Import base list strings sets.
From S2P Require Import Prelude FileSystem AbsPath FsPolicy FsUpdates.

Import Path (SLASH, Component, RootDir, CurDir, ParentDir, Normal).

(** ** Data *)

Inductive NetworkSandboxPolicy : Type := NetRestricted | NetEnabled.
Definition is_enabled (n : NetworkSandboxPolicy) : bool := match n with NetEnabled => true | _ => false end.

Inductive NetworkAccess : Type := AccessRestricted | AccessEnabled.
Definition access_is_enabled (n : NetworkAccess) : bool := match n with AccessEnabled => true | _ => false end.

Inductive SandboxPolicy : Type :=
| DangerFullAccess
| ReadOnly (network_access : bool)
| ExternalSandbox (network_access : NetworkAccess)
| WorkspaceWrite (writable_roots : list str) (network_access exclude_tmpdir_env_var exclude_slash_tmp : bool).

Record WritableRoot := mkRoot {
  root : str;
  read_only_subpaths : list str;
  protected_metadata_names : list str
}.

Definition path_contains_protected_metadata_name (self : WritableRoot) (path : str) : bool :=
  match Path.strip_prefix path (root self) with
  | None => false
  | Some relative_path =>
      match head (Path.components relative_path) with
      | None => false
      | Some first_component => existsb (str_eqb (Path.as_os_str first_component)) (protected_metadata_names self)
      end
  end.

Definition is_path_writable (self : WritableRoot) (path : str) : bool :=
  if negb (Path.starts_with path (root self)) then false
  else if existsb (Path.starts_with path) (read_only_subpaths self) then false
  else negb (path_contains_protected_metadata_name self path).

(** *** Legacy policies *)

Definition new_read_only_policy : SandboxPolicy := ReadOnly false.
Definition new_workspace_write_policy : SandboxPolicy := WorkspaceWrite [] false false false.

Definition legacy_has_full_disk_write_access (p : SandboxPolicy) : bool :=
  match p with DangerFullAccess | ExternalSandbox _ => true | ReadOnly _ | WorkspaceWrite _ _ _ _ => false end.

Definition has_full_network_access (p : SandboxPolicy) : bool :=
  match p with
  | DangerFullAccess => true
  | ExternalSandbox network_access => access_is_enabled network_access
  | ReadOnly network_access => network_access
  | WorkspaceWrite _ network_access _ _ => network_access
  end.

(** [From<&SandboxPolicy> for NetworkSandboxPolicy]. *)
Definition network_policy_from (p : SandboxPolicy) : NetworkSandboxPolicy :=
  if has_full_network_access p then NetEnabled else NetRestricted.

Section roots.
Context `{PathEnv}.

(** [SandboxPolicy::get_writable_roots_with_cwd]. *)
Definition legacy_get_writable_roots_with_cwd (p : SandboxPolicy) (cwd : str) : list WritableRoot :=
  match p with
  | DangerFullAccess | ExternalSandbox _ | ReadOnly _ => []
  | WorkspaceWrite writable_roots _ exclude_tmpdir_env_var exclude_slash_tmp =>
      let cwd_root := ok (from_absolute_path cwd) in
      let slash_tmp :=
        if exclude_slash_tmp then None
        else slash_tmp ← ok (from_absolute_path (lit "/tmp")); if path_is_dir slash_tmp then Some slash_tmp else None in
      let tmp :=
        if exclude_tmpdir_env_var then None
        else tmp ← tmpdir; if is_empty tmp then None else ok (from_absolute_path tmp) in
      let roots := writable_roots ++ option_list cwd_root ++ option_list slash_tmp ++ option_list tmp in
      (fun writable_root =>
         let protect_missing_dot_codex := is_some_and cwd_root (fun cwd_root => Path.eqb cwd_root writable_root) in
         mkRoot writable_root (default_read_only_subpaths_for_writable_root writable_root protect_missing_dot_codex) [])
      <$> roots
  end.

(** [From<&SandboxPolicy> for FileSystemSandboxPolicy]. *)
Definition from_sandbox_policy (p : SandboxPolicy) : FileSystemSandboxPolicy :=
  match p with
  | DangerFullAccess => unrestricted
  | ExternalSandbox _ => external_sandbox
  | ReadOnly _ => restricted [new_entry (Special Root) Read]
  | WorkspaceWrite writable_roots _ exclude_tmpdir_env_var exclude_slash_tmp =>
      workspace_write writable_roots exclude_tmpdir_env_var exclude_slash_tmp
  end.

Definition protect_cwd (es : list FileSystemSandboxEntry) (cwd : str) : list FileSystemSandboxEntry :=
  match from_absolute_path cwd with
  | inl cwd_root =>
      foldl append_default_read_only_path_if_no_explicit_rule es (default_read_only_subpaths_for_writable_root cwd_root true)
  | inr _ => es
  end.

Definition from_legacy_sandbox_policy_for_cwd (p : SandboxPolicy) (cwd : str) : FileSystemSandboxPolicy :=
  let file_system_policy := from_sandbox_policy p in
  match p with
  | WorkspaceWrite writable_roots _ _ _ =>
      set_entries file_system_policy
        (protect_writable_roots (protect_cwd (entries file_system_policy) cwd) writable_roots false)
  | _ => file_system_policy
  end.

Definition from_legacy_sandbox_policy_preserving_deny_entries
    (p : SandboxPolicy) (cwd : str) (existing : FileSystemSandboxPolicy) : FileSystemSandboxPolicy :=
  let rebuilt := from_legacy_sandbox_policy_for_cwd p cwd in
  if is_restricted (kind rebuilt) then
    foldl push_missing_entry (mkPolicy (kind rebuilt) (glob_scan_max_depth existing) (entries rebuilt))
      (List.filter is_deny (entries existing))
  else rebuilt.

Definition legacy_runtime_file_system_policy_for_cwd (p : SandboxPolicy) (cwd : str) : FileSystemSandboxPolicy :=
  match p with
  | WorkspaceWrite writable_roots _ exclude_tmpdir_env_var exclude_slash_tmp =>
      let es := workspace_entries writable_roots exclude_tmpdir_env_var exclude_slash_tmp in
      restricted (protect_writable_roots (protect_cwd es cwd) writable_roots false)
  | _ => from_sandbox_policy p
  end.

(** *** Roots of a policy *)

Definition get_readable_roots_with_cwd (p : FileSystemSandboxPolicy) (cwd : str) : list str :=
  if has_full_disk_read_access p then []
  else
    dedup_absolute_paths
      (resolved_path <$>
       List.filter (fun e => can_read_path_with_cwd p (resolved_path e) cwd)
         (List.filter (fun e => can_read (resolved_access e)) (resolved_entries_with_cwd p cwd)))
      true.

Definition has_explicit_resolved_path_entry (es : list ResolvedFileSystemEntry) (path : str) : bool :=
  existsb (fun e => Path.eqb (resolved_path e) path) es.

Definition protected_metadata_names_for_writable_root
    (p : FileSystemSandboxPolicy) (root : str) (raw_writable_roots : list str) (cwd : str) : list str :=
  List.filter (fun metadata_name =>
      let metadata_paths :=
        abs_join root metadata_name :: ((fun raw_root => abs_join raw_root metadata_name) <$> raw_writable_roots) in
      forallb (fun metadata_path => negb (can_write_path_with_cwd p metadata_path cwd)) metadata_paths)
    PROTECTED_METADATA_PATH_NAMES.

(** The literal path of a read-only entry inside a writable root. *)
Definition raw_carveout_path (root : str) (raw_writable_roots : list str) (path : str) : option str :=
  if Path.eqb path root then None
  else if Path.starts_with path root then Some path
  else head (omap (fun raw_root =>
         suffix ← Path.strip_prefix path raw_root;
         if is_empty suffix then None else Some (abs_join root suffix)) raw_writable_roots).

Definition carveout (root : str) (preserve_raw_carveout_paths : bool) (raw_writable_roots : list str) (path : str) : option str :=
  match (if preserve_raw_carveout_paths then raw_carveout_path root raw_writable_roots path else None) with
  | Some raw_carveout_path => Some raw_carveout_path
  | None =>
      let effective_path := normalize_effective_absolute_path path in
      if Path.eqb effective_path root || negb (Path.starts_with effective_path root) then None
      else Some effective_path
  end.

Definition writable_root_of
    (p : FileSystemSandboxPolicy) (cwd : str) (resolved_entries : list ResolvedFileSystemEntry)
    (writable_entries : list str) (root : str) : WritableRoot :=
  let preserve_raw_carveout_paths := is_some_and (Path.parent root) (fun _ => true) in
  let raw_writable_roots := List.filter (fun path => Path.eqb (normalize_effective_absolute_path path) root) writable_entries in
  let protected_metadata_names := protected_metadata_names_for_writable_root p root raw_writable_roots cwd in
  let protect_missing_dot_codex :=
    is_some_and (ok (from_absolute_path cwd)) (fun cwd => Path.eqb (normalize_effective_absolute_path cwd) root) in
  let read_only_subpaths :=
    List.filter (fun path => negb (has_explicit_resolved_path_entry resolved_entries path))
      (default_read_only_subpaths_for_writable_root root protect_missing_dot_codex)
    ++ omap (fun e => carveout root preserve_raw_carveout_paths raw_writable_roots (resolved_path e))
         (List.filter (fun e => negb (can_write_path_with_cwd p (resolved_path e) cwd))
           (List.filter (fun e => negb (can_write (resolved_access e))) resolved_entries)) in
  mkRoot root (dedup_absolute_paths read_only_subpaths false) protected_metadata_names.

Definition writable_entries_with_cwd (p : FileSystemSandboxPolicy) (cwd : str) : list str :=
  resolved_path <$>
  List.filter (fun e => can_write_path_with_cwd p (resolved_path e) cwd)
    (List.filter (fun e => can_write (resolved_access e)) (resolved_entries_with_cwd p cwd)).

Definition get_writable_roots_with_cwd (p : FileSystemSandboxPolicy) (cwd : str) : list WritableRoot :=
  if has_full_disk_write_access p then []
  else
    let resolved_entries := resolved_entries_with_cwd p cwd in
    let writable_entries := writable_entries_with_cwd p cwd in
    writable_root_of p cwd resolved_entries writable_entries <$> dedup_absolute_paths writable_entries true.

Definition get_unreadable_roots_with_cwd (p : FileSystemSandboxPolicy) (cwd : str) : list str :=
  if is_restricted (kind p) then
    let root := absolute_root_path_for_cwd <$> ok (from_absolute_path cwd) in
    dedup_absolute_paths
      (resolved_path <$>
       List.filter (fun e => negb (is_some_and root (fun root => Path.eqb root (resolved_path e))))
         (List.filter (fun e => negb (can_read_path_with_cwd p (resolved_path e) cwd))
           (List.filter (fun e => bool_decide (resolved_access e = Deny)) (resolved_entries_with_cwd p cwd))))
      true
  else [].

Definition get_unreadable_globs_with_cwd (p : FileSystemSandboxPolicy) (cwd : str) : list str :=
  if is_restricted (kind p) then
    dedup (sort_by str_leb
      (omap (fun e => match entry_path e with
                      | GlobPattern pattern => Some (resolve_path_against_base pattern cwd)
                      | AtPath _ | Special _ => None
                      end)
        (List.filter is_deny (entries p))))
  else [].

End roots.

(** ** Conversion to a legacy policy *)

(** What the loop over the entries has found. *)
Record LegacyScan := mkScan {
  workspace_root_writable : bool;
  scan_writable_roots : list str;
  tmpdir_writable : bool;
  slash_tmp_writable : bool;
  unbridgeable_root_write : bool
}.

Definition unsupported_writes : IoSource :=
  mkIo InvalidInput
    (lit "permissions profile requests filesystem writes outside the workspace root, which is not supported until the runtime enforces FileSystemSandboxPolicy directly").

Section legacy.
Context `{PathEnv}.

Definition scan_entry (cwd_absolute : option str) (s : LegacyScan) (e : FileSystemSandboxEntry) : LegacyScan :=
  let '(mkScan ws roots tmp slash unb) := s in
  match entry_path e with
  | GlobPattern _ => s
  | AtPath path =>
      if can_write (access e) then
        if is_some_and cwd_absolute (fun cwd => Path.eqb cwd path) then mkScan true roots tmp slash unb
        else mkScan ws (roots ++ [path]) tmp slash unb
      else s
  | Special Root => match access e with Write => mkScan ws roots tmp slash true | Deny | Read => s end
  | Special Minimal => s
  | Special (ProjectRoots subpath) =>
      if bool_decide (subpath = None) && can_write (access e) then mkScan true roots tmp slash unb
      else match resolve_file_system_special_path (ProjectRoots subpath) cwd_absolute with
           | Some path => if can_write (access e) then mkScan ws (roots ++ [path]) tmp slash unb else s
           | None => s
           end
  | Special Tmpdir => if can_write (access e) then mkScan ws roots true slash unb else s
  | Special SlashTmp => if can_write (access e) then mkScan ws roots tmp true unb else s
  | Special (Unknown _ _) => s
  end.

Definition unrestricted_legacy (network_policy : NetworkSandboxPolicy) : SandboxPolicy :=
  if is_enabled network_policy then DangerFullAccess else ExternalSandbox AccessRestricted.

Definition to_legacy_sandbox_policy (p : FileSystemSandboxPolicy) (network_policy : NetworkSandboxPolicy) (cwd : str) :
    io_result SandboxPolicy :=
  match kind p with
  | ExternalSandboxKind => inl (ExternalSandbox (if is_enabled network_policy then AccessEnabled else AccessRestricted))
  | Unrestricted => inl (unrestricted_legacy network_policy)
  | Restricted =>
      let cwd_absolute := ok (from_absolute_path cwd) in
      let s := foldl (scan_entry cwd_absolute) (mkScan false [] false false false) (entries p) in
      if has_full_disk_write_access p then inl (unrestricted_legacy network_policy)
      else if workspace_root_writable s then
        inl (WorkspaceWrite (dedup_absolute_paths (scan_writable_roots s) false) (is_enabled network_policy)
               (negb (tmpdir_writable s)) (negb (slash_tmp_writable s)))
      else if unbridgeable_root_write s || negb (is_empty (scan_writable_roots s)) || tmpdir_writable s || slash_tmp_writable s
      then inr unsupported_writes
      else inl (ReadOnly (is_enabled network_policy))
  end.

(** *** Signatures *)

Record FileSystemSemanticSignature := mkSignature {
  sig_full_disk_read : bool;
  sig_full_disk_write : bool;
  sig_platform_defaults : bool;
  sig_readable_roots : list str;
  sig_writable_roots : list WritableRoot;
  sig_unreadable_roots : list str;
  sig_unreadable_globs : list str
}.

Definition sorted_absolute_paths (paths : list str) : list str := sort_by Path.leb paths.

Definition sorted_writable_roots (roots : list WritableRoot) : list WritableRoot :=
  sort_by (fun left right => Path.leb (root left) (root right))
    ((fun r => mkRoot (root r) (sorted_absolute_paths (read_only_subpaths r)) (dedup (sort_by str_leb (protected_metadata_names r))))
     <$> roots).

Definition semantic_signature (p : FileSystemSandboxPolicy) (cwd : str) : FileSystemSemanticSignature := {|
  sig_full_disk_read := has_full_disk_read_access p;
  sig_full_disk_write := has_full_disk_write_access p;
  sig_platform_defaults := include_platform_defaults p;
  sig_readable_roots := sorted_absolute_paths (get_readable_roots_with_cwd p cwd);
  sig_writable_roots := sorted_writable_roots (get_writable_roots_with_cwd p cwd);
  sig_unreadable_roots := sorted_absolute_paths (get_unreadable_roots_with_cwd p cwd);
  sig_unreadable_globs := get_unreadable_globs_with_cwd p cwd
|}.

(** Equality of signatures compares paths as paths. *)
Fixpoint list_eqb {A} (eqb : A -> A -> bool) (l k : list A) : bool :=
  match l, k with
  | [], [] => true
  | x :: l', y :: k' => eqb x y && list_eqb eqb l' k'
  | _, _ => false
  end.

Definition writable_root_eqb (a b : WritableRoot) : bool :=
  Path.eqb (root a) (root b) && list_eqb Path.eqb (read_only_subpaths a) (read_only_subpaths b)
  && list_eqb str_eqb (protected_metadata_names a) (protected_metadata_names b).

Definition signature_eqb (a b : FileSystemSemanticSignature) : bool :=
  eqb (sig_full_disk_read a) (sig_full_disk_read b) && eqb (sig_full_disk_write a) (sig_full_disk_write b)
  && eqb (sig_platform_defaults a) (sig_platform_defaults b)
  && list_eqb Path.eqb (sig_readable_roots a) (sig_readable_roots b)
  && list_eqb writable_root_eqb (sig_writable_roots a) (sig_writable_roots b)
  && list_eqb Path.eqb (sig_unreadable_roots a) (sig_unreadable_roots b)
  && list_eqb str_eqb (sig_unreadable_globs a) (sig_unreadable_globs b).

Definition is_semantically_equivalent_to (p other : FileSystemSandboxPolicy) (cwd : str) : bool :=
  signature_eqb (semantic_signature p cwd) (semantic_signature other cwd).

Definition protected_metadata_names_need_direct_runtime_enforcement
    (p : FileSystemSandboxPolicy) (legacy_policy : SandboxPolicy) (cwd : str) : bool :=
  let legacy_roots := legacy_get_writable_roots_with_cwd legacy_policy cwd in
  existsb (fun writable_root =>
      match List.find (fun candidate => Path.eqb (root candidate) (root writable_root)) legacy_roots with
      | None => negb (is_empty (protected_metadata_names writable_root))
      | Some legacy_root =>
          existsb (fun metadata_name =>
              negb (existsb (fun subpath => Path.eqb subpath (abs_join (root writable_root) metadata_name))
                      (read_only_subpaths legacy_root)))
            (protected_metadata_names writable_root)
      end)
    (get_writable_roots_with_cwd p cwd).

Definition needs_direct_runtime_enforcement (p : FileSystemSandboxPolicy) (network_policy : NetworkSandboxPolicy) (cwd : str) : bool :=
  if is_restricted (kind p) then
    match to_legacy_sandbox_policy p network_policy cwd with
    | inr _ => true
    | inl legacy_policy =>
        protected_metadata_names_need_direct_runtime_enforcement p legacy_policy cwd
        || negb (signature_eqb (semantic_signature p cwd)
                   (semantic_signature (legacy_runtime_file_system_policy_for_cwd legacy_policy cwd) cwd))
    end
  else false.

End legacy.

(** ** The matcher of denied reads *)

(** [globset], as [build_glob_matcher] configures it: a glob is built from a pattern or refused
    with the text of an error, and matches paths. *)
Class GlobMatcherOps := {
  GlobMatcher : Type;
  build_glob_matcher : str -> GlobMatcher + str;
  glob_is_match : GlobMatcher -> str -> bool
}.

Inductive InvalidDenyReadGlobBehavior : Type := FailClosed | ReturnError.

Section matcher.
Context `{PathEnv} `{GlobMatcherOps}.

Record ReadDenyMatcher := mkMatcher {
  denied_candidates : list (list str);
  deny_read_matchers : list GlobMatcher;
  invalid_pattern : bool
}.

Definition normalized_and_canonical_candidates (path : str) : list str :=
  let candidates :=
    match from_absolute_path path with
    | inl normalized => push_unique [] normalized
    | inr _ => push_unique [] path
    end in
  match fs_canonicalize path with
  | None => candidates
  | Some canonical =>
      match from_absolute_path canonical with
      | inl canonical_absolute => push_unique candidates canonical_absolute
      | inr _ => candidates
      end
  end.

Definition invalid_glob_error (pattern err : str) : str :=
  lit "invalid deny-read glob pattern `" ++ pattern ++ lit "`: " ++ err.

(** The loop over the patterns: the matchers, whether a pattern was invalid, or an error. *)
Fixpoint build_matchers (behavior : InvalidDenyReadGlobBehavior) (patterns : list str) (matchers : list GlobMatcher) (invalid : bool) :
    (list GlobMatcher * bool) + str :=
  match patterns with
  | [] => inl (matchers, invalid)
  | pattern :: rest =>
      match build_glob_matcher pattern with
      | inl matcher => build_matchers behavior rest (matchers ++ [matcher]) invalid
      | inr err =>
          match behavior with
          | FailClosed => build_matchers behavior rest matchers true
          | ReturnError => inr (invalid_glob_error pattern err)
          end
      end
  end.

Definition matcher_build (p : FileSystemSandboxPolicy) (cwd : str) (behavior : InvalidDenyReadGlobBehavior) :
    option ReadDenyMatcher + str :=
  if has_denied_read_restrictions p then
    let denied := normalized_and_canonical_candidates <$> get_unreadable_roots_with_cwd p cwd in
    match build_matchers behavior (get_unreadable_globs_with_cwd p cwd) [] false with
    | inl (matchers, invalid) => inl (Some (mkMatcher denied matchers invalid))
    | inr err => inr err
    end
  else inl None.

(** [ReadDenyMatcher::new], whose [unreachable!] is [Panic]. *)
Definition matcher_new (p : FileSystemSandboxPolicy) (cwd : str) : result (option ReadDenyMatcher) str :=
  match matcher_build p cwd FailClosed with inl matcher => Ok matcher | inr _ => Panic end.

Definition matcher_try_new (p : FileSystemSandboxPolicy) (cwd : str) : option ReadDenyMatcher + str :=
  matcher_build p cwd ReturnError.

Definition is_read_denied (self : ReadDenyMatcher) (path : str) : bool :=
  if invalid_pattern self then true
  else
    let path_candidates := normalized_and_canonical_candidates path in
    if existsb (fun denied =>
         existsb (fun candidate =>
           existsb (fun denied_candidate => Path.eqb candidate denied_candidate || Path.starts_with candidate denied_candidate)
             denied)
           path_candidates)
         (denied_candidates self)
    then true
    else existsb (fun matcher => existsb (glob_is_match matcher) path_candidates) (deny_read_matchers self).

End matcher.

(** ** Writable roots and the access of the policy *)

Lemma is_path_writable_spec W path :
  is_path_writable W path = true <->
  Path.starts_with path (root W) = true /\ existsb (Path.starts_with path) (read_only_subpaths W) = false /\
  path_contains_protected_metadata_name W path = false.
Proof.
  unfold is_path_writable. destruct (Path.starts_with path (root W)), (existsb _ _), (path_contains_protected_metadata_name W path);
    simpl; naive_solver.
Qed.

Section refinement.
Context `{PathEnvLaws}.

Lemma governs_between target q es g :
  Path.starts_with target q = true -> Path.starts_with q (resolved_path g) = true -> Governs target es g -> Governs q es g.
Proof.
  intros Htq Hqg (Hin & Hst & Hmax). split_and!; [done..|]. intros e' He' Hst'. apply Hmax; [done|].
  by apply (starts_with_trans _ q).
Qed.

(** Metadata children of a path and of the paths above it. *)
Lemma metadata_child_below p cwd e q target v :
  wf_policy p -> e ∈ resolved_entries_with_cwd p cwd -> normalized q -> normalized target ->
  Path.starts_with target q = true -> metadata_child q e = Some v -> metadata_child target e = Some v.
Proof.
  intros Hp He (qs & Hqs & ->) (ts & Hts & ->) Htq. destruct (resolved_normalized _ _ _ Hp He) as (rs & Hrs & Hre).
  destruct e as [re a], v as [mp m]. simpl in Hre. subst re. rewrite starts_with_abs, bool_decide_eq_true in Htq by done.
  rewrite !metadata_child_spec by done. intros (-> & Hm & -> & Hpre). split_and!; [done..|by etrans].
Qed.

Lemma metadata_child_above p cwd e q target mp m :
  wf_policy p -> e ∈ resolved_entries_with_cwd p cwd -> normalized q -> normalized target ->
  Path.starts_with q mp = true -> metadata_child target e = Some (mp, m) -> metadata_child q e = Some (mp, m).
Proof.
  intros Hp He (qs & Hqs & ->) (ts & Hts & ->) Hqm. destruct (resolved_normalized _ _ _ Hp He) as (rs & Hrs & Hre).
  destruct e as [re a]. simpl in Hre. subst re. rewrite !metadata_child_spec by done. intros (-> & Hm & -> & Hpre).
  destruct (metadata_name_ok m Hm) as [Hn _].
  rewrite starts_with_abs, bool_decide_eq_true in Hqm by (done || by apply forallb_snoc). done.
Qed.

Lemma metadata_child_covers p cwd e target mp m :
  wf_policy p -> e ∈ resolved_entries_with_cwd p cwd -> normalized target -> metadata_child target e = Some (mp, m) ->
  resolved_access e = Write /\ m ∈ PROTECTED_METADATA_PATH_NAMES /\ mp = abs_join (resolved_path e) m /\
  normalized mp /\ Path.starts_with target mp = true /\ Path.starts_with mp (resolved_path e) = true.
Proof.
  intros Hp He (ts & Hts & ->). destruct (resolved_normalized _ _ _ Hp He) as (rs & Hrs & Hre).
  destruct e as [re a]. simpl in Hre. subst re. rewrite !metadata_child_spec by done. intros (-> & Hm & -> & Hpre). simpl.
  destruct (metadata_name_ok m Hm) as [Hn Hs]. assert (Hrm : forallb is_name (rs ++ [m]) = true) by by apply forallb_snoc.
  rewrite join_name, !starts_with_abs, !bool_decide_eq_true by done. split_and!; [done..|by exists (rs ++ [m])|done|by apply prefix_app_r].
Qed.

(** The first match of a weaker search, when it is a match of the stronger one. *)
Lemma head_omap_stronger {A B} (f h : A -> option B) l v :
  (forall x w, x ∈ l -> f x = Some w -> h x = Some w) -> (forall x, x ∈ l -> h x = Some v -> f x = Some v) ->
  head (omap h l) = Some v -> head (omap f l) = Some v.
Proof.
  intros Hfh Hhf. induction l as [|x l IH]; [done|]. csimpl. destruct (h x) as [w|] eqn:Eh.
  - intros [= ->]. rewrite (Hhf x); [done|by left|done].
  - destruct (f x) as [w|] eqn:Ef; [rewrite (Hfh x w) in Eh by (done || by left); done|].
    apply IH; intros y; [intros w|]; intros Hy; [apply Hfh|apply Hhf]; by right.
Qed.

(** The first metadata child of [target] is also that of each path between its metadata
    directory and [target]. *)
Lemma metadata_child_stable p cwd q target mp m :
  wf_policy p -> normalized q -> normalized target -> Path.starts_with target q = true -> Path.starts_with q mp = true ->
  metadata_child_of_writable_root p target cwd = Some (mp, m) -> metadata_child_of_writable_root p q cwd = Some (mp, m).
Proof.
  intros Hp Hq Ht Htq Hqm. unfold metadata_child_of_writable_root. apply head_omap_stronger.
  - intros e w He. by apply (metadata_child_below p cwd).
  - intros e He. by apply (metadata_child_above p cwd).
Qed.

Definition write_denied (p : FileSystemSandboxPolicy) (target cwd : str) : Prop :=
  exists mp m, metadata_child_of_writable_root p target cwd = Some (mp, m) /\
    has_explicit_write_entry_for_metadata_path p mp target cwd = false.

Lemma metadata_denied_spec p target cwd :
  kind p = Restricted -> normalized target -> is_metadata_write_denied p target cwd = true <-> write_denied p target cwd.
Proof.
  intros Hk Ht. unfold is_metadata_write_denied, is_restricted, write_denied. rewrite Hk, resolve_candidate_id by done. simpl.
  destruct (metadata_child_of_writable_root p target cwd) as [[mp m]|].
  - rewrite negb_true_iff. split; [by exists mp, m|]. by intros (? & ? & [= <- <-] & ?).
  - split; [done|]. by intros (? & ? & ? & _).
Qed.

(** Writing, for a restricted policy without full access. *)
Lemma can_write_spec p target cwd :
  wf_policy p -> kind p = Restricted -> has_full_disk_write_access p = false -> normalized target ->
  can_write_path_with_cwd p target cwd = true <->
  (exists g, Governs target (resolved_entries_with_cwd p cwd) g /\ resolved_access g = Write) /\ ~ write_denied p target cwd.
Proof.
  intros Hp Hk Hf Ht. unfold can_write_path_with_cwd. rewrite Hf, <- (metadata_denied_spec p target cwd Hk Ht), not_true_iff_false.
  pose proof (resolve_candidate_id target cwd Ht) as Hr. split.
  - destruct (resolve_access_cases p target cwd target Hp Hk Hr) as [(g & Hg & ->)|[_ ->]]; [|done].
    destruct (resolved_access g) eqn:Ea; simpl; try done. rewrite negb_true_iff. split; [by exists g|done].
  - intros [(g & Hg & Ha) Hd]. rewrite (governs_access p target cwd target g) by done. by rewrite Ha, Hd.
Qed.

(** Where a path can be written, so can the paths between it and the entry that governs it. *)
Lemma can_write_between p cwd q target g :
  wf_policy p -> kind p = Restricted -> has_full_disk_write_access p = false -> normalized q -> normalized target ->
  can_write_path_with_cwd p target cwd = true -> Governs target (resolved_entries_with_cwd p cwd) g ->
  Path.starts_with target q = true -> Path.starts_with q (resolved_path g) = true ->
  can_write_path_with_cwd p q cwd = true.
Proof.
  intros Hp Hk Hf Hq Ht Hw Hg Htq Hqg. apply can_write_spec in Hw as [(g' & Hg' & Ha) Hnd]; [|done..].
  destruct (governs_unique _ _ _ _ (resolved_all_normalized p cwd Hp) Hg Hg') as [_ Hgg']. rewrite <- Hgg' in Ha.
  apply can_write_spec; [done..|]. split; [exists g; split; [by eapply governs_between|done]|].
  intros (mp & m & Hc & Hex). apply head_omap_Some in Hc as Hc'. destruct Hc' as (e1 & He1 & Hm1).
  pose proof (metadata_child_below p cwd e1 q target _ Hp He1 Hq Ht Htq Hm1) as Hm1'.
  destruct (metadata_child_of_writable_root p target cwd) as [[mp' m']|] eqn:Ec.
  2: { pose proof (head_omap_None _ _ e1 Ec He1). congruence. }
  destruct (has_explicit_write_entry_for_metadata_path p mp' target cwd) eqn:Eex.
  2: { apply Hnd. by exists mp', m'. }
  apply explicit_write_spec in Eex as (w & Hwin & Hwa & Htw & Hwm).
  destruct Hg as (_ & _ & Hmax). destruct (Hmax _ Hwin Htw) as [Hgw _].
  assert (Hqw : Path.starts_with q (resolved_path w) = true) by by apply (starts_with_trans _ (resolved_path g)).
  assert (Hqm : Path.starts_with q mp' = true) by by apply (starts_with_trans _ (resolved_path w)).
  pose proof (metadata_child_stable p cwd q target mp' m' Hp Hq Ht Htq Hqm Ec) as Hc2.
  rewrite Hc in Hc2. injection Hc2 as -> ->.
  assert (has_explicit_write_entry_for_metadata_path p mp' q cwd = true) as Hx by (apply explicit_write_spec; by exists w).
  congruence.
Qed.

(** *** The roots of a policy on a disk whose links do not matter to it *)

(** No entry of the policy is at a path that following links would change. *)
Definition no_links (p : FileSystemSandboxPolicy) (cwd : str) : Prop :=
  forall e, e ∈ resolved_entries_with_cwd p cwd -> normalize_effective_absolute_path (resolved_path e) = resolved_path e.

Lemma elem_of_lfilter {A} (f : A -> bool) l x : x ∈ List.filter f l <-> x ∈ l /\ f x = true.
Proof. by rewrite !list_elem_of_In, filter_In. Qed.

Lemma fmap_id_on {A} (f : A -> A) (l : list A) : (forall x, x ∈ l -> f x = x) -> f <$> l = l.
Proof. induction l as [|x l IH]; intros Hf; [done|]. csimpl. rewrite Hf by by left. f_equal. apply IH. intros y Hy. apply Hf. by right. Qed.

Lemma elem_of_writable_entries p cwd r :
  r ∈ writable_entries_with_cwd p cwd <->
  mkResolved r Write ∈ resolved_entries_with_cwd p cwd /\ can_write_path_with_cwd p r cwd = true.
Proof.
  unfold writable_entries_with_cwd. rewrite list_elem_of_fmap. setoid_rewrite elem_of_lfilter. setoid_rewrite elem_of_lfilter.
  split.
  - intros ([q a] & -> & [[Hin Ha] Hw]). simpl in *. by destruct a.
  - intros [Hin Hw]. by exists (mkResolved r Write).
Qed.

Section plain.
Context (p : FileSystemSandboxPolicy) (cwd : str).
Hypothesis Hp : wf_policy p.
Hypothesis Hplain : no_links p cwd.

Abbreviation root_at := (writable_root_of p cwd (resolved_entries_with_cwd p cwd) (writable_entries_with_cwd p cwd)).

Lemma writable_entries_normalized : Forall normalized (writable_entries_with_cwd p cwd).
Proof. apply Forall_forall. intros r [Hin _]%elem_of_writable_entries. by apply (resolved_normalized p cwd _ Hp Hin). Qed.

Lemma effective_writable_entries :
  normalize_effective_absolute_path <$> writable_entries_with_cwd p cwd = writable_entries_with_cwd p cwd.
Proof.
  apply fmap_id_on. intros r [Hin _]%elem_of_writable_entries. exact (Hplain _ Hin).
Qed.

Lemma elem_of_writable_roots W :
  has_full_disk_write_access p = false ->
  W ∈ get_writable_roots_with_cwd p cwd <-> exists r, r ∈ writable_entries_with_cwd p cwd /\ W = root_at r.
Proof.
  intros Hf. unfold get_writable_roots_with_cwd, dedup_absolute_paths. rewrite Hf, effective_writable_entries, list_elem_of_fmap.
  setoid_rewrite dedup_paths_normalized; [|apply writable_entries_normalized]. naive_solver.
Qed.

Lemma raw_roots_eq r x :
  normalized r -> x ∈ List.filter (fun path => Path.eqb (normalize_effective_absolute_path path) r) (writable_entries_with_cwd p cwd) ->
  x = r.
Proof.
  intros Hr [Hin Heq]%elem_of_lfilter. apply elem_of_writable_entries in Hin as [Hin _].
  pose proof (Hplain _ Hin) as Hx. simpl in Hx. rewrite Hx in Heq. apply eqb_normalized in Heq; [done| |done].
  by apply (resolved_normalized p cwd _ Hp Hin).
Qed.

Lemma protected_names_spec r m :
  normalized r -> m ∈ protected_metadata_names (root_at r) <->
  m ∈ PROTECTED_METADATA_PATH_NAMES /\ can_write_path_with_cwd p (abs_join r m) cwd = false.
Proof.
  intros Hr. unfold writable_root_of. simpl. unfold protected_metadata_names_for_writable_root. rewrite elem_of_lfilter.
  apply and_iff_compat_l. simpl. rewrite andb_true_iff, negb_true_iff, forallb_forall. split; [by intros [? _]|].
  intros Hw. split; [done|]. intros x Hx. apply list_elem_of_In, list_elem_of_fmap in Hx as (raw & -> & Hraw).
  apply raw_roots_eq in Hraw as ->; [|done]. by rewrite Hw.
Qed.

Lemma carveout_plain r flag e q :
  normalized r -> e ∈ resolved_entries_with_cwd p cwd ->
  carveout r flag (List.filter (fun path => Path.eqb (normalize_effective_absolute_path path) r) (writable_entries_with_cwd p cwd))
    (resolved_path e) = Some q <->
  q = resolved_path e /\ resolved_path e <> r /\ Path.starts_with (resolved_path e) r = true.
Proof.
  intros Hr He. pose proof (resolved_normalized p cwd e Hp He) as Hn. unfold carveout, raw_carveout_path.
  rewrite (Hplain _ He). destruct (Path.eqb (resolved_path e) r) eqn:Eq.
  - apply eqb_normalized in Eq; [|done..]. destruct flag; simpl; split; done || by intros (_ & ? & _).
  - assert (Hne : resolved_path e <> r) by (intros Heq; apply not_true_iff_false in Eq; by apply Eq, eqb_normalized).
    simpl. destruct (Path.starts_with (resolved_path e) r) eqn:Est; simpl.
    + destruct flag; naive_solver.
    + match goal with |- context [omap ?f ?l] => assert (Hraw : omap f l = []) end.
      { apply elem_of_nil_inv. intros y Hy. apply list_elem_of_omap in Hy as (raw & Hin & Hy). apply raw_roots_eq in Hin as ->; [|done].
        unfold Path.strip_prefix in Hy. by rewrite Est in Hy. }
      rewrite Hraw. destruct flag; simpl; naive_solver.
Qed.

Lemma read_only_spec r q :
  normalized r -> q ∈ read_only_subpaths (root_at r) <->
  (exists flag, q ∈ default_read_only_subpaths_for_writable_root r flag /\
     flag = is_some_and (ok (from_absolute_path cwd)) (fun cwd => Path.eqb (normalize_effective_absolute_path cwd) r) /\
     has_explicit_resolved_path_entry (resolved_entries_with_cwd p cwd) q = false) \/
  exists e, e ∈ resolved_entries_with_cwd p cwd /\ q = resolved_path e /\ resolved_access e <> Write /\
    can_write_path_with_cwd p q cwd = false /\ q <> r /\ Path.starts_with q r = true.
Proof.
  intros Hr. unfold writable_root_of. simpl. unfold dedup_absolute_paths.
  assert (Hcarve : forall flag q, q ∈ omap (fun e => carveout r flag
      (List.filter (fun path => Path.eqb (normalize_effective_absolute_path path) r) (writable_entries_with_cwd p cwd)) (resolved_path e))
      (List.filter (fun e => negb (can_write_path_with_cwd p (resolved_path e) cwd))
        (List.filter (fun e => negb (can_write (resolved_access e))) (resolved_entries_with_cwd p cwd))) <->
    exists e, e ∈ resolved_entries_with_cwd p cwd /\ q = resolved_path e /\ resolved_access e <> Write /\
      can_write_path_with_cwd p q cwd = false /\ q <> r /\ Path.starts_with q r = true).
  { intros flag q'. rewrite list_elem_of_omap. split.
    - intros (e & [[He Ha%negb_true_iff]%elem_of_lfilter Hw%negb_true_iff]%elem_of_lfilter & Hc).
      apply carveout_plain in Hc as (-> & Hne & Hst); [|done..]. exists e. split_and!; try done. by intros Heq; rewrite Heq in Ha.
    - intros (e & He & -> & Ha & Hw & Hne & Hst). exists e. split; [|by apply carveout_plain].
      rewrite !elem_of_lfilter, Hw. split_and!; [done| |done]. by destruct (resolved_access e). }
  rewrite dedup_paths_normalized.
  - rewrite elem_of_app, Hcarve, elem_of_lfilter, negb_true_iff. naive_solver.
  - apply Forall_app. split; apply Forall_forall; intros x.
    + intros [Hx _]%elem_of_lfilter. by eapply default_subpaths_normalized.
    + intros (e & He & -> & _)%Hcarve. by eapply resolved_normalized.
Qed.

Lemma protected_component r target m :
  normalized r -> normalized target -> m ∈ PROTECTED_METADATA_PATH_NAMES -> Path.starts_with target (abs_join r m) = true ->
  path_contains_protected_metadata_name (root_at r) target = existsb (str_eqb m) (protected_metadata_names (root_at r)).
Proof.
  intros (rs & Hrs & ->) (ts & Hts & ->) Hm. destruct (metadata_name_ok m Hm) as [Hn Hs].
  rewrite join_name, starts_with_abs, bool_decide_eq_true by (done || by apply forallb_snoc). intros [k ->].
  unfold path_contains_protected_metadata_name. simpl (root _).
  replace (Path.strip_prefix _ _) with (Some (join [SLASH] (m :: k))).
  - rewrite components_rel; [done|]. rewrite <- (assoc (++)) in Hts. by apply forallb_prefix in Hts as [_ ?].
  - symmetry. apply strip_prefix_abs; [done..|]. exists (m :: k). by rewrite <- (assoc (++)).
Qed.

Lemma contains_protected_spec r target :
  normalized r -> normalized target -> path_contains_protected_metadata_name (root_at r) target = true ->
  exists m, m ∈ protected_metadata_names (root_at r) /\ Path.starts_with target (abs_join r m) = true.
Proof.
  intros Hr Ht. pose proof Hr as (rs & Hrs & ->). pose proof Ht as (ts & Hts & ->). unfold path_contains_protected_metadata_name.
  simpl (root _). destruct (Path.strip_prefix _ _) as [rel|] eqn:Es; [|done].
  apply strip_prefix_abs in Es as (k & -> & ->); [|done..]. pose proof (forallb_prefix _ _ _ Hts) as [_ Hk].
  rewrite components_rel by done. destruct k as [|n k]; [done|]. simpl.
  intros (m & Hm & Heq%bool_decide_eq_true)%existsb_elem. simpl in Heq. subst m. exists n. split; [done|].
  apply protected_names_spec in Hm as [Hm _]; [|done]. destruct (metadata_name_ok n Hm) as [Hn Hs].
  rewrite join_name, starts_with_abs, bool_decide_eq_true by (done || by apply forallb_snoc).
  apply prefix_app, prefix_cons, prefix_nil.
Qed.

Hypothesis Hk : kind p = Restricted.
Hypothesis Hf : has_full_disk_write_access p = false.

(** In a writable root, outside its read-only paths, the governing entry is a write entry. *)
Lemma root_governs r target :
  r ∈ writable_entries_with_cwd p cwd -> normalized target -> is_path_writable (root_at r) target = true ->
  exists g, Governs target (resolved_entries_with_cwd p cwd) g /\ resolved_access g = Write.
Proof.
  intros [Hr Hw]%elem_of_writable_entries Ht (Etr & Ero & _)%is_path_writable_spec. simpl (root _) in Etr.
  pose proof (resolved_normalized p cwd _ Hp Hr) as Hn. simpl in Hn.
  destruct (resolve_access_cases p target cwd target Hp Hk (resolve_candidate_id target cwd Ht)) as [(g & Hg & _)|[Hnone _]].
  2: { specialize (Hnone _ Hr). simpl in Hnone. congruence. }
  exists g. split; [done|]. pose proof Hg as (Hgin & Hgt & Hmax). destruct (Hmax _ Hr Etr) as [Hgr _]. simpl in Hgr.
  pose proof (resolved_normalized p cwd _ Hp Hgin) as Hgn.
  pose proof (governs_between target _ _ _ Hgt (starts_with_refl _) Hg) as Hself.
  destruct (decide (resolved_access g = Write)) as [|Hga]; [done|]. exfalso.
  assert (Hgw : can_write_path_with_cwd p (resolved_path g) cwd = false).
  { apply not_true_iff_false. intros [(g' & Hg' & Ha) _]%can_write_spec; [|done..].
    destruct (governs_unique _ _ _ _ (resolved_all_normalized p cwd Hp) Hself Hg') as [_ ?]. congruence. }
  rewrite existsb_elem_false in Ero. specialize (Ero (resolved_path g)). rewrite Hgt in Ero. cut (true = false); [done|].
  apply Ero. apply read_only_spec; [done|]. right. exists g. split_and!; try done. intros Heq. by rewrite Heq, Hw in Hgw.
Qed.

Lemma root_sound r target :
  r ∈ writable_entries_with_cwd p cwd -> normalized target -> is_path_writable (root_at r) target = true ->
  can_write_path_with_cwd p target cwd = true \/
  exists e m, e ∈ resolved_entries_with_cwd p cwd /\ resolved_access e = Write /\ m ∈ PROTECTED_METADATA_PATH_NAMES /\
    Path.starts_with target (abs_join (resolved_path e) m) = true /\
    Path.starts_with (resolved_path e) r = true /\ resolved_path e <> r.
Proof.
  intros Hr Ht Hpw. destruct (root_governs r target Hr Ht Hpw) as (g & Hg & Hga).
  pose proof Hr as [Hrin Hrw]%elem_of_writable_entries. pose proof (resolved_normalized p cwd _ Hp Hrin) as Hn. simpl in Hn.
  destruct (metadata_child_of_writable_root p target cwd) as [[mp m]|] eqn:Ec.
  2: { left. apply can_write_spec; [done..|]. split; [by exists g|]. intros (? & ? & Hc & _). congruence. }
  destruct (has_explicit_write_entry_for_metadata_path p mp target cwd) eqn:Eex.
  { left. apply can_write_spec; [done..|]. split; [by exists g|]. intros (? & ? & Hc & ?). congruence. }
  apply head_omap_Some in Ec as Hc. destruct Hc as (e & He & Hc).
  destruct (metadata_child_covers p cwd e target mp m Hp He Ht Hc) as (Hea & Hm & Hmp & Hmn & Htm & Hme).
  pose proof (resolved_normalized p cwd e Hp He) as Hen.
  apply is_path_writable_spec in Hpw as (Etr & _ & Hpw). simpl (root _) in Etr. assert (Hte : Path.starts_with target (resolved_path e) = true) by by apply (starts_with_trans _ mp).
  destruct (Nat.le_gt_cases (length (Path.components r)) (length (Path.components (resolved_path e)))) as [Hle|Hgt].
  - pose proof (starts_with_linear target _ _ Hte Etr Hle) as Her. destruct (decide (resolved_path e = r)) as [Heq|Hne].
    + exfalso. rewrite Heq in Hmp. subst mp. rewrite (protected_component r target m) in Hpw by done.
      rewrite existsb_elem_false in Hpw. assert (Hnp : m ∉ protected_metadata_names (root_at r)).
      { intros Hin%Hpw. unfold str_eqb in Hin. by rewrite bool_decide_eq_false in Hin. }
      rewrite protected_names_spec in Hnp by done. destruct (can_write_path_with_cwd p (abs_join r m) cwd) eqn:Ew; [|by destruct Hnp].
      apply can_write_spec in Ew as [_ Hnd]; [|done..]. apply Hnd. exists (abs_join r m), m. split.
      * apply (metadata_child_stable p cwd _ target); try done. apply starts_with_refl.
      * apply not_true_iff_false. intros (w & Hw & Hwa & Hw1 & Hw2)%explicit_write_spec.
        apply not_true_iff_false in Eex. apply Eex, explicit_write_spec. exists w. split_and!; [done..| |done].
        by apply (starts_with_trans _ (abs_join r m)).
    + right. exists e, m. subst mp. done.
  - exfalso. apply not_true_iff_false in Eex. apply Eex, explicit_write_spec. exists (mkResolved r Write). split_and!; [done..|]. simpl.
    apply (starts_with_linear target); [done..|]. destruct Hen as (es & Hes & Heq). destruct (metadata_name_ok m Hm) as [Hnm Hsm].
    subst mp. rewrite Heq in *. rewrite join_name in * by done. rewrite components_abs_path in Hgt by done.
    rewrite components_abs_path by by apply forallb_snoc. rewrite fmap_app, length_cons, length_app. simpl in *. lia.
Qed.

Lemma root_complete target :
  normalized target -> can_write_path_with_cwd p target cwd = true ->
  exists r, r ∈ writable_entries_with_cwd p cwd /\ Path.starts_with target r = true /\
    (is_path_writable (root_at r) target = true \/
     exists q flag, q ∈ default_read_only_subpaths_for_writable_root r flag /\ Path.starts_with target q = true).
Proof.
  intros Ht Hw. pose proof Hw as [(g & Hg & Hga) _]%can_write_spec; [|done..].
  pose proof Hg as (Hgin & Hgt & Hmax). pose proof (resolved_normalized p cwd g Hp Hgin) as Hgn.
  assert (Hwr : can_write_path_with_cwd p (resolved_path g) cwd = true).
  { apply (can_write_between p cwd (resolved_path g) target g); try done. apply starts_with_refl. }
  exists (resolved_path g). split_and!; [|done|].
  { apply elem_of_writable_entries. split; [|done]. destruct g as [pg ag]. simpl in *. by subst ag. }
  destruct (existsb (Path.starts_with target) (read_only_subpaths (root_at (resolved_path g)))) eqn:Ero.
  - right. apply existsb_elem in Ero as (q & Hq & Htq). apply read_only_spec in Hq as [(flag & Hq & _)|Hq]; [by exists q, flag| |done].
    exfalso. destruct Hq as (e & He & -> & _ & _ & Hne & Heg). destruct (Hmax _ He Htq) as [Hge _].
    apply Hne, starts_with_antisymm; [by eapply resolved_normalized|done..].
  - left. apply is_path_writable_spec. split_and!; [done..|]. apply not_true_iff_false.
    intros (m & Hm & Htm)%contains_protected_spec; [|done..]. apply protected_names_spec in Hm as [Hm Hnw]; [|done].
    rewrite (can_write_between p cwd (abs_join (resolved_path g) m) target g) in Hnw; try done; [by apply join_normalized|].
    destruct Hgn as (gs & Hgs & ->). destruct (metadata_name_ok m Hm) as [Hnm Hsm].
    rewrite join_name, starts_with_abs, bool_decide_eq_true by (done || by apply forallb_snoc). by apply prefix_app_r.
Qed.

End plain.

(** C20: the writable roots handed to a sandbox are the policy's.  A policy with write access to the
    full disk gets no roots, and everything can be written (the working directory resolves and
    [/tmp] is a directory).  For every other policy, on a disk without links that concern the
    policy, a path that one of the roots lets the sandbox write, outside the root's read-only
    paths and protected names, has write access under the policy; it can be written under the
    policy, unless it is in the metadata of another writable directory nested in the root.
    Conversely, a path that the policy lets be written is in one of the roots, and that root
    lets it be written unless the path is in the root's default read-only metadata. *)
Theorem writable_roots_match_policy p cwd target :
  wf_policy p -> no_links p cwd -> normalized target ->
  (has_full_disk_write_access p = true ->
   get_writable_roots_with_cwd p cwd = [] /\
   forall c, from_absolute_path cwd = inl c -> path_is_dir (lit "/tmp") = true -> can_write_path_with_cwd p target cwd = true) /\
  (has_full_disk_write_access p = false ->
   (forall W, W ∈ get_writable_roots_with_cwd p cwd -> is_path_writable W target = true ->
      resolve_access_with_cwd p target cwd = Write /\
      (can_write_path_with_cwd p target cwd = true \/
       exists e m, e ∈ resolved_entries_with_cwd p cwd /\ resolved_access e = Write /\ m ∈ PROTECTED_METADATA_PATH_NAMES /\
         Path.starts_with target (abs_join (resolved_path e) m) = true /\
         Path.starts_with (resolved_path e) (root W) = true /\ resolved_path e <> root W)) /\
   (can_write_path_with_cwd p target cwd = true ->
    exists W, W ∈ get_writable_roots_with_cwd p cwd /\ Path.starts_with target (root W) = true /\
      (is_path_writable W target = true \/
       exists q flag, q ∈ default_read_only_subpaths_for_writable_root (root W) flag /\ Path.starts_with target q = true))).
Proof.
  intros Hp Hplain Ht. split.
  { intros Hf. split; [unfold get_writable_roots_with_cwd; by rewrite Hf|]. intros c Hc Htmp.
    eapply (full_disk_access_is_full p target cwd target); [done|by apply resolve_candidate_id|done..]. }
  intros Hf. assert (kind p = Restricted) as Hk by (unfold has_full_disk_write_access in Hf; by destruct (kind p)). split.
  - intros W HW Hpw. apply elem_of_writable_roots in HW as (r & Hr & ->); [|done..]. split; [|by apply root_sound].
    destruct (root_governs p cwd Hp Hplain Hk Hf r target Hr Ht Hpw) as (g & Hg & Ha).
    rewrite (governs_access p target cwd target g); [done..|by apply resolve_candidate_id|done].
  - intros Hw. destruct (root_complete p cwd Hp Hplain Hk Hf target Ht Hw) as (r & Hr & Htr & Hrest).
    exists (writable_root_of p cwd (resolved_entries_with_cwd p cwd) (writable_entries_with_cwd p cwd) r).
    split_and!; [|done..]. apply elem_of_writable_roots; [done..|]. by exists r.
Qed.

End refinement.

(** A writable directory nested in another: the outer root lets its metadata be written, which
    the policy does not. *)
Lemma nested_root_metadata_is_open :
  let env := example_env in
  let p := restricted [new_entry (AtPath (lit "/ws")) Write; new_entry (AtPath (lit "/ws/sub")) Write] in
  can_write_path_with_cwd p (lit "/ws/sub/.git/config") (lit "/ws") = false /\
  existsb (fun W => is_path_writable W (lit "/ws/sub/.git/config")) (get_writable_roots_with_cwd p (lit "/ws")) = true.
Proof. split; by vm_compute. Qed.

(** ** Legacy policies survive conversion *)

Section round_trip.
Context `{PathEnvLaws}.

(** Read entries were added at the end. *)
Definition extends (es es' : list FileSystemSandboxEntry) : Prop :=
  exists rest, es' = es ++ rest /\ Forall (fun e => access e = Read) rest.

#[local] Instance extends_preorder : PreOrder extends.
Proof.
  split.
  - intros es. exists []. by rewrite app_nil_r.
  - intros a b c (k & -> & Hk) (l & -> & Hl). exists (k ++ l). rewrite (assoc (++)). split; [done|by apply Forall_app].
Qed.

Lemma append_default_extends es path : extends es (append_default_read_only_entry_if_no_explicit_rule es path).
Proof.
  unfold append_default_read_only_entry_if_no_explicit_rule. destruct (existsb _ _); [done|]. by eexists; split; [|apply Forall_singleton].
Qed.

Lemma append_all_extends es paths : extends es (foldl append_default_read_only_path_if_no_explicit_rule es paths).
Proof.
  revert es. induction paths as [|q paths IH]; intros es; simpl; [done|]. etrans; [apply append_default_extends|apply IH].
Qed.

Lemma protect_roots_extends es roots flag : extends es (protect_writable_roots es roots flag).
Proof.
  unfold protect_writable_roots. revert es. induction roots as [|r roots IH]; intros es; simpl; [done|].
  etrans; [apply append_all_extends|apply IH].
Qed.

Lemma protect_cwd_extends es cwd : extends es (protect_cwd es cwd).
Proof. unfold protect_cwd. destruct (from_absolute_path cwd); [apply append_all_extends|done]. Qed.

Lemma workspace_write_extends roots xt xs : extends (workspace_entries roots xt xs) (entries (workspace_write roots xt xs)).
Proof. unfold workspace_write. simpl. do 3 (etrans; [apply append_default_extends|]). apply protect_roots_extends. Qed.

Lemma scan_read c s e : access e = Read -> scan_entry c s e = s.
Proof.
  intros Ha. unfold scan_entry. rewrite Ha. destruct s, (entry_path e) as [| |[]]; simpl; try done. by destruct (bool_decide _), c as [?|], subpath.
Qed.

Lemma scan_extends c s es es' : extends es es' -> foldl (scan_entry c) s es' = foldl (scan_entry c) s es.
Proof.
  intros (rest & -> & Hr). rewrite foldl_app. generalize (foldl (scan_entry c) s es). induction Hr as [|e rest He Hr IH]; intros t; [done|].
  simpl. rewrite scan_read by done. apply IH.
Qed.

Lemma scan_roots c ws acc tmp slash unb roots :
  Forall normalized roots -> (forall d, c = Some d -> normalized d /\ d ∉ roots) ->
  foldl (scan_entry c) (mkScan ws acc tmp slash unb) ((fun path => new_entry (AtPath path) Write) <$> roots) =
  mkScan ws (acc ++ roots) tmp slash unb.
Proof.
  intros Hr Hc. revert acc. induction Hr as [|r roots Hn Hr IH]; intros acc; [by rewrite app_nil_r|]. csimpl.
  replace (is_some_and c (fun cwd => Path.eqb cwd r)) with false.
  - rewrite IH; [by rewrite <- (assoc (++))|]. intros d Hd. destruct (Hc d Hd) as [? ?]. set_solver.
  - destruct c as [d|]; [|done]. destruct (Hc d eq_refl) as [Hd Hin]. symmetry. simpl. apply not_true_iff_false.
    intros ->%eqb_normalized; [|done..]. set_solver.
Qed.

Lemma dedup_paths_nodup l : Forall normalized l -> NoDup l -> dedup_paths l = l.
Proof.
  intros Hl Hd. unfold dedup_paths. assert (Hgo : forall acc, NoDup (acc ++ l) -> Forall normalized acc -> foldl push_unique acc l = acc ++ l).
  { clear Hd. induction Hl as [|x l Hx Hl IH]; intros acc Hd Hacc; [by rewrite app_nil_r|]. simpl. unfold push_unique at 2.
    replace (existsb _ acc) with false.
    - rewrite IH; [by rewrite <- (assoc (++))|by rewrite <- (assoc (++))|]. apply Forall_app. by split; [|apply Forall_singleton].
    - symmetry. apply existsb_elem_false. intros y Hy. apply not_true_iff_false. rewrite Forall_forall in Hacc.
      intros ->%eqb_normalized; [|by apply Hacc|done]. apply NoDup_app in Hd as (_ & Hnot & _). eapply Hnot; [done|]. by left. }
  by rewrite (Hgo [] Hd).
Qed.

Lemma extends_not_full roots xt xs es :
  extends (workspace_entries roots xt xs) es -> has_full_disk_write_access (restricted es) = false.
Proof.
  intros (rest & -> & Hr). unfold has_full_disk_write_access, has_root_access. cbn [kind entries restricted].
  rewrite existsb_app. apply andb_false_intro1, andb_false_intro2, orb_false_iff. split; apply existsb_elem_false.
  - intros e [->|(_ & Hw)]%workspace_entries_elem; [done|]. by destruct Hw as [->|[->|[->|(r & _ & ->)]]].
  - rewrite Forall_forall in Hr. intros e He. rewrite (Hr e He). by destruct (entry_path e) as [| |[]].
Qed.

(** The writable roots of a legacy policy are distinct absolute paths other than the working
    directory, which is writable anyway. *)
Definition legacy_wf (p : SandboxPolicy) (cwd : str) : Prop :=
  match p with
  | WorkspaceWrite roots _ _ _ => Forall normalized roots /\ NoDup roots /\ forall c, from_absolute_path cwd = inl c -> c ∉ roots
  | _ => True
  end.

Lemma workspace_to_legacy roots net xt xs cwd es :
  legacy_wf (WorkspaceWrite roots net xt xs) cwd -> extends (workspace_entries roots xt xs) es ->
  to_legacy_sandbox_policy (restricted es) (if net then NetEnabled else NetRestricted) cwd = inl (WorkspaceWrite roots net xt xs).
Proof.
  intros (Hn & Hd & Hc) Hes. unfold to_legacy_sandbox_policy. simpl (kind _). cbv iota.
  rewrite (extends_not_full _ _ _ _ Hes). simpl (entries _). rewrite (scan_extends _ _ _ _ Hes).
  unfold workspace_entries. rewrite foldl_app. simpl (foldl _ _ [_; _]).
  replace (foldl _ (mkScan true [] false false false) _) with (mkScan true roots (negb xt) (negb xs) false).
  - simpl. unfold dedup_absolute_paths. rewrite dedup_paths_nodup, !negb_involutive by done. by destruct net.
  - symmetry. rewrite !foldl_app. destruct xs, xt; simpl; apply scan_roots; try done; intros c Ec;
      (split; [by apply ok_from_normalized in Ec|apply Hc; destruct (from_absolute_path cwd); by simplify_eq/=]).
Qed.

(** Legacy policies survive conversion.  Converting a legacy policy to entries, in either of
    the two ways the source has, and back gives the legacy policy, with its network access, its
    writable roots and its exclusions. *)
Theorem legacy_policy_round_trip p cwd :
  legacy_wf p cwd ->
  to_legacy_sandbox_policy (from_sandbox_policy p) (network_policy_from p) cwd = inl p /\
  to_legacy_sandbox_policy (from_legacy_sandbox_policy_for_cwd p cwd) (network_policy_from p) cwd = inl p.
Proof.
  intros Hp. destruct p as [|net|net|roots net xt xs]; [done|by destruct net|by destruct net|].
  unfold from_legacy_sandbox_policy_for_cwd, from_sandbox_policy, network_policy_from. simpl (has_full_network_access _). split.
  - apply workspace_to_legacy; [done|]. apply workspace_write_extends.
  - apply workspace_to_legacy; [done|]. etrans; [apply workspace_write_extends|]. etrans; [apply protect_cwd_extends|].
    apply protect_roots_extends.
Qed.

End round_trip.

(** ** Denied reads *)

Section denied.
Context `{PathEnvLaws} `{GlobMatcherOps}.

Definition is_invalid (pattern : str) : bool := match build_glob_matcher pattern with inl _ => false | inr _ => true end.

Lemma build_fail_closed patterns matchers invalid :
  exists ms, build_matchers FailClosed patterns matchers invalid = inl (ms, invalid || existsb is_invalid patterns).
Proof.
  revert matchers invalid. induction patterns as [|q patterns IH]; intros matchers invalid; simpl; [by rewrite orb_false_r; eexists|].
  unfold is_invalid at 1. destruct (build_glob_matcher q); [apply IH|]. destruct (IH matchers true) as [ms ->]. exists ms. by destruct invalid.
Qed.

Lemma build_return_error patterns matchers :
  match List.find is_invalid patterns with
  | Some q => exists err, build_glob_matcher q = inr err /\ build_matchers ReturnError patterns matchers false = inr (invalid_glob_error q err)
  | None => exists ms, build_matchers ReturnError patterns matchers false = inl (ms, false)
  end.
Proof.
  revert matchers. induction patterns as [|q patterns IH]; intros matchers; simpl; [by eexists|]. unfold is_invalid at 1.
  destruct (build_glob_matcher q) eqn:E; [apply IH|]. by eexists.
Qed.

Lemma candidates_contain path target : from_absolute_path path = inl target -> target ∈ normalized_and_canonical_candidates path.
Proof.
  intros Hf. unfold normalized_and_canonical_candidates. rewrite Hf.
  assert (Ht : target ∈ push_unique [] target) by by left.
  destruct (fs_canonicalize path) as [q|]; [|done]. destruct (from_absolute_path q); [|done]. by apply push_unique_keeps.
Qed.

Lemma elem_of_unreadable_roots p cwd c d :
  wf_policy p -> kind p = Restricted -> no_links p cwd -> from_absolute_path cwd = inl c ->
  d ∈ resolved_entries_with_cwd p cwd -> resolved_access d = Deny -> resolved_path d <> [SLASH] ->
  resolved_path d ∈ get_unreadable_roots_with_cwd p cwd.
Proof.
  intros Hp Hk Hpl Hc Hd Ha Hne. unfold get_unreadable_roots_with_cwd, is_restricted. rewrite Hk, Hc. simpl.
  rewrite absolute_root by (by eapply from_absolute_path_normalized). unfold dedup_absolute_paths.
  rewrite fmap_id_on.
  2: { intros x Hx. apply list_elem_of_fmap in Hx as (e & -> & [[[He _]%elem_of_lfilter _]%elem_of_lfilter _]%elem_of_lfilter). by apply Hpl. }
  apply dedup_paths_normalized.
  - apply Forall_forall. intros x Hx. apply list_elem_of_fmap in Hx as (e & -> & [[[He _]%elem_of_lfilter _]%elem_of_lfilter _]%elem_of_lfilter).
    by eapply resolved_normalized.
  - pose proof (resolved_normalized p cwd d Hp Hd) as Hn. apply list_elem_of_fmap. exists d. split; [done|]. rewrite !elem_of_lfilter.
    split_and!; [done|by apply bool_decide_eq_true| |].
    + apply negb_true_iff. unfold can_read_path_with_cwd.
      destruct (resolve_access_cases p (resolved_path d) cwd (resolved_path d) Hp Hk (resolve_candidate_id _ cwd Hn)) as [(g & Hg & ->)|[_ ->]]; [|done].
      destruct Hg as (Hgin & Hgd & Hmax). destruct (Hmax _ Hd (starts_with_refl _)) as [Hgd' Hrank].
      assert (resolved_path d = resolved_path g) as Heq by (apply starts_with_antisymm; [done|by eapply resolved_normalized|done..]).
      specialize (Hrank Heq). rewrite Ha in Hrank. simpl in Hrank. destruct (resolved_access g); simpl in *; try done; lia.
    + simpl. apply negb_true_iff, not_true_iff_false. intros Heq%eqb_normalized; [|apply normalized_root|done]. congruence.
Qed.

(** Denied reads fail closed.  Building the matcher that checks reads never reaches its
    unreachable branch, and gives no matcher exactly when the policy denies nothing.  One
    malformed pattern is enough for the matcher to deny every path; the constructor for callers
    that must reject malformed patterns returns the error of the first.  A path in a place that
    an entry of the policy denies is denied, the root of the disk apart, which is not masked. *)
Theorem denied_reads_fail_closed p cwd c :
  wf_policy p -> no_links p cwd -> from_absolute_path cwd = inl c ->
  exists m, matcher_new p cwd = Ok m /\ (m = None <-> has_denied_read_restrictions p = false) /\
  (forall matcher, m = Some matcher ->
     (existsb is_invalid (get_unreadable_globs_with_cwd p cwd) = true -> forall path, is_read_denied matcher path = true) /\
     (forall d path target, d ∈ resolved_entries_with_cwd p cwd -> resolved_access d = Deny -> resolved_path d <> [SLASH] ->
        from_absolute_path path = inl target -> Path.starts_with target (resolved_path d) = true ->
        is_read_denied matcher path = true)) /\
  (has_denied_read_restrictions p = true ->
   forall pattern, List.find is_invalid (get_unreadable_globs_with_cwd p cwd) = Some pattern ->
   exists err, build_glob_matcher pattern = inr err /\ matcher_try_new p cwd = inr (invalid_glob_error pattern err)).
Proof.
  intros Hp Hpl Hc. unfold matcher_new, matcher_try_new, matcher_build.
  destruct (has_denied_read_restrictions p) eqn:Ed; [|by exists None].
  destruct (build_fail_closed (get_unreadable_globs_with_cwd p cwd) [] false) as [ms ->]. eexists. split_and!; [done|done| |].
  - intros matcher [= <-]. split; [intros Hi path; unfold is_read_denied; simpl; by rewrite Hi|].
    intros d path target Hd Ha Hne Hf Hst. unfold is_read_denied. cbn [invalid_pattern denied_candidates deny_read_matchers].
    destruct (existsb is_invalid _); [done|]. cbv zeta. cbn [orb].
    replace (existsb _ (normalized_and_canonical_candidates <$> _)) with true; [done|]. symmetry. apply existsb_elem.
    assert (Hk : kind p = Restricted) by (by apply andb_true_iff in Ed as [?%bool_decide_eq_true _]).
    exists (normalized_and_canonical_candidates (resolved_path d)). split.
    { apply list_elem_of_fmap. exists (resolved_path d). split; [done|]. by eapply elem_of_unreadable_roots. }
    apply existsb_elem. exists target. split; [by apply candidates_contain|]. apply existsb_elem. exists (resolved_path d). split.
    { apply candidates_contain, from_normalized. by eapply resolved_normalized. }
    by rewrite Hst, orb_true_r.
  - intros _ pattern Hfind. pose proof (build_return_error (get_unreadable_globs_with_cwd p cwd) []) as Hr. rewrite Hfind in Hr.
    destruct Hr as (err & He & ->). by exists err.
Qed.

End denied.

(** ** Examples *)

Definition links_do_not_matter `{PathEnv} (p : FileSystemSandboxPolicy) (cwd : str) : bool :=
  forallb (fun e => str_eqb (normalize_effective_absolute_path (resolved_path e)) (resolved_path e)) (resolved_entries_with_cwd p cwd).

Lemma links_do_not_matter_sound `{PathEnv} p cwd : links_do_not_matter p cwd = true -> no_links p cwd.
Proof.
  unfold links_do_not_matter, no_links. rewrite forallb_forall. intros Hall e He%list_elem_of_In%Hall. by apply bool_decide_eq_true in He.
Qed.

Lemma writable_roots_match_policy_witness :
  let env := example_env in
  (exists W, W ∈ get_writable_roots_with_cwd example_policy (lit "/ws") /\ Path.starts_with (lit "/ws/src/x") (root W) = true /\
    (is_path_writable W (lit "/ws/src/x") = true \/
     exists q flag, q ∈ default_read_only_subpaths_for_writable_root (root W) flag /\ Path.starts_with (lit "/ws/src/x") q = true)) /\
  forall W, W ∈ get_writable_roots_with_cwd example_policy (lit "/ws") -> is_path_writable W (lit "/ws/src/x") = true ->
    resolve_access_with_cwd example_policy (lit "/ws/src/x") (lit "/ws") = Write.
Proof.
  intros env. destruct (writable_roots_match_policy example_policy (lit "/ws") (lit "/ws/src/x")) as [_ Hroots].
  - apply is_wf_sound. by vm_compute.
  - apply links_do_not_matter_sound. by vm_compute.
  - apply is_normalized_sound. by vm_compute.
  - destruct Hroots as [Hsound Hcomplete]; [by vm_compute|]. split; [apply Hcomplete; by vm_compute|]. intros W HW Hw. by apply (Hsound W HW Hw).
Defined.

Definition example_legacy_policy : SandboxPolicy := WorkspaceWrite [lit "/data"] true false true.

Lemma legacy_policy_round_trip_witness :
  let env := example_env in
  to_legacy_sandbox_policy (from_sandbox_policy example_legacy_policy) (network_policy_from example_legacy_policy) (lit "/ws") =
  inl example_legacy_policy.
Proof.
  intros env. destruct (legacy_policy_round_trip example_legacy_policy (lit "/ws")) as [Hrt _]; [|exact Hrt]. split_and!.
  - apply Forall_singleton, is_normalized_sound. by vm_compute.
  - apply NoDup_singleton.
  - intros c Hc Hin. apply list_elem_of_singleton in Hin as ->. vm_compute in Hc. discriminate Hc.
Defined.

(** Globs without wildcards, which refuse braces. *)
Definition literal_globs : GlobMatcherOps := {|
  GlobMatcher := str;
  build_glob_matcher pattern := if contains_char 123 pattern then inr (lit "braces") else inl pattern;
  glob_is_match := str_eqb
|}.

Lemma denied_reads_fail_closed_witness :
  let env := example_env in let globs := literal_globs in
  let p := restricted [new_entry (Special Root) Read; new_entry (GlobPattern (lit "/ws/{a")) Deny] in
  exists m, matcher_new p (lit "/ws") = Ok (Some m) /\ is_read_denied m (lit "/etc/hosts") = true /\
    matcher_try_new p (lit "/ws") = inr (invalid_glob_error (lit "/ws/{a") (lit "braces")).
Proof.
  intros env globs p. destruct (denied_reads_fail_closed p (lit "/ws") (lit "/ws")) as (m & Hm & Hnone & Hsome & Hall).
  - apply is_wf_sound. by vm_compute.
  - apply links_do_not_matter_sound. by vm_compute.
  - by vm_compute.
  - destruct m as [m|]; [|by destruct Hnone as [Hn _]; specialize (Hn eq_refl)]. exists m. split_and!; [done| |].
    + apply (Hsome m eq_refl). by vm_compute.
    + destruct (Hall eq_refl (lit "/ws/{a")) as (err & He & ->); [by vm_compute|]. vm_compute in He. by injection He as <-.
Defined.
