(* ===== verification/Profiles.v ===== *)
(** * Permission profiles: [protocol/src/models.rs] and [sandboxing/src/policy_transforms.rs]

    A permission profile says how a command is confined: by a managed file-system policy and a
    network policy, not at all, or by an external sandbox.  A command may ask for additional
    permissions, which are normalised, merged, cut down to what was granted, and laid over the
    profile.  The theorems say that what a command gets in the end is within what it asked for
    and what it was granted, and that denials survive. *)

From stdpp Require Import base list strings sets.
From S2P Require Import Prelude FileSystem AbsPath FsPolicy FsUpdates FsRoots.

Import Path (SLASH, Component, RootDir, CurDir, ParentDir, Normal).

(** ** Data of [models.rs] *)

Inductive SandboxPermissions : Type := UseDefault | RequireEscalated | WithAdditionalPermissions.

Definition requires_escalated_permissions (p : SandboxPermissions) : bool :=
  match p with RequireEscalated => true | _ => false end.
Definition requests_sandbox_override (p : SandboxPermissions) : bool :=
  match p with UseDefault => false | _ => true end.
Definition uses_additional_permissions (p : SandboxPermissions) : bool :=
  match p with WithAdditionalPermissions => true | _ => false end.

(** [NonZeroUsize]: [new] and [usize::from]. *)
Definition nonzero_new (n : N) : option positive := match n with 0%N => None | Npos p => Some p end.

Record FileSystemPermissions := mkPermissions { perm_entries : list FileSystemSandboxEntry; perm_depth : option positive }.
Definition default_permissions : FileSystemPermissions := mkPermissions [] None.

Record LegacyReadWriteRoots := mkLegacyRoots { legacy_read : option (list str); legacy_write : option (list str) }.

Definition permissions_is_empty (p : FileSystemPermissions) : bool := is_empty (perm_entries p).

Definition path_entries (a : FileSystemAccessMode) (paths : option (list str)) : list FileSystemSandboxEntry :=
  match paths with Some paths => (fun path => new_entry (AtPath path) a) <$> paths | None => [] end.

Definition from_read_write_roots (read write : option (list str)) : FileSystemPermissions :=
  mkPermissions (path_entries Read read ++ path_entries Write write) None.

Fixpoint legacy_roots_loop (es : list FileSystemSandboxEntry) (read write : list str) : option (list str * list str) :=
  match es with
  | [] => Some (read, write)
  | e :: es =>
      match entry_path e with
      | AtPath path =>
          match access e with
          | Read => legacy_roots_loop es (read ++ [path]) write
          | Write => legacy_roots_loop es read (write ++ [path])
          | Deny => None
          end
      | GlobPattern _ | Special _ => None
      end
  end.

Definition some_nonempty (l : list str) : option (list str) := if is_empty l then None else Some l.

Definition as_legacy_permissions (p : FileSystemPermissions) : option LegacyReadWriteRoots :=
  match perm_depth p with
  | Some _ => None
  | None =>
      '(read, write) ← legacy_roots_loop (perm_entries p) [] [];
      Some (mkLegacyRoots (some_nonempty read) (some_nonempty write))
  end.

Record NetworkPermissions := mkNetworkPermissions { net_enabled : option bool }.
Definition network_is_empty (n : NetworkPermissions) : bool := bool_decide (net_enabled n = None).

Record AdditionalPermissionProfile := mkAdditional {
  add_network : option NetworkPermissions;
  add_file_system : option FileSystemPermissions
}.
Definition additional_is_empty (p : AdditionalPermissionProfile) : bool :=
  match add_network p, add_file_system p with None, None => true | _, _ => false end.

Inductive SandboxEnforcement : Type := EnforceManaged | EnforceDisabled | EnforceExternal.
#[export] Instance SandboxEnforcement_eq_dec : EqDecision SandboxEnforcement.
Proof. solve_decision. Defined.

Definition enforcement_from_legacy (p : SandboxPolicy) : SandboxEnforcement :=
  match p with
  | DangerFullAccess => EnforceDisabled
  | ExternalSandbox _ => EnforceExternal
  | ReadOnly _ | WorkspaceWrite _ _ _ _ => EnforceManaged
  end.

Inductive ManagedFileSystemPermissions : Type :=
| ManagedRestricted (es : list FileSystemSandboxEntry) (depth : option positive)
| ManagedUnrestricted.

(** The branch the source takes to be unreachable is [Panic]. *)
Definition managed_from_sandbox_policy (p : FileSystemSandboxPolicy) : result ManagedFileSystemPermissions Empty_set :=
  match kind p with
  | Restricted => Ok (ManagedRestricted (entries p) (glob_scan_max_depth p ≫= nonzero_new))
  | Unrestricted => Ok ManagedUnrestricted
  | ExternalSandboxKind => Panic
  end.

Definition to_sandbox_policy (m : ManagedFileSystemPermissions) : FileSystemSandboxPolicy :=
  match m with
  | ManagedRestricted es depth => mkPolicy Restricted (Npos <$> depth) es
  | ManagedUnrestricted => unrestricted
  end.

Inductive PermissionProfile : Type :=
| Managed (file_system : ManagedFileSystemPermissions) (network : NetworkSandboxPolicy)
| Disabled
| External (network : NetworkSandboxPolicy).

Definition default_profile : PermissionProfile := Managed (ManagedRestricted [] None) NetRestricted.

(** Pre-tagged shape of profiles in rollout files. *)
Definition profile_from_legacy (network : option NetworkPermissions) (file_system : option FileSystemPermissions) : PermissionProfile :=
  let managed := match file_system with
                 | None => ManagedRestricted [] None
                 | Some permissions => ManagedRestricted (perm_entries permissions) (perm_depth permissions)
                 end in
  let enabled := default false (network ≫= net_enabled) in
  Managed managed (if enabled then NetEnabled else NetRestricted).

Definition enforcement (p : PermissionProfile) : SandboxEnforcement :=
  match p with Managed _ _ => EnforceManaged | Disabled => EnforceDisabled | External _ => EnforceExternal end.

Definition file_system_sandbox_policy (p : PermissionProfile) : FileSystemSandboxPolicy :=
  match p with
  | Managed file_system _ => to_sandbox_policy file_system
  | Disabled => unrestricted
  | External _ => external_sandbox
  end.

Definition network_sandbox_policy (p : PermissionProfile) : NetworkSandboxPolicy :=
  match p with Managed _ network | External network => network | Disabled => NetEnabled end.

Definition to_runtime_permissions (p : PermissionProfile) : FileSystemSandboxPolicy * NetworkSandboxPolicy :=
  (file_system_sandbox_policy p, network_sandbox_policy p).

Definition managed_profile (p : FileSystemSandboxPolicy) (network : NetworkSandboxPolicy) : result PermissionProfile Empty_set :=
  let? file_system := managed_from_sandbox_policy p in Ok (Managed file_system network).

Definition from_runtime_permissions_with_enforcement
    (e : SandboxEnforcement) (p : FileSystemSandboxPolicy) (network : NetworkSandboxPolicy) : result PermissionProfile Empty_set :=
  match kind p with
  | ExternalSandboxKind => Ok (External network)
  | Unrestricted => if bool_decide (e = EnforceDisabled) then Ok Disabled else managed_profile p network
  | Restricted => managed_profile p network
  end.

Definition from_runtime_permissions (p : FileSystemSandboxPolicy) (network : NetworkSandboxPolicy) : result PermissionProfile Empty_set :=
  let e := match kind p with
           | Restricted | Unrestricted => EnforceManaged
           | ExternalSandboxKind => EnforceExternal
           end in
  from_runtime_permissions_with_enforcement e p network.

Section profiles.
Context `{PathEnv}.

Definition profile_read_only : result PermissionProfile Empty_set := managed_profile read_only NetRestricted.

Definition workspace_write_with (writable_roots : list str) (network : NetworkSandboxPolicy) (exclude_tmpdir_env_var exclude_slash_tmp : bool) :
    result PermissionProfile Empty_set :=
  managed_profile (workspace_write writable_roots exclude_tmpdir_env_var exclude_slash_tmp) network.

Definition profile_workspace_write : result PermissionProfile Empty_set := workspace_write_with [] NetRestricted false false.

Definition profile_materialize (p : PermissionProfile) (workspace_roots : list str) : result PermissionProfile Empty_set :=
  match p with
  | Managed file_system network =>
      managed_profile (materialize_project_roots_with_workspace_roots (to_sandbox_policy file_system) workspace_roots) network
  | Disabled => Ok Disabled
  | External network => Ok (External network)
  end.

Definition profile_from_legacy_sandbox_policy (p : SandboxPolicy) : result PermissionProfile Empty_set :=
  from_runtime_permissions_with_enforcement (enforcement_from_legacy p) (from_sandbox_policy p) (network_policy_from p).

Definition profile_from_legacy_sandbox_policy_for_cwd (p : SandboxPolicy) (cwd : str) : result PermissionProfile Empty_set :=
  from_runtime_permissions_with_enforcement (enforcement_from_legacy p) (from_legacy_sandbox_policy_for_cwd p cwd)
    (network_policy_from p).

Definition profile_to_legacy_sandbox_policy (p : PermissionProfile) (cwd : str) : io_result SandboxPolicy :=
  match p with
  | Managed file_system network => to_legacy_sandbox_policy (to_sandbox_policy file_system) network cwd
  | Disabled => inl DangerFullAccess
  | External network => inl (ExternalSandbox (if is_enabled network then AccessEnabled else AccessRestricted))
  end.

End profiles.

(** ** [policy_transforms.rs] *)

Definition contains_entry (es : list FileSystemSandboxEntry) (e : FileSystemSandboxEntry) : bool :=
  existsb (fun existing => entry_eqb existing e) es.
Definition push_entry_once (es : list FileSystemSandboxEntry) (e : FileSystemSandboxEntry) : list FileSystemSandboxEntry :=
  if contains_entry es e then es else es ++ [e].

Definition merge_permission_entries (base permissions : list FileSystemSandboxEntry) : list FileSystemSandboxEntry :=
  foldl push_entry_once [] (base ++ permissions).

Inductive GlobScanDepth : Type := Bounded (depth : N) | Unbounded.

Definition is_deny_glob (e : FileSystemSandboxEntry) : bool :=
  is_deny e && match entry_path e with GlobPattern _ => true | _ => false end.

Definition effective_glob_scan_depth (es : list FileSystemSandboxEntry) (depth : option N) : option GlobScanDepth :=
  if existsb is_deny_glob es then Some (match depth with Some depth => Bounded depth | None => Unbounded end) else None.

Definition merge_glob_scan_max_depth
    (left_entries : list FileSystemSandboxEntry) (left_depth : option N)
    (right_entries : list FileSystemSandboxEntry) (right_depth : option N) : option N :=
  match effective_glob_scan_depth left_entries left_depth, effective_glob_scan_depth right_entries right_depth with
  | Some Unbounded, _ | _, Some Unbounded => None
  | Some (Bounded l), Some (Bounded r) => Some (N.max l r)
  | Some (Bounded depth), None | None, Some (Bounded depth) => Some depth
  | None, None => None
  end.

Definition option_filter {A} (f : A -> bool) (o : option A) : option A :=
  match o with Some a => if f a then Some a else None | None => None end.

Definition network_allowed (n : option NetworkPermissions) : bool :=
  match n with Some (mkNetworkPermissions (Some true)) => true | _ => false end.
Definition allowed_network : NetworkPermissions := mkNetworkPermissions (Some true).

Definition merge_permissions (base permissions : FileSystemPermissions) : FileSystemPermissions :=
  mkPermissions (merge_permission_entries (perm_entries base) (perm_entries permissions))
    (merge_glob_scan_max_depth (perm_entries base) (Npos <$> perm_depth base)
       (perm_entries permissions) (Npos <$> perm_depth permissions) ≫= nonzero_new).

Definition merge_permission_profiles (base permissions : option AdditionalPermissionProfile) : option AdditionalPermissionProfile :=
  match permissions with
  | None => base
  | Some permissions =>
      match base with
      | Some base =>
          let network :=
            if network_allowed (add_network base) || network_allowed (add_network permissions) then Some allowed_network else None in
          let file_system :=
            match add_file_system base, add_file_system permissions with
            | Some base, Some permissions => option_filter (fun f => negb (permissions_is_empty f)) (Some (merge_permissions base permissions))
            | Some base, None => Some base
            | None, Some permissions => Some permissions
            | None, None => None
            end in
          option_filter (fun p => negb (additional_is_empty p)) (Some (mkAdditional network file_system))
      | None => option_filter (fun p => negb (additional_is_empty p)) (Some permissions)
      end
  end.

Definition glob_error : str := lit "glob file system permissions only support deny-read entries".

Definition access_covers (requested granted : FileSystemAccessMode) : bool :=
  match granted with Read => can_read requested | Write => can_write requested | Deny => false end.

Definition paths_overlap (left right : str) : bool := Path.starts_with left right || Path.starts_with right left.

(** [str::find] with a set of characters, as the text before the first of them. *)
Fixpoint before_any (chars : list N) (s : str) : option str :=
  match s with
  | [] => None
  | c :: s' => if bool_decide (c ∈ chars) then Some [] else (fun r => c :: r) <$> before_any chars s'
  end.
Definition glob_chars : list N := [42; 63; 91; 93]%N.

Definition merge_network_access (base_network_access : bool) (p : AdditionalPermissionProfile) : bool :=
  base_network_access || default false (add_network p ≫= net_enabled).

Definition effective_network_sandbox_policy (network : NetworkSandboxPolicy) (additional : option AdditionalPermissionProfile) :
    NetworkSandboxPolicy :=
  match additional with
  | Some p => if merge_network_access (is_enabled network) p then NetEnabled else NetRestricted
  | None => network
  end.

Definition merge_file_system_policy_with_additional_permissions (p : FileSystemSandboxPolicy) (additional : FileSystemPermissions) :
    FileSystemSandboxPolicy :=
  match kind p with
  | Restricted =>
      let merged := foldl push_missing_entry p (perm_entries additional) in
      mkPolicy (kind merged)
        (merge_glob_scan_max_depth (entries p) (glob_scan_max_depth p) (perm_entries additional) (Npos <$> perm_depth additional))
        (entries merged)
  | Unrestricted | ExternalSandboxKind => p
  end.

Definition effective_file_system_sandbox_policy (p : FileSystemSandboxPolicy) (additional : option AdditionalPermissionProfile) :
    FileSystemSandboxPolicy :=
  match additional ≫= add_file_system with
  | None => p
  | Some permissions =>
      if permissions_is_empty permissions then p else merge_file_system_policy_with_additional_permissions p permissions
  end.

Definition effective_permission_profile (p : PermissionProfile) (additional : option AdditionalPermissionProfile) :
    result PermissionProfile Empty_set :=
  let '(file_system_policy, network_policy) := to_runtime_permissions p in
  from_runtime_permissions_with_enforcement (enforcement p)
    (effective_file_system_sandbox_policy file_system_policy additional)
    (effective_network_sandbox_policy network_policy additional).

Definition should_require_platform_sandbox (p : FileSystemSandboxPolicy) (network : NetworkSandboxPolicy) (has_managed_network_requirements : bool) : bool :=
  if has_managed_network_requirements then true
  else if negb (is_enabled network) then negb (bool_decide (kind p = ExternalSandboxKind))
  else match kind p with
       | Restricted => negb (has_full_disk_write_access p)
       | Unrestricted | ExternalSandboxKind => false
       end.

Section transforms.
Context `{PathEnv} `{GlobMatcherOps}.

Definition normalize_permission_path (path : FileSystemPath) : FileSystemPath :=
  match path with
  | AtPath path =>
      AtPath (default path (canonical ← ok (canonicalize_preserving_symlinks path); ok (from_absolute_path canonical)))
  | GlobPattern pattern => GlobPattern pattern
  | Special value => Special value
  end.

Fixpoint normalize_entries (es acc : list FileSystemSandboxEntry) : list FileSystemSandboxEntry + str :=
  match es with
  | [] => inl acc
  | e :: es =>
      if match entry_path e with GlobPattern _ => true | _ => false end && negb (is_deny e) then inr glob_error
      else normalize_entries es (push_entry_once acc (mkEntry (normalize_permission_path (entry_path e)) (access e) (missing_path_behavior e)))
  end.

Definition normalize_additional_permissions (p : AdditionalPermissionProfile) : AdditionalPermissionProfile + str :=
  let network := option_filter (fun n => negb (network_is_empty n)) (add_network p) in
  match add_file_system p with
  | Some file_system =>
      match normalize_entries (perm_entries file_system) [] with
      | inl es =>
          inl (mkAdditional network
                 (option_filter (fun f => negb (permissions_is_empty f)) (Some (mkPermissions es (perm_depth file_system)))))
      | inr err => inr err
      end
  | None => inl (mkAdditional network None)
  end.

Definition resolve_permission_path (path : FileSystemPath) (cwd : str) : option str :=
  match path with
  | AtPath path => Some path
  | GlobPattern _ => None
  | Special Root => root ← last (Path.ancestors cwd); ok (from_absolute_path root)
  | Special (ProjectRoots subpath) =>
      cwd ← ok (from_absolute_path cwd);
      Some (match subpath with Some subpath => resolve_path_against_base subpath cwd | None => cwd end)
  | Special Tmpdir => tmp ← tmpdir; if is_empty tmp then None else ok (from_absolute_path tmp)
  | Special SlashTmp => slash_tmp ← ok (from_absolute_path (lit "/tmp")); if path_is_dir slash_tmp then Some slash_tmp else None
  | Special Minimal | Special (Unknown _ _) => None
  end.

Definition materialize_cwd_dependent_entry (cwd : str) (e : FileSystemSandboxEntry) : FileSystemSandboxEntry :=
  match entry_path e with
  | Special (ProjectRoots _) =>
      match resolve_permission_path (entry_path e) cwd with Some path => set_path e (AtPath path) | None => e end
  | GlobPattern pattern => set_path e (GlobPattern (resolve_path_against_base pattern cwd))
  | AtPath _ | Special _ => e
  end.

Definition glob_static_prefix_path (pattern cwd : str) : option str :=
  let resolved_pattern := resolve_path_against_base pattern cwd in
  prefix ← match before_any glob_chars resolved_pattern with
           | Some [] => None
           | Some prefix =>
               if ends_with [SLASH] prefix || ends_with [92%N] prefix then Some prefix else Path.parent prefix
           | None => Some resolved_pattern
           end;
  ok (from_absolute_path prefix).

Definition deny_entry_constrains_accepted_grant (deny_entry : FileSystemSandboxEntry) (accepted : list FileSystemSandboxEntry) (cwd : str) : bool :=
  existsb (fun e =>
      match resolve_permission_path (entry_path e) cwd with
      | None => false
      | Some grant_path =>
          match entry_path deny_entry with
          | GlobPattern pattern => is_some_and (glob_static_prefix_path pattern cwd) (fun prefix => paths_overlap prefix grant_path)
          | AtPath _ | Special _ =>
              is_some_and (resolve_permission_path (entry_path deny_entry) cwd) (fun deny_path => paths_overlap deny_path grant_path)
          end
      end)
    (List.filter (fun e => can_read (access e)) accepted).

(** The denials that are kept, and the entries with those among them that are new. *)
Definition constraining_denials (source accepted : list FileSystemSandboxEntry) (cwd : str) : list FileSystemSandboxEntry :=
  materialize_cwd_dependent_entry cwd <$>
  List.filter (fun e => deny_entry_constrains_accepted_grant e accepted cwd) (List.filter is_deny source).

Definition retain_constraining_deny_entries (source accepted : list FileSystemSandboxEntry) (cwd : str) (output : list FileSystemSandboxEntry) :
    list FileSystemSandboxEntry * list FileSystemSandboxEntry :=
  let retained := constraining_denials source accepted cwd in
  (foldl push_entry_once output retained, retained).

Definition granted_file_system_entry_within_request
    (requested : FileSystemPermissions) (requested_policy : FileSystemSandboxPolicy)
    (requested_read_deny_matcher : option ReadDenyMatcher) (cwd : str) (granted_entry : FileSystemSandboxEntry) : bool :=
  if negb (can_read (access granted_entry)) then false
  else match resolve_permission_path (entry_path granted_entry) cwd with
       | Some path =>
           if is_some_and requested_read_deny_matcher (fun matcher => is_read_denied matcher path) then false
           else access_covers (resolve_access_with_cwd requested_policy path cwd) (access granted_entry)
       | None =>
           existsb (fun requested_entry =>
               access_covers (access requested_entry) (access granted_entry)
               && file_system_path_eqb (entry_path requested_entry) (entry_path granted_entry))
             (perm_entries requested)
       end.

Definition intersect_file_system (requested granted : FileSystemPermissions) (cwd : str) : result FileSystemPermissions str :=
  let requested_policy := restricted (perm_entries requested) in
  let? matcher := matcher_new requested_policy cwd in
  let accepted :=
    foldl push_entry_once []
      (materialize_cwd_dependent_entry cwd <$>
       List.filter (granted_file_system_entry_within_request requested requested_policy matcher cwd) (perm_entries granted)) in
  let '(es, requested_retained) := retain_constraining_deny_entries (perm_entries requested) accepted cwd accepted in
  let '(es, granted_retained) := retain_constraining_deny_entries (perm_entries granted) accepted cwd es in
  Ok (mkPermissions es
        (merge_glob_scan_max_depth requested_retained (Npos <$> perm_depth requested)
           granted_retained (Npos <$> perm_depth granted) ≫= nonzero_new)).

Definition intersect_permission_profiles (requested granted : AdditionalPermissionProfile) (cwd : str) : result AdditionalPermissionProfile str :=
  let network :=
    if network_allowed (add_network requested) && network_allowed (add_network granted) then Some allowed_network else None in
  match add_file_system requested with
  | None => Ok (mkAdditional network None)
  | Some requested_file_system =>
      let? file_system := intersect_file_system requested_file_system (default default_permissions (add_file_system granted)) cwd in
      Ok (mkAdditional network (option_filter (fun f => negb (permissions_is_empty f)) (Some file_system)))
  end.

End transforms.


(** ** Entries pushed once, and entries bound to the working directory *)

Lemma push_all_once acc l :
  Forall wf_entry acc -> Forall wf_entry l ->
  Forall wf_entry (foldl push_entry_once acc l) /\ forall e, e ∈ foldl push_entry_once acc l <-> e ∈ acc \/ e ∈ l.
Proof.
  intros Ha Hl. destruct (push_missing_all (restricted acc) l Ha Hl) as (_ & _ & Hw & He).
  assert (Hsame : forall p, entries (foldl push_missing_entry p l) = foldl push_entry_once (entries p) l).
  { clear. induction l as [|x l IH]; intros p; [done|]. simpl. rewrite IH. f_equal.
    unfold push_missing_entry, push_entry_once, contains_entry. by destruct (existsb _ (entries p)). }
  unfold wf_policy in Hw. rewrite Hsame in Hw, He. done.
Qed.

Section binding.
Context `{PathEnvLaws}.
Variable cwd : str.
Hypothesis Hcwd : normalized cwd.

Lemma resolve_cwd : ok (from_absolute_path cwd) = Some cwd.
Proof. by rewrite from_normalized. Qed.

(** The resolution of permissions is that of policies. *)
Lemma resolve_permission_path_eq path : resolve_permission_path path cwd = resolve_entry_path path (Some cwd).
Proof.
  destruct path as [| |[]]; simpl; try done.
  - pose proof (absolute_root cwd Hcwd) as Hr. unfold absolute_root_path_for_cwd in *.
    destruct (last (Path.ancestors cwd)) as [root|] eqn:El.
    + simpl in *. assert (Hn : normalized root).
      { eapply ancestor_normalized; [exact Hcwd|]. apply last_Some_elem_of. exact El. }
      by rewrite (from_normalized root Hn) in *.
    + by apply last_None in El.
  - rewrite resolve_cwd. simpl. by destruct subpath.
Qed.

Lemma materialize_keeps e :
  wf_entry e ->
  wf_entry (materialize_cwd_dependent_entry cwd e) /\ access (materialize_cwd_dependent_entry cwd e) = access e /\
  resolve_entry_path (entry_path (materialize_cwd_dependent_entry cwd e)) (Some cwd) = resolve_entry_path (entry_path e) (Some cwd).
Proof.
  intros Hw. unfold materialize_cwd_dependent_entry. destruct (entry_path e) as [path|pattern|value] eqn:Ep; [by rewrite Ep|done|].
  destruct value as [| |subpath| | |]; try (by rewrite Ep). rewrite resolve_permission_path_eq.
  destruct (resolve_entry_path (Special (ProjectRoots subpath)) (Some cwd)) as [q|] eqn:Eq; [|by rewrite Ep].
  split_and!; [|done|done]. unfold wf_entry. simpl. eapply (resolve_special_normalized (ProjectRoots subpath) (Some cwd)); [|exact Eq].
  by intros c [= <-].
Qed.

Lemma elem_of_resolved_at es x :
  x ∈ resolved_entries_with_cwd (restricted es) cwd <->
  exists e, e ∈ es /\ resolve_permission_path (entry_path e) cwd = Some (resolved_path x) /\ access e = resolved_access x.
Proof.
  rewrite elem_of_resolved. rewrite resolve_cwd. simpl. by setoid_rewrite resolve_permission_path_eq.
Qed.

Lemma resolve_materialized e :
  wf_entry e -> resolve_permission_path (entry_path (materialize_cwd_dependent_entry cwd e)) cwd = resolve_permission_path (entry_path e) cwd.
Proof. intros He. rewrite !resolve_permission_path_eq. by apply materialize_keeps. Qed.

Lemma materialized_wf l : Forall wf_entry l -> Forall wf_entry (materialize_cwd_dependent_entry cwd <$> l).
Proof. intros Hl. apply Forall_fmap. eapply Forall_impl; [exact Hl|]. intros e He. by apply materialize_keeps. Qed.

(** A denial that overlaps an accepted grant is kept. *)
Lemma elem_of_constraining source accepted d a dp ap :
  Forall wf_entry source -> d ∈ source -> access d = Deny -> resolve_permission_path (entry_path d) cwd = Some dp ->
  a ∈ accepted -> can_read (access a) = true -> resolve_permission_path (entry_path a) cwd = Some ap ->
  paths_overlap dp ap = true ->
  materialize_cwd_dependent_entry cwd d ∈ constraining_denials source accepted cwd.
Proof.
  intros Hs Hd Hda Hdp Ha Hr Hap Ho. unfold constraining_denials. apply list_elem_of_fmap. exists d. split; [done|].
  apply elem_of_lfilter. split; [by apply elem_of_denies|]. unfold deny_entry_constrains_accepted_grant.
  apply existsb_elem. exists a. split; [by apply elem_of_lfilter|]. rewrite Hap. rewrite Hdp.
  by destruct (entry_path d); simpl in *.
Qed.

Lemma constraining_wf source accepted : Forall wf_entry source -> Forall wf_entry (constraining_denials source accepted cwd).
Proof. intros Hs. apply materialized_wf. by do 2 apply wf_filter. Qed.

Lemma constraining_elem source accepted e :
  Forall wf_entry source -> e ∈ constraining_denials source accepted cwd -> access e = Deny.
Proof.
  intros Hs (d & -> & [[Hd Ha]%elem_of_denies _]%elem_of_lfilter)%list_elem_of_fmap. rewrite Forall_forall in Hs.
  destruct (materialize_keeps d (Hs _ Hd)) as (_ & -> & _). done.
Qed.

(** Of two paths at or above a third, one is at or above the other. *)
Lemma above_overlap target p q : Path.starts_with target p = true -> Path.starts_with target q = true -> paths_overlap p q = true.
Proof.
  intros Hp Hq. unfold paths_overlap. apply orb_true_iff.
  destruct (le_ge_dec (length (Path.components q)) (length (Path.components p)));
    [left|right]; eapply starts_with_linear; (exact Hp || exact Hq || lia).
Qed.

(** A denial of [source] at or below a grant that governs in the result cannot apply. *)
Lemma kept_denial_wins source accepted es target a x y :
  Forall wf_entry source -> Forall wf_entry es -> (forall e, e ∈ constraining_denials source accepted cwd -> e ∈ es) ->
  a ∈ accepted -> resolve_permission_path (entry_path a) cwd = Some (resolved_path x) -> access a = resolved_access x ->
  can_read (resolved_access x) = true -> Governs target (resolved_entries_with_cwd (restricted es) cwd) x ->
  y ∈ resolved_entries_with_cwd (restricted source) cwd -> Path.starts_with target (resolved_path y) = true ->
  Path.starts_with (resolved_path y) (resolved_path x) = true -> resolved_access y = Deny -> False.
Proof.
  intros Hs He Hkeep Ha Hap Haa Hr (Hin & Hst & Hmax) Hy Hty Hyx Hyd.
  pose proof Hy as (d & Hd & Hdp & Hda)%elem_of_resolved_at.
  assert (Hyin : y ∈ resolved_entries_with_cwd (restricted es) cwd).
  { apply elem_of_resolved_at. exists (materialize_cwd_dependent_entry cwd d).
    assert (Hwd : wf_entry d) by (rewrite Forall_forall in Hs; by apply Hs).
    destruct (materialize_keeps d Hwd) as (_ & Hacc & _).
    split_and!; [|by rewrite resolve_materialized|congruence]. apply Hkeep. eapply elem_of_constraining; [done..|congruence|done|done|congruence|done|].
    by apply (above_overlap target). }
  destruct (Hmax _ Hyin Hty) as [Hxy Hrank].
  assert (Heq : resolved_path y = resolved_path x).
  { apply starts_with_antisymm; [eapply (resolved_normalized (restricted source))|eapply (resolved_normalized (restricted es))|..]; done. }
  specialize (Hrank Heq). rewrite Hyd in Hrank. destruct (resolved_access x); simpl in *; try done; lia.
Qed.

End binding.

(** ** Requests, grants and their intersection *)

Section intersection.
Context `{PathEnvLaws} `{GlobMatcherOps}.

Lemma matcher_new_total p cwd : exists m, matcher_new p cwd = Ok m.
Proof.
  unfold matcher_new, matcher_build. destruct (has_denied_read_restrictions p); [|by eexists].
  destruct (build_fail_closed (get_unreadable_globs_with_cwd p cwd) [] false) as [ms ->]. by eexists.
Qed.

(** What the entries of the intersection are. *)
Lemma intersect_spec requested granted cwd :
  normalized cwd -> Forall wf_entry (perm_entries requested) -> Forall wf_entry (perm_entries granted) ->
  exists r accepted, intersect_file_system requested granted cwd = Ok r /\ Forall wf_entry (perm_entries r) /\
  (forall e, e ∈ perm_entries r <->
     e ∈ accepted \/ e ∈ constraining_denials (perm_entries requested) accepted cwd \/
     e ∈ constraining_denials (perm_entries granted) accepted cwd) /\
  (forall a, a ∈ accepted -> exists g m, g ∈ perm_entries granted /\ a = materialize_cwd_dependent_entry cwd g /\
     granted_file_system_entry_within_request requested (restricted (perm_entries requested)) m cwd g = true).
Proof.
  intros Hcwd Hr Hg. unfold intersect_file_system. destruct (matcher_new_total (restricted (perm_entries requested)) cwd) as [m ->].
  set (within := granted_file_system_entry_within_request _ _ m cwd).
  set (acc := foldl push_entry_once [] _).
  destruct (push_all_once [] (materialize_cwd_dependent_entry cwd <$> List.filter within (perm_entries granted))) as [Hwa Hea];
    [done|by apply materialized_wf, wf_filter|]. fold acc in Hwa, Hea.
  unfold retain_constraining_deny_entries.
  pose proof (constraining_wf cwd Hcwd (perm_entries requested) acc Hr) as Hw1.
  pose proof (constraining_wf cwd Hcwd (perm_entries granted) acc Hg) as Hw2.
  destruct (push_all_once acc _ Hwa Hw1) as [Hwb Heb]. destruct (push_all_once _ _ Hwb Hw2) as [Hwc Hec].
  eexists _, acc. split; [reflexivity|]. split; [done|]. split.
  - intros e. cbn [perm_entries]. rewrite Hec, Heb. tauto.
  - intros a [?%elem_of_nil|(g & -> & [Hgg Hwi]%elem_of_lfilter)%list_elem_of_fmap]%Hea; [done|]. by exists g, m.
Qed.

(** A grant that was accepted at a path asks for no more than the request has there. *)
Lemma within_request requested p m cwd g q :
  granted_file_system_entry_within_request requested p m cwd g = true ->
  resolve_permission_path (entry_path g) cwd = Some q ->
  can_read (access g) = true /\ access_covers (resolve_access_with_cwd p q cwd) (access g) = true.
Proof.
  unfold granted_file_system_entry_within_request. intros Hw Hq. rewrite Hq in Hw.
  destruct (can_read (access g)); [|done]. simpl in Hw. destruct (is_some_and m _); [done|]. by split.
Qed.

Lemma access_covers_read a b : access_covers a b = true -> can_read b = true -> can_read a = true.
Proof. by destruct a, b. Qed.

(** The entries of the intersection that give access. *)
Lemma intersect_entry requested granted cwd r x :
  normalized cwd -> Forall wf_entry (perm_entries requested) -> Forall wf_entry (perm_entries granted) ->
  intersect_file_system requested granted cwd = Ok r ->
  x ∈ resolved_entries_with_cwd (restricted (perm_entries r)) cwd -> resolved_access x <> Deny ->
  x ∈ resolved_entries_with_cwd (restricted (perm_entries granted)) cwd /\
  access_covers (resolve_access_with_cwd (restricted (perm_entries requested)) (resolved_path x) cwd) (resolved_access x) = true.
Proof.
  intros Hcwd Hr Hg Hi Hx Hne. destruct (intersect_spec requested granted cwd Hcwd Hr Hg) as (r' & acc & Hi' & _ & He & Hacc).
  rewrite Hi in Hi'. injection Hi' as <-. apply elem_of_resolved_at in Hx as (a & Ha & Hap & Haa); [|done].
  apply He in Ha as [Ha|[Ha|Ha]]; [|by apply constraining_elem in Ha; [congruence|..]..].
  destruct (Hacc _ Ha) as (g & m & Hgin & -> & Hwi). assert (Hwg : wf_entry g) by (rewrite Forall_forall in Hg; by apply Hg).
  rewrite resolve_materialized in Hap by done. destruct (materialize_keeps cwd Hcwd g Hwg) as (_ & Hacc' & _). rewrite Hacc' in Haa.
  split; [apply elem_of_resolved_at; [done|]; by exists g|]. rewrite <- Haa. by eapply within_request.
Qed.

Lemma intersect_readable requested granted cwd r target :
  normalized cwd -> Forall wf_entry (perm_entries requested) -> Forall wf_entry (perm_entries granted) -> normalized target ->
  intersect_file_system requested granted cwd = Ok r ->
  can_read_path_with_cwd (restricted (perm_entries r)) target cwd = true ->
  can_read_path_with_cwd (restricted (perm_entries requested)) target cwd = true /\
  can_read_path_with_cwd (restricted (perm_entries granted)) target cwd = true.
Proof.
  intros Hcwd Hr Hg Ht Hi Hread. destruct (intersect_spec requested granted cwd Hcwd Hr Hg) as (r' & acc & Hi' & Hw & He & Hacc).
  rewrite Hi in Hi'. injection Hi' as <-. pose proof (resolve_candidate_id target cwd Ht) as Hcand. unfold can_read_path_with_cwd in *.
  destruct (resolve_access_cases (restricted (perm_entries r)) target cwd target Hw eq_refl Hcand) as [(x & Hgov & Ha)|[_ Ha]];
    rewrite Ha in Hread; [|done].
  pose proof Hgov as (Hin & Hst & _). assert (Hxd : resolved_access x <> Deny) by by destruct (resolved_access x).
  destruct (intersect_entry _ _ _ _ x Hcwd Hr Hg Hi Hin Hxd) as [Hxg Hcov].
  assert (exists a, a ∈ acc /\ resolve_permission_path (entry_path a) cwd = Some (resolved_path x) /\ access a = resolved_access x)
    as (a & Hain & Hap & Haa).
  { apply elem_of_resolved_at in Hin as (a & Hain & Hap & Haa); [|done]. exists a. split_and!; [|done..].
    apply He in Hain as [?|[Hain|Hain]]; [done|by apply constraining_elem in Hain; [congruence|..]..]. }
  assert (Hwins : forall source y, Forall wf_entry source -> (forall e, e ∈ constraining_denials source acc cwd -> e ∈ perm_entries r) ->
    y ∈ resolved_entries_with_cwd (restricted source) cwd -> Path.starts_with target (resolved_path y) = true ->
    Path.starts_with (resolved_path y) (resolved_path x) = true -> can_read (resolved_access y) = true).
  { intros source y Hs Hk Hy Hty Hyx. destruct (resolved_access y) eqn:Ey; [done..|]. exfalso.
    by eapply (kept_denial_wins cwd Hcwd source acc (perm_entries r) target a x y). }
  split.
  - apply (access_covers_read _ _ ) in Hcov; [|done].
    assert (Hxn : normalized (resolved_path x)) by by eapply (resolved_normalized (restricted (perm_entries r))).
    destruct (resolve_access_cases (restricted (perm_entries requested)) (resolved_path x) cwd (resolved_path x) Hr eq_refl
      (resolve_candidate_id _ cwd Hxn)) as [(z & Hz & Haz)|[_ Haz]]; rewrite Haz in Hcov; [|done].
    destruct (resolve_access_cases (restricted (perm_entries requested)) target cwd target Hr eq_refl Hcand) as [(y & Hy & ->)|[Hnone _]].
    2: { destruct Hz as (Hz & Hxz & _). apply Hnone in Hz. by rewrite (starts_with_trans _ _ _ Hst Hxz) in Hz. }
    destruct (Path.starts_with (resolved_path y) (resolved_path x)) eqn:Eyx.
    { destruct Hy as (Hy & Hty & _). eapply (Hwins (perm_entries requested)); [done| |done..]. intros e Hee. apply He. auto. }
    assert (Hxy : Path.starts_with (resolved_path x) (resolved_path y) = true).
    { destruct Hy as (_ & Hty & _). pose proof (above_overlap target _ _ Hst Hty) as Ho. unfold paths_overlap in Ho.
      by rewrite Eyx, orb_false_r in Ho. }
    destruct (governs_unique (resolved_path x) _ y z (resolved_all_normalized (restricted (perm_entries requested)) cwd Hr)) as [_ ->]; [|done..].
    by apply (governs_between target).
  - destruct (resolve_access_cases (restricted (perm_entries granted)) target cwd target Hg eq_refl Hcand) as [(y & Hy & ->)|[Hnone _]].
    2: { apply Hnone in Hxg. congruence. }
    destruct Hy as (Hy & Hty & Hmax). eapply (Hwins (perm_entries granted)); [done| |done..|by apply Hmax].
    intros e Hee. apply He. auto.
Qed.


End intersection.

(** The intersection does not keep a narrower mode of the request: a directory that the request
    has read-only below a writable one can be written under the result, when the grant covers the
    writable one. *)
Lemma intersection_drops_read_only_carveouts :
  let env := example_env in
  let globs := literal_globs in
  let requested := mkPermissions [new_entry (AtPath (lit "/ws")) Write; new_entry (AtPath (lit "/ws/docs")) Read] None in
  let granted := mkPermissions [new_entry (AtPath (lit "/ws")) Write] None in
  intersect_file_system requested granted (lit "/ws") = Ok granted /\
  can_write_path_with_cwd (restricted (perm_entries requested)) (lit "/ws/docs/x") (lit "/ws") = false /\
  can_write_path_with_cwd (restricted (perm_entries granted)) (lit "/ws/docs/x") (lit "/ws") = true.
Proof. split_and!; by vm_compute. Qed.

(** ** Additional permissions laid over a profile *)

(** What additional permissions say, if there are any. *)
Definition extra_entries (additional : option AdditionalPermissionProfile) : list FileSystemSandboxEntry :=
  match additional with Some p => from_option perm_entries [] (add_file_system p) | None => [] end.
Definition extra_network (additional : option AdditionalPermissionProfile) : bool :=
  match additional with Some p => default false (add_network p ≫= net_enabled) | None => false end.

Lemma merge_network_spec network p :
  is_enabled (if merge_network_access (is_enabled network) p then NetEnabled else NetRestricted) =
  is_enabled network || default false (add_network p ≫= net_enabled).
Proof. unfold merge_network_access. by destruct (_ || _). Qed.

Section overlay.
Context `{PathEnvLaws}.

(** The entry that governs in a union is the one that governs on one of the sides. *)
Lemma union_access p q extra path cwd target :
  wf_policy p -> Forall wf_entry extra -> kind p = Restricted -> kind q = Restricted -> wf_policy q ->
  (forall e, e ∈ entries q <-> e ∈ entries p \/ e ∈ extra) -> resolve_candidate_path path cwd = Some target ->
  resolve_access_with_cwd q path cwd = resolve_access_with_cwd p path cwd \/
  exists e, e ∈ resolved_entries_with_cwd (restricted extra) cwd /\ Path.starts_with target (resolved_path e) = true /\
    resolve_access_with_cwd q path cwd = resolved_access e /\
    forall d, d ∈ resolved_entries_with_cwd p cwd -> Path.starts_with target (resolved_path d) = true ->
      Path.starts_with (resolved_path e) (resolved_path d) = true /\
      (resolved_path d = resolved_path e -> access_rank (resolved_access d) <= access_rank (resolved_access e)).
Proof.
  intros Hp Hx Hkp Hkq Hq Hu Ht.
  assert (Hin : forall r, r ∈ resolved_entries_with_cwd q cwd <->
    r ∈ resolved_entries_with_cwd p cwd \/ r ∈ resolved_entries_with_cwd (restricted extra) cwd).
  { intros r. rewrite !elem_of_resolved. setoid_rewrite Hu. naive_solver. }
  destruct (resolve_access_cases q path cwd target Hq Hkq Ht) as [(g & Hg & Ha)|[Hnone Ha]].
  - pose proof Hg as (Hgin & Hst & Hmax). apply Hin in Hgin as [Hgp|Hge].
    + left. rewrite Ha. symmetry. apply (governs_access p path cwd target); [done..|]. split_and!; [done..|].
      intros e' He'. apply Hmax, Hin. by left.
    + right. exists g. split_and!; [done..|]. intros d Hd. apply Hmax, Hin. by left.
  - left. rewrite Ha. destruct (resolve_access_cases p path cwd target Hp Hkp Ht) as [(g & (Hgin & Hst & _) & _)|[_ ->]]; [|done].
    rewrite Hnone in Hst; [done|]. apply Hin. by left.
Qed.

Lemma effective_policy_spec p additional :
  wf_policy p -> Forall wf_entry (extra_entries additional) ->
  let q := effective_file_system_sandbox_policy p additional in
  kind q = kind p /\ wf_policy q /\ (kind p <> Restricted -> q = p) /\
  (kind p = Restricted ->
   forall e, e ∈ entries q <-> e ∈ entries p \/ e ∈ extra_entries additional).
Proof.
  intros Hp Hx q. subst q. unfold effective_file_system_sandbox_policy.
  unfold extra_entries in *. destruct additional as [[net [perms|]]|]; simpl in *;
    [|split_and!; [done..|]; intros _ e; rewrite elem_of_nil; tauto..].
  destruct (permissions_is_empty perms) eqn:Ee.
  { unfold permissions_is_empty in Ee. destruct (perm_entries perms); [|done]. split_and!; [done..|]. intros _ e. rewrite elem_of_nil. tauto. }
  unfold merge_file_system_policy_with_additional_permissions. destruct (push_missing_all p (perm_entries perms) Hp Hx) as (Hk & _ & Hw & He).
  destruct (kind p) eqn:Ek; simpl; split_and!; try done; by rewrite Ek.
Qed.

(** A managed profile is rebuilt from its policy, whatever the depth. *)
Lemma managed_ok p network : kind p <> ExternalSandboxKind ->
  exists m, managed_profile p network = Ok (Managed m network) /\
    kind (to_sandbox_policy m) = kind p /\ (kind p = Restricted -> entries (to_sandbox_policy m) = entries p).
Proof.
  intros Hk. unfold managed_profile, managed_from_sandbox_policy. destruct (kind p) eqn:E; [|by eexists|done].
  eexists. split_and!; [reflexivity|done|done].
Qed.

(** Additional permissions only override a profile where they are at least as specific.
    Laying them over a profile always succeeds and keeps how the profile is enforced; the network
    is open exactly if the profile or the permissions open it; a policy that is not restricted
    is not changed.  Under a restricted one every path keeps the access it had, or gets that of
    an additional entry at or above it which is at or below all entries of the profile that apply,
    and at least as strong as those at the same path: so a denial yields only to an entry strictly
    below it. *)
Theorem additional_permissions_override_below p additional :
  wf_policy (file_system_sandbox_policy p) ->
  Forall wf_entry (extra_entries additional) ->
  exists q, effective_permission_profile p additional = Ok q /\ enforcement q = enforcement p /\
  is_enabled (network_sandbox_policy q) =
    is_enabled (network_sandbox_policy p) || extra_network additional /\
  let base := file_system_sandbox_policy p in
  let effective := file_system_sandbox_policy q in
  let extra := restricted (extra_entries additional) in
  (kind base <> Restricted -> kind effective = kind base /\ entries effective = entries base) /\
  (kind base = Restricted -> forall path cwd target, resolve_candidate_path path cwd = Some target ->
   resolve_access_with_cwd effective path cwd = resolve_access_with_cwd base path cwd \/
   exists e, e ∈ resolved_entries_with_cwd extra cwd /\ Path.starts_with target (resolved_path e) = true /\
     resolve_access_with_cwd effective path cwd = resolved_access e /\
     forall d, d ∈ resolved_entries_with_cwd base cwd -> Path.starts_with target (resolved_path d) = true ->
       Path.starts_with (resolved_path e) (resolved_path d) = true /\
       (resolved_path d = resolved_path e -> access_rank (resolved_access d) <= access_rank (resolved_access e))).
Proof.
  intros Hp Hx. unfold effective_permission_profile, to_runtime_permissions.
  destruct (effective_policy_spec _ additional Hp Hx) as (Hk & Hw & Hsame & Hel).
  set (eff := effective_file_system_sandbox_policy _ additional) in *.
  assert (Hnet : is_enabled (effective_network_sandbox_policy (network_sandbox_policy p) additional) =
    is_enabled (network_sandbox_policy p) || extra_network additional).
  { destruct additional as [a|]; [apply merge_network_spec|]. simpl. by rewrite orb_false_r. }
  unfold from_runtime_permissions_with_enforcement. destruct p as [fs network| |network].
  - assert (Hkb : kind (to_sandbox_policy fs) <> ExternalSandboxKind) by by destruct fs.
    simpl (file_system_sandbox_policy _) in *. simpl (enforcement _).
    destruct (managed_ok eff (effective_network_sandbox_policy network additional)) as (m & Hm & Hkm & Hem); [by rewrite Hk|].
    exists (Managed m (effective_network_sandbox_policy network additional)). rewrite Hk. split; [by destruct fs|]. split_and!; [done..| |].
    + intros Hne. simpl. destruct fs; [done|]. destruct m; simpl in *; [congruence|done].
    + intros Hr path cwd target Ht. simpl. rewrite Hk in *. specialize (Hel Hr). specialize (Hem Hr).
      apply union_access; try done; [by rewrite Hkm| |].
      * unfold wf_policy. by rewrite Hem.
      * intros e. by rewrite Hem.
  - simpl in Hk. rewrite Hk. exists Disabled. split_and!; try done.
  - simpl in Hk. rewrite Hk. exists (External (effective_network_sandbox_policy network additional)). split_and!; try done.
Qed.

End overlay.

(** ** Round trips *)

(** Roots of the legacy shape: an empty list of roots is written as no list. *)
Definition legacy_shape (paths : option (list str)) : Prop := paths <> Some [].

Lemma legacy_roots_app a paths es read write :
  a <> Deny ->
  legacy_roots_loop (((fun path => new_entry (AtPath path) a) <$> paths) ++ es) read write =
  match a with
  | Write => legacy_roots_loop es read (write ++ paths)
  | _ => legacy_roots_loop es (read ++ paths) write
  end.
Proof.
  intros Ha. revert read write. induction paths as [|path paths IH]; intros read write; simpl.
  - by destruct a; rewrite ?app_nil_r.
  - destruct a; [| |done]; rewrite IH; by rewrite <- (assoc (++)).
Qed.

Lemma some_nonempty_shape paths : legacy_shape paths -> some_nonempty (default [] paths) = paths.
Proof. intros Hs. destruct paths as [[|x l]|]; [by destruct Hs|done|done]. Qed.

Lemma legacy_roots_round_trip read write :
  legacy_shape read -> legacy_shape write ->
  as_legacy_permissions (from_read_write_roots read write) = Some (mkLegacyRoots read write).
Proof.
  intros Hr Hw. unfold as_legacy_permissions, from_read_write_roots. cbn [perm_depth perm_entries].
  assert (Hloop : legacy_roots_loop (path_entries Read read ++ path_entries Write write) [] [] = Some (default [] read, default [] write)).
  { unfold path_entries. rewrite <- (app_nil_r (match write with Some _ => _ | None => [] end)).
    destruct read as [read|], write as [write|]; simpl; by repeat (rewrite legacy_roots_app by done). }
  rewrite Hloop. simpl. by rewrite !some_nonempty_shape.
Qed.

Section profile_round_trip.
Context `{PathEnvLaws}.

Lemma profile_runtime_round_trip p :
  from_runtime_permissions_with_enforcement (enforcement p) (file_system_sandbox_policy p) (network_sandbox_policy p) = Ok p.
Proof. destruct p as [[es [d|]|] network| |network]; done. Qed.

(** Through a profile and back, a policy without a scan depth is what it was. *)
Lemma legacy_profile_ok p policy cwd :
  to_legacy_sandbox_policy policy (network_policy_from p) cwd = inl p -> glob_scan_max_depth policy = None ->
  match enforcement_from_legacy p with
  | EnforceManaged => kind policy = Restricted
  | EnforceDisabled => policy = unrestricted
  | EnforceExternal => policy = external_sandbox
  end ->
  exists q, from_runtime_permissions_with_enforcement (enforcement_from_legacy p) policy (network_policy_from p) = Ok q /\
    profile_to_legacy_sandbox_policy q cwd = inl p.
Proof.
  intros Hl Hd Hk. unfold from_runtime_permissions_with_enforcement.
  assert (Hm : kind policy = Restricted -> exists q, managed_profile policy (network_policy_from p) = Ok q /\
    profile_to_legacy_sandbox_policy q cwd = inl p).
  { intros Hr. unfold managed_profile, managed_from_sandbox_policy. rewrite Hr, Hd. eexists. split; [done|]. simpl.
    destruct policy as [k g es]. simpl in *. by subst. }
  destruct p as [|net|net|]; simpl in Hk.
  - subst policy. by eexists.
  - rewrite Hk. by apply Hm.
  - subst policy. eexists. split; [done|]. by destruct net.
  - rewrite Hk. by apply Hm.
Qed.

(** Profiles survive their conversions.  A profile is rebuilt from its enforcement, its
    file-system policy and its network policy.  A legacy policy becomes a profile, in either of
    the two ways the source has, and that profile converts back to the legacy policy.  Read and
    write roots written as entries are recovered from them. *)
Theorem permission_profile_round_trip p legacy cwd read write :
  legacy_wf legacy cwd -> legacy_shape read -> legacy_shape write ->
  from_runtime_permissions_with_enforcement (enforcement p) (file_system_sandbox_policy p) (network_sandbox_policy p) = Ok p /\
  (exists q, profile_from_legacy_sandbox_policy legacy = Ok q /\ profile_to_legacy_sandbox_policy q cwd = inl legacy) /\
  (exists q, profile_from_legacy_sandbox_policy_for_cwd legacy cwd = Ok q /\ profile_to_legacy_sandbox_policy q cwd = inl legacy) /\
  as_legacy_permissions (from_read_write_roots read write) = Some (mkLegacyRoots read write).
Proof.
  intros Hl Hr Hw. destruct (legacy_policy_round_trip legacy cwd Hl) as [H1 H2]. split_and!.
  - apply profile_runtime_round_trip.
  - apply legacy_profile_ok; [done|by destruct legacy..].
  - apply legacy_profile_ok; [done|by destruct legacy..].
  - by apply legacy_roots_round_trip.
Qed.

End profile_round_trip.

(** ** Examples *)

Definition example_requested : AdditionalPermissionProfile :=
  mkAdditional (Some allowed_network)
    (Some (mkPermissions [new_entry (Special (ProjectRoots None)) Write; new_entry (AtPath (lit "/ws/secret")) Deny;
                          new_entry (GlobPattern (lit "*.env")) Deny] None)).
Definition example_granted : AdditionalPermissionProfile :=
  mkAdditional (Some allowed_network)
    (Some (mkPermissions [new_entry (AtPath (lit "/ws/src")) Write; new_entry (AtPath (lit "/ws/secret/a")) Read;
                          new_entry (AtPath (lit "/ws")) Read; new_entry (AtPath (lit "/ws/src/b")) Deny] None)).

Lemma is_wf_entries_sound es : forallb is_wf_entry es = true -> Forall wf_entry es.
Proof. intros Hes. by apply (is_wf_sound (restricted es)). Qed.


(** Below a denied directory of the profile, an additional entry opens one directory. *)
Lemma additional_permissions_override_below_witness :
  let env := example_env in
  let profile := Managed (ManagedRestricted [new_entry (Special Root) Read; new_entry (AtPath (lit "/ws/secret")) Deny] None) NetRestricted in
  let additional := Some (mkAdditional None (Some (mkPermissions [new_entry (AtPath (lit "/ws/secret/a")) Read] None))) in
  exists q, effective_permission_profile profile additional = Ok q /\ enforcement q = EnforceManaged /\
    network_sandbox_policy q = NetRestricted /\
    can_read_path_with_cwd (file_system_sandbox_policy q) (lit "/ws/secret/a/x") (lit "/ws") = true /\
    can_read_path_with_cwd (file_system_sandbox_policy q) (lit "/ws/secret/b") (lit "/ws") = false.
Proof.
  intros env profile additional. destruct (additional_permissions_override_below profile additional) as (q & Hq & He & Hn & _).
  - apply is_wf_sound. by vm_compute.
  - apply is_wf_entries_sound. by vm_compute.
  - exists q. split_and!; [done|done|by destruct (network_sandbox_policy q)|..]; vm_compute in Hq; injection Hq as <-; by vm_compute.
Defined.

Lemma permission_profile_round_trip_witness :
  let env := example_env in
  as_legacy_permissions (from_read_write_roots (Some [lit "/a"]) None) = Some (mkLegacyRoots (Some [lit "/a"]) None).
Proof.
  intros env.
  destruct (permission_profile_round_trip Disabled example_legacy_policy (lit "/ws") (Some [lit "/a"]) None) as (_ & _ & _ & Hr).
  - split_and!.
    + apply Forall_singleton, is_normalized_sound. by vm_compute.
    + apply NoDup_singleton.
    + intros c Hc Hin. apply list_elem_of_singleton in Hin as ->. vm_compute in Hc. discriminate Hc.
  - done.
  - done.
  - exact Hr.
Defined.
