(* ===== verification/Approvals.v ===== *)
(** * Approval policies and the choice of a sandbox

    The approval policy of [protocol/src/protocol.rs], the decisions that
    [core/src/tools/sandboxing.rs] takes for every tool call, with its cache of approvals, and
    the choice of a platform sandbox in [sandboxing/src/manager.rs].  [PatchSafety.v] decides on
    patches with them, [ExecApproval.v] on commands, and [Orchestrator.v] runs tools. *)

From stdpp Require Import base list strings gmap.
From S2P Require Import Prelude FileSystem AbsPath FsPolicy FsUpdates FsRoots Profiles.

(** ** Approval policies *)

Record GranularApprovalConfig := mkGranular {
  sandbox_approval : bool;
  rules_approval : bool;
  skill_approval : bool;
  request_permissions : bool;
  mcp_elicitations : bool
}.

Definition allows_sandbox_approval (c : GranularApprovalConfig) : bool := sandbox_approval c.
Definition allows_rules_approval (c : GranularApprovalConfig) : bool := rules_approval c.
Definition allows_skill_approval (c : GranularApprovalConfig) : bool := skill_approval c.
Definition allows_request_permissions (c : GranularApprovalConfig) : bool := request_permissions c.
Definition allows_mcp_elicitations (c : GranularApprovalConfig) : bool := mcp_elicitations c.

Inductive AskForApproval : Type := UnlessTrusted | OnRequest | Granular (config : GranularApprovalConfig) | Never.

(** [ExecPolicyAmendment] and [NetworkPolicyAmendment]. *)
Record ExecPolicyAmendment := mkAmendment { amendment_command : list str }.
Inductive NetworkPolicyRuleAction : Type := AllowHost | DenyHost.
Record NetworkPolicyAmendment := mkNetworkAmendment { amendment_host : str; amendment_action : NetworkPolicyRuleAction }.

Inductive ReviewDecision : Type :=
| Approved
| ApprovedExecpolicyAmendment (proposed : ExecPolicyAmendment)
| ApprovedForSession
| ApprovedMcpPolicyAmendment
| NetworkPolicyAmended (amendment : NetworkPolicyAmendment)
| Denied (rejection : str)
| TimedOut
| Aborted.

Definition default_decision : ReviewDecision := Denied (lit "denied").

Definition to_opaque_string (d : ReviewDecision) : str :=
  match d with
  | Approved => lit "approved"
  | ApprovedExecpolicyAmendment _ => lit "approved_with_amendment"
  | ApprovedForSession => lit "approved_for_session"
  | ApprovedMcpPolicyAmendment => lit "approved_mcp_policy_amendment"
  | NetworkPolicyAmended a =>
      match amendment_action a with
      | AllowHost => lit "approved_with_network_policy_allow"
      | DenyHost => lit "denied_with_network_policy_deny"
      end
  | Denied _ => lit "denied"
  | TimedOut => lit "timed_out"
  | Aborted => lit "abort"
  end.

Definition is_session_approval (d : ReviewDecision) : bool := match d with ApprovedForSession => true | _ => false end.

(** ** The cache of approvals *)

(** The decisions of a session by serialised key. *)
Definition ApprovalStore : Type := gmap str ReviewDecision.

Section store.
(** [serde_json::to_string] on a key. *)
Context {K : Type} (to_json : K -> option str).

Definition store_get (s : ApprovalStore) (key : K) : option ReviewDecision := k ← to_json key; s !! k.
Definition store_put (s : ApprovalStore) (key : K) (value : ReviewDecision) : ApprovalStore :=
  match to_json key with Some k => <[k := value]> s | None => s end.

Definition approved_for_session (s : ApprovalStore) (key : K) : bool := is_some_and (store_get s key) is_session_approval.

(** [fetch] asks for a decision.  It runs while the store is not locked: it also says what the
    store is by the time it is locked again.  The second component of the result says whether a
    decision was fetched. *)
Definition with_cached_approval (s : ApprovalStore) (keys : list K) (fetch : ApprovalStore -> ReviewDecision * ApprovalStore) :
    ReviewDecision * bool * ApprovalStore :=
  if is_empty keys then (let '(d, s) := fetch s in (d, true, s))
  else if forallb (approved_for_session s) keys then (ApprovedForSession, false, s)
  else
    let '(d, s) := fetch s in
    (d, true, if is_session_approval d then foldl (fun s key => store_put s key ApprovedForSession) s keys else s).

End store.

(** ** What a tool call needs *)

Inductive ExecApprovalRequirement : Type :=
| SkipApproval (bypass_sandbox : bool) (proposed : option ExecPolicyAmendment)
| NeedsApproval (reason : option str) (proposed : option ExecPolicyAmendment)
| ForbiddenExec (reason : str).

Definition proposed_execpolicy_amendment (r : ExecApprovalRequirement) : option ExecPolicyAmendment :=
  match r with NeedsApproval _ proposed | SkipApproval _ proposed => proposed | ForbiddenExec _ => None end.

Definition policy_needs_approval (policy : AskForApproval) (p : FileSystemSandboxPolicy) : bool :=
  match policy with
  | Never => false
  | OnRequest | Granular _ => is_restricted (kind p)
  | UnlessTrusted => true
  end.

Definition rejects_granular_sandbox (policy : AskForApproval) : bool :=
  match policy with Granular config => negb (allows_sandbox_approval config) | _ => false end.

Definition default_exec_approval_requirement (policy : AskForApproval) (p : FileSystemSandboxPolicy) : ExecApprovalRequirement :=
  let needs_approval := policy_needs_approval policy p in
  if needs_approval && rejects_granular_sandbox policy then ForbiddenExec (lit "approval policy disallowed sandbox approval prompt")
  else if needs_approval then NeedsApproval None None
  else SkipApproval false None.

Inductive SandboxOverride : Type := NoOverride | BypassSandboxFirstAttempt.

Definition unsandboxed_execution_allowed (p : FileSystemSandboxPolicy) : bool := negb (has_denied_read_restrictions p).

Definition sandbox_override_for_first_attempt
    (permissions : SandboxPermissions) (requirement : ExecApprovalRequirement) (p : FileSystemSandboxPolicy) : SandboxOverride :=
  if negb (unsandboxed_execution_allowed p) then NoOverride
  else match requirement with
       | SkipApproval true _ => BypassSandboxFirstAttempt
       | _ => if requires_escalated_permissions permissions then BypassSandboxFirstAttempt else NoOverride
       end.

Definition sandbox_permissions_preserving_denied_reads (permissions : SandboxPermissions) (p : FileSystemSandboxPolicy) : SandboxPermissions :=
  if requires_escalated_permissions permissions && negb (unsandboxed_execution_allowed p) then UseDefault else permissions.

Definition managed_network_for_sandbox_permissions {N} (network : option N) (permissions : SandboxPermissions) : option N :=
  if requires_escalated_permissions permissions then None else network.

(** The methods that the trait [Approvable] provides. *)
Definition should_bypass_approval (policy : AskForApproval) (already_approved : bool) : bool :=
  if already_approved then true else match policy with Never => true | _ => false end.
Definition wants_no_sandbox_approval (policy : AskForApproval) : bool :=
  match policy with
  | UnlessTrusted => true
  | Never | OnRequest => false
  | Granular config => sandbox_approval config
  end.

(** ** The platform *)

Inductive WindowsSandboxLevel : Type := LevelDisabled | RestrictedToken | Elevated.
#[export] Instance WindowsSandboxLevel_eq_dec : EqDecision WindowsSandboxLevel.
Proof. solve_decision. Defined.

Definition executor_windows_sandbox_level `{PathOps} (level : WindowsSandboxLevel) (cwd : path_uri) : WindowsSandboxLevel :=
  match level, infer_path_convention cwd with
  | LevelDisabled, Some Windows => RestrictedToken
  | _, _ => level
  end.

Inductive SandboxType : Type := NoSandbox | MacosSeatbelt | LinuxSeccomp | WindowsRestrictedToken.

Definition as_metric_tag (s : SandboxType) : str :=
  match s with
  | NoSandbox => lit "none"
  | MacosSeatbelt => lit "seatbelt"
  | LinuxSeccomp => lit "seccomp"
  | WindowsRestrictedToken => lit "windows_sandbox"
  end.

Inductive SandboxablePreference : Type := PreferAuto | PreferRequire | PreferForbid.

(** The value of [target_os] at compile time. *)
Inductive Os : Type := MacOs | LinuxOs | WindowsOs | OtherOs.
Class TargetOs := { target_os : Os }.

Definition windows_sandbox_enabled (level : WindowsSandboxLevel) : bool := negb (bool_decide (level = LevelDisabled)).

Definition get_platform_sandbox `{TargetOs} (windows_enabled : bool) : option SandboxType :=
  match target_os with
  | MacOs => Some MacosSeatbelt
  | LinuxOs => Some LinuxSeccomp
  | WindowsOs => if windows_enabled then Some WindowsRestrictedToken else None
  | OtherOs => None
  end.

(** ** [SandboxManager] *)

Definition with_managed_mitm_ca_readable_root `{PathEnv} (p : PermissionProfile) (bundle_path : option str) (cwd : str) :
    result PermissionProfile Empty_set :=
  match bundle_path with
  | None => Ok p
  | Some bundle_path =>
      let '(file_system_policy, network_policy) := to_runtime_permissions p in
      from_runtime_permissions_with_enforcement (enforcement p)
        (with_additional_readable_roots file_system_policy cwd [bundle_path]) network_policy
  end.

Definition should_sandbox (p : PermissionProfile) (pref : SandboxablePreference) (has_managed_network_requirements : bool) : bool :=
  match pref with
  | PreferForbid => false
  | PreferRequire => true
  | PreferAuto =>
      let '(file_system_policy, network_policy) := to_runtime_permissions p in
      should_require_platform_sandbox file_system_policy network_policy has_managed_network_requirements
  end.

Definition select_initial `{TargetOs} (p : PermissionProfile) (pref : SandboxablePreference) (level : WindowsSandboxLevel)
    (has_managed_network_requirements : bool) : SandboxType :=
  if should_sandbox p pref has_managed_network_requirements
  then default NoSandbox (get_platform_sandbox (windows_sandbox_enabled level))
  else NoSandbox.

(** ** The cache of approvals is sound and complete *)

Section cache.
Context {K : Type} (to_json : K -> option str).

Lemma approved_key s key :
  approved_for_session to_json s key = true <-> exists k, to_json key = Some k /\ s !! k = Some ApprovedForSession.
Proof.
  unfold approved_for_session, store_get. destruct (to_json key) as [k|]; simpl; [|naive_solver].
  destruct (s !! k) as [[]|] eqn:E; simpl; naive_solver.
Qed.

Lemma put_all_lookup keys s k :
  foldl (fun s key => store_put to_json s key ApprovedForSession) s keys !! k =
  if existsb (fun key => bool_decide (to_json key = Some k)) keys then Some ApprovedForSession else s !! k.
Proof.
  revert s. induction keys as [|key keys IH]; intros s; simpl; [done|]. rewrite IH. destruct (existsb _ keys) eqn:E; [by rewrite orb_true_r|].
  rewrite orb_false_r. unfold store_put. case_bool_decide as Hk.
  - rewrite Hk. cbv iota. by apply lookup_insert_eq.
  - destruct (to_json key) as [k'|]; [|done]. cbv iota. apply lookup_insert_ne. congruence.
Qed.

(** Approvals are asked for once and never invented.  A request is answered from the cache
    only if it has keys and each of them was approved for the session; any other request gets
    exactly the decision that was fetched for it.  Once a request is approved for the session,
    every later request whose keys are among its keys is answered from the cache, as long as no
    one takes entries out of it; and a key is entered only by a session approval that names it. *)
Theorem session_approvals_are_remembered (s : ApprovalStore) (keys : list K) fetch :
  let '(d, fetched, s') := with_cached_approval to_json s keys fetch in
  (fetched = false ->
     d = ApprovedForSession /\ s' = s /\ keys <> [] /\
     forall key, key ∈ keys -> exists k, to_json key = Some k /\ s !! k = Some ApprovedForSession) /\
  (fetched = true -> d = (fetch s).1) /\
  (d = ApprovedForSession -> forall later keys' fetch', s' ⊆ later -> keys' <> [] ->
     (forall key, key ∈ keys' -> key ∈ keys /\ is_Some (to_json key)) ->
     with_cached_approval to_json later keys' fetch' = (ApprovedForSession, false, later)) /\
  (forall k, s' !! k <> (if fetched then (fetch s).2 else s) !! k ->
     s' !! k = Some ApprovedForSession /\ d = ApprovedForSession /\ exists key, key ∈ keys /\ to_json key = Some k).
Proof.
  unfold with_cached_approval at 1. destruct (fetch s) as [d s1] eqn:Ef. simpl.
  assert (Hlater : forall later keys' fetch', keys' <> [] -> (forall key, key ∈ keys' -> approved_for_session to_json later key = true) ->
    with_cached_approval to_json later keys' fetch' = (ApprovedForSession, false, later)).
  { intros later keys' fetch' Hne Hall. unfold with_cached_approval. destruct keys' as [|x l]; [done|].
    replace (forallb _ _) with true; [done|]. symmetry. apply forallb_forall. intros key Hk%list_elem_of_In. by apply Hall. }
  destruct keys as [|x l]; simpl (is_empty _).
  { split_and!; try done. intros Hd later keys' fetch' _ Hne Hsub. destruct keys' as [|y k]; [done|].
    destruct (Hsub y) as [[]%elem_of_nil _]. by left. }
  set (keys := x :: l). destruct (forallb (approved_for_session to_json s) keys) eqn:Ea.
  - assert (Hall : forall key, key ∈ keys -> approved_for_session to_json s key = true).
    { rewrite forallb_forall in Ea. intros key Hk. by apply Ea, list_elem_of_In. }
    split_and!; try done.
    + intros _. split_and!; try done. intros key Hk. by apply approved_key, Hall.
    + intros _ later keys' fetch' Hsub Hne Hk. apply Hlater; [done|]. intros key [Hin _]%Hk.
      apply Hall, approved_key in Hin as (k & Hj & Hs). apply approved_key. exists k. split; [done|]. by eapply lookup_weaken.
  - split_and!; try done.
    + intros -> later keys' fetch' Hsub Hne Hk. apply Hlater; [done|]. intros key [Hin [k Hj]]%Hk. apply approved_key.
      exists k. split; [done|]. eapply lookup_weaken; [|exact Hsub]. simpl (is_session_approval _). cbv iota. rewrite put_all_lookup.
      replace (existsb _ keys) with true; [done|]. symmetry. apply existsb_elem. exists key. by rewrite bool_decide_eq_true.
    + intros k. destruct d; try done. simpl (is_session_approval _). cbv iota. rewrite put_all_lookup.
      destruct (existsb _ keys) eqn:Ee; [|done]. intros _. split_and!; [done..|]. apply existsb_elem in Ee as (key & Hin & Hb).
      exists key. by rewrite bool_decide_eq_true in Hb.
Qed.

End cache.
