(* ===== verification/PatchSafety.v ===== *)
(** * When a patch is applied without asking: [core/src/safety.rs] and [core/src/apply_patch.rs]

    A verified patch is approved, sent to the user or rejected by the approval policy, the
    permission profile and the file-system policy.  The main theorem composes the verification of
    a patch, this check, the sandbox policy and the application of the patch: what a patch that was
    approved without asking changes, the policy lets be written. *)

From stdpp Require Import base list strings gmap fin_maps.
From S2P Require Import Prelude PatchParser SeekSequence FileSystem FileUpdate ApplyHunks Invocation.
From S2P Require Import AbsPath FsPolicy FsUpdates FsRoots Profiles Approvals.

Import Path (SLASH, Component, RootDir, CurDir, ParentDir, Normal).

(** [PathUri::to_abs_path]: the path of a URI on this host, a value of [AbsolutePathBuf]. *)
Class NativePaths := { to_abs_path : path_uri -> io_result str }.
Class NativePathsLaws `{NativePaths} := { to_abs_path_normalized u p : to_abs_path u = inl p -> normalized p }.

Inductive SafetyCheck : Type := AutoApprove | AskUser | Reject (reason : str).

Definition PATCH_REJECTED_OUTSIDE_PROJECT_REASON : str := lit "writing outside of the project; rejected by user approval settings".
Definition PATCH_REJECTED_READ_ONLY_REASON : str :=
  lit "writing is blocked by read-only sandbox; rejected by user approval settings".

(** The local function [normalize]. *)
Definition normalize (path : str) : option str := Some (foldl normalize_component [] (Path.components path)).

Section safety.
Context `{PathEnv} `{NativePaths} `{TargetOs}.

Definition is_path_writable_under (p : FileSystemSandboxPolicy) (native_cwd : str) (path : path_uri) : bool :=
  match to_abs_path path with
  | inr _ => false
  | inl path => match normalize path with Some abs => can_write_path_with_cwd p abs native_cwd | None => false end
  end.

Definition change_is_writable (p : FileSystemSandboxPolicy) (native_cwd : str) (path : path_uri) (c : ApplyPatchFileChange) : bool :=
  match c with
  | ChangeAdd _ | ChangeDelete _ => is_path_writable_under p native_cwd path
  | ChangeUpdate _ move_path _ =>
      if is_path_writable_under p native_cwd path then
        match move_path with Some dest => is_path_writable_under p native_cwd dest | None => true end
      else false
  end.

Definition is_write_patch_constrained_to_writable_paths (action : ApplyPatchAction) (p : FileSystemSandboxPolicy) (cwd : path_uri) : bool :=
  if has_full_disk_write_access p then true
  else match to_abs_path cwd with
       | inr _ => false
       | inl native_cwd =>
           forallb (fun '(path, c) => change_is_writable p native_cwd path c) (map_to_list (action_changes action))
       end.

Definition patch_rejection_reason (profile : PermissionProfile) (p : FileSystemSandboxPolicy) (cwd : path_uri) : str :=
  let has_no_writable_roots :=
    match to_abs_path cwd with inl cwd => is_empty (get_writable_roots_with_cwd p cwd) | inr _ => false end in
  match profile with
  | Managed _ _ =>
      if negb (has_full_disk_write_access p) && has_no_writable_roots then PATCH_REJECTED_READ_ONLY_REASON
      else PATCH_REJECTED_OUTSIDE_PROJECT_REASON
  | Disabled | External _ => PATCH_REJECTED_OUTSIDE_PROJECT_REASON
  end.

Definition rejects_sandbox_approval (policy : AskForApproval) : bool :=
  match policy with Never => true | Granular config => negb (sandbox_approval config) | _ => false end.

Definition assess_patch_safety (action : ApplyPatchAction) (policy : AskForApproval) (profile : PermissionProfile)
    (p : FileSystemSandboxPolicy) (cwd : path_uri) (level : WindowsSandboxLevel) : SafetyCheck :=
  if bool_decide (action_changes action = ∅) then Reject (lit "empty patch")
  else match policy with
  | UnlessTrusted => AskUser
  | Never | OnRequest | Granular _ =>
      let rejects := rejects_sandbox_approval policy in
      let refuse := if rejects then Reject (patch_rejection_reason profile p cwd) else AskUser in
      if is_write_patch_constrained_to_writable_paths action p cwd then
        match profile with
        | Disabled | External _ => AutoApprove
        | Managed _ _ =>
            match get_platform_sandbox (windows_sandbox_enabled level) with
            | Some _ => AutoApprove
            | None => refuse
            end
        end
      else refuse
  end.

(** [prepare_apply_patch]: the error is the text that the model is shown. *)
Record ApplyPatchRuntimeInvocation := mkInvocation {
  invocation_action : ApplyPatchAction;
  auto_approved : bool;
  invocation_requirement : ExecApprovalRequirement
}.

Definition prepare_apply_patch (policy : AskForApproval) (level : WindowsSandboxLevel) (profile : PermissionProfile)
    (p : FileSystemSandboxPolicy) (action : ApplyPatchAction) : ApplyPatchRuntimeInvocation + str :=
  match assess_patch_safety action policy profile p (action_cwd action) level with
  | AutoApprove => inl (mkInvocation action true (SkipApproval false None))
  | AskUser => inl (mkInvocation action false (NeedsApproval None None))
  | Reject reason => inr (lit "patch rejected: " ++ reason)
  end.

End safety.

(** ** A patch changes only what it names *)

Section named.
Context {FS : Type} `{PathOps} `{ExecutorFileSystem FS} `{TextDiff}.

(** A path that a change writes or removes. *)
Definition named (cs : gmap str ApplyPatchFileChange) (q : path_uri) : Prop :=
  exists p c, cs !! p = Some c /\ (q = p \/ moves_to c q).

#[export] Instance named_dec cs q : base.Decision (named cs q).
Proof.
  assert (Hm : forall c, base.Decision (moves_to c q)).
  { intros [|?|? [d|] ?]; simpl; [right; tauto|right; tauto| |right; tauto]. destruct (decide (d = q)); [by left|by right]. }
  destruct (decide (Exists (fun x => q = x.1 \/ moves_to x.2 q) (map_to_list cs))) as [Hx|Hx]; [left|right].
  - apply Exists_exists in Hx as ([p c] & Hin%elem_of_map_to_list & Hq). by exists p, c.
  - intros (p & c & Hin & Hq). apply Hx, Exists_exists. exists (p, c). split; [by apply elem_of_map_to_list|done].
Defined.

(** One hunk leaves alone every path but its own and the one it moves to, whatever the file held
    when the hunk was verified. *)
Lemma spec_hunk_frame m cwd (fs : FS) h path c v v' q :
  path_join cwd (hunk_source_path h) = inl path -> verify_hunk m cwd fs path h = Ok c ->
  spec_hunk m cwd h v = Some v' -> q <> path -> ~ moves_to c q -> v' q = v q.
Proof.
  intros Hj Hc. unfold spec_hunk, resolve_path. rewrite Hj. destruct h as [p0 content|p0|p0 mv chunks]; simpl in Hc.
  - intros [= <-] Hq _. by apply set_view_ne.
  - destruct (v path); [|done]. intros [= <-] Hq _. by apply set_view_ne.
  - unfold spec_update, unified_diff_from_chunks_with_mode, unified_diff_from_chunks_with_context_and_mode in *.
    destruct (derive_new_contents_from_chunks path chunks m fs) as [[]|?|]; simplify_eq/=.
    destruct (v path); [|done]. destruct (derive_new_contents _ _ _ _); [|done..].
    destruct mv as [d|]; simpl in Hc; [|intros [= <-] Hq _; by apply set_view_ne].
    unfold join_path in Hc. destruct (path_join cwd d); simplify_eq/=. intros [= <-] Hq Hm.
    by rewrite !set_view_ne by auto.
Qed.

Lemma spec_hunks_frame m cwd (fs : FS) hs cs cs' v v' q :
  verify_loop m cwd fs hs cs = Ok cs' -> spec_hunks m cwd hs v = Some v' -> ~ named cs' q -> v' q = v q.
Proof.
  revert cs v. induction hs as [|h hs IH]; intros cs v Hv Hs Hn; simpl in Hv, Hs; [by simplify_eq|].
  unfold join_path in Hv. destruct (path_join cwd (hunk_source_path h)) as [path|] eqn:Ej; simplify_eq/=.
  destruct (cs !! path) eqn:Ep; simplify_eq. destruct (verify_hunk m cwd fs path h) as [c|?|] eqn:Ec; simplify_eq/=.
  destruct (spec_hunk m cwd h v) as [v1|] eqn:Es; [|done].
  assert (Hc : cs' !! path = Some c).
  { eapply lookup_weaken; [|by eapply verify_loop_sub]. by rewrite lookup_insert_eq. }
  rewrite (IH _ _ Hv Hs Hn). eapply spec_hunk_frame; [done..| |].
  - intros ->. apply Hn. exists path, c. auto.
  - intros Hm. apply Hn. exists path, c. auto.
Qed.

End named.

(** ** What is approved without asking *)

Lemma normalize_absolute_path p : normalized p -> normalize p = Some p.
Proof.
  intros (names & Hns & ->). unfold normalize. f_equal. pose proof (normalize_abs_path names Hns) as Hp. unfold normalize_path in Hp.
  by destruct (is_empty _).
Qed.

Section approved.
Context `{PathEnv} `{NativePathsLaws} `{TargetOs}.

Lemma writable_under_spec p cwd path :
  is_path_writable_under p cwd path = true <-> exists abs, to_abs_path path = inl abs /\ can_write_path_with_cwd p abs cwd = true.
Proof.
  unfold is_path_writable_under. destruct (to_abs_path path) as [abs|] eqn:E; [|naive_solver].
  rewrite normalize_absolute_path by (by eapply to_abs_path_normalized). naive_solver.
Qed.

(** What a verdict without a question implies. *)
Lemma auto_approve_inv action policy profile p cwd level :
  assess_patch_safety action policy profile p cwd level = AutoApprove ->
  action_changes action <> ∅ /\ policy <> UnlessTrusted /\ is_write_patch_constrained_to_writable_paths action p cwd = true /\
  (enforcement profile = EnforceManaged -> is_Some (get_platform_sandbox (windows_sandbox_enabled level))).
Proof.
  unfold assess_patch_safety. case_bool_decide as Hne; [done|]. intros Ha. split; [done|].
  destruct policy as [| |config|]; [done| | |]; (split; [done|]);
    destruct (is_write_patch_constrained_to_writable_paths _ _ _); destruct profile as [fs net| |net];
    try (by destruct (rejects_sandbox_approval _)); (split; [done|]); intros He; try done; by destruct (get_platform_sandbox _); [eexists|destruct (rejects_sandbox_approval _)].
Qed.

Lemma constrained_writable action p cwd q :
  is_write_patch_constrained_to_writable_paths action p cwd = true -> named (action_changes action) q ->
  has_full_disk_write_access p = true \/
  exists native_cwd abs, to_abs_path cwd = inl native_cwd /\ to_abs_path q = inl abs /\ can_write_path_with_cwd p abs native_cwd = true.
Proof.
  unfold is_write_patch_constrained_to_writable_paths. destruct (has_full_disk_write_access p); [by left|].
  destruct (to_abs_path cwd) as [native_cwd|] eqn:Ec; [|done]. intros Hall (path & c & Hc & Hq). right. exists native_cwd.
  rewrite forallb_forall in Hall. specialize (Hall (path, c)). simpl in Hall.
  assert (Hw : change_is_writable p native_cwd path c = true) by (by apply Hall, list_elem_of_In, elem_of_map_to_list).
  enough (is_path_writable_under p native_cwd q = true) as (abs & ? & ?)%writable_under_spec by (by exists abs).
  destruct Hq as [->|Hm].
  - destruct c as [|?|? [d|]]; simpl in Hw; try done; by destruct (is_path_writable_under p native_cwd path).
  - destruct c as [|?|? [d|]]; simpl in Hm; try done. subst d. simpl in Hw. by destruct (is_path_writable_under p native_cwd path).
Qed.

End approved.

(** ** Properties *)

(** C8: a patch that is applied without asking stays within the policy, as far as paths tell.  Let a
    patch be verified against some files, found safe, and applied to those files successfully
    and with an exact delta.  Then every path whose text has changed is one that the
    file-system policy lets be written from the patch's working directory, or the policy gives
    full write access; and the patch was only approved under an approval policy that permits it
    and, where the profile is managed, on a platform with a sandbox.  Different paths are taken
    to be different files: of a path that is a hard or symbolic link to a file elsewhere,
    which the check cannot tell, as its comment warns, and for which it asks for the sandbox,
    the statement says nothing of that other file. *)
Theorem auto_approved_patches_stay_within_policy {FS : Type} `{FileSystemLaws FS} `{TextDiff} `{PathEnv} `{NativePathsLaws} `{TargetOs}
    (args : ApplyPatchArgs) (cwd : path_uri) (m : ApplyPatchFileUpdateMode) (fs fs' : FS) (action : ApplyPatchAction)
    policy profile p level invocation (d : AppliedPatchDelta) (affected : AffectedPaths) :
  try_verify_apply_patch_args args cwd m fs = Ok action ->
  prepare_apply_patch policy level profile p action = inl invocation -> auto_approved invocation = true ->
  apply_hunks_to_files (update_file_mode (invocation_action invocation)) (action_cwd (invocation_action invocation)) (args_hunks args) (fs, empty_delta)
    = ((fs', d), Ok affected) ->
  exact d = true ->
  policy <> UnlessTrusted /\
  (enforcement profile = EnforceManaged -> is_Some (get_platform_sandbox (windows_sandbox_enabled level))) /\
  forall q, view fs' q <> view fs q ->
    has_full_disk_write_access p = true \/
    exists native_cwd abs, to_abs_path (action_cwd action) = inl native_cwd /\ to_abs_path q = inl abs /\
      can_write_path_with_cwd p abs native_cwd = true.
Proof.
  unfold prepare_apply_patch. intros Hv Hp Hauto Hr Hex.
  destruct (assess_patch_safety action policy profile p (action_cwd action) level) eqn:Es; simplify_eq/=.
  destruct (auto_approve_inv _ _ _ _ _ _ Es) as (_ & Hpol & Hcon & Hsand). split_and!; [done..|]. intros q Hq.
  apply (constrained_writable action p (action_cwd action) q Hcon). clear Hcon Es Hsand.
  unfold try_verify_apply_patch_args in Hv. destruct (join_option cwd (args_workdir args)) as [wd|?|]; simplify_eq/=.
  destruct (verify_loop m (default cwd wd) fs (args_hunks args) ∅) as [cs|?|] eqn:Ev; simplify_eq/=.
  destruct (apply_hunks_to_files_ok m (default cwd wd) (args_hunks args) (fs, empty_delta)) as [_ Hs].
  rewrite Hr in Hs. destruct (Hs affected eq_refl) as [_ Hspec]. specialize (Hspec Hex). simpl in Hspec.
  destruct (spec_hunks m (default cwd wd) (args_hunks args) (view fs)) as [v'|] eqn:Esp; inversion Hspec as [? ? Heq|]; subst.
  destruct (decide (named cs q)) as [Hn|Hn]; [done|]. destruct Hq.
  rewrite <- (Heq q). by apply (spec_hunks_frame _ _ _ _ _ _ _ _ _ Ev Esp).
Qed.

(** ** Examples *)

(** URIs that are written like paths. *)
Definition plain_native_paths : NativePaths :=
  {| to_abs_path u := if is_normalized u then inl u else inr (mkIo InvalidInput u) |}.
#[export] Instance plain_native_paths_laws : @NativePathsLaws plain_native_paths.
Proof.
  split. intros u p. simpl. destruct (is_normalized u) eqn:E; [|done]. intros [= <-]. by apply is_normalized_sound.
Qed.

#[local] Instance linux : TargetOs := {| target_os := LinuxOs |}.
#[local] Instance context_diff : TextDiff := {| unified_diff_text old new _ := old ++ new |}.

Definition workspace_policy : FileSystemSandboxPolicy := restricted [new_entry (Special (ProjectRoots None)) FsPolicy.Write].
Definition workspace_profile : PermissionProfile := Managed (ManagedRestricted (entries workspace_policy) None) NetRestricted.

Definition patch_action : ApplyPatchAction :=
  match try_verify_apply_patch_args sample_args (lit "/w") NormalizeToLf (world_fs sample_world) with
  | Ok a => a
  | _ => mkAction ∅ NormalizeToLf [] []
  end.

Lemma auto_approved_patches_stay_within_policy_witness :
  let env := example_env in
  let paths := plain_native_paths in
  view sample_applied.1.1 (lit "/w/g") <> view (world_fs sample_world) (lit "/w/g") /\
  can_write_path_with_cwd workspace_policy (lit "/w/g") (lit "/w") = true.
Proof.
  intros env paths. assert (Hd : view sample_applied.1.1 (lit "/w/g") <> view (world_fs sample_world) (lit "/w/g")) by by vm_compute.
  split; [done|].
  destruct (auto_approved_patches_stay_within_policy sample_args (lit "/w") NormalizeToLf (world_fs sample_world) sample_applied.1.1
    patch_action OnRequest workspace_profile workspace_policy LevelDisabled (mkInvocation patch_action true (SkipApproval false None))
    sample_applied.1.2 (mkAffected [lit "d/h"] [lit "g"] [])) as (_ & _ & Hw).
  - vm_compute. reflexivity.
  - vm_compute. reflexivity.
  - reflexivity.
  - vm_compute. reflexivity.
  - vm_compute. reflexivity.
  - destruct (Hw _ Hd) as [Hf|(c & q & Hc & Hq & Hwr)]; [discriminate Hf|].
    vm_compute in Hc. injection Hc as <-. vm_compute in Hq. injection Hq as <-. exact Hwr.
Defined.

(** A patch that leaves the workspace is sent to the user, or rejected where no one may be asked. *)
Lemma outside_patch_is_not_approved :
  let env := example_env in
  let paths := plain_native_paths in
  let action := mkAction {[ lit "/etc/passwd" := ChangeAdd [] ]} NormalizeToLf [] (lit "/w") in
  assess_patch_safety action OnRequest workspace_profile workspace_policy (lit "/w") LevelDisabled = AskUser /\
  assess_patch_safety action Never workspace_profile workspace_policy (lit "/w") LevelDisabled =
    Reject PATCH_REJECTED_OUTSIDE_PROJECT_REASON /\
  assess_patch_safety action Never workspace_profile read_only (lit "/w") LevelDisabled = Reject PATCH_REJECTED_READ_ONLY_REASON.
Proof. split_and!; by vm_compute. Qed.
