(* ===== verification/ExecApproval.v ===== *)
(** * Which commands need approval: [core/src/exec_policy.rs]

    A command is split into the commands that a shell would run; each is matched against the
    rules of the exec policy, and one that no rule matches is judged by the approval policy, the
    permission profile and the heuristics for safe and dangerous commands.  The result is that the
    command runs, that it needs approval, or that it is forbidden.  The file also has the
    amendments that are proposed with a prompt and their effect on the policy.  The model is that
    of a build for Unix, where no command is taken for PowerShell. *)

From stdpp Require Import base list strings gmap fin_maps.
From S2P Require Import Prelude FileSystem AbsPath FsPolicy FsUpdates FsRoots Profiles Approvals ShellTree CommandSafety ExecPolicy.

(** ** Constants *)

Definition PROMPT_CONFLICT_REASON : str := lit "approval required by policy, but AskForApproval is set to Never".
Definition REJECT_SANDBOX_APPROVAL_REASON : str :=
  lit "approval required by policy, but AskForApproval::Granular.sandbox_approval is false".
Definition REJECT_RULES_APPROVAL_REASON : str :=
  lit "approval required by policy rule, but AskForApproval::Granular.rules is false".

Definition BANNED_PREFIX_SUGGESTIONS : list (list str) :=
  [[lit "/bin/bash"]; [lit "/bin/bash"; lit "-c"]; [lit "/bin/bash"; lit "-lc"]; [lit "/bin/sh"]; [lit "/bin/sh"; lit "-c"];
   [lit "/bin/sh"; lit "-lc"]; [lit "/bin/zsh"]; [lit "/bin/zsh"; lit "-c"]; [lit "/bin/zsh"; lit "-lc"]; [lit "Rscript"];
   [lit "bash"]; [lit "bash"; lit "-c"]; [lit "bash"; lit "-lc"]; [lit "bun"]; [lit "bun"; lit "-e"]; [lit "bun"; lit "run"];
   [lit "cmd"]; [lit "cmd"; lit "/c"]; [lit "cmd"; lit "/k"]; [lit "cmd.exe"]; [lit "cmd.exe"; lit "/c"];
   [lit "cmd.exe"; lit "/k"]; [lit "dash"]; [lit "dash"; lit "-c"]; [lit "deno"]; [lit "deno"; lit "eval"]; [lit "env"];
   [lit "fish"]; [lit "fish"; lit "-c"]; [lit "git"]; [lit "julia"]; [lit "julia"; lit "-e"]; [lit "ksh"];
   [lit "ksh"; lit "-c"]; [lit "lua"]; [lit "lua"; lit "-e"]; [lit "node"]; [lit "node"; lit "-e"]; [lit "nodejs"];
   [lit "nodejs"; lit "-e"]; [lit "npm"; lit "run"]; [lit "osascript"]; [lit "perl"]; [lit "perl"; lit "-e"]; [lit "php"];
   [lit "php"; lit "-r"]; [lit "pnpm"; lit "run"]; [lit "powershell"]; [lit "powershell"; lit "-Command"];
   [lit "powershell"; lit "-EncodedCommand"]; [lit "powershell"; lit "-File"]; [lit "powershell"; lit "-c"];
   [lit "powershell.exe"]; [lit "powershell.exe"; lit "-Command"]; [lit "powershell.exe"; lit "-EncodedCommand"];
   [lit "powershell.exe"; lit "-File"]; [lit "powershell.exe"; lit "-c"]; [lit "pwsh"]; [lit "pwsh"; lit "-Command"];
   [lit "pwsh"; lit "-EncodedCommand"]; [lit "pwsh"; lit "-File"]; [lit "pwsh"; lit "-c"]; [lit "pwsh"; lit "-e"];
   [lit "pwsh"; lit "-ec"]; [lit "pwsh"; lit "-f"]; [lit "py"]; [lit "py"; lit "-3"]; [lit "pypy"]; [lit "pypy3"];
   [lit "python"]; [lit "python"; lit "-"]; [lit "python"; lit "-c"]; [lit "python3"]; [lit "python3"; lit "-"];
   [lit "python3"; lit "-c"]; [lit "pythonw"]; [lit "pyw"]; [lit "rm"]; [lit "ruby"]; [lit "ruby"; lit "-e"]; [lit "sh"];
   [lit "sh"; lit "-c"]; [lit "sh"; lit "-lc"]; [lit "sudo"]; [lit "yarn"; lit "run"]; [lit "zsh"]; [lit "zsh"; lit "-c"];
   [lit "zsh"; lit "-lc"]].
(** ** Rules and prompts *)

Definition is_policy_match (m : RuleMatch) : bool :=
  match m with PrefixRuleMatch _ _ _ _ => true | HeuristicsRuleMatch _ _ => false end.

Definition policy_match_with (d : Decision) (m : RuleMatch) : bool := is_policy_match m && bool_decide (match_decision m = d).

Definition prompt_is_rejected_by_policy (approval_policy : AskForApproval) (prompt_is_rule : bool) : option str :=
  match approval_policy with
  | Never => Some PROMPT_CONFLICT_REASON
  | OnRequest | UnlessTrusted => None
  | Granular config =>
      if prompt_is_rule then if allows_rules_approval config then None else Some REJECT_RULES_APPROVAL_REASON
      else if allows_sandbox_approval config then None else Some REJECT_SANDBOX_APPROVAL_REASON
  end.

(** The rules that apply to a model: those that allow a prefix are left out for cyber models. *)
Inductive AllowPrefixRules : Type := Honor | IgnoreForCyberModel.
Definition honors (a : AllowPrefixRules) : bool := match a with Honor => true | IgnoreForCyberModel => false end.

Definition without_allow_rules (rules : list PrefixRule) : option (list PrefixRule) :=
  match List.filter (fun rule => negb (bool_decide (rule_decision rule = Allow))) rules with [] => None | l => Some l end.

Definition current_for_prefix_rules (policy : Policy) (allow_prefix_rules : AllowPrefixRules) : Policy :=
  if honors allow_prefix_rules then policy
  else ExecPolicy.mkPolicy (omap without_allow_rules (rules_by_program policy)) (network_rules policy) (host_executables_by_name policy).

(** ** Amendments *)

Definition try_derive_execpolicy_amendment_for_prompt_rules (matched : list RuleMatch) : option ExecPolicyAmendment :=
  if existsb (policy_match_with Prompt) matched then None
  else find_map (fun m => match m with HeuristicsRuleMatch command Prompt => Some (mkAmendment command) | _ => None end) matched.

Definition try_derive_execpolicy_amendment_for_allow_rules (matched : list RuleMatch) : option ExecPolicyAmendment :=
  if existsb is_policy_match matched then None
  else find_map (fun m => match m with HeuristicsRuleMatch command Allow => Some (mkAmendment command) | _ => None end) matched.

Definition is_banned (prefix_rule : list str) : bool := existsb (fun banned => bool_decide (prefix_rule = banned)) BANNED_PREFIX_SUGGESTIONS.

(** ** Unmatched commands *)

Record UnmatchedCommandContext := mkContext {
  uc_approval_policy : AskForApproval;
  uc_permission_profile : PermissionProfile;
  uc_windows_sandbox_level : WindowsSandboxLevel;
  uc_sandbox_permissions : SandboxPermissions;
  uc_used_complex_parsing : bool
}.

Definition profile_has_managed_filesystem_restrictions (profile : PermissionProfile) : bool :=
  let p := file_system_sandbox_policy profile in
  match profile with Managed _ _ => true | _ => false end && is_restricted (kind p) && negb (has_full_disk_write_access p).

Definition dangerous_command_rejection_reason (m : DangerousCommandMatch) : str :=
  match m with
  | ForcedRm => lit "rm -f style commands are not permitted. Use a safer approach"
  | OtherDanger => lit "blocked by policy"
  end.

Definition derive_rejected_prompt_reason (fallback_reason : str) (m : option DangerousCommandMatch) : str :=
  match m with
  | Some ForcedRm => dangerous_command_rejection_reason ForcedRm
  | Some OtherDanger | None => fallback_reason
  end.

Section exec_policy.
Context `{Target} `{BashParser} `{Host}.

Definition dangerous_command_match_for_heuristics (e : Evaluation) (d : Decision) : option DangerousCommandMatch :=
  find_map (fun m =>
      match m with
      | HeuristicsRuleMatch command matched_decision =>
          if bool_decide (matched_decision = d) then dangerous_command_match command else None
      | _ => None
      end)
    (matched_rules e).

Definition render_decision_for_unmatched_command (command : list str) (c : UnmatchedCommandContext) : Decision :=
  let dangerous := dangerous_command_match command in
  let p := file_system_sandbox_policy (uc_permission_profile c) in
  let is_known_safe := is_known_safe_command command in
  let without_backend :=
    cfg_windows && bool_decide (uc_windows_sandbox_level c = LevelDisabled)
    && profile_has_managed_filesystem_restrictions (uc_permission_profile c) in
  let unless_trusted := match uc_approval_policy c with UnlessTrusted => true | _ => false end in
  if is_known_safe && negb (uc_used_complex_parsing c) && (unless_trusted || without_backend) then Allow
  else if match dangerous with Some _ => true | None => false end || without_backend then
    match uc_approval_policy c with
    | Never => Forbidden
    | OnRequest | UnlessTrusted | Granular _ => Prompt
    end
  else match uc_approval_policy c with
       | Never => Allow
       | UnlessTrusted => Prompt
       | OnRequest | Granular _ =>
           match kind p with
           | Unrestricted | ExternalSandboxKind => Allow
           | Restricted => if requests_sandbox_override (uc_sandbox_permissions c) then Prompt else Allow
           end
       end.

(** The commands to be judged, and whether only the parser for heredocs found them. *)
Definition commands_for_exec_policy (command : list str) : list (list str) * bool :=
  match parse_shell_lc_plain_commands command with
  | Some ((_ :: _) as commands) => (commands, false)
  | _ =>
      match parse_shell_lc_single_command_prefix command with
      | Some single_command => ([single_command], true)
      | None => ([command], false)
      end
  end.

(** ** Reasons *)

Definition render_shlex_command (args : list str) : str := default (join (lit " ") args) (try_join args).

Definition longest_prefix (d : Decision) (matched : list RuleMatch) : option (list str * option str) :=
  max_by (fun a b => length a.1 <=? length b.1)
    (omap (fun m =>
        match m with
        | PrefixRuleMatch matched_prefix d' _ justification =>
            if bool_decide (d' = d) then Some (matched_prefix, justification) else None
        | _ => None
        end)
      matched).

Definition tick : str := [96%N].

Definition derive_prompt_reason (command_args : list str) (e : Evaluation) : option str :=
  let command := render_shlex_command command_args in
  match longest_prefix Prompt (matched_rules e) with
  | Some (_, Some justification) => Some (tick ++ command ++ tick ++ lit " requires approval: " ++ justification)
  | Some (_, None) => Some (tick ++ command ++ tick ++ lit " requires approval by policy")
  | None => None
  end.

Definition derive_forbidden_reason (command_args : list str) (e : Evaluation) (dangerous : option DangerousCommandMatch) : str :=
  let command := render_shlex_command command_args in
  match longest_prefix Forbidden (matched_rules e) with
  | Some (_, Some justification) => tick ++ command ++ tick ++ lit " rejected: " ++ justification
  | Some (matched_prefix, None) =>
      let prefix := render_shlex_command matched_prefix in
      tick ++ command ++ tick ++ lit " rejected: policy forbids commands starting with " ++ tick ++ prefix ++ tick
  | None =>
      match dangerous with
      | Some m => tick ++ command ++ tick ++ lit " rejected: " ++ dangerous_command_rejection_reason m
      | None => tick ++ command ++ tick ++ lit " rejected: blocked by policy"
      end
  end.

(** ** The requirement *)

Definition prefix_rule_would_approve_all_commands (exec_policy : Policy) (prefix_rule : list str) (commands : list (list str))
    (fallback : list str -> Decision) (options : MatchOptions) : bool :=
  match add_prefix_rule prefix_rule Allow exec_policy with
  | Ok policy_with_prefix_rule =>
      forallb (fun command =>
          match check_with_options policy_with_prefix_rule command fallback options with
          | Ok e => bool_decide (decision e = Allow)
          | _ => false
          end)
        commands
  | _ => false
  end.

Definition derive_requested_execpolicy_amendment_from_prefix_rule (prefix_rule : option (list str)) (matched : list RuleMatch)
    (exec_policy : Policy) (commands : list (list str)) (fallback : list str -> Decision) (options : MatchOptions) :
    option ExecPolicyAmendment :=
  prefix_rule ← prefix_rule;
  if is_empty prefix_rule then None
  else if is_banned prefix_rule then None
  else if existsb is_policy_match matched then None
  else if prefix_rule_would_approve_all_commands exec_policy prefix_rule commands fallback options
  then Some (mkAmendment prefix_rule) else None.

Record ExecApprovalRequest := mkRequest {
  req_command : list str;
  req_approval_policy : AskForApproval;
  req_permission_profile : PermissionProfile;
  req_windows_sandbox_level : WindowsSandboxLevel;
  req_sandbox_permissions : SandboxPermissions;
  req_prefix_rule : option (list str);
  req_allow_prefix_rules : AllowPrefixRules
}.

Definition host_options : MatchOptions := mkOptions true.

(** How the request judges a command that no rule matches. *)
Definition unmatched (r : ExecApprovalRequest) (command : list str) : Decision :=
  render_decision_for_unmatched_command command
    (mkContext (req_approval_policy r) (req_permission_profile r) (req_windows_sandbox_level r) (req_sandbox_permissions r)
       (commands_for_exec_policy (req_command r)).2).

Definition requirement_of (exec_policy : Policy) (r : ExecApprovalRequest) (commands : list (list str)) (auto_amendment_allowed : bool)
    (e : Evaluation) : ExecApprovalRequirement :=
  let requested_amendment :=
    if auto_amendment_allowed then
      derive_requested_execpolicy_amendment_from_prefix_rule (req_prefix_rule r) (matched_rules e) exec_policy commands (unmatched r) host_options
    else None in
  match decision e with
  | Forbidden => ForbiddenExec (derive_forbidden_reason (req_command r) e (dangerous_command_match_for_heuristics e Forbidden))
  | Prompt =>
      let prompt_is_rule := existsb (policy_match_with Prompt) (matched_rules e) in
      match prompt_is_rejected_by_policy (req_approval_policy r) prompt_is_rule with
      | Some reason =>
          ForbiddenExec (if prompt_is_rule then reason
                         else derive_rejected_prompt_reason reason (dangerous_command_match_for_heuristics e Prompt))
      | None =>
          NeedsApproval (derive_prompt_reason (req_command r) e)
            (match requested_amendment with
             | Some a => Some a
             | None => if auto_amendment_allowed then try_derive_execpolicy_amendment_for_prompt_rules (matched_rules e) else None
             end)
      end
  | Allow =>
      SkipApproval
        (forallb (fun command =>
             existsb (policy_match_with Allow) (matches_for_command_with_options exec_policy command None host_options))
           commands)
        (if auto_amendment_allowed then try_derive_execpolicy_amendment_for_allow_rules (matched_rules e) else None)
  end.

(** [create_exec_approval_requirement_for_command], for the current policy of the manager. *)
Definition create_exec_approval_requirement_for_command (policy : Policy) (r : ExecApprovalRequest) : result ExecApprovalRequirement PolicyError :=
  let exec_policy := current_for_prefix_rules policy (req_allow_prefix_rules r) in
  let '(commands, used_complex_parsing) := commands_for_exec_policy (req_command r) in
  let auto_amendment_allowed := negb used_complex_parsing && honors (req_allow_prefix_rules r) in
  let? e := check_multiple_with_options exec_policy commands (unmatched r) host_options in
  Ok (requirement_of exec_policy r commands auto_amendment_allowed e).

(** ** Amending the policy *)

Inductive ExecPolicyUpdateError : Type :=
| AppendRule (source : str)
| JoinBlockingTask (source : str)
| AddRule (source : PolicyError).

(** [append_amendment_and_update], after the rule was written to the policy file or not: the new
    policy of the manager, with the error.  The policy file comes first. *)
Definition append_amendment_and_update (appended : option ExecPolicyUpdateError) (a : ExecPolicyAmendment) (policy : Policy) :
    Policy * result unit ExecPolicyUpdateError :=
  match appended with
  | Some err => (policy, Err err)
  | None =>
      match check_multiple_with_options policy [amendment_command a] (fun _ => Forbidden) host_options with
      | Ok existing =>
          if bool_decide (decision existing = Allow) && existsb (policy_match_with Allow) (matched_rules existing) then (policy, Ok tt)
          else match add_prefix_rule (amendment_command a) Allow policy with
               | Ok updated => (updated, Ok tt)
               | Err source => (policy, Err (AddRule source))
               | Panic => (policy, Panic)
               end
      | _ => (policy, Panic)
      end
  end.

Definition append_network_rule_and_update (appended : option ExecPolicyUpdateError) (host : str) (protocol : NetworkRuleProtocol)
    (d : Decision) (justification : option str) (policy : Policy) : Policy * result unit ExecPolicyUpdateError :=
  match appended with
  | Some err => (policy, Err err)
  | None =>
      match add_network_rule host protocol d justification policy with
      | Ok updated => (updated, Ok tt)
      | Err source => (policy, Err (AddRule source))
      | Panic => (policy, Panic)
      end
  end.

End exec_policy.

(** ** Evaluation of the commands of a request *)

Section evaluation.
Context `{Target} `{BashParser} `{Host}.

Lemma rule_matches_is_policy rule cmd m : rule_matches rule cmd = Some m -> is_policy_match m = true.
Proof. unfold rule_matches. destruct (matches_prefix _ _); [|done]. by intros [= <-]. Qed.

Lemma policy_matches_are_rules p cmd o m : m ∈ policy_matches p cmd o -> is_policy_match m = true.
Proof.
  assert (Hexact : forall (rules : list PrefixRule) c, m ∈ omap (fun rule => rule_matches rule c) rules -> is_policy_match m = true).
  { intros rules c (rule & _ & Hr)%list_elem_of_omap. by eapply rule_matches_is_policy. }
  assert (Hhost : m ∈ match_host_executable_rules p cmd -> is_policy_match m = true).
  { unfold match_host_executable_rules. destruct cmd as [|first args]; [by intros ?%elem_of_nil|]. repeat case_match; try (by intros ?%elem_of_nil).
    all: intros (m' & -> & (rule & _ & Hr)%list_elem_of_omap)%list_elem_of_fmap; apply rule_matches_is_policy in Hr; by destruct m'. }
  unfold policy_matches. destruct (match_exact_rules p cmd) as [[|x l]|] eqn:Ee.
  - destruct (resolve_host_executables o); [done|by intros ?%elem_of_nil].
  - unfold match_exact_rules in Ee. destruct cmd as [|first args]; [done|]. injection Ee as Ee. rewrite <- Ee. apply Hexact.
  - destruct (resolve_host_executables o); [done|by intros ?%elem_of_nil].
Qed.

(** The matches of a command with a fallback: those of the rules, or the fallback alone. *)
Lemma matches_with_fallback p cmd f o m :
  m ∈ matches_for_command_with_options p cmd (Some f) o <->
  m ∈ policy_matches p cmd o \/ policy_matches p cmd o = [] /\ m = HeuristicsRuleMatch cmd (f cmd).
Proof.
  unfold matches_for_command_with_options. destruct (policy_matches p cmd o) as [|x l]; simpl.
  - rewrite list_elem_of_singleton, elem_of_nil. naive_solver.
  - naive_solver.
Qed.

Lemma commands_nonempty command : (commands_for_exec_policy command).1 <> [].
Proof.
  unfold commands_for_exec_policy. destruct (parse_shell_lc_plain_commands command) as [[|]|]; [|done|];
    by destruct (parse_shell_lc_single_command_prefix command).
Qed.

(** What the evaluation of a list of commands is. *)
Lemma evaluation_total p commands f o :
  commands <> [] ->
  exists e, check_multiple_with_options p commands f o = Ok e /\ strictest (matched_rules e) (decision e) /\
    (forall m, m ∈ matched_rules e <-> exists cmd, cmd ∈ commands /\ m ∈ matches_for_command_with_options p cmd (Some f) o).
Proof.
  intros Hne. pose proof (check_multiple_strictest p commands f o) as Hs.
  destruct (check_multiple_with_options p commands f o) as [e|?|]; [|done..]. destruct Hs as (_ & Hm & Hs & _).
  exists e. split_and!; [done..|]. intros m. rewrite Hm, list_elem_of_join. split.
  - intros (l & Hin & (cmd & -> & Hc)%list_elem_of_fmap). by exists cmd.
  - intros (cmd & Hc & Hin). eexists. split; [exact Hin|]. by apply (list_elem_of_fmap_2 (fun cmd => matches_for_command_with_options p cmd (Some f) o)).
Qed.

Lemma strictest_allow matched : strictest matched Allow -> forall m, m ∈ matched -> match_decision m = Allow.
Proof. intros [_ Hb] m Hm. specialize (Hb m Hm). destruct (match_decision m); simpl in *; [done|lia..]. Qed.

Lemma strictest_not_forbidden matched d m :
  strictest matched d -> m ∈ matched -> match_decision m = Forbidden -> d = Forbidden.
Proof. intros [_ Hb] Hm Hd. specialize (Hb m Hm). rewrite Hd in Hb. destruct d; simpl in *; [lia..|done]. Qed.

Lemma policy_match_with_spec d m : policy_match_with d m = true <-> is_policy_match m = true /\ match_decision m = d.
Proof. unfold policy_match_with. by rewrite andb_true_iff, bool_decide_eq_true. Qed.

(** How an unmatched dangerous command is judged. *)
Lemma dangerous_unmatched r cmd m :
  dangerous_command_match cmd = Some m -> is_known_safe_command cmd = false ->
  unmatched r cmd = match req_approval_policy r with Never => Forbidden | _ => Prompt end.
Proof. intros Hd Hs. unfold unmatched, render_decision_for_unmatched_command. rewrite Hs, Hd. simpl. by destruct (req_approval_policy r). Qed.

End evaluation.

(** ** Properties *)

(** C9: a command runs without approval only if policy and heuristics agree.  Every request gets a
    requirement.  If approval is skipped, then every rule that matches a command of the request
    allows it, and a command that no rule matches is allowed by the heuristics; the sandbox is
    bypassed only if each command is allowed by a rule of its own.  A rule that forbids one of the
    commands forbids the request.  A dangerous command that no rule matches is never run without
    approval, and is forbidden where no one may be asked.  Where the policy is never to ask, no
    approval is required. *)
Theorem approval_is_skipped_only_when_allowed `{Target} `{BashParser} `{Host} (policy : Policy) (r : ExecApprovalRequest) :
  exists requirement, create_exec_approval_requirement_for_command policy r = Ok requirement /\
  let rules := current_for_prefix_rules policy (req_allow_prefix_rules r) in
  let commands := (commands_for_exec_policy (req_command r)).1 in
  (forall bypass proposed, requirement = SkipApproval bypass proposed -> forall cmd, cmd ∈ commands ->
     (forall m, m ∈ policy_matches rules cmd host_options -> match_decision m = Allow) /\
     (policy_matches rules cmd host_options = [] -> unmatched r cmd = Allow) /\
     (bypass = true -> exists m, m ∈ policy_matches rules cmd host_options /\ match_decision m = Allow)) /\
  (forall cmd m, cmd ∈ commands -> m ∈ policy_matches rules cmd host_options -> match_decision m = Forbidden ->
     exists reason, requirement = ForbiddenExec reason) /\
  (forall cmd danger, cmd ∈ commands -> policy_matches rules cmd host_options = [] ->
     dangerous_command_match cmd = Some danger -> is_known_safe_command cmd = false ->
     match requirement with
     | SkipApproval _ _ => False
     | NeedsApproval _ _ => req_approval_policy r <> Never
     | ForbiddenExec _ => True
     end) /\
  (req_approval_policy r = Never -> forall reason proposed, requirement <> NeedsApproval reason proposed).
Proof.
  unfold create_exec_approval_requirement_for_command. pose proof (commands_nonempty (req_command r)) as Hne.
  destruct (commands_for_exec_policy (req_command r)) as [commands complex] eqn:Ec. simpl in Hne.
  set (rules := current_for_prefix_rules policy (req_allow_prefix_rules r)).
  destruct (evaluation_total rules commands (unmatched r) host_options Hne) as (e & -> & Hs & Hm).
  eexists. split; [reflexivity|]. cbv zeta. simpl ((commands, complex).1). unfold requirement_of.
  assert (Hin : forall cmd m, cmd ∈ commands -> m ∈ policy_matches rules cmd host_options -> m ∈ matched_rules e).
  { intros cmd m Hc Hp. apply Hm. exists cmd. split; [done|]. apply matches_with_fallback. by left. }
  assert (Hheur : forall cmd, cmd ∈ commands -> policy_matches rules cmd host_options = [] -> HeuristicsRuleMatch cmd (unmatched r cmd) ∈ matched_rules e).
  { intros cmd Hc Hp. apply Hm. exists cmd. split; [done|]. apply matches_with_fallback. by right. }
  split_and!.
  - intros bypass proposed Hskip cmd Hc. destruct (decision e) eqn:Ed; [|by destruct (prompt_is_rejected_by_policy _ _)|done].
    injection Hskip as Hb _. pose proof (strictest_allow _ Hs) as Hall. split_and!.
    + intros m Hp. by apply Hall, (Hin cmd).
    + intros Hp. apply (Hall _ (Hheur cmd Hc Hp)).
    + intros ->. rewrite forallb_forall in Hb. specialize (Hb cmd (proj1 (list_elem_of_In _ _) Hc)). simpl in Hb.
      apply existsb_elem in Hb as (m & Hmi & [_ Hd]%policy_match_with_spec). by exists m.
  - intros cmd m Hc Hp Hd. rewrite (strictest_not_forbidden _ _ m Hs) by (eauto). by eexists.
  - intros cmd danger Hc Hp Hd Hsafe. pose proof (Hheur cmd Hc Hp) as Hh. rewrite (dangerous_unmatched r cmd danger Hd Hsafe) in Hh.
    destruct (decision e) eqn:Ed; [| |done].
    + pose proof (strictest_allow _ Hs _ Hh) as Hx. simpl in Hx. by destruct (req_approval_policy r).
    + destruct (req_approval_policy r) eqn:Er; simpl; try done; by repeat case_match.
  - intros Hnever reason proposed. rewrite Hnever. by destruct (decision e).
Qed.

(** ** Amendments *)

(** A file name is not an absolute path. *)
Class HostLaws `{Host} := {
  lookup_key_not_absolute path name : executable_path_lookup_key path = Some name -> absolute_path_try_from name = None
}.

Section amendments.
Context `{Target} `{BashParser} `{HostLaws}.

Definition fits (rule : PrefixRule) (cmd : list str) : Prop := is_Some (matches_prefix (rule_pattern rule) cmd).
Definition rules_of (p : Policy) (name : str) : list PrefixRule := default [] (rules_by_program p !! name).

(** A rule for the program as it is spelt, and one for the program that a path leads to. *)
Definition exact_rule (p : Policy) (cmd : list str) : Prop :=
  exists c args rule, cmd = c :: args /\ rule ∈ rules_of p c /\ fits rule cmd.
Definition host_rule (p : Policy) (cmd : list str) : Prop :=
  exists c args program name rule, cmd = c :: args /\ absolute_path_try_from c = Some program /\
    executable_path_lookup_key program = Some name /\ rule ∈ rules_of p name /\ fits rule (name :: args) /\
    (forall paths, host_executables_by_name p !! name = Some paths -> program ∈ paths).

Lemma fits_app rule cmd args : fits rule cmd -> fits rule (cmd ++ args).
Proof.
  intros [pre (toks & args' & -> & -> & HF)%matches_prefix_Some]. exists (pattern_first (rule_pattern rule) :: toks).
  apply matches_prefix_Some. exists toks, (args' ++ args). split_and!; [|done..]. simpl. by rewrite (assoc (++)).
Qed.

Lemma rule_matches_fits rule cmd : is_Some (rule_matches rule cmd) <-> fits rule cmd.
Proof. unfold rule_matches, fits. destruct (matches_prefix _ _); split; intros Hx; try done; by eexists. Qed.

Lemma omap_nonempty {A B} (f : A -> option B) l : omap f l <> [] <-> exists x, x ∈ l /\ is_Some (f x).
Proof.
  split.
  - intros Hne. destruct (omap f l) as [|y k] eqn:E; [done|]. assert (Hy : y ∈ omap f l) by (rewrite E; by left).
    apply list_elem_of_omap in Hy as (x & Hx & Hf). exists x. by rewrite Hf.
  - intros (x & Hx & y & Hf) Hnil. eapply (not_elem_of_nil y). rewrite <- Hnil. apply list_elem_of_omap. by exists x.
Qed.

Lemma exact_matches_spec p cmd : (exists m l, match_exact_rules p cmd = Some (m :: l)) <-> exact_rule p cmd.
Proof.
  unfold match_exact_rules, exact_rule. destruct cmd as [|c args]; [naive_solver|].
  pose proof (omap_nonempty (fun rule => rule_matches rule (c :: args)) (default [] (rules_by_program p !! c))) as Hn.
  setoid_rewrite rule_matches_fits in Hn. split.
  - intros (m & l & [= Hl]). exists c, args. rewrite Hl in Hn. destruct (proj1 Hn ltac:(done)) as (rule & ? & ?). by exists rule.
  - intros (c' & args' & rule & [= <- <-] & Hr & Hf). destruct (omap _ _) as [|m l]; [|by exists m, l]. exfalso. apply (proj2 Hn); [by exists rule|done].
Qed.

Lemma host_matches_spec p cmd : match_host_executable_rules p cmd <> [] <-> host_rule p cmd.
Proof.
  unfold match_host_executable_rules, host_rule, rules_of. destruct cmd as [|c args]; [naive_solver|].
  destruct (absolute_path_try_from c) as [program|] eqn:Ea; [|naive_solver].
  destruct (executable_path_lookup_key program) as [name|] eqn:Ek; [|naive_solver].
  destruct (rules_by_program p !! name) as [rules|] eqn:Er.
  2: { split; [done|]. intros (c' & args' & program' & name' & rule & [= <- <-] & Ha & Hk & Hr & _).
       simplify_eq. rewrite Er in Hr. simpl in Hr. by apply elem_of_nil in Hr. }
  assert (Hallowed : match host_executables_by_name p !! name with
      | Some paths => negb (existsb (fun path => str_eqb path program) paths) | None => false end = false <->
      (forall paths, host_executables_by_name p !! name = Some paths -> program ∈ paths)).
  { destruct (host_executables_by_name p !! name) as [paths|]; [|naive_solver]. rewrite negb_false_iff, existsb_elem.
    unfold str_eqb. setoid_rewrite bool_decide_eq_true. naive_solver. }
  split.
  - destruct (match host_executables_by_name p !! name with Some _ => _ | None => _ end); [done|]. intros Hne.
    assert (Ho : omap (fun rule => rule_matches rule (name :: args)) rules <> []) by (intros Hx; by rewrite Hx in Hne).
    apply omap_nonempty in Ho as (rule & Hr & Hf%rule_matches_fits). exists c, args, program, name, rule.
    rewrite Er. split_and!; try done. by apply Hallowed.
  - intros (c' & args' & program' & name' & rule & [= <- <-] & Ha & Hk & Hr & Hf & Hp). simplify_eq. rewrite Er in Hr.
    apply Hallowed in Hp as ->. intros Hnil%fmap_nil_inv. revert Hnil. apply omap_nonempty. exists rule. split; [done|].
    by apply rule_matches_fits.
Qed.

(** The rules that match a command are those for its spelling or else those for its program. *)
Lemma policy_matches_spec p cmd : policy_matches p cmd host_options <> [] <-> exact_rule p cmd \/ host_rule p cmd.
Proof.
  unfold policy_matches. rewrite <- exact_matches_spec, <- host_matches_spec. simpl.
  destruct (match_exact_rules p cmd) as [[|m l]|]; naive_solver.
Qed.

(** The rule that an amendment adds. *)
Definition allow_rule (first : str) (rest : list str) : PrefixRule := mkRule (mkPattern first (Single <$> rest)) Allow None.

Lemma allow_rule_fits first rest cmd : fits (allow_rule first rest) cmd <-> first :: rest `prefix_of` cmd.
Proof.
  unfold fits. split.
  - intros [pre (toks & args & -> & _ & HF)%matches_prefix_Some]. exists args. simpl in *. f_equal. f_equal.
    apply Forall2_fmap_l in HF. induction HF as [|x y l k Hxy HF IH]; [done|]. simpl in Hxy. apply list_elem_of_singleton in Hxy as ->.
    by f_equal.
  - intros [args ->]. exists (first :: rest). apply matches_prefix_Some. exists rest, args. split_and!; [done..|].
    apply Forall2_fmap_l, Forall_Forall2_diag, Forall_true. intros x. simpl. by apply list_elem_of_singleton.
Qed.

Lemma added_rules_of p p' first rest name rule :
  add_prefix_rule (first :: rest) Allow p = Ok p' ->
  rule ∈ rules_of p' name <-> rule ∈ rules_of p name \/ name = first /\ rule = allow_rule first rest.
Proof.
  intros [= <-]. unfold rules_of. simpl. rewrite multimap_insert_lookup, elem_of_app.
  case_decide; [rewrite list_elem_of_singleton|rewrite elem_of_nil]; naive_solver.
Qed.

Lemma prefix_extends {A} (l k : list A) : l `prefix_of` k -> exists m, k = l ++ m.
Proof. intros [m ->]. by exists m. Qed.

(** A rule that is new to a command was not there for the amendment either: whatever rule matches
    the amendment would match the commands that start with it. *)
Lemma amendment_is_new p p' a cmd :
  add_prefix_rule a Allow p = Ok p' -> policy_matches p cmd host_options = [] -> policy_matches p' cmd host_options <> [] ->
  policy_matches p a host_options = [].
Proof.
  intros Hadd Hnone Hsome. destruct a as [|first rest]; [done|].
  assert (Hno : ~ (exact_rule p cmd \/ host_rule p cmd)) by (rewrite <- policy_matches_spec, Hnone; intros Hx; by apply Hx).
  assert (Hhosts : host_executables_by_name p' = host_executables_by_name p) by (by injection Hadd as <-).
  apply policy_matches_spec in Hsome.
  destruct (decide (policy_matches p (first :: rest) host_options = [])) as [|Hne]; [done|exfalso].
  apply policy_matches_spec in Hne. apply Hno. destruct Hsome as [(c & args & rule & -> & Hr & Hf)|(c & args & program & name & rule & -> & Ha & Hk & Hr & Hf & Hp)].
  - apply (added_rules_of _ _ _ _ _ _ Hadd) in Hr as [Hr|[-> ->]]; [left; by exists c, args, rule|].
    apply allow_rule_fits in Hf as [more Hargs]. injection Hargs as ->.
    destruct Hne as [(c' & args' & rule & [= <- <-] & Hr & Hf)|(c' & args' & program & name & rule & [= <- <-] & Ha & Hk & Hr & Hf & Hp)].
    + left. exists first, (rest ++ more), rule. split_and!; [done..|]. by apply (fits_app rule (first :: rest)).
    + right. exists first, (rest ++ more), program, name, rule. split_and!; try done. by apply (fits_app rule (name :: rest)).
  - apply (added_rules_of _ _ _ _ _ _ Hadd) in Hr as [Hr|[-> ->]].
    { right. exists c, args, program, name, rule. rewrite Hhosts in Hp. done. }
    apply allow_rule_fits in Hf as [more Hargs]. injection Hargs as ->. right.
    destruct Hne as [(c' & args' & rule & [= <- <-] & Hr & Hf)|(c' & args' & program' & name & rule & [= <- <-] & Ha' & _)].
    + exists c, (rest ++ more), program, first, rule. rewrite Hhosts in Hp. split_and!; try done. by apply (fits_app rule (first :: rest)).
    + by rewrite (lookup_key_not_absolute program first Hk) in Ha'.
Qed.

Lemma check_allows p cmd f e :
  check_with_options p cmd f host_options = Ok e -> decision e = Allow ->
  forall m, m ∈ matches_for_command_with_options p cmd (Some f) host_options -> match_decision m = Allow.
Proof. intros (_ & _ & Hs)%from_matches_Ok Hd. rewrite Hd in Hs. by apply strictest_allow. Qed.

(** Where every command is allowed, approval is skipped. *)
Lemma all_allowed_skip p r :
  (forall cmd m, cmd ∈ (commands_for_exec_policy (req_command r)).1 ->
     m ∈ matches_for_command_with_options (current_for_prefix_rules p (req_allow_prefix_rules r)) cmd (Some (unmatched r)) host_options ->
     match_decision m = Allow) ->
  exists bypass proposed, create_exec_approval_requirement_for_command p r = Ok (SkipApproval bypass proposed).
Proof.
  intros Hall. unfold create_exec_approval_requirement_for_command. pose proof (commands_nonempty (req_command r)) as Hne.
  destruct (commands_for_exec_policy (req_command r)) as [commands complex]. simpl in *.
  destruct (evaluation_total (current_for_prefix_rules p (req_allow_prefix_rules r)) commands (unmatched r) host_options Hne) as (e & -> & Hs & Hm).
  unfold requirement_of. assert (Hd : decision e = Allow).
  { destruct Hs as [(m & (cmd & Hc & Hin)%Hm & <-) _]. by eapply Hall. }
  rewrite Hd. by eexists _, _.
Qed.

(** No rule matches where the matches of an evaluation are all heuristics. *)
Lemma no_policy_matches p (commands : list (list str)) f e cmd :
  (forall m, m ∈ matched_rules e <-> exists cmd, cmd ∈ commands /\ m ∈ matches_for_command_with_options p cmd (Some f) host_options) ->
  existsb is_policy_match (matched_rules e) = false -> cmd ∈ commands -> policy_matches p cmd host_options = [].
Proof.
  intros Hm Hno Hc. destruct (policy_matches p cmd host_options) as [|m l] eqn:E; [done|exfalso].
  assert (Hr : is_policy_match m = true) by (eapply policy_matches_are_rules; rewrite E; by left).
  rewrite existsb_elem_false in Hno. rewrite Hno in Hr; [done|].
  apply Hm. exists cmd. split; [done|]. apply matches_with_fallback. left. rewrite E. by left.
Qed.

Lemma find_map_Some {A B} (f : A -> option B) l b : find_map f l = Some b -> exists x, x ∈ l /\ f x = Some b.
Proof.
  induction l as [|x l IH]; simpl; [done|]. destruct (f x) eqn:E.
  - intros [= <-]. exists x. split; [by left|done].
  - intros (y & Hy & Hf)%IH. exists y. split; [by right|done].
Qed.

(** A request that proposes an amendment with its prompt has a command that only the heuristics
    prompt for. *)
Lemma proposed_amendment_inv p r reason a :
  create_exec_approval_requirement_for_command p r = Ok (NeedsApproval reason (Some a)) ->
  honors (req_allow_prefix_rules r) = true /\
  exists cmd, cmd ∈ (commands_for_exec_policy (req_command r)).1 /\ policy_matches p cmd host_options = [] /\ unmatched r cmd = Prompt.
Proof.
  unfold create_exec_approval_requirement_for_command. pose proof (commands_nonempty (req_command r)) as Hne.
  destruct (commands_for_exec_policy (req_command r)) as [commands complex]. simpl (_.1) in *.
  destruct (evaluation_total (current_for_prefix_rules p (req_allow_prefix_rules r)) commands (unmatched r) host_options Hne) as (e & -> & Hs & Hm).
  unfold requirement_of. destruct (decision e) eqn:Ed; [done| |done].
  destruct (prompt_is_rejected_by_policy _ _); [done|]. intros [= _ Ha].
  destruct (negb complex && honors (req_allow_prefix_rules r)) eqn:Eauto; [|done].
  apply andb_true_iff in Eauto as [_ Hh]. split; [done|].
  assert (Hcur : current_for_prefix_rules p (req_allow_prefix_rules r) = p) by (unfold current_for_prefix_rules; by rewrite Hh).
  rewrite Hcur in *.
  assert (Hnorule : existsb (policy_match_with Prompt) (matched_rules e) = false).
  { destruct (derive_requested_execpolicy_amendment_from_prefix_rule _ _ _ _ _ _) as [a'|] eqn:Er.
    - unfold derive_requested_execpolicy_amendment_from_prefix_rule in Er. destruct (req_prefix_rule r) as [rule|]; [|done]. simpl in Er.
      destruct (is_empty rule), (is_banned rule), (existsb is_policy_match (matched_rules e)) eqn:Ep; try done.
      rewrite existsb_elem_false in Ep |- *. intros m Hin. unfold policy_match_with. by rewrite Ep.
    - unfold try_derive_execpolicy_amendment_for_prompt_rules in Ha. by destruct (existsb _ _). }
  destruct Hs as [(m & Hin & Hd) _]. pose proof Hin as (cmd & Hc & Hmm)%Hm. exists cmd. split; [done|].
  rewrite existsb_elem_false in Hnorule. apply Hnorule in Hin. apply matches_with_fallback in Hmm as [Hp|[Hp ->]].
  - assert (policy_match_with Prompt m = true); [|congruence]. apply policy_match_with_spec. split; [by eapply policy_matches_are_rules|done].
  - done.
Qed.

(** The matches of an amendment's own words, once it is entered. *)
Lemma amended_matches p p' first rest :
  add_prefix_rule (first :: rest) Allow p = Ok p' -> policy_matches p (first :: rest) host_options = [] ->
  policy_matches p' (first :: rest) host_options = [PrefixRuleMatch (first :: rest) Allow None None].
Proof.
  intros Hadd Hnone. assert (Hex : ~ exact_rule p (first :: rest)).
  { intros Hx. revert Hnone. apply policy_matches_spec. by left. }
  injection Hadd as <-. unfold policy_matches. simpl. rewrite multimap_insert_lookup, decide_True, omap_app by done.
  destruct (omap (fun rule => rule_matches rule (first :: rest)) (default [] (rules_by_program p !! first))) as [|m l] eqn:Eo.
  - simpl. unfold rule_matches. assert (matches_prefix (mkPattern first (Single <$> rest)) (first :: rest) = Some (first :: rest)) as Hm.
    { destruct (proj2 (allow_rule_fits first rest (first :: rest))) as [pre Hpre]; [done|]. pose proof Hpre as Hp. simpl in Hp.
      apply matches_prefix_Some in Hp as (toks & args & [= Hc] & -> & HF). simpl in HF. apply Forall2_fmap_l, Forall2_length in HF.
      assert (args = []) as -> by (apply (f_equal length) in Hc; rewrite length_app in Hc; destruct args; [done|simpl in Hc; lia]).
      rewrite app_nil_r in Hc. subst toks. exact Hpre. }
    simpl. by rewrite Hm.
  - destruct Hex. apply exact_matches_spec. simpl. rewrite Eo. by eexists _, _.
Qed.

End amendments.

(** An accepted amendment settles the question.  Let a request need approval, and propose an
    amendment that the request itself asked for, or one for its only command.  When the amendment
    is accepted and entered, the same request no longer needs approval; the update cannot fail
    after the policy file was written.  In particular the shortcut that leaves the policy alone
    when the amendment's prefix is allowed already is never taken here. *)
Theorem accepted_amendment_settles_request `{Target} `{BashParser} `{HostLaws} (policy : Policy) (r : ExecApprovalRequest) reason a :
  create_exec_approval_requirement_for_command policy r = Ok (NeedsApproval reason (Some a)) ->
  amendment_command a <> [] ->
  (req_prefix_rule r = Some (amendment_command a) /\
   prefix_rule_would_approve_all_commands policy (amendment_command a) (commands_for_exec_policy (req_command r)).1 (unmatched r) host_options = true
   \/ (commands_for_exec_policy (req_command r)).1 = [amendment_command a]) ->
  exists policy', append_amendment_and_update None a policy = (policy', Ok tt) /\ policy' <> policy /\
    exists bypass proposed, create_exec_approval_requirement_for_command policy' r = Ok (SkipApproval bypass proposed).
Proof.
  intros Hc Hne Hcase. destruct (proposed_amendment_inv _ _ _ _ Hc) as (Hh & cmd & Hcmd & Hnone & Hprompt).
  destruct a as [[|first rest]]; [done|]. simpl (amendment_command _) in *.
  destruct (add_prefix_rule (first :: rest) Allow policy) as [policy'|?|] eqn:Eadd; [|done..].
  assert (Hcur : current_for_prefix_rules policy' (req_allow_prefix_rules r) = policy') by (unfold current_for_prefix_rules; by rewrite Hh).
  (* Under the amended policy all commands are allowed, and the words of the amendment were not matched before. *)
  assert (policy_matches policy (first :: rest) host_options = [] /\ policy_matches policy' cmd host_options <> [] /\
    forall c m, c ∈ (commands_for_exec_policy (req_command r)).1 ->
      m ∈ matches_for_command_with_options policy' c (Some (unmatched r)) host_options -> match_decision m = Allow) as (Hnew & Hdiff & Hall).
  { destruct Hcase as [[_ Hwould]|Honly].
    - unfold prefix_rule_would_approve_all_commands in Hwould. rewrite Eadd in Hwould. rewrite forallb_forall in Hwould.
      assert (Hallow : forall c m, c ∈ (commands_for_exec_policy (req_command r)).1 ->
        m ∈ matches_for_command_with_options policy' c (Some (unmatched r)) host_options -> match_decision m = Allow).
      { intros c m Hin. specialize (Hwould c (proj1 (list_elem_of_In _ _) Hin)).
        destruct (check_with_options policy' c (unmatched r) host_options) as [e|?|] eqn:Ee; [|done..].
        apply bool_decide_eq_true in Hwould. by apply (check_allows _ _ _ e). }
      assert (Hd : policy_matches policy' cmd host_options <> []).
      { intros Hx. assert (Hp : match_decision (HeuristicsRuleMatch cmd (unmatched r cmd)) = Allow).
        { apply (Hallow cmd); [done|]. apply matches_with_fallback. by right. }
        simpl in Hp. congruence. }
      split_and!; [|done..]. by apply (amendment_is_new policy policy' (first :: rest) cmd).
    - rewrite Honly in Hcmd. apply list_elem_of_singleton in Hcmd as ->. rewrite Honly.
      pose proof (amended_matches _ _ _ _ Eadd Hnone) as Hm. split_and!; [done|by rewrite Hm|].
      intros c m ->%list_elem_of_singleton. rewrite matches_with_fallback, Hm. intros [->%list_elem_of_singleton|[? _]]; done. }
  exists policy'. split; [|split; [by intros ->|]].
  - unfold append_amendment_and_update. simpl (amendment_command _).
    destruct (evaluation_total policy [first :: rest] (fun _ => Forbidden) host_options) as (e & -> & Hs & Hm); [done|].
    replace (decision e) with Forbidden; [by rewrite Eadd|].
    destruct Hs as [(m & (c & ->%list_elem_of_singleton & [Hp|[_ ->]]%matches_with_fallback)%Hm & <-) _]; [|done].
    rewrite Hnew in Hp. by apply elem_of_nil in Hp.
  - apply all_allowed_skip. by rewrite Hcur.
Qed.

(** ** Examples *)

#[local] Instance linux : Target := {| target_linux := true |}.
#[local] Instance no_scripts : BashParser := {| try_parse_shell _ := None |}.
#[local] Instance plain_host : Host := {|
  cfg_windows := false;
  absolute_path_try_from s := if starts_with [slash_char] s then Some s else None;
  path_file_name s := n ← snd <$> rsplit_once slash_char s; if starts_with [slash_char] n then None else Some n;
  try_join c := Some (join (lit " ") c);
  debug_rule _ := [];
  debug_match _ := []
|}.
#[local] Instance plain_host_laws : HostLaws.
Proof.
  split. intros path name. unfold executable_path_lookup_key, executable_lookup_key. simpl.
  destruct (rsplit_once slash_char path) as [[d n]|]; simpl; [|done]. destruct (starts_with [slash_char] n) eqn:E; simpl; [done|].
  intros [= <-]. by rewrite E.
Qed.

Definition restricted_profile : PermissionProfile := Managed (ManagedRestricted [] None) NetRestricted.

Definition sample_request (policy : AskForApproval) (permissions : SandboxPermissions) (command : list str) : ExecApprovalRequest :=
  mkRequest command policy restricted_profile LevelDisabled permissions (Some [lit "cargo"]) Honor.

Definition cargo_build : list str := [lit "cargo"; lit "build"].

Lemma accepted_amendment_settles_request_witness :
  create_exec_approval_requirement_for_command policy_empty (sample_request OnRequest RequireEscalated cargo_build) =
    Ok (NeedsApproval None (Some (mkAmendment [lit "cargo"]))) /\
  exists policy', append_amendment_and_update None (mkAmendment [lit "cargo"]) policy_empty = (policy', Ok tt) /\
    exists bypass proposed,
      create_exec_approval_requirement_for_command policy' (sample_request OnRequest RequireEscalated cargo_build) = Ok (SkipApproval bypass proposed).
Proof.
  assert (Hc : create_exec_approval_requirement_for_command policy_empty (sample_request OnRequest RequireEscalated cargo_build) =
    Ok (NeedsApproval None (Some (mkAmendment [lit "cargo"])))) by by vm_compute.
  split; [exact Hc|].
  destruct (accepted_amendment_settles_request policy_empty (sample_request OnRequest RequireEscalated cargo_build) None (mkAmendment [lit "cargo"]) Hc)
    as (policy' & Hu & _ & Hs).
  - done.
  - left. split; [done|]. by vm_compute.
  - by exists policy'.
Defined.

(** A forced removal is put to the user, or refused where no one may be asked; a command that is
    known to be safe and one that stays in the sandbox run at once; a forbidding rule is final. *)
Lemma requirements_for_commands :
  let rm := [lit "rm"; lit "-rf"; lit "/"] in
  create_exec_approval_requirement_for_command policy_empty (sample_request OnRequest UseDefault rm) =
    Ok (NeedsApproval None (Some (mkAmendment rm))) /\
  create_exec_approval_requirement_for_command policy_empty (sample_request Never UseDefault rm) =
    Ok (ForbiddenExec (tick ++ lit "rm -rf /" ++ tick ++ lit " rejected: rm -f style commands are not permitted. Use a safer approach")) /\
  create_exec_approval_requirement_for_command policy_empty (sample_request UnlessTrusted UseDefault [lit "ls"]) =
    Ok (SkipApproval false (Some (mkAmendment [lit "ls"]))) /\
  create_exec_approval_requirement_for_command policy_empty (sample_request OnRequest UseDefault cargo_build) =
    Ok (SkipApproval false (Some (mkAmendment cargo_build))) /\
  (let? p := add_prefix_rule [lit "cargo"] Forbidden policy_empty in
   create_exec_approval_requirement_for_command p (sample_request OnRequest UseDefault cargo_build)) =
    Ok (ForbiddenExec (tick ++ lit "cargo build" ++ tick ++ lit " rejected: policy forbids commands starting with " ++ tick ++ lit "cargo" ++ tick)).
Proof. split_and!; by vm_compute. Qed.
