(* ===== verification/Orchestrator.v ===== *)
(** * Running a tool: [core/src/tools/orchestrator.rs]

    A tool call is approved, run under a sandbox, and run again in a wider one when the sandbox
    denied it and the user agrees.  The orchestrator is a program over the requests it makes of
    its surroundings: to ask for an approval, to run the tool, to begin and end the approval of
    network access.  A run is a program's result together with the requests and answers that led
    to it, whatever the answers are; the theorems speak of all runs.  Telemetry is left out. *)

From stdpp Require Import base list strings.
From S2P Require Import NetRuntime.
From S2P Require Import Prelude FileSystem AbsPath FsPolicy FsUpdates FsRoots Profiles Approvals PatchSafety.

(** ** Network approvals *)

Inductive NetworkApprovalProtocol : Type := ApproveHttp | ApproveHttps | ApproveSocks5Tcp | ApproveSocks5Udp.

Record NetworkPolicyDecisionPayload := mkPayload {
  payload_decision : NetworkPolicyDecision;
  payload_source : NetworkDecisionSource;
  payload_protocol : option NetworkApprovalProtocol;
  payload_host : option str
}.

Record NetworkApprovalContext := mkNetworkContext { context_host : str; context_protocol : NetworkApprovalProtocol }.

Definition is_ask_from_decider (p : NetworkPolicyDecisionPayload) : bool :=
  match payload_decision p, payload_source p with PolicyAsk, Decider => true | _, _ => false end.

Definition network_approval_context_from_payload (p : NetworkPolicyDecisionPayload) : option NetworkApprovalContext :=
  if negb (is_ask_from_decider p) then None
  else
    protocol ← payload_protocol p;
    host ← payload_host p;
    if is_empty (trim host) then None else Some (mkNetworkContext (trim host) protocol).

(** ** Errors and approvals *)

(** [CodexErr], as far as it is told apart: what the sandbox did, and the rest. *)
Inductive CodexErr : Type :=
| SandboxDenied (network_policy_decision : option NetworkPolicyDecisionPayload)
| SandboxTimeout
| SandboxSignal
| TurnAborted
| OtherCodexErr (text : str).

Inductive ToolError : Type := Rejected (reason : str) | Codex (err : CodexErr).

Definition guardian_timeout_message : str :=
  lit "The automatic permission approval review did not finish before its deadline. " ++
  lit "Do not assume the action is unsafe based on the timeout alone. " ++
  lit "You may retry once, or ask the user for guidance or explicit approval.".

Inductive ApprovalResolutionSource : Type := FromHook | FromGuardian | FromUser.
Record ApprovalResolution := mkResolution { resolution_decision : ReviewDecision; resolution_source : ApprovalResolutionSource }.

Definition into_tool_result (r : ApprovalResolution) : ReviewDecision + ToolError :=
  match resolution_decision r with
  | ApprovedMcpPolicyAmendment => inr (Rejected (lit "Error while requesting approval"))
  | NetworkPolicyAmended a =>
      match amendment_action a with
      | DenyHost =>
          inr (Rejected (match resolution_source r with
                         | FromHook => lit "rejected by configuration"
                         | FromGuardian => lit "automatic approval review denied the action"
                         | FromUser => lit "rejected by user"
                         end))
      | AllowHost => inl (NetworkPolicyAmended a)
      end
  | Denied rejection => inr (Rejected rejection)
  | TimedOut => inr (Rejected guardian_timeout_message)
  | Aborted => inr (Codex TurnAborted)
  | d => inl d
  end.

Record ApprovalContext := mkApproval {
  ctx_strict_auto_review : bool;
  ctx_approval_reason : option str;
  ctx_retry_reason : option str;
  ctx_network : option NetworkApprovalContext
}.

Inductive NetworkApprovalMode : Type := Immediate | Deferred.
Record ActiveNetworkApproval := mkActive { registration_id : option str; approval_mode : NetworkApprovalMode }.

(** The registration of a [DeferredNetworkApproval]. *)
Definition into_deferred (a : ActiveNetworkApproval) : option str :=
  match approval_mode a, registration_id a with Deferred, Some id => Some id | _, _ => None end.

(** ** Attempts and runs *)

Record SandboxAttempt := mkAttempt {
  at_sandbox : SandboxType;
  at_sandbox_requested : bool;
  at_permissions : PermissionProfile;
  at_exec_server_permissions : PermissionProfile;
  at_enforce_managed_network : bool;
  at_sandbox_cwd : path_uri;
  at_linux_sandbox_exe : option str;
  at_use_legacy_landlock : bool;
  at_windows_sandbox_level : WindowsSandboxLevel;
  at_windows_sandbox_private_desktop : bool;
  at_network : option ActiveNetworkApproval
}.

Definition set_network (n : option ActiveNetworkApproval) (a : SandboxAttempt) : SandboxAttempt :=
  mkAttempt (at_sandbox a) (at_sandbox_requested a) (at_permissions a) (at_exec_server_permissions a) (at_enforce_managed_network a)
    (at_sandbox_cwd a) (at_linux_sandbox_exe a) (at_use_legacy_landlock a) (at_windows_sandbox_level a)
    (at_windows_sandbox_private_desktop a) n.

Section programs.
Context {Out : Type}.

(** A program: a result, or a request and what to do with the answer. *)
Inductive prog (A : Type) : Type :=
| Ret (a : A)
| RequestApproval (ctx : ApprovalContext) (k : ApprovalResolution -> prog A)
| BeginNetwork (managed_network_active : bool) (k : option ActiveNetworkApproval + ToolError -> prog A)
| RunTool (attempt : SandboxAttempt) (k : Out + ToolError -> prog A)
| FinishImmediate (active : ActiveNetworkApproval) (k : unit + ToolError -> prog A)
| FinishDeferred (deferred : option str) (k : unit + ToolError -> prog A).
#[global] Arguments Ret {A}.
#[global] Arguments RequestApproval {A}.
#[global] Arguments BeginNetwork {A}.
#[global] Arguments RunTool {A}.
#[global] Arguments FinishImmediate {A}.
#[global] Arguments FinishDeferred {A}.

Fixpoint bind {A B} (p : prog A) (k : A -> prog B) : prog B :=
  match p with
  | Ret a => k a
  | RequestApproval ctx k' => RequestApproval ctx (fun x => bind (k' x) k)
  | BeginNetwork m k' => BeginNetwork m (fun x => bind (k' x) k)
  | RunTool attempt k' => RunTool attempt (fun x => bind (k' x) k)
  | FinishImmediate a k' => FinishImmediate a (fun x => bind (k' x) k)
  | FinishDeferred d k' => FinishDeferred d (fun x => bind (k' x) k)
  end.

(** Requests with their answers. *)
Inductive Event : Type :=
| ApprovalEvent (ctx : ApprovalContext) (r : ApprovalResolution)
| BeginEvent (r : option ActiveNetworkApproval + ToolError)
| RunEvent (attempt : SandboxAttempt) (r : Out + ToolError)
| FinishEvent (r : unit + ToolError).

Inductive runs {A} : prog A -> list Event -> A -> Prop :=
| runs_ret a : runs (Ret a) [] a
| runs_approval ctx k r t a : runs (k r) t a -> runs (RequestApproval ctx k) (ApprovalEvent ctx r :: t) a
| runs_begin m k r t a : runs (k r) t a -> runs (BeginNetwork m k) (BeginEvent r :: t) a
| runs_tool attempt k r t a : runs (k r) t a -> runs (RunTool attempt k) (RunEvent attempt r :: t) a
| runs_immediate active k r t a : runs (k r) t a -> runs (FinishImmediate active k) (FinishEvent r :: t) a
| runs_deferred d k r t a : runs (k r) t a -> runs (FinishDeferred d k) (FinishEvent r :: t) a.

(** ** [run_attempt] *)

Definition run_attempt (attempt : SandboxAttempt) (managed_network_active : bool) : prog ((Out + ToolError) * option str) :=
  BeginNetwork managed_network_active (fun begun =>
    match begun with
    | inr err => Ret (inr err, None)
    | inl network_approval =>
        RunTool (set_network network_approval attempt) (fun run_result =>
          match network_approval with
          | None => Ret (run_result, None)
          | Some active =>
              match approval_mode active with
              | Immediate =>
                  FinishImmediate active (fun finalized =>
                    match finalized with inr err => Ret (inr err, None) | inl _ => Ret (run_result, None) end)
              | Deferred =>
                  let deferred := into_deferred active in
                  match run_result with
                  | inr _ =>
                      FinishDeferred deferred (fun finalized =>
                        match finalized with inr err => Ret (inr err, None) | inl _ => Ret (run_result, None) end)
                  | inl _ => Ret (run_result, deferred)
                  end
              end
          end)
    end).

(** ** [run] *)

(** What the tool, its request and the turn provide. *)
Record ToolCall := mkCall {
  tool_requirement : option ExecApprovalRequirement;
  tool_sandbox_permissions : SandboxPermissions;
  tool_sandbox_preference : SandboxablePreference;
  tool_escalate_on_failure : bool;
  tool_wants_no_sandbox_approval : AskForApproval -> bool;
  tool_executor_managed : bool;
  tool_sandbox_cwd : option path_uri;
  tool_approval_action : io_result unit;
  env_permission_profile : PermissionProfile;
  env_workspace_roots : list path_uri;
  env_cwd : path_uri;
  turn_strict_auto_review : bool;
  turn_network : bool;
  turn_windows_sandbox_level : WindowsSandboxLevel;
  turn_private_desktop : bool;
  turn_legacy_landlock : bool;
  turn_linux_sandbox_exe : option str
}.

Definition action_error (text : str) : ToolError := Rejected (lit "could not prepare approval action: " ++ text).

(** Ask for an approval; a refusal ends the call. *)
Definition request_approval {A} (c : ToolCall) (ctx : ApprovalContext) (granted : prog (A + ToolError)) : prog (A + ToolError) :=
  match tool_approval_action c with
  | inr err => Ret (inr (action_error (io_text err)))
  | inl _ => RequestApproval ctx (fun r => match into_tool_result r with inr err => Ret (inr err) | inl _ => granted end)
  end.

Definition plain_context (c : ToolCall) (reason : option str) : ApprovalContext := mkApproval (turn_strict_auto_review c) reason None None.

(** The first phase: whether the call was approved by a review. *)
Definition approval_phase (c : ToolCall) (requirement : ExecApprovalRequirement) : prog (bool + ToolError) :=
  match requirement with
  | SkipApproval _ _ =>
      if turn_strict_auto_review c then request_approval c (plain_context c None) (Ret (inl true)) else Ret (inl false)
  | ForbiddenExec reason => Ret (inr (Rejected reason))
  | NeedsApproval reason _ => request_approval c (plain_context c reason) (Ret (inl true))
  end.

Section with_host.
Context `{PathEnv} `{NativePaths} `{TargetOs}.

Definition permission_profile_with_workspace_roots (c : ToolCall) : result PermissionProfile Empty_set :=
  profile_materialize (env_permission_profile c) (omap (fun root => ok (to_abs_path root)) (env_workspace_roots c)).

Definition permissions_for (c : ToolCall) : result PermissionProfile Empty_set :=
  if tool_executor_managed c then Ok (env_permission_profile c) else permission_profile_with_workspace_roots c.

Definition sandbox_for (c : ToolCall) (permissions : PermissionProfile) (requested : bool) : SandboxType :=
  if requested && negb (tool_executor_managed c)
  then select_initial permissions (tool_sandbox_preference c) (turn_windows_sandbox_level c) (turn_network c)
  else NoSandbox.

Definition attempt_for (c : ToolCall) (permissions : PermissionProfile) (requested : bool) (exe : option str) : SandboxAttempt :=
  mkAttempt (sandbox_for c permissions requested) requested permissions (env_permission_profile c) (turn_network c)
    (default (env_cwd c) (tool_sandbox_cwd c)) exe (turn_legacy_landlock c) (turn_windows_sandbox_level c) (turn_private_desktop c) None.

Definition first_attempt (c : ToolCall) (permissions : PermissionProfile) (requirement : ExecApprovalRequirement) : SandboxAttempt :=
  let requested :=
    match sandbox_override_for_first_attempt (tool_sandbox_permissions c) requirement (file_system_sandbox_policy permissions) with
    | BypassSandboxFirstAttempt => false
    | NoOverride => should_sandbox permissions (tool_sandbox_preference c) (turn_network c)
    end in
  attempt_for c permissions requested (turn_linux_sandbox_exe c).

Definition retry_attempt (c : ToolCall) (permissions : PermissionProfile) : SandboxAttempt :=
  let unsandboxed_allowed := unsandboxed_execution_allowed (file_system_sandbox_policy permissions) in
  let requested := negb unsandboxed_allowed && should_sandbox permissions (tool_sandbox_preference c) (turn_network c) in
  attempt_for c permissions requested (if unsandboxed_allowed then None else turn_linux_sandbox_exe c).

Definition needs_approval_by_default (policy : AskForApproval) (p : FileSystemSandboxPolicy) : bool :=
  match default_exec_approval_requirement policy p with NeedsApproval _ _ => true | _ => false end.

Definition retry_reason_for (network : option NetworkApprovalContext) : str :=
  match network with
  | Some n => lit "Network access to " ++ [34%N] ++ context_host n ++ [34%N] ++ lit " is blocked by policy."
  | None => lit "command failed; retry without sandbox?"
  end.

(** The network access that a denial is about, when a retry may ask for it; [None] when the denial
    is final.  The conditions are those of the source, in its order. *)
Definition retry_allowed (c : ToolCall) (policy : AskForApproval) (p : FileSystemSandboxPolicy) (denial : option NetworkPolicyDecisionPayload) :
    option (option NetworkApprovalContext) :=
  let network := if turn_network c then denial ≫= network_approval_context_from_payload else None in
  if bool_decide (is_Some denial) && bool_decide (network = None) then None
  else if negb (tool_escalate_on_failure c) then None
  else
    let allow_on_request_network_prompt :=
      match policy with OnRequest => true | _ => false end && bool_decide (is_Some network) && needs_approval_by_default policy p in
    if negb (tool_wants_no_sandbox_approval c policy) && negb allow_on_request_network_prompt then None
    else if negb (unsandboxed_execution_allowed p) && bool_decide (network = None) then None
    else Some network.

Definition retry_phase (c : ToolCall) (policy : AskForApproval) (permissions : PermissionProfile) (requirement : ExecApprovalRequirement)
    (already_approved : bool) (network : option NetworkApprovalContext) : prog ((Out * option str) + ToolError) :=
  let second :=
    bind (run_attempt (retry_attempt c permissions) (turn_network c)) (fun '(r, deferred) =>
      match r with inl out => Ret (inl (out, deferred)) | inr err => Ret (inr err) end) in
  let bypass_retry_approval :=
    negb (turn_strict_auto_review c) && should_bypass_approval policy already_approved && bool_decide (network = None) in
  if bypass_retry_approval then second
  else
    let approval_reason := match requirement with NeedsApproval reason _ => reason | _ => None end in
    request_approval c (mkApproval (turn_strict_auto_review c) approval_reason (Some (retry_reason_for network)) network) second.

Definition run_approved (c : ToolCall) (policy : AskForApproval) (permissions : PermissionProfile) (requirement : ExecApprovalRequirement)
    (already_approved : bool) : prog ((Out * option str) + ToolError) :=
  bind (run_attempt (first_attempt c permissions requirement) (turn_network c)) (fun '(first_result, deferred) =>
    match first_result with
    | inl out => Ret (inl (out, deferred))
    | inr (Codex (SandboxDenied denial)) =>
        match retry_allowed c policy (file_system_sandbox_policy permissions) denial with
        | None => Ret (inr (Codex (SandboxDenied denial)))
        | Some network => retry_phase c policy permissions requirement already_approved network
        end
    | inr err => Ret (inr err)
    end).

Definition requirement_for (c : ToolCall) (policy : AskForApproval) (permissions : PermissionProfile) : ExecApprovalRequirement :=
  default (default_exec_approval_requirement policy (file_system_sandbox_policy permissions)) (tool_requirement c).

Definition run (c : ToolCall) (policy : AskForApproval) : prog (result (Out * option str) ToolError) :=
  match permissions_for c with
  | Ok permissions =>
      let requirement := requirement_for c policy permissions in
      bind (bind (approval_phase c requirement) (fun approved =>
          match approved with
          | inl already_approved => run_approved c policy permissions requirement already_approved
          | inr err => Ret (inr err)
          end))
        (fun r => Ret (match r with inl out => Ok out | inr err => Err err end))
  | _ => Ret Panic
  end.

End with_host.
End programs.

(** ** Runs of programs *)

Section traces.
Context {Out : Type}.

Lemma runs_bind {A B} (p : @prog Out A) (k : A -> prog B) t b :
  runs (bind p k) t b -> exists t1 t2 a, t = t1 ++ t2 /\ runs p t1 a /\ runs (k a) t2 b.
Proof.
  revert t. induction p as [a|ctx k' IH|m k' IH|at' k' IH|ac k' IH|d k' IH]; simpl; intros t Hr.
  { exists [], t, a. split_and!; [done|constructor|done]. }
  all: inversion Hr as [|? ? r t0 ? Hk|? ? r t0 ? Hk|? ? r t0 ? Hk|? ? r t0 ? Hk|? ? r t0 ? Hk]; subst;
    destruct (IH r t0 Hk) as (t1 & t2 & a & -> & H1 & H2); eexists (_ :: t1), t2, a; (split_and!; [reflexivity| |exact H2]); by constructor.
Qed.

Lemma runs_ret_inv {A} (a b : A) t : runs (@Ret Out A a) t b -> t = [] /\ b = a.
Proof. intros Hr. by inversion Hr. Qed.

Definition is_granted (r : ApprovalResolution) : bool := match into_tool_result r with inl _ => true | inr _ => false end.

(** Answers, and the run they lead a program to. *)
Inductive Answer : Type :=
| ApprovalAnswer (r : ApprovalResolution)
| BeginAnswer (r : option ActiveNetworkApproval + ToolError)
| RunAnswer (r : Out + ToolError)
| FinishAnswer (r : unit + ToolError).

Fixpoint play {A} (p : @prog Out A) (answers : list Answer) : option (list (@Event Out) * A) :=
  match p, answers with
  | Ret a, [] => Some ([], a)
  | RequestApproval ctx k, ApprovalAnswer r :: answers => '(t, a) ← play (k r) answers; Some (ApprovalEvent ctx r :: t, a)
  | BeginNetwork _ k, BeginAnswer r :: answers => '(t, a) ← play (k r) answers; Some (BeginEvent r :: t, a)
  | RunTool attempt k, RunAnswer r :: answers => '(t, a) ← play (k r) answers; Some (RunEvent attempt r :: t, a)
  | FinishImmediate _ k, FinishAnswer r :: answers => '(t, a) ← play (k r) answers; Some (FinishEvent r :: t, a)
  | FinishDeferred _ k, FinishAnswer r :: answers => '(t, a) ← play (k r) answers; Some (FinishEvent r :: t, a)
  | _, _ => None
  end.

Lemma play_runs {A} (p : @prog Out A) answers t a : play p answers = Some (t, a) -> runs p t a.
Proof.
  revert answers t. induction p as [x|ctx k IH|m k IH|at' k IH|ac k IH|d k IH]; intros [|[r|r|r|r] answers] t; simpl; try done.
  { intros [= <- <-]. constructor. }
  all: destruct (play (k r) answers) as [[t' a']|] eqn:E; simpl; [|done]; intros [= <- <-]; constructor; by eapply IH.
Qed.

(** The attempts of a run. *)
Definition attempts (t : list (@Event Out)) : list SandboxAttempt :=
  omap (fun e => match e with RunEvent a _ => Some a | _ => None end) t.

(** The discipline of approvals: the first run of the tool needs one unless it is [free]; every
    further run needs one that was granted during the call, and under a strict review one that
    was granted since the last run. *)
Fixpoint approved_runs (strict free granted : bool) (t : list (@Event Out)) : bool :=
  match t with
  | [] => true
  | RunEvent _ _ :: t => (free || granted) && approved_runs strict false (granted && negb strict) t
  | ApprovalEvent _ r :: t => approved_runs strict free (granted || is_granted r) t
  | (BeginEvent _ | FinishEvent _) :: t => approved_runs strict free granted t
  end.

(** More approvals do no harm. *)
Lemma approved_runs_mono strict free free' g g' t :
  implb free free' = true -> implb g g' = true -> approved_runs strict free g t = true -> approved_runs strict free' g' t = true.
Proof.
  revert free free' g g'. induction t as [|[ctx r|r|a r|r] t IH]; intros free free' g g' Hf Hg; simpl; [done|..].
  - apply IH; [done|]. by destruct g, g', (is_granted r).
  - by apply IH.
  - rewrite !andb_true_iff. intros [Hr Hrest]. split; [by destruct free, free', g, g'|].
    eapply IH; [| |exact Hrest]; [done|]. by destruct g, g', strict.
  - by apply IH.
Qed.

Lemma attempts_app t t' : attempts (t ++ t') = attempts t ++ attempts t'.
Proof. unfold attempts. by rewrite omap_app. Qed.

(** One attempt runs the tool at most once and asks for nothing. *)
Lemma run_attempt_runs a m t x :
  runs (@run_attempt Out a m) t x ->
  (attempts t = [] /\ forall strict free granted rest, approved_runs strict free granted (t ++ rest) = approved_runs strict free granted rest) \/
  (exists n, attempts t = [set_network n a]) /\
  forall strict free granted rest,
    approved_runs strict free granted (t ++ rest) = (free || granted) && approved_runs strict false (granted && negb strict) rest.
Proof.
  unfold run_attempt. intros Hr. inversion Hr as [| |m' k r t' a' Hr1| | |]; subst. destruct r as [n|err].
  2: { apply runs_ret_inv in Hr1 as [-> _]. by left. }
  right. inversion Hr1 as [| | |at' k r t'' a' Hr2| |]; subst. split; [exists n|].
  all: destruct n as [active|]; [|apply runs_ret_inv in Hr2 as [-> _]; done].
  all: destruct (approval_mode active); [|destruct r; [apply runs_ret_inv in Hr2 as [-> _]; done|]].
  all: inversion Hr2 as [| | | |ac k r' t''' a' Hr3|d k r' t''' a' Hr3]; subst; destruct r'; by apply runs_ret_inv in Hr3 as [-> _].
Qed.

(** A request for approval: it fails, or it is granted and the run goes on. *)
Lemma request_approval_runs {A} (c : @ToolCall) ctx (granted : @prog Out (A + ToolError)) t x :
  runs (request_approval c ctx granted) t x ->
  (exists err, x = inr err /\ attempts t = [] /\ forall strict free g, approved_runs strict free g t = true) \/
  exists r t', t = ApprovalEvent ctx r :: t' /\ is_granted r = true /\ runs granted t' x.
Proof.
  unfold request_approval. destruct (tool_approval_action c) as [|err]; intros Hr.
  - inversion Hr as [|ctx' k r t' a Hr1| | | |]; subst. unfold is_granted. destruct (into_tool_result r) as [d|err] eqn:E.
    + right. exists r, t'. by rewrite E.
    + left. apply runs_ret_inv in Hr1 as [-> ->]. by exists err.
  - left. apply runs_ret_inv in Hr as [-> ->]. by eexists.
Qed.

End traces.

(** ** The discipline of approvals *)

(** Whether the first run of the tool may go without an approval. *)
Definition first_run_is_free (c : ToolCall) (requirement : ExecApprovalRequirement) : bool :=
  match requirement with SkipApproval _ _ => negb (turn_strict_auto_review c) | _ => false end.

Section discipline.
Context {Out : Type} `{PathEnv} `{NativePaths} `{TargetOs}.

Lemma permissions_total (c : ToolCall) : exists permissions, permissions_for c = Ok permissions.
Proof.
  unfold permissions_for, permission_profile_with_workspace_roots. destruct (tool_executor_managed c); [by eexists|].
  destruct (env_permission_profile c) as [fs net| |net]; simpl; [|by eexists..].
  destruct (managed_ok (materialize_project_roots_with_workspace_roots (to_sandbox_policy fs)
    (omap (fun root => ok (to_abs_path root)) (env_workspace_roots c))) net) as (m & Hm & _).
  { unfold materialize_project_roots_with_workspace_roots. by destruct fs. }
  rewrite Hm. by eexists.
Qed.

(** The first phase ends with an error, or says truly whether an approval was granted. *)
Lemma approval_phase_runs (c : ToolCall) requirement t x :
  runs (@approval_phase Out c requirement) t x ->
  attempts t = [] /\
  match x with
  | inr _ => forall strict free g, approved_runs strict free g t = true
  | inl already => forall strict rest,
      approved_runs strict (first_run_is_free c requirement) false (t ++ rest) =
      approved_runs strict (first_run_is_free c requirement) already rest /\
      (first_run_is_free c requirement || already) = true
  end.
Proof.
  unfold approval_phase, first_run_is_free. destruct requirement as [bypass proposed|reason proposed|reason]; intros Hr.
  - destruct (turn_strict_auto_review c); [|by apply runs_ret_inv in Hr as [-> ->]].
    apply request_approval_runs in Hr as [(err & -> & Ha & Hok)|(r & t' & -> & Hg & Hr)]; [done|].
    apply runs_ret_inv in Hr as [-> ->]. simpl. by rewrite Hg.
  - apply request_approval_runs in Hr as [(err & -> & Ha & Hok)|(r & t' & -> & Hg & Hr)]; [done|].
    apply runs_ret_inv in Hr as [-> ->]. simpl. by rewrite Hg.
  - by apply runs_ret_inv in Hr as [-> ->].
Qed.

(** No retry where the policy is never to ask. *)
Lemma retry_not_never c p denial network :
  tool_wants_no_sandbox_approval c Never = false -> retry_allowed c Never p denial = Some network -> False.
Proof. unfold retry_allowed. intros ->. simpl. by repeat case_match. Qed.

Lemma second_attempt_runs (c : ToolCall) permissions (t : list (@Event Out)) x :
  runs (bind (run_attempt (retry_attempt c permissions) (turn_network c)) (fun '(r, deferred) =>
      match r with inl out => Ret (inl (out, deferred)) | inr err => Ret (inr err) end)) t x ->
  (forall a, a ∈ attempts t -> exists n, a = set_network n (retry_attempt c permissions)) /\ length (attempts t) <= 1 /\
  forall strict free, approved_runs strict free true t = true.
Proof.
  intros (t1 & t2 & [r d] & -> & Hr & Hk)%runs_bind. assert (t2 = []) as ->.
  { destruct r; by apply runs_ret_inv in Hk as [-> _]. }
  apply run_attempt_runs in Hr as [[Ha Hok]|[[n Ha] Hok]]; rewrite attempts_app, Ha; simpl; split_and!.
  - by intros a ?%elem_of_nil.
  - lia.
  - intros strict free. by rewrite Hok.
  - intros a ->%list_elem_of_singleton. by exists n.
  - lia.
  - intros strict free. rewrite Hok. by rewrite orb_true_r.
Qed.

Lemma retry_phase_runs (c : ToolCall) policy permissions requirement already network t x :
  runs (retry_phase (Out := Out) c policy permissions requirement already network) t x -> policy <> Never ->
  (forall a, a ∈ attempts t -> exists n, a = set_network n (retry_attempt c permissions)) /\ length (attempts t) <= 1 /\
  forall free, approved_runs (turn_strict_auto_review c) free (already && negb (turn_strict_auto_review c)) t = true.
Proof.
  unfold retry_phase. intros Hr Hn. destruct (_ && _ && _) eqn:Eb.
  - apply andb_true_iff in Eb as [[Hs Hb]%andb_true_iff _]. apply negb_true_iff in Hs. rewrite Hs.
    destruct (second_attempt_runs c permissions t x Hr) as (Ha & Hl & Hok). split_and!; [done..|]. intros free.
    unfold should_bypass_approval in Hb. destruct already; [apply Hok|by destruct policy].
  - apply request_approval_runs in Hr as [(err & -> & Ha & Hok)|(r & t' & -> & Hg & Hr)].
    + rewrite Ha. split_and!; [by intros a ?%elem_of_nil|simpl; lia|]. intros free. apply Hok.
    + destruct (second_attempt_runs c permissions t' x Hr) as (Ha & Hl & Hok). split_and!; [done..|]. intros free. simpl.
      rewrite Hg, orb_true_r. apply Hok.
Qed.

(** The attempts of an approved call, and their approvals. *)
Lemma run_approved_runs (c : ToolCall) policy permissions requirement already t x :
  runs (run_approved (Out := Out) c policy permissions requirement already) t x ->
  tool_wants_no_sandbox_approval c Never = false ->
  (forall a, a ∈ attempts t -> exists n,
     a = set_network n (first_attempt c permissions requirement) \/ a = set_network n (retry_attempt c permissions)) /\
  length (attempts t) <= 2 /\
  forall free, (free || already) = true -> approved_runs (turn_strict_auto_review c) free already t = true.
Proof.
  intros (t1 & t2 & [r d] & -> & Hr & Hk)%runs_bind Hnever. rewrite attempts_app, length_app.
  assert (Hrest : (t2 = [] \/ exists network, policy <> Never /\ runs (retry_phase c policy permissions requirement already network) t2 x)).
  { destruct r as [out|[reason|[denial| | | |text]]]; try (left; by apply runs_ret_inv in Hk as [-> _]).
    destruct (retry_allowed _ _ _ _) as [network|] eqn:Er; [|left; by apply runs_ret_inv in Hk as [-> _]].
    right. exists network. split; [|done]. intros ->. by eapply retry_not_never. }
  assert (Ht2 : (forall a, a ∈ attempts t2 -> exists n, a = set_network n (retry_attempt c permissions)) /\ length (attempts t2) <= 1 /\
    forall free, approved_runs (turn_strict_auto_review c) free (already && negb (turn_strict_auto_review c)) t2 = true /\
      (approved_runs (turn_strict_auto_review c) free already t2 = true)).
  { destruct Hrest as [->|(network & Hp & Hr2)].
    - split_and!; [by intros a ?%elem_of_nil|simpl; lia|done].
    - destruct (retry_phase_runs _ _ _ _ _ _ _ _ Hr2 Hp) as (Ha & Hl & Hok). split_and!; [done..|]. intros free. split; [done|].
      apply (approved_runs_mono _ free free (already && negb (turn_strict_auto_review c)) already);
        [by destruct free|by destruct already, (turn_strict_auto_review c)|apply Hok]. }
  destruct Ht2 as (Ha2 & Hl2 & Hok2). apply run_attempt_runs in Hr as [[Ha Hok]|[[n Ha] Hok]]; rewrite Ha; simpl; split_and!.
  - intros a Hin. destruct (Ha2 a Hin) as [n ->]. exists n. by right.
  - lia.
  - intros free Hf. rewrite Hok. apply Hok2.
  - intros a [->|Hin]%elem_of_cons; [exists n; by left|]. destruct (Ha2 a Hin) as [n' ->]. exists n'. by right.
  - lia.
  - intros free Hf. rewrite Hok, Hf. apply Hok2.
Qed.

End discipline.

(** ** Properties *)

Section properties.
Context {Out : Type} `{PathEnv} `{NativePaths} `{TargetOs}.

(** The phases of a whole call. *)
Lemma run_phases (c : ToolCall) policy (t : list (@Event Out)) res :
  runs (run c policy) t res ->
  exists permissions t1 t2 approved, permissions_for c = Ok permissions /\ t = t1 ++ t2 /\
    runs (approval_phase c (requirement_for c policy permissions)) t1 approved /\
    match approved with
    | inl already => exists x, runs (run_approved c policy permissions (requirement_for c policy permissions) already) t2 x
    | inr err => t2 = [] /\ res = Err err
    end.
Proof.
  unfold run. destruct (permissions_total c) as [permissions ->].
  intros (t0 & t3 & x & -> & (t1 & t2 & approved & -> & Ha & Hk)%runs_bind & [-> ->]%runs_ret_inv)%runs_bind.
  exists permissions, t1, t2, approved. rewrite app_nil_r. split_and!; [done..|]. destruct approved as [already|err]; [by exists x|].
  by apply runs_ret_inv in Hk as [-> ->].
Qed.


(** A denial that a platform sandbox enforces: one for a path, a glob, or a special path that
    stands for a place. *)
Definition enforceable_denial (p : FileSystemSandboxPolicy) : bool :=
  is_restricted (kind p) &&
  existsb (fun e => is_deny e && match entry_path e with Special Minimal | Special (Unknown _ _) => false | _ => true end) (entries p).

Lemma denial_needs_sandbox p network managed :
  enforceable_denial p = true -> has_denied_read_restrictions p = true /\ should_require_platform_sandbox p network managed = true.
Proof.
  unfold enforceable_denial. intros [Hk (e & He & [Hd Hp]%andb_true_iff)%existsb_elem]%andb_true_iff. split.
  - unfold has_denied_read_restrictions. rewrite Hk. apply existsb_elem. by exists e.
  - pose proof Hk as Hk'. apply bool_decide_eq_true in Hk'. unfold should_require_platform_sandbox. destruct managed; [done|]. rewrite Hk'.
    destruct (is_enabled network); [|done]. apply negb_true_iff. unfold has_full_disk_write_access. rewrite Hk'.
    apply andb_false_iff. right. apply negb_false_iff. unfold has_write_narrowing_entries. rewrite Hk. apply existsb_elem.
    exists e. split; [done|]. unfold narrows_write. pose proof Hd as Hd'. apply bool_decide_eq_true in Hd'. rewrite Hd'. simpl.
    assert (Hno : has_same_target_write_override p e = false).
    { unfold has_same_target_write_override. apply existsb_elem_false. intros x _. rewrite Hd'. by destruct (access x). }
    rewrite Hno. destruct (entry_path e) as [| |[]]; try done.
Qed.

(** C10: denied reads are never run around.  If the policy of a call denies reads, every run of the
    tool, the first and the one after a denial by the sandbox, asks for the sandbox with that same
    policy: no allow rule, no escalation and no approval takes it away.  Unless the executor
    applies its own sandbox, the run is in the platform's sandbox wherever there is one. *)
Theorem denied_reads_stay_sandboxed (c : ToolCall) policy (t : list (@Event Out)) res permissions :
  runs (run c policy) t res -> tool_wants_no_sandbox_approval c Never = false ->
  permissions_for c = Ok permissions -> enforceable_denial (file_system_sandbox_policy permissions) = true ->
  tool_sandbox_preference c <> PreferForbid ->
  forall a, a ∈ attempts t ->
    at_sandbox_requested a = true /\ at_permissions a = permissions /\
    (tool_executor_managed c = false ->
     forall sandbox, get_platform_sandbox (windows_sandbox_enabled (turn_windows_sandbox_level c)) = Some sandbox -> at_sandbox a = sandbox).
Proof.
  intros (permissions' & t1 & t2 & approved & Hp' & -> & Ha & Hk)%run_phases Hnever Hp Hden Hpref.
  rewrite Hp in Hp'. injection Hp' as <-.
  destruct (denial_needs_sandbox _ (network_sandbox_policy permissions) (turn_network c) Hden) as [Hdr Hreq].
  assert (Hshould : should_sandbox permissions (tool_sandbox_preference c) (turn_network c) = true).
  { unfold should_sandbox, to_runtime_permissions. by destruct (tool_sandbox_preference c). }
  assert (Hun : unsandboxed_execution_allowed (file_system_sandbox_policy permissions) = false) by (unfold unsandboxed_execution_allowed; by rewrite Hdr).
  pose proof (approval_phase_runs _ _ _ _ Ha) as [Hatt _]. rewrite attempts_app, Hatt. intros a Hin. simpl in Hin.
  destruct approved as [already|err]; [|destruct Hk as [-> _]; by apply elem_of_nil in Hin]. destruct Hk as [x Hk].
  destruct (run_approved_runs _ _ _ _ _ _ _ Hk Hnever) as [Hall _].
  assert (Hfirst : forall requirement, exists exe, first_attempt c permissions requirement = attempt_for c permissions true exe).
  { intros requirement. exists (turn_linux_sandbox_exe c). unfold first_attempt, sandbox_override_for_first_attempt. rewrite Hun. simpl. by rewrite Hshould. }
  assert (Hretry : retry_attempt c permissions = attempt_for c permissions true (turn_linux_sandbox_exe c)).
  { unfold retry_attempt. by rewrite Hun, Hshould. }
  assert (Hshape : exists n exe, a = set_network n (attempt_for c permissions true exe)).
  { destruct (Hall a Hin) as [n [->| ->]]; exists n; [|eexists; f_equal; exact Hretry].
    destruct (Hfirst (requirement_for c policy permissions)) as [exe ->]. by exists exe. }
  destruct Hshape as (n & exe & ->). split_and!; [done..|]. intros Hem sandbox Hs. simpl. unfold sandbox_for. rewrite Hem. simpl.
  unfold select_initial. by rewrite Hshould, Hs.
Qed.

End properties.

(** ** Examples *)

#[local] Instance linux_os : TargetOs := {| target_os := LinuxOs |}.

(** A shell command in a workspace with a denied directory, or without one. *)
Definition sample_call (requirement : ExecApprovalRequirement) (permissions : SandboxPermissions) (es : list FileSystemSandboxEntry) : ToolCall := {|
  tool_requirement := Some requirement;
  tool_sandbox_permissions := permissions;
  tool_sandbox_preference := PreferAuto;
  tool_escalate_on_failure := true;
  tool_wants_no_sandbox_approval := wants_no_sandbox_approval;
  tool_executor_managed := false;
  tool_sandbox_cwd := None;
  tool_approval_action := inl tt;
  env_permission_profile := Managed (ManagedRestricted es None) NetEnabled;
  env_workspace_roots := [lit "/ws"];
  env_cwd := lit "/ws";
  turn_strict_auto_review := false;
  turn_network := false;
  turn_windows_sandbox_level := LevelDisabled;
  turn_private_desktop := false;
  turn_legacy_landlock := false;
  turn_linux_sandbox_exe := Some (lit "/usr/bin/codex-linux-sandbox")
|}.

Definition workspace_entry : FileSystemSandboxEntry := new_entry (Special (ProjectRoots None)) Write.
Definition secret_entry : FileSystemSandboxEntry := new_entry (AtPath (lit "/ws/secret")) Deny.

Definition trace_of {Out A} (p : @prog Out A) (answers : list (@Answer Out)) : list (@Event Out) :=
  match play p answers with Some (t, _) => t | None => [] end.

(** The user approves, the sandbox denies the command, and it is run again outside of it. *)
Definition retried_answers : list (@Answer nat) :=
  [ApprovalAnswer (mkResolution Approved FromUser); BeginAnswer (inl None); RunAnswer (inr (Codex (SandboxDenied None)));
   BeginAnswer (inl None); RunAnswer (inl 0)].


(** An allow rule that would bypass the sandbox does not, where a directory is denied. *)
Lemma denied_reads_stay_sandboxed_witness :
  let env := example_env in
  let paths := plain_native_paths in
  let call := sample_call (SkipApproval true None) RequireEscalated [workspace_entry; secret_entry] in
  let t := trace_of (run call OnRequest) [BeginAnswer (inl None); RunAnswer (inl 0)] in
  exists a, a ∈ attempts t /\ at_sandbox_requested a = true /\ at_sandbox a = LinuxSeccomp.
Proof.
  intros env paths call t. exists (hd (attempt_for call Disabled false None) (attempts t)).
  assert (Hin : hd (attempt_for call Disabled false None) (attempts t) ∈ attempts t).
  { destruct (attempts t) eqn:E; [|by left]. exfalso. vm_compute in E. discriminate E. }
  split; [exact Hin|].
  destruct (denied_reads_stay_sandboxed (Out := nat) call OnRequest t (Ok (0, None))
    (Managed (ManagedRestricted [new_entry (AtPath (lit "/ws")) Write; secret_entry] None) NetEnabled)) with
    (a := hd (attempt_for call Disabled false None) (attempts t)) as (Hr & _ & Hs).
  - apply (play_runs _ [BeginAnswer (inl None); RunAnswer (inl 0)]). by vm_compute.
  - reflexivity.
  - by vm_compute.
  - by vm_compute.
  - discriminate.
  - exact Hin.
  - split; [exact Hr|]. by apply Hs.
Defined.

(** Without a denied directory the same call runs outside the sandbox. *)
Lemma allow_rule_bypasses_sandbox :
  let env := example_env in
  let paths := plain_native_paths in
  let call := sample_call (SkipApproval true None) UseDefault [workspace_entry] in
  (at_sandbox <$> attempts (trace_of (run call OnRequest) [BeginAnswer (inl None); RunAnswer (inl 0)])) = [NoSandbox].
Proof. by vm_compute. Qed.
