(* ===== verification/IndexMap.v ===== *)
(** * [IndexMap] with text keys

    Maps that remember the order in which their keys were first inserted: the calls that await
    approvals of network access, and the tables of a configuration. *)

From stdpp Require Import base list sets.
From S2P Require Import Prelude.

(** A key that is inserted again keeps its place. *)
Fixpoint index_insert {A} (k : str) (v : A) (l : list (str * A)) : list (str * A) :=
  match l with
  | [] => [(k, v)]
  | (k', v') :: l => if str_eqb k' k then (k, v) :: l else (k', v') :: index_insert k v l
  end.

Definition index_get {A} (k : str) (l : list (str * A)) : option A := snd <$> find (fun e => str_eqb (fst e) k) l.

Definition shift_remove {A} (k : str) (l : list (str * A)) : list (str * A) := List.filter (fun e => negb (str_eqb (fst e) k)) l.

Lemma index_insert_elem {A} k (v : A) l e : e ∈ index_insert k v l -> e = (k, v) \/ e ∈ l.
Proof. induction l as [|[k' v'] l IH]; simpl; [set_solver|]. case_match; set_solver. Qed.

Lemma shift_remove_elem {A} k (l : list (str * A)) e : e ∈ shift_remove k l -> e ∈ l.
Proof. unfold shift_remove. rewrite !list_elem_of_In, List.filter_In. tauto. Qed.

Lemma index_get_elem {A} k (l : list (str * A)) v : index_get k l = Some v -> (k, v) ∈ l.
Proof.
  unfold index_get. intros (e & He & ->)%fmap_Some. destruct e as [k' v']. apply List.find_some in He as [Hin Hk]. simpl in *.
  apply bool_decide_eq_true in Hk as ->. by apply list_elem_of_In.
Qed.

Lemma index_get_cons {A} k k' (v : A) l : index_get k ((k', v) :: l) = if str_eqb k' k then Some v else index_get k l.
Proof. unfold index_get. simpl. by destruct (str_eqb k' k). Qed.

Lemma index_get_insert_eq {A} k (v : A) l : index_get k (index_insert k v l) = Some v.
Proof.
  induction l as [|[k' v'] l IH]; simpl.
  - rewrite index_get_cons. unfold str_eqb. by rewrite bool_decide_true.
  - destruct (str_eqb k' k) eqn:E; rewrite index_get_cons; [unfold str_eqb; by rewrite bool_decide_true|by rewrite E].
Qed.

Lemma index_get_insert_ne {A} k k' (v : A) l : k' <> k -> index_get k (index_insert k' v l) = index_get k l.
Proof.
  intros Hn. induction l as [|[k2 v2] l IH]; simpl.
  - rewrite index_get_cons. unfold str_eqb. by rewrite bool_decide_false.
  - unfold str_eqb. case_bool_decide as Hk; rewrite !index_get_cons; unfold str_eqb.
    + subst k2. by rewrite bool_decide_false.
    + by rewrite IH.
Qed.

Lemma index_get_remove_eq {A} k (l : list (str * A)) : index_get k (shift_remove k l) = None.
Proof.
  induction l as [|[k' v] l IH]; [done|]. unfold shift_remove in *. simpl. destruct (str_eqb k' k) eqn:E; simpl; [done|].
  by rewrite index_get_cons, E.
Qed.

Lemma index_get_remove_ne {A} k k' (l : list (str * A)) : k' <> k -> index_get k (shift_remove k' l) = index_get k l.
Proof.
  intros Hn. induction l as [|[k2 v] l IH]; [done|]. unfold shift_remove in *. simpl. unfold str_eqb at 1. case_bool_decide as Hk; simpl.
  - subst k2. rewrite IH, index_get_cons. unfold str_eqb. by rewrite bool_decide_false.
  - rewrite !index_get_cons. by rewrite IH.
Qed.

(** The keys are distinct. *)
Definition index_ok {A} (l : list (str * A)) : Prop := NoDup (fst <$> l).

Lemma index_insert_keys {A} k (v : A) l :
  (fst <$> index_insert k v l) = (fst <$> l) \/ (k ∉ (fst <$> l) /\ (fst <$> index_insert k v l) = (fst <$> l) ++ [k]).
Proof.
  induction l as [|[k' v'] l IH]; simpl; [right; split; [set_solver|done]|].
  unfold str_eqb. case_bool_decide as Hk; [left; by rewrite Hk|].
  destruct IH as [IH|[Hn IH]]; [left|right; split; [set_solver|]]; exact (f_equal (cons k') IH).
Qed.

Lemma index_insert_ok {A} k (v : A) l : index_ok l -> index_ok (index_insert k v l).
Proof.
  unfold index_ok. intros Hl. destruct (index_insert_keys k v l) as [->|[Hn ->]]; [done|]. apply NoDup_app. split_and!; [done|set_solver|apply NoDup_singleton].
Qed.

Lemma shift_remove_ok {A} k (l : list (str * A)) : index_ok l -> index_ok (shift_remove k l).
Proof.
  unfold index_ok, shift_remove. induction l as [|[k' v] l IH]; simpl; [done|]. intros [Hn Hl]%NoDup_cons.
  destruct (negb (str_eqb k' k)); simpl; [|by apply IH]. apply NoDup_cons. split; [|by apply IH]. intros Hin. apply Hn.
  apply list_elem_of_fmap in Hin as (e & -> & He). apply list_elem_of_fmap. exists e. split; [done|]. by apply (shift_remove_elem k).
Qed.

Lemma index_get_None {A} k (l : list (str * A)) : index_get k l = None <-> k ∉ (fst <$> l).
Proof.
  induction l as [|[k' v] l IH]; [split; [set_solver|done]|]. rewrite index_get_cons. unfold str_eqb. case_bool_decide as Hk; simpl; [set_solver|].
  rewrite IH. set_solver.
Qed.

Lemma index_get_fmap {A B} (f : A -> B) k l : index_get k ((fun e => (fst e, f (snd e))) <$> l) = f <$> index_get k l.
Proof. induction l as [|[k' v] l IH]; [done|]. simpl. rewrite !index_get_cons. by destruct (str_eqb k' k). Qed.
