(* ===== verification/NetApproval.v ===== *)
(** * Approvals of network access: [core/src/tools/network_approval.rs]

    When a command reaches for a host that the proxy does not let through, the proxy asks the
    session: hosts that were approved or denied for the session are answered at once, the others
    are reviewed by a hook, a guardian or the user.  Requests for one host by one command share a
    review: the first owns it, the others wait for its decision.

    Requests, calls that begin and end, and reports of blocked requests are tasks over one
    [Service].  A task goes from one hold of a lock to the next ([approval_step]), is stuck while
    a lock is taken or a decision is awaited ([None]), and a request may be dropped wherever it
    awaits something ([drop_step]).  What hooks, reviewers and the proxy answer are inputs.
    The prompts that are shown, telemetry and the messages sent to the client are left out. *)

From stdpp Require Import base list strings gmap relations.
From Stdlib Require Import NArith.
From S2P Require Import NetState NetRuntime NetPolicy.
From S2P Require Import Prelude IndexMap Truncate Profiles Approvals Orchestrator.

(** ** Keys *)

Record HostApprovalKey := mkHostKey { key_environment_id : str; key_host : str; key_protocol : str; key_port : N }.

#[export] Instance HostApprovalKey_eq_dec : EqDecision HostApprovalKey.
Proof. solve_decision. Defined.
#[export] Instance HostApprovalKey_countable : Countable HostApprovalKey.
Proof.
  refine (inj_countable' (fun k => (key_environment_id k, key_host k, key_protocol k, key_port k))
    (fun '(e, h, p, n) => mkHostKey e h p n) _). by intros [].
Defined.

Record PendingHostApprovalKey := mkPendingKey { pending_host : HostApprovalKey; pending_turn_id : str; pending_execution_id : option str }.

#[export] Instance PendingHostApprovalKey_eq_dec : EqDecision PendingHostApprovalKey.
Proof. solve_decision. Defined.
#[export] Instance PendingHostApprovalKey_countable : Countable PendingHostApprovalKey.
Proof.
  refine (inj_countable' (fun k => (pending_host k, pending_turn_id k, pending_execution_id k))
    (fun '(h, t, e) => mkPendingKey h t e) _). by intros [].
Defined.

Definition protocol_key_label (p : NetworkApprovalProtocol) : str :=
  match p with
  | ApproveHttp => lit "http"
  | ApproveHttps => lit "https"
  | ApproveSocks5Tcp => lit "socks5-tcp"
  | ApproveSocks5Udp => lit "socks5-udp"
  end.

Definition approval_protocol (p : NetworkProtocol) : NetworkApprovalProtocol :=
  match p with Http => ApproveHttp | HttpsConnect => ApproveHttps | Socks5Tcp => ApproveSocks5Tcp | Socks5Udp => ApproveSocks5Udp end.

Definition host_key_from_request (r : NetworkPolicyRequest) (protocol : NetworkApprovalProtocol) (environment_id : str) : HostApprovalKey :=
  mkHostKey environment_id (to_ascii_lowercase (req_host r)) (protocol_key_label protocol) (req_port r).

Definition format_network_target (protocol host : str) (port : N) : str :=
  protocol ++ lit "://" ++ host ++ lit ":" ++ decimal port.

(** ** Decisions and outcomes *)

Inductive PendingApprovalDecision : Type := AllowOnce | AllowForSession | DenyPending.
#[export] Instance PendingApprovalDecision_eq_dec : EqDecision PendingApprovalDecision.
Proof. solve_decision. Defined.

Inductive NetworkApprovalOutcome : Type := DeniedByApproval (rejection : str) | DeniedByPolicy (message : str).

Definition to_network_decision (d : PendingApprovalDecision) : NetworkDecision :=
  match d with
  | AllowOnce | AllowForSession => NetAllow
  | DenyPending => deny_with_source (lit "not_allowed") Decider
  end.

Definition REJECTION_MESSAGE_MAX_TOKENS : N := 900.
Definition truncate_rejection_message (message : str) : str := fst (truncate_middle_with_token_budget message REJECTION_MESSAGE_MAX_TOKENS).

Definition network_approval_outcome_to_result (o : option NetworkApprovalOutcome) : unit + ToolError :=
  match o with
  | Some (DeniedByApproval m) | Some (DeniedByPolicy m) => inr (Rejected (truncate_rejection_message m))
  | None => inl tt
  end.

Definition ABANDONED_NETWORK_APPROVAL_MESSAGE : str := lit "network approval was cancelled before a decision was returned".

Definition abandoned_network_approval_outcome (cancelled : bool) : option NetworkApprovalOutcome :=
  if cancelled then Some (DeniedByPolicy ABANDONED_NETWORK_APPROVAL_MESSAGE) else None.

Definition allows_network_approval_flow (policy : AskForApproval) : bool := match policy with Never => false | _ => true end.

Definition permission_profile_allows_network_approval_flow (p : PermissionProfile) : bool :=
  match p with Managed _ _ => true | _ => false end.

Definition parse_network_policy_decision (s : str) : option NetworkPolicyDecision :=
  if str_eqb s (lit "deny") then Some PolicyDeny else if str_eqb s (lit "ask") then Some PolicyAsk else None.

Definition denied_network_policy_message (b : BlockedRequest) : option str :=
  match br_decision b ≫= parse_network_policy_decision with
  | Some PolicyDeny =>
      let host := trim (br_host b) in
      if is_empty host then Some (lit "Network access was blocked by policy.")
      else
        let detail :=
          if str_eqb (br_reason b) (lit "denied") then lit "domain is explicitly denied by policy and cannot be approved from this prompt"
          else if str_eqb (br_reason b) (lit "not_allowed") then lit "domain is not on the allowlist for the current sandbox mode"
          else if str_eqb (br_reason b) (lit "not_allowed_local") then lit "local/private network addresses are blocked by the sandbox policy"
          else if str_eqb (br_reason b) (lit "method_not_allowed") then lit "request method is blocked by the current network mode"
          else if str_eqb (br_reason b) (lit "proxy_disabled") then lit "network proxy is disabled"
          else lit "request is blocked by network policy" in
        Some (lit "Network access to " ++ [34%N] ++ host ++ [34%N] ++ lit " was blocked: " ++ detail ++ lit ".")
  | _ => None
  end.

Definition validated_network_policy_amendment_host (a : NetworkPolicyAmendment) (approved : str) : option str :=
  let approved_host := normalize_host approved in
  if str_eqb (normalize_host (amendment_host a)) approved_host then Some approved_host else None.

Inductive ApprovalsReviewer : Type := ReviewerUser | AutoReview.

Definition routes_approval_policy_to_guardian (policy : AskForApproval) (reviewer : ApprovalsReviewer) : bool :=
  match policy with OnRequest | Granular _ => true | _ => false end && match reviewer with AutoReview => true | _ => false end.

(** ** The service *)

(** The trigger of a call, which only prompts show, is left out.  A cancellation token is its
    index among the tokens that were made. *)
Record ActiveNetworkApprovalCall := mkApprovalCall {
  call_registration_id : str; call_turn_id : str; call_command : str; call_environment_id : str;
  call_permission_profile : PermissionProfile; call_token : nat }.

(** [NetworkApprovalService] with the objects it shares: the pending approvals that were
    allocated, with their keys, the tokens, and the outcomes that deferred calls keep.  The last
    three fields are history: the token of every call that was registered, every review, and the
    hosts that came from another session. *)
Record Service := mkService {
  active_calls : list (str * ActiveNetworkApprovalCall);
  call_outcomes : gmap str NetworkApprovalOutcome;
  pending_host_approvals : gmap PendingHostApprovalKey nat;
  commit_lock : bool;
  session_approved_hosts : gset HostApprovalKey;
  session_denied_hosts : gset HostApprovalKey;
  pendings : list (PendingHostApprovalKey * option PendingApprovalDecision);
  tokens : list bool;
  finish_outcomes : list (option (option NetworkApprovalOutcome));
  registered : gmap str nat;
  reviews : list (HostApprovalKey * ReviewDecision);
  received : gset HostApprovalKey;
}.

(** A new service, and the cells of the calls that will be deferred. *)
Definition service_default (cells : nat) : Service := mkService [] ∅ ∅ false ∅ ∅ [] [] (replicate cells None) ∅ [] ∅.

Definition set_calls active outcomes (s : Service) : Service :=
  mkService active outcomes (pending_host_approvals s) (commit_lock s) (session_approved_hosts s) (session_denied_hosts s) (pendings s) (tokens s)
    (finish_outcomes s) (registered s) (reviews s) (received s).
Definition set_pending m heap (s : Service) : Service :=
  mkService (active_calls s) (call_outcomes s) m (commit_lock s) (session_approved_hosts s) (session_denied_hosts s) heap (tokens s)
    (finish_outcomes s) (registered s) (reviews s) (received s).
Definition set_lock b (s : Service) : Service :=
  mkService (active_calls s) (call_outcomes s) (pending_host_approvals s) b (session_approved_hosts s) (session_denied_hosts s) (pendings s) (tokens s)
    (finish_outcomes s) (registered s) (reviews s) (received s).
Definition set_hosts approved denied (s : Service) : Service :=
  mkService (active_calls s) (call_outcomes s) (pending_host_approvals s) (commit_lock s) approved denied (pendings s) (tokens s)
    (finish_outcomes s) (registered s) (reviews s) (received s).
Definition set_tokens ts (s : Service) : Service :=
  mkService (active_calls s) (call_outcomes s) (pending_host_approvals s) (commit_lock s) (session_approved_hosts s) (session_denied_hosts s) (pendings s) ts
    (finish_outcomes s) (registered s) (reviews s) (received s).
Definition set_finish_outcomes os (s : Service) : Service :=
  mkService (active_calls s) (call_outcomes s) (pending_host_approvals s) (commit_lock s) (session_approved_hosts s) (session_denied_hosts s) (pendings s) (tokens s)
    os (registered s) (reviews s) (received s).
Definition add_registered id token (s : Service) : Service :=
  mkService (active_calls s) (call_outcomes s) (pending_host_approvals s) (commit_lock s) (session_approved_hosts s) (session_denied_hosts s) (pendings s) (tokens s)
    (finish_outcomes s) (<[id := token]> (registered s)) (reviews s) (received s).
Definition add_review key d (s : Service) : Service :=
  mkService (active_calls s) (call_outcomes s) (pending_host_approvals s) (commit_lock s) (session_approved_hosts s) (session_denied_hosts s) (pendings s) (tokens s)
    (finish_outcomes s) (registered s) (reviews s ++ [(key, d)]) (received s).

Definition receive hosts (s : Service) : Service :=
  mkService (active_calls s) (call_outcomes s) (pending_host_approvals s) (commit_lock s) hosts (session_denied_hosts s) (pendings s) (tokens s)
    (finish_outcomes s) (registered s) (reviews s) (hosts ∪ received s).

Definition cancel (token : nat) (s : Service) : Service := set_tokens (<[token := true]> (tokens s)) s.
Definition is_cancelled (token : nat) (s : Service) : bool := default false (tokens s !! token).

(** *** Calls *)

Definition register_call (c : ActiveNetworkApprovalCall) (s : Service) : Service :=
  add_registered (call_registration_id c) (call_token c) (set_calls (index_insert (call_registration_id c) c (active_calls s)) (call_outcomes s) s).

Definition remove_call (id : str) (s : Service) : option NetworkApprovalOutcome * Service :=
  (call_outcomes s !! id, set_calls (shift_remove id (active_calls s)) (delete id (call_outcomes s)) s).

Definition resolve_single_active_call (s : Service) : option ActiveNetworkApprovalCall :=
  match active_calls s with [(_, c)] => Some c | _ => None end.
Definition resolve_active_call_by_execution_id (id : str) (s : Service) : option ActiveNetworkApprovalCall := index_get id (active_calls s).

Inductive ActiveNetworkApprovalAttribution : Type := NoCall | SingleCall (c : ActiveNetworkApprovalCall) | Ambiguous.

Definition resolve_active_call_attribution (s : Service) : ActiveNetworkApprovalAttribution :=
  match active_calls s with [] => NoCall | [(_, c)] => SingleCall c | _ => Ambiguous end.

Record NetworkRequestAttribution := mkAttribution { owner_call : option ActiveNetworkApprovalCall; attributed_environment : option str }.

Definition resolve_request_attribution (r : NetworkPolicyRequest) (s : Service) : option NetworkRequestAttribution :=
  match req_execution_id r with
  | Some execution_id =>
      call ← resolve_active_call_by_execution_id execution_id s;
      let environment_id := default (call_environment_id call) (req_environment_id r) in
      if str_eqb (call_environment_id call) environment_id then Some (mkAttribution (Some call) (Some environment_id)) else None
  | None =>
      match req_environment_id r with
      | Some environment_id =>
          let owner :=
            match resolve_active_call_attribution s with
            | SingleCall call => if str_eqb (call_environment_id call) environment_id then Some call else None
            | NoCall | Ambiguous => None
            end in
          Some (mkAttribution owner (Some environment_id))
      | None =>
          match resolve_active_call_attribution s with
          | NoCall => Some (mkAttribution None None)
          | SingleCall call => Some (mkAttribution (Some call) (Some (call_environment_id call)))
          | Ambiguous => None
          end
      end
  end.

(** *** Pending approvals *)

Definition get_or_create_pending_approval (key : PendingHostApprovalKey) (s : Service) : (nat * bool) * Service :=
  match pending_host_approvals s !! key with
  | Some existing => ((existing, false), s)
  | None =>
      let created := length (pendings s) in
      ((created, true), set_pending (<[key := created]> (pending_host_approvals s)) (pendings s ++ [(key, None)]) s)
  end.

(** [OnceLock::set] keeps a value that is there. *)
Definition set_decision (p : nat) (d : PendingApprovalDecision) (s : Service) : Service :=
  match pendings s !! p with
  | Some (key, None) => set_pending (pending_host_approvals s) (<[p := (key, Some d)]> (pendings s)) s
  | _ => s
  end.

Record PendingHostApprovalOwner := mkOwner {
  o_key : PendingHostApprovalKey; o_pending : nat; o_execution_cancellation : option nat; o_decision_on_drop : PendingApprovalDecision }.

Definition new_owner (key : PendingHostApprovalKey) (p : nat) (token : option nat) : PendingHostApprovalOwner := mkOwner key p token DenyPending.

Definition set_decision_on_drop (d : PendingApprovalDecision) (o : PendingHostApprovalOwner) : PendingHostApprovalOwner :=
  mkOwner (o_key o) (o_pending o) (o_execution_cancellation o) d.

Definition cancel_execution_if_denied (o : PendingHostApprovalOwner) (d : PendingApprovalDecision) (s : Service) : Service :=
  match d, o_execution_cancellation o with DenyPending, Some token => cancel token s | _, _ => s end.

(** The part of [publish_and_remove] under its lock; [set_decision] follows. *)
Definition remove_pending (o : PendingHostApprovalOwner) (s : Service) : Service :=
  if bool_decide (pending_host_approvals s !! o_key o = Some (o_pending o))
  then set_pending (delete (o_key o) (pending_host_approvals s)) (pendings s) s
  else s.

(** ** Tasks *)

(** What a request needs of the active turn. *)
Record ApprovalTurn := mkApprovalTurn {
  turn_sub_id : str; turn_environments : list (str * PermissionProfile); turn_approval_policy : AskForApproval; turn_reviewer : ApprovalsReviewer }.

Definition primary (t : ApprovalTurn) : option str := fst <$> head (turn_environments t).
Definition routes_approval_to_guardian (t : ApprovalTurn) : bool := routes_approval_policy_to_guardian (turn_approval_policy t) (turn_reviewer t).

(** A request with what was found out about it. *)
Record Query := mkQuery { q_request : NetworkPolicyRequest; q_call : option ActiveNetworkApprovalCall; q_environment : str; q_key : HostApprovalKey }.

Definition policy_denial_message (q : Query) : str :=
  lit "Network access to " ++ [34%N] ++ format_network_target (key_protocol (q_key q)) (req_host (q_request q)) (key_port (q_key q)) ++ [34%N]
    ++ lit " was blocked by policy.".

Definition pending_key_of (q : Query) (t : ApprovalTurn) : PendingHostApprovalKey :=
  mkPendingKey (q_key q) (match q_call q with Some call => call_turn_id call | None => turn_sub_id t end) (call_registration_id <$> q_call q).

(** The permission profile a request is reviewed under. *)
Definition profile_of (q : Query) (t : ApprovalTurn) : option PermissionProfile :=
  match q_call q with
  | Some call => Some (call_permission_profile call)
  | None => snd <$> find (fun e => str_eqb (fst e) (q_environment q)) (turn_environments t)
  end.

Record NetworkApprovalSpec := mkApprovalSpec {
  spec_network : bool; spec_mode : NetworkApprovalMode; spec_command : str; spec_environment_id : str; spec_permission_profile : PermissionProfile }.

Inductive ApprovalResult : Type :=
| Began (r : option (ActiveNetworkApproval * nat) + ToolError)
| Ended (r : unit + ToolError)
| Recorded
| Synced (hosts : gset HostApprovalKey)
| Refused                                                  (* no call or no environment for the request *)
| Remembered (q : Query) (allowed : bool)                  (* answered from the hosts of the session *)
| Unattended (q : Query)                                   (* no active turn *)
| Reviewed (q : Query) (d : PendingApprovalDecision)
| Dropped.

(** The answer a request got. *)
Definition answer (r : ApprovalResult) : option NetworkDecision :=
  match r with
  | Refused | Unattended _ | Remembered _ false => Some (deny_with_source (lit "not_allowed") Decider)
  | Remembered _ true => Some NetAllow
  | Reviewed _ d => Some (to_network_decision d)
  | _ => None
  end.

Inductive PermissionRequestDecision : Type := HookAllow | HookDeny (message : str).

Inductive ApprovalTask : Type :=
| TBegin (managed_network_active : bool) (turn_id : str) (spec : option NetworkApprovalSpec)
| TFinish (id : str) (token : nat)
| TFinishDeferred (id : str) (token : nat) (cell : nat)
| TFinishToken (outcome : option NetworkApprovalOutcome) (token : nat)
| TUnregister (id : str)
| TBlocked (b : BlockedRequest)
| TBlockedWrite (c : ActiveNetworkApprovalCall) (message : str)
| TReceive (hosts : gset HostApprovalKey)                  (* the target of a synchronisation *)
| TSync                                                    (* its source *)
| TRequest (r : NetworkPolicyRequest)
| TTurn (r : NetworkPolicyRequest) (a : NetworkRequestAttribution)
| TCheckLock (q : Query) (t : option ApprovalTurn)
| TCheckDenied (q : Query) (t : option ApprovalTurn)
| TCheckApproved (q : Query) (t : option ApprovalTurn)
| TJoin (q : Query) (t : option ApprovalTurn)
| TWait (q : Query) (p : nat)
| TReview (q : Query) (t : ApprovalTurn) (o : PendingHostApprovalOwner)
| THooks (q : Query) (t : ApprovalTurn) (o : PendingHostApprovalOwner)
| TAsk (q : Query) (t : ApprovalTurn) (o : PendingHostApprovalOwner)
| TCommit (q : Query) (t : ApprovalTurn) (o : PendingHostApprovalOwner) (d : ReviewDecision)
| TResolve (q : Query) (t : ApprovalTurn) (o : PendingHostApprovalOwner) (d : ReviewDecision)
| TPersist (q : Query) (o : PendingHostApprovalOwner) (a : NetworkPolicyAmendment)
| TPersistProxy (q : Query) (o : PendingHostApprovalOwner) (a : NetworkPolicyAmendment)
| TPersistAppend (q : Query) (o : PendingHostApprovalOwner) (a : NetworkPolicyAmendment) (applied : bool)
| TPersistDone (q : Query) (o : PendingHostApprovalOwner) (a : NetworkPolicyAmendment)
| TRemoveDenied (q : Query) (o : PendingHostApprovalOwner)
| TInsertApproved (q : Query) (o : PendingHostApprovalOwner)
| TRemoveApproved (q : Query) (o : PendingHostApprovalOwner)
| TInsertDenied (q : Query) (o : PendingHostApprovalOwner)
| TRecord (id : str) (outcome : NetworkApprovalOutcome) (next : ApprovalTask)
| TCancel (token : nat) (next : ApprovalTask)
| TComplete (o : PendingHostApprovalOwner) (d : PendingApprovalDecision) (locked : bool) (r : ApprovalResult)
| TRemove (o : PendingHostApprovalOwner) (d : PendingApprovalDecision) (locked : bool) (r : ApprovalResult)
| TPublish (o : PendingHostApprovalOwner) (d : PendingApprovalDecision) (locked : bool) (r : ApprovalResult)
| TUnlock (r : ApprovalResult)
| TFinished (r : ApprovalResult).

(** What the environment answers during a step. *)
Record ApprovalInputs := mkApprovalInputs {
  inp_uuid : str;                                      (* for the registration of a call *)
  inp_for_execution : option str;                      (* the error of the proxy for an execution *)
  inp_turn : option ApprovalTurn;                      (* the active turn *)
  inp_hook : option PermissionRequestDecision;
  inp_review : option ReviewDecision;                  (* [None] when the review broke off *)
  inp_refresh_closed : bool;
  inp_proxy_update : option bool;                      (* [None] without a proxy; whether the update succeeded *)
  inp_append : bool;                                   (* whether the rule was saved *)
}.

Definition begin_network_approval (inp : ApprovalInputs) (managed_network_active : bool) (turn_id : str) (spec : option NetworkApprovalSpec) (s : Service) :
    (option (ActiveNetworkApproval * nat) + ToolError) * Service :=
  match spec with
  | None => (inl None, s)
  | Some spec =>
      if negb (spec_network spec) then (inl None, s)
      else if negb managed_network_active then (inl None, s)
      else
        match inp_for_execution inp with
        | Some err => (inr (Codex (OtherCodexErr (lit "failed to create execution-scoped network proxy: " ++ err))), s)
        | None =>
            let token := length (tokens s) in
            (inl (Some (mkActive (Some (inp_uuid inp)) (spec_mode spec), token)),
             register_call (mkApprovalCall (inp_uuid inp) turn_id (spec_command spec) (spec_environment_id spec) (spec_permission_profile spec) token)
               (set_tokens (tokens s ++ [false]) s))
        end
  end.

(** [record_call_outcome] under its lock: the token to cancel afterwards, if any. *)
Definition record_call_outcome (id : str) (outcome : NetworkApprovalOutcome) (s : Service) : option nat * Service :=
  match index_get id (active_calls s) with
  | None => (None, s)
  | Some call =>
      match call_outcomes s !! id with
      | Some (DeniedByApproval _) => (None, s)
      | _ => (Some (call_token call), set_calls (active_calls s) (<[id := outcome]> (call_outcomes s)) s)
      end
  end.

(** A step that records an outcome for the call of a request, if it has one. *)
Definition record_then (q : Query) (outcome : NetworkApprovalOutcome) (next : ApprovalTask) : ApprovalTask :=
  match q_call q with Some call => TRecord (call_registration_id call) outcome next | None => next end.

Definition deny_owner (q : Query) (o : PendingHostApprovalOwner) (locked : bool) : ApprovalTask :=
  TComplete o DenyPending locked (Reviewed q DenyPending).

Definition by_reviewer (t : ApprovalTurn) (rejection : str) : NetworkApprovalOutcome :=
  if routes_approval_to_guardian t then DeniedByPolicy rejection else DeniedByApproval rejection.

(** Decisions that are committed to the policy of the session. *)
Definition needs_commit_lock (d : ReviewDecision) : bool :=
  match d with Approved | ApprovedExecpolicyAmendment _ | ApprovedForSession | NetworkPolicyAmended _ => true | _ => false end.

(** The match on the decision of a review. *)
Definition resolve_decision (q : Query) (t : ApprovalTurn) (o : PendingHostApprovalOwner) (d : ReviewDecision) (s : Service) : ApprovalTask :=
  let denied := bool_decide (q_key q ∈ session_denied_hosts s) in
  match d with
  | Approved | ApprovedExecpolicyAmendment _ =>
      if denied then record_then q (DeniedByPolicy (policy_denial_message q)) (deny_owner q o true)
      else TComplete (set_decision_on_drop AllowOnce o) AllowOnce true (Reviewed q AllowOnce)
  | ApprovedForSession =>
      if denied then record_then q (DeniedByPolicy (policy_denial_message q)) (deny_owner q o true) else TInsertApproved q o
  | NetworkPolicyAmended a => TPersist q o a
  | ApprovedMcpPolicyAmendment => record_then q (by_reviewer t (lit "Error while requesting approval")) (deny_owner q o false)
  | Denied rejection => record_then q (by_reviewer t rejection) (deny_owner q o false)
  | TimedOut => record_then q (DeniedByPolicy guardian_timeout_message) (deny_owner q o false)
  | Aborted =>
      record_then q (if routes_approval_to_guardian t then DeniedByPolicy (lit "automatic approval review was cancelled")
                     else DeniedByApproval (lit "rejected by user")) (deny_owner q o false)
  end.

(** The call to [on_policy_applied]. *)
Definition policy_applied (a : NetworkPolicyAmendment) (o : PendingHostApprovalOwner) : PendingHostApprovalOwner :=
  set_decision_on_drop (match amendment_action a with AllowHost => AllowForSession | DenyHost => DenyPending end) o.

Definition request_step (r : NetworkPolicyRequest) (a : NetworkRequestAttribution) (turn : option ApprovalTurn) : ApprovalTask :=
  let environment := match attributed_environment a with Some e => Some e | None => turn ≫= primary end in
  match environment with
  | None => TFinished Refused
  | Some environment_id =>
      TCheckLock (mkQuery r (owner_call a) environment_id (host_key_from_request r (approval_protocol (req_protocol r)) environment_id)) turn
  end.

Definition join_step (q : Query) (turn : option ApprovalTurn) (s : Service) : ApprovalTask * Service :=
  match turn with
  | None => (record_then q (DeniedByPolicy (policy_denial_message q)) (TFinished (Unattended q)), s)
  | Some t =>
      match get_or_create_pending_approval (pending_key_of q t) s with
      | ((p, true), s') => (TReview q t (new_owner (pending_key_of q t) p (call_token <$> q_call q)), s')
      | ((p, false), s') => (TWait q p, s')
      end
  end.

Definition review_step (q : Query) (t : ApprovalTurn) (o : PendingHostApprovalOwner) : ApprovalTask :=
  let refuse := record_then q (DeniedByPolicy (policy_denial_message q)) (deny_owner q o false) in
  if negb (is_some_and (profile_of q t) permission_profile_allows_network_approval_flow) then refuse
  else if negb (allows_network_approval_flow (turn_approval_policy t)) then refuse
  else THooks q t o.

Definition hooks_step (inp : ApprovalInputs) (q : Query) (t : ApprovalTurn) (o : PendingHostApprovalOwner) (s : Service) : ApprovalTask * Service :=
  match inp_hook inp with
  | Some HookAllow => (TCommit q t o Approved, add_review (q_key q) Approved s)
  | Some (HookDeny message) => (record_then q (DeniedByPolicy message) (deny_owner q o false), s)
  | None => (TAsk q t o, s)
  end.

Definition ask_step (inp : ApprovalInputs) (q : Query) (t : ApprovalTurn) (o : PendingHostApprovalOwner) (s : Service) : ApprovalTask * Service :=
  let broken := if routes_approval_to_guardian t then Denied (lit "automatic approval review could not complete") else Aborted in
  let d := default broken (inp_review inp) in
  (TCommit q t o d, add_review (q_key q) d s).

Definition persist_step (inp : ApprovalInputs) (q : Query) (o : PendingHostApprovalOwner) (a : NetworkPolicyAmendment) : ApprovalTask :=
  if inp_refresh_closed inp then TPersistDone q o a
  else match validated_network_policy_amendment_host a (req_host (q_request q)) with
       | None => TPersistDone q o a
       | Some _ => TPersistProxy q o a
       end.
Definition persist_proxy_step (inp : ApprovalInputs) (q : Query) (o : PendingHostApprovalOwner) (a : NetworkPolicyAmendment) : ApprovalTask :=
  match inp_proxy_update inp with
  | None => TPersistAppend q o a false
  | Some true => TPersistAppend q (policy_applied a o) a true
  | Some false => TPersistDone q o a
  end.
Definition persist_append_step (inp : ApprovalInputs) (q : Query) (o : PendingHostApprovalOwner) (a : NetworkPolicyAmendment) (applied : bool) : ApprovalTask :=
  if inp_append inp then TPersistDone q (if applied then o else policy_applied a o) a else TPersistDone q o a.
Definition persist_done_step (q : Query) (o : PendingHostApprovalOwner) (a : NetworkPolicyAmendment) : ApprovalTask :=
  match amendment_action a with
  | AllowHost =>
      if bool_decide (o_decision_on_drop o = AllowForSession) then TRemoveDenied q o
      else record_then q (DeniedByPolicy (policy_denial_message q)) (deny_owner q o true)
  | DenyHost => record_then q (DeniedByApproval (lit "rejected by user")) (TRemoveApproved q o)
  end.

Definition record_blocked_request (b : BlockedRequest) (s : Service) : ApprovalTask :=
  match denied_network_policy_message b with
  | None => TFinished Recorded
  | Some message =>
      match (match br_execution_id b with Some id => resolve_active_call_by_execution_id id s | None => resolve_single_active_call s end) with
      | Some call => TBlockedWrite call message
      | None => TFinished Recorded
      end
  end.
Definition record_blocked_write_outcome (c : ActiveNetworkApprovalCall) (message : str) (s : Service) : ApprovalTask * Service :=
  match call_outcomes s !! call_registration_id c with
  | Some _ => (TFinished Recorded, s)
  | None =>
      (TCancel (call_token c) (TFinished Recorded),
       set_calls (active_calls s) (<[call_registration_id c := DeniedByPolicy message]> (call_outcomes s)) s)
  end.

(** [OnceCell::get_or_init] around [finish_call_outcome]. *)
Definition finish_deferred (id : str) (cell : nat) (s : Service) : option NetworkApprovalOutcome * Service :=
  match finish_outcomes s !! cell with
  | Some (Some outcome) => (outcome, s)
  | _ => let '(outcome, s') := remove_call id s in (outcome, set_finish_outcomes (<[cell := Some outcome]> (finish_outcomes s')) s')
  end.

(** One step; [None] when the task is stuck. *)
Definition approval_step (inp : ApprovalInputs) (task : ApprovalTask) (s : Service) : option (ApprovalTask * Service) :=
  match task with
  | TBegin managed turn_id spec => let '(r, s') := begin_network_approval inp managed turn_id spec s in Some (TFinished (Began r), s')
  | TFinish id token => let '(outcome, s') := remove_call id s in Some (TFinishToken outcome token, s')
  | TFinishDeferred id token cell => let '(outcome, s') := finish_deferred id cell s in Some (TFinishToken outcome token, s')
  | TFinishToken outcome token =>
      let outcome := match outcome with Some o => Some o | None => abandoned_network_approval_outcome (is_cancelled token s) end in
      Some (TFinished (Ended (network_approval_outcome_to_result outcome)), s)
  | TUnregister id => Some (TFinished Recorded, snd (remove_call id s))
  | TBlocked b => Some (record_blocked_request b s, s)
  | TBlockedWrite c message => Some (record_blocked_write_outcome c message s)
  | TReceive hosts => Some (TFinished Recorded, receive hosts s)
  | TSync => if commit_lock s then None else Some (TFinished (Synced (session_approved_hosts s)), s)
  | TRequest r => Some (match resolve_request_attribution r s with Some a => TTurn r a | None => TFinished Refused end, s)
  | TTurn r a => Some (request_step r a (inp_turn inp), s)
  | TCheckLock q t => if commit_lock s then None else Some (TCheckDenied q t, set_lock true s)
  | TCheckDenied q t =>
      if bool_decide (q_key q ∈ session_denied_hosts s) then Some (TFinished (Remembered q false), set_lock false s) else Some (TCheckApproved q t, s)
  | TCheckApproved q t =>
      if bool_decide (q_key q ∈ session_approved_hosts s) then Some (TFinished (Remembered q true), set_lock false s) else Some (TJoin q t, set_lock false s)
  | TJoin q t => Some (join_step q t s)
  | TWait q p => match pendings s !! p with Some (_, Some d) => Some (TFinished (Reviewed q d), s) | _ => None end
  | TReview q t o => Some (review_step q t o, s)
  | THooks q t o => Some (hooks_step inp q t o s)
  | TAsk q t o => Some (ask_step inp q t o s)
  | TCommit q t o d =>
      if needs_commit_lock d then (if commit_lock s then None else Some (TResolve q t o d, set_lock true s)) else Some (TResolve q t o d, s)
  | TResolve q t o d => Some (resolve_decision q t o d s, s)
  | TPersist q o a => Some (persist_step inp q o a, s)
  | TPersistProxy q o a => Some (persist_proxy_step inp q o a, s)
  | TPersistAppend q o a applied => Some (persist_append_step inp q o a applied, s)
  | TPersistDone q o a => Some (persist_done_step q o a, s)
  | TRemoveDenied q o => Some (TInsertApproved q o, set_hosts (session_approved_hosts s) (session_denied_hosts s ∖ {[q_key q]}) s)
  | TInsertApproved q o =>
      Some (TComplete (set_decision_on_drop AllowForSession o) AllowForSession true (Reviewed q AllowForSession),
            set_hosts ({[q_key q]} ∪ session_approved_hosts s) (session_denied_hosts s) s)
  | TRemoveApproved q o => Some (TInsertDenied q o, set_hosts (session_approved_hosts s ∖ {[q_key q]}) (session_denied_hosts s) s)
  | TInsertDenied q o => Some (deny_owner q o true, set_hosts (session_approved_hosts s) ({[q_key q]} ∪ session_denied_hosts s) s)
  | TRecord id outcome next =>
      let '(token, s') := record_call_outcome id outcome s in Some (match token with Some token => TCancel token next | None => next end, s')
  | TCancel token next => Some (next, cancel token s)
  | TComplete o d locked r => Some (TRemove o d locked r, cancel_execution_if_denied o d s)
  | TRemove o d locked r => Some (TPublish o d locked r, remove_pending o s)
  | TPublish o d locked r => Some (if locked then TUnlock r else TFinished r, set_decision (o_pending o) d s)
  | TUnlock r => Some (TFinished r, set_lock false s)
  | TFinished _ => None
  end.

(** The review that a task owns, and whether it holds the lock of the session's policy. *)
Fixpoint owner_of (task : ApprovalTask) : option PendingHostApprovalOwner :=
  match task with
  | TReview _ _ o | THooks _ _ o | TAsk _ _ o | TCommit _ _ o _ | TResolve _ _ o _ | TPersist _ o _ | TPersistProxy _ o _ | TPersistAppend _ o _ _
  | TPersistDone _ o _ | TRemoveDenied _ o | TInsertApproved _ o | TRemoveApproved _ o | TInsertDenied _ o
  | TComplete o _ _ _ | TRemove o _ _ _ | TPublish o _ _ _ => Some o
  | TRecord _ _ next | TCancel _ next => owner_of next
  | _ => None
  end.

Fixpoint holds_lock (task : ApprovalTask) : bool :=
  match task with
  | TCheckDenied _ _ | TCheckApproved _ _ | TPersist _ _ _ | TPersistProxy _ _ _ | TPersistAppend _ _ _ _ | TPersistDone _ _ _
  | TRemoveDenied _ _ | TInsertApproved _ _ | TRemoveApproved _ _ | TInsertDenied _ _ | TUnlock _ => true
  | TResolve _ _ _ d => needs_commit_lock d
  | TComplete _ _ locked _ | TRemove _ _ locked _ | TPublish _ _ locked _ => locked
  | TRecord _ _ next | TCancel _ next => holds_lock next
  | _ => false
  end.

(** Requests that await something can be dropped; the lock is released before the owner of a
    review resolves it. *)
Definition awaits (task : ApprovalTask) : bool :=
  match task with
  | TRequest _ | TTurn _ _ | TCheckLock _ _ | TCheckDenied _ _ | TCheckApproved _ _ | TWait _ _ | THooks _ _ _ | TAsk _ _ _
  | TPersist _ _ _ | TPersistProxy _ _ _ | TPersistAppend _ _ _ _ | TPersistDone _ _ _ | TRemoveDenied _ _ | TInsertApproved _ _
  | TRemoveApproved _ _ | TInsertDenied _ _ | TRecord _ _ _ => true
  | TCommit _ _ _ d | TResolve _ _ _ d => needs_commit_lock d
  | _ => false
  end.

Definition drop_step (task : ApprovalTask) (s : Service) : option (ApprovalTask * Service) :=
  if awaits task then
    Some (match owner_of task with Some o => TComplete o (o_decision_on_drop o) false Dropped | None => TFinished Dropped end,
          if holds_lock task then set_lock false s else s)
  else None.

(** ** Systems *)

(** Registration ids are UUIDs that were not used before. *)
Inductive approvals_step : list ApprovalTask * Service -> list ApprovalTask * Service -> Prop :=
| approvals_step_task i inp ts s task task' s' :
    registered s !! inp_uuid inp = None -> ts !! i = Some task -> approval_step inp task s = Some (task', s') ->
    approvals_step (ts, s) (<[i := task']> ts, s')
| approvals_step_drop i ts s task task' s' :
    ts !! i = Some task -> drop_step task s = Some (task', s') ->
    approvals_step (ts, s) (<[i := task']> ts, s').

(** ** The invariant *)

Definition allowing (d : ReviewDecision) : bool :=
  match d with
  | Approved | ApprovedExecpolicyAmendment _ | ApprovedForSession => true
  | NetworkPolicyAmended a => match amendment_action a with AllowHost => true | DenyHost => false end
  | _ => false
  end.

(** Somebody allowed the host, here or in the session it came from. *)
Definition allowed_by (s : Service) (key : HostApprovalKey) : Prop :=
  (exists d, (key, d) ∈ reviews s /\ allowing d = true) \/ key ∈ received s.

Definition token_of (s : Service) (id : str) (token : nat) : Prop := registered s !! id = Some token /\ is_Some (tokens s !! token).

Definition call_ok (s : Service) (c : ActiveNetworkApprovalCall) : Prop := token_of s (call_registration_id c) (call_token c).
Definition calls_ok (s : Service) (c : option ActiveNetworkApprovalCall) : Prop := match c with Some c => call_ok s c | None => True end.

(** An approval with the key of a query. *)
Definition key_matches (k : PendingHostApprovalKey) (q : Query) : Prop :=
  pending_host k = q_key q /\ pending_execution_id k = call_registration_id <$> q_call q.

Definition owner_ok (s : Service) (o : PendingHostApprovalOwner) : Prop :=
  (exists d, pendings s !! o_pending o = Some (o_key o, d)) /\
  match pending_execution_id (o_key o) with
  | Some id => exists token, o_execution_cancellation o = Some token /\ token_of s id token
  | None => o_execution_cancellation o = None
  end /\
  (o_decision_on_drop o <> DenyPending -> allowed_by s (pending_host (o_key o))).

(** A query carries the key of its request. *)
Definition query_ok (s : Service) (q : Query) : Prop :=
  calls_ok s (q_call q) /\
  q_key q = host_key_from_request (q_request q) (approval_protocol (req_protocol (q_request q))) (q_environment q).

Definition cancelled_for (s : Service) (id : option str) : Prop :=
  match id with Some id => exists token, registered s !! id = Some token /\ tokens s !! token = Some true | None => True end.

(** A decision is backed by a review, or cancels the execution. *)
Definition backed (s : Service) (d : PendingApprovalDecision) (key : HostApprovalKey) : Prop := d <> DenyPending -> allowed_by s key.
Definition enforced (s : Service) (d : PendingApprovalDecision) (id : option str) : Prop := d = DenyPending -> cancelled_for s id.

Definition reviews_query (s : Service) (q : Query) (o : PendingHostApprovalOwner) : Prop :=
  query_ok s q /\ owner_ok s o /\ key_matches (o_key o) q.

Definition result_ok (s : Service) (r : ApprovalResult) : Prop :=
  match r with
  | Reviewed q d => query_ok s q /\ backed s d (q_key q) /\ enforced s d (call_registration_id <$> q_call q)
  | Remembered q true => query_ok s q /\ allowed_by s (q_key q)
  | _ => True
  end.

(** The result that follows the publication of a decision. *)
Definition publishes (s : Service) (o : PendingHostApprovalOwner) (d : PendingApprovalDecision) (r : ApprovalResult) : Prop :=
  match r with Reviewed q d' => d' = d /\ query_ok s q /\ key_matches (o_key o) q | Dropped => True | _ => False end.

Fixpoint approval_ok (s : Service) (task : ApprovalTask) : Prop :=
  match task with
  | TTurn _ a => calls_ok s (owner_call a)
  | TBlockedWrite c _ => call_ok s c
  | TCheckLock q _ | TCheckDenied q _ | TCheckApproved q _ | TJoin q _ => query_ok s q
  | TWait q p => query_ok s q /\ exists k d, pendings s !! p = Some (k, d) /\ key_matches k q
  | TReview q _ o | THooks q _ o | TAsk q _ o => reviews_query s q o
  | TCommit q _ o d | TResolve q _ o d => reviews_query s q o /\ (q_key q, d) ∈ reviews s
  | TPersist q o a | TPersistProxy q o a | TPersistAppend q o a _ | TPersistDone q o a =>
      reviews_query s q o /\ (q_key q, NetworkPolicyAmended a) ∈ reviews s
  | TRemoveDenied q o => reviews_query s q o /\ exists a, (q_key q, NetworkPolicyAmended a) ∈ reviews s /\ amendment_action a = AllowHost
  | TInsertApproved q o => reviews_query s q o /\ allowed_by s (q_key q)
  | TRemoveApproved q o | TInsertDenied q o => reviews_query s q o
  | TRecord _ _ next | TCancel _ next => approval_ok s next
  | TComplete o d _ r => owner_ok s o /\ backed s d (pending_host (o_key o)) /\ publishes s o d r
  | TRemove o d _ r =>
      owner_ok s o /\ backed s d (pending_host (o_key o)) /\ publishes s o d r /\ enforced s d (pending_execution_id (o_key o))
  | TPublish o d _ r =>
      owner_ok s o /\ backed s d (pending_host (o_key o)) /\ publishes s o d r /\ enforced s d (pending_execution_id (o_key o)) /\
      (forall k, pending_host_approvals s !! k <> Some (o_pending o))
  | TUnlock r | TFinished r => result_ok s r
  | _ => True
  end.

Record service_ok (s : Service) : Prop := {
  (* approvals that can be joined are undecided *)
  so_map : forall k p, pending_host_approvals s !! k = Some p -> pendings s !! p = Some (k, None);
  so_backed : forall p k d, pendings s !! p = Some (k, Some d) -> backed s d (pending_host k);
  so_enforced : forall p k d, pendings s !! p = Some (k, Some d) -> enforced s d (pending_execution_id k);
  so_approved : forall key, key ∈ session_approved_hosts s -> allowed_by s key;
  so_calls : Forall (fun e => fst e = call_registration_id (snd e) /\ call_ok s (snd e)) (active_calls s);
}.

Definition owns (p : nat) (task : ApprovalTask) : bool := match owner_of task with Some o => bool_decide (o_pending o = p) | None => false end.

(** Whether an approval was created and awaits its decision. *)
Definition undecided (s : Service) (p : nat) : nat := match pendings s !! p with Some (_, None) => 1 | _ => 0 end.

Definition count {A} (f : A -> bool) (l : list A) : nat := length (List.filter f l).

(** The whole system: the lock has as many holders as it should, and every pending approval has
    one owner until it is decided and none afterwards. *)
Record approvals_ok (sys : list ApprovalTask * Service) : Prop := {
  ao_service : service_ok (snd sys);
  ao_tasks : Forall (approval_ok (snd sys)) (fst sys);
  ao_lock : count holds_lock (fst sys) = Nat.b2n (commit_lock (snd sys));
  ao_owners : forall p, count (owns p) (fst sys) = undecided (snd sys) p;
}.

(** ** How the service evolves *)

Record service_le (s s' : Service) : Prop := {
  le_pendings : forall p k d, pendings s !! p = Some (k, d) -> exists d', pendings s' !! p = Some (k, d') /\ (d <> None -> d' = d);
  le_map : forall k p, pending_host_approvals s' !! k = Some p -> pending_host_approvals s !! k = Some p \/ length (pendings s) <= p;
  le_cancelled : forall token, tokens s !! token = Some true -> tokens s' !! token = Some true;
  le_tokens : forall token, is_Some (tokens s !! token) -> is_Some (tokens s' !! token);
  le_registered : registered s ⊆ registered s';
  le_reviews : reviews s ⊆ reviews s';
  le_received : received s ⊆ received s';
}.

#[local] Hint Constructors service_le : core.

Section stability.
Context (s s' : Service) (Hle : service_le s s').

Lemma allowed_by_le key : allowed_by s key -> allowed_by s' key.
Proof. destruct Hle. intros [(d & Hd & Ha)|Hr]; [left; eauto|right; set_solver]. Qed.

Lemma token_of_le id token : token_of s id token -> token_of s' id token.
Proof. destruct Hle. intros [Hr Ht]. split; [by eapply lookup_weaken|eauto]. Qed.

Lemma calls_ok_le c : calls_ok s c -> calls_ok s' c.
Proof. destruct c; [apply token_of_le|done]. Qed.

Lemma query_ok_le q : query_ok s q -> query_ok s' q.
Proof. intros [? ?]. split; [by apply calls_ok_le|done]. Qed.

Lemma cancelled_for_le id : cancelled_for s id -> cancelled_for s' id.
Proof. destruct Hle, id; [|done]. intros (token & Hr & Ht). exists token. split; [by eapply lookup_weaken|eauto]. Qed.

Lemma backed_le d key : backed s d key -> backed s' d key.
Proof. intros Hb Hd. by apply allowed_by_le, Hb. Qed.

Lemma enforced_le d id : enforced s d id -> enforced s' d id.
Proof. intros Hb Hd. by apply cancelled_for_le, Hb. Qed.

Lemma owner_ok_le o : owner_ok s o -> owner_ok s' o.
Proof.
  intros ((d & Hd) & Ht & Ha). split; [|split].
  - destruct (le_pendings _ _ Hle _ _ _ Hd) as (d' & Hd' & _). eauto.
  - destruct (pending_execution_id _); [|done]. destruct Ht as (token & ? & ?). eauto using token_of_le.
  - intros Hn. by apply allowed_by_le, Ha.
Qed.

Lemma reviews_query_le q o : reviews_query s q o -> reviews_query s' q o.
Proof. intros (? & ? & ?). split_and!; eauto using query_ok_le, owner_ok_le. Qed.

Lemma result_ok_le r : result_ok s r -> result_ok s' r.
Proof. destruct r as [| | | | |q []| |q d|]; simpl; try done; [intros [? ?]; eauto using query_ok_le, allowed_by_le|]. intros (? & ? & ?). split_and!; eauto using query_ok_le, backed_le, enforced_le. Qed.

Lemma publishes_le o d r : publishes s o d r -> publishes s' o d r.
Proof. destruct r; simpl; try done. intros (? & ? & ?). eauto using query_ok_le. Qed.

Lemma approval_ok_le task : approval_ok s task -> approval_ok s' task.
Proof.
  pose proof (le_reviews _ _ Hle) as Hr.
  induction task; simpl; try done; intros Hok; destruct_and?; split_and?;
    eauto using calls_ok_le, query_ok_le, token_of_le, reviews_query_le, owner_ok_le, backed_le, enforced_le, publishes_le, result_ok_le, allowed_by_le.
  - by eapply token_of_le.
  - destruct H0 as (k & d & Hp & Hk). destruct (le_pendings _ _ Hle _ _ _ Hp) as (d' & Hd' & _). eauto.
  - destruct H0 as (a & ? & ?). exists a. eauto.
  - intros k Hk. destruct H as ((d' & Hd') & _). apply (le_map _ _ Hle) in Hk as [Hk|Hk]; [naive_solver|].
    apply lookup_lt_Some in Hd'. lia.
Qed.

End stability.

(** ** Steps *)

(** Steps of the parts of a request. *)
Ltac unfold_step H :=
  unfold begin_network_approval, remove_call, finish_deferred, record_blocked_request, record_blocked_write_outcome, request_step, join_step, review_step,
    hooks_step, ask_step, record_call_outcome, cancel_execution_if_denied, get_or_create_pending_approval, remove_pending, set_decision, resolve_decision,
    persist_step, persist_proxy_step, persist_append_step, persist_done_step, remove_call in H.

Section steps.

(** Most steps leave the shared objects alone. *)
Lemma le_same s s' :
  pendings s' = pendings s -> pending_host_approvals s' = pending_host_approvals s -> tokens s' = tokens s ->
  registered s' = registered s -> reviews s' = reviews s -> received s' = received s -> service_le s s'.
Proof. intros Hp Hm Ht Hr Hv Hc. constructor; rewrite ?Hp, ?Hm, ?Ht, ?Hr, ?Hv, ?Hc; eauto. Qed.

Lemma cancel_le token s : service_le s (cancel token s).
Proof.
  constructor; simpl; eauto; intros token'; destruct (decide (token = token')) as [->|Hn].
  1: intros ?%lookup_lt_Some; by rewrite list_lookup_insert_eq.
  1: by rewrite list_lookup_insert_ne.
  1: intros Hs%lookup_lt_is_Some; rewrite list_lookup_insert_eq; eauto.
  by rewrite list_lookup_insert_ne.
Qed.

Lemma set_decision_le p d s : (forall k, pending_host_approvals s !! k <> Some p) -> service_le s (set_decision p d s).
Proof.
  intros Hm. unfold set_decision. destruct (pendings s !! p) as [[k [x|]]|] eqn:E; [by apply le_same| |by apply le_same].
  constructor; simpl; eauto. intros p' k' d' Hp. destruct (decide (p = p')) as [<-|Hn].
  - rewrite list_lookup_insert_eq by eauto using lookup_lt_Some. simplify_eq. by exists (Some d).
  - rewrite list_lookup_insert_ne by done. eauto.
Qed.

Lemma remove_pending_le o s : service_le s (remove_pending o s).
Proof.
  unfold remove_pending. case_bool_decide; [|by apply le_same]. constructor; simpl; eauto.
  intros k p [_ ?]%lookup_delete_Some. eauto.
Qed.

Lemma create_pending_le key s r s' : get_or_create_pending_approval key s = (r, s') -> service_le s s'.
Proof.
  unfold get_or_create_pending_approval. destruct (pending_host_approvals s !! key) eqn:E; intros [= <- <-]; [by apply le_same|].
  constructor; simpl; eauto.
  - intros p k d Hp. rewrite lookup_app_l by eauto using lookup_lt_Some. eauto.
  - intros k p. rewrite lookup_insert_Some. intros [[_ <-]|[_ ?]]; eauto.
Qed.

Lemma add_review_le key d s : service_le s (add_review key d s).
Proof. constructor; simpl; eauto. set_solver. Qed.

Lemma receive_le hosts s : service_le s (receive hosts s).
Proof. constructor; simpl; eauto. set_solver. Qed.

Lemma register_le c s :
  registered s !! call_registration_id c = None -> service_le s (register_call c (set_tokens (tokens s ++ [false]) s)).
Proof.
  intros Hf. constructor; simpl; eauto.
  - intros token Ht. rewrite lookup_app_l by eauto using lookup_lt_Some. done.
  - intros token Ht. rewrite lookup_app_l by by apply lookup_lt_is_Some. done.
  - by apply insert_subseteq.
Qed.

Lemma approval_step_le inp task s task' s' :
  registered s !! inp_uuid inp = None -> approval_ok s task -> approval_step inp task s = Some (task', s') -> service_le s s'.
Proof.
  intros Hf Hok Hstep.
  destruct task; simpl in Hstep, Hok;
    unfold begin_network_approval, remove_call, finish_deferred, record_blocked_write_outcome, join_step, hooks_step, ask_step, record_call_outcome,
      cancel_execution_if_denied in Hstep;
    repeat case_match; simplify_eq/=; try (by apply le_same);
    eauto using cancel_le, set_decision_le, remove_pending_le, create_pending_le, add_review_le, receive_le, register_le.
  1-2: unfold remove_call in *; simplify_eq; by apply le_same.
  all: destruct Hok as (_ & _ & _ & _ & Hm); by apply set_decision_le.
Qed.

Lemma drop_step_le task s task' s' : drop_step task s = Some (task', s') -> service_le s s'.
Proof. unfold drop_step. intros Hd. repeat case_match; simplify_eq; by apply le_same. Qed.

(** The invariant of the service, where no approval is created or decided. *)
Lemma service_ok_same s s' :
  service_ok s -> service_le s s' -> pendings s' = pendings s ->
  (forall k p, pending_host_approvals s' !! k = Some p -> pending_host_approvals s !! k = Some p) ->
  (forall key, key ∈ session_approved_hosts s' -> key ∈ session_approved_hosts s \/ allowed_by s' key) ->
  (forall e, e ∈ active_calls s' -> e ∈ active_calls s \/ fst e = call_registration_id (snd e) /\ call_ok s' (snd e)) ->
  service_ok s'.
Proof.
  intros [Hm Hb He Ha Hc] Hle Hp Hmap Happ Hcalls. constructor.
  - intros k p Hk. rewrite Hp. by apply Hm, Hmap.
  - intros p k d. rewrite Hp. intros Hk. eapply backed_le; [done|by eapply Hb].
  - intros p k d. rewrite Hp. intros Hk. eapply enforced_le; [done|by eapply He].
  - intros key [Hk|Hk]%Happ; [|done]. eapply allowed_by_le; [done|by apply Ha].
  - apply Forall_forall. intros e [Hin|Hin]%Hcalls; [|done]. rewrite Forall_forall in Hc. apply Hc in Hin as [? ?].
    split; [done|]. by eapply token_of_le.
Qed.

Lemma create_pending_ok key s r s' : get_or_create_pending_approval key s = (r, s') -> service_ok s -> service_ok s'.
Proof.
  unfold get_or_create_pending_approval. intros Hg [Hm Hb He Ha Hc]. destruct (_ !! key) eqn:E; simplify_eq; [done|]. constructor; simpl.
  - intros k p. rewrite lookup_insert_Some. intros [[<- <-]|[Hn Hk]]; [by rewrite list_lookup_middle|].
    rewrite lookup_app_l by eauto using lookup_lt_Some. by apply Hm.
  - intros p k d Hp%lookup_snoc_Some. destruct Hp as [[_ Hp]|[_ Hp]]; [by eapply Hb|done].
  - intros p k d Hp%lookup_snoc_Some. destruct Hp as [[_ Hp]|[_ Hp]]; [by eapply He|done].
  - done.
  - done.
Qed.

Lemma set_decision_ok o d s :
  service_ok s -> backed s d (pending_host (o_key o)) -> enforced s d (pending_execution_id (o_key o)) ->
  (forall k, pending_host_approvals s !! k <> Some (o_pending o)) -> owner_ok s o -> service_ok (set_decision (o_pending o) d s).
Proof.
  intros [Hm Hb He Ha Hc] Hd Hn Hout ((d0 & Hp) & _). unfold set_decision. rewrite Hp. destruct d0; [done|].
  constructor; simpl; [| | |done..]; intros.
  - rewrite list_lookup_insert_ne by naive_solver. by apply Hm.
  - revert H. rewrite list_lookup_insert_Some. intros [(-> & [= <- <-] & _)|[_ Hk]]; [done|by eapply Hb].
  - revert H. rewrite list_lookup_insert_Some. intros [(-> & [= <- <-] & _)|[_ Hk]]; [done|by eapply He].
Qed.

Lemma approval_step_service inp task s task' s' :
  registered s !! inp_uuid inp = None -> service_ok s -> approval_ok s task -> approval_step inp task s = Some (task', s') -> service_ok s'.
Proof.
  intros Hf Hs Hok Hstep. pose proof (approval_step_le _ _ _ _ _ Hf Hok Hstep) as Hle.
  destruct task; simpl in Hstep, Hok;
    unfold begin_network_approval, remove_call, finish_deferred, record_blocked_write_outcome, join_step, hooks_step, ask_step, record_call_outcome,
      cancel_execution_if_denied in Hstep;
    repeat case_match; simplify_eq/=; try done;
    try (eapply service_ok_same; [done|done|done|naive_solver|naive_solver|naive_solver]).
  - eapply service_ok_same; simpl; [done..| |]; [naive_solver|]. intros e [->|?]%index_insert_elem; [|by left]. right. split; [done|].
    split; simpl; [apply lookup_insert_eq|]. rewrite lookup_app_r, Nat.sub_diag by done. by eexists.
  - eapply service_ok_same; simpl; [done..| |]; [naive_solver|]. eauto using shift_remove_elem.
  - unfold remove_call in *. simplify_eq. eapply service_ok_same; simpl; [done..| |]; [naive_solver|]. eauto using shift_remove_elem.
  - unfold remove_call in *. simplify_eq. eapply service_ok_same; simpl; [done..| |]; [naive_solver|]. eauto using shift_remove_elem.
  - eapply service_ok_same; simpl; [done..| |]; [naive_solver|]. eauto using shift_remove_elem.
  - eapply service_ok_same; simpl; [done..| |]; [|naive_solver]. intros key Hk. right. right. set_solver.
  - by eapply create_pending_ok.
  - by eapply create_pending_ok.
  - destruct Hok as [_ Ha]. eapply service_ok_same; simpl; [done..| |]; [|naive_solver].
    intros key [->%elem_of_singleton|?]%elem_of_union; [|by left]. right. by eapply allowed_by_le.
  - eapply service_ok_same; simpl; [done..| |]; [|naive_solver]. set_solver.
  - unfold remove_pending in *. case_bool_decide; [|done]. eapply service_ok_same; simpl; [done..| | |]; [|naive_solver|naive_solver].
    by intros k p [_ ?]%lookup_delete_Some.
  - destruct Hok as (? & ? & ? & ? & ?). by apply set_decision_ok.
  - destruct Hok as (? & ? & ? & ? & ?). by apply set_decision_ok.
Qed.

Lemma drop_step_service task s task' s' : service_ok s -> drop_step task s = Some (task', s') -> service_ok s'.
Proof.
  intros Hs Hd. pose proof (drop_step_le _ _ _ _ Hd) as Hle. unfold drop_step in Hd. repeat case_match; simplify_eq; try done;
    (eapply service_ok_same; simpl; [done..|naive_solver|naive_solver]).
Qed.

(** The tasks that steps lead to. *)

Lemma record_then_ok s q outcome next : approval_ok s next -> approval_ok s (record_then q outcome next).
Proof. unfold record_then. by destruct (q_call q). Qed.

Lemma deny_owner_ok s q o locked : reviews_query s q o -> approval_ok s (deny_owner q o locked).
Proof. intros (? & ? & ?). simpl. unfold backed. naive_solver. Qed.

Lemma on_drop_ok s q o d : reviews_query s q o -> backed s d (q_key q) -> reviews_query s q (set_decision_on_drop d o).
Proof. intros (? & (? & ? & _) & Hk & ?) Hb. split_and!; [done|split_and!; try done|done..]. simpl. by rewrite Hk. Qed.

Lemma allow_owner_ok s q o d : reviews_query s q o -> backed s d (q_key q) -> approval_ok s (TComplete (set_decision_on_drop d o) d true (Reviewed q d)).
Proof.
  intros Hq Hb. destruct (on_drop_ok _ _ _ _ Hq Hb) as (? & ? & Hk & ?). split_and!; try done. by rewrite <- Hk in Hb.
Qed.

Lemma reviewed_allowed s key d : (key, d) ∈ reviews s -> allowing d = true -> allowed_by s key.
Proof. left. eauto. Qed.

Lemma resolve_decision_ok q t o d s : reviews_query s q o -> (q_key q, d) ∈ reviews s -> approval_ok s (resolve_decision q t o d s).
Proof.
  intros Hq Hr. unfold resolve_decision.
  destruct d; repeat case_bool_decide; auto using record_then_ok, deny_owner_ok; try (apply allow_owner_ok; [done|]);
    try (intros _; by eapply reviewed_allowed); try done.
  split; [done|]. by eapply reviewed_allowed.
Qed.

Lemma policy_applied_ok s q o a :
  reviews_query s q o -> (q_key q, NetworkPolicyAmended a) ∈ reviews s -> reviews_query s q (policy_applied a o).
Proof.
  intros Hq Hr. apply on_drop_ok; [done|]. destruct (amendment_action a) eqn:E; [|by intros []]. intros _.
  eapply reviewed_allowed; [done|]. simpl. by rewrite E.
Qed.

Lemma find_call_ok s id c : service_ok s -> resolve_active_call_by_execution_id id s = Some c -> call_ok s c /\ call_registration_id c = id.
Proof.
  intros Hs Hr%index_get_elem. pose proof (so_calls _ Hs) as Hc. rewrite Forall_forall in Hc. apply Hc in Hr as [? ?]. by simpl in *.
Qed.

Lemma single_call_ok s c : service_ok s -> resolve_active_call_attribution s = SingleCall c -> call_ok s c.
Proof.
  intros Hs. pose proof (so_calls _ Hs) as Hc. unfold resolve_active_call_attribution.
  destruct (active_calls s) as [|[id c'] [|]]; [done| |done]. intros [= ->]. by inversion Hc as [|? ? [_ ?]].
Qed.

Lemma attribution_ok s r a : service_ok s -> resolve_request_attribution r s = Some a -> calls_ok s (owner_call a).
Proof.
  intros Hs Ha. unfold resolve_request_attribution in Ha. destruct (req_execution_id r) as [id|].
  - destruct (resolve_active_call_by_execution_id id s) as [c|] eqn:E; simpl in Ha; [|done]. apply find_call_ok in E as [? _]; [|done].
    case_match; by simplify_eq.
  - destruct (req_environment_id r); destruct (resolve_active_call_attribution s) eqn:E; simplify_eq/=; try done.
    + case_match; simpl; [by apply single_call_ok|done].
    + by apply single_call_ok.
Qed.

Lemma blocked_ok s b : service_ok s -> approval_ok s (record_blocked_request b s).
Proof.
  intros Hs. unfold record_blocked_request. destruct (denied_network_policy_message b); [|done].
  destruct (br_execution_id b) as [id|].
  - destruct (resolve_active_call_by_execution_id id s) eqn:E; [|done]. by apply find_call_ok in E as [? _].
  - unfold resolve_single_active_call. pose proof (so_calls _ Hs) as Hc.
    destruct (active_calls s) as [|[id c'] [|]]; [done| |done]. by inversion Hc as [|? ? [_ ?]].
Qed.

Lemma join_ok q t s task' s' : service_ok s -> query_ok s q -> join_step q t s = (task', s') -> approval_ok s' task'.
Proof.
  intros Hs Hq. unfold join_step. destruct t as [t|]; [|intros [= <- <-]; by apply record_then_ok].
  pose proof (create_pending_le (pending_key_of q t) s) as Hle. unfold get_or_create_pending_approval in *.
  assert (Hk : key_matches (pending_key_of q t) q) by done.
  destruct (pending_host_approvals s !! pending_key_of q t) as [p|] eqn:E; intros [= <- <-].
  - split; [done|]. apply (so_map _ Hs) in E. eauto.
  - specialize (Hle _ _ eq_refl). split; [by eapply query_ok_le|]. split; [|done]. destruct Hq as [Hq _].
    split; simpl; [exists None; by rewrite list_lookup_middle|]. split; [|by intros []].
    destruct (q_call q) as [c|]; simpl; [|done]. exists (call_token c). split; [done|]. by eapply token_of_le.
Qed.

Lemma remove_pending_out o s :
  service_ok s -> owner_ok s o -> forall k, pending_host_approvals (remove_pending o s) !! k <> Some (o_pending o).
Proof.
  intros Hs ((d & Hd) & _) k. unfold remove_pending. case_bool_decide as Hc; simpl.
  - intros [Hn Hk]%lookup_delete_Some. apply (so_map _ Hs) in Hk. congruence.
  - intros Hk. pose proof (so_map _ Hs _ _ Hk) as Hk'. congruence.
Qed.

Lemma cancel_enforced o d s : owner_ok s o -> enforced (cancel_execution_if_denied o d s) d (pending_execution_id (o_key o)).
Proof.
  intros (_ & Ht & _) ->. unfold cancelled_for. destruct (pending_execution_id (o_key o)) as [id|]; [|done].
  destruct Ht as (token & Ho & Hr & Hs). unfold cancel_execution_if_denied. rewrite Ho. exists token. split; [done|].
  simpl. rewrite list_lookup_insert_eq by (by apply lookup_lt_is_Some). done.
Qed.

Lemma approval_step_task inp task s task' s' :
  registered s !! inp_uuid inp = None -> service_ok s -> approval_ok s task -> approval_step inp task s = Some (task', s') -> approval_ok s' task'.
Proof.
  intros Hf Hs Hok Hstep. pose proof (approval_step_le _ _ _ _ _ Hf Hok Hstep) as Hle.
  pose proof (approval_step_service _ _ _ _ _ Hf Hs Hok Hstep) as Hs'.
  destruct task; simpl in Hstep, Hok; simplify_eq/=; try done.
  - by destruct (begin_network_approval _ _ _ _ _); simplify_eq.
  - by destruct (finish_deferred _ _ _); simplify_eq.
  - by apply blocked_ok.
  - unfold record_blocked_write_outcome in Hstep. by case_match; simplify_eq.
  - by case_match; simplify_eq.
  - destruct (resolve_request_attribution r s') eqn:E; [|done]. by eapply attribution_ok.
  - unfold request_step. by destruct (match attributed_environment a with Some e => _ | None => _ end).
  - by case_match; simplify_eq.
  - by case_bool_decide; simplify_eq.
  - case_bool_decide; simplify_eq; [|done]. split; [done|]. by apply (so_approved _ Hs').
  - by eapply (join_ok _ _ _ _ _ Hs).
  - destruct Hok as (Hq & k & d & Hp & Hk). rewrite Hp in Hstep. destruct d as [d|]; simplify_eq. destruct Hk as [Hh He].
    split; [done|]. rewrite <- Hh, <- He. split; [by eapply so_backed|by eapply so_enforced].
  - unfold review_step. repeat case_match; auto using record_then_ok, deny_owner_ok.
  - unfold hooks_step in Hstep. destruct (inp_hook inp) as [[|message]|]; simplify_eq/=; auto using record_then_ok, deny_owner_ok.
    split; [by eapply reviews_query_le|set_solver].
  - unfold ask_step in Hstep. simplify_eq/=. split; [by eapply reviews_query_le|set_solver].
  - repeat case_match; by simplify_eq.
  - destruct Hok. by apply resolve_decision_ok.
  - destruct Hok. unfold persist_step. by repeat case_match.
  - destruct Hok. unfold persist_proxy_step. repeat case_match; simpl; auto using policy_applied_ok.
  - destruct Hok. unfold persist_append_step. repeat case_match; simpl; auto using policy_applied_ok.
  - destruct Hok as [Hq Hr]. unfold persist_done_step. destruct (amendment_action a) eqn:E.
    + case_bool_decide; [|by apply record_then_ok, deny_owner_ok]. split; [done|]. by exists a.
    + by apply record_then_ok.
  - destruct Hok as (Hq & a & Hr & Ha). apply (approval_ok_le _ _ Hle (TInsertApproved q o)). split; [done|].
    eapply reviewed_allowed; [done|]. simpl. by rewrite Ha.
  - destruct Hok as [Hq Ha]. eapply (approval_ok_le _ _ Hle (TComplete (set_decision_on_drop AllowForSession o) AllowForSession true (Reviewed q AllowForSession))).
    apply allow_owner_ok; [done|by intros _].
  - apply (approval_ok_le _ _ Hle (deny_owner q o true)). by apply deny_owner_ok.
  - destruct (record_call_outcome _ _ _) as [token s1]. simplify_eq. destruct token; by eapply approval_ok_le.
  - by eapply approval_ok_le.
  - destruct Hok as (Ho & Hb & Hp). split_and!; eauto using owner_ok_le, backed_le, publishes_le, cancel_enforced.
  - destruct Hok as (Ho & Hb & Hp & He). split_and!; eauto using owner_ok_le, backed_le, publishes_le, enforced_le, remove_pending_out.
  - destruct Hok as (Ho & Hb & Hp & He & Hm).
    assert (result_ok (set_decision (o_pending o) d s) r); [|by destruct locked].
    apply (result_ok_le _ _ Hle). destruct r; try done. destruct Hp as (-> & Hc & Hh & Hx). rewrite Hh in Hb. rewrite Hx in He. by split_and!.
Qed.

Lemma owner_of_ok s task o : approval_ok s task -> owner_of task = Some o -> owner_ok s o.
Proof. induction task; simpl; try done; intros Hok Ho; simplify_eq; destruct_and?; unfold reviews_query in *; destruct_and?; auto. Qed.

Lemma drop_step_task task s task' s' : approval_ok s task -> drop_step task s = Some (task', s') -> approval_ok s' task'.
Proof.
  intros Hok Hd. pose proof (drop_step_le _ _ _ _ Hd) as Hle. unfold drop_step in Hd. destruct (awaits task); [|done]. simplify_eq.
  destruct (owner_of task) as [o|] eqn:E; [|done]. pose proof (owner_of_ok _ _ _ Hok E) as Ho. split_and!; [by eapply owner_ok_le| |done].
  eapply backed_le; [done|]. by destruct Ho as (_ & _ & Ho).
Qed.

Lemma record_then_lock q outcome next : holds_lock (record_then q outcome next) = holds_lock next.
Proof. unfold record_then. by destruct (q_call q). Qed.
Lemma record_then_owner q outcome next : owner_of (record_then q outcome next) = owner_of next.
Proof. unfold record_then. by destruct (q_call q). Qed.

(** A step takes the lock when it is free, releases it, or leaves it alone. *)
Lemma approval_step_lock inp task s task' s' :
  approval_step inp task s = Some (task', s') -> (holds_lock task = true -> commit_lock s = true) ->
  Nat.b2n (commit_lock s') + Nat.b2n (holds_lock task) = Nat.b2n (commit_lock s) + Nat.b2n (holds_lock task').
Proof.
  intros Hstep Hh.
  destruct task; simpl in Hstep, Hh; unfold_step Hstep; repeat case_match; simplify_eq/=; rewrite ?record_then_lock; simpl;
    try (unfold remove_call in *; simplify_eq/=); rewrite ?Hh by done; try done; try lia.
  all: by repeat match goal with H : _ = _ :> bool |- _ => rewrite H; clear H end.
Qed.

Lemma drop_step_lock task s task' s' :
  drop_step task s = Some (task', s') -> (holds_lock task = true -> commit_lock s = true) ->
  Nat.b2n (commit_lock s') + Nat.b2n (holds_lock task) = Nat.b2n (commit_lock s) + Nat.b2n (holds_lock task').
Proof. unfold drop_step. intros Hd Hh. destruct (awaits task); [|done]. simplify_eq. destruct (holds_lock task); [rewrite Hh by done|]; destruct (owner_of task); simpl; lia. Qed.

(** A step creates an approval together with its owner, decides it when its owner leaves it, or
    changes neither. *)
Lemma owner_step inp task s task' s' :
  approval_step inp task s = Some (task', s') ->
  (forall q t, task <> TJoin q t) -> (forall o d l r, task <> TPublish o d l r) ->
  pendings s' = pendings s /\ o_pending <$> owner_of task' = o_pending <$> owner_of task.
Proof.
  intros Hstep Hj Hp. destruct task; simpl in Hstep; try (by destruct (Hj q t)); try (by destruct (Hp o d locked r));
    unfold_step Hstep; repeat case_match; simplify_eq/=; rewrite ?record_then_owner; try done.
Qed.

Lemma approval_step_owners inp task s task' s' p :
  service_ok s -> approval_step inp task s = Some (task', s') -> (owns p task = true -> undecided s p = 1) ->
  Nat.b2n (owns p task') + undecided s p = Nat.b2n (owns p task) + undecided s' p.
Proof.
  intros Hs Hstep Ho.
  assert (Hsame : pendings s' = pendings s /\ o_pending <$> owner_of task' = o_pending <$> owner_of task ->
    Nat.b2n (owns p task') + undecided s p = Nat.b2n (owns p task) + undecided s' p).
  { intros [Hp He]. assert (owns p task' = owns p task) as ->.
    { unfold owns. destruct (owner_of task'), (owner_of task); simpl in He; [by injection He as ->|done|done|done]. }
    unfold undecided. by rewrite Hp. }
  destruct task; try (apply Hsame, (owner_step _ _ _ _ _ Hstep); done); simpl in Hstep.
  - unfold join_step, get_or_create_pending_approval in Hstep.
    destruct t as [t|]; [|apply Hsame; simplify_eq; by rewrite record_then_owner].
    destruct (pending_host_approvals s !! _) as [p'|] eqn:E; simplify_eq/=; [by apply Hsame|].
    unfold owns, undecided. simpl. case_bool_decide as Hp.
    + subst p. rewrite list_lookup_middle, lookup_ge_None_2 by done. done.
    + destruct (decide (p < length (pendings s))); [by rewrite lookup_app_l|].
      rewrite !lookup_ge_None_2; rewrite ?length_app; simpl; lia.
  - simplify_eq. unfold owns in *. simpl in *. unfold set_decision. case_bool_decide as Hp.
    + subst p. specialize (Ho eq_refl). unfold undecided in *. destruct (pendings s !! o_pending o) as [[k [x|]]|] eqn:E; [done| |done].
      simpl. rewrite list_lookup_insert_eq by eauto using lookup_lt_Some. by destruct locked.
    + replace (owner_of (if locked then TUnlock r else TFinished r)) with (@None PendingHostApprovalOwner) by (by destruct locked).
      unfold undecided. destruct (pendings s !! o_pending o) as [[k [x|]]|] eqn:E; [done| |done]. simpl. by rewrite list_lookup_insert_ne.
Qed.

Lemma drop_step_owners task s task' s' p :
  drop_step task s = Some (task', s') -> Nat.b2n (owns p task') + undecided s p = Nat.b2n (owns p task) + undecided s' p.
Proof.
  unfold drop_step, owns, undecided. intros Hd. destruct (awaits task); [|done]. simplify_eq.
  destruct (owner_of task), (holds_lock task); simpl; lia.
Qed.

Lemma count_insert {A} (f : A -> bool) (l : list A) i x y :
  l !! i = Some x -> count f (<[i := y]> l) + Nat.b2n (f x) = count f l + Nat.b2n (f y).
Proof.
  unfold count. revert i. induction l as [|a l IH]; intros [|i] Hi; simplify_eq/=; [|specialize (IH i Hi)]; repeat case_match; simpl in *; lia.
Qed.

Lemma count_pos {A} (f : A -> bool) (l : list A) i x : l !! i = Some x -> f x = true -> 1 <= count f l.
Proof.
  unfold count. revert i. induction l as [|a l IH]; intros [|i] Hi Hf; simplify_eq/=; [rewrite Hf; simpl; lia|].
  specialize (IH i Hi Hf). case_match; simpl; lia.
Qed.

Lemma approvals_step_ok sys sys' : approvals_ok sys -> approvals_step sys sys' -> approvals_ok sys'.
Proof.
  intros [Hs Ht Hl Ho] Hstep.
  destruct Hstep as [i inp ts s task task' s' Hf Hi Hstep|i ts s task task' s' Hi Hstep]; simpl in *;
    assert (Hok : approval_ok s task) by (by eapply Forall_lookup in Hi);
    assert (Hh : holds_lock task = true -> commit_lock s = true)
      by (intros Hh; pose proof (count_pos holds_lock _ _ _ Hi Hh); destruct (commit_lock s); [done|simpl in *; lia]);
    assert (Hw : forall p, owns p task = true -> undecided s p = 1)
      by (intros p Hp; pose proof (count_pos (owns p) _ _ _ Hi Hp); specialize (Ho p); unfold undecided in *; repeat case_match; lia).
  - pose proof (approval_step_le _ _ _ _ _ Hf Hok Hstep) as Hle. constructor; simpl.
    + by eapply approval_step_service.
    + apply Forall_insert; [|by eapply approval_step_task]. eapply Forall_impl; [done|]. intros t'. by apply approval_ok_le.
    + pose proof (count_insert holds_lock _ _ _ task' Hi). pose proof (approval_step_lock _ _ _ _ _ Hstep Hh). lia.
    + intros p. pose proof (count_insert (owns p) _ _ _ task' Hi). pose proof (approval_step_owners _ _ _ _ _ p Hs Hstep (Hw p)). specialize (Ho p). lia.
  - pose proof (drop_step_le _ _ _ _ Hstep) as Hle. constructor; simpl.
    + by eapply drop_step_service.
    + apply Forall_insert; [|by eapply drop_step_task]. eapply Forall_impl; [done|]. intros t'. by apply approval_ok_le.
    + pose proof (count_insert holds_lock _ _ _ task' Hi). pose proof (drop_step_lock _ _ _ _ Hstep Hh). lia.
    + intros p. pose proof (count_insert (owns p) _ _ _ task' Hi). pose proof (drop_step_owners _ _ _ _ p Hstep). specialize (Ho p). lia.
Qed.

End steps.

(** ** Reachable systems *)

(** Tasks that have not begun. *)
Definition initial (task : ApprovalTask) : bool :=
  match task with
  | TBegin _ _ _ | TFinish _ _ | TFinishDeferred _ _ _ | TUnregister _ | TBlocked _ | TReceive _ | TSync | TRequest _ => true
  | _ => false
  end.
Definition is_finished (task : ApprovalTask) : bool := match task with TFinished _ => true | _ => false end.

Definition reachable (ts : list ApprovalTask) (sys : list ApprovalTask * Service) : Prop :=
  forallb initial ts = true /\ exists cells, rtc approvals_step (ts, service_default cells) sys.

Lemma count_none {A} (f : A -> bool) l : Forall (fun x => f x = false) l -> count f l = 0.
Proof. unfold count. induction 1 as [|x l Hx _ IH]; simpl; [done|]. by rewrite Hx. Qed.

Lemma initial_ok ts cells : forallb initial ts = true -> approvals_ok (ts, service_default cells).
Proof.
  intros Hi. rewrite List.forallb_forall in Hi.
  assert (Hts : Forall (fun t => initial t = true) ts) by (apply Forall_forall; intros t Ht; by apply Hi, list_elem_of_In).
  constructor; simpl.
  - constructor; simpl; [done|done|done|set_solver|constructor].
  - eapply Forall_impl; [done|]. by intros [].
  - apply count_none. eapply Forall_impl; [done|]. by intros [].
  - intros p. apply count_none. eapply Forall_impl; [done|]. by intros [].
Qed.

Lemma reachable_approvals_ok ts sys : reachable ts sys -> approvals_ok sys.
Proof.
  intros [Hi (cells & Hr)]. apply (initial_ok _ cells) in Hi. remember (ts, service_default cells) as sys0 eqn:E. clear E.
  induction Hr; eauto using approvals_step_ok.
Qed.

(** *** Termination *)

Fixpoint steps_left (task : ApprovalTask) : nat :=
  match task with
  | TBegin _ _ _ | TUnregister _ | TReceive _ | TSync | TFinishToken _ _ | TWait _ _ | TUnlock _ => 1
  | TFinish _ _ | TFinishDeferred _ _ _ | TBlockedWrite _ _ | TPublish _ _ _ _ => 2
  | TBlocked _ => 3
  | TRequest _ => 24 | TTurn _ _ => 23 | TCheckLock _ _ => 22 | TCheckDenied _ _ => 21 | TCheckApproved _ _ => 20 | TJoin _ _ => 19
  | TReview _ _ _ => 18 | THooks _ _ _ => 17 | TAsk _ _ _ => 16 | TCommit _ _ _ _ => 15 | TResolve _ _ _ _ => 14
  | TPersist _ _ _ => 13 | TPersistProxy _ _ _ => 12 | TPersistAppend _ _ _ _ => 11 | TPersistDone _ _ _ => 10
  | TRemoveDenied _ _ | TRemoveApproved _ _ => 6
  | TInsertApproved _ _ | TInsertDenied _ _ => 5
  | TRecord _ _ next => 3 + steps_left next
  | TCancel _ next => 1 + steps_left next
  | TComplete _ _ _ _ => 4
  | TRemove _ _ _ _ => 3
  | TFinished _ => 0
  end.

Lemma record_then_left q outcome next : steps_left (record_then q outcome next) <= 3 + steps_left next.
Proof. unfold record_then. destruct (q_call q); simpl; lia. Qed.

Lemma approval_step_left inp task s task' s' : approval_step inp task s = Some (task', s') -> steps_left task' < steps_left task.
Proof.
  intros Hstep. destruct task; simpl in Hstep; unfold_step Hstep; unfold deny_owner in *; repeat case_match; simplify_eq/=; try lia;
    match goal with |- context [record_then ?q ?o ?n] => pose proof (record_then_left q o n); simpl in *; lia end.
Qed.

Lemma owner_left task o : owner_of task = Some o -> awaits task = true -> 4 < steps_left task.
Proof.
  assert (Hn : forall next, owner_of next = Some o -> 2 <= steps_left next) by (induction next; simpl; intros; simplify_eq; lia || (specialize (IHnext H); lia)).
  destruct task; simpl; intros; simplify_eq; try lia. specialize (Hn _ H). lia.
Qed.

Lemma drop_step_left task s task' s' : drop_step task s = Some (task', s') -> steps_left task' < steps_left task.
Proof.
  unfold drop_step. intros Hd. destruct (awaits task) eqn:Ea; [|done]. simplify_eq. destruct (owner_of task) as [o|] eqn:Eo.
  - simpl. by eapply owner_left.
  - destruct task; simpl in *; try done; lia.
Qed.

Definition total_left (ts : list ApprovalTask) : nat := sum_list_with steps_left ts.

Lemma total_left_insert ts i task task' :
  ts !! i = Some task -> steps_left task' < steps_left task -> total_left (<[i := task']> ts) < total_left ts.
Proof. unfold total_left. revert i. induction ts as [|t ts IH]; intros [|i] Hi Hl; simplify_eq/=; [lia|]. specialize (IH i Hi Hl). lia. Qed.

Lemma approvals_step_left sys sys' : approvals_step sys sys' -> total_left (fst sys') < total_left (fst sys).
Proof. destruct 1; simpl; eapply total_left_insert; eauto using approval_step_left, drop_step_left. Qed.

(** *** Progress *)

Definition can_step (s : Service) (task : ApprovalTask) : Prop := forall inp, is_Some (approval_step inp task s).

Lemma holder_steps s task : holds_lock task = true -> can_step s task.
Proof.
  intros Hh inp. destruct task; simpl in *; try done; repeat case_match; try done; by eexists.
Qed.

Lemma unlocked_steps s task :
  commit_lock s = false -> (forall q p, task <> TWait q p) -> is_finished task = false -> can_step s task.
Proof.
  intros Hl Hw Hf inp. destruct task; try (by destruct (Hw q p)); simpl in *; try done; rewrite ?Hl; repeat case_match; try done; by eexists.
Qed.

Lemma count_exists {A} (f : A -> bool) l : 1 <= count f l -> exists i x, l !! i = Some x /\ f x = true.
Proof.
  unfold count. induction l as [|a l IH]; simpl; [lia|]. destruct (f a) eqn:E; [exists 0, a; by split|].
  intros (i & x & ? & ?)%IH. by exists (S i), x.
Qed.

(** Some task can take a step, or all have finished. *)
Lemma approvals_progress ts s :
  approvals_ok (ts, s) -> forallb is_finished ts = true \/ exists i task, ts !! i = Some task /\ is_finished task = false /\ can_step s task.
Proof.
  intros [Hs Ht Hl Ho]. simpl in *. destruct (commit_lock s) eqn:El.
  { right. destruct (count_exists holds_lock ts) as (i & task & Hi & Hh); [simpl in Hl; lia|]. exists i, task.
    split_and!; [done|by destruct task|by apply holder_steps]. }
  destruct (forallb is_finished ts) eqn:Ef; [by left|right].
  assert (exists i task, ts !! i = Some task /\ is_finished task = false) as (i & task & Hi & Hf).
  { destruct (count_exists (fun t => negb (is_finished t)) ts) as (i & task & Hi & Hn%negb_true_iff); [|eauto]. clear -Ef. unfold count.
    induction ts as [|t ts IH]; simpl in *; [done|]. destruct (is_finished t); simpl in *; [by apply IH|lia]. }
  destruct task as [| | | | | | | | | | | | | | |q p| | | | | | | | | | | | | | | | | | | |] eqn:Etask;
    try (exists i, task; subst task; split_and!; [done|done|by apply unlocked_steps]).
  pose proof (Forall_lookup_1 _ _ _ _ Ht Hi) as (_ & k & d & Hp & _). destruct d as [d|].
  - exists i, (TWait q p). split_and!; [done|done|]. intros inp. simpl. rewrite Hp. by eexists.
  - specialize (Ho p). unfold undecided in Ho. rewrite Hp in Ho. destruct (count_exists (owns p) ts) as (j & task' & Hj & Hw); [lia|].
    exists j, task'. split_and!; [done|by destruct task'|]. apply unlocked_steps; [done|by intros ? ? ->|by destruct task'].
Qed.

(** *** The request of a task *)

Definition result_request (r : ApprovalResult) : option NetworkPolicyRequest :=
  match r with Remembered q _ | Unattended q | Reviewed q _ => Some (q_request q) | _ => None end.

Fixpoint request_of (task : ApprovalTask) : option NetworkPolicyRequest :=
  match task with
  | TRequest r | TTurn r _ => Some r
  | TCheckLock q _ | TCheckDenied q _ | TCheckApproved q _ | TJoin q _ | TWait q _ | TReview q _ _ | THooks q _ _ | TAsk q _ _ | TCommit q _ _ _
  | TResolve q _ _ _ | TPersist q _ _ | TPersistProxy q _ _ | TPersistAppend q _ _ _ | TPersistDone q _ _ | TRemoveDenied q _ | TInsertApproved q _
  | TRemoveApproved q _ | TInsertDenied q _ => Some (q_request q)
  | TRecord _ _ next | TCancel _ next => request_of next
  | TComplete _ _ _ r | TRemove _ _ _ r | TPublish _ _ _ r | TUnlock r | TFinished r => result_request r
  | _ => None
  end.

Lemma record_then_request q outcome next : request_of (record_then q outcome next) = request_of next.
Proof. unfold record_then. by destruct (q_call q). Qed.

Lemma approval_step_request inp task s task' s' r :
  approval_step inp task s = Some (task', s') -> request_of task' = Some r -> request_of task = Some r.
Proof.
  intros Hstep. destruct task; simpl in Hstep; unfold_step Hstep; repeat case_match; simplify_eq/=; rewrite ?record_then_request; simpl; try done.
Qed.

Lemma reachable_request ts sys i task r :
  reachable ts sys -> fst sys !! i = Some task -> request_of task = Some r -> ts !! i = Some (TRequest r).
Proof.
  intros [Hi (cells & Hr)]. revert task. pattern sys. revert sys Hr. apply rtc_ind_r; [|intros sys1 sys2 _ H2 IH]; intros task Hl Hq.
  - simpl in Hl. rewrite List.forallb_forall in Hi. assert (initial task = true) by (eapply Hi, list_elem_of_In, list_elem_of_lookup_2, Hl).
    by destruct task; simplify_eq/=.
  - destruct H2 as [j inp ts' s t t' s' Hf Hj Hs|j ts' s t t' s' Hj Hs]; simpl in *;
      (destruct (decide (i = j)) as [<-|Hn]; [|rewrite list_lookup_insert_ne in Hl by done; by eapply IH]);
      rewrite list_lookup_insert_eq in Hl by eauto using lookup_lt_Some; simplify_eq.
    + eapply IH; [done..|]. by eapply approval_step_request.
    + unfold drop_step in Hs. repeat case_match; by simplify_eq/=.
Qed.

(** *** The environment of a request *)

(** A call that was begun under a registration id, for an environment. *)
Definition begun (ts : list ApprovalTask) (sys : list ApprovalTask * Service) (id environment_id : str) : Prop :=
  exists j managed turn spec token,
    ts !! j = Some (TBegin managed turn (Some spec)) /\ spec_environment_id spec = environment_id /\
    fst sys !! j = Some (TFinished (Began (inl (Some (mkActive (Some id) (spec_mode spec), token))))).

(** The environment that a request is for: the one it names, and the one of the command that
    made it.  A request that tells neither says nothing of it. *)
Definition environment_of (ts : list ApprovalTask) (sys : list ApprovalTask * Service) (r : NetworkPolicyRequest) (environment_id : str) : Prop :=
  (forall e, req_environment_id r = Some e -> environment_id = e) /\
  (forall id, req_execution_id r = Some id -> begun ts sys id environment_id).

Definition attribution_environment ts sys (r : NetworkPolicyRequest) (a : NetworkRequestAttribution) : Prop :=
  match attributed_environment a with
  | Some e => environment_of ts sys r e
  | None => req_environment_id r = None /\ req_execution_id r = None
  end.

Definition result_query (r : ApprovalResult) : option Query :=
  match r with Remembered q _ | Unattended q | Reviewed q _ => Some q | _ => None end.

Fixpoint query_of (task : ApprovalTask) : option Query :=
  match task with
  | TCheckLock q _ | TCheckDenied q _ | TCheckApproved q _ | TJoin q _ | TWait q _ | TReview q _ _ | THooks q _ _ | TAsk q _ _ | TCommit q _ _ _
  | TResolve q _ _ _ | TPersist q _ _ | TPersistProxy q _ _ | TPersistAppend q _ _ _ | TPersistDone q _ _ | TRemoveDenied q _ | TInsertApproved q _
  | TRemoveApproved q _ | TInsertDenied q _ => Some q
  | TRecord _ _ next | TCancel _ next => query_of next
  | TComplete _ _ _ r | TRemove _ _ _ r | TPublish _ _ _ r | TUnlock r | TFinished r => result_query r
  | _ => None
  end.

Fixpoint begin_of (task : ApprovalTask) : option (bool * str * option NetworkApprovalSpec) :=
  match task with TBegin managed turn spec => Some (managed, turn, spec) | TRecord _ _ next | TCancel _ next => begin_of next | _ => None end.
Fixpoint turn_of (task : ApprovalTask) : option (NetworkPolicyRequest * NetworkRequestAttribution) :=
  match task with TTurn r a => Some (r, a) | TRecord _ _ next | TCancel _ next => turn_of next | _ => None end.

Lemma approval_step_begin inp task s task' s' x : approval_step inp task s = Some (task', s') -> begin_of task' = Some x -> begin_of task = Some x.
Proof.
  intros Hstep. destruct task; simpl in Hstep; unfold_step Hstep; repeat case_match; simplify_eq/=; try done; unfold record_then; by destruct (q_call _).
Qed.

Lemma approval_step_turn inp task s task' s' r a :
  approval_step inp task s = Some (task', s') -> turn_of task' = Some (r, a) ->
  turn_of task = Some (r, a) \/ resolve_request_attribution r s = Some a.
Proof.
  intros Hstep. destruct task; simpl in Hstep; unfold_step Hstep; repeat case_match; simplify_eq/=; try (by left); try done;
    try (unfold record_then; by destruct (q_call _)). intros [= <- <-]. by right.
Qed.

Lemma record_then_query q outcome next : query_of (record_then q outcome next) = query_of next.
Proof. unfold record_then. by destruct (q_call q). Qed.

Lemma approval_step_query inp task s task' s' q :
  approval_step inp task s = Some (task', s') -> query_of task' = Some q ->
  query_of task = Some q \/
  exists r a, task = TTurn r a /\ q_request q = r /\ match attributed_environment a with Some e => q_environment q = e | None => True end.
Proof.
  intros Hstep. destruct task; simpl in Hstep; unfold_step Hstep; repeat case_match; simplify_eq/=; rewrite ?record_then_query; simpl; try (by left);
    try done; intros [= <-]; right; eexists _, _; split_and!; try done; simpl; by repeat case_match; simplify_eq.
Qed.

Lemma approval_step_calls inp task s task' s' e :
  approval_step inp task s = Some (task', s') -> e ∈ active_calls s' ->
  e ∈ active_calls s \/
  exists managed turn spec, task = TBegin managed turn (Some spec) /\ call_environment_id (snd e) = spec_environment_id spec /\
    task' = TFinished (Began (inl (Some (mkActive (Some (call_registration_id (snd e))) (spec_mode spec), call_token (snd e))))).
Proof.
  intros Hstep. destruct task; simpl in Hstep; unfold_step Hstep; repeat case_match; simplify_eq/=; try (by left).
  all: try (intros He%shift_remove_elem; by left).
  intros [->|He]%index_insert_elem; [right|by left]. by eexists _, _, _.
Qed.

(** A step leaves what is finished. *)
Lemma finished_stays sys sys' i r : approvals_step sys sys' -> fst sys !! i = Some (TFinished r) -> fst sys' !! i = Some (TFinished r).
Proof.
  intros Hstep Hi. destruct Hstep as [j inp ts s task task' s' _ Hj Hs|j ts s task task' s' Hj Hs]; simpl in *;
    (destruct (decide (j = i)) as [->|Hn]; [by simplify_eq/=|by rewrite list_lookup_insert_ne]).
Qed.

Lemma begun_stays ts sys sys' id e : approvals_step sys sys' -> begun ts sys id e -> begun ts sys' id e.
Proof. intros Hs (j & m & t & spec & token & Hj & He & Hf). exists j, m, t, spec, token. split_and!; eauto using finished_stays. Qed.

Lemma environment_of_stays ts sys sys' r e : approvals_step sys sys' -> environment_of ts sys r e -> environment_of ts sys' r e.
Proof. intros Hs [He Hb]. split; eauto using begun_stays. Qed.

Lemma attribution_environment_stays ts sys sys' r a :
  approvals_step sys sys' -> attribution_environment ts sys r a -> attribution_environment ts sys' r a.
Proof. intros Hs. unfold attribution_environment. destruct (attributed_environment a); [by apply environment_of_stays|done]. Qed.

Lemma attribution_environment_ok ts tasks s r a :
  Forall (fun e => begun ts (tasks, s) (call_registration_id (snd e)) (call_environment_id (snd e))) (active_calls s) -> service_ok s ->
  resolve_request_attribution r s = Some a -> attribution_environment ts (tasks, s) r a.
Proof.
  intros Hc Hs. unfold resolve_request_attribution, attribution_environment, environment_of. rewrite Forall_forall in Hc.
  destruct (req_execution_id r) as [id|] eqn:Ex.
  - destruct (resolve_active_call_by_execution_id id s) as [c|] eqn:E; simpl; [|done].
    destruct (find_call_ok _ _ _ Hs E) as [_ Hid]. apply index_get_elem, Hc in E. simpl in E. rewrite Hid in E.
    destruct (req_environment_id r) as [e|]; simpl; (destruct (str_eqb _ _) eqn:Ee; [|done]); intros [= <-]; simpl.
    + unfold str_eqb in Ee. apply bool_decide_eq_true in Ee. rewrite Ee in E. split; by intros ? [= <-].
    + split; [done|]. by intros ? [= <-].
  - destruct (req_environment_id r) as [e|].
    + intros [= <-]. simpl. split; [by intros ? [= <-]|done].
    + destruct (resolve_active_call_attribution s); [..|done]; intros [= <-]; simpl; by split.
Qed.

(** What is known of the environments of tasks. *)
Record environments_ok (ts : list ApprovalTask) (sys : list ApprovalTask * Service) : Prop := {
  eo_begin : forall i task managed turn spec, fst sys !! i = Some task -> begin_of task = Some (managed, turn, spec) -> ts !! i = Some (TBegin managed turn spec);
  eo_calls : Forall (fun e => begun ts sys (call_registration_id (snd e)) (call_environment_id (snd e))) (active_calls (snd sys));
  eo_turn : forall i task r a, fst sys !! i = Some task -> turn_of task = Some (r, a) -> attribution_environment ts sys r a;
  eo_query : forall i task q, fst sys !! i = Some task -> query_of task = Some q -> environment_of ts sys (q_request q) (q_environment q);
}.

Lemma environments_task_ok ts tasks s i inp task task' s' :
  service_ok s -> environments_ok ts (tasks, s) -> tasks !! i = Some task -> approval_step inp task s = Some (task', s') ->
  approvals_step (tasks, s) (<[i := task']> tasks, s') -> environments_ok ts (<[i := task']> tasks, s').
Proof.
  intros Hs [Hb Hc Ht Hq] Hi Hstep Hst. simpl in *.
  assert (forall j t, <[i := task']> tasks !! j = Some t -> j = i /\ t = task' \/ tasks !! j = Some t) as Hl.
  { intros j t. destruct (decide (i = j)) as [<-|Hn]; [|rewrite list_lookup_insert_ne by done; by right].
    rewrite list_lookup_insert_eq by eauto using lookup_lt_Some. intros [= <-]. by left. }
  constructor; simpl.
  - intros j t managed turn spec [[-> ->]|Hj]%Hl Hbt; [|eauto]. eauto using approval_step_begin.
  - apply Forall_forall. intros e [He|(managed & turn & spec & -> & Henv & ->)]%(approval_step_calls _ _ _ _ _ _ Hstep).
    + rewrite Forall_forall in Hc. eapply begun_stays; eauto.
    + exists i, managed, turn, spec, (call_token (snd e)). split_and!; [by eapply Hb|done|]. simpl. by rewrite list_lookup_insert_eq by eauto using lookup_lt_Some.
  - intros j t r a [[-> ->]|Hj]%Hl Htt; [|eauto using attribution_environment_stays].
    apply (approval_step_turn _ _ _ _ _ _ _ Hstep) in Htt as [Htt|Htt]; [eauto using attribution_environment_stays|].
    eapply attribution_environment_stays, attribution_environment_ok; eauto.
  - intros j t q [[-> ->]|Hj]%Hl Hqt; [|eauto using environment_of_stays].
    apply (approval_step_query _ _ _ _ _ _ Hstep) in Hqt as [Hqt|(r & a & -> & <- & Hqe)]; [eauto using environment_of_stays|].
    pose proof (Ht i _ _ _ Hi eq_refl) as Ha. unfold attribution_environment in Ha. eapply environment_of_stays; [done|].
    destruct (attributed_environment a); [by subst|]. destruct Ha as [He Hx]. split; [by rewrite He|by rewrite Hx].
Qed.

Lemma environments_drop_ok ts tasks s i task task' s' :
  environments_ok ts (tasks, s) -> tasks !! i = Some task -> drop_step task s = Some (task', s') ->
  approvals_step (tasks, s) (<[i := task']> tasks, s') -> environments_ok ts (<[i := task']> tasks, s').
Proof.
  intros [Hb Hc Ht Hq] Hi Hstep Hst. simpl in *.
  assert (active_calls s' = active_calls s /\ begin_of task' = None /\ turn_of task' = None /\ query_of task' = None) as (Ea & Eb & Et & Eq).
  { unfold drop_step in Hstep. destruct (awaits task); [|done]. simplify_eq. by destruct (holds_lock task), (owner_of task). }
  assert (forall j t, <[i := task']> tasks !! j = Some t -> j = i /\ t = task' \/ tasks !! j = Some t) as Hl.
  { intros j t. destruct (decide (i = j)) as [<-|Hn]; [|rewrite list_lookup_insert_ne by done; by right].
    rewrite list_lookup_insert_eq by eauto using lookup_lt_Some. intros [= <-]. by left. }
  constructor; simpl.
  - intros j t managed turn spec [[-> ->]|Hj]%Hl Hx; [by rewrite Eb in Hx|eauto].
  - rewrite Ea. eapply Forall_impl; [done|]. intros e He. by eapply begun_stays.
  - intros j t r a [[-> ->]|Hj]%Hl Hx; [by rewrite Et in Hx|eauto using attribution_environment_stays].
  - intros j t q [[-> ->]|Hj]%Hl Hx; [by rewrite Eq in Hx|eauto using environment_of_stays].
Qed.

Lemma reachable_environments_ok ts sys : reachable ts sys -> environments_ok ts sys.
Proof.
  intros Hreach. pose proof Hreach as [Hi (cells & Hr)]. revert sys Hr Hreach. apply (rtc_ind_r (fun sys => reachable ts sys -> environments_ok ts sys)).
  - intros _. rewrite List.forallb_forall in Hi.
    assert (forall i task, ts !! i = Some task -> initial task = true) as Hin by (intros i task Ht; eapply Hi, list_elem_of_In, list_elem_of_lookup_2, Ht).
    constructor; simpl; [|done|..]; intros i task **; specialize (Hin i task ltac:(done)); by destruct task; simplify_eq/=.
  - intros sys1 sys2 Hr1 H2 IH _. assert (reachable ts sys1) as Hr by (split; [done|by exists cells]). specialize (IH Hr).
    pose proof (ao_service _ (reachable_approvals_ok _ _ Hr)) as Hs. pose proof H2 as Hst.
    destruct H2 as [i inp tasks s task task' s' _ Hj Hstep|i tasks s task task' s' Hj Hstep].
    + by eapply environments_task_ok.
    + by eapply environments_drop_ok.
Qed.

(** *** The policy of the session *)

Fixpoint is_receive (task : ApprovalTask) : bool :=
  match task with TReceive _ => true | TRecord _ _ next | TCancel _ next => is_receive next | _ => false end.

(** What a task that holds the lock has made sure of. *)
Fixpoint commit_ok (s : Service) (task : ApprovalTask) : Prop :=
  match task with
  | TInsertApproved q _ => q_key q ∉ session_denied_hosts s
  | TInsertDenied q _ => q_key q ∉ session_approved_hosts s
  | TComplete o d true _ | TRemove o d true _ | TPublish o d true _ => d <> DenyPending -> pending_host (o_key o) ∉ session_denied_hosts s
  | TRecord _ _ next | TCancel _ next => commit_ok s next
  | _ => True
  end.

Lemma unlocked_commit s task : holds_lock task = false -> commit_ok s task.
Proof. induction task; simpl; try done; intros ->; done. Qed.

Lemma record_then_commit s q outcome next : commit_ok s (record_then q outcome next) <-> commit_ok s next.
Proof. unfold record_then. by destruct (q_call q). Qed.

Lemma commit_ok_same s s' task :
  session_denied_hosts s' = session_denied_hosts s -> session_approved_hosts s' = session_approved_hosts s -> commit_ok s task -> commit_ok s' task.
Proof. intros Hd Ha. induction task; simpl; rewrite ?Hd, ?Ha; try done; destruct locked; rewrite ?Hd; done. Qed.

(** Only the holder of the lock changes the hosts of the session. *)
Lemma hosts_step inp task s task' s' :
  approval_step inp task s = Some (task', s') -> holds_lock task = false -> is_receive task = false ->
  session_denied_hosts s' = session_denied_hosts s /\ session_approved_hosts s' = session_approved_hosts s.
Proof.
  intros Hstep Hh Hr. destruct task; simpl in Hstep, Hh, Hr; try done; unfold_step Hstep; repeat case_match; simplify_eq/=; done.
Qed.

Lemma commit_step inp task s task' s' :
  approval_step inp task s = Some (task', s') -> is_receive task = false -> approval_ok s task -> commit_ok s task ->
  session_approved_hosts s ## session_denied_hosts s ->
  commit_ok s' task' /\ session_approved_hosts s' ## session_denied_hosts s'.
Proof.
  intros Hstep Hr Hok Hc Hd. destruct task; simpl in Hstep, Hok, Hc, Hr; try done; unfold_step Hstep; unfold deny_owner in *;
    repeat case_match; simplify_eq/=; rewrite ?record_then_commit; simpl; try done; try (split; [done|set_solver]).
  1-2: destruct Hok as [(_ & _ & Hk & _) _]; rewrite Hk; split; [intros _; by eapply bool_decide_eq_false_1|done].
  - split; [by eapply bool_decide_eq_false_1|done].
  - set_solver.
  - destruct Hok as [(_ & _ & Hk & _) _]. rewrite Hk. set_solver.
  - set_solver.
  - split; [by apply (commit_ok_same s)|done].
  - split; [by apply (commit_ok_same s)|done].
  - split; [by apply (commit_ok_same s)|done].
Qed.

Lemma lifted_denial inp task s task' s' key :
  approval_step inp task s = Some (task', s') -> approval_ok s task ->
  key ∈ session_denied_hosts s -> key ∉ session_denied_hosts s' ->
  exists a, (key, NetworkPolicyAmended a) ∈ reviews s /\ amendment_action a = AllowHost.
Proof.
  intros Hstep Hok Hin Hout. destruct task; simpl in Hstep, Hok; unfold_step Hstep; repeat case_match; simplify_eq/=; try done.
  - destruct Hok as (_ & a & Hr & Ha). destruct (decide (key = q_key q)) as [->|Hn]; [by exists a|]. destruct Hout. set_solver.
  - set_solver.
Qed.

Lemma others_unlocked ts i task j task' :
  count holds_lock ts <= 1 -> ts !! i = Some task -> holds_lock task = true -> i <> j -> ts !! j = Some task' -> holds_lock task' = false.
Proof.
  intros Hc Hi Hh Hn Hj. destruct (holds_lock task') eqn:E; [|done].
  pose proof (count_insert holds_lock _ _ _ TSync Hi) as H1. rewrite Hh in H1. simpl in H1.
  assert (1 <= count holds_lock (<[i := TSync]> ts)); [|lia]. eapply (count_pos _ _ j task'); [by rewrite list_lookup_insert_ne|done].
Qed.

Record session_ok (sys : list ApprovalTask * Service) : Prop := {
  ss_system : approvals_ok sys;
  ss_commit : Forall (commit_ok (snd sys)) (fst sys);
  ss_disjoint : session_approved_hosts (snd sys) ## session_denied_hosts (snd sys);
  ss_local : Forall (fun t => is_receive t = false) (fst sys);
}.

Lemma approval_step_local inp task s task' s' : approval_step inp task s = Some (task', s') -> is_receive task = false -> is_receive task' = false.
Proof.
  assert (Hn : forall q o n, is_receive n = false -> is_receive (record_then q o n) = false) by (intros q ? ? ?; unfold record_then; by destruct (q_call q)).
  intros Hstep. destruct task; simpl in Hstep; unfold_step Hstep; repeat case_match; simplify_eq/=; try done; intros _; by apply Hn.
Qed.

Lemma session_step_ok sys sys' : session_ok sys -> approvals_step sys sys' -> session_ok sys'.
Proof.
  intros [Hs Hc Hd Hl] Hstep. pose proof (approvals_step_ok _ _ Hs Hstep) as Hs'. destruct Hs as [_ Ht Hlock _].
  destruct Hstep as [i inp ts s task task' s' Hf Hi Hstep|i ts s task task' s' Hi Hstep]; simpl in *;
    pose proof (Forall_lookup_1 _ _ _ _ Hl Hi) as Hr; pose proof (Forall_lookup_1 _ _ _ _ Ht Hi) as Hok;
    pose proof (Forall_lookup_1 _ _ _ _ Hc Hi) as Hcommit; simpl in Hr.
  - destruct (commit_step _ _ _ _ _ Hstep Hr Hok Hcommit Hd) as [Hc' Hd']. constructor; simpl; [done| |done|].
    + apply Forall_lookup_2. intros j t [(-> & <- & _)|[Hn Hj]]%list_lookup_insert_Some; [done|].
      destruct (holds_lock task) eqn:Eh.
      * apply unlocked_commit. eapply (others_unlocked ts i task j); eauto. rewrite Hlock. by destruct (commit_lock s); simpl; lia.
      * destruct (hosts_step _ _ _ _ _ Hstep Eh Hr). eapply (commit_ok_same s); [done..|]. by eapply Forall_lookup_1.
    + apply Forall_insert; [done|]. by eapply approval_step_local.
  - assert (Hhosts : session_denied_hosts s' = session_denied_hosts s /\ session_approved_hosts s' = session_approved_hosts s /\
        commit_ok s' task' /\ is_receive task' = false).
    { unfold drop_step in Hstep. repeat case_match; simplify_eq/=; done. }
    destruct Hhosts as (Hden & Happ & Hct & Hrt). constructor; simpl; [done| | |].
    + apply Forall_insert; [|done]. eapply Forall_impl; [exact Hc|]. intros t. by apply commit_ok_same.
    + by rewrite Happ, Hden.
    + by apply Forall_insert.
Qed.

Lemma reachable_session_ok ts sys : forallb (fun t => negb (is_receive t)) ts = true -> reachable ts sys -> session_ok sys.
Proof.
  intros Hl [Hi (cells & Hr)]. assert (H0 : session_ok (ts, service_default cells)).
  { constructor; simpl; [by apply initial_ok| |set_solver|]; apply Forall_forall; intros t Ht%list_elem_of_In; rewrite List.forallb_forall in Hi, Hl.
    - apply Hi in Ht. by destruct t.
    - by apply negb_true_iff, Hl. }
  clear Hi Hl. induction Hr; eauto using session_step_ok.
Qed.

(** ** What the service promises *)

(** C17: every request for network access is answered: a session takes no more steps than its calls
    and requests add up to (at most twenty-four for a request), and as long as one of them is not
    finished some task can take a step, whatever hooks and reviewers answer.  No waiter is left
    without the owner of its review, also when requests are dropped while they wait or decide. *)
Theorem requests_are_answered ts cells n sys :
  forallb initial ts = true -> nsteps approvals_step n (ts, service_default cells) sys ->
  n + total_left (fst sys) <= total_left ts /\
  (forallb is_finished (fst sys) = true \/
   exists i task, fst sys !! i = Some task /\ is_finished task = false /\ forall inp, is_Some (approval_step inp task (snd sys))).
Proof.
  intros Hi Hn. split.
  - clear Hi. change ts with (fst (ts, service_default cells)) at 1. induction Hn as [|m a b c Hab _ IH]; [lia|]. apply approvals_step_left in Hab. lia.
  - assert (Hr : reachable ts sys) by (split; [done|]; exists cells; by apply rtc_nsteps_2 in Hn). apply reachable_approvals_ok in Hr. destruct sys. by apply approvals_progress.
Qed.

(** C16: access is granted only to what was approved.  When a task answers a request with
    "allow", the request is the one it started with, and a hook, guardian or user allowed
    exactly its environment, host (up to ASCII case), protocol and port, or another session did
    and its hosts were taken over.  The environment is the one that the request names, and the
    one of the command with the execution id of the request; for a request that has neither it
    is that of the only command, or of the active turn, of which nothing is claimed. *)
Theorem network_access_needs_review ts sys i r :
  reachable ts sys -> fst sys !! i = Some (TFinished r) -> answer r = Some NetAllow ->
  exists request environment_id,
    ts !! i = Some (TRequest request) /\ environment_of ts sys request environment_id /\
    let key := {| key_environment_id := environment_id; key_host := to_ascii_lowercase (req_host request); key_port := req_port request;
                  key_protocol := match req_protocol request with
                                  | Http => lit "http" | HttpsConnect => lit "https"
                                  | Socks5Tcp => lit "socks5-tcp" | Socks5Udp => lit "socks5-udp" end |} in
    (exists d, (key, d) ∈ reviews (snd sys) /\ allowing d = true) \/ key ∈ received (snd sys).
Proof.
  intros Hr Hi Ha. pose proof (reachable_approvals_ok _ _ Hr) as Hok. pose proof (Forall_lookup_1 _ _ _ _ (ao_tasks _ Hok) Hi) as Hres.
  assert (Hq : exists q, result_query r = Some q /\ query_ok (snd sys) q /\ allowed_by (snd sys) (q_key q)).
  { destruct r as [| | | | |q []| |q d|]; try done; simpl in *; [naive_solver|]. exists q. split; [done|]. destruct Hres as (Hq & Hb & _).
    split; [done|]. apply Hb. by intros ->. }
  destruct Hq as (q & Hreq & [_ Hk] & Hall). exists (q_request q), (q_environment q). split; [|split].
  - eapply (reachable_request _ _ _ (TFinished r)); [done..|]. simpl. unfold result_request. by destruct r; simplify_eq/=.
  - by apply (eo_query _ _ (reachable_environments_ok _ _ Hr) i (TFinished r)).
  - rewrite Hk in Hall. unfold host_key_from_request in Hall. cbn zeta. by destruct (req_protocol (q_request q)).
Qed.

(** C34: a command whose request was denied in a review does not end as a success: once a request,
    whether it owned the review or waited for it, is answered with a denial, the command it belongs
    to is cancelled, and the end of its call is an error. *)
Theorem denied_review_fails_command ts sys i q c :
  reachable ts sys -> fst sys !! i = Some (TFinished (Reviewed q DenyPending)) -> q_call q = Some c ->
  is_cancelled (call_token c) (snd sys) = true /\
  forall inp outcome, exists message,
    approval_step inp (TFinishToken outcome (call_token c)) (snd sys) = Some (TFinished (Ended (inr (Rejected message))), snd sys).
Proof.
  intros Hr Hi Hc. pose proof (reachable_approvals_ok _ _ Hr) as Hok. pose proof (Forall_lookup_1 _ _ _ _ (ao_tasks _ Hok) Hi) as (Hq & _ & He).
  assert (Hcan : is_cancelled (call_token c) (snd sys) = true).
  { specialize (He eq_refl). destruct Hq as [Hq _]. rewrite Hc in Hq, He. destruct Hq as [Hreg _]. destruct He as (token & Ht & Hv).
    unfold is_cancelled. replace (call_token c) with token by (simpl in *; congruence). by rewrite Hv. }
  split; [done|]. intros inp outcome. simpl. rewrite Hcan. destruct outcome as [[]|]; by eexists.
Qed.

(** C29: the policy of a session stays consistent while any number of requests are decided,
    committed and dropped at the same time, in a session that takes over no approved hosts of
    another one: no host is approved and denied for the session at once; one task at most holds the
    lock of the policy; a decision to allow that is published under the lock is for a host that is
    not denied; and a step takes a host out of the denied ones only after an amendment that allows it. *)
Theorem session_policy_is_consistent ts sys :
  reachable ts sys -> forallb (fun t => negb (is_receive t)) ts = true ->
  (forall key, ~ (key ∈ session_approved_hosts (snd sys) /\ key ∈ session_denied_hosts (snd sys))) /\
  count holds_lock (fst sys) <= 1 /\
  (forall i o d r, fst sys !! i = Some (TPublish o d true r) -> d <> DenyPending -> pending_host (o_key o) ∉ session_denied_hosts (snd sys)) /\
  (forall sys' key, approvals_step sys sys' -> key ∈ session_denied_hosts (snd sys) -> key ∉ session_denied_hosts (snd sys') ->
    exists a, (key, NetworkPolicyAmended a) ∈ reviews (snd sys) /\ amendment_action a = AllowHost).
Proof.
  intros Hr Hl. pose proof (reachable_session_ok _ _ Hl Hr) as [Hok Hc Hd Hloc]. destruct Hok as [_ Ht Hlock _]. split_and!.
  - set_solver.
  - rewrite Hlock. destruct (commit_lock (snd sys)); simpl; lia.
  - intros i o d r Hi Hn. by apply (Forall_lookup_1 _ _ _ _ Hc Hi).
  - intros sys' key Hstep Hin Hout.
    destruct Hstep as [i inp ts' s task task' s' Hf Hi Hstep|i ts' s task task' s' Hi Hstep]; simpl in *.
    + pose proof (Forall_lookup_1 _ _ _ _ Ht Hi) as Hok. pose proof (Forall_lookup_1 _ _ _ _ Hloc Hi) as Hrec. simpl in Hrec.
      eapply lifted_denial; eauto.
    + destruct Hout. unfold drop_step in Hstep. by repeat case_match; simplify_eq/=.
Qed.

(** ** Runs *)

(** A schedule names the task that takes each step, with its inputs, or is dropped. *)
Definition schedule : Type := list (nat * option ApprovalInputs).

Definition schedule_step (x : nat * option ApprovalInputs) (sys : list ApprovalTask * Service) : option (list ApprovalTask * Service) :=
  task ← fst sys !! fst x;
  '(task', s') ← match snd x with
                 | Some inp => if bool_decide (registered (snd sys) !! inp_uuid inp = None) then approval_step inp task (snd sys) else None
                 | None => drop_step task (snd sys)
                 end;
  Some (<[fst x := task']> (fst sys), s').

Fixpoint run_schedule (xs : schedule) (sys : list ApprovalTask * Service) : option (list ApprovalTask * Service) :=
  match xs with [] => Some sys | x :: xs => sys' ← schedule_step x sys; run_schedule xs sys' end.

Lemma schedule_step_sound x sys sys' : schedule_step x sys = Some sys' -> approvals_step sys sys'.
Proof.
  unfold schedule_step. destruct sys as [ts s], x as [i [inp|]]; simpl; destruct (ts !! i) as [task|] eqn:Ei; simpl; try done.
  - case_bool_decide; [|done]. destruct (approval_step inp task s) as [[task' s']|] eqn:E; simpl; [|done]. intros [= <-]. by econstructor.
  - destruct (drop_step task s) as [[task' s']|] eqn:E; simpl; [|done]. intros [= <-]. by eapply approvals_step_drop.
Qed.

Lemma run_schedule_nsteps xs sys sys' : run_schedule xs sys = Some sys' -> nsteps approvals_step (length xs) sys sys'.
Proof.
  revert sys. induction xs as [|x xs IH]; intros sys; simpl; [intros [= ->]; constructor|].
  destruct (schedule_step x sys) as [sys1|] eqn:E; simpl; [|done]. intros Hr. econstructor; [by eapply schedule_step_sound|by apply IH].
Qed.

Lemma approvals_run_reachable ts xs sys cells :
  forallb initial ts = true -> run_schedule xs (ts, service_default cells) = Some sys -> reachable ts sys.
Proof. intros Hi Hr. split; [done|]. exists cells. by eapply rtc_nsteps_2, run_schedule_nsteps. Qed.

(** *** A command and two requests for the same host *)

Definition sample_request : NetworkPolicyRequest :=
  mkNetworkPolicyRequest HttpsConnect (lit "Example.com") 443 None None None None None (Some (lit "u1")).
Definition sample_turn : ApprovalTurn := mkApprovalTurn (lit "t1") [(lit "local", default_profile)] OnRequest ReviewerUser.
Definition sample_tasks : list ApprovalTask :=
  [TBegin true (lit "t1") (Some (mkApprovalSpec true Immediate (lit "curl") (lit "local") default_profile)); TRequest sample_request;
   TRequest sample_request; TFinish (lit "u1") 0].
Definition sample_inputs (id : str) (d : ReviewDecision) : ApprovalInputs :=
  mkApprovalInputs id None (Some sample_turn) None (Some d) false (Some true) true.
Definition steps_of (i n : nat) (d : ReviewDecision) : schedule := replicate n (i, Some (sample_inputs (lit "u2") d)).

(** The call begins, one request comes to own the review and the other waits; the review decides,
    the owner publishes the decision, the other request sees it, and the command ends. *)
Definition sample_schedule (d : ReviewDecision) (owner_steps : nat) : schedule :=
  (0, Some (sample_inputs (lit "u1") d)) :: steps_of 1 7 d ++ steps_of 2 6 d ++ steps_of 1 owner_steps d ++ steps_of 2 1 d ++ steps_of 3 2 d.

Definition sample_run (d : ReviewDecision) (owner_steps : nat) : list ApprovalTask * Service :=
  default (sample_tasks, service_default 0) (run_schedule (sample_schedule d owner_steps) (sample_tasks, service_default 0)).
Definition answers (sys : list ApprovalTask * Service) : list (option NetworkDecision) :=
  (fun t => match t with TFinished r => answer r | _ => None end) <$> fst sys.

Definition sample_call_record : ActiveNetworkApprovalCall := mkApprovalCall (lit "u1") (lit "t1") (lit "curl") (lit "local") default_profile 0.
Definition sample_query : Query :=
  mkQuery sample_request (Some sample_call_record) (lit "local") (mkHostKey (lit "local") (lit "example.com") (lit "https") 443).

Lemma sample_run_reachable d : reachable sample_tasks (sample_run d 9).
Proof.
  unfold sample_run. destruct (run_schedule (sample_schedule d 9) (sample_tasks, service_default 0)) as [sys|] eqn:E; simpl.
  - by eapply approvals_run_reachable.
  - split; [done|]. by exists 0.
Qed.

Example sample_approved : answers (sample_run ApprovedForSession 9) = [None; Some NetAllow; Some NetAllow; None].
Proof. vm_compute. reflexivity. Qed.

(** The owner is dropped while it waits for its lock: the request that waits is denied. *)
Example dropped_owner_denies :
  answers <$> run_schedule ((0, Some (sample_inputs (lit "u1") Approved)) :: steps_of 1 7 Approved ++ steps_of 2 6 Approved ++ steps_of 1 2 Approved
    ++ [(1, None)] ++ steps_of 1 3 Approved ++ steps_of 2 1 Approved) (sample_tasks, service_default 0)
  = Some [None; None; Some (deny_with_source (lit "not_allowed") Decider); None].
Proof. vm_compute. reflexivity. Qed.

Lemma requests_are_answered_witness :
  let sys := sample_run ApprovedForSession 9 in
  26 + total_left (fst sys) <= total_left sample_tasks /\
  (forallb is_finished (fst sys) = true \/
   exists i task, fst sys !! i = Some task /\ is_finished task = false /\ forall inp, is_Some (approval_step inp task (snd sys))).
Proof.
  intros sys. apply (requests_are_answered sample_tasks 0 26 sys); [reflexivity|].
  apply (run_schedule_nsteps (sample_schedule ApprovedForSession 9)). vm_compute. reflexivity.
Defined.

Lemma network_access_needs_review_witness :
  let sys := sample_run ApprovedForSession 9 in
  exists request environment_id,
    sample_tasks !! 2 = Some (TRequest request) /\ environment_of sample_tasks sys request environment_id /\
    let key := {| key_environment_id := environment_id; key_host := to_ascii_lowercase (req_host request); key_port := req_port request;
                  key_protocol := match req_protocol request with
                                  | Http => lit "http" | HttpsConnect => lit "https"
                                  | Socks5Tcp => lit "socks5-tcp" | Socks5Udp => lit "socks5-udp" end |} in
    (exists d, (key, d) ∈ reviews (snd sys) /\ allowing d = true) \/ key ∈ received (snd sys).
Proof.
  intros sys. apply (network_access_needs_review sample_tasks sys 2 (Reviewed sample_query AllowForSession)).
  - apply sample_run_reachable.
  - vm_compute. reflexivity.
  - reflexivity.
Defined.

Lemma denied_review_fails_command_witness :
  let sys := sample_run (Denied (lit "no")) 9 in
  is_cancelled 0 (snd sys) = true /\
  forall inp outcome, exists message,
    approval_step inp (TFinishToken outcome 0) (snd sys) = Some (TFinished (Ended (inr (Rejected message))), snd sys).
Proof.
  intros sys. apply (denied_review_fails_command sample_tasks sys 2 sample_query sample_call_record).
  - apply sample_run_reachable.
  - vm_compute. reflexivity.
  - reflexivity.
Defined.

Lemma session_policy_is_consistent_witness :
  let sys := sample_run ApprovedForSession 9 in
  (forall key, ~ (key ∈ session_approved_hosts (snd sys) /\ key ∈ session_denied_hosts (snd sys))) /\
  count holds_lock (fst sys) <= 1 /\
  (forall i o d r, fst sys !! i = Some (TPublish o d true r) -> d <> DenyPending -> pending_host (o_key o) ∉ session_denied_hosts (snd sys)) /\
  (forall sys' key, approvals_step sys sys' -> key ∈ session_denied_hosts (snd sys) -> key ∉ session_denied_hosts (snd sys') ->
    exists a, (key, NetworkPolicyAmended a) ∈ reviews (snd sys) /\ amendment_action a = AllowHost).
Proof. intros sys. apply (session_policy_is_consistent sample_tasks sys); [apply sample_run_reachable|reflexivity]. Defined.

(** A report of a blocked request looks its call up and records the outcome under two holds of the
    lock: when the call ends in between, its outcome is left behind, and nothing removes it. *)
Definition blocked_report : BlockedRequest :=
  mkBlockedRequest (lit "example.com") (lit "denied") None None None (lit "https") (Some (lit "u1")) (Some (lit "deny")) None None 0.

Example blocked_outcome_outlives_call :
  (fun sys => (active_calls (snd sys), call_outcomes (snd sys) !! lit "u1", fst sys !! 2)) <$>
    run_schedule ((0, Some (sample_inputs (lit "u1") Approved)) :: steps_of 1 1 Approved ++ steps_of 2 2 Approved ++ steps_of 1 2 Approved)
      ([TBegin true (lit "t1") (Some (mkApprovalSpec true Immediate (lit "curl") (lit "local") default_profile)); TBlocked blocked_report;
        TFinish (lit "u1") 0], service_default 0)
  = Some ([], DeniedByPolicy <$> denied_network_policy_message blocked_report, Some (TFinished (Ended (inl tt)))).
Proof. vm_compute. reflexivity. Qed.
