(* ===== verification/AgentRegistry.v ===== *)
(** * Agents: their paths and their registry

    Models [protocol/src/agent_path.rs], the names of agents that a session spawns, and
    [core/src/agent/registry.rs], which bounds their number.  The registry is shared by all
    agents of a session: its maps are behind a lock, the count of agents is an atomic counter
    that is raised in a loop of compare and exchange.  A spawn is a task that steps from one
    access to the next; the theorem on the limit speaks of all interleavings. *)

From stdpp Require Import base list strings gmap relations.
From Stdlib Require Import NArith.
From S2P Require Import Prelude.

(** ** Paths *)

Definition ROOT : str := lit "/root".
Definition MORPHEUS : str := lit "/morpheus".
Definition ROOT_SEGMENT : str := lit "root".

Definition is_name_char (c : N) : bool := ((97 <=? c) && (c <=? 122))%N || is_ascii_digit c || char_eqb c 95.

Definition validate_agent_name (agent_name : str) : result unit str :=
  if is_empty agent_name then Err (lit "agent_name must not be empty")
  else if str_eqb agent_name ROOT_SEGMENT then Err (lit "agent_name `root` is reserved")
  else if str_eqb agent_name (lit ".") || str_eqb agent_name (lit "..") then Err (lit "agent_name `" ++ agent_name ++ lit "` is reserved")
  else if contains_char 47 agent_name then Err (lit "agent_name must not contain `/`")
  else if negb (forallb is_name_char agent_name) then Err (lit "agent_name must use only lowercase letters, digits, and underscores")
  else Ok tt.

Fixpoint validate_segments (segments : list str) : result unit str :=
  match segments with
  | [] => Ok tt
  | segment :: segments => let? _ := validate_agent_name segment in validate_segments segments
  end.

Definition validate_absolute_path (path : str) : result unit str :=
  if str_eqb path MORPHEUS then Ok tt
  else
    match strip_prefix (lit "/") path with
    | None => Err (lit "absolute agent paths must start with `/root` or be `/morpheus`")
    | Some stripped =>
        match split 47 stripped with
        | [] => Err (lit "absolute agent path must not be empty")
        | root :: segments =>
            if negb (str_eqb root ROOT_SEGMENT) then Err (lit "absolute agent paths must start with `/root` or be `/morpheus`")
            else if ends_with (lit "/") stripped then Err (lit "absolute agent path must not end with `/`")
            else validate_segments segments
        end
    end.

Definition validate_relative_reference (reference : str) : result unit str :=
  if ends_with (lit "/") reference then Err (lit "relative agent path must not end with `/`")
  else validate_segments (split 47 reference).

(** [AgentPath::from_string]; an agent path is kept as its text. *)
Definition from_string (path : str) : result str str := let? _ := validate_absolute_path path in Ok path.

Definition is_root (path : str) : bool := str_eqb path ROOT.

Definition agent_path_name (path : str) : str :=
  if is_root path then ROOT_SEGMENT
  else match last (split 47 path) with Some segment => if is_empty segment then ROOT_SEGMENT else segment | None => ROOT_SEGMENT end.

Definition agent_path_join (path agent_name : str) : result str str :=
  let? _ := validate_agent_name agent_name in from_string (path ++ lit "/" ++ agent_name).

Definition agent_path_resolve (path reference : str) : result str str :=
  if is_empty reference then Err (lit "agent path must not be empty")
  else if str_eqb reference ROOT then Ok ROOT
  else if starts_with (lit "/") reference then from_string reference
  else let? _ := validate_relative_reference reference in from_string (path ++ lit "/" ++ reference).

(** ** What paths are *)

Definition name_ok (n : str) : Prop := validate_agent_name n = Ok tt.

(** The path of an agent with the names of its ancestors and its own. *)
Definition path_of (names : list str) : str := ROOT ++ concat (map (cons 47%N) names).

Lemma name_ok_plain n : name_ok n -> n <> [] /\ 47%N ∉ n.
Proof.
  unfold name_ok, validate_agent_name. intros Hn. repeat case_match; try done. split; [by apply is_empty_false|].
  rewrite <- contains_char_spec. congruence.
Qed.

Lemma validate_segments_ok l : validate_segments l = Ok tt <-> Forall name_ok l.
Proof.
  induction l as [|n l IH]; simpl; [by split|]. unfold name_ok at 1. rewrite Forall_cons, <- IH. unfold name_ok.
  destruct (validate_agent_name n) as [[]|e|]; simpl; [tauto|split; [done|by intros [? _]]..].
Qed.

Lemma join_concat a l : join [47%N] (a :: l) = a ++ concat (map (cons 47%N) l).
Proof. revert a. induction l as [|b l IH]; intros a; [by rewrite app_nil_r|]. rewrite join_cons by done. by rewrite IH. Qed.

Lemma split_concat a l : Forall (fun n => 47%N ∉ n) (a :: l) -> split 47 (a ++ concat (map (cons 47%N) l)) = a :: l.
Proof.
  revert a. induction l as [|b l IH]; intros a [Ha Hl]%Forall_cons; simpl; [rewrite app_nil_r; by apply split_no_sep|].
  rewrite split_app_sep by done. by rewrite IH.
Qed.

Lemma ends_with_last c s : ends_with [c] s = true <-> last s = Some c.
Proof.
  unfold ends_with. destruct (strip_suffix [c] s) as [r|] eqn:E.
  - apply strip_suffix_Some in E as ->. by rewrite last_snoc.
  - split; [done|]. intros Hl. destruct s as [|x s _] using rev_ind; [done|]. rewrite last_snoc in Hl. simplify_eq.
    by rewrite (proj2 (strip_suffix_Some [c] (s ++ [c]) s) eq_refl) in E.
Qed.

Lemma path_last a l : Forall name_ok l -> last a <> Some 47%N -> ends_with (lit "/") (a ++ concat (map (cons 47%N) l)) = false.
Proof.
  intros Hl Ha. apply not_true_iff_false. change (lit "/") with [47%N]. rewrite ends_with_last.
  destruct l as [|n l _] using rev_ind; [by rewrite app_nil_r|]. apply Forall_app in Hl as [_ Hn]. apply Forall_cons in Hn as [[Hn Hs]%name_ok_plain _].
  rewrite map_app, concat_app. simpl. rewrite app_nil_r, app_assoc. destruct n as [|x n _] using rev_ind; [done|].
  rewrite app_comm_cons, app_assoc, last_snoc. intros [= ->]. set_solver.
Qed.

Lemma root_segment_plain : 47%N ∉ ROOT_SEGMENT.
Proof. by intros Hc%contains_char_spec. Qed.

Lemma validate_absolute_spec p : validate_absolute_path p = Ok tt <-> p = MORPHEUS \/ exists names, Forall name_ok names /\ p = path_of names.
Proof.
  unfold validate_absolute_path, str_eqb. case_bool_decide as Hm; [tauto|]. split.
  - intros Hv. right. destruct (strip_prefix (lit "/") p) as [stripped|] eqn:Ep; [|done]. apply strip_prefix_Some in Ep as ->.
    pose proof (join_split 47 stripped) as Hj. destruct (split 47 stripped) as [|root segments]; [done|].
    case_bool_decide; simpl in Hv; [|done]. subst root. case_match; [done|]. apply validate_segments_ok in Hv. exists segments. split; [done|].
    rewrite <- Hj, join_concat. done.
  - intros [?|(names & Hn & ->)]; [done|]. change (path_of names) with (lit "/" ++ ROOT_SEGMENT ++ concat (map (cons 47%N) names)).
    rewrite strip_prefix_app, split_concat.
    2: { constructor; [apply root_segment_plain|]. eapply Forall_impl; [done|]. intros n. apply name_ok_plain. }
    rewrite bool_decide_true by done. simpl negb. rewrite path_last by done. by apply validate_segments_ok.
Qed.

Lemma from_string_ok p q : from_string p = Ok q <-> q = p /\ (p = MORPHEUS \/ exists names, Forall name_ok names /\ p = path_of names).
Proof.
  unfold from_string. rewrite <- validate_absolute_spec. destruct (validate_absolute_path p) as [[]|e|]; simpl; [|naive_solver..].
  split; [by intros [= ->]|by intros [-> _]].
Qed.

Lemma path_of_snoc names n : path_of (names ++ [n]) = path_of names ++ lit "/" ++ n.
Proof. unfold path_of. rewrite map_app, concat_app, app_assoc. simpl. by rewrite app_nil_r. Qed.

Lemma path_of_app names ns : ns <> [] -> path_of (names ++ ns) = path_of names ++ lit "/" ++ join [47%N] ns.
Proof. intros Hn. destruct ns as [|n ns]; [done|]. unfold path_of. rewrite map_app, concat_app, join_concat. by rewrite <- app_assoc. Qed.

Lemma path_of_not_morpheus names r : path_of names ++ r <> MORPHEUS.
Proof. unfold path_of, ROOT, MORPHEUS. intros [=]. Qed.

Lemma path_of_inj names names' : Forall name_ok names -> Forall name_ok names' -> path_of names = path_of names' -> names = names'.
Proof.
  intros H1 H2 He. assert (Hs : forall ns, Forall name_ok ns -> split 47 (path_of ns) = [] :: ROOT_SEGMENT :: ns).
  { intros ns Hns. change (path_of ns) with ([] ++ 47%N :: (ROOT_SEGMENT ++ concat (map (cons 47%N) ns))). rewrite split_app_sep by set_solver. f_equal.
    apply split_concat. constructor; [apply root_segment_plain|]. eapply Forall_impl; [done|]. intros n. apply name_ok_plain. }
  apply (f_equal (split 47)) in He. rewrite !Hs in He by done. by injection He.
Qed.

Fixpoint join_all (path : str) (names : list str) : result str str :=
  match names with [] => Ok path | n :: names => let? path := agent_path_join path n in join_all path names end.

Lemma join_ok_iff names n q : Forall name_ok names -> agent_path_join (path_of names) n = Ok q <-> name_ok n /\ q = path_of (names ++ [n]).
Proof.
  intros Hn. unfold agent_path_join, name_ok. destruct (validate_agent_name n) as [[]|e|] eqn:E; simpl; [|naive_solver..].
  rewrite from_string_ok, path_of_snoc. split; [by intros [-> _]|]. intros [_ ->]. split; [done|]. right. exists (names ++ [n]).
  split; [by apply Forall_app_2; [|constructor]|]. by rewrite path_of_snoc.
Qed.

Lemma join_all_ok_iff names ns q : Forall name_ok names -> join_all (path_of names) ns = Ok q <-> Forall name_ok ns /\ q = path_of (names ++ ns).
Proof.
  revert names. induction ns as [|n ns IH]; intros names Hn; simpl; [rewrite app_nil_r; naive_solver|].
  destruct (agent_path_join (path_of names) n) as [p|e|] eqn:E; simpl.
  - apply join_ok_iff in E as [Hok ->]; [|done]. rewrite IH by (apply Forall_app_2; [done|by constructor]).
    rewrite Forall_cons, <- app_assoc. simpl. tauto.
  - split; [done|]. intros [[Hok _]%Forall_cons _]. destruct (join_ok_iff names n (path_of (names ++ [n])) Hn) as [_ Hj]. by rewrite Hj in E.
  - split; [done|]. intros [[Hok _]%Forall_cons _]. destruct (join_ok_iff names n (path_of (names ++ [n])) Hn) as [_ Hj]. by rewrite Hj in E.
Qed.

Lemma path_of_name names n : Forall name_ok names -> name_ok n -> agent_path_name (path_of (names ++ [n])) = n.
Proof.
  intros Hn Hok. unfold agent_path_name, is_root, str_eqb. rewrite bool_decide_false.
  - destruct (name_ok_plain n Hok) as [Hne Hs]. change (path_of (names ++ [n])) with ([] ++ 47%N :: (ROOT_SEGMENT ++ concat (map (cons 47%N) (names ++ [n])))).
    rewrite split_app_sep by set_solver. rewrite split_concat.
    + rewrite !app_comm_cons, last_snoc. apply is_empty_false in Hne. by rewrite Hne.
    + constructor; [apply root_segment_plain|]. apply Forall_app_2; [|by constructor]. eapply Forall_impl; [done|]. intros m. apply name_ok_plain.
  - intros He. change ROOT with (path_of []) in He. apply path_of_inj in He; [|by apply Forall_app_2; [|constructor]|done]. by destruct names.
Qed.

(** Agent paths are closed under their operations: joining a path of the tree with a name gives a
    valid path that ends in this name; a relative reference resolves to what joining its segments one
    by one gives, and to an error when one of them is not a name; an absolute path resolves to
    itself. *)
Theorem agent_paths_resolve path :
  from_string path = Ok path -> path <> MORPHEUS ->
  (forall n q, agent_path_join path n = Ok q -> from_string q = Ok q /\ agent_path_name q = n) /\
  (forall reference q, reference <> [] -> starts_with (lit "/") reference = false ->
     agent_path_resolve path reference = Ok q <-> join_all path (split 47 reference) = Ok q) /\
  (forall q, from_string q = Ok q -> agent_path_resolve path q = Ok q).
Proof.
  intros [_ [?|(names & Hn & ->)]]%from_string_ok Hm; [done|]. split_and!.
  - intros n q [Hok ->]%join_ok_iff; [|done]. split; [|by apply path_of_name]. apply from_string_ok. split; [done|]. right.
    exists (names ++ [n]). split; [by apply Forall_app_2; [|constructor]|done].
  - intros reference q Hne Hrel. rewrite join_all_ok_iff by done. unfold agent_path_resolve. rewrite (proj2 (is_empty_false reference) Hne), Hrel.
    assert (Hroot : str_eqb reference ROOT = false) by (unfold str_eqb; apply bool_decide_eq_false; by intros ->). rewrite Hroot.
    unfold validate_relative_reference. pose proof (join_split 47 reference) as Hj.
    destruct (ends_with (lit "/") reference) eqn:Ee; simpl.
    + split; [done|]. intros [Hf _]. destruct (split 47 reference) as [|a l] eqn:Es; [by apply split_nonempty in Es|].
      apply Forall_cons in Hf as [Ha Hl]. rewrite <- Hj, join_concat, path_last in Ee; [done|done|]. apply name_ok_plain in Ha as [_ Ha].
      intros Hl47. apply Ha. by apply last_Some_elem_of in Hl47.
    + destruct (validate_segments (split 47 reference)) as [[]|e|] eqn:Ev; simpl.
      * apply validate_segments_ok in Ev. rewrite from_string_ok, path_of_app, Hj by apply split_nonempty. split; [by intros [-> _]|].
        intros [_ ->]. split; [done|]. right. exists (names ++ split 47 reference). split; [by apply Forall_app_2|].
        by rewrite path_of_app, Hj by apply split_nonempty.
      * split; [done|]. intros [Hf _]. apply validate_segments_ok in Hf. congruence.
      * split; [done|]. intros [Hf _]. apply validate_segments_ok in Hf. congruence.
  - intros q Hq. pose proof Hq as [_ Hv]%from_string_ok. unfold agent_path_resolve.
    assert (exists r, q = 47%N :: r) as (r & ->) by (destruct Hv as [->|(ns & _ & ->)]; by eexists).
    simpl is_empty. cbv iota. unfold str_eqb. case_bool_decide as Hr; [by rewrite Hr|].
    rewrite (proj2 (starts_with_true (lit "/") (47%N :: r))) by (by exists r). done.
Qed.

Lemma agent_paths_resolve_witness :
  agent_path_resolve (lit "/root/researcher") (lit "worker/helper") = Ok (lit "/root/researcher/worker/helper") <->
  join_all (lit "/root/researcher") (split 47 (lit "worker/helper")) = Ok (lit "/root/researcher/worker/helper").
Proof.
  refine (proj1 (proj2 (agent_paths_resolve (lit "/root/researcher") _ _)) (lit "worker/helper") _ _ _); [reflexivity|discriminate|discriminate|reflexivity].
Defined.

(** ** The registry *)

(** A [ThreadId] is its text. *)
Record AgentMetadata := mkAgent {
  agent_id : option str; agent_path : option str; agent_nickname : option str; agent_role : option str }.

Record AgentRegistry := mkRegistry {
  agent_tree : gmap str AgentMetadata;
  thread_paths : gmap str str;
  used_agent_nicknames : gset str;
  nickname_reset_count : N;
  total_count : N }.

Definition registry_default : AgentRegistry := mkRegistry ∅ ∅ ∅ 0 0.

Definition set_agents tree paths (r : AgentRegistry) : AgentRegistry :=
  mkRegistry tree paths (used_agent_nicknames r) (nickname_reset_count r) (total_count r).
Definition set_nicknames used resets (r : AgentRegistry) : AgentRegistry := mkRegistry (agent_tree r) (thread_paths r) used resets (total_count r).
Definition set_total n (r : AgentRegistry) : AgentRegistry :=
  mkRegistry (agent_tree r) (thread_paths r) (used_agent_nicknames r) (nickname_reset_count r) n.

(** [fetch_add] and [fetch_sub] of an [AtomicUsize] wrap around. *)
Definition fetch_add (r : AgentRegistry) : AgentRegistry := set_total (if (total_count r =? usize_max)%N then 0%N else (total_count r + 1)%N) r.
Definition fetch_sub (r : AgentRegistry) : AgentRegistry := set_total (if (total_count r =? 0)%N then usize_max else (total_count r - 1)%N) r.

Definition format_agent_nickname (name : str) (nickname_reset_count : N) : str :=
  if (nickname_reset_count =? 0)%N then name
  else
    let value := (nickname_reset_count + 1)%N in
    let suffix :=
      if ((11 <=? value mod 100) && (value mod 100 <=? 13))%N then lit "th"
      else match (value mod 10)%N with 1%N => lit "st" | 2%N => lit "nd" | 3%N => lit "rd" | _ => lit "th" end in
    name ++ lit " the " ++ decimal value ++ suffix.

(** The depth of a sub-agent that was spawned as a thread; other sessions have none. *)
Definition i32_max : Z := 2147483647.
Definition session_depth (spawn_depth : option Z) : Z := default 0%Z spawn_depth.
Definition next_thread_spawn_depth (spawn_depth : option Z) : Z := Z.min (session_depth spawn_depth + 1) i32_max.
Definition exceeds_thread_spawn_depth_limit (depth max_depth : Z) : bool := (max_depth <? depth)%Z.

Definition path_is_root (m : AgentMetadata) : bool := is_some_and (agent_path m) is_root.

(** [release_spawned_thread] under the lock: whether a counted agent was removed. *)
Definition release_spawned_thread (thread_id : str) (r : AgentRegistry) : bool * AgentRegistry :=
  match thread_paths r !! thread_id with
  | None => (false, r)
  | Some key =>
      (is_some_and (agent_tree r !! key) (fun m => negb (path_is_root m)),
       set_agents (delete key (agent_tree r)) (delete thread_id (thread_paths r)) r)
  end.

Definition register_root_thread (thread_id : str) (r : AgentRegistry) : AgentRegistry :=
  let root := default (mkAgent (Some thread_id) (Some ROOT) None None) (agent_tree r !! ROOT) in
  set_agents (<[ROOT := root]> (agent_tree r))
    (match agent_id root with Some root_thread_id => <[root_thread_id := ROOT]> (thread_paths r) | None => thread_paths r end) r.

Definition agent_id_for_path (path : str) (r : AgentRegistry) : option str := agent_tree r !! path ≫= agent_id.
Definition agent_metadata_for_thread (thread_id : str) (r : AgentRegistry) : option AgentMetadata :=
  key ← thread_paths r !! thread_id; agent_tree r !! key.
Definition live_agents (r : AgentRegistry) : list AgentMetadata :=
  List.filter (fun m => bool_decide (is_Some (agent_id m)) && negb (path_is_root m)) (snd <$> map_to_list (agent_tree r)).

Definition agent_key (m : AgentMetadata) (thread_id : str) : str := default (lit "thread:" ++ thread_id) (agent_path m).

Definition register_spawned_thread (m : AgentMetadata) (r : AgentRegistry) : AgentRegistry :=
  match agent_id m with
  | None => r
  | Some thread_id =>
      let key := agent_key m thread_id in
      let used := match agent_nickname m with Some nickname => {[nickname]} ∪ used_agent_nicknames r | None => used_agent_nicknames r end in
      let tree :=
        match thread_paths r !! thread_id with
        | Some previous_key => if str_eqb previous_key key then agent_tree r else delete previous_key (agent_tree r)
        | None => agent_tree r
        end in
      let paths := <[thread_id := key]> (thread_paths r) in
      let paths :=
        match tree !! key ≫= agent_id with
        | Some previous_thread_id => if str_eqb previous_thread_id thread_id then paths else delete previous_thread_id paths
        | None => paths
        end in
      set_agents (<[key := m]> tree) paths (set_nicknames used (nickname_reset_count r) r)
  end.

(** [IndexedRandom::choose] with the index that was drawn. *)
Definition choose (l : list str) (random : nat) : option str := l !! (random mod length l).

Definition reserve_agent_nickname (names : list str) (preferred : option str) (random : nat) (r : AgentRegistry) : option str * AgentRegistry :=
  match preferred with
  | Some nickname => (Some nickname, set_nicknames ({[nickname]} ∪ used_agent_nicknames r) (nickname_reset_count r) r)
  | None =>
      if is_empty names then (None, r)
      else
        let available := List.filter (fun name => negb (bool_decide (name ∈ used_agent_nicknames r)))
          ((fun name => format_agent_nickname name (nickname_reset_count r)) <$> names) in
        match choose available random with
        | Some nickname => (Some nickname, set_nicknames ({[nickname]} ∪ used_agent_nicknames r) (nickname_reset_count r) r)
        | None =>
            let resets := (nickname_reset_count r + 1)%N in
            match choose names random with
            | None => (None, set_nicknames ∅ resets r)
            | Some name => (Some (format_agent_nickname name resets), set_nicknames {[format_agent_nickname name resets]} resets r)
            end
        end
  end.

Definition reserve_agent_path (path : str) (r : AgentRegistry) : result AgentRegistry str :=
  match agent_tree r !! path with
  | Some _ => Err (lit "agent path `" ++ path ++ lit "` already exists")
  | None => Ok (set_agents (<[path := mkAgent None (Some path) None None]> (agent_tree r)) (thread_paths r) r)
  end.

Definition release_reserved_agent_path (path : str) (r : AgentRegistry) : AgentRegistry :=
  if is_some_and (agent_tree r !! path) (fun m => bool_decide (agent_id m = None)) then set_agents (delete path (agent_tree r)) (thread_paths r) r else r.

(** *** Tasks *)

(** [SpawnReservation], while it is active. *)
Record SpawnReservation := mkReservation { reserved_agent_nickname : option str; reserved_agent_path : option str }.

Inductive SpawnTask : Type :=
| SpawnReserve (max_threads : option N)
| SpawnLoaded (max_threads current : N)          (* in the loop of [try_increment_spawned] *)
| SpawnActive (s : SpawnReservation)
| SpawnRefused (max_threads : N)
| ReleaseThread (thread_id : str)
| RegisterRoot (thread_id : str)
| DecrementCount
| SpawnDone.

(** What the owner of a reservation does next; [compare_exchange_weak] may fail for no reason. *)
Inductive SpawnAction : Type :=
| Proceed (spurious : bool)
| TakeNickname (names : list str) (preferred : option str) (random : nat)
| TakePath (path : str)
| Commit (m : AgentMetadata)
| DropReservation.

Definition spawn_step (a : SpawnAction) (task : SpawnTask) (r : AgentRegistry) : option (SpawnTask * AgentRegistry) :=
  match task, a with
  | SpawnReserve None, Proceed _ => Some (SpawnActive (mkReservation None None), fetch_add r)
  | SpawnReserve (Some max_threads), Proceed _ => Some (SpawnLoaded max_threads (total_count r), r)
  | SpawnLoaded max_threads current, Proceed spurious =>
      if (max_threads <=? current)%N then Some (SpawnRefused max_threads, r)
      else if negb spurious && (total_count r =? current)%N then Some (SpawnActive (mkReservation None None), set_total (current + 1) r)
      else Some (SpawnLoaded max_threads (total_count r), r)
  | SpawnActive s, TakeNickname names preferred random =>
      let '(nickname, r') := reserve_agent_nickname names preferred random r in
      Some (SpawnActive (match nickname with Some n => mkReservation (Some n) (reserved_agent_path s) | None => s end), r')
  | SpawnActive s, TakePath path =>
      match reserve_agent_path path r with
      | Ok r' => Some (SpawnActive (mkReservation (reserved_agent_nickname s) (Some path)), r')
      | _ => Some (SpawnActive s, r)
      end
  | SpawnActive s, Commit m => Some (SpawnDone, register_spawned_thread m r)
  | SpawnActive s, DropReservation =>
      Some (DecrementCount, match reserved_agent_path s with Some path => release_reserved_agent_path path r | None => r end)
  | ReleaseThread thread_id, Proceed _ =>
      let '(removed, r') := release_spawned_thread thread_id r in Some (if removed then DecrementCount else SpawnDone, r')
  | RegisterRoot thread_id, Proceed _ => Some (SpawnDone, register_root_thread thread_id r)
  | DecrementCount, Proceed _ => Some (SpawnDone, fetch_sub r)
  | _, _ => None
  end.

Inductive registry_step : list SpawnTask * AgentRegistry -> list SpawnTask * AgentRegistry -> Prop :=
| registry_step_task i a ts r task task' r' :
    ts !! i = Some task -> spawn_step a task r = Some (task', r') -> registry_step (ts, r) (<[i := task']> ts, r').

Definition spawn_initial (task : SpawnTask) : bool :=
  match task with SpawnReserve _ | ReleaseThread _ | RegisterRoot _ => true | _ => false end.

(** ** Accounting *)

(** The threads of agents other than the root. *)
Definition live_threads (r : AgentRegistry) : gmap str str := filter (fun e => e.2 <> ROOT) (thread_paths r).

(** Slots that a task holds: its reservation, or one that it is about to give back. *)
Definition slots (task : SpawnTask) : nat := match task with SpawnActive _ | DecrementCount => 1 | _ => 0 end.
(** Slots that it may still take. *)
Definition wanted (task : SpawnTask) : nat := match task with SpawnReserve _ | SpawnLoaded _ _ => 1 | _ => 0 end.

(** Every entry is under the key of its path or of its thread, and the entry of a thread is its own. *)
Record registry_ok (r : AgentRegistry) : Prop := {
  ro_keys : forall key m, agent_tree r !! key = Some m -> agent_path m = Some key \/ agent_path m = None /\ exists t, key = lit "thread:" ++ t;
  ro_threads : forall t key, thread_paths r !! t = Some key -> exists m, agent_tree r !! key = Some m /\ agent_id m = Some t;
}.

Lemma root_iff r key m : registry_ok r -> agent_tree r !! key = Some m -> path_is_root m = true <-> key = ROOT.
Proof.
  intros Hr [Hp|(Hp & t & ->)]%(ro_keys _ Hr); unfold path_is_root; rewrite Hp; simpl.
  - unfold is_root, str_eqb. by rewrite bool_decide_eq_true.
  - split; [done|]. by intros [=].
Qed.

Lemma insert_live (t key : str) (paths : gmap str str) :
  size (filter (fun e : str * str => e.2 <> ROOT) (<[t := key]> paths)) <= Nat.b2n (negb (str_eqb key ROOT)) + size (filter (fun e : str * str => e.2 <> ROOT) paths).
Proof.
  unfold str_eqb. case_bool_decide as Hk; simpl.
  - rewrite map_filter_insert_False by (simpl; tauto). rewrite map_filter_delete, map_size_delete. case_match; simpl; lia.
  - rewrite map_filter_insert_True by done. rewrite map_size_insert. case_match; simpl; lia.
Qed.

Lemma delete_live (t : str) (paths : gmap str str) :
  size (filter (fun e : str * str => e.2 <> ROOT) (delete t paths)) <= size (filter (fun e : str * str => e.2 <> ROOT) paths).
Proof. rewrite map_filter_delete, map_size_delete. case_match; simpl; lia. Qed.

Lemma release_spec t r removed r' :
  registry_ok r -> release_spawned_thread t r = (removed, r') ->
  registry_ok r' /\ size (live_threads r') + Nat.b2n removed <= size (live_threads r) /\ total_count r' = total_count r.
Proof.
  intros Hr. unfold release_spawned_thread. destruct (thread_paths r !! t) as [key|] eqn:Et; intros [= <- <-]; [|split_and!; [done|simpl; lia|done]].
  destruct (ro_threads _ Hr _ _ Et) as (m & Hm & Hid). split_and!; [|..|done].
  - constructor; simpl.
    + intros k m' [_ Hk]%lookup_delete_Some. by apply Hr.
    + intros t' k [Hn Hk]%lookup_delete_Some. destruct (ro_threads _ Hr _ _ Hk) as (m' & Hm' & Hid'). exists m'. split; [|done].
      apply lookup_delete_Some. split; [|done]. intros ->. congruence.
  - rewrite Hm. simpl. unfold live_threads. simpl. rewrite map_filter_delete. destruct (path_is_root m) eqn:E; simpl.
    + rewrite map_size_delete. case_match; simpl; lia.
    + assert (Hk : key <> ROOT) by (intros Hk; apply (root_iff r key m) in Hk; congruence).
      assert (Hl : filter (fun e : str * str => e.2 <> ROOT) (thread_paths r) !! t = Some key) by (by apply map_lookup_filter_Some).
      rewrite map_size_delete, Hl. assert (size (filter (fun e : str * str => e.2 <> ROOT) (thread_paths r)) <> 0); [|lia].
      apply map_size_non_empty_iff. intros He. by rewrite He in Hl.
Qed.

Lemma register_spec m r :
  registry_ok r ->
  let r' := register_spawned_thread m r in
  registry_ok r' /\ size (live_threads r') <= 1 + size (live_threads r) /\ total_count r' = total_count r.
Proof.
  intros Hr r'. subst r'. unfold register_spawned_thread. destruct (agent_id m) as [t|] eqn:Hid; [|split_and!; [done|lia|done]].
  set (key := agent_key m t).
  set (tree := match thread_paths r !! t with Some k => if str_eqb k key then agent_tree r else delete k (agent_tree r) | None => agent_tree r end).
  set (paths := match tree !! key ≫= agent_id with Some t' => if str_eqb t' t then <[t := key]> (thread_paths r) else delete t' (<[t := key]> (thread_paths r))
    | None => <[t := key]> (thread_paths r) end).
  assert (Htree : forall k m', tree !! k = Some m' -> agent_tree r !! k = Some m').
  { intros k m'. subst tree. destruct (thread_paths r !! t); [|done]. case_match; [done|]. by intros [_ ?]%lookup_delete_Some. }
  split_and!; [|..|done].
  - constructor; simpl.
    + intros k m'. rewrite lookup_insert_Some. intros [[<- <-]|[_ Hk]]; [|by apply Hr, Htree].
      subst key. unfold agent_key. destruct (agent_path m) as [p|]; simpl; [by left|]. right. split; [done|by exists t].
    + intros t' k Hp. destruct (decide (t' = t)) as [->|Hn].
      * assert (Hk : paths !! t = Some key).
        { subst paths. destruct (tree !! key ≫= agent_id) as [t'|]; [|apply lookup_insert_eq]. unfold str_eqb. case_bool_decide; [apply lookup_insert_eq|].
          rewrite lookup_delete_ne by done. apply lookup_insert_eq. }
        rewrite Hp in Hk. injection Hk as ->. exists m. by rewrite lookup_insert_eq.
      * assert (Hk : thread_paths r !! t' = Some k /\ (tree !! key ≫= agent_id) <> Some t').
        { subst paths. destruct (tree !! key ≫= agent_id) as [t2|] eqn:E2; [|rewrite lookup_insert_ne in Hp by done; by split].
          unfold str_eqb in Hp. case_bool_decide as Ht2.
          - rewrite lookup_insert_ne in Hp by done. split; [done|]. congruence.
          - apply lookup_delete_Some in Hp as [Hne Hp]. rewrite lookup_insert_ne in Hp by done. split; [done|]. congruence. }
        destruct Hk as [Hk Hne]. destruct (ro_threads _ Hr _ _ Hk) as (m' & Hm' & Hid').
        assert (Htk : tree !! k = Some m').
        { subst tree. destruct (thread_paths r !! t) as [k0|] eqn:E0; [|done]. case_match; [done|]. apply lookup_delete_Some. split; [|done].
          intros ->. destruct (ro_threads _ Hr _ _ E0) as (m0 & ? & ?). congruence. }
        exists m'. split; [|done]. apply lookup_insert_Some. right. split; [|done]. intros ->. apply Hne. by rewrite Htk.
  - unfold live_threads. simpl. assert (Hi := insert_live t key (thread_paths r)).
    assert (size (filter (fun e : str * str => e.2 <> ROOT) paths) <= size (filter (fun e : str * str => e.2 <> ROOT) (<[t := key]> (thread_paths r)))).
    { subst paths. destruct (tree !! key ≫= agent_id) as [t'|]; [|done]. case_match; [done|]. apply delete_live. }
    destruct (str_eqb key ROOT); simpl in Hi; lia.
Qed.

Lemma root_spec t r :
  registry_ok r ->
  let r' := register_root_thread t r in
  registry_ok r' /\ size (live_threads r') <= size (live_threads r) /\ total_count r' = total_count r.
Proof.
  intros Hr r'. subst r'. unfold register_root_thread.
  set (root := default (mkAgent (Some t) (Some ROOT) None None) (agent_tree r !! ROOT)).
  assert (Hroot : agent_path root = Some ROOT).
  { subst root. destruct (agent_tree r !! ROOT) as [m|] eqn:E; simpl; [|done]. by destruct (ro_keys _ Hr _ _ E) as [?|(_ & x & [=])]. }
  assert (Hown : forall t' m, agent_tree r !! ROOT = Some m -> agent_id m = Some t' -> agent_id root = Some t').
  { intros t' m Hm Hi. subst root. by rewrite Hm. }
  split_and!; [|..|done].
  - constructor; simpl.
    + intros k m. rewrite lookup_insert_Some. intros [[<- <-]|[_ Hk]]; [by left|by apply Hr].
    + assert (Hold : forall t' k, thread_paths r !! t' = Some k -> exists m, <[ROOT := root]> (agent_tree r) !! k = Some m /\ agent_id m = Some t').
      { intros t' k Hk. destruct (ro_threads _ Hr _ _ Hk) as (m & Hm & Hi). destruct (decide (k = ROOT)) as [->|Hn].
        - exists root. rewrite lookup_insert_eq. eauto.
        - exists m. by rewrite lookup_insert_ne. }
      destruct (agent_id root) as [rt|] eqn:Ert; [|done]. intros t' k. rewrite lookup_insert_Some. intros [[<- <-]|[_ Hk]]; [|by apply Hold].
      exists root. by rewrite lookup_insert_eq.
  - unfold live_threads. simpl. destruct (agent_id root) as [rt|]; [|done]. pose proof (insert_live rt ROOT (thread_paths r)) as Hi.
    rewrite (bool_decide_eq_true_2 _ (eq_refl ROOT) : str_eqb ROOT ROOT = true) in Hi. simpl in Hi. lia.
Qed.

Lemma reserve_path_spec path r r' :
  registry_ok r -> reserve_agent_path path r = Ok r' -> registry_ok r' /\ live_threads r' = live_threads r /\ total_count r' = total_count r.
Proof.
  intros Hr. unfold reserve_agent_path. destruct (agent_tree r !! path) eqn:E; [done|]. intros [= <-]. split_and!; [|done..]. constructor; simpl.
  - intros k m. rewrite lookup_insert_Some. intros [[<- <-]|[_ Hk]]; [by left|by apply Hr].
  - intros t k Hk. destruct (ro_threads _ Hr _ _ Hk) as (m & Hm & Hid). exists m. split; [|done]. rewrite lookup_insert_ne by congruence. done.
Qed.

Lemma release_path_spec path r :
  registry_ok r -> let r' := release_reserved_agent_path path r in registry_ok r' /\ live_threads r' = live_threads r /\ total_count r' = total_count r.
Proof.
  intros Hr r'. subst r'. unfold release_reserved_agent_path. destruct (agent_tree r !! path) as [m|] eqn:E; simpl; [|done]. case_bool_decide as Hid; [|done].
  split_and!; [|done..]. constructor; simpl.
  - intros k m' [_ Hk]%lookup_delete_Some. by apply Hr.
  - intros t k Hk. destruct (ro_threads _ Hr _ _ Hk) as (m' & Hm' & Hid'). exists m'. split; [|done]. apply lookup_delete_Some. split; [|done].
    intros ->. congruence.
Qed.

Lemma nickname_same names preferred random r nickname r' :
  reserve_agent_nickname names preferred random r = (nickname, r') ->
  agent_tree r' = agent_tree r /\ thread_paths r' = thread_paths r /\ total_count r' = total_count r.
Proof. unfold reserve_agent_nickname. intros Hn. repeat case_match; by simplify_eq. Qed.

Definition total (r : AgentRegistry) : nat := N.to_nat (total_count r).

(** No step lets agents and reservations outgrow the counter. *)
Lemma spawn_step_spec a task r task' r' :
  registry_ok r -> spawn_step a task r = Some (task', r') ->
  slots task <= total r -> total r + wanted task <= N.to_nat usize_max ->
  registry_ok r' /\
  size (live_threads r') + slots task' + total r <= size (live_threads r) + slots task + total r' /\
  total r' + wanted task' <= total r + wanted task.
Proof.
  intros Hr Hstep Hs Hw. unfold total in *. destruct task as [[k|]|k cur|res|k|t|t| |], a as [sp|names pref rnd|p|m|]; simpl in Hstep, Hs, Hw; try done; simplify_eq.
  - simpl. split_and!; [done|lia..].
  - unfold fetch_add. rewrite (proj2 (N.eqb_neq _ _)) by lia. simpl. split_and!; [by destruct Hr|unfold live_threads; simpl; lia|lia].
  - destruct (k <=? cur)%N eqn:Ek; [simplify_eq; split_and!; [done|simpl; lia..]|].
    destruct (negb sp && (total_count r =? cur)%N) eqn:Ec; simplify_eq; [|split_and!; [done|simpl; lia..]].
    apply andb_true_iff in Ec as [_ Ec%N.eqb_eq]. split_and!; [by destruct Hr|unfold live_threads; simpl; lia|simpl; lia].
  - destruct (reserve_agent_nickname names pref rnd r) as [nickname r1] eqn:En. simplify_eq. apply nickname_same in En as (Ht & Hp & Hn).
    unfold live_threads. rewrite Hp, Hn. split_and!; [|simpl; lia..]. constructor; rewrite Ht, ?Hp; apply Hr.
  - destruct (reserve_agent_path p r) as [r1|e|] eqn:Ep; simplify_eq; [|split_and!; [done|lia..]..].
    apply reserve_path_spec in Ep as (Hr' & Hl & Ht); [|done]. rewrite Hl, Ht. split_and!; [done|simpl; lia..].
  - destruct (register_spec m r Hr) as (Hr' & Hl & Ht). rewrite Ht. split_and!; [done|simpl; lia..].
  - destruct (reserved_agent_path res) as [p|]; [|split_and!; [done|simpl; lia..]].
    destruct (release_path_spec p r Hr) as (Hr' & Hl & Ht). rewrite Hl, Ht. split_and!; [done|simpl; lia..].
  - destruct (release_spawned_thread t r) as [removed r1] eqn:Er. simplify_eq. apply release_spec in Er as (Hr' & Hl & Ht); [|done].
    rewrite Ht. split_and!; [done|destruct removed; simpl in *; lia|destruct removed; simpl; lia].
  - destruct (root_spec t r Hr) as (Hr' & Hl & Ht). rewrite Ht. split_and!; [done|simpl; lia..].
  - unfold fetch_sub. rewrite (proj2 (N.eqb_neq _ _)) by lia. simpl. split_and!; [by destruct Hr|unfold live_threads; simpl; lia|lia].
Qed.

(** The limits of the spawns of a session. *)
Definition limited_by (m : N) (task : SpawnTask) : Prop :=
  match task with SpawnReserve None => False | SpawnReserve (Some k) | SpawnLoaded k _ => (k <= m)%N | _ => True end.

Lemma spawn_step_limit m a task r task' r' :
  spawn_step a task r = Some (task', r') -> limited_by m task -> (total_count r <= m)%N -> slots task <= total r ->
  limited_by m task' /\ (total_count r' <= m)%N.
Proof.
  intros Hstep Hl Hm Hs. unfold total in Hs.
  destruct task as [[k|]|k cur|res|k|t|t| |], a as [sp|names pref rnd|p|md|]; simpl in Hstep, Hl, Hs; try done; simplify_eq.
  - split; [done|]. done.
  - destruct (k <=? cur)%N eqn:Ek; [by simplify_eq|]. destruct (negb sp && (total_count r =? cur)%N) eqn:Ec; simplify_eq; [|done].
    split; [done|]. simpl. apply N.leb_gt in Ek. lia.
  - destruct (reserve_agent_nickname names pref rnd r) as [nickname r1] eqn:En. simplify_eq. apply nickname_same in En as (_ & _ & ->). done.
  - unfold reserve_agent_path in Hstep. destruct (agent_tree r !! p); by simplify_eq/=.
  - split; [done|]. unfold register_spawned_thread. by case_match.
  - split; [done|]. unfold release_reserved_agent_path. by repeat case_match.
  - unfold release_spawned_thread in Hstep. repeat case_match; by simplify_eq.
  - done.
  - split; [done|]. unfold fetch_sub. rewrite (proj2 (N.eqb_neq _ _)) by lia. simpl. lia.
Qed.

Lemma sum_insert {A} (f : A -> nat) (l : list A) i x y : l !! i = Some x -> sum_list_with f (<[i := y]> l) + f x = sum_list_with f l + f y.
Proof. revert i. induction l as [|a l IH]; intros [|i] Hi; simplify_eq/=; [lia|]. specialize (IH i Hi). lia. Qed.

Lemma sum_lookup {A} (f : A -> nat) (l : list A) i x : l !! i = Some x -> f x <= sum_list_with f l.
Proof. revert i. induction l as [|a l IH]; intros [|i] Hi; simplify_eq/=; [lia|]. specialize (IH i Hi). lia. Qed.

Record registries_ok (sys : list SpawnTask * AgentRegistry) : Prop := {
  rs_registry : registry_ok (snd sys);
  rs_count : size (live_threads (snd sys)) + sum_list_with slots (fst sys) <= total (snd sys);
  rs_total : total (snd sys) + sum_list_with wanted (fst sys) <= length (fst sys);
}.

Lemma registry_step_ok sys sys' :
  registries_ok sys -> (N.of_nat (length (fst sys)) <= usize_max)%N -> registry_step sys sys' -> registries_ok sys' /\ length (fst sys') = length (fst sys).
Proof.
  intros [Hr Hc Ht] Hlen Hstep. destruct Hstep as [i a ts r task task' r' Hi Hstep]. simpl in *. split; [|apply length_insert].
  pose proof (sum_insert slots _ _ _ task' Hi) as Hs. pose proof (sum_insert wanted _ _ _ task' Hi) as Hw.
  pose proof (sum_lookup slots _ _ _ Hi). pose proof (sum_lookup wanted _ _ _ Hi).
  destruct (spawn_step_spec _ _ _ _ _ Hr Hstep) as (Hr' & Hl & Ht'); [lia|lia|]. constructor; simpl; [done|lia|rewrite length_insert; lia].
Qed.

(** C19: a session never runs more agents than its limit allows: however spawns, their failures and the
    ends of agents interleave, the threads of agents and the reservations on their way are no more
    than the shared counter, which therefore never wraps around, and no reservation raises the counter
    above the limit it was made with. *)
Theorem agents_stay_within_limit ts sys :
  forallb spawn_initial ts = true -> (N.of_nat (length ts) <= usize_max)%N -> rtc registry_step (ts, registry_default) sys ->
  size (live_threads (snd sys)) + sum_list_with slots (fst sys) <= total (snd sys) /\
  (total_count (snd sys) <= usize_max)%N /\
  (forall m, Forall (limited_by m) ts -> (total_count (snd sys) <= m)%N).
Proof.
  intros Hi Hlen Hr.
  assert (Hinv : registries_ok sys /\ length (fst sys) = length ts /\ forall m, Forall (limited_by m) ts -> Forall (limited_by m) (fst sys) /\ (total_count (snd sys) <= m)%N).
  { revert sys Hr. apply rtc_ind_r.
    - split_and!; [|done|intros m Hm; split; [done|simpl; lia]]. rewrite List.forallb_forall in Hi.
      assert (Hts : Forall (fun t => spawn_initial t = true) ts) by (apply Forall_forall; intros t Ht; by apply Hi, list_elem_of_In).
      constructor; simpl; [constructor; intros ? ? [=]|..].
      + unfold live_threads. simpl. rewrite map_filter_empty, map_size_empty. clear -Hts. induction Hts as [|t ts Ht _ IH]; simpl; [done|]. destruct t; simpl in *; try done.
      + clear -Hts. unfold total. simpl. induction Hts as [|t ts Ht _ IH]; simpl; [done|]. destruct t; simpl in *; try done; lia.
    - intros sys1 sys2 _ Hstep (Hok & Hl & Hlim). rewrite <- Hl in Hlen. pose proof (registry_step_ok _ _ Hok Hlen Hstep) as [Hok' Hl']. split_and!; [done|congruence|].
      intros m Hm. destruct (Hlim m Hm) as [Hf Ht]. destruct Hok as [_ Hc _].
      destruct Hstep as [i a ts' r task task' r' Hti Hstep]. simpl in *. pose proof (Forall_lookup_1 _ _ _ _ Hf Hti) as Htask.
      pose proof (sum_lookup slots _ _ _ Hti). destruct (spawn_step_limit _ _ _ _ _ _ Hstep Htask Ht) as [Hlt Hmt]; [lia|]. split; [by apply Forall_insert|done]. }
  destruct Hinv as ([_ Hc Ht] & Hl & Hlim). split_and!; [done|unfold total in *; lia|]. intros m Hm. by apply Hlim.
Qed.

(** ** Runs *)

Fixpoint run_spawns (xs : list (nat * SpawnAction)) (sys : list SpawnTask * AgentRegistry) : option (list SpawnTask * AgentRegistry) :=
  match xs with
  | [] => Some sys
  | (i, a) :: xs =>
      task ← fst sys !! i;
      '(task', r') ← spawn_step a task (snd sys);
      run_spawns xs (<[i := task']> (fst sys), r')
  end.

Lemma run_spawns_sound xs sys sys' : run_spawns xs sys = Some sys' -> rtc registry_step sys sys'.
Proof.
  revert sys. induction xs as [|[i a] xs IH]; intros [ts r]; simpl; [intros [= ->]; constructor|].
  destruct (ts !! i) as [task|] eqn:Ei; simpl; [|done]. destruct (spawn_step a task r) as [[task' r']|] eqn:Es; simpl; [|done].
  intros Hr%IH. econstructor; [by econstructor|done].
Qed.

Definition agent_of (thread path : string) : AgentMetadata := mkAgent (Some (lit thread)) (Some (lit path)) None None.

(** Two spawns race for the only slot: one of them is refused. *)
Definition race : list (nat * SpawnAction) :=
  [(0, Proceed false); (1, Proceed false); (0, Proceed false); (1, Proceed false); (1, Proceed false);
   (0, TakePath (lit "/root/a")); (0, Commit (agent_of "t1" "/root/a"))].
Definition race_result : list SpawnTask * AgentRegistry :=
  default ([], registry_default) (run_spawns race ([SpawnReserve (Some 1%N); SpawnReserve (Some 1%N)], registry_default)).

Example race_refuses_one : fst race_result = [SpawnDone; SpawnRefused 1] /\ total_count (snd race_result) = 1%N.
Proof. by vm_compute. Qed.

Lemma agents_stay_within_limit_witness :
  size (live_threads (snd race_result)) + sum_list_with slots (fst race_result) <= total (snd race_result) /\
  (total_count (snd race_result) <= usize_max)%N /\
  (forall m, Forall (limited_by m) [SpawnReserve (Some 1%N); SpawnReserve (Some 1%N)] -> (total_count (snd race_result) <= m)%N).
Proof.
  apply (agents_stay_within_limit [SpawnReserve (Some 1%N); SpawnReserve (Some 1%N)] race_result); [reflexivity|vm_compute; discriminate|].
  apply (run_spawns_sound race). vm_compute. reflexivity.
Defined.

(** A thread that is registered again takes a second slot: the entry it had is replaced and its slot
    is not given back, so that the counter stays above zero when the thread has ended. *)
Example registered_again_keeps_slot :
  (fun sys => (size (agent_tree (snd sys)), total_count (snd sys))) <$>
    run_spawns [(0, Proceed false); (0, Commit (agent_of "t1" "/root/a")); (1, Proceed false); (1, Commit (agent_of "t1" "/root/b"));
                (2, Proceed false); (2, Proceed false)]
      ([SpawnReserve None; SpawnReserve None; ReleaseThread (lit "t1")], registry_default)
  = Some (0, 1%N).
Proof. vm_compute. reflexivity. Qed.

(** A nickname that is drawn from the pool is not in use, unless the pool was used up and begins anew. *)
Lemma drawn_nickname_is_unused names random r nickname r' :
  reserve_agent_nickname names None random r = (Some nickname, r') ->
  nickname ∈ used_agent_nicknames r' /\
  (nickname_reset_count r' = nickname_reset_count r /\ nickname ∉ used_agent_nicknames r \/ used_agent_nicknames r' = {[nickname]}).
Proof.
  unfold reserve_agent_nickname, choose. intros Hn. destruct (is_empty names); [done|].
  destruct (List.filter _ _ !! _) as [n|] eqn:E; simplify_eq/=.
  - split; [set_solver|]. left. split; [done|]. apply list_elem_of_lookup_2, list_elem_of_In, List.filter_In in E as [_ E].
    by apply negb_true_iff, bool_decide_eq_false in E.
  - destruct (names !! _) as [n|]; simplify_eq/=. split; [set_solver|by right].
Qed.
