(* ===== verification/TomlMerge.v ===== *)
(** * Merging configurations

    Models [config/src/merge.rs], [key_aliases.rs] and [overrides.rs]: TOML values, the merge of a
    configuration into one below it, the renaming of legacy keys, and the layer that the overrides of
    the command line make.

    The merge recurses on the values of the overlay.  Keys of a table are renamed first, which does
    not look at the values, so that the recursive calls are prepared for all values of the overlay
    before the renaming and made afterwards. *)

From stdpp Require Import base list strings sets.
From Stdlib Require Import NArith ZArith.
From S2P Require Import Prelude IndexMap NetPolicy.

(** ** Values *)

(** A float is kept as its bits, a date as its text. *)
Inductive TomlValue : Type :=
| TomlString (s : str)
| TomlInteger (z : Z)
| TomlFloat (bits : Z)
| TomlBoolean (b : bool)
| TomlDatetime (s : str)
| TomlArray (items : list TomlValue)
| TomlTable (table : list (str * TomlValue)).

(** [char::to_lowercase] beyond ASCII is a table of Unicode, an argument of the merge. *)
Class CaseMapping := { to_lowercase : str -> str }.

Definition as_table (v : TomlValue) : option (list (str * TomlValue)) := match v with TomlTable t => Some t | _ => None end.
Definition contains_key {A} (k : str) (t : list (str * A)) : bool := bool_decide (is_Some (index_get k t)).

(** ** Legacy keys *)

Record ConfigKeyAlias := mkAlias { alias_table_path : list str; alias_legacy_key : str; alias_canonical_key : str }.

Definition CONFIG_KEY_ALIASES : list ConfigKeyAlias :=
  [mkAlias [lit "memories"] (lit "no_memories_if_mcp_or_web_search") (lit "disable_on_external_context");
   mkAlias [lit "agents"] (lit "max_threads") (lit "max_concurrent_threads_per_session")].

Definition apply_alias {A} (path : list str) (table : list (str * A)) (alias : ConfigKeyAlias) : list (str * A) :=
  if bool_decide (path = alias_table_path alias) then
    match index_get (alias_legacy_key alias) table with
    | Some value =>
        let table := shift_remove (alias_legacy_key alias) table in
        if contains_key (alias_canonical_key alias) table then table else index_insert (alias_canonical_key alias) value table
    | None => table
    end
  else table.

Definition normalize_key_aliases {A} (path : list str) (table : list (str * A)) : list (str * A) := foldl (apply_alias path) table CONFIG_KEY_ALIASES.

Fixpoint normalized_with_key_aliases (value : TomlValue) (path : list str) : TomlValue :=
  match value with
  | TomlTable table =>
      let normalized := (fix go (t : list (str * TomlValue)) (acc : list (str * TomlValue)) := match t with
        | [] => acc
        | (key, child) :: t => go t (index_insert key (normalized_with_key_aliases child (path ++ [key])) acc)
        end) table [] in
      TomlTable (normalize_key_aliases path normalized)
  | TomlArray items => TomlArray (map (fun item => normalized_with_key_aliases item path) items)
  | _ => value
  end.

(** ** Special tables *)

Inductive ShellEnvironmentPolicyFilterRepresentation : Type := Filters | Legacy.

Definition representation_from_policy (policy : TomlValue) : option ShellEnvironmentPolicyFilterRepresentation :=
  policy ← as_table policy;
  if contains_key (lit "filters") policy then Some Filters
  else if contains_key (lit "exclude") policy || contains_key (lit "include_only") policy then Some Legacy
  else None.

Definition representation_from_path (path : list str) : option ShellEnvironmentPolicyFilterRepresentation :=
  match path with
  | policy :: field :: _ =>
      if str_eqb policy (lit "shell_environment_policy") then
        if str_eqb field (lit "filters") then Some Filters
        else if str_eqb field (lit "exclude") || str_eqb field (lit "include_only") then Some Legacy
        else None
      else None
  | _ => None
  end.

Definition is_shell_environment_policy_path (path : list str) : bool :=
  match path with [policy] => str_eqb policy (lit "shell_environment_policy") | _ => false end.

Definition representation_from_edit (path : list str) (value : TomlValue) : option ShellEnvironmentPolicyFilterRepresentation :=
  if is_shell_environment_policy_path path then representation_from_policy value else representation_from_path path.

Definition displaced_fields (r : ShellEnvironmentPolicyFilterRepresentation) : list str :=
  match r with Filters => [lit "exclude"; lit "include_only"] | Legacy => [lit "filters"] end.

Definition is_multi_agent_v2_feature_path (path : list str) : bool :=
  match path with
  | [features; feature] => str_eqb features (lit "features") && str_eqb feature (lit "multi_agent_v2")
  | [profiles; _; features; feature] =>
      str_eqb profiles (lit "profiles") && str_eqb features (lit "features") && str_eqb feature (lit "multi_agent_v2")
  | _ => false
  end.

Definition is_shell_environment_filters_path (path : list str) : bool :=
  match path with [policy; filters] => str_eqb policy (lit "shell_environment_policy") && str_eqb filters (lit "filters") | _ => false end.

Definition is_permission_network_domains_path (path : list str) : bool :=
  match path with
  | [permissions; _; network; domains] =>
      str_eqb permissions (lit "permissions") && str_eqb network (lit "network") && str_eqb domains (lit "domains")
  | _ => false
  end.

Definition replace_shell_environment_policy_filter_representation (base overlay : TomlValue) (path : list str) : TomlValue :=
  if negb (is_shell_environment_policy_path path) then base
  else
    match representation_from_policy overlay, base with
    | Some overlay_representation, TomlTable base => TomlTable (foldl (fun t field => shift_remove field t) base (displaced_fields overlay_representation))
    | _, _ => base
    end.

Definition rename_keys {A} (f : str -> str) (table : list (str * A)) : list (str * A) :=
  foldl (fun t e => index_insert (f (fst e)) (snd e) t) [] table.
Definition normalize_network_domain_keys {A} (table : list (str * A)) : list (str * A) := rename_keys normalize_host table.

Section merge.
Context `{CaseMapping}.

Definition normalize_case_insensitive_keys {A} (table : list (str * A)) : list (str * A) := rename_keys to_lowercase table.

(** What is done to the keys of both tables before they are merged. *)
Definition normalize_keys {A} (path : list str) (table : list (str * A)) : list (str * A) :=
  let table := normalize_key_aliases path table in
  let table := if is_permission_network_domains_path path then normalize_network_domain_keys table else table in
  if is_shell_environment_filters_path path then normalize_case_insensitive_keys table else table.

(** The feature that is a flag or a table: the base in the form of a table, or the whole result. *)
Definition merge_feature_flag (base overlay : TomlValue) (path : list str) : TomlValue * bool :=
  if is_multi_agent_v2_feature_path path then
    match base, overlay with
    | TomlBoolean enabled, TomlTable _ => (TomlTable [(lit "enabled", TomlBoolean enabled)], false)
    | TomlTable table, TomlBoolean enabled => (TomlTable (index_insert (lit "enabled") (TomlBoolean enabled) table), true)
    | _, _ => (base, false)
    end
  else (base, false).

(** One key of the overlay, with the merge of its value. *)
Definition merge_entry (path : list str) (base_table : list (str * TomlValue))
    (entry : str * (TomlValue * (TomlValue -> list str -> TomlValue))) : list (str * TomlValue) :=
  let '(key, (value, merge_value)) := entry in
  match index_get key base_table with
  | Some existing => index_insert key (merge_value existing (path ++ [key])) base_table
  | None => index_insert key (normalized_with_key_aliases value (path ++ [key])) base_table
  end.

Fixpoint merge_toml_values_at_path (overlay base : TomlValue) (path : list str) : TomlValue :=
  let base := replace_shell_environment_policy_filter_representation base overlay path in
  let '(base, finished) := merge_feature_flag base overlay path in
  if finished then base
  else
    match overlay, base with
    | TomlTable overlay_table, TomlTable base_table =>
        let prepared := (fix prepare (t : list (str * TomlValue)) := match t with
          | [] => []
          | (key, value) :: t => (key, (value, merge_toml_values_at_path value)) :: prepare t
          end) overlay_table in
        TomlTable (foldl (merge_entry path) (normalize_keys path base_table) (normalize_keys path prepared))
    | _, _ => normalized_with_key_aliases overlay path
    end.

Definition merge_toml_values (base overlay : TomlValue) : TomlValue := merge_toml_values_at_path overlay base [].

Definition shell_environment_filter_entry (root : TomlValue) (path : list str) : option (str * TomlValue) :=
  match path with
  | [policy; filters; pattern] =>
      if negb (str_eqb policy (lit "shell_environment_policy")) || negb (str_eqb filters (lit "filters")) then None
      else
        policy ← as_table root ≫= index_get policy;
        filters ← as_table policy ≫= index_get filters;
        table ← as_table filters;
        find (fun e => str_eqb (to_lowercase (fst e)) (to_lowercase pattern)) table
  | _ => None
  end.

(** ** Overrides of the command line *)

(** The value of the last segment. *)
Definition override_last (table : list (str * TomlValue)) (traversed : list str) (segment : str) (value : TomlValue) : list (str * TomlValue) :=
  let plain := index_insert segment value table in
  if is_multi_agent_v2_feature_path traversed then
    match index_get segment table, value with
    | Some (TomlTable feature), TomlBoolean enabled =>
        index_insert segment (TomlTable (index_insert (lit "enabled") (TomlBoolean enabled) feature)) table
    | Some (TomlBoolean enabled), TomlTable _ =>
        index_insert segment (merge_toml_values (TomlTable [(lit "enabled", TomlBoolean enabled)]) value) table
    | Some (TomlTable feature), TomlTable _ => index_insert segment (merge_toml_values (TomlTable feature) value) table
    | _, _ => plain
    end
  else plain.

(** A flag becomes a table when something below it is set. *)
Definition expand_flag (traversed : list str) (v : TomlValue) : TomlValue :=
  if is_multi_agent_v2_feature_path traversed then
    match v with TomlBoolean enabled => TomlTable [(lit "enabled", TomlBoolean enabled)] | _ => v end
  else v.

Fixpoint apply_override_segments (segments traversed : list str) (current value : TomlValue) : TomlValue :=
  match segments with
  | [] => current
  | segment :: rest =>
      let traversed := traversed ++ [segment] in
      match rest with
      | [] =>
          match current with
          | TomlTable table => TomlTable (override_last table traversed segment value)
          | _ => TomlTable [(segment, value)]
          end
      | _ :: _ =>
          let '(table, child) :=
            match current with
            | TomlTable table => (table, expand_flag traversed (default (TomlTable []) (index_get segment table)))
            | _ => ([], TomlTable [])
            end in
          TomlTable (index_insert segment (apply_override_segments rest traversed child value) table)
      end
  end.

Definition apply_toml_override (root : TomlValue) (path : str) (value : TomlValue) : TomlValue := apply_override_segments (split 46 path) [] root value.

Definition build_cli_overrides_layer (cli_overrides : list (str * TomlValue)) : TomlValue :=
  foldl (fun root e => apply_toml_override root (fst e) (snd e)) (TomlTable []) cli_overrides.

End merge.

(** ** Which layer decides *)

(** The keys of a table are distinct, at every depth: what the type of the tables ensures. *)
Fixpoint toml_ok (v : TomlValue) : bool :=
  match v with
  | TomlTable t => bool_decide (index_ok t) && forallb (fun e => toml_ok (snd e)) t
  | TomlArray items => forallb toml_ok items
  | _ => true
  end.

(** The value of a key of the table at [path] when legacy keys are read as the keys that replace them. *)
Definition layer_get {A} (path : list str) (k : str) (t : list (str * A)) : option A :=
  match find (fun a => bool_decide (path = alias_table_path a)) CONFIG_KEY_ALIASES with
  | Some a =>
      if str_eqb k (alias_legacy_key a) then None
      else if str_eqb k (alias_canonical_key a) then
        match index_get k t with Some v => Some v | None => index_get (alias_legacy_key a) t end
      else index_get k t
  | None => index_get k t
  end.

(** No rule of its own concerns the key [k] of the table at [path]. *)
Definition plain_step (path : list str) (k : str) : bool :=
  negb (is_permission_network_domains_path path) && negb (is_shell_environment_filters_path path) &&
  negb (is_shell_environment_policy_path path && existsb (str_eqb k) [lit "filters"; lit "exclude"; lit "include_only"]).

Fixpoint plain_path (path p : list str) : bool :=
  negb (is_multi_agent_v2_feature_path path) && match p with [] => true | k :: p => plain_step path k && plain_path (path ++ [k]) p end.

(** The setting at [p] below [path]: a value that is not a table. *)
Fixpoint setting_at (get : forall A, list str -> str -> list (str * A) -> option A) (path p : list str) (v : TomlValue) : option TomlValue :=
  match p with
  | [] => match v with TomlTable _ => None | _ => Some v end
  | k :: p => match v with TomlTable t => get TomlValue path k t ≫= setting_at get (path ++ [k]) p | _ => None end
  end.
Definition setting (p : list str) (v : TomlValue) : option TomlValue := setting_at (fun A _ => index_get) [] p v.

(** What a layer says about [p]: nothing, or that it has this value, or (when it puts a table at
    [p] or another value above it) that there is no setting. *)
Fixpoint layer_says (path p : list str) (layer : TomlValue) : option (option TomlValue) :=
  match p with
  | [] => Some match layer with TomlTable _ => None | _ => Some (normalized_with_key_aliases layer path) end
  | k :: p => match layer with TomlTable t => layer_get path k t ≫= layer_says (path ++ [k]) p | _ => Some None end
  end.

(** The setting that the highest layer that says something about [p] gives; the lowest layer is the
    first. *)
Definition highest_says (p : list str) (layers : list TomlValue) : option TomlValue :=
  match omap (layer_says [] p) (rev layers) with d :: _ => d | [] => None end.

(** *** Keys of a table *)

Lemma str_eqb_spec s t : str_eqb s t = true <-> s = t.
Proof. apply bool_decide_eq_true. Qed.

Lemma str_eqb_ne s t : s <> t -> str_eqb s t = false.
Proof. intros. by apply bool_decide_eq_false. Qed.

Lemma contains_key_false {A} k (t : list (str * A)) : index_get k t = None -> contains_key k t = false.
Proof. unfold contains_key. intros ->. by apply bool_decide_eq_false, is_Some_None. Qed.

Lemma contains_key_true {A} k (t : list (str * A)) v : index_get k t = Some v -> contains_key k t = true.
Proof. unfold contains_key. intros ->. by apply bool_decide_eq_true. Qed.

Lemma apply_alias_other {A} path (t : list (str * A)) a : path <> alias_table_path a -> apply_alias path t a = t.
Proof. intros Hn. unfold apply_alias. by rewrite bool_decide_false. Qed.

Lemma apply_alias_get {A} (t : list (str * A)) a k :
  alias_legacy_key a <> alias_canonical_key a ->
  index_get k (apply_alias (alias_table_path a) t a) =
    if str_eqb k (alias_legacy_key a) then None
    else if str_eqb k (alias_canonical_key a) then
      match index_get k t with Some v => Some v | None => index_get (alias_legacy_key a) t end
    else index_get k t.
Proof.
  intros Hne. unfold apply_alias. rewrite bool_decide_true by done. unfold str_eqb. repeat case_bool_decide; subst.
  - destruct (index_get (alias_legacy_key a) t) eqn:E; [|done]. case_match; [apply index_get_remove_eq|].
    rewrite index_get_insert_ne by done. apply index_get_remove_eq.
  - destruct (index_get (alias_legacy_key a) t) as [v|] eqn:E; [|by destruct (index_get (alias_canonical_key a) t)].
    destruct (index_get (alias_canonical_key a) t) as [w|] eqn:Ec.
    + rewrite (contains_key_true _ _ w) by (by rewrite index_get_remove_ne). by rewrite index_get_remove_ne.
    + rewrite contains_key_false by (by rewrite index_get_remove_ne). by rewrite index_get_insert_eq.
  - destruct (index_get (alias_legacy_key a) t) eqn:E; [|done].
    case_match; [|rewrite index_get_insert_ne by done]; by rewrite index_get_remove_ne.
Qed.

Lemma normalize_key_aliases_get {A} path k (t : list (str * A)) : index_get k (normalize_key_aliases path t) = layer_get path k t.
Proof.
  unfold normalize_key_aliases, layer_get, CONFIG_KEY_ALIASES. cbn [foldl find].
  destruct (decide (path = [lit "memories"])) as [->|Hm].
  { rewrite bool_decide_true by done. rewrite apply_alias_other by (vm_compute; discriminate). by apply (apply_alias_get t (mkAlias [_] _ _)). }
  rewrite bool_decide_false by done. rewrite (apply_alias_other path t) by done.
  destruct (decide (path = [lit "agents"])) as [->|Ha].
  { rewrite bool_decide_true by done. by apply (apply_alias_get t (mkAlias [_] _ _)). }
  by rewrite bool_decide_false, apply_alias_other.
Qed.

Lemma layer_get_fmap {A B} (f : A -> B) path k t : layer_get path k ((fun e => (fst e, f (snd e))) <$> t) = f <$> layer_get path k t.
Proof.
  unfold layer_get. destruct (find _ _); [|apply index_get_fmap]. rewrite !index_get_fmap.
  destruct (str_eqb k _); [done|]. destruct (str_eqb k _); [|done]. by destruct (index_get k t).
Qed.

(** *** Normalised values *)

(** The entries of a table put one after the other into another. *)
Definition insert_all {A} (t acc : list (str * A)) : list (str * A) := foldl (fun acc e => index_insert (fst e) (snd e) acc) acc t.

Lemma insert_all_get {A} (t : list (str * A)) acc k :
  index_ok t -> index_get k (insert_all t acc) = match index_get k t with Some v => Some v | None => index_get k acc end.
Proof.
  unfold index_ok. revert acc. induction t as [|[k' v] t IH]; intros acc; [done|]. simpl. intros [Hn Ht]%NoDup_cons.
  unfold insert_all in *. simpl. rewrite (IH _ Ht), index_get_cons. unfold str_eqb. case_bool_decide as Hk.
  - subst k'. apply index_get_None in Hn as ->. apply index_get_insert_eq.
  - by rewrite index_get_insert_ne.
Qed.

Lemma normalized_table t path :
  normalized_with_key_aliases (TomlTable t) path =
  TomlTable (normalize_key_aliases path (insert_all ((fun e => (e.1, normalized_with_key_aliases e.2 (path ++ [e.1]))) <$> t) [])).
Proof.
  simpl. do 2 f_equal. unfold insert_all. generalize (@nil (str * TomlValue)). induction t as [|[k v] t IH]; intros acc; [done|]. simpl. by rewrite IH.
Qed.

Lemma toml_ok_table t : toml_ok (TomlTable t) = true -> index_ok t /\ forall k v, index_get k t = Some v -> toml_ok v = true.
Proof.
  simpl. intros [Hok Hall]%andb_prop. split; [by apply bool_decide_eq_true in Hok|]. intros k v Hk%index_get_elem.
  rewrite forallb_forall in Hall. apply list_elem_of_In in Hk. exact (Hall _ Hk).
Qed.

Lemma layer_get_index {A} path k (t : list (str * A)) v : layer_get path k t = Some v -> exists k', index_get k' t = Some v.
Proof. unfold layer_get. repeat case_match; naive_solver. Qed.

Lemma TomlValue_nested_ind (P : TomlValue -> Prop) :
  (forall v, match v with TomlArray _ | TomlTable _ => False | _ => True end -> P v) ->
  (forall items, Forall P items -> P (TomlArray items)) ->
  (forall t, Forall (fun e => P (snd e)) t -> P (TomlTable t)) ->
  forall v, P v.
Proof.
  intros Hleaf Harray Htable. fix IH 1. intros [s|z|b|b|s|items|t]; try (by apply Hleaf).
  - apply Harray. induction items as [|v items IHi]; constructor; [apply IH|exact IHi].
  - apply Htable. induction t as [|[k v] t IHt]; constructor; [apply IH|exact IHt].
Qed.

(** The aliases concern tables of the root only. *)
Lemma alias_find_length path a : find (fun a => bool_decide (path = alias_table_path a)) CONFIG_KEY_ALIASES = Some a -> length path = 1%nat.
Proof. simpl. repeat case_bool_decide; intros; simplify_eq; done. Qed.

Lemma normalize_key_aliases_deep {A} path (t : list (str * A)) : length path <> 1%nat -> normalize_key_aliases path t = t.
Proof. intros Hl. unfold normalize_key_aliases, CONFIG_KEY_ALIASES. cbn [foldl]. rewrite !apply_alias_other; [done|..]; intros ->; by apply Hl. Qed.

Lemma normalized_deep v path path' :
  (2 <= length path)%nat -> (2 <= length path')%nat -> normalized_with_key_aliases v path = normalized_with_key_aliases v path'.
Proof.
  revert path path'. induction v as [v Hv|items IH|t IH] using TomlValue_nested_ind; intros path path' Hl Hl'.
  - by destruct v.
  - simpl. f_equal. induction IH as [|v items Hv _ IHi]; [done|]. simpl. by rewrite (Hv path path'), IHi.
  - rewrite !normalized_table, !normalize_key_aliases_deep by lia. do 2 f_equal.
    induction IH as [|[k v] t Hv _ IHt]; [done|]. simpl. f_equal; [|done]. f_equal. apply Hv; rewrite length_app; simpl; lia.
Qed.

Lemma normalized_children_get (t : list (str * TomlValue)) path k :
  index_get k ((fun e => (e.1, normalized_with_key_aliases e.2 (path ++ [e.1]))) <$> t)
  = (fun v => normalized_with_key_aliases v (path ++ [k])) <$> index_get k t.
Proof.
  induction t as [|[k' v] t IH]; [done|]. rewrite fmap_cons. simpl. rewrite !index_get_cons. unfold str_eqb. case_bool_decide as Hk; [by subst|done].
Qed.

Lemma normalized_keys (t : list (str * TomlValue)) path : fst <$> ((fun e : str * TomlValue => (e.1, normalized_with_key_aliases e.2 (path ++ [e.1]))) <$> t) = fst <$> t.
Proof. induction t as [|e t IH]; [done|]. by rewrite !fmap_cons, IH. Qed.

(** The keys of a normalised table. *)
Lemma normalized_get t path :
  index_ok t -> exists t', normalized_with_key_aliases (TomlTable t) path = TomlTable t' /\
    forall k, index_get k t' = (fun v => normalized_with_key_aliases v (path ++ [k])) <$> layer_get path k t.
Proof.
  intros Ht. rewrite normalized_table. eexists. split; [done|]. intros k. rewrite normalize_key_aliases_get.
  set (children := (fun e : str * TomlValue => (e.1, normalized_with_key_aliases e.2 (path ++ [e.1]))) <$> t).
  assert (Hget : forall k, index_get k (insert_all children []) = (fun v => normalized_with_key_aliases v (path ++ [k])) <$> index_get k t).
  { intros k'. rewrite insert_all_get by (unfold index_ok, children; by rewrite normalized_keys). unfold children. rewrite normalized_children_get.
    by destruct (index_get k' t). }
  unfold layer_get. destruct (find _ _) as [a|] eqn:Ea; [|apply Hget]. apply alias_find_length in Ea.
  destruct (str_eqb k (alias_legacy_key a)); [done|]. rewrite !Hget. destruct (str_eqb k _); [|done].
  destruct (index_get k t); simpl; [done|]. destruct (index_get (alias_legacy_key a) t); simpl; [|done].
  f_equal. apply normalized_deep; rewrite length_app; simpl; lia.
Qed.

(** *** Merged tables *)

Section merged.
Context `{CaseMapping}.

Lemma normalize_key_aliases_ok {A} path (t : list (str * A)) : index_ok t -> index_ok (normalize_key_aliases path t).
Proof.
  unfold normalize_key_aliases. revert t. induction CONFIG_KEY_ALIASES as [|a l IH]; intros t Ht; [done|]. simpl. apply IH. unfold apply_alias.
  repeat case_match; auto using shift_remove_ok, index_insert_ok.
Qed.

Lemma normalize_keys_plain {A} path k (t : list (str * A)) : plain_step path k = true -> normalize_keys path t = normalize_key_aliases path t.
Proof. unfold plain_step, normalize_keys. by destruct (is_permission_network_domains_path path), (is_shell_environment_filters_path path). Qed.

Lemma merge_entries_get path k entries base :
  index_ok entries ->
  index_get k (foldl (merge_entry path) base entries) =
    match index_get k entries with
    | Some (v, merge_value) =>
        Some match index_get k base with
          | Some b => merge_value b (path ++ [k])
          | None => normalized_with_key_aliases v (path ++ [k])
          end
    | None => index_get k base
    end.
Proof.
  unfold index_ok. revert base. induction entries as [|[k' [v m]] entries IH]; intros base; [done|]. simpl. intros [Hn Hok]%NoDup_cons.
  rewrite (IH _ Hok), index_get_cons. unfold str_eqb. case_bool_decide as Hk.
  - subst k'. apply index_get_None in Hn as ->. destruct (index_get k base); apply index_get_insert_eq.
  - destruct (index_get k entries) as [[v' m']|]; destruct (index_get k' base); by rewrite index_get_insert_ne.
Qed.

(** The overlay's table with the merges of its values. *)
Definition prepare (t : list (str * TomlValue)) := (fun e => (fst e, (snd e, merge_toml_values_at_path (snd e)))) <$> t.

Lemma merge_tables ov base path :
  is_multi_agent_v2_feature_path path = false ->
  exists base', replace_shell_environment_policy_filter_representation (TomlTable base) (TomlTable ov) path = TomlTable base' /\
    merge_toml_values_at_path (TomlTable ov) (TomlTable base) path
    = TomlTable (foldl (merge_entry path) (normalize_keys path base') (normalize_keys path (prepare ov))).
Proof.
  intros Hf. unfold replace_shell_environment_policy_filter_representation at 1. cbn [merge_toml_values_at_path].
  unfold replace_shell_environment_policy_filter_representation, merge_feature_flag. rewrite Hf.
  assert (Hp : forall t : list (str * TomlValue), (fix prepare (t : list (str * TomlValue)) := match t with
          | [] => []
          | (key, value) :: t => (key, (value, merge_toml_values_at_path value)) :: prepare t
          end) t = prepare t) by (intros t; induction t as [|[k v] t IH]; [done|]; unfold prepare in *; simpl; by rewrite IH).
  destruct (negb _); [eexists; split; [done|]; by rewrite Hp|]. destruct (representation_from_policy _); eexists; (split; [done|]); by rewrite Hp.
Qed.

Lemma replaced_get ov base base' path k :
  plain_step path k = true ->
  replace_shell_environment_policy_filter_representation (TomlTable base) ov path = TomlTable base' -> index_get k base' = index_get k base.
Proof.
  unfold plain_step, replace_shell_environment_policy_filter_representation. intros Hp.
  destruct (is_shell_environment_policy_path path); simpl; [|naive_solver].
  apply andb_prop in Hp as [_ Hk]. simpl in Hk.
  assert (Hf : forall field, field = lit "filters" \/ field = lit "exclude" \/ field = lit "include_only" -> field <> k).
  { intros field Hfield ->. unfold str_eqb in Hk. destruct Hfield as [-> | [-> | -> ]]; vm_compute in Hk; discriminate. }
  destruct (representation_from_policy ov) as [[]|]; simpl; intros Hb; simplify_eq; [..|done]; rewrite !index_get_remove_ne; auto.
Qed.

Lemma replaced_layer_get ov base base' path k :
  plain_step path k = true ->
  replace_shell_environment_policy_filter_representation (TomlTable base) ov path = TomlTable base' -> layer_get path k base' = layer_get path k base.
Proof.
  intros Hk Hb. unfold layer_get. destruct (find _ _) as [a|] eqn:Ea; [|eauto using replaced_get].
  assert (base' = base) as ->; [|done].
  apply List.find_some in Ea as [Ha Hp]. apply bool_decide_eq_true in Hp as ->.
  unfold replace_shell_environment_policy_filter_representation in Hb. simpl in Ha. destruct Ha as [<-|[<-|[]]]; vm_compute in Hb; by simplify_eq.
Qed.

(** A key of the merge of two tables. *)
Lemma merge_tables_get ov base path k :
  index_ok ov -> is_multi_agent_v2_feature_path path = false -> plain_step path k = true ->
  exists t, merge_toml_values_at_path (TomlTable ov) (TomlTable base) path = TomlTable t /\
    index_get k t =
      match layer_get path k ov with
      | Some v =>
          Some match layer_get path k base with
            | Some b => merge_toml_values_at_path v b (path ++ [k])
            | None => normalized_with_key_aliases v (path ++ [k])
            end
      | None => layer_get path k base
      end.
Proof.
  intros Hov Hf Hk. destruct (merge_tables ov base path Hf) as (base' & Hb & ->). eexists. split; [done|].
  rewrite !(normalize_keys_plain path k) by done. rewrite merge_entries_get.
  2:{ apply normalize_key_aliases_ok. unfold index_ok, prepare. by rewrite <- list_fmap_compose. }
  rewrite !normalize_key_aliases_get. unfold prepare. rewrite (layer_get_fmap (fun v => (v, merge_toml_values_at_path v))).
  rewrite (replaced_layer_get _ _ _ _ _ Hk Hb). by destruct (layer_get path k ov).
Qed.

(** Anything else is replaced by the overlay. *)
Lemma merge_replaces ov base path :
  is_multi_agent_v2_feature_path path = false -> (as_table ov = None \/ as_table base = None) ->
  merge_toml_values_at_path ov base path = normalized_with_key_aliases ov path.
Proof.
  intros Hf Hn. destruct ov; destruct base; cbn [merge_toml_values_at_path]; unfold merge_feature_flag; rewrite ?Hf;
    unfold replace_shell_environment_policy_filter_representation; simpl; destruct (is_shell_environment_policy_path path); simpl; try done;
    repeat case_match; try done; destruct Hn; by simplify_eq.
Qed.

Lemma normalized_leaf v path : as_table v = None -> as_table (normalized_with_key_aliases v path) = None.
Proof. by destruct v. Qed.

(** A table without legacy keys. *)
Definition no_legacy {A} (path : list str) (t : list (str * A)) : Prop :=
  Forall (fun a => path = alias_table_path a -> index_get (alias_legacy_key a) t = None) CONFIG_KEY_ALIASES.

Lemma layer_get_clean {A} path k (t : list (str * A)) : no_legacy path t -> layer_get path k t = index_get k t.
Proof.
  unfold no_legacy, layer_get. intros Hno. destruct (find _ _) as [a|] eqn:Ea; [|done].
  apply List.find_some in Ea as [Ha Hp]. apply bool_decide_eq_true in Hp. rewrite List.Forall_forall in Hno. specialize (Hno a Ha Hp).
  unfold str_eqb. repeat case_bool_decide; subst; [done|rewrite Hno; by destruct (index_get (alias_canonical_key a) t)|done].
Qed.

Lemma layer_get_legacy {A} a (t : list (str * A)) : In a CONFIG_KEY_ALIASES -> layer_get (alias_table_path a) (alias_legacy_key a) t = None.
Proof. by intros [<-|[<-|[]]]. Qed.

Lemma legacy_plain a : In a CONFIG_KEY_ALIASES ->
  is_multi_agent_v2_feature_path (alias_table_path a) = false /\ plain_step (alias_table_path a) (alias_legacy_key a) = true.
Proof. by intros [<-|[<-|[]]]. Qed.

Lemma normalized_no_legacy t path : index_ok t -> exists t', normalized_with_key_aliases (TomlTable t) path = TomlTable t' /\ no_legacy path t'.
Proof.
  intros Ht. destruct (normalized_get t path Ht) as (t' & Heq & Hget). exists t'. split; [done|]. apply List.Forall_forall.
  intros a Ha ->. rewrite Hget. by rewrite layer_get_legacy.
Qed.

(** Settings where legacy keys are read as those that replace them. *)
Definition setting_in : list str -> list str -> TomlValue -> option TomlValue := setting_at (@layer_get).

Lemma setting_normalized p : forall v path,
  toml_ok v = true -> setting_in path p (normalized_with_key_aliases v path) = mjoin (layer_says path p v).
Proof.
  induction p as [|k p IH]; intros v path Hv; [by destruct v|].
  destruct v as [| | | | | |t]; try done. apply toml_ok_table in Hv as [Ht Hall].
  destruct (normalized_get t path Ht) as (t' & Heq & Hget). destruct (normalized_no_legacy t path Ht) as (t'' & Heq' & Hno). rewrite Heq in Heq'. simplify_eq.
  rewrite Heq. unfold setting_in in *. cbn [setting_at layer_says]. rewrite layer_get_clean, Hget by done.
  destruct (layer_get path k t) as [c|] eqn:Ec; [|done]. simpl. apply IH.
  destruct (layer_get_index _ _ _ _ Ec) as [k' Hk']. by apply (Hall k').
Qed.

Lemma merge_no_legacy ov base t path :
  index_ok ov -> is_multi_agent_v2_feature_path path = false ->
  merge_toml_values_at_path (TomlTable ov) (TomlTable base) path = TomlTable t -> no_legacy path t.
Proof.
  intros Hov Hf Ht. apply List.Forall_forall. intros a Ha ->. destruct (legacy_plain a Ha) as [_ Hp].
  destruct (merge_tables_get ov base _ _ Hov Hf Hp) as (t' & Ht' & Hget). rewrite Ht in Ht'. simplify_eq. rewrite Hget. by rewrite !layer_get_legacy.
Qed.

(** The merge of a layer, setting by setting. *)
Lemma merge_setting p : forall ov base path,
  toml_ok ov = true -> plain_path path p = true ->
  setting_in path p (merge_toml_values_at_path ov base path) =
    match layer_says path p ov with Some d => d | None => setting_in path p base end.
Proof.
  induction p as [|k p IH]; intros ov base path Hov Hp; cbn [plain_path] in Hp; apply andb_prop in Hp as [Hf%negb_true_iff Hp].
  - destruct (as_table ov) eqn:Eov; [|rewrite merge_replaces by auto; by destruct ov].
    destruct ov; try done. simpl in Eov. destruct base; try by rewrite merge_replaces by auto.
    by destruct (merge_tables table table0 path Hf) as (base' & _ & ->).
  - apply andb_prop in Hp as [Hk Hp].
    destruct (as_table ov) as [t|] eqn:Eov; [|rewrite merge_replaces by auto; rewrite setting_normalized by done; by destruct ov].
    destruct (as_table base) as [b|] eqn:Eb.
    2:{ rewrite merge_replaces by auto. rewrite setting_normalized by done. destruct (layer_says path (k :: p) ov); [done|]. by destruct base. }
    destruct ov; try done. destruct base; try done. injection Eov as ->. injection Eb as ->. apply toml_ok_table in Hov as [Ht Hall].
    destruct (merge_tables_get t b path k Ht Hf Hk) as (m & Hm & Hget). pose proof (merge_no_legacy _ _ _ _ Ht Hf Hm) as Hno. rewrite Hm.
    unfold setting_in in *. cbn [setting_at layer_says]. rewrite layer_get_clean, Hget by done.
    destruct (layer_get path k t) as [c|] eqn:Ec; [|done]. simpl.
    destruct (layer_get_index _ _ _ _ Ec) as [k' Hk']. specialize (Hall k' c Hk').
    destruct (layer_get path k b) as [d|]; simpl; [by apply IH|]. rewrite (setting_normalized p c) by done. by destruct (layer_says _ p c).
Qed.

(** *** Legacy keys are gone *)

Fixpoint toml_at (p : list str) (v : TomlValue) : option TomlValue :=
  match p with
  | [] => Some v
  | k :: p => match v with TomlTable t => index_get k t ≫= toml_at p | _ => None end
  end.

Definition clean (v : TomlValue) : Prop := Forall (fun a => toml_at (alias_table_path a ++ [alias_legacy_key a]) v = None) CONFIG_KEY_ALIASES.

Section legacy.
Context (m k : str).
Hypothesis layer_none : forall A (t : list (str * A)), layer_get [m] k t = None.
Hypothesis m_plain : plain_step [] m = true.
Hypothesis k_plain : plain_step [m] k = true.

Lemma normalized_legacy v : toml_ok v = true -> toml_at [k] (normalized_with_key_aliases v [m]) = None.
Proof.
  intros Hv. destruct v as [| | | | | |t]; try done. apply toml_ok_table in Hv as [Ht _]. destruct (normalized_get t [m] Ht) as (t' & -> & Hget).
  cbn. by rewrite Hget, layer_none.
Qed.

Lemma merge_legacy_below v b : toml_ok v = true -> toml_at [k] (merge_toml_values_at_path v b [m]) = None.
Proof.
  intros Hv. destruct (as_table v) as [t|] eqn:Et; [|rewrite merge_replaces by auto; by apply normalized_legacy].
  destruct (as_table b) as [t'|] eqn:Eb; [|rewrite merge_replaces by auto; by apply normalized_legacy].
  destruct v; try done. destruct b; try done. apply toml_ok_table in Hv as [Ht _].
  destruct (merge_tables_get table table0 [m] k Ht eq_refl k_plain) as (r & -> & Hget). cbn. by rewrite Hget, !layer_none.
Qed.

Lemma normalized_legacy_root v : toml_ok v = true -> toml_at [m; k] (normalized_with_key_aliases v []) = None.
Proof.
  intros Hv. destruct v as [| | | | | |t]; try done. apply toml_ok_table in Hv as [Ht Hall]. destruct (normalized_get t [] Ht) as (t' & -> & Hget).
  cbn. rewrite Hget. destruct (layer_get [] m t) as [c|] eqn:Ec; [|done]. cbn. apply normalized_legacy, (Hall m), Ec.
Qed.

Lemma merge_legacy v b : toml_ok v = true -> toml_at [m; k] b = None -> toml_at [m; k] (merge_toml_values b v) = None.
Proof.
  intros Hv Hb. unfold merge_toml_values. destruct (as_table v) as [t|] eqn:Et; [|rewrite merge_replaces by auto; by apply normalized_legacy_root].
  destruct (as_table b) as [t'|] eqn:Eb; [|rewrite merge_replaces by auto; by apply normalized_legacy_root].
  destruct v; try done. destruct b; try done. apply toml_ok_table in Hv as [Ht Hall].
  destruct (merge_tables_get table table0 [] m Ht eq_refl m_plain) as (r & -> & Hget). cbn. rewrite Hget.
  destruct (layer_get [] m table) as [c|] eqn:Ec; [|done]. assert (toml_ok c = true) by (apply (Hall m), Ec).
  destruct (layer_get [] m table0); cbn; [by apply merge_legacy_below|by apply normalized_legacy].
Qed.
End legacy.

Lemma merge_clean v b : toml_ok v = true -> clean b -> clean (merge_toml_values b v).
Proof.
  intros Hv [Hm [Ha _]%Forall_cons]%Forall_cons. repeat apply Forall_cons_2; [..|done]; by apply merge_legacy.
Qed.

Lemma layer_get_deep {A} path k (t : list (str * A)) : length path <> 1%nat -> layer_get path k t = index_get k t.
Proof. intros Hl. by rewrite <- normalize_key_aliases_get, normalize_key_aliases_deep. Qed.

Lemma setting_deep p : forall path v, (2 <= length path)%nat -> setting_at (@layer_get) path p v = setting_at (fun A _ => index_get) path p v.
Proof.
  induction p as [|k p IH]; intros path v Hl; [done|]. cbn [setting_at]. destruct v; try done. rewrite layer_get_deep by lia.
  destruct (index_get k table); [|done]. cbn. apply IH. rewrite length_app. simpl. lia.
Qed.

(** In a value without legacy keys the settings are where they are looked for. *)
Lemma clean_setting p v : clean v -> setting p v = setting_in [] p v.
Proof.
  intros Hc. unfold setting, setting_in. destruct p as [|m p]; [done|]. cbn [setting_at]. destruct v as [| | | | | |t]; try done.
  change (layer_get [] m t) with (index_get m t). destruct (index_get m t) as [c|] eqn:Em; [|done]. cbn [mbind option_bind app].
  destruct p as [|k p]; [done|]. cbn [setting_at]. destruct c as [| | | | | |t']; try done.
  rewrite layer_get_clean.
  - destruct (index_get k t'); [|done]. cbn. symmetry. by apply setting_deep.
  - apply List.Forall_forall. intros a Ha Hp. unfold clean in Hc. rewrite List.Forall_forall in Hc. specialize (Hc a Ha).
    rewrite <- Hp in Hc. cbn in Hc. rewrite Em in Hc. cbn in Hc. by destruct (index_get (alias_legacy_key a) t').
Qed.
End merged.

(** ** Overrides of the command line set their paths *)

(** One path is a prefix of the other. *)
Definition paths_meet (p q : list str) : bool := forallb (fun '(a, b) => str_eqb a b) (zip p q).

(** No prefix of the path is that of the feature that may be a flag. *)
Definition free_of_feature (path : list str) : Prop := forall q, q `prefix_of` path -> is_multi_agent_v2_feature_path q = false.

Section overrides.
Context `{CaseMapping}.

Lemma toml_at_table k p v : toml_at (k :: p) v = (as_table v ≫= index_get k) ≫= toml_at p.
Proof. by destruct v. Qed.

(** One step of an override where no flag is involved. *)
Lemma override_step segment rest traversed current value :
  free_of_feature (traversed ++ segment :: rest) ->
  apply_override_segments (segment :: rest) traversed current value =
    TomlTable (index_insert segment
      (match rest with
       | [] => value
       | _ :: _ => apply_override_segments rest (traversed ++ [segment]) (default (TomlTable []) (as_table current ≫= index_get segment)) value
       end) (default [] (as_table current))).
Proof.
  intros Hf. assert (Hs : is_multi_agent_v2_feature_path (traversed ++ [segment]) = false) by (apply Hf; exists rest; by rewrite <- app_assoc).
  cbn [apply_override_segments]. destruct rest as [|s rest].
  - destruct current; try done. unfold override_last. by rewrite Hs.
  - destruct current; try done. unfold expand_flag. by rewrite Hs.
Qed.

Lemma override_sets segments : forall traversed current value,
  segments <> [] -> free_of_feature (traversed ++ segments) -> toml_at segments (apply_override_segments segments traversed current value) = Some value.
Proof.
  induction segments as [|s rest IH]; intros traversed current value Hne Hf; [done|]. rewrite override_step by done. rewrite toml_at_table. cbn [as_table mbind option_bind].
  rewrite index_get_insert_eq. cbn [mbind option_bind]. destruct rest as [|s' rest]; [done|]. apply IH; [done|]. by rewrite <- app_assoc.
Qed.

Lemma override_keeps segments : forall q traversed current value,
  free_of_feature (traversed ++ segments) -> paths_meet segments q = false -> toml_at q (apply_override_segments segments traversed current value) = toml_at q current.
Proof.
  unfold paths_meet. induction segments as [|s rest IH]; intros [|k q] traversed current value Hf Hm; try done. rewrite override_step by done.
  cbn [zip zip_with forallb] in Hm. rewrite !toml_at_table. cbn [as_table mbind option_bind].
  destruct (decide (s = k)) as [->|Hn]; [|rewrite index_get_insert_ne by done; by destruct current].
  rewrite (proj2 (str_eqb_spec _ _) eq_refl) in Hm. cbn [andb] in Hm. rewrite index_get_insert_eq. cbn [mbind option_bind].
  destruct rest as [|s' rest]; [done|]. rewrite IH; [|by rewrite <- app_assoc|done]. destruct q as [|k' q]; [done|].
  destruct (as_table current ≫= index_get k); [done|]. by cbn.
Qed.

(** An override of the command line that no later one touches (no later path is a prefix of its
    path or the other way round) is what the layer of the overrides has at its path. *)
Theorem cli_overrides_set_their_paths before after path value :
  Forall (fun e => free_of_feature (split 46 (fst e))) ((path, value) :: after) ->
  Forall (fun e => paths_meet (split 46 (fst e)) (split 46 path) = false) after ->
  toml_at (split 46 path) (build_cli_overrides_layer (before ++ (path, value) :: after)) = Some value.
Proof.
  intros [Hp Hfs]%Forall_cons Hafter. unfold build_cli_overrides_layer. rewrite foldl_app. cbn [foldl fst snd].
  induction after as [|e after IH] using rev_ind.
  - cbn [foldl]. unfold apply_toml_override. apply override_sets; [apply split_nonempty|done].
  - apply Forall_app in Hfs as [Hfs [He _]%Forall_cons]. apply Forall_app in Hafter as [Hafter [Hm _]%Forall_cons].
    rewrite foldl_snoc. unfold apply_toml_override at 1. rewrite override_keeps by done. by apply IH.
Qed.
End overrides.

Lemma cli_overrides_set_their_paths_witness :
  let case := {| to_lowercase := to_ascii_lowercase |} in
  toml_at [lit "tools"; lit "web"] (build_cli_overrides_layer [(lit "tools", TomlBoolean true); (lit "tools.web", TomlBoolean false); (lit "model", TomlString (lit "m"))])
  = Some (TomlBoolean false).
Proof.
  intros case. change [lit "tools"; lit "web"] with (split 46 (lit "tools.web")).
  apply (cli_overrides_set_their_paths [(lit "tools", TomlBoolean true)] [(lit "model", TomlString (lit "m"))] (lit "tools.web") (TomlBoolean false)).
  - assert (Hfree : forall p, length p < 2 \/ head p <> Some (lit "features") /\ length p < 4 -> free_of_feature p).
    { intros p Hp q [r ->]. destruct q as [|a [|b [|c [|d [|]]]]]; try done; rewrite length_app in Hp; simpl in Hp; [|lia].
      cbn. destruct Hp as [Hp|[Hp _]]; [lia|]. rewrite str_eqb_ne; [done|congruence]. }
    repeat constructor; apply Hfree; [right|left]; vm_compute; [split; [discriminate|lia]|lia].
  - repeat constructor.
Defined.
