(* ===== verification/ConfigLayers.v ===== *)
(** * Configuration layers

    Models [config/src/state.rs], [config_layer_source.rs], [fingerprint.rs], [constraint.rs], the
    checks of [shell_environment_policy.rs] and the profile names of [protocol/src/config_types.rs]:
    the stack of layers a configuration is read from, the configuration they make together, which
    layer each setting comes from, how the user's layer is replaced, and values that administrators
    constrain. *)

From stdpp Require Import base list strings sets gmap.
From Stdlib Require Import NArith ZArith Sorted.
From S2P Require Import Prelude FileSystem AbsPath IndexMap TomlMerge.

(** ** Sources of layers *)

Inductive ConfigLayerSource : Type :=
| PackagedDefaults (file : str)
| Mdm (domain key : str)
| System (file : str)
| EnterpriseManaged (id name : str)
| User (file : str) (profile : option str)
| Project (dot_codex_folder : str)
| SessionFlags
| LegacyManagedConfigTomlFromFile (file : str)
| LegacyManagedConfigTomlFromMdm.

#[export] Instance ConfigLayerSource_eq_dec : EqDecision ConfigLayerSource.
Proof. solve_decision. Defined.

Definition precedence (s : ConfigLayerSource) : Z :=
  match s with
  | PackagedDefaults _ => -10
  | Mdm _ _ => 0
  | System _ => 10
  | EnterpriseManaged _ _ => 15
  | User _ profile => if profile then 21 else 20
  | Project _ => 25
  | SessionFlags => 30
  | LegacyManagedConfigTomlFromFile _ => 40
  | LegacyManagedConfigTomlFromMdm => 50
  end%Z.

Definition is_user (s : ConfigLayerSource) : bool := match s with User _ _ => true | _ => false end.

Definition CONFIG_TOML_FILE : str := lit "config.toml".

Definition format_config_layer_source (source : ConfigLayerSource) (config_toml_file : str) : str :=
  match source with
  | PackagedDefaults file => lit "packaged defaults (" ++ file ++ lit ")"
  | Mdm domain key => lit "MDM (" ++ domain ++ lit ":" ++ key ++ lit ")"
  | System file => lit "system (" ++ file ++ lit ")"
  | EnterpriseManaged id name => lit "enterprise-managed (" ++ name ++ lit ", " ++ id ++ lit ")"
  | User file _ => lit "user (" ++ file ++ lit ")"
  | Project dot_codex_folder => lit "project (" ++ dot_codex_folder ++ lit "/" ++ config_toml_file ++ lit ")"
  | SessionFlags => lit "session-flags"
  | LegacyManagedConfigTomlFromFile file => lit "legacy managed_config.toml (" ++ file ++ lit ")"
  | LegacyManagedConfigTomlFromMdm => lit "legacy managed_config.toml (MDM)"
  end.

(** ** Versions *)

(** [serde_json::Value]; a number is kept as its text. *)
Inductive Json : Type :=
| JsonNull
| JsonBool (b : bool)
| JsonNumber (text : str)
| JsonString (s : str)
| JsonArray (items : list Json)
| JsonObject (fields : list (str * Json)).

(** What [serde_json] makes of a TOML value, the bytes it prints, and the digest of [sha2]. *)
Class Serialization := {
  to_value : TomlValue -> option Json;
  to_vec : Json -> option (list N);
  sha256 : list N -> list N
}.

(** The fields in the order of their keys. *)
Fixpoint canonical_json (value : Json) : Json :=
  match value with
  | JsonObject fields =>
      let canonical := (fix go (fields : list (str * Json)) := match fields with
        | [] => []
        | (key, val) :: fields => (key, canonical_json val) :: go fields
        end) fields in
      JsonObject (sort_by (fun a b => str_leb (fst a) (fst b)) canonical)
  | JsonArray items => JsonArray (map canonical_json items)
  | other => other
  end.

Definition hex_digit (n : N) : N := (if n <? 10 then 48 + n else 87 + n)%N.
Definition hex_byte (b : N) : str := [hex_digit (b / 16); hex_digit (b mod 16)].

Definition version_for_toml `{Serialization} (value : TomlValue) : str :=
  let json := default JsonNull (to_value value) in
  let serialized := default [] (to_vec (canonical_json json)) in
  lit "sha256:" ++ (sha256 serialized ≫= hex_byte).

(** ** Layers *)

Record ConfigLayerMetadata := mkMeta { meta_name : ConfigLayerSource; meta_version : str }.

Record RawTomlLayer := mkRaw { contents : str; base_dir : str }.

Record ConfigLayerEntry := mkLayer {
  layer_name : ConfigLayerSource;
  layer_config : TomlValue;
  layer_version : str;
  disabled_reason : option str;
  layer_raw_toml : option RawTomlLayer;
  hooks_config_folder_override : option str
}.

Section entry.
Context `{Serialization}.

Definition new_layer (name : ConfigLayerSource) (config : TomlValue) : ConfigLayerEntry :=
  mkLayer name config (version_for_toml config) None None None.
Definition new_with_raw_toml (name : ConfigLayerSource) (config : TomlValue) (raw_toml raw_toml_base_dir : str) : ConfigLayerEntry :=
  mkLayer name config (version_for_toml config) None (Some (mkRaw raw_toml raw_toml_base_dir)) None.
Definition new_disabled (name : ConfigLayerSource) (config : TomlValue) (reason : str) : ConfigLayerEntry :=
  mkLayer name config (version_for_toml config) (Some reason) None None.

End entry.

Definition is_disabled (l : ConfigLayerEntry) : bool := bool_decide (is_Some (disabled_reason l)).
Definition raw_toml (l : ConfigLayerEntry) : option str := contents <$> layer_raw_toml l.
Definition raw_toml_base_dir (l : ConfigLayerEntry) : option str := base_dir <$> layer_raw_toml l.
Definition with_hooks_config_folder_override (l : ConfigLayerEntry) (folder : option str) : ConfigLayerEntry :=
  mkLayer (layer_name l) (layer_config l) (layer_version l) (disabled_reason l) (layer_raw_toml l) folder.
Definition metadata (l : ConfigLayerEntry) : ConfigLayerMetadata := mkMeta (layer_name l) (layer_version l).

Definition config_folder (l : ConfigLayerEntry) : option str :=
  match layer_name l with
  | System file => Path.parent file
  | User file _ => Path.parent file
  | Project dot_codex_folder => Some dot_codex_folder
  | _ => None
  end.
Definition hooks_config_folder (l : ConfigLayerEntry) : option str :=
  match hooks_config_folder_override l with Some f => Some f | None => config_folder l end.

(** ** What a layer is checked for *)

Inductive ShellEnvironmentPolicyFilter : Type := FilterInclude | FilterExclude.

(** What [serde] and [toml] decode: the list of texts of [exclude] and [include_only], the table of
    [filters] in the order of its keys, and whether a configuration that is not a table is taken. *)
Class FilterDecoding := {
  patterns_of : TomlValue -> list str + str;
  filters_of : TomlValue -> list (str * ShellEnvironmentPolicyFilter) + str;
  other_root : TomlValue -> option str
}.

Record ShellFilters := mkShellFilters {
  sf_exclude : option (list str);
  sf_include_only : option (list str);
  sf_filters : option (list (str * ShellEnvironmentPolicyFilter))
}.

Definition decode_field {A} (decode : TomlValue -> A + str) (field : str) (policy : list (str * TomlValue)) : option A + str :=
  match index_get field policy with
  | None => inl None
  | Some v => match decode v with inl a => inl (Some a) | inr e => inr e end
  end.

Section checks.
Context `{CaseMapping} `{FilterDecoding}.

(** The first pattern that repeats an earlier one. *)
Fixpoint repeated_pattern (patterns : list str) (keys : list str) : option str :=
  match keys with
  | [] => None
  | pattern :: keys =>
      if mem_str (to_lowercase pattern) patterns then Some pattern else repeated_pattern (to_lowercase pattern :: patterns) keys
  end.

(** [ShellEnvironmentPolicyToml::deserialize], of a table with the filter fields only. *)
Definition deserialize_shell_filters (policy : list (str * TomlValue)) : ShellFilters + str :=
  match decode_field patterns_of (lit "exclude") policy with
  | inr e => inr e
  | inl exclude =>
      match decode_field patterns_of (lit "include_only") policy with
      | inr e => inr e
      | inl include_only =>
          match decode_field filters_of (lit "filters") policy with
          | inr e => inr e
          | inl filters =>
              if bool_decide (is_Some filters) && (bool_decide (is_Some exclude) || bool_decide (is_Some include_only))
              then inr (lit "cannot mix `filters` with legacy `exclude` or `include_only`")
              else
                match filters ≫= (fun filters => repeated_pattern [] (fst <$> filters)) with
                | Some pattern => inr (lit "duplicate shell environment filter `" ++ pattern ++ lit "` ignoring case")
                | None => inl (mkShellFilters exclude include_only filters)
                end
          end
      end
  end.

Definition deserialize_shell_environment_policy_filters (value : TomlValue) : option str :=
  match as_table value with
  | None => None
  | Some policy => match deserialize_shell_filters policy with inl _ => None | inr e => Some e end
  end.

(** The error, if there is one. *)
Definition validate_shell_environment_policy_filter_config (value : TomlValue) : option str :=
  match value with
  | TomlTable t => index_get (lit "shell_environment_policy") t ≫= deserialize_shell_environment_policy_filters
  | _ => other_root value
  end.

Fixpoint validate_enabled_config_layers (layers : list ConfigLayerEntry) : io_result unit :=
  match layers with
  | [] => inl tt
  | layer :: layers =>
      if is_disabled layer then validate_enabled_config_layers layers
      else
        match validate_shell_environment_policy_filter_config (layer_config layer) with
        | Some error =>
            inr (mkIo InvalidData (lit "invalid shell environment policy in " ++ format_config_layer_source (layer_name layer) CONFIG_TOML_FILE ++ lit ": " ++ error))
        | None => validate_enabled_config_layers layers
        end
  end.

End checks.

(** [slice::is_sorted] for the order by precedence. *)
Fixpoint is_sorted (names : list ConfigLayerSource) : bool :=
  match names with
  | a :: ((b :: _) as names) => (precedence a <=? precedence b)%Z && is_sorted names
  | _ => true
  end.

(** The project layers go from the root of the repository down. *)
Fixpoint verify_project_layers (previous : option str) (names : list ConfigLayerSource) : io_result unit :=
  match names with
  | [] => inl tt
  | Project current :: names =>
      match previous with
      | None => verify_project_layers (Some current) names
      | Some previous =>
          match Path.parent previous with
          | None => inr (mkIo InvalidData (lit "project layer has no parent directory"))
          | Some parent =>
              if Path.eqb previous current || negb (existsb (fun ancestor => Path.eqb ancestor parent) (Path.ancestors current))
              then inr (mkIo InvalidData (lit "project layers are not ordered from root to cwd"))
              else verify_project_layers (Some current) names
          end
      end
  | _ :: names => verify_project_layers previous names
  end.

Definition verify_layer_ordering (layers : list ConfigLayerEntry) : io_result unit :=
  let names := layer_name <$> layers in
  if negb (is_sorted names) then inr (mkIo InvalidData (lit "config layers are not in correct precedence order"))
  else verify_project_layers None names.

(** ** The stack *)

(** [profile.parse::<ProfileV2Name>()]. *)
Definition profile_byte (c : N) : bool := is_ascii_alphabetic c || is_ascii_digit c || (c =? 95)%N || (c =? 45)%N.
Definition ProfileV2Name_from_str (value : str) : option str :=
  if is_empty value || negb (forallb profile_byte value) then None else Some value.

Section stack.
Context {Requirements RequirementsToml : Type}.
Context `{CaseMapping} `{FilterDecoding} `{Serialization}.

Record ConfigLayerStack := mkStack {
  layers : list ConfigLayerEntry;
  requirements : Requirements;
  requirements_toml : RequirementsToml;
  ignore_user_and_project_exec_policy_rules : bool;
  startup_warnings : option (list str)
}.

Definition new_stack (layers : list ConfigLayerEntry) (requirements : Requirements) (requirements_toml : RequirementsToml) : io_result ConfigLayerStack :=
  match validate_enabled_config_layers layers with
  | inr e => inr e
  | inl _ =>
      match verify_layer_ordering layers with
      | inr e => inr e
      | inl _ => inl (mkStack layers requirements requirements_toml false None)
      end
  end.

Definition with_layers (self : ConfigLayerStack) (layers : list ConfigLayerEntry) : ConfigLayerStack :=
  mkStack layers (requirements self) (requirements_toml self) (ignore_user_and_project_exec_policy_rules self) (startup_warnings self).
Definition with_user_and_project_exec_policy_rules_ignored (self : ConfigLayerStack) (ignore : bool) : ConfigLayerStack :=
  mkStack (layers self) (requirements self) (requirements_toml self) ignore (startup_warnings self).
Definition with_startup_warnings (self : ConfigLayerStack) (warnings : list str) : ConfigLayerStack :=
  mkStack (layers self) (requirements self) (requirements_toml self) (ignore_user_and_project_exec_policy_rules self) (Some warnings).

Definition get_active_user_layer (self : ConfigLayerStack) : option ConfigLayerEntry := find (fun l => is_user (layer_name l)) (rev (layers self)).
Definition get_user_config_file (self : ConfigLayerStack) : option str :=
  layer ← get_active_user_layer self; match layer_name layer with User file _ => Some file | _ => None end.

Definition layers_low_to_high (self : ConfigLayerStack) : list ConfigLayerEntry := List.filter (fun l => negb (is_disabled l)) (layers self).
Definition layers_high_to_low (self : ConfigLayerStack) : list ConfigLayerEntry := rev (layers_low_to_high self).

Definition merge_layers (ls : list ConfigLayerEntry) : TomlValue := foldl (fun merged l => merge_toml_values merged (layer_config l)) (TomlTable []) ls.

Definition effective_user_config (self : ConfigLayerStack) : option TomlValue :=
  match List.filter (fun l => is_user (layer_name l)) (layers_low_to_high self) with
  | [] => None
  | user_layers => Some (merge_layers user_layers)
  end.
Definition effective_config (self : ConfigLayerStack) : TomlValue := merge_layers (layers_low_to_high self).

(** Whether the layer is the user's in this file. *)
Definition is_user_file (config_toml : str) (s : ConfigLayerSource) : bool := match s with User file _ => Path.eqb file config_toml | _ => false end.

(** [layers.remove] at the first such layer. *)
Fixpoint remove_first (f : ConfigLayerEntry -> bool) (ls : list ConfigLayerEntry) : list ConfigLayerEntry :=
  match ls with
  | [] => []
  | l :: ls => if f l then ls else l :: remove_first f ls
  end.

(** Before the first layer of higher precedence. *)
Fixpoint insert_layer (user_layer : ConfigLayerEntry) (ls : list ConfigLayerEntry) : list ConfigLayerEntry :=
  match ls with
  | [] => [user_layer]
  | l :: ls' => if (precedence (layer_name user_layer) <? precedence (layer_name l))%Z then user_layer :: ls else l :: insert_layer user_layer ls'
  end.

Definition with_user_config_profile (self : ConfigLayerStack) (config_toml : str) (profile : option str) (user_config : TomlValue) : io_result ConfigLayerStack :=
  let user_layer := new_layer (User config_toml profile) user_config in
  match validate_enabled_config_layers [user_layer] with
  | inr e => inr e
  | inl _ => inl (with_layers self (insert_layer user_layer (remove_first (fun l => is_user_file config_toml (layer_name l)) (layers self))))
  end.

(** The profile of the first layer of this file whose profile is a name. *)
Definition file_profile (self : ConfigLayerStack) (config_toml : str) : option str :=
  head (omap (fun l => match layer_name l with
    | User file profile => if Path.eqb file config_toml then profile ≫= ProfileV2Name_from_str else None
    | _ => None
    end) (layers self)).

Definition with_user_config (self : ConfigLayerStack) (config_toml : str) (user_config : TomlValue) : io_result ConfigLayerStack :=
  with_user_config_profile self config_toml (file_profile self config_toml) user_config.

Definition with_user_layer_from (self other : ConfigLayerStack) : ConfigLayerStack :=
  with_layers self
    (foldl (fun ls user_layer => insert_layer user_layer ls)
       (List.filter (fun l => negb (is_user (layer_name l))) (layers self))
       (List.filter (fun l => is_user (layer_name l)) (layers other))).

(** *** Where settings come from *)

Definition DOT : str := [46%N].

Fixpoint record_origins (value : TomlValue) (meta : ConfigLayerMetadata) (path : list str) (origins : gmap str ConfigLayerMetadata) : gmap str ConfigLayerMetadata :=
  match value with
  | TomlTable table =>
      (fix go (t : list (str * TomlValue)) (origins : gmap str ConfigLayerMetadata) := match t with
        | [] => origins
        | (key, val) :: t => go t (record_origins val meta (path ++ [key]) origins)
        end) table origins
  | TomlArray items =>
      (fix go (idx : N) (items : list TomlValue) (origins : gmap str ConfigLayerMetadata) := match items with
        | [] => origins
        | item :: items => go (idx + 1)%N items (record_origins item meta (path ++ [decimal idx]) origins)
        end) 0%N items origins
  | _ =>
      if is_empty path then origins
      else
        match value with
        | TomlBoolean _ =>
            if is_multi_agent_v2_feature_path path then <[join DOT (path ++ [lit "enabled"]) := meta]> origins
            else <[join DOT path := meta]> origins
        | _ => <[join DOT path := meta]> origins
        end
  end.

Definition origins (self : ConfigLayerStack) : gmap str ConfigLayerMetadata :=
  foldl (fun origins l => record_origins (normalized_with_key_aliases (layer_config l) []) (metadata l) [] origins) ∅ (layers_low_to_high self).

End stack.

Arguments ConfigLayerStack : clear implicits.

(** ** The effective configuration *)

Lemma highest_says_snoc p ls l :
  highest_says p (ls ++ [l]) = match layer_says [] p l with Some d => d | None => highest_says p ls end.
Proof. unfold highest_says. rewrite rev_app_distr. simpl. by destruct (layer_says [] p l). Qed.

(** The layer that decides a setting. *)
Lemma highest_says_Some p ls x :
  highest_says p ls = Some x ->
  exists lo l hi, ls = lo ++ l :: hi /\ layer_says [] p l = Some (Some x) /\ Forall (fun l => layer_says [] p l = None) hi.
Proof.
  induction ls as [|l ls IH] using rev_ind; [done|]. rewrite highest_says_snoc. destruct (layer_says [] p l) as [d|] eqn:E.
  - intros ->. by exists ls, l, [].
  - intros (lo & l' & hi & -> & Hl & Hhi)%IH. exists lo, l', (hi ++ [l]). rewrite <- app_assoc. split_and!; [done..|]. by apply Forall_app_2; [|apply Forall_singleton].
Qed.

Section effective.
Context {Requirements RequirementsToml : Type}.
Context `{CaseMapping} `{FilterDecoding} `{Serialization}.
Implicit Types stack : ConfigLayerStack Requirements RequirementsToml.

Lemma merge_layers_snoc ls l : merge_layers (ls ++ [l]) = merge_toml_values (merge_layers ls) (layer_config l).
Proof. unfold merge_layers. by rewrite foldl_snoc. Qed.

Lemma merge_layers_clean ls : Forall (fun l => toml_ok (layer_config l) = true) ls -> clean (merge_layers ls).
Proof.
  induction ls as [|l ls IH] using rev_ind; [intros _; by repeat constructor|]. intros [Hls [Hl _]%Forall_cons]%Forall_app.
  rewrite merge_layers_snoc. apply merge_clean; [done|by apply IH].
Qed.

Lemma merge_layers_setting ls p :
  plain_path [] p = true -> Forall (fun l => toml_ok (layer_config l) = true) ls -> setting p (merge_layers ls) = highest_says p (layer_config <$> ls).
Proof.
  intros Hp Hls. rewrite clean_setting by (by apply merge_layers_clean). induction ls as [|l ls IH] using rev_ind; [by destruct p|].
  apply Forall_app in Hls as [Hls [Hl _]%Forall_cons]. rewrite merge_layers_snoc. unfold merge_toml_values. rewrite merge_setting by done.
  rewrite fmap_app. simpl. rewrite highest_says_snoc. destruct (layer_says [] p (layer_config l)); [done|]. by apply IH.
Qed.

(** C15: a setting of the effective configuration is the one that the highest enabled layer gives it,
    among those that say anything about it; a layer says that there is none when it has a table there
    or a value that is no table above it; keys that replace legacy ones may be written either way in
    every layer.  It is stated for the settings to which no rule of their own applies (domains of
    network permissions, filters of the shell environment and the [multi_agent_v2] flag). *)
Theorem highest_layer_decides stack p :
  plain_path [] p = true -> Forall (fun l => toml_ok (layer_config l) = true) (layers_low_to_high stack) ->
  setting p (effective_config stack) = highest_says p (layer_config <$> layers_low_to_high stack).
Proof. apply merge_layers_setting. Qed.

(** ** Origins *)

(** The fields of a value, by their paths. *)
Fixpoint leaves (value : TomlValue) (path : list str) : list (list str) :=
  match value with
  | TomlTable table =>
      (fix go (t : list (str * TomlValue)) := match t with [] => [] | (key, val) :: t => leaves val (path ++ [key]) ++ go t end) table
  | TomlArray items =>
      (fix go (idx : N) (items : list TomlValue) := match items with
        | [] => []
        | item :: items => leaves item (path ++ [decimal idx]) ++ go (idx + 1)%N items
        end) 0%N items
  | _ =>
      if is_empty path then []
      else match value with TomlBoolean _ => if is_multi_agent_v2_feature_path path then [path ++ [lit "enabled"]] else [path] | _ => [path] end
  end.

Definition record_all (meta : ConfigLayerMetadata) (paths : list (list str)) (m : gmap str ConfigLayerMetadata) : gmap str ConfigLayerMetadata :=
  foldl (fun m q => <[join DOT q := meta]> m) m paths.

Lemma record_origins_leaves v meta : forall path m, record_origins v meta path m = record_all meta (leaves v path) m.
Proof.
  unfold record_all. induction v as [v Hv|items IH|t IH] using TomlValue_nested_ind; intros path m.
  - destruct v; try done; simpl; destruct (is_empty path); try done. by destruct (is_multi_agent_v2_feature_path path).
  - cbn [record_origins leaves]. generalize 0%N. revert m. induction IH as [|v items Hv _ IHi]; intros m n; [done|]. by rewrite foldl_app, <- Hv.
  - cbn [record_origins leaves]. revert m. induction IH as [|[k v] t Hv _ IHt]; intros m; [done|]. by rewrite foldl_app, <- Hv.
Qed.

Lemma record_all_lookup meta paths m key :
  record_all meta paths m !! key = if bool_decide (key ∈ (join DOT <$> paths)) then Some meta else m !! key.
Proof.
  unfold record_all. revert m. induction paths as [|q paths IH]; intros m; [done|]. simpl. rewrite IH.
  destruct (decide (key ∈ (join DOT <$> paths))) as [Hin|Hin].
  - by rewrite !bool_decide_true by set_solver.
  - rewrite (bool_decide_false (key ∈ (join DOT <$> paths))) by done. destruct (decide (key = join DOT q)) as [->|Hn].
    + rewrite bool_decide_true by set_solver. by rewrite lookup_insert_eq.
    + rewrite bool_decide_false by set_solver. by rewrite lookup_insert_ne.
Qed.

Lemma leaves_table t path q : q ∈ leaves (TomlTable t) path <-> exists k v, (k, v) ∈ t /\ q ∈ leaves v (path ++ [k]).
Proof.
  cbn [leaves]. induction t as [|[k v] t IH]; [set_solver|]. rewrite elem_of_app, IH. set_solver.
Qed.

Lemma leaves_prefix v : forall path q, q ∈ leaves v path -> path `prefix_of` q.
Proof.
  induction v as [v Hv|items IH|t IH] using TomlValue_nested_ind; intros path q.
  - destruct v; try done; simpl; destruct (is_empty path); repeat case_match; set_unfold; intros; try done; subst; try done; simplify_eq; try tauto;
      try (destruct_or?; subst; try done; by eexists).
  - cbn [leaves]. generalize 0%N. induction IH as [|v items Hv _ IHi]; intros n; [set_solver|]. intros [Hq|Hq]%elem_of_app; [|by apply (IHi (n + 1)%N)].
    apply Hv in Hq. etrans; [|exact Hq]. by apply prefix_app_r.
  - rewrite leaves_table. intros (k & v & Hin & Hq). rewrite Forall_forall in IH. apply (IH _ Hin) in Hq. etrans; [|exact Hq]. by apply prefix_app_r.
Qed.

(** *** Fields of normalised layers *)

Lemma insert_all_ok {A} (t acc : list (str * A)) : index_ok acc -> index_ok (insert_all t acc).
Proof. revert acc. induction t as [|e t IH]; intros acc Hacc; [done|]. by apply IH, index_insert_ok. Qed.

Lemma index_get_elem_ok {A} (t : list (str * A)) k v : index_ok t -> (k, v) ∈ t -> index_get k t = Some v.
Proof.
  unfold index_ok. induction t as [|[k' v'] t IH]; [set_solver|]. simpl. intros [Hn Ht]%NoDup_cons [Heq|Hin]%elem_of_cons; rewrite index_get_cons.
  - simplify_eq. by rewrite (proj2 (str_eqb_spec _ _)).
  - rewrite str_eqb_ne; [by apply IH|]. intros ->. apply Hn, list_elem_of_fmap. by exists (k, v).
Qed.

(** A normalised table, with its keys and their distinctness. *)
Lemma normalized_ok t path :
  index_ok t -> exists t', normalized_with_key_aliases (TomlTable t) path = TomlTable t' /\ index_ok t' /\
    forall k, index_get k t' = (fun v => normalized_with_key_aliases v (path ++ [k])) <$> layer_get path k t.
Proof.
  intros Ht. destruct (normalized_get t path Ht) as (t' & Heq & Hget). exists t'. split_and!; [done| |done].
  rewrite normalized_table in Heq. simplify_eq. apply normalize_key_aliases_ok, insert_all_ok. constructor.
Qed.

(** A field that a layer gives is recorded. *)
Lemma says_leaf p : forall v path x,
  toml_ok v = true -> plain_path path p = true -> path ++ p <> [] -> layer_says path p v = Some (Some x) ->
  match x with TomlArray _ => False | _ => True end -> path ++ p ∈ leaves (normalized_with_key_aliases v path) path.
Proof.
  induction p as [|k p IH]; intros v path x Hv Hp Hne Hsays Hx; cbn [plain_path] in Hp; apply andb_prop in Hp as [Hf%negb_true_iff Hp].
  - rewrite app_nil_r in *. destruct path as [|k path]; [done|]. destruct v; simpl in Hsays; simplify_eq; try done; cbn [normalized_with_key_aliases leaves is_empty]; rewrite ?Hf; by left.
  - apply andb_prop in Hp as [_ Hp]. destruct v as [| | | | | |t]; try done. apply toml_ok_table in Hv as [Ht Hall].
    destruct (normalized_ok t path Ht) as (t' & -> & Hok & Hget). cbn in Hsays. destruct (layer_get path k t) as [c|] eqn:Ec; [|done].
    apply leaves_table. exists k, (normalized_with_key_aliases c (path ++ [k])). split; [apply index_get_elem; by rewrite Hget, Ec|].
    rewrite cons_middle, app_assoc. destruct (layer_get_index _ _ _ _ Ec) as [k' Hk'].
    apply (IH c _ x); [by apply (Hall k')|done|by destruct path|done|done].
Qed.

(** A layer with the field recorded says something about it. *)
Lemma leaf_says p : forall v path, toml_ok v = true -> path ++ p ∈ leaves (normalized_with_key_aliases v path) path -> layer_says path p v <> None.
Proof.
  induction p as [|k p IH]; intros v path Hv Hin; [done|]. destruct v as [| | | | | |t]; try done. apply toml_ok_table in Hv as [Ht Hall].
  destruct (normalized_ok t path Ht) as (t' & Heq & Hok & Hget). rewrite Heq in Hin. apply leaves_table in Hin as (k' & c & Hin & Hleaf).
  assert (k' = k) as ->.
  { apply leaves_prefix in Hleaf as [q Hq]. rewrite <- app_assoc in Hq. apply app_inv_head in Hq. by simplify_eq/=. }
  apply index_get_elem_ok in Hin; [|done]. rewrite Hget in Hin. cbn. destruct (layer_get path k t) as [v|] eqn:Ev; [|done]. cbn in *. simplify_eq.
  destruct (layer_get_index _ _ _ _ Ev) as [k' Hk']. apply IH; [by apply (Hall k')|]. by rewrite <- app_assoc.
Qed.

(** *** Joined paths *)

Definition dotless_key (k : str) : bool := negb (contains_char 46 k).

Fixpoint dotless (v : TomlValue) : bool :=
  match v with
  | TomlTable t => forallb (fun e => dotless_key (fst e) && dotless (snd e)) t
  | TomlArray items => forallb dotless items
  | _ => true
  end.

Lemma dotless_key_spec k : dotless_key k = true <-> 46%N ∉ k.
Proof.
  unfold dotless_key, contains_char. rewrite negb_true_iff, <- not_true_iff_false, existsb_exists, list_elem_of_In. unfold char_eqb.
  split; [intros Hn Hin; apply Hn; exists 46%N; by rewrite N.eqb_refl|intros Hn (c & Hc & <-%N.eqb_eq); done].
Qed.

Lemma join_dotless q : q <> [] -> Forall (fun k => dotless_key k = true) q -> split 46 (join DOT q) = q.
Proof.
  intros Hne Hq. induction Hq as [|k q Hk Hq IH]; [done|]. apply dotless_key_spec in Hk. destruct q as [|k' q]; [by apply split_no_sep|].
  rewrite join_cons by done. change (k ++ DOT ++ join DOT (k' :: q)) with (k ++ 46%N :: join DOT (k' :: q)). rewrite split_app_sep by done. by rewrite IH.
Qed.

Lemma decimal_digits_dotless fuel n acc : Forall (fun c => c <> 46%N) acc -> Forall (fun c => c <> 46%N) (decimal_digits fuel n acc).
Proof.
  revert n acc. induction fuel as [|fuel IH]; intros n acc Hacc; [done|]. cbn [decimal_digits].
  assert ((48 + n mod 10)%N <> 46%N) by (generalize (n mod 10)%N; lia). case_match; [|apply IH]; by constructor.
Qed.

Lemma decimal_dotless n : dotless_key (decimal n) = true.
Proof.
  apply dotless_key_spec. intros Hin. assert (Hall : Forall (fun c => c <> 46%N) (decimal n)) by (by apply decimal_digits_dotless).
  rewrite Forall_forall in Hall. by apply (Hall 46%N).
Qed.

Lemma leaves_dotless v : forall path q,
  dotless v = true -> Forall (fun k => dotless_key k = true) path -> q ∈ leaves v path -> q <> [] /\ Forall (fun k => dotless_key k = true) q.
Proof.
  induction v as [v Hv|items IH|t IH] using TomlValue_nested_ind; intros path q Hd Hpath Hq.
  - assert (Hcases : path <> [] /\ (q = path \/ q = path ++ [lit "enabled"])).
    { destruct path; [destruct v; try done; cbn in Hq; set_solver|]. split; [done|]. destruct v; try done; cbn in Hq; repeat case_match; set_solver. }
    destruct Hcases as [Hne [-> | -> ]]; split; try done; [by destruct path|]. by apply Forall_app_2; [|apply Forall_singleton].
  - cbn in Hd, Hq. revert Hd Hq. generalize 0%N. induction IH as [|v items Hv _ IHi]; intros n Hd Hq; [set_solver|].
    simpl in Hd. apply andb_prop in Hd as [Hd Hds]. apply elem_of_app in Hq as [Hq|Hq]; [|by apply (IHi (n + 1)%N)].
    apply (Hv (path ++ [decimal n])); [done| |done]. apply Forall_app_2; [done|]. apply Forall_singleton, decimal_dotless.
  - apply leaves_table in Hq as (k & v & Hin & Hq). rewrite Forall_forall in IH. cbn in Hd. rewrite forallb_forall in Hd.
    assert (Hk := Hin). apply list_elem_of_In, Hd, andb_prop in Hk as [Hk Hv]. apply (IH _ Hin (path ++ [k])); [done| |done].
    by apply Forall_app_2; [|apply Forall_singleton].
Qed.

Lemma apply_alias_elem {A} path (t : list (str * A)) a e :
  e ∈ apply_alias path t a -> e ∈ t \/ exists k, e.1 = alias_canonical_key a /\ (k, e.2) ∈ t.
Proof.
  unfold apply_alias. case_match; [|auto]. destruct (index_get (alias_legacy_key a) t) as [v|] eqn:E; [|auto]. apply index_get_elem in E.
  case_match; [intros Hin%shift_remove_elem; auto|]. intros [->|Hin%shift_remove_elem]%index_insert_elem; [|auto]. right. by exists (alias_legacy_key a).
Qed.

Lemma aliases_dotless path t :
  forallb (fun e => dotless_key (fst e) && dotless (snd e)) t = true ->
  forallb (fun e => dotless_key (fst e) && dotless (snd e)) (normalize_key_aliases path t) = true.
Proof.
  unfold normalize_key_aliases. assert (Hall : Forall (fun a => dotless_key (alias_canonical_key a) = true) CONFIG_KEY_ALIASES) by (by repeat apply Forall_cons_2).
  revert t. induction Hall as [|a l Ha _ IH]; intros t Ht; [done|]. simpl. apply IH. rewrite forallb_forall in Ht. apply forallb_forall.
  intros [k v] Hin%list_elem_of_In%apply_alias_elem. destruct Hin as [Hin|(k' & Hk & Hin)]; [by apply Ht, list_elem_of_In|].
  simpl in *. subst k. apply list_elem_of_In, Ht, andb_prop in Hin as [_ Hv]. simpl in Hv. by rewrite Ha, Hv.
Qed.

Lemma insert_all_elem {A} (t acc : list (str * A)) e : e ∈ insert_all t acc -> e ∈ t \/ e ∈ acc.
Proof.
  revert acc. induction t as [|[k v] t IH]; intros acc; [auto|]. simpl. intros [Hin|Hin]%IH; [set_solver|].
  apply index_insert_elem in Hin as [->|Hin]; set_solver.
Qed.

Lemma normalized_dotless v : forall path, dotless v = true -> dotless (normalized_with_key_aliases v path) = true.
Proof.
  induction v as [v Hv|items IH|t IH] using TomlValue_nested_ind; intros path Hd.
  - by destruct v.
  - cbn in *. induction IH as [|v items Hv _ IHi]; [done|]. simpl in *. apply andb_prop in Hd as [Hd Hds]. by rewrite Hv, IHi.
  - rewrite normalized_table. cbn [dotless] in *. apply aliases_dotless, forallb_forall. rewrite forallb_forall in Hd. rewrite Forall_forall in IH.
    intros e Hin%list_elem_of_In%insert_all_elem. destruct Hin as [Hin|Hin]; [|set_solver]. apply list_elem_of_fmap in Hin as ([k v] & -> & Hin).
    assert (Hk := Hin). apply list_elem_of_In, Hd, andb_prop in Hk as [Hk Hv]. simpl in *. rewrite Hk. simpl. by apply (IH _ Hin).
Qed.

Definition layer_leaves (l : ConfigLayerEntry) : list (list str) := leaves (normalized_with_key_aliases (layer_config l) []) [].

Lemma layer_leaves_joined l p : dotless (layer_config l) = true -> p <> [] -> Forall (fun k => dotless_key k = true) p ->
  join DOT p ∈ (join DOT <$> layer_leaves l) <-> p ∈ layer_leaves l.
Proof.
  intros Hl Hne Hp. split; [|intros Hin; apply list_elem_of_fmap; by exists p]. intros (q & Heq & Hin)%list_elem_of_fmap.
  assert (Hq := Hin). apply leaves_dotless in Hq as [Hqne Hq]; [|by apply normalized_dotless|done].
  by rewrite <- (join_dotless p), Heq, join_dotless.
Qed.

Lemma origins_lookup_snoc ls l key :
  foldl (fun origins l => record_origins (normalized_with_key_aliases (layer_config l) []) (metadata l) [] origins) ∅ (ls ++ [l]) !! key =
    if bool_decide (key ∈ (join DOT <$> layer_leaves l)) then Some (metadata l)
    else foldl (fun origins l => record_origins (normalized_with_key_aliases (layer_config l) []) (metadata l) [] origins) ∅ ls !! key.
Proof. rewrite foldl_snoc, record_origins_leaves. apply record_all_lookup. Qed.

Lemma origins_decided lo l hi p :
  Forall (fun l => toml_ok (layer_config l) = true) hi -> Forall (fun l => dotless (layer_config l) = true) (l :: hi) ->
  p <> [] -> p ∈ layer_leaves l -> Forall (fun l => layer_says [] p (layer_config l) = None) hi ->
  foldl (fun origins l => record_origins (normalized_with_key_aliases (layer_config l) []) (metadata l) [] origins) ∅ (lo ++ l :: hi) !! join DOT p
  = Some (metadata l).
Proof.
  intros Hok [Hd Hds]%Forall_cons Hne Hin Hhi.
  assert (Hp : Forall (fun k => dotless_key k = true) p) by (eapply leaves_dotless in Hin; [apply Hin|by apply normalized_dotless|done]).
  induction hi as [|h hi IH] using rev_ind.
  - rewrite origins_lookup_snoc, bool_decide_true; [done|]. by apply layer_leaves_joined.
  - apply Forall_app in Hok as [Hok [Hh _]%Forall_cons]. apply Forall_app in Hds as [Hds [Hdh _]%Forall_cons]. apply Forall_app in Hhi as [Hhi [Hsh _]%Forall_cons].
    rewrite app_comm_cons, app_assoc, origins_lookup_snoc, bool_decide_false; [by apply IH|].
    rewrite layer_leaves_joined by done. intros Hleaf. by apply (leaf_says p (layer_config h) []).
Qed.

(** C33: where the effective configuration has a setting that is one value (no table, no array), the
    origin given for it is the layer that decided it: the layer gives that very value and no
    enabled layer above it says anything about the setting.  It is stated
    for the settings to which no rule of their own applies (not domains of network
    permissions, filters of the shell environment and the [multi_agent_v2] flag).  Origins are kept under the path joined with dots, so
    that keys are taken to have none. *)
Theorem origins_name_deciding_layer stack p x :
  plain_path [] p = true -> p <> [] ->
  Forall (fun l => toml_ok (layer_config l) = true) (layers_low_to_high stack) ->
  Forall (fun l => dotless (layer_config l) = true) (layers_low_to_high stack) ->
  setting p (effective_config stack) = Some x -> match x with TomlArray _ => False | _ => True end ->
  exists lo l hi, layers_low_to_high stack = lo ++ l :: hi /\ layer_says [] p (layer_config l) = Some (Some x) /\
    Forall (fun l => layer_says [] p (layer_config l) = None) hi /\ origins stack !! join DOT p = Some (metadata l).
Proof.
  intros Hp Hne Hok Hd Hx Hscalar. unfold effective_config in Hx. rewrite merge_layers_setting in Hx by done.
  apply highest_says_Some in Hx as (lo' & v & hi' & Hls & Hv & Hhi). unfold origins.
  apply fmap_app_inv in Hls as (lo & rest & -> & Hrest & Hls). symmetry in Hrest. apply fmap_cons_inv in Hrest as (l & hi & -> & -> & ->).
  exists lo, l, hi. rewrite Forall_fmap in Hhi. rewrite Hls in *. apply Forall_app in Hok as [_ [Hl Hok]%Forall_cons]. apply Forall_app in Hd as [_ Hd].
  split_and!; [done..|]. apply origins_decided; try done. by apply (says_leaf p _ [] x).
Qed.
End effective.

(** ** Stacks stay well formed *)

Definition lower (a b : ConfigLayerEntry) : Prop := (precedence (layer_name a) <= precedence (layer_name b))%Z.

Lemma is_sorted_spec ls : is_sorted (layer_name <$> ls) = true <-> StronglySorted lower ls.
Proof.
  induction ls as [|a ls IH]; [split; [constructor|done]|]. split.
  - intros Hs. assert (Ht : StronglySorted lower ls) by (apply IH; destruct ls; [done|]; simpl in Hs; by apply andb_prop in Hs as [_ ?]).
    constructor; [done|]. destruct ls as [|b ls]; [done|]. simpl in Hs. apply andb_prop in Hs as [Hab%Z.leb_le _].
    constructor; [done|]. apply StronglySorted_inv in Ht as [_ Ht]. eapply Forall_impl; [exact Ht|]. unfold lower. intros. lia.
  - intros [Ht Ha]%StronglySorted_inv. destruct ls as [|b ls]; [done|]. apply Forall_cons in Ha as [Hab _]. simpl. rewrite (proj2 (Z.leb_le _ _) Hab). by apply IH.
Qed.

Lemma Forall_remove_first P f ls : Forall P ls -> Forall P (remove_first f ls).
Proof. induction 1 as [|l ls Hl Hls IH]; simpl; [done|]. case_match; auto. Qed.

Lemma Forall_insert_layer P u ls : P u -> Forall P ls -> Forall P (insert_layer u ls).
Proof. intros Hu. induction 1 as [|l ls Hl Hls IH]; simpl; [auto|]. case_match; auto. Qed.

Lemma sorted_remove_first f ls : StronglySorted lower ls -> StronglySorted lower (remove_first f ls).
Proof. induction 1 as [|l ls Hls IH Hl]; simpl; [constructor|]. case_match; [done|]. constructor; auto using Forall_remove_first. Qed.

Lemma sorted_insert_layer u ls : StronglySorted lower ls -> StronglySorted lower (insert_layer u ls).
Proof.
  induction 1 as [|l ls Hls IH Hl]; simpl; [by repeat constructor|]. destruct (Z.ltb_spec (precedence (layer_name u)) (precedence (layer_name l))) as [Hlt|Hge].
  - constructor; [by constructor|]. constructor; [unfold lower; lia|]. eapply Forall_impl; [exact Hl|]. unfold lower. intros. lia.
  - constructor; [done|]. apply Forall_insert_layer; [unfold lower; lia|done].
Qed.

Lemma sorted_filter (f : ConfigLayerEntry -> bool) ls : StronglySorted lower ls -> StronglySorted lower (List.filter f ls).
Proof.
  induction 1 as [|l ls Hls IH Hl]; simpl; [constructor|]. case_match; [|done]. constructor; [done|]. rewrite List.Forall_forall in *.
  intros x [Hx _]%List.filter_In. by apply Hl.
Qed.

(** Only the project layers matter for their order. *)
Definition is_project (s : ConfigLayerSource) : bool := match s with Project _ => true | _ => false end.

Lemma verify_project_filter previous names : verify_project_layers previous names = verify_project_layers previous (List.filter is_project names).
Proof.
  revert previous. induction names as [|n names IH]; intros previous; [done|]. destruct n; simpl; try apply IH.
  destruct previous as [previous|]; [|apply IH]. destruct (Path.parent previous); [|done]. destruct (Path.eqb previous dot_codex_folder || _); [done|]. apply IH.
Qed.

Definition project_names (ls : list ConfigLayerEntry) : list ConfigLayerSource := List.filter is_project (layer_name <$> ls).

Lemma project_names_cons l ls : project_names (l :: ls) = (if is_project (layer_name l) then [layer_name l] else []) ++ project_names ls.
Proof. unfold project_names. simpl. by case_match. Qed.

Lemma project_names_insert u ls : is_project (layer_name u) = false -> project_names (insert_layer u ls) = project_names ls.
Proof.
  intros Hu. induction ls as [|l ls IH]; simpl; [by rewrite project_names_cons, Hu|]. case_match; rewrite !project_names_cons; [by rewrite Hu|by rewrite IH].
Qed.

Lemma project_names_remove f ls : (forall l, f l = true -> is_project (layer_name l) = false) -> project_names (remove_first f ls) = project_names ls.
Proof.
  intros Hf. induction ls as [|l ls IH]; [done|]. simpl. destruct (f l) eqn:E; rewrite !project_names_cons; [by rewrite Hf|by rewrite IH].
Qed.

Lemma project_names_not_user ls : project_names (List.filter (fun l => negb (is_user (layer_name l))) ls) = project_names ls.
Proof.
  induction ls as [|l ls IH]; [done|]. simpl. destruct (is_user (layer_name l)) eqn:E; simpl; rewrite !project_names_cons, IH; [|done].
  by destruct (layer_name l).
Qed.

Definition ordered (ls : list ConfigLayerEntry) : Prop := verify_layer_ordering ls = inl tt.

Lemma ordered_spec ls : ordered ls <-> StronglySorted lower ls /\ verify_project_layers None (project_names ls) = inl tt.
Proof.
  unfold ordered, verify_layer_ordering, project_names. rewrite <- verify_project_filter, <- is_sorted_spec. destruct (is_sorted _); simpl; naive_solver.
Qed.

Section reachable.
Context {Requirements RequirementsToml : Type} (default_requirements : Requirements) (default_requirements_toml : RequirementsToml).
Context `{CaseMapping} `{FilterDecoding} `{Serialization}.
Implicit Types s : ConfigLayerStack Requirements RequirementsToml.

(** The stacks that the operations make. *)
Inductive stack_built : ConfigLayerStack Requirements RequirementsToml -> Prop :=
| built_default : stack_built (mkStack [] default_requirements default_requirements_toml false None)
| built_new ls r rt s : new_stack ls r rt = inl s -> stack_built s
| built_ignored s b : stack_built s -> stack_built (with_user_and_project_exec_policy_rules_ignored s b)
| built_warnings s ws : stack_built s -> stack_built (with_startup_warnings s ws)
| built_user s file config s' : stack_built s -> with_user_config s file config = inl s' -> stack_built s'
| built_profile s file profile config s' : stack_built s -> with_user_config_profile s file profile config = inl s' -> stack_built s'
| built_from s other : stack_built s -> stack_built other -> stack_built (with_user_layer_from s other).

Definition layer_valid (l : ConfigLayerEntry) : Prop :=
  is_disabled l = true \/ validate_shell_environment_policy_filter_config (layer_config l) = None.

Lemma validate_spec ls : validate_enabled_config_layers ls = inl tt <-> Forall layer_valid ls.
Proof.
  unfold layer_valid. induction ls as [|l ls IH]; [split; [constructor|done]|]. simpl. rewrite Forall_cons. destruct (is_disabled l) eqn:E.
  - rewrite IH. naive_solver.
  - destruct (validate_shell_environment_policy_filter_config (layer_config l)); naive_solver.
Qed.

Definition stack_ok (ls : list ConfigLayerEntry) : Prop := ordered ls /\ Forall layer_valid ls.

Lemma insert_user_ok u ls : is_user (layer_name u) = true -> layer_valid u -> stack_ok ls -> stack_ok (insert_layer u ls).
Proof.
  intros Hu Hv [[Hs Hp]%ordered_spec Hvs]. split; [|by apply Forall_insert_layer]. apply ordered_spec. split; [by apply sorted_insert_layer|].
  by rewrite project_names_insert by (by destruct (layer_name u)).
Qed.

Lemma with_profile_ok s file profile config s' :
  stack_ok (layers s) -> with_user_config_profile s file profile config = inl s' -> stack_ok (layers s').
Proof.
  intros [[Hs Hp]%ordered_spec Hv]. unfold with_user_config_profile. destruct (validate_enabled_config_layers _) as [[]|] eqn:E; [|done].
  intros Heq. simplify_eq. apply validate_spec, Forall_cons in E as [E _]. simpl. apply insert_user_ok; [done|done|]. split; [|by apply Forall_remove_first].
  apply ordered_spec. split; [by apply sorted_remove_first|]. rewrite project_names_remove; [done|]. intros l. by destruct (layer_name l).
Qed.

Lemma insert_users_ok us ls :
  Forall (fun u => is_user (layer_name u) = true /\ layer_valid u) us -> stack_ok ls -> stack_ok (foldl (fun ls u => insert_layer u ls) ls us).
Proof. intros Hus. revert ls. induction Hus as [|u us [Hu Hv] _ IH]; intros ls Hls; [done|]. simpl. by apply IH, insert_user_ok. Qed.

Lemma with_user_layer_from_ok s other : stack_ok (layers s) -> stack_ok (layers other) -> stack_ok (layers (with_user_layer_from s other)).
Proof.
  intros [[Hs Hp]%ordered_spec Hv] [_ Hvo]. simpl. rewrite List.Forall_forall in Hv, Hvo. apply insert_users_ok.
  - apply List.Forall_forall. intros u [Hin Hu]%List.filter_In. auto.
  - split; [|apply List.Forall_forall; intros l [Hin _]%List.filter_In; auto]. apply ordered_spec. split; [by apply sorted_filter|].
    by rewrite project_names_not_user.
Qed.

(** C32: however a stack is built (read, given another user configuration or the user layers of
    another stack), its layers are in the order of their precedence, its project layers go from
    the root of the repository down, and every enabled layer passed the check of its shell
    environment policy. *)
Theorem stacks_stay_ordered s : stack_built s -> verify_layer_ordering (layers s) = inl tt /\ validate_enabled_config_layers (layers s) = inl tt.
Proof.
  intros Hb. cut (stack_ok (layers s)); [intros [Ho Hv]; split; [done|by apply validate_spec]|].
  induction Hb as [|ls r rt s Hn|s b _ IH|s ws _ IH|s file config s' _ IH Hw|s file profile config s' _ IH Hw|s other _ IH _ IHo]; try done.
  - unfold new_stack in Hn. destruct (validate_enabled_config_layers ls) as [[]|] eqn:Ev; [|done]. destruct (verify_layer_ordering ls) as [[]|] eqn:Eo; [|done].
    simplify_eq. split; [done|by apply validate_spec].
  - exact (with_profile_ok _ _ _ _ _ IH Hw).
  - exact (with_profile_ok _ _ _ _ _ IH Hw).
  - by apply with_user_layer_from_ok.
Qed.
End reachable.

(** ** On concrete layers *)

Module Samples.

#[local] Instance ascii_case : CaseMapping := {| to_lowercase := to_ascii_lowercase |}.
#[local] Instance sample_decoding : FilterDecoding := {|
  patterns_of v := match v with
    | TomlArray items => inl (omap (fun v => match v with TomlString s => Some s | _ => None end) items)
    | _ => inr (lit "invalid type")
    end;
  filters_of v := match v with
    | TomlTable t => inl (omap (fun e => match snd e with
        | TomlString s => Some (fst e, if str_eqb s (lit "include") then FilterInclude else FilterExclude)
        | _ => None
        end) t)
    | _ => inr (lit "invalid type")
    end;
  other_root _ := Some (lit "invalid type")
|}.
#[local] Instance sample_serialization : Serialization := {| to_value _ := None; to_vec _ := None; sha256 b := b |}.

Definition table (fields : list (string * TomlValue)) : TomlValue := TomlTable ((fun e => (lit (fst e), snd e)) <$> fields).

Definition user_layer : ConfigLayerEntry :=
  new_layer (User (lit "/home/u/.codex/config.toml") None)
    (table [("model"%string, TomlString (lit "a")); ("agents"%string, table [("max_threads"%string, TomlInteger 4)]);
            ("notify"%string, TomlArray [TomlString (lit "x"); TomlString (lit "y")])]).
Definition project_layer : ConfigLayerEntry :=
  new_layer (Project (lit "/repo/.codex")) (table [("agents"%string, table [("max_concurrent_threads_per_session"%string, TomlInteger 2)])]).
Definition flags_layer : ConfigLayerEntry :=
  new_layer SessionFlags (table [("model"%string, TomlString (lit "b")); ("notify"%string, TomlArray [TomlString (lit "z")])]).

Definition sample_stack : ConfigLayerStack unit unit := mkStack [user_layer; project_layer; flags_layer] tt tt false None.

Definition threads_path : list str := [lit "agents"; lit "max_concurrent_threads_per_session"].

Lemma highest_layer_decides_witness : setting threads_path (effective_config sample_stack) = Some (TomlInteger 2).
Proof.
  rewrite (highest_layer_decides sample_stack threads_path); [vm_compute; reflexivity|vm_compute; reflexivity|].
  change (layers_low_to_high sample_stack) with [user_layer; project_layer; flags_layer]. repeat constructor.
Defined.

Lemma origins_name_deciding_layer_witness :
  exists lo l hi, layers_low_to_high sample_stack = lo ++ l :: hi /\ layer_says [] threads_path (layer_config l) = Some (Some (TomlInteger 2)) /\
    Forall (fun l => layer_says [] threads_path (layer_config l) = None) hi /\ origins sample_stack !! join DOT threads_path = Some (metadata l).
Proof.
  apply (origins_name_deciding_layer sample_stack threads_path (TomlInteger 2)); [vm_compute; reflexivity|done| | |vm_compute; reflexivity|exact I];
    change (layers_low_to_high sample_stack) with [user_layer; project_layer; flags_layer]; repeat constructor.
Defined.

Lemma stacks_stay_ordered_witness :
  exists s, with_user_config sample_stack (lit "/home/u/.codex/config.toml") (table [("model"%string, TomlString (lit "c"))]) = inl s /\
    verify_layer_ordering (layers s) = inl tt /\ validate_enabled_config_layers (layers s) = inl tt.
Proof.
  eexists. split; [vm_compute; reflexivity|].
  apply (stacks_stay_ordered tt tt). eapply (built_user tt tt sample_stack (lit "/home/u/.codex/config.toml") (table [("model"%string, TomlString (lit "c"))])).
  - apply (built_new tt tt [user_layer; project_layer; flags_layer] tt tt). vm_compute. reflexivity.
  - vm_compute. reflexivity.
Defined.

(** The items of an array that a higher layer replaces keep their origin: the effective [notify] has
    one item, and the second still has the user's layer as its origin. *)
Example origins_keep_replaced_items :
  setting [lit "notify"] (effective_config sample_stack) = Some (TomlArray [TomlString (lit "z")]) /\
  origins sample_stack !! lit "notify.1" = Some (metadata user_layer).
Proof. split; vm_compute; reflexivity. Qed.

(** A feature flag of a lower layer is kept as the field of the table above it. *)
Example flag_becomes_table :
  merge_toml_values (table [("features"%string, table [("multi_agent_v2"%string, TomlBoolean true)])])
    (table [("features"%string, table [("multi_agent_v2"%string, table [("limit"%string, TomlInteger 3)])])])
  = table [("features"%string, table [("multi_agent_v2"%string, table [("enabled"%string, TomlBoolean true); ("limit"%string, TomlInteger 3)])])].
Proof. vm_compute. reflexivity. Qed.

(** Keyed filters replace the legacy arrays of the layers below. *)
Example filters_replace_arrays :
  merge_toml_values (table [("shell_environment_policy"%string, table [("exclude"%string, TomlArray [TomlString (lit "A*")]); ("inherit"%string, TomlString (lit "core"))])])
    (table [("shell_environment_policy"%string, table [("filters"%string, table [("B*"%string, TomlString (lit "exclude"))])])])
  = table [("shell_environment_policy"%string, table [("inherit"%string, TomlString (lit "core")); ("filters"%string, table [("B*"%string, TomlString (lit "exclude"))])])].
Proof. vm_compute. reflexivity. Qed.

End Samples.
