(* ===== verification/Constrained.v ===== *)
(** * Constrained values

    Models [config/src/constraint.rs] and [RequirementSource] of [config/src/config_requirements.rs]: a
    setting whose values administrators restrict, with the validators that a new value must pass. *)

From stdpp Require Import base list strings.
From S2P Require Import Prelude AbsPath.

Inductive RequirementSource : Type :=
| Unknown
| MdmManagedPreferences (domain key : str)
| Composite (sources : list RequirementSource)
| EnterpriseManagedRequirements (id name : str)
| SystemRequirementsToml (file : str)
| LegacyRequirementsFromFile (file : str)
| LegacyRequirementsFromMdm.

Fixpoint source_eqb (a b : RequirementSource) : bool :=
  match a, b with
  | Unknown, Unknown => true
  | MdmManagedPreferences d k, MdmManagedPreferences d' k' => str_eqb d d' && str_eqb k k'
  | Composite l, Composite l' =>
      (fix go (l l' : list RequirementSource) := match l, l' with
        | [], [] => true
        | a :: l, b :: l' => source_eqb a b && go l l'
        | _, _ => false
        end) l l'
  | EnterpriseManagedRequirements i n, EnterpriseManagedRequirements i' n' => str_eqb i i' && str_eqb n n'
  | SystemRequirementsToml f, SystemRequirementsToml f' => Path.eqb f f'
  | LegacyRequirementsFromFile f, LegacyRequirementsFromFile f' => Path.eqb f f'
  | LegacyRequirementsFromMdm, LegacyRequirementsFromMdm => true
  | _, _ => false
  end.

(** The sources that are not composite, each once. *)
Fixpoint append_to_composite (self : RequirementSource) (flattened : list RequirementSource) : list RequirementSource :=
  match self with
  | Composite sources =>
      (fix go (sources flattened : list RequirementSource) := match sources with
        | [] => flattened
        | source :: sources => go sources (append_to_composite source flattened)
        end) sources flattened
  | source => if existsb (source_eqb source) flattened then flattened else flattened ++ [source]
  end.

Definition composite (sources : list RequirementSource) : RequirementSource :=
  match foldl (fun flattened source => append_to_composite source flattened) [] sources with
  | [] => Unknown
  | [source] => source
  | flattened => Composite flattened
  end.

(** [Display] *)
Fixpoint source_text (self : RequirementSource) : str :=
  match self with
  | Unknown => lit "<unspecified>"
  | MdmManagedPreferences domain key => lit "MDM " ++ domain ++ lit ":" ++ key
  | Composite sources => lit "requirements layers: " ++ join (lit ", ") (map source_text sources)
  | EnterpriseManagedRequirements id name => lit "enterprise-managed requirements " ++ name ++ lit " (" ++ id ++ lit ")"
  | SystemRequirementsToml file | LegacyRequirementsFromFile file => file
  | LegacyRequirementsFromMdm => lit "MDM managed_config.toml (legacy)"
  end.

Inductive ConstraintError : Type :=
| InvalidValue (field_name candidate allowed : str) (requirement_source : RequirementSource)
| AutoReviewRequired (model : str)
| EmptyField (field_name : str)
| ExecPolicyParse (requirement_source : RequirementSource) (reason : str)
| McpServerRequirementParse (server_name : str) (requirement_source : RequirementSource) (reason : str).

(** [ConstraintResult<()>]: the error, if there is one. *)
Abbreviation ConstraintValidator T := (T -> option ConstraintError).

Section constrained.
Context {T : Type}.

Record Constrained := mkConstrained {
  value : T;
  validator : ConstraintValidator T;
  normalizer : option (T -> T)
}.

Definition new_constrained (initial_value : T) (validator : ConstraintValidator T) : Constrained + ConstraintError :=
  match validator initial_value with
  | Some e => inr e
  | None => inl (mkConstrained initial_value validator None)
  end.

Definition normalized_constrained (initial_value : T) (normalizer : T -> T) : Constrained + ConstraintError :=
  inl (mkConstrained (normalizer initial_value) (fun _ => None) (Some normalizer)).

Definition allow_any (initial_value : T) : Constrained := mkConstrained initial_value (fun _ => None) None.

(** [debug] is the text that the derived [Debug] gives. *)
Definition allow_only `{EqDecision T} (debug : T -> str) (only_value : T) : Constrained :=
  mkConstrained only_value
    (fun candidate =>
       if decide (candidate = only_value) then None
       else Some (InvalidValue (lit "<unknown>") (debug candidate) (lit "[" ++ debug only_value ++ lit "]") Unknown))
    None.

Definition can_set (self : Constrained) (candidate : T) : option ConstraintError := validator self candidate.

Definition add_validator (self : Constrained) (validator' : ConstraintValidator T) : Constrained * option ConstraintError :=
  let combined_validator := fun candidate => match validator self candidate with Some e => Some e | None => validator' candidate end in
  match combined_validator (value self) with
  | Some e => (self, Some e)
  | None => (mkConstrained (value self) combined_validator (normalizer self), None)
  end.

Definition set (self : Constrained) (v : T) : Constrained * option ConstraintError :=
  let v := match normalizer self with Some f => f v | None => v end in
  match validator self v with
  | Some e => (self, Some e)
  | None => (mkConstrained v (validator self) (normalizer self), None)
  end.

(** ** What they promise *)

(** A value made by the operations, with the validators that were accepted for it. *)
Inductive constrained_by : Constrained -> list (ConstraintValidator T) -> Prop :=
| by_new v f c : new_constrained v f = inl c -> constrained_by c [f]
| by_normalized v f c : normalized_constrained v f = inl c -> constrained_by c []
| by_any v : constrained_by (allow_any v) []
| by_only `{EqDecision T} debug v : constrained_by (allow_only debug v) [validator (allow_only debug v)]
| by_set c fs v c' r : constrained_by c fs -> set c v = (c', r) -> constrained_by c' fs
| by_add c fs f c' : constrained_by c fs -> add_validator c f = (c', None) -> constrained_by c' (fs ++ [f])
| by_add_error c fs f c' e : constrained_by c fs -> add_validator c f = (c', Some e) -> constrained_by c' fs.

Definition passes (v : T) (f : ConstraintValidator T) : Prop := f v = None.

(** The validator of a value is the conjunction of those accepted, and the value passes it. *)
Lemma constrained_by_ok c fs :
  constrained_by c fs -> validator c (value c) = None /\ forall v, validator c v = None <-> Forall (passes v) fs.
Proof.
  unfold passes. induction 1 as [v f c Hc|v f c Hc|v|He debug v|c fs v c' r _ [Hv Hf] Hs|c fs f c' _ [Hv Hf] Ha|c fs f c' e _ [Hv Hf] Ha].
  - unfold new_constrained in Hc. destruct (f v) eqn:E; [done|]. simplify_eq. split; [done|]. intros w. simpl. rewrite Forall_singleton. done.
  - unfold normalized_constrained in Hc. simplify_eq. split; [done|]. intros w. simpl. split; [constructor|done].
  - split; [done|]. intros w. simpl. split; [constructor|done].
  - split; [simpl; by rewrite decide_True|]. intros w. by rewrite Forall_singleton.
  - unfold set in Hs. cbn zeta in Hs. destruct (validator c (match normalizer c with Some f => f v | None => v end)) eqn:E; simplify_eq; by split.
  - unfold add_validator in Ha. rewrite Hv in Ha. destruct (f (value c)) eqn:E; simplify_eq. simpl. rewrite Hv. split; [done|]. intros w.
    rewrite Forall_app, Forall_singleton, <- Hf. destruct (validator c w); naive_solver.
  - unfold add_validator in Ha. rewrite Hv in Ha. destruct (f (value c)); by simplify_eq.
Qed.

(** A constrained value passes every validator that was accepted for it, whatever was set or added
    since, and a value can be set when it passes them all; a refused value, or a validator that the
    current value fails, changes nothing, and an accepted value is kept as the normaliser makes it. *)
Theorem constrained_value_stays_valid c fs v f :
  constrained_by c fs ->
  Forall (passes (value c)) fs /\
  (can_set c v = None <-> Forall (passes v) fs) /\
  (let v' := match normalizer c with Some f => f v | None => v end in
   match set c v with
   | (c', None) => value c' = v' /\ Forall (passes v') fs
   | (c', Some _) => c' = c /\ ~ Forall (passes v') fs
   end) /\
  match add_validator c f with
  | (c', None) => value c' = value c /\ forall w, can_set c' w = None <-> Forall (passes w) (fs ++ [f])
  | (c', Some e) => c' = c /\ f (value c) = Some e
  end.
Proof.
  intros Hb. destruct (constrained_by_ok c fs Hb) as [Hv Hf]. split_and!.
  - by apply Hf.
  - apply Hf.
  - unfold set. cbn zeta. set (v' := match normalizer c with Some f => f v | None => v end). destruct (validator c v') as [e|] eqn:E; (split; [done|]); rewrite <- Hf; naive_solver.
  - destruct (add_validator c f) as [c' [e|]] eqn:Ea.
    + unfold add_validator in Ea. rewrite Hv in Ea. destruct (f (value c)); by simplify_eq.
    + pose proof (constrained_by_ok _ _ (by_add _ _ _ _ Hb Ea)) as [_ Hf']. split; [|exact Hf'].
      unfold add_validator in Ea. rewrite Hv in Ea. destruct (f (value c)); by simplify_eq.
Qed.
End constrained.

Arguments Constrained : clear implicits.

(** ** On concrete values *)

Definition below (n : nat) : ConstraintValidator nat := fun v => if Nat.ltb v n then None else Some (EmptyField (lit "limit")).

Definition sample_constrained : Constrained nat := mkConstrained 3 (below 5) None.

Lemma constrained_value_stays_valid_witness :
  Forall (passes 3) [below 5] /\ can_set sample_constrained 7 = Some (EmptyField (lit "limit")) /\ fst (set sample_constrained 7) = sample_constrained /\
  value (fst (set sample_constrained 4)) = 4.
Proof.
  assert (Hb : constrained_by sample_constrained [below 5]) by (by apply (by_new 3 (below 5))).
  destruct (constrained_value_stays_valid sample_constrained [below 5] 4 (below 4) Hb) as (H & _). split; [exact H|]. split_and!; reflexivity.
Defined.

(** A composite source inside another is flattened, and a repeated one is kept once. *)
Example composite_flattens :
  composite [Composite [LegacyRequirementsFromMdm; SystemRequirementsToml (lit "/etc/r")]; LegacyRequirementsFromMdm]
  = Composite [LegacyRequirementsFromMdm; SystemRequirementsToml (lit "/etc/r")].
Proof. vm_compute. reflexivity. Qed.
