(* ===== verification/ConfigEdits.v ===== *)
(** * Writing the configuration

    Models the writes of [app-server/src/config_manager_service.rs], the document edits they make
    ([SetPath] and [ClearPath] of [core/src/config/edit.rs] with
    [core/src/config/edit/document_helpers.rs]) and the fields that requirements fix
    ([exact_requirement_for_config_path] of [config/src/config_requirements.rs]): parsing the path of a
    key, changing the user's configuration in memory, checking it, and bringing the file up to date. *)

From stdpp Require Import base list strings sets.
From Stdlib Require Import NArith ZArith.
From S2P Require Import Prelude FileSystem AbsPath IndexMap TomlMerge ConfigLayers.

(** ** Paths of keys *)

Definition QUOTE : N := 34.
Definition BACKSLASH : N := 92.

(** The loop over the characters: the finished segments, the current one and whether it is quoted. *)
Fixpoint parse_key_chars (segments : list str) (segment : str) (quoted : bool) (chars : str) : result (list str) str :=
  match chars with
  | [] =>
      if quoted then Err (lit "unterminated quoted keyPath segment")
      else if is_empty segment then Err (lit "keyPath segments must not be empty")
      else Ok (segments ++ [segment])
  | ch :: chars =>
      if (ch =? QUOTE)%N && is_empty segment && negb quoted then parse_key_chars segments segment true chars
      else if (ch =? QUOTE)%N && quoted then parse_key_chars segments segment false chars
      else if (ch =? BACKSLASH)%N && quoted then
        match chars with
        | [] => Err (lit "unterminated escape in keyPath")
        | escaped :: chars => parse_key_chars segments (segment ++ [escaped]) quoted chars
        end
      else if (ch =? 46)%N && negb quoted then
        if is_empty segment then Err (lit "keyPath segments must not be empty")
        else parse_key_chars (segments ++ [segment]) [] quoted chars
      else if (ch =? QUOTE)%N then Err (lit "invalid quoted keyPath segment")
      else parse_key_chars segments (segment ++ [ch]) quoted chars
  end.

Definition parse_key_path (path : str) : result (list str) str :=
  if is_empty (trim path) then Err (lit "keyPath must not be empty") else parse_key_chars [] [] false path.

(** ** Reading values *)

(** [str::parse::<i64>]. *)
Fixpoint digits_value (acc : Z) (s : str) : option Z :=
  match s with
  | [] => Some acc
  | c :: s => if is_ascii_digit c then digits_value (acc * 10 + Z.of_N (c - 48)) s else None
  end.
Definition parse_i64 (s : str) : option Z :=
  let '(sign, digits) := match s with
    | c :: rest => if (c =? 45)%N then ((-1)%Z, rest) else if (c =? 43)%N then (1%Z, rest) else (1%Z, s)
    | [] => (1%Z, s)
    end in
  if is_empty digits then None
  else n ← digits_value 0 digits; if ((- 2 ^ 63 <=? sign * n) && (sign * n <? 2 ^ 63))%Z then Some (sign * n)%Z else None.

Fixpoint value_at_path (root : TomlValue) (segments : list str) : option TomlValue :=
  match segments with
  | [] => Some root
  | segment :: segments =>
      match root with
      | TomlTable table => v ← index_get segment table; value_at_path v segments
      | TomlArray items =>
          idx ← parse_i64 segment;
          if (idx <? 0)%Z then None else v ← items !! Z.to_nat idx; value_at_path v segments
      | _ => None
      end
  end.

(** The last segment and those before it. *)
Definition split_last {A} (l : list A) : option (A * list A) := match rev l with [] => None | x :: r => Some (x, rev r) end.

Definition value_at_semantic_path `{CaseMapping} (root : TomlValue) (segments : list str) : option TomlValue :=
  match shell_environment_filter_entry root segments with
  | Some (_, value) => Some value
  | None =>
      match value_at_path root segments with
      | Some value => Some value
      | None =>
          '(field, parents) ← split_last segments;
          if negb (str_eqb field (lit "enabled")) then None
          else if negb (is_multi_agent_v2_feature_path parents) then None
          else
            feature ← value_at_path root parents;
            match feature with TomlBoolean _ => Some feature | _ => None end
      end
  end.

(** ** Changing the configuration in memory *)

Inductive MergeStrategy : Type := Replace | Upsert.

Fixpoint sparse_overlay (path : list str) (value : TomlValue) : TomlValue :=
  match path with [] => value | segment :: path => TomlTable [(segment, sparse_overlay path value)] end.

#[export] Instance representation_eq_dec : EqDecision ShellEnvironmentPolicyFilterRepresentation.
Proof. solve_decision. Defined.

Definition policy_representation (root : TomlValue) : option ShellEnvironmentPolicyFilterRepresentation :=
  policy ← as_table root ≫= index_get (lit "shell_environment_policy"); representation_from_policy policy.

Definition shell_environment_policy_representation_switch (root : TomlValue) (segments : list str) (value : TomlValue) : bool :=
  match policy_representation root, representation_from_edit segments value with
  | Some current, Some edited => bool_decide (current <> edited)
  | _, _ => false
  end.

Fixpoint clear_path_segments (root : TomlValue) (segments : list str) : TomlValue * bool :=
  match root, segments with
  | TomlTable table, [last] => (TomlTable (shift_remove last table), contains_key last table)
  | TomlTable table, segment :: segments =>
      match index_get segment table with
      | None => (root, false)
      | Some next => let '(next, changed) := clear_path_segments next segments in (TomlTable (index_insert segment next table), changed)
      end
  | _, _ => (root, false)
  end.

Definition clear_path (root : TomlValue) (segments : list str) : result (TomlValue * bool) str :=
  if is_empty segments then Err (lit "keyPath must not be empty") else Ok (clear_path_segments root segments).

Definition multi_agent_v2_feature_depth (segments : list str) : option nat :=
  if is_multi_agent_v2_feature_path (take 2 segments) then Some 2
  else if is_multi_agent_v2_feature_path (take 4 segments) then Some 4
  else None.

Definition is_table_value (v : TomlValue) : bool := match v with TomlTable _ => true | _ => false end.
Definition is_boolean_value (v : TomlValue) : bool := match v with TomlBoolean _ => true | _ => false end.

Definition preserves_multi_agent_v2_feature_config (root : TomlValue) (segments : list str) (value : TomlValue) : bool :=
  match multi_agent_v2_feature_depth segments with
  | None => false
  | Some feature_depth =>
      match value_at_path root (take feature_depth segments) with
      | Some (TomlBoolean _) => Nat.ltb feature_depth (length segments) || is_table_value value
      | Some (TomlTable _) => Nat.eqb (length segments) feature_depth && is_boolean_value value
      | _ => false
      end
  end.

(** The value at its key; tables are made on the way down. *)
Fixpoint set_path (current : TomlValue) (segments : list str) (value : TomlValue) : result TomlValue str :=
  match segments with
  | [] => Err (lit "keyPath must not be empty")
  | [last] =>
      match current with
      | TomlTable table => Ok (TomlTable (index_insert last value table))
      | _ => Err (lit "cannot set value on non-table parent")
      end
  | segment :: segments =>
      let table := default [] (as_table current) in
      match set_path (default (TomlTable []) (index_get segment table)) segments value with
      | Ok child => Ok (TomlTable (index_insert segment child table))
      | r => r
      end
  end.

Definition merges_value `{CaseMapping} (root : TomlValue) (segments : list str) (value : TomlValue) (strategy : MergeStrategy) : bool :=
  preserves_multi_agent_v2_feature_config root segments value ||
  match strategy with
  | Upsert =>
      shell_environment_policy_representation_switch root segments value ||
      match value_at_path root segments with Some (TomlTable _) => is_table_value value | _ => false end
  | Replace => false
  end.

Definition apply_merge `{CaseMapping} (root : TomlValue) (segments : list str) (value : option TomlValue) (strategy : MergeStrategy) : result TomlValue str :=
  match value with
  | None => result_map fst (clear_path root segments)
  | Some value =>
      if is_empty segments then Err (lit "keyPath must not be empty")
      else if merges_value root segments value strategy then Ok (merge_toml_values root (sparse_overlay segments value))
      else set_path root segments value
  end.

(** ** Documents *)

(** [toml_edit::Item], without the white space and comments around it: values (tables among them are
    inline), tables with a header, arrays of such tables. *)
Inductive Item : Type :=
| ItemValue (v : TomlValue)
| ItemTable (fields : list (str * Item))
| ItemArrayOfTables (tables : list (list (str * Item))).

(** What the document says. *)
Fixpoint item_value (item : Item) : TomlValue :=
  let fields_value := fix go (fields : list (str * Item)) := match fields with
    | [] => []
    | (key, item) :: fields => (key, item_value item) :: go fields
    end in
  match item with
  | ItemValue v => v
  | ItemTable fields => TomlTable (fields_value fields)
  | ItemArrayOfTables tables => TomlArray (map (fun fields => TomlTable (fields_value fields)) tables)
  end.

Definition fields_value (fields : list (str * Item)) : list (str * TomlValue) := (fun e => (fst e, item_value (snd e))) <$> fields.

Fixpoint toml_value_to_item (value : TomlValue) : Item :=
  match value with
  | TomlTable table =>
      ItemTable ((fix go (t : list (str * TomlValue)) := match t with [] => [] | (key, val) :: t => (key, toml_value_to_item val) :: go t end) table)
  | other => ItemValue other
  end.

Inductive ConfigEdit : Type :=
| SetPath (segments : list str) (value : Item)
| ClearPath (segments : list str).

(** The fields of a table or of an inline table. *)
Definition as_table_like (item : Item) : option (list (str * Item)) :=
  match item with
  | ItemTable fields => Some fields
  | ItemValue (TomlTable t) => Some ((fun e => (fst e, ItemValue (snd e))) <$> t)
  | _ => None
  end.

Definition ensure_table_for_write (item : Item) : option (list (str * Item)) :=
  match item with
  | ItemArrayOfTables _ => None
  | _ => Some (default [] (as_table_like item))
  end.
Definition ensure_table_for_read (item : Item) : option (list (str * Item)) := as_table_like item.

(** A flag becomes a table when something below it is written. *)
Definition expand_item_flag (traversed : list str) (item : Item) : Item :=
  if is_multi_agent_v2_feature_path traversed then
    match item with ItemValue (TomlBoolean enabled) => ItemTable [(lit "enabled", ItemValue (TomlBoolean enabled))] | _ => item end
  else item.

(** [insert] and the [descend] it starts with: the new fields and whether the value was put there. *)
Fixpoint doc_insert (traversed : list str) (fields : list (str * Item)) (segments : list str) (value : Item) : list (str * Item) * bool :=
  match segments with
  | [] => (fields, false)
  | [last] => (index_insert last value fields, true)
  | segment :: segments =>
      let traversed := traversed ++ [segment] in
      let item := expand_item_flag traversed (default (ItemTable []) (index_get segment fields)) in
      match ensure_table_for_write item with
      | None => (fields, false)
      | Some table =>
          let '(table, done) := doc_insert traversed table segments value in
          (index_insert segment (ItemTable table) fields, done)
      end
  end.

Fixpoint doc_remove (fields : list (str * Item)) (segments : list str) : list (str * Item) * bool :=
  match segments with
  | [] => (fields, false)
  | [last] => (shift_remove last fields, contains_key last fields)
  | segment :: segments =>
      match index_get segment fields ≫= ensure_table_for_read with
      | None => (fields, false)
      | Some table =>
          let '(table, done) := doc_remove table segments in
          (index_insert segment (ItemTable table) fields, done)
      end
  end.

Fixpoint item_at (item : Item) (segments : list str) : option Item :=
  match segments with
  | [] => Some item
  | segment :: segments => item ← as_table_like item ≫= index_get segment; item_at item segments
  end.

Definition item_is_bool (item : Item) : bool := match item with ItemValue (TomlBoolean _) => true | _ => false end.

(** [ConfigDocument::apply] *)
Definition apply_edit (doc : list (str * Item)) (edit : ConfigEdit) : list (str * Item) * bool :=
  match edit with
  | SetPath segments value =>
      if is_multi_agent_v2_feature_path segments && item_is_bool value && bool_decide (is_Some (item_at (ItemTable doc) segments ≫= as_table_like))
      then doc_insert [] doc (segments ++ [lit "enabled"]) value
      else doc_insert [] doc segments value
  | ClearPath segments => doc_remove doc segments
  end.

Definition apply_doc_edits (doc : list (str * Item)) (edits : list ConfigEdit) : list (str * Item) * bool :=
  foldl (fun '(doc, mutated) edit => let '(doc, m) := apply_edit doc edit in (doc, mutated || m)) (doc, false) edits.

(** The file after [apply_blocking_to_resolved_file], when reading, parsing and writing succeed: it is
    written when something changed. *)
Definition apply_blocking (file : list (str * Item)) (edits : list ConfigEdit) : list (str * Item) :=
  let '(doc, mutated) := apply_doc_edits file edits in
  if mutated then doc else file.

(** ** Requirements *)

(** The fields of [ConfigRequirementsToml] that replace the configuration's. *)
Record ExactRequirements := mkExact {
  sqlite_home : option str;
  log_dir : option str;
  model_catalog_json : option str;
  check_for_update_on_startup : option bool;
  allow_login_shell : option bool;
  feedback_enabled : option bool;
  windows_sandbox_private_desktop : option bool
}.

Definition config_paths_overlap (segments managed_path : list str) : bool := forallb (fun '(a, b) => str_eqb a b) (zip segments managed_path).

Definition managed_fields (r : ExactRequirements) : list (bool * list str * str) :=
  [(bool_decide (is_Some (sqlite_home r)), [lit "sqlite_home"], lit "sqlite_home");
   (bool_decide (is_Some (log_dir r)), [lit "log_dir"], lit "log_dir");
   (bool_decide (is_Some (model_catalog_json r)), [lit "model_catalog_json"], lit "model_catalog_json");
   (bool_decide (is_Some (check_for_update_on_startup r)), [lit "check_for_update_on_startup"], lit "check_for_update_on_startup");
   (bool_decide (is_Some (allow_login_shell r)), [lit "allow_login_shell"], lit "allow_login_shell");
   (bool_decide (is_Some (feedback_enabled r)), [lit "feedback"; lit "enabled"], lit "feedback.enabled");
   (bool_decide (is_Some (windows_sandbox_private_desktop r)), [lit "windows"; lit "sandbox_private_desktop"], lit "windows.sandbox_private_desktop")].

Definition exact_requirement_for_config_path (r : ExactRequirements) (segments : list str) : option str :=
  snd <$> find (fun '(is_managed, managed_path, _) => is_managed && config_paths_overlap segments managed_path) (managed_fields r).

(** ** The service *)

Inductive ConfigWriteErrorCode : Type :=
| ConfigLayerReadonly | ConfigRequirementReadonly | ConfigVersionConflict | ConfigValidationError
| ConfigPathNotFound | ConfigSchemaUnknownKey | UserLayerNotFound.

Inductive ConfigManagerError : Type :=
| WriteError (code : ConfigWriteErrorCode) (message : str)
| IoError (context : str) (source : IoSource)
| JsonError (context source : str)
| TomlError (context source : str)
| AnyhowError (context source : str).

Definition write_error_code (e : ConfigManagerError) : option ConfigWriteErrorCode := match e with WriteError code _ => Some code | _ => None end.

Record OverriddenMetadata := mkOverridden { override_text : str; overriding_layer : ConfigLayerMetadata; effective_value : Json }.

Inductive WriteStatus : Type := WriteOk | WriteOkOverridden.

Record ConfigWriteResponse := mkResponse {
  status : WriteStatus;
  version : str;
  file_path : str;
  overridden_metadata : option OverriddenMetadata
}.

Definition override_message (layer : ConfigLayerSource) : str :=
  match layer with
  | PackagedDefaults file => lit "Overridden by packaged defaults: " ++ file
  | Mdm domain _ => lit "Overridden by managed policy (MDM): " ++ domain
  | System file => lit "Overridden by managed config (system): " ++ file
  | EnterpriseManaged _ name => lit "Overridden by enterprise-managed config: " ++ name
  | Project dot_codex_folder => lit "Overridden by project config: " ++ dot_codex_folder ++ lit "/" ++ CONFIG_TOML_FILE
  | SessionFlags => lit "Overridden by session flags"
  | User file _ => lit "Overridden by user config: " ++ file
  | LegacyManagedConfigTomlFromFile file => lit "Overridden by legacy managed_config.toml: " ++ file
  | LegacyManagedConfigTomlFromMdm => lit "Overridden by legacy managed configuration from MDM"
  end.

(** Equality of values, where the order of the fields of a table does not matter; floats are
    compared by their bits. *)
Fixpoint toml_eqb (a b : TomlValue) : bool :=
  match a, b with
  | TomlString s, TomlString s' => str_eqb s s'
  | TomlInteger z, TomlInteger z' => (z =? z')%Z
  | TomlFloat z, TomlFloat z' => (z =? z')%Z
  | TomlBoolean b, TomlBoolean b' => Bool.eqb b b'
  | TomlDatetime s, TomlDatetime s' => str_eqb s s'
  | TomlArray l, TomlArray l' =>
      (fix go (l l' : list TomlValue) := match l, l' with
        | [], [] => true
        | x :: l, y :: l' => toml_eqb x y && go l l'
        | _, _ => false
        end) l l'
  | TomlTable l, TomlTable l' =>
      Nat.eqb (length l) (length l') &&
      forallb (fun e => match index_get (fst e) l' with Some y => toml_eqb (snd e) y | None => false end) l
  | _, _ => false
  end.

Definition option_eqb (a b : option TomlValue) : bool :=
  match a, b with Some a, Some b => toml_eqb a b | None, None => true | _, _ => false end.

(** Neither a table nor an array with a table in it. *)
Fixpoint flat (v : TomlValue) : bool := match v with TomlTable _ => false | TomlArray items => forallb flat items | _ => true end.

Lemma toml_eqb_flat a : forall b, flat b = true -> toml_eqb a b = true -> a = b.
Proof.
  induction a as [a Ha|items IH|t IH] using TomlValue_nested_ind; intros b Hb Heq.
  - destruct a, b; simpl in *; rewrite ?str_eqb_spec, ?Z.eqb_eq, ?Bool.eqb_true_iff in Heq; by subst.
  - destruct b as [| | | | |items'|]; try done. f_equal. simpl in *. revert items' Hb Heq.
    induction IH as [|a items Ha _ IHi]; intros [|b items'] Hb Heq; try done. simpl in Hb. apply andb_prop in Hb as [Hb Hbs]. apply andb_prop in Heq as [Heq Heqs].
    f_equal; auto.
  - by destruct b.
Qed.

(** What reading the user's configuration finds behind its links. *)
Inductive UserFile : Type :=
| MissingFile
| ReadFile (contents : TomlValue + str)                  (* or the error of the parser *)
| UnreadableFile (e : IoSource).

(** What the service asks of its surroundings: where the user's configuration is; the layers read from
    disk; the file and how creating it fails; [canonicalize] with the rewriting of paths that are
    compared; the conversion of [serde]; what the typed configuration checks, alone and against the
    requirements on features. *)
Class ConfigManagerDeps := {
  Requirements : Type;
  user_config_path : io_result str;
  load_thread_agnostic_config : io_result (ConfigLayerStack Requirements ExactRequirements);
  user_file : str -> io_result UserFile;
  create_error : option ConfigManagerError;
  normalize_for_path_comparison : str -> io_result str;
  from_json : Json -> TomlValue + str;
  validate_config : TomlValue -> option str;
  deserialize_config_toml : TomlValue -> option str;
  validate_feature_requirements : TomlValue -> Requirements -> option str;
  persist_error : option str
}.

Section service.
Context `{CaseMapping} `{FilterDecoding} `{Serialization} `{PathEnv} `{ConfigManagerDeps}.

(** The layer of a file that was not among the layers; a missing file is created empty, which does not
    change what it says. *)
Definition create_empty_user_layer (config_toml : str) : result ConfigLayerEntry ConfigManagerError :=
  let? toml_value := match user_file config_toml with
    | inr e => Err (IoError (lit "failed to resolve user config path") e)
    | inl (ReadFile (inl v)) => Ok v
    | inl (ReadFile (inr e)) => Err (TomlError (lit "failed to parse existing user config.toml") e)
    | inl (UnreadableFile e) => Err (IoError (lit "failed to read user config.toml") e)
    | inl MissingFile => match create_error with Some e => Err e | None => Ok (TomlTable []) end
    end in
  Ok (new_layer (User config_toml None) toml_value).

Definition paths_match (expected provided : str) : bool :=
  match normalize_for_path_comparison expected, normalize_for_path_comparison provided with
  | inl l, inl r => Path.eqb l r
  | _, _ => Path.eqb expected provided
  end.

Definition find_effective_layer (layers : ConfigLayerStack Requirements ExactRequirements) (segments : list str) : option ConfigLayerMetadata :=
  metadata <$> find (fun layer =>
    bool_decide (is_Some (value_at_semantic_path (layer_config layer) segments)) ||
    match policy_representation (layer_config layer), representation_from_path segments with
    | Some layer_representation, Some edit_representation => bool_decide (edit_representation <> layer_representation)
    | _, _ => false
    end) (layers_high_to_low layers).

Definition compute_override_metadata (layers : ConfigLayerStack Requirements ExactRequirements) (effective : TomlValue) (segments : list str) :
    option OverriddenMetadata :=
  user_layer ← get_active_user_layer layers;
  let user_value := value_at_semantic_path (layer_config user_layer) segments in
  let effective_value := value_at_semantic_path effective segments in
  if bool_decide (is_Some user_value) && option_eqb user_value effective_value then None
  else if negb (bool_decide (is_Some user_value)) && negb (bool_decide (is_Some effective_value)) then None
  else
    overriding_layer ← find_effective_layer layers segments;
    if (precedence (meta_name overriding_layer) <=? precedence (layer_name user_layer))%Z then None
    else Some (mkOverridden (override_message (meta_name overriding_layer)) overriding_layer (default JsonNull (effective_value ≫= to_value))).

Definition first_overridden_edit (layers : ConfigLayerStack Requirements ExactRequirements) (effective : TomlValue) (edits : list (list str)) :
    option OverriddenMetadata :=
  head (omap (compute_override_metadata layers effective) edits).

Definition is_null (v : Json) : bool := match v with JsonNull => true | _ => false end.

Definition parse_value (value : Json) : result (option TomlValue) str :=
  if is_null value then Ok None
  else match from_json value with inl v => Ok (Some v) | inr err => Err (lit "invalid value: " ++ err) end.

Definition invalid (message : str) : ConfigManagerError := WriteError ConfigValidationError message.
Definition invalid_configuration (err : str) : ConfigManagerError := invalid (lit "Invalid configuration: " ++ err).

(** An error, if there is one, ends the request. *)
Definition refuse_if (f : str -> ConfigManagerError) (e : option str) : result unit ConfigManagerError := match e with Some e => Err (f e) | None => Ok tt end.

(** Legacy keys that can no longer be written. *)
Definition legacy_profile_error (segments : list str) : option str :=
  match segments with
  | [segment] =>
      if str_eqb segment (lit "profile")
      then Some (lit "`profile` is a legacy config selector and can no longer be written; use `--profile <name>` with `<name>.config.toml` instead")
      else if str_eqb segment (lit "profiles")
      then Some (lit "`profiles` contains legacy config profile tables and can no longer be written; use `--profile <name>` with `<name>.config.toml` instead")
      else None
  | segment :: _ =>
      if str_eqb segment (lit "profiles")
      then Some (lit "`profiles` contains legacy config profile tables and can no longer be written; use `--profile <name>` with `<name>.config.toml` instead")
      else None
  | [] => None
  end.

(** The written pattern in the place of one that differs in case only. *)
Definition written_segments (user_config : TomlValue) (segments : list str) (value : Json) (strategy : MergeStrategy) : list str :=
  if is_null value || match strategy with Upsert => true | Replace => false end then
    match shell_environment_filter_entry user_config segments with
    | Some (pattern, _) => <[2 := pattern]> segments
    | None => segments
    end
  else segments.

(** What the edits made so far: the configuration, the paths as they were written, the changes of the
    document. *)
Record EditState := mkEditState { user_config : TomlValue; parsed_segments : list (list str); config_edits : list ConfigEdit }.

Definition is_upsert (strategy : MergeStrategy) : bool := match strategy with Upsert => true | Replace => false end.

Definition persisted_segments (user_config : TomlValue) (segments : list str) (parsed_value : option TomlValue) (strategy : MergeStrategy) : list str :=
  if is_upsert strategy && is_some_and parsed_value (fun value => shell_environment_policy_representation_switch user_config segments value)
  then [lit "shell_environment_policy"] else segments.

(** The part of a policy that an upsert adds is checked on its own. *)
Definition checked_overlay (segments : list str) (parsed_value : option TomlValue) (strategy : MergeStrategy) : option str :=
  match strategy, parsed_value, segments with
  | Upsert, Some value, policy :: _ =>
      if str_eqb policy (lit "shell_environment_policy") then validate_shell_environment_policy_filter_config (sparse_overlay segments value) else None
  | _, _, _ => None
  end.

Definition edit_of (segments : list str) (original updated : option TomlValue) : list ConfigEdit :=
  if option_eqb original updated then []
  else [match updated with Some value => SetPath segments (toml_value_to_item value) | None => ClearPath segments end].

(** One edit of the request. *)
Definition edit_step (requirements : ExactRequirements) (state : EditState) (edit : str * Json * MergeStrategy) : result EditState ConfigManagerError :=
  let '(key_path, value, strategy) := edit in
  let? segments := map_err invalid (parse_key_path key_path) in
  match exact_requirement_for_config_path requirements segments with
  | Some field => Err (WriteError ConfigRequirementReadonly (lit "`" ++ field ++ lit "` is managed by requirements and cannot be changed"))
  | None =>
      let segments := written_segments (user_config state) segments value strategy in
      let? _ := refuse_if invalid (if is_null value then None else legacy_profile_error segments) in
      let? parsed_value := map_err invalid (parse_value value) in
      let? _ := refuse_if invalid_configuration (checked_overlay segments parsed_value strategy) in
      let persist := persisted_segments (user_config state) segments parsed_value strategy in
      let? updated := map_err invalid (apply_merge (user_config state) segments parsed_value strategy) in
      Ok (mkEditState updated (parsed_segments state ++ [segments])
            (config_edits state ++ edit_of persist (value_at_path (user_config state) persist) (value_at_path updated persist)))
  end.

Fixpoint edit_steps (requirements : ExactRequirements) (state : EditState) (edits : list (str * Json * MergeStrategy)) : result EditState ConfigManagerError :=
  match edits with
  | [] => Ok state
  | edit :: edits => let? state := edit_step requirements state edit in edit_steps requirements state edits
  end.

Definition io_error {A} (context : str) (r : io_result A) : result A ConfigManagerError := match r with inl a => Ok a | inr e => Err (IoError context e) end.

(** Everything before the file is touched: the changes of the document and the answer. *)
Definition prepare_edits (file : option str) (expected_version : option str) (edits : list (str * Json * MergeStrategy)) :
    result (list ConfigEdit * result ConfigWriteResponse ConfigManagerError) ConfigManagerError :=
  let? allowed_path := io_error (lit "failed to resolve user config path") user_config_path in
  let? provided_path := match file with
    | Some path => io_error (lit "failed to resolve user config path") (from_absolute_path path)
    | None => Ok allowed_path
    end in
  if negb (paths_match allowed_path provided_path) then Err (WriteError ConfigLayerReadonly (lit "Only writes to the user config are allowed"))
  else
    let? layers := io_error (lit "failed to load configuration") load_thread_agnostic_config in
    let? user_layer := match get_active_user_layer layers with
      | Some layer => Ok layer
      | None => create_empty_user_layer allowed_path
      end in
    if is_some_and expected_version (fun expected => negb (str_eqb expected (layer_version user_layer))) then
      Err (WriteError ConfigVersionConflict (lit "Configuration was modified since last read. Fetch latest version and retry."))
    else
      let? state := edit_steps (requirements_toml layers) (mkEditState (layer_config user_layer) [] []) edits in
      let? _ := refuse_if invalid_configuration (validate_config (user_config state)) in
      let? _ := refuse_if invalid_configuration (deserialize_config_toml (user_config state)) in
      let? _ := refuse_if invalid_configuration (validate_feature_requirements (user_config state) (requirements layers)) in
      let? updated_layers := match with_user_config layers provided_path (user_config state) with
        | inl updated => Ok updated
        | inr e => Err (invalid_configuration (io_text e))
        end in
      let effective := effective_config updated_layers in
      let? _ := refuse_if invalid_configuration (validate_config effective) in
      let overridden := first_overridden_edit updated_layers effective (parsed_segments state) in
      Ok (config_edits state,
          match get_active_user_layer updated_layers with
          | Some layer =>
              Ok (mkResponse (if overridden then WriteOkOverridden else WriteOk) (layer_version layer) provided_path overridden)
          | None => Err (WriteError UserLayerNotFound (lit "user layer not found in updated layers"))
          end).

(** The whole request; the state is the document in the file. *)
Definition apply_edits (file : option str) (expected_version : option str) (edits : list (str * Json * MergeStrategy)) :
    M (list (str * Item)) ConfigManagerError ConfigWriteResponse := fun doc =>
  match prepare_edits file expected_version edits with
  | Ok ([], answer) => (doc, answer)
  | Ok (config_edits, answer) =>
      match persist_error with
      | Some e => (doc, Err (AnyhowError (lit "failed to persist config.toml") e))
      | None => (apply_blocking doc config_edits, answer)
      end
  | Err e => (doc, Err e)
  | Panic => (doc, Panic)
  end.

Definition write_value (key_path : str) (value : Json) (strategy : MergeStrategy) (file expected_version : option str) :
    M (list (str * Item)) ConfigManagerError ConfigWriteResponse :=
  apply_edits file expected_version [(key_path, value, strategy)].

Definition batch_write (edits : list (str * Json * MergeStrategy)) (file expected_version : option str) :
    M (list (str * Item)) ConfigManagerError ConfigWriteResponse :=
  apply_edits file expected_version edits.

Definition clear_user_value_if_matches (key_path : str) (expected_value : Json) : M (list (str * Item)) ConfigManagerError unit := fun doc =>
  match io_error (lit "failed to load configuration") load_thread_agnostic_config with
  | Err e => (doc, Err e)
  | Panic => (doc, Panic)
  | Ok layers =>
      match get_active_user_layer layers with
      | None => (doc, Ok tt)
      | Some user_layer =>
          match map_err invalid (parse_key_path key_path), map_err invalid (parse_value expected_value) with
          | Ok segments, Ok expected =>
              if option_eqb (value_at_path (layer_config user_layer) segments) expected
              then (apply_edits None (Some (layer_version user_layer)) [(key_path, JsonNull, Replace)] ≫= fun _ => mret tt) doc
              else (doc, Ok tt)
          | Ok _, Err e => (doc, Err e)
          | Ok _, Panic => (doc, Panic)
          | Err e, _ => (doc, Err e)
          | Panic, _ => (doc, Panic)
          end
      end
  end.

End service.

(** ** Paths are read back *)

(** A segment in quotes. *)
Fixpoint escape (s : str) : str :=
  match s with
  | [] => []
  | c :: s => if ((c =? QUOTE) || (c =? BACKSLASH))%N then BACKSLASH :: c :: escape s else c :: escape s
  end.
Definition quote_key (s : str) : str := QUOTE :: escape s ++ [QUOTE].

(** A segment that needs no quotes. *)
Definition bare_key (s : str) : bool := forallb (fun c => negb ((c =? QUOTE) || (c =? 46))%N) s && existsb (fun c => negb (is_whitespace c)) s.

(** How a segment may be written. *)
Definition key_text (text s : str) : Prop := (bare_key s = true /\ text = s) \/ (s <> [] /\ text = quote_key s).

Lemma parse_quoted segments segment s rest :
  parse_key_chars segments segment true (escape s ++ QUOTE :: rest) = parse_key_chars segments (segment ++ s) false rest.
Proof.
  revert segment. induction s as [|c s IH]; intros segment; [rewrite app_nil_r; cbn; by rewrite andb_false_r|]. cbn [escape].
  assert (Hcons : segment ++ c :: s = (segment ++ [c]) ++ s) by (by rewrite <- app_assoc). rewrite Hcons, <- IH.
  destruct (N.eqb_spec c QUOTE) as [->|Hq]; [done|]. destruct (N.eqb_spec c BACKSLASH) as [->|Hb]; [done|].
  cbn [orb app parse_key_chars]. rewrite (proj2 (N.eqb_neq _ _) Hq), (proj2 (N.eqb_neq _ _) Hb). cbn [andb negb]. by rewrite andb_false_r.
Qed.

Lemma parse_bare segments segment s rest :
  forallb (fun c => negb ((c =? QUOTE) || (c =? 46))%N) s = true ->
  parse_key_chars segments segment false (s ++ rest) = parse_key_chars segments (segment ++ s) false rest.
Proof.
  revert segment. induction s as [|c s IH]; intros segment Hs; [by rewrite app_nil_r|]. simpl in Hs. apply andb_prop in Hs as [Hc Hs].
  apply negb_true_iff, orb_false_iff in Hc as [Hq Hd]. cbn [app parse_key_chars]. rewrite Hq, Hd, !andb_false_r. cbn. by rewrite IH, <- app_assoc.
Qed.

Lemma key_text_nonempty text s : key_text text s -> s <> [].
Proof. intros [[Hb _] | [Hne _]]; [|done]. intros ->. done. Qed.

(** One segment, whichever way it is written. *)
Lemma parse_segment segments text s rest :
  key_text text s -> parse_key_chars segments [] false (text ++ rest) = parse_key_chars segments s false rest.
Proof.
  intros [[[Hb _]%andb_prop ->] | [_ ->]]; [by apply parse_bare|]. unfold quote_key. rewrite <- app_comm_cons, <- app_assoc. cbn [app].
  change (parse_key_chars segments [] false (QUOTE :: escape s ++ QUOTE :: rest)) with (parse_key_chars segments [] true (escape s ++ QUOTE :: rest)).
  apply parse_quoted.
Qed.

Lemma parse_segments segments texts keys : Forall2 key_text texts keys -> keys <> [] -> parse_key_chars segments [] false (join DOT texts) = Ok (segments ++ keys).
Proof.
  intros Hk. revert segments. induction Hk as [|t k ts ks Ht Hks IH]; intros segments Hne; [done|]. pose proof (key_text_nonempty _ _ Ht) as Hk.
  destruct Hks as [|t' k' ts ks Ht' Hks].
  - cbn [join]. rewrite <- (app_nil_r t), (parse_segment _ _ _ [] Ht). cbn. by destruct k.
  - rewrite join_cons by done. rewrite (parse_segment _ _ _ _ Ht). cbn [app DOT parse_key_chars]. destruct k as [|c k]; [done|].
    cbn -[parse_key_chars]. rewrite IH by done. by rewrite <- app_assoc.
Qed.

Lemma trim_nonempty s c : c ∈ s -> is_whitespace c = false -> trim s <> [].
Proof.
  intros Hin Hc. unfold trim, trim_end, trim_end_matches, trim_start.
  assert (Hdrop : forall l, c ∈ l -> c ∈ drop_while is_whitespace l).
  { intros l. induction l as [|d l IH]; [set_solver|]. simpl. destruct (is_whitespace d) eqn:Ed; [|done]. intros [->|Hl]%elem_of_cons; [congruence|auto]. }
  apply Hdrop in Hin. apply list_elem_of_In, in_rev, list_elem_of_In, Hdrop in Hin. intros Heq.
  apply (f_equal (@rev N)) in Heq. rewrite rev_involutive in Heq. rewrite Heq in Hin. set_solver.
Qed.

Lemma key_text_visible text s : key_text text s -> exists c, c ∈ text /\ is_whitespace c = false.
Proof.
  intros [[[_ Hv]%andb_prop ->] | [_ ->]]; [|exists QUOTE; split; [set_solver|done]]. apply existsb_exists in Hv as (c & Hc & Hv).
  exists c. split; [by apply list_elem_of_In|by apply negb_true_iff].
Qed.

(** A path of keys that is written segment by segment, each bare or in quotes with the quotes and
    backslashes in it escaped, and joined with dots is read as these segments. *)
Theorem key_paths_round_trip texts keys : keys <> [] -> Forall2 key_text texts keys -> parse_key_path (join DOT texts) = Ok keys.
Proof.
  intros Hne Hk. unfold parse_key_path. destruct Hk as [|t k ts ks Ht Hks]; [done|].
  assert (is_empty (trim (join DOT (t :: ts))) = false) as ->.
  { destruct (key_text_visible t k Ht) as (c & Hc & Hv). apply (trim_nonempty (join DOT (t :: ts)) c) in Hv; [by destruct (trim _)|].
    destruct ts; [done|]. rewrite join_cons by done. set_solver. }
  by apply (parse_segments [] (t :: ts) (k :: ks)); [constructor|].
Qed.

Lemma key_paths_round_trip_witness :
  parse_key_path (lit "plugins." ++ quote_key (lit "a.b") ++ lit ".enabled") = Ok [lit "plugins"; lit "a.b"; lit "enabled"].
Proof.
  apply (key_paths_round_trip [lit "plugins"; quote_key (lit "a.b"); lit "enabled"] [lit "plugins"; lit "a.b"; lit "enabled"]); [done|].
  constructor; [left; split; [vm_compute|]; reflexivity|]. constructor; [right; split; [done|reflexivity]|].
  constructor; [left; split; [vm_compute|]; reflexivity|constructor].
Defined.

(** ** The file follows the configuration *)

Lemma index_insert_fmap {A B} (f : A -> B) k v l :
  (fun e => (fst e, f (snd e))) <$> index_insert k v l = index_insert k (f v) ((fun e => (fst e, f (snd e))) <$> l).
Proof. induction l as [|[k' v'] l IH]; [done|]. simpl. case_match; [done|]. by rewrite fmap_cons, IH. Qed.

Lemma shift_remove_fmap {A B} (f : A -> B) k l :
  (fun e => (fst e, f (snd e))) <$> shift_remove k l = shift_remove k ((fun e => (fst e, f (snd e))) <$> l).
Proof. unfold shift_remove. induction l as [|[k' v'] l IH]; [done|]. simpl. case_match; [|done]. by rewrite fmap_cons, IH. Qed.

Lemma index_insert_same {A} k (v : A) l : index_get k l = Some v -> index_insert k v l = l.
Proof.
  induction l as [|[k' v'] l IH]; [done|]. rewrite index_get_cons. simpl. unfold str_eqb. case_bool_decide as Hk; [intros; by simplify_eq|].
  intros Hl. by rewrite IH.
Qed.

Lemma shift_remove_absent {A} k (l : list (str * A)) : index_get k l = None -> shift_remove k l = l.
Proof.
  induction l as [|[k' v'] l IH]; [done|]. rewrite index_get_cons. unfold shift_remove in *. simpl. destruct (str_eqb k' k); [done|].
  simpl. intros Hl. by rewrite IH.
Qed.

Lemma contains_key_fmap {A B} (f : A -> B) k l : contains_key k ((fun e => (fst e, f (snd e))) <$> l) = contains_key k l.
Proof. unfold contains_key. rewrite index_get_fmap. apply bool_decide_ext. by rewrite fmap_is_Some. Qed.

Lemma item_value_table fields : item_value (ItemTable fields) = TomlTable (fields_value fields).
Proof. simpl. f_equal. induction fields as [|[k i] fields IH]; [done|]. unfold fields_value in *. simpl. by rewrite IH. Qed.

Lemma fields_value_get k fields : index_get k (fields_value fields) = item_value <$> index_get k fields.
Proof. apply index_get_fmap. Qed.

Lemma to_item_value v : item_value (toml_value_to_item v) = v.
Proof.
  induction v as [v Hv|items IH|t IH] using TomlValue_nested_ind; [by destruct v|done|].
  cbn [toml_value_to_item]. rewrite item_value_table. f_equal. induction IH as [|[k v] t Hv _ IHt]; [done|]. unfold fields_value in *. rewrite fmap_cons, IHt. cbn [fst snd] in *. by rewrite Hv.
Qed.

Lemma inline_fields t : fields_value ((fun e => (fst e, ItemValue (snd e))) <$> t) = t.
Proof. unfold fields_value. induction t as [|[k v] t IH]; [done|]. by rewrite !fmap_cons, IH. Qed.

(** The path goes through no array. *)
Fixpoint avoids_arrays (v : TomlValue) (segments : list str) : bool :=
  match segments with
  | [] => true
  | segment :: segments =>
      match v with
      | TomlArray _ => false
      | TomlTable t => match index_get segment t with Some c => avoids_arrays c segments | None => true end
      | _ => true
      end
  end.

(** Where an item may hold what is written below it, its fields are those of its value. *)
Lemma ensure_write_value item s segments :
  avoids_arrays (item_value item) (s :: segments) = true ->
  exists table, ensure_table_for_write item = Some table /\ fields_value table = default [] (as_table (item_value item)).
Proof.
  destruct item as [v|fields|tables]; intros Ha.
  - destruct v; try (by exists []). eexists. split; [done|]. apply inline_fields.
  - exists fields. split; [done|]. by rewrite item_value_table.
  - done.
Qed.

Lemma as_table_like_value item : fields_value <$> as_table_like item = as_table (item_value item).
Proof.
  destruct item as [v|fields|tables]; [|by rewrite item_value_table|done]. destruct v; try done. cbn. f_equal. apply inline_fields.
Qed.

Lemma avoids_default_child t segment segments :
  avoids_arrays (TomlTable t) (segment :: segments) = true -> avoids_arrays (default (TomlTable []) (index_get segment t)) segments = true.
Proof. simpl. destruct (index_get segment t); [done|]. intros _. by destruct segments. Qed.

Lemma set_path_cons s rest current v :
  rest <> [] -> set_path current (s :: rest) v =
    match set_path (default (TomlTable []) (index_get s (default [] (as_table current)))) rest v with
    | Ok child => Ok (TomlTable (index_insert s child (default [] (as_table current))))
    | r => r
    end.
Proof. by destruct rest. Qed.

(** A value set in memory is set in the document. *)
Lemma doc_insert_refines segments : forall traversed fields v root,
  free_of_feature (traversed ++ segments) -> avoids_arrays (TomlTable (fields_value fields)) segments = true ->
  set_path (TomlTable (fields_value fields)) segments v = Ok root ->
  exists fields', doc_insert traversed fields segments (toml_value_to_item v) = (fields', true) /\ TomlTable (fields_value fields') = root.
Proof.
  induction segments as [|s segments IH]; intros traversed fields v root Hf Ha Hset; [done|].
  destruct segments as [|s' segments].
  - simpl in Hset. simplify_eq. eexists. split; [done|]. unfold fields_value. by rewrite index_insert_fmap, to_item_value.
  - set (rest := s' :: segments) in *. apply avoids_default_child in Ha.
    rewrite set_path_cons in Hset by done. change (default [] (as_table (TomlTable (fields_value fields)))) with (fields_value fields) in Hset.
    cbn [doc_insert]. fold rest. unfold rest at 1. fold rest. cbn zeta.
    assert (Hitem : item_value (default (ItemTable []) (index_get s fields)) = default (TomlTable []) (index_get s (fields_value fields))).
    { rewrite fields_value_get. by destruct (index_get s fields). }
    set (item := default (ItemTable []) (index_get s fields)) in *. unfold expand_item_flag.
    rewrite (Hf (traversed ++ [s])) by (exists rest; by rewrite <- app_assoc). rewrite <- Hitem in *.
    destruct (ensure_write_value item s' segments Ha) as (table & -> & Htable).
    destruct (set_path (item_value item) rest v) as [child| |] eqn:Echild; simplify_eq.
    assert (Hchild : set_path (TomlTable (fields_value table)) rest v = Ok child).
    { rewrite Htable. destruct (item_value item) as [| | | | | |t] eqn:Ei; try done; unfold rest in *; simpl in Echild |- *; destruct segments; done. }
    destruct (IH (traversed ++ [s]) table v child) as (table' & -> & Hvalue); [by rewrite <- app_assoc| |done|].
    { rewrite Htable. destruct (item_value item) as [| | | | | |t] eqn:Ei; try done; by unfold rest in *; simpl. }
    eexists. split; [done|]. unfold fields_value. rewrite index_insert_fmap, item_value_table. by rewrite Hvalue.
Qed.

(** A value removed in memory is removed from the document. *)
Lemma doc_remove_refines segments : forall fields root changed,
  clear_path_segments (TomlTable (fields_value fields)) segments = (root, changed) ->
  exists fields', doc_remove fields segments = (fields', changed) /\ TomlTable (fields_value fields') = root.
Proof.
  induction segments as [|s segments IH]; intros fields root changed Hc; [simpl in Hc; simplify_eq; by exists fields|].
  destruct segments as [|s' segments].
  - simpl in Hc. simplify_eq. eexists. split; [cbn; unfold fields_value; by rewrite contains_key_fmap|]. unfold fields_value. by rewrite shift_remove_fmap.
  - set (rest := s' :: segments) in *. cbn [clear_path_segments] in Hc. fold rest in Hc. unfold rest at 1 in Hc. fold rest in Hc.
    rewrite fields_value_get in Hc. cbn [doc_remove]. fold rest. unfold rest at 1. fold rest.
    destruct (index_get s fields) as [item|] eqn:Ei; cbn [fmap option_fmap option_map mbind option_bind] in *; [|simplify_eq; by exists fields].
    pose proof (as_table_like_value item) as Hlike. unfold ensure_table_for_read. destruct (as_table_like item) as [table|]; cbn in Hlike.
    + assert (Hv : item_value item = TomlTable (fields_value table)) by (destruct (item_value item); simpl in Hlike; by simplify_eq).
      rewrite Hv in Hc. destruct (clear_path_segments (TomlTable (fields_value table)) rest) as [next ch] eqn:En. simplify_eq.
      destruct (IH table next changed En) as (table' & -> & Hnext). eexists. split; [done|]. unfold fields_value. rewrite index_insert_fmap, item_value_table.
      by rewrite Hnext.
    + assert (Hn : clear_path_segments (item_value item) rest = (item_value item, false)) by (destruct (item_value item); done).
      rewrite Hn in Hc. simplify_eq. exists fields. split; [done|]. rewrite index_insert_same; [done|]. by rewrite fields_value_get, Ei.
Qed.

(** *** Reading back *)

Lemma value_at_path_set segments : forall root v root', set_path root segments v = Ok root' -> value_at_path root' segments = Some v.
Proof.
  induction segments as [|s segments IH]; intros root v root' Hset; [done|]. destruct segments as [|s' segments].
  - destruct root; simpl in Hset; simplify_eq. cbn. by rewrite index_get_insert_eq.
  - rewrite set_path_cons in Hset by done. set (rest := s' :: segments) in *. destruct (set_path _ rest v) as [child| |] eqn:Ec; simplify_eq. cbn [value_at_path]. rewrite index_get_insert_eq. cbn. by apply (IH _ _ _ Ec).
Qed.

(** What is there already can be set again. *)
Lemma set_path_same segments : forall root v, segments <> [] -> avoids_arrays root segments = true -> value_at_path root segments = Some v -> set_path root segments v = Ok root.
Proof.
  induction segments as [|s segments IH]; intros root v Hne Ha Hv; [done|]. destruct root as [| | | | | |t]; try done.
  cbn [value_at_path] in Hv. cbn [avoids_arrays] in Ha. destruct (index_get s t) as [c|] eqn:Ec; [|done]. cbn in Hv.
  destruct segments as [|s' segments]; [simpl in Hv; simplify_eq; cbn; by rewrite index_insert_same|].
  rewrite set_path_cons by done. change (default [] (as_table (TomlTable t))) with t. rewrite Ec.
  change (default (TomlTable []) (Some c)) with c. rewrite (IH c v) by done. by rewrite index_insert_same.
Qed.

Lemma clear_path_absent segments : forall root, segments <> [] -> avoids_arrays root segments = true -> value_at_path root segments = None -> clear_path_segments root segments = (root, false).
Proof.
  induction segments as [|s segments IH]; intros root Hne Ha Hv; [done|]. destruct root as [| | | | | |t]; try done.
  cbn [value_at_path] in Hv. cbn [avoids_arrays] in Ha. destruct segments as [|s' segments].
  - destruct (index_get s t) as [c|] eqn:Ec; [done|]. cbn. by rewrite contains_key_false, shift_remove_absent.
  - set (rest := s' :: segments) in *. cbn [clear_path_segments]. fold rest. unfold rest at 1. fold rest.
    destruct (index_get s t) as [c|] eqn:Ec; [|done]. cbn in Hv. rewrite IH by done. by rewrite index_insert_same.
Qed.

Lemma clear_path_present segments : forall root root' changed,
  segments <> [] -> avoids_arrays root segments = true -> clear_path_segments root segments = (root', changed) ->
  (changed = true <-> is_Some (value_at_path root segments)) /\ (changed = true -> value_at_path root' segments = None).
Proof.
  induction segments as [|s segments IH]; intros root root' changed Hne Ha Hc; [done|].
  destruct root as [| | | | | |t]; try (cbn in Ha; discriminate); try (simpl in *; simplify_eq; split; [split; [done|intros [? ?]; done]|done]).
  cbn [avoids_arrays] in Ha. destruct segments as [|s' segments].
  - cbn [clear_path_segments] in Hc. injection Hc as <- <-. clear Ha IH. cbn [value_at_path]. unfold contains_key. rewrite bool_decide_eq_true. split; [|intros _; by rewrite index_get_remove_eq].
    destruct (index_get s t); cbn; split; intros [? ?]; eauto.
  - set (rest := s' :: segments) in *. cbn [clear_path_segments] in Hc. fold rest in Hc. unfold rest at 1 in Hc. fold rest in Hc. cbn [value_at_path].
    destruct (index_get s t) as [c|] eqn:Ec; [|simplify_eq; rewrite Ec; split; [split; [done|intros [? ?]; done]|done]]. cbn.
    destruct (clear_path_segments c rest) as [c' ch] eqn:En. simplify_eq. rewrite index_get_insert_eq. cbn. by apply (IH c c').
Qed.

(** *** One edit *)

Lemma depth_no_feature segments : multi_agent_v2_feature_depth segments = None -> free_of_feature segments.
Proof.
  unfold multi_agent_v2_feature_depth, free_of_feature. intros Hd q [r ->].
  destruct (is_multi_agent_v2_feature_path q) eqn:Hq; [|done]. exfalso.
  destruct q as [|a [|b [|c [|d [|e q]]]]]; try done.
  - change (take 2 ([a; b] ++ r)) with [a; b] in Hd. by rewrite Hq in Hd.
  - change (take 4 ([a; b; c; d] ++ r)) with [a; b; c; d] in Hd. rewrite Hq in Hd. by destruct (is_multi_agent_v2_feature_path (take 2 _)).
Qed.

Section refinement.
Context `{CaseMapping}.

(** The edit neither merges tables nor concerns the flag, its path goes through no array, and a value
    it sets has no table in it. *)
Definition plain_edit (cfg : TomlValue) (segments : list str) (value : option TomlValue) (strategy : MergeStrategy) : bool :=
  bool_decide (multi_agent_v2_feature_depth segments = None) && avoids_arrays cfg segments &&
  match value with Some v => flat v && negb (merges_value cfg segments v strategy) | None => true end.

Lemma option_eqb_None v : option_eqb v None = true -> v = None.
Proof. by destruct v. Qed.

Lemma edit_refines cfg segments value strategy cfg' fields :
  segments <> [] -> plain_edit cfg segments value strategy = true -> apply_merge cfg segments value strategy = Ok cfg' -> TomlTable (fields_value fields) = cfg ->
  exists fields' mutated, apply_doc_edits fields (edit_of segments (value_at_path cfg segments) (value_at_path cfg' segments)) = (fields', mutated) /\
    TomlTable (fields_value fields') = cfg' /\ (mutated = false -> fields' = fields).
Proof.
  intros Hne [[Hd%bool_decide_eq_true Ha]%andb_prop Hv]%andb_prop Hm <-. unfold apply_merge in Hm. apply depth_no_feature in Hd. destruct value as [v|].
  - apply andb_prop in Hv as [Hflat Hmerge%negb_true_iff]. rewrite Hmerge in Hm. destruct segments as [|s segments]; [done|]. cbn [is_empty] in Hm.
    set (segs := s :: segments) in *. rewrite (value_at_path_set segs _ _ _ Hm). unfold edit_of.
    destruct (option_eqb _ _) eqn:Eq.
    + destruct (value_at_path _ segs) as [u|] eqn:Eu; [|done]. apply toml_eqb_flat in Eq; [subst u|done].
      exists fields, false. split_and!; [done| |done]. rewrite (set_path_same segs _ v) in Hm; [by simplify_eq|done..].
    + destruct (doc_insert_refines segs [] fields v cfg' Hd Ha Hm) as (fields' & Hins & Hval). exists fields', true. split_and!; [|done|done].
      unfold apply_doc_edits. cbn [foldl apply_edit]. rewrite (Hd segs) by done. cbn [andb]. by rewrite Hins.
  - unfold clear_path in Hm. destruct segments as [|s segments]; [done|]. cbn [is_empty] in Hm. set (segs := s :: segments) in *.
    destruct (clear_path_segments (TomlTable (fields_value fields)) segs) as [root changed] eqn:Ec. simpl in Hm. simplify_eq.
    destruct (clear_path_present segs _ _ _ Hne Ha Ec) as [Hch Hgone]. unfold edit_of. destruct (value_at_path (TomlTable (fields_value fields)) segs) as [u|] eqn:Eu.
    + assert (changed = true) as -> by (by apply Hch). rewrite Hgone by done. cbn [option_eqb].
      destruct (doc_remove_refines segs fields cfg' true Ec) as (fields' & Hrem & Hval). exists fields', true. split_and!; [|done|done].
      unfold apply_doc_edits. cbn [foldl apply_edit]. by rewrite Hrem.
    + rewrite (clear_path_absent segs _ Hne Ha Eu) in Ec. simplify_eq. rewrite Eu. cbn. by exists fields, false.
Qed.
End refinement.

Section requests.
Context `{CaseMapping} `{FilterDecoding} `{Serialization} `{PathEnv} `{ConfigManagerDeps}.

Definition plain_request_edit (cfg : TomlValue) (edit : str * Json * MergeStrategy) : bool :=
  let '(key_path, value, strategy) := edit in
  match parse_key_path key_path, parse_value value with
  | Ok segments, Ok parsed => plain_edit cfg (written_segments cfg segments value strategy) parsed strategy
  | _, _ => true
  end.

Fixpoint plain_steps (requirements : ExactRequirements) (state : EditState) (edits : list (str * Json * MergeStrategy)) : bool :=
  match edits with
  | [] => true
  | edit :: edits =>
      plain_request_edit (user_config state) edit &&
      match edit_step requirements state edit with Ok state => plain_steps requirements state edits | _ => true end
  end.

Lemma merge_nonempty cfg segments value strategy cfg' : apply_merge cfg segments value strategy = Ok cfg' -> segments <> [].
Proof. intros Hm ->. unfold apply_merge, clear_path in Hm. by destruct value. Qed.

Lemma persisted_plain cfg segments value strategy : plain_edit cfg segments value strategy = true -> persisted_segments cfg segments value strategy = segments.
Proof.
  intros [_ Hv]%andb_prop. unfold persisted_segments. destruct strategy; [done|]. destruct value as [v|]; [|done]. simpl.
  destruct (shell_environment_policy_representation_switch cfg segments v) eqn:E; [|done]. apply andb_prop in Hv as [_ Hv%negb_true_iff].
  unfold merges_value in Hv. by rewrite E, orb_true_r in Hv.
Qed.

(** What a step that succeeds has done. *)
Lemma edit_step_Ok req state edit state' :
  edit_step req state edit = Ok state' ->
  exists key_path value strategy segments parsed cfg, edit = (key_path, value, strategy) /\ parse_key_path key_path = Ok segments /\ parse_value value = Ok parsed /\
    exact_requirement_for_config_path req segments = None /\
    let written := written_segments (user_config state) segments value strategy in
    let persist := persisted_segments (user_config state) written parsed strategy in
    apply_merge (user_config state) written parsed strategy = Ok cfg /\
    state' = mkEditState cfg (parsed_segments state ++ [written])
      (config_edits state ++ edit_of persist (value_at_path (user_config state) persist) (value_at_path cfg persist)).
Proof.
  destruct edit as [[key_path value] strategy]. unfold edit_step, refuse_if. destruct (parse_key_path key_path) as [segments| |] eqn:Ep; cbn [map_err]; try done.
  destruct (exact_requirement_for_config_path req segments) eqn:Er; [done|].
  destruct (if is_null value then None else _); [done|]. destruct (parse_value value) as [parsed| |] eqn:Ev; cbn [map_err]; try done.
  destruct (checked_overlay _ _ _); [done|]. cbn zeta. destruct (apply_merge _ _ _ _) as [cfg| |] eqn:Em; cbn [map_err]; try done.
  intros Heq. simplify_eq. by exists key_path, value, strategy, segments, parsed, cfg.
Qed.

Lemma apply_doc_edits_app fields es es' fields1 m1 fields2 m2 :
  apply_doc_edits fields es = (fields1, m1) -> apply_doc_edits fields1 es' = (fields2, m2) -> apply_doc_edits fields (es ++ es') = (fields2, m1 || m2).
Proof.
  unfold apply_doc_edits. intros H1' H2'. rewrite foldl_app, H1'. clear H1'.
  assert (Hgen : forall es f m f' m', foldl (fun '(doc, mutated) edit => let '(doc, x) := apply_edit doc edit in (doc, mutated || x)) (f, m) es = (f', m') ->
    foldl (fun '(doc, mutated) edit => let '(doc, x) := apply_edit doc edit in (doc, mutated || x)) (f, m1 || m) es = (f', m1 || m')).
  { induction es0 as [|e es0 IH]; intros f m f' m'; simpl; [intros; by simplify_eq|]. destruct (apply_edit f e) as [f0 x]. rewrite <- orb_assoc. apply IH. }
  specialize (Hgen es' fields1 false fields2 m2 H2'). by rewrite orb_false_r in Hgen.
Qed.

(** The document so far says what the configuration in memory does. *)
Definition in_step (doc : list (str * Item)) (state : EditState) : Prop :=
  exists fields mutated, apply_doc_edits doc (config_edits state) = (fields, mutated) /\
    TomlTable (fields_value fields) = user_config state /\ (mutated = false -> fields = doc).

Lemma edit_step_in_step req doc state edit state' :
  in_step doc state -> plain_request_edit (user_config state) edit = true -> edit_step req state edit = Ok state' -> in_step doc state'.
Proof.
  intros (fields & mutated & Hdoc & Hval & Hsame) Hplain (key_path & value & strategy & segments & parsed & cfg & -> & Hp & Hv & _ & Hm & ->)%edit_step_Ok.
  unfold plain_request_edit in Hplain. rewrite Hp, Hv in Hplain. rewrite (persisted_plain _ _ _ _ Hplain).
  destruct (edit_refines _ _ _ _ _ fields (merge_nonempty _ _ _ _ _ Hm) Hplain Hm Hval) as (fields' & mutated' & Hdoc' & Hval' & Hsame').
  exists fields', (mutated || mutated'). split_and!; [exact (apply_doc_edits_app _ _ _ _ _ _ _ Hdoc Hdoc')|done|].
  intros [Hm1 Hm2]%orb_false_iff. by rewrite Hsame', Hsame.
Qed.

Lemma edit_steps_in_step req doc edits : forall state state',
  in_step doc state -> plain_steps req state edits = true -> edit_steps req state edits = Ok state' -> in_step doc state'.
Proof.
  induction edits as [|e edits IH]; intros state state' Hin Hplain Hsteps; [simpl in Hsteps; by simplify_eq|].
  cbn [plain_steps edit_steps] in *. apply andb_prop in Hplain as [Hp Hplain].
  destruct (edit_step req state e) as [st| |] eqn:Es; try done. by apply (IH st); [apply (edit_step_in_step req doc state e)|..].
Qed.

(** *** The request *)

Lemma insert_layer_elem u ls : u ∈ insert_layer u ls.
Proof. induction ls as [|l ls IH]; simpl; [set_solver|]. case_match; set_solver. Qed.

Lemma with_user_config_active (layers updated : ConfigLayerStack Requirements ExactRequirements) file cfg :
  with_user_config layers file cfg = inl updated -> get_active_user_layer updated <> None.
Proof.
  unfold with_user_config, with_user_config_profile. destruct (validate_enabled_config_layers _); [|done]. intros Heq. simplify_eq.
  unfold get_active_user_layer. intros Hn. eapply List.find_none in Hn; [|apply in_rev; rewrite rev_involutive; apply list_elem_of_In, insert_layer_elem]. done.
Qed.

(** What a request that goes on to the file has checked. *)
Lemma prepare_edits_Ok file expected edits es answer :
  prepare_edits file expected edits = Ok (es, answer) ->
  (exists resp, answer = Ok resp) /\
  exists layers layer state, load_thread_agnostic_config = inl layers /\
    (get_active_user_layer layers = Some layer \/
      get_active_user_layer layers = None /\ exists path, user_config_path = inl path /\ create_empty_user_layer path = Ok layer) /\
    (forall v, expected = Some v -> v = layer_version layer) /\
    edit_steps (requirements_toml layers) (mkEditState (layer_config layer) [] []) edits = Ok state /\
    validate_config (user_config state) = None /\ validate_feature_requirements (user_config state) (requirements layers) = None /\
    es = config_edits state.
Proof.
  unfold prepare_edits, refuse_if, io_error. intros Happ.
  destruct user_config_path as [allowed|] eqn:Eup; [|done].
  destruct (match file with Some path => _ | None => _ end) as [provided| |] eqn:Eprov; try done.
  destruct (negb (paths_match allowed provided)); [done|]. destruct load_thread_agnostic_config as [layers|]; [|done].
  destruct (match get_active_user_layer layers with Some layer => _ | None => _ end) as [layer| |] eqn:El; try done.
  destruct (is_some_and expected _) eqn:Eexp; [done|]. destruct (edit_steps _ _ edits) as [state| |] eqn:Est; try done.
  destruct (validate_config (user_config state)) eqn:E1; [done|]. destruct (deserialize_config_toml (user_config state)); [done|].
  destruct (validate_feature_requirements (user_config state) (requirements layers)) eqn:E2; [done|].
  destruct (with_user_config layers provided (user_config state)) as [updated|] eqn:Eu; [|done]. cbn zeta in Happ.
  destruct (validate_config (effective_config updated)); [done|]. apply with_user_config_active in Eu.
  destruct (get_active_user_layer updated) as [active|]; [|done]. injection Happ as <- <-. split; [by eexists|].
  exists layers, layer, state. split_and!; try done.
  - destruct (get_active_user_layer layers); [left; by simplify_eq|]. right. split; [done|]. exists allowed. split; [done|].
    by destruct (create_empty_user_layer allowed); simplify_eq.
  - intros v ->. simpl in Eexp. apply negb_false_iff in Eexp. by apply str_eqb_spec.
Qed.

(** Either the request ends before the file is touched, or it answers. *)
Lemma apply_edits_cases file expected edits doc doc' answer :
  apply_edits file expected edits doc = (doc', answer) ->
  (doc' = doc /\ forall resp, answer <> Ok resp) \/
  (exists es resp, answer = Ok resp /\ prepare_edits file expected edits = Ok (es, Ok resp) /\ doc' = apply_blocking doc es).
Proof.
  unfold apply_edits. intros Happ. destruct (prepare_edits file expected edits) as [[es ans]| |] eqn:Ep; [|left; by simplify_eq..].
  pose proof (prepare_edits_Ok _ _ _ _ _ Ep) as [[resp ->] _]. destruct es as [|e es]; [right; simplify_eq; by exists [], resp|].
  destruct persist_error; [left; by simplify_eq|]. right. simplify_eq. by exists (e :: es), resp.
Qed.

(** The document after a request with plain edits. *)
Lemma written_document file expected edits doc doc' resp layers layer :
  load_thread_agnostic_config = inl layers -> get_active_user_layer layers = Some layer ->
  TomlTable (fields_value doc) = layer_config layer ->
  plain_steps (requirements_toml layers) (mkEditState (layer_config layer) [] []) edits = true ->
  apply_edits file expected edits doc = (doc', Ok resp) ->
  exists state, edit_steps (requirements_toml layers) (mkEditState (layer_config layer) [] []) edits = Ok state /\
    TomlTable (fields_value doc') = user_config state /\
    validate_config (user_config state) = None /\ validate_feature_requirements (user_config state) (requirements layers) = None.
Proof.
  intros Hload Huser Hdoc Hplain [[_ Hn] | (es & resp' & _ & Hprep & ->)]%apply_edits_cases; [by destruct (Hn resp)|].
  apply prepare_edits_Ok in Hprep as [_ (layers' & layer' & state & Hload' & Hl & _ & Hst & Hv1 & Hv2 & ->)]. rewrite Hload in Hload'. simplify_eq.
  destruct Hl as [Hl|[Hl _]]; [|congruence]. rewrite Huser in Hl. simplify_eq. exists state. split_and!; [done| |done|done].
  assert (Hin : in_step doc state).
  { apply (edit_steps_in_step (requirements_toml layers') doc edits (mkEditState (layer_config layer') [] [])); [|done|done].
    exists doc, false. by split_and!. }
  destruct Hin as (fields & mutated & Hd & Hval & Hsame). unfold apply_blocking. rewrite Hd. destruct mutated; [done|]. by rewrite <- Hsame.
Qed.

(** C14: after a write that succeeds, the file says exactly what the configuration that was checked
    says: the one the edits make of the user's configuration, which passed the checks of the types and
    of the requirements on features.  It is stated for edits that set values without tables or remove
    values, at paths through tables, and do not merge. *)
Theorem written_file_is_checked_configuration file expected edits doc doc' resp layers layer :
  load_thread_agnostic_config = inl layers -> get_active_user_layer layers = Some layer ->
  TomlTable (fields_value doc) = layer_config layer ->
  plain_steps (requirements_toml layers) (mkEditState (layer_config layer) [] []) edits = true ->
  apply_edits file expected edits doc = (doc', Ok resp) ->
  exists state, edit_steps (requirements_toml layers) (mkEditState (layer_config layer) [] []) edits = Ok state /\
    TomlTable (fields_value doc') = user_config state /\
    validate_config (user_config state) = None /\ validate_feature_requirements (user_config state) (requirements layers) = None.
Proof. apply written_document. Qed.

(** *** Refused requests *)

(** C31: a write that does not succeed leaves what the file says as it was.  One that succeeds was
    made for the version of the active user layer, as it is loaded for the write, if its sender
    named a version (of the layer that is read from the user's file where none is active yet),
    and none of its edits is for a field that the requirements fix, or for a table or a value
    around it. *)
Theorem refused_writes_change_nothing file expected edits doc doc' answer :
  apply_edits file expected edits doc = (doc', answer) ->
  match answer with
  | Ok _ =>
      exists layers layer, load_thread_agnostic_config = inl layers /\
        (get_active_user_layer layers = Some layer \/
         get_active_user_layer layers = None /\ exists path, user_config_path = inl path /\ create_empty_user_layer path = Ok layer) /\
        (forall v, expected = Some v -> v = layer_version layer) /\
        Forall (fun '(key_path, _, _) => exists segments, parse_key_path key_path = Ok segments /\
          exact_requirement_for_config_path (requirements_toml layers) segments = None) edits
  | _ => doc' = doc
  end.
Proof.
  intros [[-> Hn] | (es & resp & -> & Hprep & _)]%apply_edits_cases; [destruct answer; [by destruct (Hn a)|done..]|].
  apply prepare_edits_Ok in Hprep as [_ (layers & layer & state & Hload & Hlay & Hver & Hst & _)]. exists layers, layer. split_and!; [done..|].
  revert Hst. generalize (mkEditState (layer_config layer) [] []). clear Hver Hlay. induction edits as [|edit edits IH]; intros st Hst; [constructor|].
  cbn [edit_steps] in Hst. destruct (edit_step _ st edit) as [st'| |] eqn:Es; try done. constructor; [|by apply (IH st')].
  apply edit_step_Ok in Es as (key_path & value & strategy & segments & parsed & cfg & -> & Hp & _ & Hr & _). by exists segments.
Qed.

(** *** Managed fields *)

Lemma set_path_elsewhere segments : forall m root v root',
  config_paths_overlap segments m = false -> set_path root segments v = Ok root' -> toml_at m root' = toml_at m root.
Proof.
  unfold config_paths_overlap. induction segments as [|s segments IH]; intros [|k m] root v root' Ho Hset; try done.
  cbn [zip zip_with forallb] in Ho. unfold str_eqb in Ho. destruct (decide (s = k)) as [->|Hn].
  - rewrite bool_decide_true in Ho by done. cbn [andb] in Ho. destruct segments as [|s' segments]; [done|]. destruct m as [|k' m]; [done|].
    rewrite set_path_cons in Hset by done. destruct (set_path _ (s' :: segments) v) as [child| |] eqn:Ec; simplify_eq.
    apply (IH (k' :: m)) in Ec; [|done]. rewrite !(toml_at_table k). cbn [as_table mbind option_bind]. rewrite index_get_insert_eq. cbn [mbind option_bind]. rewrite Ec.
    destruct root as [| | | | | |t]; try done. cbn [as_table mbind option_bind]. change (default [] (Some t)) with t. by destruct (index_get k t).
  - assert (Ht : exists x, root' = TomlTable (index_insert s x (default [] (as_table root)))).
    { destruct segments as [|s' segments]; [destruct root; simpl in Hset; simplify_eq; by eexists|].
      rewrite set_path_cons in Hset by done. destruct (set_path _ (s' :: segments) v); simplify_eq. by eexists. }
    destruct Ht as [x ->]. cbn [toml_at]. rewrite index_get_insert_ne by done. by destruct root.
Qed.

Lemma clear_path_elsewhere segments : forall m root, config_paths_overlap segments m = false -> toml_at m (fst (clear_path_segments root segments)) = toml_at m root.
Proof.
  unfold config_paths_overlap. induction segments as [|s segments IH]; intros [|k m] root Ho; try done.
  cbn [zip zip_with forallb] in Ho. unfold str_eqb in Ho. destruct root as [| | | | | |t]; try done. destruct segments as [|s' segments].
  - cbn [clear_path_segments fst toml_at]. destruct (decide (s = k)) as [->|Hn]; [by rewrite bool_decide_true in Ho|]. by rewrite index_get_remove_ne.
  - set (rest := s' :: segments) in *. cbn [clear_path_segments]. unfold rest at 1. fold rest. destruct (index_get s t) as [c|] eqn:Ec; [|done].
    destruct (clear_path_segments c rest) as [c' ch] eqn:En. cbn [fst toml_at]. destruct (decide (s = k)) as [->|Hn]; [|by rewrite index_get_insert_ne].
    rewrite bool_decide_true in Ho by done. rewrite index_get_insert_eq, Ec. cbn. specialize (IH m c Ho). by rewrite En in IH.
Qed.

Lemma merge_elsewhere cfg segments value strategy cfg' m :
  plain_edit cfg segments value strategy = true -> apply_merge cfg segments value strategy = Ok cfg' -> config_paths_overlap segments m = false ->
  toml_at m cfg' = toml_at m cfg.
Proof.
  intros [_ Hv]%andb_prop Hm Ho. unfold apply_merge, clear_path in Hm. destruct value as [v|].
  - apply andb_prop in Hv as [_ Hmerge%negb_true_iff]. rewrite Hmerge in Hm. destruct (is_empty segments); [done|]. by apply (set_path_elsewhere segments m cfg v).
  - destruct (is_empty segments); [done|]. simpl in Hm. simplify_eq. by apply clear_path_elsewhere.
Qed.

(** Whether the field is fixed, by its path. *)
Definition managed_path (r : ExactRequirements) (m : list str) : Prop := exists field, (true, m, field) ∈ managed_fields r.

Lemma managed_no_overlap r segments m : managed_path r m -> exact_requirement_for_config_path r segments = None -> config_paths_overlap segments m = false.
Proof.
  intros (field & Hin) Hnone. unfold exact_requirement_for_config_path in Hnone. destruct (find _ _) eqn:Ef; [done|].
  apply list_elem_of_In in Hin. eapply List.find_none in Ef; [|exact Hin]. done.
Qed.

(** The filters of the shell environment are not among the managed fields. *)
Lemma written_no_overlap r cfg segments value strategy m :
  managed_path r m -> config_paths_overlap segments m = false -> config_paths_overlap (written_segments cfg segments value strategy) m = false.
Proof.
  intros (field & Hin) Ho. unfold written_segments. destruct (is_null value || _); [|done].
  unfold shell_environment_filter_entry. destruct segments as [|policy [|filters [|pattern [|]]]]; try done.
  destruct (str_eqb policy (lit "shell_environment_policy")) eqn:Ep; [|done]. apply str_eqb_spec in Ep as ->.
  destruct (negb _ || negb _); [done|]. repeat case_match; try done.
  assert (Hm : m ∈ ((fun e => e.1.2) <$> managed_fields r)) by (apply list_elem_of_fmap; by exists (true, m, field)).
  set_unfold in Hm. naive_solver.
Qed.

Lemma edit_steps_managed req m edits : forall state state',
  managed_path req m -> plain_steps req state edits = true -> edit_steps req state edits = Ok state' -> toml_at m (user_config state') = toml_at m (user_config state).
Proof.
  induction edits as [|e edits IH]; intros state state' Hm Hplain Hsteps; [simpl in Hsteps; by simplify_eq|].
  cbn [plain_steps edit_steps] in *. apply andb_prop in Hplain as [Hp Hplain]. destruct (edit_step req state e) as [st| |] eqn:Es; try done.
  rewrite (IH st state') by done. apply edit_step_Ok in Es as (key_path & value & strategy & segments & parsed & cfg & -> & Hk & Hv & Hr & Hmerge & ->).
  unfold plain_request_edit in Hp. rewrite Hk, Hv in Hp. cbn [user_config]. eapply merge_elsewhere; [exact Hp|exact Hmerge|].
  eapply written_no_overlap; [exact Hm|]. by eapply managed_no_overlap.
Qed.

(** C18: a write never changes a field that the requirements fix: what the file says at the field's path
    is the same before and after, whether or not the write succeeds.  It is stated for the edits of
    [written_file_is_checked_configuration]. *)
Theorem managed_fields_are_kept file expected edits doc doc' answer layers layer m :
  load_thread_agnostic_config = inl layers -> get_active_user_layer layers = Some layer ->
  TomlTable (fields_value doc) = layer_config layer ->
  plain_steps (requirements_toml layers) (mkEditState (layer_config layer) [] []) edits = true ->
  managed_path (requirements_toml layers) m ->
  apply_edits file expected edits doc = (doc', answer) ->
  toml_at m (TomlTable (fields_value doc')) = toml_at m (TomlTable (fields_value doc)).
Proof.
  intros Hload Huser Hdoc Hplain Hm Happ. destruct (apply_edits_cases _ _ _ _ _ _ Happ) as [[-> _] | (es & resp & -> & _)]; [done|].
  destruct (written_document _ _ _ _ _ _ _ _ Hload Huser Hdoc Hplain Happ) as (state & Hst & -> & _). rewrite Hdoc.
  by rewrite (edit_steps_managed _ m edits _ _ Hm Hplain Hst).
Qed.
End requests.

(** ** On concrete requests *)

Module EditSamples.
Import Samples.

#[local] Existing Instance ascii_case.
#[local] Existing Instance sample_decoding.
#[local] Existing Instance sample_serialization.
#[local] Existing Instance example_env.

Definition config_file : str := lit "/home/u/.codex/config.toml".
Definition sample_doc : list (str * Item) :=
  [(lit "model", ItemValue (TomlString (lit "a"))); (lit "feedback", ItemTable [(lit "enabled", ItemValue (TomlBoolean false))])].
Definition sample_layer : ConfigLayerEntry := new_layer (User config_file None) (TomlTable (fields_value sample_doc)).
Definition sample_requirements : ExactRequirements := mkExact None None None None None (Some false) None.
Definition sample_layers : ConfigLayerStack unit ExactRequirements := mkStack [sample_layer] tt sample_requirements false None.

#[local] Instance sample_deps : ConfigManagerDeps := {|
  Requirements := unit;
  user_config_path := inl config_file;
  load_thread_agnostic_config := inl sample_layers;
  user_file _ := inl MissingFile;
  create_error := None;
  normalize_for_path_comparison path := inl path;
  from_json v := match v with JsonBool b => inl (TomlBoolean b) | JsonString s => inl (TomlString s) | _ => inr (lit "unsupported") end;
  validate_config v := match toml_at [lit "model"] v with Some (TomlBoolean _) => Some (lit "model is a text") | _ => None end;
  deserialize_config_toml _ := None;
  validate_feature_requirements _ _ := None;
  persist_error := None
|}.

Definition stack : ConfigLayerStack Requirements ExactRequirements := sample_layers.

Definition sample_edits : list (str * Json * MergeStrategy) :=
  [(lit "model", JsonString (lit "b"), Replace); (lit "tui.notifications", JsonBool true, Upsert); (lit "missing", JsonNull, Replace)].
Definition sample_written : list (str * Item) :=
  [(lit "model", ItemValue (TomlString (lit "b"))); (lit "feedback", ItemTable [(lit "enabled", ItemValue (TomlBoolean false))]);
   (lit "tui", ItemTable [(lit "notifications", ItemValue (TomlBoolean true))])].

Lemma written_file_is_checked_configuration_witness :
  exists resp, apply_edits None (Some (layer_version sample_layer)) sample_edits sample_doc = (sample_written, Ok resp) /\
    exists state, edit_steps sample_requirements (mkEditState (layer_config sample_layer) [] []) sample_edits = Ok state /\
      TomlTable (fields_value sample_written) = user_config state /\ validate_config (user_config state) = None /\ validate_feature_requirements (user_config state) tt = None.
Proof.
  eexists. split; [vm_compute; reflexivity|].
  eapply (written_file_is_checked_configuration None (Some (layer_version sample_layer)) sample_edits sample_doc sample_written _ stack sample_layer);
    [reflexivity|vm_compute; reflexivity|reflexivity|vm_compute; reflexivity|vm_compute; reflexivity].
Defined.

Definition refused_edit : list (str * Json * MergeStrategy) := [(lit "feedback.enabled", JsonBool true, Replace)].
Definition refused_error : ConfigManagerError := WriteError ConfigRequirementReadonly (lit "`feedback.enabled` is managed by requirements and cannot be changed").

Lemma refused_writes_change_nothing_witness : exists doc', apply_edits None None refused_edit sample_doc = (doc', Err refused_error) /\ doc' = sample_doc.
Proof.
  exists sample_doc. assert (Happ : apply_edits None None refused_edit sample_doc = (sample_doc, Err refused_error)) by (vm_compute; reflexivity).
  split; [exact Happ|]. exact (refused_writes_change_nothing None None refused_edit sample_doc sample_doc (Err refused_error) Happ).
Defined.

Lemma managed_fields_are_kept_witness :
  toml_at [lit "feedback"; lit "enabled"] (TomlTable (fields_value sample_written)) = Some (TomlBoolean false).
Proof.
  rewrite (managed_fields_are_kept None (Some (layer_version sample_layer)) sample_edits sample_doc sample_written
    (snd (apply_edits None (Some (layer_version sample_layer)) sample_edits sample_doc)) stack sample_layer [lit "feedback"; lit "enabled"]);
    [reflexivity|reflexivity|vm_compute; reflexivity|reflexivity|vm_compute; reflexivity| |vm_compute; reflexivity].
  exists (lit "feedback.enabled"). vm_compute. do 5 right. left.
Defined.

(** A value above the parent of the key gives way to a table, one at the parent is an error. *)
Example parent_refused_ancestor_replaced :
  set_path (table [("a"%string, TomlInteger 1)]) [lit "a"; lit "b"] (TomlInteger 2) = Err (lit "cannot set value on non-table parent") /\
  set_path (table [("a"%string, TomlInteger 1)]) [lit "a"; lit "b"; lit "c"] (TomlInteger 2)
  = Ok (table [("a"%string, table [("b"%string, table [("c"%string, TomlInteger 2)])])]).
Proof. split; vm_compute; reflexivity. Qed.

(** A path through an array reads an item of it and replaces the array by a table: a value that is
    there already is then taken for unchanged, and the file is not written. *)
Example array_item_write_is_lost :
  let before := table [("a"%string, TomlArray [table [("b"%string, TomlInteger 5)]])] in
  let after := table [("a"%string, table [("0"%string, table [("b"%string, TomlInteger 5)])])] in
  let path := [lit "a"; lit "0"; lit "b"] in
  apply_merge before path (Some (TomlInteger 5)) Replace = Ok after /\
  edit_of path (value_at_path before path) (value_at_path after path) = [].
Proof. split; vm_compute; reflexivity. Qed.

End EditSamples.
