(* ===== verification/ShellEnv.v ===== *)
(** * Environments of commands

    Models [protocol/src/shell_environment.rs], the policies of [protocol/src/config_types.rs] and of
    [config/src/shell_environment_policy.rs], and [core/src/exec_env.rs]: which variables a command that
    the model runs is given.  The variants for Windows are left out. *)

From stdpp Require Import base list strings sets gmap.
From S2P Require Import Prelude ConfigLayers.

(** [WildMatchPattern<'*', '?'>::matches] of the crate [wildmatch], for a pattern that ignores case. *)
Class Patterns := { pattern_matches : str -> str -> bool }.

Definition CODEX_SESSION_ID_ENV_VAR : str := lit "CODEX_SESSION_ID".
Definition CODEX_THREAD_ID_ENV_VAR : str := lit "CODEX_THREAD_ID".
Definition CODEX_PERMISSION_PROFILE_ENV_VAR : str := lit "CODEX_PERMISSION_PROFILE".
Definition CODEX_APPLY_PATCH_PRESERVE_LINE_ENDINGS_ENV_VAR : str := lit "CODEX_APPLY_PATCH_PRESERVE_LINE_ENDINGS".

Definition NON_INHERITABLE_ENV_VARS : list str := [lit "OPENAI_FEDERATION_RULE_ID"; lit "OPENAI_IDENTITY_TOKEN_FILE"].
Definition is_non_inheritable_env_var (name : str) : bool := existsb (fun restricted => eq_ignore_ascii_case restricted name) NON_INHERITABLE_ENV_VARS.

Definition UNIX_CORE_ENV_VARS : list str :=
  map lit ["PATH"; "SHELL"; "TMPDIR"; "TEMP"; "TMP"; "HOME"; "LANG"; "LC_ALL"; "LC_CTYPE"; "LOGNAME"; "USER"]%string.

(** ** Policies *)

Inductive ShellEnvironmentPolicyInherit : Type := InheritCore | InheritAll | InheritNone.

Record ShellEnvironmentPolicy := mkPolicy {
  inherit : ShellEnvironmentPolicyInherit;
  ignore_default_excludes : bool;
  exclude : list str;
  set_vars : gmap str str;
  include_only : list str;
  use_profile : bool
}.

Definition default_policy : ShellEnvironmentPolicy := mkPolicy InheritAll true [] ∅ [] false.

Record ShellEnvironmentPolicyToml := mkPolicyToml {
  toml_inherit : option ShellEnvironmentPolicyInherit;
  toml_ignore_default_excludes : option bool;
  toml_exclude : option (list str);
  toml_set : option (gmap str str);
  toml_include_only : option (list str);
  toml_filters : option (list (str * ShellEnvironmentPolicyFilter));
  experimental_use_profile : option bool
}.

Definition split_filter (acc : list str * list str) (entry : str * ShellEnvironmentPolicyFilter) : list str * list str :=
  match snd entry with
  | FilterInclude => (fst acc, snd acc ++ [fst entry])
  | FilterExclude => (fst acc ++ [fst entry], snd acc)
  end.

Definition policy_from_toml (toml : ShellEnvironmentPolicyToml) : ShellEnvironmentPolicy :=
  let '(exclude, include_only) := match toml_filters toml with
    | Some filters => foldl split_filter ([], []) filters
    | None => (default [] (toml_exclude toml), default [] (toml_include_only toml))
    end in
  mkPolicy (default InheritAll (toml_inherit toml)) (default true (toml_ignore_default_excludes toml)) exclude (default ∅ (toml_set toml)) include_only
    (default false (experimental_use_profile toml)).

(** ** Environments *)

Section env.
Context `{Patterns}.

Definition matches_any (name : str) (patterns : list str) : bool := existsb (fun pattern => pattern_matches pattern name) patterns.

Definition default_excludes : list str := map lit ["*KEY*"; "*SECRET*"; "*TOKEN*"]%string.

(** [HashMap::retain], by the name. *)
Definition retain (keep : str -> bool) (env : gmap str str) : gmap str str := filter (fun kv => keep (fst kv) = true) env.

(** [vars.into_iter().collect()]: a later variable of the same name wins. *)
Definition collect (vars : list (str * str)) : gmap str str := foldl (fun env kv => <[fst kv := snd kv]> env) ∅ vars.

Definition is_core (name : str) : bool := existsb (fun allowed => eq_ignore_ascii_case allowed name) UNIX_CORE_ENV_VARS.

Definition inherited (vars : list (str * str)) (policy : ShellEnvironmentPolicy) : gmap str str :=
  match inherit policy with
  | InheritAll => collect vars
  | InheritNone => ∅
  | InheritCore => collect (List.filter (fun kv => is_core (fst kv)) vars)
  end.

Definition populate_env (vars : list (str * str)) (policy : ShellEnvironmentPolicy) (thread_id : option str) : gmap str str :=
  let env := inherited vars policy in
  let env := if negb (ignore_default_excludes policy) then retain (fun k => negb (matches_any k default_excludes)) env else env in
  let env := if negb (is_empty (exclude policy)) then retain (fun k => negb (matches_any k (exclude policy))) env else env in
  let env := map_fold (fun k v env => <[k := v]> env) env (set_vars policy) in
  let env := if negb (is_empty (include_only policy)) then retain (fun k => matches_any k (include_only policy)) env else env in
  let env := match thread_id with Some thread_id => <[CODEX_THREAD_ID_ENV_VAR := thread_id]> env | None => env end in
  retain (fun k => negb (is_non_inheritable_env_var k)) env.

(** The variant for Windows adds [PATHEXT]; elsewhere this is [populate_env]. *)
Definition create_env_from_vars (vars : list (str * str)) (policy : ShellEnvironmentPolicy) (thread_id : option str) : gmap str str :=
  populate_env vars policy thread_id.

Definition inject_session_id_env (env : gmap str str) (session_id : str) : gmap str str := <[CODEX_SESSION_ID_ENV_VAR := session_id]> env.
Definition inject_permission_profile_env (env : gmap str str) (active_permission_profile : option str) : gmap str str :=
  let env := delete CODEX_PERMISSION_PROFILE_ENV_VAR env in
  match active_permission_profile with Some id => <[CODEX_PERMISSION_PROFILE_ENV_VAR := id]> env | None => env end.
Definition inject_apply_patch_env (env : gmap str str) (preserve_line_endings : bool) : gmap str str :=
  let env := retain (fun k => negb (eq_ignore_ascii_case k CODEX_APPLY_PATCH_PRESERVE_LINE_ENDINGS_ENV_VAR)) env in
  if preserve_line_endings then <[CODEX_APPLY_PATCH_PRESERVE_LINE_ENDINGS_ENV_VAR := lit "1"]> env else env.

(** ** What a variable is *)

Lemma retain_lookup keep env k : retain keep env !! k = if keep k then env !! k else None.
Proof.
  unfold retain. destruct (keep k) eqn:E; destruct (env !! k) as [v|] eqn:Ek.
  - by apply map_lookup_filter_Some.
  - apply map_lookup_filter_None. by left.
  - apply map_lookup_filter_None. right. intros v' _ Hk. simpl in Hk. congruence.
  - apply map_lookup_filter_None. by left.
Qed.

Lemma set_all_lookup (sets env : gmap str str) k :
  map_fold (fun k v env => <[k := v]> env) env sets !! k = match sets !! k with Some v => Some v | None => env !! k end.
Proof.
  apply (map_fold_weak_ind (fun (r : gmap str str) sets => r !! k = match sets !! k with Some v => Some v | None => env !! k end)); [by rewrite lookup_empty|].
  intros k' v' sets' r Hn IH. destruct (decide (k' = k)) as [->|Hk]; [by rewrite !lookup_insert_eq|]. by rewrite !lookup_insert_ne.
Qed.

(** What the policy says of a variable: restricted ones are left out; the thread's identity is given
    whatever the patterns say; of the rest only what [include_only] names, if it names anything; then
    what [set] gives it, or what is inherited and not excluded. *)
Definition policy_value (vars : list (str * str)) (policy : ShellEnvironmentPolicy) (thread_id : option str) (k : str) : option str :=
  if is_non_inheritable_env_var k then None
  else
    match thread_id with
    | Some t => if str_eqb k CODEX_THREAD_ID_ENV_VAR then Some t else None
    | None => None
    end ∪
    (if negb (is_empty (include_only policy)) && negb (matches_any k (include_only policy)) then None
     else
       match set_vars policy !! k with
       | Some v => Some v
       | None =>
           if matches_any k (exclude policy) || negb (ignore_default_excludes policy) && matches_any k default_excludes then None
           else
             match inherit policy with
             | InheritNone => None
             | InheritAll => collect vars !! k
             | InheritCore => if is_core k then collect vars !! k else None
             end
       end).

Lemma collect_snoc vars kv : collect (vars ++ [kv]) = <[fst kv := snd kv]> (collect vars).
Proof. unfold collect. by rewrite foldl_snoc. Qed.

Lemma collect_filter (keep : str -> bool) vars k : collect (List.filter (fun kv => keep (fst kv)) vars) !! k = if keep k then collect vars !! k else None.
Proof.
  induction vars as [|[k' v] vars IH] using rev_ind; [simpl; by destruct (keep k)|]. rewrite List.filter_app. simpl.
  rewrite (collect_snoc vars). cbn [fst snd]. destruct (keep k') eqn:Ek'.
  - rewrite collect_snoc. cbn [fst snd]. destruct (decide (k' = k)) as [->|Hn]; [by rewrite !lookup_insert_eq, Ek'|]. by rewrite !lookup_insert_ne.
  - rewrite app_nil_r, IH. destruct (decide (k' = k)) as [->|Hn]; [by rewrite Ek'|]. by rewrite lookup_insert_ne.
Qed.

Lemma inherited_lookup vars policy k :
  inherited vars policy !! k =
    match inherit policy with InheritNone => None | InheritAll => collect vars !! k | InheritCore => if is_core k then collect vars !! k else None end.
Proof. unfold inherited. destruct (inherit policy); [apply collect_filter|done|apply lookup_empty]. Qed.

Lemma populate_env_lookup vars policy thread_id k : populate_env vars policy thread_id !! k = policy_value vars policy thread_id k.
Proof.
  unfold populate_env, policy_value. rewrite retain_lookup. destruct (is_non_inheritable_env_var k); [done|]. cbn [negb].
  set (base := if negb (is_empty (include_only policy)) then _ else _).
  assert (Hbase : base !! k = if negb (is_empty (include_only policy)) && negb (matches_any k (include_only policy)) then None
     else match set_vars policy !! k with
       | Some v => Some v
       | None => if matches_any k (exclude policy) || negb (ignore_default_excludes policy) && matches_any k default_excludes then None
           else match inherit policy with InheritNone => None | InheritAll => collect vars !! k | InheritCore => if is_core k then collect vars !! k else None end
       end).
  { unfold base. clear base. set (env := if negb (is_empty (exclude policy)) then _ else _).
    assert (Henv : env !! k = if matches_any k (exclude policy) || negb (ignore_default_excludes policy) && matches_any k default_excludes then None else inherited vars policy !! k).
    { unfold env. destruct (exclude policy) as [|p ps] eqn:Ex; cbn [is_empty negb].
      - destruct (ignore_default_excludes policy); cbn [negb andb]; [done|]. rewrite retain_lookup. change (matches_any k []) with false. cbn [orb]. by destruct (matches_any k default_excludes).
      - rewrite retain_lookup. destruct (matches_any k (p :: ps)); [done|]. cbn [negb orb]. destruct (ignore_default_excludes policy); cbn [negb andb]; [done|].
        rewrite retain_lookup. by destruct (matches_any k default_excludes). }
    rewrite <- inherited_lookup, <- Henv, <- (set_all_lookup (set_vars policy) env). destruct (include_only policy) as [|p ps]; cbn [is_empty negb andb]; [done|].
    rewrite retain_lookup. by destruct (matches_any k (p :: ps)). }
  destruct thread_id as [t|]; [|by rewrite Hbase, (left_id_L None (∪))]. unfold str_eqb. case_bool_decide as Hk.
  - subst k. by rewrite lookup_insert_eq, union_Some_l.
  - rewrite lookup_insert_ne by done. by rewrite Hbase, (left_id_L None (∪)).
Qed.

(** C35: the environment of a command holds exactly what its policy says of each variable: step by step
    filtering in the code comes to the one rule of [policy_value]. *)
Theorem environment_follows_policy vars policy thread_id k : create_env_from_vars vars policy thread_id !! k = policy_value vars policy thread_id k.
Proof. apply populate_env_lookup. Qed.

(** The patterns that a table of filters excludes and includes. *)
Lemma split_filters filters acc :
  foldl split_filter acc filters =
    (fst acc ++ (fst <$> List.filter (fun e => match snd e with FilterExclude => true | _ => false end) filters),
     snd acc ++ (fst <$> List.filter (fun e => match snd e with FilterInclude => true | _ => false end) filters)).
Proof.
  revert acc. induction filters as [|[p f] filters IH]; intros [ex inc]; [by rewrite !app_nil_r|]. simpl. rewrite IH. destruct f; simpl; by rewrite <- app_assoc.
Qed.

(** A variable that the user's configuration excludes, by a keyed filter or by the legacy list,
    reaches a command only with a value the configuration sets for it, or as the identity of the
    thread: its inherited value never does. *)
Theorem excluded_variables_are_not_inherited toml vars thread_id name pattern v :
  pattern_matches pattern name = true ->
  (match toml_filters toml with Some filters => (pattern, FilterExclude) ∈ filters | None => pattern ∈ default [] (toml_exclude toml) end) ->
  create_env_from_vars vars (policy_from_toml toml) thread_id !! name = Some v ->
  default ∅ (toml_set toml) !! name = Some v \/ (name = CODEX_THREAD_ID_ENV_VAR /\ thread_id = Some v).
Proof.
  intros Hm Hin. unfold create_env_from_vars. rewrite populate_env_lookup. unfold policy_value.
  assert (Hex : matches_any name (exclude (policy_from_toml toml)) = true).
  { apply existsb_exists. exists pattern. split; [|done]. unfold policy_from_toml. destruct (toml_filters toml) as [filters|].
    - rewrite split_filters. cbn. apply list_elem_of_In, list_elem_of_fmap. exists (pattern, FilterExclude). split; [done|].
      apply list_elem_of_In, List.filter_In. split; [by apply list_elem_of_In|done].
    - by apply list_elem_of_In. }
  rewrite Hex. cbn [orb]. assert (Hset : set_vars (policy_from_toml toml) = default ∅ (toml_set toml)).
  { unfold policy_from_toml. by destruct (match toml_filters toml with Some _ => _ | None => _ end). }
  rewrite Hset. destruct (is_non_inheritable_env_var name); [done|].
  destruct thread_id as [t|].
  - unfold str_eqb. case_bool_decide as Hk; [rewrite union_Some_l; naive_solver|]. rewrite (left_id_L None (∪)). repeat case_match; naive_solver.
  - rewrite (left_id_L None (∪)). repeat case_match; naive_solver.
Qed.
End env.

(** ** Commands *)

(** [std::process::Command]: the variables that were set ([Some]) or removed ([None]) for it. *)
Record Command := mkCommand { command_envs : gmap str (option str) }.

Definition env_remove (command : Command) (name : str) : Command := mkCommand (<[name := None]> (command_envs command)).

(** The environment the process starts with, from that of its parent. *)
Definition child_env (parent : gmap str str) (command : Command) (k : str) : option str :=
  match command_envs command !! k with Some v => v | None => parent !! k end.

(** Names are taken to be valid text. *)
Definition scrub_non_inheritable_env_vars (parent : gmap str str) (command : Command) : Command :=
  let configured_names := (map_to_list (command_envs command)).*1 in
  let command := foldl env_remove command NON_INHERITABLE_ENV_VARS in
  foldl (fun command name => if is_non_inheritable_env_var name then env_remove command name else command) command
    ((map_to_list parent).*1 ++ configured_names).

Lemma env_remove_lookup command name k : command_envs (env_remove command name) !! k = if decide (k = name) then Some None else command_envs command !! k.
Proof. simpl. case_decide as Hk; [subst; by rewrite lookup_insert_eq|by rewrite lookup_insert_ne]. Qed.

Lemma scrub_names_lookup names command k :
  command_envs (foldl (fun command name => if is_non_inheritable_env_var name then env_remove command name else command) command names) !! k =
    if is_non_inheritable_env_var k && bool_decide (k ∈ names) then Some None else command_envs command !! k.
Proof.
  revert command. induction names as [|n names IH]; intros command; [by rewrite andb_false_r|]. simpl. rewrite IH. destruct (is_non_inheritable_env_var k) eqn:Ek; cbn [andb].
  - destruct (decide (k ∈ names)) as [Hin|Hn]; [by rewrite !bool_decide_true by set_solver|]. rewrite (bool_decide_false (k ∈ names)) by done.
    destruct (decide (k = n)) as [->|Hne].
    + rewrite Ek, env_remove_lookup, decide_True, bool_decide_true by set_solver. done.
    + rewrite bool_decide_false by set_solver. destruct (is_non_inheritable_env_var n); [|done]. by rewrite env_remove_lookup, decide_False.
  - destruct (is_non_inheritable_env_var n) eqn:En; [|done]. rewrite env_remove_lookup, decide_False; [done|]. intros ->. congruence.
Qed.

Lemma remove_restricted_lookup command k :
  is_non_inheritable_env_var k = false -> command_envs (foldl env_remove command NON_INHERITABLE_ENV_VARS) !! k = command_envs command !! k.
Proof.
  intros Hk. cbn [foldl NON_INHERITABLE_ENV_VARS]. rewrite !env_remove_lookup. repeat case_decide; subst; by vm_compute in Hk.
Qed.

Lemma name_listed {A} (m : gmap str A) k v : m !! k = Some v -> k ∈ (map_to_list m).*1.
Proof. intros Hk. apply list_elem_of_fmap. exists (k, v). split; [done|by apply elem_of_map_to_list]. Qed.

Lemma scrubbed_env parent command k :
  child_env parent (scrub_non_inheritable_env_vars parent command) k = if is_non_inheritable_env_var k then None else child_env parent command k.
Proof.
  unfold child_env, scrub_non_inheritable_env_vars. rewrite scrub_names_lookup. destruct (is_non_inheritable_env_var k) eqn:Ek; cbn [andb]; [|by rewrite remove_restricted_lookup].
  destruct (decide (k ∈ (map_to_list parent).*1 ++ (map_to_list (command_envs command)).*1)) as [Hin|Hn]; [by rewrite bool_decide_true|].
  rewrite bool_decide_false by done. rewrite not_elem_of_app in Hn. destruct Hn as [Hp Hc].
  assert (Hpn : parent !! k = None) by (destruct (parent !! k) eqn:E; [by destruct Hp; eapply name_listed|done]).
  assert (Hcn : command_envs command !! k = None) by (destruct (command_envs command !! k) eqn:E; [by destruct Hc; eapply name_listed|done]).
  cbn [foldl NON_INHERITABLE_ENV_VARS]. rewrite !env_remove_lookup. repeat case_decide; try done. by rewrite Hcn.
Qed.


(** ** On a concrete environment *)

Module EnvSamples.

(** Patterns with a star at both ends, or none. *)
Definition contains_text (part s : str) : bool := bool_decide (is_Some (split_once_str part s)).
#[local] Instance simple_patterns : Patterns := {|
  pattern_matches p name :=
    let p := to_ascii_lowercase p in
    let name := to_ascii_lowercase name in
    match p with
    | 42%N :: p' => contains_text (removelast p') name
    | _ => str_eqb p name
    end
|}.

Definition sample_vars : list (str * str) :=
  [(lit "PATH", lit "/bin"); (lit "API_KEY", lit "k"); (lit "openai_identity_token_file", lit "/t"); (lit "EDITOR", lit "vi")].
Definition sample_toml : ShellEnvironmentPolicyToml :=
  mkPolicyToml None (Some false) None (Some {[lit "OPENAI_FEDERATION_RULE_ID" := lit "x"; lit "LANG" := lit "C"]}) None (Some [(lit "EDITOR", FilterExclude)]) None.

Example sample_environment :
  map_to_list (create_env_from_vars sample_vars (policy_from_toml sample_toml) (Some (lit "t1"))) ≡ₚ
  [(lit "PATH", lit "/bin"); (lit "LANG", lit "C"); (lit "CODEX_THREAD_ID", lit "t1")].
Proof. vm_compute. repeat first [reflexivity | apply Permutation_cons; [reflexivity|] | eapply perm_trans; [apply perm_swap|]]. Qed.

Lemma excluded_variables_are_not_inherited_witness :
  default ∅ (toml_set (mkPolicyToml None None (Some [lit "LANG"]) (Some {[lit "LANG" := lit "C"]}) None None None)) !! lit "LANG" = Some (lit "C") \/
  (lit "LANG" = CODEX_THREAD_ID_ENV_VAR /\ None = Some (lit "C")).
Proof.
  apply (excluded_variables_are_not_inherited (mkPolicyToml None None (Some [lit "LANG"]) (Some {[lit "LANG" := lit "C"]}) None None None)
    [(lit "LANG", lit "de")] None (lit "LANG") (lit "LANG")); [vm_compute; reflexivity|left|vm_compute; reflexivity].
Defined.


End EnvSamples.
