(* ===== verification/RolloutReplay.v ===== *)
(** * Rebuilding a conversation from its rollout

    Models [core/src/session/rollout_reconstruction.rs] with the items of [history/src/lib.rs], the
    messages between agents of [protocol/src/protocol.rs] and the history that a legacy compaction
    makes ([core/src/compact.rs]): what a thread that is resumed, forked or rolled back takes up from the
    records of its earlier turns.

    The records are scanned from the newest to the oldest in order to find the newest compaction that
    was not rolled back; the records after it are then replayed forward. *)

From stdpp Require Import base list strings sets.
From S2P Require Import Prelude ResponseItems Truncate ContextFragments Normalize ContextManager.

(** What the replay asks of other parts: of the items of a turn's context, of user messages
    ([parse_turn_item]), of snapshots of the world and of identifiers. *)
Class ReplayOps {json : Json} {hist : HistoryOps} := {
  ctx_turn_id : TurnContextItem -> option str;
  ctx_model : TurnContextItem -> str;
  ctx_comp_hash : TurnContextItem -> option str;
  ctx_realtime_active : TurnContextItem -> option bool;
  (** The text of an item that is a user message. *)
  parse_user_message : ResponseItem -> option str;
  SUMMARY_PREFIX : str;
  (** [serde_json::from_value] and [apply_merge_patch]; [None] for an error. *)
  snapshot_from_value : Value -> option WorldStateSnapshot;
  apply_merge_patch : WorldStateSnapshot -> Value -> option WorldStateSnapshot;
  Uuid : Type;
  parse_str : str -> option Uuid;
  get_version_num : Uuid -> N
}.

Section replay.
Context {json : Json} {deps : FragmentDeps} {hist : HistoryOps} {rops : ReplayOps}.

(** ** Records *)

Record CompactedItem := mkCompacted {
  message : str;
  replacement_history : option (list ResponseItemEnvelope);
  window_number : option N;
  first_window_id : option str;
  previous_window_id : option str;
  window_id : option str
}.

Record InterAgentCommunication := mkCommunication {
  comm_id : option str;
  author : str;
  recipient : str;
  other_recipients : list str;
  comm_content : str;
  encrypted_content : option str;
  comm_metadata : option InternalChatMessageMetadataPassthrough;
  trigger_turn : bool
}.

(** The events that the replay looks at. *)
Inductive EventMsg : Type :=
| ThreadRolledBack (num_turns : N)
| TurnComplete (turn_id : str)
| TurnAborted (turn_id : option str)
| UserMessage
| TurnStarted (turn_id : str)
| OtherEvent.

Inductive RolloutItem : Type :=
| SessionMeta (context_window_id : option str)
| RolloutResponseItem (item : ResponseItemEnvelope)
| RolloutCommunication (communication : InterAgentCommunication)
| InterAgentCommunicationMetadata (trigger_turn : bool)
| Compacted (compacted : CompactedItem)
| TurnContext (ctx : TurnContextItem)
| RolloutWorldState (full : bool) (state : Value)
| RolloutEvent (event : EventMsg).

Definition to_model_input_item (c : InterAgentCommunication) : ResponseItem :=
  let content := match encrypted_content c with
    | Some encrypted =>
        let message_type := if trigger_turn c then lit "NEW_TASK" else lit "MESSAGE" in
        [AgentInputText (lit "Message Type: " ++ message_type ++ [LF] ++ lit "Task name: " ++ recipient c ++ [LF] ++ lit "Sender: " ++ author c ++ [LF] ++ lit "Payload:" ++ [LF]);
         AgentEncryptedContent encrypted]
    | None => [AgentInputText (comm_content c)]
    end in
  AgentMessage (comm_id c) (author c) (recipient c) content (comm_metadata c).

(** ** Legacy compactions *)

Record CompactedUserMessage := mkUserMessage {
  um_message : str;
  um_metadata : option InternalChatMessageMetadataPassthrough;
  um_harness_metadata : option unit
}.

Definition is_summary_message (message : str) : bool := starts_with (SUMMARY_PREFIX ++ [LF]) message.

Definition compacted_user_message (e : ResponseItemEnvelope) : option CompactedUserMessage :=
  text ← parse_user_message (env_item e);
  if is_summary_message text then None
  else Some (mkUserMessage text (match env_item e with Message _ _ _ _ m => m | _ => None end) (env_metadata e)).

Definition collect_annotated_user_messages (its : list ResponseItemEnvelope) : list CompactedUserMessage := omap compacted_user_message its.

Definition COMPACT_USER_MESSAGE_MAX_TOKENS : N := 20000.

(** The newest messages that fit, newest first; the last one may be cut. *)
Fixpoint select_messages (remaining : N) (messages : list CompactedUserMessage) : list CompactedUserMessage :=
  match messages with
  | [] => []
  | m :: messages =>
      if (remaining =? 0)%N then []
      else
        let tokens := approx_token_count (um_message m) in
        if (tokens <=? remaining)%N then m :: select_messages (remaining - tokens) messages
        else [mkUserMessage (truncate_text (um_message m) (PolicyTokens remaining)) (um_metadata m) (um_harness_metadata m)]
  end.

Definition user_text_item (text : str) (m : option InternalChatMessageMetadataPassthrough) : ResponseItem := Message None (lit "user") [InputText text] None m.

Definition build_compacted_history_with_limit (history : list ResponseItemEnvelope) (user_messages : list CompactedUserMessage) (summary_text : str) (max_tokens : N) :
    list ResponseItemEnvelope :=
  let selected := if (0 <? max_tokens)%N then rev (select_messages max_tokens (rev user_messages)) else [] in
  let summary_text := if is_empty summary_text then lit "(no summary available)" else summary_text in
  history ++ ((fun m => mkEnvelope (user_text_item (um_message m) (um_metadata m)) (um_harness_metadata m)) <$> selected)
    ++ [mkEnvelope (user_text_item summary_text None) None].

Definition build_compacted_history (initial_context : list ResponseItemEnvelope) (user_messages : list CompactedUserMessage) (summary_text : str) :
    list ResponseItemEnvelope :=
  build_compacted_history_with_limit initial_context user_messages summary_text COMPACT_USER_MESSAGE_MAX_TOKENS.

(** ** The state of the scan *)

Record PreviousTurnSettings := mkSettings { settings_model : str; settings_comp_hash : option str; settings_realtime_active : option bool }.

Record ReconstructedWindow := mkWindow { number : N; first_id : option Uuid; previous_id : option Uuid; win_id : option Uuid }.

Inductive TurnReferenceContextItem : Type := NeverSet | Cleared | Latest (item : TurnContextItem).

Definition is_never_set (r : TurnReferenceContextItem) : bool := match r with NeverSet => true | _ => false end.
Definition is_cleared (r : TurnReferenceContextItem) : bool := match r with Cleared => true | _ => false end.

Record ActiveReplaySegment := mkSegment {
  seg_turn_id : option str;
  counts_as_user_turn : bool;
  seg_previous_turn_settings : option PreviousTurnSettings;
  seg_reference_context_item : TurnReferenceContextItem;
  seg_world_state_replay : list RolloutItem;
  seg_base_replacement_history : option (list ResponseItemEnvelope);
  seg_window : option ReconstructedWindow
}.
Definition segment_default : ActiveReplaySegment := mkSegment None false None NeverSet [] None None.

Record ReplayState := mkReplay {
  base_replacement_history : option (list ResponseItemEnvelope);
  previous_turn_settings : option PreviousTurnSettings;
  reference_item : TurnReferenceContextItem;
  world_state_replay : list RolloutItem;
  window : option ReconstructedWindow;
  pending_rollback_turns : N;
  rollout_suffix : list RolloutItem;
  active_segment : option ActiveReplaySegment
}.

Definition parse_uuid_v7 (value : str) : option Uuid := uuid ← parse_str value; if (get_version_num uuid =? 7)%N then Some uuid else None.

Definition reconstructed_window_from_session_context_window (window_id : str) : option ReconstructedWindow :=
  id ← parse_uuid_v7 window_id; Some (mkWindow 0 (Some id) None (Some id)).

Definition turn_ids_are_compatible (active_turn_id item_turn_id : option str) : bool :=
  match active_turn_id, item_turn_id with Some a, Some b => str_eqb b a | _, _ => true end.

Definition or_else {A} (a b : option A) : option A := match a with Some _ => a | None => b end.

(** The segment is over; the state is the one without it. *)
Definition finalize_active_segment (seg : ActiveReplaySegment) (st : ReplayState) : ReplayState :=
  if (0 <? pending_rollback_turns st)%N then
    mkReplay (base_replacement_history st) (previous_turn_settings st) (reference_item st) (world_state_replay st) (window st)
      (if counts_as_user_turn seg then (pending_rollback_turns st - 1)%N else pending_rollback_turns st) (rollout_suffix st) None
  else
    mkReplay (or_else (base_replacement_history st) (seg_base_replacement_history seg))
      (match previous_turn_settings st with Some s => Some s | None => if counts_as_user_turn seg then seg_previous_turn_settings seg else None end)
      (if is_never_set (reference_item st) && (counts_as_user_turn seg || is_cleared (seg_reference_context_item seg))
       then seg_reference_context_item seg else reference_item st)
      (world_state_replay st ++ seg_world_state_replay seg)
      (or_else (window st) (seg_window seg))
      (pending_rollback_turns st) (rollout_suffix st) None.

Definition with_active (seg : ActiveReplaySegment) (st : ReplayState) : ReplayState :=
  mkReplay (base_replacement_history st) (previous_turn_settings st) (reference_item st) (world_state_replay st) (window st)
    (pending_rollback_turns st) (rollout_suffix st) (Some seg).

(** [get_or_insert_with(ActiveReplaySegment::default)], changed by [f]. *)
Definition update_active (f : ActiveReplaySegment -> ActiveReplaySegment) (st : ReplayState) : ReplayState :=
  with_active (f (default segment_default (active_segment st))) st.

Definition set_seg_turn_id (turn_id : option str) (s : ActiveReplaySegment) : ActiveReplaySegment :=
  mkSegment turn_id (counts_as_user_turn s) (seg_previous_turn_settings s) (seg_reference_context_item s) (seg_world_state_replay s)
    (seg_base_replacement_history s) (seg_window s).
Definition count_user_turn (b : bool) (s : ActiveReplaySegment) : ActiveReplaySegment :=
  mkSegment (seg_turn_id s) (counts_as_user_turn s || b) (seg_previous_turn_settings s) (seg_reference_context_item s) (seg_world_state_replay s)
    (seg_base_replacement_history s) (seg_window s).
Definition push_world_state (item : RolloutItem) (s : ActiveReplaySegment) : ActiveReplaySegment :=
  mkSegment (seg_turn_id s) (counts_as_user_turn s) (seg_previous_turn_settings s) (seg_reference_context_item s) (seg_world_state_replay s ++ [item])
    (seg_base_replacement_history s) (seg_window s).

Definition compacted_window (c : CompactedItem) : option ReconstructedWindow :=
  n ← window_number c;
  Some (mkWindow n (first_window_id c ≫= parse_uuid_v7) (previous_window_id c ≫= parse_uuid_v7) (window_id c ≫= parse_uuid_v7)).

(** A compaction: [after] are the records after it. *)
Definition scan_compacted (c : CompactedItem) (after : list RolloutItem) (st : ReplayState) : ReplayState :=
  let seg := push_world_state (Compacted c) (default segment_default (active_segment st)) in
  let takes := negb (bool_decide (is_Some (seg_base_replacement_history seg))) && bool_decide (is_Some (replacement_history c)) in
  let seg := mkSegment (seg_turn_id seg) (counts_as_user_turn seg) (seg_previous_turn_settings seg)
    (if is_never_set (seg_reference_context_item seg) then Cleared else seg_reference_context_item seg)
    (seg_world_state_replay seg)
    (or_else (seg_base_replacement_history seg) (replacement_history c))
    (or_else (seg_window seg) (compacted_window c)) in
  mkReplay (base_replacement_history st) (previous_turn_settings st) (reference_item st) (world_state_replay st) (window st)
    (pending_rollback_turns st) (if takes then after else rollout_suffix st) (Some seg).

Definition attach_context (ctx : TurnContextItem) (s : ActiveReplaySegment) : ActiveReplaySegment :=
  let s := match seg_turn_id s with Some _ => s | None => set_seg_turn_id (ctx_turn_id ctx) s end in
  if turn_ids_are_compatible (seg_turn_id s) (ctx_turn_id ctx) then
    mkSegment (seg_turn_id s) (counts_as_user_turn s) (Some (mkSettings (ctx_model ctx) (ctx_comp_hash ctx) (ctx_realtime_active ctx)))
      (if is_never_set (seg_reference_context_item s) then Latest ctx else seg_reference_context_item s) (seg_world_state_replay s)
      (seg_base_replacement_history s) (seg_window s)
  else s.

Definition scan_item (item : RolloutItem) (after : list RolloutItem) (st : ReplayState) : ReplayState :=
  match item with
  | Compacted c => scan_compacted c after st
  | RolloutEvent (ThreadRolledBack num_turns) =>
      mkReplay (base_replacement_history st) (previous_turn_settings st) (reference_item st) (world_state_replay st) (window st)
        (usize_add (pending_rollback_turns st) num_turns) (rollout_suffix st) (active_segment st)
  | RolloutEvent (TurnComplete turn_id) => update_active (fun s => match seg_turn_id s with Some _ => s | None => set_seg_turn_id (Some turn_id) s end) st
  | RolloutEvent (TurnAborted turn_id) =>
      match active_segment st, turn_id with
      | Some s, _ => match seg_turn_id s, turn_id with None, Some t => with_active (set_seg_turn_id (Some t) s) st | _, _ => st end
      | None, Some t => with_active (set_seg_turn_id (Some t) segment_default) st
      | None, None => st
      end
  | RolloutEvent UserMessage => update_active (count_user_turn true) st
  | TurnContext ctx => update_active (attach_context ctx) st
  | RolloutWorldState _ _ => update_active (push_world_state item) st
  | RolloutEvent (TurnStarted turn_id) =>
      match active_segment st with
      | Some s => if turn_ids_are_compatible (seg_turn_id s) (Some turn_id) then finalize_active_segment s st else st
      | None => st
      end
  | RolloutResponseItem e => update_active (count_user_turn (is_user_turn_boundary (env_item e))) st
  | RolloutCommunication _ => update_active (count_user_turn true) st
  | RolloutEvent OtherEvent | SessionMeta _ | InterAgentCommunicationMetadata _ => st
  end.

(** Nothing older can matter. *)
Definition scan_done (st : ReplayState) : bool :=
  bool_decide (is_Some (base_replacement_history st)) && bool_decide (is_Some (previous_turn_settings st)) && negb (is_never_set (reference_item st)).

(** [older]: the records not yet seen, newest first; [after]: those seen. *)
Fixpoint scan (older after : list RolloutItem) (st : ReplayState) : ReplayState :=
  match older with
  | [] => st
  | item :: older =>
      let st := scan_item item after st in
      if scan_done st then st else scan older (item :: after) st
  end.

Definition scan_rollout (rollout_items : list RolloutItem) : ReplayState :=
  let st := scan (rev rollout_items) [] (mkReplay None None NeverSet [] None 0 rollout_items None) in
  match active_segment st with Some s => finalize_active_segment s st | None => st end.

(** ** Replaying forward *)

(** The history and whether a compaction without a history was met. *)
Definition replay_item (policy : TruncationPolicy) (state : ContextManager * bool) (item : RolloutItem) : ContextManager * bool :=
  let '(history, saw_legacy) := state in
  match item with
  | RolloutResponseItem e => (record_annotated_items [e] policy history, saw_legacy)
  | RolloutCommunication c => (record_items [to_model_input_item c] policy history, saw_legacy)
  | Compacted c =>
      match replacement_history c with
      | Some replacement => (replace_annotated replacement history, saw_legacy)
      | None =>
          let user_messages := collect_annotated_user_messages (items history) in
          (replace_annotated (build_compacted_history [] user_messages (message c)) history, true)
      end
  | RolloutEvent (ThreadRolledBack num_turns) => (drop_last_n_user_turns (N.to_nat num_turns) history, saw_legacy)
  | RolloutEvent _ | TurnContext _ | RolloutWorldState _ _ | SessionMeta _ | InterAgentCommunicationMetadata _ => (history, saw_legacy)
  end.

Definition replay (policy : TruncationPolicy) (state : ContextManager * bool) (rollout : list RolloutItem) : ContextManager * bool :=
  foldl (replay_item policy) state rollout.

(** The records of the world in the order they were made; [None] for a record that is none of
    them, which the code takes to be unreachable. *)
Fixpoint replay_world_state (baseline : option WorldStateSnapshot) (records : list RolloutItem) : option (option WorldStateSnapshot) :=
  match records with
  | [] => Some baseline
  | Compacted _ :: records => replay_world_state None records
  | RolloutWorldState true state :: records => replay_world_state (snapshot_from_value state) records
  | RolloutWorldState false state :: records =>
      match baseline with
      | None => replay_world_state None records
      | Some b => replay_world_state (apply_merge_patch b state) records
      end
  | _ :: _ => None
  end.

Definition is_compacted (item : RolloutItem) : bool := match item with Compacted _ => true | _ => false end.
Definition is_legacy_compacted (item : RolloutItem) : bool :=
  match item with Compacted c => negb (bool_decide (is_Some (window_number c))) | _ => false end.

Definition initial_window (rollout_items : list RolloutItem) : option ReconstructedWindow :=
  if existsb is_legacy_compacted rollout_items then None
  else head (omap (fun item => match item with SessionMeta (Some id) => reconstructed_window_from_session_context_window id | _ => None end) rollout_items).

Record RolloutReconstruction := mkReconstruction {
  history : list ResponseItemEnvelope;
  rec_previous_turn_settings : option PreviousTurnSettings;
  rec_reference_context_item : option TurnContextItem;
  rec_world_state_baseline : option WorldStateSnapshot;
  rec_window : ReconstructedWindow
}.

(** [None] when the code would panic. *)
Definition reconstruct_history_from_rollout (policy : TruncationPolicy) (rollout_items : list RolloutItem) : option RolloutReconstruction :=
  let st := scan_rollout rollout_items in
  let start := match base_replacement_history st with
    | Some base => replace_annotated base context_manager_new
    | None => context_manager_new
    end in
  let '(final, saw_legacy) := replay policy (start, false) (rollout_suffix st) in
  let reference := match reference_item st with Latest item => if saw_legacy then None else Some item | _ => None end in
  baseline ← replay_world_state None (rev (world_state_replay st));
  let fallback := mkWindow (N.min (N.of_nat (length (List.filter is_compacted rollout_items))) u64_max) None None None in
  Some (mkReconstruction (items final) (previous_turn_settings st) reference baseline
          (default fallback (or_else (window st) (initial_window rollout_items)))).

(** ** The scan finds what a full replay would rebuild *)

(** The items that a replay leaves depend on nothing else of the history. *)
Definition replay_items (policy : TruncationPolicy) (its : list ResponseItemEnvelope) (rollout : list RolloutItem) : list ResponseItemEnvelope :=
  items (fst (replay policy (replace_annotated its context_manager_new, false) rollout)).

Lemma record_items_congr its policy c c' :
  items c = items c' -> items (record_items_with_metadata its policy c) = items (record_items_with_metadata its policy c').
Proof.
  unfold record_items_with_metadata. revert c c'. induction its as [|[item m] its IH]; intros c c' Heq; [done|]. simpl. apply IH.
  destruct (is_api_message item); [|done]. simpl. by rewrite Heq.
Qed.

Lemma trim_pre_turn_cut snapshot first cut c c' :
  fst (trim_pre_turn_context_updates snapshot first cut c) = fst (trim_pre_turn_context_updates snapshot first cut c').
Proof. unfold trim_pre_turn_context_updates. by destruct (trim_loop snapshot first cut false). Qed.

Lemma drop_turns_congr n c c' : items c = items c' -> items (drop_last_n_user_turns n c) = items (drop_last_n_user_turns n c').
Proof.
  intros Heq. unfold drop_last_n_user_turns. destruct (Nat.eqb n 0); [done|]. rewrite Heq. destruct (user_message_positions (items c')) as [|first ps]; [done|].
  set (cut := if Nat.leb _ _ then _ else _). pose proof (trim_pre_turn_cut (items c') first cut c c') as Hcut.
  destruct (trim_pre_turn_context_updates (items c') first cut c) as [k d], (trim_pre_turn_context_updates (items c') first cut c') as [k' d'].
  simpl in Hcut. by subst k'.
Qed.

Lemma replay_item_congr policy c b c' b' item : items c = items c' -> items (fst (replay_item policy (c, b) item)) = items (fst (replay_item policy (c', b') item)).
Proof.
  intros Heq. destruct item as [|e|comm| |comp|ctx|full st|ev]; simpl; try done.
  - by apply record_items_congr.
  - by rewrite Heq.
  - destruct (replacement_history comp); [done|]. simpl. by rewrite Heq.
  - destruct ev; simpl; try done. by apply drop_turns_congr.
Qed.

Lemma replay_congr policy rollout : forall s s', items (fst s) = items (fst s') -> items (fst (replay policy s rollout)) = items (fst (replay policy s' rollout)).
Proof.
  induction rollout as [|item rollout IH]; intros [c b] [c' b'] Heq; [done|]. apply IH. by apply replay_item_congr.
Qed.

Lemma replay_records_app policy s a b : replay policy s (a ++ b) = replay policy (replay policy s a) b.
Proof. apply foldl_app. Qed.

(** A compaction with a history starts over. *)
Lemma replay_checkpoint policy s pre c post r :
  replacement_history c = Some r -> items (fst (replay policy s (pre ++ Compacted c :: post))) = replay_items policy r post.
Proof.
  intros Hr. rewrite replay_records_app. unfold replay_items. destruct (replay policy s pre) as [h b].
  change (replay policy (h, b) (Compacted c :: post)) with (replay policy (replay_item policy (h, b) (Compacted c)) post).
  simpl. rewrite Hr. by apply replay_congr.
Qed.

(** *** What the scan keeps *)

Definition is_checkpoint (item : RolloutItem) : bool := match item with Compacted c => bool_decide (is_Some (replacement_history c)) | _ => false end.
Definition is_rollback (item : RolloutItem) : bool := match item with RolloutEvent (ThreadRolledBack _) => true | _ => false end.

(** The base of the segment in progress. *)
Definition segment_base (st : ReplayState) : option (list ResponseItemEnvelope) := active_segment st ≫= seg_base_replacement_history.

(** What a record does to the parts of the state that decide about the history. *)
Inductive scan_effect (item : RolloutItem) (after : list RolloutItem) (st st' : ReplayState) : Prop :=
| effect_none : base_replacement_history st' = base_replacement_history st -> segment_base st' = segment_base st -> rollout_suffix st' = rollout_suffix st ->
    pending_rollback_turns st' = pending_rollback_turns st -> is_checkpoint item = false -> scan_effect item after st st'
| effect_checkpoint c r : item = Compacted c -> replacement_history c = Some r -> segment_base st = None -> segment_base st' = Some r -> rollout_suffix st' = after ->
    base_replacement_history st' = base_replacement_history st -> pending_rollback_turns st' = pending_rollback_turns st -> scan_effect item after st st'
| effect_second r : segment_base st = Some r -> segment_base st' = Some r -> rollout_suffix st' = rollout_suffix st ->
    base_replacement_history st' = base_replacement_history st -> pending_rollback_turns st' = pending_rollback_turns st -> scan_effect item after st st'
| effect_rollback : is_rollback item = true -> is_checkpoint item = false -> base_replacement_history st' = base_replacement_history st -> segment_base st' = segment_base st ->
    rollout_suffix st' = rollout_suffix st -> scan_effect item after st st'
| effect_dropped : is_checkpoint item = false -> (0 < pending_rollback_turns st)%N -> segment_base st' = None ->
    base_replacement_history st' = base_replacement_history st -> rollout_suffix st' = rollout_suffix st -> scan_effect item after st st'
| effect_kept : is_checkpoint item = false -> pending_rollback_turns st = 0%N -> pending_rollback_turns st' = 0%N -> segment_base st' = None ->
    base_replacement_history st' = or_else (base_replacement_history st) (segment_base st) -> rollout_suffix st' = rollout_suffix st -> scan_effect item after st st'.

Lemma update_active_effect item after f st :
  is_checkpoint item = false -> (forall s, seg_base_replacement_history (f s) = seg_base_replacement_history s) -> scan_effect item after st (update_active f st).
Proof.
  intros Hc Hf. apply effect_none; try done. unfold segment_base, update_active. simpl. rewrite Hf. by destruct (active_segment st).
Qed.

Lemma finalize_effect item after s st :
  is_checkpoint item = false -> active_segment st = Some s -> scan_effect item after st (finalize_active_segment s st).
Proof.
  intros Hc Hs. unfold finalize_active_segment. destruct (N.ltb_spec 0 (pending_rollback_turns st)) as [Hp|Hp]; [by apply effect_dropped|].
  apply effect_kept; simpl; try done; [lia..|]. unfold segment_base. by rewrite Hs.
Qed.

Lemma scan_item_effect item after st : scan_effect item after st (scan_item item after st).
Proof.
  destruct item as [w|e|comm|b|c|ctx|full v|ev]; cbn [scan_item]; try (by apply effect_none); try (by apply update_active_effect).
  - destruct (replacement_history c) as [r|] eqn:Er; [destruct (segment_base st) as [r'|] eqn:Es|].
    + apply (effect_second _ _ _ _ r'); try done; unfold segment_base, scan_compacted in *; destruct (active_segment st) as [s|]; cbn in *; rewrite ?Es; done.
    + apply (effect_checkpoint _ _ _ _ c r); try done; unfold segment_base, scan_compacted in *; destruct (active_segment st) as [s|]; cbn in *; rewrite ?Es, Er; done.
    + apply effect_none; unfold segment_base, scan_compacted; try done; destruct (active_segment st) as [s|]; cbn; rewrite ?Er; rewrite ?andb_false_r; try done;
        by destruct (seg_base_replacement_history s).
  - apply update_active_effect; [done|]. intros s. unfold attach_context. destruct (seg_turn_id s); repeat case_match; done.
  - destruct ev as [n|t|t| |t|]; try (by apply effect_none); try (by apply effect_rollback).
    + apply update_active_effect; [done|]. intros s. by destruct (seg_turn_id s).
    + unfold scan_item. destruct (active_segment st) as [s|] eqn:Ea; [|destruct t; apply effect_none; try done; unfold segment_base; by rewrite Ea].
      destruct (seg_turn_id s), t; apply effect_none; try done; unfold segment_base; by rewrite Ea.
    + by apply update_active_effect.
    + destruct (active_segment st) as [s|] eqn:Ea; [|by apply effect_none]. destruct (turn_ids_are_compatible _ _); [by apply finalize_effect|by apply effect_none].
Qed.

(** The base comes from a compaction among the records seen, and the suffix starts right after it or
    has it in it. *)
Definition anchored (after suffix : list RolloutItem) (r : list ResponseItemEnvelope) : Prop :=
  exists mid c post, after = mid ++ Compacted c :: post /\ replacement_history c = Some r /\ (suffix = post \/ exists mid', suffix = mid' ++ Compacted c :: post).

Lemma anchored_cons item after suffix r : anchored after suffix r -> anchored (item :: after) suffix r.
Proof. intros (mid & c & post & -> & Hr & Hs). by exists (item :: mid), c, post. Qed.

Lemma anchored_longer item after suffix r : anchored after suffix r -> anchored (item :: after) after r.
Proof. intros (mid & c & post & -> & Hr & Hs). exists (item :: mid), c, post. split_and!; [done..|]. right. by exists mid. Qed.

Record scan_inv (full after : list RolloutItem) (st : ReplayState) : Prop := {
  inv_base r : base_replacement_history st = Some r -> anchored after (rollout_suffix st) r;
  inv_segment r : segment_base st = Some r -> anchored after (rollout_suffix st) r;
  inv_none : existsb is_checkpoint after = false -> rollout_suffix st = full /\ base_replacement_history st = None /\ segment_base st = None;
  inv_kept : existsb is_rollback after = false ->
    pending_rollback_turns st = 0%N /\ (existsb is_checkpoint after = true -> base_replacement_history st <> None \/ segment_base st <> None)
}.

Lemma scan_item_inv full item after st : scan_inv full after st -> scan_inv full (item :: after) (scan_item item after st).
Proof.
  intros [Hb Hs Hn Hk]. pose proof (scan_item_effect item after st) as He. set (st' := scan_item item after st) in *.
  destruct He as [Eb Es Ex Ep Hc|c r -> Hr Es Es' Ex Eb Ep|r Es Es' Ex Eb Ep|Hroll Hc Eb Es Ex|Hc Hp Es Eb Ex|Hc Hp Hp' Es Eb Ex].
  - split; rewrite ?Eb, ?Es, ?Ex, ?Ep; simpl; rewrite ?Hc; eauto using anchored_cons. intros [_ Hr]%orb_false_iff. by apply Hk.
  - assert (Hck : is_checkpoint (Compacted c) = true) by (simpl; by rewrite Hr).
    split; rewrite ?Eb, ?Es', ?Ex, ?Ep; simpl.
    + intros r' Hr'. eauto using anchored_longer.
    + intros r' [= <-]. exists [], c, after. split_and!; [done..|]. by left.
    + rewrite Hr. done.
    + intros Hroll. split; [by apply Hk|]. intros _. by right.
  - split; rewrite ?Eb, ?Es', ?Ex, ?Ep; simpl.
    + eauto using anchored_cons.
    + intros r' Hr'. apply anchored_cons, Hs. by rewrite Es.
    + intros [_ Ha]%orb_false_iff. destruct (Hn Ha) as (_ & _ & Hn'). congruence.
    + intros [_ Hroll]%orb_false_iff. split; [by apply Hk|]. intros _. by right.
  - split; rewrite ?Eb, ?Es, ?Ex; simpl; rewrite ?Hc, ?Hroll; eauto using anchored_cons. done.
  - split; rewrite ?Eb, ?Es, ?Ex; simpl; rewrite ?Hc; eauto using anchored_cons; try done.
    + intros Ha. destruct (Hn Ha) as (-> & -> & _). done.
    + intros [_ Hroll]%orb_false_iff. destruct (Hk Hroll) as [Hzero _]. lia.
  - split; rewrite ?Eb, ?Es, ?Ex, ?Hp'; simpl; rewrite ?Hc; try done.
    + intros r' Hr'. apply anchored_cons. destruct (base_replacement_history st) as [r|] eqn:E; simpl in Hr'; [simplify_eq; by apply Hb|by apply Hs].
    + intros Ha. destruct (Hn Ha) as (-> & -> & ->). done.
    + intros [_ Hroll]%orb_false_iff. split; [done|]. intros Ha. left. destruct (Hk Hroll) as [_ Hk']. specialize (Hk' Ha).
      destruct (base_replacement_history st); simpl; [done|]. by destruct Hk'.
Qed.

Lemma scan_loop_inv full older : forall after st,
  full = rev older ++ after -> scan_inv full after st ->
  exists pre seen, full = pre ++ seen /\ scan_inv full seen (scan older after st) /\ (pre = [] \/ base_replacement_history (scan older after st) <> None).
Proof.
  induction older as [|item older IH]; intros after st Hfull Hinv; [exists [], after; auto|]. cbn [scan]. apply (scan_item_inv full item) in Hinv.
  simpl in Hfull. rewrite <- app_assoc in Hfull. destruct (scan_done _) eqn:Ed; [|by apply IH].
  exists (rev older), (item :: after). split_and!; [done|done|]. right. intros Hn. unfold scan_done in Ed. rewrite Hn in Ed. done.
Qed.

Lemma initial_inv full : scan_inv full [] (mkReplay None None NeverSet [] None 0 full None).
Proof. by split. Qed.

(** What the scan ends with. *)
Lemma scan_rollout_spec full :
  (forall r, base_replacement_history (scan_rollout full) = Some r -> anchored full (rollout_suffix (scan_rollout full)) r) /\
  (existsb is_checkpoint full = false -> rollout_suffix (scan_rollout full) = full /\ base_replacement_history (scan_rollout full) = None) /\
  (existsb is_rollback full = false -> existsb is_checkpoint full = true -> base_replacement_history (scan_rollout full) <> None).
Proof.
  unfold scan_rollout. set (st := scan _ _ _).
  destruct (scan_loop_inv full (rev full) [] (mkReplay None None NeverSet [] None 0 full None)) as (pre & seen & Hfull & Hinv & Hstop);
    [by rewrite rev_involutive, app_nil_r|apply initial_inv|]. fold st in Hinv, Hstop.
  set (st' := match active_segment st with Some s => finalize_active_segment s st | None => st end).
  assert (Hst : rollout_suffix st' = rollout_suffix st /\
    (base_replacement_history st' = base_replacement_history st /\ ((0 < pending_rollback_turns st)%N \/ segment_base st = None) \/
     base_replacement_history st' = or_else (base_replacement_history st) (segment_base st))).
  { unfold st', segment_base. destruct (active_segment st) as [s|]; [|auto]. unfold finalize_active_segment.
    destruct (N.ltb_spec 0 (pending_rollback_turns st)); auto. }
  destruct Hst as [-> Hbase]. destruct Hinv as [Hb Hs Hn Hk].
  assert (Hanch : forall r, anchored seen (rollout_suffix st) r -> anchored full (rollout_suffix st) r).
  { intros r (mid & c & post & -> & Hr & Hsuf). rewrite Hfull. exists (pre ++ mid), c, post. by rewrite <- app_assoc. }
  split_and!.
  - intros r Hr. apply Hanch. destruct Hbase as [[Hbase _]|Hbase]; rewrite Hbase in Hr; [by apply Hb|].
    destruct (base_replacement_history st) eqn:E; simpl in Hr; [simplify_eq; by apply Hb|by apply Hs].
  - intros Hc. assert (Hseen : existsb is_checkpoint seen = false) by (rewrite Hfull, existsb_app in Hc; by apply orb_false_iff in Hc as [_ ?]).
    destruct (Hn Hseen) as (-> & Hbn & Hsn). split; [done|]. destruct Hbase as [[-> _]| ->]; by rewrite Hbn, ?Hsn.
  - intros Hroll Hc. assert (Hroll' : existsb is_rollback seen = false) by (rewrite Hfull, existsb_app in Hroll; by apply orb_false_iff in Hroll as [_ ?]).
    destruct (Hk Hroll') as [Hzero Hk']. destruct Hstop as [-> | Hstop].
    + simpl in Hfull. subst seen. specialize (Hk' Hc). destruct Hbase as [[-> [Hp|Hsn]]| ->]; [lia| |]; destruct (base_replacement_history st); simpl; try done; by destruct Hk'.
    + destruct Hbase as [[-> _]| ->]; [done|]. by destruct (base_replacement_history st).
Qed.

(** The rebuilt history. *)
Definition rebuilt (policy : TruncationPolicy) (full : list RolloutItem) : list ResponseItemEnvelope :=
  let st := scan_rollout full in
  items (fst (replay policy (match base_replacement_history st with Some base => replace_annotated base context_manager_new | None => context_manager_new end, false)
    (rollout_suffix st))).

Lemma rebuilt_is_replay policy full :
  (base_replacement_history (scan_rollout full) <> None \/ existsb is_checkpoint full = false) ->
  rebuilt policy full = items (fst (replay policy (context_manager_new, false) full)).
Proof.
  destruct (scan_rollout_spec full) as (Hb & Hn & _). unfold rebuilt. destruct (base_replacement_history (scan_rollout full)) as [r|] eqn:E.
  - intros _. destruct (Hb r eq_refl) as (mid & c & post & Hfull & Hr & Hsuf). rewrite Hfull at 2. rewrite (replay_checkpoint policy _ mid c post r Hr).
    destruct Hsuf as [-> | [mid' ->]]; [done|]. by rewrite (replay_checkpoint policy _ mid' c post r Hr).
  - intros [Hc|Hc]; [done|]. by destruct (Hn Hc) as [-> _].
Qed.

Lemma reconstruct_rebuilt policy full rec : reconstruct_history_from_rollout policy full = Some rec -> history rec = rebuilt policy full.
Proof.
  unfold reconstruct_history_from_rollout, rebuilt. destruct (replay policy _ (rollout_suffix (scan_rollout full))) as [final legacy].
  destruct (replay_world_state _ _); [|done]. simpl. intros. by simplify_eq.
Qed.

(** *** The rebuilding never panics *)

Definition is_world_record (item : RolloutItem) : bool := match item with Compacted _ | RolloutWorldState _ _ => true | _ => false end.

Definition world_ok (st : ReplayState) : Prop :=
  Forall (fun i => is_world_record i = true) (world_state_replay st) /\
  forall s, active_segment st = Some s -> Forall (fun i => is_world_record i = true) (seg_world_state_replay s).

Lemma default_world_ok st : world_ok st -> Forall (fun i => is_world_record i = true) (seg_world_state_replay (default segment_default (active_segment st))).
Proof. intros [_ Hs]. destruct (active_segment st); [by apply Hs|constructor]. Qed.

Lemma update_world_ok f st :
  world_ok st -> (forall s, Forall (fun i => is_world_record i = true) (seg_world_state_replay s) -> Forall (fun i => is_world_record i = true) (seg_world_state_replay (f s))) ->
  world_ok (update_active f st).
Proof. intros Hok Hf. split; [apply Hok|]. intros s Heq. simpl in Heq. simplify_eq. by apply Hf, default_world_ok. Qed.

Lemma finalize_world_ok s st : world_ok st -> active_segment st = Some s -> world_ok (finalize_active_segment s st).
Proof. intros [Hw Hs] Ha. unfold finalize_active_segment. case_match; split; simpl; try done. apply Forall_app_2; auto. Qed.

Lemma scan_item_world_ok item after st : world_ok st -> world_ok (scan_item item after st).
Proof.
  intros Hok. destruct item as [w|e|comm|b|c|ctx|full v|ev]; cbn [scan_item]; try done; try (by apply update_world_ok).
  - split; [apply Hok|]. intros s Heq. simpl in Heq. simplify_eq. simpl. apply Forall_app_2; [by apply default_world_ok|by repeat constructor].
  - apply update_world_ok; [done|]. intros s Hs. unfold attach_context. destruct (seg_turn_id s); repeat case_match; done.
  - apply update_world_ok; [done|]. intros s Hs. simpl. apply Forall_app_2; [done|by repeat constructor].
  - destruct ev as [n|t|t| |t|]; try done; try (by apply update_world_ok).
    + apply update_world_ok; [done|]. intros s Hs. by destruct (seg_turn_id s).
    + destruct Hok as [Hw Hs]. destruct (active_segment st) as [s|] eqn:Ea.
      * destruct (seg_turn_id s), t; split; simpl; try done; try (rewrite Ea; done). intros s' Heq. simplify_eq. simpl. by apply Hs.
      * destruct t; split; simpl; try done; [intros s' Heq; by simplify_eq|by rewrite Ea].
    + destruct (active_segment st) as [s|] eqn:Ea; [|done]. destruct (turn_ids_are_compatible _ _); [by apply finalize_world_ok|done].
Qed.

Lemma scan_world_ok older : forall after st, world_ok st -> world_ok (scan older after st).
Proof. induction older as [|item older IH]; intros after st Hok; [done|]. cbn [scan]. apply (scan_item_world_ok item after) in Hok. destruct (scan_done _); auto. Qed.

Lemma replay_world_state_total records : Forall (fun i => is_world_record i = true) records -> forall b, is_Some (replay_world_state b records).
Proof.
  induction 1 as [|item records Hi _ IH]; intros b; [by eexists|]. destruct item as [| | | | | |full v|]; try done; simpl; [apply IH|].
  destruct full; [apply IH|]. destruct b; apply IH.
Qed.

(** C13: rebuilding a thread never panics, and the history it rebuilds from the newest compaction that
    survived is the one that replaying every record from the first on gives, when no turn was rolled
    back, when no compaction kept a history, or when some compaction with a history survives the
    rollbacks. *)
Theorem reconstruction_is_replay policy full :
  (existsb is_rollback full = false \/ existsb is_checkpoint full = false \/ base_replacement_history (scan_rollout full) <> None) ->
  exists rec, reconstruct_history_from_rollout policy full = Some rec /\ history rec = items (fst (replay policy (context_manager_new, false) full)).
Proof.
  intros Hcase. assert (Hsome : is_Some (reconstruct_history_from_rollout policy full)).
  { assert (Hok : world_ok (scan_rollout full)).
    { unfold scan_rollout. set (st := scan _ _ _). assert (world_ok st) as Hst by (apply scan_world_ok; by split).
      destruct (active_segment st) eqn:Ea; [by apply finalize_world_ok|done]. }
    unfold reconstruct_history_from_rollout. destruct (replay policy _ _) as [final legacy].
    destruct (replay_world_state_total (rev (world_state_replay (scan_rollout full)))) with (b := @None WorldStateSnapshot) as [b ->]; [|by eexists].
    apply Forall_rev, Hok. }
  destruct Hsome as [rec Hrec]. exists rec. split; [done|]. rewrite (reconstruct_rebuilt _ _ _ Hrec). apply rebuilt_is_replay.
  destruct (existsb is_checkpoint full) eqn:Ec; [|by right]. destruct Hcase as [Hr|[Hc|Hb]]; [|done|by left].
  left. by apply (proj2 (proj2 (scan_rollout_spec full))).
Qed.
End replay.

(** ** On concrete rollouts *)

Module ReplaySamples.
#[local] Existing Instances plain_json plain_history plain_fragments.

#[local] Instance plain_replay : ReplayOps := {|
  ctx_turn_id _ := None; ctx_model _ := lit "m"; ctx_comp_hash _ := None; ctx_realtime_active _ := None;
  parse_user_message item := match item with Message _ _ [InputText t] _ _ => Some t | _ => None end;
  SUMMARY_PREFIX := lit "SUMMARY"; snapshot_from_value v := Some v; apply_merge_patch b _ := Some b;
  Uuid := str; parse_str s := Some s; get_version_num _ := 7%N
|}.

Definition user_item (text : string) : ResponseItemEnvelope := envelope_new (user_text_item (lit text) None).
Definition turn (id text : string) (more : list RolloutItem) : list RolloutItem :=
  [RolloutEvent (TurnStarted (lit id)); RolloutEvent UserMessage; RolloutResponseItem (user_item text)] ++ more ++ [RolloutEvent (TurnComplete (lit id))].
Definition checkpoint (its : list ResponseItemEnvelope) : RolloutItem := Compacted (mkCompacted (lit "s") (Some its) None None None None).

Definition kept_compaction : list RolloutItem :=
  turn "1" "first" [checkpoint [user_item "summary"]] ++ turn "2" "second" [] ++ [RolloutEvent (ThreadRolledBack 1)].

Lemma reconstruction_is_replay_witness :
  exists rec, reconstruct_history_from_rollout (PolicyBytes 1000) kept_compaction = Some rec /\
    history rec = items (fst (replay (PolicyBytes 1000) (context_manager_new, false) kept_compaction)).
Proof. apply (reconstruction_is_replay (PolicyBytes 1000) kept_compaction). right. right. vm_compute. discriminate. Defined.

Example kept_compaction_history : history <$> reconstruct_history_from_rollout (PolicyBytes 1000) kept_compaction = Some [user_item "summary"].
Proof. vm_compute. reflexivity. Qed.

(** Rolling back the turn in which the only compaction happened: the records before the compaction
    are no longer replayed although its history is not used either, and nothing is left of the first
    turn.  Without the compaction the first turn is kept. *)
Example rolled_back_compaction_loses_history :
  history <$> reconstruct_history_from_rollout (PolicyBytes 1000)
    (turn "1" "first" [] ++ turn "2" "second" [checkpoint [user_item "first"; user_item "second"]] ++ [RolloutEvent (ThreadRolledBack 1)]) = Some [] /\
  history <$> reconstruct_history_from_rollout (PolicyBytes 1000)
    (turn "1" "first" [] ++ turn "2" "second" [] ++ [RolloutEvent (ThreadRolledBack 1)]) = Some [user_item "first"].
Proof. split; vm_compute; reflexivity. Qed.

(** A compaction with a history can be met when the records are replayed forward: the scan goes on
    beyond a compaction in a turn without a context of its own, and starts the replay at an older one. *)
Example replay_meets_checkpoint :
  rollout_suffix (scan_rollout (turn "1" "first" [checkpoint [user_item "a"]] ++ turn "2" "second" [checkpoint [user_item "b"]]))
  = [RolloutEvent (TurnComplete (lit "1"))] ++ turn "2" "second" [checkpoint [user_item "b"]].
Proof. vm_compute. reflexivity. Qed.

End ReplaySamples.
