(* ===== verification/Features.v ===== *)
(** * Feature flags

    Models [features/src/lib.rs] and [features/src/legacy.rs], as built for Linux: the registry of
    features, their keys in the configuration with the legacy ones, and how the features that are on
    follow from the defaults, the configuration, a profile and overrides.  Of the settings that some
    features have besides being on ([features/src/feature_configs.rs]) only [enabled] is kept. *)

From stdpp Require Import base gmap strings sets list.
From S2P Require Import Prelude IndexMap TomlMerge.

(** ** Ordered maps *)

(** [BTreeMap]: the entries in the order of their keys. *)
Section btree.
Context {K V : Type} (cmp : K -> K -> comparison).

Fixpoint btree_insert (k : K) (v : V) (m : list (K * V)) : list (K * V) :=
  match m with
  | [] => [(k, v)]
  | (k', v') :: m' =>
      match cmp k k' with
      | Lt => (k, v) :: m
      | Eq => (k, v) :: m'
      | Gt => (k', v') :: btree_insert k v m'
      end
  end.

Definition btree_get (k : K) (m : list (K * V)) : option V := snd <$> find (fun e => match cmp k (fst e) with Eq => true | _ => false end) m.

Lemma btree_get_insert (Hcmp : forall a b, cmp a b = Eq <-> a = b) k v m j :
  btree_get j (btree_insert k v m) = match cmp j k with Eq => Some v | _ => btree_get j m end.
Proof.
  unfold btree_get. induction m as [|[k' v'] m IH]; simpl; [by destruct (cmp j k)|].
  destruct (cmp k k') eqn:E; simpl.
  - apply Hcmp in E as ->. by destruct (cmp j k').
  - by destruct (cmp j k).
  - destruct (cmp j k') eqn:E'; [|apply IH..]. apply Hcmp in E' as ->. destruct (cmp k' k) eqn:E2; [|done..].
    apply Hcmp in E2 as ->. assert (cmp k k = Eq) by by apply Hcmp. congruence.
Qed.
End btree.

Definition str_compare (a b : str) : comparison := if str_eqb a b then Eq else if str_leb a b then Lt else Gt.
Lemma str_compare_eq a b : str_compare a b = Eq <-> a = b.
Proof. unfold str_compare. rewrite <- str_eqb_spec. destruct (str_eqb a b); [done|]. by destruct (str_leb a b). Qed.

(** ** The registry *)

Inductive Stage : Type :=
| UnderDevelopment
| Experimental (name menu_description announcement : str)
| Stable
| Deprecated
| Removed.

Definition experimental_menu_name (s : Stage) : option str := match s with Experimental name _ _ => Some name | _ => None end.
Definition experimental_menu_description (s : Stage) : option str := match s with Experimental _ description _ => Some description | _ => None end.
Definition experimental_announcement (s : Stage) : option str :=
  match s with Experimental _ _ announcement => if is_empty announcement then None else Some announcement | _ => None end.

Inductive Feature : Type :=
| ShellTool | ViewImage | CodexHooks | SecretAuthStorage | ExecutedToolCallMetadata | CodeMode
| CodeModeBufferedExec | CodeModeHost | CodeModeInterrupt | CodeModeOnly | UnifiedExec | ShellZshFork
| UnifiedExecZshFork | TerminalResizeReflow | TerminalVisualizationInstructions
| ApplyPatchStreamingEvents | ApplyPatchPreserveLineEndings | ExecPermissionApprovals
| RequestPermissionsTool | WebSearchRequest | WebSearchCached | StandaloneWebSearch | UseLegacyLandlock
| ShellSnapshot | DeferredExecutor | RuntimeMetrics | MemoryTool | ExternalAgentMemoryImport
| LocalThreadStoreCompression | BackgroundPaginatedRolloutMigration | Chronicle
| EnableRequestCompression | NetworkProxy | RespectSystemProxy | Collab | MultiAgentV2 | MultiAgentMode
| SpawnCsv | Apps | Psp | EnableMcpApps | Mcp20260728 | AppsMcpPathOverride | ToolSearch
| ToolSearchAlwaysDeferMcpTools | DeferredToolWorldState | NonPrefixedMcpToolNames | ToolSuggest
| RecommendedPlugins | Plugins | ExecutorCapabilityDiscovery | PluginHooks | InAppBrowser | InAppUpdates
| BrowserUse | BrowserUseFullCdpAccess | BrowserUseExternal | ComputerUse | RemotePlugin | PluginSharing
| ExternalMigration | ImageGeneration | ImageResizeNotice | UnifiedImageBudget | ResizeAllImages
| ItemIds | ConcurrentReasoningSummaries | SkillMcpDependencyInstall | SkillSearch
| SkillEnvVarDependencyPrompt | MentionsV2 | DefaultModeRequestUserInput | GuardianApproval
| GuardianReuseParentCompaction | GuardianV2 | Goals | TokenBudget | RolloutBudget | CurrentTimeReminder
| ToolCallMcpElicitation | AuthElicitation | Personality | Artifact | FastMode | RealtimeConversation
| PreventIdleSleep | RemoteCompactionV2 | UseAgentIdentity | WorkspaceDependencies | GhostCommit
| JsRepl | JsReplToolsOnly | SearchTool | UseLinuxSandboxBwrap | RequestRule | WindowsSandbox
| WindowsSandboxElevated | RemoteModels | CodexGitCommit | Sqlite | ApplyPatchFreeform
| UnavailableDummyTools | Steer | CollaborationModes | RemoteControl | ImageDetailOriginal
| TuiAppServer | WorkspaceOwnerUsageNudge | ResponsesWebsockets | ResponsesWebsocketsV2.

(** The position of a feature in the declaration, by which features are ordered. *)
Definition ordinal (f : Feature) : nat :=
  match f with
  | ShellTool => 0 | ViewImage => 1 | CodexHooks => 2 | SecretAuthStorage => 3
  | ExecutedToolCallMetadata => 4 | CodeMode => 5 | CodeModeBufferedExec => 6 | CodeModeHost => 7
  | CodeModeInterrupt => 8 | CodeModeOnly => 9 | UnifiedExec => 10 | ShellZshFork => 11
  | UnifiedExecZshFork => 12 | TerminalResizeReflow => 13 | TerminalVisualizationInstructions => 14
  | ApplyPatchStreamingEvents => 15 | ApplyPatchPreserveLineEndings => 16
  | ExecPermissionApprovals => 17 | RequestPermissionsTool => 18 | WebSearchRequest => 19
  | WebSearchCached => 20 | StandaloneWebSearch => 21 | UseLegacyLandlock => 22 | ShellSnapshot => 23
  | DeferredExecutor => 24 | RuntimeMetrics => 25 | MemoryTool => 26 | ExternalAgentMemoryImport => 27
  | LocalThreadStoreCompression => 28 | BackgroundPaginatedRolloutMigration => 29 | Chronicle => 30
  | EnableRequestCompression => 31 | NetworkProxy => 32 | RespectSystemProxy => 33 | Collab => 34
  | MultiAgentV2 => 35 | MultiAgentMode => 36 | SpawnCsv => 37 | Apps => 38 | Psp => 39
  | EnableMcpApps => 40 | Mcp20260728 => 41 | AppsMcpPathOverride => 42 | ToolSearch => 43
  | ToolSearchAlwaysDeferMcpTools => 44 | DeferredToolWorldState => 45 | NonPrefixedMcpToolNames => 46
  | ToolSuggest => 47 | RecommendedPlugins => 48 | Plugins => 49 | ExecutorCapabilityDiscovery => 50
  | PluginHooks => 51 | InAppBrowser => 52 | InAppUpdates => 53 | BrowserUse => 54
  | BrowserUseFullCdpAccess => 55 | BrowserUseExternal => 56 | ComputerUse => 57 | RemotePlugin => 58
  | PluginSharing => 59 | ExternalMigration => 60 | ImageGeneration => 61 | ImageResizeNotice => 62
  | UnifiedImageBudget => 63 | ResizeAllImages => 64 | ItemIds => 65
  | ConcurrentReasoningSummaries => 66 | SkillMcpDependencyInstall => 67 | SkillSearch => 68
  | SkillEnvVarDependencyPrompt => 69 | MentionsV2 => 70 | DefaultModeRequestUserInput => 71
  | GuardianApproval => 72 | GuardianReuseParentCompaction => 73 | GuardianV2 => 74 | Goals => 75
  | TokenBudget => 76 | RolloutBudget => 77 | CurrentTimeReminder => 78 | ToolCallMcpElicitation => 79
  | AuthElicitation => 80 | Personality => 81 | Artifact => 82 | FastMode => 83
  | RealtimeConversation => 84 | PreventIdleSleep => 85 | RemoteCompactionV2 => 86
  | UseAgentIdentity => 87 | WorkspaceDependencies => 88 | GhostCommit => 89 | JsRepl => 90
  | JsReplToolsOnly => 91 | SearchTool => 92 | UseLinuxSandboxBwrap => 93 | RequestRule => 94
  | WindowsSandbox => 95 | WindowsSandboxElevated => 96 | RemoteModels => 97 | CodexGitCommit => 98
  | Sqlite => 99 | ApplyPatchFreeform => 100 | UnavailableDummyTools => 101 | Steer => 102
  | CollaborationModes => 103 | RemoteControl => 104 | ImageDetailOriginal => 105 | TuiAppServer => 106
  | WorkspaceOwnerUsageNudge => 107 | ResponsesWebsockets => 108 | ResponsesWebsocketsV2 => 109
  end.

Definition features_in_order : list Feature := [
  ShellTool; ViewImage; CodexHooks; SecretAuthStorage; ExecutedToolCallMetadata; CodeMode;
  CodeModeBufferedExec; CodeModeHost; CodeModeInterrupt; CodeModeOnly; UnifiedExec; ShellZshFork;
  UnifiedExecZshFork; TerminalResizeReflow; TerminalVisualizationInstructions;
  ApplyPatchStreamingEvents; ApplyPatchPreserveLineEndings; ExecPermissionApprovals;
  RequestPermissionsTool; WebSearchRequest; WebSearchCached; StandaloneWebSearch; UseLegacyLandlock;
  ShellSnapshot; DeferredExecutor; RuntimeMetrics; MemoryTool; ExternalAgentMemoryImport;
  LocalThreadStoreCompression; BackgroundPaginatedRolloutMigration; Chronicle; EnableRequestCompression;
  NetworkProxy; RespectSystemProxy; Collab; MultiAgentV2; MultiAgentMode; SpawnCsv; Apps; Psp;
  EnableMcpApps; Mcp20260728; AppsMcpPathOverride; ToolSearch; ToolSearchAlwaysDeferMcpTools;
  DeferredToolWorldState; NonPrefixedMcpToolNames; ToolSuggest; RecommendedPlugins; Plugins;
  ExecutorCapabilityDiscovery; PluginHooks; InAppBrowser; InAppUpdates; BrowserUse;
  BrowserUseFullCdpAccess; BrowserUseExternal; ComputerUse; RemotePlugin; PluginSharing;
  ExternalMigration; ImageGeneration; ImageResizeNotice; UnifiedImageBudget; ResizeAllImages; ItemIds;
  ConcurrentReasoningSummaries; SkillMcpDependencyInstall; SkillSearch; SkillEnvVarDependencyPrompt;
  MentionsV2; DefaultModeRequestUserInput; GuardianApproval; GuardianReuseParentCompaction; GuardianV2;
  Goals; TokenBudget; RolloutBudget; CurrentTimeReminder; ToolCallMcpElicitation; AuthElicitation;
  Personality; Artifact; FastMode; RealtimeConversation; PreventIdleSleep; RemoteCompactionV2;
  UseAgentIdentity; WorkspaceDependencies; GhostCommit; JsRepl; JsReplToolsOnly; SearchTool;
  UseLinuxSandboxBwrap; RequestRule; WindowsSandbox; WindowsSandboxElevated; RemoteModels;
  CodexGitCommit; Sqlite; ApplyPatchFreeform; UnavailableDummyTools; Steer; CollaborationModes;
  RemoteControl; ImageDetailOriginal; TuiAppServer; WorkspaceOwnerUsageNudge; ResponsesWebsockets;
  ResponsesWebsocketsV2].

Lemma ordinal_lookup f : features_in_order !! ordinal f = Some f.
Proof. by destruct f. Qed.

#[export] Instance feature_eq_dec : EqDecision Feature.
Proof.
  intros f g. destruct (decide (ordinal f = ordinal g)) as [E|E]; [left|right; congruence].
  pose proof (ordinal_lookup f) as Hf. rewrite E, ordinal_lookup in Hf. by simplify_eq.
Defined.
#[export] Instance feature_countable : Countable Feature.
Proof. apply (inj_countable ordinal (fun n => features_in_order !! n)), ordinal_lookup. Defined.

Definition feature_compare (a b : Feature) : comparison := Nat.compare (ordinal a) (ordinal b).
Lemma feature_compare_eq a b : feature_compare a b = Eq <-> a = b.
Proof.
  unfold feature_compare. rewrite Nat.compare_eq_iff. split; [|by intros ->].
  intros E. pose proof (ordinal_lookup a) as Ha. rewrite E, ordinal_lookup in Ha. by simplify_eq.
Qed.

Record FeatureSpec := mkSpec { spec_id : Feature; spec_key : str; spec_stage : Stage; spec_default_enabled : bool }.

Definition FEATURES : list FeatureSpec := [
  mkSpec GhostCommit (lit "undo") Removed false;
  mkSpec ShellTool (lit "shell_tool") Stable true;
  mkSpec ViewImage (lit "view_image") Stable true;
  mkSpec SecretAuthStorage (lit "secret_auth_storage") Stable false;
  mkSpec UnifiedExec (lit "unified_exec") Stable true;
  mkSpec ShellZshFork (lit "shell_zsh_fork") UnderDevelopment false;
  mkSpec UnifiedExecZshFork (lit "unified_exec_zsh_fork") UnderDevelopment false;
  mkSpec ShellSnapshot (lit "shell_snapshot") Stable true;
  mkSpec DeferredExecutor (lit "deferred_executor") UnderDevelopment false;
  mkSpec JsRepl (lit "js_repl") Removed false;
  mkSpec ExecutedToolCallMetadata (lit "executed_tool_call_metadata") UnderDevelopment false;
  mkSpec CodeMode (lit "code_mode") UnderDevelopment false;
  mkSpec CodeModeBufferedExec (lit "code_mode_buffered_exec") Removed false;
  mkSpec CodeModeHost (lit "code_mode_host") Stable true;
  mkSpec CodeModeInterrupt (lit "code_mode_interrupt") UnderDevelopment false;
  mkSpec CodeModeOnly (lit "code_mode_only") UnderDevelopment false;
  mkSpec JsReplToolsOnly (lit "js_repl_tools_only") Removed false;
  mkSpec TerminalResizeReflow (lit "terminal_resize_reflow") Removed true;
  mkSpec WebSearchRequest (lit "web_search_request") Deprecated false;
  mkSpec WebSearchCached (lit "web_search_cached") Deprecated false;
  mkSpec StandaloneWebSearch (lit "standalone_web_search") UnderDevelopment false;
  mkSpec SearchTool (lit "search_tool") Removed false;
  mkSpec CodexGitCommit (lit "codex_git_commit") Removed false;
  mkSpec RuntimeMetrics (lit "runtime_metrics") UnderDevelopment false;
  mkSpec Sqlite (lit "sqlite") Removed true;
  mkSpec MemoryTool (lit "memories") Stable false;
  mkSpec ExternalAgentMemoryImport (lit "external_agent_memory_import") UnderDevelopment false;
  mkSpec LocalThreadStoreCompression (lit "local_thread_store_compression") UnderDevelopment false;
  mkSpec BackgroundPaginatedRolloutMigration (lit "background_paginated_rollout_migration") UnderDevelopment false;
  mkSpec Chronicle (lit "chronicle") UnderDevelopment false;
  mkSpec ApplyPatchFreeform (lit "apply_patch_freeform") Removed false;
  mkSpec ApplyPatchStreamingEvents (lit "apply_patch_streaming_events") UnderDevelopment false;
  mkSpec ApplyPatchPreserveLineEndings (lit "apply_patch_preserve_line_endings") UnderDevelopment false;
  mkSpec ExecPermissionApprovals (lit "exec_permission_approvals") UnderDevelopment false;
  mkSpec CodexHooks (lit "hooks") Stable true;
  mkSpec RequestPermissionsTool (lit "request_permissions_tool") UnderDevelopment false;
  mkSpec UseLinuxSandboxBwrap (lit "use_linux_sandbox_bwrap") Removed false;
  mkSpec UseLegacyLandlock (lit "use_legacy_landlock") Deprecated false;
  mkSpec RequestRule (lit "request_rule") Removed false;
  mkSpec WindowsSandbox (lit "experimental_windows_sandbox") Removed false;
  mkSpec WindowsSandboxElevated (lit "elevated_windows_sandbox") Removed false;
  mkSpec RemoteModels (lit "remote_models") Removed false;
  mkSpec EnableRequestCompression (lit "enable_request_compression") Stable true;
  mkSpec NetworkProxy (lit "network_proxy") (Experimental (lit "Network proxy")
    (lit "Apply network proxy restrictions to sandboxed sessions that already have network access.") (lit "NEW: Network proxy can now be enabled from /experimental. Restart Codex after enabling it.")) false;
  mkSpec RespectSystemProxy (lit "respect_system_proxy") UnderDevelopment false;
  mkSpec Collab (lit "multi_agent") Stable true;
  mkSpec MultiAgentV2 (lit "multi_agent_v2") Stable false;
  mkSpec MultiAgentMode (lit "multi_agent_mode") Removed false;
  mkSpec SpawnCsv (lit "enable_fanout") Removed false;
  mkSpec Apps (lit "apps") Stable true;
  mkSpec Psp (lit "psp") UnderDevelopment false;
  mkSpec EnableMcpApps (lit "enable_mcp_apps") UnderDevelopment false;
  mkSpec Mcp20260728 (lit "mcp_2026_07_28") UnderDevelopment false;
  mkSpec AppsMcpPathOverride (lit "apps_mcp_path_override") Removed false;
  mkSpec ToolSearch (lit "tool_search") Removed false;
  mkSpec ToolSearchAlwaysDeferMcpTools (lit "tool_search_always_defer_mcp_tools") Removed true;
  mkSpec DeferredToolWorldState (lit "deferred_tool_world_state") UnderDevelopment false;
  mkSpec NonPrefixedMcpToolNames (lit "non_prefixed_mcp_tool_names") UnderDevelopment false;
  mkSpec UnavailableDummyTools (lit "unavailable_dummy_tools") Removed false;
  mkSpec ToolSuggest (lit "tool_suggest") Stable true;
  mkSpec RecommendedPlugins (lit "recommended_plugins") Stable false;
  mkSpec Plugins (lit "plugins") Stable true;
  mkSpec ExecutorCapabilityDiscovery (lit "executor_capability_discovery") UnderDevelopment false;
  mkSpec PluginHooks (lit "plugin_hooks") Removed false;
  mkSpec InAppBrowser (lit "in_app_browser") Stable true;
  mkSpec InAppUpdates (lit "in_app_updates") Stable true;
  mkSpec BrowserUse (lit "browser_use") Stable true;
  mkSpec BrowserUseFullCdpAccess (lit "browser_use_full_cdp_access") Stable true;
  mkSpec BrowserUseExternal (lit "browser_use_external") Stable true;
  mkSpec ComputerUse (lit "computer_use") Stable true;
  mkSpec RemotePlugin (lit "remote_plugin") Stable true;
  mkSpec PluginSharing (lit "plugin_sharing") Stable true;
  mkSpec ExternalMigration (lit "external_migration") Removed false;
  mkSpec ImageGeneration (lit "image_generation") Stable true;
  mkSpec ImageResizeNotice (lit "image_resize_notice") UnderDevelopment false;
  mkSpec UnifiedImageBudget (lit "unified_image_budget") UnderDevelopment false;
  mkSpec ResizeAllImages (lit "resize_all_images") Removed true;
  mkSpec ItemIds (lit "item_ids") Removed true;
  mkSpec ConcurrentReasoningSummaries (lit "concurrent_reasoning_summaries") UnderDevelopment false;
  mkSpec SkillMcpDependencyInstall (lit "skill_mcp_dependency_install") Stable true;
  mkSpec SkillSearch (lit "skill_search") Stable true;
  mkSpec SkillEnvVarDependencyPrompt (lit "skill_env_var_dependency_prompt") Removed false;
  mkSpec MentionsV2 (lit "mentions_v2") Stable true;
  mkSpec Steer (lit "steer") Removed true;
  mkSpec DefaultModeRequestUserInput (lit "default_mode_request_user_input") UnderDevelopment false;
  mkSpec TerminalVisualizationInstructions (lit "terminal_visualization_instructions") UnderDevelopment false;
  mkSpec GuardianApproval (lit "guardian_approval") Stable true;
  mkSpec GuardianReuseParentCompaction (lit "guardian_reuse_parent_compaction") UnderDevelopment false;
  mkSpec GuardianV2 (lit "guardianv2") UnderDevelopment false;
  mkSpec Goals (lit "goals") Stable true;
  mkSpec TokenBudget (lit "token_budget") UnderDevelopment false;
  mkSpec RolloutBudget (lit "rollout_budget") UnderDevelopment false;
  mkSpec CurrentTimeReminder (lit "current_time_reminder") UnderDevelopment false;
  mkSpec CollaborationModes (lit "collaboration_modes") Removed true;
  mkSpec ToolCallMcpElicitation (lit "tool_call_mcp_elicitation") Stable true;
  mkSpec AuthElicitation (lit "auth_elicitation") Stable true;
  mkSpec Personality (lit "personality") Stable true;
  mkSpec Artifact (lit "artifact") UnderDevelopment false;
  mkSpec FastMode (lit "fast_mode") Stable true;
  mkSpec RealtimeConversation (lit "realtime_conversation") UnderDevelopment false;
  mkSpec RemoteControl (lit "remote_control") Removed false;
  mkSpec ImageDetailOriginal (lit "image_detail_original") Removed false;
  mkSpec TuiAppServer (lit "tui_app_server") Removed true;
  mkSpec PreventIdleSleep (lit "prevent_idle_sleep") (Experimental (lit "Prevent sleep while running")
    (lit "Keep your computer awake while Codex is running a thread.") (lit "NEW: Prevent sleep while running is now available in /experimental.")) false;
  mkSpec WorkspaceOwnerUsageNudge (lit "workspace_owner_usage_nudge") Removed false;
  mkSpec ResponsesWebsockets (lit "responses_websockets") Removed false;
  mkSpec ResponsesWebsocketsV2 (lit "responses_websockets_v2") Removed false;
  mkSpec RemoteCompactionV2 (lit "remote_compaction_v2") Stable true;
  mkSpec UseAgentIdentity (lit "use_agent_identity") UnderDevelopment false;
  mkSpec WorkspaceDependencies (lit "workspace_dependencies") Stable true].

(** [Feature::info]; there is always one ([info_total]). *)
Definition info (f : Feature) : option FeatureSpec := find (fun spec => bool_decide (spec_id spec = f)) FEATURES.
Definition key (f : Feature) : str := default [] (spec_key <$> info f).
Definition stage (f : Feature) : option Stage := spec_stage <$> info f.
Definition default_enabled (f : Feature) : bool := default false (spec_default_enabled <$> info f).

Definition ALIASES : list (str * Feature) := [
  (lit "connectors", Apps); (lit "enable_experimental_windows_sandbox", WindowsSandbox); (lit "experimental_use_unified_exec_tool", UnifiedExec);
  (lit "request_permissions", ExecPermissionApprovals); (lit "web_search", WebSearchRequest); (lit "imagegenext", ImageGeneration);
  (lit "collab", Collab); (lit "memory_tool", MemoryTool); (lit "telepathy", Chronicle); (lit "codex_hooks", CodexHooks)].

Definition legacy_feature_keys : list str := fst <$> ALIASES.
Definition legacy_feature_for_key (key : str) : option Feature := snd <$> find (fun alias => str_eqb (fst alias) key) ALIASES.
Definition canonical_feature_for_key (key : str) : option Feature := spec_id <$> find (fun spec => str_eqb (spec_key spec) key) FEATURES.
Definition feature_for_key (key : str) : option Feature :=
  match canonical_feature_for_key key with Some f => Some f | None => legacy_feature_for_key key end.
Definition is_known_feature_key (key : str) : bool := str_eqb key (lit "tool_registry") || bool_decide (is_Some (feature_for_key key)).

(** ** Sets of features *)

Record LegacyFeatureUsage := mkUsage { usage_alias : str; usage_feature : Feature; usage_summary : str; usage_details : option str }.
#[export] Instance usage_eq_dec : EqDecision LegacyFeatureUsage.
Proof. solve_decision. Defined.
#[export] Instance usage_countable : Countable LegacyFeatureUsage.
Proof. by apply (inj_countable' (fun u => (usage_alias u, usage_feature u, usage_summary u, usage_details u)) (fun '(a, f, s, d) => mkUsage a f s d)); intros []. Defined.

Record Features := mkFeatures { enabled_set : gset Feature; legacy_usages : gset LegacyFeatureUsage }.
Definition features_default : Features := mkFeatures ∅ ∅.

Definition with_defaults : Features := mkFeatures (list_to_set (spec_id <$> List.filter spec_default_enabled FEATURES)) ∅.
Definition enabled (self : Features) (f : Feature) : bool := bool_decide (f ∈ enabled_set self).
Definition apps_enabled_for_auth (self : Features) (has_chatgpt_auth : bool) : bool := enabled self Apps && has_chatgpt_auth.
Definition use_legacy_landlock (self : Features) : bool := enabled self UseLegacyLandlock.
Definition enable (self : Features) (f : Feature) : Features := mkFeatures ({[f]} ∪ enabled_set self) (legacy_usages self).
Definition disable (self : Features) (f : Feature) : Features := mkFeatures (enabled_set self ∖ {[f]}) (legacy_usages self).
Definition set_enabled (self : Features) (f : Feature) (on : bool) : Features := if on then enable self f else disable self f.
Definition enabled_features (self : Features) : list Feature := List.filter (enabled self) features_in_order.

Definition web_search_details : str :=
  lit "Set `web_search` to `" ++ [34%N] ++ lit "live" ++ [34%N] ++ lit "`, `" ++ [34%N] ++ lit "indexed" ++ [34%N] ++ lit "`, `" ++ [34%N] ++ lit "cached" ++ [34%N]
  ++ lit "`, or `" ++ [34%N] ++ lit "disabled" ++ [34%N] ++ lit "` at the top level (or under a profile) in config.toml if you want to override it.".

Definition legacy_usage_notice (alias : str) (feature : Feature) : str * option str :=
  let canonical := key feature in
  match feature with
  | WebSearchRequest | WebSearchCached =>
      let label :=
        if str_eqb alias (lit "web_search") then lit "[features].web_search"
        else if str_eqb alias (lit "features.web_search_request") || str_eqb alias (lit "web_search_request") then lit "[features].web_search_request"
        else if str_eqb alias (lit "features.web_search_cached") || str_eqb alias (lit "web_search_cached") then lit "[features].web_search_cached"
        else alias in
      (lit "`" ++ label ++ lit "` is deprecated because web search is enabled by default.", Some web_search_details)
  | UseLegacyLandlock =>
      let label :=
        if str_eqb alias (lit "features.use_legacy_landlock") || str_eqb alias (lit "use_legacy_landlock") then lit "[features].use_legacy_landlock" else alias in
      (lit "`" ++ label ++ lit "` is deprecated and will be removed soon.",
       Some (lit "Remove this setting to stop opting into the legacy Linux sandbox behavior."))
  | _ =>
      let label := if contains_char 46 alias || starts_with (lit "[") alias then alias else lit "[features]." ++ alias in
      (lit "`" ++ label ++ lit "` is deprecated. Use `[features]." ++ canonical ++ lit "` instead.",
       if str_eqb alias canonical then None
       else Some (lit "Enable it with `--enable " ++ canonical ++ lit "` or `[features]." ++ canonical ++
                  lit "` in config.toml. See https://developers.openai.com/codex/config-basic#feature-flags for details."))
  end.

Definition record_legacy_usage_force (self : Features) (alias : str) (feature : Feature) : Features :=
  let '(summary, details) := legacy_usage_notice alias feature in
  mkFeatures (enabled_set self) ({[mkUsage alias feature summary details]} ∪ legacy_usages self).
Definition record_legacy_usage (self : Features) (alias : str) (feature : Feature) : Features :=
  if str_eqb alias (key feature) then self else record_legacy_usage_force self alias feature.

(** ** Resolving *)

(** The keys that [apply_map] skips. *)
Definition SKIPPED_KEYS : list str := lit <$>
  ["tui_app_server"; "undo"; "js_repl"; "js_repl_tools_only"; "remote_control"; "apply_patch_freeform"; "tool_search"; "tool_search_always_defer_mcp_tools";
   "apps_mcp_path_override"; "image_detail_original"; "resize_all_images"; "item_ids"; "plugin_hooks"; "skill_env_var_dependency_prompt"; "terminal_resize_reflow"]%string.

(** Keys whose mere presence is recorded. *)
Definition record_deprecated (self : Features) (k : str) : Features :=
  if str_eqb k (lit "web_search_request") then record_legacy_usage_force self (lit "features.web_search_request") WebSearchRequest
  else if str_eqb k (lit "web_search_cached") then record_legacy_usage_force self (lit "features.web_search_cached") WebSearchCached
  else if str_eqb k (lit "use_legacy_landlock") then record_legacy_usage_force self (lit "features.use_legacy_landlock") UseLegacyLandlock
  else self.

(** The body of the loop of [apply_map]. *)
Definition apply_entry (m : list (str * bool)) (self : Features) (entry : str * bool) : Features :=
  let '(k, v) := entry in
  let self := record_deprecated self k in
  if existsb (str_eqb k) SKIPPED_KEYS then self
  else if str_eqb k (lit "imagegenext") && bool_decide (is_Some (btree_get str_compare (key ImageGeneration) m)) then record_legacy_usage self k ImageGeneration
  else match feature_for_key k with
       | Some TuiAppServer | None => self
       | Some feat =>
           let self := if str_eqb k (key feat) then self else record_legacy_usage self k feat in
           if v then enable self feat else disable self feat
       end.

Definition apply_map (self : Features) (m : list (str * bool)) : Features := foldl (apply_entry m) self m.

(** A toggle, or the table of a feature with its [enabled]. *)
Inductive FeatureToml : Type := FeatureEnabled (on : bool) | FeatureConfig (on : option bool).
Definition toml_enabled (t : FeatureToml) : option bool := match t with FeatureEnabled on => Some on | FeatureConfig on => on end.

Record FeaturesToml := mkFeaturesToml {
  toml_code_mode : option FeatureToml;
  toml_code_mode_host : option FeatureToml;
  toml_non_prefixed_mcp_tool_names : option FeatureToml;
  toml_multi_agent_v2 : option FeatureToml;
  toml_token_budget : option FeatureToml;
  toml_rollout_budget : option FeatureToml;
  toml_current_time_reminder : option FeatureToml;
  toml_network_proxy : option FeatureToml;
  toml_entries : list (str * bool)
}.
Definition features_toml_from (entries : list (str * bool)) : FeaturesToml := mkFeaturesToml None None None None None None None None entries.

Definition insert_enabled (f : Feature) (t : option FeatureToml) (m : list (str * bool)) : list (str * bool) :=
  match t ≫= toml_enabled with Some on => btree_insert str_compare (key f) on m | None => m end.

Definition entries (t : FeaturesToml) : list (str * bool) :=
  let m := insert_enabled CodeMode (toml_code_mode t) (toml_entries t) in
  let m := insert_enabled CodeModeHost (toml_code_mode_host t) m in
  let m := insert_enabled NonPrefixedMcpToolNames (toml_non_prefixed_mcp_tool_names t) m in
  let m := insert_enabled MultiAgentV2 (toml_multi_agent_v2 t) m in
  let m := insert_enabled TokenBudget (toml_token_budget t) m in
  let m := insert_enabled RolloutBudget (toml_rollout_budget t) m in
  let m := insert_enabled CurrentTimeReminder (toml_current_time_reminder t) m in
  insert_enabled NetworkProxy (toml_network_proxy t) m.

Definition apply_toml (self : Features) (t : FeaturesToml) : Features := apply_map self (entries t).

Record FeatureOverrides := mkOverrides { override_web_search_request : option bool }.
Definition apply_overrides (o : FeatureOverrides) (features : Features) : Features :=
  match override_web_search_request o with
  | Some on => record_legacy_usage (if on then enable features WebSearchRequest else disable features WebSearchRequest) (lit "web_search_request") WebSearchRequest
  | None => features
  end.

Record FeatureConfigSource := mkSource { source_features : option FeaturesToml; experimental_use_unified_exec_tool : option bool }.

Definition set_if_some (features : Features) (feature : Feature) (maybe_value : option bool) (alias_key : str) : Features :=
  match maybe_value with Some on => record_legacy_usage (set_enabled features feature on) alias_key feature | None => features end.
Definition apply_legacy_toggles (unified_exec : option bool) (features : Features) : Features :=
  set_if_some features UnifiedExec unified_exec (lit "experimental_use_unified_exec_tool").

Definition apply_source (features : Features) (source : FeatureConfigSource) : Features :=
  let features := apply_legacy_toggles (experimental_use_unified_exec_tool source) features in
  match source_features source with Some t => apply_toml features t | None => features end.

Definition normalize_dependencies (self : Features) : Features :=
  if enabled self CodeModeOnly && negb (enabled self CodeMode) then enable self CodeMode else self.

Definition from_sources (base profile : FeatureConfigSource) (overrides : FeatureOverrides) : Features :=
  normalize_dependencies (apply_overrides overrides (foldl apply_source with_defaults [base; profile])).

(** The warning about unstable features that a configuration turns on; [None] for none. *)
Definition is_enabled_value (v : TomlValue) : bool :=
  match v with
  | TomlBoolean b => b
  | TomlTable t => match index_get (lit "enabled") t with Some (TomlBoolean b) => b | _ => false end
  | _ => false
  end.
Definition under_development_key (features : Features) (entry : str * TomlValue) : option str :=
  if is_enabled_value (snd entry) then
    spec ← find (fun spec => str_eqb (spec_key spec) (fst entry)) FEATURES;
    if enabled features (spec_id spec) then match spec_stage spec with UnderDevelopment => Some (spec_key spec) | _ => None end else None
  else None.
Definition unstable_features_warning_event (effective_features : option (list (str * TomlValue))) (suppress_unstable_features_warning : bool) (features : Features)
    (config_path : str) : option str :=
  if suppress_unstable_features_warning then None
  else
    match omap (under_development_key features) (default [] effective_features) with
    | [] => None
    | keys =>
        Some (lit "Under-development features enabled: " ++ join (lit ", ") (sort_by str_leb keys) ++
              lit ". Under-development features are incomplete and may behave unpredictably. To suppress this warning, set `suppress_unstable_features_warning = true` in "
              ++ config_path ++ lit ".")
    end.

(** ** What the registry guarantees *)

Lemma all_features (P : Feature -> bool) : forallb P features_in_order = true -> forall f, P f = true.
Proof. intros H f. rewrite forallb_forall in H. apply H, list_elem_of_In, list_elem_of_lookup. exists (ordinal f). apply ordinal_lookup. Qed.

(** [unreachable!] in [Feature::info] is not reached. *)
Lemma info_total f : is_Some (info f).
Proof. apply (bool_decide_eq_true_1 _). revert f. apply (all_features (fun f => bool_decide (is_Some (info f)))). by vm_compute. Qed.

(** The key of a feature names it; no legacy key hides it. *)
Lemma feature_for_key_key f : feature_for_key (key f) = Some f.
Proof. apply (bool_decide_eq_true_1 _). revert f. apply (all_features (fun f => bool_decide (feature_for_key (key f) = Some f))). by vm_compute. Qed.

Lemma keys_unique f g : key f = key g -> f = g.
Proof. intros E. pose proof (feature_for_key_key f) as Hf. rewrite E, feature_for_key_key in Hf. by simplify_eq. Qed.

Lemma enabled_with_defaults f : enabled with_defaults f = default_enabled f.
Proof. apply Bool.eqb_prop. revert f. apply (all_features (fun f => Bool.eqb (enabled with_defaults f) (default_enabled f))). by vm_compute. Qed.

(** ** How the features follow from the configuration *)

Lemma enabled_enable s f g : enabled (enable s f) g = bool_decide (g = f) || enabled s g.
Proof. unfold enabled, enable. simpl. do 3 case_bool_decide; set_solver. Qed.
Lemma enabled_disable s f g : enabled (disable s f) g = negb (bool_decide (g = f)) && enabled s g.
Proof. unfold enabled, disable. simpl. do 3 case_bool_decide; set_solver. Qed.
Lemma enabled_set_enabled s f on g : enabled (set_enabled s f on) g = if bool_decide (g = f) then on else enabled s g.
Proof. destruct on; simpl; rewrite ?enabled_enable, ?enabled_disable; by case_bool_decide. Qed.
Lemma enabled_record_force s a f g : enabled (record_legacy_usage_force s a f) g = enabled s g.
Proof. unfold record_legacy_usage_force. by destruct (legacy_usage_notice a f). Qed.
Lemma enabled_record s a f g : enabled (record_legacy_usage s a f) g = enabled s g.
Proof. unfold record_legacy_usage. destruct (str_eqb _ _); [done|]. apply enabled_record_force. Qed.
Lemma enabled_record_deprecated s k g : enabled (record_deprecated s k) g = enabled s g.
Proof. unfold record_deprecated. repeat case_match; auto using enabled_record_force. Qed.

(** The feature that an entry of a table turns on or off, if it does. *)
Definition heeded (m : list (str * bool)) (k : str) : option Feature :=
  if existsb (str_eqb k) SKIPPED_KEYS then None
  else if str_eqb k (lit "imagegenext") && bool_decide (is_Some (btree_get str_compare (key ImageGeneration) m)) then None
  else feature_for_key k ≫= fun f => if bool_decide (f = TuiAppServer) then None else Some f.

Lemma apply_entry_enabled m s k v f :
  enabled (apply_entry m s (k, v)) f = if bool_decide (heeded m k = Some f) then v else enabled s f.
Proof.
  unfold apply_entry, heeded. destruct (existsb _ _); [by rewrite bool_decide_eq_false_2, enabled_record_deprecated|].
  destruct (_ && _); [by rewrite bool_decide_eq_false_2, enabled_record, enabled_record_deprecated|].
  destruct (feature_for_key k) as [feat|]; cbn [mbind option_bind]; [|by rewrite bool_decide_eq_false_2, enabled_record_deprecated].
  assert (Hset : forall s', (forall g, enabled s' g = enabled s g) ->
    enabled (if v then enable s' feat else disable s' feat) f = if bool_decide (Some feat = Some f) then v else enabled s f).
  { intros s' Hs. change (if v then enable s' feat else disable s' feat) with (set_enabled s' feat v). rewrite enabled_set_enabled, Hs.
    by do 2 case_bool_decide; simplify_eq. }
  destruct (decide (feat = TuiAppServer)) as [->|E]; [by rewrite bool_decide_eq_false_2, enabled_record_deprecated|]. rewrite (bool_decide_eq_false_2 (feat = _)) by done.
  assert (Hs : forall g, enabled (if str_eqb k (key feat) then record_deprecated s k else record_legacy_usage (record_deprecated s k) k feat) g = enabled s g).
  { intros g. destruct (str_eqb _ _); by rewrite ?enabled_record, enabled_record_deprecated. }
  specialize (Hset _ Hs). rewrite <- Hset. by destruct feat.
Qed.

(** What a table of features says of a feature: the last of the entries that name it decides. *)
Definition table_says (m : list (str * bool)) (f : Feature) : option bool :=
  last (omap (fun '(k, v) => if bool_decide (heeded m k = Some f) then Some v else None) m).

Lemma apply_map_enabled m s f : enabled (apply_map s m) f = default (enabled s f) (table_says m f).
Proof.
  unfold apply_map, table_says.
  assert (forall l s, enabled (foldl (apply_entry m) s l) f =
    default (enabled s f) (last (omap (fun '(k, v) => if bool_decide (heeded m k = Some f) then Some v else None) l))) as Hgen; [|apply Hgen].
  intros l. induction l as [|[k v] l IH] using rev_ind; intros s'; [done|]. rewrite foldl_app, omap_app. cbn [foldl].
  rewrite apply_entry_enabled, IH. simpl. case_bool_decide; simpl; [by rewrite last_snoc|by rewrite app_nil_r].
Qed.

Definition or_says (a b : option bool) : option bool := match a with Some _ => a | None => b end.

(** What a source says: its table, and for one feature the older toggle beside it. *)
Definition source_says (s : FeatureConfigSource) (f : Feature) : option bool :=
  or_says (source_features s ≫= fun t => table_says (entries t) f)
    (if bool_decide (f = UnifiedExec) then experimental_use_unified_exec_tool s else None).

Lemma apply_source_enabled s fs f : enabled (apply_source fs s) f = default (enabled fs f) (source_says s f).
Proof.
  unfold apply_source, source_says, apply_legacy_toggles, set_if_some.
  assert (Ht : enabled (match experimental_use_unified_exec_tool s with Some on => record_legacy_usage (set_enabled fs UnifiedExec on)
      (lit "experimental_use_unified_exec_tool") UnifiedExec | None => fs end) f
    = default (enabled fs f) (if bool_decide (f = UnifiedExec) then experimental_use_unified_exec_tool s else None)).
  { destruct (experimental_use_unified_exec_tool s); [|by case_bool_decide]. rewrite enabled_record, enabled_set_enabled. by case_bool_decide. }
  destruct (source_features s) as [t|]; [|done]. unfold apply_toml. rewrite apply_map_enabled, Ht. cbn [mbind option_bind]. by destruct (table_says _ _).
Qed.

(** Whether a feature is asked for: the override, else the profile, else the configuration, else the
    default decides. *)
Definition requested (base profile : FeatureConfigSource) (overrides : FeatureOverrides) (f : Feature) : bool :=
  default (default_enabled f)
    (or_says (if bool_decide (f = WebSearchRequest) then override_web_search_request overrides else None) (or_says (source_says profile f) (source_says base f))).

Lemma normalize_dependencies_enabled s f :
  enabled (normalize_dependencies s) f = enabled s f || (bool_decide (f = CodeMode) && enabled s CodeModeOnly).
Proof.
  unfold normalize_dependencies. destruct (enabled s CodeModeOnly) eqn:E1; simpl; [|by rewrite andb_false_r, orb_false_r]. rewrite andb_true_r.
  destruct (enabled s CodeMode) eqn:E2; simpl; [|rewrite enabled_enable; apply orb_comm]. destruct (decide (f = CodeMode)) as [->|Hf];
    [by rewrite E2|by rewrite (bool_decide_eq_false_2 (f = _)), orb_false_r].
Qed.

(** C36: a feature is on exactly when it is asked for, where an override comes before the profile, the
    profile before the configuration and that before the default, and where within one table of
    features the last entry that names it, in the order of the keys, decides; but code mode is also on
    whenever the features include the one that leaves only code mode.  Keys that are unknown or
    skipped have no effect. *)
Theorem features_follow_sources base profile overrides f :
  enabled (from_sources base profile overrides) f =
  requested base profile overrides f || (bool_decide (f = CodeMode) && requested base profile overrides CodeModeOnly).
Proof.
  assert (Hreq : forall g, enabled (apply_overrides overrides (foldl apply_source with_defaults [base; profile])) g = requested base profile overrides g).
  { intros g. unfold apply_overrides, requested. cbn [foldl].
    assert (Hs : enabled (apply_source (apply_source with_defaults base) profile) g = default (default_enabled g) (or_says (source_says profile g) (source_says base g))).
    { rewrite !apply_source_enabled, enabled_with_defaults. by destruct (source_says profile g). }
    destruct (override_web_search_request overrides) as [on|]; [|by rewrite Hs; case_bool_decide].
    rewrite enabled_record. change (if on then enable ?s ?x else disable ?s ?x) with (set_enabled s x on). rewrite enabled_set_enabled, Hs. by case_bool_decide. }
  unfold from_sources. by rewrite normalize_dependencies_enabled, !Hreq.
Qed.

(** ** On concrete settings *)

(** For some features the legacy key wins over the one that replaces it, since it comes later in the
    order of keys; for others it does not. *)
Example legacy_key_may_win :
  let fs l := apply_map with_defaults l in
  enabled (fs [(lit "chronicle", false); (lit "telepathy", true)]) Chronicle = true /\
  enabled (fs [(lit "collab", true); (lit "multi_agent", false)]) Collab = false /\
  enabled (fs [(lit "apps", false); (lit "connectors", true)]) Apps = true /\
  enabled (fs [(lit "image_generation", false); (lit "imagegenext", true)]) ImageGeneration = false.
Proof. by vm_compute. Qed.

Example sample_features :
  let t := mkFeaturesToml None None None (Some (FeatureConfig (Some true))) None None None None [(lit "undo", true); (lit "unified_exec", false)] in
  let fs := from_sources (mkSource (Some t) (Some true)) (mkSource None None) (mkOverrides None) in
  enabled fs MultiAgentV2 = true /\ enabled fs UnifiedExec = false /\ enabled fs GhostCommit = false.
Proof. by vm_compute. Qed.
