(* ===== verification/ManagedFeatures.v ===== *)
(** * Managed features

    Models [core/src/config/managed_features.rs] and [ConstrainedWithSource] and [Sourced] of
    [config/src/config_requirements.rs]: the features of a session, of which administrators pin some. *)

From stdpp Require Import base gmap strings sets list sorting.
From S2P Require Import Prelude Constrained Features.

(** ** Requirements *)

Record Sourced (T : Type) := mkSourced { sourced_value : T; sourced_source : RequirementSource }.
Arguments mkSourced {T}.
Arguments sourced_value {T}.
Arguments sourced_source {T}.

(** [FeatureRequirementsToml]: the entries in the order of their keys. *)
Abbreviation FeatureRequirementsToml := (list (str * bool)).

Record ConstrainedWithSource (T : Type) := mkWithSource { constrained : @Constrained T; constraint_source : option RequirementSource }.
Arguments mkWithSource {T}.
Arguments constrained {T}.
Arguments constraint_source {T}.

(** The warnings that are shown at the start, where they are collected. *)
Definition push_feature_requirement_warning (startup_warnings : option (list str)) (message : str) : option (list str) :=
  (fun warnings => warnings ++ [message]) <$> startup_warnings.

Definition pin (f : Feature) (on : bool) (pinned : list (Feature * bool)) : list (Feature * bool) := btree_insert feature_compare f on pinned.

(** The body of the loop of [parse_feature_requirements]. *)
Definition parse_requirement (source : RequirementSource) (state : list (Feature * bool) * option (list str)) (entry : str * bool) :
    list (Feature * bool) * option (list str) :=
  let '(pinned, warnings) := state in
  let '(k, on) := entry in
  if str_eqb k (lit "auto_review") then (pin GuardianApproval on pinned, warnings)
  else
    match canonical_feature_for_key k with
    | Some feature => (pin feature on pinned, warnings)
    | None =>
        match feature_for_key k with
        | Some feature =>
            (pin feature on pinned,
             push_feature_requirement_warning warnings
               (lit "Using legacy `features` requirement `" ++ k ++ lit "` from " ++ source_text source ++ lit "; prefer canonical feature key `" ++ key feature ++ lit "`"))
        | None =>
            (pinned, push_feature_requirement_warning warnings (lit "Ignoring unknown `features` requirement `" ++ k ++ lit "` from " ++ source_text source))
        end
    end.

Definition parse_feature_requirements (reqs : FeatureRequirementsToml) (source : RequirementSource) (warnings : option (list str)) :
    list (Feature * bool) * option (list str) :=
  foldl (parse_requirement source) ([], warnings) reqs.

(** ** Managed features *)

Record ManagedFeatures := mkManaged { managed_value : ConstrainedWithSource Features; pinned_features : list (Feature * bool) }.

Definition managed_default : ManagedFeatures := mkManaged (mkWithSource (allow_any features_default) None) [].

Definition get (self : ManagedFeatures) : Features := value (constrained (managed_value self)).

Definition normalize_candidate (candidate : Features) (pinned : list (Feature * bool)) : Features :=
  normalize_dependencies (foldl (fun candidate '(feature, on) => set_enabled candidate feature on) candidate pinned).

Definition bool_text (b : bool) : str := if b then lit "true" else lit "false".
Definition feature_requirements_display (reqs : list (Feature * bool)) : str :=
  lit "[" ++ join (lit ", ") ((fun '(feature, on) => key feature ++ lit "=" ++ bool_text on) <$> reqs) ++ lit "]".

(** The first pinned feature that is not as it must be. *)
Definition validate_pinned_features_constraint (normalized : Features) (pinned : list (Feature * bool)) (source : option RequirementSource) : option ConstraintError :=
  match source with
  | None => None
  | Some source =>
      match find (fun '(feature, on) => negb (Bool.eqb (enabled normalized feature) on)) pinned with
      | Some (feature, on) =>
          Some (InvalidValue (lit "features") (key feature ++ lit "=" ++ bool_text (enabled normalized feature)) (feature_requirements_display pinned) source)
      | None => None
      end
  end.

(** The features of a configuration under the requirements, with the warnings; the error is wrapped as
    invalid data. *)
Definition from_configured_with_optional_warnings (configured : Features) (reqs : option (Sourced FeatureRequirementsToml)) (warnings : option (list str)) :
    (ManagedFeatures + ConstraintError) * option (list str) :=
  let '(pinned, warnings, source) := match reqs with
    | Some r => (parse_feature_requirements (sourced_value r) (sourced_source r) warnings, Some (sourced_source r))
    | None => ([], warnings, None)
    end in
  let normalized := normalize_candidate configured pinned in
  (match validate_pinned_features_constraint normalized pinned source with
   | Some e => inr e
   | None => inl (mkManaged (mkWithSource (allow_any normalized) source) pinned)
   end, warnings).

Definition from_configured (configured : Features) (reqs : option (Sourced FeatureRequirementsToml)) : ManagedFeatures + ConstraintError :=
  fst (from_configured_with_optional_warnings configured reqs None).
Definition from_configured_with_warnings (configured : Features) (reqs : option (Sourced FeatureRequirementsToml)) (warnings : list str) :
    (ManagedFeatures + ConstraintError) * list str :=
  let '(r, w) := from_configured_with_optional_warnings configured reqs (Some warnings) in (r, default warnings w).

Definition normalize_and_validate (self : ManagedFeatures) (candidate : Features) : Features + ConstraintError :=
  let normalized := normalize_candidate candidate (pinned_features self) in
  match can_set (constrained (managed_value self)) normalized with
  | Some e => inr e
  | None =>
      match validate_pinned_features_constraint normalized (pinned_features self) (constraint_source (managed_value self)) with
      | Some e => inr e
      | None => inl normalized
      end
  end.

Definition managed_can_set (self : ManagedFeatures) (candidate : Features) : option ConstraintError :=
  match normalize_and_validate self candidate with inl _ => None | inr e => Some e end.

Definition managed_set (self : ManagedFeatures) (candidate : Features) : ManagedFeatures * option ConstraintError :=
  match normalize_and_validate self candidate with
  | inr e => (self, Some e)
  | inl normalized =>
      let '(c, e) := set (constrained (managed_value self)) normalized in
      (mkManaged (mkWithSource c (constraint_source (managed_value self))) (pinned_features self), e)
  end.

Definition managed_set_enabled (self : ManagedFeatures) (feature : Feature) (on : bool) : ManagedFeatures * option ConstraintError :=
  managed_set self (set_enabled (get self) feature on).
Definition managed_enable (self : ManagedFeatures) (feature : Feature) : ManagedFeatures * option ConstraintError := managed_set_enabled self feature true.
Definition managed_disable (self : ManagedFeatures) (feature : Feature) : ManagedFeatures * option ConstraintError := managed_set_enabled self feature false.

(** ** Checking a configuration *)

(** The part of [ConfigToml] that is about features. *)
Record FeatureConfigToml := mkConfigToml { config_features : option FeaturesToml; config_use_unified_exec : option bool }.

Definition explicit_feature_settings_in_config (cfg : FeatureConfigToml) : list (str * Feature * bool) :=
  omap (fun '(k, on) => (fun feature => (lit "features." ++ k, feature, on)) <$> feature_for_key k) (from_option entries [] (config_features cfg))
  ++ from_option (fun on => [(lit "experimental_use_unified_exec_tool", UnifiedExec, on)]) [] (config_use_unified_exec cfg).

Definition validate_explicit_feature_settings_in_config_toml (cfg : FeatureConfigToml) (reqs : option (Sourced FeatureRequirementsToml)) : option ConstraintError :=
  r ← reqs;
  let pinned := fst (parse_feature_requirements (sourced_value r) (sourced_source r) None) in
  match find (fun '(_, feature, on) => is_some_and (btree_get feature_compare feature pinned) (fun required => negb (Bool.eqb required on)))
          (explicit_feature_settings_in_config cfg) with
  | Some (path, _, on) => Some (InvalidValue (lit "features") (path ++ lit "=" ++ bool_text on) (feature_requirements_display pinned) (sourced_source r))
  | None => None
  end.

Definition configured_features (cfg : FeatureConfigToml) : Features :=
  from_sources (mkSource (config_features cfg) (config_use_unified_exec cfg)) (mkSource None None) (mkOverrides None).

Definition validate_feature_requirements_in_config_toml (cfg : FeatureConfigToml) (reqs : option (Sourced FeatureRequirementsToml)) : option ConstraintError :=
  match from_configured (configured_features cfg) reqs with inl _ => None | inr e => Some e end.

Definition validate_feature_requirements_for_config_toml (cfg : FeatureConfigToml) (reqs : option (Sourced FeatureRequirementsToml)) : option ConstraintError :=
  match validate_explicit_feature_settings_in_config_toml cfg reqs with
  | Some e => Some e
  | None => validate_feature_requirements_in_config_toml cfg reqs
  end.

(** ** What the requirements ask for *)

Definition requirement_feature (k : str) : option Feature := if str_eqb k (lit "auto_review") then Some GuardianApproval else feature_for_key k.

(** What requirements fix for a feature: the last entry that names it decides. *)
Definition required (reqs : FeatureRequirementsToml) (f : Feature) : option bool :=
  last (omap (fun '(k, on) => if bool_decide (requirement_feature k = Some f) then Some on else None) reqs).

(** Pins in the order of the features. *)
Definition before (a b : Feature * bool) : Prop := ordinal (fst a) < ordinal (fst b).

Lemma Forall_pin P f on pinned : P (f, on) -> Forall P pinned -> Forall P (pin f on pinned).
Proof.
  intros Hf. induction 1 as [|[g b] pinned Hg Hp IH]; [by constructor|]. unfold pin. simpl. destruct (feature_compare f g); by repeat constructor.
Qed.

Lemma sorted_pin f on pinned : StronglySorted before pinned -> StronglySorted before (pin f on pinned).
Proof.
  induction 1 as [|[g b] pinned Hs IH Hb]; [by repeat constructor|]. unfold pin in *. simpl. destruct (feature_compare f g) eqn:E.
  - apply feature_compare_eq in E as ->. by constructor.
  - apply Nat.compare_lt_iff in E. constructor; [by constructor|]. constructor; [done|]. eapply Forall_impl; [exact Hb|]. unfold before. simpl. intros. lia.
  - apply Nat.compare_gt_iff in E. constructor; [done|]. apply Forall_pin; [done|exact Hb].
Qed.

Lemma parse_requirement_pin source pinned warnings k on :
  fst (parse_requirement source (pinned, warnings) (k, on)) = match requirement_feature k with Some f => pin f on pinned | None => pinned end.
Proof.
  unfold parse_requirement, requirement_feature, feature_for_key. destruct (str_eqb k _); [done|]. destruct (canonical_feature_for_key k); [done|].
  by destruct (legacy_feature_for_key k).
Qed.

Lemma parse_feature_requirements_get reqs source warnings :
  let pinned := fst (parse_feature_requirements reqs source warnings) in
  StronglySorted before pinned /\ forall f, btree_get feature_compare f pinned = required reqs f.
Proof.
  unfold parse_feature_requirements, required. induction reqs as [|[k on] reqs [IHs IHg]] using rev_ind; [by split; [constructor|]|].
  cbn zeta in *. rewrite foldl_app. cbn [foldl]. destruct (foldl _ _ reqs) as [pinned w]. rewrite parse_requirement_pin. cbn [fst] in *. split.
  - destruct (requirement_feature k); [by apply sorted_pin|done].
  - intros f. rewrite omap_app. simpl. destruct (requirement_feature k) as [g|].
    + unfold pin. rewrite (btree_get_insert _ feature_compare_eq), IHg. case_bool_decide as E; simpl.
      * simplify_eq. rewrite last_snoc. by rewrite (proj2 (feature_compare_eq f f) eq_refl).
      * rewrite app_nil_r. destruct (feature_compare f g) eqn:Ec; [|done..]. apply feature_compare_eq in Ec. congruence.
    + rewrite bool_decide_eq_false_2 by done. simpl. by rewrite app_nil_r.
Qed.

Lemma btree_get_before f (pinned : list (Feature * bool)) : Forall (fun e => ordinal f < ordinal (fst e)) pinned -> btree_get feature_compare f pinned = None.
Proof.
  induction 1 as [|[g b] pinned Hlt _ IH]; [done|]. unfold btree_get in *. simpl in *.
  destruct (feature_compare f g) eqn:E; [|done..]. apply feature_compare_eq in E as ->. lia.
Qed.

(** Setting the pinned features one after the other. *)
Lemma set_pins_enabled pinned f : StronglySorted before pinned -> forall c,
  enabled (foldl (fun c '(feature, on) => set_enabled c feature on) c pinned) f = default (enabled c f) (btree_get feature_compare f pinned).
Proof.
  induction 1 as [|[g b] pinned _ IH Hb]; intros c; [done|]. cbn [foldl]. rewrite IH, enabled_set_enabled. unfold btree_get at 2. simpl.
  destruct (feature_compare f g) eqn:E.
  - apply feature_compare_eq in E as ->. rewrite (btree_get_before g), bool_decide_eq_true_2; [done..|]. exact Hb.
  - rewrite bool_decide_eq_false_2; [done|]. intros ->. by rewrite (proj2 (feature_compare_eq g g) eq_refl) in E.
  - rewrite bool_decide_eq_false_2; [done|]. intros ->. by rewrite (proj2 (feature_compare_eq g g) eq_refl) in E.
Qed.

Lemma btree_get_elem_of pinned f on : StronglySorted before pinned -> (f, on) ∈ pinned <-> btree_get feature_compare f pinned = Some on.
Proof.
  induction 1 as [|[g b] pinned _ IH Hb]; [split; [by intros ?%elem_of_nil|done]|]. rewrite elem_of_cons. unfold btree_get at 1. simpl.
  destruct (feature_compare f g) eqn:E; simpl.
  - apply feature_compare_eq in E as ->. split; [intros [?|Hin]; [by simplify_eq|]|intros; left; by simplify_eq].
    rewrite Forall_forall in Hb. apply Hb in Hin. unfold before in Hin. simpl in Hin. lia.
  - rewrite <- IH. split; [intros [?|?]; [|done]|by right]. simplify_eq. by rewrite (proj2 (feature_compare_eq g g) eq_refl) in E.
  - rewrite <- IH. split; [intros [?|?]; [|done]|by right]. simplify_eq. by rewrite (proj2 (feature_compare_eq g g) eq_refl) in E.
Qed.

Lemma parse_pins_warnings reqs source warnings warnings' :
  fst (parse_feature_requirements reqs source warnings) = fst (parse_feature_requirements reqs source warnings').
Proof.
  unfold parse_feature_requirements. induction reqs as [|[k on] reqs IH] using rev_ind; [done|]. rewrite !foldl_app. cbn [foldl].
  destruct (foldl _ ([], warnings) reqs), (foldl _ ([], warnings') reqs). simpl in IH. subst. by rewrite !parse_requirement_pin.
Qed.

(** ** Requirements and candidates *)

Section managed.
Context (reqs : option (Sourced FeatureRequirementsToml)).

Definition pins : list (Feature * bool) := match reqs with Some r => fst (parse_feature_requirements (sourced_value r) (sourced_source r) None) | None => [] end.
Definition fixed (f : Feature) : option bool := reqs ≫= fun r => required (sourced_value r) f.

(** What a candidate comes to under the requirements, before dependencies. *)
Definition wanted (candidate : Features) (f : Feature) : bool := default (enabled candidate f) (fixed f).
(** Code mode is required to be off and yet needed. *)
Definition conflicting (candidate : Features) : bool := bool_decide (fixed CodeMode = Some false) && wanted candidate CodeModeOnly.

Lemma pins_spec : StronglySorted before pins /\ forall f, btree_get feature_compare f pins = fixed f.
Proof. unfold pins, fixed. destruct reqs as [r|]; [apply parse_feature_requirements_get|by split; [constructor|]]. Qed.

Lemma normalize_candidate_enabled c f : enabled (normalize_candidate c pins) f = wanted c f || (bool_decide (f = CodeMode) && wanted c CodeModeOnly).
Proof. destruct pins_spec as [Hs Hg]. unfold normalize_candidate. by rewrite normalize_dependencies_enabled, !set_pins_enabled, !Hg by done. Qed.

(** The check of the pins refuses exactly the conflict. *)
Lemma validate_pinned_spec c :
  match validate_pinned_features_constraint (normalize_candidate c pins) pins (sourced_source <$> reqs) with
  | Some e => conflicting c = true
  | None => conflicting c = false
  end.
Proof.
  destruct pins_spec as [Hs Hg]. unfold validate_pinned_features_constraint, conflicting, wanted.
  destruct (sourced_source <$> reqs) as [source|] eqn:Es; [|unfold fixed; destruct reqs; [done|]; by rewrite bool_decide_eq_false_2].
  destruct (find _ pins) as [[f on]|] eqn:Ef.
  - apply find_some in Ef as [Hin Hne]. apply list_elem_of_In in Hin. rewrite btree_get_elem_of, Hg in Hin by done. rewrite normalize_candidate_enabled in Hne. unfold wanted in Hne.
    rewrite Hin in Hne. simpl in Hne. case_bool_decide as E; simpl in Hne; [subst f|by rewrite orb_false_r, Bool.eqb_reflx in Hne].
    destruct on; [by rewrite Bool.eqb_reflx in Hne|]. simpl in Hne. rewrite bool_decide_eq_true_2 by done. simpl. by destruct (default _ _).
  - apply andb_false_iff. destruct (decide (fixed CodeMode = Some false)) as [E|E]; [|left; by apply bool_decide_eq_false_2]. right.
    assert (Hin : (CodeMode, false) ∈ pins) by (by apply btree_get_elem_of; [|rewrite Hg]).
    apply list_elem_of_In, (find_none _ _ Ef), negb_false_iff, Bool.eqb_prop in Hin.
    rewrite normalize_candidate_enabled in Hin. by apply orb_false_iff in Hin as [_ ?].
Qed.
(** ** Every state of managed features *)

(** What a state keeps: the pins and their source, no validator of its own, and the pins and the
    dependencies of its features. *)
Definition managed_ok (m : ManagedFeatures) : Prop :=
  pinned_features m = pins /\ managed_value m = mkWithSource (allow_any (get m)) (sourced_source <$> reqs) /\
  (forall f on, fixed f = Some on -> enabled (get m) f = on) /\ (enabled (get m) CodeModeOnly = true -> enabled (get m) CodeMode = true).

Lemma candidate_ok c : conflicting c = false -> managed_ok (mkManaged (mkWithSource (allow_any (normalize_candidate c pins)) (sourced_source <$> reqs)) pins).
Proof.
  intros Hc. split_and!; [done|done| |]; unfold get; cbn [managed_value constrained allow_any value].
  - intros f on Hf. rewrite normalize_candidate_enabled. unfold wanted at 1. rewrite Hf. simpl. case_bool_decide as E; [subst f|by rewrite orb_false_r].
    destruct on; [done|]. unfold conflicting in Hc. rewrite bool_decide_eq_true_2 in Hc by done. done.
  - rewrite !normalize_candidate_enabled. simpl. rewrite orb_false_r. intros ->. apply orb_true_r.
Qed.

Lemma managed_set_spec m c : managed_ok m -> exists m' e, managed_set m c = (m', e) /\
  if conflicting c then m' = m /\ is_Some e
  else e = None /\ m' = mkManaged (mkWithSource (allow_any (normalize_candidate c pins)) (sourced_source <$> reqs)) pins.
Proof.
  intros (Hp & Hv & _). unfold managed_set, normalize_and_validate. rewrite Hp, Hv. cbn [constrained constraint_source can_set allow_any validator].
  pose proof (validate_pinned_spec c) as Hval. destruct (validate_pinned_features_constraint _ _ _) as [e|]; rewrite Hval; [by exists m, (Some e)|].
  by eexists _, _.
Qed.

Lemma from_configured_spec c warnings : exists r w, from_configured_with_optional_warnings c reqs warnings = (r, w) /\
  if conflicting c then exists e, r = inr e
  else r = inl (mkManaged (mkWithSource (allow_any (normalize_candidate c pins)) (sourced_source <$> reqs)) pins).
Proof.
  unfold from_configured_with_optional_warnings. pose proof (validate_pinned_spec c) as Hval. unfold pins in *. destruct reqs as [s|]; simpl in *.
  - assert (Hp : fst (parse_feature_requirements (sourced_value s) (sourced_source s) warnings) = fst (parse_feature_requirements (sourced_value s) (sourced_source s) None))
      by apply parse_pins_warnings.
    destruct (parse_feature_requirements (sourced_value s) (sourced_source s) warnings) as [p w]. simpl in Hp. subst p.
    destruct (find _ _) as [[f on]|]; rewrite Hval; by eexists _, _; split; [|try eexists].
  - rewrite Hval. by eexists _, _.
Qed.

Inductive managed_by : ManagedFeatures -> Prop :=
| managed_built c warnings m w : from_configured_with_optional_warnings c reqs warnings = (inl m, w) -> managed_by m
| managed_changed m c m' e : managed_by m -> managed_set m c = (m', e) -> managed_by m'.

Lemma managed_by_ok m : managed_by m -> managed_ok m.
Proof.
  induction 1 as [c warnings m w Hb|m c m' e _ IH Hs].
  - destruct (from_configured_spec c warnings) as (r & w' & Hr & Hc). rewrite Hr in Hb. simplify_eq.
    destruct (conflicting c) eqn:E; [by destruct Hc|]. simplify_eq. by apply candidate_ok.
  - destruct (managed_set_spec m c IH) as (m1 & e1 & Hr & Hc). rewrite Hr in Hs. simplify_eq.
    destruct (conflicting c) eqn:E; [by destruct Hc as [-> _]|]. destruct Hc as [-> ->]. by apply candidate_ok.
Qed.

(** C37: whatever features a configuration asks for and however they are changed in a session, each
    feature that the requirements name has the state that they fix, and code mode is on when only code
    mode is left.  A change is refused, and leaves the features as they were, exactly when code mode
    would be needed although the requirements turn it off; otherwise it gives each feature that they fix
    the fixed state and every other the state asked for, and turns code mode on when it is needed. *)
Theorem pinned_features_hold m c : managed_by m ->
  (forall f on, fixed f = Some on -> enabled (get m) f = on) /\ (enabled (get m) CodeModeOnly = true -> enabled (get m) CodeMode = true) /\
  exists m' e, managed_set m c = (m', e) /\
    if conflicting c then m' = m /\ is_Some e
    else e = None /\ forall f, enabled (get m') f = wanted c f || (bool_decide (f = CodeMode) && wanted c CodeModeOnly).
Proof.
  intros Hm%managed_by_ok. pose proof Hm as (_ & _ & Hp & Hd). split_and!; [done|done|].
  destruct (managed_set_spec m c Hm) as (m' & e & Hs & Hc). exists m', e. split; [done|].
  destruct (conflicting c); [done|]. destruct Hc as [-> ->]. split; [done|]. apply normalize_candidate_enabled.
Qed.
End managed.

(** ** On concrete requirements *)

Module ManagedSamples.

Definition sample_requirements : option (Sourced FeatureRequirementsToml) :=
  Some (mkSourced [(lit "code_mode", false); (lit "telepathy", true)] (MdmManagedPreferences (lit "com.openai.codex") (lit "requirements"))).
Definition sample_managed : ManagedFeatures := mkManaged (mkWithSource (allow_any (normalize_candidate with_defaults (pins sample_requirements)))
  (Some (MdmManagedPreferences (lit "com.openai.codex") (lit "requirements")))) (pins sample_requirements).

Lemma pinned_features_hold_witness :
  managed_by sample_requirements sample_managed /\ fixed sample_requirements Chronicle = Some true /\
  enabled (get sample_managed) Chronicle = true /\
  (exists e, snd (managed_enable sample_managed CodeModeOnly) = Some e) /\ enabled (get (fst (managed_disable sample_managed Chronicle))) Chronicle = true.
Proof.
  assert (Hm : managed_by sample_requirements sample_managed) by (by eapply (managed_built _ with_defaults None)).
  destruct (pinned_features_hold sample_requirements sample_managed (set_enabled (get sample_managed) CodeModeOnly true) Hm) as (Hp & _ & m' & e & Hs & Hc).
  destruct (pinned_features_hold sample_requirements sample_managed (set_enabled (get sample_managed) Chronicle false) Hm) as (_ & _ & m2 & e2 & Hs2 & Hc2).
  assert (Hf : fixed sample_requirements Chronicle = Some true) by (by vm_compute). split_and!; [done|done|by apply Hp| |].
  - replace (conflicting _ _) with true in Hc by (by vm_compute). destruct Hc as [_ [x ->]]. exists x. unfold managed_enable, managed_set_enabled. by rewrite Hs.
  - replace (conflicting _ _) with false in Hc2 by (by vm_compute). destruct Hc2 as [_ Hf2]. unfold managed_disable, managed_set_enabled. rewrite Hs2. simpl. by rewrite Hf2.
Defined.

(** A legacy key in the requirements is honoured and gives a warning. *)
Example legacy_requirement_warns :
  snd (from_configured_with_warnings with_defaults sample_requirements []) =
  [lit "Using legacy `features` requirement `telepathy` from MDM com.openai.codex:requirements; prefer canonical feature key `chronicle`"].
Proof. by vm_compute. Qed.
End ManagedSamples.
